(* ===== verification/_CoqProject ===== *)
-Q . S2P
Prelude.v
GoStd.v
CacheControl.v
HeaderMap.v
Api.v
HttpDate.v
Engine.v
Cacheable.v
Evictor.v
SeqTracker.v
ClusterCodec.v
Varint.v
ObjectCodec.v
Wal.v
Snapshot.v
Checkpoint.v
Keys.v
Conditional.v
Bans.v
EvictIndex.v
Hot.v
GoFloat.v
GoStrings.v
RawReq.v
Cookies.v
Negotiate.v
Vary.v
KeyConfig.v
H1Parser.v
UABypass.v
DateFormat.v
FastPath.v
WarmRecord.v
WarmStore.v
WarmSystem.v
WarmRefine.v
Tiered.v
TieredRefine.v
StoreSpec.v
Fill.v
Handler.v
Serve.v
ServeSpec.v
ServeCases.v
Scheduler.v
Flights.v
Batcher.v
