(* ===== verification/Prelude.v ===== *)
(** * bouine: a verification library for an HTTP caching proxy

    bouine is a shared HTTP cache: it parses requests, decides from the stored
    response and the RFC 9111 directives whether to serve, revalidate or fetch,
    stores what the origin allows, keeps objects in a hot tier (memory) and a
    warm tier (segment files with an index, a write-ahead log and snapshots),
    and spreads purges and refreshes over a gossip cluster. This library
    models the parts that carry those decisions and formats, and proves the
    properties they are written for. It is a shallow embedding: one Rocq
    definition per Go function, under its name, with state passed explicitly,
    machine integers as [Z] with their wrap-around written out, byte strings
    as lists of bytes, and errors as values.

    ** The files and the code they model

    - [Prelude] (this file): results, bytes, machine integers, little- and
      big-endian fields, shared lemmas and tactics. [GoStd]: what the code
      uses of Go's [time], [strings], [bytes], [strconv] and [slices].
    - [CacheControl]: src/pkg/header/cachedirectives.go, both scanners (string
      and byte slice) and every directive. Theorems: the scanner parses the
      grammar of RFC 9111 lists, ends within [len(s)] rounds, the two scanners
      agree, the directives that forbid storing are never missed, and
      delta-seconds are exact up to 9223372036.
    - [HeaderMap]: src/pkg/header/headermap.go. Theorems: canonical names
      identify exactly the names equal up to case; lookups after [Set], [Del]
      and [SortEntries].
    - [Api]: src/pkg/api key.go, storage.go, status_ttl.go and the soft purge
      of src/internal/cache/negative.go. Theorems on the key algebra, the
      status-TTL table and the stale windows of a soft purge.
    - [HttpDate]: src/internal/cache/httpdate.go.
    - [Engine]: src/internal/cache/engine.go with its front ends in
      fastheader.go and request.go. The decision core refines a specification
      of RFC 9111 over unbounded integers; a stored response is served only
      when permitted; the two front ends agree.
    - [Cacheable]: src/internal/cache cacheable.go, directives.go,
      unstorable.go, negative.go and the TTL ladder of handler.go. The storage
      gate never lets a forbidden response in; its variants agree.
    - [Evictor]: src/internal/storage evictor, sieve and cachaner. Linked
      lists on an explicit heap; the class [EvictionPolicy] states what the
      two policies share, and the theorems are proved against it: the sweeps
      refine a rotating clock, find a victim within their credit, and keep the
      list equal to the shard's index under every sequence of operations.
    - [SeqTracker]: src/internal/cluster/seqtracker.go. Gossip deduplication
      refines the full history of sequence numbers.
    - [ClusterCodec]: src/internal/cluster codec.go and codec_batch.go. Round
      trips of every frame, decoders that never index out of range, and
      batches that deliver every event once and in order; [BatchLaws] is the
      interface between the batch splitter and the four event codecs.
    - [Varint]: encoding/binary's variable-length integers, for
    - [ObjectCodec]: src/internal/storage/codec.go, the object encoding of the
      warm tier and the peer wire. Round trip, rejection of every truncation,
      and reads that stay inside any blob. [parses] is the relation the proofs
      compose: what a read consumes, and that it fails on any strict prefix.
    - [Wal]: src/internal/storage/wal/wal.go with a concrete CRC-32C. Replay
      returns what was appended and skips a torn tail; the asynchronous log
      conserves entries for every interleaving.
    - [Snapshot]: src/internal/storage/warm/snapshot.go. Round trip and
      rejection of truncated files.
    - [Checkpoint]: src/internal/storage/tiered.go, [initWAL], [walEnqueue] and
      [checkpoint] as a step relation over [Wal]'s log and [Snapshot]'s index.
      A crash between any two steps leaves every key at a value it had, no
      older than its last flushed update; what each restart path rebuilds.
    - [Keys]: the key builders of src/internal/cache/key.go and fastpath.go
      with the query policy of keypolicy.go. The three builders hash one
      canonical string, in one pass or two; parameters may come in any order;
      and two requests share a slot exactly when they are the same request,
      with lemmas for the inputs on which that fails.
    - [Conditional]: src/internal/cache conditional.go, range.go,
      downstreamcc.go. Validators, byte ranges, the header lines a 304
      changes, and a CDN-Cache-Control that stays within the object's clock.
    - [Bans]: src/internal/storage/bans.go with the pattern half of hot.go: the
      ordered ban list, its index, the sharded surrogate set and the compiled
      view. They refine an ordered list of patterns with one time each; a
      lookup matches exactly what a ban of the list covers.
    - [EvictIndex]: what the hot and the warm index share: each key holds its
      own node of the eviction list.
    - [Hot]: src/internal/storage/hot.go over [Evictor] and [Bans]. Critical
      sections interleave freely; a lookup returns only the last object stored
      and not deleted, never a banned one, and shard bytes are exact.
    - [GoFloat], [GoStrings]: strconv.ParseFloat on the [SpecFloat] of the
      Standard Library, and the sorting, cutting and trimming the keys use.
    - [RawReq]: the header array of src/pkg/api/fastpath.go, its lookups, its
      scan flags and the header map built from it.
    - [Cookies]: src/internal/cache cookiename.go and the cookie half of
      keypolicy.go. Bypass rules and the cookie reductions of the variant key.
    - [Negotiate]: the Accept-Encoding and Accept-Language buckets of vary.go.
    - [Vary]: vary.go, the Vary half of key.go, varydrift.go. Every path to a
      variant key hashes one reference string; two requests share a variant
      exactly when the nominated fields agree; the peer gate compares the key
      the fill stored. [SourceLaws] is what a header source promises to the
      key computation, and the header map, the raw request and the fasthttp
      header ([FastLaws]) each discharge it.
    - [KeyConfig]: the key section of src/internal/config/loader.go and its
      compilation in src/cmd/bouine/cmd/builder.go. An accepted configuration
      gives a policy of the shape [Keys], [Cookies] and [Vary] rely on; the
      collapse key of collapse.go is the variant key.
    - [H1Parser]: src/internal/server/h1parser/parser.go, from the reads of a
      connection to the keep-alive loop. The fused scan derives what separate
      scans would, a rebuilt head reads as the same request, and what a
      connection is sent depends on its bytes and not on the reads.
    - [UABypass]: src/internal/cache/uabypass.go, the user-agent rules.
    - [DateFormat]: the Date lines fastpath.go writes without [time.Format],
      and that they read back as the same second.
    - [FastPath]: src/internal/cache/fastpath.go, from the request to a served
      hit or a reason for the slow path. A hit it serves is one the general
      path would serve; what it sends is the stored header block, the body and
      the lines it adds.
    - [WarmRecord]: the records of src/internal/storage/warm/warm.go, their
      checksums, and the scan of a segment file.
    - [WarmStore]: the segments, the index and the operations of warm.go, with
      eviction and both compactions; [Put] ends, and counters are exact.
    - [WarmSystem], [WarmRefine]: the store's critical sections and file
      accesses as a step relation, and the refinement of a map from keys to
      bodies by every interleaving of them.
    - [Tiered]: src/internal/storage/tiered.go, the store over both tiers:
      its configuration, queues and eviction callbacks, the operations, the
      drains, the sync rounds between the tiers and the rewrite of the log.
    - [TieredRefine]: the two tiers together are a lossy map. Whatever runs
      and whichever writes fail, a lookup returns a copy of an object stored
      under the key since its last delete and not banned; lemmas for the
      histories in which that copy is an older one.

    - [StoreSpec]: the store as the handler sees it (the interface of
      src/internal/storage/store.go) and its laws, [StoreLaws]; a plain map and
      the tiered store of [Tiered] are instances.
    - [Fill]: storing a response (handler.go, stream.go, resolver.go): the
      object built from it, the object a 304 or a HEAD refreshes, the resolver
      beside a variant. Stored objects are coherent with the request they were
      stored for; the streaming gate over raw lines is the gate over maps.
    - [Handler], [Serve]: one request handler over any store (handler.go,
      stream.go, resolver.go, sse.go, collapse.go, refresh_registry.go): the
      lookup and the dispatch on the decision, streamed misses, revalidation,
      peers, event streams, unsafe methods, variant sets, purges, background
      jobs and scheduled refreshes. The answers of the origin and of the peers
      are inputs.
    - [ServeSpec]: over any run of events the handler stores and serves only
      bodies that may be shared; every reply has a reason; a filled response
      is found again and removed by a later unsafe request. [ServeCases]:
      what the handler does on edge inputs, by evaluation.
    - [Scheduler]: the refresh scheduler (scheduler.go): the binary heap with
      its index of pointers refines a map from keys to times under every
      interleaving of [Schedule], the drainer and the compaction, and a due
      entry fires within a bounded number of moves.
    - [Flights]: concurrent misses (inflight.go, collapse.go, handler.go,
      stream.go): the sharded table of flights, leaders and followers as a step
      relation; a response is handed only to a request that may share it, and
      every request ends.
    - [Batcher]: the cluster's invalidation batcher (batcher.go, broadcast.go):
      callers, ticks and the flush loop interleave; events are conserved in
      order and a draining pass delivers what was queued at its start.

    Code outside the repository is a parameter with named laws: the 128- and
    64-bit hashes (no law where equality of inputs suffices, injectivity on
    the compared inputs where keys must separate), [strings.ToLower] and
    [strings.EqualFold] outside ASCII ([LowerLaws]), the fasthttp header
    ([FastLaws]) and its request reader ([FramedByBytes]), a fasthttp request
    that stands for a raw one ([SameRequest]), the growth of a slice by
    [append] ([GrowLaws]), the node a [sync.Pool] hands out (one that is not
    in use), what a write to a file leaves there, the regular expressions of
    bans, and net/url ([NetURL]). Each class has a concrete instance.

    ** Bounds and fuel

    Loops whose recursion is not structural carry fuel, and a lemma or theorem
    shows the amount is enough: the length of the value for the scanners, the
    cut loops and the log's replay (each round consumes a byte or a record),
    nine continuation bytes for a 64-bit varint, 4097 rounds for the dedup
    window (one per slot and the last test), the probe budget itself for the
    sweeps, the number of entries for the loops that pop, evict or reap, 64
    doublings for the surrogate table, four rounds of the warm [Put] and two
    of [Delete] as in the code, one round per byte for the scan of a segment,
    the bytes and events a connection still
    holds for the read loop. The keep-alive loop takes a number of requests as
    an argument, and its theorem holds for every number. Lengths are assumed
    to fit a Go slice (below 2^63).

    ** What is not modelled

    Network and file I/O, goroutine scheduling other than the interleavings
    of [Checkpoint], [Wal], [Hot], [WarmSystem], [Scheduler], [Flights] and
    [Batcher], third-party packages (fasthttp,
    memberlist, the hash of the key), metrics, the configuration sections
    other than the cache key, the dashboard and the admin API. Lazily rendered
    header blocks of an object are pure caches and left out. Of the warm tier,
    preallocation, syncing and free-space checks are left out, and its files
    may be closed at any time instead of by the descriptor cache's order.
    The operations of the tiered store run one at a time, because the
    interleavings inside each tier are those of [Hot] and [WarmSystem].
    A request of [Serve] leads its own flight, and [Flights] has the requests
    that share one; the semaphores that shed a fetch (their outcome is an input)
    and the rewriting of the headers a client is sent are left out.
    Not in the library for their own reasons: the cluster's membership
    (memberlist), the Cloudflare client, the other sections of the
    configuration, forwarding headers, rate limits and the path rewrites
    (regular expressions). *)

From Stdlib Require Export ZArith Lia.
From Stdlib.Strings Require Export Byte.
From stdpp Require Export base numbers option gmap strings list.

#[global] Open Scope Z_scope.

(** ** Results of fallible code: Go's [(value, error)] returns *)

Inductive result (E A : Type) : Type :=
| Ok (a : A)
| Err (e : E).
Arguments Ok {E A} _.
Arguments Err {E A} _.

Definition is_ok {E A} (r : result E A) : bool :=
  match r with Ok _ => true | Err _ => false end.

Declare Scope go_scope.
Delimit Scope go_scope with go.
Notation "'let!' x ':=' r 'in' k" :=
  (match r with Ok x => k | Err e => Err e end)
  (at level 10, x pattern, r at level 100, k at level 200) : go_scope.
#[global] Open Scope go_scope.

(** ** Bytes and byte strings

    Go strings and byte slices are byte sequences: both are [bytes]. A
    literal ["no-cache"] of the source is written [bs "no-cache"]. *)

Abbreviation bytes := (list byte).

Definition bs (s : string) : bytes := String.list_byte_of_string s.

Definition Zb (b : byte) : Z := Z.of_N (Byte.to_N b).

(** Conversion of an integer to a byte keeps the low eight bits. *)
Definition bZ (z : Z) : byte :=
  match Byte.of_N (Z.to_N (z mod 256)) with
  | Some b => b
  | None => x00
  end.

(** The character constant ['c'] of the source. *)
Definition ch (s : string) : byte := default x00 (head (bs s)).

#[export] Instance byte_eq_dec : EqDecision byte := Byte.byte_eq_dec.
#[export] Instance byte_countable : Countable byte :=
  inj_countable Byte.to_N Byte.of_N Byte.of_to_N.

Lemma Zb_range (b : byte) : 0 <= Zb b < 256.
Proof.
  unfold Zb. pose proof (Byte.to_N_bounded b). lia.
Qed.

Lemma bZ_Zb (b : byte) : bZ (Zb b) = b.
Proof.
  unfold bZ. pose proof (Zb_range b). rewrite Z.mod_small by lia.
  unfold Zb. rewrite N2Z.id, Byte.of_to_N. done.
Qed.

Lemma Zb_bZ (z : Z) : Zb (bZ z) = z mod 256.
Proof.
  unfold bZ. pose proof (Z.mod_pos_bound z 256 ltac:(lia)).
  destruct (Byte.of_N _) as [b|] eqn:E.
  - apply Byte.to_of_N in E. unfold Zb. rewrite E. lia.
  - apply Byte.of_N_None_iff in E. lia.
Qed.

Lemma Zb_inj (a b : byte) : Zb a = Zb b -> a = b.
Proof. intros H. by rewrite <- (bZ_Zb a), <- (bZ_Zb b), H. Qed.

Definition beqb (a b : byte) : bool := bool_decide (a = b).

Lemma beqb_eq (a b : byte) : beqb a b = true <-> a = b.
Proof. apply bool_decide_eq_true. Qed.

Lemma beqb_neq (a b : byte) : beqb a b = false <-> a <> b.
Proof. apply bool_decide_eq_false. Qed.

Lemma beqb_refl (a : byte) : beqb a a = true.
Proof. by apply beqb_eq. Qed.

(** Byte range tests, as Go's [c >= 'a' && c <= 'z']. *)
Definition in_range (lo hi : string) (c : byte) : bool :=
  (Zb (ch lo) <=? Zb c) && (Zb c <=? Zb (ch hi)).
Definition is_lower (c : byte) : bool := in_range "a" "z" c.
Definition is_upper (c : byte) : bool := in_range "A" "Z" c.
Definition is_digit (c : byte) : bool := in_range "0" "9" c.

(** Equality of byte strings ([==] on Go strings). *)
Definition beq (a b : bytes) : bool := bool_decide (a = b).

Lemma beq_eq (a b : bytes) : beq a b = true <-> a = b.
Proof. apply bool_decide_eq_true. Qed.

Lemma beq_neq (a b : bytes) : beq a b = false <-> a <> b.
Proof. apply bool_decide_eq_false. Qed.

Lemma beq_refl (a : bytes) : beq a a = true.
Proof. by apply beq_eq. Qed.

(** [len(s)]: an int. *)
Definition len {A} (l : list A) : Z := Z.of_nat (length l).

Lemma len_nonneg {A} (l : list A) : 0 <= len l.
Proof. unfold len. lia. Qed.

Lemma len_app {A} (l k : list A) : len (l ++ k) = len l + len k.
Proof. unfold len. rewrite length_app. lia. Qed.

Lemma len_cons {A} (x : A) (l : list A) : len (x :: l) = 1 + len l.
Proof. unfold len. simpl. lia. Qed.

(** ** Machine integers: values are [Z], the wrap-around is explicit *)

Definition u8 (z : Z) : Z := z mod 2^8.
Definition u16 (z : Z) : Z := z mod 2^16.
Definition u32 (z : Z) : Z := z mod 2^32.
Definition u64 (z : Z) : Z := z mod 2^64.
Definition i32 (z : Z) : Z := (z + 2^31) mod 2^32 - 2^31.
Definition i64 (z : Z) : Z := (z + 2^63) mod 2^64 - 2^63.

Definition in_u32 (z : Z) : Prop := 0 <= z < 2^32.
Definition in_u64 (z : Z) : Prop := 0 <= z < 2^64.
Definition in_i32 (z : Z) : Prop := - 2^31 <= z < 2^31.
Definition in_i64 (z : Z) : Prop := - 2^63 <= z < 2^63.

Definition max_i64 : Z := 2^63 - 1.
Definition min_i64 : Z := - 2^63.

Create HintDb ints.
Create Rewrite HintDb ints.

Lemma u64_id (z : Z) : in_u64 z -> u64 z = z.
Proof. unfold in_u64, u64. intros. by apply Z.mod_small. Qed.

Lemma u32_id (z : Z) : in_u32 z -> u32 z = z.
Proof. unfold in_u32, u32. intros. by apply Z.mod_small. Qed.

Lemma i64_id (z : Z) : in_i64 z -> i64 z = z.
Proof. unfold in_i64, i64. intros. rewrite Z.mod_small; lia. Qed.

Lemma i32_id (z : Z) : in_i32 z -> i32 z = z.
Proof. unfold in_i32, i32. intros. rewrite Z.mod_small; lia. Qed.

Lemma u64_range (z : Z) : in_u64 (u64 z).
Proof. unfold in_u64, u64. apply Z.mod_pos_bound. lia. Qed.

Lemma u32_range (z : Z) : in_u32 (u32 z).
Proof. unfold in_u32, u32. apply Z.mod_pos_bound. lia. Qed.

Lemma i64_range (z : Z) : in_i64 (i64 z).
Proof.
  unfold in_i64, i64. pose proof (Z.mod_pos_bound (z + 2^63) (2^64)). lia.
Qed.

Lemma i32_range (z : Z) : in_i32 (i32 z).
Proof.
  unfold in_i32, i32. pose proof (Z.mod_pos_bound (z + 2^31) (2^32)). lia.
Qed.

(** Signed and unsigned reinterpretations of one word cancel. *)
Lemma i64_u64 (z : Z) : in_i64 z -> i64 (u64 z) = z.
Proof.
  unfold in_i64, i64, u64. intros. rewrite Zplus_mod_idemp_l.
  rewrite Z.mod_small; lia.
Qed.

Lemma i32_u32 (z : Z) : in_i32 z -> i32 (u32 z) = z.
Proof.
  unfold in_i32, i32, u32. intros. rewrite Zplus_mod_idemp_l.
  rewrite Z.mod_small; lia.
Qed.

Lemma u64_i64 (z : Z) : in_u64 z -> u64 (i64 z) = z.
Proof.
  unfold in_u64, i64, u64. intros.
  rewrite Zminus_mod_idemp_l. rewrite Z.add_simpl_r.
  by apply Z.mod_small.
Qed.

(** Wrapping the operands first does not change a wrapped difference. *)
Lemma i64_sub_wrap (a b : Z) : i64 (i64 a - i64 b) = i64 (a - b).
Proof.
  unfold i64. f_equal.
  replace ((a + 2 ^ 63) mod 2 ^ 64 - 2 ^ 63 - ((b + 2 ^ 63) mod 2 ^ 64 - 2 ^ 63) + 2 ^ 63)
    with ((a + 2 ^ 63) mod 2 ^ 64 - (b + 2 ^ 63) mod 2 ^ 64 + 2 ^ 63) by lia.
  rewrite <- Zplus_mod_idemp_l, <- Zminus_mod, Zplus_mod_idemp_l. f_equal. lia.
Qed.

#[export] Hint Resolve u64_range u32_range i64_range i32_range Zb_range len_nonneg : ints.
#[export] Hint Rewrite Zb_bZ bZ_Zb : ints.

(** ** Fixed-width byte encodings ([encoding/binary]) *)

Fixpoint put_le (n : nat) (z : Z) : bytes :=
  match n with
  | O => []
  | S n => bZ z :: put_le n (z / 256)
  end.

Fixpoint get_le (l : bytes) : Z :=
  match l with
  | [] => 0
  | b :: l => Zb b + 256 * get_le l
  end.

Definition put_be (n : nat) (z : Z) : bytes := rev (put_le n z).
Definition get_be (l : bytes) : Z := get_le (rev l).

Lemma length_put_le (n : nat) (z : Z) : length (put_le n z) = n.
Proof. revert z; induction n; intros; simpl; [done|by rewrite IHn]. Qed.

Lemma len_put_le (n : nat) (z : Z) : len (put_le n z) = Z.of_nat n.
Proof. unfold len. by rewrite length_put_le. Qed.

Lemma length_put_be (n : nat) (z : Z) : length (put_be n z) = n.
Proof. unfold put_be. rewrite length_rev. apply length_put_le. Qed.

Lemma get_put_le (n : nat) (z : Z) : get_le (put_le n z) = z mod 256 ^ Z.of_nat n.
Proof.
  revert z; induction n as [|n IH]; intros z.
  - simpl. by rewrite Z.mod_1_r.
  - cbn [put_le get_le]. rewrite IH, Zb_bZ.
    rewrite Nat2Z.inj_succ, Z.pow_succ_r by lia.
    pose proof (Z.pow_pos_nonneg 256 (Z.of_nat n)) as Hp.
    rewrite Z.rem_mul_r by lia. lia.
Qed.

Lemma get_le_range (l : bytes) : 0 <= get_le l < 256 ^ Z.of_nat (length l).
Proof.
  induction l as [|b l IH]; [simpl; lia|].
  cbn [get_le length]. rewrite Nat2Z.inj_succ, Z.pow_succ_r by lia.
  pose proof (Zb_range b). lia.
Qed.

Lemma put_get_le (l : bytes) : put_le (length l) (get_le l) = l.
Proof.
  induction l as [|b l IH]; [done|]. cbn [get_le length put_le].
  pose proof (Zb_range b). f_equal.
  - apply Zb_inj. rewrite Zb_bZ.
    rewrite (Z.mul_comm 256), Z.mod_add by lia. by apply Z.mod_small.
  - rewrite (Z.mul_comm 256), Z.div_add by lia.
    by rewrite Z.div_small, Z.add_0_l by lia.
Qed.

Lemma get_put_be (n : nat) (z : Z) : get_be (put_be n z) = z mod 256 ^ Z.of_nat n.
Proof. unfold get_be, put_be. rewrite rev_involutive. apply get_put_le. Qed.

Lemma put_get_be (l : bytes) : put_be (length l) (get_be l) = l.
Proof.
  unfold get_be, put_be. rewrite <- (length_rev l), put_get_le.
  apply rev_involutive.
Qed.

Lemma get_be_range (l : bytes) : 0 <= get_be l < 256 ^ Z.of_nat (length l).
Proof. unfold get_be. rewrite <- length_rev. apply get_le_range. Qed.

(** The three widths the wire formats use. *)
Lemma get_put_le8 (z : Z) : get_le (put_le 8 z) = u64 z.
Proof. rewrite get_put_le. reflexivity. Qed.

Lemma get_put_le4 (z : Z) : get_le (put_le 4 z) = u32 z.
Proof. rewrite get_put_le. reflexivity. Qed.

Lemma get_put_le2 (z : Z) : get_le (put_le 2 z) = u16 z.
Proof. rewrite get_put_le. reflexivity. Qed.

#[export] Hint Rewrite get_put_le8 get_put_le4 get_put_le2 : ints.

(** ** Automation *)

(** Case analysis on the boolean tests of the code, turning them into
    propositions. *)
Ltac bool_cases :=
  repeat match goal with
  | H : _ && _ = true |- _ => apply andb_prop in H as [??]
  | H : _ && _ = false |- _ => apply andb_false_iff in H as [?|?]
  | H : _ || _ = true |- _ => apply orb_prop in H as [?|?]
  | H : _ || _ = false |- _ => apply orb_false_elim in H as [??]
  | H : negb _ = true |- _ => apply negb_true_iff in H
  | H : negb _ = false |- _ => apply negb_false_iff in H
  | H : (_ <? _) = true |- _ => apply Z.ltb_lt in H
  | H : (_ <? _) = false |- _ => apply Z.ltb_ge in H
  | H : (_ <=? _) = true |- _ => apply Z.leb_le in H
  | H : (_ <=? _) = false |- _ => apply Z.leb_gt in H
  | H : (_ =? _) = true |- _ => apply Z.eqb_eq in H
  | H : (_ =? _) = false |- _ => apply Z.eqb_neq in H
  | H : (_ >? _) = _ |- _ => rewrite Z.gtb_ltb in H
  | H : (_ >=? _) = _ |- _ => rewrite Z.geb_leb in H
  | H : beq _ _ = true |- _ => apply beq_eq in H
  | H : beq _ _ = false |- _ => apply beq_neq in H
  | H : beqb _ _ = true |- _ => apply beqb_eq in H
  | H : beqb _ _ = false |- _ => apply beqb_neq in H
  end.

(** Split on every test of the goal. *)
Ltac case_tests :=
  repeat match goal with
  | |- context [if ?b then _ else _] => destruct b eqn:?
  end.

(** The same on hypotheses. *)
Ltac case_tests_in H :=
  repeat match type of H with
  | context [if ?b then _ else _] => destruct b eqn:?
  end.

(** Decide a statement about every byte by running through the 256 cases. *)
Ltac each_byte b := destruct b; vm_compute; try reflexivity; try congruence.

(** ** Generic list lemmas *)

Lemma take_drop_app {A} (l k : list A) :
  take (length l) (l ++ k) = l /\ drop (length l) (l ++ k) = k.
Proof. split; [apply take_app_length | apply drop_app_length]. Qed.

Lemma drop_app_exact {A} (n : nat) (l k : list A) :
  length l = n -> drop n (l ++ k) = k.
Proof. intros <-. apply drop_app_length. Qed.

Lemma take_app_exact {A} (n : nat) (l k : list A) :
  length l = n -> take n (l ++ k) = l.
Proof. intros <-. apply take_app_length. Qed.
