(* ===== verification/GoStd.v ===== *)
(** * The parts of Go's standard library the modelled code relies on

    [time.Time] and [time.Duration] arithmetic, the [strings] and [strconv]
    functions that appear in the cache engine, and a stable sort
    ([slices.SortStableFunc]). Everything is executable. *)

From S2P Require Import Prelude.

(** ** time *)

(** An instant is its number of nanoseconds since the Unix epoch; locations
    and monotonic readings play no part in the modelled code. *)
Abbreviation Time := Z.
(** A duration is an int64 number of nanoseconds. *)
Abbreviation Duration := Z.

Definition Second : Duration := 1000000000.
Definition Hour : Duration := 3600 * Second.

(** [time.Time{}]: midnight, January 1st of year 1. *)
Definition zero_time : Time := -62135596800 * Second.
Definition is_zero (t : Time) : bool := t =? zero_time.

(** [t.Sub(u)] saturates at the extreme durations. *)
Definition t_sub (t u : Time) : Duration := Z.max min_i64 (Z.min max_i64 (t - u)).
Definition t_add (t : Time) (d : Duration) : Time := t + d.
Definition t_before (t u : Time) : bool := t <? u.
Definition t_after (t u : Time) : bool := u <? t.
(** [t.UnixNano()] is an int64. *)
Definition unix_nano (t : Time) : Z := i64 t.

(** Duration arithmetic is int64 arithmetic and wraps. *)
Definition d_add (a b : Duration) : Duration := i64 (a + b).
Definition d_sub (a b : Duration) : Duration := i64 (a - b).
Definition d_mul (a b : Duration) : Duration := i64 (a * b).
(** [d / n] truncates towards zero. *)
Definition d_quot (a b : Duration) : Duration := Z.quot a b.
(** [d.Truncate(m)] *)
Definition d_truncate (d m : Duration) : Duration :=
  if m <=? 0 then d else d - Z.rem d m.

Lemma t_sub_range (t u : Time) : in_i64 (t_sub t u).
Proof. unfold in_i64, t_sub, min_i64, max_i64. lia. Qed.

Lemma t_sub_exact (t u : Time) : in_i64 (t - u) -> t_sub t u = t - u.
Proof. unfold in_i64, t_sub, min_i64, max_i64. lia. Qed.

Lemma t_sub_le (t u : Time) (d : Duration) :
  in_i64 d -> t_sub t u <= d <-> t - u <= d \/ d = max_i64.
Proof. unfold in_i64, t_sub, min_i64, max_i64. lia. Qed.

#[export] Hint Resolve t_sub_range : ints.

(** ** strings *)

(** The white space of [strings.TrimSpace]: ASCII spaces, and the UTF-8
    encodings of the other runes [unicode.IsSpace] accepts. *)
Definition ascii_space (c : byte) : bool :=
  (Zb c =? 32) || ((9 <=? Zb c) && (Zb c <=? 13)).
Definition space2 (a b : byte) : bool :=
  (Zb a =? 194) && ((Zb b =? 133) || (Zb b =? 160)).
Definition space3 (a b c : byte) : bool :=
  ((Zb a =? 225) && (Zb b =? 154) && (Zb c =? 128)) ||
  ((Zb a =? 226) && (Zb b =? 128) &&
     (((128 <=? Zb c) && (Zb c <=? 138)) || (Zb c =? 168) || (Zb c =? 169) || (Zb c =? 175))) ||
  ((Zb a =? 226) && (Zb b =? 129) && (Zb c =? 159)) ||
  ((Zb a =? 227) && (Zb b =? 128) && (Zb c =? 128)).

Fixpoint trim_left_with (p2 : byte -> byte -> bool) (p3 : byte -> byte -> byte -> bool)
    (s : bytes) : bytes :=
  match s with
  | [] => []
  | a :: s1 =>
      if ascii_space a then trim_left_with p2 p3 s1 else
      match s1 with
      | [] => s
      | b :: s2 =>
          if p2 a b then trim_left_with p2 p3 s2 else
          match s2 with
          | [] => s
          | c :: s3 => if p3 a b c then trim_left_with p2 p3 s3 else s
          end
      end
  end.

Definition trim_left (s : bytes) : bytes := trim_left_with space2 space3 s.
Definition trim_right (s : bytes) : bytes :=
  rev (trim_left_with (fun a b => space2 b a) (fun a b c => space3 c b a) (rev s)).
(** [strings.TrimSpace] *)
Definition trim_space (s : bytes) : bytes := trim_right (trim_left s).

(** [strings.Trim(s, "c")] for a one-byte cutset. *)
Fixpoint trim_left_byte (c : byte) (s : bytes) : bytes :=
  match s with
  | [] => []
  | a :: s' => if beqb a c then trim_left_byte c s' else s
  end.
Definition trim_byte (c : byte) (s : bytes) : bytes :=
  rev (trim_left_byte c (rev (trim_left_byte c s))).

(** [strings.IndexByte]: the position of the first [c], or -1. *)
Fixpoint index_byte (c : byte) (s : bytes) : Z :=
  match s with
  | [] => -1
  | a :: s' =>
      if beqb a c then 0
      else let i := index_byte c s' in if i <? 0 then -1 else 1 + i
  end.

Definition contains_byte (c : byte) (s : bytes) : bool := 0 <=? index_byte c s.

(** [strings.HasPrefix] *)
Fixpoint has_prefix (s p : bytes) : bool :=
  match p, s with
  | [], _ => true
  | _ :: _, [] => false
  | a :: p', b :: s' => beqb a b && has_prefix s' p'
  end.

(** [strings.Contains] *)
Fixpoint contains (s sub : bytes) : bool :=
  has_prefix s sub || match s with [] => false | _ :: s' => contains s' sub end.

(** [strings.Split(s, "c")] *)
Fixpoint split_byte (c : byte) (s : bytes) : list bytes :=
  match s with
  | [] => [[]]
  | a :: s' =>
      if beqb a c then [] :: split_byte c s'
      else match split_byte c s' with
           | [] => [[a]]
           | w :: ws => (a :: w) :: ws
           end
  end.

(** [strings.SplitN(s, "c", 2)] / [strings.Cut]: the parts around the first [c]. *)
Fixpoint cut_byte (c : byte) (s : bytes) : option (bytes * bytes) :=
  match s with
  | [] => None
  | a :: s' =>
      if beqb a c then Some ([], s')
      else match cut_byte c s' with
           | Some (l, r) => Some (a :: l, r)
           | None => None
           end
  end.

(** [strings.Join] *)
Fixpoint join (sep : bytes) (l : list bytes) : bytes :=
  match l with
  | [] => []
  | [w] => w
  | w :: ws => w ++ sep ++ join sep ws
  end.

(** ASCII lower-casing of one byte, and the ASCII case-insensitive equality
    [strings.EqualFold] computes on strings with no [k] or [s] (the letters
    with a non-ASCII case variant). *)
Definition lower_byte (c : byte) : byte := if is_upper c then bZ (Zb c + 32) else c.
Definition equal_fold (a b : bytes) : bool := beq (map lower_byte a) (map lower_byte b).

(** [strings.Compare]: byte-wise lexicographic order. *)
Fixpoint bytes_cmp (a b : bytes) : comparison :=
  match a, b with
  | [], [] => Eq
  | [], _ :: _ => Lt
  | _ :: _, [] => Gt
  | x :: a', y :: b' =>
      match Zb x ?= Zb y with
      | Eq => bytes_cmp a' b'
      | c => c
      end
  end.
Definition bytes_leb (a b : bytes) : bool :=
  match bytes_cmp a b with Gt => false | _ => true end.
Definition bytes_gtb (a b : bytes) : bool :=
  match bytes_cmp a b with Gt => true | _ => false end.

Lemma bytes_cmp_refl (a : bytes) : bytes_cmp a a = Eq.
Proof. induction a as [|x a IH]; [done|]. simpl. by rewrite Z.compare_refl. Qed.

Lemma bytes_cmp_eq (a b : bytes) : bytes_cmp a b = Eq <-> a = b.
Proof.
  split; [|intros ->; apply bytes_cmp_refl].
  revert b; induction a as [|x a IH]; intros [|y b]; simpl; try done.
  destruct (Zb x ?= Zb y) eqn:E; try done. intros H.
  apply Z.compare_eq in E. apply Zb_inj in E as ->. f_equal; auto.
Qed.

Lemma bytes_cmp_antisym (a b : bytes) : bytes_cmp b a = CompOpp (bytes_cmp a b).
Proof.
  revert b; induction a as [|x a IH]; intros [|y b]; simpl; try done.
  rewrite Z.compare_antisym. destruct (Zb x ?= Zb y); simpl; auto.
Qed.

Lemma bytes_leb_refl (a : bytes) : bytes_leb a a = true.
Proof. unfold bytes_leb. by rewrite bytes_cmp_refl. Qed.

Lemma bytes_leb_total (a b : bytes) : bytes_leb a b = false -> bytes_leb b a = true.
Proof.
  unfold bytes_leb. rewrite (bytes_cmp_antisym a b).
  by destruct (bytes_cmp a b).
Qed.

Lemma bytes_gtb_leb (a b : bytes) : bytes_gtb a b = negb (bytes_leb a b).
Proof. unfold bytes_gtb, bytes_leb. by destruct (bytes_cmp a b). Qed.

Lemma bytes_leb_trans (a b c : bytes) :
  bytes_leb a b = true -> bytes_leb b c = true -> bytes_leb a c = true.
Proof.
  unfold bytes_leb.
  revert b c; induction a as [|x a IH]; intros [|y b] [|z c]; simpl; try done.
  destruct (Z.compare_spec (Zb x) (Zb y)) as [E|E|E]; try done;
    destruct (Z.compare_spec (Zb y) (Zb z)) as [F|F|F]; try done;
    destruct (Z.compare_spec (Zb x) (Zb z)) as [G|G|G]; try done; try lia.
  apply IH.
Qed.

(** Cutting at the first separator. *)
Lemma has_prefix_spec (s p : bytes) : has_prefix s p = true <-> exists r, s = p ++ r.
Proof.
  revert s. induction p as [|a p IH]; intros [|b s]; cbn [has_prefix]; split; try done; eauto.
  - intros (r & H). done.
  - rewrite andb_true_iff, beqb_eq, IH. intros [-> (r & ->)]. by exists r.
  - rewrite andb_true_iff, beqb_eq, IH. intros (r & [= -> ->]). eauto.
Qed.

Lemma has_prefix_app (p r : bytes) : has_prefix (p ++ r) p = true.
Proof. apply has_prefix_spec. eauto. Qed.

Lemma cut_byte_app (c : byte) (k v : bytes) : c ∉ k -> cut_byte c (k ++ c :: v) = Some (k, v).
Proof.
  induction k as [|a k IH]; intros Hk; cbn [app cut_byte]; [by rewrite beqb_refl|].
  apply not_elem_of_cons in Hk as [Ha Hk].
  rewrite (proj2 (beqb_neq a c)) by congruence. by rewrite IH.
Qed.

Lemma cut_byte_spec (c : byte) (s k v : bytes) : cut_byte c s = Some (k, v) -> s = k ++ c :: v /\ c ∉ k.
Proof.
  revert k. induction s as [|a s IH]; intros k; cbn [cut_byte]; [done|].
  destruct (beqb a c) eqn:E.
  - apply beqb_eq in E. intros [= <- <-]. subst. split; [done|by apply not_elem_of_nil].
  - apply beqb_neq in E. destruct (cut_byte c s) as [[l r]|]; [|done]. intros [= <- <-].
    destruct (IH l eq_refl) as [-> Hl]. split; [done|]. apply not_elem_of_cons. split; [congruence|done].
Qed.

Lemma cut_byte_None (c : byte) (s : bytes) : cut_byte c s = None -> c ∉ s.
Proof.
  induction s as [|a s IH]; cbn [cut_byte]; [intros _; by apply not_elem_of_nil|].
  destruct (beqb a c) eqn:E; [done|]. apply beqb_neq in E.
  destruct (cut_byte c s) as [[l r]|]; [done|]. intros _. apply not_elem_of_cons. split; [congruence|auto].
Qed.

Lemma index_byte_cut (c : byte) (s : bytes) :
  index_byte c s = match cut_byte c s with Some (k, _) => len k | None => -1 end.
Proof.
  induction s as [|a s IH]; [done|]. cbn [index_byte cut_byte]. destruct (beqb a c); [done|]. rewrite IH.
  destruct (cut_byte c s) as [[k v]|]; [|done]. rewrite len_cons. pose proof (len_nonneg k).
  destruct (len k <? 0) eqn:E; [apply Z.ltb_lt in E; lia|done].
Qed.

(** ** strconv *)

Fixpoint all_digits (s : bytes) : bool :=
  match s with [] => true | c :: s' => is_digit c && all_digits s' end.
Fixpoint digits_value (acc : Z) (s : bytes) : Z :=
  match s with [] => acc | c :: s' => digits_value (10 * acc + (Zb c - 48)) s' end.

(** [strconv.ParseInt(s, 10, 64)] and [strconv.Atoi] on a 64-bit platform:
    an optional sign, at least one digit, the value within int64. *)
Definition parse_int64 (s : bytes) : option Z :=
  let '(neg, ds) :=
    match s with
    | c :: s' => if beqb c (ch "-") then (true, s')
                 else if beqb c (ch "+") then (false, s') else (false, s)
    | [] => (false, [])
    end in
  if match ds with [] => true | _ => negb (all_digits ds) end then None
  else
    let v := (if neg : bool then - digits_value 0 ds else digits_value 0 ds) in
    if (min_i64 <=? v) && (v <=? max_i64) then Some v else None.

Lemma parse_int64_range (s : bytes) (v : Z) : parse_int64 s = Some v -> in_i64 v.
Proof.
  unfold parse_int64. destruct (match s with [] => _ | _ => _ end) as [neg ds].
  intros H. case_tests_in H; simplify_eq.
  all: unfold in_i64, min_i64, max_i64 in *; bool_cases; lia.
Qed.

(** [strconv.Itoa]: decimal digits, least significant first in [rdigits]. *)
Fixpoint rdigits (fuel : nat) (z : Z) : bytes :=
  match fuel with
  | O => []
  | S fuel => bZ (48 + z mod 10) :: (if z <? 10 then [] else rdigits fuel (z / 10))
  end.
(** Twenty digits cover every 64-bit value. *)
Definition utoa (z : Z) : bytes := rev (rdigits 20 z).
Definition itoa (z : Z) : bytes := if z <? 0 then ch "-" :: utoa (- z) else utoa z.

(** Reading back a printed number. *)
Lemma digits_value_snoc (l : bytes) (c : byte) : forall acc,
  digits_value acc (l ++ [c]) = 10 * digits_value acc l + (Zb c - 48).
Proof. induction l as [|d l IH]; intros acc; simpl; [lia|]. apply IH. Qed.

Lemma digit_byte (d : Z) : 0 <= d < 10 -> Zb (bZ (48 + d)) = 48 + d /\ is_digit (bZ (48 + d)) = true.
Proof.
  intros H. rewrite Zb_bZ, Z.mod_small by lia. split; [done|].
  unfold is_digit, in_range. rewrite Zb_bZ, Z.mod_small by lia.
  change (Zb (ch "0")) with 48. change (Zb (ch "9")) with 57.
  rewrite andb_true_iff, !Z.leb_le. lia.
Qed.

Lemma rdigits_spec (fuel : nat) : forall z, 0 <= z < 10 ^ Z.of_nat fuel ->
  digits_value 0 (rev (rdigits fuel z)) = z /\ forallb is_digit (rdigits fuel z) = true.
Proof.
  induction fuel as [|fuel IH]; intros z Hz; [simpl in Hz; simpl; split; [lia|done]|].
  rewrite Nat2Z.inj_succ, Z.pow_succ_r in Hz by lia.
  destruct (digit_byte (z mod 10)) as [Hv Hd]; [apply Z.mod_pos_bound; lia|].
  cbn [rdigits rev forallb]. rewrite digits_value_snoc, Hv, Hd. cbn [andb].
  pose proof (Z.div_mod z 10 ltac:(lia)) as E.
  destruct (Z.ltb_spec z 10) as [Hs|Hs].
  - simpl. split; [|done]. rewrite Z.mod_small by lia. lia.
  - destruct (IH (z / 10)) as [-> ->]; [|split; [lia|done]].
    split; [apply Z.div_pos; lia|apply Z.div_lt_upper_bound; lia].
Qed.

Lemma all_digits_forallb (s : bytes) : all_digits s = forallb is_digit s.
Proof. induction s as [|c s IH]; simpl; [done|]. by rewrite IH. Qed.

Lemma utoa_digits (z : Z) : 0 <= z < 2 ^ 63 ->
  utoa z <> [] /\ all_digits (utoa z) = true /\ digits_value 0 (utoa z) = z.
Proof.
  intros Hz. destruct (rdigits_spec 20 z) as [Hv Hd]; [change (10 ^ Z.of_nat 20) with 100000000000000000000; lia|].
  unfold utoa. split; [|split; [|done]].
  - intros E. apply (f_equal length) in E. by rewrite length_rev in E.
  - rewrite all_digits_forallb. rewrite forallb_forall in *.
    intros c Hc. apply Hd. by apply in_rev.
Qed.

Lemma parse_itoa (z : Z) : 0 <= z < 2 ^ 63 -> parse_int64 (itoa z) = Some z.
Proof.
  intros Hz. destruct (utoa_digits z Hz) as (Hne & Hd & Hv).
  unfold itoa. rewrite (proj2 (Z.ltb_ge z 0)) by lia. unfold parse_int64.
  destruct (utoa z) as [|c s]; [done|]. pose proof Hd as Hd'. cbn [all_digits] in Hd'.
  apply andb_true_iff in Hd' as [Hc _].
  assert (beqb c (ch "-") = false) as -> by (apply beqb_neq; by intros ->).
  assert (beqb c (ch "+") = false) as -> by (apply beqb_neq; by intros ->).
  rewrite Hd, Hv. cbn [negb]. unfold min_i64, max_i64.
  destruct (Z.leb_spec (- 2 ^ 63) z), (Z.leb_spec z (2 ^ 63 - 1)); try lia. done.
Qed.

(** ** slices.SortStableFunc *)

Section StableSort.
Context {A : Type} (key : A -> bytes).

Fixpoint sinsert (x : A) (l : list A) : list A :=
  match l with
  | [] => [x]
  | y :: l' => if bytes_leb (key x) (key y) then x :: l else y :: sinsert x l'
  end.
Definition stable_sort (l : list A) : list A := foldr sinsert [] l.

Fixpoint sorted_by (l : list A) : Prop :=
  match l with
  | [] => True
  | x :: l' => Forall (fun y => bytes_leb (key x) (key y) = true) l' /\ sorted_by l'
  end.

Lemma sinsert_perm (x : A) (l : list A) : sinsert x l ≡ₚ x :: l.
Proof.
  induction l as [|y l IH]; simpl; [done|].
  destruct (bytes_leb _ _); [done|]. rewrite IH. apply Permutation_swap.
Qed.

Lemma stable_sort_perm (l : list A) : stable_sort l ≡ₚ l.
Proof.
  induction l as [|x l IH]; simpl; [done|]. rewrite sinsert_perm. by rewrite IH.
Qed.

Lemma sinsert_sorted (x : A) (l : list A) : sorted_by l -> sorted_by (sinsert x l).
Proof.
  induction l as [|y l IH]; simpl; [by repeat constructor|]. intros [Hy Hl].
  destruct (bytes_leb (key x) (key y)) eqn:E; simpl.
  - split; [|done]. constructor; [done|].
    eapply Forall_impl; [exact Hy|]. simpl. intros z Hz.
    by eapply bytes_leb_trans.
  - split; [|by apply IH]. rewrite sinsert_perm. constructor; [|done].
    by apply bytes_leb_total.
Qed.

Lemma stable_sort_sorted (l : list A) : sorted_by (stable_sort l).
Proof. induction l; simpl; [done|]. by apply sinsert_sorted. Qed.

Lemma sinsert_head (x : A) (l : list A) :
  Forall (fun y => bytes_leb (key x) (key y) = true) l -> sinsert x l = x :: l.
Proof. destruct l as [|y l]; [done|]. simpl. intros H. inversion_clear H as [|?? E]. by rewrite E. Qed.

(** Sorting a sorted list changes nothing. *)
Lemma stable_sort_id (l : list A) : sorted_by l -> stable_sort l = l.
Proof.
  induction l as [|x l IH]; simpl; [done|]. intros [Hx Hl].
  rewrite IH by done. by apply sinsert_head.
Qed.

(** Elements with equal keys keep their order. *)
Lemma stable_sort_filter (k : bytes) (l : list A) :
  filter (fun x => key x = k) (stable_sort l) = filter (fun x => key x = k) l.
Proof.
  induction l as [|x l IH]; [done|]. simpl. rewrite filter_cons, <- IH.
  generalize (stable_sort l). clear IH l. intros l.
  induction l as [|y l IH]; simpl.
  { rewrite filter_cons. by case_decide. }
  destruct (bytes_leb (key x) (key y)) eqn:E; rewrite !filter_cons; [done|].
  rewrite IH. repeat case_decide; try done. exfalso. subst.
  replace (key y) with (key x) in E by congruence.
  by rewrite bytes_leb_refl in E.
Qed.
End StableSort.
