(* ===== verification/CacheControl.v ===== *)
(** * pkg/header/cachedirectives.go: the Cache-Control tokenizer

    The scanner walks a header value with an index [i]; here a position is
    the suffix of the value that starts at it. [Directives] is the Go struct,
    field by field. The source has the scanner twice, over [string] and over
    [[]byte] (the fast path); both copies are modelled and shown to agree.
    The main loop runs on fuel and is shown to end within [len(s)] rounds. *)

From S2P Require Import Prelude GoStd.

(** ** Data *)

Record Directives : Type := MkDirectives {
  NoCacheFields : bytes;
  MaxAge : Duration;
  StaleIfError : Duration;
  StaleWhileRevalid : Duration;
  MaxStale : Duration;
  MinFresh : Duration;
  SMaxAge : Duration;
  MaxAgeSet : bool;
  SMaxAgeSet : bool;
  MinFreshSet : bool;
  MaxStaleSet : bool;
  StaleWhileRevalidSet : bool;
  StaleIfErrorSet : bool;
  MustRevalidate : bool;
  ProxyRevalidate : bool;
  Immutable : bool;
  NoTransform : bool;
  OnlyIfCached : bool;
  MustUnderstand : bool;
  NoStore : bool;
  Public : bool;
  Private : bool;
  NoCache : bool;
}.

(** [Directives{}]: every directive absent. *)
Definition Directives0 : Directives :=
  {| NoCacheFields := []; MaxAge := 0; StaleIfError := 0; StaleWhileRevalid := 0;
     MaxStale := 0; MinFresh := 0; SMaxAge := 0; MaxAgeSet := false; SMaxAgeSet := false;
     MinFreshSet := false; MaxStaleSet := false; StaleWhileRevalidSet := false;
     StaleIfErrorSet := false; MustRevalidate := false; ProxyRevalidate := false;
     Immutable := false; NoTransform := false; OnlyIfCached := false;
     MustUnderstand := false; NoStore := false; Public := false; Private := false;
     NoCache := false |}.

(** ** Scanning *)

(** Go's [for i < len(s) && p(s[i]) { i++ }]: the bytes stepped over and the
    suffix where the loop stops. *)
Fixpoint span (p : byte -> bool) (s : bytes) : bytes * bytes :=
  match s with
  | [] => ([], [])
  | c :: s' => if p c then let '(a, r) := span p s' in (c :: a, r) else ([], s)
  end.

Definition is_delim (c : byte) : bool :=
  beqb c (ch " ") || beqb c (ch ",") || beqb c x09.

(** [s[i] != '=' && s[i] != ',' && s[i] != ' ' && s[i] != '\t'], and the same
    without the equal sign. *)
Definition key_char (c : byte) : bool :=
  negb (beqb c (ch "=")) && negb (beqb c (ch ",")) && negb (beqb c (ch " ")) && negb (beqb c x09).
Definition val_char (c : byte) : bool :=
  negb (beqb c (ch ",")) && negb (beqb c (ch " ")) && negb (beqb c x09).
Definition not_quote (c : byte) : bool := negb (beqb c x22).

Definition skipCCDelimiters (s : bytes) : bytes := snd (span is_delim s).

Definition scanCCValue (s : bytes) : bytes * bytes :=
  match s with
  | c :: s1 =>
      if beqb c x22 then
        let '(val, r) := span not_quote s1 in
        (val, match r with [] => [] | _ :: r' => r' end)
      else span val_char s
  | [] => ([], [])
  end.

Definition scanCCToken (s : bytes) : bytes * bytes * bytes :=
  let '(key, r) := span key_char s in
  match r with
  | c :: r' =>
      if beqb c (ch "=") then let '(val, r2) := scanCCValue r' in (key, val, r2)
      else (key, [], r)
  | [] => (key, [], r)
  end.

(** [ca += 'a' - 'A'] for an upper-case ASCII letter. *)
Definition fold_byte (c : byte) : byte := if is_upper c then bZ (Zb c + 32) else c.

Fixpoint EqFold_loop (a b : bytes) : bool :=
  match a, b with
  | ca :: a', cb :: b' => if beqb (fold_byte ca) (fold_byte cb) then EqFold_loop a' b' else false
  | _, _ => true
  end.

Definition EqFold (a b : bytes) : bool :=
  if negb (len a =? len b) then false else EqFold_loop a b.

(** The digits accumulate in an int64 and wrap. *)
Fixpoint ParseIntNoAlloc_loop (n : Z) (found : bool) (s : bytes) : Z * bool :=
  match s with
  | [] => (n, found)
  | c :: s' =>
      if negb (is_digit c) then (n, found)
      else ParseIntNoAlloc_loop (i64 (n * 10 + (Zb c - 48))) true s'
  end.

Definition ParseIntNoAlloc (s : bytes) : Z * bool :=
  match s with [] => (0, false) | _ => ParseIntNoAlloc_loop 0 false s end.

(** The new value of [( *dur, *set)]. *)
Definition parseDurStr (dur : Duration) (set : bool) (val : bytes) : Duration * bool :=
  let '(n, ok) := ParseIntNoAlloc val in
  if negb ok then (dur, set)
  else
    let d := d_mul n Second in
    if negb set || (dur <? d) then (d, true) else (dur, set).

Definition applyBoolDirective (d : Directives) (key : bytes) : Directives * bool :=
  if EqFold key (bs "no-store") then ({| d with NoStore := true |}, true)
  else if EqFold key (bs "no-cache") then ({| d with NoCache := true |}, true)
  else if EqFold key (bs "private") then ({| d with Private := true |}, true)
  else if EqFold key (bs "public") then ({| d with Public := true |}, true)
  else if EqFold key (bs "must-revalidate") then ({| d with MustRevalidate := true |}, true)
  else if EqFold key (bs "proxy-revalidate") then ({| d with ProxyRevalidate := true |}, true)
  else if EqFold key (bs "immutable") then ({| d with Immutable := true |}, true)
  else if EqFold key (bs "no-transform") then ({| d with NoTransform := true |}, true)
  else if EqFold key (bs "only-if-cached") then ({| d with OnlyIfCached := true |}, true)
  else if EqFold key (bs "must-understand") then ({| d with MustUnderstand := true |}, true)
  else (d, false).

Definition applyDurDirective (d : Directives) (key val : bytes) : Directives :=
  if EqFold key (bs "max-age") then
    let '(v, f) := parseDurStr (MaxAge d) (MaxAgeSet d) val in
    {| d with MaxAge := v; MaxAgeSet := f |}
  else if EqFold key (bs "s-maxage") then
    let '(v, f) := parseDurStr (SMaxAge d) (SMaxAgeSet d) val in
    {| d with SMaxAge := v; SMaxAgeSet := f |}
  else if EqFold key (bs "min-fresh") then
    let '(v, f) := parseDurStr (MinFresh d) (MinFreshSet d) val in
    {| d with MinFresh := v; MinFreshSet := f |}
  else if EqFold key (bs "max-stale") then
    if beq val [] then {| d with MaxStale := max_i64; MaxStaleSet := true |}
    else
      let '(v, f) := parseDurStr (MaxStale d) (MaxStaleSet d) val in
      {| d with MaxStale := v; MaxStaleSet := f |}
  else if EqFold key (bs "stale-while-revalidate") then
    let '(v, f) := parseDurStr (StaleWhileRevalid d) (StaleWhileRevalidSet d) val in
    {| d with StaleWhileRevalid := v; StaleWhileRevalidSet := f |}
  else if EqFold key (bs "stale-if-error") then
    let '(v, f) := parseDurStr (StaleIfError d) (StaleIfErrorSet d) val in
    {| d with StaleIfError := v; StaleIfErrorSet := f |}
  else d.

Definition applyCCDirective (d : Directives) (key val : bytes) : Directives :=
  if EqFold key (bs "no-cache") && negb (beq val []) then {| d with NoCacheFields := val |}
  else
    let '(d', applied) := applyBoolDirective d key in
    if applied then d' else applyDurDirective d' key val.

(** The loop of [ParseCacheControl]; [None] when the fuel runs out. *)
Fixpoint parse_loop (fuel : nat) (d : Directives) (s : bytes) : option Directives :=
  match s with
  | [] => Some d
  | _ =>
      match skipCCDelimiters s with
      | [] => Some d
      | s1 =>
          match fuel with
          | O => None
          | S fuel =>
              let '(key, val, s2) := scanCCToken s1 in
              parse_loop fuel (applyCCDirective d key val) s2
          end
      end
  end.

Definition ParseCacheControl (headerValue : bytes) : Directives :=
  default Directives0 (parse_loop (length headerValue) Directives0 headerValue).

(** ** The [[]byte] copies used on the fast path *)

Definition skipCCDelimitersBytes (s : bytes) : bytes :=
  snd (span (fun c => beqb c (ch " ") || beqb c (ch ",") || beqb c x09) s).

Definition scanCCValueBytes (s : bytes) : bytes * bytes :=
  match s with
  | c :: s1 =>
      if beqb c x22 then
        let '(val, r) := span (fun c => negb (beqb c x22)) s1 in
        (val, match r with [] => [] | _ :: r' => r' end)
      else span (fun c => negb (beqb c (ch ",")) && negb (beqb c (ch " ")) && negb (beqb c x09)) s
  | [] => ([], [])
  end.

Definition scanCCTokenBytes (s : bytes) : bytes * bytes * bytes :=
  let '(key, r) :=
    span (fun c => negb (beqb c (ch "=")) && negb (beqb c (ch ",")) &&
                   negb (beqb c (ch " ")) && negb (beqb c x09)) s in
  match r with
  | c :: r' =>
      if beqb c (ch "=") then let '(val, r2) := scanCCValueBytes r' in (key, val, r2)
      else (key, [], r)
  | [] => (key, [], r)
  end.

Fixpoint eqFoldBytes_loop (a b : bytes) : bool :=
  match a, b with
  | ca :: a', cb :: b' =>
      if negb (beqb (fold_byte ca) (fold_byte cb)) then false else eqFoldBytes_loop a' b'
  | _, _ => true
  end.

Definition eqFoldBytes (a b : bytes) : bool :=
  if negb (len a =? len b) then false else eqFoldBytes_loop a b.

Fixpoint parseIntBytes_loop (n : Z) (found : bool) (s : bytes) : Z * bool :=
  match s with
  | [] => (n, found)
  | c :: s' =>
      if (Zb c <? Zb (ch "0")) || (Zb (ch "9") <? Zb c) then (n, found)
      else parseIntBytes_loop (i64 (n * 10 + (Zb c - 48))) true s'
  end.

Definition parseIntBytes (s : bytes) : Z * bool :=
  match s with [] => (0, false) | _ => parseIntBytes_loop 0 false s end.

Definition parseDurBytes (dur : Duration) (set : bool) (val : bytes) : Duration * bool :=
  let '(n, ok) := parseIntBytes val in
  if negb ok then (dur, set)
  else
    let d := d_mul n Second in
    if negb set || (dur <? d) then (d, true) else (dur, set).

Definition applyBoolDirectiveBytes (d : Directives) (key : bytes) : Directives * bool :=
  if eqFoldBytes key (bs "no-store") then ({| d with NoStore := true |}, true)
  else if eqFoldBytes key (bs "no-cache") then ({| d with NoCache := true |}, true)
  else if eqFoldBytes key (bs "private") then ({| d with Private := true |}, true)
  else if eqFoldBytes key (bs "public") then ({| d with Public := true |}, true)
  else if eqFoldBytes key (bs "must-revalidate") then ({| d with MustRevalidate := true |}, true)
  else if eqFoldBytes key (bs "proxy-revalidate") then ({| d with ProxyRevalidate := true |}, true)
  else if eqFoldBytes key (bs "immutable") then ({| d with Immutable := true |}, true)
  else if eqFoldBytes key (bs "no-transform") then ({| d with NoTransform := true |}, true)
  else if eqFoldBytes key (bs "only-if-cached") then ({| d with OnlyIfCached := true |}, true)
  else if eqFoldBytes key (bs "must-understand") then ({| d with MustUnderstand := true |}, true)
  else (d, false).

Definition applyDurDirectiveBytes (d : Directives) (key val : bytes) : Directives :=
  if eqFoldBytes key (bs "max-age") then
    let '(v, f) := parseDurBytes (MaxAge d) (MaxAgeSet d) val in
    {| d with MaxAge := v; MaxAgeSet := f |}
  else if eqFoldBytes key (bs "s-maxage") then
    let '(v, f) := parseDurBytes (SMaxAge d) (SMaxAgeSet d) val in
    {| d with SMaxAge := v; SMaxAgeSet := f |}
  else if eqFoldBytes key (bs "min-fresh") then
    let '(v, f) := parseDurBytes (MinFresh d) (MinFreshSet d) val in
    {| d with MinFresh := v; MinFreshSet := f |}
  else if eqFoldBytes key (bs "max-stale") then
    if len val =? 0 then {| d with MaxStale := max_i64; MaxStaleSet := true |}
    else
      let '(v, f) := parseDurBytes (MaxStale d) (MaxStaleSet d) val in
      {| d with MaxStale := v; MaxStaleSet := f |}
  else if eqFoldBytes key (bs "stale-while-revalidate") then
    let '(v, f) := parseDurBytes (StaleWhileRevalid d) (StaleWhileRevalidSet d) val in
    {| d with StaleWhileRevalid := v; StaleWhileRevalidSet := f |}
  else if eqFoldBytes key (bs "stale-if-error") then
    let '(v, f) := parseDurBytes (StaleIfError d) (StaleIfErrorSet d) val in
    {| d with StaleIfError := v; StaleIfErrorSet := f |}
  else d.

Definition applyCCDirectiveBytes (d : Directives) (key val : bytes) : Directives :=
  if eqFoldBytes key (bs "no-cache") && (0 <? len val) then {| d with NoCacheFields := val |}
  else
    let '(d', applied) := applyBoolDirectiveBytes d key in
    if applied then d' else applyDurDirectiveBytes d' key val.

Fixpoint parse_loop_bytes (fuel : nat) (d : Directives) (s : bytes) : option Directives :=
  match s with
  | [] => Some d
  | _ =>
      match skipCCDelimitersBytes s with
      | [] => Some d
      | s1 =>
          match fuel with
          | O => None
          | S fuel =>
              let '(key, val, s2) := scanCCTokenBytes s1 in
              parse_loop_bytes fuel (applyCCDirectiveBytes d key val) s2
          end
      end
  end.

Definition ParseCacheControlBytes (cc : bytes) : Directives :=
  default Directives0 (parse_loop_bytes (length cc) Directives0 cc).

Example parse_example :
  let d := ParseCacheControl (bs "public, MAX-AGE=60 ,max-age=90s, s-maxage=10") in
  (Public d, MaxAge d, SMaxAge d, NoStore d) = (true, 90 * Second, 10 * Second, false).
Proof. vm_compute. reflexivity. Qed.

(** ** Facts about the scanner *)

Lemma span_spec (p : byte -> bool) (s a r : bytes) :
  span p s = (a, r) ->
  s = a ++ r /\ Forall (fun c => p c = true) a /\
  match r with [] => True | c :: _ => p c = false end.
Proof.
  revert a r; induction s as [|c s IH]; simpl; intros a r H.
  - by simplify_eq.
  - destruct (p c) eqn:E; [|by simplify_eq].
    destruct (span p s) as [a' r'] eqn:Es. simplify_eq.
    destruct (IH _ _ eq_refl) as (-> & Ha & Hr). repeat split; auto.
Qed.

(** A run of accepted bytes followed by a rejected one, or by the end. *)
Lemma span_app (p : byte -> bool) (a r : bytes) :
  Forall (fun c => p c = true) a ->
  match r with [] => True | c :: _ => p c = false end ->
  span p (a ++ r) = (a, r).
Proof.
  intros Ha Hr. induction Ha as [|c a Hc Ha IH]; simpl.
  - destruct r as [|c r]; [done|]. simpl. by rewrite Hr.
  - by rewrite Hc, IH.
Qed.

Lemma key_char_delim (c : byte) : is_delim c = true -> key_char c = false.
Proof. each_byte c. Qed.
Lemma val_char_delim (c : byte) : is_delim c = true -> val_char c = false.
Proof. each_byte c. Qed.
Lemma key_char_not_delim (c : byte) : key_char c = true -> is_delim c = false.
Proof. each_byte c. Qed.
Lemma key_char_eq : key_char (ch "=") = false.
Proof. reflexivity. Qed.

(** After a value, the scanner is never before where it started. *)
Lemma scanCCValue_length (s v r : bytes) :
  scanCCValue s = (v, r) -> (length r <= length s)%nat.
Proof.
  unfold scanCCValue. destruct s as [|c s]; [by intros; simplify_eq|].
  destruct (beqb c x22).
  - destruct (span _ s) as [a b] eqn:E. apply span_spec in E as (-> & _ & _).
    intros; simplify_eq. rewrite length_cons, length_app. destruct b; simpl; lia.
  - intros E. apply span_spec in E as (-> & _ & _). rewrite length_app. lia.
Qed.

(** Every token consumes at least one byte: the loop makes progress. *)
Lemma scanCCToken_progress (c : byte) (s k v r : bytes) :
  is_delim c = false -> scanCCToken (c :: s) = (k, v, r) -> (length r < length (c :: s))%nat.
Proof.
  intros Hc. unfold scanCCToken.
  destruct (span _ (c :: s)) as [a b] eqn:E.
  apply span_spec in E as (E & _ & Hb). rewrite E, length_app.
  destruct b as [|x b].
  - intros; simplify_eq. destruct k; simplify_eq/=; lia.
  - destruct (beqb x (ch "=")) eqn:Hx.
    + destruct (scanCCValue b) as [v' r'] eqn:Ev. intros; simplify_eq.
      apply scanCCValue_length in Ev. simpl. lia.
    + intros; simplify_eq. destruct k as [|y k]; [|simpl; lia].
      simplify_eq/=. exfalso. revert Hc Hx Hb. clear. each_byte x.
Qed.

Lemma skipCCDelimiters_length (s : bytes) : (length (skipCCDelimiters s) <= length s)%nat.
Proof.
  unfold skipCCDelimiters. destruct (span _ s) as [a r] eqn:E.
  apply span_spec in E as (-> & _ & _). rewrite length_app. simpl. lia.
Qed.

Lemma skipCCDelimiters_head (s : bytes) (c : byte) (r : bytes) :
  skipCCDelimiters s = c :: r -> is_delim c = false.
Proof.
  unfold skipCCDelimiters. destruct (span _ s) as [a r'] eqn:E.
  apply span_spec in E as (_ & _ & Hr). simpl. intros ->. done.
Qed.

(** The loop ends: fuel [len(s)] is enough. *)
Lemma parse_loop_total (fuel : nat) (d : Directives) (s : bytes) :
  (length s <= fuel)%nat -> is_Some (parse_loop fuel d s).
Proof.
  revert d s; induction fuel as [|fuel IH]; intros d s Hf.
  - destruct s; [by eexists|simpl in Hf; lia].
  - destruct s as [|c s]; [by eexists|].
    cbn [parse_loop]. destruct (skipCCDelimiters (c :: s)) as [|c' s'] eqn:Es; [by eexists|].
    destruct (scanCCToken (c' :: s')) as [[k v] r] eqn:Et.
    pose proof (skipCCDelimiters_head _ _ _ Es) as Hd.
    pose proof (scanCCToken_progress _ _ _ _ _ Hd Et).
    pose proof (skipCCDelimiters_length (c :: s)) as Hl. rewrite Es in Hl.
    apply IH. lia.
Qed.

(** More fuel does not change the result. *)
Lemma parse_loop_mono (f f' : nat) (d d' : Directives) (s : bytes) :
  (f <= f')%nat -> parse_loop f d s = Some d' -> parse_loop f' d s = Some d'.
Proof.
  revert f' d s; induction f as [|f IH]; intros f' d s Hf.
  - destruct s as [|c s]; [by destruct f'|].
    destruct f' as [|f']; [done|]. cbn [parse_loop].
    by destruct (skipCCDelimiters (c :: s)).
  - destruct f' as [|f']; [lia|]. destruct s as [|c s]; [done|]. cbn [parse_loop].
    destruct (skipCCDelimiters (c :: s)) as [|c' s']; [done|].
    destruct (scanCCToken (c' :: s')) as [[k v] r]. apply IH. lia.
Qed.

(** ** The grammar of a Cache-Control value

    [cc_token text k v]: [text] is one directive with key [k] and value [v]
    (empty when absent). [cc_value s toks]: [s] is a sequence of tokens, each
    ended by a delimiter or the end of the value, with any run of blanks and
    commas before it. *)

Inductive cc_token : bytes -> bytes -> bytes -> Prop :=
| tok_bare k :
    k <> [] -> Forall (fun c => key_char c = true) k -> cc_token k k []
| tok_plain k v :
    Forall (fun c => key_char c = true) k ->
    Forall (fun c => val_char c = true) v -> head v <> Some x22 ->
    cc_token (k ++ ch "=" :: v) k v
| tok_quoted k v :
    Forall (fun c => key_char c = true) k -> x22 ∉ v ->
    cc_token (k ++ ch "=" :: x22 :: v ++ [x22]) k v.

Definition at_delim (s : bytes) : Prop :=
  match s with [] => True | c :: _ => is_delim c = true end.

Inductive cc_value : bytes -> list (bytes * bytes) -> Prop :=
| ccv_nil pre : Forall (fun c => is_delim c = true) pre -> cc_value pre []
| ccv_cons pre tok k v rest toks :
    Forall (fun c => is_delim c = true) pre -> cc_token tok k v ->
    at_delim rest -> cc_value rest toks ->
    cc_value (pre ++ tok ++ rest) ((k, v) :: toks).

Definition apply_tokens (d : Directives) (toks : list (bytes * bytes)) : Directives :=
  fold_left (fun d '(k, v) => applyCCDirective d k v) toks d.

Lemma skip_run (pre s : bytes) :
  Forall (fun c => is_delim c = true) pre ->
  match s with [] => True | c :: _ => is_delim c = false end ->
  skipCCDelimiters (pre ++ s) = s.
Proof. intros Hp Hs. unfold skipCCDelimiters. by rewrite (span_app is_delim). Qed.

Lemma cc_token_head (tok k v : bytes) :
  cc_token tok k v -> exists c r, tok = c :: r /\ is_delim c = false.
Proof.
  destruct 1 as [k Hne Hk|k v Hk Hv Hq|k v Hk Hv].
  - destruct k as [|c k]; [done|]. inversion_clear Hk.
    eauto using key_char_not_delim.
  - destruct k as [|c k]; [by do 2 eexists|]. inversion_clear Hk.
    do 2 eexists. split; [done|]. by apply key_char_not_delim.
  - destruct k as [|c k]; [by do 2 eexists|]. inversion_clear Hk.
    do 2 eexists. split; [done|]. by apply key_char_not_delim.
Qed.

Lemma scanCCValue_plain (v rest : bytes) :
  Forall (fun c => val_char c = true) v -> head v <> Some x22 -> at_delim rest ->
  scanCCValue (v ++ rest) = (v, rest).
Proof.
  intros Hv Hq Hr. unfold scanCCValue. destruct v as [|c v]; cbn [app].
  - destruct rest as [|c rest]; [done|]. cbn [at_delim] in Hr.
    replace (beqb c x22) with false by (revert Hr; clear; each_byte c).
    apply (span_app val_char []); [done|]. by apply val_char_delim.
  - replace (beqb c x22) with false by (symmetry; apply beqb_neq; intros ->; done).
    apply (span_app val_char (c :: v) rest); [done|].
    destruct rest; [done|]. by apply val_char_delim.
Qed.

Lemma scanCCValue_quoted (v rest : bytes) :
  x22 ∉ v -> scanCCValue (x22 :: v ++ x22 :: rest) = (v, rest).
Proof.
  intros Hv. unfold scanCCValue. rewrite beqb_refl.
  rewrite (span_app not_quote v (x22 :: rest)); [reflexivity| |reflexivity].
  rewrite Forall_forall. intros c Hc. apply negb_true_iff, beqb_neq. by intros ->.
Qed.

Lemma scanCCToken_spec (tok k v rest : bytes) :
  cc_token tok k v -> at_delim rest -> scanCCToken (tok ++ rest) = (k, v, rest).
Proof.
  intros Ht Hr. unfold scanCCToken. destruct Ht as [k Hne Hk|k v Hk Hv Hq|k v Hk Hv].
  - rewrite (span_app key_char k rest); [|done|].
    + destruct rest as [|c rest]; [done|].
      replace (beqb c (ch "=")) with false; [done|]. revert Hr. clear. simpl. each_byte c.
    + destruct rest; [done|]. by apply key_char_delim.
  - rewrite <- app_assoc, <- app_comm_cons.
    rewrite (span_app key_char k (ch "=" :: _)) by done.
    rewrite beqb_refl. by rewrite scanCCValue_plain.
  - rewrite <- app_assoc, <- app_comm_cons, <- app_comm_cons, <- app_assoc.
    rewrite (span_app key_char k (ch "=" :: _)) by done.
    rewrite beqb_refl. simpl app. by rewrite scanCCValue_quoted.
Qed.

Lemma parse_loop_grammar (s : bytes) (toks : list (bytes * bytes)) :
  cc_value s toks -> forall fuel d, (length s <= fuel)%nat ->
  parse_loop fuel d s = Some (apply_tokens d toks).
Proof.
  induction 1 as [pre Hp|pre tok k v rest toks Hp Ht Hr Hv IH]; intros fuel d Hf.
  - destruct pre as [|c pre]; [by destruct fuel|].
    pose proof (skip_run (c :: pre) [] Hp I) as E. rewrite app_nil_r in E.
    destruct fuel; cbn [parse_loop]; by rewrite E.
  - destruct (cc_token_head _ _ _ Ht) as (c & r & -> & Hc).
    rewrite !length_app in Hf. simpl in Hf.
    destruct fuel as [|fuel]; [lia|].
    destruct (pre ++ (c :: r) ++ rest) as [|x s'] eqn:Es; [by destruct pre|].
    cbn [parse_loop]. rewrite <- Es.
    rewrite (skip_run pre ((c :: r) ++ rest)) by done.
    destruct ((c :: r) ++ rest) as [|y s''] eqn:E2; [done|].
    rewrite <- E2, (scanCCToken_spec (c :: r) k v rest) by done.
    rewrite IH by lia. done.
Qed.

(** ** Case-insensitive comparison *)

Lemma EqFold_spec (a b : bytes) : EqFold a b = true <-> map fold_byte a = map fold_byte b.
Proof.
  unfold EqFold. destruct (len a =? len b) eqn:E; bool_cases.
  - unfold len in E. assert (length a = length b) as Hl by lia. clear E. simpl.
    revert b Hl; induction a as [|x a IH]; intros [|y b] Hl; try done. simpl.
    destruct (beqb (fold_byte x) (fold_byte y)) eqn:Exy; bool_cases.
    + rewrite IH by (simpl in Hl; lia). rewrite Exy. split; congruence.
    + split; congruence.
  - split; [done|]. intros H. exfalso. apply E. unfold len.
    apply (f_equal length) in H. rewrite !length_map in H. lia.
Qed.

Lemma EqFold_refl (a : bytes) : EqFold a a = true.
Proof. by apply EqFold_spec. Qed.

Lemma EqFold_other (k a b : bytes) :
  EqFold k a = true -> EqFold a b = false -> EqFold k b = false.
Proof.
  intros Hk Hab. destruct (EqFold k b) eqn:E; [|done].
  apply EqFold_spec in Hk, E. rewrite <- not_true_iff_false in Hab.
  exfalso. apply Hab, EqFold_spec. congruence.
Qed.

(** Settle every comparison of [k] with a directive name, given that [k] is
    the name in [H]. *)
Ltac directive_names H :=
  repeat match goal with
  | |- context [EqFold ?k ?n] =>
      first [ rewrite H | rewrite (EqFold_other k _ n H) by reflexivity ]
  end.

(** ** The two copies of the scanner agree *)

Lemma eqFoldBytes_EqFold (a b : bytes) : eqFoldBytes a b = EqFold a b.
Proof.
  unfold eqFoldBytes, EqFold. destruct (negb _); [done|].
  revert b; induction a as [|x a IH]; intros [|y b]; try done. simpl.
  destruct (beqb _ _); simpl; auto.
Qed.

Lemma parseIntBytes_loop_eq (n : Z) (f : bool) (s : bytes) :
  parseIntBytes_loop n f s = ParseIntNoAlloc_loop n f s.
Proof.
  revert n f; induction s as [|c s IH]; intros n f; [done|].
  cbn [parseIntBytes_loop ParseIntNoAlloc_loop].
  replace (negb (is_digit c)) with ((Zb c <? Zb (ch "0")) || (Zb (ch "9") <? Zb c))
    by (each_byte c).
  destruct (_ || _); auto.
Qed.

Lemma parseDurBytes_eq (d : Duration) (f : bool) (v : bytes) :
  parseDurBytes d f v = parseDurStr d f v.
Proof.
  unfold parseDurBytes, parseDurStr, parseIntBytes, ParseIntNoAlloc.
  destruct v; [done|]. by rewrite parseIntBytes_loop_eq.
Qed.

Lemma len_zero_beq (v : bytes) : (len v =? 0) = beq v [].
Proof. by destruct v. Qed.
Lemma len_pos_beq (v : bytes) : (0 <? len v) = negb (beq v []).
Proof. by destruct v. Qed.

Lemma applyBoolDirectiveBytes_eq (d : Directives) (k : bytes) :
  applyBoolDirectiveBytes d k = applyBoolDirective d k.
Proof.
  unfold applyBoolDirectiveBytes, applyBoolDirective. by rewrite !eqFoldBytes_EqFold.
Qed.

Lemma applyDurDirectiveBytes_eq (d : Directives) (k v : bytes) :
  applyDurDirectiveBytes d k v = applyDurDirective d k v.
Proof.
  unfold applyDurDirectiveBytes, applyDurDirective.
  by rewrite !eqFoldBytes_EqFold, !parseDurBytes_eq, len_zero_beq.
Qed.

Lemma applyCCDirectiveBytes_eq (d : Directives) (k v : bytes) :
  applyCCDirectiveBytes d k v = applyCCDirective d k v.
Proof.
  unfold applyCCDirectiveBytes, applyCCDirective.
  rewrite eqFoldBytes_EqFold, len_pos_beq, applyBoolDirectiveBytes_eq.
  destruct (applyBoolDirective d k) as [d' []]; [done|].
  by rewrite applyDurDirectiveBytes_eq.
Qed.

Lemma parse_loop_bytes_eq (fuel : nat) (d : Directives) (s : bytes) :
  parse_loop_bytes fuel d s = parse_loop fuel d s.
Proof.
  revert d s; induction fuel as [|fuel IH]; intros d s; [done|].
  destruct s as [|c s]; [done|]. cbn [parse_loop parse_loop_bytes].
  change (skipCCDelimitersBytes (c :: s)) with (skipCCDelimiters (c :: s)).
  destruct (skipCCDelimiters (c :: s)) as [|c' s']; [done|].
  change (scanCCTokenBytes (c' :: s')) with (scanCCToken (c' :: s')).
  destruct (scanCCToken (c' :: s')) as [[k v] r].
  by rewrite applyCCDirectiveBytes_eq, IH.
Qed.

(** ** Numbers *)

Lemma i64_step (x c : Z) : i64 (i64 x * 10 + c) = i64 (x * 10 + c).
Proof.
  unfold i64. f_equal.
  rewrite Z.mul_sub_distr_r.
  replace ((x + 2^63) mod 2^64 * 10 - 2^63 * 10 + c + 2^63)
    with ((x + 2^63) mod 2^64 * 10 + (c - 9 * 2^63)) by lia.
  rewrite Z.add_mod, Z.mul_mod_idemp_l, <- Z.add_mod by lia.
  f_equal. lia.
Qed.

(** On a run of digits the parser returns their decimal value, reduced to
    int64; what follows the digits is ignored. *)
Lemma ParseIntNoAlloc_loop_spec (n : Z) (f : bool) (ds rest : bytes) :
  all_digits ds = true -> match rest with [] => True | c :: _ => is_digit c = false end ->
  in_i64 n -> ds <> [] ->
  ParseIntNoAlloc_loop n f (ds ++ rest) = (i64 (digits_value n ds), true).
Proof.
  intros Hd Hr Hn Hne.
  assert (forall m f, ParseIntNoAlloc_loop (i64 m) f (ds ++ rest)
                      = (i64 (digits_value m ds), match ds with [] => f | _ => true end)) as H.
  { clear n f Hn Hne. revert Hd. induction ds as [|c ds IH]; intros Hd m f; simpl.
    - destruct rest as [|c rest]; [done|]. simpl. by rewrite Hr.
    - simpl in Hd. apply andb_prop in Hd as [Hc Hd]. rewrite Hc. simpl.
      rewrite i64_step, IH by done. replace (10 * m) with (m * 10) by lia.
      by destruct ds. }
  rewrite <- (i64_id n) at 1 by done. rewrite H. by destruct ds.
Qed.

Lemma ParseIntNoAlloc_spec (ds rest : bytes) :
  all_digits ds = true -> match rest with [] => True | c :: _ => is_digit c = false end ->
  ds <> [] -> ParseIntNoAlloc (ds ++ rest) = (i64 (digits_value 0 ds), true).
Proof.
  intros Hd Hr Hne. unfold ParseIntNoAlloc.
  destruct (ds ++ rest) as [|c s] eqn:E; [by destruct ds|]. rewrite <- E.
  by apply ParseIntNoAlloc_loop_spec.
Qed.

Lemma digits_value_nonneg (n : Z) (ds : bytes) :
  0 <= n -> all_digits ds = true -> 0 <= digits_value n ds.
Proof.
  revert n; induction ds as [|c ds IH]; intros n Hn Hd; simpl in *; [done|].
  apply andb_prop in Hd as [Hc Hd]. apply IH; [|done].
  unfold is_digit, in_range in Hc. change (Zb (ch "0")) with 48 in Hc.
  bool_cases. lia.
Qed.

(** ** One directive at a time *)

Ltac split_apply :=
  unfold applyCCDirective, applyBoolDirective, applyDurDirective;
  repeat match goal with
  | |- context [if ?b then _ else _] => destruct b eqn:?
  | |- context [let '(_, _) := parseDurStr ?a ?f ?v in _] => destruct (parseDurStr a f v)
  end.

Lemma apply_NoStore (d : Directives) (k v : bytes) :
  NoStore (applyCCDirective d k v) = NoStore d || EqFold k (bs "no-store").
Proof.
  destruct (EqFold k (bs "no-store")) eqn:H.
  - unfold applyCCDirective, applyBoolDirective. directive_names H. simpl.
    by rewrite orb_true_r.
  - rewrite orb_false_r. split_apply; simpl; congruence.
Qed.

Lemma apply_Private (d : Directives) (k v : bytes) :
  Private (applyCCDirective d k v) = Private d || EqFold k (bs "private").
Proof.
  destruct (EqFold k (bs "private")) eqn:H.
  - unfold applyCCDirective, applyBoolDirective. directive_names H. simpl.
    by rewrite orb_true_r.
  - rewrite orb_false_r. split_apply; simpl; congruence.
Qed.

Lemma apply_MustRevalidate (d : Directives) (k v : bytes) :
  MustRevalidate (applyCCDirective d k v) = MustRevalidate d || EqFold k (bs "must-revalidate").
Proof.
  destruct (EqFold k (bs "must-revalidate")) eqn:H.
  - unfold applyCCDirective, applyBoolDirective. directive_names H. simpl.
    by rewrite orb_true_r.
  - rewrite orb_false_r. split_apply; simpl; congruence.
Qed.

Lemma apply_NoCache (d : Directives) (k v : bytes) :
  NoCache (applyCCDirective d k v) = NoCache d || (EqFold k (bs "no-cache") && beq v []).
Proof.
  destruct (EqFold k (bs "no-cache")) eqn:H; simpl.
  - unfold applyCCDirective, applyBoolDirective. directive_names H. simpl.
    destruct (beq v []); simpl; [by rewrite orb_true_r|by rewrite orb_false_r].
  - rewrite orb_false_r. split_apply; simpl; congruence.
Qed.

(** Only [max-age] tokens touch the max-age, and each combines its value with
    what is already there. *)
Lemma apply_MaxAge (d : Directives) (k v : bytes) :
  (MaxAge (applyCCDirective d k v), MaxAgeSet (applyCCDirective d k v)) =
  if EqFold k (bs "max-age") then parseDurStr (MaxAge d) (MaxAgeSet d) v
  else (MaxAge d, MaxAgeSet d).
Proof.
  destruct (EqFold k (bs "max-age")) eqn:H; simpl.
  - unfold applyCCDirective, applyBoolDirective, applyDurDirective. directive_names H. simpl.
    by destruct (parseDurStr _ _ _).
  - split_apply; simpl; congruence.
Qed.

Lemma fold_tokens_or (f : Directives -> bool) (p : bytes * bytes -> bool)
    (d : Directives) (toks : list (bytes * bytes)) :
  (forall d k v, f (applyCCDirective d k v) = f d || p (k, v)) ->
  f (apply_tokens d toks) = f d || existsb p toks.
Proof.
  intros Hf. unfold apply_tokens. revert d.
  induction toks as [|[k v] toks IH]; intros d; simpl; [by rewrite orb_false_r|].
  by rewrite IH, Hf, orb_assoc.
Qed.

(** ** Properties *)

(** On every value of the Cache-Control grammar (any run of blanks and
    commas between tokens, bare, plain and quoted values) the parser applies
    exactly the directives written, in order. *)
Theorem cc_parse_grammar (s : bytes) (toks : list (bytes * bytes)) (H : cc_value s toks) :
  ParseCacheControl s = apply_tokens Directives0 toks.
Proof. unfold ParseCacheControl. by rewrite (parse_loop_grammar _ _ H). Qed.

(** The directives that forbid reuse are found wherever they stand in the
    value, whatever their case and whatever surrounds them. *)
Theorem cc_blocking_directives (s : bytes) (toks : list (bytes * bytes)) (H : cc_value s toks) :
  let d := ParseCacheControl s in
  NoStore d = existsb (fun '(k, _) => EqFold k (bs "no-store")) toks /\
  Private d = existsb (fun '(k, _) => EqFold k (bs "private")) toks /\
  MustRevalidate d = existsb (fun '(k, _) => EqFold k (bs "must-revalidate")) toks /\
  NoCache d = existsb (fun '(k, v) => EqFold k (bs "no-cache") && beq v []) toks.
Proof.
  unfold ParseCacheControl. rewrite (parse_loop_grammar _ _ H) by done. simpl.
  repeat split.
  - apply (fold_tokens_or NoStore (fun '(k, _) => EqFold k (bs "no-store")) Directives0).
    intros; apply apply_NoStore.
  - apply (fold_tokens_or Private (fun '(k, _) => EqFold k (bs "private")) Directives0).
    intros; apply apply_Private.
  - apply (fold_tokens_or MustRevalidate (fun '(k, _) => EqFold k (bs "must-revalidate")) Directives0).
    intros; apply apply_MustRevalidate.
  - apply (fold_tokens_or NoCache (fun '(k, v) => EqFold k (bs "no-cache") && beq v []) Directives0).
    intros; apply apply_NoCache.
Qed.

(** The loop terminates: [len(s)] rounds are enough for every value, and
    more rounds give the same directives. *)
Theorem cc_parse_terminates (s : bytes) (n : nat) :
  parse_loop (length s + n) Directives0 s = Some (ParseCacheControl s).
Proof.
  destruct (parse_loop_total (length s) Directives0 s ltac:(lia)) as [d E].
  unfold ParseCacheControl. rewrite E. simpl. apply (parse_loop_mono (length s)); [lia|done].
Qed.

Lemma ParseCacheControlBytes_eq (s : bytes) : ParseCacheControlBytes s = ParseCacheControl s.
Proof. unfold ParseCacheControlBytes, ParseCacheControl. by rewrite parse_loop_bytes_eq. Qed.

(** The [[]byte] scanner of the fast path parses every value exactly as
    the [string] scanner of the other paths does. *)
Theorem cc_parse_bytes_agrees (s : bytes) : ParseCacheControlBytes s = ParseCacheControl s.
Proof. apply ParseCacheControlBytes_eq. Qed.

(** A max-age directive of at most 9223372036 seconds, possibly with
    trailing garbage after its digits, is read exactly; among several
    max-age directives the largest wins. *)
Theorem cc_max_age_exact (d : Directives) (k ds rest : bytes)
    (Hk : EqFold k (bs "max-age") = true) (Hd : all_digits ds = true) (Hne : ds <> [])
    (Hr : match rest with [] => True | c :: _ => is_digit c = false end)
    (Hb : digits_value 0 ds <= 9223372036) :
  let d' := applyCCDirective d k (ds ++ rest) in
  MaxAgeSet d' = true /\
  MaxAge d' = if MaxAgeSet d then Z.max (MaxAge d) (digits_value 0 ds * Second)
              else digits_value 0 ds * Second.
Proof.
  pose proof (digits_value_nonneg 0 ds ltac:(lia) Hd) as Hn.
  pose proof (apply_MaxAge d k (ds ++ rest)) as H. rewrite Hk in H.
  unfold parseDurStr in H. rewrite ParseIntNoAlloc_spec in H by done.
  rewrite (i64_id (digits_value 0 ds)) in H by (unfold in_i64; lia).
  unfold d_mul, Second in *. rewrite i64_id in H by (unfold in_i64; lia).
  destruct (MaxAgeSet d) eqn:E; simpl in H |- *.
  - destruct (MaxAge d <? _) eqn:El; bool_cases; simplify_eq; split; congruence || lia.
  - simplify_eq; split; congruence.
Qed.

(** Beyond that bound the product wraps: one second more and the parsed
    lifetime is negative. *)
Lemma cc_max_age_overflows :
  MaxAge (ParseCacheControl (bs "max-age=9223372037")) = -9223372036709551616.
Proof. vm_compute. reflexivity. Qed.

(** ** Witnesses *)

Lemma sample_value :
  cc_value (bs "No-Store, max-age=60 ,no-cache") [(bs "No-Store", []); (bs "max-age", bs "60"); (bs "no-cache", [])].
Proof.
  apply (ccv_cons [] (bs "No-Store") _ [] (bs ", max-age=60 ,no-cache"));
    [constructor|apply tok_bare; [done|repeat constructor]|reflexivity|].
  apply (ccv_cons (bs ", ") (bs "max-age=60") _ _ (bs " ,no-cache"));
    [repeat constructor|apply (tok_plain (bs "max-age") (bs "60")); [repeat constructor..|done]|reflexivity|].
  apply (ccv_cons (bs " ,") (bs "no-cache") _ [] []);
    [repeat constructor|apply tok_bare; [done|repeat constructor]|exact I|].
  constructor. constructor.
Qed.

Lemma cc_parse_grammar_witness :
  ParseCacheControl (bs "No-Store, max-age=60 ,no-cache")
  = apply_tokens Directives0 [(bs "No-Store", []); (bs "max-age", bs "60"); (bs "no-cache", [])].
Proof. apply (cc_parse_grammar _ _ sample_value). Defined.

Lemma cc_blocking_directives_witness :
  NoStore (ParseCacheControl (bs "No-Store, max-age=60 ,no-cache")) = true.
Proof.
  pose proof (cc_blocking_directives _ _ sample_value) as (H & _). exact H.
Defined.

Lemma cc_max_age_exact_witness :
  let d' := applyCCDirective Directives0 (bs "Max-Age") (bs "3600" ++ bs ".0") in
  MaxAgeSet d' = true /\ MaxAge d' = 3600 * Second.
Proof.
  apply (cc_max_age_exact Directives0 (bs "Max-Age") (bs "3600") (bs ".0"));
    [reflexivity|reflexivity|discriminate|reflexivity|vm_compute; discriminate].
Defined.
