(* ===== verification/HeaderMap.v ===== *)
(** * pkg/header/headermap.go: canonical header names and the compact header map

    A [Map] keeps its entries (canonical key, offset) apart from the shared
    slice of values, as in the source. Interning ([unique.Make]) returns an
    equal string and is the identity here. The abstract view of a map is the
    list of its (key, value) pairs in entry order, [pairs]; the operations
    are related to it below. *)

From S2P Require Import Prelude GoStd CacheControl.

(** ** Header names (pkg/header/header.go) *)

Module Hdr.
Definition Accept := bs "Accept".
Definition AcceptEncoding := bs "Accept-Encoding".
Definition Age := bs "Age".
Definition Authorization := bs "Authorization".
Definition CacheControl := bs "Cache-Control".
Definition CDNCacheControl := bs "Cdn-Cache-Control".
Definition CloudflareCDNCacheControl := bs "Cloudflare-Cdn-Cache-Control".
Definition SurrogateControl := bs "Surrogate-Control".
Definition Connection := bs "Connection".
Definition ContentEncoding := bs "Content-Encoding".
Definition ContentLength := bs "Content-Length".
Definition ContentRange := bs "Content-Range".
Definition ContentType := bs "Content-Type".
Definition Cookie := bs "Cookie".
Definition Date := bs "Date".
Definition ETag := bs "Etag".
Definition Expires := bs "Expires".
Definition IfModifiedSince := bs "If-Modified-Since".
Definition IfNoneMatch := bs "If-None-Match".
Definition KeepAlive := bs "Keep-Alive".
Definition LastModified := bs "Last-Modified".
Definition Pragma := bs "Pragma".
Definition Range := bs "Range".
Definition SetCookie := bs "Set-Cookie".
Definition SetLogin := bs "Set-Login".
Definition TE := bs "TE".
Definition Trailer := bs "Trailer".
Definition TransferEncoding := bs "Transfer-Encoding".
Definition Upgrade := bs "Upgrade".
Definition Vary := bs "Vary".
Definition XBouineHost := bs "X-Bouine-Host".
Definition XBouinePath := bs "X-Bouine-Path".
Definition XBouineRoute := bs "X-Bouine-Route".
Definition XCache := bs "X-Cache".
Definition Warning := bs "Warning".
Definition SurrogateKey := bs "Surrogate-Key".
Definition CacheTag := bs "Cache-Tag".
Definition XCacheTags := bs "X-Cache-Tags".
End Hdr.

(** ** Canonical keys *)

Fixpoint isCanonical_loop (upper : bool) (key : bytes) : bool :=
  match key with
  | [] => true
  | c :: key' =>
      if upper && is_lower c then false
      else if upper then isCanonical_loop false key'
      else if beqb c (ch "-") then isCanonical_loop true key'
      else if is_upper c then false
      else isCanonical_loop upper key'
  end.

Definition isCanonical (key : bytes) : bool := isCanonical_loop true key.

Fixpoint canonicalize_loop (upper : bool) (b : bytes) : bytes :=
  match b with
  | [] => []
  | c :: b' =>
      if upper && is_lower c then bZ (Zb c - 32) :: canonicalize_loop false b'
      else if upper then c :: canonicalize_loop false b'
      else if beqb c (ch "-") then c :: canonicalize_loop true b'
      else if is_upper c then bZ (Zb c + 32) :: canonicalize_loop upper b'
      else c :: canonicalize_loop upper b'
  end.

Definition canonicalize (key : bytes) : bytes := canonicalize_loop true key.

Definition canonicalHeaderKey (key : bytes) : bytes :=
  if isCanonical key then key else canonicalize key.

Fixpoint equalsCanonicalOf_loop (upper : bool) (stored key : bytes) : bool :=
  match key, stored with
  | [], _ => true
  | _ :: _, [] => false
  | c :: key', s :: stored' =>
      let '(c', upper') :=
        if upper && is_lower c then (bZ (Zb c - 32), false)
        else if upper then (c, false)
        else if beqb c (ch "-") then (c, true)
        else if is_upper c then (bZ (Zb c + 32), upper)
        else (c, upper) in
      if negb (beqb s c') then false else equalsCanonicalOf_loop upper' stored' key'
  end.

Definition equalsCanonicalOf (stored key : bytes) : bool :=
  if negb (len stored =? len key) then false else equalsCanonicalOf_loop true stored key.

Definition InternKey (key : bytes) : bytes :=
  if isCanonical key then key else canonicalHeaderKey key.

(** ** The map *)

Record headerEntry : Type := MkEntry { key : bytes; off : nat }.
Record Map : Type := MkMap { entries : list headerEntry; values : list bytes }.

Definition NewMap : Map := {| entries := []; values := [] |}.

(** [h.values[e.off]]. Offsets of a well-formed map are in range ([wf]), so
    the default is never used on one. *)
Definition value_at (h : Map) (e : headerEntry) : bytes := default [] (values h !! off e).

(** The first entry that satisfies [p]. *)
Definition find_entry (p : headerEntry -> bool) (h : Map) : option headerEntry :=
  find p (entries h).

Definition Get (h : Map) (k : bytes) : bytes :=
  match find_entry (fun e => beq (key e) k) h with
  | Some e => value_at h e
  | None =>
      if isCanonical k then []
      else match find_entry (fun e => equalsCanonicalOf (key e) k) h with
           | Some e => value_at h e
           | None => []
           end
  end.

Definition GetAll (h : Map) (k : bytes) : bytes :=
  let parts := map (value_at h) (List.filter (fun e => beq (key e) k) (entries h)) in
  let parts :=
    match parts with
    | [] => if isCanonical k then []
            else map (value_at h) (List.filter (fun e => equalsCanonicalOf (key e) k) (entries h))
    | _ => parts
    end in
  join (bs ", ") parts.

(** The non-empty Cookie lines; one is returned as it is, several are joined. *)
Definition cookie_lines (h : Map) : list bytes :=
  List.filter (fun v => negb (beq v []))
    (map (value_at h) (List.filter (fun e => beq (key e) Hdr.Cookie) (entries h))).

Fixpoint cookie_append (b : bytes) (lines : list bytes) : bytes :=
  match lines with
  | [] => b
  | v :: lines =>
      let b := if 0 <? len b then b ++ bs "; " else b in
      cookie_append (b ++ v) lines
  end.

Definition CookieAll (h : Map) : bytes :=
  match cookie_lines h with
  | [] => []
  | [v] => v
  | vs => cookie_append [] vs
  end.

Fixpoint insert_before_greater (e : headerEntry) (es : list headerEntry) : list headerEntry :=
  match es with
  | [] => [e]
  | x :: es' => if bytes_gtb (key x) (key e) then e :: es else x :: insert_before_greater e es'
  end.

Definition insertSorted (h : Map) (k v : bytes) : Map :=
  {| entries := insert_before_greater {| key := k; off := length (values h) |} (entries h);
     values := values h ++ [v] |}.

Definition Set_ (h : Map) (k v : bytes) : Map :=
  let ck := InternKey k in
  match find_entry (fun e => beq (key e) ck) h with
  | Some e => {| h with values := <[off e := v]> (values h) |}
  | None => insertSorted h ck v
  end.

Fixpoint remove_first (p : headerEntry -> bool) (es : list headerEntry) : list headerEntry :=
  match es with
  | [] => []
  | e :: es' => if p e then es' else e :: remove_first p es'
  end.

Definition Del (h : Map) (k : bytes) : Map :=
  let ck := canonicalHeaderKey k in
  {| h with entries := remove_first (fun e => beq (key e) ck) (entries h) |}.

Definition Has (h : Map) (k : bytes) : bool :=
  let ck := canonicalHeaderKey k in existsb (fun e => beq (key e) ck) (entries h).

Definition AppendEntryCanonical (h : Map) (k v : bytes) : Map :=
  {| entries := entries h ++ [{| key := k; off := length (values h) |}];
     values := values h ++ [v] |}.

Definition AppendEntry (h : Map) (k v : bytes) : Map :=
  {| entries := entries h ++ [{| key := InternKey k; off := length (values h) |}];
     values := values h ++ [v] |}.

Definition SetEntryRaw (h : Map) (k v : bytes) : Map :=
  match find_entry (fun e => beq (key e) k) h with
  | Some e => {| h with values := <[off e := v]> (values h) |}
  | None => {| entries := entries h ++ [{| key := k; off := length (values h) |}];
               values := values h ++ [v] |}
  end.

Definition SortEntries (h : Map) : Map :=
  if len (entries h) <=? 1 then h
  else {| h with entries := stable_sort key (entries h) |}.

Definition Len (h : Map) : Z := len (entries h).

Definition Footprint (h : Map) : Z * Z * Z :=
  (len (entries h), len (values h), fold_left (fun n v => n + len v) (values h) 0).

Definition Clone (h : Map) : Map :=
  match entries h with
  | [] => NewMap
  | _ => {| entries := entries h; values := values h |}
  end.

(** [h.Range]: the calls of the callback, in order. *)
Definition pairs (h : Map) : list (bytes * bytes) :=
  map (fun e => (key e, value_at h e)) (entries h).

(** [FromFastHTTP]: [hdrs] is what [h.All()] yields, one pair per field line. *)
Definition FromFastHTTP (hdrs : list (bytes * bytes)) : Map :=
  SortEntries
    (fold_left (fun hm '(k, v) =>
       if (len k =? 0) || (len v =? 0) then hm else AppendEntryCanonical hm k v) hdrs NewMap).

Definition skipped_on_write (k : bytes) : bool :=
  existsb (beq k)
    [Hdr.Date; Hdr.TransferEncoding; Hdr.Connection; Hdr.KeepAlive; Hdr.TE; Hdr.Trailer;
     Hdr.Upgrade; Hdr.XBouinePath; Hdr.XBouineHost; Hdr.XBouineRoute; Hdr.Age].

(** [WriteToFastHTTP]: the [SetCanonical] calls on the destination, in order. *)
Definition WriteToFastHTTP (h : Map) : list (bytes * bytes) :=
  List.filter (fun kv => negb (skipped_on_write kv.1)) (pairs h).

(** ** Canonicalization, byte by byte *)

Definition canon_byte (upper : bool) (c : byte) : byte :=
  if upper && is_lower c then bZ (Zb c - 32)
  else if upper then c
  else if beqb c (ch "-") then c
  else if is_upper c then bZ (Zb c + 32) else c.

Definition canon_next (upper : bool) (c : byte) : bool :=
  if upper then false else beqb c (ch "-").

Lemma canonicalize_loop_cons (u : bool) (c : byte) (s : bytes) :
  canonicalize_loop u (c :: s) = canon_byte u c :: canonicalize_loop (canon_next u c) s.
Proof.
  simpl. unfold canon_byte, canon_next. destruct u; simpl.
  - by destruct (is_lower c).
  - destruct (beqb c (ch "-")); [done|]. by destruct (is_upper c).
Qed.

Lemma isCanonical_loop_cons (u : bool) (c : byte) (s : bytes) :
  isCanonical_loop u (c :: s) = beqb (canon_byte u c) c && isCanonical_loop (canon_next u c) s.
Proof.
  simpl. unfold canon_next. destruct u; simpl.
  - replace (beqb (canon_byte true c) c) with (negb (is_lower c)) by (each_byte c).
    by destruct (is_lower c).
  - replace (beqb (canon_byte false c) c) with (beqb c (ch "-") || negb (is_upper c)) by (each_byte c).
    destruct (beqb c (ch "-")); [done|]. by destruct (is_upper c).
Qed.

Lemma equalsCanonicalOf_loop_cons (u : bool) (s c : byte) (st k : bytes) :
  equalsCanonicalOf_loop u (s :: st) (c :: k) =
  beqb s (canon_byte u c) && equalsCanonicalOf_loop (canon_next u c) st k.
Proof.
  simpl. unfold canon_byte, canon_next. destruct u; simpl.
  - destruct (is_lower c); by destruct (beqb s _).
  - destruct (beqb c (ch "-")); [by destruct (beqb s _)|].
    destruct (is_upper c); by destruct (beqb s _).
Qed.

Lemma canon_byte_idem (u : bool) (c : byte) : canon_byte u (canon_byte u c) = canon_byte u c.
Proof. destruct u; each_byte c. Qed.
Lemma canon_next_idem (u : bool) (c : byte) : canon_next u (canon_byte u c) = canon_next u c.
Proof. destruct u; [done|]. each_byte c. Qed.
Lemma canon_byte_fold (u : bool) (c : byte) : canon_byte u (fold_byte c) = canon_byte u c.
Proof. destruct u; each_byte c. Qed.
Lemma canon_next_fold (u : bool) (c : byte) : canon_next u (fold_byte c) = canon_next u c.
Proof. destruct u; [done|]. each_byte c. Qed.
Lemma fold_canon_byte (u : bool) (c : byte) : fold_byte (canon_byte u c) = fold_byte c.
Proof. destruct u; each_byte c. Qed.

Lemma isCanonical_loop_spec (u : bool) (k : bytes) :
  isCanonical_loop u k = true <-> canonicalize_loop u k = k.
Proof.
  revert u; induction k as [|c k IH]; intros u; [done|].
  rewrite isCanonical_loop_cons, canonicalize_loop_cons, andb_true_iff, beqb_eq, IH.
  split; [intros [H1 H2]; congruence|]. intros H. injection H. auto.
Qed.

Lemma isCanonical_spec (k : bytes) : isCanonical k = true <-> canonicalize k = k.
Proof. apply isCanonical_loop_spec. Qed.

Lemma canonicalize_idem (k : bytes) : canonicalize (canonicalize k) = canonicalize k.
Proof.
  unfold canonicalize. generalize true. induction k as [|c k IH]; intros u; [done|].
  rewrite !canonicalize_loop_cons. by rewrite canon_byte_idem, canon_next_idem, IH.
Qed.

Lemma canonicalize_length (k : bytes) : length (canonicalize k) = length k.
Proof.
  unfold canonicalize. generalize true. induction k as [|c k IH]; intros u; [done|].
  rewrite canonicalize_loop_cons. simpl. by rewrite IH.
Qed.

(** The canonical form depends only on the letters, not on their case, and
    keeps them: it is a representative of the case-insensitive class. *)
Lemma canonicalize_fold (k : bytes) : canonicalize (map fold_byte k) = canonicalize k.
Proof.
  unfold canonicalize. generalize true. induction k as [|c k IH]; intros u; [done|].
  simpl map. rewrite !canonicalize_loop_cons. by rewrite canon_byte_fold, canon_next_fold, IH.
Qed.

Lemma fold_canonicalize (k : bytes) : map fold_byte (canonicalize k) = map fold_byte k.
Proof.
  unfold canonicalize. generalize true. induction k as [|c k IH]; intros u; [done|].
  rewrite canonicalize_loop_cons. simpl. by rewrite fold_canon_byte, IH.
Qed.

Lemma canonical_iff_EqFold (a b : bytes) : canonicalize a = canonicalize b <-> EqFold a b = true.
Proof.
  rewrite EqFold_spec. split; intros H.
  - by rewrite <- (fold_canonicalize a), <- (fold_canonicalize b), H.
  - by rewrite <- (canonicalize_fold a), <- (canonicalize_fold b), H.
Qed.

Lemma equalsCanonicalOf_spec (st k : bytes) :
  equalsCanonicalOf st k = true <-> st = canonicalize k.
Proof.
  unfold equalsCanonicalOf. destruct (len st =? len k) eqn:E; bool_cases; simpl.
  - unfold len in E. assert (length st = length k) as Hl by lia. clear E.
    unfold canonicalize. assert (forall u, equalsCanonicalOf_loop u st k = true
      <-> st = canonicalize_loop u k) as H; [|apply H]. revert st Hl.
    induction k as [|c k IH]; intros [|s st] Hl u; try done.
    rewrite equalsCanonicalOf_loop_cons, canonicalize_loop_cons, andb_true_iff, beqb_eq.
    rewrite IH by (simpl in Hl; lia).
    split; [intros [H1 H2]; congruence|]. intros H. injection H. auto.
  - split; [done|]. intros ->. unfold len in E. by rewrite canonicalize_length in E.
Qed.

Lemma canonicalHeaderKey_eq (k : bytes) : canonicalHeaderKey k = canonicalize k.
Proof.
  unfold canonicalHeaderKey. destruct (isCanonical k) eqn:E; [|done].
  symmetry. by apply isCanonical_spec.
Qed.

Lemma InternKey_eq (k : bytes) : InternKey k = canonicalize k.
Proof.
  unfold InternKey. rewrite canonicalHeaderKey_eq.
  destruct (isCanonical k) eqn:E; [|done]. symmetry. by apply isCanonical_spec.
Qed.

(** ** Well-formed maps *)

(** Every entry has a canonical key and an offset of its own into [values]. *)
Record wf (h : Map) : Prop := {
  wf_canon : Forall (fun e => canonicalize (key e) = key e) (entries h);
  wf_range : Forall (fun e => (off e < length (values h))%nat) (entries h);
  wf_nodup : NoDup (map off (entries h));
}.

(** The reference reading of a list of field lines: the first value under a
    key, and all of them. *)
Definition first_value (k : bytes) (l : list (bytes * bytes)) : bytes :=
  match find (fun kv => beq kv.1 k) l with Some kv => kv.2 | None => [] end.
Definition all_values (k : bytes) (l : list (bytes * bytes)) : list bytes :=
  map snd (List.filter (fun kv => beq kv.1 k) l).

Lemma find_ext {A} (p q : A -> bool) (l : list A) :
  Forall (fun x => p x = q x) l -> find p l = find q l.
Proof. induction 1 as [|x l E _ IH]; simpl; [done|]. by rewrite E, IH. Qed.

Lemma find_map {A B} (f : A -> B) (p : B -> bool) (l : list A) :
  find p (map f l) = option_map f (find (fun x => p (f x)) l).
Proof. induction l as [|x l IH]; simpl; [done|]. by destruct (p (f x)). Qed.

Lemma filter_map {A B} (f : A -> B) (p : B -> bool) (l : list A) :
  List.filter p (map f l) = map f (List.filter (fun x => p (f x)) l).
Proof. induction l as [|x l IH]; simpl; [done|]. by destruct (p (f x)); simpl; rewrite IH. Qed.

Lemma filter_ext_Forall {A} (p q : A -> bool) (l : list A) :
  Forall (fun x => p x = q x) l -> List.filter p l = List.filter q l.
Proof. induction 1 as [|x l E _ IH]; simpl; [done|]. by rewrite E, IH. Qed.

(** Among canonical keys, comparing with a key through its canonical form is
    comparing with the canonical form. *)
Lemma canonical_test (h : Map) (k : bytes) :
  Forall (fun e => equalsCanonicalOf (key e) k = beq (key e) (canonicalize k)) (entries h).
Proof.
  apply Forall_forall. intros e _. apply eq_true_iff_eq. by rewrite equalsCanonicalOf_spec, beq_eq.
Qed.

Lemma non_canonical_absent (h : Map) (k : bytes) :
  wf h -> isCanonical k = false -> Forall (fun e => beq (key e) k = false) (entries h).
Proof.
  intros Hw Hk. eapply Forall_impl; [exact (wf_canon h Hw)|]. simpl.
  intros e He. apply beq_neq. intros <-. apply isCanonical_spec in He. congruence.
Qed.

Lemma find_none_of_false {A} (p : A -> bool) (l : list A) :
  Forall (fun x => p x = false) l -> find p l = None.
Proof. induction 1 as [|x l E _ IH]; simpl; [done|]. by rewrite E. Qed.

Lemma filter_none_of_false {A} (p : A -> bool) (l : list A) :
  Forall (fun x => p x = false) l -> List.filter p l = [].
Proof. induction 1 as [|x l E _ IH]; simpl; [done|]. by rewrite E. Qed.

Lemma Get_pairs (h : Map) (k : bytes) :
  wf h -> Get h k = first_value (canonicalize k) (pairs h).
Proof.
  intros Hw. unfold Get, first_value, pairs, find_entry.
  rewrite find_map. simpl. destruct (isCanonical k) eqn:Hk.
  - apply isCanonical_spec in Hk. rewrite Hk. by destruct (find _ (entries h)).
  - rewrite (find_none_of_false _ _ (non_canonical_absent h k Hw Hk)).
    rewrite (find_ext _ _ _ (canonical_test h k)). by destruct (find _ (entries h)).
Qed.

Lemma GetAll_pairs (h : Map) (k : bytes) :
  wf h -> GetAll h k = join (bs ", ") (all_values (canonicalize k) (pairs h)).
Proof.
  intros Hw. unfold GetAll, all_values, pairs. rewrite filter_map, map_map. simpl.
  destruct (isCanonical k) eqn:Hk.
  - apply isCanonical_spec in Hk. rewrite Hk. by destruct (map _ (List.filter _ (entries h))).
  - rewrite (filter_none_of_false _ _ (non_canonical_absent h k Hw Hk)). simpl.
    by rewrite (filter_ext_Forall _ _ _ (canonical_test h k)).
Qed.

Lemma Has_pairs (h : Map) (k : bytes) :
  Has h k = existsb (fun kv => beq kv.1 (canonicalize k)) (pairs h).
Proof.
  unfold Has, pairs. rewrite canonicalHeaderKey_eq.
  induction (entries h) as [|e es IH]; simpl; [done|]. by rewrite IH.
Qed.

(** ** Updates *)

Lemma find_split {A} (p : A -> bool) (l : list A) (x : A) :
  find p l = Some x ->
  exists l1 l2, l = l1 ++ x :: l2 /\ p x = true /\ Forall (fun y => p y = false) l1.
Proof.
  induction l as [|y l IH]; simpl; [done|]. destruct (p y) eqn:E.
  - intros [= ->]. exists [], l. auto.
  - intros H. destruct (IH H) as (l1 & l2 & -> & Hx & Hl).
    exists (y :: l1), l2. auto.
Qed.

Lemma find_none_forall {A} (p : A -> bool) (l : list A) :
  find p l = None -> Forall (fun x => p x = false) l.
Proof.
  induction l as [|y l IH]; simpl; [constructor|]. destruct (p y) eqn:E; [done|]. auto.
Qed.

(** Appending to [values] leaves the existing entries' values alone. *)
Lemma value_at_app (h : Map) (vs : list bytes) (e : headerEntry) (es : list headerEntry) :
  (off e < length (values h))%nat ->
  value_at {| entries := es; values := values h ++ vs |} e = value_at h e.
Proof. intros H. unfold value_at. simpl. by rewrite lookup_app_l. Qed.

Lemma map_value_at_app (h : Map) (vs : list bytes) (es l : list headerEntry) :
  Forall (fun e => (off e < length (values h))%nat) l ->
  map (fun e => (key e, value_at {| entries := es; values := values h ++ vs |} e)) l
  = map (fun e => (key e, value_at h e)) l.
Proof. induction 1 as [|e l He _ IH]; simpl; [done|]. by rewrite IH, value_at_app. Qed.

Lemma value_at_new (h : Map) (k v : bytes) (es : list headerEntry) :
  value_at {| entries := es; values := values h ++ [v] |} {| key := k; off := length (values h) |} = v.
Proof.
  unfold value_at. simpl. rewrite lookup_app_r by lia. by rewrite Nat.sub_diag.
Qed.

Lemma insert_before_greater_split (e : headerEntry) (es : list headerEntry) :
  exists l1 l2, es = l1 ++ l2 /\ insert_before_greater e es = l1 ++ e :: l2.
Proof.
  induction es as [|x es IH]; simpl.
  - by exists [], [].
  - destruct (bytes_gtb (key x) (key e)).
    + by exists [], (x :: es).
    + destruct IH as (l1 & l2 & -> & ->). by exists (x :: l1), l2.
Qed.

Lemma wf_insert (h : Map) (k v : bytes) (l1 l2 : list headerEntry) :
  wf h -> canonicalize k = k -> entries h = l1 ++ l2 ->
  wf {| entries := l1 ++ {| key := k; off := length (values h) |} :: l2; values := values h ++ [v] |}.
Proof.
  intros [Hc Hr Hn] Hk E. rewrite E in *. apply Forall_app in Hc as [Hc1 Hc2].
  pose proof Hr as Hr'. apply Forall_app in Hr as [Hr1 Hr2].
  split; simpl.
  - apply Forall_app; split; [done|]. by constructor.
  - rewrite length_app. simpl. apply Forall_app; split; [|constructor; [simpl; lia|]];
      eapply Forall_impl; [done| |done|]; simpl; lia.
  - rewrite map_app in *. simpl. apply NoDup_app in Hn as (H1 & H12 & H2).
    assert (forall l, Forall (fun e => (off e < length (values h))%nat) l ->
            length (values h) ∉ map off l) as Hfresh.
    { intros l Hl Hin. apply list_elem_of_In, in_map_iff in Hin as (e & Ee & Hin).
      rewrite Forall_forall in Hl. apply list_elem_of_In in Hin. apply Hl in Hin. lia. }
    apply NoDup_app. split; [done|]. split.
    + intros x Hx. rewrite not_elem_of_cons. split; [|by apply H12].
      intros ->. by apply (Hfresh l1).
    + constructor; [by apply Hfresh|done].
Qed.

Lemma pairs_insert (h : Map) (k v : bytes) (l1 l2 : list headerEntry) :
  wf h -> entries h = l1 ++ l2 ->
  exists p1 p2, pairs h = p1 ++ p2 /\ p1 = map (fun e => (key e, value_at h e)) l1 /\
  pairs {| entries := l1 ++ {| key := k; off := length (values h) |} :: l2; values := values h ++ [v] |}
  = p1 ++ (k, v) :: p2.
Proof.
  intros [Hc Hr Hn] E. unfold pairs. rewrite E in *. apply Forall_app in Hr as [Hr1 Hr2].
  eexists _, _. split; [apply map_app|]. split; [done|]. simpl. rewrite map_app. simpl.
  by rewrite value_at_new, !map_value_at_app.
Qed.

Lemma wf_NewMap : wf NewMap.
Proof. split; simpl; constructor. Qed.

Lemma wf_AppendEntryCanonical (h : Map) (k v : bytes) :
  wf h -> canonicalize k = k ->
  wf (AppendEntryCanonical h k v) /\ pairs (AppendEntryCanonical h k v) = pairs h ++ [(k, v)].
Proof.
  intros Hw Hk. split.
  - apply wf_insert; [done..|by rewrite app_nil_r].
  - destruct (pairs_insert h k v (entries h) [] Hw) as (p1 & p2 & E & -> & E'); [by rewrite app_nil_r|].
    unfold AppendEntryCanonical. rewrite E'. f_equal.
    apply (f_equal length) in E. unfold pairs in E. rewrite length_app, !length_map in E.
    destruct p2; [done|simpl in E; lia].
Qed.

Lemma AppendEntry_canonical (h : Map) (k v : bytes) :
  AppendEntry h k v = AppendEntryCanonical h (canonicalize k) v.
Proof. unfold AppendEntry. by rewrite InternKey_eq. Qed.

(** Overwriting the value of one entry of a well-formed map. *)
Lemma update_first (h : Map) (p : headerEntry -> bool) (e : headerEntry) (v : bytes) :
  wf h -> find p (entries h) = Some e ->
  wf {| h with values := <[off e := v]> (values h) |} /\
  exists l1 l2,
    entries h = l1 ++ e :: l2 /\ p e = true /\ Forall (fun x => p x = false) l1 /\
    pairs {| h with values := <[off e := v]> (values h) |}
    = map (fun e => (key e, value_at h e)) l1 ++ (key e, v) :: map (fun e => (key e, value_at h e)) l2.
Proof.
  intros [Hc Hr Hn] Hf. apply find_split in Hf as (l1 & l2 & E & Hp & Hl1).
  split.
  { split; simpl; [done| |done]. by rewrite length_insert. }
  exists l1, l2. repeat split; [done..|]. unfold pairs. simpl. rewrite E in *.
  apply Forall_app in Hr as [Hr1 Hr2]. inversion Hr2 as [|?? He Hr2']; subst.
  rewrite map_app in Hn. simpl in Hn. apply NoDup_app in Hn as (_ & H12 & H2).
  inversion H2 as [|?? He2 _]; subst.
  assert (forall l, off e ∉ map off l ->
    map (fun x => (key x, value_at {| entries := l1 ++ e :: l2; values := <[off e := v]> (values h) |} x)) l
    = map (fun x => (key x, value_at h x)) l) as Hother.
  { induction l as [|x l IH]; simpl; [done|]. rewrite not_elem_of_cons. intros [Hx Hl].
    rewrite IH by done. f_equal. f_equal. unfold value_at. simpl.
    by rewrite list_lookup_insert_ne. }
  rewrite map_app. simpl. rewrite !Hother; [|done|].
  - f_equal. f_equal. f_equal. unfold value_at. simpl.
    by rewrite list_lookup_insert_eq.
  - intros Hin. apply (H12 _ Hin). apply list_elem_of_here.
Qed.

Lemma find_app {A} (p : A -> bool) (l1 l2 : list A) :
  find p (l1 ++ l2) = match find p l1 with Some x => Some x | None => find p l2 end.
Proof. induction l1 as [|x l1 IH]; simpl; [done|]. by destruct (p x). Qed.

(** The first value under [k'] after the line of [k] was put somewhere it
    shadows nothing, or replaced the first line of [k]. *)
Lemma first_value_middle (k k' v : bytes) (p1 p2 : list (bytes * bytes)) :
  Forall (fun kv => kv.1 <> k) p1 ->
  first_value k' (p1 ++ (k, v) :: p2) = if beq k k' then v else first_value k' (p1 ++ p2).
Proof.
  intros H1. unfold first_value. rewrite !find_app. simpl.
  destruct (beq k k') eqn:E; bool_cases.
  - subst. rewrite (find_none_of_false _ p1); [done|].
    eapply Forall_impl; [exact H1|]. simpl. intros kv Hkv. by apply beq_neq.
  - by destruct (find _ p1).
Qed.

Lemma keys_differ (h : Map) (k : bytes) (l : list headerEntry) :
  Forall (fun x => beq (key x) k = false) l ->
  Forall (fun kv => kv.1 <> k) (map (fun e => (key e, value_at h e)) l).
Proof.
  induction 1 as [|x l E _ IH]; simpl; constructor; [|done]. simpl. by apply beq_neq.
Qed.

Lemma Set_spec (h : Map) (k v : bytes) :
  wf h ->
  wf (Set_ h k v) /\
  forall k', first_value k' (pairs (Set_ h k v)) =
             if beq (canonicalize k) k' then v else first_value k' (pairs h).
Proof.
  intros Hw. unfold Set_, find_entry. rewrite InternKey_eq.
  destruct (find _ (entries h)) as [e|] eqn:Ef.
  - destruct (update_first h _ e v Hw Ef) as (Hw' & l1 & l2 & E & Hp & Hl & ->).
    split; [done|]. intros k'. apply beq_eq in Hp. rewrite Hp.
    rewrite first_value_middle by (by apply keys_differ).
    destruct (beq (canonicalize k) k') eqn:Ek; [done|]. unfold pairs. rewrite E, map_app.
    unfold first_value. rewrite !find_app. simpl. rewrite Hp, Ek.
    by destruct (find _ (map _ l1)).
  - unfold insertSorted.
    destruct (insert_before_greater_split {| key := canonicalize k; off := length (values h) |} (entries h))
      as (l1 & l2 & E & ->).
    split; [apply wf_insert; auto using canonicalize_idem|]. intros k'.
    destruct (pairs_insert h (canonicalize k) v l1 l2 Hw E) as (p1 & p2 & Ep & -> & ->).
    rewrite Ep. apply first_value_middle. apply keys_differ.
    apply find_none_forall in Ef. rewrite E in Ef. by apply Forall_app in Ef as [? _].
Qed.

Lemma Forall_remove_first (P : headerEntry -> Prop) (p : headerEntry -> bool) (es : list headerEntry) :
  Forall P es -> Forall P (remove_first p es).
Proof. induction 1 as [|e es He Hes IH]; simpl; [done|]. destruct (p e); auto. Qed.

Lemma remove_first_sublist (p : headerEntry -> bool) (es : list headerEntry) :
  sublist (map off (remove_first p es)) (map off es).
Proof.
  induction es as [|e es IH]; simpl; [constructor|].
  destruct (p e); simpl; [by apply sublist_cons|by apply sublist_skip].
Qed.

Lemma wf_Del (h : Map) (k : bytes) : wf h -> wf (Del h k).
Proof.
  intros [Hc Hr Hn]. unfold Del. split; simpl.
  - by apply Forall_remove_first.
  - by apply Forall_remove_first.
  - eapply sublist_NoDup; [done|apply remove_first_sublist].
Qed.

Fixpoint del_first (k : bytes) (l : list (bytes * bytes)) : list (bytes * bytes) :=
  match l with
  | [] => []
  | kv :: l' => if beq kv.1 k then l' else kv :: del_first k l'
  end.

Lemma Del_pairs (h : Map) (k : bytes) : pairs (Del h k) = del_first (canonicalize k) (pairs h).
Proof.
  unfold Del, pairs. rewrite canonicalHeaderKey_eq.
  change (map (fun e => (key e, value_at h e))
            (remove_first (fun e => beq (key e) (canonicalize k)) (entries h))
          = del_first (canonicalize k) (map (fun e => (key e, value_at h e)) (entries h))).
  induction (entries h) as [|e es IH]; simpl; [done|].
  destruct (beq (key e) (canonicalize k)); simpl; [done|]. by rewrite IH.
Qed.

(** ** Sorting *)

Lemma SortEntries_eq (h : Map) : SortEntries h = {| h with entries := stable_sort key (entries h) |}.
Proof.
  unfold SortEntries. destruct (len (entries h) <=? 1) eqn:E; [|done]. bool_cases.
  destruct h as [es vs]. simpl in *. destruct es as [|e [|e' es]]; [done|done|].
  unfold len in E. simpl in E. lia.
Qed.

Lemma wf_SortEntries (h : Map) : wf h -> wf (SortEntries h).
Proof.
  intros [Hc Hr Hn]. rewrite SortEntries_eq. split; simpl.
  - by rewrite (stable_sort_perm key).
  - by rewrite (stable_sort_perm key).
  - by rewrite (stable_sort_perm key).
Qed.

Lemma filter_bool_decide {A} (f : A -> bytes) (k : bytes) (l : list A) :
  List.filter (fun x => beq (f x) k) l = filter (fun x => f x = k) l.
Proof.
  induction l as [|x l IH]; [done|]. rewrite filter_cons. simpl. unfold beq at 1.
  rewrite IH. case_bool_decide; by case_decide.
Qed.

Lemma first_value_all (k : bytes) (l : list (bytes * bytes)) :
  first_value k l = default [] (head (all_values k l)).
Proof.
  unfold first_value, all_values. induction l as [|[k' v] l IH]; simpl; [done|].
  by destruct (beq k' k).
Qed.

Lemma all_values_entries (h : Map) (k : bytes) :
  all_values k (pairs h) = map (value_at h) (List.filter (fun e => beq (key e) k) (entries h)).
Proof. unfold all_values, pairs. by rewrite filter_map, map_map. Qed.

(** Sorting is stable, so it moves no line of a field before another one. *)
Lemma all_values_SortEntries (h : Map) (k : bytes) :
  all_values k (pairs (SortEntries h)) = all_values k (pairs h).
Proof.
  rewrite !all_values_entries, SortEntries_eq. simpl.
  rewrite !filter_bool_decide, stable_sort_filter. done.
Qed.

(** Sorted entries stay sorted when a new key is put in its place. *)
Lemma insertSorted_sorted (h : Map) (k v : bytes) :
  sorted_by key (entries h) -> sorted_by key (entries (insertSorted h k v)).
Proof.
  unfold insertSorted. simpl. generalize {| key := k; off := length (values h) |}. intros e.
  induction (entries h) as [|x es IH]; simpl; [by repeat constructor|]. intros [Hx Hes].
  rewrite bytes_gtb_leb. destruct (bytes_leb (key x) (key e)) eqn:E; simpl.
  - split; [|by apply IH].
    destruct (insert_before_greater_split e es) as (l1 & l2 & -> & ->).
    apply Forall_app in Hx as [H1 H2]. apply Forall_app; split; [done|]. by constructor.
  - apply bytes_leb_total in E. split; [|done]. constructor; [done|].
    eapply Forall_impl; [exact Hx|]. simpl. intros y Hy. by eapply bytes_leb_trans.
Qed.

Lemma Set_sorted (h : Map) (k v : bytes) :
  sorted_by key (entries h) -> sorted_by key (entries (Set_ h k v)).
Proof.
  intros Hs. unfold Set_. destruct (find_entry _ h); [done|]. by apply insertSorted_sorted.
Qed.

(** ** Deletion *)

Lemma all_values_del_first (k k' : bytes) (l : list (bytes * bytes)) :
  all_values k' (del_first k l) = if beq k k' then tail (all_values k' l) else all_values k' l.
Proof.
  unfold all_values. induction l as [|[q v] l IH]; simpl; [by destruct (beq k k')|].
  destruct (beq q k) eqn:Eq; bool_cases; subst; simpl.
  - by destruct (beq k k').
  - destruct (beq q k') eqn:Eq'; simpl; rewrite IH; destruct (beq k k') eqn:E; try done.
    bool_cases. congruence.
Qed.

Lemma Has_all_values (h : Map) (k : bytes) :
  Has h k = (0 <? len (all_values (canonicalize k) (pairs h))).
Proof.
  rewrite Has_pairs. unfold all_values. induction (pairs h) as [|[q v] l IH]; simpl; [done|].
  destruct (beq q (canonicalize k)); simpl; [|done]. rewrite len_cons. symmetry.
  apply Z.ltb_lt. pose proof (len_nonneg (map snd (List.filter (fun kv => beq kv.1 (canonicalize k)) l))). lia.
Qed.

Lemma pairs_canonical (h : Map) : wf h -> Forall (fun kv => canonicalize kv.1 = kv.1) (pairs h).
Proof. intros [Hc _ _]. unfold pairs. apply Forall_map. exact Hc. Qed.

(** ** Properties *)

(** The three readings of "canonical" agree: the fast check accepts exactly
    the fixed points of canonicalization, canonicalization always produces
    one, the comparison that never builds the canonical form compares with
    it, and two names have the same canonical form exactly when they are equal
    up to ASCII case. *)
Theorem hm_canonical_keys (k st : bytes) :
  (isCanonical k = true <-> canonicalize k = k) /\
  isCanonical (canonicalize k) = true /\
  (equalsCanonicalOf st k = true <-> st = canonicalize k) /\
  (canonicalize st = canonicalize k <-> EqFold st k = true).
Proof.
  split; [apply isCanonical_spec|]. split; [apply isCanonical_spec, canonicalize_idem|].
  split; [apply equalsCanonicalOf_spec|apply canonical_iff_EqFold].
Qed.

(** Lookups in a well-formed map do not depend on the case of the name
    asked for, on the fast path or on the fallback. *)
Theorem hm_lookup_case_insensitive (h : Map) (k k' : bytes) (Hw : wf h) (He : EqFold k k' = true) :
  Get h k = Get h k' /\ GetAll h k = GetAll h k' /\ Has h k = Has h k'.
Proof.
  apply canonical_iff_EqFold in He.
  by rewrite !Get_pairs, !GetAll_pairs, !Has_pairs, He.
Qed.

(** Set keeps a map well-formed and sorted, makes the new value the one
    every spelling of the name reads, and changes no other field. *)
Theorem hm_set_get (h : Map) (k v : bytes) (Hw : wf h) (Hs : sorted_by key (entries h)) :
  wf (Set_ h k v) /\ sorted_by key (entries (Set_ h k v)) /\
  forall k', Get (Set_ h k v) k' = if EqFold k k' then v else Get h k'.
Proof.
  destruct (Set_spec h k v Hw) as [Hw' Hg]. split; [done|]. split; [by apply Set_sorted|].
  intros k'. rewrite !Get_pairs, Hg by done.
  destruct (EqFold k k') eqn:E.
  - apply canonical_iff_EqFold in E. by rewrite E, beq_refl.
  - destruct (beq _ _) eqn:E'; [|done]. apply beq_eq, canonical_iff_EqFold in E'. congruence.
Qed.

(** Sorting the entries orders the keys and keeps every lookup, including
    the order of repeated field lines. *)
Theorem hm_sort_keeps_lookups (h : Map) (k : bytes) (Hw : wf h) :
  wf (SortEntries h) /\ sorted_by key (entries (SortEntries h)) /\
  Get (SortEntries h) k = Get h k /\ GetAll (SortEntries h) k = GetAll h k.
Proof.
  pose proof (wf_SortEntries h Hw) as Hw'. split; [done|]. split.
  { rewrite SortEntries_eq. apply stable_sort_sorted. }
  rewrite !Get_pairs, !GetAll_pairs, !first_value_all by done.
  by rewrite all_values_SortEntries.
Qed.

(** Del removes exactly one line of the field, the first one: the field is
    still present when it had more than one line, and no other field changes. *)
Theorem hm_del_removes_one_line (h : Map) (k k' : bytes) (Hw : wf h) :
  wf (Del h k) /\
  Has (Del h k) k = (1 <? len (all_values (canonicalize k) (pairs h))) /\
  (EqFold k k' = false -> GetAll (Del h k) k' = GetAll h k').
Proof.
  pose proof (wf_Del h k Hw) as Hw'. split; [done|]. split.
  - rewrite Has_all_values, Del_pairs, all_values_del_first, beq_refl.
    destruct (all_values (canonicalize k) (pairs h)) as [|v l]; [done|].
    simpl tail. rewrite len_cons. apply eq_true_iff_eq. rewrite !Z.ltb_lt. lia.
  - intros E. rewrite !GetAll_pairs, Del_pairs, all_values_del_first by done.
    destruct (beq (canonicalize k) (canonicalize k')) eqn:E'; [|done].
    apply beq_eq, canonical_iff_EqFold in E'. congruence.
Qed.

(** A response with two Set-Cookie lines still carries one after [Del]. *)
Lemma del_leaves_second_cookie :
  let h := FromFastHTTP [(Hdr.SetCookie, bs "a=1"); (Hdr.SetCookie, bs "b=2")] in
  Get (Del h Hdr.SetCookie) Hdr.SetCookie = bs "b=2".
Proof. vm_compute. reflexivity. Qed.

(** [TE] is listed among the headers [WriteToFastHTTP] leaves out, but its
    canonical form, the only one a map holds, is not. *)
Lemma te_is_written :
  WriteToFastHTTP (AppendEntry NewMap Hdr.TE (bs "trailers")) = [(bs "Te", bs "trailers")].
Proof. vm_compute. reflexivity. Qed.

(** ** Witnesses *)

Definition sample_map : Map :=
  AppendEntry (AppendEntry (AppendEntry NewMap (bs "vary") (bs "Accept")) (bs "DATE") (bs "x"))
    (bs "Vary") (bs "Cookie").

Lemma wf_sample_map : wf sample_map.
Proof.
  unfold sample_map. rewrite !AppendEntry_canonical.
  repeat (apply wf_AppendEntryCanonical; [|apply canonicalize_idem]). apply wf_NewMap.
Qed.

Lemma hm_lookup_case_insensitive_witness :
  Get sample_map (bs "vArY") = Get sample_map (bs "Vary") /\
  GetAll sample_map (bs "vArY") = GetAll sample_map (bs "Vary") /\
  Has sample_map (bs "vArY") = Has sample_map (bs "Vary").
Proof.
  apply (hm_lookup_case_insensitive sample_map (bs "vArY") (bs "Vary"));
    [apply wf_sample_map|reflexivity].
Defined.

Lemma hm_set_get_witness :
  Get (Set_ (SortEntries sample_map) (bs "etag") (bs "q")) (bs "ETag") = bs "q".
Proof.
  destruct (hm_set_get (SortEntries sample_map) (bs "etag") (bs "q")) as (_ & _ & H).
  - apply wf_SortEntries, wf_sample_map.
  - rewrite SortEntries_eq. apply stable_sort_sorted.
  - rewrite H. reflexivity.
Defined.

Lemma hm_sort_keeps_lookups_witness :
  GetAll (SortEntries sample_map) (bs "vary") = bs "Accept, Cookie".
Proof.
  destruct (hm_sort_keeps_lookups sample_map (bs "vary") wf_sample_map) as (_ & _ & _ & H).
  rewrite H. reflexivity.
Defined.

Lemma hm_del_removes_one_line_witness :
  Has (Del sample_map (bs "vary")) (bs "vary") = true /\
  GetAll (Del sample_map (bs "vary")) (bs "date") = bs "x".
Proof.
  destruct (hm_del_removes_one_line sample_map (bs "vary") (bs "date") wf_sample_map) as (_ & H & H').
  rewrite H, H'; [split; reflexivity|reflexivity].
Defined.
