(* ===== verification/Api.v ===== *)
(** * pkg/api: cache keys, cached objects and the negative-caching policy

    - [Key]: the 128-bit key of key.go, as its 16 bytes;
    - [Object]: the stored response of storage.go with its freshness methods
      (the lazily rendered header blocks, pure caches of the fields below,
      are left out);
    - [StatusTTLPolicy]: the per-status TTL table of status_ttl.go. *)

From S2P Require Import Prelude GoStd CacheControl HeaderMap.

(** ** Keys *)

Abbreviation Key := bytes.
Definition wf_key (k : Key) : Prop := length k = 16%nat.
Definition zero_key : Key := replicate 16 x00.

(** [binary.BigEndian.Uint64(k[:8])] and [(k[8:])]. *)
Definition key_hi (k : Key) : Z := get_be (take 8 k).
Definition key_lo (k : Key) : Z := get_be (drop 8 k).

Definition WithVary (k : Key) (varyHash : Z) : Key :=
  let hi := Z.lxor (key_hi k) varyHash in
  let lo := Z.lxor (key_lo k) varyHash in
  put_be 8 hi ++ put_be 8 lo.

Definition SingleFlightKey (k : Key) (suffix : Z) : bytes :=
  put_be 8 (Z.lxor (key_hi k) suffix) ++ drop 8 k.

Definition IsZero (k : Key) : bool := Z.lor (key_hi k) (key_lo k) =? 0.

Definition Hash64 (k : Key) : Z := key_hi k.

(** [hex.EncodeToString]: two lower-case digits per byte. *)
Definition hex_digit (z : Z) : byte := if z <? 10 then bZ (48 + z) else bZ (87 + z).
Definition Hex (k : Key) : bytes :=
  flat_map (fun b => [hex_digit (Zb b / 16); hex_digit (Zb b mod 16)]) k.

Definition fromHexChar (c : byte) : option Z :=
  if is_digit c then Some (Zb c - 48)
  else if in_range "a" "f" c then Some (Zb c - 87)
  else if in_range "A" "F" c then Some (Zb c - 55)
  else None.

(** [hex.Decode] *)
Fixpoint hex_decode (s : bytes) : option bytes :=
  match s with
  | [] => Some []
  | [_] => None
  | a :: b :: s' =>
      match fromHexChar a, fromHexChar b, hex_decode s' with
      | Some x, Some y, Some r => Some (bZ (16 * x + y) :: r)
      | _, _, _ => None
      end
  end.

Inductive key_error : Type := ErrKeyLength (n : Z) | ErrKeyHex.

Definition ParseKeyHex (s : bytes) : result key_error Key :=
  if negb (len s =? 2 * 16) then Err (ErrKeyLength (len s))
  else match hex_decode s with
       | Some k => Ok k
       | None => Err ErrKeyHex
       end.

(** ** Objects *)

Module Object.
Record t : Type := Mk {
  StoredAt : Time;
  LastModified : Time;
  ETag : bytes;
  Pool : bytes;
  VaryKey : bytes;
  VaryValue : bytes;
  CacheControl : bytes;
  Header : Map;
  SurrogateKeys : list bytes;
  Body : bytes;
  BodySize : Z;
  Hits : Z;
  TTL : Duration;
  OriginAge : Duration;
  StaleIfError : Duration;
  StaleWhileRevalidate : Duration;
  StatusCode : Z;
  Key_ : Key;
  PairedKey : Key;
  HasConnectionList : bool;
  HasNoCacheFields : bool;
  HasDate : bool;
  RespNoCache : bool;
  RespMustRevalidate : bool;
  KeepGrace : bool;
}.

(** [&api.Object{}] *)
Definition zero : t :=
  {| StoredAt := zero_time; LastModified := zero_time; ETag := []; Pool := []; VaryKey := [];
     VaryValue := []; CacheControl := []; Header := NewMap; SurrogateKeys := []; Body := [];
     BodySize := 0; Hits := 0; TTL := 0; OriginAge := 0; StaleIfError := 0;
     StaleWhileRevalidate := 0; StatusCode := 0; Key_ := zero_key; PairedKey := zero_key;
     HasConnectionList := false; HasNoCacheFields := false; HasDate := false;
     RespNoCache := false; RespMustRevalidate := false; KeepGrace := false |}.

Definition IsVaryResolver (o : t) : bool := negb (beq (VaryValue o) []) && beq (VaryKey o) [].

Definition Fresh (o : t) (now : Time) : bool := t_before now (t_add (StoredAt o) (TTL o)).

Definition StaleForSWR (o : t) (now : Time) : bool :=
  if Fresh o now || (StaleWhileRevalidate o =? 0) then false
  else
    let expiry := t_add (StoredAt o) (TTL o) in
    t_before now (t_add expiry (StaleWhileRevalidate o)).

Definition StaleForSIE (o : t) (now : Time) : bool :=
  if Fresh o now || (StaleIfError o =? 0) then false
  else
    let expiry := t_add (StoredAt o) (TTL o) in
    t_before now (t_add expiry (StaleIfError o)).

Definition StaleButServable (o : t) (now : Time) : bool :=
  StaleForSWR o now || StaleForSIE o now.

(** [SoftPurge] (internal/cache/negative.go) on a non-nil object. *)
Definition SoftPurge (o : t) (now : Time) : t :=
  let ttl := t_sub now (StoredAt o) in
  {| o with TTL := if ttl <? 0 then 0 else ttl |}.
End Object.

(** ** Per-status TTLs *)

Definition NegativeStatuses : list Z := [404; 405; 410; 501].

Inductive ttl_error : Type :=
| ErrKeyInvalid (key : bytes)
| ErrCodeRange (code : Z)
| ErrNegativeTTL (key : bytes) (ttl : Duration)
| ErrDupStatus (code : Z)
| ErrDupClass (key : bytes).

Definition ValidateStatusTTLCode (code : Z) : result ttl_error unit :=
  if (code <? 400) || (599 <? code) then Err (ErrCodeRange code) else Ok tt.

Definition ParseStatusTTLKey (key : bytes) : result ttl_error (Z * Z) :=
  if beq key (bs "4xx") then Ok (400, 499)
  else if beq key (bs "5xx") then Ok (500, 599)
  else match parse_int64 key with
       | None => Err (ErrKeyInvalid key)
       | Some code =>
           match ValidateStatusTTLCode code with
           | Err e => Err e
           | Ok _ => Ok (code, code)
           end
       end.

Definition classOf (lo : Z) : Z := Z.quot lo 100.

Record StatusTTLPolicy : Type := MkPolicy {
  exact : gmap Z Duration;
  classes : gmap Z Duration;
}.

(** One round of the loop of [NewStatusTTLMap]. *)
Definition status_ttl_step (p : StatusTTLPolicy) (kv : bytes * Duration)
    : result ttl_error StatusTTLPolicy :=
  let '(key, ttl) := kv in
  match ParseStatusTTLKey key with
  | Err e => Err e
  | Ok (lo, hi) =>
      if ttl <? 0 then Err (ErrNegativeTTL key ttl)
      else if lo =? hi then
        match exact p !! lo with
        | Some _ => Err (ErrDupStatus lo)
        | None => Ok {| p with exact := <[lo := ttl]> (exact p) |}
        end
      else
        let cls := classOf lo in
        match classes p !! cls with
        | Some _ => Err (ErrDupClass key)
        | None => Ok {| p with classes := <[cls := ttl]> (classes p) |}
        end
  end.

Fixpoint status_ttl_loop (p : StatusTTLPolicy) (m : list (bytes * Duration))
    : result ttl_error StatusTTLPolicy :=
  match m with
  | [] => Ok p
  | kv :: m' => let! p' := status_ttl_step p kv in status_ttl_loop p' m'
  end.

(** [NewStatusTTLMap]: [m] lists the entries of the configured map in the
    order the range loop happens to visit them; [None] is the nil policy. *)
Definition NewStatusTTLMap (m : list (bytes * Duration))
    : result ttl_error (option StatusTTLPolicy) :=
  match m with
  | [] => Ok None
  | _ =>
      let! p := status_ttl_loop {| exact := ∅; classes := ∅ |} m in Ok (Some p)
  end.

Definition DefaultNegTTLMap (d : Duration) : list (bytes * Duration) :=
  if d <=? 0 then [] else map (fun status => (itoa status, d)) NegativeStatuses.

Definition TTL (s : option StatusTTLPolicy) (status : Z) : Duration :=
  match s with
  | None => 0
  | Some s =>
      match exact s !! status with
      | Some d => d
      | None => default 0 (classes s !! Z.quot status 100)
      end
  end.

Definition Cacheable (s : option StatusTTLPolicy) (status : Z) : bool := 0 <? TTL s status.

Definition CoversAnything (s : option StatusTTLPolicy) : bool :=
  match s with
  | None => false
  | Some s =>
      existsb (fun kv => 0 <? kv.2) (map_to_list (exact s)) ||
      existsb (fun kv => 0 <? kv.2) (map_to_list (classes s))
  end.

Example neg_policy :
  match NewStatusTTLMap [(bs "5xx", 10); (bs "503", 0); (bs "404", 30)] with
  | Ok p => (TTL p 500, TTL p 503, TTL p 404, TTL p 410, Cacheable p 503)
  | Err _ => (0, 0, 0, 0, true)
  end = (10, 0, 30, 0, false).
Proof. vm_compute. reflexivity. Qed.

(** ** Lemmas on keys *)

Lemma lxor_u64 (a b : Z) : in_u64 a -> in_u64 b -> in_u64 (Z.lxor a b).
Proof.
  unfold in_u64. intros Ha Hb.
  assert (Z.lxor a b = Z.lxor a b mod 2^64) as ->; [|apply Z.mod_pos_bound; lia].
  apply Z.bits_inj'. intros n Hn. destruct (Z_lt_le_dec n 64).
  - by rewrite Z.mod_pow2_bits_low.
  - rewrite Z.mod_pow2_bits_high, Z.lxor_spec by lia.
    rewrite <- (Z.mod_small a (2^64)), <- (Z.mod_small b (2^64)) by lia.
    by rewrite !Z.mod_pow2_bits_high by lia.
Qed.

Lemma lxor_cancel (a v : Z) : Z.lxor (Z.lxor a v) v = a.
Proof. by rewrite Z.lxor_assoc, Z.lxor_nilpotent, Z.lxor_0_r. Qed.

Lemma lxor_inj (a v w : Z) : Z.lxor a v = Z.lxor a w -> v = w.
Proof.
  intros H. rewrite <- (lxor_cancel v a), <- (lxor_cancel w a).
  f_equal. by rewrite (Z.lxor_comm v), (Z.lxor_comm w).
Qed.

Lemma get_put_be8 (z : Z) : in_u64 z -> get_be (put_be 8 z) = z.
Proof. intros H. rewrite get_put_be. by apply (u64_id z). Qed.

Section Halves.
Context (k : Key) (Hk : wf_key k).

Lemma key_hi_range : in_u64 (key_hi k).
Proof.
  unfold key_hi, wf_key in *. pose proof (get_be_range (take 8 k)) as H.
  rewrite length_take, Hk in H. exact H.
Qed.

Lemma key_lo_range : in_u64 (key_lo k).
Proof.
  unfold key_lo, wf_key in *. pose proof (get_be_range (drop 8 k)) as H.
  rewrite length_drop, Hk in H. exact H.
Qed.

Lemma key_halves : put_be 8 (key_hi k) ++ put_be 8 (key_lo k) = k.
Proof.
  unfold key_hi, key_lo, wf_key in *.
  rewrite <- (take_drop 8 k) at 3. f_equal.
  - rewrite <- (put_get_be (take 8 k)) at 2. by rewrite length_take, Hk.
  - rewrite <- (put_get_be (drop 8 k)) at 2. by rewrite length_drop, Hk.
Qed.
End Halves.

Lemma halves_of_put (hi lo : Z) :
  in_u64 hi -> in_u64 lo ->
  key_hi (put_be 8 hi ++ put_be 8 lo) = hi /\ key_lo (put_be 8 hi ++ put_be 8 lo) = lo.
Proof.
  intros. unfold key_hi, key_lo.
  rewrite take_app_exact, drop_app_exact by apply length_put_be.
  by rewrite !get_put_be8.
Qed.

Lemma wf_put_halves (hi lo : Z) : wf_key (put_be 8 hi ++ put_be 8 lo).
Proof. unfold wf_key. by rewrite length_app, !length_put_be. Qed.

Lemma WithVary_halves (k : Key) (v : Z) :
  wf_key k -> in_u64 v ->
  key_hi (WithVary k v) = Z.lxor (key_hi k) v /\ key_lo (WithVary k v) = Z.lxor (key_lo k) v.
Proof.
  intros Hk Hv. apply halves_of_put; apply lxor_u64; auto using key_hi_range, key_lo_range.
Qed.

Lemma fromHexChar_hex_digit (z : Z) : 0 <= z < 16 -> fromHexChar (hex_digit z) = Some z.
Proof.
  intros H. assert (z ∈ seqZ 0 16) as Hin by (apply elem_of_seqZ; lia).
  vm_compute in Hin. repeat (apply elem_of_cons in Hin as [->|Hin]; [reflexivity|]).
  by apply elem_of_nil in Hin.
Qed.

Lemma hex_decode_Hex (k : bytes) : hex_decode (Hex k) = Some k.
Proof.
  induction k as [|b k IH]; [done|]. pose proof (Zb_range b).
  cbn [Hex flat_map app hex_decode].
  rewrite !fromHexChar_hex_digit by (first [apply Z.mod_pos_bound; lia
    | split; [apply Z.div_pos; lia|apply Z.div_lt_upper_bound; lia]]).
  change (flat_map _ k) with (Hex k). rewrite IH.
  rewrite <- Z.div_mod by lia. by rewrite bZ_Zb.
Qed.

Lemma length_Hex (k : bytes) : length (Hex k) = (2 * length k)%nat.
Proof. induction k as [|b k IH]; [done|]. simpl in *. lia. Qed.

(** ** Lemmas on the negative-caching policy *)

Lemma status_ttl_swap (p q : StatusTTLPolicy) (a b : bytes * Duration) :
  (let! p' := status_ttl_step p a in status_ttl_step p' b) = Ok q ->
  (let! p' := status_ttl_step p b in status_ttl_step p' a) = Ok q.
Proof.
  unfold status_ttl_step. destruct a as [ka da], b as [kb db].
  destruct (ParseStatusTTLKey ka) as [[la ha]|]; [|done].
  destruct (ParseStatusTTLKey kb) as [[lb hb]|];
    [|by destruct (da <? 0), (la =? ha), (exact p !! la), (classes p !! classOf la)].
  destruct (da <? 0); [done|].
  destruct (la =? ha) eqn:Ea, (lb =? hb) eqn:Eb, (db <? 0);
    try (by destruct (exact p !! la), (classes p !! classOf la)).
  - destruct (exact p !! la) eqn:E1; [done|]. simpl.
    destruct (decide (la = lb)) as [->|Hne]; [by rewrite lookup_insert_eq|].
    rewrite lookup_insert_ne by done. destruct (exact p !! lb) eqn:E2; [done|]. simpl.
    rewrite lookup_insert_ne, E1 by done. by rewrite insert_insert_ne.
  - destruct (exact p !! la) eqn:E1; [done|]. simpl.
    destruct (classes p !! classOf lb) eqn:E2; [done|]. simpl. by rewrite E1.
  - destruct (classes p !! classOf la) eqn:E1; [done|]. simpl.
    destruct (exact p !! lb) eqn:E2; [done|]. simpl. by rewrite E1.
  - destruct (classes p !! classOf la) eqn:E1; [done|]. simpl.
    destruct (decide (classOf la = classOf lb)) as [E|Hne]; [by rewrite E, lookup_insert_eq|].
    rewrite lookup_insert_ne by done. destruct (classes p !! classOf lb) eqn:E2; [done|]. simpl.
    rewrite lookup_insert_ne, E1 by done. by rewrite insert_insert_ne.
Qed.

Lemma status_ttl_loop_perm (l l' : list (bytes * Duration)) :
  l ≡ₚ l' -> forall p q, status_ttl_loop p l = Ok q -> status_ttl_loop p l' = Ok q.
Proof.
  induction 1 as [|x l l' _ IH|x y l|l1 l2 l3 _ IH1 _ IH2]; intros p q; simpl.
  - done.
  - destruct (status_ttl_step p x); [|done]. apply IH.
  - intros H. pose proof (status_ttl_swap p) as Hs.
    destruct (status_ttl_step p y) as [p1|] eqn:E1; [|done].
    destruct (status_ttl_step p1 x) as [p2|] eqn:E2; [|done].
    specialize (Hs p2 y x). rewrite E1, E2 in Hs. specialize (Hs eq_refl).
    destruct (status_ttl_step p x) as [p3|] eqn:E3; [|done]. by rewrite Hs.
  - eauto.
Qed.

Lemma ParseStatusTTLKey_range (key : bytes) (lo hi : Z) :
  ParseStatusTTLKey key = Ok (lo, hi) ->
  (lo = hi /\ 400 <= lo <= 599) \/ (lo = 400 /\ hi = 499) \/ (lo = 500 /\ hi = 599).
Proof.
  unfold ParseStatusTTLKey, ValidateStatusTTLCode. intros H. case_tests_in H; simplify_eq; [auto..|].
  destruct (parse_int64 key) as [code|]; [|done]. case_tests_in H; simplify_eq.
  bool_cases. left. lia.
Qed.

(** What a policy built by the loop covers. *)
Definition policy_ok (p : StatusTTLPolicy) : Prop :=
  (forall c d, exact p !! c = Some d -> 400 <= c <= 599 /\ 0 <= d) /\
  (forall c d, classes p !! c = Some d -> (c = 4 \/ c = 5) /\ 0 <= d).

Lemma status_ttl_step_ok (p q : StatusTTLPolicy) (kv : bytes * Duration) :
  policy_ok p -> status_ttl_step p kv = Ok q -> policy_ok q.
Proof.
  intros [He Hc]. unfold status_ttl_step. destruct kv as [key ttl].
  destruct (ParseStatusTTLKey key) as [[lo hi]|] eqn:Ek; [|done].
  apply ParseStatusTTLKey_range in Ek. destruct (ttl <? 0) eqn:Et; [done|]. bool_cases.
  destruct (lo =? hi) eqn:El; bool_cases.
  - destruct (exact p !! lo); [done|]. intros [= <-]. split; simpl; [|done].
    intros c d. rewrite lookup_insert_Some. intros [[<- <-]|[_ H]]; [lia|eauto].
  - destruct (classes p !! classOf lo); [done|]. intros [= <-]. split; simpl; [done|].
    intros c d. rewrite lookup_insert_Some. intros [[<- <-]|[_ H]]; [|eauto].
    split; [|lia]. destruct Ek as [[]|[[-> ->]|[-> ->]]]; [lia|by left|by right].
Qed.

Lemma status_ttl_loop_ok (l : list (bytes * Duration)) (p q : StatusTTLPolicy) :
  policy_ok p -> status_ttl_loop p l = Ok q -> policy_ok q.
Proof.
  revert p; induction l as [|kv l IH]; intros p Hp; simpl; [by intros [= <-]|].
  destruct (status_ttl_step p kv) as [p'|] eqn:E; [|done].
  apply IH. by eapply status_ttl_step_ok.
Qed.

Lemma quot_100_class (n : Z) : Z.quot n 100 = 4 \/ Z.quot n 100 = 5 -> 400 <= n <= 599.
Proof.
  pose proof (Z.quot_rem' n 100). pose proof (Z.rem_bound_abs n 100 ltac:(lia)).
  intros [E|E]; rewrite E in *; destruct (Z_lt_le_dec n 0); try lia;
    pose proof (Z.rem_nonneg n 100 ltac:(lia) ltac:(lia)); lia.
Qed.

Lemma policy_ok_empty : policy_ok {| exact := ∅; classes := ∅ |}.
Proof. split; intros c d; simpl; by rewrite lookup_empty. Qed.

(** ** Properties *)

(** A variant key has 16 bytes, the primary key is recovered by mixing the
    same vary hash in again, and two variants of a key coincide only when
    their vary hashes do. *)
Theorem key_with_vary (k : Key) (v w : Z) (Hk : wf_key k) (Hv : in_u64 v) (Hw : in_u64 w) :
  wf_key (WithVary k v) /\ WithVary (WithVary k v) v = k /\
  (WithVary k v = WithVary k w <-> v = w).
Proof.
  split; [apply wf_put_halves|]. split.
  - destruct (WithVary_halves k v Hk Hv) as [E1 E2].
    unfold WithVary at 1. rewrite E1, E2, !lxor_cancel. by apply key_halves.
  - split; [|by intros ->]. intros E. apply (lxor_inj (key_hi k)).
    rewrite <- (proj1 (WithVary_halves k v Hk Hv)), <- (proj1 (WithVary_halves k w Hk Hw)). by rewrite E.
Qed.

(** The printed form of a key parses back to the key. *)
Theorem key_hex_roundtrip (k : Key) (Hk : wf_key k) : ParseKeyHex (Hex k) = Ok k.
Proof.
  unfold ParseKeyHex, len. rewrite length_Hex, Hk. simpl. by rewrite hex_decode_Hex.
Qed.

(** Building the negative-caching policy does not depend on the order in
    which the configured map is visited: if one order is accepted, every
    order is, with the same policy. *)
Theorem status_ttl_order_independent (m m' : list (bytes * Duration)) (p : option StatusTTLPolicy)
    (Hp : m ≡ₚ m') (Ho : NewStatusTTLMap m = Ok p) :
  NewStatusTTLMap m' = Ok p.
Proof.
  unfold NewStatusTTLMap in *. destruct m as [|kv m].
  - apply Permutation_nil_l in Hp as <-. done.
  - destruct (status_ttl_loop _ (kv :: m)) as [q|] eqn:E; [|done].
    apply (status_ttl_loop_perm _ _ Hp) in E. rewrite E.
    destruct m' as [|kv' m']; [|done]. by apply Permutation_nil_r in Hp.
Qed.

(** An accepted policy only ever caches error statuses (400 to 599), with
    a non-negative TTL, and an exact entry shadows its class. *)
Theorem status_ttl_only_errors (m : list (bytes * Duration)) (p : option StatusTTLPolicy)
    (status : Z) (Ho : NewStatusTTLMap m = Ok p) :
  0 <= TTL p status /\ (Cacheable p status = true -> 400 <= status <= 599) /\
  (forall q d, p = Some q -> exact q !! status = Some d -> TTL p status = d).
Proof.
  assert (match p with None => True | Some q => policy_ok q end) as Hok.
  { unfold NewStatusTTLMap in Ho. destruct m as [|kv m]; [by simplify_eq|].
    destruct (status_ttl_loop _ _) eqn:E; simplify_eq.
    by apply (status_ttl_loop_ok _ _ _ policy_ok_empty E). }
  unfold Cacheable, TTL. destruct p as [q|]; [|split; [lia|split; done]].
  destruct Hok as [He Hc]. destruct (exact q !! status) as [d|] eqn:Ee.
  - destruct (He _ _ Ee). split; [lia|]. split; [lia|]. intros ? ? [= <-]. congruence.
  - destruct (classes q !! Z.quot status 100) as [d|] eqn:Ec; simpl.
    + destruct (Hc _ _ Ec) as [Hcls Hd].
      split; [lia|]. split; [intros _; by apply quot_100_class|]. intros ? ? [= <-]. congruence.
    + split; [lia|]. split; [done|]. intros ? ? [= <-]. congruence.
Qed.

(** A soft purge taken when the object is not newer than [now] expires it
    at [now] exactly: it is no longer fresh, and its stale-while-revalidate
    and stale-if-error windows are open and end that long after [now]. *)
Theorem soft_purge_expires (o : Object.t) (now t : Time)
    (Hs : Object.StoredAt o <= now) (Hr : in_i64 (now - Object.StoredAt o)) (Ht : now <= t) :
  let o' := Object.SoftPurge o now in
  Object.Fresh o' t = false /\
  Object.StaleForSWR o' t =
    negb (Object.StaleWhileRevalidate o =? 0) && (t <? now + Object.StaleWhileRevalidate o) /\
  Object.StaleForSIE o' t =
    negb (Object.StaleIfError o =? 0) && (t <? now + Object.StaleIfError o).
Proof.
  assert (Object.TTL (Object.SoftPurge o now) = now - Object.StoredAt o) as E.
  { unfold Object.SoftPurge. simpl. rewrite t_sub_exact by done.
    destruct (_ <? 0) eqn:E; bool_cases; lia. }
  assert (t_add (Object.StoredAt o) (Object.TTL (Object.SoftPurge o now)) = now) as Ex
    by (unfold t_add; lia).
  assert (Object.Fresh (Object.SoftPurge o now) t = false) as Hf.
  { unfold Object.Fresh, t_before. change (Object.StoredAt (Object.SoftPurge o now)) with (Object.StoredAt o).
    rewrite Ex. apply Z.ltb_ge. lia. }
  unfold Object.StaleForSWR, Object.StaleForSIE. rewrite Hf.
  change (Object.StoredAt (Object.SoftPurge o now)) with (Object.StoredAt o). rewrite Ex.
  unfold t_before, t_add. simpl. repeat split; by destruct (_ =? 0).
Qed.

(** ** Witnesses *)

Definition sample_key : Key := map bZ (seqZ 7 16).

Lemma key_with_vary_witness : WithVary (WithVary sample_key 12345) 12345 = sample_key.
Proof.
  apply (key_with_vary sample_key 12345 0); [reflexivity|unfold in_u64; lia..].
Defined.

Lemma key_hex_roundtrip_witness : ParseKeyHex (Hex sample_key) = Ok sample_key.
Proof. apply (key_hex_roundtrip sample_key). reflexivity. Defined.

Lemma status_ttl_order_independent_witness :
  is_ok (NewStatusTTLMap [(bs "503", 5); (bs "4xx", 10)]) = true.
Proof.
  destruct (NewStatusTTLMap [(bs "4xx", 10); (bs "503", 5)]) as [p|e] eqn:E.
  - rewrite (status_ttl_order_independent [(bs "4xx", 10); (bs "503", 5)] _ p);
      [reflexivity|apply Permutation_swap|exact E].
  - vm_compute in E. discriminate.
Defined.

Lemma status_ttl_only_errors_witness :
  match NewStatusTTLMap [(bs "5xx", 10)] with
  | Ok p => Cacheable p 503 = true /\ 400 <= 503 <= 599
  | Err _ => False
  end.
Proof.
  destruct (NewStatusTTLMap [(bs "5xx", 10)]) as [p|e] eqn:E; [|vm_compute in E; discriminate].
  destruct (status_ttl_only_errors _ _ 503 E) as (_ & H & _).
  assert (Cacheable p 503 = true) as Hc.
  { vm_compute in E. injection E as <-. vm_compute. reflexivity. }
  split; [exact Hc|apply (H Hc)].
Defined.

Lemma soft_purge_expires_witness :
  let o := {| Object.zero with Object.StoredAt := 100; Object.TTL := 1000; Object.StaleIfError := 50 |} in
  Object.Fresh (Object.SoftPurge o 200) 210 = false /\ Object.StaleForSIE (Object.SoftPurge o 200) 210 = true.
Proof.
  intros o. destruct (soft_purge_expires o 200 210) as (H1 & _ & H3);
    [vm_compute; discriminate|split; [vm_compute; discriminate|reflexivity]|lia|].
  split; [exact H1|rewrite H3; reflexivity].
Defined.
