(* ===== verification/HttpDate.v ===== *)
(** * internal/cache/httpdate.go: HTTP dates and ages

    [time.Parse] is modelled for the layouts the package uses, as a list of
    layout elements interpreted from left to right. A zone abbreviation is
    resolved against the machine's local zone by Go, so the lookup in that
    zone, [local], is a parameter. *)

From S2P Require Import Prelude GoStd CacheControl HeaderMap Api.

(** ** time.Parse *)

Inductive chunk : Type :=
| Lit (s : bytes)
| StdWeekDay | StdLongWeekDay
| StdDay | StdZeroDay
| StdMonth
| StdYear | StdLongYear
| StdHour | StdZeroMinute | StdZeroSecond
| StdTZ.

(** The fields collected by the parser. *)
Record fields : Type := MkFields {
  f_year : Z; f_month : Z; f_day : Z; f_hour : Z; f_min : Z; f_sec : Z; f_nsec : Z;
  f_utc : bool; f_zone : bytes;
}.
Definition fields0 : fields := MkFields 0 1 1 0 0 0 0 false [].

Fixpoint cutspace (s : bytes) : bytes :=
  match s with c :: s' => if beqb c (ch " ") then cutspace s' else s | [] => [] end.

(** [skip]: match a literal part of the layout; blanks match any run of blanks. *)
Fixpoint skip (after_space : bool) (value prefix : bytes) : option bytes :=
  match prefix with
  | [] => Some value
  | c :: prefix' =>
      if beqb c (ch " ") then
        if after_space then skip true value prefix'
        else match value with
             | v :: _ => if beqb v (ch " ") then skip true (cutspace value) prefix' else None
             | [] => skip true [] prefix'
             end
      else match value with
           | v :: value' => if beqb v c then skip false value' prefix' else None
           | [] => None
           end
  end.

Definition digit (c : byte) : Z := Zb c - 48.

Definition getnum (fixed : bool) (s : bytes) : option (Z * bytes) :=
  match s with
  | a :: s1 =>
      if negb (is_digit a) then None
      else match s1 with
           | b :: s2 => if is_digit b then Some (10 * digit a + digit b, s2)
                        else if fixed then None else Some (digit a, s1)
           | [] => if fixed then None else Some (digit a, s1)
           end
  | [] => None
  end.

(** [atoi] of package time: an optional sign and digits only. *)
Definition time_atoi (s : bytes) : option Z :=
  let '(neg, ds) :=
    match s with
    | c :: s' => if beqb c (ch "-") then (true, s')
                 else if beqb c (ch "+") then (false, s') else (false, s)
    | [] => (false, [])
    end in
  if all_digits ds then Some (if neg : bool then - digits_value 0 ds else digits_value 0 ds) else None.

(** [match]: equality up to ASCII letter case. *)
Fixpoint name_match (s name : bytes) : option bytes :=
  match name with
  | [] => Some s
  | b :: name' =>
      match s with
      | a :: s' => if beqb (lower_byte a) (lower_byte b) then name_match s' name' else None
      | [] => None
      end
  end.

Fixpoint lookup_name (i : Z) (tab : list bytes) (s : bytes) : option (Z * bytes) :=
  match tab with
  | [] => None
  | n :: tab' => match name_match s n with
                 | Some r => Some (i, r)
                 | None => lookup_name (i + 1) tab' s
                 end
  end.

Definition longDayNames : list bytes :=
  map bs ["Sunday"; "Monday"; "Tuesday"; "Wednesday"; "Thursday"; "Friday"; "Saturday"]%string.
Definition shortDayNames : list bytes :=
  map bs ["Sun"; "Mon"; "Tue"; "Wed"; "Thu"; "Fri"; "Sat"]%string.
Definition shortMonthNames : list bytes :=
  map bs ["Jan"; "Feb"; "Mar"; "Apr"; "May"; "Jun"; "Jul"; "Aug"; "Sep"; "Oct"; "Nov"; "Dec"]%string.

(** A fractional second the layout does not ask for is accepted all the same. *)
Definition frac_second (s : bytes) : Z * bytes :=
  match s with
  | c :: d :: _ =>
      if (beqb c (ch ".") || beqb c (ch ",")) && is_digit d then
        let '(ds, r) := span is_digit (tail s) in
        let ds9 := take 9 ds in
        (digits_value 0 ds9 * 10 ^ (9 - len ds9), r)
      else (0, s)
  | _ => (0, s)
  end.

(** [parseSignedOffset]: the length of an hour offset, 0 when there is none. *)
Definition parseSignedOffset (s : bytes) : Z :=
  match s with
  | c :: s' =>
      if beqb c (ch "-") || beqb c (ch "+") then
        let '(ds, _) := span is_digit s' in
        match ds with
        | [] => 0
        | _ => if 23 <? digits_value 0 ds then 0 else 1 + len ds
        end
      else 0
  | [] => 0
  end.

(** [parseTimeZone]: the length of a zone abbreviation. *)
Definition parseTimeZone (s : bytes) : option Z :=
  if len s <? 3 then None
  else if beq (take 4 s) (bs "ChST") || beq (take 4 s) (bs "MeST") then Some 4
  else if beq (take 3 s) (bs "GMT") then Some (3 + parseSignedOffset (drop 3 s))
  else match s with
       | c :: _ =>
           if beqb c (ch "+") || beqb c (ch "-") then
             let n := parseSignedOffset s in if 0 <? n then Some n else None
           else
             let nUpper := len (fst (span is_upper (take 6 s))) in
             if nUpper =? 3 then Some 3
             else if nUpper =? 4 then
               if beq (take 1 (drop 3 s)) (bs "T") || beq (take 4 s) (bs "WITA") then Some 4 else None
             else if nUpper =? 5 then if beq (take 1 (drop 4 s)) (bs "T") then Some 5 else None
             else None
       | [] => None
       end.

(** One element of the layout: the fields and what is left of the value. *)
Definition parse_chunk (c : chunk) (f : fields) (value : bytes) : option (fields * bytes) :=
  match c with
  | Lit p => match skip false value p with Some v => Some (f, v) | None => None end
  | StdWeekDay => match lookup_name 0 shortDayNames value with Some (_, v) => Some (f, v) | None => None end
  | StdLongWeekDay => match lookup_name 0 longDayNames value with Some (_, v) => Some (f, v) | None => None end
  | StdDay => match getnum false value with Some (n, v) => Some ({| f with f_day := n |}, v) | None => None end
  | StdZeroDay => match getnum true value with Some (n, v) => Some ({| f with f_day := n |}, v) | None => None end
  | StdMonth =>
      match lookup_name 0 shortMonthNames value with
      | Some (i, v) => Some ({| f with f_month := i + 1 |}, v)
      | None => None
      end
  | StdYear =>
      if len value <? 2 then None
      else match time_atoi (take 2 value) with
           | Some y => Some ({| f with f_year := if 69 <=? y then y + 1900 else y + 2000 |}, drop 2 value)
           | None => None
           end
  | StdLongYear =>
      if (len value <? 4) || match value with a :: _ => negb (is_digit a) | [] => true end then None
      else match time_atoi (take 4 value) with
           | Some y => Some ({| f with f_year := y |}, drop 4 value)
           | None => None
           end
  | StdHour =>
      match getnum false value with
      | Some (n, v) => if 24 <=? n then None else Some ({| f with f_hour := n |}, v)
      | None => None
      end
  | StdZeroMinute =>
      match getnum true value with
      | Some (n, v) => if 60 <=? n then None else Some ({| f with f_min := n |}, v)
      | None => None
      end
  | StdZeroSecond =>
      match getnum true value with
      | Some (n, v) =>
          if 60 <=? n then None
          else let '(ns, v') := frac_second v in Some ({| f with f_sec := n; f_nsec := ns |}, v')
      | None => None
      end
  | StdTZ =>
      if beq (take 3 value) (bs "UTC") then Some ({| f with f_utc := true |}, drop 3 value)
      else match parseTimeZone value with
           | Some n => Some ({| f with f_zone := take (Z.to_nat n) value |}, drop (Z.to_nat n) value)
           | None => None
           end
  end.

Fixpoint parse_chunks (l : list chunk) (f : fields) (value : bytes) : option fields :=
  match l with
  | [] => match value with [] => Some f | _ => None end
  | c :: l' => match parse_chunk c f value with
               | Some (f', v) => parse_chunks l' f' v
               | None => None
               end
  end.

Definition is_leap (y : Z) : bool := (y mod 4 =? 0) && (negb (y mod 100 =? 0) || (y mod 400 =? 0)).
Definition days_in (m y : Z) : Z :=
  if m =? 2 then if is_leap y then 29 else 28
  else if (m =? 4) || (m =? 6) || (m =? 9) || (m =? 11) then 30 else 31.

(** Days of the proleptic Gregorian calendar since 1970-01-01. *)
Definition days_from_civil (y m d : Z) : Z :=
  let y' := if m <=? 2 then y - 1 else y in
  let era := y' / 400 in
  let yoe := y' - era * 400 in
  let doy := (153 * (m + (if 2 <? m then -3 else 9)) + 2) / 5 + d - 1 in
  let doe := yoe * 365 + yoe / 4 - yoe / 100 + doy in
  era * 146097 + doe - 719468.

(** [time.Date(..., time.UTC)] for fields in their ranges. *)
Definition date_utc (f : fields) : Time :=
  (days_from_civil (f_year f) (f_month f) (f_day f) * 86400
   + f_hour f * 3600 + f_min f * 60 + f_sec f) * Second + f_nsec f.

Section Dates.
(** [time.Local.lookupName(zone, unix)]: the offset of a zone abbreviation in
    the machine's zone, in seconds. *)
Context (local : bytes -> Z -> option Z).

Definition time_parse (layout : list chunk) (value : bytes) : option Time :=
  match parse_chunks layout fields0 value with
  | None => None
  | Some f =>
      if (f_day f <? 1) || (days_in (f_month f) (f_year f) <? f_day f) then None
      else
        let t := date_utc f in
        if f_utc f || beq (f_zone f) [] then Some t
        else match local (f_zone f) (t / Second) with
             | Some offset => Some (t - offset * Second)
             | None => Some t
             end
  end.

Definition hms : list chunk := [StdHour; Lit (bs ":"); StdZeroMinute; Lit (bs ":"); StdZeroSecond].

(** "Mon, 02 Jan 2006 15:04:05 GMT" *)
Definition httpTimeFormat : list chunk :=
  [StdWeekDay; Lit (bs ", "); StdZeroDay; Lit (bs " "); StdMonth; Lit (bs " "); StdLongYear; Lit (bs " ")]
  ++ hms ++ [Lit (bs " GMT")].
(** "Monday, 02-Jan-06 15:04:05 MST" *)
Definition RFC850 : list chunk :=
  [StdLongWeekDay; Lit (bs ", "); StdZeroDay; Lit (bs "-"); StdMonth; Lit (bs "-"); StdYear; Lit (bs " ")]
  ++ hms ++ [Lit (bs " "); StdTZ].
(** "Mon Jan  2 15:04:05 2006" *)
Definition asctime : list chunk :=
  [StdWeekDay; Lit (bs " "); StdMonth; Lit (bs "  "); StdDay; Lit (bs " ")]
  ++ hms ++ [Lit (bs " "); StdLongYear].
(** "Mon, 2 Jan 2006 15:04:05 GMT" and the same with two blanks. *)
Definition short_day (blanks : bytes) : list chunk :=
  [StdWeekDay; Lit (bs "," ++ blanks); StdDay; Lit (bs " "); StdMonth; Lit (bs " "); StdLongYear; Lit (bs " ")]
  ++ hms ++ [Lit (bs " GMT")].

Definition formats : list (list chunk) :=
  [httpTimeFormat; RFC850; asctime; short_day (bs " "); short_day (bs "  ")].

(** ** The functions of httpdate.go *)

Definition validHTTPTimeField (s : bytes) : bool :=
  let idx := index_byte (ch ":") s in
  if idx <? 2 then true
  else match s !! Z.to_nat (idx - 2) with
       | Some c => is_digit c
       | None => true
       end.

Definition normalizeTZ (s : bytes) : bytes :=
  if 3 <=? len s then
    let n := (length s - 3)%nat in
    if equal_fold (drop n s) (bs "gmt") then take n s ++ bs "GMT" else s
  else s.

Fixpoint try_formats (l : list (list chunk)) (s : bytes) : Time :=
  match l with
  | [] => zero_time
  | f :: l' => match time_parse f s with Some t => t | None => try_formats l' s end
  end.

(** The zero time stands for an unusable date. *)
Definition parseHTTPDate (s : bytes) : Time :=
  let s := trim_space s in
  if beq s [] then zero_time
  else if negb (validHTTPTimeField s) then zero_time
  else if contains s (bs ",") && contains s (bs "  ") then zero_time
  else try_formats formats (normalizeTZ s).

Definition HeuristicTTL (h : Map) (now : Time) : Duration :=
  let lm := Get h Hdr.LastModified in
  if beq lm [] then 0
  else
    let lmTime := parseHTTPDate lm in
    if is_zero lmTime then 0
    else
      let dateStr := Get h Hdr.Date in
      let refTime :=
        if beq dateStr [] then now
        else let dt := parseHTTPDate dateStr in if is_zero dt then now else dt in
      let age := t_sub refTime lmTime in
      if age <=? 0 then 0 else d_quot age 10.

Definition parseOriginAge (h : Map) : Duration :=
  let ageStr := trim_space (Get h Hdr.Age) in
  if beq ageStr [] then 0
  else if contains_byte (ch ".") ageStr then 0
  else
    let '(secs, ok) := ParseIntNoAlloc ageStr in
    if negb ok || (secs <? 0) then 0
    else if 2147483648 <? secs then d_mul 2147483648 Second
    else d_mul secs Second.

Definition correctedInitialAge (originAge responseDelay : Duration) (dateStr : bytes)
    (received : Time) : Duration :=
  let corrected := d_add originAge responseDelay in
  let corrected :=
    if beq dateStr [] then corrected
    else
      let dt := parseHTTPDate dateStr in
      if negb (is_zero dt) && negb (t_after dt received) then
        let apparent := t_sub received dt in
        if corrected <? apparent then apparent else corrected
      else corrected in
  d_truncate corrected Second.
End Dates.

Definition no_local_zone (_ : bytes) (_ : Z) : option Z := None.

(** 1994-11-06 08:49:37 UTC is 784111777 seconds after the epoch. *)
Example dates_of_rfc9110 :
  map (parseHTTPDate no_local_zone)
    [bs "Sun, 06 Nov 1994 08:49:37 GMT"; bs "Sunday, 06-Nov-94 08:49:37 GMT";
     bs "Sun Nov  6 08:49:37 1994"; bs "Sun, 6 Nov 1994 08:49:37 gmt";
     bs "Sun, 06 Nov 1994 8:49:37 GMT"; bs "Sun, 31 Feb 1994 08:49:37 GMT"]
  = [784111777 * Second; 784111777 * Second; 784111777 * Second; 784111777 * Second;
     zero_time; zero_time].
Proof. vm_compute. reflexivity. Qed.
