(* ===== verification/Cacheable.v ===== *)
(** * internal/cache/cacheable.go, directives.go, negative.go, unstorable.go:
      which responses are stored, and for how long

    [IsCacheable]/[IsCacheableWithDefault] are the header-map gates,
    [parsedResponse] the pre-parsed gates of the miss path; [fillPolicy] is
    the route's freshness ladder (handler.go). The clock readings the code
    takes with [time.Now] and the draw of [rand.IntN] are arguments. *)

From S2P Require Import Prelude GoStd CacheControl HeaderMap Api HttpDate Engine.
From Stdlib Require Import SpecFloat.

(** ** Status classes *)

Definition isUnderstoodStatus (status : Z) : bool :=
  bool_decide (status ∈ [200; 203; 204; 206; 300; 301; 302; 303; 304; 307; 308;
    400; 401; 403; 404; 405; 406; 408; 409; 410; 411; 412; 413; 414; 415; 416;
    500; 501; 502; 503; 504]).

Definition isHeuristicStatus (status : Z) : bool :=
  bool_decide (status ∈ [200; 203; 204; 206; 300; 301; 308; 404; 405; 410; 414; 501]).

(** ** CDN-Cache-Control (RFC 9213) *)

Definition isCDNCCCharForbidden (b : byte) : bool :=
  beqb b (ch "&") || beqb b (ch "@") || beqb b (ch "[") || beqb b (ch "]")
  || beqb b (ch "{") || beqb b (ch "}") || (Zb b =? 34).

Definition hasMeaningfulCDNCCDirective (d : Directives) : bool :=
  MaxAgeSet d || SMaxAgeSet d || NoStore d || Private d || NoCache d.

Fixpoint cdn_forbidden (v : bytes) : bool :=
  match v with
  | [] => false
  | b :: v' =>
      if (Zb b <? 33) || (126 <? Zb b) then cdn_forbidden v'
      else if isCDNCCCharForbidden b then true
      else cdn_forbidden v'
  end.

Definition cdnCacheControl (respHeader : Map) : Directives * bool :=
  let v := GetAll respHeader Hdr.CDNCacheControl in
  if beq v [] then (Directives0, false)
  else if cdn_forbidden v then (Directives0, false)
  else
    let d := ParseCacheControl v in
    if negb (hasMeaningfulCDNCCDirective d) then (Directives0, false) else (d, true).

(** ** Blocking conditions *)

Definition isBlockedByPragma (respCC : Directives) (h : Map) : bool :=
  beq (Get h Hdr.Pragma) (bs "no-cache")
  && negb (MaxAgeSet respCC) && negb (SMaxAgeSet respCC)
  && beq (Get h Hdr.Expires) [] && beq (Get h Hdr.LastModified) [].

(** vary.go *)
Definition varyContainsStar (vary : bytes) : bool :=
  existsb (fun f => beq (trim_space f) (bs "*")) (split_byte (ch ",") vary).

Definition hasVaryStar (h : Map) : bool := varyContainsStar (GetAll h Hdr.Vary).

Definition clientStateInMap (m : Map) : bool :=
  negb (beq (Get m Hdr.SetCookie) []) || negb (beq (Get m Hdr.SetLogin) []).

Definition isBlockedByClientState (respCC : Directives) (h : Map) : bool :=
  if negb (clientStateInMap h) then false
  else negb (MaxAgeSet respCC) && negb (SMaxAgeSet respCC).

Definition isCacheBlocked (status : Z) (respCC : Directives) (hasCDN : bool)
    (reqHeader respHeader : Map) : bool :=
  if NoStore respCC && (negb (MustUnderstand respCC) || negb (isUnderstoodStatus status)) then true
  else if Private respCC then true
  else if negb hasCDN && isBlockedByPragma respCC respHeader then true
  else if hasVaryStar respHeader then true
  else if isBlockedByClientState respCC respHeader then true
  else if negb (beq (Get reqHeader Hdr.Authorization) [])
          && (negb (Public respCC) && negb (MustRevalidate respCC) && negb (SMaxAgeSet respCC))
  then true
  else false.

(** unstorable.go *)
Definition refusesSharedStorage (respCC : Directives) (status : Z) : bool :=
  if NoStore respCC && (negb (MustUnderstand respCC) || negb (isUnderstoodStatus status)) then true
  else Private respCC.

Section Cacheable.
Context (local : bytes -> Z -> option Z).

(** ** The storage gates *)

Definition IsCacheable (status : Z) (reqHeader respHeader : Map) (neg : option StatusTTLPolicy)
  : bool :=
  if status =? 304 then false
  else
    let '(cdnCC, ok) := cdnCacheControl respHeader in
    let respCC := if ok then cdnCC else ParseCacheControl (GetAll respHeader Hdr.CacheControl) in
    let hasCDN := ok in
    if isCacheBlocked status respCC hasCDN reqHeader respHeader then false
    else if MaxAgeSet respCC || SMaxAgeSet respCC then true
    else
      let exp := Get respHeader Hdr.Expires in
      if negb (beq exp []) && negb (is_zero (parseHTTPDate local exp)) then true
      else if negb (beq (Get respHeader Hdr.LastModified) [])
              && (isHeuristicStatus status || Public respCC) then
        if isBlockedByPragma respCC respHeader then false else true
      else if NoCache respCC && negb (beq (Get respHeader Hdr.ETag) [])
              && isHeuristicStatus status then true
      else if Cacheable neg status then true
      else false.

Definition IsCacheableWithDefault (status : Z) (reqHeader respHeader : Map)
    (neg : option StatusTTLPolicy) (defaultTTL : Duration) : bool :=
  if IsCacheable status reqHeader respHeader neg then true
  else if defaultTTL <=? 0 then false
  else
    let '(cdnCC, ok) := cdnCacheControl respHeader in
    let respCC := if ok then cdnCC else ParseCacheControl (GetAll respHeader Hdr.CacheControl) in
    let hasCDN := ok in
    if isCacheBlocked status respCC hasCDN reqHeader respHeader then false
    else isHeuristicStatus status.

Record parsedResponse : Type := MkParsed {
  p_reqHeader : Map;
  p_respHeader : Map;
  p_respCC : Directives;
  p_status : Z;
  p_hasCDN : bool;
}.

Definition newParsedResponse (status : Z) (reqHeader respHeader : Map) : parsedResponse :=
  let '(cdnCC, hasCDN) := cdnCacheControl respHeader in
  {| p_reqHeader := reqHeader; p_respHeader := respHeader; p_status := status;
     p_respCC := if hasCDN then cdnCC else ParseCacheControl (GetAll respHeader Hdr.CacheControl);
     p_hasCDN := hasCDN |}.

Definition isCacheable (p : parsedResponse) (neg : option StatusTTLPolicy) : bool :=
  if p_status p =? 304 then false
  else if isCacheBlocked (p_status p) (p_respCC p) (p_hasCDN p) (p_reqHeader p) (p_respHeader p)
  then false
  else if MaxAgeSet (p_respCC p) || SMaxAgeSet (p_respCC p) then true
  else
    let exp := Get (p_respHeader p) Hdr.Expires in
    if negb (beq exp []) && negb (is_zero (parseHTTPDate local exp)) then true
    else if negb (beq (Get (p_respHeader p) Hdr.LastModified) [])
            && (isHeuristicStatus (p_status p) || Public (p_respCC p)) then
      if negb (p_hasCDN p) && isBlockedByPragma (p_respCC p) (p_respHeader p) then false else true
    else if NoCache (p_respCC p) && negb (beq (Get (p_respHeader p) Hdr.ETag) [])
            && isHeuristicStatus (p_status p) then true
    else Cacheable neg (p_status p).

Definition isCacheableWithDefault (p : parsedResponse) (neg : option StatusTTLPolicy)
    (defaultTTL : Duration) : bool :=
  if isCacheable p neg then true
  else if defaultTTL <=? 0 then false
  else if isCacheBlocked (p_status p) (p_respCC p) (p_hasCDN p) (p_reqHeader p) (p_respHeader p)
  then false
  else isHeuristicStatus (p_status p).

(** ** Freshness lifetimes (directives.go): the lifetime and whether it is
    explicit. [clock] is the reading of [time.Now]. *)

Definition FreshnessLifetime (respCC : Directives) (getHdr : bytes -> bytes) : Duration * bool :=
  let cdnCC := getHdr Hdr.CDNCacheControl in
  if negb (beq cdnCC []) then
    let cdnD := ParseCacheControl cdnCC in
    if MaxAgeSet cdnD then (MaxAge cdnD, true)
    else if NoStore cdnD || Private cdnD then (0, true)
    else (0, true)
  else if SMaxAgeSet respCC then (SMaxAge respCC, true)
  else if MaxAgeSet respCC then (MaxAge respCC, true)
  else
    let exp := getHdr Hdr.Expires in
    if negb (beq exp []) then
      let expTime := parseHTTPDate local exp in
      if is_zero expTime then (0, false)
      else
        let dateTime := parseHTTPDate local (getHdr Hdr.Date) in
        if is_zero dateTime then (0, false) else (t_sub expTime dateTime, true)
    else (0, false).

Definition FreshnessLifetimeH (clock : Time) (respCC : Directives) (h : Map) : Duration * bool :=
  let cdnCC := GetAll h Hdr.CDNCacheControl in
  if negb (beq cdnCC []) then
    let cdnD := ParseCacheControl cdnCC in
    if MaxAgeSet cdnD then (MaxAge cdnD, true)
    else if NoStore cdnD || Private cdnD then (0, true)
    else (0, true)
  else if SMaxAgeSet respCC then (SMaxAge respCC, true)
  else if MaxAgeSet respCC then (MaxAge respCC, true)
  else
    let expiresVal := Get h Hdr.Expires in
    if beq expiresVal [] then (0, false)
    else
      let expTime := parseHTTPDate local expiresVal in
      if is_zero expTime then (0, false)
      else
        let dateTime := parseHTTPDate local (Get h Hdr.Date) in
        let dateTime := if is_zero dateTime then clock else dateTime in
        (t_sub expTime dateTime, true).

(** ** Jitter (negative.go), in IEEE 754 binary64 *)

Definition f64 : Type := spec_float.
Definition f64_of_Z (z : Z) : f64 := binary_normalize 53 1024 z 0 false.
Definition f64_add : f64 -> f64 -> f64 := SFadd 53 1024.
Definition f64_mul : f64 -> f64 -> f64 := SFmul 53 1024.
Definition f64_div : f64 -> f64 -> f64 := SFdiv 53 1024.

(** [int64(x)]: truncation towards zero. For a value out of range the
    result is implementation-dependent; it is the argument [out]. *)
Definition f64_trunc (out : Z) (x : f64) : Z :=
  match x with
  | S754_zero _ => 0
  | S754_finite s m e =>
      let a := if 0 <=? e then Z.pos m * 2 ^ e else Z.pos m / 2 ^ (- e) in
      let z := if s then - a else a in
      if (min_i64 <=? z) && (z <=? max_i64) then z else out
  | S754_infinity _ | S754_nan => out
  end.

(** [draw] is [rand.IntN(2*pct+1)]. *)
Definition JitterTTL (out : Z) (draw : Z -> Z) (ttl : Duration) (pct : Z) : Duration :=
  if (pct <=? 0) || (ttl <=? 0) then ttl
  else
    let pct := if 50 <? pct then 50 else pct in
    let factor := f64_add (f64_of_Z 1)
                    (f64_div (f64_of_Z (draw (2 * pct + 1) - pct)) (f64_of_Z 100)) in
    let jittered := f64_trunc out (f64_mul (f64_of_Z ttl) factor) in
    if jittered <? 0 then 0 else jittered.

(** ** The route's freshness ladder (handler.go, fillPolicy) *)

Record fillPolicy : Type := MkFill {
  fp_neg : option StatusTTLPolicy;
  fp_defaultTTL : Duration;
  fp_overrideTTL : Duration;
  fp_defaultSWR : Duration;
  fp_swrOverride : Duration;
  fp_defaultSIE : Duration;
  fp_jitterPct : Z;
}.

(** The ladder and the override each take a draw of their own. *)
Context (out : Z) (draw draw_ov : Z -> Z) (clock : Time).

Definition overrideTTLFor (fp : fillPolicy) (status : Z) : Duration :=
  if (fp_overrideTTL fp <=? 0) || (400 <=? status) then 0
  else JitterTTL out draw_ov (fp_overrideTTL fp) (fp_jitterPct fp).

Definition swrOverrideFor (fp : fillPolicy) (status : Z) : Duration :=
  if (fp_swrOverride fp <=? 0) || (400 <=? status) then 0 else fp_swrOverride fp.

Definition computeTTL (fp : fillPolicy) (hdr : Map) (status : Z) (respCC : Directives)
    (originAge : Duration) (now : Time) : Duration :=
  let '(ttl, explicit) := FreshnessLifetimeH clock respCC hdr in
  let ttl :=
    if negb explicit then
      let negTTL := TTL (fp_neg fp) status in
      if 0 <? negTTL then negTTL
      else
        let ttl := HeuristicTTL local hdr now in
        if (ttl =? 0) && (0 <? fp_defaultTTL fp) then fp_defaultTTL fp else ttl
    else ttl in
  let ttl := JitterTTL out draw ttl (fp_jitterPct fp) in
  let ttl := d_sub ttl originAge in
  if ttl <? 0 then 0 else ttl.

Definition fillFinalTTL (fp : fillPolicy) (resMap : Map) (status : Z) (respCC : Directives)
    (originAge : Duration) (now : Time) : Duration :=
  let ttl := computeTTL fp resMap status respCC originAge now in
  let ov := overrideTTLFor fp status in
  if 0 <? ov then ov else ttl.
End Cacheable.

(** handler.go: why a cacheable response is still not stored ("" when it is). *)
Definition skipStoreReason (allowSetCookie : bool) (maxObjectSize : Z) (resMap : Map) (bodyLen : Z)
  : bytes :=
  if negb allowSetCookie && clientStateInMap resMap then bs "set_cookie"
  else if (0 <? maxObjectSize) && (maxObjectSize <? bodyLen) then bs "too_large"
  else [].

(** ** The memo of unstorable keys (unstorable.go)

    A shard is a map from keys to expiry instants; [None] is Go's nil map.
    [now] and [now'] are the two readings of the clock in [note]. *)
Section Memo.
Definition unstorableMemoWindow : Duration := 5 * Second.
Definition unstorableMemoShardCount : Z := 16.
Definition unstorableMemoPerShard : nat := 512.
Definition unstorableShardMask : Z := unstorableMemoShardCount - 1.

Definition unstorableShard : Type := option (gmap bytes Z).
(** [unstorableMemo.shards], indexed by shard number. *)
Definition unstorableMemo : Type := Z -> unstorableShard.
Definition shard (key : Key) : Z := Z.land (Hash64 key) unstorableShardMask.

Definition note_shard (s : unstorableShard) (key : Key) (now now' : Time) : unstorableShard :=
  let expiry := unix_nano (t_add now unstorableMemoWindow) in
  match s with
  | None => Some {[ key := expiry ]}
  | Some m =>
      if (unstorableMemoPerShard <=? size m)%nat then
        let m := filter (fun kv => ~ kv.2 <= unix_nano now') m in
        if (unstorableMemoPerShard <=? size m)%nat then Some m else Some (<[key := expiry]> m)
      else Some (<[key := expiry]> m)
  end.

Definition note (m : unstorableMemo) (key : Key) (now now' : Time) : unstorableMemo :=
  fun i => if i =? shard key then note_shard (m i) key now now' else m i.

Definition bypass (m : unstorableMemo) (key : Key) (now : Time) : bool :=
  match m (shard key) with
  | Some mm => match mm !! key with Some exp => unix_nano now <? exp | None => false end
  | None => false
  end.
End Memo.

(** ** Lemmas *)

Definition response_directives (h : Map) : Directives :=
  let '(cdn, ok) := cdnCacheControl h in
  if ok then cdn else ParseCacheControl (GetAll h Hdr.CacheControl).

Lemma newParsedResponse_eq (status : Z) (reqH respH : Map) :
  newParsedResponse status reqH respH =
  {| p_reqHeader := reqH; p_respHeader := respH; p_respCC := response_directives respH;
     p_status := status; p_hasCDN := snd (cdnCacheControl respH) |}.
Proof. unfold newParsedResponse, response_directives. by destruct (cdnCacheControl respH). Qed.

(** Pragma only blocks when there is no Last-Modified. *)
Lemma pragma_needs_no_lm (cc : Directives) (h : Map) :
  beq (Get h Hdr.LastModified) [] = false -> isBlockedByPragma cc h = false.
Proof. unfold isBlockedByPragma. intros ->. by rewrite andb_false_r. Qed.

Lemma IsCacheable_isCacheable local (status : Z) (reqH respH : Map) neg :
  IsCacheable local status reqH respH neg = isCacheable local (newParsedResponse status reqH respH) neg.
Proof.
  rewrite newParsedResponse_eq. unfold IsCacheable, isCacheable, response_directives. simpl.
  destruct (status =? 304); [done|]. destruct (cdnCacheControl respH) as [cdn ok]; simpl.
  destruct (isCacheBlocked _ _ _ _ _); [done|].
  destruct (MaxAgeSet _ || _); [done|]. destruct (negb (beq _ []) && negb (is_zero _)); [done|].
  destruct (beq (Get respH Hdr.LastModified) []) eqn:El; simpl.
  - destruct (_ && isHeuristicStatus status); [done|]. by destruct (Cacheable neg status).
  - rewrite pragma_needs_no_lm, andb_false_r by done. destruct (_ || _); [done|].
    destruct (_ && isHeuristicStatus status); [done|]. by destruct (Cacheable neg status).
Qed.

Lemma isCacheBlocked_false (status : Z) (cc : Directives) (cdn : bool) (reqH respH : Map) :
  isCacheBlocked status cc cdn reqH respH = false ->
  refusesSharedStorage cc status = false /\
  hasVaryStar respH = false /\
  (clientStateInMap respH = true -> MaxAgeSet cc = true \/ SMaxAgeSet cc = true) /\
  (Get reqH Hdr.Authorization <> [] ->
    Public cc = true \/ MustRevalidate cc = true \/ SMaxAgeSet cc = true).
Proof.
  unfold isCacheBlocked, refusesSharedStorage, isBlockedByClientState.
  destruct (NoStore cc && _); [done|]. destruct (Private cc); [done|].
  destruct (_ && isBlockedByPragma _ _); [done|]. destruct (hasVaryStar respH); [done|].
  destruct (clientStateInMap respH), (MaxAgeSet cc) eqn:?, (SMaxAgeSet cc) eqn:?; simpl; try done;
    destruct (beq (Get reqH Hdr.Authorization) []) eqn:Ea; simpl; bool_cases;
    destruct (Public cc), (MustRevalidate cc); simpl; intros; try done; repeat split; auto; done.
Qed.

Lemma isCacheable_unblocked local (p : parsedResponse) neg (d : Duration) :
  isCacheableWithDefault local p neg d = true ->
  isCacheBlocked (p_status p) (p_respCC p) (p_hasCDN p) (p_reqHeader p) (p_respHeader p) = false.
Proof.
  unfold isCacheableWithDefault, isCacheable.
  destruct (p_status p =? 304); destruct (isCacheBlocked _ _ _ _ _); case_tests; done.
Qed.

Lemma JitterTTL_off (out : Z) (draw : Z -> Z) (ttl : Duration) : JitterTTL out draw ttl 0 = ttl.
Proof. done. Qed.

Lemma JitterTTL_nonneg (out : Z) (draw : Z -> Z) (ttl : Duration) (pct : Z) :
  0 <= ttl -> 0 <= JitterTTL out draw ttl pct.
Proof.
  intros H. unfold JitterTTL. destruct ((pct <=? 0) || _); [done|]. cbv zeta.
  destruct (f64_trunc _ _ <? 0) eqn:E; bool_cases; lia.
Qed.

(** Jitter is active: 10% of an hour, drawn at both ends. *)
Example jitter_hour :
  JitterTTL 0 (fun _ => 0) Hour 10 = 3240000000000 /\
  JitterTTL 0 (fun n => n - 1) Hour 10 = 3960000000000 /\
  JitterTTL 0 (fun n => n - 1) Hour 80 = 5400000000000.
Proof. vm_compute. auto. Qed.

(** The memo stays within its bound, and an entry written suppresses fill
    flights for exactly its window. *)
Definition memo_bounded (m : unstorableMemo) : Prop :=
  forall i mm, m i = Some mm -> (size mm <= unstorableMemoPerShard)%nat.

Lemma note_bounded (m : unstorableMemo) (key : Key) (now now' : Time) :
  memo_bounded m -> memo_bounded (note m key now now').
Proof.
  intros Hb i mm. unfold note. destruct (i =? shard key) eqn:E; [|apply Hb].
  unfold note_shard. destruct (m i) as [m0|] eqn:Em.
  - assert (forall x : gmap bytes Z, (size x < unstorableMemoPerShard)%nat ->
              (size (<[key := unix_nano (t_add now unstorableMemoWindow)]> x) <= unstorableMemoPerShard)%nat)
      as Hs.
    { intros x Hx. destruct (x !! key) eqn:Ek.
      - rewrite map_size_insert_Some by (by eexists). lia.
      - rewrite map_size_insert_None by done. lia. }
    destruct (_ <=? _)%nat eqn:E1; [destruct (_ <=? size (filter _ _))%nat eqn:E2|]; intros [= <-].
    + etrans; [|apply (Hb i m0 Em)]. apply map_subseteq_size, map_filter_subseteq.
    + apply Hs. by apply Nat.leb_gt in E2.
    + apply Hs. by apply Nat.leb_gt in E1.
  - intros [= <-]. rewrite map_size_singleton. unfold unstorableMemoPerShard. lia.
Qed.

(** ** Properties *)

(** The pre-parsed storage gates of the miss path and the header-map
    gates decide every response alike, with and without an operator default
    TTL, although only one of the two skips the second Pragma test when a
    CDN-Cache-Control field governs. *)
Theorem cacheable_gates_agree local (status : Z) (reqH respH : Map) (neg : option StatusTTLPolicy)
    (defaultTTL : Duration) :
  IsCacheable local status reqH respH neg
    = isCacheable local (newParsedResponse status reqH respH) neg /\
  IsCacheableWithDefault local status reqH respH neg defaultTTL
    = isCacheableWithDefault local (newParsedResponse status reqH respH) neg defaultTTL.
Proof.
  split; [apply IsCacheable_isCacheable|].
  unfold IsCacheableWithDefault, isCacheableWithDefault.
  rewrite IsCacheable_isCacheable, newParsedResponse_eq.
  unfold response_directives. by destruct (cdnCacheControl respH).
Qed.

(** C7. Storage safety: a response that passes the gate, operator default or
    not, is no 304; is not marked private or (for a status the cache does not
    understand, or without must-understand) no-store by the directives that
    govern a shared cache; does not vary on everything; carries Set-Cookie or
    Set-Login only with explicit max-age or s-maxage; and answers an
    authorized request only when it says public, must-revalidate or
    s-maxage. *)
Theorem cacheable_never_stores_forbidden local (status : Z) (reqH respH : Map)
    (neg : option StatusTTLPolicy) (defaultTTL : Duration)
    (H : isCacheableWithDefault local (newParsedResponse status reqH respH) neg defaultTTL = true) :
  let cc := response_directives respH in
  status <> 304 /\
  Private cc = false /\
  (NoStore cc = true -> MustUnderstand cc = true /\ isUnderstoodStatus status = true) /\
  (forall f, f ∈ split_byte (ch ",") (GetAll respH Hdr.Vary) -> trim_space f <> bs "*") /\
  (clientStateInMap respH = true -> MaxAgeSet cc = true \/ SMaxAgeSet cc = true) /\
  (Get reqH Hdr.Authorization <> [] ->
    Public cc = true \/ MustRevalidate cc = true \/ SMaxAgeSet cc = true).
Proof.
  intros cc. pose proof (isCacheable_unblocked _ _ _ _ H) as Hb.
  rewrite newParsedResponse_eq in *. simpl in Hb. fold cc in Hb.
  apply isCacheBlocked_false in Hb as (Hr & Hv & Hc & Ha).
  split.
  { intros ->. unfold isCacheableWithDefault, isCacheable in H. simpl in H.
    case_tests_in H; discriminate. }
  unfold refusesSharedStorage in Hr.
  destruct (NoStore cc), (MustUnderstand cc), (isUnderstoodStatus status); simpl in Hr; try done;
    repeat (split; [done|]); (split; [|auto]);
    intros f Hf Hs; (apply not_true_iff_false in Hv; apply Hv; apply existsb_exists;
      exists f; split; [by apply list_elem_of_In|by apply beq_eq]).
Qed.

(** A CDN-Cache-Control of s-maxage only makes the response storable, and its
    lifetime zero; one the gate ignores as malformed still ends the lifetime
    computation. *)
Lemma cdn_lifetime_diverges :
  let m v := FromFastHTTP [(bs "Cdn-Cache-Control", v); (bs "Cache-Control", bs "max-age=60")] in
  IsCacheable no_local_zone 200 NewMap (m (bs "s-maxage=60")) None = true /\
  FreshnessLifetimeH no_local_zone 0 (response_directives (m (bs "s-maxage=60"))) (m (bs "s-maxage=60"))
    = (0, true) /\
  cdnCacheControl (m (bs "max-age=[5]")) = (Directives0, false) /\
  MaxAge (response_directives (m (bs "max-age=[5]"))) = 60 * Second /\
  FreshnessLifetimeH no_local_zone 0 (response_directives (m (bs "max-age=[5]"))) (m (bs "max-age=[5]"))
    = (0, true).
Proof. vm_compute. repeat split; reflexivity. Qed.

(** ** Witnesses *)

Lemma cacheable_never_stores_forbidden_witness :
  let reqH := AppendEntry NewMap Hdr.Authorization (bs "Bearer x") in
  let respH := AppendEntry NewMap Hdr.CacheControl (bs "public, max-age=60") in
  200 <> 304 /\ Public (response_directives respH) = true.
Proof.
  intros reqH respH.
  destruct (cacheable_never_stores_forbidden no_local_zone 200 reqH respH None 0)
    as (H1 & _ & _ & _ & _ & H6).
  - vm_compute. reflexivity.
  - split; [exact H1|]. destruct H6 as [H|[H|H]].
    + vm_compute. discriminate.
    + exact H.
    + vm_compute in H. discriminate.
    + vm_compute in H. discriminate.
Defined.
