(* ===== verification/Evictor.v ===== *)
(** * internal/storage/evictor, sieve and cachaner: the eviction lists

    The doubly linked list of both policies is modelled on an explicit heap:
    entries live at addresses, and the [prev]/[next]/[head]/[tail]/[hand]
    pointers are optional addresses. An entry given back to the pool leaves
    the heap; [Access] receives the address the pool hands out.

    [Dll] holds the list surgery, whose text sieve.go and cachaner.go share;
    [Sieve] and [Cachaner] hold the two policies. [repr l as] says that the
    pointer structure [l] is the list [as] of addresses from head to tail.
    The sweeps are related to [clock], a queue that is rotated until an
    entry without credit is found. *)

From S2P Require Import Prelude.

Abbreviation addr := positive.

Section Entries.
Context {K : Type}.

Record Entry : Type := MkEntry {
  EKey : K;
  prev : option addr;
  next : option addr;
  visited : bool;
  ioBits : Z;
}.

Definition MarkVisited (e : Entry) : Entry := {| e with visited := true |}.
Definition ClearVisited (e : Entry) : Entry := {| e with visited := false |}.
Definition SetIOBits (e : Entry) (val : Z) : Entry := {| e with ioBits := val |}.
Definition SetPrev (e : Entry) (p : option addr) : Entry := {| e with prev := p |}.
Definition SetNext (e : Entry) (n : option addr) : Entry := {| e with next := n |}.
(** [Reset] followed by [e.Key = key], as every user of the pool does. *)
Definition Reset (key : K) : Entry :=
  {| EKey := key; prev := None; next := None; visited := false; ioBits := 0 |}.

Record List : Type := MkList {
  heap : gmap addr Entry;
  head : option addr;
  tail : option addr;
  hand : option addr;
  llen : Z;
}.
End Entries.
Arguments Entry : clear implicits.
Arguments List : clear implicits.

(** ** List surgery *)

Module Dll.
Section Dll.
Context {K : Type}.
Implicit Types (l : List K) (e : addr).

Definition NewList : List K := {| heap := ∅; head := None; tail := None; hand := None; llen := 0 |}.

(** A write through a pointer that may be nil. *)
Definition through (p : option addr) (f : Entry K -> Entry K) (h : gmap addr (Entry K))
  : gmap addr (Entry K) :=
  match p with Some a => alter f a h | None => h end.

Definition pushHead l e : List K :=
  let h := alter (fun x => SetNext (SetPrev x None) (head l)) e (heap l) in
  let h := through (head l) (fun x => SetPrev x (Some e)) h in
  {| heap := h; head := Some e; hand := hand l;
     tail := match tail l with None => Some e | t => t end;
     llen := llen l + 1 |}.

Definition remove l e : List K :=
  match heap l !! e with
  | None => l
  | Some x =>
      let h := through (prev x) (fun y => SetNext y (next x)) (heap l) in
      let hd := match prev x with Some _ => head l | None => next x end in
      let h := through (next x) (fun y => SetPrev y (prev x)) h in
      let tl := match next x with Some _ => tail l | None => prev x end in
      let h := alter (fun y => SetNext (SetPrev y None) None) e h in
      {| heap := h; head := hd; tail := tl; hand := hand l; llen := llen l - 1 |}
  end.

(** [l.pool.Put(e)] *)
Definition put l e : List K := {| l with heap := delete e (heap l) |}.

(** [if l.hand == e { l.hand = e.Prev() }] *)
Definition retreat l e : List K :=
  if bool_decide (hand l = Some e)
  then {| l with hand := x ← heap l !! e; prev x |} else l.

Definition Remove l (oe : option addr) : List K :=
  match oe with
  | None => l
  | Some e => put (remove (retreat l e) e) e
  end.

(** The loop of [Clear]; [n] bounds the number of rounds. *)
Fixpoint clear_loop (n : nat) l : List K :=
  match n, head l with
  | S n, Some e =>
      let l := {| l with head := x ← heap l !! e; next x |} in
      clear_loop n (put l e)
  | _, _ => l
  end.

Definition Clear l : List K :=
  let l := clear_loop (size (heap l)) l in
  {| heap := heap l; head := None; tail := None; hand := None; llen := 0 |}.

Definition Len l : Z := llen l.
End Dll.
End Dll.

(** ** SIEVE (sieve.go) *)

Module Sieve.
Section Sieve.
Context {K : Type}.
Implicit Types (l : List K).

Definition pushHead := @Dll.pushHead K.
Definition remove := @Dll.remove K.
Definition Remove := @Dll.Remove K.
Definition Clear := @Dll.Clear K.

(** [lookup] is the tier's index; [fresh] the address the pool hands out. *)
Definition Access l (key : K) (lookup : K -> option addr) (fresh : addr) : List K * addr * bool :=
  match lookup key with
  | Some e => ({| l with heap := alter MarkVisited e (heap l) |}, e, false)
  | None =>
      let l := {| l with heap := <[fresh := Reset key]> (heap l) |} in
      (pushHead l fresh, fresh, true)
  end.

Fixpoint sweep (maxProbes : nat) l : List K * option K :=
  match maxProbes with
  | O => (l, None)
  | S maxProbes =>
      let l := match hand l with None => {| l with hand := tail l |} | Some _ => l end in
      match hand l with
      | None => (l, None)
      | Some cur =>
          match heap l !! cur with
          | None => (l, None)
          | Some x =>
              if negb (visited x) then
                let l := {| l with hand := prev x |} in
                (Dll.put (remove l cur) cur, Some (EKey x))
              else
                let l := {| l with heap := alter ClearVisited cur (heap l);
                                   hand := match prev x with None => tail l | p => p end |} in
                sweep maxProbes l
          end
      end
  end.

Definition EvictBounded l (maxProbes : Z) : List K * option K :=
  if (llen l =? 0) || (maxProbes <=? 0) then (l, None)
  else
    let l := match hand l with None => {| l with hand := tail l |} | Some _ => l end in
    sweep (Z.to_nat maxProbes) l.
End Sieve.
End Sieve.

(** ** Cachaner (cachaner.go): SIEVE with a 3-bit frequency counter *)

Module Cachaner.
Section Cachaner.
Context {K : Type}.
Implicit Types (l : List K).

Definition maxFreq : Z := 7.

Definition pushHead := @Dll.pushHead K.
Definition remove := @Dll.remove K.
Definition Remove := @Dll.Remove K.
Definition Clear := @Dll.Clear K.

Definition incrementFreq (e : Entry K) : Entry K :=
  let bits := ioBits e in
  if maxFreq <=? bits then e else SetIOBits e (bits + 1).

Definition Access l (key : K) (lookup : K -> option addr) (fresh : addr) : List K * addr * bool :=
  match lookup key with
  | Some e => ({| l with heap := alter (fun x => MarkVisited (incrementFreq x)) e (heap l) |}, e, false)
  | None =>
      let l := {| l with heap := <[fresh := Reset key]> (heap l) |} in
      (pushHead l fresh, fresh, true)
  end.

Fixpoint sweep (maxProbes : nat) l : List K * option K :=
  match maxProbes with
  | O => (l, None)
  | S maxProbes =>
      let l := match hand l with None => {| l with hand := tail l |} | Some _ => l end in
      match hand l with
      | None => (l, None)
      | Some cur =>
          match heap l !! cur with
          | None => (l, None)
          | Some x =>
              if visited x then
                let l := {| l with heap := alter ClearVisited cur (heap l);
                                   hand := match prev x with None => tail l | p => p end |} in
                sweep maxProbes l
              else if 0 <? ioBits x then
                let l := {| l with heap := alter (fun y => SetIOBits y (ioBits x - 1)) cur (heap l);
                                   hand := match prev x with None => tail l | p => p end |} in
                sweep maxProbes l
              else
                let l := {| l with hand := prev x |} in
                (Dll.put (remove l cur) cur, Some (EKey x))
          end
      end
  end.

Definition EvictBounded l (maxProbes : Z) : List K * option K :=
  if (llen l =? 0) || (maxProbes <=? 0) then (l, None)
  else
    let l := match hand l with None => {| l with hand := tail l |} | Some _ => l end in
    sweep (Z.to_nat maxProbes) l.

Definition Evict l : List K * option K := EvictBounded l (llen l * (maxFreq + 2)).

Definition Defer l (oe : option addr) : List K :=
  match oe with
  | None => l
  | Some e => pushHead (remove (Dll.retreat l e) e) e
  end.
End Cachaner.
End Cachaner.

(** ** The list a pointer structure represents *)

Section Repr.
Context {K : Type}.
Implicit Types (l : List K) (h : gmap addr (Entry K)).

(** Every address of [als] holds an entry that points to its neighbours. *)
Definition links h (als : list addr) : Prop :=
  forall (l1 : list addr) (a : addr) (l2 : list addr), als = l1 ++ a :: l2 ->
  exists x, h !! a = Some x /\ prev x = last l1 /\ next x = hd_error l2.

(** [l] is the list [als]; [ex] are entries taken out of the list but not yet
    given back to the pool. *)
Record repr_ex l (ex : gset addr) (als : list addr) : Prop := {
  r_nodup : NoDup als;
  r_dom : dom (heap l) = ex ∪ list_to_set als;
  r_ex : forall a, a ∈ ex -> a ∉ als;
  r_links : links (heap l) als;
  r_head : head l = hd_error als;
  r_tail : tail l = last als;
  r_hand : forall a, hand l = Some a -> a ∈ als;
  r_len : llen l = len als;
}.

Definition repr l (als : list addr) : Prop := repr_ex l ∅ als.

(** What an entry holds besides its links. *)
Definition erase (x : Entry K) : K * bool * Z := (EKey x, visited x, ioBits x).
Definition contents l : gmap addr (K * bool * Z) := erase <$> heap l.

Lemma erase_alter h a (f : Entry K -> Entry K) :
  (forall x, erase (f x) = erase x) -> erase <$> alter f a h = erase <$> h.
Proof.
  intros Hf. apply map_eq. intros b. rewrite !lookup_fmap.
  destruct (decide (a = b)) as [->|]; [rewrite lookup_alter_eq|by rewrite lookup_alter_ne].
  destruct (h !! b); simpl; [by rewrite Hf|done].
Qed.

Lemma erase_through h p (f : Entry K -> Entry K) :
  (forall x, erase (f x) = erase x) -> erase <$> Dll.through p f h = erase <$> h.
Proof. destruct p; [apply erase_alter|done]. Qed.

Lemma contents_pushHead l e : contents (Dll.pushHead l e) = contents l.
Proof. unfold contents. simpl. by rewrite erase_through, erase_alter. Qed.

Lemma contents_remove l e : contents (Dll.remove l e) = contents l.
Proof.
  unfold contents, Dll.remove. destruct (heap l !! e); [|done]. simpl.
  by rewrite erase_alter, !erase_through.
Qed.

Lemma contents_put l e : contents (Dll.put l e) = delete e (contents l).
Proof. unfold contents, Dll.put. simpl. by rewrite fmap_delete. Qed.

Lemma dom_through h p (f : Entry K -> Entry K) : dom (Dll.through p f h) = dom h.
Proof. destruct p; [apply dom_alter_L|done]. Qed.

Lemma lookup_through_ne h p (f : Entry K -> Entry K) a :
  p <> Some a -> Dll.through p f h !! a = h !! a.
Proof. destruct p; simpl; intros; [rewrite lookup_alter_ne; congruence|done]. Qed.

Lemma lookup_through_eq h (f : Entry K -> Entry K) a :
  Dll.through (Some a) f h !! a = f <$> h !! a.
Proof. apply lookup_alter_eq. Qed.

Lemma hd_error_In {A} (xs : list A) (a : A) : hd_error xs = Some a -> a ∈ xs.
Proof. destruct xs; simpl; intros [= ->]. apply list_elem_of_here. Qed.

(** Taking [a] out of the middle. *)
Lemma links_remove h (l1 : list addr) (a : addr) (l2 : list addr) :
  NoDup (l1 ++ a :: l2) -> links h (l1 ++ a :: l2) ->
  links (Dll.through (hd_error l2) (fun y => SetPrev y (last l1))
           (Dll.through (last l1) (fun y => SetNext y (hd_error l2)) h)) (l1 ++ l2).
Proof.
  intros Hnd Hl m1 b m2 E.
  apply NoDup_app in Hnd as (Hn1 & Hd & Hn2). apply NoDup_cons in Hn2 as [Ha Hn2].
  assert (Hdj : forall x, x ∈ l1 -> x ∈ l2 -> False).
  { intros x Hx1 Hx2. apply (Hd x Hx1). by apply list_elem_of_further. }
  apply app_eq_inv in E as [(k & -> & E)|(k & -> & ->)].
  - destruct k as [|c k]; simpl in E.
    + (* b heads l2 *)
      simplify_eq. rewrite app_nil_r in *. simpl.
      destruct (Hl (m1 ++ [a]) b m2) as (x & Hx & Hp & Hn); [by rewrite <- app_assoc|].
      exists (SetPrev x (last m1)). rewrite lookup_alter_eq, lookup_through_ne, Hx; [done|].
      intros Hb. apply last_Some_elem_of in Hb. apply (Hdj b Hb), list_elem_of_here.
    + (* b inside l1, followed by k *)
      simplify_eq. destruct (Hl m1 c (k ++ a :: l2)) as (x & Hx & Hp & Hn); [by rewrite <- app_assoc|].
      assert (Hc2 : hd_error l2 <> Some c).
      { intros Hh. apply hd_error_In in Hh. apply (Hdj c); [set_solver|done]. }
      rewrite lookup_through_ne by done. destruct k as [|d k].
      * rewrite last_snoc, lookup_through_eq, Hx. exists (SetNext x (hd_error l2)). done.
      * exists x. rewrite lookup_through_ne; [done|]. intros Hlast.
        rewrite last_app_cons, last_cons_cons in Hlast. apply last_Some_elem_of in Hlast.
        apply NoDup_app in Hn1 as (_ & _ & Hk). apply NoDup_cons in Hk as [Hk _]. done.
  - (* b inside l2, not its head unless k is empty *)
    destruct k as [|c k]; simpl.
    + rewrite app_nil_r.
      destruct (Hl (l1 ++ [a]) b m2) as (x & Hx & Hp & Hn); [by rewrite <- app_assoc|].
      exists (SetPrev x (last l1)). rewrite lookup_alter_eq, lookup_through_ne, Hx; [done|].
      intros Hb. apply last_Some_elem_of in Hb. apply (Hdj b Hb), list_elem_of_here.
    + destruct (Hl (l1 ++ a :: c :: k) b m2) as (x & Hx & Hp & Hn); [by rewrite <- app_assoc|].
      exists x. rewrite lookup_alter_ne, lookup_through_ne.
      * rewrite Hx, Hp, Hn. split; [done|]. split; [|done].
        by rewrite !last_app, !last_cons_cons.
      * intros Hb. apply last_Some_elem_of in Hb. apply (Hdj b Hb). set_solver.
      * intros ->. apply NoDup_cons in Hn2 as [Hc _]. set_solver.
Qed.

Lemma links_alter h als e (f : Entry K -> Entry K) :
  e ∉ als \/ (forall x, prev (f x) = prev x /\ next (f x) = next x) ->
  links h als -> links (alter f e h) als.
Proof.
  intros He Hl l1 a l2 E. destruct (Hl l1 a l2 E) as (x & Hx & Hp & Hn).
  destruct (decide (e = a)) as [->|]; [|exists x; by rewrite lookup_alter_ne].
  destruct He as [He|He]; [subst; set_solver|].
  exists (f x). destruct (He x) as [-> ->]. by rewrite lookup_alter_eq, Hx.
Qed.

Lemma repr_lookup l (l1 : list addr) (a : addr) (l2 : list addr) :
  repr l (l1 ++ a :: l2) ->
  exists x, heap l !! a = Some x /\ prev x = last l1 /\ next x = hd_error l2.
Proof. intros Hr. by apply (r_links _ _ _ Hr). Qed.

Lemma remove_repr l (l1 : list addr) (a : addr) (l2 : list addr) :
  repr l (l1 ++ a :: l2) -> hand l <> Some a ->
  repr_ex (Dll.remove l a) {[a]} (l1 ++ l2).
Proof.
  intros Hr Hh. destruct (repr_lookup _ _ _ _ Hr) as (x & Hx & Hp & Hn).
  destruct Hr as [Hnd Hdom _ Hl Hhd Htl Hha Hlen].
  assert (Ha : a ∉ l1 ++ l2).
  { apply NoDup_app in Hnd as (_ & Hd & Hn2). apply NoDup_cons in Hn2 as [? _].
    intros [Ha|]%elem_of_app; [|done]. apply (Hd a Ha). apply list_elem_of_here. }
  unfold Dll.remove. rewrite Hx, Hp, Hn. split; simpl.
  - apply (sublist_NoDup _ (l1 ++ a :: l2)); [done|].
    apply sublist_app; [done|by apply sublist_cons].
  - rewrite dom_alter_L, !dom_through, Hdom. set_solver.
  - set_solver.
  - apply links_alter with (e := a); [by left|]. by apply (links_remove _ l1 a l2).
  - rewrite Hhd. destruct l1 as [|b l1]; [done|]. simpl.
    by destruct (last (b :: l1)) eqn:E; [|apply last_None in E].
  - rewrite Htl. destruct l2 as [|b l2]; simpl; [by rewrite app_nil_r|].
    by rewrite !last_app_cons, last_cons_cons.
  - intros b Hb. specialize (Hha b Hb). assert (b <> a) by congruence. set_solver.
  - rewrite Hlen, !len_app, len_cons. lia.
Qed.

Lemma put_repr l (e : addr) (als : list addr) : repr_ex l {[e]} als -> repr (Dll.put l e) als.
Proof.
  intros [Hnd Hdom Hex Hl Hhd Htl Hha Hlen]. assert (e ∉ als) by set_solver.
  split; simpl; try done.
  - rewrite dom_delete_L, Hdom. set_solver.
  - intros l1 a l2 E. destruct (Hl l1 a l2 E) as (x & Hx & ?). exists x.
    rewrite lookup_delete_ne; [done|]. intros ->. subst. set_solver.
Qed.

Lemma pushHead_repr l (e : addr) (als : list addr) :
  repr_ex l {[e]} als -> repr (Dll.pushHead l e) (e :: als).
Proof.
  intros [Hnd Hdom Hex Hl Hhd Htl Hha Hlen]. assert (He : e ∉ als) by set_solver.
  assert (exists x, heap l !! e = Some x) as [x Hx] by (apply elem_of_dom; set_solver).
  assert (Hne : hd_error als <> Some e) by (intros Hh; apply hd_error_In in Hh; done).
  unfold Dll.pushHead. rewrite Hhd, Htl. split; simpl.
  - by apply NoDup_cons.
  - rewrite dom_through, dom_alter_L, Hdom. set_solver.
  - set_solver.
  - intros l1 a l2 E. destruct l1 as [|b l1]; simplify_eq/=.
    + eexists. rewrite lookup_through_ne, lookup_alter_eq, Hx by done. done.
    + destruct (Hl l1 a l2 eq_refl) as (y & Hy & Hp & Hn).
      destruct l1 as [|c l1].
      * exists (SetPrev y (Some b)). simpl. rewrite lookup_alter_eq, lookup_alter_ne, Hy; [done|set_solver].
      * exists y. simpl. rewrite lookup_alter_ne, lookup_alter_ne, Hy; [done|set_solver|].
        intros ->. apply NoDup_cons in Hnd as [Hnd _]. set_solver.
  - done.
  - destruct als as [|b als]; [done|]. rewrite last_cons_cons.
    by destruct (last (b :: als)) eqn:E; [|apply last_None in E].
  - intros a Ha. apply list_elem_of_further. auto.
  - rewrite Hlen, len_cons. lia.
Qed.

Lemma retreat_repr l (l1 : list addr) (a : addr) (l2 : list addr) :
  repr l (l1 ++ a :: l2) ->
  repr (Dll.retreat l a) (l1 ++ a :: l2) /\ hand (Dll.retreat l a) <> Some a /\
  contents (Dll.retreat l a) = contents l.
Proof.
  intros Hr. destruct (repr_lookup _ _ _ _ Hr) as (x & Hx & Hp & _).
  unfold Dll.retreat. case_bool_decide as Eh; [|done].
  destruct Hr as [Hnd Hdom Hex Hl Hhd Htl Hha Hlen]. rewrite Hx. simpl. rewrite Hp.
  assert (last l1 <> Some a) as Hla.
  { intros Hla. apply last_Some_elem_of in Hla. apply NoDup_app in Hnd as (_ & Hd & _).
    apply (Hd a Hla), list_elem_of_here. }
  split_and!; [|done|done]. split; simpl; try done.
  intros b Hb. apply last_Some_elem_of in Hb. set_solver.
Qed.

Lemma alter_repr l (als : list addr) (e : addr) (f : Entry K -> Entry K) (hd : option addr) :
  (forall x, prev (f x) = prev x /\ next (f x) = next x) ->
  (forall a, hd = Some a -> a ∈ als) ->
  repr l als -> repr {| l with heap := alter f e (heap l); hand := hd |} als.
Proof.
  intros Hf Hh [Hnd Hdom Hex Hl Hhd Htl Hha Hlen]. split; simpl; try done.
  - by rewrite dom_alter_L.
  - apply links_alter; [by right|done].
Qed.

Lemma hand_repr l (als : list addr) (hd : option addr) :
  (forall a, hd = Some a -> a ∈ als) -> repr l als -> repr {| l with hand := hd |} als.
Proof. intros Hh [Hnd Hdom Hex Hl Hhd Htl Hha Hlen]. by split. Qed.

Lemma repr_elem l (als : list addr) (a : addr) : repr l als -> a ∈ als <-> is_Some (heap l !! a).
Proof. intros Hr. rewrite <- elem_of_dom, (r_dom _ _ _ Hr). set_solver. Qed.

(** ** The operations on the represented list *)

Lemma NewList_repr : repr (@Dll.NewList K) [].
Proof.
  split; simpl; try done; try set_solver; [constructor|intros [] ? ? [=]].
Qed.

Lemma Remove_repr l (l1 : list addr) (a : addr) (l2 : list addr) :
  repr l (l1 ++ a :: l2) ->
  repr (Dll.Remove l (Some a)) (l1 ++ l2) /\
  contents (Dll.Remove l (Some a)) = delete a (contents l).
Proof.
  intros Hr. destruct (retreat_repr _ _ _ _ Hr) as (Hr' & Hh & Hc). simpl. split.
  - by apply put_repr, remove_repr.
  - by rewrite contents_put, contents_remove, Hc.
Qed.

Lemma Defer_repr l (l1 : list addr) (a : addr) (l2 : list addr) :
  repr l (l1 ++ a :: l2) ->
  repr (Cachaner.Defer l (Some a)) (a :: l1 ++ l2) /\
  contents (Cachaner.Defer l (Some a)) = contents l.
Proof.
  intros Hr. destruct (retreat_repr _ _ _ _ Hr) as (Hr' & Hh & Hc). simpl.
  unfold Cachaner.pushHead, Cachaner.remove. split.
  - by apply pushHead_repr, remove_repr.
  - by rewrite contents_pushHead, contents_remove, Hc.
Qed.

Lemma insert_repr l (als : list addr) (e : addr) (k : K) :
  repr l als -> e ∉ als ->
  let l' := Dll.pushHead {| l with heap := <[e := Reset k]> (heap l) |} e in
  repr l' (e :: als) /\ contents l' = <[e := (k, false, 0)]> (contents l).
Proof.
  intros [Hnd Hdom Hex Hl Hhd Htl Hha Hlen] He l'. split.
  - apply pushHead_repr. split; simpl; try done.
    + rewrite dom_insert_L, Hdom. set_solver.
    + set_solver.
    + intros l1 a l2 E. destruct (Hl l1 a l2 E) as (x & Hx & ?). exists x.
      rewrite lookup_insert_ne; [done|]. intros ->. subst. set_solver.
  - unfold l'. rewrite contents_pushHead. unfold contents. simpl. by rewrite fmap_insert.
Qed.

(** [clear_loop] visits every entry and empties the heap. *)
Lemma clear_loop_empty l (als : list addr) :
  NoDup als -> dom (heap l) = list_to_set als -> head l = hd_error als ->
  (forall (l1 : list addr) (a : addr) (l2 : list addr), als = l1 ++ a :: l2 ->
     exists x, heap l !! a = Some x /\ next x = hd_error l2) ->
  heap (Dll.clear_loop (length als) l) = ∅.
Proof.
  revert l. induction als as [|a als IH]; intros l Hnd Hdom Hhd Hl.
  - simpl. by apply dom_empty_iff_L.
  - apply NoDup_cons in Hnd as [Ha Hnd]. cbn [length Dll.clear_loop].
    simpl in Hhd. rewrite Hhd. destruct (Hl [] a als eq_refl) as (x & Hx & Hn).
    apply IH; simpl; [done| | |].
    + rewrite dom_delete_L, Hdom. simpl. set_solver.
    + by rewrite Hx.
    + intros l1 b l2 ->. destruct (Hl (a :: l1) b l2 eq_refl) as (y & Hy & ?). exists y.
      rewrite lookup_delete_ne; [done|]. intros ->. set_solver.
Qed.

Lemma Clear_repr l (als : list addr) : repr l als -> Dll.Clear l = Dll.NewList.
Proof.
  intros [Hnd Hdom Hex Hl Hhd Htl Hha Hlen]. unfold Dll.Clear, Dll.NewList.
  rewrite left_id_L in Hdom by apply _.
  assert (size (heap l) = length als) as ->.
  { rewrite <- size_dom, Hdom. by apply size_list_to_set. }
  rewrite clear_loop_empty with (als := als); try done.
  intros l1 a l2 E. destruct (Hl l1 a l2 E) as (x & ? & _ & ?). eauto.
Qed.
End Repr.

(** ** The clock: what a sweep computes

    The entries in the order the hand meets them, as a queue. A probe takes
    the first entry; if [chance] grants it another round it goes to the back
    with its new contents, otherwise it is the victim. *)

Section Clock.
Context {D : Type} (chance : D -> option D).

Fixpoint clock (n : nat) (ring : list addr) (d : gmap addr D)
  : list addr * gmap addr D * option addr :=
  match n, ring with
  | S n, a :: r =>
      match d !! a with
      | None => (ring, d, None)
      | Some x =>
          match chance x with
          | None => (r, d, Some a)
          | Some x' => clock n (r ++ [a]) (<[a := x']> d)
          end
      end
  | _, _ => (ring, d, None)
  end.

(** [credit] counts the chances an entry has left. *)
Context (credit : D -> nat).
Hypothesis credit_spec : forall x,
  match chance x with None => credit x = 0%nat | Some x' => credit x = S (credit x') end.

Definition total_credit (ring : list addr) (d : gmap addr D) : nat :=
  sum_list (map (fun a => from_option credit 0%nat (d !! a)) ring).

Lemma total_credit_insert (ring : list addr) (d : gmap addr D) (a : addr) (x : D) :
  a ∉ ring -> total_credit ring (<[a := x]> d) = total_credit ring d.
Proof.
  intros Ha. unfold total_credit. f_equal. apply map_ext_in. intros b Hb.
  rewrite lookup_insert_ne; [done|]. intros ->. by apply Ha, list_elem_of_In.
Qed.

Lemma total_credit_app (r1 r2 : list addr) (d : gmap addr D) :
  total_credit (r1 ++ r2) d = (total_credit r1 d + total_credit r2 d)%nat.
Proof. unfold total_credit. rewrite map_app. apply sum_list_with_app. Qed.

(** More probes than credits find a victim. *)
Lemma clock_finds (n : nat) (ring : list addr) (d : gmap addr D) :
  NoDup ring -> ring <> [] -> (forall a, a ∈ ring -> is_Some (d !! a)) ->
  (total_credit ring d < n)%nat ->
  exists a, snd (clock n ring d) = Some a.
Proof.
  revert ring d. induction n as [|n IH]; intros ring d Hnd Hne Hd Hc; [lia|].
  destruct ring as [|a r]; [done|]. apply NoDup_cons in Hnd as [Ha Hnd]. cbn [clock].
  destruct (Hd a) as [x Hx]; [apply list_elem_of_here|]. rewrite Hx.
  pose proof (credit_spec x) as Hs. destruct (chance x) as [x'|]; [|simpl; eauto].
  apply IH.
  - apply NoDup_app. split_and!; [done|set_solver|apply NoDup_singleton].
  - by destruct r.
  - intros b Hb. destruct (decide (a = b)) as [->|]; [rewrite lookup_insert_eq; eauto|].
    rewrite lookup_insert_ne by done. apply Hd. set_solver.
  - rewrite total_credit_app, total_credit_insert by done.
    unfold total_credit in Hc |- *. simpl in Hc |- *. rewrite lookup_insert_eq, Hx in *.
    simpl in *. lia.
Qed.

(** The victim has no credit, and every entry the hand passed lost some. *)
Lemma clock_victim (n : nat) (ring ring' : list addr) (d d' : gmap addr D) (a : addr) :
  clock n ring d = (ring', d', Some a) ->
  (exists x, d' !! a = Some x /\ chance x = None) /\ Permutation ring (a :: ring').
Proof.
  revert ring d. induction n as [|n IH]; intros ring d; [done|].
  destruct ring as [|b r]; [done|]. cbn [clock].
  destruct (d !! b) as [x|] eqn:Hx; [|done]. destruct (chance x) as [x'|] eqn:Hc.
  - intros H. apply IH in H as [Hv Hp]. split; [done|].
    rewrite <- Hp. by rewrite Permutation_app_comm.
  - intros [= -> -> ->]. eauto.
Qed.
End Clock.

(** The list after the hand, read towards the head and then on from the tail. *)
Fixpoint split_after (c : addr) (als : list addr) : list addr * list addr :=
  match als with
  | [] => ([], [])
  | a :: r => if bool_decide (a = c) then ([a], r)
              else let '(f, b) := split_after c r in (a :: f, b)
  end.

Definition ring_of (hand : option addr) (als : list addr) : list addr :=
  match hand with
  | None => rev als
  | Some c => let '(f, b) := split_after c als in rev f ++ rev b
  end.

Lemma split_after_spec (l1 : list addr) (c : addr) (l2 : list addr) :
  c ∉ l1 -> split_after c (l1 ++ c :: l2) = (l1 ++ [c], l2).
Proof.
  induction l1 as [|a l1 IH]; intros Hc; simpl.
  - by rewrite bool_decide_eq_true_2.
  - rewrite bool_decide_eq_false_2 by set_solver. by rewrite IH by set_solver.
Qed.

Lemma ring_at (l1 : list addr) (c : addr) (l2 : list addr) :
  NoDup (l1 ++ c :: l2) -> ring_of (Some c) (l1 ++ c :: l2) = c :: rev l1 ++ rev l2.
Proof.
  intros Hnd. unfold ring_of. rewrite split_after_spec.
  - by rewrite rev_app_distr.
  - apply NoDup_app in Hnd as (_ & Hd & _). intros Hc. apply (Hd c Hc), list_elem_of_here.
Qed.

(** A hand at the end of [l1]; with [l1] empty it starts over from the tail. *)
Lemma ring_between (l1 l2 : list addr) :
  NoDup (l1 ++ l2) -> ring_of (last l1) (l1 ++ l2) = rev l1 ++ rev l2.
Proof.
  intros Hnd. destruct l1 as [|c l1 _] using rev_ind; [done|].
  rewrite last_snoc. rewrite <- app_assoc in *. cbn [app] in *. rewrite ring_at by done.
  by rewrite rev_app_distr.
Qed.

Lemma ring_tail (als : list addr) : NoDup als -> ring_of (last als) als = rev als.
Proof.
  intros Hnd. pose proof (ring_between als []) as H. rewrite app_nil_r in H.
  rewrite H by done. apply app_nil_r.
Qed.

Lemma ring_perm (h : option addr) (als : list addr) : Permutation (ring_of h als) als.
Proof.
  destruct h as [c|]; simpl; [|symmetry; apply Permutation_rev].
  assert (forall xs, fst (split_after c xs) ++ snd (split_after c xs) = xs) as E.
  { induction xs as [|a xs IH]; simpl; [done|]. case_bool_decide; [done|].
    destruct (split_after c xs). simpl in *. by rewrite IH. }
  specialize (E als). destruct (split_after c als) as [f b]. simpl in E. subst.
  by rewrite <- !Permutation_rev.
Qed.

(** ** A sweep is the clock *)

Section Sweep.
Context {K : Type}.
Implicit Types (l : List K).

Local Abbreviation D := (K * bool * Z)%type.

(** What a sweep leaves behind, against the clock's result. *)
Definition swept (als : list addr) (res : List K * option K)
    (spec : list addr * gmap addr D * option addr) : Prop :=
  let '(l', r) := res in
  let '(ring', d', v) := spec in
  match v with
  | None => r = None /\ repr l' als /\ contents l' = d' /\ ring_of (hand l') als = ring'
  | Some a => exists (l1 l2 : list addr) (x : D),
      als = l1 ++ a :: l2 /\ d' !! a = Some x /\ r = Some x.1.1 /\
      repr l' (l1 ++ l2) /\ contents l' = delete a d' /\ ring_of (hand l') (l1 ++ l2) = ring'
  end.

(** Both policies probe the entry under the hand: a cold entry is evicted,
    another one is changed by the function the probe returns. *)
Context (probe : Entry K -> option (Entry K -> Entry K)).

Fixpoint gsweep (n : nat) l : List K * option K :=
  match n with
  | O => (l, None)
  | S n =>
      let l := match hand l with None => {| l with hand := tail l |} | Some _ => l end in
      match hand l with
      | None => (l, None)
      | Some cur =>
          match heap l !! cur with
          | None => (l, None)
          | Some x =>
              match probe x with
              | None => (Dll.put (Dll.remove {| l with hand := prev x |} cur) cur, Some (EKey x))
              | Some f =>
                  gsweep n {| l with heap := alter f cur (heap l);
                                     hand := match prev x with None => tail l | p => p end |}
              end
          end
      end
  end.

Context (chance : D -> option D).
Hypothesis probe_chance : forall x,
  match probe x with
  | None => chance (erase x) = None
  | Some f => chance (erase x) = Some (erase (f x)) /\
              (forall y, prev (f y) = prev y /\ next (f y) = next y)
  end.

Lemma contents_alter l (a : addr) (x : Entry K) (f : Entry K -> Entry K) hd :
  heap l !! a = Some x ->
  contents {| l with heap := alter f a (heap l); hand := hd |} = <[a := erase (f x)]> (contents l).
Proof.
  intros Hx. unfold contents. simpl. apply map_eq. intros b. rewrite lookup_fmap.
  destruct (decide (a = b)) as [<-|].
  - by rewrite lookup_alter_eq, lookup_insert_eq, Hx.
  - by rewrite lookup_alter_ne, lookup_insert_ne, lookup_fmap.
Qed.

Lemma evict_swept l (l1 : list addr) (c : addr) (l2 : list addr) (x : Entry K) :
  repr l (l1 ++ c :: l2) -> heap l !! c = Some x -> prev x = last l1 ->
  swept (l1 ++ c :: l2)
    (Dll.put (Dll.remove {| l with hand := prev x |} c) c, Some (EKey x))
    (rev l1 ++ rev l2, contents l, Some c).
Proof.
  intros Hr Hx Hp. pose proof (r_nodup _ _ _ Hr) as Hnd.
  assert (last l1 <> Some c) as Hlc.
  { intros Hl. apply last_Some_elem_of in Hl. apply NoDup_app in Hnd as (_ & Hd & _).
    apply (Hd c Hl), list_elem_of_here. }
  assert (Hr' : repr {| l with hand := prev x |} (l1 ++ c :: l2)).
  { apply hand_repr; [|done]. rewrite Hp. intros a Ha. apply last_Some_elem_of in Ha. set_solver. }
  assert (repr (Dll.put (Dll.remove {| l with hand := prev x |} c) c) (l1 ++ l2)) as Hr2.
  { apply put_repr, remove_repr; [done|]. simpl. congruence. }
  exists l1, l2, (erase x). split_and!; try done.
  - unfold contents. by rewrite lookup_fmap, Hx.
  - rewrite contents_put, contents_remove. done.
  - replace (hand _) with (last l1).
    + apply ring_between. apply (r_nodup _ _ _ Hr2).
    + unfold Dll.put, Dll.remove. simpl. rewrite Hx. simpl. by rewrite Hp.
Qed.

Lemma gsweep_swept (n : nat) l (als : list addr) :
  repr l als -> hand l <> None ->
  swept als (gsweep n l) (clock chance n (ring_of (hand l) als) (contents l)).
Proof.
  revert l. induction n as [|n IH]; intros l Hr Hh; [by simpl; split_and!|].
  destruct (hand l) as [c|] eqn:Ec; [|done]. clear Hh.
  pose proof (r_hand _ _ _ Hr c Ec) as Hin. apply list_elem_of_split in Hin as (l1 & l2 & ->).
  destruct (repr_lookup _ _ _ _ Hr) as (x & Hx & Hp & Hn).
  pose proof (r_nodup _ _ _ Hr) as Hnd. rewrite ring_at by done.
  cbn [gsweep clock]. rewrite Ec. cbn [hand]. rewrite Ec, Hx.
  assert (contents l !! c = Some (erase x)) as -> by (unfold contents; by rewrite lookup_fmap, Hx).
  pose proof (probe_chance x) as Hpc. destruct (probe x) as [f|].
  - destruct Hpc as [-> Hf].
    set (hd := match prev x with None => tail l | p => p end).
    assert (ring_of hd (l1 ++ c :: l2) = (rev l1 ++ rev l2) ++ [c]) as <-.
    { unfold hd. rewrite Hp. destruct (last l1) as [p|] eqn:El.
      - rewrite <- El. rewrite ring_between by done. simpl. by rewrite app_assoc.
      - apply last_None in El. subst. rewrite (r_tail _ _ _ Hr), ring_tail by done. done. }
    assert (hd <> None /\ forall a, hd = Some a -> a ∈ l1 ++ c :: l2) as [Hd1 Hd2].
    { unfold hd. rewrite Hp. destruct (last l1) as [p|] eqn:El.
      - split; [done|]. intros a [= <-]. apply last_Some_elem_of in El. set_solver.
      - rewrite (r_tail _ _ _ Hr). split.
        + intros Hn'. apply last_None in Hn'. by destruct l1.
        + intros a Ha. by apply last_Some_elem_of. }
    rewrite <- (contents_alter l c x f hd) by done.
    apply IH; [by apply alter_repr|done].
  - rewrite Hpc. by apply evict_swept.
Qed.

(** The common body of the two [EvictBounded]s. *)
Definition gevict l (maxProbes : Z) : List K * option K :=
  if (llen l =? 0) || (maxProbes <=? 0) then (l, None)
  else gsweep (Z.to_nat maxProbes)
         (match hand l with None => {| l with hand := tail l |} | Some _ => l end).

Lemma gevict_swept l (als : list addr) (maxProbes : Z) :
  repr l als ->
  swept als (gevict l maxProbes)
    (clock chance (Z.to_nat maxProbes) (ring_of (hand l) als) (contents l)).
Proof.
  intros Hr. unfold gevict. destruct (llen l =? 0) eqn:E0; simpl; bool_cases.
  - rewrite (r_len _ _ _ Hr) in E0. destruct als; [|rewrite len_cons in E0; pose proof (len_nonneg als); lia].
    assert (ring_of (hand l) [] = []) as E by (by destruct (hand l)).
    rewrite E. destruct (Z.to_nat maxProbes); simpl; split_and!; done.
  - destruct (maxProbes <=? 0) eqn:E1; bool_cases.
    { replace (Z.to_nat maxProbes) with 0%nat by lia. by split_and!. }
    destruct (hand l) as [c|] eqn:Ec.
    + rewrite <- Ec. apply gsweep_swept; [done|congruence].
    + replace (ring_of None als) with (ring_of (tail l) als)
        by (rewrite (r_tail _ _ _ Hr), ring_tail; [done|apply (r_nodup _ _ _ Hr)]).
      change (contents l) with (contents {| l with hand := tail l |}).
      apply (gsweep_swept _ {| l with hand := tail l |}).
      * apply hand_repr; [|done]. intros a. rewrite (r_tail _ _ _ Hr). apply last_Some_elem_of.
      * simpl. rewrite (r_tail _ _ _ Hr). intros Hl. apply last_None in Hl. subst.
        apply E0. by rewrite (r_len _ _ _ Hr).
Qed.
End Sweep.

(** ** The interface evictor.List and its two implementations *)

(** Keys are unique and the frequency counter keeps to its three bits. *)
Definition good {K} (d : gmap addr (K * bool * Z)) : Prop :=
  (forall a b x y, d !! a = Some x -> d !! b = Some y -> x.1.1 = y.1.1 -> a = b) /\
  (forall a x, d !! a = Some x -> 0 <= x.2 <= 7).

(** What a tier relies on: the operations of the Go interface, the effect of
    a hit on the entry ([p_touch]), and the second chances a sweep grants
    ([p_chance], counted by [p_credit]). *)
Class EvictionPolicy (K : Type) : Type := {
  p_access : List K -> K -> (K -> option addr) -> addr -> List K * addr * bool;
  p_evict : List K -> Z -> List K * option K;
  p_remove : List K -> option addr -> List K;
  p_clear : List K -> List K;
  p_touch : K * bool * Z -> K * bool * Z;
  p_chance : K * bool * Z -> option (K * bool * Z);
  p_credit : K * bool * Z -> nat;
  p_max_credit : nat;
  p_access_hit l als key lookup fresh e x :
    repr l als -> lookup key = Some e -> contents l !! e = Some x ->
    let '(l', e', isNew) := p_access l key lookup fresh in
    e' = e /\ isNew = false /\ repr l' als /\ contents l' = <[e := p_touch x]> (contents l);
  p_access_new l als key lookup fresh :
    repr l als -> lookup key = None -> fresh ∉ als ->
    let '(l', e', isNew) := p_access l key lookup fresh in
    e' = fresh /\ isNew = true /\ repr l' (fresh :: als) /\
    contents l' = <[fresh := (key, false, 0)]> (contents l);
  p_evict_clock l als n :
    repr l als ->
    swept als (p_evict l n) (clock p_chance (Z.to_nat n) (ring_of (hand l) als) (contents l));
  p_remove_ok l l1 a l2 :
    repr l (l1 ++ a :: l2) ->
    repr (p_remove l (Some a)) (l1 ++ l2) /\ contents (p_remove l (Some a)) = delete a (contents l);
  p_clear_ok l als : repr l als -> p_clear l = Dll.NewList;
  p_touch_good x : (p_touch x).1.1 = x.1.1 /\ (0 <= x.2 <= 7 -> 0 <= (p_touch x).2 <= 7);
  p_chance_good x y :
    p_chance x = Some y -> y.1.1 = x.1.1 /\ (0 <= x.2 <= 7 -> 0 <= y.2 <= 7);
  p_credit_ok x :
    match p_chance x with None => p_credit x = 0%nat | Some y => p_credit x = S (p_credit y) end;
  p_credit_max x : 0 <= x.2 <= 7 -> (p_credit x <= p_max_credit)%nat;
}.

Section Policies.
Context {K : Type}.
Implicit Types (l : List K) (x : K * bool * Z).

Definition sieve_probe (e : Entry K) : option (Entry K -> Entry K) :=
  if negb (visited e) then None else Some ClearVisited.
Definition sieve_touch x : K * bool * Z := (x.1.1, true, x.2).
Definition sieve_chance x : option (K * bool * Z) :=
  if x.1.2 then Some (x.1.1, false, x.2) else None.
Definition sieve_credit x : nat := if x.1.2 then 1 else 0.

Definition cachaner_probe (e : Entry K) : option (Entry K -> Entry K) :=
  if visited e then Some ClearVisited
  else if 0 <? ioBits e then Some (fun y => SetIOBits y (ioBits e - 1)) else None.
Definition cachaner_touch x : K * bool * Z :=
  (x.1.1, true, if Cachaner.maxFreq <=? x.2 then x.2 else x.2 + 1).
Definition cachaner_chance x : option (K * bool * Z) :=
  if x.1.2 then Some (x.1.1, false, x.2)
  else if 0 <? x.2 then Some (x.1.1, false, x.2 - 1) else None.
Definition cachaner_credit x : nat := ((if x.1.2 then 1 else 0) + Z.to_nat x.2)%nat.

Lemma sieve_sweep_eq (n : nat) l : Sieve.sweep n l = gsweep sieve_probe n l.
Proof.
  revert l. induction n as [|n IH]; intros l; [done|]. cbn [Sieve.sweep gsweep].
  unfold sieve_probe. destruct (match hand l with None => _ | _ => _ end) as [h hd tl [c|] ln]; simpl; [|done].
  destruct (h !! c) as [x|]; [|done]. destruct (visited x); simpl; [apply IH|done].
Qed.

Lemma cachaner_sweep_eq (n : nat) l : Cachaner.sweep n l = gsweep cachaner_probe n l.
Proof.
  revert l. induction n as [|n IH]; intros l; [done|]. cbn [Cachaner.sweep gsweep].
  unfold cachaner_probe. destruct (match hand l with None => _ | _ => _ end) as [h hd tl [c|] ln]; simpl; [|done].
  destruct (h !! c) as [x|]; [|done]. destruct (visited x); [apply IH|].
  destruct (0 <? ioBits x); [apply IH|done].
Qed.

Lemma sieve_evict_swept l als n :
  repr l als ->
  swept als (Sieve.EvictBounded l n)
    (clock sieve_chance (Z.to_nat n) (ring_of (hand l) als) (contents l)).
Proof.
  intros Hr. unfold Sieve.EvictBounded. cbv zeta. rewrite sieve_sweep_eq.
  apply (gevict_swept sieve_probe sieve_chance); [|done].
  intros x. unfold sieve_probe, sieve_chance, erase. simpl. by destruct (visited x).
Qed.

Lemma cachaner_evict_swept l als n :
  repr l als ->
  swept als (Cachaner.EvictBounded l n)
    (clock cachaner_chance (Z.to_nat n) (ring_of (hand l) als) (contents l)).
Proof.
  intros Hr. unfold Cachaner.EvictBounded. cbv zeta. rewrite cachaner_sweep_eq.
  apply (gevict_swept cachaner_probe cachaner_chance); [|done].
  intros x. unfold cachaner_probe, cachaner_chance, erase. simpl.
  destruct (visited x) eqn:Ev; [done|]. destruct (0 <? ioBits x); [|done].
  simpl. by rewrite Ev.
Qed.

(** A hit changes the entry's contents and nothing else. *)
Lemma hit_repr l als (e : addr) x (f : Entry K -> Entry K) :
  repr l als -> contents l !! e = Some x ->
  (forall y, prev (f y) = prev y /\ next (f y) = next y) ->
  repr {| l with heap := alter f e (heap l) |} als /\
  exists y, heap l !! e = Some y /\ erase y = x /\
    contents {| l with heap := alter f e (heap l) |} = <[e := erase (f y)]> (contents l).
Proof.
  intros Hr Hx Hf. unfold contents in Hx. rewrite lookup_fmap in Hx.
  destruct (heap l !! e) as [y|] eqn:Hy; simplify_eq/=. split.
  - apply (alter_repr l als e f (hand l)); [done|apply (r_hand _ _ _ Hr)|done].
  - exists y. split_and!; [done|done|]. apply (contents_alter l e y f (hand l) Hy).
Qed.
End Policies.

#[export] Program Instance sieve_policy (K : Type) : EvictionPolicy K := {|
  p_access := Sieve.Access; p_evict := Sieve.EvictBounded; p_remove := Sieve.Remove;
  p_clear := Sieve.Clear; p_touch := sieve_touch; p_chance := sieve_chance;
  p_credit := sieve_credit; p_max_credit := 1;
  p_evict_clock := sieve_evict_swept; p_remove_ok := Remove_repr; p_clear_ok := Clear_repr |}.
Next Obligation.
  intros K l als key lookup fresh e x Hr Hl Hx. unfold Sieve.Access. rewrite Hl.
  destruct (hit_repr l als e x MarkVisited Hr Hx) as (H1 & y & Hy & <- & Hc); [done|].
  by split_and!.
Qed.
Next Obligation.
  intros K l als key lookup fresh Hr Hl Hf. unfold Sieve.Access. rewrite Hl.
  destruct (insert_repr l als fresh key Hr Hf). by split_and!.
Qed.
Next Obligation. by intros. Qed.
Next Obligation.
  intros K x y. unfold sieve_chance. destruct (x.1.2); intros [= <-]. done.
Qed.
Next Obligation. intros K x. unfold sieve_chance, sieve_credit. by destruct (x.1.2). Qed.
Next Obligation. intros K x. unfold sieve_credit. destruct (x.1.2); lia. Qed.

#[export] Program Instance cachaner_policy (K : Type) : EvictionPolicy K := {|
  p_access := Cachaner.Access; p_evict := Cachaner.EvictBounded; p_remove := Cachaner.Remove;
  p_clear := Cachaner.Clear; p_touch := cachaner_touch; p_chance := cachaner_chance;
  p_credit := cachaner_credit; p_max_credit := 8;
  p_evict_clock := cachaner_evict_swept; p_remove_ok := Remove_repr; p_clear_ok := Clear_repr |}.
Next Obligation.
  intros K l als key lookup fresh e x Hr Hl Hx. unfold Cachaner.Access. rewrite Hl.
  destruct (hit_repr l als e x (fun z => MarkVisited (Cachaner.incrementFreq z)) Hr Hx)
    as (H1 & y & Hy & <- & Hc).
  { intros z. unfold Cachaner.incrementFreq. by destruct (_ <=? _). }
  split_and!; try done. rewrite Hc. f_equal. unfold Cachaner.incrementFreq, cachaner_touch, erase.
  simpl. by destruct (_ <=? _).
Qed.
Next Obligation.
  intros K l als key lookup fresh Hr Hl Hf. unfold Cachaner.Access. rewrite Hl.
  destruct (insert_repr l als fresh key Hr Hf). by split_and!.
Qed.
Next Obligation.
  intros K x. unfold cachaner_touch, Cachaner.maxFreq. simpl. split; [done|].
  destruct (7 <=? x.2) eqn:E; bool_cases; lia.
Qed.
Next Obligation.
  intros K x y. unfold cachaner_chance. destruct (x.1.2); [by intros [= <-]|].
  destruct (0 <? x.2) eqn:E; intros [= <-]. bool_cases. simpl. split; [done|lia].
Qed.
Next Obligation.
  intros K x. unfold cachaner_chance, cachaner_credit. destruct (x.1.2); simpl; [lia|].
  destruct (0 <? x.2) eqn:E; bool_cases; simpl; lia.
Qed.
Next Obligation. intros K x H. unfold cachaner_credit. destruct (x.1.2); lia. Qed.

(** ** A tier shard driving a policy *)

Section Shard.
Context {K : Type} (P : EvictionPolicy K).
Implicit Types (l : List K).

(** The tier's index finds exactly the entries in the list. *)
Definition index_ok (lookup : K -> option addr) l : Prop :=
  forall k e, lookup k = Some e <-> exists x, contents l !! e = Some x /\ x.1.1 = k.

(** What a shard does to its list: accesses (with the pool handing out an
    unused entry), the lock-free visit of a hit, sweeps, removals, clears. *)
Inductive shard_step l : List K -> Prop :=
  | step_access key lookup fresh :
      index_ok lookup l -> heap l !! fresh = None ->
      shard_step l (p_access l key lookup fresh).1.1
  | step_visit e : shard_step l {| l with heap := alter MarkVisited e (heap l) |}
  | step_evict n : shard_step l (p_evict l n).1
  | step_remove e x : heap l !! e = Some x -> shard_step l (p_remove l (Some e))
  | step_clear : shard_step l (p_clear l).

Definition shard_ok l : Prop := exists als, repr l als /\ good (contents l).

Lemma good_update (d : gmap addr (K * bool * Z)) (a : addr) x y :
  good d -> d !! a = Some x -> y.1.1 = x.1.1 -> (0 <= x.2 <= 7 -> 0 <= y.2 <= 7) ->
  good (<[a := y]> d).
Proof.
  intros [Hu Hr] Ha Hk Hb. split.
  - intros b c u v Hb' Hc'. rewrite lookup_insert_Some in Hb', Hc'.
    destruct Hb' as [[<- <-]|[_ Hb']], Hc' as [[<- <-]|[_ Hc']]; rewrite ?Hk; eauto.
  - intros b u. rewrite lookup_insert_Some. intros [[<- <-]|[_ Hb']]; eauto.
Qed.

Lemma good_delete (d : gmap addr (K * bool * Z)) (a : addr) : good d -> good (delete a d).
Proof.
  intros [Hu Hr]. split.
  - intros b c u v. rewrite !lookup_delete_Some. intros [_ ?] [_ ?]. eauto.
  - intros b u. rewrite lookup_delete_Some. intros [_ ?]. eauto.
Qed.

Lemma good_clock (n : nat) (ring ring' : list addr) (d d' : gmap addr (K * bool * Z)) v :
  clock p_chance n ring d = (ring', d', v) -> good d -> good d'.
Proof.
  revert ring d. induction n as [|n IH]; intros ring d; [by intros [= _ <- _]|].
  destruct ring as [|a r]; [by intros [= _ <- _]|]. cbn [clock].
  destruct (d !! a) as [x|] eqn:Hx; [|by intros [= _ <- _]].
  destruct (p_chance x) as [y|] eqn:Hc; [|by intros [= _ <- _]].
  intros H Hg. apply IH in H; [done|]. apply p_chance_good in Hc as [Hk Hb].
  by apply (good_update d a x).
Qed.

Lemma shard_ok_new : shard_ok Dll.NewList.
Proof.
  exists []. split; [apply NewList_repr|].
  assert (contents (@Dll.NewList K) = ∅) as -> by apply fmap_empty.
  split; intros *; by rewrite lookup_empty.
Qed.

Lemma shard_access_ok l key lookup fresh :
  shard_ok l -> index_ok lookup l -> heap l !! fresh = None ->
  shard_ok (p_access l key lookup fresh).1.1.
Proof.
  intros (als & Hr & Hg) Hi Hf. destruct (lookup key) as [e|] eqn:El.
  - destruct (proj1 (Hi key e) El) as (x & Hx & Hk).
    pose proof (p_access_hit l als key lookup fresh e x Hr El Hx) as H.
    destruct (p_access l key lookup fresh) as [[l' e'] b]. destruct H as (_ & _ & Hr' & Hc).
    exists als. split; [done|]. simpl. rewrite Hc. destruct (p_touch_good x). by apply (good_update _ e x).
  - pose proof (p_access_new l als key lookup fresh Hr El) as H.
    rewrite (repr_elem _ _ _ Hr) in H. specialize (H ltac:(rewrite Hf; by intros [? ?])).
    destruct (p_access l key lookup fresh) as [[l' e'] b]. destruct H as (_ & _ & Hr' & Hc).
    exists (fresh :: als). split; [done|]. simpl. rewrite Hc. destruct Hg as [Hu Hb].
    assert (Hnew : forall a x, contents l !! a = Some x -> x.1.1 <> key).
    { intros a x Ha Hk. assert (lookup key = Some a) by (apply Hi; eauto). congruence. }
    split.
    + intros b' c u v Hb' Hc' E. rewrite lookup_insert_Some in Hb', Hc'.
      destruct Hb' as [[<- <-]|[_ Hb']], Hc' as [[<- <-]|[_ Hc']]; eauto; exfalso; simpl in E; subst.
      * by apply (Hnew c v Hc').
      * by apply (Hnew b' u Hb').
    + intros b' u. rewrite lookup_insert_Some. intros [[<- <-]|[_ Hb']]; [simpl; lia|eauto].
Qed.

Lemma shard_evict_ok l n : shard_ok l -> shard_ok (p_evict l n).1.
Proof.
  intros (als & Hr & Hg). pose proof (p_evict_clock l als n Hr) as H.
  destruct (p_evict l n) as [l' r]. destruct (clock _ _ _ _) as [[ring' d'] v] eqn:Ec.
  apply good_clock in Ec; [|done]. simpl in H |- *. destruct v as [a|].
  - destruct H as (l1 & l2 & x & _ & _ & _ & Hr' & Hc & _). exists (l1 ++ l2). split; [done|].
    rewrite Hc. by apply good_delete.
  - destruct H as (_ & Hr' & <- & _). by exists als.
Qed.

Lemma shard_step_ok l l' : shard_step l l' -> shard_ok l -> shard_ok l'.
Proof.
  intros Hs Hok. destruct Hs as [key lookup fresh Hi Hf|e|n|e x He|].
  - by apply shard_access_ok.
  - destruct Hok as (als & Hr & Hg). destruct (contents l !! e) as [x|] eqn:Hx.
    + destruct (hit_repr l als e x MarkVisited Hr Hx) as (Hr' & y & _ & <- & Hc); [done|].
      exists als. split; [done|]. rewrite Hc. by apply (good_update _ e (erase y)).
    + exists als. unfold contents in *. simpl in *. rewrite lookup_fmap, fmap_None in Hx.
      rewrite alter_id by (intros; congruence). split; [|done]. by destruct l.
  - by apply shard_evict_ok.
  - destruct Hok as (als & Hr & Hg). assert (e ∈ als) as Hin by (apply (repr_elem _ _ _ Hr); eauto).
    apply list_elem_of_split in Hin as (l1 & l2 & ->). destruct (p_remove_ok _ _ _ _ Hr) as [Hr' Hc].
    exists (l1 ++ l2). split; [done|]. rewrite Hc. by apply good_delete.
  - destruct Hok as (als & Hr & _). rewrite (p_clear_ok _ _ Hr). apply shard_ok_new.
Qed.

Lemma total_credit_bound (ring : list addr) (d : gmap addr (K * bool * Z)) :
  good d -> (total_credit p_credit ring d <= length ring * p_max_credit)%nat.
Proof.
  intros [_ Hb]. unfold total_credit. induction ring as [|a r IH]; simpl; [lia|].
  destruct (d !! a) as [x|] eqn:Hx; simpl; [|lia].
  pose proof (p_credit_max x (Hb a x Hx)). lia.
Qed.

Lemma evict_live l als n :
  repr l als -> good (contents l) -> als <> [] -> len als * Z.of_nat p_max_credit < n ->
  exists k, (p_evict l n).2 = Some k.
Proof.
  intros Hr Hg Hne Hn. pose proof (p_evict_clock l als n Hr) as H.
  destruct (clock_finds p_chance p_credit p_credit_ok (Z.to_nat n) (ring_of (hand l) als) (contents l))
    as [a Ha].
  - rewrite ring_perm. apply (r_nodup _ _ _ Hr).
  - intros E. pose proof (ring_perm (hand l) als) as Hp. rewrite E in Hp.
    by apply Permutation_nil in Hp.
  - intros a Ha. rewrite ring_perm in Ha. apply (repr_elem _ _ _ Hr) in Ha.
    unfold contents. rewrite lookup_fmap. by apply fmap_is_Some.
  - pose proof (total_credit_bound (ring_of (hand l) als) _ Hg) as Hb.
    rewrite (Permutation_length (ring_perm _ _)) in Hb.
    unfold len in Hn. nia.
  - destruct (p_evict l n) as [l' r]. destruct (clock _ _ _ _) as [[ring' d'] v]. simpl in *. subst v.
    destruct H as (l1 & l2 & x & _ & _ & -> & _). eauto.
Qed.
End Shard.

(** ** Properties *)

(** C28. Both sweeps are the clock: on a well-formed list of any length and
    for any probe budget, [EvictBounded] evicts exactly the entry the clock
    reaches (SIEVE: the first unvisited entry from the hand towards the head
    and around; cachaner: the first unvisited one whose frequency is used
    up), returns its key, leaves a well-formed list without it with the hand
    where it stopped, takes from every entry passed one second chance and
    changes nothing else; without a victim in the budget the list is the
    same. *)
Theorem eviction_refines_clock {K} (l : List K) (als : list addr) (n : Z) (Hr : repr l als) :
  swept als (Sieve.EvictBounded l n)
    (clock sieve_chance (Z.to_nat n) (ring_of (hand l) als) (contents l)) /\
  swept als (Cachaner.EvictBounded l n)
    (clock cachaner_chance (Z.to_nat n) (ring_of (hand l) als) (contents l)).
Proof. split; [by apply sieve_evict_swept|by apply cachaner_evict_swept]. Qed.

(** Eviction makes progress: on a non-empty list SIEVE finds a victim with
    any budget above the length, and the budget [len * (maxFreq + 2)] of
    cachaner's [Evict] is always enough. *)
Theorem eviction_live {K} (l : List K) (als : list addr) (n : Z)
    (Hr : repr l als) (Hg : good (contents l)) (Hne : als <> []) (Hn : len als < n) :
  (exists k, (Sieve.EvictBounded l n).2 = Some k) /\
  (exists k, (Cachaner.Evict l).2 = Some k).
Proof.
  split.
  - apply (evict_live (sieve_policy K) l als n Hr Hg Hne). change (Z.of_nat p_max_credit) with 1. lia.
  - apply (evict_live (cachaner_policy K) l als (llen l * (7 + 2)) Hr Hg Hne).
    change (Z.of_nat p_max_credit) with 8. rewrite (r_len _ _ _ Hr).
    destruct als; [done|]. rewrite len_cons. pose proof (len_nonneg als). lia.
Qed.

(** Whatever a shard does through the eviction interface, with either
    policy, starting from the empty list: the pointers always form one doubly
    linked list of the live entries with the right ends and length and the
    hand on it or nil, no key is in the list twice, and frequencies stay
    between 0 and 7. *)
Theorem shard_list_invariant {K} (P : EvictionPolicy K) (l : List K)
    (Hs : rtc (shard_step P) Dll.NewList l) :
  exists als, repr l als /\ good (contents l).
Proof.
  assert (forall l1 l2, rtc (shard_step P) l1 l2 -> shard_ok l1 -> shard_ok l2) as H.
  { induction 1; [done|]. eauto using shard_step_ok. }
  apply (H _ _ Hs), shard_ok_new.
Qed.

(** ** Witnesses *)

Definition push_new (l : List Z) (e : addr) (k : Z) : List Z :=
  Dll.pushHead {| l with heap := <[e := Reset k]> (heap l) |} e.
Definition three_keys : List Z := push_new (push_new (push_new Dll.NewList 1 10) 2 20) 3 30.

Lemma three_keys_repr : repr three_keys [3; 2; 1]%positive /\ good (contents three_keys).
Proof.
  assert (H1 := insert_repr Dll.NewList [] 1%positive 10 NewList_repr ltac:(set_solver)).
  assert (H2 := insert_repr _ _ 2%positive 20 (proj1 H1) ltac:(set_solver)).
  assert (H3 := insert_repr _ _ 3%positive 30 (proj1 H2) ltac:(set_solver)).
  split; [apply H3|]. unfold three_keys, push_new.
  rewrite (proj2 H3), (proj2 H2), (proj2 H1).
  assert (contents (@Dll.NewList Z) = ∅) as -> by apply fmap_empty.
  split.
  - intros a b x y Ha Hb E. rewrite !lookup_insert_Some, lookup_empty in Ha, Hb.
    destruct Ha as [[<- <-]|[? [[<- <-]|[? [[<- <-]|[? ?]]]]]],
      Hb as [[<- <-]|[? [[<- <-]|[? [[<- <-]|[? ?]]]]]]; done.
  - intros a x Ha. rewrite !lookup_insert_Some, lookup_empty in Ha.
    destruct Ha as [[<- <-]|[? [[<- <-]|[? [[<- <-]|[? ?]]]]]]; done.
Qed.

Lemma eviction_refines_clock_witness :
  (Sieve.EvictBounded three_keys 1).2 = Some 10 /\
  swept [3; 2; 1]%positive (Sieve.EvictBounded three_keys 1)
    (clock sieve_chance 1 (ring_of (hand three_keys) [3; 2; 1]%positive) (contents three_keys)).
Proof.
  split; [vm_compute; reflexivity|].
  apply (eviction_refines_clock three_keys [3; 2; 1]%positive 1 (proj1 three_keys_repr)).
Defined.

Lemma eviction_live_witness : exists k, (Sieve.EvictBounded three_keys 4).2 = Some k.
Proof.
  apply (eviction_live three_keys [3; 2; 1]%positive 4 (proj1 three_keys_repr) (proj2 three_keys_repr));
    [discriminate|vm_compute; reflexivity].
Defined.

Lemma shard_list_invariant_witness :
  exists als, repr (Sieve.EvictBounded (@Dll.NewList Z) 5).1 als /\
    good (contents (Sieve.EvictBounded (@Dll.NewList Z) 5).1).
Proof.
  apply (shard_list_invariant (sieve_policy Z)).
  eapply rtc_l; [apply (step_evict (sieve_policy Z) _ 5)|apply rtc_refl].
Defined.
