(* ===== verification/SeqTracker.v ===== *)
(** * internal/cluster/seqtracker.go: deduplication of invalidation events

    The bitmap of a [seqWindow] is the array of 512 bytes of the source, and
    sequence numbers are 64-bit words. [slideTo] clears the slots one by one
    in a loop on a wrapping counter: the loop is run with fuel and gives
    [None] when the fuel runs out. A Go map is traversed in an unspecified
    order, which [pruneLocked] takes as an argument.

    The specification keeps, for each issuer, the sequence numbers accepted
    since it was last forgotten, and when the last one was: an event is a
    duplicate when its number is among them, or 4096 or more behind one of them.
    An issuer is forgotten an hour after its last accepted event, or when a 257th
    issuer appears: then all that are so old, or the one accepted longest ago. *)

From S2P Require Import Prelude GoStd.

(** [lia] with division and modulo by constants. *)
#[local] Ltac Zify.zify_post_hook ::= Z.to_euclidean_division_equations.

Definition seqTrackerTTL : Duration := Hour.
Definition seqTrackers : nat := 256.
Definition seqDedupWindow : Z := 4096.

(** ** The window of one issuer *)

Record seqWindow : Type := MkWindow { high : Z; bits : list Z }.

Definition slot_byte (w : seqWindow) (i : Z) : Z := default 0 (bits w !! Z.to_nat (i / 8)).

Definition has (w : seqWindow) (seq : Z) : bool :=
  let i := seq mod seqDedupWindow in
  negb (Z.land (slot_byte w i) (Z.shiftl 1 (i mod 8)) =? 0).

Definition mark (w : seqWindow) (seq : Z) : seqWindow :=
  let i := seq mod seqDedupWindow in
  {| w with bits := <[Z.to_nat (i / 8) := Z.lor (slot_byte w i) (Z.shiftl 1 (i mod 8))]> (bits w) |}.

Definition unmark (w : seqWindow) (seq : Z) : seqWindow :=
  let i := seq mod seqDedupWindow in
  {| w with bits := <[Z.to_nat (i / 8) := Z.ldiff (slot_byte w i) (Z.shiftl 1 (i mod 8))]> (bits w) |}.

(** [for s := w.high + 1; s <= seq; s++ { w.unmark(s) }] from [s]. *)
Fixpoint slide_loop (fuel : nat) (w : seqWindow) (s seq : Z) : option seqWindow :=
  match fuel with
  | O => None
  | S fuel => if s <=? seq then slide_loop fuel (unmark w s) (u64 (s + 1)) seq else Some w
  end.

(** Rounds that suffice: one per slot, and the last test. *)
Definition slide_fuel : nat := 4097.

Definition zero_bits : list Z := replicate 512 0.

Definition slideTo (w : seqWindow) (seq : Z) : option seqWindow :=
  let w' :=
    if seqDedupWindow <=? u64 (seq - high w) then Some {| w with bits := zero_bits |}
    else slide_loop slide_fuel w (u64 (high w + 1)) seq in
  w' ← w'; Some {| w' with high := seq |}.

(** ** The tracker *)

Record seqTracker : Type := MkTracker {
  wins : gmap bytes seqWindow;
  lastSeen : gmap bytes Time;
}.

Definition newSeqTracker : seqTracker := {| wins := ∅; lastSeen := ∅ |}.

(** The new tracker and whether the event is a duplicate. *)
Definition recordLocked (t : seqTracker) (w : option seqWindow) (issuer : bytes) (seq : Z) (now : Time)
  : option (seqTracker * bool) :=
  match w with
  | None =>
      let w := mark {| high := seq; bits := zero_bits |} seq in
      Some ({| wins := <[issuer := w]> (wins t); lastSeen := <[issuer := now]> (lastSeen t) |}, false)
  | Some w =>
      if high w <? seq then
        w ← slideTo w seq;
        Some ({| wins := <[issuer := mark w seq]> (wins t);
                 lastSeen := <[issuer := now]> (lastSeen t) |}, false)
      else if seqDedupWindow <=? u64 (high w - seq) then Some (t, true)
      else if has w seq then Some (t, true)
      else Some ({| wins := <[issuer := mark w seq]> (wins t);
                    lastSeen := <[issuer := now]> (lastSeen t) |}, false)
  end.

Section Range.
(** The order in which [range] visits a map. *)
Context (order : gmap bytes Time -> list (bytes * Time)).

Definition expired (now : Time) (kv : bytes * Time) : bool := seqTrackerTTL <? t_sub now kv.2.

(** The least recently seen issuer, in a pass over the entries. *)
Definition oldest_step (acc : option (bytes * Time)) (kv : bytes * Time) : option (bytes * Time) :=
  match acc with
  | None => Some kv
  | Some (o, ot) => if t_before kv.2 ot then Some kv else acc
  end.

Definition drop_issuer (t : seqTracker) (issuer : bytes) : seqTracker :=
  {| wins := delete issuer (wins t); lastSeen := delete issuer (lastSeen t) |}.

Definition pruneLocked (t : seqTracker) (now : Time) : seqTracker :=
  let entries := order (lastSeen t) in
  let dead := List.filter (expired now) entries in
  let t := foldl drop_issuer t (map fst dead) in
  if (length dead =? 0)%nat then
    match foldl oldest_step None (order (lastSeen t)) with
    | None => t
    | Some (oldest, _) => drop_issuer t oldest
    end
  else t.

Definition seen (t : seqTracker) (issuer : bytes) (seq : Z) (now : Time) : option (seqTracker * bool) :=
  if beq issuer [] then Some (t, false)
  else
    let w := wins t !! issuer in
    let last := default zero_time (lastSeen t !! issuer) in
    let '(t, w) :=
      if bool_decide (is_Some w) && (seqTrackerTTL <? t_sub now last)
      then (drop_issuer t issuer, None) else (t, w) in
    r ← recordLocked t w issuer seq now;
    let '(t, dup) := r in
    if (seqTrackers <? size (wins t))%nat then Some (pruneLocked t now, dup) else Some (t, dup).
End Range.

(** ** Bits *)

Definition bit (w : seqWindow) (i : Z) : bool := Z.testbit (slot_byte w i) (i mod 8).

Lemma land_pow2_testbit (b k : Z) :
  0 <= k -> negb (Z.land b (Z.shiftl 1 k) =? 0) = Z.testbit b k.
Proof.
  intros Hk. rewrite Z.shiftl_1_l. destruct (Z.testbit b k) eqn:Eb.
  - apply negb_true_iff, Z.eqb_neq. intros E.
    assert (Z.testbit (Z.land b (2 ^ k)) k = true) as H by (by rewrite Z.land_spec, Eb, Z.pow2_bits_true).
    rewrite E, Z.bits_0 in H. done.
  - apply negb_false_iff, Z.eqb_eq, Z.bits_inj'. intros n Hn.
    rewrite Z.land_spec, Z.pow2_bits_eqb, Z.bits_0 by done.
    destruct (Z.eqb_spec k n) as [->|]; [by rewrite Eb|apply andb_false_r].
Qed.

Lemma has_bit (w : seqWindow) (seq : Z) : has w seq = bit w (seq mod 4096).
Proof. unfold has, bit, seqDedupWindow. apply land_pow2_testbit. apply Z.mod_pos_bound. lia. Qed.

(** A write to one bit of the array. *)
Lemma write_bit (w : seqWindow) (i j : Z) (f : Z -> Z) (v : bool) :
  length (bits w) = 512%nat -> 0 <= i < 4096 -> 0 <= j < 4096 ->
  (forall b k, 0 <= k -> Z.testbit (f b) k = if k =? i mod 8 then v else Z.testbit b k) ->
  bit {| w with bits := <[Z.to_nat (i / 8) := f (slot_byte w i)]> (bits w) |} j
  = if j =? i then v else bit w j.
Proof.
  intros Hlen Hi Hj Hf. unfold bit, slot_byte. simpl.
  assert (Hm : 0 <= j mod 8 < 8) by (apply Z.mod_pos_bound; lia).
  destruct (decide (j / 8 = i / 8)) as [E|E].
  - rewrite E, list_lookup_insert_eq by (rewrite Hlen; lia). simpl. rewrite Hf by lia.
    destruct (Z.eqb_spec (j mod 8) (i mod 8)) as [E'|E'], (Z.eqb_spec j i) as [->|Hn]; try done; lia.
  - rewrite list_lookup_insert_ne by lia.
    destruct (Z.eqb_spec j i) as [->|]; [done|reflexivity].
Qed.

Lemma lor_pow2_bits (m b k : Z) : 0 <= m -> 0 <= k ->
  Z.testbit (Z.lor b (Z.shiftl 1 m)) k = if k =? m then true else Z.testbit b k.
Proof.
  intros Hm Hk. rewrite Z.lor_spec, Z.shiftl_1_l, Z.pow2_bits_eqb by done.
  rewrite (Z.eqb_sym m). destruct (k =? m); [apply orb_true_r|apply orb_false_r].
Qed.

Lemma ldiff_pow2_bits (m b k : Z) : 0 <= m -> 0 <= k ->
  Z.testbit (Z.ldiff b (Z.shiftl 1 m)) k = if k =? m then false else Z.testbit b k.
Proof.
  intros Hm Hk. rewrite Z.ldiff_spec, Z.shiftl_1_l, Z.pow2_bits_eqb by done.
  rewrite (Z.eqb_sym m). destruct (k =? m); [apply andb_false_r|apply andb_true_r].
Qed.

Lemma mark_bit (w : seqWindow) (seq j : Z) :
  length (bits w) = 512%nat -> 0 <= j < 4096 ->
  bit (mark w seq) j = (j =? seq mod 4096) || bit w j.
Proof.
  intros Hlen Hj. unfold mark, seqDedupWindow.
  rewrite (write_bit w _ j (fun b => Z.lor b (Z.shiftl 1 ((seq mod 4096) mod 8))) true);
    [by destruct (_ =? _)|done|apply Z.mod_pos_bound; lia|done|].
  intros. apply lor_pow2_bits; [apply Z.mod_pos_bound; lia|done].
Qed.

Lemma unmark_bit (w : seqWindow) (seq j : Z) :
  length (bits w) = 512%nat -> 0 <= j < 4096 ->
  bit (unmark w seq) j = negb (j =? seq mod 4096) && bit w j.
Proof.
  intros Hlen Hj. unfold unmark, seqDedupWindow.
  rewrite (write_bit w _ j (fun b => Z.ldiff b (Z.shiftl 1 ((seq mod 4096) mod 8))) false);
    [by destruct (_ =? _)|done|apply Z.mod_pos_bound; lia|done|].
  intros. apply ldiff_pow2_bits; [apply Z.mod_pos_bound; lia|done].
Qed.

Lemma zero_bit (h j : Z) : bit {| high := h; bits := zero_bits |} j = false.
Proof.
  unfold bit, slot_byte. simpl.
  assert (default 0 (zero_bits !! Z.to_nat (j / 8)) = 0) as ->; [|apply Z.bits_0].
  unfold zero_bits. destruct (decide (Z.to_nat (j / 8) < 512)%nat).
  - by rewrite lookup_replicate_2.
  - rewrite lookup_ge_None_2; [done|]. rewrite length_replicate. lia.
Qed.

Lemma length_mark (w : seqWindow) (s : Z) : length (bits (mark w s)) = length (bits w).
Proof. apply length_insert. Qed.

Lemma length_unmark (w : seqWindow) (s : Z) : length (bits (unmark w s)) = length (bits w).
Proof. apply length_insert. Qed.

Lemma slide_loop_spec (fuel : nat) (w : seqWindow) (s seq : Z) :
  length (bits w) = 512%nat -> 0 <= s <= seq + 1 -> seq < 2^64 - 1 -> seq + 1 - s < Z.of_nat fuel ->
  exists w', slide_loop fuel w s seq = Some w' /\ high w' = high w /\ length (bits w') = 512%nat /\
    forall j, 0 <= j < 4096 ->
      (bit w j = false -> bit w' j = false) /\
      (forall r, s <= r <= seq -> r mod 4096 = j -> bit w' j = false) /\
      ((forall r, s <= r <= seq -> r mod 4096 <> j) -> bit w' j = bit w j).
Proof.
  revert w s. induction fuel as [|fuel IH]; intros w s Hl Hs Hq Hf; [lia|]. cbn [slide_loop].
  destruct (s <=? seq) eqn:E; bool_cases.
  - rewrite u64_id by (unfold in_u64; lia).
    destruct (IH (unmark w s) (s + 1)) as (w' & -> & Hh & Hl' & Hb);
      [by rewrite length_unmark|lia|lia|lia|].
    exists w'. split_and!; try done. intros j Hj. destruct (Hb j Hj) as (Hb0 & Hb1 & Hb2).
    rewrite unmark_bit in Hb0, Hb2 by done. split_and!.
    + intros Hf0. apply Hb0. rewrite Hf0. apply andb_false_r.
    + intros r Hr Hrj. destruct (decide (r = s)) as [->|].
      * apply Hb0. by rewrite Hrj, Z.eqb_refl.
      * apply (Hb1 r); [lia|done].
    + intros Hn. rewrite Hb2 by (intros; apply Hn; lia).
      by rewrite (proj2 (Z.eqb_neq j (s mod 4096))) by (intros ->; by apply (Hn s)).
  - exists w. split_and!; try done. intros j Hj. split_and!; [done|intros; lia|done].
Qed.

(** ** The window against the set of sequence numbers received *)

Record win_ok (w : seqWindow) (l : list Z) : Prop := {
  wo_len : length (bits w) = 512%nat;
  wo_high : high w ∈ l;
  wo_max : Forall (fun s => 0 <= s <= high w) l;
  wo_top : high w < 2^64 - 1;
  wo_bits : forall s, 0 <= s -> high w - 4096 < s <= high w -> has w s = true <-> s ∈ l;
}.

Lemma win_ok_new (seq : Z) :
  0 <= seq < 2^64 - 1 -> win_ok (mark {| high := seq; bits := zero_bits |} seq) [seq].
Proof.
  intros Hs. split; simpl.
  - by rewrite length_insert.
  - apply list_elem_of_here.
  - constructor; [lia|constructor].
  - lia.
  - intros s H1 H2. rewrite has_bit, mark_bit, zero_bit, orb_false_r;
      [|done|apply Z.mod_pos_bound; lia].
    rewrite list_elem_of_singleton, Z.eqb_eq. split; [lia|by intros ->].
Qed.

Lemma win_ok_mark (w : seqWindow) (l : list Z) (seq : Z) :
  win_ok w l -> 0 <= seq -> high w - 4096 < seq <= high w -> win_ok (mark w seq) (seq :: l).
Proof.
  intros [H1 H2 H3 H4 H5] Hs Hr. split; simpl.
  - by rewrite length_insert.
  - by apply list_elem_of_further.
  - constructor; [lia|done].
  - done.
  - intros s Hs0 Hsr. rewrite has_bit, mark_bit, <- has_bit by (done || (apply Z.mod_pos_bound; lia)).
    rewrite orb_true_iff, Z.eqb_eq, (H5 s) by lia. rewrite elem_of_cons.
    split; intros [E|]; auto; left; [lia|by subst].
Qed.

(** A number too old for the window, or one already in the set, changes nothing. *)
Lemma win_ok_more (w : seqWindow) (l : list Z) (seq : Z) :
  win_ok w l -> 0 <= seq <= high w -> seq <= high w - 4096 \/ seq ∈ l -> win_ok w (seq :: l).
Proof.
  intros [H1 H2 H3 H4 H5] Hs Hr. split; try done.
  - by apply list_elem_of_further.
  - by constructor.
  - intros s Hs0 Hsr. rewrite (H5 s) by lia. rewrite elem_of_cons.
    split; [by right|]. intros [->|]; [|done]. destruct Hr; [lia|done].
Qed.

Lemma slideTo_ok (w : seqWindow) (l : list Z) (seq : Z) :
  win_ok w l -> high w < seq < 2^64 - 1 ->
  exists w', slideTo w seq = Some w' /\ win_ok (mark w' seq) (seq :: l).
Proof.
  intros [H1 H2 H3 H4 H5] Hs. unfold slideTo.
  assert (0 <= high w) as H0 by (rewrite Forall_forall in H3; apply (H3 _ H2)).
  rewrite u64_id by (unfold in_u64; lia). unfold seqDedupWindow.
  assert (Hwin : forall w', length (bits w') = 512%nat -> high w' = seq ->
    (forall s, 0 <= s -> seq - 4096 < s < seq -> bit w' (s mod 4096) = true <-> s ∈ l) ->
    win_ok (mark w' seq) (seq :: l)).
  { intros w' Hl Hh Hb. split; simpl; rewrite ?Hh.
    - by rewrite length_insert.
    - apply list_elem_of_here.
    - constructor; [lia|]. eapply Forall_impl; [exact H3|]. simpl. lia.
    - lia.
    - intros s Hs0 Hsr. rewrite has_bit, mark_bit by (done || (apply Z.mod_pos_bound; lia)).
      rewrite orb_true_iff, Z.eqb_eq, elem_of_cons.
      destruct (decide (s = seq)) as [->|]; [tauto|]. rewrite Hb by lia.
      split; intros [E|]; auto; exfalso; lia. }
  destruct (4096 <=? seq - high w) eqn:E; bool_cases.
  - eexists. split; [done|]. apply Hwin; [done|done|]. intros s Hs0 Hsr.
    change (bit {| high := seq; bits := zero_bits |} (s mod 4096) = true <-> s ∈ l).
    rewrite zero_bit. split; [done|]. intros Hin. rewrite Forall_forall in H3.
    specialize (H3 _ Hin). simpl in H3. lia.
  - rewrite u64_id by (unfold in_u64; lia).
    destruct (slide_loop_spec slide_fuel w (high w + 1) seq) as (w' & -> & Hh & Hl & Hb);
      [done|lia|lia|unfold slide_fuel; lia|].
    eexists. split; [done|]. apply Hwin; [done|done|]. intros s Hs0 Hsr.
    change (bit w' (s mod 4096) = true <-> s ∈ l).
    assert (0 <= s mod 4096 < 4096) as Hm by (apply Z.mod_pos_bound; lia).
    destruct (Hb _ Hm) as (_ & Hb1 & Hb2). destruct (decide (high w < s)).
    + rewrite (Hb1 s) by (done || lia). split; [done|]. intros Hin. rewrite Forall_forall in H3.
      specialize (H3 _ Hin). simpl in H3. lia.
    + rewrite Hb2 by (intros; lia). rewrite <- has_bit. apply H5; lia.
Qed.

(** ** Specification: the history of received events *)

Record event : Type := MkEvent { ev_issuer : bytes; ev_seq : Z; ev_at : Time }.

Definition seqs (hist : list event) (issuer : bytes) : list Z :=
  map ev_seq (List.filter (fun e => beq (ev_issuer e) issuer) hist).

(** Already received, or 4096 or more behind an event received. *)
Definition replayed (hist : list event) (e : event) : bool :=
  negb (beq (ev_issuer e) []) &&
  existsb (fun s => (s =? ev_seq e) || (ev_seq e + 4096 <=? s)) (seqs hist (ev_issuer e)).

Fixpoint spec_run (hist evs : list event) : list bool :=
  match evs with
  | [] => []
  | e :: evs => replayed hist e :: spec_run (e :: hist) evs
  end.

Section Run.
Context (order : gmap bytes Time -> list (bytes * Time)).

Fixpoint run (t : seqTracker) (evs : list event) : option (list bool) :=
  match evs with
  | [] => Some []
  | e :: evs =>
      r ← seen order t (ev_issuer e) (ev_seq e) (ev_at e);
      ds ← run r.1 evs;
      Some (r.2 :: ds)
  end.
End Run.

(** The tracker remembers the history. *)
Record tracker_ok (t : seqTracker) (hist : list event) : Prop := {
  to_known : forall i w, wins t !! i = Some w ->
    i <> [] /\ win_ok w (seqs hist i) /\
    exists t0, lastSeen t !! i = Some t0 /\ t0 ∈ map ev_at hist;
  to_unknown : forall i, i <> [] -> wins t !! i = None -> seqs hist i = [];
}.

Lemma seqs_cons (e : event) (hist : list event) (i : bytes) :
  seqs (e :: hist) i = if beq (ev_issuer e) i then ev_seq e :: seqs hist i else seqs hist i.
Proof. unfold seqs. simpl. by destruct (beq _ _). Qed.

(** Recording an event of [i] in the window [w'] keeps the correspondence. *)
Lemma tracker_ok_insert (t : seqTracker) (hist : list event) (e : event) (w' : seqWindow) :
  tracker_ok t hist -> ev_issuer e <> [] -> win_ok w' (ev_seq e :: seqs hist (ev_issuer e)) ->
  tracker_ok {| wins := <[ev_issuer e := w']> (wins t);
                lastSeen := <[ev_issuer e := ev_at e]> (lastSeen t) |} (e :: hist).
Proof.
  intros [Hk Hu] Hne Hw. split; simpl.
  - intros i w. rewrite lookup_insert_Some, seqs_cons. intros [[<- <-]|[Hni Hi]].
    + rewrite beq_refl. split_and!; try done. exists (ev_at e).
      rewrite lookup_insert_eq. split; [done|apply list_elem_of_here].
    + destruct (Hk i w Hi) as (? & ? & t0 & ? & ?).
      rewrite (proj2 (beq_neq _ _) Hni). split_and!; try done. exists t0.
      rewrite lookup_insert_ne by done. split; [done|by apply list_elem_of_further].
  - intros i Hi. rewrite lookup_insert_None. intros [Hn Hni].
    rewrite seqs_cons, (proj2 (beq_neq _ _) Hni). auto.
Qed.

Lemma tracker_ok_skip (t : seqTracker) (hist : list event) (e : event) :
  tracker_ok t hist ->
  (ev_issuer e = [] \/ exists w, wins t !! ev_issuer e = Some w /\
                         win_ok w (ev_seq e :: seqs hist (ev_issuer e))) ->
  tracker_ok t (e :: hist).
Proof.
  intros [Hk Hu] He. split.
  - intros i w Hi. destruct (Hk i w Hi) as (Hne & Hw & t0 & H1 & H2).
    split_and!; [done| |exists t0; split; [done|by apply list_elem_of_further]].
    rewrite seqs_cons. destruct (beq (ev_issuer e) i) eqn:E; [|done]. apply beq_eq in E. subst.
    destruct He as [|(w' & Hw' & ?)]; [done|]. by simplify_eq.
  - intros i Hne Hi. rewrite seqs_cons. destruct (beq (ev_issuer e) i) eqn:E; [|auto].
    apply beq_eq in E. subst. destruct He as [|(w' & Hw' & ?)]; congruence.
Qed.

Lemma existsb_seqs (l : list Z) (w : seqWindow) (seq : Z) :
  win_ok w l -> 0 <= seq ->
  existsb (fun s => (s =? seq) || (seq + 4096 <=? s)) l
  = if high w <? seq then false
    else if 4096 <=? high w - seq then true else has w seq.
Proof.
  intros [H1 H2 H3 H4 H5] Hs. rewrite Forall_forall in H3. apply eq_true_iff_eq.
  rewrite existsb_exists. split.
  - intros (s & Hin & He). apply list_elem_of_In in Hin. specialize (H3 _ Hin). simpl in H3.
    destruct (high w <? seq) eqn:E1; bool_cases; try lia;
      destruct (4096 <=? high w - seq) eqn:E2; bool_cases; try done; try lia.
    subst. apply H5; [lia|lia|done].
  - destruct (high w <? seq) eqn:E1; [done|]. bool_cases.
    destruct (4096 <=? high w - seq) eqn:E2; bool_cases.
    + intros _. exists (high w). split; [by apply list_elem_of_In|].
      apply orb_true_iff. right. apply Z.leb_le. lia.
    + intros Hh. exists seq. split; [|by rewrite Z.eqb_refl].
      apply list_elem_of_In, H5; [lia|lia|done].
Qed.

(** One event, with no expiry and no pruning. *)
Lemma recordLocked_ok (t : seqTracker) (hist : list event) (e : event) :
  tracker_ok t hist -> ev_issuer e <> [] -> 0 <= ev_seq e < 2^64 - 1 ->
  exists t', recordLocked t (wins t !! ev_issuer e) (ev_issuer e) (ev_seq e) (ev_at e)
             = Some (t', replayed hist e) /\
    tracker_ok t' (e :: hist) /\ dom (wins t') ⊆ {[ev_issuer e]} ∪ dom (wins t).
Proof.
  intros Ht Hne Hs. unfold recordLocked, replayed. rewrite (proj2 (beq_neq _ _) Hne). simpl.
  destruct (wins t !! ev_issuer e) as [w|] eqn:Ew.
  - destruct (to_known _ _ Ht _ _ Ew) as (_ & Hw & _). rewrite (existsb_seqs _ w) by (done || lia).
    assert (Hdom : {[ev_issuer e]} ∪ dom (wins t) ⊆ {[ev_issuer e]} ∪ dom (wins t)) by done.
    pose proof (wo_top _ _ Hw) as Htop.
    destruct (high w <? ev_seq e) eqn:E1; bool_cases.
    { destruct (slideTo_ok w _ (ev_seq e) Hw) as (w' & -> & Hw'); [lia|]. simpl. eexists.
      split; [done|]. split; [by apply tracker_ok_insert|]. simpl. by rewrite dom_insert_L. }
    rewrite u64_id by (unfold in_u64; lia). unfold seqDedupWindow.
    destruct (4096 <=? high w - ev_seq e) eqn:E2; bool_cases.
    { exists t. split; [done|]. split; [|set_solver]. apply tracker_ok_skip; [done|]. right. exists w.
      split; [done|]. apply win_ok_more; [done|lia|left; lia]. }
    destruct (has w (ev_seq e)) eqn:E3.
    { exists t. split; [done|]. split; [|set_solver]. apply tracker_ok_skip; [done|]. right. exists w.
      split; [done|]. apply win_ok_more; [done|lia|right]. apply (wo_bits _ _ Hw); [lia|lia|done]. }
    eexists. split; [done|]. simpl. rewrite dom_insert_L. split; [|done].
    apply tracker_ok_insert; [done|done|]. apply win_ok_mark; [done|lia|lia].
  - rewrite (to_unknown _ _ Ht _ Hne Ew). simpl. eexists. split; [done|].
    simpl. rewrite dom_insert_L. split; [|done]. apply tracker_ok_insert; [done|done|].
    rewrite (to_unknown _ _ Ht _ Hne Ew). by apply win_ok_new.
Qed.

(** The conditions under which no state is forgotten: the events arrive within
    one TTL of each other, from at most 256 issuers. *)
Definition within_ttl (evs : list event) : Prop :=
  forall e1 e2, e1 ∈ evs -> e2 ∈ evs -> ev_at e1 - ev_at e2 <= seqTrackerTTL.

Definition issuers (evs : list event) : gset bytes := list_to_set (map ev_issuer evs).

Lemma seen_ok order (t : seqTracker) (hist : list event) (e : event) :
  tracker_ok t hist -> dom (wins t) ⊆ issuers hist ->
  within_ttl (e :: hist) -> (size (issuers (e :: hist)) <= seqTrackers)%nat ->
  0 <= ev_seq e < 2^64 - 1 ->
  exists t', seen order t (ev_issuer e) (ev_seq e) (ev_at e) = Some (t', replayed hist e) /\
    tracker_ok t' (e :: hist) /\ dom (wins t') ⊆ issuers (e :: hist).
Proof.
  intros Ht Hdom Httl Hsz Hs. unfold seen.
  destruct (beq (ev_issuer e) []) eqn:Ei.
  { exists t. unfold replayed. rewrite Ei. split; [done|]. apply beq_eq in Ei. split.
    - apply tracker_ok_skip; [done|by left].
    - unfold issuers in *. simpl. set_solver. }
  apply beq_neq in Ei.
  assert (bool_decide (is_Some (wins t !! ev_issuer e)) &&
    (seqTrackerTTL <? t_sub (ev_at e) (default zero_time (lastSeen t !! ev_issuer e))) = false) as ->.
  { destruct (wins t !! ev_issuer e) as [w|] eqn:Ew; [|done].
    destruct (to_known _ _ Ht _ _ Ew) as (_ & _ & t0 & -> & Hin).
    apply list_elem_of_fmap in Hin as (e0 & -> & Hin). simpl.
    assert (ev_at e - ev_at e0 <= seqTrackerTTL) by (apply Httl; set_solver).
    apply Z.ltb_ge. unfold t_sub, max_i64, min_i64.
    change seqTrackerTTL with 3600000000000 in *. lia. }
  destruct (recordLocked_ok t hist e Ht Ei Hs) as (t' & -> & Ht' & Hd'). simpl.
  assert (dom (wins t') ⊆ issuers (e :: hist)) as Hsub by (unfold issuers in *; simpl; set_solver).
  assert ((seqTrackers <? size (wins t'))%nat = false) as ->.
  { apply Nat.ltb_ge. rewrite <- size_dom. etrans; [apply subseteq_size, Hsub|done]. }
  exists t'. done.
Qed.

Lemma run_ok order (evs hist : list event) (t : seqTracker) :
  tracker_ok t hist -> dom (wins t) ⊆ issuers hist ->
  within_ttl (evs ++ hist) -> (size (issuers (evs ++ hist)) <= seqTrackers)%nat ->
  Forall (fun e => 0 <= ev_seq e < 2^64 - 1) evs ->
  run order t evs = Some (spec_run hist evs).
Proof.
  revert hist t. induction evs as [|e evs IH]; intros hist t Ht Hd Httl Hsz Hs; [done|].
  apply Forall_cons in Hs as [He Hs]. cbn [run spec_run].
  destruct (seen_ok order t hist e Ht Hd) as (t' & -> & Ht' & Hd').
  - intros e1 e2 H1 H2. apply Httl; set_solver.
  - etrans; [|exact Hsz]. apply subseteq_size. unfold issuers. simpl.
    rewrite map_app, list_to_set_app. set_solver.
  - done.
  - simpl. rewrite (IH (e :: hist) t' Ht' Hd'); [done| | |done].
    + intros e1 e2 H1 H2. apply Httl; set_solver.
    + etrans; [|exact Hsz]. apply subseteq_size. unfold issuers. simpl.
      rewrite !map_app, !list_to_set_app. set_solver.
Qed.

Lemma tracker_ok_new : tracker_ok newSeqTracker [].
Proof. split; intros i; simpl; [intros w|intros _]; by rewrite lookup_empty. Qed.

(** ** Specification with forgetting *)

(** Per issuer: when its last event was accepted, and the numbers accepted. *)
Abbreviation sessions := (gmap bytes (Time * list Z)).

Definition too_old (now : Time) (x : Time * list Z) : Prop := seqTrackerTTL < t_sub now x.1.
#[export] Instance too_old_dec (now : Time) (x : Time * list Z) : Decision (too_old now x).
Proof. unfold too_old. apply _. Defined.

(** The numbers that count for [e]. *)
Definition remembered (s : sessions) (e : event) : list Z :=
  match s !! ev_issuer e with
  | Some x => if decide (too_old (ev_at e) x) then [] else x.2
  | None => []
  end.
Definition repeated (s : sessions) (e : event) : bool :=
  existsb (fun n => (n =? ev_seq e) || (ev_seq e + 4096 <=? n)) (remembered s e).
Definition accept (s : sessions) (e : event) : sessions :=
  if repeated s e then s else <[ev_issuer e := (ev_at e, ev_seq e :: remembered s e)]> s.

(** What is forgotten when there are too many issuers. *)
Inductive forgets (now : Time) (s : sessions) : sessions -> Prop :=
| forgets_old (k : bytes) (x : Time * list Z) :
    s !! k = Some x -> too_old now x -> forgets now s (base.filter (fun kx => ~ too_old now kx.2) s)
| forgets_one (k : bytes) (x : Time * list Z) :
    (forall k' x', s !! k' = Some x' -> ~ too_old now x' /\ x.1 <= x'.1) -> s !! k = Some x -> forgets now s (delete k s).

Inductive session_run : sessions -> list event -> list bool -> sessions -> Prop :=
| sr_done (s : sessions) : session_run s [] [] s
| sr_anonymous (s s' : sessions) (e : event) (evs : list event) (ds : list bool) :
    ev_issuer e = [] -> session_run s evs ds s' -> session_run s (e :: evs) (false :: ds) s'
| sr_event (s s1 s' : sessions) (e : event) (evs : list event) (ds : list bool) :
    ev_issuer e <> [] ->
    ((size (accept s e) <= seqTrackers)%nat /\ s1 = accept s e \/ (seqTrackers < size (accept s e))%nat /\ forgets (ev_at e) (accept s e) s1) ->
    session_run s1 evs ds s' -> session_run s (e :: evs) (repeated s e :: ds) s'.

(** The tracker holds a window for each session. *)
Definition tracks (t : seqTracker) (s : sessions) : Prop := forall i,
  match wins t !! i, lastSeen t !! i, s !! i with
  | Some w, Some t0, Some (t1, l) => t0 = t1 /\ win_ok w l
  | None, None, None => True
  | _, _, _ => False
  end.

Lemma tracks_new : tracks newSeqTracker ∅.
Proof. intros i. simpl. by rewrite !lookup_empty. Qed.

Lemma tracks_insert (t : seqTracker) (s : sessions) (i : bytes) (w : seqWindow) (at_ : Time) (l : list Z) :
  tracks t s -> win_ok w l -> tracks {| wins := <[i := w]> (wins t); lastSeen := <[i := at_]> (lastSeen t) |} (<[i := (at_, l)]> s).
Proof.
  intros Ht Hw j. simpl. destruct (decide (i = j)) as [<-|Hn]; [by rewrite !lookup_insert_eq|].
  rewrite !lookup_insert_ne by done. apply Ht.
Qed.

Lemma tracks_delete (t : seqTracker) (s : sessions) (i : bytes) : tracks t s -> tracks (drop_issuer t i) (delete i s).
Proof.
  intros Ht j. simpl. destruct (decide (i = j)) as [<-|Hn]; [by rewrite !lookup_delete_eq|]. rewrite !lookup_delete_ne by done. apply Ht.
Qed.

Lemma tracks_size (t : seqTracker) (s : sessions) : tracks t s -> size (wins t) = size s.
Proof.
  intros Ht. rewrite <- !size_dom. f_equal. apply set_eq. intros i. rewrite !elem_of_dom. specialize (Ht i).
  destruct (wins t !! i), (lastSeen t !! i), (s !! i) as [[]|]; try done; split; intros [? [=]]; eauto.
Qed.

Lemma tracks_last (t : seqTracker) (s : sessions) (i : bytes) (t0 : Time) : tracks t s ->
  lastSeen t !! i = Some t0 <-> exists l, s !! i = Some (t0, l).
Proof.
  intros Ht. specialize (Ht i). destruct (wins t !! i), (lastSeen t !! i), (s !! i) as [[t1 l]|]; try done.
  - destruct Ht as [-> _]. split; [intros [= ->]; eauto|by intros [? [= -> _]]].
  - split; [done|by intros [? [=]]].
Qed.

(** One event up to the count of issuers. *)
Lemma record_tracks (t : seqTracker) (s : sessions) (e : event) :
  tracks t s -> 0 <= ev_seq e < 2^64 - 1 ->
  let '(t0, w) :=
    if bool_decide (is_Some (wins t !! ev_issuer e)) && (seqTrackerTTL <? t_sub (ev_at e) (default zero_time (lastSeen t !! ev_issuer e)))
    then (drop_issuer t (ev_issuer e), None) else (t, wins t !! ev_issuer e) in
  exists t', recordLocked t0 w (ev_issuer e) (ev_seq e) (ev_at e) = Some (t', repeated s e) /\ tracks t' (accept s e).
Proof.
  intros Ht Hs. pose proof (Ht (ev_issuer e)) as Hi. unfold accept, repeated, remembered.
  assert (Hnew : win_ok (mark {| high := ev_seq e; bits := zero_bits |} (ev_seq e)) [ev_seq e]) by by apply win_ok_new.
  destruct (wins t !! ev_issuer e) as [w|] eqn:Ew, (lastSeen t !! ev_issuer e) as [t0|] eqn:El, (s !! ev_issuer e) as [[t1 l]|] eqn:Es; try done.
  2:{ cbn. eexists. split; [done|]. by apply tracks_insert. }
  destruct Hi as [-> Hw]. rewrite bool_decide_true by done. change (default zero_time (Some t1)) with t1. unfold too_old. cbn [andb fst snd].
  destruct (seqTrackerTTL <? t_sub (ev_at e) t1) eqn:Eo; bool_cases.
  - rewrite decide_True by done. cbn [recordLocked existsb]. eexists. split; [reflexivity|]. rewrite <- (insert_delete_eq s).
    apply (tracks_insert (drop_issuer t (ev_issuer e)) (delete (ev_issuer e) s)); [by apply tracks_delete|done].
  - rewrite decide_False by lia. cbn [recordLocked]. rewrite (existsb_seqs _ w) by (done || lia). pose proof (wo_top _ _ Hw) as Htop.
    destruct (high w <? ev_seq e) eqn:E1; bool_cases.
    { destruct (slideTo_ok w _ (ev_seq e) Hw) as (w' & -> & Hw'); [lia|]. simpl. eexists. split; [done|]. by apply tracks_insert. }
    rewrite u64_id by (unfold in_u64; lia). unfold seqDedupWindow.
    destruct (4096 <=? high w - ev_seq e) eqn:E2; bool_cases; [by exists t|]. destruct (has w (ev_seq e)); [by exists t|].
    eexists. split; [done|]. apply tracks_insert; [done|]. apply win_ok_mark; [done|lia|lia].
Qed.

(** *** Pruning *)

Lemma drops_lookup (ks : list bytes) (t : seqTracker) (i : bytes) :
  wins (foldl drop_issuer t ks) !! i = (if decide (i ∈ ks) then None else wins t !! i) /\
  lastSeen (foldl drop_issuer t ks) !! i = (if decide (i ∈ ks) then None else lastSeen t !! i).
Proof.
  revert t. induction ks as [|k ks IH]; intros t; cbn [foldl].
  - by rewrite decide_False by apply not_elem_of_nil.
  - destruct (IH (drop_issuer t k)) as [-> ->]. cbn [drop_issuer wins lastSeen]. destruct (decide (i = k)) as [->|Hn].
    + rewrite !lookup_delete_eq. rewrite !(decide_ext (k ∈ k :: ks) True) by (split; [done|intros _; apply list_elem_of_here]). by destruct (decide _).
    + rewrite !lookup_delete_ne by done. rewrite !(decide_ext (i ∈ k :: ks) (i ∈ ks)) by (rewrite elem_of_cons; tauto). done.
Qed.

Lemma oldest_fold (l : list (bytes * Time)) (acc : option (bytes * Time)) :
  match foldl oldest_step acc l with
  | Some kv => (kv ∈ l \/ acc = Some kv) /\ (forall x, x ∈ l -> kv.2 <= x.2) /\ (forall a, acc = Some a -> kv.2 <= a.2)
  | None => l = [] /\ acc = None
  end.
Proof.
  revert acc. induction l as [|x l IH]; intros acc; cbn [foldl].
  - destruct acc as [kv|]; [|done]. split_and!; [by right|intros x Hx; by apply not_elem_of_nil in Hx|by intros a [= <-]].
  - specialize (IH (oldest_step acc x)). destruct (foldl oldest_step (oldest_step acc x) l) as [kv|] eqn:E.
    + destruct IH as (H1 & H2 & H3).
      assert (oldest_step acc x = Some x \/ oldest_step acc x = acc /\ exists a, acc = Some a /\ a.2 <= x.2) as Hc.
      { unfold oldest_step. destruct acc as [[o ot]|]; [|by left]. unfold t_before. destruct (x.2 <? ot) eqn:Ex; [by left|].
        bool_cases. right. split; [done|]. by exists (o, ot). }
      assert (kv.2 <= x.2 /\ forall a, acc = Some a -> kv.2 <= a.2) as [Hx Ha].
      { unfold oldest_step in Hc, H3. destruct acc as [[o ot]|]; [|split; [by apply H3|done]].
        unfold t_before in H3. destruct (x.2 <? ot) eqn:Ex; bool_cases.
        - specialize (H3 _ eq_refl). split; [done|]. intros a [= <-]. simpl. lia.
        - specialize (H3 _ eq_refl). simpl in H3. split; [lia|]. by intros a [= <-]. }
      split_and!; [|intros y [->|Hy]%elem_of_cons; [done|auto]|done].
      destruct H1 as [H1|H1]; [left; by apply list_elem_of_further|]. destruct Hc as [Hc|[Hc _]]; rewrite Hc in H1;
        [injection H1 as <-; left; apply list_elem_of_here|by right].
    + destruct IH as [_ IH]. unfold oldest_step in IH. destruct acc as [[o ot]|]; [by destruct (t_before _ _)|done].
Qed.

Lemma prune_tracks (order : gmap bytes Time -> list (bytes * Time)) (t : seqTracker) (s : sessions) (now : Time) :
  (forall m, order m ≡ₚ map_to_list m) -> tracks t s -> s <> ∅ -> exists s', forgets now s s' /\ tracks (pruneLocked order t now) s'.
Proof.
  intros Ho Ht Hne. unfold pruneLocked.
  assert (Hin : forall k t0, (k, t0) ∈ order (lastSeen t) <-> exists l, s !! k = Some (t0, l)).
  { intros k t0. rewrite (Ho (lastSeen t)), elem_of_map_to_list. by apply tracks_last. }
  set (dead := List.filter (expired now) (order (lastSeen t))).
  assert (Hdead : forall k, k ∈ map fst dead <-> exists x, s !! k = Some x /\ too_old now x).
  { intros k. unfold dead. split.
    - intros ([k' t0] & -> & Hk)%list_elem_of_fmap. apply list_elem_of_In, filter_In in Hk as [Hk He]. apply list_elem_of_In, Hin in Hk as [l Hl].
      exists (t0, l). split; [done|]. unfold expired in He. by apply Z.ltb_lt in He.
    - intros ([t0 l] & Hk & Hold). apply list_elem_of_fmap. exists (k, t0). split; [done|]. apply list_elem_of_In, filter_In.
      split; [apply list_elem_of_In, Hin; eauto|]. by apply Z.ltb_lt. }
  destruct dead as [|d dead'] eqn:Ed; cbn [length Nat.eqb].
  - cbn [map foldl]. pose proof (oldest_fold (order (lastSeen t)) None) as Hf.
    destruct (foldl oldest_step None (order (lastSeen t))) as [[k t0]|].
    + destruct Hf as ([Hk|Hk] & Hmin & _); [|done]. destruct (proj1 (Hin _ _) Hk) as [l Hl]. exists (delete k s). split; [|by apply tracks_delete].
      apply (forgets_one now s k (t0, l)); [|done]. intros k' [t1 l1] Hk'. split.
      * intros Hold. apply (not_elem_of_nil k'), Hdead. eauto.
      * apply (Hmin (k', t1)), Hin. eauto.
    + destruct Hf as [Hf _]. destruct Hne. apply map_eq. intros k. rewrite lookup_empty. destruct (s !! k) as [[t0 l]|] eqn:Ek; [|done].
      exfalso. apply (not_elem_of_nil (k, t0)). rewrite <- Hf. apply Hin. eauto.
  - rewrite <- Ed in *. exists (base.filter (fun kx => ~ too_old now kx.2) s). split.
    + destruct (proj1 (Hdead d.1)) as (x & Hx & Hold); [rewrite Ed; apply list_elem_of_here|]. by eapply forgets_old.
    + intros i. destruct (drops_lookup (map fst dead) t i) as [E1 E2]. rewrite E1, E2. specialize (Ht i). destruct (decide (i ∈ map fst dead)) as [Hi|Hi].
      * apply Hdead in Hi as (x & Hx & Hold). rewrite (proj2 (map_lookup_filter_None _ _ _)); [done|]. right. intros y Hy. rewrite Hx in Hy.
        injection Hy as <-. cbn. tauto.
      * assert (base.filter (fun kx => ~ too_old now kx.2) s !! i = s !! i) as ->; [|done].
        destruct (s !! i) as [x|] eqn:Es; [|by apply map_lookup_filter_None; left]. apply map_lookup_filter_Some. split; [done|]. cbn.
        intros Hold. apply Hi, Hdead. eauto.
Qed.

Lemma forgets_size (now : Time) (s s' : sessions) (n : nat) : forgets now s s' -> (size s <= S n)%nat -> (size s' <= n)%nat.
Proof.
  intros [k x Hk Hold|k x _ Hk] Hn.
  - assert (base.filter (fun kx => ~ too_old now kx.2) s ⊆ delete k s) as Hsub.
    { apply map_subseteq_spec. intros i y [Hi Ho]%map_lookup_filter_Some. apply lookup_delete_Some. split; [|done].
      intros <-. rewrite Hk in Hi. injection Hi as <-. done. }
    apply map_subseteq_size in Hsub. rewrite map_size_delete, Hk in Hsub. lia.
  - rewrite map_size_delete, Hk. lia.
Qed.

Lemma accept_size (s : sessions) (e : event) : (size (accept s e) <= S (size s))%nat.
Proof. unfold accept. destruct (repeated s e); [lia|]. rewrite map_size_insert. destruct (s !! ev_issuer e); cbn; lia. Qed.

Lemma run_tracks (order : gmap bytes Time -> list (bytes * Time)) (evs : list event) (t : seqTracker) (s : sessions) :
  (forall m, order m ≡ₚ map_to_list m) -> tracks t s -> (size s <= seqTrackers)%nat -> Forall (fun e => 0 <= ev_seq e < 2^64 - 1) evs ->
  exists ds s', run order t evs = Some ds /\ session_run s evs ds s' /\ (size s' <= seqTrackers)%nat.
Proof.
  intros Ho. revert t s. induction evs as [|e evs IH]; intros t s Ht Hsz Hs; [exists [], s; split_and!; [done|constructor|done]|].
  apply Forall_cons in Hs as [He Hs]. cbn [run]. unfold seen. destruct (beq (ev_issuer e) []) eqn:Ei.
  - apply beq_eq in Ei. destruct (IH t s Ht Hsz Hs) as (ds & s' & Er & Hr & Hsz'). cbn [mbind option_bind fst snd]. rewrite Er. cbn [mbind option_bind].
    exists (false :: ds), s'. split_and!; [done|by apply sr_anonymous|done].
  - apply beq_neq in Ei. pose proof (record_tracks t s e Ht He) as Hrec.
    destruct (if bool_decide _ && _ then _ else _) as [t0 w]. destruct Hrec as (t1 & -> & Ht1). cbn [mbind option_bind]. rewrite (tracks_size _ _ Ht1).
    destruct (seqTrackers <? size (accept s e))%nat eqn:Eb.
    + apply Nat.ltb_lt in Eb. destruct (prune_tracks order t1 (accept s e) (ev_at e) Ho Ht1) as (s1 & Hf & Ht2); [intros E; rewrite E, map_size_empty in Eb; lia|].
      destruct (IH _ s1 Ht2) as (ds & s' & Er & Hr & Hsz'); [apply (forgets_size _ _ _ _ Hf); pose proof (accept_size s e); lia|done|]. cbn [mbind option_bind fst snd]. rewrite Er. cbn [mbind option_bind].
      exists (repeated s e :: ds), s'. split_and!; [done| |done]. eapply sr_event; [done|by right|done].
    + apply Nat.ltb_ge in Eb. destruct (IH _ (accept s e) Ht1 Eb Hs) as (ds & s' & Er & Hr & Hsz'). cbn [mbind option_bind fst snd]. rewrite Er. cbn [mbind option_bind].
      exists (repeated s e :: ds), s'. split_and!; [done| |done]. eapply sr_event; [done|by left|done].
Qed.

(** ** Properties *)

(** Within one TTL and from at most 256 issuers nothing is forgotten: the tracker
    drops exactly the events received before from the same issuer or 4096 or more
    behind one that was. *)
Theorem nothing_forgotten order (evs : list event)
    (Httl : within_ttl evs) (Hsz : (size (issuers evs) <= seqTrackers)%nat)
    (Hs : Forall (fun e => 0 <= ev_seq e < 2^64 - 1) evs) :
  run order newSeqTracker evs = Some (spec_run [] evs).
Proof. apply run_ok; rewrite ?app_nil_r; try done; apply tracker_ok_new. Qed.

(** C27. Exactly-once application, over any sequence of events, in any order, with
    any repetitions, arrival times and number of issuers: the tracker always
    answers, and its answers are those of the specification. An event is dropped
    exactly when its number, or one 4096 or more ahead of it, was accepted from
    the same issuer since that issuer was last forgotten; events without issuer
    never are. An issuer is forgotten when more than an hour has passed since its
    last accepted event, or when there is a 257th: then every issuer that old, or
    if there is none one whose last accepted event is the oldest; so at most 256
    are kept. Sequence numbers are below 2^64-1: on that one the code loops for
    ever ([max_seq_hangs]). *)
Theorem seq_tracker_refines_history (order : gmap bytes Time -> list (bytes * Time)) (evs : list event)
    (Horder : forall m, order m ≡ₚ map_to_list m) (Hs : Forall (fun e => 0 <= ev_seq e < 2^64 - 1) evs) :
  exists ds s, run order newSeqTracker evs = Some ds /\ session_run ∅ evs ds s /\ (size s <= seqTrackers)%nat.
Proof. apply run_tracks; [done|apply tracks_new|rewrite map_size_empty; apply Nat.le_0_l|done]. Qed.

(** On the greatest sequence number the loop of [slideTo] never ends: its
    counter wraps around and stays below the bound. *)
Lemma slide_loop_diverges (fuel : nat) (w : seqWindow) (s : Z) :
  in_u64 s -> slide_loop fuel w s (2^64 - 1) = None.
Proof.
  revert w s. induction fuel as [|fuel IH]; intros w s Hs; [done|]. cbn [slide_loop].
  rewrite (proj2 (Z.leb_le s (2^64 - 1))) by (unfold in_u64 in Hs; lia).
  apply IH. apply u64_range.
Qed.

Lemma max_seq_hangs (w : seqWindow) :
  2^64 - 1 - 4096 < high w < 2^64 - 1 -> slideTo w (2^64 - 1) = None.
Proof.
  intros Hh. unfold slideTo, seqDedupWindow. rewrite u64_id by (unfold in_u64; lia).
  rewrite (proj2 (Z.leb_gt 4096 (2^64 - 1 - high w))) by lia.
  by rewrite slide_loop_diverges by apply u64_range.
Qed.

(** A restarted issuer whose numbers start again is dropped until the old
    state expires: its events look like replays. *)
Lemma restart_is_dropped :
  run map_to_list newSeqTracker
    [MkEvent (bs "n1") 10000 0; MkEvent (bs "n1") 1 Second; MkEvent (bs "n1") 1 (2 * Hour)]
  = Some [false; true; false].
Proof. vm_compute. reflexivity. Qed.

(** ** Witnesses *)

Definition sample_events : list event :=
  [MkEvent (bs "a") 5 0; MkEvent (bs "b") 5 1; MkEvent (bs "a") 9 2; MkEvent (bs "a") 7 3;
   MkEvent (bs "a") 7 4; MkEvent (bs "a") 5 5; MkEvent [] 1 6; MkEvent [] 1 7].

Lemma seq_tracker_refines_history_witness :
  exists s, session_run ∅ (sample_events ++ [MkEvent (bs "a") 7 (2 * Hour)])
              [false; false; false; false; true; true; false; false; false] s /\ (size s <= seqTrackers)%nat.
Proof.
  destruct (seq_tracker_refines_history map_to_list (sample_events ++ [MkEvent (bs "a") 7 (2 * Hour)]))
    as (ds & s & E & Hr & Hsz).
  - intros m. reflexivity.
  - repeat (constructor; [simpl; lia|]). constructor.
  - exists s. split; [|exact Hsz]. vm_compute in E. injection E as <-. exact Hr.
Defined.
