(* ===== verification/ClusterCodec.v ===== *)
(** * internal/cluster/codec.go and codec_batch.go: wire frames of the cluster

    Encoders allocate a buffer and write into it at offsets; the model keeps
    the buffer and the offsets, and a write or slice out of range is [Panic].
    The layout of a payload is also given as a byte string ([purge_bytes]
    and so on); encoding is shown to produce it and decoding to invert it. *)

From S2P Require Import Prelude GoStd Api.

Definition binaryMagic : Z := 66.
Definition binaryVersion : Z := 3.
Definition binaryHdrLen : Z := 2.
Definition gossipHdrLen : Z := 3.
Definition maxStringLen : Z := 65535.
Definition msgTypePurge : Z := 1.
Definition msgTypeBan : Z := 2.
Definition msgTypeRefresh : Z := 3.
Definition msgTypePurgeBatch : Z := 4.
Definition msgTypeRefreshBatch : Z := 5.

Inductive cerr : Type :=
  | errShortFrame
  | errBadMagic
  | errUnsupportedVer (got : Z)
  | errStringTooLong
  | errWrongType (got want : Z)
  | errBatchCount (count : Z)
  | errTrailing (n : Z).

Inductive outcome (A : Type) : Type := Done (a : A) | Fail (e : cerr) | Panic.
Arguments Done {A} _.
Arguments Fail {A} _.
Arguments Panic {A}.

Definition obind {A B} (m : outcome A) (k : A -> outcome B) : outcome B :=
  match m with Done a => k a | Fail e => Fail e | Panic => Panic end.
Notation "'do!' x <- m ; k" := (obind m (fun x => k))
  (at level 100, x pattern, m at level 99, k at level 200, right associativity).

(** ** Events (pkg/api/cluster.go) *)

Record PurgeEvent : Type := MkPurge {
  p_IssuedAt : Time; p_VaryKey : bytes; p_Issuer : bytes; p_Seq : Z; p_Key : Key }.
Record BanExpr : Type := MkBanExpr {
  CreatedAt : Time; HostRegex : bytes; PathRegex : bytes; SurrogateKey : bytes }.
Record BanEvent : Type := MkBan {
  Predicate : BanExpr; b_IssuedAt : Time; b_Issuer : bytes; b_Seq : Z }.
Record RefreshEvent : Type := MkRefresh {
  r_IssuedAt : Time; r_Issuer : bytes; r_Seq : Z; r_Key : Key }.
(** [Weight] is the bit pattern of the float ([math.Float64bits]). *)
Record PeerInfo : Type := MkPeer {
  JoinedAt : Time; Name : bytes; Addr : bytes; AdminAddr : bytes; DataAddr : bytes;
  Version : bytes; Weight : Z }.
Record RingDigest : Type := MkDigest { d_Hash : Z; d_Size : Z; d_Version : Z }.

(** ** Buffers *)

Definition slice (buf : bytes) (off n : Z) : bytes := take (Z.to_nat n) (drop (Z.to_nat off) buf).

(** Store [src] at [off]; out of range is a panic. *)
Definition store (buf : bytes) (off : Z) (src : bytes) : outcome bytes :=
  if (0 <=? off) && (off + len src <=? len buf)
  then Done (take (Z.to_nat off) buf ++ src ++ drop (Z.to_nat (off + len src)) buf)
  else Panic.

(** [copy(buf[off:], src)]: as much as fits. *)
Definition copy_at (buf : bytes) (off : Z) (src : bytes) : outcome bytes :=
  if (0 <=? off) && (off <=? len buf)
  then store buf off (take (Z.to_nat (len buf - off)) src) else Panic.

Definition put16 (buf : bytes) (off v : Z) : outcome bytes := store buf off (put_le 2 v).
Definition put32 (buf : bytes) (off v : Z) : outcome bytes := store buf off (put_le 4 v).
Definition put64 (buf : bytes) (off v : Z) : outcome bytes := store buf off (put_le 8 v).

Definition load (buf : bytes) (off n : Z) : outcome Z :=
  if (0 <=? off) && (off + n <=? len buf) then Done (get_le (slice buf off n)) else Panic.

Definition byte_at (buf : bytes) (i : Z) : outcome Z :=
  match buf !! Z.to_nat i with Some b => Done (Zb b) | None => Panic end.

Definition encodeTime (t : Time) : Z := if is_zero t then 0 else unix_nano t.
Definition decodeTime (nano : Z) : Time := if nano =? 0 then zero_time else nano.

Definition putString (buf : bytes) (offset : Z) (s : bytes) : outcome (bytes * Z) :=
  if maxStringLen <? len s then Fail errStringTooLong
  else
    do! buf <- put16 buf offset (len s);
    let offset := offset + 2 in
    do! buf <- copy_at buf offset s;
    Done (buf, offset + len s).

Definition readString (buf : bytes) (offset : Z) : outcome (bytes * Z) :=
  if len buf <? offset + 2 then Fail errShortFrame
  else
    do! n <- load buf offset 2;
    let offset := offset + 2 in
    if len buf <? offset + n then Fail errShortFrame
    else Done (slice buf offset n, offset + n).

(** ** Frames *)

Definition encodeFrame (total msgType : Z) (put : bytes -> Z -> outcome (bytes * Z)) : outcome bytes :=
  let buf := replicate (Z.to_nat total) x00 in
  do! buf <- store buf 0 [bZ binaryMagic];
  do! buf <- store buf 1 [bZ binaryVersion];
  do! (buf, off) <- (if negb (msgType =? 0)
                      then do! buf <- store buf 2 [bZ msgType]; Done (buf, gossipHdrLen)
                      else Done (buf, binaryHdrLen));
  do! (buf, off) <- put buf off;
  if (0 <=? off) && (off <=? len buf) then Done (take (Z.to_nat off) buf) else Panic.

Definition decodeFrame {A} (buf : bytes) (wantType : Z) (decode : bytes -> Z -> outcome A) : outcome A :=
  let hdrLen := if negb (wantType =? 0) then gossipHdrLen else binaryHdrLen in
  if len buf <? hdrLen then Fail errShortFrame
  else
    do! b0 <- byte_at buf 0;
    if negb (b0 =? binaryMagic) then Fail errBadMagic
    else
      do! b1 <- byte_at buf 1;
      if negb (b1 =? binaryVersion) then Fail (errUnsupportedVer b1)
      else if negb (wantType =? 0) then
        do! b2 <- byte_at buf 2;
        if negb (b2 =? wantType) then Fail (errWrongType b2 wantType) else decode buf hdrLen
      else decode buf hdrLen.

Definition frameLen (gossip : bool) (payloadLen : Z) : Z :=
  if gossip then gossipHdrLen + payloadLen else binaryHdrLen + payloadLen.

(** ** Purge events *)

Definition purgePayloadLen (evt : PurgeEvent) : Z :=
  16 + 2 + len (p_VaryKey evt) + 2 + len (p_Issuer evt) + 8 + 8.

Definition putPurgePayload (buf : bytes) (off : Z) (evt : PurgeEvent) : outcome (bytes * Z) :=
  do! buf <- store buf off (p_Key evt);
  let off := off + 16 in
  do! (buf, off) <- putString buf off (p_VaryKey evt);
  do! (buf, off) <- putString buf off (p_Issuer evt);
  do! buf <- put64 buf off (u64 (encodeTime (p_IssuedAt evt)));
  let off := off + 8 in
  do! buf <- put64 buf off (p_Seq evt);
  Done (buf, off + 8).

Definition decodePurgePayload (buf : bytes) (off : Z) : outcome PurgeEvent :=
  if len buf <? off + 16 then Fail errShortFrame
  else
    let key := slice buf off 16 in
    let off := off + 16 in
    do! (vk, off) <- readString buf off;
    do! (issuer, off) <- readString buf off;
    if len buf <? off + 16 then Fail errShortFrame
    else
      do! at_ <- load buf off 8;
      let off := off + 8 in
      do! seq <- load buf off 8;
      Done {| p_IssuedAt := decodeTime (i64 at_); p_VaryKey := vk; p_Issuer := issuer;
              p_Seq := seq; p_Key := key |}.

Definition EncodePurgeGossip (evt : PurgeEvent) : outcome bytes :=
  encodeFrame (frameLen true (purgePayloadLen evt)) msgTypePurge
    (fun buf off => putPurgePayload buf off evt).
Definition EncodePurgeHTTP (evt : PurgeEvent) : outcome bytes :=
  encodeFrame (frameLen false (purgePayloadLen evt)) 0 (fun buf off => putPurgePayload buf off evt).
Definition DecodePurgeGossip (buf : bytes) : outcome PurgeEvent :=
  decodeFrame buf msgTypePurge decodePurgePayload.
Definition DecodePurgeHTTP (buf : bytes) : outcome PurgeEvent :=
  decodeFrame buf 0 decodePurgePayload.

(** ** Ban events *)

Definition banPayloadLen (evt : BanEvent) : Z :=
  2 + len (HostRegex (Predicate evt)) + 2 + len (PathRegex (Predicate evt))
  + 2 + len (SurrogateKey (Predicate evt)) + 8 + 2 + len (b_Issuer evt) + 8 + 8.

Definition putBanPayload (buf : bytes) (off : Z) (evt : BanEvent) : outcome (bytes * Z) :=
  do! (buf, off) <- putString buf off (HostRegex (Predicate evt));
  do! (buf, off) <- putString buf off (PathRegex (Predicate evt));
  do! (buf, off) <- putString buf off (SurrogateKey (Predicate evt));
  do! buf <- put64 buf off (u64 (encodeTime (CreatedAt (Predicate evt))));
  let off := off + 8 in
  do! (buf, off) <- putString buf off (b_Issuer evt);
  do! buf <- put64 buf off (u64 (encodeTime (b_IssuedAt evt)));
  let off := off + 8 in
  do! buf <- put64 buf off (b_Seq evt);
  Done (buf, off + 8).

Definition decodeBanPayload (buf : bytes) (off : Z) : outcome BanEvent :=
  do! (host, off) <- readString buf off;
  do! (path, off) <- readString buf off;
  do! (sk, off) <- readString buf off;
  if len buf <? off + 8 then Fail errShortFrame
  else
    do! created <- load buf off 8;
    let off := off + 8 in
    do! (issuer, off) <- readString buf off;
    if len buf <? off + 16 then Fail errShortFrame
    else
      do! at_ <- load buf off 8;
      let off := off + 8 in
      do! seq <- load buf off 8;
      Done {| Predicate := {| CreatedAt := decodeTime (i64 created); HostRegex := host;
                              PathRegex := path; SurrogateKey := sk |};
              b_IssuedAt := decodeTime (i64 at_); b_Issuer := issuer; b_Seq := seq |}.

Definition EncodeBanGossip (evt : BanEvent) : outcome bytes :=
  encodeFrame (frameLen true (banPayloadLen evt)) msgTypeBan (fun buf off => putBanPayload buf off evt).
Definition EncodeBanHTTP (evt : BanEvent) : outcome bytes :=
  encodeFrame (frameLen false (banPayloadLen evt)) 0 (fun buf off => putBanPayload buf off evt).
Definition DecodeBanGossip (buf : bytes) : outcome BanEvent :=
  decodeFrame buf msgTypeBan decodeBanPayload.
Definition DecodeBanHTTP (buf : bytes) : outcome BanEvent := decodeFrame buf 0 decodeBanPayload.

(** ** Refresh events *)

Definition refreshPayloadLen (evt : RefreshEvent) : Z := 16 + 2 + len (r_Issuer evt) + 8 + 8.

Definition putRefreshPayload (buf : bytes) (off : Z) (evt : RefreshEvent) : outcome (bytes * Z) :=
  do! buf <- store buf off (r_Key evt);
  let off := off + 16 in
  do! (buf, off) <- putString buf off (r_Issuer evt);
  do! buf <- put64 buf off (u64 (encodeTime (r_IssuedAt evt)));
  let off := off + 8 in
  do! buf <- put64 buf off (r_Seq evt);
  Done (buf, off + 8).

Definition decodeRefreshPayload (buf : bytes) (off : Z) : outcome RefreshEvent :=
  if len buf <? off + 16 then Fail errShortFrame
  else
    let key := slice buf off 16 in
    let off := off + 16 in
    do! (issuer, off) <- readString buf off;
    if len buf <? off + 16 then Fail errShortFrame
    else
      do! at_ <- load buf off 8;
      let off := off + 8 in
      do! seq <- load buf off 8;
      Done {| r_IssuedAt := decodeTime (i64 at_); r_Issuer := issuer; r_Seq := seq; r_Key := key |}.

Definition EncodeRefreshGossip (evt : RefreshEvent) : outcome bytes :=
  encodeFrame (frameLen true (refreshPayloadLen evt)) msgTypeRefresh
    (fun buf off => putRefreshPayload buf off evt).
Definition EncodeRefreshHTTP (evt : RefreshEvent) : outcome bytes :=
  encodeFrame (frameLen false (refreshPayloadLen evt)) 0 (fun buf off => putRefreshPayload buf off evt).
Definition DecodeRefreshGossip (buf : bytes) : outcome RefreshEvent :=
  decodeFrame buf msgTypeRefresh decodeRefreshPayload.
Definition DecodeRefreshHTTP (buf : bytes) : outcome RefreshEvent :=
  decodeFrame buf 0 decodeRefreshPayload.

Definition IsBinaryFrame (msg : bytes) : bool :=
  match msg with b :: _ => Zb b =? binaryMagic | [] => false end.

Definition GossipMsgType (msg : bytes) : Z :=
  if negb (IsBinaryFrame msg) || (len msg <? gossipHdrLen) then 0
  else match msg !! 2%nat with Some b => Zb b | None => 0 end.

(** ** Peer metadata and ring digests *)

Definition peerInfoStrings (info : PeerInfo) : list bytes :=
  [Name info; Addr info; AdminAddr info; DataAddr info; Version info].

Definition peerInfoPayloadLen (info : PeerInfo) : Z :=
  8 + 5 * 2 + len (Name info) + len (Addr info) + len (AdminAddr info) + len (DataAddr info)
  + len (Version info) + 8.

(** The loop over the strings; an error of [putString] is ignored. *)
Fixpoint putStrings (buf : bytes) (off : Z) (l : list bytes) : outcome (bytes * Z) :=
  match l with
  | [] => Done (buf, off)
  | s :: l =>
      match putString buf off s with
      | Done (buf, off) => putStrings buf off l
      | Fail _ => putStrings buf off l
      | Panic => Panic
      end
  end.

Definition putPeerInfoPayload (buf : bytes) (off : Z) (info : PeerInfo) : outcome (bytes * Z) :=
  do! buf <- put64 buf off (u64 (encodeTime (JoinedAt info)));
  let off := off + 8 in
  do! (buf, off) <- putStrings buf off (peerInfoStrings info);
  do! buf <- put64 buf off (Weight info);
  Done (buf, off + 8).

Definition readPeerInfoPayload (buf : bytes) (off : Z) : outcome (PeerInfo * Z) :=
  if len buf <? off + 8 then Fail errShortFrame
  else
    do! joined <- load buf off 8;
    let off := off + 8 in
    do! (name, off) <- readString buf off;
    do! (addr, off) <- readString buf off;
    do! (adm, off) <- readString buf off;
    do! (dat, off) <- readString buf off;
    do! (ver, off) <- readString buf off;
    if len buf <? off + 8 then Fail errShortFrame
    else
      do! w <- load buf off 8;
      Done ({| JoinedAt := decodeTime (i64 joined); Name := name; Addr := addr; AdminAddr := adm;
               DataAddr := dat; Version := ver; Weight := w |}, off + 8).

Definition EncodePeerInfoMeta (info : PeerInfo) : outcome bytes :=
  if existsb (fun s => maxStringLen <? len s) (peerInfoStrings info) then Fail errStringTooLong
  else
    let buf := replicate (Z.to_nat (binaryHdrLen + peerInfoPayloadLen info)) x00 in
    do! buf <- store buf 0 [bZ binaryMagic];
    do! buf <- store buf 1 [bZ binaryVersion];
    do! (buf, _) <- putPeerInfoPayload buf binaryHdrLen info;
    Done buf.

Definition DecodePeerInfoMeta (buf : bytes) : outcome PeerInfo :=
  if len buf <? binaryHdrLen then Fail errShortFrame
  else
    do! b0 <- byte_at buf 0;
    if negb (b0 =? binaryMagic) then Fail errBadMagic
    else
      do! b1 <- byte_at buf 1;
      if negb (b1 =? binaryVersion) then Fail (errUnsupportedVer b1)
      else do! (info, _) <- readPeerInfoPayload buf binaryHdrLen; Done info.

Definition encodeRingDigestPayload (buf : bytes) (off : Z) (d : RingDigest) : outcome (bytes * Z) :=
  do! buf <- put64 buf off (d_Hash d);
  do! buf <- put64 buf (off + 8) (u64 (d_Size d));
  do! buf <- put64 buf (off + 16) (d_Version d);
  Done (buf, off + 24).

Definition EncodeRingDigestState (d : RingDigest) : outcome bytes :=
  let buf := replicate (Z.to_nat (binaryHdrLen + 24)) x00 in
  do! buf <- store buf 0 [bZ binaryMagic];
  do! buf <- store buf 1 [bZ binaryVersion];
  do! (buf, _) <- encodeRingDigestPayload buf binaryHdrLen d;
  Done buf.

Definition DecodeRingDigestState (buf : bytes) : outcome RingDigest :=
  if len buf <? binaryHdrLen + 24 then Fail errShortFrame
  else
    do! b0 <- byte_at buf 0;
    if negb (b0 =? binaryMagic) then Fail errBadMagic
    else
      do! b1 <- byte_at buf 1;
      if negb (b1 =? binaryVersion) then Fail (errUnsupportedVer b1)
      else
        let off := binaryHdrLen in
        do! h <- load buf off 8;
        do! sz <- load buf (off + 8) 8;
        do! v <- load buf (off + 16) 8;
        Done {| d_Hash := h; d_Size := i64 sz; d_Version := v |}.

(** ** Batches (codec_batch.go) *)

Definition batchMaxEvents : Z := 4096.
Definition batchCountLen : Z := 4.
Definition gossipFrameBudget : Z := 1300.

Record batchCodec (E : Type) : Type := MkBatch {
  c_payloadLen : E -> Z;
  c_put : bytes -> Z -> E -> outcome (bytes * Z);
  c_decodeOne : bytes -> Z -> outcome (E * Z);
  c_msgType : Z;
  c_gossip : bool;
}.
Arguments c_payloadLen {E} _ _.
Arguments c_put {E} _ _ _ _.
Arguments c_decodeOne {E} _ _ _.
Arguments c_msgType {E} _.
Arguments c_gossip {E} _.

Section Batch.
Context {E : Type} (c : batchCodec E).

Fixpoint putAll (buf : bytes) (o : Z) (evts : list E) : outcome (bytes * Z) :=
  match evts with
  | [] => Done (buf, o)
  | e :: evts => do! (buf, o) <- c_put c buf o e; putAll buf o evts
  end.

Definition batch_encode (evts : list E) : outcome bytes :=
  let total := foldl (fun t e => t + c_payloadLen c e) (frameLen (c_gossip c) batchCountLen) evts in
  encodeFrame total (c_msgType c) (fun buf o =>
    do! buf <- put32 buf o (u32 (len evts));
    putAll buf (o + batchCountLen) evts).

Fixpoint decodeAll (count : nat) (buf : bytes) (off : Z) : outcome (list E * Z) :=
  match count with
  | O => Done ([], off)
  | S count =>
      do! (evt, next) <- c_decodeOne c buf off;
      do! (evts, off) <- decodeAll count buf next;
      Done (evt :: evts, off)
  end.

Definition batch_decode (buf : bytes) : outcome (list E) :=
  decodeFrame buf (c_msgType c) (fun buf off =>
    if len buf <? off + batchCountLen then Fail errShortFrame
    else
      do! count <- load buf off 4;
      if batchMaxEvents <? count then Fail (errBatchCount count)
      else
        do! (evts, off) <- decodeAll (Z.to_nat count) buf (off + batchCountLen);
        if negb (off =? len buf) then Fail (errTrailing (len buf - off)) else Done evts).

(** The inner loop of [encodeBudgeted]: how many of [evts] go into the frame
    of current size [frame]; [fst_] tells the first event. *)
Fixpoint fill_frame (budget frame : Z) (fst_ : bool) (evts : list E) : nat :=
  match evts with
  | [] => 0
  | e :: evts =>
      let n := frame + c_payloadLen c e in
      if negb fst_ && (budget <? n) then 0 else S (fill_frame budget n false evts)
  end.

(** The outer loop; every round takes at least one event, so the number of
    events bounds the rounds. *)
Fixpoint split_frames (fuel : nat) (budget : Z) (evts : list E) : outcome (list bytes) :=
  match fuel, evts with
  | S fuel, _ :: _ =>
      let k := fill_frame budget (frameLen (c_gossip c) batchCountLen) true evts in
      do! body <- batch_encode (take k evts);
      do! frames <- split_frames fuel budget (drop k evts);
      Done (body :: frames)
  | _, _ => Done []
  end.

Definition encodeBudgeted (evts : list E) (budget : Z) : outcome (list bytes) :=
  if len evts =? 0 then Done []
  else if budget <=? 0 then do! body <- batch_encode evts; Done [body]
  else split_frames (length evts) budget evts.
End Batch.

Definition decodePurgePayloadBounded (buf : bytes) (off : Z) : outcome (PurgeEvent * Z) :=
  do! evt <- decodePurgePayload buf off;
  let consumed := 16 in
  if len buf <? off + consumed then Fail errShortFrame
  else
    do! vkLen <- load buf (off + 16) 2;
    let consumed := consumed + (2 + vkLen) in
    if len buf <? off + consumed + 2 then Fail errShortFrame
    else
      do! issuerLen <- load buf (off + consumed) 2;
      let consumed := consumed + (2 + issuerLen + 16) in
      if len buf <? off + consumed then Fail errShortFrame
      else Done (evt, off + consumed).

Definition decodeRefreshPayloadBounded (buf : bytes) (off : Z) : outcome (RefreshEvent * Z) :=
  do! evt <- decodeRefreshPayload buf off;
  if len buf <? off + 16 + 2 then Fail errShortFrame
  else
    do! issuerLen <- load buf (off + 16) 2;
    let consumed := 16 + 2 + issuerLen + 16 in
    if len buf <? off + consumed then Fail errShortFrame
    else Done (evt, off + consumed).

Definition purgeBatchGossip : batchCodec PurgeEvent :=
  {| c_msgType := msgTypePurgeBatch; c_gossip := true; c_payloadLen := purgePayloadLen;
     c_put := putPurgePayload; c_decodeOne := decodePurgePayloadBounded |}.
Definition purgeBatchHTTP : batchCodec PurgeEvent :=
  {| c_msgType := 0; c_gossip := false; c_payloadLen := purgePayloadLen;
     c_put := putPurgePayload; c_decodeOne := decodePurgePayloadBounded |}.
Definition refreshBatchGossip : batchCodec RefreshEvent :=
  {| c_msgType := msgTypeRefreshBatch; c_gossip := true; c_payloadLen := refreshPayloadLen;
     c_put := putRefreshPayload; c_decodeOne := decodeRefreshPayloadBounded |}.
Definition refreshBatchHTTP : batchCodec RefreshEvent :=
  {| c_msgType := 0; c_gossip := false; c_payloadLen := refreshPayloadLen;
     c_put := putRefreshPayload; c_decodeOne := decodeRefreshPayloadBounded |}.

Definition EncodePurgeBatchGossip := batch_encode purgeBatchGossip.
Definition EncodePurgeBatchGossipBudgeted := encodeBudgeted purgeBatchGossip.
Definition DecodePurgeBatchGossip := batch_decode purgeBatchGossip.
Definition EncodePurgeBatchHTTP := batch_encode purgeBatchHTTP.
Definition DecodePurgeBatchHTTP := batch_decode purgeBatchHTTP.
Definition EncodeRefreshBatchGossip := batch_encode refreshBatchGossip.
Definition EncodeRefreshBatchGossipBudgeted := encodeBudgeted refreshBatchGossip.
Definition DecodeRefreshBatchGossip := batch_decode refreshBatchGossip.
Definition EncodeRefreshBatchHTTP := batch_encode refreshBatchHTTP.
Definition DecodeRefreshBatchHTTP := batch_decode refreshBatchHTTP.

(** ** Layout of the payloads *)

Definition str_bytes (s : bytes) : bytes := put_le 2 (len s) ++ s.
Definition time_bytes (t : Time) : bytes := put_le 8 (u64 (encodeTime t)).

Definition purge_bytes (e : PurgeEvent) : bytes :=
  p_Key e ++ str_bytes (p_VaryKey e) ++ str_bytes (p_Issuer e) ++ time_bytes (p_IssuedAt e)
  ++ put_le 8 (p_Seq e).
Definition ban_bytes (e : BanEvent) : bytes :=
  str_bytes (HostRegex (Predicate e)) ++ str_bytes (PathRegex (Predicate e))
  ++ str_bytes (SurrogateKey (Predicate e)) ++ time_bytes (CreatedAt (Predicate e))
  ++ str_bytes (b_Issuer e) ++ time_bytes (b_IssuedAt e) ++ put_le 8 (b_Seq e).
Definition refresh_bytes (e : RefreshEvent) : bytes :=
  r_Key e ++ str_bytes (r_Issuer e) ++ time_bytes (r_IssuedAt e) ++ put_le 8 (r_Seq e).
Definition peer_bytes (p : PeerInfo) : bytes :=
  time_bytes (JoinedAt p) ++ str_bytes (Name p) ++ str_bytes (Addr p) ++ str_bytes (AdminAddr p)
  ++ str_bytes (DataAddr p) ++ str_bytes (Version p) ++ put_le 8 (Weight p).

Definition header_bytes (msgType : Z) : bytes :=
  [bZ binaryMagic; bZ binaryVersion] ++ (if msgType =? 0 then [] else [bZ msgType]).

(** Strings that fit, instants that survive the trip (the zero time, or one in
    the range of nanoseconds other than the epoch itself). *)
Definition fits (s : bytes) : Prop := len s <= maxStringLen.
Definition wire_time (t : Time) : Prop := t = zero_time \/ (in_i64 t /\ t <> 0).

Record purge_ok (e : PurgeEvent) : Prop := {
  po_key : wf_key (p_Key e); po_vary : fits (p_VaryKey e); po_issuer : fits (p_Issuer e);
  po_time : wire_time (p_IssuedAt e); po_seq : in_u64 (p_Seq e) }.
Record ban_ok (e : BanEvent) : Prop := {
  bo_host : fits (HostRegex (Predicate e)); bo_path : fits (PathRegex (Predicate e));
  bo_sk : fits (SurrogateKey (Predicate e)); bo_created : wire_time (CreatedAt (Predicate e));
  bo_issuer : fits (b_Issuer e); bo_time : wire_time (b_IssuedAt e); bo_seq : in_u64 (b_Seq e) }.
Record refresh_ok (e : RefreshEvent) : Prop := {
  ro_key : wf_key (r_Key e); ro_issuer : fits (r_Issuer e);
  ro_time : wire_time (r_IssuedAt e); ro_seq : in_u64 (r_Seq e) }.

(** ** Writing at a cursor *)

(** [buf] starts with [pre], which ends at [off], and has [room] bytes more. *)
Definition wr (buf : bytes) (off : Z) (pre : bytes) (room : Z) : Prop :=
  off = len pre /\ exists post, buf = pre ++ post /\ len post = room.

Lemma to_nat_len {A} (l : list A) : Z.to_nat (len l) = length l.
Proof. unfold len. lia. Qed.

Lemma store_wr (buf : bytes) (off : Z) (pre : bytes) (room : Z) (src : bytes) :
  wr buf off pre room -> len src <= room ->
  exists buf', store buf off src = Done buf' /\ wr buf' (off + len src) (pre ++ src) (room - len src).
Proof.
  intros (-> & post & -> & <-) Hl. unfold store.
  pose proof (len_nonneg pre). pose proof (len_nonneg src).
  rewrite (proj2 (Z.leb_le 0 _)), (proj2 (Z.leb_le _ _)) by (rewrite ?len_app; lia). simpl.
  eexists. split; [reflexivity|]. split; [by rewrite len_app|].
  exists (drop (length src) post). split.
  - rewrite to_nat_len, take_app_length, <- app_assoc. f_equal. f_equal.
    rewrite Z2Nat.inj_add, !to_nat_len by lia. by rewrite <- drop_drop, drop_app_length.
  - unfold len in *. rewrite length_drop. lia.
Qed.

Lemma putString_wr (buf : bytes) (off : Z) (pre : bytes) (room : Z) (s : bytes) :
  wr buf off pre room -> fits s -> 2 + len s <= room ->
  exists buf', putString buf off s = Done (buf', off + 2 + len s) /\
    wr buf' (off + 2 + len s) (pre ++ str_bytes s) (room - (2 + len s)).
Proof.
  intros Hw Hf Hl. unfold putString, put16, copy_at. pose proof (len_nonneg s) as Hs.
  rewrite (proj2 (Z.ltb_ge _ _) Hf).
  destruct (store_wr buf off pre room (put_le 2 (len s)) Hw) as (b1 & -> & Hw1).
  { unfold len. rewrite length_put_le. lia. }
  simpl. change (len (put_le 2 (len s))) with 2 in Hw1.
  assert (0 <= off + 2 /\ len b1 = off + 2 + (room - 2)) as [Ho Hb].
  { destruct Hw1 as (E & post & -> & Hp). rewrite (len_app _ post), Hp, E.
    pose proof (len_nonneg (pre ++ put_le 2 (len s))). lia. }
  rewrite (proj2 (Z.leb_le 0 _)), (proj2 (Z.leb_le _ (len b1))) by lia. simpl.
  rewrite take_ge by (unfold len in *; lia).
  destruct (store_wr b1 (off + 2) _ _ s Hw1) as (b2 & -> & Hw2); [lia|]. simpl.
  exists b2. split; [done|]. unfold str_bytes. rewrite app_assoc.
  replace (room - (2 + len s)) with (room - 2 - len s) by lia. done.
Qed.

Lemma put64_wr (buf : bytes) (off : Z) (pre : bytes) (room v : Z) :
  wr buf off pre room -> 8 <= room ->
  exists buf', put64 buf off v = Done buf' /\ wr buf' (off + 8) (pre ++ put_le 8 v) (room - 8).
Proof.
  intros Hw Hl. destruct (store_wr buf off pre room (put_le 8 v) Hw Hl) as (b & ? & ?). eauto.
Qed.

(** One step of a chain of writes. *)
Ltac write_step :=
  match goal with
  | Hw : wr ?b ?o ?p ?r |- context [store ?b ?o ?s] =>
      destruct (store_wr b o p r s Hw) as (? & -> & ?); [try lia|clear Hw; cbn [obind]]
  | Hw : wr ?b ?o ?p ?r |- context [putString ?b ?o ?s] =>
      destruct (putString_wr b o p r s Hw) as (? & -> & ?); [try done|try lia|clear Hw; cbn [obind]]
  | Hw : wr ?b ?o ?p ?r |- context [put64 ?b ?o ?v] =>
      destruct (put64_wr b o p r v Hw) as (? & -> & ?); [try lia|clear Hw; cbn [obind]]
  end.

(** What a payload writer must do for [encodeFrame]. *)
Definition writes {A} (put : bytes -> Z -> A -> outcome (bytes * Z)) (a : A) (out : bytes) : Prop :=
  forall buf off pre room, wr buf off pre room -> len out <= room ->
  exists buf', put buf off a = Done (buf', off + len out) /\
    wr buf' (off + len out) (pre ++ out) (room - len out).

Lemma len_str_bytes (s : bytes) : len (str_bytes s) = 2 + len s.
Proof. unfold str_bytes. rewrite len_app, len_put_le. done. Qed.

Lemma len_key (k : Key) : wf_key k -> len k = 16.
Proof. unfold wf_key, len. intros ->. done. Qed.

Ltac finish_write :=
  eexists; split; [f_equal; f_equal; lia|];
  match goal with H : wr ?b ?o ?p ?r |- wr ?b ?o' ?p' ?r' =>
    replace o' with o by lia; replace r' with r by lia; rewrite <- ?app_assoc in H; exact H end.

Lemma putPurgePayload_writes (e : PurgeEvent) :
  purge_ok e -> len (purge_bytes e) = purgePayloadLen e /\ writes putPurgePayload e (purge_bytes e).
Proof.
  intros [Hk Hv Hi _ _]. apply len_key in Hk. pose proof (len_nonneg (p_VaryKey e)).
  pose proof (len_nonneg (p_Issuer e)).
  assert (len (purge_bytes e) = purgePayloadLen e) as Hl.
  { unfold purge_bytes, time_bytes, purgePayloadLen. rewrite !len_app, !len_str_bytes, !len_put_le. lia. }
  split; [done|]. intros buf off pre room Hw Hr. rewrite Hl in *. unfold purgePayloadLen in *.
  unfold putPurgePayload. write_step. rewrite Hk in *. repeat write_step. finish_write.
Qed.

Lemma putBanPayload_writes (e : BanEvent) :
  ban_ok e -> len (ban_bytes e) = banPayloadLen e /\ writes putBanPayload e (ban_bytes e).
Proof.
  intros [Hh Hp Hs _ Hi _ _]. pose proof (len_nonneg (HostRegex (Predicate e))).
  pose proof (len_nonneg (PathRegex (Predicate e))). pose proof (len_nonneg (SurrogateKey (Predicate e))).
  pose proof (len_nonneg (b_Issuer e)).
  assert (len (ban_bytes e) = banPayloadLen e) as Hl.
  { unfold ban_bytes, time_bytes, banPayloadLen. rewrite !len_app, !len_str_bytes, !len_put_le. lia. }
  split; [done|]. intros buf off pre room Hw Hr. rewrite Hl in *. unfold banPayloadLen in *.
  unfold putBanPayload. repeat write_step. finish_write.
Qed.

Lemma putRefreshPayload_writes (e : RefreshEvent) :
  refresh_ok e -> len (refresh_bytes e) = refreshPayloadLen e /\ writes putRefreshPayload e (refresh_bytes e).
Proof.
  intros [Hk Hi _ _]. apply len_key in Hk. pose proof (len_nonneg (r_Issuer e)).
  assert (len (refresh_bytes e) = refreshPayloadLen e) as Hl.
  { unfold refresh_bytes, time_bytes, refreshPayloadLen. rewrite !len_app, !len_str_bytes, !len_put_le. lia. }
  split; [done|]. intros buf off pre room Hw Hr. rewrite Hl in *. unfold refreshPayloadLen in *.
  unfold putRefreshPayload. write_step. rewrite Hk in *. repeat write_step. finish_write.
Qed.

Lemma len_header (mt : Z) : len (header_bytes mt) = if mt =? 0 then 2 else 3.
Proof. unfold header_bytes. by destruct (mt =? 0). Qed.

Lemma store1_wr (buf : bytes) (off : Z) (pre : bytes) (room : Z) (b : byte) :
  wr buf off pre room -> 1 <= room ->
  exists buf', store buf off [b] = Done buf' /\ wr buf' (off + 1) (pre ++ [b]) (room - 1).
Proof. intros Hw Hr. by apply store_wr. Qed.

(** The payload and the final slice, once the header is written. *)
Lemma frame_tail {A} (put : bytes -> Z -> A -> outcome (bytes * Z)) (a : A) (out buf pre : bytes) :
  writes put a out -> wr buf (len pre) pre (len out) ->
  (do! (buf, off) <- put buf (len pre) a;
   if (0 <=? off) && (off <=? len buf) then Done (take (Z.to_nat off) buf) else Panic)
  = Done (pre ++ out).
Proof.
  intros Hp Hb. destruct (Hp buf _ pre _ Hb) as (b' & -> & Hb'); [lia|]. cbn [obind].
  destruct Hb' as (E & post & -> & Hpost). rewrite E.
  rewrite (proj2 (Z.leb_le 0 _)), (proj2 (Z.leb_le _ _))
    by (pose proof (len_nonneg (pre ++ out)); pose proof (len_nonneg post); rewrite ?(len_app _ post); lia).
  simpl. by rewrite to_nat_len, take_app_length.
Qed.

Lemma encodeFrame_writes {A} (put : bytes -> Z -> A -> outcome (bytes * Z)) (a : A) (out : bytes) (mt : Z) :
  writes put a out ->
  encodeFrame (len (header_bytes mt) + len out) mt (fun buf off => put buf off a)
  = Done (header_bytes mt ++ out).
Proof.
  intros Hp. unfold encodeFrame. pose proof (len_nonneg out) as Ho.
  set (buf := replicate _ x00).
  assert (wr buf 0 [] (len (header_bytes mt) + len out)) as Hw.
  { split; [done|]. exists buf. split; [done|]. unfold buf, len at 1. rewrite length_replicate.
    pose proof (len_nonneg (header_bytes mt)). lia. }
  clearbody buf. rewrite len_header in Hw. unfold header_bytes.
  destruct (store1_wr _ _ _ _ (bZ binaryMagic) Hw) as (b1 & -> & H1); [destruct (mt =? 0); lia|].
  destruct (store1_wr _ _ _ _ (bZ binaryVersion) H1) as (b2 & E2 & H2); [destruct (mt =? 0); lia|].
  cbn [obind]. change (0 + 1) with 1 in E2. rewrite E2. cbn [obind]. destruct (mt =? 0) eqn:E; cbn [negb].
  - cbn [obind]. apply (frame_tail put a out b2 [bZ binaryMagic; bZ binaryVersion] Hp).
    replace (len out) with (2 + len out - 1 - 1) by lia. exact H2.
  - destruct (store1_wr _ _ _ _ (bZ mt) H2) as (b3 & E3 & H3); [lia|].
    change (0 + 1 + 1) with 2 in E3. rewrite E3. cbn [obind].
    apply (frame_tail put a out b3 [bZ binaryMagic; bZ binaryVersion; bZ mt] Hp).
    replace (len out) with (3 + len out - 1 - 1 - 1) by lia. exact H3.
Qed.

(** ** Reading at a cursor *)

(** What is left of [buf] from [off] is [rest]. *)
Definition cur (buf : bytes) (off : Z) (rest : bytes) : Prop :=
  exists pre, buf = pre ++ rest /\ off = len pre.

Lemma cur_len (buf : bytes) (off : Z) (rest : bytes) :
  cur buf off rest -> 0 <= off /\ len buf = off + len rest.
Proof. intros (pre & -> & ->). rewrite len_app. split; [apply len_nonneg|done]. Qed.

Lemma cur_step (buf : bytes) (off : Z) (x rest : bytes) :
  cur buf off (x ++ rest) -> cur buf (off + len x) rest.
Proof. intros (pre & -> & ->). exists (pre ++ x). by rewrite <- app_assoc, len_app. Qed.

Lemma slice_cur (buf : bytes) (off : Z) (x rest : bytes) :
  cur buf off (x ++ rest) -> slice buf off (len x) = x.
Proof.
  intros (pre & -> & ->). unfold slice. by rewrite !to_nat_len, drop_app_length, take_app_length.
Qed.

Lemma load_cur (buf : bytes) (off : Z) (x rest : bytes) (n : Z) :
  cur buf off (x ++ rest) -> len x = n -> load buf off n = Done (get_le x).
Proof.
  intros Hc <-. unfold load. destruct (cur_len _ _ _ Hc) as [H0 Hl]. rewrite len_app in Hl.
  pose proof (len_nonneg rest).
  rewrite (proj2 (Z.leb_le 0 _)), (proj2 (Z.leb_le _ _)) by lia. simpl. by rewrite (slice_cur _ _ _ rest).
Qed.

Lemma readString_cur (buf : bytes) (off : Z) (s rest : bytes) :
  cur buf off (str_bytes s ++ rest) -> fits s ->
  readString buf off = Done (s, off + 2 + len s) /\ cur buf (off + 2 + len s) rest.
Proof.
  intros Hc Hf. unfold str_bytes, fits, maxStringLen in *. rewrite <- app_assoc in Hc.
  destruct (cur_len _ _ _ Hc) as [H0 Hl]. rewrite !len_app, len_put_le in Hl.
  pose proof (len_nonneg s). pose proof (len_nonneg rest). unfold readString.
  rewrite (proj2 (Z.ltb_ge _ _)) by lia. rewrite (load_cur _ _ _ _ 2 Hc) by done. cbn [obind].
  rewrite get_put_le2. unfold u16. rewrite Z.mod_small by lia.
  rewrite (proj2 (Z.ltb_ge _ _)) by lia. apply cur_step in Hc. rewrite len_put_le in Hc.
  change (Z.of_nat 2) with 2 in Hc. rewrite (slice_cur _ _ _ rest Hc). split; [done|].
  by apply cur_step in Hc.
Qed.

Lemma load64_cur (buf : bytes) (off v : Z) (rest : bytes) :
  cur buf off (put_le 8 v ++ rest) -> in_u64 v ->
  load buf off 8 = Done v /\ cur buf (off + 8) rest.
Proof.
  intros Hc Hv. split; [|apply cur_step in Hc; by rewrite len_put_le in Hc].
  rewrite (load_cur _ _ _ _ 8 Hc) by apply len_put_le. f_equal. rewrite get_put_le8. by apply u64_id.
Qed.

Lemma wire_time_roundtrip (t : Time) : wire_time t -> decodeTime (i64 (u64 (encodeTime t))) = t.
Proof.
  unfold decodeTime, encodeTime, is_zero, unix_nano. intros [->|[Ht H0]].
  - rewrite Z.eqb_refl. done.
  - destruct (t =? zero_time) eqn:E; bool_cases; [by subst|].
    rewrite (i64_id t), i64_u64 by done. by rewrite (proj2 (Z.eqb_neq _ _) H0).
Qed.

Ltac read_step :=
  match goal with
  | Hc : cur ?b ?o (str_bytes ?s ++ ?r) |- context [readString ?b ?o] =>
      let Hc' := fresh in
      destruct (readString_cur b o s r Hc) as [-> Hc']; [assumption|clear Hc; cbn [obind]]
  | Hc : cur ?b ?o (put_le 8 ?v ++ ?r) |- context [load ?b ?o 8] =>
      let Hc' := fresh in
      destruct (load64_cur b o v r Hc) as [-> Hc'];
        [first [assumption|apply u64_range]|clear Hc; cbn [obind]]
  end.

Lemma decodePurge_cur (buf : bytes) (off : Z) (e : PurgeEvent) (rest : bytes) :
  purge_ok e -> cur buf off (purge_bytes e ++ rest) ->
  decodePurgePayload buf off = Done e /\ cur buf (off + purgePayloadLen e) rest.
Proof.
  intros [Hk Hv Hi Ht Hs] Hc. pose proof (len_key _ Hk) as Hk'. split.
  - unfold decodePurgePayload, purge_bytes, time_bytes in *. rewrite <- !app_assoc in Hc.
    pose proof (len_nonneg rest). destruct (cur_len _ _ _ Hc) as [_ Hl].
    rewrite !len_app, !len_str_bytes, !len_put_le, Hk' in Hl.
    pose proof (len_nonneg (p_VaryKey e)). pose proof (len_nonneg (p_Issuer e)).
    rewrite (proj2 (Z.ltb_ge _ _)) by lia. 
    replace (slice buf off 16) with (p_Key e) by (rewrite <- Hk'; symmetry; apply (slice_cur _ _ _ _ Hc)).
    apply cur_step in Hc. rewrite Hk' in Hc. repeat read_step.
    rewrite (proj2 (Z.ltb_ge _ _)) by lia. repeat read_step.
    rewrite wire_time_roundtrip by done. by destruct e.
  - apply cur_step in Hc. destruct (putPurgePayload_writes e) as [<- _]; [by split|done].
Qed.

Lemma decodeBan_cur (buf : bytes) (off : Z) (e : BanEvent) (rest : bytes) :
  ban_ok e -> cur buf off (ban_bytes e ++ rest) -> decodeBanPayload buf off = Done e.
Proof.
  intros [Hh Hp Hs Hcr Hi Ht Hsq] Hc. unfold decodeBanPayload, ban_bytes, time_bytes in *.
  rewrite <- !app_assoc in Hc. pose proof (len_nonneg rest). destruct (cur_len _ _ _ Hc) as [_ Hl].
  rewrite !len_app, !len_str_bytes, !len_put_le in Hl. pose proof (len_nonneg (b_Issuer e)).
  repeat read_step. rewrite (proj2 (Z.ltb_ge _ _)) by lia. repeat read_step.
  rewrite (proj2 (Z.ltb_ge _ _)) by lia. repeat read_step.
  rewrite !wire_time_roundtrip by done. by destruct e as [[] ? ? ?].
Qed.

Lemma decodeRefresh_cur (buf : bytes) (off : Z) (e : RefreshEvent) (rest : bytes) :
  refresh_ok e -> cur buf off (refresh_bytes e ++ rest) ->
  decodeRefreshPayload buf off = Done e /\ cur buf (off + refreshPayloadLen e) rest.
Proof.
  intros [Hk Hi Ht Hs] Hc. pose proof (len_key _ Hk) as Hk'. split.
  - unfold decodeRefreshPayload, refresh_bytes, time_bytes in *. rewrite <- !app_assoc in Hc.
    pose proof (len_nonneg rest). destruct (cur_len _ _ _ Hc) as [_ Hl].
    rewrite !len_app, !len_str_bytes, !len_put_le, Hk' in Hl. pose proof (len_nonneg (r_Issuer e)).
    rewrite (proj2 (Z.ltb_ge _ _)) by lia. 
    replace (slice buf off 16) with (r_Key e) by (rewrite <- Hk'; symmetry; apply (slice_cur _ _ _ _ Hc)).
    apply cur_step in Hc. rewrite Hk' in Hc. repeat read_step.
    rewrite (proj2 (Z.ltb_ge _ _)) by lia. repeat read_step.
    rewrite wire_time_roundtrip by done. by destruct e.
  - apply cur_step in Hc. destruct (putRefreshPayload_writes e) as [<- _]; [by split|done].
Qed.

Lemma decodeFrame_header {A} (mt : Z) (out : bytes) (dec : bytes -> Z -> outcome A) :
  0 <= mt < 256 ->
  decodeFrame (header_bytes mt ++ out) mt dec = dec (header_bytes mt ++ out) (len (header_bytes mt)).
Proof.
  intros Hm. unfold decodeFrame. rewrite len_app, len_header. pose proof (len_nonneg out).
  destruct (mt =? 0) eqn:E; cbn [negb]; rewrite (proj2 (Z.ltb_ge _ _))
    by (unfold gossipHdrLen, binaryHdrLen; lia); unfold header_bytes; rewrite E; simpl.
  - reflexivity.
  - rewrite Zb_bZ, Z.mod_small, Z.eqb_refl by lia. reflexivity.
Qed.

Lemma decodePurgeBounded_cur (buf : bytes) (off : Z) (e : PurgeEvent) (rest : bytes) :
  purge_ok e -> cur buf off (purge_bytes e ++ rest) ->
  decodePurgePayloadBounded buf off = Done (e, off + purgePayloadLen e).
Proof.
  intros Hok Hc. unfold decodePurgePayloadBounded.
  destruct (decodePurge_cur buf off e rest Hok Hc) as [-> _]. cbn [obind].
  destruct Hok as [Hk Hv Hi Ht Hs]. apply len_key in Hk. unfold purge_bytes, time_bytes in Hc.
  rewrite <- !app_assoc in Hc. destruct (cur_len _ _ _ Hc) as [_ Hl].
  rewrite !len_app, !len_str_bytes, !len_put_le, Hk in Hl. pose proof (len_nonneg rest).
  pose proof (len_nonneg (p_VaryKey e)). pose proof (len_nonneg (p_Issuer e)).
  unfold fits, maxStringLen in *.
  rewrite (proj2 (Z.ltb_ge _ _)) by lia. apply cur_step in Hc. rewrite Hk in Hc.
  unfold str_bytes in Hc. rewrite <- !app_assoc in Hc.
  rewrite (load_cur _ _ _ _ 2 Hc) by apply len_put_le. cbn [obind].
  rewrite get_put_le2. unfold u16. rewrite Z.mod_small by lia.
  rewrite (proj2 (Z.ltb_ge _ _)) by lia. do 2 apply cur_step in Hc. rewrite len_put_le in Hc.
  replace (off + (16 + (2 + len (p_VaryKey e)))) with (off + 16 + Z.of_nat 2 + len (p_VaryKey e)) by lia.
  rewrite (load_cur _ _ _ _ 2 Hc) by apply len_put_le. cbn [obind].
  rewrite get_put_le2. unfold u16. rewrite Z.mod_small by lia.
  rewrite (proj2 (Z.ltb_ge _ _)) by lia. unfold purgePayloadLen. do 2 f_equal. lia.
Qed.

Lemma decodeRefreshBounded_cur (buf : bytes) (off : Z) (e : RefreshEvent) (rest : bytes) :
  refresh_ok e -> cur buf off (refresh_bytes e ++ rest) ->
  decodeRefreshPayloadBounded buf off = Done (e, off + refreshPayloadLen e).
Proof.
  intros Hok Hc. unfold decodeRefreshPayloadBounded.
  destruct (decodeRefresh_cur buf off e rest Hok Hc) as [-> _]. cbn [obind].
  destruct Hok as [Hk Hi Ht Hs]. apply len_key in Hk. unfold refresh_bytes, time_bytes in Hc.
  rewrite <- !app_assoc in Hc. destruct (cur_len _ _ _ Hc) as [_ Hl].
  rewrite !len_app, !len_str_bytes, !len_put_le, Hk in Hl. pose proof (len_nonneg rest).
  pose proof (len_nonneg (r_Issuer e)). unfold fits, maxStringLen in *.
  rewrite (proj2 (Z.ltb_ge _ _)) by lia. apply cur_step in Hc. rewrite Hk in Hc.
  unfold str_bytes in Hc. rewrite <- !app_assoc in Hc.
  rewrite (load_cur _ _ _ _ 2 Hc) by apply len_put_le. cbn [obind].
  rewrite get_put_le2. unfold u16. rewrite Z.mod_small by lia.
  rewrite (proj2 (Z.ltb_ge _ _)) by lia. unfold refreshPayloadLen. do 2 f_equal. lia.
Qed.

(** ** Laws of a batch codec *)

(** What [batch_encode] and [batch_decode] need of the table entries: [enc] is
    the layout of an event that satisfies [ok]. *)
Class BatchLaws {E} (c : batchCodec E) (ok : E -> Prop) (enc : E -> bytes) : Prop := {
  bl_len e : ok e -> len (enc e) = c_payloadLen c e;
  bl_put e : ok e -> writes (c_put c) e (enc e);
  bl_dec buf off e rest : ok e -> cur buf off (enc e ++ rest) ->
    c_decodeOne c buf off = Done (e, off + c_payloadLen c e);
  bl_type : 0 <= c_msgType c < 256;
  bl_hdr n : frameLen (c_gossip c) n = len (header_bytes (c_msgType c)) + n;
}.

#[export] Instance purgeBatchGossip_laws : BatchLaws purgeBatchGossip purge_ok purge_bytes.
Proof.
  split; [apply putPurgePayload_writes|apply putPurgePayload_writes|apply decodePurgeBounded_cur|done|done].
Qed.
#[export] Instance purgeBatchHTTP_laws : BatchLaws purgeBatchHTTP purge_ok purge_bytes.
Proof.
  split; [apply putPurgePayload_writes|apply putPurgePayload_writes|apply decodePurgeBounded_cur|done|done].
Qed.
#[export] Instance refreshBatchGossip_laws : BatchLaws refreshBatchGossip refresh_ok refresh_bytes.
Proof.
  split; [apply putRefreshPayload_writes|apply putRefreshPayload_writes|apply decodeRefreshBounded_cur|done|done].
Qed.
#[export] Instance refreshBatchHTTP_laws : BatchLaws refreshBatchHTTP refresh_ok refresh_bytes.
Proof.
  split; [apply putRefreshPayload_writes|apply putRefreshPayload_writes|apply decodeRefreshBounded_cur|done|done].
Qed.

Section BatchProofs.
Context {E : Type} (c : batchCodec E) (ok : E -> Prop) (enc : E -> bytes) {Hc : BatchLaws c ok enc}.

Definition enc_all (evts : list E) : bytes := concat (map enc evts).
Definition batch_size (evts : list E) : Z :=
  foldl (fun t e => t + c_payloadLen c e) (frameLen (c_gossip c) batchCountLen) evts.
Definition batch_bytes (evts : list E) : bytes := put_le 4 (u32 (len evts)) ++ enc_all evts.

Lemma foldl_sum (z : Z) (evts : list E) :
  Forall ok evts -> foldl (fun t e => t + c_payloadLen c e) z evts = z + len (enc_all evts).
Proof.
  intros H. revert z. induction H as [|e evts He Hf IH]; intros z; simpl; [unfold len; simpl; lia|].
  rewrite IH. unfold enc_all. simpl. rewrite len_app, (bl_len (c:=c) (enc:=enc) e He). fold (enc_all evts). lia.
Qed.

Lemma putAll_writes (evts : list E) :
  Forall ok evts -> writes (fun buf o l => putAll c buf o l) evts (enc_all evts).
Proof.
  induction 1 as [|e evts He Hf IH]; intros buf off pre room Hw Hr.
  - exists buf. simpl. rewrite app_nil_r. change (len (enc_all [])) with 0.
    rewrite Z.add_0_r, Z.sub_0_r. done.
  - change (enc_all (e :: evts)) with (enc e ++ enc_all evts) in *. rewrite len_app in *.
    pose proof (len_nonneg (enc e)). pose proof (len_nonneg (enc_all evts)). cbn [putAll].
    destruct (bl_put (c:=c) (enc:=enc) e He buf off pre room Hw) as (b1 & -> & H1); [lia|]. cbn [obind].
    destruct (IH b1 _ _ _ H1) as (b2 & -> & H2); [lia|]. exists b2.
    rewrite app_assoc. rewrite Z.add_assoc, Z.sub_add_distr. done.
Qed.

Lemma batch_encode_bytes (evts : list E) :
  Forall ok evts -> batch_encode c evts = Done (header_bytes (c_msgType c) ++ batch_bytes evts) /\
    len (header_bytes (c_msgType c) ++ batch_bytes evts) = batch_size evts.
Proof.
  intros Hf. assert (len (header_bytes (c_msgType c) ++ batch_bytes evts) = batch_size evts) as Hlen.
  { unfold batch_size. rewrite foldl_sum by done. unfold batch_bytes. rewrite (bl_hdr (c:=c) (enc:=enc)).
    rewrite !len_app, len_put_le. unfold batchCountLen. lia. }
  split; [|done]. unfold batch_encode. fold (batch_size evts). rewrite <- Hlen, len_app.
  apply (encodeFrame_writes (fun buf o l => do! buf <- put32 buf o (u32 (len l));
           putAll c buf (o + batchCountLen) l) evts).
  intros buf off pre room Hw Hr. unfold batch_bytes in *. rewrite len_app, len_put_le in *.
  change (Z.of_nat 4) with 4 in *. pose proof (len_nonneg (enc_all evts)). unfold put32.
  destruct (store_wr buf off pre room (put_le 4 (u32 (len evts))) Hw) as (b1 & -> & H1);
    [rewrite len_put_le; lia|]. cbn [obind]. rewrite len_put_le in H1. change (Z.of_nat 4) with 4 in H1.
  destruct (putAll_writes evts Hf b1 _ _ _ H1) as (b2 & E2 & H2); [lia|].
  unfold batchCountLen. rewrite E2. exists b2. rewrite app_assoc, Z.add_assoc, Z.sub_add_distr. done.
Qed.

Lemma decodeAll_cur (evts : list E) (buf : bytes) (off : Z) (rest : bytes) :
  Forall ok evts -> cur buf off (enc_all evts ++ rest) ->
  decodeAll c (length evts) buf off = Done (evts, off + len (enc_all evts)).
Proof.
  intros Hf. revert off. induction Hf as [|e evts He Hf IH]; intros off Hcur; simpl.
  - change (len (enc_all [])) with 0. by rewrite Z.add_0_r.
  - change (enc_all (e :: evts)) with (enc e ++ enc_all evts) in *. rewrite <- app_assoc in Hcur.
    rewrite (bl_dec (c:=c) (enc:=enc) _ _ e _ He Hcur). cbn [obind]. apply cur_step in Hcur. rewrite (bl_len (c:=c) (enc:=enc) e He) in Hcur.
    rewrite (IH _ Hcur). cbn [obind]. rewrite len_app, (bl_len (c:=c) (enc:=enc) e He). do 2 f_equal. lia.
Qed.

Lemma batch_roundtrip (evts : list E) :
  Forall ok evts -> len evts <= batchMaxEvents ->
  batch_decode c (header_bytes (c_msgType c) ++ batch_bytes evts) = Done evts.
Proof.
  intros Hf Hn. unfold batch_decode. rewrite decodeFrame_header by apply (bl_type (c:=c) (enc:=enc)).
  set (buf := header_bytes _ ++ batch_bytes evts). unfold batchMaxEvents, batchCountLen in *.
  assert (cur buf (len (header_bytes (c_msgType c))) (put_le 4 (u32 (len evts)) ++ enc_all evts ++ [])) as Hcur.
  { exists (header_bytes (c_msgType c)). rewrite app_nil_r. done. }
  destruct (cur_len _ _ _ Hcur) as [_ Hl]. rewrite !len_app, len_put_le in Hl.
  change (Z.of_nat 4) with 4 in Hl. change (len (@nil byte)) with 0 in Hl.
  pose proof (len_nonneg (enc_all evts)). pose proof (len_nonneg evts).
  rewrite (proj2 (Z.ltb_ge _ _)) by lia. rewrite (load_cur _ _ _ _ 4 Hcur) by apply len_put_le.
  cbn [obind]. rewrite get_put_le4, !u32_id by (unfold in_u32; rewrite ?u32_id; unfold in_u32; lia).
  rewrite (proj2 (Z.ltb_ge _ _)) by lia. rewrite to_nat_len. apply cur_step in Hcur.
  rewrite len_put_le in Hcur. change (Z.of_nat 4) with 4 in Hcur.
  rewrite (decodeAll_cur evts _ _ _ Hf Hcur). cbn [obind].
  rewrite (proj2 (Z.eqb_eq _ _)) by lia. done.
Qed.

(** ** Splitting *)

Definition frame_of (evts : list E) : bytes := header_bytes (c_msgType c) ++ batch_bytes evts.

Lemma fill_frame_budget (budget frame : Z) (evts : list E) :
  let k := fill_frame c budget frame false evts in
  (k <= length evts)%nat /\
  (k = 0%nat \/ foldl (fun t e => t + c_payloadLen c e) frame (take k evts) <= budget).
Proof.
  revert frame. induction evts as [|e evts IH]; intros frame; simpl; [auto|].
  destruct (budget <? frame + c_payloadLen c e) eqn:E1; simpl; [split; [lia|by left]|]. bool_cases.
  destruct (IH (frame + c_payloadLen c e)) as [Hk [H0|Hb]].
  - split; [lia|]. right. rewrite H0. simpl. lia.
  - split; [lia|]. by right.
Qed.

(** A chunk is within the budget unless it is a single event. *)
Definition chunk_ok (budget : Z) (ch : list E) : Prop :=
  Forall ok ch /\ ch <> [] /\ (length ch = 1%nat \/ batch_size ch <= budget).

Lemma split_frames_ok (fuel : nat) (budget : Z) (evts : list E) :
  (length evts <= fuel)%nat -> Forall ok evts ->
  exists chunks, split_frames c fuel budget evts = Done (map frame_of chunks) /\
    concat chunks = evts /\ Forall (chunk_ok budget) chunks.
Proof.
  revert evts. induction fuel as [|fuel IH]; intros evts Hl Hf.
  { destruct evts; [|simpl in Hl; lia]. exists []. split_and!; [done|done|constructor]. }
  destruct evts as [|e evts]; [exists []; split_and!; [done|done|constructor]|].
  cbn [split_frames]. set (k := fill_frame c budget _ true (e :: evts)).
  set (z := frameLen (c_gossip c) batchCountLen).
  destruct (fill_frame_budget budget (z + c_payloadLen c e) evts) as [Hk Hb].
  assert (k = S (fill_frame c budget (z + c_payloadLen c e) false evts)) as Ek by done.
  assert (Forall ok (take k (e :: evts))) as Hft by (by apply Forall_take).
  destruct (batch_encode_bytes (take k (e :: evts)) Hft) as [-> _]. cbn [obind].
  destruct (IH (drop k (e :: evts))) as (chunks & -> & Hcat & Hok).
  { rewrite length_drop, Ek. simpl in Hl |- *. lia. }
  { by apply Forall_drop. }
  cbn [obind]. exists (take k (e :: evts) :: chunks). split_and!.
  - done.
  - cbn [concat]. rewrite Hcat. apply take_drop.
  - constructor; [|done]. split_and!; [done|by rewrite Ek|]. rewrite Ek. simpl.
    destruct Hb as [->|Hb]; [by left|]. right. exact Hb.
Qed.

Lemma encodeBudgeted_ok (evts : list E) (budget : Z) :
  0 < budget -> Forall ok evts -> len evts <= batchMaxEvents ->
  exists frames chunks, encodeBudgeted c evts budget = Done frames /\ concat chunks = evts /\
    Forall2 (fun f ch => batch_decode c f = Done ch /\ (len f <= budget \/ length ch = 1%nat)) frames chunks.
Proof.
  intros Hb Hf Hn. unfold encodeBudgeted. destruct (len evts =? 0) eqn:E0; bool_cases.
  { destruct evts; [exists [], []; by split_and!; [done|done|constructor]|].
    rewrite len_cons in E0. pose proof (len_nonneg evts). lia. }
  rewrite (proj2 (Z.leb_gt _ _) Hb).
  destruct (split_frames_ok (length evts) budget evts) as (chunks & -> & Hcat & Hok); [lia|done|].
  exists (map frame_of chunks), chunks. split_and!; [done|done|].
  assert (Forall (fun ch => len ch <= batchMaxEvents) chunks) as Hlen.
  { subst. clear -Hn. induction chunks as [|ch chunks IH]; [constructor|]. simpl in Hn.
    rewrite len_app in Hn. pose proof (len_nonneg ch). pose proof (len_nonneg (concat chunks)).
    constructor; [lia|apply IH; lia]. }
  clear Hcat E0. induction chunks as [|ch chunks IH]; [constructor|].
  apply Forall_cons in Hok as [(Hf' & _ & Hsz) Hok]. apply Forall_cons in Hlen as [Hl Hlen].
  simpl. constructor; [|auto]. split; [by apply batch_roundtrip|].
  unfold frame_of. destruct (batch_encode_bytes ch Hf') as [_ ->]. tauto.
Qed.
End BatchProofs.

Lemma decodePeer_cur (buf : bytes) (off : Z) (p : PeerInfo) (rest : bytes) :
  Forall fits (peerInfoStrings p) -> wire_time (JoinedAt p) -> in_u64 (Weight p) ->
  cur buf off (peer_bytes p ++ rest) -> exists off', readPeerInfoPayload buf off = Done (p, off').
Proof.
  intros Hf Ht Hw Hc. unfold peerInfoStrings in Hf. rewrite !Forall_cons in Hf.
  destruct Hf as (H1 & H2 & H3 & H4 & H5 & _).
  unfold readPeerInfoPayload, peer_bytes, time_bytes in *. rewrite <- !app_assoc in Hc.
  destruct (cur_len _ _ _ Hc) as [_ Hl]. rewrite !len_app, !len_str_bytes, !len_put_le in Hl.
  pose proof (len_nonneg rest). pose proof (len_nonneg (Name p)). pose proof (len_nonneg (Addr p)).
  pose proof (len_nonneg (AdminAddr p)). pose proof (len_nonneg (DataAddr p)).
  pose proof (len_nonneg (Version p)).
  rewrite (proj2 (Z.ltb_ge _ _)) by lia. repeat read_step.
  rewrite (proj2 (Z.ltb_ge _ _)) by lia. repeat read_step.
  rewrite wire_time_roundtrip by done. eexists. by destruct p.
Qed.

Lemma putStrings_wr (l : list bytes) (buf : bytes) (off : Z) (pre : bytes) (room : Z) :
  Forall fits l -> wr buf off pre room -> len (concat (map str_bytes l)) <= room ->
  exists buf', putStrings buf off l = Done (buf', off + len (concat (map str_bytes l))) /\
    wr buf' (off + len (concat (map str_bytes l))) (pre ++ concat (map str_bytes l))
      (room - len (concat (map str_bytes l))).
Proof.
  intros Hf. revert buf off pre room. induction Hf as [|s l Hs Hf IH]; intros buf off pre room Hw Hr.
  - exists buf. simpl. change (len (@nil byte)) with 0. rewrite app_nil_r, Z.add_0_r, Z.sub_0_r. done.
  - cbn [map concat putStrings] in Hr |- *. rewrite len_app, len_str_bytes in Hr |- *.
    pose proof (len_nonneg s). pose proof (len_nonneg (concat (map str_bytes l))).
    destruct (putString_wr _ _ _ _ s Hw Hs) as (b1 & -> & H1); [lia|].
    destruct (IH _ _ _ _ H1) as (b2 & -> & H2); [lia|]. exists b2.
    rewrite <- app_assoc in H2. split; [do 2 f_equal; lia|].
    match goal with |- wr _ ?o _ ?r => match type of H2 with wr _ ?o' _ ?r' =>
      replace o with o' by lia; replace r with r' by lia end end. done.
Qed.

Lemma encodePeer_bytes (p : PeerInfo) :
  Forall fits (peerInfoStrings p) ->
  EncodePeerInfoMeta p = Done (header_bytes 0 ++ peer_bytes p).
Proof.
  intros Hf. unfold EncodePeerInfoMeta.
  assert (existsb (fun s => maxStringLen <? len s) (peerInfoStrings p) = false) as ->.
  { apply not_true_iff_false. rewrite existsb_exists. intros (s & Hin & Hs). bool_cases.
    rewrite Forall_forall in Hf. specialize (Hf s (proj2 (list_elem_of_In _ _) Hin)). unfold fits in Hf. lia. }
  assert (concat (map str_bytes (peerInfoStrings p)) = str_bytes (Name p) ++ str_bytes (Addr p)
            ++ str_bytes (AdminAddr p) ++ str_bytes (DataAddr p) ++ str_bytes (Version p)) as Hcat
    by (simpl; by rewrite app_nil_r).
  assert (len (peer_bytes p) = peerInfoPayloadLen p) as Hl.
  { unfold peer_bytes, time_bytes, peerInfoPayloadLen. rewrite !len_app, !len_str_bytes, !len_put_le. lia. }
  pose proof (len_nonneg (peer_bytes p)) as Hp0.
  assert (len (concat (map str_bytes (peerInfoStrings p))) = len (peer_bytes p) - 16) as Hlc.
  { rewrite Hcat. unfold peer_bytes, time_bytes. rewrite !len_app, !len_put_le. lia. }
  pose proof (len_nonneg (concat (map str_bytes (peerInfoStrings p)))).
  set (buf := replicate _ x00).
  assert (wr buf 0 [] (2 + len (peer_bytes p))) as Hw.
  { split; [done|]. exists buf. split; [done|]. unfold buf, len at 1. rewrite length_replicate.
    unfold binaryHdrLen. lia. }
  clearbody buf.
  destruct (store1_wr _ _ _ _ (bZ binaryMagic) Hw) as (b1 & -> & H1); [lia|]. cbn [obind].
  destruct (store1_wr _ _ _ _ (bZ binaryVersion) H1) as (b2 & E2 & H2); [lia|].
  change (0 + 1) with 1 in E2. rewrite E2. cbn [obind]. unfold putPeerInfoPayload, binaryHdrLen.
  change (0 + 1 + 1) with 2 in H2. write_step.
  match goal with H : wr _ _ _ _ |- _ =>
    destruct (putStrings_wr (peerInfoStrings p) _ _ _ _ Hf H) as (b4 & -> & H4); [lia|] end.
  cbn [obind]. write_step. match goal with H : wr ?b _ _ _ |- _ => destruct H as (_ & post & -> & Hpost) end.
  assert (post = []) as -> by (destruct post; [done|rewrite len_cons in Hpost; pose proof (len_nonneg post); lia]).
  rewrite Hcat, app_nil_r. unfold header_bytes, peer_bytes, time_bytes. rewrite <- !app_assoc. reflexivity.
Qed.

(** ** No input makes a decoder panic *)

Lemma load_safe (buf : bytes) (off n : Z) :
  0 <= off -> off + n <= len buf -> exists v, load buf off n = Done v /\ 0 <= v.
Proof.
  intros H0 Hn. unfold load. rewrite (proj2 (Z.leb_le _ _) H0), (proj2 (Z.leb_le _ _) Hn).
  eexists. split; [done|]. apply get_le_range.
Qed.

Lemma readString_safe (buf : bytes) (off : Z) :
  0 <= off ->
  match readString buf off with
  | Done (s, off') => off + 2 <= off' <= len buf /\
      exists n, load buf off 2 = Done n /\ off' = off + 2 + n
  | Fail _ => True
  | Panic => False
  end.
Proof.
  intros H0. unfold readString. destruct (len buf <? off + 2) eqn:E1; [done|]. bool_cases.
  destruct (load_safe buf off 2 H0 E1) as (n & -> & Hn). cbn [obind].
  destruct (len buf <? off + 2 + n) eqn:E2; [done|]. bool_cases. split; [lia|]. eauto.
Qed.

Lemma decodePurge_safe (buf : bytes) (off : Z) :
  0 <= off ->
  match decodePurgePayload buf off with
  | Done _ => exists n m, load buf (off + 16) 2 = Done n /\ 0 <= n /\
      load buf (off + 18 + n) 2 = Done m /\ 0 <= m /\ off + 36 + n + m <= len buf
  | Fail _ => True
  | Panic => False
  end.
Proof.
  intros H0. unfold decodePurgePayload. destruct (len buf <? off + 16) eqn:E1; [done|]. bool_cases.
  pose proof (readString_safe buf (off + 16)) as H1.
  destruct (readString buf (off + 16)) as [[vk o1]| |]; cbn [obind]; [|done|apply H1; lia].
  destruct H1 as (Ho1 & n & Hn & En); [lia|]. pose proof (readString_safe buf o1) as H2.
  destruct (readString buf o1) as [[iss o2]| |]; cbn [obind]; [|done|apply H2; lia].
  destruct H2 as (Ho2 & m & Hm & Em); [lia|]. destruct (len buf <? o2 + 16) eqn:E2; [done|]. bool_cases.
  destruct (load_safe buf o2 8) as (v1 & -> & _); [lia|lia|]. cbn [obind].
  destruct (load_safe buf (o2 + 8) 8) as (v2 & -> & _); [lia|lia|]. cbn [obind].
  exists n, m. replace (off + 18 + n) with o1 by lia. split_and!; [done|lia|done|lia|lia].
Qed.

Lemma decodeRefresh_safe (buf : bytes) (off : Z) :
  0 <= off ->
  match decodeRefreshPayload buf off with
  | Done _ => exists n, load buf (off + 16) 2 = Done n /\ 0 <= n /\ off + 34 + n <= len buf
  | Fail _ => True
  | Panic => False
  end.
Proof.
  intros H0. unfold decodeRefreshPayload. destruct (len buf <? off + 16) eqn:E1; [done|]. bool_cases.
  pose proof (readString_safe buf (off + 16)) as H1.
  destruct (readString buf (off + 16)) as [[vk o1]| |]; cbn [obind]; [|done|apply H1; lia].
  destruct H1 as (Ho1 & n & Hn & En); [lia|]. destruct (len buf <? o1 + 16) eqn:E2; [done|]. bool_cases.
  destruct (load_safe buf o1 8) as (v1 & -> & _); [lia|lia|]. cbn [obind].
  destruct (load_safe buf (o1 + 8) 8) as (v2 & -> & _); [lia|lia|]. cbn [obind].
  exists n. split_and!; [done|lia|lia].
Qed.

Ltac read_safe :=
  match goal with
  | |- context [readString ?b ?o] =>
      let H := fresh in pose proof (readString_safe b o ltac:(lia)) as H;
      destruct (readString b o) as [[? ?]| |]; cbn [obind];
      [destruct H as (? & ? & ? & ?)|done|done]
  | |- context [load ?b ?o ?n] =>
      let H := fresh in destruct (load_safe b o n ltac:(lia) ltac:(lia)) as (? & H & _);
      rewrite H; cbn [obind]
  | |- context [len ?b <? ?x] => destruct (len b <? x) eqn:?; [done|bool_cases]
  end.

Lemma decodeBan_safe (buf : bytes) (off : Z) : 0 <= off -> decodeBanPayload buf off <> Panic.
Proof. intros H0. unfold decodeBanPayload. repeat read_safe. done. Qed.

Lemma readPeer_safe (buf : bytes) (off : Z) : 0 <= off -> readPeerInfoPayload buf off <> Panic.
Proof. intros H0. unfold readPeerInfoPayload. repeat read_safe. done. Qed.

Lemma decodePurgeBounded_safe (buf : bytes) (off : Z) :
  0 <= off ->
  match decodePurgePayloadBounded buf off with
  | Done (_, next) => off < next | Fail _ => True | Panic => False
  end.
Proof.
  intros H0. unfold decodePurgePayloadBounded. pose proof (decodePurge_safe buf off H0) as H.
  destruct (decodePurgePayload buf off) as [e| |]; cbn [obind]; [|done|done].
  destruct H as (n & m & Hn & Hn0 & Hm & Hm0 & Hl). destruct (len buf <? off + 16); [done|].
  rewrite Hn. cbn [obind]. destruct (len buf <? _); [done|].
  replace (off + (16 + (2 + n))) with (off + 18 + n) by lia. rewrite Hm. cbn [obind].
  destruct (len buf <? _); [done|]. lia.
Qed.

Lemma decodeRefreshBounded_safe (buf : bytes) (off : Z) :
  0 <= off ->
  match decodeRefreshPayloadBounded buf off with
  | Done (_, next) => off < next | Fail _ => True | Panic => False
  end.
Proof.
  intros H0. unfold decodeRefreshPayloadBounded. pose proof (decodeRefresh_safe buf off H0) as H.
  destruct (decodeRefreshPayload buf off) as [e| |]; cbn [obind]; [|done|done].
  destruct H as (n & Hn & Hn0 & Hl). destruct (len buf <? off + 16 + 2); [done|].
  rewrite Hn. cbn [obind]. destruct (len buf <? _); [done|]. lia.
Qed.

Lemma decodeFrame_safe {A} (buf : bytes) (mt : Z) (dec : bytes -> Z -> outcome A) :
  (forall off, 0 <= off -> off <= len buf -> dec buf off <> Panic) -> decodeFrame buf mt dec <> Panic.
Proof.
  intros Hd. unfold decodeFrame. destruct (len buf <? _) eqn:E; [done|]. bool_cases.
  assert (2 <= len buf) by (unfold gossipHdrLen, binaryHdrLen in E; destruct (negb (mt =? 0)); lia).
  destruct buf as [|b0 [|b1 rest]]; [unfold len in *; simpl in *; lia..|].
  cbn [byte_at lookup list_lookup obind]. change (byte_at (b0 :: b1 :: rest) 0) with (@Done Z (Zb b0)).
  change (byte_at (b0 :: b1 :: rest) 1) with (@Done Z (Zb b1)). cbn [obind].
  destruct (negb (Zb b0 =? _)); [done|]. destruct (negb (Zb b1 =? _)); [done|].
  destruct (negb (mt =? 0)).
  - destruct rest as [|b2 rest]; [unfold len, gossipHdrLen in *; simpl in *; lia|].
    change (byte_at (b0 :: b1 :: b2 :: rest) 2) with (@Done Z (Zb b2)). cbn [obind].
    destruct (negb _); [done|]. apply Hd; unfold gossipHdrLen in *; lia.
  - apply Hd; unfold binaryHdrLen in *; lia.
Qed.

Lemma decodeAll_safe {E} (c : batchCodec E) (n : nat) (buf : bytes) (off : Z) :
  (forall o, 0 <= o ->
     match c_decodeOne c buf o with Done (_, nx) => o < nx | Fail _ => True | Panic => False end) ->
  0 <= off -> decodeAll c n buf off <> Panic.
Proof.
  intros Hd. revert off. induction n as [|n IH]; intros off H0; [done|]. cbn [decodeAll].
  specialize (Hd off H0) as Hd'. destruct (c_decodeOne c buf off) as [[e nx]| |]; cbn [obind]; [|done|done].
  specialize (IH nx ltac:(lia)). by destruct (decodeAll c n buf nx) as [[? ?]| |].
Qed.

Lemma batch_decode_safe {E} (c : batchCodec E) (buf : bytes) :
  (forall o, 0 <= o ->
     match c_decodeOne c buf o with Done (_, nx) => o < nx | Fail _ => True | Panic => False end) ->
  batch_decode c buf <> Panic.
Proof.
  intros Hd. apply decodeFrame_safe. intros off H0 _. destruct (len buf <? _) eqn:E1; [done|]. bool_cases.
  destruct (load_safe buf off 4) as (n & -> & Hn); [done|unfold batchCountLen in E1; lia|]. cbn [obind].
  destruct (batchMaxEvents <? n); [done|].
  pose proof (decodeAll_safe c (Z.to_nat n) buf (off + batchCountLen) Hd ltac:(unfold batchCountLen; lia)).
  destruct (decodeAll _ _ _ _) as [[? ?]| |]; cbn [obind]; [|done|done]. by destruct (negb _).
Qed.

(** Encoding a payload and decoding it, for any frame type. *)
Lemma frame_roundtrip {A} (put : bytes -> Z -> A -> outcome (bytes * Z)) (dec : bytes -> Z -> outcome A)
    (a : A) (out : bytes) (mt n : Z) :
  0 <= mt < 256 -> len out = n /\ writes put a out ->
  (forall buf off, cur buf off (out ++ []) -> dec buf off = Done a) ->
  obind (encodeFrame (frameLen (negb (mt =? 0)) n) mt (fun buf off => put buf off a))
    (fun buf => decodeFrame buf mt dec) = Done a.
Proof.
  intros Hm [<- Hw] Hd.
  replace (frameLen (negb (mt =? 0)) (len out)) with (len (header_bytes mt) + len out)
    by (rewrite len_header; by destruct (mt =? 0)).
  rewrite (encodeFrame_writes put a out mt Hw). cbn [obind]. rewrite decodeFrame_header by done.
  apply Hd. exists (header_bytes mt). by rewrite app_nil_r.
Qed.

(** ** Properties *)

(** Every invalidation event a node can send is received as it was sent:
    encoding a purge, ban or refresh event whose strings fit 64 KiB never
    fails or writes out of its buffer, as gossip frame and as HTTP body, and
    the matching decoder returns the event; so does the node metadata. *)
Theorem cluster_frames_roundtrip (p : PurgeEvent) (b : BanEvent) (r : RefreshEvent) (i : PeerInfo)
    (Hp : purge_ok p) (Hb : ban_ok b) (Hr : refresh_ok r)
    (Hi : Forall fits (peerInfoStrings i) /\ wire_time (JoinedAt i) /\ in_u64 (Weight i)) :
  obind (EncodePurgeGossip p) DecodePurgeGossip = Done p /\
  obind (EncodePurgeHTTP p) DecodePurgeHTTP = Done p /\
  obind (EncodeBanGossip b) DecodeBanGossip = Done b /\
  obind (EncodeBanHTTP b) DecodeBanHTTP = Done b /\
  obind (EncodeRefreshGossip r) DecodeRefreshGossip = Done r /\
  obind (EncodeRefreshHTTP r) DecodeRefreshHTTP = Done r /\
  obind (EncodePeerInfoMeta i) DecodePeerInfoMeta = Done i.
Proof.
  assert (Hdp : forall buf off, cur buf off (purge_bytes p ++ []) -> decodePurgePayload buf off = Done p)
    by (intros; by apply (decodePurge_cur _ _ p [])).
  assert (Hdb : forall buf off, cur buf off (ban_bytes b ++ []) -> decodeBanPayload buf off = Done b)
    by (intros; by apply (decodeBan_cur _ _ b [])).
  assert (Hdr : forall buf off, cur buf off (refresh_bytes r ++ []) -> decodeRefreshPayload buf off = Done r)
    by (intros; by apply (decodeRefresh_cur _ _ r [])).
  split_and!.
  - apply (frame_roundtrip _ _ p _ 1 _ ltac:(lia) (putPurgePayload_writes p Hp) Hdp).
  - apply (frame_roundtrip _ _ p _ 0 _ ltac:(lia) (putPurgePayload_writes p Hp) Hdp).
  - apply (frame_roundtrip _ _ b _ 2 _ ltac:(lia) (putBanPayload_writes b Hb) Hdb).
  - apply (frame_roundtrip _ _ b _ 0 _ ltac:(lia) (putBanPayload_writes b Hb) Hdb).
  - apply (frame_roundtrip _ _ r _ 3 _ ltac:(lia) (putRefreshPayload_writes r Hr) Hdr).
  - apply (frame_roundtrip _ _ r _ 0 _ ltac:(lia) (putRefreshPayload_writes r Hr) Hdr).
  - destruct Hi as (H1 & H2 & H3). rewrite encodePeer_bytes by done. cbn [obind].
    unfold DecodePeerInfoMeta. rewrite len_app. pose proof (len_nonneg (peer_bytes i)).
    rewrite (proj2 (Z.ltb_ge _ _)) by (change (len (header_bytes 0)) with 2; unfold binaryHdrLen; lia).
    destruct (decodePeer_cur (header_bytes 0 ++ peer_bytes i) 2 i [] H1 H2 H3) as [off' E'];
      [exists (header_bytes 0); by rewrite app_nil_r|].
    change (byte_at (header_bytes 0 ++ peer_bytes i) 0) with (@Done Z 66).
    change (byte_at (header_bytes 0 ++ peer_bytes i) 1) with (@Done Z 3). cbn [obind].
    change (negb (66 =? binaryMagic)) with false. change (negb (3 =? binaryVersion)) with false.
    unfold binaryHdrLen. by rewrite E'.
Qed.

(** No bytes from the network make a decoder read out of range: on every
    input each of them returns a value or an error. *)
Theorem cluster_decoders_never_panic (buf : bytes) :
  DecodePurgeGossip buf <> Panic /\ DecodePurgeHTTP buf <> Panic /\
  DecodeBanGossip buf <> Panic /\ DecodeBanHTTP buf <> Panic /\
  DecodeRefreshGossip buf <> Panic /\ DecodeRefreshHTTP buf <> Panic /\
  DecodePurgeBatchGossip buf <> Panic /\ DecodePurgeBatchHTTP buf <> Panic /\
  DecodeRefreshBatchGossip buf <> Panic /\ DecodeRefreshBatchHTTP buf <> Panic /\
  DecodePeerInfoMeta buf <> Panic /\ DecodeRingDigestState buf <> Panic.
Proof.
  assert (forall o, 0 <= o -> decodePurgePayload buf o <> Panic) as Hp.
  { intros o Ho. pose proof (decodePurge_safe buf o Ho). by destruct (decodePurgePayload buf o). }
  assert (forall o, 0 <= o -> decodeRefreshPayload buf o <> Panic) as Hr.
  { intros o Ho. pose proof (decodeRefresh_safe buf o Ho). by destruct (decodeRefreshPayload buf o). }
  split_and!.
  1-6: apply decodeFrame_safe; intros; auto using decodeBan_safe.
  1-2: apply batch_decode_safe; intros; by apply decodePurgeBounded_safe.
  1-2: apply batch_decode_safe; intros; by apply decodeRefreshBounded_safe.
  - unfold DecodePeerInfoMeta, binaryHdrLen. destruct (len buf <? 2) eqn:E; [done|]. bool_cases.
    destruct buf as [|b0 [|b1 rest]]; [unfold len in *; simpl in *; lia..|].
    change (byte_at (b0 :: b1 :: rest) 0) with (@Done Z (Zb b0)).
    change (byte_at (b0 :: b1 :: rest) 1) with (@Done Z (Zb b1)). cbn [obind].
    destruct (negb (Zb b0 =? _)); [done|]. destruct (negb (Zb b1 =? _)); [done|].
    pose proof (readPeer_safe (b0 :: b1 :: rest) 2 ltac:(lia)).
    by destruct (readPeerInfoPayload _ _) as [[? ?]| |].
  - unfold DecodeRingDigestState, binaryHdrLen. destruct (len buf <? 2 + 24) eqn:E; [done|]. bool_cases.
    destruct buf as [|b0 [|b1 rest]]; [unfold len in *; simpl in *; lia..|].
    change (byte_at (b0 :: b1 :: rest) 0) with (@Done Z (Zb b0)).
    change (byte_at (b0 :: b1 :: rest) 1) with (@Done Z (Zb b1)). cbn [obind].
    destruct (negb (Zb b0 =? _)); [done|]. destruct (negb (Zb b1 =? _)); [done|].
    repeat read_safe. done.
Qed.

(** Splitting a batch for gossip loses, duplicates and reorders nothing:
    the frames decode to consecutive pieces of the batch, and every frame with
    more than one event is within the byte budget. *)
Theorem batch_split_delivers_all (ps : list PurgeEvent) (rs : list RefreshEvent) (budget : Z)
    (Hb : 0 < budget) (Hp : Forall purge_ok ps) (Hr : Forall refresh_ok rs)
    (Hn : len ps <= batchMaxEvents /\ len rs <= batchMaxEvents) :
  (exists frames chunks, EncodePurgeBatchGossipBudgeted ps budget = Done frames /\ concat chunks = ps /\
     Forall2 (fun f ch => DecodePurgeBatchGossip f = Done ch /\ (len f <= budget \/ length ch = 1%nat))
       frames chunks) /\
  (exists frames chunks, EncodeRefreshBatchGossipBudgeted rs budget = Done frames /\ concat chunks = rs /\
     Forall2 (fun f ch => DecodeRefreshBatchGossip f = Done ch /\ (len f <= budget \/ length ch = 1%nat))
       frames chunks).
Proof.
  destruct Hn as [Hn1 Hn2]. split.
  - by apply (encodeBudgeted_ok purgeBatchGossip purge_ok purge_bytes).
  - by apply (encodeBudgeted_ok refreshBatchGossip refresh_ok refresh_bytes).
Qed.

(** ** Witnesses *)

Definition sample_purge (n : Z) : PurgeEvent :=
  {| p_IssuedAt := 1700000000 * Second; p_VaryKey := bs "br"; p_Issuer := bs "node-1"; p_Seq := n;
     p_Key := sample_key |}.
Definition sample_ban : BanEvent :=
  {| Predicate := {| CreatedAt := zero_time; HostRegex := bs "x"; PathRegex := []; SurrogateKey := bs "k" |};
     b_IssuedAt := 5; b_Issuer := bs "n"; b_Seq := 2^64 - 1 |}.
Definition sample_refresh : RefreshEvent :=
  {| r_IssuedAt := -7; r_Issuer := bs "n"; r_Seq := 0; r_Key := sample_key |}.
Definition sample_peer : PeerInfo :=
  {| JoinedAt := 5; Name := bs "n"; Addr := bs "a:1"; AdminAddr := []; DataAddr := bs "d";
     Version := bs "v1"; Weight := 4607182418800017408 |}.

Lemma fits_small (s : bytes) : len s <=? 65535 = true -> fits s.
Proof. intros H. by apply Z.leb_le. Qed.

Lemma sample_purge_ok (n : Z) : in_u64 n -> purge_ok (sample_purge n).
Proof.
  intros Hn. split; [done|by apply fits_small|by apply fits_small| |done].
  right. vm_compute. repeat split; discriminate.
Qed.

Lemma cluster_frames_roundtrip_witness :
  obind (EncodePurgeGossip (sample_purge 7)) DecodePurgeGossip = Done (sample_purge 7) /\
  obind (EncodeBanHTTP sample_ban) DecodeBanHTTP = Done sample_ban.
Proof.
  destruct (cluster_frames_roundtrip (sample_purge 7) sample_ban sample_refresh sample_peer)
    as (H1 & _ & _ & H4 & _).
  - apply sample_purge_ok. unfold in_u64. lia.
  - split; try (by apply fits_small).
    + by left.
    + right. vm_compute. repeat split; discriminate.
    + vm_compute. split; [discriminate|reflexivity].
  - split; [done|by apply fits_small| |vm_compute; split; [discriminate|reflexivity]].
    right. vm_compute. repeat split; discriminate.
  - split; [repeat (constructor; [by apply fits_small|]); constructor|].
    split; [right; vm_compute; repeat split; discriminate|vm_compute; split; [discriminate|reflexivity]].
  - split; assumption.
Defined.

Lemma batch_split_delivers_all_witness :
  exists frames chunks,
    EncodePurgeBatchGossipBudgeted (map sample_purge [1; 2; 3]) 100 = Done frames /\
    concat chunks = map sample_purge [1; 2; 3] /\
    Forall2 (fun f ch => DecodePurgeBatchGossip f = Done ch /\ (len f <= 100 \/ length ch = 1%nat))
      frames chunks.
Proof.
  destruct (batch_split_delivers_all (map sample_purge [1; 2; 3]) [] 100) as [H _].
  - lia.
  - repeat (constructor; [apply sample_purge_ok; unfold in_u64; lia|]). constructor.
  - constructor.
  - vm_compute. split; discriminate.
  - exact H.
Defined.
