(* ===== verification/Varint.v ===== *)
(** * encoding/binary: variable-length integers

    [AppendUvarint], [Uvarint], [AppendVarint] and [Varint] of the Go
    standard library, as the object codec uses them, and their round trips.
    [Uvarint] returns the value and the number of bytes read: 0 for a
    truncated buffer and a negative number for an overflow. *)

From S2P Require Import Prelude.

#[local] Ltac Zify.zify_post_hook ::= Z.to_euclidean_division_equations.

Definition MaxVarintLen64 : nat := 10.

(** [for x >= 0x80 { buf = append(buf, byte(x)|0x80); x >>= 7 }]; a 64-bit
    value takes at most nine rounds. *)
Fixpoint uvarint_bytes (fuel : nat) (x : Z) : bytes :=
  match fuel with
  | O => [bZ x]
  | S fuel => if 128 <=? x then bZ (Z.lor x 128) :: uvarint_bytes fuel (Z.shiftr x 7) else [bZ x]
  end.

Definition AppendUvarint (buf : bytes) (x : Z) : bytes := buf ++ uvarint_bytes 9 x.

Fixpoint uvarint_loop (i : nat) (x s : Z) (buf : bytes) : Z * Z :=
  match buf with
  | [] => (0, 0)
  | b :: buf =>
      if (i =? MaxVarintLen64)%nat then (0, - (Z.of_nat i + 1))
      else if Zb b <? 128 then
        if (i =? MaxVarintLen64 - 1)%nat && (1 <? Zb b) then (0, - (Z.of_nat i + 1))
        else (Z.lor x (u64 (Z.shiftl (Zb b) s)), Z.of_nat i + 1)
      else uvarint_loop (S i) (Z.lor x (u64 (Z.shiftl (Z.land (Zb b) 127) s))) (s + 7) buf
  end.

Definition Uvarint (buf : bytes) : Z * Z := uvarint_loop 0 0 0 buf.

(** Zig-zag: the sign in the lowest bit. *)
Definition zigzag (x : Z) : Z :=
  let ux := u64 (Z.shiftl (u64 x) 1) in
  if x <? 0 then Z.lxor ux (2^64 - 1) else ux.
Definition AppendVarint (buf : bytes) (x : Z) : bytes := AppendUvarint buf (zigzag x).

Definition unzigzag (ux : Z) : Z :=
  let x := i64 (Z.shiftr ux 1) in
  if negb (Z.land ux 1 =? 0) then Z.lnot x else x.
Definition Varint (buf : bytes) : Z * Z :=
  let '(ux, n) := Uvarint buf in (unzigzag ux, n).

(** ** Round trips *)

Lemma continuation_byte (x : Z) :
  Zb (bZ (Z.lor x 128)) = 128 + x mod 128 /\ Z.land (128 + x mod 128) 127 = x mod 128.
Proof.
  assert (Z.lor x 128 mod 256 = Z.lor (x mod 256) 128) as E.
  { change 256 with (2^8). rewrite <- !Z.land_ones by lia. rewrite Z.land_lor_distr_l. done. }
  rewrite Zb_bZ, E. replace (x mod 128) with ((x mod 256) mod 128) by lia.
  rewrite <- Zb_bZ. generalize (bZ x). intros b. split; each_byte b.
Qed.

(** Disjoint parts of a word. *)
Lemma lor_shift (acc x s : Z) :
  0 <= s -> 0 <= acc < 2^s -> 0 <= x -> Z.lor acc (Z.shiftl x s) = acc + x * 2^s.
Proof.
  intros Hs Ha Hx. rewrite Z.shiftl_mul_pow2 by done. symmetry. apply Z.add_nocarry_lor.
  apply Z.bits_inj'. intros n Hn. rewrite Z.land_spec, Z.bits_0. destruct (decide (n < s)).
  - rewrite Z.mul_pow2_bits_low by lia. apply andb_false_r.
  - rewrite <- (Z.mod_small acc (2^s)) by lia. rewrite Z.mod_pow2_bits_high by lia. done.
Qed.

Lemma uvarint_loop_spec (fuel : nat) (i : nat) (acc x : Z) (rest : bytes) :
  (fuel + i = 9)%nat -> 0 <= acc < 2 ^ (7 * Z.of_nat i) -> 0 <= x < 2 ^ (64 - 7 * Z.of_nat i) ->
  uvarint_loop i acc (7 * Z.of_nat i) (uvarint_bytes fuel x ++ rest)
  = (acc + x * 2 ^ (7 * Z.of_nat i), Z.of_nat i + len (uvarint_bytes fuel x)).
Proof.
  revert i acc x. induction fuel as [|fuel IH]; intros i acc x Hi Ha Hx.
  - assert (i = 9%nat) as -> by lia. change (2 ^ (64 - 7 * Z.of_nat 9)) with 2 in Hx. simpl.
    rewrite Zb_bZ, Z.mod_small by lia. rewrite (proj2 (Z.ltb_lt _ _)), (proj2 (Z.ltb_ge 1 x)) by lia. simpl.
    rewrite u64_id by (unfold in_u64; change (Z.shiftl x 63) with (Z.shiftl x 63); rewrite Z.shiftl_mul_pow2 by lia; lia).
    by rewrite lor_shift by lia.
  - assert (2 ^ (64 - 7 * Z.of_nat i) * 2 ^ (7 * Z.of_nat i) = 2 ^ 64) as Hp
      by (rewrite <- Z.pow_add_r by lia; f_equal; lia).
    assert (0 < 2 ^ (7 * Z.of_nat i)) by lia.
    assert (Hni : (i =? 10)%nat = false) by (apply Nat.eqb_neq; lia).
    cbn [uvarint_bytes]. destruct (128 <=? x) eqn:E; bool_cases.
    + destruct (continuation_byte x) as [Eb El]. cbn [app uvarint_loop].
      unfold MaxVarintLen64. rewrite Hni, Eb, (proj2 (Z.ltb_ge _ 128)) by lia. rewrite El.
      rewrite u64_id by (unfold in_u64; rewrite Z.shiftl_mul_pow2 by lia; nia).
      rewrite lor_shift by lia.
      replace (7 * Z.of_nat i + 7) with (7 * Z.of_nat (S i)) by lia.
      assert (2 ^ (7 * Z.of_nat (S i)) = 128 * 2 ^ (7 * Z.of_nat i)) as Hs
        by (replace (7 * Z.of_nat (S i)) with (7 + 7 * Z.of_nat i) by lia; by rewrite Z.pow_add_r by lia).
      assert (2 ^ (64 - 7 * Z.of_nat i) = 128 * 2 ^ (64 - 7 * Z.of_nat (S i))) as Hs'
        by (replace (64 - 7 * Z.of_nat i) with (7 + (64 - 7 * Z.of_nat (S i))) by lia; by rewrite Z.pow_add_r by lia).
      rewrite Z.shiftr_div_pow2 by lia. change (2^7) with 128.
      rewrite IH; [|lia|nia|lia]. rewrite len_cons. f_equal; [|lia]. rewrite Hs.
      rewrite (Z.div_mod x 128) at 3 by lia. ring.
    + cbn [app uvarint_loop]. unfold MaxVarintLen64. rewrite Hni, Zb_bZ, Z.mod_small by lia.
      rewrite (proj2 (Z.ltb_lt x 128)) by lia.
      assert ((i =? 10 - 1)%nat = false) as -> by (apply Nat.eqb_neq; lia). simpl.
      rewrite u64_id by (unfold in_u64; rewrite Z.shiftl_mul_pow2 by lia; nia).
      by rewrite lor_shift by lia.
Qed.

Lemma Uvarint_AppendUvarint (x : Z) (rest : bytes) :
  in_u64 x -> Uvarint (uvarint_bytes 9 x ++ rest) = (x, len (uvarint_bytes 9 x)).
Proof.
  intros Hx. unfold Uvarint. change 0 with (7 * Z.of_nat 0) at 2.
  rewrite (uvarint_loop_spec 9 0 0 x); [|done|change (2 ^ (7 * Z.of_nat 0)) with 1; lia|exact Hx].
  change (2 ^ (7 * Z.of_nat 0)) with 1. f_equal; lia.
Qed.

Lemma zigzag_range (x : Z) : in_i64 x -> in_u64 (zigzag x).
Proof.
  intros Hx. unfold zigzag. destruct (x <? 0); [|apply u64_range].
  pose proof (u64_range (Z.shiftl (u64 x) 1)) as [H1 H2]. split.
  - apply Z.lxor_nonneg. lia.
  - destruct (decide (Z.lxor (u64 (Z.shiftl (u64 x) 1)) (2 ^ 64 - 1) = 0)) as [->|]; [lia|].
    apply Z.log2_lt_cancel. change (Z.log2 (2^64)) with 64.
    pose proof (Z.log2_lxor (u64 (Z.shiftl (u64 x) 1)) (2^64 - 1) ltac:(lia) ltac:(lia)) as Hl.
    change (Z.log2 (2^64 - 1)) with 63 in Hl.
    assert (Z.log2 (u64 (Z.shiftl (u64 x) 1)) <= 63); [|lia].
    change 63 with (Z.log2 (2^64 - 1)). apply Z.log2_le_mono. lia.
Qed.

Lemma lxor_ones_sub (a : Z) : in_u64 a -> Z.lxor a (2^64 - 1) = 2^64 - 1 - a.
Proof.
  intros [H1 H2]. change (2^64 - 1) with (Z.ones 64).
  assert (Z.land a (Z.lxor a (Z.ones 64)) = 0) as Hz.
  { apply Z.bits_inj'. intros n Hn. rewrite Z.land_spec, Z.lxor_spec, Z.bits_0.
    destruct (decide (n < 64)).
    - rewrite Z.ones_spec_low by lia. by destruct (Z.testbit a n).
    - rewrite <- (Z.mod_small a (2^64)) by lia. by rewrite Z.mod_pow2_bits_high by lia. }
  pose proof (Z.add_nocarry_lxor a (Z.lxor a (Z.ones 64)) Hz) as Hs.
  rewrite <- Z.lxor_assoc, Z.lxor_nilpotent, Z.lxor_0_l in Hs. lia.
Qed.

Lemma unzigzag_zigzag (x : Z) : in_i64 x -> unzigzag (zigzag x) = x.
Proof.
  intros Hx. unfold in_i64 in Hx. unfold zigzag, unzigzag. rewrite !Z.shiftl_mul_pow2 by lia. change (2^1) with 2.
  change 1 with (Z.ones 1) at 2. rewrite Z.land_ones, Z.shiftr_div_pow2 by lia. change (2^1) with 2.
  destruct (x <? 0) eqn:E; bool_cases.
  - assert (u64 (u64 x * 2) = 2 * x + 2^64) as Eu by (unfold u64; lia).
    rewrite Eu, lxor_ones_sub by (unfold in_u64; lia).
    replace (2 ^ 64 - 1 - (2 * x + 2 ^ 64)) with (-2 * x - 1) by lia.
    rewrite (proj2 (Z.eqb_neq _ 0)) by lia. simpl. rewrite i64_id by (unfold in_i64; lia).
    unfold Z.lnot. lia.
  - assert (u64 (u64 x * 2) = 2 * x) as -> by (unfold u64; lia).
    rewrite (proj2 (Z.eqb_eq _ 0)) by lia. simpl. rewrite i64_id by (unfold in_i64; lia). lia.
Qed.

Lemma Varint_AppendVarint (x : Z) (rest : bytes) :
  in_i64 x -> Varint (uvarint_bytes 9 (zigzag x) ++ rest) = (x, len (uvarint_bytes 9 (zigzag x))).
Proof.
  intros Hx. unfold Varint. rewrite Uvarint_AppendUvarint by (by apply zigzag_range).
  by rewrite unzigzag_zigzag.
Qed.

Lemma uvarint_bytes_pos (fuel : nat) (x : Z) : 1 <= len (uvarint_bytes fuel x).
Proof.
  destruct fuel; simpl; [done|]. destruct (128 <=? x); [|done].
  rewrite len_cons. pose proof (len_nonneg (uvarint_bytes fuel (Z.shiftr x 7))). lia.
Qed.

(** A read that succeeds looks only at the bytes it consumes. *)
Lemma uvarint_loop_mono (i : nat) (acc s : Z) (p q : bytes) :
  let '(v, n) := uvarint_loop i acc s p in
  0 < n -> uvarint_loop i acc s (p ++ q) = (v, n) /\ n <= Z.of_nat i + len p.
Proof.
  revert i acc s. induction p as [|b p IH]; intros i acc s; [simpl; lia|].
  cbn [uvarint_loop app]. rewrite len_cons. pose proof (len_nonneg p).
  destruct (i =? MaxVarintLen64)%nat; [lia|]. destruct (Zb b <? 128).
  - destruct (_ && _); [lia|]. intros _. split; [done|lia].
  - specialize (IH (S i) (Z.lor acc (u64 (Z.shiftl (Z.land (Zb b) 127) s))) (s + 7)).
    destruct (uvarint_loop _ _ _ p) as [v n]. intros Hn. destruct (IH Hn). split; [done|lia].
Qed.

Lemma Uvarint_mono (p q : bytes) :
  0 < (Uvarint p).2 -> Uvarint (p ++ q) = Uvarint p /\ (Uvarint p).2 <= len p.
Proof.
  intros Hn. unfold Uvarint in *. pose proof (uvarint_loop_mono 0 0 0 p q) as H.
  destruct (uvarint_loop 0 0 0 p) as [v n]. destruct (H Hn). simpl in *. split; [done|lia].
Qed.

Example varint_samples :
  AppendUvarint [] 300 = [bZ 172; bZ 2] /\ AppendVarint [] (-1) = [bZ 1] /\
  Varint (AppendVarint [] min_i64) = (min_i64, 10) /\
  Uvarint (replicate 11 (bZ 255)) = (0, -11) /\ Uvarint [bZ 128] = (0, 0).
Proof. vm_compute. repeat split; reflexivity. Qed.
