(* ===== verification/ObjectCodec.v ===== *)
(** * internal/storage/codec.go: the warm-tier and peer-wire object encoding

    [objReader] is the cursor with its sticky error; decoding is a sequence of
    reads on it, threaded by a state monad. The decoder of every version (3 to
    7) is modelled. The encoded form writes the header entries in order; the
    decoder rebuilds and sorts the map, so headers are compared by their
    (key, value) pairs. *)

From S2P Require Import Prelude GoStd CacheControl HeaderMap Api Varint.

Definition objCodecVersion : Z := 7.
Definition objCodecVersionV6 : Z := 6.
Definition objCodecVersionV5 : Z := 5.
Definition objCodecVersionV4 : Z := 4.
Definition objCodecVersionV3 : Z := 3.
Definition objFlagHasDate : Z := 1.
Definition objFlagRespNoCache : Z := 2.
Definition objFlagRespMustRevalid : Z := 4.
Definition objFlagHasConnectionList : Z := 8.
Definition objFlagHasNoCacheFields : Z := 16.

Inductive codec_error : Type := errCorrupt | errVersion (v : Z).

(** ** Encoding *)

Definition appendString (buf s : bytes) : bytes := AppendUvarint buf (u64 (len s)) ++ s.

Definition appendTime (buf : bytes) (t : Time) : bytes :=
  if is_zero t then buf ++ [x00] else AppendVarint (buf ++ [x01]) (unix_nano t).

Definition object_flags (obj : Object.t) : Z :=
  let flags := 0 in
  let flags := if Object.HasDate obj then Z.lor flags objFlagHasDate else flags in
  let flags := if Object.RespNoCache obj then Z.lor flags objFlagRespNoCache else flags in
  let flags := if Object.RespMustRevalidate obj then Z.lor flags objFlagRespMustRevalid else flags in
  let flags := if Object.HasConnectionList obj then Z.lor flags objFlagHasConnectionList else flags in
  if Object.HasNoCacheFields obj then Z.lor flags objFlagHasNoCacheFields else flags.

Definition encodeObjectInto (obj : Object.t) (buf : bytes) : bytes :=
  let buf := buf ++ [bZ objCodecVersion] in
  let buf := buf ++ Object.Key_ obj in
  let buf := appendString buf (Object.VaryKey obj) in
  let buf := appendString buf (Object.VaryValue obj) in
  let buf := AppendUvarint buf (u64 (Object.StatusCode obj)) in
  let buf := AppendVarint buf (Object.TTL obj) in
  let buf := AppendVarint buf (Object.StaleWhileRevalidate obj) in
  let buf := AppendVarint buf (Object.StaleIfError obj) in
  let buf := appendTime buf (Object.StoredAt obj) in
  let buf := appendTime buf (Object.LastModified obj) in
  let buf := AppendUvarint buf (Object.Hits obj) in
  let buf := appendString buf (Object.ETag obj) in
  let buf := buf ++ [if Object.KeepGrace obj then x01 else x00] in
  let buf := appendString buf (Object.Pool obj) in
  let buf := appendString buf (Object.CacheControl obj) in
  let buf := AppendVarint buf (Object.OriginAge obj) in
  let buf := buf ++ [bZ (object_flags obj)] in
  let buf := buf ++ Object.PairedKey obj in
  let buf := AppendUvarint buf (u64 (Len (Object.Header obj))) in
  let buf := fold_left (fun buf kv => appendString (appendString buf kv.1) kv.2)
               (pairs (Object.Header obj)) buf in
  let buf := AppendUvarint buf (u64 (len (Object.SurrogateKeys obj))) in
  let buf := fold_left appendString (Object.SurrogateKeys obj) buf in
  let buf := AppendUvarint buf (u64 (len (Object.Body obj))) in
  buf ++ Object.Body obj.

Definition encodeObject (obj : Object.t) : bytes := encodeObjectInto obj [].

(** ** The reader *)

Record objReader : Type := MkReader { r_err : bool; r_b : bytes; r_pos : Z }.

Definition R (A : Type) : Type := objReader -> A * objReader.
Definition rret {A} (a : A) : R A := fun r => (a, r).
Definition rbind {A B} (m : R A) (k : A -> R B) : R B := fun r => let '(a, r) := m r in k a r.
Notation "'get!' x <- m ; k" := (rbind m (fun x => k))
  (at level 100, x name, m at level 99, k at level 200, right associativity).

Definition rest_of (r : objReader) : bytes := drop (Z.to_nat (r_pos r)) (r_b r).

Definition r_bytes (n : Z) : R bytes := fun r =>
  if r_err r then ([], r)
  else if (n <? 0) || (len (r_b r) - r_pos r <? n) then ([], {| r with r_err := true |})
  else (take (Z.to_nat n) (rest_of r), {| r with r_pos := r_pos r + n |}).

Definition r_byte : R Z := fun r =>
  let '(b, r) := r_bytes 1 r in
  if r_err r then (0, r) else (match b with c :: _ => Zb c | [] => 0 end, r).

Definition r_uvarint : R Z := fun r =>
  if r_err r then (0, r)
  else let '(v, n) := Uvarint (rest_of r) in
       if n <=? 0 then (0, {| r with r_err := true |}) else (v, {| r with r_pos := r_pos r + n |}).

Definition r_varint : R Z := fun r =>
  if r_err r then (0, r)
  else let '(v, n) := Varint (rest_of r) in
       if n <=? 0 then (0, {| r with r_err := true |}) else (v, {| r with r_pos := r_pos r + n |}).

Definition r_str : R bytes := fun r =>
  let '(n, r) := r_uvarint r in
  if r_err r then ([], r) else r_bytes (i64 n) r.

Definition r_time : R Time := fun r =>
  let '(present, r) := r_byte r in
  if r_err r || (present =? 0) then (zero_time, r) else r_varint r.

Definition r_count : R Z := fun r =>
  let '(v, r) := r_uvarint r in
  if r_err r then (0, r)
  else if len (r_b r) - r_pos r <? v then (0, {| r with r_err := true |})
  else (i64 v, r).

(** [copy(dst[:16], r.bytes(16))]: on a failed read the key stays zero. *)
Definition r_key : R Key := fun r =>
  let '(b, r) := r_bytes 16 r in
  (take 16 b ++ drop (length b) zero_key, r).

Fixpoint header_loop (nh : nat) (hm : Map) : R Map :=
  match nh with
  | O => rret hm
  | S nh => get! k <- r_str; get! v <- r_str; header_loop nh (AppendEntry hm k v)
  end.

Definition decodeHeaderMap (nh : Z) : R Map :=
  if nh <=? 0 then rret NewMap
  else get! hm <- header_loop (Z.to_nat nh) NewMap; rret (SortEntries hm).

Fixpoint surrogate_loop (n : nat) : R (list bytes) :=
  match n with
  | O => rret []
  | S n => get! s <- r_str; get! l <- surrogate_loop n; rret (s :: l)
  end.

Definition backfillPreV6Flags (obj : Object.t) : Object.t :=
  let obj := {| obj with Object.HasDate := Has (Object.Header obj) Hdr.Date |} in
  let cc := GetAll (Object.Header obj) Hdr.CacheControl in
  if beq cc [] then obj
  else
    let parsed := ParseCacheControl cc in
    {| obj with Object.RespNoCache := NoCache parsed;
                Object.RespMustRevalidate := MustRevalidate parsed || ProxyRevalidate parsed;
                Object.HasNoCacheFields := negb (beq (NoCacheFields parsed) []) |}.

Definition flag_set (flags bit : Z) : bool := negb (Z.land flags bit =? 0).

(** The v6 block: Cache-Control, origin age, flags. *)
Definition read_transients (obj : Object.t) : R Object.t :=
  get! cc <- r_str;
  get! age <- r_varint;
  get! flags <- r_byte;
  rret {| obj with Object.CacheControl := cc; Object.OriginAge := age;
          Object.HasDate := flag_set flags objFlagHasDate;
          Object.RespNoCache := flag_set flags objFlagRespNoCache;
          Object.RespMustRevalidate := flag_set flags objFlagRespMustRevalid;
          Object.HasConnectionList := flag_set flags objFlagHasConnectionList;
          Object.HasNoCacheFields := flag_set flags objFlagHasNoCacheFields |}.

Definition read_stamps (obj : Object.t) : R Object.t :=
  get! kg <- r_byte;
  get! pool <- r_str;
  rret {| obj with Object.KeepGrace := kg =? 1; Object.Pool := pool |}.

Definition when {A} (b : bool) (m : A -> R A) (a : A) : R A := if b then m a else rret a.

Definition decode_fields (ver : Z) : R Object.t :=
  get! key <- r_key;
  get! vk <- r_str;
  get! vv <- (if objCodecVersionV4 <=? ver then r_str else rret []);
  get! status <- r_uvarint;
  get! ttl <- r_varint;
  get! swr <- r_varint;
  get! sie <- r_varint;
  get! stored <- r_time;
  get! lm <- r_time;
  get! hits <- r_uvarint;
  get! etag <- r_str;
  let obj := {| Object.zero with Object.Key_ := key; Object.VaryKey := vk; Object.VaryValue := vv;
                Object.StatusCode := i64 status; Object.TTL := ttl;
                Object.StaleWhileRevalidate := swr; Object.StaleIfError := sie;
                Object.StoredAt := stored; Object.LastModified := lm; Object.Hits := hits;
                Object.ETag := etag |} in
  get! obj <- when (objCodecVersionV5 <=? ver) read_stamps obj;
  get! obj <- when (objCodecVersionV6 <=? ver) read_transients obj;
  get! obj <- when (objCodecVersion <=? ver)
                (fun obj => get! pk <- r_key; rret {| obj with Object.PairedKey := pk |}) obj;
  get! nh <- r_count;
  get! h <- decodeHeaderMap nh;
  let obj := {| obj with Object.Header := h |} in
  let obj := if ver <? objCodecVersionV6 then backfillPreV6Flags obj else obj in
  get! nsk <- r_count;
  get! sks <- (if 0 <? nsk then surrogate_loop (Z.to_nat nsk) else rret []);
  get! blen <- r_uvarint;
  get! body <- r_bytes (i64 blen);
  rret {| obj with Object.SurrogateKeys := sks; Object.Body := body; Object.BodySize := len body |}.

Definition decodeObject (blob : bytes) : result codec_error Object.t :=
  let r := {| r_err := false; r_b := blob; r_pos := 0 |} in
  let '(ver, r) := r_byte r in
  if r_err r then Err errCorrupt
  else if negb (ver =? objCodecVersion) && negb (ver =? objCodecVersionV6)
          && negb (ver =? objCodecVersionV5) && negb (ver =? objCodecVersionV4)
          && negb (ver =? objCodecVersionV3) then Err (errVersion ver)
  else
    let '(obj, r) := decode_fields ver r in
    if r_err r then Err errCorrupt else Ok obj.

(** ** What an encoding consists of *)

Definition ub (n : Z) : bytes := uvarint_bytes 9 n.
Definition vb (n : Z) : bytes := uvarint_bytes 9 (zigzag n).
Definition sb (s : bytes) : bytes := ub (u64 (len s)) ++ s.
Definition tb (t : Time) : bytes := if is_zero t then [x00] else x01 :: vb (unix_nano t).

Definition pairs_bytes (l : list (bytes * bytes)) : bytes :=
  concat (map (fun kv => sb kv.1 ++ sb kv.2) l).
Definition keys_bytes (l : list bytes) : bytes := concat (map sb l).

Definition tail_bytes (o : Object.t) : bytes :=
  ub (u64 (Len (Object.Header o))) ++ pairs_bytes (pairs (Object.Header o))
  ++ ub (u64 (len (Object.SurrogateKeys o))) ++ keys_bytes (Object.SurrogateKeys o)
  ++ ub (u64 (len (Object.Body o))) ++ Object.Body o.

Definition fields_bytes (o : Object.t) : bytes :=
  Object.Key_ o ++ sb (Object.VaryKey o) ++ sb (Object.VaryValue o)
  ++ ub (u64 (Object.StatusCode o)) ++ vb (Object.TTL o)
  ++ vb (Object.StaleWhileRevalidate o) ++ vb (Object.StaleIfError o)
  ++ tb (Object.StoredAt o) ++ tb (Object.LastModified o) ++ ub (Object.Hits o)
  ++ sb (Object.ETag o)
  ++ ([if Object.KeepGrace o then x01 else x00] ++ sb (Object.Pool o))
  ++ (sb (Object.CacheControl o) ++ vb (Object.OriginAge o) ++ [bZ (object_flags o)])
  ++ Object.PairedKey o ++ tail_bytes o.

Lemma appendString_eq (buf s : bytes) : appendString buf s = buf ++ sb s.
Proof. unfold appendString, AppendUvarint, sb, ub. by rewrite app_assoc. Qed.

Lemma appendTime_eq (buf : bytes) (t : Time) : appendTime buf t = buf ++ tb t.
Proof.
  unfold appendTime, AppendVarint, AppendUvarint, tb. destruct (is_zero t); [done|].
  by rewrite <- app_assoc.
Qed.

Lemma fold_append {A} (f : bytes -> A -> bytes) (g : A -> bytes) (l : list A) (buf : bytes) :
  (forall b x, f b x = b ++ g x) -> fold_left f l buf = buf ++ concat (map g l).
Proof.
  intros Hf. revert buf. induction l as [|x l IH]; intros buf; simpl; [by rewrite app_nil_r|].
  by rewrite IH, Hf, <- app_assoc.
Qed.

Lemma len_pairs (h : Map) : len (pairs h) = Len h.
Proof. unfold len, Len, pairs. by rewrite length_map. Qed.

Lemma encodeObjectInto_eq (o : Object.t) (buf : bytes) :
  encodeObjectInto o buf = buf ++ bZ objCodecVersion :: fields_bytes o.
Proof.
  unfold encodeObjectInto.
  rewrite (fold_append appendString sb) by apply appendString_eq.
  rewrite (fold_append _ (fun kv : bytes * bytes => sb kv.1 ++ sb kv.2))
    by (intros; by rewrite !appendString_eq, <- app_assoc).
  rewrite !appendString_eq, !appendTime_eq. unfold AppendVarint, AppendUvarint.
  unfold fields_bytes, tail_bytes, pairs_bytes, keys_bytes, vb, ub.
  by rewrite <- !app_assoc.
Qed.

(** ** Parsing: what a read consumes, and what it does on too little input

    [parses m x a]: at a cursor with [x] ahead, [m] consumes [x] and returns
    [a]; with only a strict prefix of [x] ahead, it sets the error. [sticky m]:
    once set, the error stays. *)

Definition at_ (r : objReader) (rest : bytes) : Prop :=
  r_err r = false /\ 0 <= r_pos r /\ rest_of r = rest /\ len (r_b r) - r_pos r = len rest.

Definition sticky {A} (m : R A) : Prop := forall r, r_err r = true -> r_err (m r).2 = true.

Record parses {A} (m : R A) (x : bytes) (a : A) : Prop := {
  parses_sticky : sticky m;
  parses_ok : forall r rest, at_ r (x ++ rest) -> exists r', m r = (a, r') /\ at_ r' rest;
  parses_trunc : forall r p q, at_ r p -> x = p ++ q -> q <> [] -> r_err (m r).2 = true;
}.

Create HintDb codec.

Lemma sticky_ret {A} (a : A) : sticky (rret a).
Proof. by intros r. Qed.

Lemma sticky_bind {A B} (m : R A) (k : A -> R B) :
  sticky m -> (forall a, sticky (k a)) -> sticky (rbind m k).
Proof.
  intros Hm Hk r Hr. unfold rbind. specialize (Hm r Hr). destruct (m r) as [a r'].
  by apply Hk.
Qed.

Lemma sticky_bytes (n : Z) : sticky (r_bytes n).
Proof. intros r Hr. unfold r_bytes. by rewrite Hr. Qed.

Lemma sticky_byte : sticky r_byte.
Proof. intros r Hr. unfold r_byte, r_bytes. rewrite Hr. simpl. by rewrite Hr. Qed.

Lemma sticky_uvarint : sticky r_uvarint.
Proof. intros r Hr. unfold r_uvarint. by rewrite Hr. Qed.

Lemma sticky_varint : sticky r_varint.
Proof. intros r Hr. unfold r_varint. by rewrite Hr. Qed.

Lemma sticky_str : sticky r_str.
Proof. intros r Hr. unfold r_str, r_uvarint. by rewrite Hr, Hr. Qed.

Lemma sticky_time : sticky r_time.
Proof. intros r Hr. unfold r_time, r_byte, r_bytes. by rewrite Hr, Hr, Hr. Qed.

Lemma sticky_count : sticky r_count.
Proof. intros r Hr. unfold r_count, r_uvarint. by rewrite Hr, Hr. Qed.

Lemma sticky_key : sticky r_key.
Proof. intros r Hr. unfold r_key, r_bytes. by rewrite Hr. Qed.

#[export] Hint Resolve sticky_ret sticky_bytes sticky_byte sticky_uvarint sticky_varint sticky_str
  sticky_time sticky_count sticky_key : codec.

Lemma sticky_header_loop (n : nat) (hm : Map) : sticky (header_loop n hm).
Proof.
  revert hm. induction n; intros hm; simpl; [auto with codec|].
  repeat (apply sticky_bind; [auto with codec|intros ?]). apply IHn.
Qed.

Lemma sticky_decodeHeaderMap (n : Z) : sticky (decodeHeaderMap n).
Proof.
  unfold decodeHeaderMap. destruct (n <=? 0); [auto with codec|].
  apply sticky_bind; [apply sticky_header_loop|auto with codec].
Qed.

Lemma sticky_surrogate_loop (n : nat) : sticky (surrogate_loop n).
Proof.
  induction n; simpl; [auto with codec|].
  repeat (apply sticky_bind; [auto with codec|intros ?]). auto with codec.
Qed.

Lemma sticky_surrogates (n : Z) :
  sticky (if 0 <? n then surrogate_loop (Z.to_nat n) else rret []).
Proof. destruct (0 <? n); [apply sticky_surrogate_loop|auto with codec]. Qed.

#[export] Hint Resolve sticky_decodeHeaderMap sticky_surrogates sticky_surrogate_loop
  sticky_header_loop : codec.

Lemma sticky_stamps (o : Object.t) : sticky (read_stamps o).
Proof. repeat (apply sticky_bind; [auto with codec|intros ?]). auto with codec. Qed.

Lemma sticky_transients (o : Object.t) : sticky (read_transients o).
Proof. repeat (apply sticky_bind; [auto with codec|intros ?]). auto with codec. Qed.

Lemma sticky_paired (o : Object.t) :
  sticky (get! pk <- r_key; rret {| o with Object.PairedKey := pk |}).
Proof. apply sticky_bind; auto with codec. Qed.

#[export] Hint Resolve sticky_stamps sticky_transients sticky_paired : codec.

Ltac stick :=
  intros; repeat (apply sticky_bind; [solve [auto with codec]|intros]); solve [auto with codec].

Lemma parses_ret {A} (a : A) : parses (rret a) [] a.
Proof.
  split; [apply sticky_ret| |].
  - intros r rest Hr. by exists r.
  - intros r p q _ E Hq. symmetry in E. by apply app_nil in E as [_ ->].
Qed.

Lemma prefix_split (x y p q : bytes) :
  x ++ y = p ++ q -> (exists q', x = p ++ q' /\ q' <> []) \/ (exists p', p = x ++ p' /\ y = p' ++ q).
Proof.
  intros E. apply app_eq_inv in E as [(k & -> & ->)|(k & -> & ->)].
  - destruct k; [|left; by eexists]. right. exists []. by rewrite !app_nil_r.
  - right. by eexists.
Qed.

Lemma parses_bind {A B} (m : R A) (k : A -> R B) (x y : bytes) (a : A) (b : B) :
  parses m x a -> parses (k a) y b -> (forall a, sticky (k a)) -> parses (rbind m k) (x ++ y) b.
Proof.
  intros [Hs Hok Htr] [Hs' Hok' Htr'] Hk. split; [by apply sticky_bind| |].
  - intros r rest Hr. rewrite <- app_assoc in Hr. destruct (Hok _ _ Hr) as (r1 & E1 & H1).
    unfold rbind. rewrite E1. eauto.
  - intros r p q Hr E Hq. unfold rbind. apply prefix_split in E as [(q' & E & Hq')|(p' & -> & E)].
    + specialize (Htr r p q' Hr E Hq'). destruct (m r). by apply Hk.
    + destruct (Hok _ _ Hr) as (r1 & -> & H1). by eapply Htr'.
Qed.

(** The last read of a block: nothing follows. *)
Lemma parses_bind_ret {A B} (m : R A) (f : A -> B) (x : bytes) (a : A) :
  parses m x a -> parses (get! v <- m; rret (f v)) x (f a).
Proof.
  intros H. rewrite <- (app_nil_r x). eapply parses_bind; [exact H|apply parses_ret|stick].
Qed.

Lemma drop_rest (b : bytes) (pos n : Z) :
  0 <= pos -> 0 <= n -> drop (Z.to_nat (pos + n)) b = drop (Z.to_nat n) (drop (Z.to_nat pos) b).
Proof. intros. rewrite drop_drop. f_equal. lia. Qed.

(** Moving the cursor over the first [n] bytes ahead. *)
Lemma at_advance (r : objReader) (x rest : bytes) (n : Z) :
  at_ r (x ++ rest) -> n = len x ->
  at_ {| r_err := false; r_b := r_b r; r_pos := r_pos r + n |} rest.
Proof.
  intros (He & Hp & Hr & Hl) ->. pose proof (len_nonneg x). split_and!; simpl; [done|lia| |].
  - unfold rest_of in *. simpl. rewrite drop_rest, Hr by done. apply drop_app_exact.
    unfold len. lia.
  - rewrite len_app in Hl. lia.
Qed.

Lemma parses_bytes (x : bytes) : parses (r_bytes (len x)) x x.
Proof.
  pose proof (len_nonneg x). split; [apply sticky_bytes| |].
  - intros r rest Hr. pose proof Hr as (He & Hp & Hd & Hl). rewrite len_app in Hl.
    pose proof (len_nonneg rest). unfold r_bytes. rewrite He.
    rewrite (proj2 (Z.ltb_ge _ 0)), (proj2 (Z.ltb_ge _ (len x))) by lia. simpl.
    rewrite Hd, take_app_exact by (unfold len; lia). eexists. split; [done|]. eapply at_advance; [exact Hr|reflexivity].
  - intros r p q (He & Hp & Hd & Hl) -> Hq. unfold r_bytes. rewrite He.
    rewrite len_app in *. destruct q; [done|]. rewrite len_cons in *. pose proof (len_nonneg q).
    rewrite (proj2 (Z.ltb_lt _ (_ + _))) by lia. by rewrite orb_true_r.
Qed.

Lemma parses_byte (c : byte) : parses r_byte [c] (Zb c).
Proof.
  destruct (parses_bytes [c]) as [_ Hok Htr]. split; [apply sticky_byte| |].
  - intros r rest Hr. destruct (Hok _ _ Hr) as (r' & E & H'). unfold r_byte.
    change 1 with (len [c]). rewrite E. destruct H' as (He & H'). rewrite He. eexists. split; [done|].
    split; done.
  - intros r p q Hr E Hq. specialize (Htr r p q Hr E Hq). unfold r_byte.
    change 1 with (len [c]). destruct (r_bytes (len [c]) r) as [v r']. simpl in Htr. by rewrite Htr.
Qed.

Lemma parses_uvarint (n : Z) : in_u64 n -> parses r_uvarint (ub n) n.
Proof.
  intros Hn. pose proof (uvarint_bytes_pos 9 n) as Hpos. split; [apply sticky_uvarint| |].
  - intros r rest Hr. pose proof Hr as (He & Hp & Hd & Hl). unfold r_uvarint. rewrite He, Hd.
    unfold ub in *. rewrite Uvarint_AppendUvarint by done.
    rewrite (proj2 (Z.leb_gt _ 0)) by lia. eexists. split; [reflexivity|].
    eapply at_advance; [exact Hr|reflexivity].
  - intros r p q (He & Hp & Hd & Hl) E Hq. unfold r_uvarint. rewrite He, Hd.
    destruct (Uvarint p) as [v m] eqn:EU. destruct (m <=? 0) eqn:Em; [done|]. bool_cases.
    exfalso. pose proof (Uvarint_mono p q) as Hm. rewrite EU in Hm. destruct (Hm Em) as [E1 E2].
    unfold ub in E. rewrite <- E in E1. rewrite <- (app_nil_r (uvarint_bytes 9 n)) in E1.
    rewrite Uvarint_AppendUvarint in E1 by done. apply (f_equal snd) in E1. cbn [snd] in E1, E2.
    rewrite <- E1, E, len_app in E2. destruct q; [done|]. rewrite len_cons in E2.
    pose proof (len_nonneg q). lia.
Qed.

(** A read that maps the value of another one. *)
Lemma parses_map {A B} (m : R A) (m' : R B) (x : bytes) (a : A) (b : B) :
  parses m x a -> (forall r, (m' r).2 = (m r).2) ->
  (forall r, m r = (a, (m r).2) -> r_err (m r).2 = false -> (m' r).1 = b) -> parses m' x b.
Proof.
  intros [Hs Hok Htr] H2 H1. split.
  - intros r Hr. rewrite H2. by apply Hs.
  - intros r rest Hr. destruct (Hok _ _ Hr) as (r' & E & H'). exists r'. split; [|done].
    specialize (H1 r). specialize (H2 r). rewrite E in *. cbn [fst snd] in *.
    destruct (m' r) as [b' r'']. cbn [fst snd] in *. rewrite H2, (H1 eq_refl); [done|apply H'].
  - intros. rewrite H2. by eapply Htr.
Qed.

Lemma parses_varint (n : Z) : in_i64 n -> parses r_varint (vb n) n.
Proof.
  intros Hn. eapply parses_map; [apply (parses_uvarint (zigzag n)), zigzag_range, Hn| |];
    intros r; unfold r_varint, r_uvarint, Varint; destruct (r_err r) eqn:He; [done| |cbn; congruence|].
  - destruct (Uvarint (rest_of r)) as [v m]. by destruct (m <=? 0).
  - intros E Hf. destruct (Uvarint (rest_of r)) as [v m]. destruct (m <=? 0); [done|].
    apply (f_equal fst) in E. cbn [fst] in *. rewrite E. by apply unzigzag_zigzag.
Qed.

Lemma parses_key (k : Key) : wf_key k -> parses r_key k k.
Proof.
  intros Hk. unfold wf_key in Hk. eapply (parses_map (r_bytes (len k))); [apply parses_bytes| |];
    unfold r_key; replace (len k) with 16 by (unfold len; lia); intros r.
  - by destruct (r_bytes 16 r).
  - intros E _. destruct (r_bytes 16 r) as [b r']. cbn [fst snd] in *. injection E as ->.
    rewrite take_ge by lia. rewrite drop_ge by (rewrite Hk; done). apply app_nil_r.
Qed.

Lemma r_str_bind (r : objReader) : r_str r = rbind r_uvarint (fun n => r_bytes (i64 n)) r.
Proof.
  unfold r_str, rbind. destruct (r_uvarint r) as [n r'] eqn:E. destruct (r_err r') eqn:Er; [|done].
  unfold r_bytes. by rewrite Er.
Qed.

Lemma parses_ext {A} (m m' : R A) (x : bytes) (a : A) :
  (forall r, m r = m' r) -> parses m' x a -> parses m x a.
Proof.
  intros He H. eapply parses_map; [exact H|intros r; by rewrite He|].
  intros r E _. by rewrite He, E.
Qed.

Lemma u64_len {A} (l : list A) : len l < 2^63 -> u64 (len l) = len l /\ i64 (len l) = len l.
Proof.
  intros. pose proof (len_nonneg l). split; [apply u64_id|apply i64_id]; unfold in_u64, in_i64; lia.
Qed.

Lemma parses_sized_bytes (s : bytes) :
  len s < 2^63 -> parses (get! n <- r_uvarint; r_bytes (i64 n)) (ub (u64 (len s)) ++ s) s.
Proof.
  intros Hs. destruct (u64_len s Hs) as [Eu Ei]. rewrite Eu. eapply parses_bind.
  - apply parses_uvarint. pose proof (len_nonneg s). unfold in_u64. lia.
  - rewrite Ei. apply parses_bytes.
  - intros. apply sticky_bytes.
Qed.

Lemma parses_str (s : bytes) : len s < 2^63 -> parses r_str (sb s) s.
Proof. intros Hs. eapply parses_ext; [apply r_str_bind|]. by apply parses_sized_bytes. Qed.

(** The time flag: a zero byte stands for the zero time, and a failed read
    returns zero. *)
Lemma r_time_bind (r : objReader) :
  r_time r = (get! p <- r_byte; if p =? 0 then rret zero_time else r_varint) r.
Proof.
  unfold r_time, rbind, r_byte. destruct (r_bytes 1 r) as [b r'].
  destruct (r_err r') eqn:Er; [by rewrite Er|]. rewrite Er. by destruct (_ =? 0).
Qed.

Lemma parses_time (t : Time) : is_zero t = true \/ in_i64 t -> parses r_time (tb t) t.
Proof.
  intros Ht. eapply parses_ext; [apply r_time_bind|]. unfold tb, is_zero, unix_nano in *.
  assert (forall p, sticky (if p =? 0 then rret zero_time else r_varint)) as Hs
    by (intros p; destruct (p =? 0); auto with codec).
  destruct (t =? zero_time) eqn:E.
  - bool_cases. subst t. apply (parses_bind _ _ [x00] [] _ _ (parses_byte x00)); [apply parses_ret|done].
  - destruct Ht as [|Ht]; [done|]. rewrite i64_id by done.
    apply (parses_bind _ _ [x01] (vb t) _ _ (parses_byte x01)); [by apply parses_varint|done].
Qed.

(** A count is checked against the bytes that remain: what follows must be
    at least as long, which every list of length-prefixed items is. *)
Lemma parses_counted {B} (k : Z -> R B) (n : Z) (y : bytes) (b : B) :
  0 <= n < 2^63 -> n <= len y -> parses (k n) y b -> (forall a, sticky (k a)) ->
  parses (rbind r_count k) (ub (u64 n) ++ y) b.
Proof.
  intros Hn Hy [Hs Hok Htr] Hk. rewrite u64_id by (unfold in_u64; lia).
  destruct (parses_uvarint n ltac:(unfold in_u64; lia)) as [_ Uok Utr].
  assert (i64 n = n) as Ei by (apply i64_id; unfold in_i64; lia).
  split; [apply sticky_bind; auto with codec| |]; unfold rbind, r_count.
  - intros r rest Hr. rewrite <- app_assoc in Hr. destruct (Uok _ _ Hr) as (r1 & -> & H1).
    pose proof H1 as (He & _ & _ & Hl). rewrite len_app in Hl. pose proof (len_nonneg rest).
    rewrite He, (proj2 (Z.ltb_ge _ n)), Ei by lia. by apply Hok.
  - intros r p q Hr E Hq. apply prefix_split in E as [(q' & E & Hq')|(p' & -> & E)].
    + specialize (Utr r p q' Hr E Hq'). destruct (r_uvarint r) as [v r1]. cbn [snd] in Utr.
      rewrite Utr. by apply Hk.
    + destruct (Uok _ _ Hr) as (r1 & -> & H1). pose proof H1 as (He & _). rewrite He, Ei.
      destruct (_ <? n); [by apply Hk|by eapply Htr].
Qed.

Definition rebuild (l : list (bytes * bytes)) (hm : Map) : Map :=
  fold_left (fun hm kv => AppendEntry hm kv.1 kv.2) l hm.

Definition small_pair (kv : bytes * bytes) : Prop := len kv.1 < 2^63 /\ len kv.2 < 2^63.

Lemma parses_header_loop (l : list (bytes * bytes)) (hm : Map) :
  Forall small_pair l -> parses (header_loop (length l) hm) (pairs_bytes l) (rebuild l hm).
Proof.
  intros Hl. revert hm. induction Hl as [|[k v] l [Hk Hv] Hl IH]; intros hm; [apply parses_ret|].
  cbn [length header_loop]. unfold pairs_bytes. cbn [map concat]. rewrite <- app_assoc.
  eapply parses_bind; [by apply parses_str| |stick].
  eapply parses_bind; [by apply parses_str| |stick]. apply IH.
Qed.

Definition decoded_header (h : Map) : Map :=
  if Len h <=? 0 then NewMap else SortEntries (rebuild (pairs h) NewMap).

Lemma parses_headers (h : Map) :
  Forall small_pair (pairs h) -> parses (decodeHeaderMap (Len h)) (pairs_bytes (pairs h)) (decoded_header h).
Proof.
  intros Hl. unfold decodeHeaderMap, decoded_header. pose proof (len_pairs h) as El.
  destruct (Len h <=? 0) eqn:E; bool_cases.
  - destruct (pairs h); [apply parses_ret|]. rewrite len_cons in El. pose proof (len_nonneg l). lia.
  - apply parses_bind_ret. rewrite <- El. unfold len. rewrite Nat2Z.id. by apply parses_header_loop.
Qed.

Lemma parses_surrogates (l : list bytes) :
  Forall (fun s => len s < 2^63) l -> parses (surrogate_loop (length l)) (keys_bytes l) l.
Proof.
  induction 1 as [|s l Hs Hl IH]; [apply parses_ret|].
  cbn [length surrogate_loop]. unfold keys_bytes. cbn [map concat].
  eapply parses_bind; [by apply parses_str| |stick].
  by apply (parses_bind_ret _ (fun l => s :: l)).
Qed.

Lemma parses_surrogate_list (l : list bytes) :
  Forall (fun s => len s < 2^63) l ->
  parses (if 0 <? len l then surrogate_loop (Z.to_nat (len l)) else rret []) (keys_bytes l) l.
Proof.
  intros Hl. destruct l as [|s l]; [apply parses_ret|]. rewrite (proj2 (Z.ltb_lt 0 _)).
  - unfold len at 1. rewrite Nat2Z.id. by apply parses_surrogates.
  - rewrite len_cons. pose proof (len_nonneg l). lia.
Qed.

(** ** Objects the codec can carry *)

(** The ranges of the fields' Go types; a time is the zero time or fits the
    64-bit nanosecond count [UnixNano] returns; the encoding fits a slice. *)
Record encodable (o : Object.t) : Prop := {
  enc_key : wf_key (Object.Key_ o);
  enc_paired : wf_key (Object.PairedKey o);
  enc_status : in_i64 (Object.StatusCode o);
  enc_ttl : in_i64 (Object.TTL o);
  enc_swr : in_i64 (Object.StaleWhileRevalidate o);
  enc_sie : in_i64 (Object.StaleIfError o);
  enc_age : in_i64 (Object.OriginAge o);
  enc_hits : in_u64 (Object.Hits o);
  enc_stored : is_zero (Object.StoredAt o) = true \/ in_i64 (Object.StoredAt o);
  enc_lastmod : is_zero (Object.LastModified o) = true \/ in_i64 (Object.LastModified o);
  enc_header : wf (Object.Header o);
  enc_len : len (encodeObject o) < 2^63;
}.

(** The object a decoder returns: the header map is rebuilt and sorted, and
    [BodySize] is the inline body's length. *)
Definition decoded (o : Object.t) : Object.t :=
  {| o with Object.Header := decoded_header (Object.Header o);
            Object.BodySize := len (Object.Body o) |}.

Lemma len_encodeObject (o : Object.t) : len (encodeObject o) = 1 + len (fields_bytes o).
Proof. unfold encodeObject. rewrite encodeObjectInto_eq. apply len_cons. Qed.

Lemma len_sb (s : bytes) : 1 + len s <= len (sb s).
Proof. unfold sb, ub. rewrite len_app. pose proof (uvarint_bytes_pos 9 (u64 (len s))). lia. Qed.

Lemma concat_bounds {A} (g : A -> bytes) (f : A -> Z) (l : list A) :
  (forall x, 0 <= f x /\ 1 + f x <= len (g x)) ->
  len l <= len (concat (map g l)) /\ Forall (fun x => f x < len (concat (map g l))) l.
Proof.
  intros Hg. induction l as [|x l [IH1 IH2]]; [by split; [done|constructor]|].
  cbn [map concat]. rewrite len_cons, len_app. destruct (Hg x).
  pose proof (len_nonneg (concat (map g l))). split; [lia|]. constructor; [lia|].
  eapply Forall_impl; [exact IH2|]. simpl. lia.
Qed.

Lemma pairs_bounds (l : list (bytes * bytes)) (bound : Z) :
  len (pairs_bytes l) < bound ->
  len l <= len (pairs_bytes l) /\ Forall (fun kv => len kv.1 < bound /\ len kv.2 < bound) l.
Proof.
  intros Hb. destruct (concat_bounds (fun kv => sb kv.1 ++ sb kv.2)
                         (fun kv : bytes * bytes => len kv.1 + len kv.2) l) as [H1 H2].
  - intros kv. rewrite len_app. pose proof (len_sb kv.1). pose proof (len_sb kv.2).
    pose proof (len_nonneg kv.1). pose proof (len_nonneg kv.2). lia.
  - split; [exact H1|]. eapply Forall_impl; [exact H2|]. intros kv Hkv. cbn beta in Hkv.
    pose proof (len_nonneg kv.1). pose proof (len_nonneg kv.2). unfold pairs_bytes in Hb. lia.
Qed.

Lemma keys_bounds (l : list bytes) (bound : Z) :
  len (keys_bytes l) < bound -> len l <= len (keys_bytes l) /\ Forall (fun s => len s < bound) l.
Proof.
  intros Hb. destruct (concat_bounds sb len l) as [H1 H2].
  - intros s. split; [apply len_nonneg|apply len_sb].
  - split; [exact H1|]. eapply Forall_impl; [exact H2|]. intros s Hs. cbn beta in Hs.
    unfold keys_bytes in Hb. lia.
Qed.

(** Every string of an encodable object is shorter than the encoding. *)
Record small_fields (o : Object.t) : Prop := {
  small_vk : len (Object.VaryKey o) < 2^63;
  small_vv : len (Object.VaryValue o) < 2^63;
  small_etag : len (Object.ETag o) < 2^63;
  small_pool : len (Object.Pool o) < 2^63;
  small_cc : len (Object.CacheControl o) < 2^63;
  small_body : len (Object.Body o) < 2^63;
  small_headers : len (pairs_bytes (pairs (Object.Header o))) < 2^63;
  small_keys : len (keys_bytes (Object.SurrogateKeys o)) < 2^63;
}.

Lemma encodable_small (o : Object.t) : encodable o -> small_fields o.
Proof.
  intros [_ _ _ _ _ _ _ _ _ _ _ Hl]. rewrite len_encodeObject in Hl.
  unfold fields_bytes, tail_bytes in Hl. rewrite !len_app in Hl.
  pose proof (len_sb (Object.VaryKey o)). pose proof (len_sb (Object.VaryValue o)).
  pose proof (len_sb (Object.ETag o)). pose proof (len_sb (Object.Pool o)).
  pose proof (len_sb (Object.CacheControl o)).
  repeat match type of Hl with context [len ?l] =>
    lazymatch goal with H : 0 <= len l |- _ => fail | _ => pose proof (len_nonneg l) end end.
  split; lia.
Qed.

(** ** The flags byte *)

Lemma object_flags_bits (o : Object.t) :
  let f := Zb (bZ (object_flags o)) in
  flag_set f objFlagHasDate = Object.HasDate o /\
  flag_set f objFlagRespNoCache = Object.RespNoCache o /\
  flag_set f objFlagRespMustRevalid = Object.RespMustRevalidate o /\
  flag_set f objFlagHasConnectionList = Object.HasConnectionList o /\
  flag_set f objFlagHasNoCacheFields = Object.HasNoCacheFields o.
Proof.
  unfold object_flags. destruct (Object.HasDate o), (Object.RespNoCache o),
    (Object.RespMustRevalidate o), (Object.HasConnectionList o), (Object.HasNoCacheFields o);
    vm_compute; split_and!; reflexivity.
Qed.

Lemma parses_eq {A} (m : R A) (x : bytes) (a b : A) : parses m x a -> a = b -> parses m x b.
Proof. by intros ? <-. Qed.

Lemma parses_stamps (o o' : Object.t) :
  len (Object.Pool o) < 2^63 ->
  parses (read_stamps o') ([if Object.KeepGrace o then x01 else x00] ++ sb (Object.Pool o))
    {| o' with Object.KeepGrace := Object.KeepGrace o; Object.Pool := Object.Pool o |}.
Proof.
  intros Hp. eapply parses_bind; [apply parses_byte| |stick].
  eapply parses_eq; [apply parses_bind_ret; by apply parses_str|]. by destruct (Object.KeepGrace o).
Qed.

Lemma parses_transients (o o' : Object.t) :
  len (Object.CacheControl o) < 2^63 -> in_i64 (Object.OriginAge o) ->
  parses (read_transients o')
    (sb (Object.CacheControl o) ++ vb (Object.OriginAge o) ++ [bZ (object_flags o)])
    {| o' with Object.CacheControl := Object.CacheControl o; Object.OriginAge := Object.OriginAge o;
       Object.HasDate := Object.HasDate o; Object.RespNoCache := Object.RespNoCache o;
       Object.RespMustRevalidate := Object.RespMustRevalidate o;
       Object.HasConnectionList := Object.HasConnectionList o;
       Object.HasNoCacheFields := Object.HasNoCacheFields o |}.
Proof.
  intros Hc Ha. eapply parses_bind; [by apply parses_str| |stick].
  eapply parses_bind; [by apply parses_varint| |stick].
  eapply parses_eq; [apply parses_bind_ret; apply parses_byte|]. cbv beta.
  by destruct (object_flags_bits o) as (-> & -> & -> & -> & ->).
Qed.

Ltac project :=
  cbn [Object.StoredAt Object.LastModified Object.ETag Object.Pool Object.VaryKey Object.VaryValue
       Object.CacheControl Object.Header Object.SurrogateKeys Object.Body Object.BodySize Object.Hits
       Object.TTL Object.OriginAge Object.StaleIfError Object.StaleWhileRevalidate Object.StatusCode
       Object.Key_ Object.PairedKey Object.HasConnectionList Object.HasNoCacheFields Object.HasDate
       Object.RespNoCache Object.RespMustRevalidate Object.KeepGrace Object.zero].

Lemma le_add_nonneg (a b : Z) : 0 <= b -> a <= a + b.
Proof. lia. Qed.

(** The current format: every field of an encodable object, in order. *)
Lemma parses_fields (o : Object.t) :
  encodable o -> parses (decode_fields objCodecVersion) (fields_bytes o) (decoded o).
Proof.
  intros He. pose proof (encodable_small o He) as [Hvk Hvv Het Hpo Hcc Hbo Hhd Hsk].
  destruct He as [Hk Hpk Hst Http Hsw Hsi Hag Hhi Hsa Hlm Hw _].
  destruct (pairs_bounds _ _ Hhd) as [Hnh Hph]. rewrite len_pairs in Hnh.
  destruct (keys_bounds _ _ Hsk) as [Hns Hks].
  assert (0 <= Len (Object.Header o) < 2^63) as Hn1 by (split; [apply len_nonneg|lia]).
  assert (0 <= len (Object.SurrogateKeys o) < 2^63) as Hn2 by (split; [apply len_nonneg|lia]).
  unfold decode_fields, fields_bytes, tail_bytes.
  change (objCodecVersionV4 <=? objCodecVersion) with true.
  change (objCodecVersionV5 <=? objCodecVersion) with true.
  change (objCodecVersionV6 <=? objCodecVersion) with true.
  change (objCodecVersion <=? objCodecVersion) with true.
  change (objCodecVersion <? objCodecVersionV6) with false. unfold when. cbv iota.
  eapply parses_bind; [by apply parses_key| |stick].
  eapply parses_bind; [by apply parses_str| |stick].
  eapply parses_bind; [by apply parses_str| |stick].
  eapply parses_bind; [apply parses_uvarint, u64_range| |stick].
  do 3 (eapply parses_bind; [by apply parses_varint| |stick]).
  do 2 (eapply parses_bind; [by apply parses_time| |stick]).
  eapply parses_bind; [by apply parses_uvarint| |stick].
  eapply parses_bind; [by apply parses_str| |stick].
  eapply parses_bind; [by apply (parses_stamps o)| |stick]. project.
  eapply parses_bind; [by apply (parses_transients o)| |stick]. project.
  eapply parses_bind; [by apply parses_bind_ret, parses_key| |stick]. project.
  eapply parses_counted; [assumption| | |stick].
  { rewrite len_app. etransitivity; [eassumption|]. apply le_add_nonneg, len_nonneg. }
  eapply parses_bind; [by apply parses_headers| |stick].
  eapply parses_counted; [assumption| | |stick].
  { rewrite len_app. etransitivity; [eassumption|]. apply le_add_nonneg, len_nonneg. }
  eapply parses_bind; [by apply parses_surrogate_list| |stick].
  destruct (u64_len (Object.Body o) Hbo) as [-> Ei].
  eapply parses_bind; [apply parses_uvarint; split; [apply len_nonneg|lia]| |stick]. rewrite Ei.
  eapply parses_eq; [apply parses_bind_ret, parses_bytes|].
  rewrite i64_u64 by done. by destruct o.
Qed.

(** ** The rebuilt header map *)

Lemma rebuild_spec (l : list (bytes * bytes)) (hm : Map) :
  wf hm -> Forall (fun kv => canonicalize kv.1 = kv.1) l ->
  wf (rebuild l hm) /\ pairs (rebuild l hm) = pairs hm ++ l.
Proof.
  intros Hw Hl. revert hm Hw. induction Hl as [|[k v] l Hk Hl IH]; intros hm Hw.
  - split; [done|]. by rewrite app_nil_r.
  - cbn [fst] in Hk. change (rebuild ((k, v) :: l) hm) with (rebuild l (AppendEntry hm k v)).
    rewrite AppendEntry_canonical, Hk.
    destruct (wf_AppendEntryCanonical hm k v Hw Hk) as [Hw' Hp].
    destruct (IH _ Hw') as [Hw'' Hp']. split; [done|]. rewrite Hp', Hp, <- app_assoc. done.
Qed.

Lemma sorted_map {A B} (f : A -> bytes) (g : B -> bytes) (l : list A) (k : list B) :
  map f l = map g k -> sorted_by f l -> sorted_by g k.
Proof.
  revert k. induction l as [|x l IH]; intros [|y k] E; [done|done|done|].
  injection E as Ex El. intros [Hx Hl]. split; [|by apply IH].
  apply (Forall_map g (fun s => bytes_leb (g y) s = true)). rewrite <- El, <- Ex.
  by apply Forall_map.
Qed.

Lemma map_fst_pairs (h : Map) : map fst (pairs h) = map key (entries h).
Proof. unfold pairs. by rewrite map_map. Qed.

Lemma decoded_header_spec (h : Map) :
  wf h ->
  wf (decoded_header h) /\ sorted_by key (entries (decoded_header h)) /\
  (forall k, all_values k (pairs (decoded_header h)) = all_values k (pairs h)) /\
  (sorted_by key (entries h) -> pairs (decoded_header h) = pairs h).
Proof.
  intros Hw. unfold decoded_header. pose proof (len_pairs h) as El.
  destruct (Len h <=? 0) eqn:E; bool_cases.
  { destruct (pairs h); [|rewrite len_cons in El; pose proof (len_nonneg l); lia].
    split_and!; [apply wf_NewMap|done|done|done]. }
  destruct (rebuild_spec (pairs h) NewMap wf_NewMap (pairs_canonical h Hw)) as [Hwr Hpr].
  cbn in Hpr. split_and!.
  - by apply wf_SortEntries.
  - rewrite SortEntries_eq. apply stable_sort_sorted.
  - intros k. by rewrite all_values_SortEntries, Hpr.
  - intros Hs. rewrite SortEntries_eq, stable_sort_id; [by destruct (rebuild (pairs h) NewMap)|].
    eapply sorted_map; [|exact Hs]. by rewrite <- !map_fst_pairs, Hpr.
Qed.

(** ** Reads stay inside the blob, whatever it holds *)

Definition in_blob (r : objReader) : Prop := 0 <= r_pos r <= len (r_b r).

(** The cursor stays in range, on the same blob, and never moves back. *)
Definition safe {A} (m : R A) : Prop :=
  forall r, in_blob r -> in_blob (m r).2 /\ r_b (m r).2 = r_b r /\ r_pos r <= r_pos (m r).2.

Lemma safe_ret {A} (a : A) : safe (rret a).
Proof. intros r Hr. by split_and!. Qed.

Lemma safe_bind {A B} (m : R A) (k : A -> R B) :
  safe m -> (forall a, safe (k a)) -> safe (rbind m k).
Proof.
  intros Hm Hk r Hr. unfold rbind. destruct (Hm r Hr) as (H1 & H2 & H3). destruct (m r) as [a r1].
  cbn [snd] in *. destruct (Hk a r1 H1) as (H4 & H5 & H6). split_and!; [done|by rewrite H5, H2|lia].
Qed.

Lemma safe_bytes (n : Z) : safe (r_bytes n).
Proof.
  intros r Hr. unfold r_bytes, in_blob in *. case_tests; bool_cases; simpl; split_and!; done || lia.
Qed.

Lemma len_drop (b : bytes) (n : Z) : 0 <= n <= len b -> len (drop (Z.to_nat n) b) = len b - n.
Proof. unfold len. intros. rewrite length_drop. lia. Qed.

Lemma safe_uvarint : safe r_uvarint.
Proof.
  intros r Hr. pose proof (Uvarint_mono (rest_of r) []) as Hm. unfold r_uvarint, in_blob in *.
  unfold rest_of in *. rewrite len_drop in Hm by done. rewrite app_nil_r in Hm.
  destruct (Uvarint _) as [v n]. cbn [snd] in Hm.
  case_tests; bool_cases; simpl; split_and!; try done; try lia; destruct (Hm ltac:(lia)); lia.
Qed.

Lemma varint_cursor (r : objReader) : (r_varint r).2 = (r_uvarint r).2.
Proof.
  unfold r_varint, r_uvarint, Varint. destruct (r_err r); [done|].
  destruct (Uvarint (rest_of r)) as [v n]. by destruct (n <=? 0).
Qed.

Lemma safe_varint : safe r_varint.
Proof. intros r Hr. rewrite varint_cursor. by apply safe_uvarint. Qed.

Lemma safe_byte : safe r_byte.
Proof.
  intros r Hr. pose proof (safe_bytes 1 r Hr) as H. unfold r_byte.
  destruct (r_bytes 1 r) as [b r']. by destruct (r_err r').
Qed.

Lemma safe_ext {A} (m m' : R A) : (forall r, m r = m' r) -> safe m' -> safe m.
Proof. intros He H r Hr. rewrite He. by apply H. Qed.

Lemma safe_str : safe r_str.
Proof. eapply safe_ext; [apply r_str_bind|]. apply safe_bind; [apply safe_uvarint|intros; apply safe_bytes]. Qed.

Lemma safe_time : safe r_time.
Proof.
  eapply safe_ext; [apply r_time_bind|]. apply safe_bind; [apply safe_byte|].
  intros p. destruct (p =? 0); [apply safe_ret|apply safe_varint].
Qed.

Lemma safe_count : safe r_count.
Proof.
  intros r Hr. pose proof (safe_uvarint r Hr) as H. unfold r_count.
  destruct (r_uvarint r) as [v r']. case_tests; exact H.
Qed.

Lemma safe_key : safe r_key.
Proof. intros r Hr. pose proof (safe_bytes 16 r Hr) as H. unfold r_key. by destruct (r_bytes 16 r). Qed.

#[export] Hint Resolve safe_ret safe_bytes safe_uvarint safe_varint safe_byte safe_str safe_time
  safe_count safe_key : codec.

Ltac safely :=
  intros; first [solve [auto with codec] | apply safe_bind; [solve [auto with codec]|safely]].

Lemma safe_header_loop (n : nat) (hm : Map) : safe (header_loop n hm).
Proof. revert hm. induction n; intros hm; cbn [header_loop]; safely. Qed.

Lemma safe_surrogate_loop (n : nat) : safe (surrogate_loop n).
Proof. induction n; cbn [surrogate_loop]; safely. Qed.

#[export] Hint Resolve safe_header_loop safe_surrogate_loop : codec.

Lemma safe_if {A} (b : bool) (m m' : R A) : safe m -> safe m' -> safe (if b then m else m').
Proof. by destruct b. Qed.

Lemma safe_when {A} (b : bool) (m : A -> R A) (a : A) : safe (m a) -> safe (when b m a).
Proof. intros. apply safe_if; auto with codec. Qed.

Lemma safe_decodeHeaderMap (n : Z) : safe (decodeHeaderMap n).
Proof. apply safe_if; safely. Qed.

Lemma safe_stamps (o : Object.t) : safe (read_stamps o).
Proof. unfold read_stamps. safely. Qed.

Lemma safe_transients (o : Object.t) : safe (read_transients o).
Proof. unfold read_transients. safely. Qed.

Lemma safe_paired (o : Object.t) : safe (get! pk <- r_key; rret {| o with Object.PairedKey := pk |}).
Proof. safely. Qed.

#[export] Hint Resolve safe_decodeHeaderMap safe_stamps safe_transients safe_paired : codec.
#[export] Hint Resolve safe_if safe_when : codec.

(** Every read of the decoder, for every version byte. *)
Lemma safe_decode_fields (ver : Z) : safe (decode_fields ver).
Proof. unfold decode_fields. safely. Qed.

(** ** The decoder on any blob *)

Definition reader (blob : bytes) : objReader := {| r_err := false; r_b := blob; r_pos := 0 |}.

Lemma at_reader (blob : bytes) : at_ (reader blob) blob.
Proof. split_and!; [done|done|done|cbn; lia]. Qed.

Lemma read_version (c : byte) (p : bytes) :
  exists r, r_byte (reader (c :: p)) = (Zb c, r) /\ at_ r p.
Proof. exact (parses_ok _ _ _ (parses_byte c) _ p (at_reader _)). Qed.

Lemma decode_version (p : bytes) :
  decodeObject (bZ objCodecVersion :: p)
  = let '(o, r) := decode_fields objCodecVersion (r_byte (reader (bZ objCodecVersion :: p))).2 in
    if r_err r then Err errCorrupt else Ok o.
Proof.
  unfold decodeObject. fold (reader (bZ objCodecVersion :: p)).
  destruct (read_version (bZ objCodecVersion) p) as (r & -> & He & _).
  cbn [snd]. rewrite He. by change (Zb (bZ objCodecVersion)) with objCodecVersion.
Qed.

Lemma at_after_version (p : bytes) : at_ (r_byte (reader (bZ objCodecVersion :: p))).2 p.
Proof.
  destruct (read_version (bZ objCodecVersion) p) as (r & -> & Ha).
  exact Ha.
Qed.

Lemma encodeObject_eq (o : Object.t) : encodeObject o = bZ objCodecVersion :: fields_bytes o.
Proof. unfold encodeObject. by rewrite encodeObjectInto_eq. Qed.

Lemma decode_encode (o : Object.t) : encodable o -> decodeObject (encodeObject o) = Ok (decoded o).
Proof.
  intros He. rewrite encodeObject_eq, decode_version. pose proof (at_after_version (fields_bytes o)) as Ha.
  rewrite <- (app_nil_r (fields_bytes o)) in Ha at 2.
  destruct (parses_ok _ _ _ (parses_fields o He) _ _ Ha) as (r & -> & Hr & _). by rewrite Hr.
Qed.

(** C29. An object written to the warm tier or to a peer is read back: every
    field is the one stored, the header map (rebuilt and sorted by the
    decoder) is well-formed, answers every lookup as before, and holds the
    same lines in the same order when the stored map was sorted. *)
Theorem object_codec_roundtrip (o : Object.t) (He : encodable o) :
  decodeObject (encodeObject o) = Ok (decoded o) /\
  wf (Object.Header (decoded o)) /\ sorted_by key (entries (Object.Header (decoded o))) /\
  (forall k, all_values k (pairs (Object.Header (decoded o))) = all_values k (pairs (Object.Header o))) /\
  (sorted_by key (entries (Object.Header o)) ->
   pairs (Object.Header (decoded o)) = pairs (Object.Header o)).
Proof.
  split; [by apply decode_encode|exact (decoded_header_spec _ (enc_header o He))].
Qed.

(** C40. A torn blob is never taken for an object: the decoder rejects every
    strict prefix of an encoding as corrupt. *)
Theorem object_codec_rejects_truncation (o : Object.t) (p q : bytes)
    (He : encodable o) (Hs : encodeObject o = p ++ q) (Hq : q <> []) :
  decodeObject p = Err errCorrupt.
Proof.
  rewrite encodeObject_eq in Hs. destruct p as [|c p]; [done|]. injection Hs as <- Hs.
  rewrite decode_version.
  pose proof (parses_trunc _ _ _ (parses_fields o He) _ _ _ (at_after_version p) Hs Hq) as Ht.
  destruct (decode_fields _ _) as [o' r]. cbn [snd] in Ht. by rewrite Ht.
Qed.

(** Whatever a peer or the disk hands it, the decoder reads only inside
    the blob: on every version's path the cursor stays between 0 and the
    blob's length, so no slice expression can be out of range. *)
Theorem object_codec_reads_in_bounds (blob : bytes) (ver : Z) :
  let r := (r_byte (reader blob)).2 in
  in_blob r /\ in_blob (decode_fields ver r).2 /\ r_b (decode_fields ver r).2 = blob.
Proof.
  assert (in_blob (reader blob)) as H0 by (split; [done|apply len_nonneg]).
  destruct (safe_byte _ H0) as (H1 & H2 & _). destruct (safe_decode_fields ver _ H1) as (H3 & H4 & _).
  split_and!; [done|done|]. rewrite H4, H2. done.
Qed.

Definition sample_headers : Map :=
  AppendEntryCanonical (AppendEntryCanonical NewMap (bs "Etag") (bs "v1")) (bs "Date") (bs "now").

Definition sample_object : Object.t :=
  {| Object.zero with
     Object.Key_ := sample_key; Object.StatusCode := 200; Object.TTL := 60 * Second;
     Object.StoredAt := 1700000000 * Second; Object.ETag := bs "v1"; Object.Pool := bs "web";
     Object.VaryValue := bs "gzip"; Object.CacheControl := bs "max-age=60"; Object.Hits := 3;
     Object.OriginAge := 5 * Second; Object.HasDate := true; Object.HasConnectionList := true;
     Object.Header := sample_headers; Object.SurrogateKeys := [bs "a"; bs "b"];
     Object.Body := bs "hello"; Object.BodySize := 5 |}.

Lemma sample_object_encodable : encodable sample_object.
Proof.
  split; try (vm_compute; split; congruence); try reflexivity; try (left; reflexivity).
  - right. vm_compute. split; congruence.
  - split; vm_compute; repeat constructor; set_solver.
Qed.

Lemma object_codec_roundtrip_witness :
  decodeObject (encodeObject sample_object) = Ok (decoded sample_object) /\
  map fst (pairs (Object.Header (decoded sample_object))) = [bs "Date"; bs "Etag"].
Proof.
  split; [apply object_codec_roundtrip, sample_object_encodable|reflexivity].
Defined.

Lemma object_codec_rejects_truncation_witness :
  decodeObject (take 40 (encodeObject sample_object)) = Err errCorrupt.
Proof.
  apply (object_codec_rejects_truncation sample_object _ (drop 40 (encodeObject sample_object))
           sample_object_encodable); [symmetry; apply take_drop|vm_compute; congruence].
Defined.
