(* ===== verification/Wal.v ===== *)
(** * internal/storage/wal/wal.go: the write-ahead log of the warm-tier index

    Records are little-endian with a CRC-32C; [encodeEntry] writes into a
    pooled buffer, whose old contents are an argument here. [Replay] runs a
    callback over the records of a file. The asynchronous log is a state:
    the file, the bounded channel and the drop counter; one function per
    method, with the outcome of each [Write] as an argument (a failed write
    may leave a part of the data). Reads do not fail other than by the end of
    the file. *)

From S2P Require Import Prelude GoStd Api.

(** ** hash/crc32, Castagnoli table *)

Definition crc_poly : Z := 0x82F63B78.

Fixpoint crc_bits (n : nat) (c : Z) : Z :=
  match n with
  | O => c
  | S n => crc_bits n (if Z.testbit c 0 then Z.lxor (Z.shiftr c 1) crc_poly else Z.shiftr c 1)
  end.

Definition crc_update (c : Z) (b : byte) : Z :=
  Z.lxor (crc_bits 8 (Z.lxor (Z.land c 255) (Zb b))) (Z.shiftr c 8).

Definition Checksum (data : bytes) : Z :=
  u32 (Z.lxor (fold_left crc_update data (2^32 - 1)) (2^32 - 1)).

(** The published check value of CRC-32C. *)
Example crc32c_check : Checksum (bs "123456789") = 0xE3069283.
Proof. vm_compute. reflexivity. Qed.

Lemma Checksum_range (data : bytes) : in_u32 (Checksum data).
Proof. apply u32_range. Qed.

(** ** Entries *)

Definition opPut : byte := x01.
Definition opDelete : byte := x02.
Definition opPutV2 : byte := x03.
Definition recLen : Z := 1 + 16 + 4 + 8 + 4.
Definition recLenV2 : Z := 1 + 16 + 4 + 8 + 8 + 4.
Definition crcLen : Z := 29.
Definition crcLenV2 : Z := 37.
Definition syncChSize : Z := 4096.

Record Entry : Type := MkEntry {
  Op : byte;
  EKey : Key;
  SegID : Z;
  Offset : Z;
  Size : Z;
}.

Definition IsPut (e : Entry) : bool := beqb (Op e) opPut || beqb (Op e) opPutV2.
Definition IsDelete (e : Entry) : bool := beqb (Op e) opDelete.
Definition HasSize (e : Entry) : bool := beqb (Op e) opPutV2.

Definition PutEntry (key : Key) (segID offset : Z) : Entry :=
  {| Op := opPut; EKey := key; SegID := segID; Offset := offset; Size := 0 |}.
Definition PutEntryWithSize (key : Key) (segID offset size : Z) : Entry :=
  {| Op := opPutV2; EKey := key; SegID := segID; Offset := offset; Size := size |}.
Definition DeleteEntry (key : Key) : Entry :=
  {| Op := opDelete; EKey := key; SegID := 0; Offset := 0; Size := 0 |}.

(** [copy(buf[off:off+len(data)], data)] on a buffer that is long enough. *)
Definition write_at (off : nat) (data buf : bytes) : bytes :=
  take off buf ++ data ++ drop (off + length data) buf.

(** [buf] is the pooled 41-byte buffer, with whatever its last user left. *)
Definition encodeEntry (buf : bytes) (e : Entry) : bytes :=
  let buf := write_at 0 [Op e] buf in
  let buf := write_at 1 (EKey e) buf in
  let buf := write_at 17 (put_le 4 (u32 (SegID e))) buf in
  let buf := write_at 21 (put_le 8 (u64 (Offset e))) buf in
  if beqb (Op e) opPutV2 then
    let buf := write_at 29 (put_le 8 (u64 (Size e))) buf in
    let crc := Checksum (take (Z.to_nat crcLenV2) buf) in
    let buf := write_at 37 (put_le 4 crc) buf in
    take (Z.to_nat recLenV2) buf
  else
    let crc := Checksum (take (Z.to_nat crcLen) buf) in
    let buf := write_at 29 (put_le 4 crc) buf in
    take (Z.to_nat recLen) buf.

(** ** Replay *)

(** [buf[lo:hi]] *)
Definition slice (lo hi : nat) (buf : bytes) : bytes := take (hi - lo) (drop lo buf).

Definition decode_base (buf : bytes) : Entry :=
  {| Op := default x00 (head buf); EKey := slice 1 17 buf;
     SegID := i32 (get_le (slice 17 21 buf)); Offset := i64 (get_le (slice 21 29 buf)); Size := 0 |}.
Definition decode_sized (buf : bytes) : Entry :=
  {| Op := opPutV2; EKey := slice 1 17 buf;
     SegID := i32 (get_le (slice 17 21 buf)); Offset := i64 (get_le (slice 21 29 buf));
     Size := i64 (get_le (slice 29 37 buf)) |}.

Section Replay.
Context {S E : Type} (fn : S -> Entry -> S * option E).

(** One round of the loop: [None] stops without an error, as for a torn or a
    corrupt record; otherwise the record and the rest of the file. *)
Definition read_record (file : bytes) : option (Entry * bytes) :=
  if len file <? recLen then None
  else if beqb (default x00 (head file)) opPutV2 then
    if len file <? recLenV2 then None
    else
      let buf := take (Z.to_nat recLenV2) file in
      if Checksum (take (Z.to_nat crcLenV2) buf) =? get_le (slice 37 41 buf)
      then Some (decode_sized buf, drop (Z.to_nat recLenV2) file) else None
  else
    let buf := take (Z.to_nat recLen) file in
    if Checksum (take (Z.to_nat crcLen) buf) =? get_le (slice 29 33 buf)
    then Some (decode_base buf, drop (Z.to_nat recLen) file) else None.

Fixpoint replay_loop (fuel : nat) (s : S) (file : bytes) : S * option E :=
  match fuel with
  | O => (s, None)
  | Datatypes.S fuel =>
      match read_record file with
      | None => (s, None)
      | Some (e, rest) =>
          match fn s e with
          | (s, Some err) => (s, Some err)
          | (s, None) => replay_loop fuel s rest
          end
      end
  end.

(** [file] is [None] when the path does not exist. Every record is at least
    33 bytes long, so the file's length bounds the rounds. *)
Definition Replay (file : option bytes) (s : S) : S * option E :=
  match file with
  | None => (s, None)
  | Some file => replay_loop (length file) s file
  end.

(** The callback over a list of entries, up to its first error. *)
Fixpoint run_entries (s : S) (es : list Entry) : S * option E :=
  match es with
  | [] => (s, None)
  | e :: es => match fn s e with
               | (s, Some err) => (s, Some err)
               | (s, None) => run_entries s es
               end
  end.
End Replay.

(** ** The log *)

Inductive wal_error : Type := errWrite | errBatchWrite.

(** What the operating system does with a [Write]: all of it, or an error
    after the first [n] bytes. *)
Inductive outcome : Type := WOk | WShort (n : nat).

Definition f_write (w : outcome) (buf file : bytes) : bytes * bool :=
  match w with WOk => (file ++ buf, true) | WShort n => (file ++ take n buf, false) end.

Record Log : Type := MkLog {
  file : bytes;
  syncCh : option (list bytes);     (* [nil] in synchronous mode *)
  dropped : Z;
  lastSync : Z;
}.

Definition Open (contents : bytes) : Log :=
  {| file := contents; syncCh := None; dropped := 0; lastSync := 0 |}.
Definition OpenAsync (contents : bytes) (syncInterval : Duration) : Log :=
  if syncInterval <=? 0 then Open contents
  else {| file := contents; syncCh := Some []; dropped := 0; lastSync := 0 |}.

Definition Append (w : outcome) (pool : bytes) (e : Entry) (l : Log) : option wal_error * Log :=
  let '(f, ok) := f_write w (encodeEntry pool e) (file l) in
  (if ok then None else Some errWrite, {| l with file := f |}).

(** One outcome per entry; a missing one is a success. *)
Fixpoint AppendBatch (ws : list outcome) (pool : bytes) (es : list Entry) (l : Log)
  : option wal_error * Log :=
  match es with
  | [] => (None, l)
  | e :: es =>
      let '(f, ok) := f_write (default WOk (head ws)) (encodeEntry pool e) (file l) in
      if ok then AppendBatch (tail ws) pool es {| l with file := f |}
      else (Some errBatchWrite, {| l with file := f |})
  end.

(** The non-blocking send: a full channel drops the entry and counts it. *)
Definition send (buf : bytes) (ch : list bytes) (l : Log) : Log :=
  if len ch <? syncChSize then {| l with syncCh := Some (ch ++ [buf]) |}
  else {| l with dropped := i64 (dropped l + 1) |}.

Definition Enqueue (w : outcome) (pool : bytes) (e : Entry) (l : Log) : option wal_error * Log :=
  match syncCh l with
  | None => Append w pool e l
  | Some ch => (None, send (encodeEntry pool e) ch l)
  end.

Definition EnqueueBatch (ws : list outcome) (pool : bytes) (es : list Entry) (l : Log) : Log :=
  match syncCh l with
  | None => (AppendBatch ws pool es l).2
  | Some _ =>
      fold_left (fun l e => match syncCh l with
                            | Some ch => send (encodeEntry pool e) ch l
                            | None => l
                            end) es l
  end.

(** One drain cycle: everything in the channel goes out in one [Write]. *)
Definition drainAndSync (w : outcome) (now : Z) (l : Log) : Log :=
  match syncCh l with
  | None | Some [] => l
  | Some batch =>
      let writeBuf := concat batch in
      let '(f, ok) := f_write w writeBuf (file l) in
      if ok then {| l with file := f; syncCh := Some []; lastSync := now |}
      else {| l with file := f; syncCh := Some []; dropped := i64 (dropped l + len batch) |}
  end.

(** [Sync] on an open log: the loop drains before it closes the caller's
    channel. *)
Definition Sync (w : outcome) (now : Z) (l : Log) : Log :=
  match syncCh l with None => l | Some _ => drainAndSync w now l end.

Definition Truncate (l : Log) : Log := {| l with file := [] |}.
Definition QueueDepth (l : Log) : Z := match syncCh l with None => 0 | Some ch => len ch end.
Definition DroppedEntries (l : Log) : Z * Log := (dropped l, {| l with dropped := 0 |}).
Definition LastSyncTime (l : Log) : Time := if lastSync l =? 0 then zero_time else lastSync l.
(** The loop's last drain; the file it leaves. *)
Definition Close (w : outcome) (now : Z) (l : Log) : Log := drainAndSync w now l.

(** ** What a record consists of *)

Record wf_entry (e : Entry) : Prop := {
  we_key : wf_key (EKey e);
  we_seg : in_i32 (SegID e);
  we_off : in_i64 (Offset e);
  we_size : if HasSize e then in_i64 (Size e) else Size e = 0;
}.

Definition fixed_part (e : Entry) : bytes :=
  [Op e] ++ EKey e ++ put_le 4 (u32 (SegID e)) ++ put_le 8 (u64 (Offset e)).
Definition record_body (e : Entry) : bytes :=
  if HasSize e then fixed_part e ++ put_le 8 (u64 (Size e)) else fixed_part e.
Definition record (e : Entry) : bytes := record_body e ++ put_le 4 (Checksum (record_body e)).

Lemma write_at_next (n : nat) (d x r : bytes) :
  length d = n -> write_at n x (d ++ r) = (d ++ x) ++ drop (length x) r.
Proof.
  intros <-. unfold write_at. rewrite take_app_length, <- app_assoc. do 2 f_equal.
  rewrite drop_app_add. done.
Qed.

Lemma length_fixed (e : Entry) : wf_key (EKey e) -> length (fixed_part e) = 29%nat.
Proof. intros Hk. unfold fixed_part, wf_key in *. rewrite !length_app, !length_put_le, Hk. done. Qed.

Lemma length_body (e : Entry) :
  wf_key (EKey e) -> length (record_body e) = if HasSize e then 37%nat else 29%nat.
Proof.
  intros Hk. unfold record_body. destruct (HasSize e); [|by apply length_fixed].
  by rewrite length_app, length_fixed, length_put_le.
Qed.

Lemma length_record (e : Entry) :
  wf_key (EKey e) -> length (record e) = if HasSize e then 41%nat else 33%nat.
Proof.
  intros Hk. unfold record. rewrite length_app, length_put_le, length_body by done.
  by destruct (HasSize e).
Qed.

(** The pooled buffer's old contents never reach the record. *)
Lemma encodeEntry_record (buf : bytes) (e : Entry) :
  length buf = 41%nat -> wf_key (EKey e) -> encodeEntry buf e = record e.
Proof.
  intros Hb Hk. pose proof (length_fixed e Hk) as Hf. unfold wf_key in Hk.
  assert (write_at 21 (put_le 8 (u64 (Offset e)))
            (write_at 17 (put_le 4 (u32 (SegID e))) (write_at 1 (EKey e) (write_at 0 [Op e] buf)))
          = fixed_part e ++ drop 29 buf) as E.
  { change (write_at 0 [Op e] buf) with ([Op e] ++ drop 1 buf).
    rewrite (write_at_next 1 [Op e]) by done. rewrite (write_at_next 17) by (cbn; by rewrite Hk).
    rewrite (write_at_next 21) by (rewrite !length_app, length_put_le, Hk; done).
    rewrite !length_put_le, Hk, !drop_drop. unfold fixed_part. by rewrite <- !app_assoc. }
  unfold encodeEntry. rewrite E. unfold record, record_body. fold (HasSize e).
  destruct (HasSize e).
  - rewrite (write_at_next 29) by done. rewrite length_put_le, drop_drop.
    assert (length (fixed_part e ++ put_le 8 (u64 (Size e))) = 37%nat) as Hl
      by (by rewrite length_app, Hf, length_put_le).
    rewrite (take_app_exact (Z.to_nat crcLenV2)) by done.
    rewrite (write_at_next 37) by done. apply take_app_exact. by rewrite length_app, Hl, length_put_le.
  - rewrite (take_app_exact (Z.to_nat crcLen)) by done.
    rewrite (write_at_next 29) by done. apply take_app_exact. by rewrite length_app, Hf, length_put_le.
Qed.

Lemma slice_app (lo hi : nat) (a x b : bytes) :
  length a = lo -> (lo + length x = hi)%nat -> slice lo hi (a ++ x ++ b) = x.
Proof.
  intros <- <-. unfold slice. rewrite drop_app_length. apply take_app_exact. lia.
Qed.

(** The fields read back from the fixed part, whatever follows it. *)
Lemma read_fixed (e : Entry) (t : bytes) :
  wf_entry e ->
  head (fixed_part e ++ t) = Some (Op e) /\ slice 1 17 (fixed_part e ++ t) = EKey e /\
  i32 (get_le (slice 17 21 (fixed_part e ++ t))) = SegID e /\
  i64 (get_le (slice 21 29 (fixed_part e ++ t))) = Offset e.
Proof.
  intros [Hk Hs Ho _]. unfold wf_key in Hk. unfold fixed_part. rewrite <- !app_assoc. split_and!.
  - done.
  - apply slice_app; [done|by rewrite Hk].
  - rewrite (app_assoc [Op e]), slice_app; [|by rewrite length_app, Hk|by rewrite length_put_le].
    rewrite get_put_le4, u32_id by apply u32_range. by apply i32_u32.
  - rewrite (app_assoc [Op e]), app_assoc, slice_app;
      [|by rewrite !length_app, Hk, length_put_le|by rewrite length_put_le].
    rewrite get_put_le8, u64_id by apply u64_range. by apply i64_u64.
Qed.

Lemma read_crc (lo hi : nat) (body t : bytes) :
  length body = lo -> (lo + 4 = hi)%nat ->
  get_le (slice lo hi (body ++ put_le 4 (Checksum body) ++ t)) = Checksum body.
Proof.
  intros. rewrite slice_app; [|done|by rewrite length_put_le].
  rewrite get_put_le4. apply u32_id, Checksum_range.
Qed.

(** One round on a file that starts with a record. *)
Lemma read_record_record (e : Entry) (rest : bytes) :
  wf_entry e -> read_record (record e ++ rest) = Some (e, rest).
Proof.
  intros Hw. pose proof Hw as [Hk _ _ Hz]. pose proof (length_record e Hk) as Hl.
  assert (head (record e ++ rest) = Some (Op e)) as Hh by (unfold record, record_body; by destruct (HasSize e)).
  unfold read_record. rewrite Hh.
  change (beqb (default x00 (Some (Op e))) opPutV2) with (HasSize e). rewrite len_app.
  pose proof (len_nonneg rest). unfold len in *. rewrite Hl.
  pose proof (length_body e Hk) as Hbl. unfold record in *.
  destruct (HasSize e) eqn:Ev.
  - rewrite !(proj2 (Z.ltb_ge _ _)) by (unfold recLen, recLenV2; lia).
    rewrite (take_app_exact (Z.to_nat recLenV2)), (drop_app_exact (Z.to_nat recLenV2)) by done.
    rewrite (take_app_exact (Z.to_nat crcLenV2)) by done.
    rewrite <- (app_nil_r (put_le 4 _)), read_crc, Z.eqb_refl by done. do 2 f_equal.
    unfold decode_sized, record_body. rewrite Ev, <- !app_assoc.
    destruct (read_fixed e (put_le 8 (u64 (Size e)) ++ put_le 4 (Checksum (record_body e)) ++ []) Hw)
      as (_ & Ek & Es & Eo).
    unfold record_body in *. rewrite Ev in *. rewrite Ek, Es, Eo.
    rewrite slice_app by (rewrite ?length_fixed, ?length_put_le; done).
    rewrite get_put_le8, u64_id, i64_u64 by (done || apply u64_range).
    destruct e as [op k sg off sz]. unfold HasSize in Ev. cbn in *. bool_cases. by subst op.
  - rewrite (proj2 (Z.ltb_ge _ _)) by (unfold recLen; lia).
    rewrite (take_app_exact (Z.to_nat recLen)), (drop_app_exact (Z.to_nat recLen)) by done.
    rewrite (take_app_exact (Z.to_nat crcLen)) by done.
    rewrite <- (app_nil_r (put_le 4 _)), read_crc, Z.eqb_refl by done. do 2 f_equal.
    unfold decode_base, record_body. rewrite Ev.
    destruct (read_fixed e (put_le 4 (Checksum (fixed_part e)) ++ []) Hw) as (Eh & Ek & Es & Eo).
    rewrite Eh, Ek, Es, Eo. destruct e; cbn in *. by subst.
Qed.

(** A strict prefix of a record is not a record. *)
Lemma read_record_torn (e : Entry) (t q : bytes) :
  wf_key (EKey e) -> record e = t ++ q -> q <> [] -> read_record t = None.
Proof.
  intros Hk E Hq. pose proof (length_record e Hk) as Hl. rewrite E, length_app in Hl.
  assert (0 < length q)%nat by (destruct q; [done|simpl; lia]).
  unfold read_record, len, recLen, recLenV2. destruct (_ <? _) eqn:E1; [done|]. bool_cases.
  assert (head t = Some (Op e)) as ->.
  { destruct t as [|c t]; [cbn in E1; lia|]. unfold record, record_body, fixed_part in E.
    destruct (HasSize e); cbn in E; by injection E as <-. }
  change (beqb (default x00 (Some (Op e))) opPutV2) with (HasSize e). destruct (HasSize e); [|lia].
  by rewrite (proj2 (Z.ltb_lt _ _)) by lia.
Qed.

(** ** Replaying what was written *)

Definition records (pool : bytes) (es : list Entry) : bytes := concat (map (encodeEntry pool) es).

Lemma records_cons (pool : bytes) (e : Entry) (es : list Entry) :
  records pool (e :: es) = encodeEntry pool e ++ records pool es.
Proof. done. Qed.

Lemma records_app (pool : bytes) (es es' : list Entry) :
  records pool (es ++ es') = records pool es ++ records pool es'.
Proof. unfold records. by rewrite map_app, concat_app. Qed.

Section ReplayProofs.
Context {S E : Type} (fn : S -> Entry -> S * option E) (pool : bytes) (Hpool : length pool = 41%nat).

Lemma replay_records (es : list Entry) (t : bytes) (fuel : nat) (s : S) :
  Forall wf_entry es -> (length es <= fuel)%nat ->
  replay_loop fn fuel s (records pool es ++ t)
  = match run_entries fn s es with
    | (s, Some err) => (s, Some err)
    | (s, None) => replay_loop fn (fuel - length es) s t
    end.
Proof.
  intros Hes. revert fuel s. induction Hes as [|e es He Hes IH]; intros fuel s Hf.
  - cbn. by rewrite Nat.sub_0_r.
  - destruct fuel as [|fuel]; [simpl in Hf; lia|]. simpl in Hf.
    rewrite records_cons, encodeEntry_record, <- app_assoc by (done || apply He).
    cbn [replay_loop run_entries length]. rewrite read_record_record by done.
    destruct (fn s e) as [s' [err|]]; [done|]. rewrite IH by lia. done.
Qed.

Lemma length_records (es : list Entry) :
  Forall wf_entry es -> (length es <= length (records pool es))%nat.
Proof.
  induction 1 as [|e es He Hes IH]; [done|]. rewrite records_cons, length_app.
  rewrite encodeEntry_record, length_record by (done || apply He). cbn [length].
  destruct (HasSize e); lia.
Qed.

Lemma replay_torn (es : list Entry) (e : Entry) (t q : bytes) (s : S) :
  Forall wf_entry es -> wf_entry e -> record e = t ++ q -> q <> [] ->
  Replay fn (Some (records pool es ++ t)) s = run_entries fn s es.
Proof.
  intros Hes He Ht Hq. unfold Replay.
  rewrite replay_records by (try done; rewrite length_app; pose proof (length_records es Hes); lia).
  destruct (run_entries fn s es) as [s' [err|]]; [done|].
  destruct (_ - _)%nat; cbn [replay_loop]; [done|]. by rewrite (read_record_torn e t q) by (done || apply He).
Qed.

Lemma replay_whole (es : list Entry) (s : S) :
  Forall wf_entry es -> Replay fn (Some (records pool es)) s = run_entries fn s es.
Proof.
  intros Hes. rewrite <- (app_nil_r (records pool es)).
  apply (replay_torn es (DeleteEntry zero_key) [] (record (DeleteEntry zero_key)));
    [done|by split|done|done].
Qed.
End ReplayProofs.

(** The callback that collects what it is given. *)
Definition collect (s : list Entry) (e : Entry) : list Entry * option unit := (s ++ [e], None).

Lemma run_collect (es s : list Entry) : run_entries collect s es = (s ++ es, None).
Proof.
  revert s. induction es as [|e es IH]; intros s; cbn; [by rewrite app_nil_r|].
  by rewrite IH, <- app_assoc.
Qed.

(** ** The asynchronous log *)

(** A drain is given the outcome of its [Write]. *)
Inductive wal_op : Type :=
| OpEnqueue (e : Entry)
| OpEnqueueBatch (es : list Entry)
| OpTick (w : outcome) (now : Z)               (* the ticker's drain *)
| OpSync (w : outcome) (now : Z).

Definition wal_step (pool : bytes) (l : Log) (o : wal_op) : Log :=
  match o with
  | OpEnqueue e => (Enqueue WOk pool e l).2
  | OpEnqueueBatch es => EnqueueBatch [] pool es l
  | OpTick w now => drainAndSync w now l
  | OpSync w now => Sync w now l
  end.

Definition op_entries (o : wal_op) : list Entry :=
  match o with OpEnqueue e => [e] | OpEnqueueBatch es => es | _ => [] end.
Definition submitted (ops : list wal_op) : list Entry := concat (map op_entries ops).

(** A drained batch with the outcome of its write: what it left in the file, and
    how many of its entries are counted as dropped. *)
Definition drain_result : Type := list Entry * outcome.
Definition written (pool : bytes) (d : drain_result) : bytes :=
  match d.2 with WOk => records pool d.1 | WShort n => take n (records pool d.1) end.
Definition lost (d : drain_result) : Z := match d.2 with WOk => 0 | WShort _ => len d.1 end.
Definition lost_all (ds : list drain_result) : Z := foldr (fun d n => lost d + n) 0 ds.

Lemma lost_app (ds ds' : list drain_result) : lost_all (ds ++ ds') = lost_all ds + lost_all ds'.
Proof. induction ds as [|d ds IH]; [done|]. change (lost d + lost_all (ds ++ ds') = lost d + lost_all ds + lost_all ds'). rewrite IH. lia. Qed.

Lemma lost_bound (ds : list drain_result) : 0 <= lost_all ds <= len (concat (map fst ds)).
Proof.
  induction ds as [|[es w] ds IH]; [done|]. cbn [map concat]. rewrite len_app. cbn [lost_all foldr fst]. fold (lost_all ds).
  pose proof (len_nonneg es). unfold lost. cbn. destruct w; lia.
Qed.

(** [log_has base sub acc ds queued l]: of the entries [sub] handed to the log,
    [acc] were accepted in order; those drained so far are the batches [ds],
    whose writes follow [base] in the file, and the others wait in the channel;
    every entry that was not accepted or was in a batch whose write failed is
    counted as dropped. *)
Record log_has (pool base : bytes) (sub acc : list Entry) (ds : list drain_result) (queued : list Entry) (l : Log) : Prop := {
  lh_sub : acc `sublist_of` sub;
  lh_acc : acc = concat (map fst ds) ++ queued;
  lh_file : file l = base ++ concat (map (written pool) ds);
  lh_chan : syncCh l = Some (map (encodeEntry pool) queued);
  lh_cap : len queued <= syncChSize;
  lh_dropped : dropped l = len sub - len acc + lost_all ds;
}.

Lemma send_has (pool base : bytes) (sub acc queued : list Entry) (ds : list drain_result) (l : Log) (e : Entry) :
  log_has pool base sub acc ds queued l -> len sub + 1 < 2^63 ->
  exists acc' queued', log_has pool base (sub ++ [e]) acc' ds queued' (send (encodeEntry pool e) (map (encodeEntry pool) queued) l).
Proof.
  intros [Hsub Ha Hf Hc Hcap Hd] Hn. unfold send. unfold len at 1. rewrite length_map. fold (len queued).
  destruct (_ <? _) eqn:Et; bool_cases.
  - exists (acc ++ [e]), (queued ++ [e]). split; cbn; [by apply sublist_app| |done| | |].
    + by rewrite Ha, <- app_assoc.
    + by rewrite map_app.
    + rewrite len_app. change (len [e]) with 1. lia.
    + rewrite !len_app. lia.
  - exists acc, queued. split; cbn; [by apply sublist_inserts_r|done|done|done|done|].
    apply sublist_length in Hsub. pose proof (lost_bound ds) as Hl. assert (len (concat (map fst ds)) <= len acc) by (rewrite Ha, len_app; pose proof (len_nonneg queued); lia).
    rewrite len_app, Hd, i64_id; [change (len [e]) with 1; lia|]. unfold in_i64, len in *. lia.
Qed.

Lemma enqueue_batch_has (pool base : bytes) (es sub acc queued : list Entry) (ds : list drain_result) (l : Log) :
  log_has pool base sub acc ds queued l -> len sub + len es < 2^63 ->
  exists acc' queued', log_has pool base (sub ++ es) acc' ds queued' (EnqueueBatch [] pool es l).
Proof.
  intros H Hn. unfold EnqueueBatch. rewrite (lh_chan _ _ _ _ _ _ _ H).
  revert sub acc queued l H Hn. induction es as [|e es IH]; intros sub acc queued l H Hn; cbn [fold_left].
  - exists acc, queued. by rewrite app_nil_r.
  - rewrite len_cons in Hn. pose proof (len_nonneg es). rewrite (lh_chan _ _ _ _ _ _ _ H).
    destruct (send_has _ _ _ _ _ _ _ e H ltac:(lia)) as (acc' & queued' & H').
    replace (sub ++ e :: es) with ((sub ++ [e]) ++ es) by (by rewrite <- app_assoc).
    apply (IH _ acc' queued'); [exact H'|]. rewrite len_app. change (len [e]) with 1. lia.
Qed.

(** The batches after a drain. *)
Definition drained (ds : list drain_result) (queued : list Entry) (w : outcome) : list drain_result :=
  match queued with [] => ds | _ => ds ++ [(queued, w)] end.

Lemma drain_has (pool base : bytes) (sub acc queued : list Entry) (ds : list drain_result) (l : Log) (w : outcome) (now : Z) :
  log_has pool base sub acc ds queued l -> len sub < 2^63 -> log_has pool base sub acc (drained ds queued w) [] (drainAndSync w now l).
Proof.
  intros [Hsub Ha Hf Hc Hcap Hd] Hn. unfold drainAndSync. rewrite Hc. destruct queued as [|e es]; [by split|]. cbn [map drained].
  assert (concat (encodeEntry pool e :: map (encodeEntry pool) es) = records pool (e :: es)) as -> by done.
  assert (len (map (encodeEntry pool) (e :: es)) = len (e :: es)) as El by (unfold len; by rewrite length_map). cbn [map] in El.
  assert (acc = concat (map fst (ds ++ [(e :: es, w)])) ++ []) as Ha' by (by rewrite Ha, map_app, concat_app, app_nil_r; cbn; rewrite app_nil_r).
  destruct w as [|n]; cbn [f_write].
  - split; cbn [file syncCh dropped]; [done|done| |done|done|].
    + by rewrite Hf, map_app, concat_app, <- app_assoc; cbn; rewrite app_nil_r.
    + rewrite lost_app, Hd. cbn. lia.
  - split; cbn [file syncCh dropped]; [done|done| |done|done|].
    + by rewrite Hf, map_app, concat_app, <- app_assoc; cbn; rewrite app_nil_r.
    + pose proof (lost_bound (ds ++ [(e :: es, WShort n)])) as Hl. apply sublist_length in Hsub. rewrite app_nil_r in Ha'. rewrite <- Ha' in Hl.
      rewrite lost_app in *. cbn [lost_all foldr lost fst snd] in *. fold (lost_all ds) in *. rewrite Hd, El. rewrite i64_id; [lia|]. unfold in_i64, len in *. lia.
Qed.

Lemma wal_step_has (pool base : bytes) (sub acc queued : list Entry) (ds : list drain_result) (l : Log) (o : wal_op) :
  log_has pool base sub acc ds queued l -> len sub + len (op_entries o) < 2^63 ->
  exists acc' ds' queued', log_has pool base (sub ++ op_entries o) acc' ds' queued' (wal_step pool l o).
Proof.
  intros H Hn. destruct o as [e|es|w now|w now]; cbn [wal_step op_entries] in *.
  - unfold Enqueue. rewrite (lh_chan _ _ _ _ _ _ _ H).
    destruct (send_has _ _ _ _ _ _ _ e H Hn) as (acc' & queued' & H'). eauto.
  - destruct (enqueue_batch_has _ _ es _ _ _ _ _ H Hn) as (acc' & queued' & H'). eauto.
  - change (len []) with 0 in Hn. rewrite app_nil_r. do 3 eexists. apply drain_has; [exact H|lia].
  - change (len []) with 0 in Hn. rewrite app_nil_r. unfold Sync. rewrite (lh_chan _ _ _ _ _ _ _ H). do 3 eexists. apply drain_has; [exact H|lia].
Qed.

Lemma wal_run_has (pool base : bytes) (ops : list wal_op) (sub acc queued : list Entry) (ds : list drain_result) (l : Log) :
  log_has pool base sub acc ds queued l -> len sub + len (submitted ops) < 2^63 ->
  exists acc' ds' queued', log_has pool base (sub ++ submitted ops) acc' ds' queued' (fold_left (wal_step pool) ops l).
Proof.
  revert sub acc queued ds l. induction ops as [|o ops IH]; intros sub acc queued ds l H Hn.
  - exists acc, ds, queued. cbn. by rewrite app_nil_r.
  - unfold submitted in *. cbn [map concat fold_left] in *. rewrite len_app in Hn.
    pose proof (len_nonneg (concat (map op_entries ops))).
    destruct (wal_step_has _ _ _ _ _ _ _ o H ltac:(lia)) as (acc' & ds' & queued' & H').
    rewrite app_assoc. eapply IH; [exact H'|]. rewrite len_app. lia.
Qed.

(** *** What replay makes of the file *)

Lemma collect_grows (fuel : nat) (s : list Entry) (t : bytes) : exists x, replay_loop collect fuel s t = (s ++ x, None).
Proof.
  revert s t. induction fuel as [|fuel IH]; intros s t; cbn; [exists []; by rewrite app_nil_r|]. destruct (read_record t) as [[e rest]|]; [|exists []; by rewrite app_nil_r].
  destruct (IH (s ++ [e]) rest) as [x ->]. exists (e :: x). by rewrite <- app_assoc.
Qed.

Lemma replay_collect (pool : bytes) (es : list Entry) (t : bytes) : length pool = 41%nat -> Forall wf_entry es ->
  exists x, Replay collect (Some (records pool es ++ t)) [] = (es ++ x, None).
Proof.
  intros Hp He. unfold Replay. rewrite replay_records by (try done; rewrite length_app; pose proof (length_records pool Hp es He); lia).
  rewrite run_collect. destruct (collect_grows (length (records pool es ++ t) - length es) ([] ++ es) t) as [x ->]. by exists x.
Qed.

(** A cut through a run of records leaves whole ones and a strict prefix of the
    next. *)
Lemma cut_records (pool : bytes) (es : list Entry) (n : nat) : length pool = 41%nat -> Forall wf_entry es ->
  exists j t q e, take n (records pool es) = records pool (take j es) ++ t /\ wf_entry e /\ record e = t ++ q /\ q <> [].
Proof.
  intros Hp He. revert n. induction He as [|e es He Hes IH]; intros n.
  - exists 0%nat, [], (record (DeleteEntry zero_key)), (DeleteEntry zero_key).
    split; [by destruct n|]. split; [by split|]. by split.
  - rewrite records_cons, encodeEntry_record by (done || apply He). destruct (decide (length (record e) <= n)%nat) as [Hle|Hgt].
    + destruct (IH (n - length (record e))%nat) as (j & t & q & e' & E & He' & Hr & Hq). exists (S j), t, q, e'. split_and!; [|done..].
      cbn [take]. rewrite records_cons, encodeEntry_record by (done || apply He). rewrite take_app, take_ge by lia. by rewrite E, app_assoc.
    + exists 0%nat, (take n (record e)), (drop n (record e)), e. split_and!; [|done|by rewrite take_drop|].
      * cbn [take]. change (records pool []) with (@nil byte). cbn [app]. rewrite take_app_le by lia. done.
      * intros E. apply (f_equal length) in E. rewrite length_drop in E. cbn in E. lia.
Qed.

(** The batches up to the first failed write. *)
Fixpoint good_prefix (ds : list drain_result) : list Entry * list drain_result :=
  match ds with
  | (es, WOk) :: ds => let '(good, rest) := good_prefix ds in (es ++ good, rest)
  | _ => ([], ds)
  end.

Lemma good_prefix_spec (pool : bytes) (ds : list drain_result) : let '(good, rest) := good_prefix ds in
  concat (map (written pool) ds) = records pool good ++ concat (map (written pool) rest) /\ concat (map fst ds) = good ++ concat (map fst rest).
Proof.
  induction ds as [|[es []] ds IH]; cbn [good_prefix]; [done| |done]. destruct (good_prefix ds) as [good rest]. destruct IH as [IH1 IH2].
  cbn [map concat]. rewrite IH1, IH2. cbn [written snd fst]. rewrite records_app, !app_assoc. done.
Qed.

(** ** Properties *)

Lemma sublist_Forall {A} (P : A -> Prop) (l k : list A) : l `sublist_of` k -> Forall P k -> Forall P l.
Proof. rewrite !Forall_forall. intros Hs Hk x Hx. apply Hk. by eapply elem_of_sublist. Qed.

(** Recovery reads exactly what was appended: replaying a log hands the
    callback every whole record in order with the fields that were written
    (or stops at the callback's error), and a record torn by a crash is
    skipped silently; the buffer pool's old contents do not matter. *)
Theorem wal_replay_recovers {S E : Type} (fn : S -> Entry -> S * option E) (s : S)
    (pool t q : bytes) (es : list Entry) (e : Entry)
    (Hpool : length pool = 41%nat) (Hes : Forall wf_entry es) (He : wf_entry e)
    (Ht : encodeEntry pool e = t ++ q) (Hq : q <> []) :
  Replay fn (Some (records pool es ++ t)) s = run_entries fn s es.
Proof.
  rewrite encodeEntry_record in Ht by (done || apply He). by eapply replay_torn.
Qed.


(** A torn record stays in the file when the log is opened again: records
    appended after it are never replayed. *)
Definition sample_pool : bytes := replicate 41 (bZ 171).
Definition sample_entries : list Entry :=
  [PutEntryWithSize sample_key 3 4096 512; DeleteEntry sample_key; PutEntry sample_key 4 0].

Lemma torn_tail_hides_later_records :
  let torn := records sample_pool sample_entries ++ take 20 (encodeEntry sample_pool (DeleteEntry sample_key)) in
  let l := (Append WOk sample_pool (DeleteEntry zero_key) (Open torn)).2 in
  Replay collect (Some (file l)) [] = (sample_entries, None).
Proof. vm_compute. reflexivity. Qed.

Lemma sample_entries_wf : Forall wf_entry sample_entries.
Proof. repeat constructor; vm_compute; congruence. Qed.

Lemma wal_replay_recovers_witness :
  Replay collect (Some (records sample_pool sample_entries
                        ++ take 40 (encodeEntry sample_pool (PutEntryWithSize sample_key 3 4096 512)))) []
  = run_entries collect [] sample_entries.
Proof.
  apply (wal_replay_recovers collect [] sample_pool _
           (drop 40 (encodeEntry sample_pool (PutEntryWithSize sample_key 3 4096 512))) sample_entries
           (PutEntryWithSize sample_key 3 4096 512) eq_refl sample_entries_wf).
  - repeat constructor; vm_compute; congruence.
  - symmetry. apply take_drop.
  - vm_compute. congruence.
Defined.

(** A short write counts its whole batch as dropped, and hides the batches after
    it. *)
Lemma short_write_hides_later_batches :
  let l := fold_left (wal_step sample_pool) [OpEnqueueBatch sample_entries; OpTick (WShort 50) 5; OpEnqueue (DeleteEntry zero_key); OpTick WOk 9]
             (OpenAsync [] Second) in
  dropped l = 3 /\ Replay collect (Some (file l)) [] = (take 1 sample_entries, None).
Proof. vm_compute. split; reflexivity. Qed.

Definition sample_ops : list wal_op :=
  [OpEnqueue (DeleteEntry sample_key); OpTick WOk 5; OpEnqueueBatch sample_entries; OpSync (WShort 60) 9;
   OpEnqueue (PutEntry sample_key 1 1)].

