(* ===== verification/Snapshot.v ===== *)
(** * internal/storage/warm/snapshot.go: the index snapshot

    [WriteSnapshot] writes the warm tier's index as a header, a segment table,
    the entries sorted by key and a footer, each part under a CRC-32C;
    [LoadSnapshot] checks all of it before it replaces the index. The store is
    reduced to what the two touch: the index, the sizes of the segment files
    and the counters (the eviction list of the index is Evictor's). A slice
    expression out of range is the outcome [Panic]. *)

From stdpp Require Import sorting.
From S2P Require Import Prelude GoStd Api Wal.

Definition snapMagic : Z := 0x49445853.
Definition snapVersion : Z := 2.
Definition snapEndMagic : Z := 0x464E4524.
Definition snapHdrLen : Z := 32.
Definition snapSegEntryLen : Z := 12.
Definition snapEntryLen : Z := 36.
Definition snapFooterLen : Z := 8.

Record warmLoc : Type := MkLoc { segID : Z; offset : Z; size : Z; protected : bool }.

Record store : Type := MkStore {
  index : gmap Key warmLoc;
  segByID : gmap Z Z;               (* the size of each segment file *)
  protectedCount : Z;
  stats_entries : Z;
  stats_bytes : Z;
}.

(** ** Index updates *)

Definition SetIndex (key : Key) (seg off : Z) (s : store) : store :=
  {| s with index := <[key := {| segID := seg; offset := off; size := 0; protected := false |}]> (index s) |}.
Definition SetIndexWithSize (key : Key) (seg off sz : Z) (s : store) : store :=
  {| s with index := <[key := {| segID := seg; offset := off; size := sz; protected := false |}]> (index s) |}.
Definition DelIndex (key : Key) (s : store) : store :=
  match index s !! key with
  | Some loc =>
      {| s with index := delete key (index s);
                protectedCount := if protected loc then i64 (protectedCount s - 1) else protectedCount s |}
  | None => s
  end.
Definition IndexLen (s : store) : Z := Z.of_nat (base.size (index s)).

(** ** Writing *)

Definition snap_entry (kv : Key * warmLoc) : bytes :=
  kv.1 ++ put_le 4 (u32 (i32 (segID kv.2))) ++ put_le 8 (u64 (offset kv.2)) ++ put_le 8 (u64 (size kv.2)).

Definition snap_seg (sizes : gmap Z Z) (id : Z) : bytes :=
  put_le 4 (u32 id) ++ put_le 8 (u64 (default 0 (sizes !! id))).

Definition encodeSnapshot (segIDs : list Z) (segSizes : gmap Z Z) (entries : list (Key * warmLoc))
    (totalBytes : Z) : bytes * bytes :=
  let hdr := put_le 4 snapMagic ++ put_le 4 snapVersion ++ put_le 8 (u64 (len entries))
             ++ put_le 8 (u64 totalBytes) ++ put_le 4 (u32 (len segIDs)) in
  let hdr := hdr ++ put_le 4 (Checksum hdr) in
  let segTbl := concat (map (snap_seg segSizes) segIDs) in
  let entryData := concat (map snap_entry entries) in
  (hdr, segTbl ++ entryData).

(** The segments some entry points into, with their current sizes. *)
Definition snap_sizes (segs : gmap Z Z) (entries : list (Key * warmLoc)) : gmap Z Z :=
  fold_left (fun acc kv => match segs !! segID kv.2 with
                           | Some n => <[segID kv.2 := n]> acc
                           | None => acc
                           end) entries ∅.

(** The whole file, as the rename publishes it. Go's map iteration order is
    arbitrary; both tables are sorted by unique keys, so any order gives this
    file. *)
Definition WriteSnapshotFromCopy (idxSnap : gmap Key warmLoc) (segs : gmap Z Z) : bytes :=
  let segSizes := snap_sizes segs (map_to_list idxSnap) in
  let segIDs := merge_sort Z.le (map fst (map_to_list segSizes)) in
  let entries := stable_sort fst (map_to_list idxSnap) in
  let totalBytes := fold_left (fun n kv => i64 (n + size kv.2)) (map_to_list idxSnap) 0 in
  let '(hdr, body) := encodeSnapshot segIDs segSizes entries totalBytes in
  hdr ++ body ++ put_le 4 (Checksum body) ++ put_le 4 snapEndMagic.

Definition WriteSnapshot (s : store) : bytes := WriteSnapshotFromCopy (index s) (segByID s).

(** ** Loading *)

Inductive snap_error : Type :=
| errTooSmall (n : Z) | errBadMagic | errSnapVersion (v : Z) | errHdrCRC | errSizeMismatch
| errSegMissing (id : Z) | errSegShrank (id : Z) | errFooterCRC | errEndMagic.

Inductive load_failure : Type := SnapErr (e : snap_error) | Panic.

(** [data[lo:hi]]: the run-time check of a slice expression. *)
Definition subslice (lo hi : Z) (data : bytes) : result load_failure bytes :=
  if (0 <=? lo) && (lo <=? hi) && (hi <=? len data)
  then Ok (take (Z.to_nat (hi - lo)) (drop (Z.to_nat lo) data)) else Err Panic.

Definition guard (b : bool) (e : snap_error) : result load_failure unit :=
  if b then Ok tt else Err (SnapErr e).

(** The loop index is a [uint32], and so is its product. *)
Fixpoint seg_loop (fuel : nat) (i segCount : Z) (segs : gmap Z Z) (segTbl : bytes)
  : result load_failure unit :=
  match fuel with
  | O => Ok tt
  | S fuel =>
      if segCount <=? i then Ok tt
      else
        let! se := subslice (u32 (i * snapSegEntryLen)) (u32 (u32 (i + 1) * snapSegEntryLen)) segTbl in
        let id := i32 (get_le (slice 0 4 se)) in
        let segSize := i64 (get_le (slice 4 12 se)) in
        match segs !! id with
        | None => Err (SnapErr (errSegMissing id))
        | Some actual =>
            if actual <? segSize then Err (SnapErr (errSegShrank id))
            else seg_loop fuel (i + 1) segCount segs segTbl
        end
  end.

(** At most one round per row of the table before the loop ends or fails. *)
Definition validateSegmentTable (segTbl : bytes) (segCount : Z) (segs : gmap Z Z)
  : result load_failure unit :=
  seg_loop (S (length segTbl)) 0 segCount segs segTbl.

Fixpoint entry_loop (fuel : nat) (i entryCount : Z) (entryData : bytes) (idx : gmap Key warmLoc)
  : result load_failure (gmap Key warmLoc) :=
  match fuel with
  | O => Err Panic
  | S fuel =>
      if entryCount <=? i then Ok idx
      else
        let! ee := subslice (u64 (i * snapEntryLen)) (u64 (u64 (i + 1) * snapEntryLen)) entryData in
        let loc := {| segID := i32 (get_le (slice 16 20 ee)); offset := i64 (get_le (slice 20 28 ee));
                      size := i64 (get_le (slice 28 36 ee)); protected := false |} in
        entry_loop fuel (i + 1) entryCount entryData (<[slice 0 16 ee := loc]> idx)
  end.

(** [LoadSnapshot], down to the header's checksum: the entry count, the total
    size and the segment count. *)
Definition load_header (data : bytes) : result load_failure (Z * Z * Z) :=
  let! _ := guard (snapHdrLen + snapFooterLen <=? len data) (errTooSmall (len data)) in
  let! hdr := subslice 0 snapHdrLen data in
  let! _ := guard (get_le (slice 0 4 hdr) =? snapMagic) errBadMagic in
  let! _ := guard (get_le (slice 4 8 hdr) =? snapVersion) (errSnapVersion (get_le (slice 4 8 hdr))) in
  let! _ := guard (Checksum (slice 0 28 hdr) =? get_le (slice 28 32 hdr)) errHdrCRC in
  Ok (get_le (slice 8 16 hdr), i64 (get_le (slice 16 24 hdr)), get_le (slice 24 28 hdr)).

(** The rest of [LoadSnapshot]: nothing of the store changes before every
    check has passed. *)
Definition load_body (entryCount totalBytes segCount : Z) (data : bytes) (s : store)
  : result load_failure store :=
  let segLen := i64 (segCount * snapSegEntryLen) in
  let entLen := i64 (i64 entryCount * snapEntryLen) in
  let expectedSize := i64 (snapHdrLen + segLen + entLen + snapFooterLen) in
  let! _ := guard (len data =? expectedSize) errSizeMismatch in
  let off := snapHdrLen in
  let! segTbl := subslice off (i64 (off + segLen)) data in
  let off := i64 (off + segLen) in
  let! _ := validateSegmentTable segTbl segCount (segByID s) in
  let! entryData := subslice off (i64 (off + entLen)) data in
  let off := i64 (off + entLen) in
  let! bodyData := subslice snapHdrLen off data in
  let! crc := subslice off (i64 (off + 4)) data in
  let! _ := guard (Checksum bodyData =? get_le crc) errFooterCRC in
  let! tail := subslice (i64 (off + 4)) (i64 (off + 8)) data in
  let! _ := guard (get_le tail =? snapEndMagic) errEndMagic in
  let! idx := entry_loop (S (length entryData)) 0 entryCount entryData ∅ in
  Ok {| index := idx; segByID := segByID s; protectedCount := 0;
        stats_entries := i64 entryCount; stats_bytes := totalBytes |}.

Definition LoadSnapshot (data : bytes) (s : store) : result load_failure store :=
  let! (entryCount, totalBytes, segCount) := load_header data in
  load_body entryCount totalBytes segCount data s.

(** A count that wraps: 2^62 entries of 36 bytes are 0 bytes, so the size test
    passes and the first entry is read out of range. *)
Lemma entry_count_wraps :
  let hdr := put_le 4 snapMagic ++ put_le 4 snapVersion ++ put_le 8 (2^62) ++ put_le 8 0 ++ put_le 4 0 in
  let data := (hdr ++ put_le 4 (Checksum hdr)) ++ put_le 4 (Checksum []) ++ put_le 4 snapEndMagic in
  LoadSnapshot data {| index := ∅; segByID := ∅; protectedCount := 0; stats_entries := 0; stats_bytes := 0 |}
  = Err Panic.
Proof. vm_compute. reflexivity. Qed.

(** ** Reading back the parts *)

Lemma subslice_app (lo hi : Z) (a x b : bytes) :
  len a = lo -> lo + len x = hi -> subslice lo hi (a ++ x ++ b) = Ok x.
Proof.
  intros <- <-. unfold subslice. pose proof (len_nonneg a). pose proof (len_nonneg x).
  pose proof (len_nonneg b). rewrite !len_app.
  rewrite !(proj2 (Z.leb_le _ _)) by lia. cbn [andb]. f_equal.
  rewrite (drop_app_exact (Z.to_nat (len a))) by (unfold len; lia).
  apply take_app_exact. unfold len. lia.
Qed.

(** A row of fields of known widths. *)
Lemma slice_fields (lo hi : nat) (pre x post row : bytes) :
  row = pre ++ x ++ post -> length pre = lo -> (lo + length x = hi)%nat -> slice lo hi row = x.
Proof. intros -> ??. by apply slice_app. Qed.

Definition loc_ok (l : warmLoc) : Prop := in_i32 (segID l) /\ in_i64 (offset l) /\ in_i64 (size l).
Definition unprotect (l : warmLoc) : warmLoc :=
  {| segID := segID l; offset := offset l; size := size l; protected := false |}.

Lemma length_snap_entry (kv : Key * warmLoc) : wf_key kv.1 -> length (snap_entry kv) = 36%nat.
Proof. intros Hk. unfold snap_entry. by rewrite !length_app, !length_put_le, Hk. Qed.

Lemma i32_bytes (z : Z) : in_i32 z -> i32 (get_le (put_le 4 (u32 (i32 z)))) = z.
Proof.
  intros Hz. rewrite (i32_id z) by done. rewrite get_put_le4, u32_id by apply u32_range.
  by apply i32_u32.
Qed.

Lemma i64_bytes (z : Z) : in_i64 z -> i64 (get_le (put_le 8 (u64 z))) = z.
Proof. intros Hz. rewrite get_put_le8, u64_id by apply u64_range. by apply i64_u64. Qed.

Lemma snap_entry_fields (k : Key) (l : warmLoc) :
  wf_key k -> loc_ok l ->
  slice 0 16 (snap_entry (k, l)) = k /\
  i32 (get_le (slice 16 20 (snap_entry (k, l)))) = segID l /\
  i64 (get_le (slice 20 28 (snap_entry (k, l)))) = offset l /\
  i64 (get_le (slice 28 36 (snap_entry (k, l)))) = size l.
Proof.
  intros Hk (Hs & Ho & Hz). unfold wf_key in Hk. unfold snap_entry. cbn [fst snd]. split_and!.
  - eapply (slice_fields 0 16 []); [reflexivity|done|by rewrite Hk].
  - rewrite (slice_fields 16 20 k (put_le 4 (u32 (i32 (segID l))))
               (put_le 8 (u64 (offset l)) ++ put_le 8 (u64 (size l)))) by (rewrite ?length_put_le; done).
    by apply i32_bytes.
  - rewrite (slice_fields 20 28 (k ++ put_le 4 (u32 (i32 (segID l)))) (put_le 8 (u64 (offset l)))
               (put_le 8 (u64 (size l))))
      by (rewrite ?length_app, ?length_put_le, ?Hk, <- ?app_assoc; done).
    by apply i64_bytes.
  - rewrite (slice_fields 28 36 (k ++ put_le 4 (u32 (i32 (segID l))) ++ put_le 8 (u64 (offset l)))
               (put_le 8 (u64 (size l))) [])
      by (rewrite ?length_app, ?length_put_le, ?Hk, <- ?app_assoc, ?app_nil_r; done).
    by apply i64_bytes.
Qed.

Definition add_entry (idx : gmap Key warmLoc) (kv : Key * warmLoc) : gmap Key warmLoc :=
  <[kv.1 := unprotect kv.2]> idx.

Lemma entry_loop_spec (es : list (Key * warmLoc)) (pre : bytes) (fuel : nat) (i n : Z)
    (idx : gmap Key warmLoc) :
  Forall (fun kv => wf_key kv.1 /\ loc_ok kv.2) es ->
  len pre = 36 * i -> n = i + len es -> (length es < fuel)%nat -> n * 36 < 2^64 ->
  entry_loop fuel i n (pre ++ concat (map snap_entry es)) idx = Ok (fold_left add_entry es idx).
Proof.
  intros Hes. revert pre fuel i idx. induction Hes as [|[k l] es [Hk Hl] Hes IH];
    intros pre fuel i idx Hp Hn Hf Hb; (destruct fuel as [|fuel]; [simpl in Hf; lia|]);
    cbn [entry_loop length] in *; pose proof (len_nonneg pre).
  - rewrite (proj2 (Z.leb_le n i)) by (rewrite Hn; unfold len; simpl; lia). done.
  - rewrite len_cons in Hn. pose proof (len_nonneg es).
    rewrite (proj2 (Z.leb_gt n i)) by lia. cbn [map concat].
    assert (0 <= i) by lia.
    rewrite (u64_id (i * snapEntryLen)) by (unfold in_u64, snapEntryLen; lia).
    rewrite (u64_id (i + 1)) by (unfold in_u64; lia).
    rewrite (u64_id (_ * snapEntryLen)) by (unfold in_u64, snapEntryLen; lia).
    pose proof (length_snap_entry (k, l) Hk) as Hle.
    rewrite subslice_app by (unfold snapEntryLen, len in *; lia).
    destruct (snap_entry_fields k l Hk Hl) as (-> & -> & -> & ->). cbn [fold_left].
    rewrite app_assoc. apply IH; [|lia|lia|done].
    rewrite len_app. unfold len in *. lia.
Qed.

Lemma snap_seg_fields (sizes : gmap Z Z) (g n : Z) :
  in_i32 g -> in_i64 n -> sizes !! g = Some n ->
  i32 (get_le (slice 0 4 (snap_seg sizes g))) = g /\ i64 (get_le (slice 4 12 (snap_seg sizes g))) = n.
Proof.
  intros Hi Hn Hs. unfold snap_seg. rewrite Hs. cbn [default]. split.
  - rewrite (slice_fields 0 4 [] (put_le 4 (u32 g)) (put_le 8 (u64 n)))
      by (rewrite ?length_put_le; done).
    rewrite <- (i32_id g Hi) at 1. by apply i32_bytes.
  - rewrite (slice_fields 4 12 (put_le 4 (u32 g)) (put_le 8 (u64 n)) [])
      by (rewrite ?length_put_le, ?app_nil_r; done).
    by apply i64_bytes.
Qed.

Definition seg_fits (sizes segs : gmap Z Z) (g : Z) : Prop :=
  in_i32 g /\ exists n m, sizes !! g = Some n /\ in_i64 n /\ segs !! g = Some m /\ n <= m.

Lemma seg_loop_spec (sizes segs : gmap Z Z) (gs : list Z) (pre : bytes) (fuel : nat) (i n : Z) :
  Forall (seg_fits sizes segs) gs ->
  len pre = 12 * i -> n = i + len gs -> n * 12 < 2^32 ->
  seg_loop fuel i n segs (pre ++ concat (map (snap_seg sizes) gs)) = Ok tt.
Proof.
  intros Hgs. revert pre fuel i. induction Hgs as [|g gs (Hg & m & m' & Hs & Hm & Hs' & Hle) Hgs IH];
    intros pre fuel i Hp Hn Hb; (destruct fuel as [|fuel]; [done|]);
    cbn [seg_loop]; pose proof (len_nonneg pre).
  - rewrite (proj2 (Z.leb_le n i)) by (rewrite Hn; unfold len; simpl; lia). done.
  - rewrite len_cons in Hn. pose proof (len_nonneg gs).
    rewrite (proj2 (Z.leb_gt n i)) by lia. cbn [map concat]. assert (0 <= i) by lia.
    rewrite (u32_id (i * snapSegEntryLen)) by (unfold in_u32, snapSegEntryLen; lia).
    rewrite (u32_id (i + 1)) by (unfold in_u32; lia).
    rewrite (u32_id (_ * snapSegEntryLen)) by (unfold in_u32, snapSegEntryLen; lia).
    assert (len (snap_seg sizes g) = 12) as Hle'
      by (unfold snap_seg; by rewrite len_app, !len_put_le).
    rewrite subslice_app by (unfold snapSegEntryLen; lia).
    destruct (snap_seg_fields sizes g m Hg Hm Hs) as [-> ->]. rewrite Hs'.
    rewrite (proj2 (Z.ltb_ge m' m)) by lia. rewrite app_assoc. apply IH; [|lia|lia].
    rewrite len_app. lia.
Qed.

(** ** The rebuilt index *)

Lemma fold_add_entry (es : list (Key * warmLoc)) (idx : gmap Key warmLoc) (k : Key) :
  NoDup (map fst es) ->
  fold_left add_entry es idx !! k
  = match find (fun kv => beq kv.1 k) es with Some kv => Some (unprotect kv.2) | None => idx !! k end.
Proof.
  revert idx. induction es as [|[k' l] es IH]; intros idx Hnd; [done|].
  cbn [map] in Hnd. apply NoDup_cons in Hnd as [Hn Hnd]. cbn [fold_left find fst snd]. rewrite IH by done.
  destruct (beq k' k) eqn:E; bool_cases.
  - subst k'. destruct (find _ es) as [kv|] eqn:Ef.
    + apply find_some in Ef as [Hin Ek]. bool_cases. exfalso. apply Hn. cbn [fst]. rewrite <- Ek.
      apply list_elem_of_In, in_map, Hin.
    + unfold add_entry. cbn [fst snd]. apply lookup_insert_eq.
  - destruct (find _ es); [done|]. unfold add_entry. cbn [fst snd]. by apply lookup_insert_ne.
Qed.

Lemma find_perm_nodup (l l' : list (Key * warmLoc)) (k : Key) :
  l ≡ₚ l' -> NoDup (map fst l') ->
  find (fun kv => beq kv.1 k) l = find (fun kv => beq kv.1 k) l'.
Proof.
  induction 1 as [|[k1 v1] l l' Hp IH|[k1 v1] [k2 v2] l|l1 l2 l3 H1 IH1 H2 IH2]; intros Hnd.
  - done.
  - cbn [map find fst] in *. apply NoDup_cons in Hnd as [_ Hnd]. by rewrite IH.
  - cbn [map find fst] in *. apply NoDup_cons in Hnd as [Hn _].
    destruct (beq k1 k) eqn:E1, (beq k2 k) eqn:E2; bool_cases; try done. subst. exfalso. apply Hn. left.
  - rewrite IH1; [by apply IH2|]. by rewrite H2.
Qed.

Lemma find_map_to_list (m : gmap Key warmLoc) (k : Key) :
  find (fun kv => beq kv.1 k) (map_to_list m) = (fun l => (k, l)) <$> m !! k.
Proof.
  destruct (find _ _) as [[k' l]|] eqn:E.
  - apply find_some in E as [Hin Ek]. cbn in Ek. bool_cases. subst k'.
    apply list_elem_of_In, elem_of_map_to_list in Hin. by rewrite Hin.
  - destruct (m !! k) as [l|] eqn:El; [|done]. exfalso.
    apply elem_of_map_to_list, list_elem_of_In in El.
    apply (find_none _ _ E) in El. cbn in El. by rewrite beq_refl in El.
Qed.

Lemma NoDup_keys (m : gmap Key warmLoc) : NoDup (map fst (map_to_list m)).
Proof. apply NoDup_fst_map_to_list. Qed.

Lemma rebuild_index (m : gmap Key warmLoc) :
  fold_left add_entry (stable_sort fst (map_to_list m)) ∅ = unprotect <$> m.
Proof.
  apply map_eq. intros k. rewrite fold_add_entry by (rewrite stable_sort_perm; apply NoDup_keys).
  rewrite (find_perm_nodup _ (map_to_list m)) by (apply stable_sort_perm || apply NoDup_keys).
  rewrite find_map_to_list, lookup_fmap. destruct (m !! k); done.
Qed.

Lemma snap_sizes_sub (segs : gmap Z Z) (es : list (Key * warmLoc)) : snap_sizes segs es ⊆ segs.
Proof.
  unfold snap_sizes. generalize (map_empty_subseteq segs). generalize (∅ : gmap Z Z).
  induction es as [|kv es IH]; intros acc Ha; [done|]. cbn [fold_left]. apply IH.
  destruct (segs !! segID kv.2) eqn:E; [|done]. by apply insert_subseteq_l.
Qed.

(** ** The header *)

Definition hdr_fields (nent total nseg : Z) : bytes :=
  put_le 4 snapMagic ++ put_le 4 snapVersion ++ put_le 8 (u64 nent) ++ put_le 8 (u64 total)
  ++ put_le 4 (u32 nseg).
Definition hdr_bytes (nent total nseg : Z) : bytes :=
  hdr_fields nent total nseg ++ put_le 4 (Checksum (hdr_fields nent total nseg)).

Lemma length_hdr_fields (a b c : Z) : length (hdr_fields a b c) = 28%nat.
Proof. unfold hdr_fields. by rewrite !length_app, !length_put_le. Qed.

Lemma len_hdr (a b c : Z) : len (hdr_bytes a b c) = snapHdrLen.
Proof. unfold hdr_bytes. rewrite len_app, len_put_le. unfold len. by rewrite length_hdr_fields. Qed.

Lemma hdr_slices (a b c : Z) :
  let h := hdr_bytes a b c in
  get_le (slice 0 4 h) = snapMagic /\ get_le (slice 4 8 h) = snapVersion /\
  get_le (slice 8 16 h) = u64 a /\ get_le (slice 16 24 h) = u64 b /\ get_le (slice 24 28 h) = u32 c /\
  slice 0 28 h = hdr_fields a b c /\ get_le (slice 28 32 h) = Checksum (hdr_fields a b c).
Proof.
  intros h. subst h.
  assert (forall z, get_le (put_le 8 (u64 z)) = u64 z) as E8
    by (intros; rewrite get_put_le8; apply u64_id, u64_range).
  assert (forall z, get_le (put_le 4 (u32 z)) = u32 z) as E4
    by (intros; rewrite get_put_le4; apply u32_id, u32_range).
  set (p4 := put_le 4 snapMagic). set (q4 := put_le 4 snapVersion).
  split_and!.
  - rewrite (slice_fields 0 4 [] p4 (q4 ++ put_le 8 (u64 a) ++ put_le 8 (u64 b) ++ put_le 4 (u32 c)
               ++ put_le 4 (Checksum (hdr_fields a b c)))); [by apply get_put_le4| |done|done].
    unfold hdr_bytes at 1, hdr_fields at 1. by rewrite <- !app_assoc.
  - rewrite (slice_fields 4 8 p4 q4 (put_le 8 (u64 a) ++ put_le 8 (u64 b) ++ put_le 4 (u32 c)
               ++ put_le 4 (Checksum (hdr_fields a b c)))); [by apply get_put_le4| |done|done].
    unfold hdr_bytes at 1, hdr_fields at 1. by rewrite <- !app_assoc.
  - rewrite (slice_fields 8 16 (p4 ++ q4) (put_le 8 (u64 a)) (put_le 8 (u64 b) ++ put_le 4 (u32 c)
               ++ put_le 4 (Checksum (hdr_fields a b c)))); [apply E8| |done|by rewrite length_put_le].
    unfold hdr_bytes at 1, hdr_fields at 1. by rewrite <- !app_assoc.
  - rewrite (slice_fields 16 24 (p4 ++ q4 ++ put_le 8 (u64 a)) (put_le 8 (u64 b)) (put_le 4 (u32 c)
               ++ put_le 4 (Checksum (hdr_fields a b c)))); [apply E8| | |by rewrite length_put_le].
    + unfold hdr_bytes at 1, hdr_fields at 1. by rewrite <- !app_assoc.
    + by rewrite !length_app, length_put_le.
  - rewrite (slice_fields 24 28 (p4 ++ q4 ++ put_le 8 (u64 a) ++ put_le 8 (u64 b)) (put_le 4 (u32 c))
               (put_le 4 (Checksum (hdr_fields a b c)))); [apply E4| | |by rewrite length_put_le].
    + unfold hdr_bytes at 1, hdr_fields at 1. by rewrite <- !app_assoc.
    + by rewrite !length_app, !length_put_le.
  - apply (slice_fields 0 28 [] _ (put_le 4 (Checksum (hdr_fields a b c)))); [done|done|].
    apply length_hdr_fields.
  - rewrite (slice_fields 28 32 (hdr_fields a b c) (put_le 4 (Checksum (hdr_fields a b c))) []).
    + rewrite get_put_le4. apply u32_id, Checksum_range.
    + by rewrite app_nil_r.
    + apply length_hdr_fields.
    + by rewrite length_put_le.
Qed.

Lemma load_header_spec (a b c : Z) (rest : bytes) :
  8 <= len rest -> load_header (hdr_bytes a b c ++ rest) = Ok (u64 a, i64 (u64 b), u32 c).
Proof.
  intros Hr. unfold load_header. rewrite len_app, len_hdr.
  unfold guard at 1. rewrite (proj2 (Z.leb_le _ _)) by (unfold snapFooterLen; lia).
  pose proof (subslice_app 0 snapHdrLen [] (hdr_bytes a b c) rest eq_refl (len_hdr a b c)) as E.
  cbn [app] in E. rewrite E.
  destruct (hdr_slices a b c) as (-> & -> & -> & -> & -> & -> & ->).
  unfold guard. by rewrite !Z.eqb_refl.
Qed.

(** ** Properties *)

(** What a store must satisfy to be written: keys and fields of their Go
    types, and sizes that fit the file format. *)
Record snap_ok (s : store) : Prop := {
  so_index : map_Forall (fun k l => wf_key k /\ loc_ok l) (index s);
  so_segs : map_Forall (fun g n => in_i32 g /\ in_i64 n) (segByID s);
  so_count : 36 * Z.of_nat (base.size (index s)) < 2^62;
  so_nseg : 12 * Z.of_nat (base.size (segByID s)) < 2^32;
}.

(** The disk the snapshot is loaded against has every segment, at least as
    long: segments only grow between a checkpoint and a restart. *)
Definition segments_grown (old new : gmap Z Z) : Prop :=
  map_Forall (fun g n => exists m, new !! g = Some m /\ n <= m) old.

Definition snap_seg_ids (s : store) : list Z :=
  merge_sort Z.le (map fst (map_to_list (snap_sizes (segByID s) (map_to_list (index s))))).
Definition snap_entries (s : store) : list (Key * warmLoc) := stable_sort fst (map_to_list (index s)).
Definition snap_total (s : store) : Z :=
  fold_left (fun n kv => i64 (n + size kv.2)) (map_to_list (index s)) 0.
Definition snap_body (s : store) : bytes :=
  concat (map (snap_seg (snap_sizes (segByID s) (map_to_list (index s)))) (snap_seg_ids s))
  ++ concat (map snap_entry (snap_entries s)).

Lemma WriteSnapshot_eq (s : store) :
  WriteSnapshot s
  = hdr_bytes (len (snap_entries s)) (snap_total s) (len (snap_seg_ids s))
    ++ snap_body s ++ put_le 4 (Checksum (snap_body s)) ++ put_le 4 snapEndMagic.
Proof. done. Qed.

Lemma fold_i64_range {A} (f : Z -> A -> Z) (l : list A) (n : Z) :
  in_i64 n -> in_i64 (fold_left (fun n x => i64 (f n x)) l n).
Proof. revert n. induction l; intros n Hn; [done|]. apply IHl, i64_range. Qed.

Lemma len_snap_entries (s : store) : len (snap_entries s) = Z.of_nat (base.size (index s)).
Proof. unfold snap_entries, len. by rewrite stable_sort_perm, length_map_to_list. Qed.

Lemma len_seg_ids (s : store) : len (snap_seg_ids s) <= Z.of_nat (base.size (segByID s)).
Proof.
  unfold snap_seg_ids, len. rewrite merge_sort_Permutation, length_map, length_map_to_list.
  apply inj_le, map_subseteq_size, snap_sizes_sub.
Qed.

Lemma len_concat {A} (f : A -> bytes) (w : Z) (l : list A) :
  Forall (fun x => len (f x) = w) l -> len (concat (map f l)) = w * len l.
Proof.
  induction 1 as [|x l Hx Hl IH]; [cbn; unfold len; simpl; lia|].
  cbn [map concat]. rewrite len_app, len_cons. lia.
Qed.

Lemma snap_entries_ok (s : store) :
  snap_ok s -> Forall (fun kv => wf_key kv.1 /\ loc_ok kv.2) (snap_entries s).
Proof.
  intros Hs. unfold snap_entries. rewrite stable_sort_perm. apply Forall_forall. intros [k l] Hin.
  apply elem_of_map_to_list in Hin. exact (so_index s Hs k l Hin).
Qed.

Lemma snap_segs_fit (s s' : store) :
  snap_ok s -> segments_grown (segByID s) (segByID s') ->
  Forall (seg_fits (snap_sizes (segByID s) (map_to_list (index s))) (segByID s')) (snap_seg_ids s).
Proof.
  intros Hs Hg. unfold snap_seg_ids. rewrite merge_sort_Permutation. apply Forall_map, Forall_forall.
  intros [g n] Hin. apply elem_of_map_to_list in Hin.
  pose proof (lookup_weaken _ _ _ _ Hin (snap_sizes_sub _ _)) as Hseg.
  destruct (so_segs s Hs g n Hseg) as [Hi Hn]. destruct (Hg g n Hseg) as (m & Hm & Hle).
  split; [done|]. by exists n, m.
Qed.

Lemma len_seg_table (s : store) :
  len (concat (map (snap_seg (snap_sizes (segByID s) (map_to_list (index s)))) (snap_seg_ids s)))
  = 12 * len (snap_seg_ids s).
Proof.
  apply len_concat, Forall_forall. intros g _. unfold snap_seg. by rewrite len_app, !len_put_le.
Qed.

Lemma len_entry_table (s : store) :
  snap_ok s -> len (concat (map snap_entry (snap_entries s))) = 36 * len (snap_entries s).
Proof.
  intros Hs. apply len_concat. eapply Forall_impl; [exact (snap_entries_ok s Hs)|].
  intros kv [Hk _]. unfold len. by rewrite length_snap_entry.
Qed.

Lemma subslice_at (lo hi : Z) (data a x b : bytes) :
  data = a ++ x ++ b -> len a = lo -> lo + len x = hi -> subslice lo hi data = Ok x.
Proof. intros ->. apply subslice_app. Qed.

Lemma guard_eq (a b : Z) (e : snap_error) : a = b -> guard (a =? b) e = Ok tt.
Proof. intros ->. unfold guard. by rewrite Z.eqb_refl. Qed.

Lemma guard_neq (a b : Z) (e : snap_error) : a <> b -> guard (a =? b) e = Err (SnapErr e).
Proof. intros H. unfold guard. by rewrite (proj2 (Z.eqb_neq a b) H). Qed.

Lemma load_body_spec (s s' : store) (total : Z) :
  snap_ok s -> segments_grown (segByID s) (segByID s') ->
  load_body (len (snap_entries s)) total (len (snap_seg_ids s)) (WriteSnapshot s) s'
  = Ok {| index := unprotect <$> index s; segByID := segByID s'; protectedCount := 0;
          stats_entries := len (snap_entries s); stats_bytes := total |}.
Proof.
  intros Hs Hg. pose proof (len_snap_entries s) as Hne. pose proof (len_seg_ids s) as Hng.
  pose proof (so_count s Hs). pose proof (so_nseg s Hs).
  pose proof (len_nonneg (snap_entries s)). pose proof (len_nonneg (snap_seg_ids s)).
  pose proof (len_seg_table s) as Hst. pose proof (len_entry_table s Hs) as Het.
  pose proof (seg_loop_spec _ _ _ [] (S (length (concat (map (snap_seg
    (snap_sizes (segByID s) (map_to_list (index s)))) (snap_seg_ids s))))) 0 (len (snap_seg_ids s))
    (snap_segs_fit s s' Hs Hg) eq_refl eq_refl ltac:(lia)) as Hv.
  pose proof (entry_loop_spec (snap_entries s) [] (S (length (concat (map snap_entry (snap_entries s)))))
    0 (len (snap_entries s)) ∅ (snap_entries_ok s Hs) eq_refl eq_refl
    ltac:(unfold len in *; lia) ltac:(lia)) as He.
  unfold load_body. rewrite WriteSnapshot_eq. unfold snap_body.
  set (HD := hdr_bytes _ _ _) in *. assert (len HD = 32) as HHD by apply len_hdr. clearbody HD.
  set (ST := concat (map (snap_seg _) _)) in *. set (ET := concat (map snap_entry _)) in *.
  set (C := put_le 4 (Checksum (ST ++ ET))). set (M := put_le 4 snapEndMagic).
  assert (len C = 4) as HC by apply len_put_le. assert (len M = 4) as HM by apply len_put_le.
  set (data := HD ++ (ST ++ ET) ++ C ++ M).
  assert (len data = 40 + len ST + len ET) as Hlen by (unfold data; rewrite !len_app; lia).
  unfold snapHdrLen, snapSegEntryLen, snapEntryLen, snapFooterLen in *.
  set (n := len (snap_entries s)) in *. set (g := len (snap_seg_ids s)) in *.
  rewrite (i64_id n), (i64_id (g * 12)), (i64_id (n * 36)) by (unfold in_i64; lia).
  rewrite (i64_id (32 + g * 12)), (i64_id (32 + g * 12 + n * 36 + 8)) by (unfold in_i64; lia).
  rewrite (i64_id (32 + g * 12 + n * 36)), (i64_id (32 + g * 12 + n * 36 + 4)) by (unfold in_i64; lia).
  rewrite ?(i64_id (32 + g * 12 + n * 36 + 8)) by (unfold in_i64; lia).
  rewrite (guard_eq _ _ _ (ltac:(lia) : len data = 32 + g * 12 + n * 36 + 8)).
  rewrite (subslice_at 32 _ data HD ST (ET ++ C ++ M)) by (unfold data; rewrite <- ?app_assoc; done || lia).
  unfold validateSegmentTable. cbn [app] in Hv. rewrite Hv.
  rewrite (subslice_at _ _ data (HD ++ ST) ET (C ++ M))
    by (unfold data; rewrite ?len_app, <- ?app_assoc; done || lia).
  rewrite (subslice_at 32 _ data HD (ST ++ ET) (C ++ M)) by (rewrite ?len_app; done || lia).
  rewrite (subslice_at _ _ data (HD ++ ST ++ ET) C M)
    by (unfold data; rewrite ?len_app, <- ?app_assoc; done || lia).
  rewrite (guard_eq (Checksum (ST ++ ET)) (get_le C))
    by (unfold C; rewrite get_put_le4; symmetry; apply u32_id, Checksum_range).
  rewrite (subslice_at _ _ data (HD ++ ST ++ ET ++ C) M [])
    by (unfold data; rewrite ?len_app, ?app_nil_r, <- ?app_assoc; done || lia).
  rewrite (guard_eq (get_le M) snapEndMagic) by (unfold M; apply get_put_le4).
  cbn [app] in He. rewrite He. unfold snap_entries at 1. by rewrite rebuild_index.
Qed.

(** A snapshot is loaded back as the index that was written: every key
    with its location, unprotected, and the counters that go with them, on a
    disk whose segments have only grown. *)
Theorem snapshot_roundtrip (s s' : store) (Hs : snap_ok s)
    (Hg : segments_grown (segByID s) (segByID s')) :
  LoadSnapshot (WriteSnapshot s) s'
  = Ok {| index := unprotect <$> index s; segByID := segByID s'; protectedCount := 0;
          stats_entries := Z.of_nat (base.size (index s)); stats_bytes := snap_total s |}.
Proof.
  pose proof (len_snap_entries s) as Hne. pose proof (len_seg_ids s) as Hng.
  pose proof (so_count s Hs). pose proof (so_nseg s Hs).
  pose proof (len_nonneg (snap_entries s)). pose proof (len_nonneg (snap_seg_ids s)).
  unfold LoadSnapshot. rewrite WriteSnapshot_eq at 1. rewrite load_header_spec.
  - rewrite u64_id, u32_id by (unfold in_u64, in_u32; lia).
    rewrite i64_u64 by (apply (fold_i64_range (fun n kv => n + size kv.2)); done).
    rewrite load_body_spec by done. by rewrite Hne.
  - rewrite !len_app, !len_put_le. pose proof (len_nonneg (snap_body s)). lia.
Qed.

(** A snapshot cut short is refused, with an error and never a panic, and
    nothing is loaded from it. *)
Theorem snapshot_rejects_truncation (s s' : store) (p q : bytes) (Hs : snap_ok s)
    (Hp : WriteSnapshot s = p ++ q) (Hq : q <> []) :
  exists e, LoadSnapshot p s' = Err (SnapErr e).
Proof.
  pose proof (len_snap_entries s) as Hne. pose proof (len_seg_ids s) as Hng.
  pose proof (so_count s Hs). pose proof (so_nseg s Hs).
  pose proof (len_nonneg (snap_entries s)). pose proof (len_nonneg (snap_seg_ids s)).
  assert (len p < len (WriteSnapshot s)) as Hlt.
  { rewrite Hp, len_app. destruct q; [done|]. rewrite len_cons. pose proof (len_nonneg q). lia. }
  unfold LoadSnapshot. destruct (decide (len p < 40)) as [Hsm|Hsm].
  { unfold load_header, guard at 1. rewrite (proj2 (Z.leb_gt _ _)) by (unfold snapHdrLen, snapFooterLen; lia). eauto. }
  rewrite WriteSnapshot_eq in Hp, Hlt. apply app_eq_inv in Hp as [(r & Eh & _)|(r & -> & Er)].
  { exfalso. apply (f_equal len) in Eh. rewrite len_app, len_hdr in Eh. unfold snapHdrLen in Eh.
    pose proof (len_nonneg r). lia. }
  rewrite !len_app, len_hdr, !len_put_le in Hlt. rewrite len_app, len_hdr in Hsm. unfold snapHdrLen in *.
  rewrite load_header_spec by lia.
  rewrite (u64_id (len _)), (u32_id (len _)) by (unfold in_u64, in_u32; lia).
  unfold load_body. rewrite (guard_neq (len _)); [eauto|].
  unfold snap_body in Hlt. rewrite len_app, len_seg_table, len_entry_table in Hlt by done.
  unfold snapHdrLen, snapSegEntryLen, snapEntryLen, snapFooterLen.
  rewrite len_app, len_hdr. unfold snapHdrLen.
  set (n := len (snap_entries s)) in *. set (g := len (snap_seg_ids s)) in *.
  rewrite (i64_id n), (i64_id (g * 12)), (i64_id (n * 36)) by (unfold in_i64; lia).
  rewrite (i64_id (32 + g * 12 + n * 36 + 8)) by (unfold in_i64; lia). lia.
Qed.

Definition sample_store : store :=
  {| index := <[sample_key := {| segID := 2; offset := 100; size := 64; protected := true |}]>
               (<[zero_key := {| segID := 1; offset := 0; size := 80; protected := false |}]> ∅);
     segByID := <[1 := 4096]> (<[2 := 512]> ∅);
     protectedCount := 1; stats_entries := 2; stats_bytes := 144 |}.
Definition empty_store : store :=
  {| index := ∅; segByID := <[1 := 4096]> (<[2 := 640]> ∅); protectedCount := 0;
     stats_entries := 0; stats_bytes := 0 |}.

Lemma sample_store_ok : snap_ok sample_store.
Proof.
  split.
  - apply map_Forall_insert_2; [|apply map_Forall_insert_2; [|apply map_Forall_empty]];
      vm_compute; split_and!; congruence.
  - apply map_Forall_insert_2; [|apply map_Forall_insert_2; [|apply map_Forall_empty]];
      vm_compute; split_and!; congruence.
  - reflexivity.
  - reflexivity.
Qed.

Lemma snapshot_roundtrip_witness :
  LoadSnapshot (WriteSnapshot sample_store) empty_store
  = Ok {| index := unprotect <$> index sample_store; segByID := segByID empty_store;
          protectedCount := 0; stats_entries := Z.of_nat (base.size (index sample_store));
          stats_bytes := snap_total sample_store |}
  /\ snap_total sample_store = 144.
Proof.
  split; [|reflexivity]. apply (snapshot_roundtrip sample_store empty_store sample_store_ok).
  apply map_Forall_insert_2; [|apply map_Forall_insert_2; [|apply map_Forall_empty]];
    eexists; (split; [reflexivity|]); vm_compute; congruence.
Defined.

Lemma snapshot_rejects_truncation_witness :
  exists e, LoadSnapshot (take 100 (WriteSnapshot sample_store)) empty_store = Err (SnapErr e).
Proof.
  apply (snapshot_rejects_truncation sample_store empty_store _
           (drop 100 (WriteSnapshot sample_store)) sample_store_ok).
  - symmetry. apply take_drop.
  - vm_compute. congruence.
Defined.
