(* ===== verification/Checkpoint.v ===== *)
(** * internal/storage/tiered.go: the index, its log and its checkpoints

    The warm tier's index is rebuilt at start from the last snapshot and the
    write-ahead log. This file models how [walEnqueue], [checkpoint] and the
    log's own drain interleave, as a step relation, and what a crash between
    any two steps (or inside a drain's [Write]) leaves to [initWAL].

    A writer ([warmBack], [evictWarmErr], the drains) first updates the index,
    then spins while a checkpoint is running, then enqueues its record: two
    further steps; a full channel drops it. [checkpoint] is its six steps, each
    under its lock, with the copy of the index and the rename of the snapshot file
    apart. Each write of the log has an outcome. [hist], [queued] and [flushed]
    are ghost lists: the updates of the index in order, and those whose records
    are in the log's channel and were written to its file. That a loaded snapshot is the copied index is Snapshot's round trip.
    The starting point is a fresh snapshot with an empty log. *)

From stdpp Require Import sorting.
From S2P Require Import Prelude GoStd Api Wal Snapshot.

(** ** Recovery *)

(** A record of a segment, as a scan delivers it. *)
Record Rec : Type := MkRec { RKey : Key; Body : bytes; RSegID : Z; ROffset : Z; IsTomb : bool }.
Definition HeaderLen : Z := 4 + 16 + 4.
Definition FooterLen : Z := 4.

(** [warm.Scan]: the records it calls back with, and whether it ends without
    an error. *)
Record scan_result : Type := MkScan { delivered : list Rec; scan_ok : bool }.

Definition rebuildIndexFromScan (sc : scan_result) (s : store) : store :=
  fold_left (fun s r => if IsTomb r then DelIndex (RKey r) s
                        else SetIndex (RKey r) (RSegID r) (ROffset r) s) (delivered sc) s.

Definition live_record (s : store) (r : Rec) : bool :=
  negb (IsTomb r) &&
  match index s !! RKey r with
  | Some loc => (segID loc =? RSegID r) && (offset loc =? ROffset r)
  | None => false
  end.
Definition rec_size (r : Rec) : Z := HeaderLen + len (Body r) + FooterLen.

(** [sizeUpdates]: the sizes of live records whose index entry has none. *)
Definition size_updates (s : store) (live : list Rec) : gmap Key Z :=
  fold_left (fun m r => match index s !! RKey r with
                        | Some loc => if size loc =? 0 then <[RKey r := rec_size r]> m else m
                        | None => m
                        end) live ∅.
Definition backfill_size (upd : gmap Key Z) (k : Key) (loc : warmLoc) : option warmLoc :=
  Some match upd !! k with
       | Some sz => if size loc =? 0
                    then {| segID := segID loc; offset := offset loc; size := sz; protected := protected loc |}
                    else loc
       | None => loc
       end.

(** On a scan error nothing is updated. *)
Definition RecomputeStats (sc : scan_result) (s : store) : store :=
  if negb (scan_ok sc) then s
  else
    let live := List.filter (live_record s) (delivered sc) in
    {| s with index := map_imap (backfill_size (size_updates s live)) (index s);
              stats_entries := len live;
              stats_bytes := fold_left (fun n r => i64 (n + rec_size r)) live 0 |}.

Definition RecomputeStatsFromIndex (s : store) : store :=
  {| s with stats_entries := IndexLen s;
            stats_bytes := fold_left (fun n kv => i64 (n + size kv.2)) (map_to_list (index s)) 0 |}.

(** The callback of [initWAL]: the store and [allHaveSize]. *)
Definition replay_entry (st : store * bool) (e : Entry) : (store * bool) * option unit :=
  let '(s, allHaveSize) := st in
  (if IsPut e then
     if HasSize e then (SetIndexWithSize (EKey e) (SegID e) (Offset e) (Size e) s, allHaveSize)
     else (SetIndex (EKey e) (SegID e) (Offset e) s, false)
   else if IsDelete e then (DelIndex (EKey e) s, allHaveSize)
   else (s, allHaveSize), None).

(** [initWAL] on a warm tier [s]: [loaded] is the outcome of [LoadSnapshot],
    [walFile] the log's file, [sc] what a scan of the segments would find. *)
Definition initWAL (s : store) (loaded : result load_failure store) (walFile : option bytes)
    (sc : scan_result) : store :=
  let '(s, snapshotLoaded) := match loaded with Ok s' => (s', true) | Err _ => (s, false) end in
  let '((s, allHaveSize), rErr) := Replay replay_entry walFile (s, true) in
  if snapshotLoaded then s
  else if (match rErr with Some _ => true | None => false end) || (IndexLen s =? 0)
  then rebuildIndexFromScan sc s
  else if allHaveSize && (0 <? IndexLen s) then RecomputeStatsFromIndex s
  else RecomputeStats sc s.

(** Its effect on the index; [warm.Put] and [warm.Delete] update the live one
    the same way. *)
Definition entry_loc (e : Entry) : warmLoc :=
  {| segID := SegID e; offset := Offset e; size := if HasSize e then Size e else 0; protected := false |}.
Definition index_step (m : gmap Key warmLoc) (e : Entry) : gmap Key warmLoc :=
  if IsPut e then <[EKey e := entry_loc e]> m
  else if IsDelete e then delete (EKey e) m else m.
Abbreviation index_run := (fold_left index_step).

(** ** The running system *)

Inductive ck_pc : Type :=
| Idle                             (* no checkpoint running *)
| Flushed1                         (* step 1 done *)
| Blocked                          (* step 2 done *)
| Flushed2                         (* step 3 done *)
| Copied (m : gmap Key warmLoc)    (* step 4: the copy is taken *)
| Published                        (* step 4: the file is renamed *)
| Truncated.                       (* step 5 done *)

(** An update of the index: its place in the order of updates and its record. *)
Abbreviation upd := (nat * Entry)%type.

Record sys : Type := MkSys {
  idx : gmap Key warmLoc;
  inflight : list (upd * bool);    (* index updated, not yet enqueued; past the spin? *)
  log : Log;
  snap : gmap Key warmLoc;         (* what index.snap holds *)
  checkpointing : bool;
  pc : ck_pc;
  hist : list Entry;
  queued : list upd;
  flushed : list upd;
  write_failed : bool;             (* a write to the log failed since it was last emptied *)
}.

Definition wf_update (e : Entry) : Prop := wf_entry e /\ IsPut e || IsDelete e = true.

(** A drain by the sync loop, on its ticker or for [Sync]: one [Write] with
    outcome [w], if anything is queued. Only a successful one is [flushed]; the
    entries of a failed one are lost, whatever part of it is in the file. *)
Definition flush (w : outcome) (now : Z) (st : sys) : sys :=
  {| st with log := drainAndSync w now (log st);
             flushed := match w with WOk => flushed st ++ queued st | WShort _ => flushed st end;
             write_failed := match w, queued st with WShort _, _ :: _ => true | _, _ => write_failed st end;
             queued := [] |}.

Definition set_pc (p : ck_pc) (st : sys) : sys := {| st with pc := p |}.

(** The index update of [warm.Put] or [warm.Delete]. *)
Definition update_index (e : Entry) (st : sys) : sys :=
  {| st with idx := index_step (idx st) e; inflight := inflight st ++ [((length (hist st), e), false)];
             hist := hist st ++ [e] |}.

(** [walEnqueue], once past the spin and with the lock: a full channel drops the
    record. *)
Definition enqueue (pool : bytes) (i : nat) (u : upd) (st : sys) : sys :=
  {| st with inflight := delete i (inflight st); log := (Enqueue WOk pool u.2 (log st)).2;
             queued := if QueueDepth (log st) <? syncChSize then queued st ++ [u] else queued st |}.

(** [Truncate] empties the file first, so a failure after that is one too. *)
Definition empty_log (st : sys) : sys := {| st with log := Truncate (log st); write_failed := false |}.

(** [serial]: at most one update of a key is between its index update and its
    enqueue. [Sync] reports no failed write to [checkpoint], which goes on: its
    two error returns after [Sync] are never taken. *)
Inductive step (pool : bytes) (serial : bool) : sys -> sys -> Prop :=
| step_update (e : Entry) (st : sys) :
    wf_update e -> (serial = true -> EKey e ∉ map (fun w => EKey w.1.2) (inflight st)) ->
    step pool serial st (update_index e st)
| step_pass (i : nat) (u : upd) (st : sys) :
    inflight st !! i = Some (u, false) -> checkpointing st = false ->
    step pool serial st {| st with inflight := <[i := (u, true)]> (inflight st) |}
| step_enqueue (i : nat) (u : upd) (st : sys) :
    inflight st !! i = Some (u, true) -> step pool serial st (enqueue pool i u st)
| step_tick (w : outcome) (now : Z) (st : sys) : step pool serial st (flush w now st)
| step_sync1 (w : outcome) (now : Z) (st : sys) :
    pc st = Idle -> step pool serial st (set_pc Flushed1 (flush w now st))
| step_block (st : sys) :
    pc st = Flushed1 -> step pool serial st {| st with checkpointing := true; pc := Blocked |}
| step_sync2 (w : outcome) (now : Z) (st : sys) :
    pc st = Blocked -> step pool serial st (set_pc Flushed2 (flush w now st))
| step_copy (st : sys) :
    pc st = Flushed2 -> step pool serial st (set_pc (Copied (idx st)) st)
| step_publish (m : gmap Key warmLoc) (st : sys) :
    pc st = Copied m -> step pool serial st {| st with snap := m; pc := Published |}
| step_truncate (st : sys) :
    pc st = Published -> step pool serial st (set_pc Truncated (empty_log st))
| step_unblock (st : sys) :
    pc st = Truncated -> step pool serial st {| st with checkpointing := false; pc := Idle |}
| step_snapshot_fails (m : gmap Key warmLoc) (st : sys) :
    pc st = Copied m -> step pool serial st {| st with checkpointing := false; pc := Idle |}
| step_truncate_fails (st : sys) :
    pc st = Published -> step pool serial st {| st with checkpointing := false; pc := Idle |}.

(** A start right after a checkpoint of index [m]. *)
Definition init (m : gmap Key warmLoc) : sys :=
  {| idx := m; inflight := []; log := OpenAsync [] Second; snap := m; checkpointing := false;
     pc := Idle; hist := []; queued := []; flushed := []; write_failed := false |}.

Definition reachable (pool : bytes) (serial : bool) (m : gmap Key warmLoc) (st : sys) : Prop :=
  rtc (step pool serial) (init m) st.

(** What a crash leaves and the next start makes of it: the published snapshot
    and the log's file, with the first [torn] bytes of a drain that was being
    written. *)
Definition crash_file (pool : bytes) (torn : nat) (st : sys) : bytes :=
  file (log st) ++ take torn (records pool (map snd (queued st))).
Definition new_store : store :=
  {| index := ∅; segByID := ∅; protectedCount := 0; stats_entries := 0; stats_bytes := 0 |}.
Definition loaded_from (m : gmap Key warmLoc) : store := {| new_store with index := m |}.
Definition recovered (pool : bytes) (torn : nat) (st : sys) : gmap Key warmLoc :=
  index (initWAL new_store (Ok (loaded_from (snap st))) (Some (crash_file pool torn st))
           {| delivered := []; scan_ok := true |}).

(** ** One key at a time *)

Lemma index_step_other (m : gmap Key warmLoc) (e : Entry) (k : Key) :
  EKey e <> k -> index_step m e !! k = m !! k.
Proof.
  intros Hne. unfold index_step. destruct (IsPut e); [by apply lookup_insert_ne|].
  destruct (IsDelete e); [by apply lookup_delete_ne|done].
Qed.

(** An update decides its key's value, whatever it was. *)
Lemma index_step_same (m m' : gmap Key warmLoc) (e : Entry) :
  wf_update e -> index_step m e !! EKey e = index_step m' e !! EKey e.
Proof.
  intros [_ He]. unfold index_step. destruct (IsPut e); [by rewrite !lookup_insert_eq|].
  destruct (IsDelete e); [|done]. by rewrite !lookup_delete_eq.
Qed.

(** The last update of a key wins, from any starting point. *)
Lemma index_run_last (l : list upd) (m : gmap Key warmLoc) (k : Key) :
  Forall (fun u => wf_update u.2) l ->
  (index_run (map snd l) m !! k = m !! k /\ forall u, u ∈ l -> EKey u.2 <> k) \/
  exists l1 u l2, l = l1 ++ u :: l2 /\ EKey u.2 = k /\ (forall x, x ∈ l2 -> EKey x.2 <> k) /\
                  forall m', index_run (map snd l) m !! k = index_step m' u.2 !! k.
Proof.
  induction l as [|u l IH] using rev_ind; intros Hw.
  - left. split; [done|]. intros u Hu. by apply not_elem_of_nil in Hu.
  - apply Forall_app in Hw as [Hw Hu]. inversion_clear Hu as [|?? Hu' _]. rewrite map_app, fold_left_app.
    cbn [map fold_left]. destruct (decide (EKey u.2 = k)) as [<-|Hk].
    + right. exists l, u, []. split_and!; [done|done| |].
      * intros x Hx. by apply not_elem_of_nil in Hx.
      * intros m'. by apply index_step_same.
    + pose proof (index_step_other (index_run (map snd l) m) u.2 k Hk) as E0.
      destruct (IH Hw) as [[E Hn]|(l1 & u' & l2 & -> & Hk' & Hl & E)].
      * left. rewrite E0. split; [done|]. intros x Hx. apply elem_of_app in Hx as [Hx| ->%list_elem_of_singleton]; auto.
      * right. exists l1, u', (l2 ++ [u]). split_and!; [by rewrite <- app_assoc|done| |].
        -- intros x Hx. apply elem_of_app in Hx as [Hx| ->%list_elem_of_singleton]; auto.
        -- intros m'. by rewrite E0.
Qed.

Lemma replay_entry_index (s : store) (b : bool) (e : Entry) :
  index (replay_entry (s, b) e).1.1 = index_step (index s) e.
Proof.
  unfold replay_entry, index_step, SetIndexWithSize, SetIndex, DelIndex, entry_loc. cbn [fst].
  destruct (IsPut e); [by destruct (HasSize e)|]. destruct (IsDelete e); [|done].
  destruct (index s !! EKey e) eqn:E; [done|]. cbn. by rewrite delete_id.
Qed.

Lemma run_replay_index (l : list Entry) (s : store) (b : bool) :
  index (run_entries replay_entry (s, b) l).1.1 = index_run l (index s) /\
  (run_entries replay_entry (s, b) l).2 = None.
Proof.
  revert s b. induction l as [|e l IH]; intros s b; [done|]. cbn [run_entries fold_left].
  rewrite <- (replay_entry_index s b). destruct (replay_entry (s, b) e) as [[s' b'] o] eqn:E.
  assert (o = None) as -> by (unfold replay_entry in E; by injection E as _ <-). apply IH.
Qed.

(** ** A log cut at any byte *)

Lemma updates_wf (us : list upd) : Forall (fun u => wf_update u.2) us -> Forall wf_entry (map snd us).
Proof. induction 1 as [|u us [Hu _] Hus IH]; by constructor. Qed.

Lemma recovered_run (pool : bytes) (torn : nat) (st : sys) (wal : list upd) :
  length pool = 41%nat -> Forall (fun u => wf_update u.2) wal -> Forall (fun u => wf_update u.2) (queued st) ->
  file (log st) = records pool (map snd wal) ->
  exists c, recovered pool torn st = index_run (map snd (wal ++ take c (queued st))) (snap st).
Proof.
  intros Hp Hw Hq Hf.
  destruct (cut_records pool _ torn Hp (updates_wf _ Hq)) as (c & t & q & e & E & He & Et & Hne).
  assert (take c (map snd (queued st)) = map snd (take c (queued st))) as Ec by (symmetry; apply fmap_take).
  exists c. unfold recovered, initWAL, crash_file. rewrite Hf, E, Ec, app_assoc, <- records_app, <- map_app.
  rewrite (replay_torn replay_entry pool Hp _ e t q); [|..|done|done|done].
  - destruct (run_replay_index (map snd (wal ++ take c (queued st))) (loaded_from (snap st)) true) as [E1 _].
    by destruct (run_entries _ _ _) as [[s b] o].
  - apply updates_wf, Forall_app. split; [done|]. by apply Forall_take.
Qed.

(** ** The invariant *)

(** [v] is a value [k] had, no older than the updates [us] of it. *)
Definition covers (m0 : gmap Key warmLoc) (k : Key) (h : list Entry) (v : option warmLoc) (us : list upd) : Prop :=
  exists s, (s <= length h)%nat /\ (forall u, u ∈ us -> EKey u.2 = k -> (u.1 < s)%nat) /\
            v = index_run (take s h) m0 !! k.

Definition passed (l : list (upd * bool)) : list upd := map fst (List.filter snd l).

Definition blocks (p : ck_pc) : bool := match p with Idle | Flushed1 => false | _ => true end.

Definition entered (st : sys) : list upd := flushed st ++ queued st ++ passed (inflight st).
Definition known (st : sys) : list upd := flushed st ++ queued st ++ map fst (inflight st).

(** Membership in appended lists, from the hypotheses that mention it. *)
Ltac mem := repeat match goal with H : _ ∈ _ |- _ => revert H end; cbn [app];
            rewrite ?elem_of_app, ?list_elem_of_singleton, ?elem_of_cons; intros; tauto.
Ltac sub := let x := fresh "x" in let Hx := fresh "Hx" in intros x Hx; mem.

(** Two updates of a key are in the order they were made. *)
Definition older (u v : upd) : Prop := EKey u.2 = EKey v.2 -> (u.1 < v.1)%nat.

Record inv (pool : bytes) (m0 : gmap Key warmLoc) (st : sys) : Prop := {
  i_wf : Forall wf_update (hist st);
  i_num : forall u, u ∈ known st -> hist st !! u.1 = Some u.2;
  i_chan : syncCh (log st) = Some (map (encodeEntry pool) (map snd (queued st)));
  i_idx : idx st = index_run (hist st) m0;
  i_flag : checkpointing st = blocks (pc st);
  i_order : StronglySorted older (known st);
  i_one : NoDup (map (fun w => EKey w.1.2) (inflight st));
  i_disk : exists gone wal, flushed st = gone ++ wal /\
             (write_failed st = false -> file (log st) = records pool (map snd wal)) /\
             forall k, covers m0 k (hist st) (snap st !! k) gone;
  i_copy : match pc st with
           | Copied m => forall k, covers m0 k (hist st) (m !! k) (entered st)
           | Published => forall k, covers m0 k (hist st) (snap st !! k) (entered st)
           | _ => True
           end;
}.

Lemma known_wf (pool : bytes) (m0 : gmap Key warmLoc) (st : sys) :
  inv pool m0 st -> Forall (fun u => wf_update u.2) (known st).
Proof.
  intros Hi. apply Forall_forall. intros u Hu. apply (i_num _ _ _ Hi) in Hu.
  exact (Forall_lookup_1 _ _ _ _ (i_wf _ _ _ Hi) Hu).
Qed.

Lemma covers_mono (m0 : gmap Key warmLoc) (k : Key) (h : list Entry) (v : option warmLoc) (us us' : list upd) :
  us' ⊆ us -> covers m0 k h v us -> covers m0 k h v us'.
Proof. intros Hs (s & Hl & Hu & E). exists s. split_and!; [done| |done]. auto. Qed.

Lemma covers_later (m0 : gmap Key warmLoc) (k : Key) (h l : list Entry) (v : option warmLoc) (us : list upd) :
  covers m0 k h v us -> covers m0 k (h ++ l) v us.
Proof.
  intros (s & Hs & Hu & E). exists s. rewrite length_app, take_app_le by lia. split_and!; [lia|done|done].
Qed.

Lemma covers_now (m0 : gmap Key warmLoc) (k : Key) (h : list Entry) (us : list upd) :
  (forall u, u ∈ us -> h !! u.1 = Some u.2) -> covers m0 k h (index_run h m0 !! k) us.
Proof.
  intros Hu. exists (length h). rewrite take_ge by lia. split_and!; [lia| |done].
  intros u Hin _. eapply lookup_lt_Some, Hu, Hin.
Qed.

Lemma passed_app (l l' : list (upd * bool)) : passed (l ++ l') = passed l ++ passed l'.
Proof. unfold passed. by rewrite List.filter_app, map_app. Qed.

Lemma passed_incl (l : list (upd * bool)) : passed l ⊆ map fst l.
Proof.
  induction l as [|[u []] l IH]; [done|..].
  - change (passed ((u, true) :: l)) with (u :: passed l). cbn [map fst]. set_solver.
  - change (passed ((u, false) :: l)) with (passed l). cbn [map fst]. set_solver.
Qed.

Lemma entered_known (st : sys) : entered st ⊆ known st.
Proof. unfold entered, known. intros x Hx. pose proof (passed_incl (inflight st) x). rewrite !elem_of_app in *. tauto. Qed.

Ltac fields :=
  cbn [idx inflight log snap checkpointing pc hist queued flushed write_failed file syncCh init snd set_pc empty_log].

Lemma inv_init (pool : bytes) (m : gmap Key warmLoc) : inv pool m (init m).
Proof.
  split; fields; try done.
  - unfold known. fields. intros u Hu. by apply not_elem_of_nil in Hu.
  - constructor.
  - constructor.
  - exists [], []. split_and!; [done|done|]. intros k. exists 0%nat. split_and!; [done| |done].
    intros u Hu. by apply not_elem_of_nil in Hu.
Qed.

Lemma inv_update (pool : bytes) (m0 : gmap Key warmLoc) (st : sys) (e : Entry) :
  inv pool m0 st -> wf_update e -> EKey e ∉ map (fun w => EKey w.1.2) (inflight st) ->
  inv pool m0 (update_index e st).
Proof.
  intros [Hh Hu Hc Hx Hg Ho H1 Hd Hcp] He Hn.
  assert (known (update_index e st) = known st ++ [(length (hist st), e)]) as Ek.
  { unfold known, update_index. fields. rewrite map_app, <- !app_assoc. done. }
  split; rewrite ?Ek; unfold update_index; fields.
  - apply Forall_app. split; [done|by constructor].
  - intros u Hin. apply elem_of_app in Hin as [Hin| ->%list_elem_of_singleton].
    + by apply lookup_app_l_Some, Hu.
    + by apply list_lookup_middle.
  - done.
  - by rewrite Hx, fold_left_app.
  - done.
  - apply StronglySorted_app. split_and!; [|done|repeat constructor].
    intros u v Hin ->%list_elem_of_singleton _. cbn. eapply lookup_lt_Some, Hu, Hin.
  - rewrite map_app. apply NoDup_app. split_and!; [done| |apply NoDup_singleton].
    intros k Hk ->%list_elem_of_singleton. by apply Hn.
  - destruct Hd as (gone & wal & E1 & E2 & H3). exists gone, wal. split_and!; [done|done|].
    intros k. by apply covers_later.
  - unfold entered in *. fields. rewrite passed_app. change (passed [((length (hist st), e), false)]) with (@nil upd).
    rewrite app_nil_r. destruct (pc st); try done; intros k; by apply covers_later.
Qed.

Lemma inv_pass (pool : bytes) (m0 : gmap Key warmLoc) (st : sys) (i : nat) (u : upd) :
  inv pool m0 st -> inflight st !! i = Some (u, false) -> checkpointing st = false ->
  inv pool m0 {| st with inflight := <[i := (u, true)]> (inflight st) |}.
Proof.
  intros [Hh Hu Hc Hx Hg Ho H1 Hd Hcp] Hi Hb.
  assert (map fst (<[i := (u, true)]> (inflight st)) = map fst (inflight st)) as Em.
  { change (fst <$> <[i := (u, true)]> (inflight st) = fst <$> inflight st). rewrite list_fmap_insert.
    apply list_insert_id. by rewrite list_lookup_fmap, Hi. }
  assert (forall l : list (upd * bool), map (fun w => EKey w.1.2) l = map (fun x : upd => EKey x.2) (map fst l)) as Ekey
    by (intros l; by rewrite map_map).
  rewrite Hb in Hg. rewrite Ekey in H1. split; rewrite ?Ekey; unfold known in *; fields; rewrite ?Em; try done; [by rewrite Hb|].
  destruct (pc st); done.
Qed.

(** Moving an update from the writers to the channel, or dropping it, keeps the
    order: no other update of its key is in flight. *)
Lemma enqueue_order (f q l1 l2 : list upd) (u : upd) :
  StronglySorted older (f ++ q ++ l1 ++ u :: l2) -> (forall x, x ∈ l1 ++ l2 -> EKey x.2 <> EKey u.2) ->
  StronglySorted older (f ++ (q ++ [u]) ++ l1 ++ l2) /\ StronglySorted older (f ++ q ++ l1 ++ l2).
Proof.
  intros Hs Hn. rewrite (app_assoc f), (app_assoc (f ++ q)) in Hs. apply StronglySorted_app in Hs as (Ha & Hb & Hc).
  apply StronglySorted_app in Hb as (Hd & Hfq & Hl1). apply StronglySorted_cons in Hc as [Hul Hl2].
  assert (StronglySorted older (l1 ++ l2)) as Hl.
  { apply StronglySorted_app. split_and!; [|done|done]. intros x y Hx Hy. apply Ha; mem. }
  assert (StronglySorted older ((f ++ q) ++ [u])) as Hfu.
  { apply StronglySorted_app. split_and!; [|done|repeat constructor]. intros x y Hx ->%list_elem_of_singleton. apply Ha; mem. }
  split.
  - replace (f ++ (q ++ [u]) ++ l1 ++ l2) with (((f ++ q) ++ [u]) ++ l1 ++ l2) by (by rewrite <- !app_assoc).
    apply StronglySorted_app. split_and!; [|done|done]. intros x y Hx Hy. apply elem_of_app in Hx as [Hx| ->%list_elem_of_singleton].
    + apply elem_of_app in Hy as [Hy|Hy]; [by apply Hd|]. apply Ha; mem.
    + intros E. by destruct (Hn y Hy).
  - rewrite (app_assoc f). apply StronglySorted_app. split_and!; [|done|done].
    intros x y Hx Hy. apply elem_of_app in Hy as [Hy|Hy]; [by apply Hd|]. apply Ha; mem.
Qed.

Lemma inv_enqueue (pool : bytes) (m0 : gmap Key warmLoc) (st : sys) (i : nat) (u : upd) :
  inv pool m0 st -> inflight st !! i = Some (u, true) -> inv pool m0 (enqueue pool i u st).
Proof.
  intros [Hh Hu Hc Hx Hg Ho H1 Hd Hcp] Hi.
  pose proof (take_drop_middle _ _ _ Hi) as Es. assert (delete i (inflight st) = take i (inflight st) ++ drop (S i) (inflight st)) as El by apply delete_take_drop.
  set (l1 := take i (inflight st)) in *. set (l2 := drop (S i) (inflight st)) in *.
  assert (NoDup (map (fun w : upd * bool => EKey w.1.2) (l1 ++ l2)) /\ forall x, x ∈ map fst l1 ++ map fst l2 -> EKey x.2 <> EKey u.2) as [Hnd Hne].
  { rewrite <- Es, map_app in H1. cbn [map fst] in H1. rewrite <- Permutation_middle, <- map_app in H1. apply NoDup_cons in H1 as [Hn H1]. split; [done|].
    rewrite <- map_app. intros x Hin E. apply Hn. apply list_elem_of_fmap in Hin as (w & -> & Hw). rewrite <- E. by apply (list_elem_of_fmap_2 (fun w : upd * bool => EKey w.1.2)). }
  rewrite map_app in Hnd. unfold known in *. rewrite <- Es, map_app in Ho. cbn [map fst] in Ho. destruct (enqueue_order _ _ _ _ _ Ho Hne) as [Ho1 Ho2].
  assert (forall x, x ∈ flushed st ++ (queued st ++ [u]) ++ map fst l1 ++ map fst l2 -> hist st !! x.1 = Some x.2) as Hu'.
  { intros x Hin. apply Hu. rewrite <- Es, map_app. cbn [map fst]. mem. }
  assert (flushed st ++ (queued st ++ [u]) ++ passed (l1 ++ l2) ⊆ entered st) as Hen.
  { unfold entered. rewrite <- Es, !passed_app. change (passed ((u, true) :: l2)) with (u :: passed l2). sub. }
  assert (QueueDepth (log st) = len (map (encodeEntry pool) (map snd (queued st)))) as Hq by (unfold QueueDepth; by rewrite Hc).
  unfold enqueue, Enqueue. rewrite Hc, El, Hq. unfold send. destruct (_ <? _); split; unfold known, entered in *; fields; rewrite ?map_app; try done.
  - destruct (pc st); try done; intros k; (eapply covers_mono; [|apply Hcp]); exact Hen.
  - intros x Hin. apply Hu'. mem.
  - destruct (pc st); try done; intros k; (eapply covers_mono; [|apply Hcp]); (etrans; [|exact Hen]); sub.
Qed.

Lemma drain_file (now : Z) (l : Log) (bufs : list bytes) :
  syncCh l = Some bufs ->
  file (drainAndSync WOk now l) = file l ++ concat bufs /\ forall w, syncCh (drainAndSync w now l) = Some [].
Proof.
  intros Hc. unfold drainAndSync. rewrite Hc. destruct bufs; cbn; [by rewrite app_nil_r|].
  split; [done|]. by intros [|n].
Qed.

Lemma inv_flush (pool : bytes) (m0 : gmap Key warmLoc) (st : sys) (w : outcome) (now : Z) :
  inv pool m0 st -> inv pool m0 (flush w now st).
Proof.
  intros [Hh Hu Hc Hx Hg Ho H1 Hd Hcp]. destruct (drain_file now _ _ Hc) as [Ef Ec].
  destruct Hd as (gone & wal & E1 & E2 & H3).
  unfold flush. split; unfold known, entered in *; fields; try done.
  - intros u Hin. apply Hu. destruct w; mem.
  - destruct w as [|n]; [by rewrite <- app_assoc|]. apply StronglySorted_app in Ho as (Ha & Hb & Ho). apply StronglySorted_app in Ho as (_ & _ & Ho).
    apply StronglySorted_app. split_and!; [|done|done]. intros x y Hx' Hy. apply Ha; mem.
  - destruct w as [|n].
    + exists gone, (wal ++ queued st). split_and!; [by rewrite E1, <- app_assoc| |done].
      intros Hf. by rewrite Ef, E2, map_app, records_app.
    + exists gone, wal. split_and!; [done| |done]. destruct (queued st) as [|u us] eqn:Eq; [|done].
      intros Hf. unfold drainAndSync. rewrite Hc. by apply E2.
  - destruct (pc st); try done; intros k; (eapply covers_mono; [|apply Hcp]); destruct w; sub.
Qed.

(** A checkpoint step that touches neither log nor snapshot. *)
Lemma inv_pc (pool : bytes) (m0 : gmap Key warmLoc) (st : sys) (b : bool) (p : ck_pc) :
  inv pool m0 st -> b = blocks p ->
  match p with Copied m => m = idx st | Published => False | _ => True end ->
  inv pool m0 {| st with checkpointing := b; pc := p |}.
Proof.
  intros [Hh Hu Hc Hx Hg Ho H1 Hd Hcp] -> Hp. split; fields; try done.
  destruct p; try done. subst m. intros k. rewrite Hx. apply covers_now.
  intros u Hin. apply Hu. by apply entered_known.
Qed.

Lemma inv_publish (pool : bytes) (m0 m : gmap Key warmLoc) (st : sys) :
  inv pool m0 st -> pc st = Copied m -> inv pool m0 {| st with snap := m; pc := Published |}.
Proof.
  intros [Hh Hu Hc Hx Hg Ho H1 Hd Hcp] Hp. rewrite Hp in *. split; fields; try done.
  destruct Hd as (gone & wal & E1 & E2 & H3). exists gone, wal. split_and!; [done|done|].
  intros k. eapply covers_mono; [|exact (Hcp k)]. unfold entered. rewrite E1. sub.
Qed.

Lemma inv_truncate (pool : bytes) (m0 : gmap Key warmLoc) (st : sys) :
  inv pool m0 st -> pc st = Published -> inv pool m0 (empty_log st).
Proof.
  intros [Hh Hu Hc Hx Hg Ho H1 Hd Hcp] Hp. split; fields; try done.
  exists (flushed st), []. split_and!; [by rewrite app_nil_r|done|]. rewrite Hp in Hcp.
  intros k. eapply covers_mono; [|exact (Hcp k)]. unfold entered. sub.
Qed.

Lemma inv_step (pool : bytes) (m0 : gmap Key warmLoc) (st st' : sys) :
  step pool true st st' -> inv pool m0 st -> inv pool m0 st'.
Proof.
  intros Hs Hi. pose proof (i_flag _ _ _ Hi) as Hfl. destruct Hs.
  - apply inv_update; auto.
  - by apply inv_pass.
  - by apply inv_enqueue.
  - by apply inv_flush.
  - apply (inv_pc pool m0 (flush w now st)); [by apply inv_flush| |done]. cbn. by rewrite Hfl, H.
  - by apply inv_pc.
  - apply (inv_pc pool m0 (flush w now st)); [by apply inv_flush| |done]. cbn. by rewrite Hfl, H.
  - apply inv_pc; [done|by rewrite Hfl, H|done].
  - by apply inv_publish.
  - apply (inv_pc pool m0 (empty_log st)); [by apply inv_truncate| |done]. cbn. by rewrite Hfl, H.
  - by apply inv_pc.
  - by apply inv_pc.
  - by apply inv_pc.
Qed.

Lemma inv_reachable (pool : bytes) (m0 : gmap Key warmLoc) (st : sys) :
  reachable pool true m0 st -> inv pool m0 st.
Proof.
  unfold reachable. intros H. remember (init m0) as st0 eqn:E0.
  assert (inv pool m0 st0) as H0 by (rewrite E0; apply inv_init). clear E0.
  induction H as [|x y z Hxy _ IH]; [done|]. by eapply IH, inv_step.
Qed.

(** The value an update gave its key is the one the key had right after it. *)
Lemma update_value (m0 m' : gmap Key warmLoc) (h : list Entry) (u : upd) :
  Forall wf_update h -> h !! u.1 = Some u.2 ->
  index_step m' u.2 !! EKey u.2 = index_run (take (S u.1) h) m0 !! EKey u.2.
Proof.
  intros Hh Hu. rewrite (take_S_r _ _ _ Hu), fold_left_app. cbn [fold_left].
  apply index_step_same. exact (Forall_lookup_1 _ _ _ _ Hh Hu).
Qed.

(** ** Properties *)

(** C17. Crash safety of the index when no two updates of a key are between their
    index update and their enqueue at once ([serial]): at any moment of any
    interleaving of writers, drains and checkpoints, including inside a drain's
    write and between any two steps of a checkpoint, with records a full channel
    dropped and checkpoints that fail at any step, a restart finds every key at a
    value it really had, no older than its last update that a successful write
    put in the log's file. In particular a checkpoint never loses a flushed
    update: the snapshot it publishes covers everything it truncates. Writes may
    fail, but none since the log was last emptied: until the next checkpoint
    empties it, a failed write can hide the records after it
    ([failed_write_hides_updates]). Without [serial] a purge can be undone
    ([concurrent_purge_is_undone]). *)
Theorem checkpoint_crash_safe (pool : bytes) (m0 : gmap Key warmLoc) (st : sys) (torn : nat) (k : Key)
    (Hpool : length pool = 41%nat) (Hr : reachable pool true m0 st) (Hw : write_failed st = false) :
  exists j, (j <= length (hist st))%nat /\
            (forall n e, (n, e) ∈ flushed st -> EKey e = k -> hist st !! n = Some e /\ (n < j)%nat) /\
            recovered pool torn st !! k = index_run (take j (hist st)) m0 !! k.
Proof.
  pose proof (inv_reachable _ _ _ Hr) as Hi. pose proof (known_wf _ _ _ Hi) as Hk.
  destruct Hi as [Hh Hu Hc Hx Hg Ho H1 (gone & wal & E1 & E2 & H3) Hcp]. unfold known in *. rewrite E1 in *.
  rewrite !Forall_app in Hk. destruct Hk as ((Hwg & Hww) & Hwq & _).
  destruct (recovered_run pool torn st wal Hpool Hww Hwq (E2 Hw)) as (c & ->). rewrite <- (take_drop c (queued st)) in Ho, Hu.
  set (L := wal ++ take c (queued st)).
  assert (forall x, x ∈ gone ++ wal -> x ∈ gone \/ x ∈ L) as Hgl by (unfold L; intros x Hx'; mem).
  assert (Forall (fun u => wf_update u.2) L) as HL by (apply Forall_app; split; [done|by apply Forall_take]).
  assert (forall n e, (n, e) ∈ gone ++ wal -> hist st !! n = Some e) as Hin by (intros n e Hin; apply (Hu (n, e)); mem).
  destruct (index_run_last L (snap st) k HL) as [[-> Hno]|(l1 & u & l2 & EL & Ek & Hl2 & E)].
  - destruct (H3 k) as (s & Hs & Hgone & Es). exists s. split_and!; [done| |done]. intros n e Hne Hke. split; [by apply Hin|].
    destruct (Hgl _ Hne) as [Hx'|Hx']; [exact (Hgone _ Hx' Hke)|]. by destruct (Hno _ Hx').
  - assert (hist st !! u.1 = Some u.2) as Hhu by (apply Hu; assert (u ∈ L) as HuL by (rewrite EL; mem); unfold L in HuL; mem).
    exists (S u.1). pose proof (lookup_lt_Some _ _ _ Hhu). split_and!; [lia| |rewrite (E ∅), <- Ek; by apply update_value].
    intros n e Hne Hke. split; [by apply Hin|]. apply Nat.lt_succ_r.
    replace ((gone ++ wal) ++ (take c (queued st) ++ drop c (queued st)) ++ map fst (inflight st))
      with ((gone ++ l1) ++ u :: l2 ++ drop c (queued st) ++ map fst (inflight st)) in Ho
      by (rewrite <- !app_assoc; f_equal; rewrite (app_assoc wal); fold L; rewrite EL, <- app_assoc; done).
    pose proof (StronglySorted_app_1_elem_of _ _ _ (n, e) u Ho) as Hold. rewrite <- Ek in Hke.
    destruct (Hgl _ Hne) as [Hx'|Hx']; [apply Nat.lt_le_incl, Hold; [mem|mem|done]|].
    rewrite EL in Hx'. apply elem_of_app in Hx' as [Hx'|Hx']; [apply Nat.lt_le_incl, Hold; [mem|mem|done]|].
    apply elem_of_cons in Hx' as [<-|Hx']; [cbn; lia|]. exfalso. exact (Hl2 _ Hx' (eq_trans Hke Ek)).
Qed.

Lemma replay_all_sized (es : list Entry) (s : store) (b : bool) :
  Forall (fun e => IsPut e = true -> HasSize e = true) es ->
  (run_entries replay_entry (s, b) es).1.2 = b.
Proof.
  intros Hes. revert s. induction Hes as [|e es He Hes IH]; intros s; [done|]. cbn [run_entries].
  unfold replay_entry at 1. destruct (IsPut e); [rewrite He by done; apply IH|].
  destruct (IsDelete e); apply IH.
Qed.

Lemma replay_log (pool : bytes) (es : list Entry) (s : store) :
  length pool = 41%nat -> Forall wf_entry es ->
  exists s' b, Replay replay_entry (Some (records pool es)) (s, true) = ((s', b), None) /\
    index s' = index_run es (index s) /\
    (Forall (fun e => IsPut e = true -> HasSize e = true) es -> b = true).
Proof.
  intros Hp Hes. rewrite replay_whole by done. destruct (run_replay_index es s true) as [Ei En].
  pose proof (replay_all_sized es s true) as Hb.
  destruct (run_entries replay_entry (s, true) es) as [[s' b] o]. cbn [fst snd] in *. subst o. eauto.
Qed.

Lemma IndexLen_zero (s : store) : (IndexLen s =? 0) = bool_decide (index s = ∅).
Proof.
  unfold IndexLen. case_bool_decide as E; [by rewrite E|]. apply Z.eqb_neq. intros Hz.
  apply E, map_size_empty_inv. lia.
Qed.

Lemma backfill_keeps (upd : gmap Key Z) (m : gmap Key warmLoc) (k : Key) :
  segID <$> map_imap (backfill_size upd) m !! k = segID <$> m !! k /\
  offset <$> map_imap (backfill_size upd) m !! k = offset <$> m !! k.
Proof.
  rewrite map_lookup_imap. unfold backfill_size. destruct (m !! k) as [loc|]; [|done]. cbn.
  destruct (upd !! k); [|done]. by destruct (size loc =? 0).
Qed.

Definition scan_step (m : gmap Key warmLoc) (r : Rec) : gmap Key warmLoc :=
  if IsTomb r then delete (RKey r) m
  else <[RKey r := {| segID := RSegID r; offset := ROffset r; size := 0; protected := false |}]> m.

Lemma rebuild_scan (sc : scan_result) (s : store) :
  index (rebuildIndexFromScan sc s) = fold_left scan_step (delivered sc) (index s).
Proof.
  unfold rebuildIndexFromScan. revert s. induction (delivered sc) as [|r rs IH]; intros s; [done|].
  cbn [fold_left]. rewrite IH. f_equal. unfold scan_step, SetIndex, DelIndex. destruct (IsTomb r); [|done].
  destruct (index s !! RKey r) eqn:E; [done|]. cbn. by rewrite delete_id.
Qed.

(** Restart, on every path of [initWAL], for a log of whole records:
    after a loaded snapshot the index is the snapshot's with the log replayed
    over it; without one it is the log's alone, with counters recomputed when
    every record carries a size; and an empty one is rebuilt from the segments,
    where later records win and tombstones remove. *)
Theorem restart_rebuilds_index (pool : bytes) (es : list Entry) (s snap0 : store) (err : load_failure)
    (sc : scan_result) (Hpool : length pool = 41%nat) (Hes : Forall wf_entry es)
    (Hempty : index s = ∅) :
  let file := Some (records pool es) in
  let from_log := index_run es ∅ in
  index (initWAL s (Ok snap0) file sc) = index_run es (index snap0) /\
  (from_log <> ∅ ->
   (forall k, segID <$> index (initWAL s (Err err) file sc) !! k = segID <$> from_log !! k /\
              offset <$> index (initWAL s (Err err) file sc) !! k = offset <$> from_log !! k) /\
   (Forall (fun e => IsPut e = true -> HasSize e = true) es ->
    index (initWAL s (Err err) file sc) = from_log /\
    stats_entries (initWAL s (Err err) file sc) = Z.of_nat (base.size from_log))) /\
  (from_log = ∅ ->
   index (initWAL s (Err err) file sc)
   = fold_left scan_step (delivered sc) ∅).
Proof.
  intros file from_log. unfold initWAL, file.
  destruct (replay_log pool es snap0 Hpool Hes) as (s1 & b1 & -> & E1 & _).
  destruct (replay_log pool es s Hpool Hes) as (s2 & b2 & -> & E2 & Hb2). rewrite Hempty in E2.
  fold from_log in E2. split; [exact E1|]. cbn [orb]. rewrite IndexLen_zero, E2. split.
  - intros Hne. rewrite bool_decide_eq_false_2 by done.
    assert (0 <? IndexLen s2 = true) as Hpos.
    { pose proof (IndexLen_zero s2) as Hz. rewrite E2, bool_decide_eq_false_2 in Hz by done.
      bool_cases. apply Z.ltb_lt. unfold IndexLen in *. lia. }
    split.
    + intros k. destruct (b2 && _); [cbn; by rewrite E2|]. unfold RecomputeStats.
      destruct (negb (scan_ok sc)); [by rewrite E2|]. cbn [index]. rewrite <- E2. apply backfill_keeps.
    + intros Hsz. rewrite (Hb2 Hsz), Hpos. cbn. split; [done|]. unfold IndexLen. by rewrite E2.
  - intros Hz. rewrite bool_decide_eq_true_2 by done. by rewrite rebuild_scan, E2, Hz.
Qed.

(** After a rebuild from the segments no entry has a size and the counters
    stay at zero; after a snapshot the log's entries are not counted. *)
Definition sample_scan : scan_result :=
  {| delivered := [{| RKey := sample_key; Body := bs "0123456789"; RSegID := 1; ROffset := 0; IsTomb := false |}];
     scan_ok := true |}.

Lemma rebuild_leaves_counters_zero :
  let s := initWAL new_store (Err (SnapErr errBadMagic)) None sample_scan in
  IndexLen s = 1 /\ stats_entries s = 0 /\ stats_bytes s = 0 /\
  size <$> index s !! sample_key = Some 0.
Proof. vm_compute. split_and!; reflexivity. Qed.

Lemma snapshot_counters_ignore_the_log :
  let wal := records sample_pool [PutEntryWithSize sample_key 1 0 64] in
  let s := initWAL new_store (Ok new_store) (Some wal) sample_scan in
  IndexLen s = 1 /\ stats_entries s = 0 /\ stats_bytes s = 0.
Proof. vm_compute. split_and!; reflexivity. Qed.

(** Without that: a purge can be undone by a restart. One goroutine stores a
    key, another deletes it and enqueues its record before the first one does;
    both records are flushed, the index has no entry, and the next start has
    one. *)
Definition sample_put : Entry := PutEntryWithSize sample_key 1 0 64.
Definition sample_delete : Entry := DeleteEntry sample_key.
Definition stored : sys := update_index sample_put (init ∅).
Definition raced : sys :=
  let st := update_index sample_delete stored in
  let st := {| st with inflight := <[1%nat := ((1%nat, sample_delete), true)]> (inflight st) |} in
  let st := enqueue sample_pool 1 (1%nat, sample_delete) st in
  let st := {| st with inflight := <[0%nat := ((0%nat, sample_put), true)]> (inflight st) |} in
  let st := enqueue sample_pool 0 (0%nat, sample_put) st in
  flush WOk 1 st.

Lemma sample_updates : wf_update sample_put /\ wf_update sample_delete.
Proof. split; (split; [split; vm_compute; try split; congruence|reflexivity]). Qed.

Ltac next_step c := eapply rtc_l; [c|].

Lemma concurrent_purge_is_undone :
  reachable sample_pool false ∅ raced /\ inflight raced = [] /\ queued raced = [] /\ write_failed raced = false /\
  idx raced !! sample_key = None /\ recovered sample_pool 0 raced !! sample_key = Some (entry_loc sample_put).
Proof.
  destruct sample_updates as [Wp Wd]. split.
  - unfold reachable, raced, stored.
    next_step ltac:(apply (step_update _ _ sample_put); done).
    next_step ltac:(apply (step_update _ _ sample_delete); done).
    next_step ltac:(apply (step_pass _ _ 1 (1%nat, sample_delete)); reflexivity).
    next_step ltac:(apply (step_enqueue _ _ 1 (1%nat, sample_delete)); reflexivity).
    next_step ltac:(apply (step_pass _ _ 0 (0%nat, sample_put)); reflexivity).
    next_step ltac:(apply (step_enqueue _ _ 0 (0%nat, sample_put)); reflexivity).
    next_step ltac:(apply (step_tick _ _ WOk 1)). apply rtc_refl.
  - vm_compute. split_and!; reflexivity.
Qed.

(** One update, alone: its index update, its enqueue and a drain. *)
Definition write_through (pool : bytes) (w : outcome) (now : Z) (e : Entry) (st : sys) : sys :=
  let u := (length (hist st), e) in
  let st := update_index e st in
  flush w now (enqueue pool 0 u {| st with inflight := [(u, true)] |}).

Lemma write_through_reachable (pool : bytes) (m : gmap Key warmLoc) (w : outcome) (now : Z) (e : Entry) (st : sys) :
  wf_update e -> inflight st = [] -> checkpointing st = false ->
  reachable pool true m st -> reachable pool true m (write_through pool w now e st).
Proof.
  intros He Hi Hc Hr. unfold reachable. etrans; [exact Hr|]. unfold write_through.
  next_step ltac:(apply (step_update _ _ e); [done|rewrite Hi; intros _; apply not_elem_of_nil]).
  next_step ltac:(apply (step_pass _ _ 0 (length (hist st), e)); [cbn; by rewrite Hi|done]).
  cbn [inflight update_index]. rewrite Hi. cbn [app].
  next_step ltac:(apply (step_enqueue _ _ 0 (length (hist st), e)); reflexivity).
  next_step ltac:(apply (step_tick _ _ w now)). apply rtc_refl.
Qed.

(** A write that fails after some bytes hides what is written after it: the
    delete is in the file and the next start still has the key. *)
Definition after_failure : sys :=
  write_through sample_pool WOk 3 sample_delete
    (write_through sample_pool (WShort 5) 2 (DeleteEntry zero_key) (write_through sample_pool WOk 1 sample_put (init ∅))).

Lemma failed_write_hides_updates :
  reachable sample_pool true ∅ after_failure /\ write_failed after_failure = true /\
  flushed after_failure = [(0%nat, sample_put); (2%nat, sample_delete)] /\
  idx after_failure !! sample_key = None /\ recovered sample_pool 0 after_failure !! sample_key = Some (entry_loc sample_put).
Proof.
  destruct sample_updates as [Wp Wd]. split; [|vm_compute; split_and!; reflexivity].
  assert (wf_update (DeleteEntry zero_key)) as Wz by (split; [split; vm_compute; try split; congruence|reflexivity]).
  unfold after_failure. apply write_through_reachable; [exact Wd|vm_compute; reflexivity..|].
  apply write_through_reachable; [exact Wz|vm_compute; reflexivity..|].
  apply write_through_reachable; [exact Wp|reflexivity..|]. apply rtc_refl.
Qed.

(** A checkpoint from rest, whose second flush has nothing to write. *)
Definition checkpointed (w : outcome) (st : sys) : sys :=
  let st := set_pc Flushed1 (flush w 1 st) in
  let st := {| st with checkpointing := true; pc := Blocked |} in
  let st := set_pc Flushed2 (flush WOk 2 st) in
  let st := set_pc (Copied (idx st)) st in
  let st := {| st with snap := idx st; pc := Published |} in
  let st := set_pc Truncated (empty_log st) in
  {| st with checkpointing := false; pc := Idle |}.

Lemma checkpointed_reachable (pool : bytes) (m : gmap Key warmLoc) (w : outcome) (st : sys) :
  pc st = Idle -> reachable pool true m st -> reachable pool true m (checkpointed w st).
Proof.
  intros Hp Hr. unfold reachable. etrans; [exact Hr|]. unfold checkpointed.
  next_step ltac:(apply (step_sync1 _ _ w 1); exact Hp).
  next_step ltac:(apply step_block; reflexivity).
  next_step ltac:(apply (step_sync2 _ _ WOk 2); reflexivity).
  next_step ltac:(apply step_copy; reflexivity).
  next_step ltac:(eapply step_publish; reflexivity).
  next_step ltac:(apply step_truncate; reflexivity).
  next_step ltac:(apply step_unblock; reflexivity). apply rtc_refl.
Qed.

(** A write that fails, a checkpoint that empties the log, a further update, and
    a crash. *)
Definition published : sys :=
  write_through sample_pool WOk 3 sample_delete
    (checkpointed WOk (write_through sample_pool (WShort 9) 1 sample_put (init ∅))).

Lemma published_reachable : reachable sample_pool true ∅ published.
Proof.
  destruct sample_updates as [Wp Wd]. unfold published.
  apply write_through_reachable; [done|vm_compute; reflexivity..|].
  apply checkpointed_reachable; [vm_compute; reflexivity|].
  apply write_through_reachable; [done|vm_compute; reflexivity..|]. apply rtc_refl.
Qed.

Lemma checkpoint_crash_safe_witness :
  (exists j, (j <= length (hist published))%nat /\
     (forall n e, (n, e) ∈ flushed published -> EKey e = sample_key -> hist published !! n = Some e /\ (n < j)%nat) /\
     recovered sample_pool 7 published !! sample_key = index_run (take j (hist published)) ∅ !! sample_key)
  /\ flushed published = [(1%nat, sample_delete)] /\ snap published !! sample_key = Some (entry_loc sample_put).
Proof.
  split; [|split; vm_compute; reflexivity].
  apply (checkpoint_crash_safe sample_pool ∅ published 7 sample_key eq_refl published_reachable eq_refl).
Defined.

Definition sized_entries : list Entry := [PutEntryWithSize sample_key 1 0 64; DeleteEntry zero_key].

Lemma sized_entries_wf : Forall wf_entry sized_entries.
Proof. repeat constructor; vm_compute; congruence. Qed.

Lemma restart_rebuilds_index_witness :
  index (initWAL new_store (Err (SnapErr errBadMagic)) (Some (records sample_pool sized_entries)) sample_scan)
  = index_run sized_entries ∅
  /\ index (initWAL new_store (Err (SnapErr errBadMagic)) (Some (records sample_pool [])) sample_scan)
     = fold_left scan_step (delivered sample_scan) ∅.
Proof.
  split.
  - destruct (restart_rebuilds_index sample_pool sized_entries new_store new_store (SnapErr errBadMagic)
                sample_scan eq_refl sized_entries_wf eq_refl) as (_ & H & _).
    refine (proj1 (proj2 (H _) _)).
    + intros E. apply (f_equal (fun m => m !! sample_key)) in E. vm_compute in E. discriminate E.
    + unfold sized_entries. repeat (apply Forall_cons; split; [vm_compute; congruence|]). apply Forall_nil_2.
  - destruct (restart_rebuilds_index sample_pool [] new_store new_store (SnapErr errBadMagic)
                sample_scan eq_refl (Forall_nil_2 _) eq_refl) as (_ & _ & H).
    apply H. reflexivity.
Defined.
