(* ===== verification/Keys.v ===== *)
(** * Primary cache keys: src/internal/cache/key.go, the key builders of
    fastpath.go and the query policy of keypolicy.go

    The canonical form of a request, [scheme|host|path|query|method], is
    written into a 512-byte stack buffer by functions that go on counting past
    its end, and rewritten into a heap buffer of the counted size when it did
    not fit. There are three builders: for a [RequestInfo], for fasthttp's
    byte slices and for the raw requests of the HTTP/1 fast path. The hash
    (XXH128 of a third-party package) is an argument. A buffer position [n]
    is a [nat]; request sizes stay far below the limit of an [int]. *)

From stdpp Require Import sorting.
From S2P Require Import Prelude GoStd CacheControl HeaderMap Api HttpDate Engine.

(** ** Writing into a buffer

    [cbuf] is the slice [buf] (its length never changes) and [cn] the
    position [n] the functions of the source take and return. *)

Record cursor : Type := MkCursor { cbuf : bytes; cn : nat }.

(** Go's [copy(dst[n:], src)]: as many bytes as fit. *)
Definition go_copy (dst : bytes) (n : nat) (src : bytes) : bytes :=
  take n dst ++ take (length dst - n) src ++ drop (n + length src) dst.

Definition appendByte (w : cursor) (b : byte) : cursor :=
  {| cbuf := if (cn w <? length (cbuf w))%nat then <[cn w := b]> (cbuf w) else cbuf w;
     cn := cn w + 1 |}.

(** [n += copyOverflow(buf, n, src)]: the copy and the caller's addition. *)
Definition copyOverflow (w : cursor) (src : bytes) : cursor :=
  {| cbuf := if (cn w <? length (cbuf w))%nat then go_copy (cbuf w) (cn w) src else cbuf w;
     cn := cn w + length src |}.

Definition copyOverflowBytes (w : cursor) (src : bytes) : cursor :=
  {| cbuf := if (cn w <? length (cbuf w))%nat then go_copy (cbuf w) (cn w) src else cbuf w;
     cn := cn w + length src |}.

Definition copyOverflowBytesFromBytes (w : cursor) (src : bytes) : cursor :=
  {| cbuf := if (cn w <? length (cbuf w))%nat then go_copy (cbuf w) (cn w) src else cbuf w;
     cn := cn w + length src |}.

Definition hasSuffix (buf : bytes) (n : nat) (s : bytes) : bool :=
  if ((n <? length s)%nat || (length buf <? n)%nat) then false
  else beq (take (length s) (drop (n - length s) buf)) s.

Definition hasSuffixBytes (buf : bytes) (n : nat) (s : bytes) : bool :=
  if ((n <? length s)%nat || (length buf <? n)%nat) then false
  else beq (take (length s) (drop (n - length s) buf)) s.

(** The byte of the host loop: upper case plus ['a' - 'A']. *)
Definition host_byte (c : byte) : byte :=
  if (Zb (ch "A") <=? Zb c) && (Zb c <=? Zb (ch "Z")) then bZ (Zb c + (Zb (ch "a") - Zb (ch "A"))) else c.

Fixpoint host_loop (w : cursor) (host : bytes) : cursor :=
  match host with
  | [] => w
  | c :: host' =>
      host_loop {| cbuf := if (cn w <? length (cbuf w))%nat then <[cn w := host_byte c]> (cbuf w) else cbuf w;
                   cn := cn w + 1 |} host'
  end.

Definition appendCanonicalHost (w : cursor) (host : bytes) : cursor :=
  let w := host_loop w host in
  if hasSuffix (cbuf w) (cn w) (bs ":80") then {| cbuf := cbuf w; cn := cn w - 3 |}
  else if hasSuffix (cbuf w) (cn w) (bs ":443") then {| cbuf := cbuf w; cn := cn w - 4 |}
  else w.

Definition appendCanonicalHostBytes (w : cursor) (host : bytes) : cursor :=
  let w := host_loop w host in
  if hasSuffixBytes (cbuf w) (cn w) (bs ":80") then {| cbuf := cbuf w; cn := cn w - 3 |}
  else if hasSuffixBytes (cbuf w) (cn w) (bs ":443") then {| cbuf := cbuf w; cn := cn w - 4 |}
  else w.

(** The path loop: a slash after a slash is skipped ([continue] leaves
    [prev] alone). *)
Fixpoint path_loop (w : cursor) (prev : byte) (p : bytes) : cursor :=
  match p with
  | [] => w
  | c :: p' =>
      if beqb c (ch "/") && beqb prev (ch "/") then path_loop w prev p'
      else path_loop {| cbuf := if (cn w <? length (cbuf w))%nat then <[cn w := c]> (cbuf w) else cbuf w;
                        cn := cn w + 1 |} c p'
  end.

Definition appendCanonicalPathString (w : cursor) (p : bytes) : cursor :=
  path_loop w x00 (if beq p [] then bs "/" else p).

Definition appendCanonicalPathBytes (w : cursor) (p : bytes) : cursor :=
  path_loop w x00 (if (length p =? 0)%nat then bs "/" else p).

(** ** The key policy of a route (keypolicy.go)

    A Go map of type [map[string]bool] is an [option] (nil or not) of a map;
    reading an absent key, or a nil map, gives false. The header and cookie
    fields belong to the Vary key and are not read here. *)

Record KeyPolicy : Type := MkKeyPolicy {
  stripParams : option (gmap bytes bool);
  keepParams : option (gmap bytes bool);
  excludeHeaders : option (gmap bytes bool);
  includeHeaders : list bytes;
  includeJoined : bytes;
  derivedVary : bytes;
  stripPrefixes : list bytes;
  cookiePresence : list bytes;
  cookieValues : list bytes;
  stripEmpty : bool;
  dedup : bool;
  excludeHost : bool;
  verbatimAE : bool;
}.

(** [&KeyPolicy{}] *)
Definition KeyPolicy0 : KeyPolicy :=
  {| stripParams := None; keepParams := None; excludeHeaders := None; includeHeaders := [];
     includeJoined := []; derivedVary := []; stripPrefixes := []; cookiePresence := [];
     cookieValues := []; stripEmpty := false; dedup := false; excludeHost := false;
     verbatimAE := false |}.

Definition map_get (m : option (gmap bytes bool)) (k : bytes) : bool :=
  match m with Some g => default false (g !! k) | None => false end.

Definition includeHostKey (p : option KeyPolicy) : bool :=
  match p with None => true | Some p => negb (excludeHost p) end.

(** [stackSeen]: at most eight names. *)
Definition seen_contains (s : list bytes) (k : bytes) : bool := existsb (fun n => beq n k) s.
Definition seen_add (s : list bytes) (k : bytes) : list bytes :=
  if (length s <? 8)%nat then s ++ [k] else s.

Definition shouldStripParam (p : KeyPolicy) (k v : bytes) (seen : list bytes) : bool :=
  if (if keepParams p then negb (map_get (keepParams p) k)
      else stripEmpty p && beq v []) then true
  else if (if stripParams p then map_get (stripParams p) k else false) then true
  else if existsb (has_prefix k) (stripPrefixes p) then true
  else dedup p && seen_contains seen k.

Definition markSeen (p : KeyPolicy) (k : bytes) (seen : list bytes) : list bytes :=
  if dedup p then seen_add seen k else seen.

(** ** Query strings *)

(** The values [seg] takes in the loop [for s := raw; s != "";], which cuts
    [s] at each ampersand; the same sequence is the one [url.ParseQuery]
    cuts. *)
Fixpoint segments (s : bytes) : list bytes :=
  match s with
  | [] => []
  | c :: s' =>
      if beqb c (ch "&") then [] :: segments s'
      else match segments s' with
           | [] => [[c]]
           | w :: ws => (c :: w) :: ws
           end
  end.

Abbreviation kvPair := (bytes * bytes)%type.

(** [k, v, _ := strings.Cut(seg, "=")] *)
Definition cut_eq (seg : bytes) : kvPair :=
  match cut_byte (ch "=") seg with Some kv => kv | None => (seg, []) end.

Definition pair_lt (a b : kvPair) : bool :=
  bytes_gtb b.1 a.1 || (beq a.1 b.1 && bytes_gtb b.2 a.2).

(** [sortPairs]: each element in turn moves left past its greater
    predecessors. The prefix already sorted is kept reversed. *)
Fixpoint sink (x : kvPair) (rprefix : list kvPair) : list kvPair :=
  match rprefix with
  | [] => [x]
  | y :: r => if pair_lt x y then y :: sink x r else x :: y :: r
  end.
Definition sortPairs (l : list kvPair) : list kvPair :=
  rev (foldl (fun r x => sink x r) [] l).

Fixpoint write_loop (first : bool) (w : cursor) (l : list kvPair) : cursor :=
  match l with
  | [] => w
  | (k, v) :: l' =>
      let w := if negb first then appendByte w (ch "&") else w in
      let w := copyOverflow w k in
      let w := appendByte w (ch "=") in
      write_loop false (copyOverflow w v) l'
  end.
Definition writeSortedPairs (w : cursor) (l : list kvPair) : cursor := write_loop true w l.

(** *** net/url *)

Definition unhex (c : byte) : option Z := fromHexChar c.

(** [url.QueryUnescape] *)
Fixpoint QueryUnescape (s : bytes) : option bytes :=
  match s with
  | [] => Some []
  | c :: s' =>
      if beqb c (ch "%") then
        match s' with
        | a :: b :: s'' =>
            match unhex a, unhex b with
            | Some x, Some y => option_map (cons (bZ (16 * x + y))) (QueryUnescape s'')
            | _, _ => None
            end
        | _ => None
        end
      else if beqb c (ch "+") then option_map (cons (ch " ")) (QueryUnescape s')
      else option_map (cons c) (QueryUnescape s')
  end.

(** [url.QueryEscape] *)
Definition unreserved (c : byte) : bool :=
  is_lower c || is_upper c || is_digit c
  || beqb c (ch "-") || beqb c (ch "_") || beqb c (ch ".") || beqb c (ch "~").
Definition upperhex (z : Z) : byte := if z <? 10 then bZ (48 + z) else bZ (55 + z).
Definition escape_byte (c : byte) : bytes :=
  if beqb c (ch " ") then [ch "+"]
  else if unreserved c then [c]
  else [ch "%"; upperhex (Zb c / 16); upperhex (Zb c mod 16)].
Definition QueryEscape (s : bytes) : bytes := flat_map escape_byte s.

(** [url.ParseQuery], whose error the callers drop: a segment with a
    semicolon or a broken escape is skipped. (Its limit of 10000 parameters is
    above what an 8 KiB request target can carry.) *)
Definition parse_segment (seg : bytes) : option kvPair :=
  if contains_byte (ch ";") seg then None
  else if beq seg [] then None
  else let '(k, v) := cut_eq seg in
       match QueryUnescape k with
       | None => None
       | Some k => match QueryUnescape v with None => None | Some v => Some (k, v) end
       end.
Definition add_value (m : gmap bytes (list bytes)) (kv : kvPair) : gmap bytes (list bytes) :=
  <[kv.1 := default [] (m !! kv.1) ++ [kv.2]]> m.
Definition ParseQuery (raw : bytes) : gmap bytes (list bytes) :=
  foldl add_value ∅ (omap parse_segment (segments raw)).

Definition sort_strings (l : list bytes) : list bytes := stable_sort id l.

(** *** The four query writers of fastpath.go *)

(** The inner loops of the slow writers: the values of one parameter. *)
Fixpoint vals_loop (fw : bool * cursor) (k : bytes) (vals : list bytes) : bool * cursor :=
  match vals with
  | [] => fw
  | v :: vals' =>
      let '(first, w) := fw in
      let w := if negb first then appendByte w (ch "&") else w in
      let w := copyOverflow w (QueryEscape k) in
      let w := appendByte w (ch "=") in
      vals_loop (false, copyOverflow w (QueryEscape v)) k vals'
  end.

(** A range over a Go map visits the keys in any order; they are sorted
    afterwards, so any enumeration of the domain will do. *)
Definition appendCanonicalQuerySlowStringNoPolicy (w : cursor) (raw : bytes) : cursor :=
  let params := ParseQuery raw in
  let keys := sort_strings (elements (dom params)) in
  snd (foldl (fun fw k => vals_loop fw k (sort_strings (default [] (params !! k)))) (true, w) keys).

(** The filter over the keys of the parameters. *)
Definition slow_keeps (p : KeyPolicy) (params : gmap bytes (list bytes)) (k : bytes) : bool :=
  if (if keepParams p then negb (map_get (keepParams p) k) else false) then false
  else if (if stripParams p then map_get (stripParams p) k else false) then false
  else if existsb (has_prefix k) (stripPrefixes p) then false
  else if stripEmpty p && (if keepParams p then false else true)
          && forallb (fun v => beq v []) (default [] (params !! k)) then false
  else true.

(** The values written for a key that is kept. *)
Definition slow_vals (p : KeyPolicy) (vals : list bytes) : list bytes :=
  let vals := if dedup p then take 1 vals else sort_strings vals in
  if stripEmpty p && (if keepParams p then false else true)
  then List.filter (fun v => negb (beq v [])) vals else vals.

Definition appendCanonicalQuerySlowString (w : cursor) (raw : bytes) (p : KeyPolicy) : cursor :=
  let params := ParseQuery raw in
  let keys := sort_strings (List.filter (slow_keeps p params) (elements (dom params))) in
  snd (foldl (fun fw k => vals_loop fw k (slow_vals p (default [] (params !! k)))) (true, w) keys).

(** The scans that fill [stackPairs]; [None] is [simple = false]. *)
Fixpoint scan_no_policy (pairs : list kvPair) (segs : list bytes) : option (list kvPair) :=
  match segs with
  | [] => Some pairs
  | seg :: segs' =>
      let '(k, v) := cut_eq seg in
      if contains_byte (ch "%") k || contains_byte (ch "%") v then None
      else if (8 <=? length pairs)%nat then None
      else scan_no_policy (pairs ++ [(k, v)]) segs'
  end.

Definition appendCanonicalQueryStringNoPolicy (w : cursor) (raw : bytes) : cursor :=
  match scan_no_policy [] (segments raw) with
  | None => appendCanonicalQuerySlowStringNoPolicy w raw
  | Some pairs => writeSortedPairs w (sortPairs pairs)
  end.

Fixpoint scan_policy (p : KeyPolicy) (seen : list bytes) (pairs : list kvPair) (segs : list bytes)
  : option (list kvPair) :=
  match segs with
  | [] => Some pairs
  | seg :: segs' =>
      let '(k, v) := cut_eq seg in
      if shouldStripParam p k v seen then scan_policy p seen pairs segs'
      else if contains_byte (ch "%") k || contains_byte (ch "%") v then None
      else if (8 <=? length pairs)%nat then None
      else scan_policy p (markSeen p k seen) (pairs ++ [(k, v)]) segs'
  end.

Definition appendCanonicalQueryString (w : cursor) (raw : bytes) (p : option KeyPolicy) : cursor :=
  if beq raw [] then w
  else match p with
  | None => appendCanonicalQueryStringNoPolicy w raw
  | Some p =>
      match scan_policy p [] [] (segments raw) with
      | None => appendCanonicalQuerySlowString w raw p
      | Some pairs => writeSortedPairs w (sortPairs pairs)
      end
  end.

(** ** The three key builders *)

Definition bytesIndexByte (b : bytes) (c : byte) : Z := index_byte c b.

Definition extractRawQueryBytes (uri : bytes) : bytes :=
  let i := bytesIndexByte uri (ch "?") in
  if 0 <=? i then drop (Z.to_nat (i + 1)) uri else [].

Fixpoint bytesEqual_loop (a b : bytes) : bool :=
  match a, b with
  | v :: a', u :: b' => if negb (beqb v u) then false else bytesEqual_loop a' b'
  | _, _ => true
  end.
Definition bytesEqual (a b : bytes) : bool :=
  if negb (length a =? length b)%nat then false else bytesEqual_loop a b.

(** The fields of [api.RawRequest] the key is built from. *)
Record RawRequest : Type := MkRaw {
  raw_Method : bytes;
  raw_Path : bytes;
  raw_Query : bytes;
  raw_Host : bytes;
  raw_Scheme : bytes;
}.

Definition new_cursor (size : nat) : cursor := {| cbuf := replicate size x00; cn := 0 |}.
(** [buf[:n]] *)
Definition written (w : cursor) : bytes := take (cn w) (cbuf w).

(** The statements of [BuildKey] up to the size test, which [buildKeyHeap]
    repeats on its own buffer. *)
Definition fill_key (w : cursor) (ri : RequestInfo) (policy : option KeyPolicy) : cursor :=
  let w := if TLS ri then copyOverflow w (bs "https|") else copyOverflow w (bs "http|") in
  let w := if includeHostKey policy then appendCanonicalHost w (GetHost ri) else w in
  let w := appendByte w (ch "|") in
  let w := appendCanonicalPathString w (GetPath ri) in
  let w := appendByte w (ch "|") in
  let w := appendCanonicalQueryString w (extractRawQuery (GetURI ri)) policy in
  let w := appendByte w (ch "|") in
  if beq (GetMethod ri) (bs "HEAD") then copyOverflow w (bs "GET") else copyOverflow w (GetMethod ri).

(** The same for [BuildKeyFast], on byte slices. *)
Definition fill_fast (w : cursor) (method uri host path : bytes) (tls : bool)
    (policy : option KeyPolicy) : cursor :=
  let w := if tls then copyOverflowBytes w (bs "https|") else copyOverflowBytes w (bs "http|") in
  let w := if includeHostKey policy then appendCanonicalHostBytes w host else w in
  let w := appendByte w (ch "|") in
  let w := appendCanonicalPathBytes w path in
  let w := appendByte w (ch "|") in
  let rawQuery := extractRawQueryBytes uri in
  let w := if (0 <? length rawQuery)%nat then appendCanonicalQueryString w rawQuery policy else w in
  let w := appendByte w (ch "|") in
  if bytesEqual method (bs "HEAD") then copyOverflowBytes w (bs "GET")
  else copyOverflowBytesFromBytes w method.

(** The same for [buildKeyFromRaw]. *)
Definition fill_raw (w : cursor) (req : RawRequest) (policy : option KeyPolicy) : cursor :=
  let scheme := if beq (raw_Scheme req) [] then bs "http" else raw_Scheme req in
  let w := copyOverflow w scheme in
  let w := appendByte w (ch "|") in
  let w := if includeHostKey policy then appendCanonicalHost w (raw_Host req) else w in
  let w := appendByte w (ch "|") in
  let w := appendCanonicalPathString w (raw_Path req) in
  let w := appendByte w (ch "|") in
  let w := appendCanonicalQueryString w (raw_Query req) policy in
  let w := appendByte w (ch "|") in
  let method := if beq (raw_Method req) (bs "HEAD") then bs "GET" else raw_Method req in
  copyOverflow w method.

Section Builders.
(** [xxhash.Sum128(canonical).Bytes()] *)
Variable sum128 : bytes -> Key.

Definition NewKey (canonical : bytes) : Key := sum128 canonical.

Definition buildKeyHeap (ri : RequestInfo) (policy : option KeyPolicy) (n : nat) : Key :=
  NewKey (written (fill_key (new_cursor n) ri policy)).

Definition BuildKey (ri : RequestInfo) (policy : option KeyPolicy) : Key :=
  let w := fill_key (new_cursor 512) ri policy in
  if (cn w <=? 512)%nat then NewKey (written w) else buildKeyHeap ri policy (cn w).

Definition BuildKeyFast (method uri host path : bytes) (tls : bool) (policy : option KeyPolicy) : Key :=
  let w := fill_fast (new_cursor 512) method uri host path tls policy in
  if (cn w <=? 512)%nat then NewKey (written w)
  else NewKey (written (fill_fast (new_cursor (cn w)) method uri host path tls policy)).

Definition buildKeyFromRaw (req : RawRequest) (policy : option KeyPolicy) : Key :=
  let w := fill_raw (new_cursor 512) req policy in
  if (cn w <=? 512)%nat then NewKey (written w)
  else NewKey (written (fill_raw (new_cursor (cn w)) req policy)).
End Builders.

(** ** The reference: the canonical form as a string *)

Definition is_suffix (s p : bytes) : bool :=
  (length p <=? length s)%nat && beq (drop (length s - length p) s) p.
Definition strip_port (h : bytes) : bytes :=
  if is_suffix h (bs ":80") then take (length h - 3) h
  else if is_suffix h (bs ":443") then take (length h - 4) h
  else h.
Definition canonical_host (host : bytes) : bytes := strip_port (map host_byte host).

Fixpoint collapse (prev : byte) (p : bytes) : bytes :=
  match p with
  | [] => []
  | c :: p' => if beqb c (ch "/") && beqb prev (ch "/") then collapse prev p' else c :: collapse c p'
  end.
Definition canonical_path (p : bytes) : bytes := collapse x00 (if beq p [] then bs "/" else p).

Fixpoint text_from (first : bool) (l : list kvPair) : bytes :=
  match l with
  | [] => []
  | (k, v) :: l' => (if first then [] else [ch "&"]) ++ k ++ ch "=" :: v ++ text_from false l'
  end.
Definition pairs_text (l : list kvPair) : bytes := text_from true l.

Definition esc_pairs (k : bytes) (vals : list bytes) : list kvPair :=
  map (fun v => (QueryEscape k, QueryEscape v)) vals.
Definition slow_pairs_no_policy (raw : bytes) : list kvPair :=
  let params := ParseQuery raw in
  flat_map (fun k => esc_pairs k (sort_strings (default [] (params !! k))))
           (sort_strings (elements (dom params))).
Definition slow_pairs (p : KeyPolicy) (raw : bytes) : list kvPair :=
  let params := ParseQuery raw in
  flat_map (fun k => esc_pairs k (slow_vals p (default [] (params !! k))))
           (sort_strings (List.filter (slow_keeps p params) (elements (dom params)))).

(** The pairs a query contributes to the key, in the order written. *)
Definition query_pairs (raw : bytes) (policy : option KeyPolicy) : list kvPair :=
  match policy with
  | None => match scan_no_policy [] (segments raw) with
            | Some l => sortPairs l
            | None => slow_pairs_no_policy raw
            end
  | Some p => match scan_policy p [] [] (segments raw) with
              | Some l => sortPairs l
              | None => slow_pairs p raw
              end
  end.
Definition canonical_query (raw : bytes) (policy : option KeyPolicy) : bytes :=
  pairs_text (query_pairs raw policy).
Definition canonical_method (m : bytes) : bytes := if beq m (bs "HEAD") then bs "GET" else m.

Definition canonical_key (scheme host path query method : bytes) (policy : option KeyPolicy) : bytes :=
  scheme ++ ch "|" :: (if includeHostKey policy then canonical_host host else [])
  ++ ch "|" :: canonical_path path ++ ch "|" :: canonical_query query policy
  ++ ch "|" :: canonical_method method.

(** ** Buffers: what a cursor holds

    [holds w s]: the cursor counted all of [s] and its buffer carries as much
    of [s] as fits. A step [writes] a piece when it extends what is held. *)

Definition holds (w : cursor) (s : bytes) : Prop :=
  cn w = length s /\ take (length s) (cbuf w) = take (length (cbuf w)) s.

Definition writes (f : cursor -> cursor) (piece : bytes) : Prop :=
  forall w s, holds w s -> holds (f w) (s ++ piece) /\ length (cbuf (f w)) = length (cbuf w).

Lemma holds_new (size : nat) : holds (new_cursor size) [].
Proof. split; [done|]. simpl. by rewrite take_nil. Qed.

Lemma holds_written (w : cursor) (s : bytes) :
  holds w s -> (length s <= length (cbuf w))%nat -> written w = s.
Proof.
  intros [Hn Ht] Hl. unfold written. rewrite Hn, Ht. by apply take_ge.
Qed.

Lemma writes_nil : writes (fun w => w) [].
Proof. intros w s H. by rewrite app_nil_r. Qed.

Lemma writes_compose (f g : cursor -> cursor) (a b : bytes) :
  writes f a -> writes g b -> writes (fun w => g (f w)) (a ++ b).
Proof.
  intros Hf Hg w s H. destruct (Hf _ _ H) as [H1 L1]. destruct (Hg _ _ H1) as [H2 L2].
  rewrite app_assoc. split; [done|congruence].
Qed.

Lemma holds_list (b s : bytes) :
  take (length s) b = take (length b) s <->
  forall i, (i < length s)%nat -> (i < length b)%nat -> b !! i = s !! i.
Proof.
  split.
  - intros H i Hs Hb. pose proof (f_equal (lookup i) H) as E.
    rewrite !lookup_take_lt in E by lia. done.
  - intros H. apply list_eq. intros i. rewrite !lookup_take.
    repeat case_decide; auto.
    + rewrite lookup_ge_None_2 by lia. done.
    + rewrite lookup_ge_None_2 by lia. done.
Qed.

Lemma writes_copyOverflow (src : bytes) : writes (fun w => copyOverflow w src) src.
Proof.
  intros [b n] s [Hn Ht]. simpl in *. subst n. unfold copyOverflow; simpl.
  rewrite holds_list in Ht.
  destruct (Nat.ltb_spec (length s) (length b)) as [Hlt|Hge].
  - assert (length (go_copy b (length s) src) = length b) as Hlen.
    { unfold go_copy. rewrite !length_app, !length_take, length_drop. lia. }
    split; [split; simpl; [by rewrite length_app|]|done].
    rewrite holds_list, Hlen, length_app. intros i Hi Hb. unfold go_copy.
    destruct (decide (i < length s)%nat) as [H1|H1].
    + rewrite lookup_app_l by (rewrite length_take; lia). rewrite lookup_take_lt by lia.
      rewrite lookup_app_l by lia. auto.
    + rewrite lookup_app_r by (rewrite length_take; lia). rewrite length_take, Nat.min_l by lia.
      rewrite lookup_app_l by (rewrite length_take; lia). rewrite lookup_take_lt by lia.
      by rewrite lookup_app_r by lia.
  - split; [split; simpl; [by rewrite length_app|]|done].
    rewrite holds_list. intros i Hi Hb. rewrite lookup_app_l by lia. apply Ht; lia.
Qed.

Lemma appendByte_copy (w : cursor) (b : byte) : appendByte w b = copyOverflow w [b].
Proof.
  destruct w as [l n]. unfold appendByte, copyOverflow; simpl. f_equal.
  destruct (Nat.ltb_spec n (length l)) as [H|]; [|done].
  unfold go_copy. rewrite insert_take_drop by done. simpl.
  rewrite (take_ge [b]) by (simpl; lia). by rewrite Nat.add_1_r.
Qed.

Lemma writes_ext (f g : cursor -> cursor) (a : bytes) :
  (forall w, f w = g w) -> writes g a -> writes f a.
Proof. intros E H w s Hs. rewrite E. auto. Qed.

Lemma writes_appendByte (b : byte) : writes (fun w => appendByte w b) [b].
Proof. eapply writes_ext; [intros; apply appendByte_copy|]. apply writes_copyOverflow. Qed.

Lemma writes_cons (f g : cursor -> cursor) (b : byte) (a : bytes) :
  writes f [b] -> writes g a -> writes (fun w => g (f w)) (b :: a).
Proof. exact (writes_compose f g [b] a). Qed.

Lemma writes_host_loop (host : bytes) : writes (fun w => host_loop w host) (map host_byte host).
Proof.
  induction host as [|c h IH]; simpl; [exact writes_nil|].
  exact (writes_cons (fun w => appendByte w (host_byte c)) _ _ _ (writes_appendByte _) IH).
Qed.

Lemma writes_path_loop (p : bytes) : forall prev, writes (fun w => path_loop w prev p) (collapse prev p).
Proof.
  induction p as [|c p IH]; intros prev; simpl; [exact writes_nil|].
  destruct (beqb c (ch "/") && beqb prev (ch "/")); [apply IH|].
  exact (writes_cons (fun w => appendByte w c) _ _ _ (writes_appendByte _) (IH c)).
Qed.

Lemma writes_write_loop (l : list kvPair) :
  forall first, writes (fun w => write_loop first w l) (text_from first l).
Proof.
  induction l as [|[k v] l IH]; intros first; simpl; [exact writes_nil|].
  assert (forall pre, writes (fun w => if negb first then appendByte w pre else w)
                             (if first then [] else [pre])) as Hsep.
  { intros pre. destruct first; [apply writes_nil|apply writes_appendByte]. }
  refine (writes_compose _ (fun w => write_loop false (copyOverflow (appendByte (copyOverflow w k) (ch "=")) v) l)
            _ _ (Hsep _) _).
  refine (writes_compose _ (fun w => write_loop false (copyOverflow (appendByte w (ch "=")) v) l)
            _ _ (writes_copyOverflow k) _).
  refine (writes_cons _ (fun w => write_loop false (copyOverflow w v) l) _ _ (writes_appendByte _) _).
  exact (writes_compose _ _ _ _ (writes_copyOverflow v) (IH false)).
Qed.

(** The nested loops of the slow writers write one list of pairs. *)
Lemma write_loop_app (l k : list kvPair) : forall first w,
  write_loop first w (l ++ k) =
  write_loop (match l with [] => first | _ => false end) (write_loop first w l) k.
Proof.
  induction l as [|[a b] l IH]; intros first w; simpl; [done|].
  rewrite IH. by destruct l.
Qed.

Definition still_first (first : bool) (l : list kvPair) : bool :=
  match l with [] => first | _ => false end.

Lemma vals_loop_write (k : bytes) (vals : list bytes) : forall first w,
  vals_loop (first, w) k vals =
  (still_first first (esc_pairs k vals), write_loop first w (esc_pairs k vals)).
Proof.
  induction vals as [|v vals IH]; intros first w; [done|].
  cbn [vals_loop esc_pairs map write_loop still_first]. rewrite IH.
  by destruct vals.
Qed.

Lemma keys_loop_write (f : bytes -> list bytes) (keys : list bytes) : forall first w,
  foldl (fun fw k => vals_loop fw k (f k)) (first, w) keys =
  (still_first first (flat_map (fun k => esc_pairs k (f k)) keys),
   write_loop first w (flat_map (fun k => esc_pairs k (f k)) keys)).
Proof.
  induction keys as [|k keys IH]; intros first w; simpl; [done|].
  rewrite vals_loop_write, IH, write_loop_app.
  destruct (esc_pairs k (f k)); simpl; [done|].
  by destruct (flat_map (fun k => esc_pairs k (f k)) keys).
Qed.

Lemma writes_query (raw : bytes) (policy : option KeyPolicy) :
  writes (fun w => appendCanonicalQueryString w raw policy) (canonical_query raw policy).
Proof.
  unfold appendCanonicalQueryString, canonical_query, query_pairs, pairs_text.
  destruct (beq raw []) eqn:E.
  { apply beq_eq in E. subst raw. by destruct policy; simpl; apply writes_nil. }
  destruct policy as [p|].
  - destruct (scan_policy p [] [] (segments raw)); [apply writes_write_loop|].
    eapply writes_ext; [|apply writes_write_loop]. intros w.
    unfold appendCanonicalQuerySlowString, slow_pairs. by rewrite keys_loop_write.
  - unfold appendCanonicalQueryStringNoPolicy.
    destruct (scan_no_policy [] (segments raw)); [apply writes_write_loop|].
    eapply writes_ext; [|apply writes_write_loop]. intros w.
    unfold appendCanonicalQuerySlowStringNoPolicy, slow_pairs_no_policy. by rewrite keys_loop_write.
Qed.

(** *** The host segment: a stripped port, when the host fits *)

Lemma is_suffix_spec (s p : bytes) : is_suffix s p = true <-> exists q, s = q ++ p.
Proof.
  unfold is_suffix. rewrite andb_true_iff, Nat.leb_le, beq_eq. split.
  - intros [Hl E]. exists (take (length s - length p) s). 
    rewrite <- (take_drop (length s - length p) s) at 1. by rewrite E.
  - intros [q ->]. rewrite length_app. split; [lia|].
    replace (length q + length p - length p)%nat with (length q) by lia. apply drop_app_length.
Qed.

Lemma hasSuffix_holds (w : cursor) (s p : bytes) :
  holds w s -> hasSuffix (cbuf w) (cn w) p = (length s <=? length (cbuf w))%nat && is_suffix s p.
Proof.
  intros [Hn Ht]. unfold hasSuffix, is_suffix. rewrite Hn.
  destruct (Nat.leb_spec (length s) (length (cbuf w))) as [H|H];
    destruct (Nat.ltb_spec (length s) (length p)), (Nat.ltb_spec (length (cbuf w)) (length s)),
      (Nat.leb_spec (length p) (length s)); simpl; try lia; try done.
  rewrite (take_ge s) in Ht by lia.
  assert (drop (length s - length p) s = take (length p) (drop (length s - length p) (cbuf w))) as ->; [|done].
  rewrite <- Ht at 2. rewrite skipn_firstn_comm. f_equal. lia.
Qed.

(** The segment before the host ends with a bar, which no port contains. *)
Lemma is_suffix_after_bar (pre l p : bytes) :
  ch "|" ∉ p -> is_suffix (pre ++ ch "|" :: l) p = is_suffix l p.
Proof.
  intros Hp. apply eq_true_iff_eq. rewrite !is_suffix_spec. split.
  - intros [q E]. apply app_eq_inv in E as [(k & _ & ->)|(k & _ & E)].
    + exfalso. apply Hp. apply elem_of_app. right. left.
    + destruct k as [|c k]; simpl in E.
      * exfalso. apply Hp. rewrite <- E. left.
      * injection E as _ ->. by exists k.
  - intros [q ->]. exists (pre ++ ch "|" :: q). by rewrite <- app_assoc.
Qed.

Lemma holds_shorten (w : cursor) (s t : bytes) :
  holds w (s ++ t) -> holds {| cbuf := cbuf w; cn := cn w - length t |} s.
Proof.
  intros [Hn Ht]. split; simpl.
  - rewrite Hn, length_app. lia.
  - rewrite holds_list in *. intros i Hi Hb. rewrite Ht by (rewrite ?length_app; lia).
    by rewrite lookup_app_l.
Qed.

Lemma suffix_split (l p : bytes) :
  is_suffix l p = true -> l = take (length l - length p) l ++ p.
Proof.
  intros H. apply is_suffix_spec in H as [q ->]. rewrite length_app.
  replace (length q + length p - length p)%nat with (length q) by lia. by rewrite take_app_length.
Qed.

Lemma host_step (w : cursor) (pre host : bytes) :
  holds w (pre ++ [ch "|"]) ->
  let w' := appendCanonicalHost w host in
  length (cbuf w') = length (cbuf w) /\
  holds w' (pre ++ ch "|" :: (if (length pre + 1 + length host <=? length (cbuf w))%nat
                              then canonical_host host else map host_byte host)).
Proof.
  intros H. destruct (writes_host_loop host _ _ H) as [Hh Hl].
  rewrite <- app_assoc in Hh. simpl in Hh.
  unfold appendCanonicalHost, canonical_host, strip_port.
  set (w1 := host_loop w host) in *. set (l := map host_byte host) in *.
  assert (length (pre ++ ch "|" :: l) = length pre + 1 + length host)%nat as Hlen.
  { rewrite length_app. simpl. unfold l. rewrite length_map. lia. }
  rewrite !(hasSuffix_holds w1 _ _ Hh), Hl, Hlen, !is_suffix_after_bar by (vm_compute; set_solver).
  destruct (_ <=? _)%nat eqn:Efit; simpl; [|by destruct w1].
  assert (forall p, is_suffix l p = true ->
    holds {| cbuf := cbuf w1; cn := cn w1 - length p |} (pre ++ ch "|" :: take (length l - length p) l)) as Hs.
  { intros p Ep. apply holds_shorten. rewrite <- app_assoc. simpl. by rewrite <- suffix_split. }
  destruct (is_suffix l (bs ":80")) eqn:E80; simpl; [split; [done|apply (Hs (bs ":80") E80)]|].
  destruct (is_suffix l (bs ":443")) eqn:E443; simpl; [split; [done|apply (Hs (bs ":443") E443)]|].
  by destruct w1.
Qed.

(** ** Two passes give the canonical bytes

    [fills fill s]: on a buffer of at least [h] bytes the pass holds [s]; on a
    smaller one it counts at least as much as [s] and as [h]. *)
Definition fills (fill : cursor -> cursor) (s : bytes) : Prop :=
  exists (u : bytes) (h : nat),
    (length s <= length u)%nat /\ (h <= length u)%nat /\
    forall size, length (cbuf (fill (new_cursor size))) = size /\
      holds (fill (new_cursor size)) (if (h <=? size)%nat then s else u).

Lemma fills_two_pass (fill : cursor -> cursor) (s : bytes) :
  fills fill s ->
  let w := fill (new_cursor 512) in
  (if (cn w <=? 512)%nat then written w else written (fill (new_cursor (cn w)))) = s.
Proof.
  intros (u & h & Hsu & Hhu & Hf). simpl.
  destruct (Hf 512%nat) as [HL H]. pose proof (proj1 H) as Hn.
  assert (forall n, (h <= n)%nat -> (length s <= n)%nat -> written (fill (new_cursor n)) = s) as Hbig.
  { intros n Hh Hs. destruct (Hf n) as [HLn Hh']. rewrite (proj2 (Nat.leb_le h n) Hh) in Hh'.
    apply holds_written; [done|lia]. }
  destruct (Nat.leb_spec h 512) as [Hh|Hh]; rewrite Hn.
  - destruct (Nat.leb_spec (length s) 512); apply Hbig; lia.
  - destruct (Nat.leb_spec (length u) 512); [lia|]. apply Hbig; lia.
Qed.

Lemma fills_key (first rest : cursor -> cursor) (scheme host tail : bytes) (policy : option KeyPolicy) :
  writes first (scheme ++ [ch "|"]) -> writes rest tail ->
  fills (fun w => rest (if includeHostKey policy then appendCanonicalHost (first w) host else first w))
        (scheme ++ ch "|" :: (if includeHostKey policy then canonical_host host else []) ++ tail).
Proof.
  intros Hf Hr. destruct (includeHostKey policy).
  - exists (scheme ++ ch "|" :: map host_byte host ++ tail), (length scheme + 1 + length host)%nat.
    split; [|split].
    + rewrite !length_app. simpl. rewrite !length_app.
      assert (length (canonical_host host) <= length (map host_byte host))%nat; [|lia].
      unfold canonical_host, strip_port. repeat case_match; rewrite ?length_take; lia.
    + rewrite length_app. simpl. rewrite length_app, length_map. lia.
    + intros size. destruct (Hf _ _ (holds_new size)) as [H1 L1]. simpl in H1, L1.
      destruct (host_step _ _ host H1) as [L2 H2]. rewrite L1, length_replicate in H2.
      destruct (Hr _ _ H2) as [H3 L3]. rewrite L3, L2, L1, length_replicate. split; [done|].
      rewrite <- app_assoc in H3. simpl in H3. by destruct (_ <=? _)%nat.
  - exists (scheme ++ ch "|" :: tail), 0%nat. split; [done|]. split; [lia|].
    intros size. destruct (Hf _ _ (holds_new size)) as [H1 L1].
    destruct (Hr _ _ H1) as [H3 L3]. rewrite L3, L1. simpl. rewrite length_replicate. split; [done|].
    simpl in H3. by rewrite <- app_assoc in H3.
Qed.

Lemma writes_tail (path query method : bytes) (policy : option KeyPolicy) :
  writes (fun w => copyOverflow (appendByte (appendCanonicalQueryString (appendByte
            (appendCanonicalPathString (appendByte w (ch "|")) path) (ch "|")) query policy) (ch "|")) method)
         (ch "|" :: canonical_path path ++ ch "|" :: canonical_query query policy ++ ch "|" :: method).
Proof.
  assert (Hm := writes_cons _ _ _ _ (writes_appendByte (ch "|")) (writes_copyOverflow method)).
  assert (Hq := writes_cons _ _ _ _ (writes_appendByte (ch "|"))
                  (writes_compose _ _ _ _ (writes_query query policy) Hm)).
  exact (writes_cons _ _ _ _ (writes_appendByte (ch "|"))
           (writes_compose _ _ _ _ (writes_path_loop _ _) Hq)).
Qed.

Lemma two_pass_key (sum128 : bytes -> Key) (fill : cursor -> cursor) (s : bytes) :
  fills fill s ->
  let w := fill (new_cursor 512) in
  (if (cn w <=? 512)%nat then NewKey sum128 (written w)
   else NewKey sum128 (written (fill (new_cursor (cn w))))) = sum128 s.
Proof.
  intros H. pose proof (fills_two_pass fill s H) as E. cbv zeta in E |- *.
  unfold NewKey. destruct (_ <=? 512)%nat; by rewrite E.
Qed.

Lemma fills_ext (f g : cursor -> cursor) (s : bytes) :
  (forall w, f w = g w) -> fills g s -> fills f s.
Proof.
  intros E (u & h & Hs & Hh & Hf). exists u, h. split; [done|]. split; [done|].
  intros size. rewrite E. apply Hf.
Qed.

(** The scheme as the builders write it, with its bar. *)
Lemma scheme_bar (tls : bool) :
  (if tls then bs "https|" else bs "http|") = (if tls then bs "https" else bs "http") ++ [ch "|"].
Proof. by destruct tls. Qed.

Lemma writes_scheme (tls : bool) :
  writes (fun w => copyOverflow w (if tls then bs "https|" else bs "http|"))
         ((if tls then bs "https" else bs "http") ++ [ch "|"]).
Proof. rewrite scheme_bar. apply writes_copyOverflow. Qed.

(** The pass all three builders make. *)
Definition pass (tls : bool) (host path query method : bytes) (policy : option KeyPolicy)
    (w : cursor) : cursor :=
  let w := copyOverflow w (if tls then bs "https|" else bs "http|") in
  let w := if includeHostKey policy then appendCanonicalHost w host else w in
  copyOverflow (appendByte (appendCanonicalQueryString (appendByte
     (appendCanonicalPathString (appendByte w (ch "|")) path) (ch "|")) query policy) (ch "|"))
     (canonical_method method).

Lemma fills_pass (tls : bool) (host path query method : bytes) (policy : option KeyPolicy) :
  fills (pass tls host path query method policy)
    (canonical_key (if tls then bs "https" else bs "http") host path query method policy).
Proof.
  unfold canonical_key.
  exact (fills_key _ _ _ host _ policy (writes_scheme tls)
           (writes_tail path query (canonical_method method) policy)).
Qed.

Lemma fill_key_pass (ri : RequestInfo) (policy : option KeyPolicy) (w : cursor) :
  fill_key w ri policy =
  pass (TLS ri) (GetHost ri) (GetPath ri) (extractRawQuery (GetURI ri)) (GetMethod ri) policy w.
Proof.
  unfold fill_key, pass, canonical_method.
  destruct (TLS ri), (beq (GetMethod ri) (bs "HEAD")); reflexivity.
Qed.

Lemma bytesEqual_beq (a b : bytes) : bytesEqual a b = beq a b.
Proof.
  unfold bytesEqual. revert b. induction a as [|x a IH]; intros [|y b]; simpl; try done.
  specialize (IH b). apply eq_true_iff_eq. rewrite beq_eq.
  destruct (beqb x y) eqn:E; simpl.
  - apply beqb_eq in E. subst y.
    change (length a =? length b)%nat with (length a =? length b)%nat in *.
    rewrite IH, beq_eq. split; [by intros ->|by intros [= ->]].
  - apply beqb_neq in E. destruct (negb _); split; congruence.
Qed.

Lemma fill_fast_pass (method uri host path : bytes) (tls : bool) (policy : option KeyPolicy) (w : cursor) :
  fill_fast w method uri host path tls policy =
  pass tls host path (extractRawQuery uri) method policy w.
Proof.
  unfold fill_fast, pass, canonical_method. rewrite bytesEqual_beq.
  change (extractRawQueryBytes uri) with (extractRawQuery uri).
  change appendCanonicalHostBytes with appendCanonicalHost.
  change copyOverflowBytesFromBytes with copyOverflow. change copyOverflowBytes with copyOverflow.
  assert (forall w, appendCanonicalPathBytes w path = appendCanonicalPathString w path) as Hp.
  { intros w'. unfold appendCanonicalPathBytes, appendCanonicalPathString. by destruct path. }
  rewrite Hp.
  assert (forall w, (if (0 <? length (extractRawQuery uri))%nat
                     then appendCanonicalQueryString w (extractRawQuery uri) policy else w)
          = appendCanonicalQueryString w (extractRawQuery uri) policy) as Hq.
  { intros w'. by destruct (extractRawQuery uri). }
  rewrite Hq. destruct tls, (beq method (bs "HEAD")); reflexivity.
Qed.

Lemma fills_fill_raw (req : RawRequest) (policy : option KeyPolicy) :
  fills (fun w => fill_raw w req policy)
    (canonical_key (if beq (raw_Scheme req) [] then bs "http" else raw_Scheme req)
       (raw_Host req) (raw_Path req) (raw_Query req) (raw_Method req) policy).
Proof.
  unfold canonical_key.
  exact (fills_key _ _ _ (raw_Host req) _ policy
           (writes_compose _ _ _ _ (writes_copyOverflow _) (writes_appendByte (ch "|")))
           (writes_tail (raw_Path req) (raw_Query req) (canonical_method (raw_Method req)) policy)).
Qed.

(** ** Sorting *)

Lemma bytes_leb_antisym (a b : bytes) : bytes_leb a b = true -> bytes_leb b a = true -> a = b.
Proof.
  unfold bytes_leb. rewrite (bytes_cmp_antisym a b).
  destruct (bytes_cmp a b) eqn:E; simpl; try done. intros _ _. by apply bytes_cmp_eq.
Qed.

Lemma sorted_by_strong (l : list bytes) :
  sorted_by id l -> StronglySorted (fun a b => bytes_leb a b = true) l.
Proof. induction l as [|x l IH]; simpl; [constructor|]. intros [Hx Hl]. constructor; auto. Qed.

Lemma sort_strings_perm (l l' : list bytes) : l ≡ₚ l' -> sort_strings l = sort_strings l'.
Proof.
  intros H. apply (StronglySorted_unique_strong (fun a b => bytes_leb a b = true)).
  - intros x1 x2 _ _. apply bytes_leb_antisym.
  - apply sorted_by_strong, stable_sort_sorted.
  - apply sorted_by_strong, stable_sort_sorted.
  - unfold sort_strings. by rewrite !stable_sort_perm.
Qed.

(** [pair_lt y x = false]: [x] may stand before [y]. *)
Definition pair_ge (y x : kvPair) : Prop := pair_lt y x = false.

Lemma pair_ge_spec (y x : kvPair) :
  pair_ge y x <-> bytes_leb x.1 y.1 = true /\ (x.1 = y.1 -> bytes_leb x.2 y.2 = true).
Proof.
  unfold pair_ge, pair_lt. rewrite !bytes_gtb_leb, orb_false_iff, andb_false_iff, !negb_false_iff.
  rewrite beq_neq. split.
  - intros [H [H'|H']]; split; congruence.
  - intros [H H']. split; [done|]. destruct (decide (y.1 = x.1)); auto.
Qed.

Lemma pair_ge_trans (a b c : kvPair) : pair_ge a b -> pair_ge b c -> pair_ge a c.
Proof.
  rewrite !pair_ge_spec. intros [H1 H1'] [H2 H2']. split; [by eapply bytes_leb_trans|].
  intros E. assert (b.1 = c.1) as Eb.
  { apply bytes_leb_antisym; [|done]. by rewrite E. }
  eapply bytes_leb_trans; [apply H2'|apply H1']; congruence.
Qed.

Lemma pair_ge_antisym (a b : kvPair) : pair_ge a b -> pair_ge b a -> a = b.
Proof.
  rewrite !pair_ge_spec. intros [H1 H1'] [H2 H2'].
  assert (a.1 = b.1) as E by (by apply bytes_leb_antisym).
  assert (a.2 = b.2) as E2 by (apply bytes_leb_antisym; [apply H2'|apply H1']; congruence).
  destruct a, b; simpl in *; congruence.
Qed.

Lemma pair_lt_ge (x y : kvPair) : pair_lt x y = true -> pair_ge y x.
Proof.
  intros H. rewrite pair_ge_spec. unfold pair_lt in H.
  rewrite !bytes_gtb_leb, orb_true_iff, andb_true_iff, !negb_true_iff, beq_eq in H.
  destruct H as [H|[E H]].
  - split; [by apply bytes_leb_total|]. intros E. rewrite E, bytes_leb_refl in H. done.
  - rewrite E, bytes_leb_refl. split; [done|]. intros _. by apply bytes_leb_total.
Qed.

Lemma sink_perm (x : kvPair) (r : list kvPair) : sink x r ≡ₚ x :: r.
Proof.
  induction r as [|y r IH]; simpl; [done|]. destruct (pair_lt x y); [|done].
  rewrite IH. apply Permutation_swap.
Qed.

Lemma sink_sorted (x : kvPair) (r : list kvPair) :
  StronglySorted pair_ge r -> StronglySorted pair_ge (sink x r).
Proof.
  induction r as [|y r IH]; simpl; [by repeat constructor|]. intros H.
  apply StronglySorted_cons in H as [Hy Hr].
  destruct (pair_lt x y) eqn:E.
  - constructor; [by apply IH|]. rewrite sink_perm. constructor; [by apply pair_lt_ge|done].
  - constructor; [by constructor|]. constructor; [done|].
    eapply Forall_impl; [exact Hy|]. intros z Hz. by eapply pair_ge_trans.
Qed.

Lemma sink_fold (l : list kvPair) : forall r : list kvPair, StronglySorted pair_ge r ->
  StronglySorted pair_ge (foldl (fun r x => sink x r) r l) /\
  (foldl (fun r x => sink x r) r l ≡ₚ l ++ r).
Proof.
  induction l as [|x l IH]; intros r Hr; simpl; [done|].
  destruct (IH _ (sink_sorted x r Hr)) as [Hs Hp]. split; [done|].
  rewrite Hp, sink_perm. by rewrite <- Permutation_middle.
Qed.

Lemma sortPairs_Permutation (l : list kvPair) : sortPairs l ≡ₚ l.
Proof.
  unfold sortPairs. rewrite <- Permutation_rev.
  destruct (sink_fold l [] ltac:(constructor)) as [_ H]. by rewrite app_nil_r in H.
Qed.

Lemma sortPairs_perm (l l' : list kvPair) : l ≡ₚ l' -> sortPairs l = sortPairs l'.
Proof.
  intros H. unfold sortPairs. f_equal.
  destruct (sink_fold l [] ltac:(constructor)) as [S1 P1].
  destruct (sink_fold l' [] ltac:(constructor)) as [S2 P2].
  apply (StronglySorted_unique_strong pair_ge); [|done..|].
  - intros x1 x2 _ _. apply pair_ge_antisym.
  - rewrite P1, P2. by rewrite H.
Qed.

(** ** Query strings: cutting and scanning *)

Lemma join_cons2 (sep a b : bytes) (l : list bytes) : join sep (a :: b :: l) = a ++ sep ++ join sep (b :: l).
Proof. reflexivity. Qed.

Lemma segments_last (a : bytes) : ch "&" ∉ a -> a <> [] -> segments a = [a].
Proof.
  induction a as [|c a IH]; [done|]. intros Ha _. apply not_elem_of_cons in Ha as [Hc Ha].
  cbn [segments]. rewrite (proj2 (beqb_neq c (ch "&"))) by congruence.
  destruct a as [|d a]; [done|]. by rewrite IH.
Qed.

Lemma segments_amp (a r : bytes) : ch "&" ∉ a -> segments (a ++ ch "&" :: r) = a :: segments r.
Proof.
  induction a as [|c a IH]; intros Ha; cbn [app segments].
  - by rewrite beqb_refl.
  - apply not_elem_of_cons in Ha as [Hc Ha].
    rewrite (proj2 (beqb_neq c (ch "&"))) by congruence. by rewrite IH.
Qed.

(** Non-empty segments joined by ampersands are cut back. *)
Definition is_segment (s : bytes) : Prop := ch "&" ∉ s /\ s <> [].

Lemma segments_join (l : list bytes) : Forall is_segment l -> segments (join [ch "&"] l) = l.
Proof.
  induction l as [|a l IH]; [done|]. intros H. inversion_clear H as [|?? [Ha Hne] Hl].
  destruct l as [|b l]; [by apply segments_last|].
  rewrite join_cons2. cbn [app]. rewrite segments_amp by done. by rewrite IH.
Qed.

Lemma segments_free (s : bytes) : Forall (fun seg => ch "&" ∉ seg) (segments s).
Proof.
  induction s as [|c s IH]; cbn [segments]; [constructor|].
  destruct (beqb c (ch "&")) eqn:E; [constructor; [by apply not_elem_of_nil|done]|].
  apply beqb_neq in E. destruct (segments s) as [|w ws].
  - constructor; [|done]. apply not_elem_of_cons. split; [congruence|by apply not_elem_of_nil].
  - inversion_clear IH. constructor; [|done]. apply not_elem_of_cons. split; [congruence|done].
Qed.

(** The pairs of a query: names without [=] and [&], values without [&]. *)
Definition pair_ok (kv : kvPair) : Prop := ch "=" ∉ kv.1 /\ ch "&" ∉ kv.1 /\ ch "&" ∉ kv.2.

Lemma cut_eq_ok (seg : bytes) : ch "&" ∉ seg -> pair_ok (cut_eq seg).
Proof.
  intros H. unfold cut_eq. destruct (cut_byte (ch "=") seg) as [[k v]|] eqn:E.
  - apply cut_byte_spec in E as [-> Hk]. rewrite not_elem_of_app, not_elem_of_cons in H.
    split; [done|]. simpl. tauto.
  - apply cut_byte_None in E. split; [done|]. split; [done|]. by apply not_elem_of_nil.
Qed.

Lemma segments_pairs_ok (raw : bytes) : Forall pair_ok (map cut_eq (segments raw)).
Proof.
  apply Forall_fmap. eapply Forall_impl; [apply segments_free|]. intros s Hs. by apply cut_eq_ok.
Qed.

(** What is written for a list of pairs can be read back. *)
Definition pair_text (kv : kvPair) : bytes := kv.1 ++ ch "=" :: kv.2.

Lemma text_from_false (l : list kvPair) :
  text_from false l = match l with [] => [] | _ => ch "&" :: text_from true l end.
Proof. by destruct l as [|[k v] l]. Qed.

Lemma pairs_text_join (l : list kvPair) : pairs_text l = join [ch "&"] (map pair_text l).
Proof.
  unfold pairs_text. induction l as [|[k v] l IH]; [done|].
  cbn [text_from map app]. rewrite text_from_false.
  destruct l as [|kv l]; [by cbn [join]; rewrite app_nil_r|].
  cbn [map]. rewrite join_cons2. cbn [map] in IH. rewrite <- IH.
  unfold pair_text. cbn [fst snd]. by rewrite <- app_assoc.
Qed.

Lemma pairs_text_read (l : list kvPair) : Forall pair_ok l -> map cut_eq (segments (pairs_text l)) = l.
Proof.
  intros H. rewrite pairs_text_join, segments_join.
  - induction H as [|[k v] l (Hk & _) _ IH]; [done|]. cbn [map]. rewrite IH. f_equal.
    unfold cut_eq, pair_text. cbn [fst snd]. by rewrite cut_byte_app.
  - apply Forall_fmap. eapply Forall_impl; [exact H|]. intros [k v] (H1 & H2 & H3). split; simpl.
    + unfold pair_text. rewrite not_elem_of_app, not_elem_of_cons. by split; [|split].
    + unfold pair_text. by destruct k.
Qed.

(** *** The scans as filters *)

Definition escape_free (seg : bytes) : bool :=
  negb (contains_byte (ch "%") (cut_eq seg).1 || contains_byte (ch "%") (cut_eq seg).2).

Lemma scan_no_policy_eq (segs : list bytes) : forall pairs, (length pairs <= 8)%nat ->
  scan_no_policy pairs segs =
  if forallb escape_free segs && (length pairs + length segs <=? 8)%nat
  then Some (pairs ++ map cut_eq segs) else None.
Proof.
  induction segs as [|seg segs IH]; intros pairs Hp; cbn [scan_no_policy].
  - rewrite Nat.add_0_r, (proj2 (Nat.leb_le _ _) Hp). simpl. by rewrite app_nil_r.
  - destruct (cut_eq seg) as [k v] eqn:Ec. cbn [forallb]. unfold escape_free at 1. rewrite Ec.
    cbn [fst snd length map]. destruct (contains_byte (ch "%") k || contains_byte (ch "%") v); [done|].
    cbn [negb andb]. destruct (Nat.leb_spec 8 (length pairs)) as [H8|H8].
    + destruct (Nat.leb_spec (length pairs + S (length segs)) 8); [lia|]. by rewrite andb_false_r.
    + rewrite IH by (rewrite length_app; simpl; lia). rewrite length_app. cbn [length].
      replace (length pairs + 1 + length segs)%nat with (length pairs + S (length segs))%nat by lia.
      by rewrite Ec, <- app_assoc.
Qed.

(** Without dedup the policy looks at each parameter alone. *)
Definition keeps (p : KeyPolicy) (seg : bytes) : bool :=
  negb (shouldStripParam p (cut_eq seg).1 (cut_eq seg).2 []).

Lemma scan_policy_filter (p : KeyPolicy) (segs : list bytes) : dedup p = false -> forall pairs,
  scan_policy p [] pairs segs = scan_no_policy pairs (List.filter (keeps p) segs).
Proof.
  intros Hd. induction segs as [|seg segs IH]; intros pairs; [done|].
  cbn [scan_policy List.filter]. unfold keeps at 1.
  destruct (cut_eq seg) as [k v] eqn:Ec. cbn [fst snd].
  destruct (shouldStripParam p k v []); cbn [negb]; [apply IH|].
  cbn [scan_no_policy]. rewrite Ec. unfold markSeen. rewrite Hd.
  repeat case_match; auto.
Qed.

(** *** The slow writers as functions of the parsed parameters *)

Definition vals_of (k : bytes) (l : list kvPair) : list bytes :=
  (filter (fun kv : kvPair => kv.1 = k) l).*2.

Lemma add_values_vals (k : bytes) (l : list kvPair) : forall m,
  default [] (foldl add_value m l !! k) = default [] (m !! k) ++ vals_of k l.
Proof.
  induction l as [|[k' v] l IH]; intros m; cbn [foldl].
  - unfold vals_of. by rewrite app_nil_r.
  - rewrite IH. unfold add_value, vals_of. simpl. rewrite filter_cons. simpl.
    destruct (decide (k' = k)) as [->|Hne].
    + rewrite lookup_insert_eq. simpl. by rewrite <- app_assoc.
    + by rewrite lookup_insert_ne.
Qed.

Lemma add_values_dom (l : list kvPair) : forall m : gmap bytes (list bytes),
  dom (foldl add_value m l) = dom m ∪ list_to_set l.*1.
Proof.
  induction l as [|[k v] l IH]; intros m; simpl; [set_solver|].
  rewrite IH. unfold add_value. rewrite dom_insert_L. simpl. set_solver.
Qed.

Lemma parse_vals_perm (segs segs' : list bytes) (k : bytes) : segs ≡ₚ segs' ->
  default [] (foldl add_value ∅ (omap parse_segment segs) !! k) ≡ₚ
  default [] (foldl add_value ∅ (omap parse_segment segs') !! k).
Proof.
  intros H. rewrite !add_values_vals, lookup_empty. simpl. unfold vals_of. by rewrite H.
Qed.

Lemma parse_dom_perm (segs segs' : list bytes) : segs ≡ₚ segs' ->
  dom (foldl add_value ∅ (omap parse_segment segs)) =
  dom (foldl add_value ∅ (omap parse_segment segs')).
Proof.
  intros H. rewrite !add_values_dom. f_equal. apply list_to_set_perm_L. by rewrite H.
Qed.

Definition no_dedup (policy : option KeyPolicy) : Prop :=
  match policy with Some p => dedup p = false | None => True end.

Lemma forallb_perm {A} (f : A -> bool) (l l' : list A) : l ≡ₚ l' -> forallb f l = forallb f l'.
Proof.
  induction 1 as [|x l l' _ IH|x y l|l l' l'' _ IH1 _ IH2]; simpl; [done|by rewrite IH| |congruence].
  by destruct (f x), (f y).
Qed.

Lemma list_filter_perm {A} (f : A -> bool) (l l' : list A) :
  l ≡ₚ l' -> List.filter f l ≡ₚ List.filter f l'.
Proof.
  induction 1 as [|x l l' _ IH|x y l|l l' l'' _ IH1 _ IH2]; simpl; [done| | |by rewrite IH1].
  - destruct (f x); [by rewrite IH|done].
  - destruct (f x), (f y); try done. apply Permutation_swap.
Qed.

Lemma scan_no_policy_perm (segs segs' : list bytes) : segs ≡ₚ segs' ->
  option_map sortPairs (scan_no_policy [] segs) = option_map sortPairs (scan_no_policy [] segs').
Proof.
  intros H. rewrite !scan_no_policy_eq by (simpl; lia).
  rewrite (forallb_perm _ _ _ H), H. destruct (_ && _); [|done].
  cbn [option_map app]. f_equal. apply sortPairs_perm. by apply Permutation_map.
Qed.

Lemma slow_pairs_no_policy_perm (raw raw' : bytes) : segments raw ≡ₚ segments raw' ->
  slow_pairs_no_policy raw = slow_pairs_no_policy raw'.
Proof.
  intros H. unfold slow_pairs_no_policy, ParseQuery. rewrite (parse_dom_perm _ _ H).
  apply flat_map_ext. intros k. f_equal. apply sort_strings_perm, parse_vals_perm, H.
Qed.

Lemma slow_pairs_perm (p : KeyPolicy) (raw raw' : bytes) : dedup p = false ->
  segments raw ≡ₚ segments raw' -> slow_pairs p raw = slow_pairs p raw'.
Proof.
  intros Hd H. unfold slow_pairs, ParseQuery. rewrite (parse_dom_perm _ _ H).
  assert (forall k, slow_keeps p (foldl add_value ∅ (omap parse_segment (segments raw))) k =
                    slow_keeps p (foldl add_value ∅ (omap parse_segment (segments raw'))) k) as Hk.
  { intros k. unfold slow_keeps. by rewrite (forallb_perm _ _ _ (parse_vals_perm _ _ k H)). }
  rewrite (List.filter_ext _ _ Hk).
  apply flat_map_ext. intros k. f_equal. unfold slow_vals. rewrite Hd.
  by rewrite (sort_strings_perm _ _ (parse_vals_perm _ _ k H)).
Qed.

Lemma query_pairs_perm (raw raw' : bytes) (policy : option KeyPolicy) :
  no_dedup policy -> segments raw ≡ₚ segments raw' -> query_pairs raw policy = query_pairs raw' policy.
Proof.
  intros Hd H. unfold query_pairs. destruct policy as [p|]; simpl in Hd.
  - rewrite !scan_policy_filter by done.
    pose proof (scan_no_policy_perm _ _ (list_filter_perm (keeps p) _ _ H)) as E.
    rewrite (slow_pairs_perm p raw raw') by done.
    destruct (scan_no_policy [] _), (scan_no_policy [] _); simpl in E; congruence.
  - pose proof (scan_no_policy_perm _ _ H) as E. rewrite (slow_pairs_no_policy_perm raw raw') by done.
    destruct (scan_no_policy [] _), (scan_no_policy [] _); simpl in E; congruence.
Qed.

Lemma query_writer_eq (w : cursor) (raw : bytes) (policy : option KeyPolicy) :
  appendCanonicalQueryString w raw policy = write_loop true w (query_pairs raw policy).
Proof.
  unfold appendCanonicalQueryString, query_pairs. destruct (beq raw []) eqn:E.
  { apply beq_eq in E. subst. by destruct policy. }
  destruct policy as [p|].
  - destruct (scan_policy p [] [] (segments raw)); [done|].
    unfold appendCanonicalQuerySlowString, slow_pairs. by rewrite keys_loop_write.
  - unfold appendCanonicalQueryStringNoPolicy. destruct (scan_no_policy [] (segments raw)); [done|].
    unfold appendCanonicalQuerySlowStringNoPolicy, slow_pairs_no_policy. by rewrite keys_loop_write.
Qed.

(** ** Taking a canonical form apart *)

Lemma bar_split (c : byte) (a b x y : bytes) :
  c ∉ a -> c ∉ b -> a ++ c :: x = b ++ c :: y -> a = b /\ x = y.
Proof.
  revert b. induction a as [|d a IH]; intros [|e b] Ha Hb E; simpl in E.
  - by injection E as ->.
  - injection E as -> ->. exfalso. apply Hb. left.
  - injection E as -> <-. exfalso. apply Ha. left.
  - injection E as -> E. apply not_elem_of_cons in Ha as [_ Ha]. apply not_elem_of_cons in Hb as [_ Hb].
    by destruct (IH b Ha Hb E) as [-> ->].
Qed.

Lemma bar_split_last (c : byte) (a b x y : bytes) :
  c ∉ x -> c ∉ y -> a ++ c :: x = b ++ c :: y -> a = b /\ x = y.
Proof.
  intros Hx Hy E. apply (f_equal (@rev byte)) in E. rewrite !rev_app_distr in E. cbn [rev] in E.
  rewrite <- !app_assoc in E. cbn [app] in E.
  apply bar_split in E as [Ex Ea]; [|by rewrite list_elem_of_In, <- in_rev, <- list_elem_of_In..].
  split; [rewrite <- (rev_involutive a), <- (rev_involutive b)|
          rewrite <- (rev_involutive x), <- (rev_involutive y)]; congruence.
Qed.

Lemma host_byte_bar (c : byte) : host_byte c = ch "|" -> c = ch "|".
Proof. each_byte c. Qed.

Lemma canonical_host_bar (h : bytes) : ch "|" ∉ h -> ch "|" ∉ canonical_host h.
Proof.
  intros H. assert (ch "|" ∉ map host_byte h) as Hm.
  { rewrite list_elem_of_fmap. intros (c & E & Hc). apply H. by rewrite <- (host_byte_bar c). }
  unfold canonical_host, strip_port.
  repeat case_match; try done; intros Hin; apply Hm;
    apply elem_of_take in Hin as (? & Hin & _); by eapply list_elem_of_lookup_2.
Qed.

Lemma collapse_elem (c : byte) (p : bytes) : forall prev, c ∈ collapse prev p -> c ∈ p.
Proof.
  induction p as [|d p IH]; intros prev; simpl; [done|].
  destruct (_ && _); [intros H; right; by eapply IH|].
  intros H. apply elem_of_cons in H as [->|H]; [left|right; by eapply IH].
Qed.

Lemma canonical_path_bar (p : bytes) : ch "|" ∉ p -> ch "|" ∉ canonical_path p.
Proof.
  intros H Hin. unfold canonical_path in Hin. apply collapse_elem in Hin.
  destruct (beq p []); [|done]. vm_compute in Hin. set_solver.
Qed.

Lemma canonical_method_bar (m : bytes) : ch "|" ∉ m -> ch "|" ∉ canonical_method m.
Proof.
  intros H. unfold canonical_method. destruct (beq m (bs "HEAD")); [|done]. vm_compute. set_solver.
Qed.

Lemma BuildKeyFast_canonical (sum128 : bytes -> Key) (policy : option KeyPolicy) (method uri host path : bytes) (tls : bool) :
  BuildKeyFast sum128 method uri host path tls policy =
  sum128 (canonical_key (if tls then bs "https" else bs "http") host path (extractRawQuery uri) method policy).
Proof.
  apply (two_pass_key sum128 (fun w => fill_fast w method uri host path tls policy)).
  eapply fills_ext; [intros w; apply fill_fast_pass|apply fills_pass].
Qed.

Lemma buildKeyFromRaw_canonical (sum128 : bytes -> Key) (policy : option KeyPolicy) (req : RawRequest) :
  buildKeyFromRaw sum128 req policy =
  sum128 (canonical_key (if beq (raw_Scheme req) [] then bs "http" else raw_Scheme req)
            (raw_Host req) (raw_Path req) (raw_Query req) (raw_Method req) policy).
Proof. apply (two_pass_key sum128 (fun w => fill_raw w req policy)). apply fills_fill_raw. Qed.

(** ** Theorems *)

(** The three key builders hash the same canonical string
    [scheme|host|path|query|method], for every request and policy and whatever
    its length: the stack pass, when it overflows (its host port unstripped),
    leaves a count that makes the heap pass exact. *)
Theorem key_builders_canonical (sum128 : bytes -> Key) (policy : option KeyPolicy) :
  (forall ri, BuildKey sum128 ri policy =
     sum128 (canonical_key (if TLS ri then bs "https" else bs "http") (GetHost ri) (GetPath ri)
               (extractRawQuery (GetURI ri)) (GetMethod ri) policy)) /\
  (forall method uri host path tls, BuildKeyFast sum128 method uri host path tls policy =
     sum128 (canonical_key (if tls then bs "https" else bs "http") host path
               (extractRawQuery uri) method policy)) /\
  (forall req, buildKeyFromRaw sum128 req policy =
     sum128 (canonical_key (if beq (raw_Scheme req) [] then bs "http" else raw_Scheme req)
               (raw_Host req) (raw_Path req) (raw_Query req) (raw_Method req) policy)).
Proof.
  split; [|split; intros; [apply BuildKeyFast_canonical|apply buildKeyFromRaw_canonical]].
  intros ri. apply (two_pass_key sum128 (fun w => fill_key w ri policy)).
  eapply fills_ext; [intros w; apply fill_key_pass|apply fills_pass].
Qed.

(** The order of the query parameters does not matter: for any
    permutation of the parameters (fast or slow path, with or without a policy
    that strips parameters) the same bytes are written, unless the policy
    keeps only the first of equal names. *)
Theorem query_order_independent (params params' : list bytes) (policy : option KeyPolicy) (w : cursor)
  (Hs : Forall is_segment params) (Hp : params ≡ₚ params') (Hd : no_dedup policy) :
  appendCanonicalQueryString w (join [ch "&"] params) policy =
  appendCanonicalQueryString w (join [ch "&"] params') policy.
Proof.
  assert (Forall is_segment params') as Hs' by (by rewrite <- Hp).
  rewrite !query_writer_eq. rewrite (query_pairs_perm _ (join [ch "&"] params')); [done..|].
  by rewrite !segments_join.
Qed.

(** A request that takes the fast path of the query canonicalisation: at most
    eight parameters, no escape. *)
Definition simple_query (raw : bytes) : Prop :=
  forallb escape_free (segments raw) = true /\ (length (segments raw) <= 8)%nat.
Definition bar_free (req : RawRequest) : Prop :=
  ch "|" ∉ raw_Scheme req /\ ch "|" ∉ raw_Host req /\ ch "|" ∉ raw_Path req /\ ch "|" ∉ raw_Method req.
Definition raw_canonical (req : RawRequest) : bytes :=
  canonical_key (if beq (raw_Scheme req) [] then bs "http" else raw_Scheme req)
    (raw_Host req) (raw_Path req) (raw_Query req) (raw_Method req) None.
(** The identity the key stands for: two requests are the same when scheme,
    host, path and method are, up to canonical spelling, and they carry the
    same parameters in some order. *)
Definition same_request (r s : RawRequest) : Prop :=
  (if beq (raw_Scheme r) [] then bs "http" else raw_Scheme r) =
  (if beq (raw_Scheme s) [] then bs "http" else raw_Scheme s) /\
  canonical_host (raw_Host r) = canonical_host (raw_Host s) /\
  canonical_path (raw_Path r) = canonical_path (raw_Path s) /\
  canonical_method (raw_Method r) = canonical_method (raw_Method s) /\
  map cut_eq (segments (raw_Query r)) ≡ₚ map cut_eq (segments (raw_Query s)).

Lemma simple_query_pairs (raw : bytes) :
  simple_query raw -> query_pairs raw None = sortPairs (map cut_eq (segments raw)).
Proof.
  intros [H1 H2]. unfold query_pairs. rewrite scan_no_policy_eq by (simpl; lia).
  rewrite H1. cbn [length Nat.add andb]. by rewrite (proj2 (Nat.leb_le _ _) H2).
Qed.

Lemma canonical_query_inj (q q' : bytes) : simple_query q -> simple_query q' ->
  canonical_query q None = canonical_query q' None ->
  map cut_eq (segments q) ≡ₚ map cut_eq (segments q').
Proof.
  intros H H' E. unfold canonical_query in E. rewrite !simple_query_pairs in E by done.
  rewrite <- (sortPairs_Permutation (map cut_eq (segments q))).
  rewrite <- (sortPairs_Permutation (map cut_eq (segments q'))).
  rewrite <- (pairs_text_read (sortPairs (map cut_eq (segments q)))).
  2:{ rewrite sortPairs_Permutation. apply segments_pairs_ok. }
  rewrite E, pairs_text_read; [done|]. rewrite sortPairs_Permutation. apply segments_pairs_ok.
Qed.

Lemma raw_canonical_inj (r s : RawRequest) :
  bar_free r -> bar_free s -> simple_query (raw_Query r) -> simple_query (raw_Query s) ->
  raw_canonical r = raw_canonical s -> same_request r s.
Proof.
  intros (S1 & H1 & P1 & M1) (S2 & H2 & P2 & M2) Q1 Q2 E.
  assert (forall sc, ch "|" ∉ sc -> ch "|" ∉ (if beq sc [] then bs "http" else sc)) as Hsc.
  { intros sc Hsc. destruct (beq sc []); [|done]. vm_compute. set_solver. }
  unfold raw_canonical, canonical_key in E. cbn [includeHostKey] in E.
  apply bar_split in E as [Es E]; [|by apply Hsc..].
  apply bar_split in E as [Eh E]; [|by apply canonical_host_bar..].
  apply bar_split in E as [Ep E]; [|by apply canonical_path_bar..].
  apply bar_split_last in E as [Eq Em]; [|by apply canonical_method_bar..].
  split; [done|]. split; [done|]. split; [done|]. split; [done|]. by apply canonical_query_inj.
Qed.

Lemma raw_canonical_same (r s : RawRequest) :
  simple_query (raw_Query r) -> simple_query (raw_Query s) ->
  same_request r s -> raw_canonical r = raw_canonical s.
Proof.
  intros Q1 Q2 (Es & Eh & Ep & Em & Eq). unfold raw_canonical, canonical_key, canonical_query.
  rewrite !simple_query_pairs, (sortPairs_perm _ _ Eq) by done. cbn [includeHostKey]. congruence.
Qed.

(** Two requests share a cache slot exactly when they are the same
    request: without a policy, for queries on the fast path and a scheme,
    host, path and method without a bar, and barring a collision of the hash
    on these two strings, equal keys mean equal scheme, host, path and method
    and the same parameters up to order, and conversely. *)
Theorem key_separates_requests (sum128 : bytes -> Key) (r s : RawRequest)
  (Hr : bar_free r) (Hs : bar_free s)
  (Qr : simple_query (raw_Query r)) (Qs : simple_query (raw_Query s))
  (Hh : sum128 (raw_canonical r) = sum128 (raw_canonical s) -> raw_canonical r = raw_canonical s) :
  buildKeyFromRaw sum128 r None = buildKeyFromRaw sum128 s None <-> same_request r s.
Proof.
  assert (forall q, buildKeyFromRaw sum128 q None = sum128 (raw_canonical q)) as Hb.
  { intros q. exact (two_pass_key sum128 _ _ (fills_fill_raw q None)). }
  rewrite !Hb. split.
  - intros E. apply raw_canonical_inj; auto.
  - intros E. f_equal. by apply raw_canonical_same.
Qed.

(** ** What the canonical form does not separate *)

(** A bar in the path moves the boundary to the query: [/a|x=1] without a
    query and [/a] with the query [x=1|] have the same key. *)
Lemma bar_in_path_collides (sum128 : bytes -> Key) :
  buildKeyFromRaw sum128 (MkRaw (bs "GET") (bs "/a|x=1") [] (bs "h") (bs "http")) None =
  buildKeyFromRaw sum128 (MkRaw (bs "GET") (bs "/a") (bs "x=1|") (bs "h") (bs "http")) None.
Proof. vm_compute. reflexivity. Qed.

Definition keep_id : KeyPolicy :=
  {| KeyPolicy0 with keepParams := Some {[ bs "id" := true ]} |}.

(** Under an allow-list the escaped spelling [i%64] of [id] is stripped before
    it is decoded: the requests for [id=1] and [id=2] written that way, and the
    one without parameters, share a key. *)
Lemma escaped_name_escapes_allow_list :
  canonical_query (bs "i%64=1") (Some keep_id) = canonical_query (bs "i%64=2") (Some keep_id) /\
  canonical_query (bs "i%64=1") (Some keep_id) = canonical_query [] (Some keep_id) /\
  canonical_query (bs "id=1") (Some keep_id) <> canonical_query (bs "id=2") (Some keep_id).
Proof. vm_compute. split; [done|]. split; [done|]. discriminate. Qed.

(** On the slow path parameters [url.ParseQuery] refuses vanish: a semicolon
    or a broken escape makes different requests share a key. *)
Lemma refused_parameters_vanish :
  canonical_query (bs "x=1;y=2&c=%20") None = canonical_query (bs "x=9;y=8&c=%20") None /\
  canonical_query (bs "q=%zz1") None = canonical_query (bs "q=%zz2") None.
Proof. vm_compute. by split. Qed.

Definition dedup_strip_empty : KeyPolicy :=
  {| KeyPolicy0 with stripEmpty := true; dedup := true |}.

(** With dedup and strip-empty together, the fast path keeps the first
    non-empty value while the slow path keeps the first value and drops the
    name when it is empty. *)
Lemma dedup_strip_empty_diverges :
  canonical_query (bs "a=&a=1&b=2") (Some dedup_strip_empty) = bs "a=1&b=2" /\
  canonical_query (bs "a=&a=1&b=%32") (Some dedup_strip_empty) = bs "b=2".
Proof. vm_compute. by split. Qed.

(** ** Witnesses *)

Definition strip_utm : KeyPolicy :=
  {| KeyPolicy0 with stripParams := Some {[ bs "gclid" := true ]}; stripPrefixes := [bs "utm_"] |}.

Lemma query_order_independent_witness :
  appendCanonicalQueryString (new_cursor 64) (bs "b=%31&utm_x=3&a=2") (Some strip_utm) =
  appendCanonicalQueryString (new_cursor 64) (bs "a=2&b=%31&utm_x=3") (Some strip_utm).
Proof.
  refine (query_order_independent [bs "b=%31"; bs "utm_x=3"; bs "a=2"]
            [bs "a=2"; bs "b=%31"; bs "utm_x=3"] (Some strip_utm) (new_cursor 64) _ _ eq_refl).
  - repeat constructor; vm_compute; try discriminate; set_solver.
  - apply (Permutation_app_comm [bs "b=%31"; bs "utm_x=3"] [bs "a=2"]).
Defined.

Lemma key_separates_requests_witness :
  let r := MkRaw (bs "HEAD") (bs "/a//b") (bs "y=2&x=1") (bs "EXAMPLE.com:80") (bs "http") in
  let s := MkRaw (bs "GET") (bs "/a/b") (bs "x=1&y=2") (bs "example.com") [] in
  same_request r s /\ buildKeyFromRaw id r None = buildKeyFromRaw id s None.
Proof.
  assert (forall r s, bar_free r -> bar_free s -> simple_query (raw_Query r) -> simple_query (raw_Query s) ->
    buildKeyFromRaw id r None = buildKeyFromRaw id s None ->
    same_request r s /\ buildKeyFromRaw id r None = buildKeyFromRaw id s None) as H.
  { intros r s H1 H2 H3 H4 E. split; [|exact E].
    exact (proj1 (key_separates_requests id r s H1 H2 H3 H4 (fun x => x)) E). }
  apply H; [..|vm_compute; reflexivity].
  - vm_compute. set_solver.
  - vm_compute. set_solver.
  - split; [reflexivity|vm_compute; lia].
  - split; [reflexivity|vm_compute; lia].
Defined.
