(* ===== verification/Conditional.v ===== *)
(** * Conditional requests, ranges and downstream freshness:
    src/internal/cache conditional.go, range.go, downstreamcc.go and
    [tryConditional304Fast] of fastheader.go

    What the cache answers without sending the whole stored body: 304 when the
    client's validators match, 206 for byte ranges, the headers a 304 from
    the origin changes in the stored object, and the CDN-Cache-Control line
    that keeps downstream caches within bouine's own clock. Calls on the
    response writer are a list of [wop]; a slice out of range, where Go
    panics, is [None]. *)

From S2P Require Import Prelude GoStd CacheControl HeaderMap Api HttpDate Engine.

(** ** Client validators (conditional.go) *)

(** The closure [norm] of [etagMatch]. *)
Definition etag_norm (s : bytes) : bytes :=
  let s := trim_space s in
  let s := match s with
           | a :: b :: r => if (beqb a (ch "W") || beqb a (ch "w")) && beqb b (ch "/") then r else s
           | _ => s
           end in
  trim_byte x22 s.

Definition etagMatch (list needle : bytes) : bool :=
  if beq list (bs "*") then true
  else existsb (fun tag => beq (etag_norm tag) (etag_norm needle)) (split_byte (ch ",") list).

Definition quoteETag (etag : bytes) : bytes :=
  match etag with
  | [] => etag
  | a :: r =>
      if beqb a x22
         || match r with b :: _ => (beqb a (ch "W") || beqb a (ch "w")) && beqb b (ch "/") | [] => false end
      then etag else x22 :: etag ++ [x22]
  end.

Section Match.
Context (local : bytes -> Z -> option Z).

Definition ClientConditionalMatch (ri : RequestInfo) (obj : Object.t) : bool :=
  let inm := Get (ReqHeader ri) Hdr.IfNoneMatch in
  if negb (beq inm []) then
    if negb (beq (Object.ETag obj) []) && etagMatch inm (Object.ETag obj) then true else false
  else
    let ims := Get (ReqHeader ri) Hdr.IfModifiedSince in
    if negb (beq ims []) then
      let imsTime := parseHTTPDate local ims in
      if is_zero imsTime then false
      else if negb (is_zero (Object.LastModified obj)) && negb (t_after (Object.LastModified obj) imsTime)
      then true
      else if is_zero (Object.LastModified obj) then
        let d := Get (Object.Header obj) Hdr.Date in
        if negb (beq d []) then
          let dt := parseHTTPDate local d in
          if negb (is_zero dt) && negb (t_after dt imsTime) then true else false
        else false
      else false
    else false.

(** [tryConditional304Fast]: [peek] is [ctx.Request.Header.Peek]; true when it
    wrote the 304. *)
Definition tryConditional304Fast (peek : bytes -> bytes) (obj : Object.t) : bool :=
  let inm := peek Hdr.IfNoneMatch in
  if 0 <? len inm then
    if negb (beq (Object.ETag obj) []) && etagMatch inm (Object.ETag obj) then true else false
  else
    let ims := peek Hdr.IfModifiedSince in
    if 0 <? len ims then
      let imsTime := parseHTTPDate local ims in
      if is_zero imsTime then false
      else if negb (is_zero (Object.LastModified obj)) && negb (t_after (Object.LastModified obj) imsTime)
      then true
      else if is_zero (Object.LastModified obj) then
        let d := Get (Object.Header obj) Hdr.Date in
        if negb (beq d []) then
          let dt := parseHTTPDate local d in
          if negb (is_zero dt) && negb (t_after dt imsTime) then true else false
        else false
      else false
    else false.
End Match.

(** ** Headers of a 304 from the origin *)

(** [for stored.Header.Has(header.Vary) { stored.Header.Del(header.Vary) }];
    one round per entry is enough, [del_loop_all] below. *)
Fixpoint del_loop (fuel : nat) (h : Map) (k : bytes) : Map :=
  match fuel with
  | O => h
  | S fuel => if Has h k then del_loop fuel (Del h k) k else h
  end.

Definition not_merged (k : bytes) : bool :=
  existsb (beq k)
    [Hdr.ContentLength; Hdr.ContentEncoding; Hdr.TransferEncoding; Hdr.SetCookie; Hdr.SetLogin; Hdr.Vary].

Definition replace_vary (h resp304 : Map) : Map :=
  if Has resp304 Hdr.Vary then
    let h := del_loop (length (entries h)) h Hdr.Vary in
    fold_left (fun h '(k, v) => if beq k Hdr.Vary then AppendEntry h k v else h) (pairs resp304) h
  else h.

Definition set_line (h : Map) (kv : bytes * bytes) : Map :=
  if not_merged kv.1 then h else Set_ h kv.1 kv.2.

Definition MergeHeaders304 (stored : Object.t) (resp304 : Map) : Object.t :=
  {| stored with Object.Header :=
       fold_left set_line (pairs resp304) (replace_vary (Object.Header stored) resp304) |}.

(** ** Downstream freshness (downstreamcc.go) *)

Inductive cacheResult : Type := cacheHit | cacheStale | cacheRevalidated.

Definition cdcWallRemaining (obj : Object.t) (now : Time) : Z :=
  let rem := t_sub (t_add (Object.StoredAt obj) (Object.TTL obj)) now in
  if rem <=? 0 then 0 else d_quot rem Second.

Definition cdcWindowRemaining (obj : Object.t) (window : Duration) (now : Time) : Z :=
  if window <=? 0 then -1
  else
    let rem := t_sub (t_add (Object.StoredAt obj) (d_add (Object.TTL obj) window)) now in
    if rem <=? 0 then -1 else d_quot rem Second.

Definition appendStaleMirrorDirectives (hbuf : bytes) (obj : Object.t) (now : Time) : bytes :=
  let rem := cdcWindowRemaining obj (Object.StaleWhileRevalidate obj) now in
  if 0 <? rem then (hbuf ++ bs "public, max-age=0, stale-while-revalidate=") ++ itoa rem
  else
    let rem := cdcWindowRemaining obj (Object.StaleIfError obj) now in
    if 0 <? rem then (hbuf ++ bs "public, max-age=0, stale-while-revalidate=") ++ itoa rem
    else hbuf ++ bs "public, max-age=0".

Definition appendServeCDCDirectives (hbuf : bytes) (obj : Object.t) (now : Time) (result : cacheResult) : bytes :=
  match result with
  | cacheStale => appendStaleMirrorDirectives hbuf obj now
  | _ =>
      if match result with cacheRevalidated => Object.RespNoCache obj | _ => false end
      then hbuf ++ bs "public, no-cache"
      else
        let hbuf := hbuf ++ bs "public, max-age=" in
        let hbuf := hbuf ++ itoa (cdcWallRemaining obj now) in
        if Object.RespMustRevalidate obj then hbuf ++ bs ", must-revalidate" else hbuf
  end.

Definition appendServeCDCLine (hbuf : bytes) (obj : Object.t) (now : Time) (result : cacheResult) : bytes :=
  appendServeCDCDirectives ((hbuf ++ Hdr.CDNCacheControl) ++ bs ": ") obj now result ++ [x0d; x0a].

Definition appendFillCDCDirectives (hbuf : bytes) (respCC : Directives) (originEffective objTTL : Duration) : bytes :=
  if NoCache respCC then hbuf ++ bs "public, no-cache"
  else
    let cdc := if (0 <? originEffective) && (originEffective <? objTTL) then originEffective else objTTL in
    let cdc := if cdc <? 0 then 0 else cdc in
    let hbuf := hbuf ++ bs "public, max-age=" in
    let hbuf := hbuf ++ itoa (d_quot cdc Second) in
    let hbuf := if MustRevalidate respCC then hbuf ++ bs ", must-revalidate" else hbuf in
    if ProxyRevalidate respCC then hbuf ++ bs ", proxy-revalidate" else hbuf.

Definition originEffectiveMaxAge (local : bytes -> Z -> option Z) (respCC : Directives) (resMap : Map) : Duration :=
  if SMaxAgeSet respCC then SMaxAge respCC
  else if MaxAgeSet respCC then MaxAge respCC
  else
    let expiresAt := parseHTTPDate local (Get resMap Hdr.Expires) in
    if is_zero expiresAt then 0
    else
      let date := parseHTTPDate local (Get resMap Hdr.Date) in
      if is_zero date then 0
      else
        let rem := t_sub expiresAt date in
        if 0 <? rem then rem else 0.

Definition CDCFamilyHeaders : list bytes :=
  [Hdr.CDNCacheControl; Hdr.CloudflareCDNCacheControl; Hdr.SurrogateControl].
Definition isCDCFamilyHeader (k : bytes) : bool := existsb (equal_fold k) CDCFamilyHeaders.

(** ** Ranges (range.go) *)

(** [strings.SplitN(spec, "-", 2)] has two parts exactly when there is a dash. *)
Definition parseRange (spec : bytes) (size : Z) : option (Z * Z) :=
  match cut_byte (ch "-") spec with
  | None => None
  | Some (a, b) =>
      let startStr := trim_space a in
      let endStr := trim_space b in
      if beq startStr [] then
        match parse_int64 endStr with
        | None => None
        | Some suffix =>
            if suffix <=? 0 then None
            else
              let start := i64 (size - suffix) in
              let start := if start <? 0 then 0 else start in
              Some (start, i64 (size - 1))
        end
      else
        match parse_int64 startStr with
        | None => None
        | Some start =>
            if (start <? 0) || (size <=? start) then None
            else if beq endStr [] then Some (start, i64 (size - 1))
            else match parse_int64 endStr with
                 | None => None
                 | Some e =>
                     if e <? start then None
                     else Some (start, if size <=? e then i64 (size - 1) else e)
                 end
        end
  end.

(** The calls on the response writer. *)
Inductive wop : Type :=
| SetHeader (k v : bytes)
| WriteHeader (code : Z)
| Write (b : bytes).

(** [b[i:j]]; [None] is the run-time panic. *)
Definition go_slice (b : bytes) (i j : Z) : option bytes :=
  if (0 <=? i) && (i <=? j) && (j <=? len b) then Some (take (Z.to_nat (j - i)) (drop (Z.to_nat i) b))
  else None.

Definition copyStoredHeaders (obj : Object.t) (syncCDC : bool) : list wop :=
  map (fun kv => SetHeader kv.1 kv.2)
    (List.filter (fun kv => negb (equal_fold kv.1 Hdr.ContentLength) && negb (syncCDC && isCDCFamilyHeader kv.1))
       (pairs (Object.Header obj))).

Definition setRangeCDC (syncCDC : bool) (obj : Object.t) (stale : bool) (now : Time) : list wop :=
  if negb syncCDC then []
  else [SetHeader Hdr.CDNCacheControl
          (appendServeCDCDirectives [] obj now (if stale then cacheStale else cacheHit))].

(** The loop over the specs: the resolved ranges, or [None] at the first that
    does not resolve (the 416). *)
Fixpoint resolve_ranges (specs : list bytes) (size : Z) : option (list (Z * Z)) :=
  match specs with
  | [] => Some []
  | s :: specs' =>
      match parseRange (trim_space s) size with
      | None => None
      | Some ra => match resolve_ranges specs' size with Some l => Some (ra :: l) | None => None end
      end
  end.

Definition content_range (start e size : Z) : bytes :=
  bs "bytes " ++ itoa start ++ bs "-" ++ itoa e ++ bs "/" ++ itoa size.

(** The header [fmt.Fprintf] writes before one part. *)
Definition part_header (boundary ct : bytes) (start e size : Z) : bytes :=
  [x0d; x0a] ++ bs "--" ++ boundary ++ [x0d; x0a] ++ bs "Content-Type: " ++ ct ++ [x0d; x0a]
  ++ bs "Content-Range: " ++ content_range start e size ++ [x0d; x0a; x0d; x0a].

Fixpoint write_parts (boundary ct : bytes) (obj : Object.t) (ranges : list (Z * Z)) : option (list wop) :=
  match ranges with
  | [] => Some [Write ([x0d; x0a] ++ bs "--" ++ boundary ++ bs "--" ++ [x0d; x0a])]
  | (start, e) :: ranges' =>
      match go_slice (Object.Body obj) start (i64 (e + 1)), write_parts boundary ct obj ranges' with
      | Some part, Some rest =>
          Some (Write (part_header boundary ct start e (Object.BodySize obj)) :: Write part :: rest)
      | _, _ => None
      end
  end.

(** [serveRange]: whether it answered, with the calls it made; [None] is a
    panic. *)
Definition serveRange (syncCDC : bool) (ri : RequestInfo) (obj : Object.t) (stale : bool) (now : Time)
  : option (bool * list wop) :=
  let rangeHeader := Get (ReqHeader ri) Hdr.Range in
  if beq rangeHeader [] then Some (false, [])
  else if negb (has_prefix rangeHeader (bs "bytes=")) then Some (false, [])
  else
    let spec := drop 6 rangeHeader in
    match resolve_ranges (split_byte (ch ",") spec) (Object.BodySize obj) with
    | None => Some (true, [SetHeader Hdr.ContentRange (bs "bytes */" ++ itoa (Object.BodySize obj));
                           WriteHeader 416])
    | Some ranges =>
        let head := copyStoredHeaders obj syncCDC
          ++ (if stale then [SetHeader Hdr.Warning (bs "110 - " ++ [x22] ++ bs "Response is Stale" ++ [x22])] else [])
          ++ [SetHeader Hdr.XCache (if stale then bs "STALE" else bs "HIT")]
          ++ setRangeCDC syncCDC obj stale now in
        match ranges with
        | [(start, e)] =>
            let length := i64 (i64 (e - start) + 1) in
            let ops := head ++ [SetHeader Hdr.ContentRange (content_range start e (Object.BodySize obj));
                                SetHeader Hdr.ContentLength (itoa length); WriteHeader 206] in
            if negb (beq (GetMethod ri) (bs "HEAD")) then
              match go_slice (Object.Body obj) start (i64 (e + 1)) with
              | None => None
              | Some part => Some (true, ops ++ [Write part])
              end
            else Some (true, ops)
        | _ =>
            let boundary := bs "bouine-range-" ++ Hex (Object.Key_ obj) in
            let ops := head ++ [SetHeader Hdr.ContentType (bs "multipart/byteranges; boundary=" ++ boundary);
                                WriteHeader 206] in
            if beq (GetMethod ri) (bs "HEAD") then Some (true, ops)
            else
              let ct := Get (Object.Header obj) Hdr.ContentType in
              let ct := if beq ct [] then bs "application/octet-stream" else ct in
              match write_parts boundary ct obj ranges with
              | None => None
              | Some parts => Some (true, ops ++ parts)
              end
        end
    end.

(** ** Trimming *)

Definition visible (c : byte) : bool := negb (ascii_space c) && (Zb c <? 128).

Lemma trim_left_with_blanks (p2 : byte -> byte -> bool) (p3 : byte -> byte -> byte -> bool)
    (blanks s : bytes) (c : byte) :
  (forall a b, Zb a < 128 -> p2 a b = false) -> (forall a b d, Zb a < 128 -> p3 a b d = false) ->
  forallb ascii_space blanks = true -> visible c = true ->
  trim_left_with p2 p3 (blanks ++ c :: s) = c :: s.
Proof.
  intros H2 H3 Hb Hc. apply andb_true_iff in Hc as [Hs Hc]. apply negb_true_iff in Hs. apply Z.ltb_lt in Hc.
  induction blanks as [|b blanks IH]; cbn [app trim_left_with].
  - rewrite Hs. destruct s as [|d s]; [done|]. rewrite H2 by done.
    destruct s as [|d' s]; [done|]. by rewrite H3.
  - simpl in Hb. apply andb_true_iff in Hb as [-> Hb]. auto.
Qed.

Lemma trim_left_blanks (blanks s : bytes) (c : byte) :
  forallb ascii_space blanks = true -> visible c = true -> trim_left (blanks ++ c :: s) = c :: s.
Proof.
  intros Hb Hc. apply trim_left_with_blanks; auto.
  - intros a b H. unfold space2. destruct (Z.eqb_spec (Zb a) 194); [lia|done].
  - intros a b d H. unfold space3.
    destruct (Z.eqb_spec (Zb a) 225), (Z.eqb_spec (Zb a) 226), (Z.eqb_spec (Zb a) 227); lia.
Qed.

Lemma trim_right_blanks (blanks s : bytes) (c : byte) :
  forallb ascii_space blanks = true -> visible c = true -> trim_right ((s ++ [c]) ++ blanks) = s ++ [c].
Proof.
  intros Hb Hc. unfold trim_right. rewrite !rev_app_distr. cbn [rev app].
  rewrite trim_left_with_blanks; [cbn [rev]; by rewrite rev_involutive|..|done].
  - intros a b H. unfold space2. destruct (Z.eqb_spec (Zb a) 133), (Z.eqb_spec (Zb a) 160); lia.
  - intros a b d H. unfold space3.
    destruct (Z.eqb_spec (Zb a) 128), (Z.leb_spec 128 (Zb a)), (Z.eqb_spec (Zb a) 168),
      (Z.eqb_spec (Zb a) 169), (Z.eqb_spec (Zb a) 175), (Z.eqb_spec (Zb a) 159); lia.
  - rewrite forallb_forall in *. intros x Hx. apply Hb. by apply in_rev.
Qed.

(** A word between blanks: its first and last bytes are visible. *)
Definition word (s : bytes) : Prop :=
  exists c m d, s = c :: m ++ [d] /\ visible c = true /\ visible d = true.

Lemma trim_space_word (b1 b2 s : bytes) :
  forallb ascii_space b1 = true -> forallb ascii_space b2 = true -> word s ->
  trim_space (b1 ++ s ++ b2) = s.
Proof.
  intros H1 H2 (c & m & d & -> & Hc & Hd). unfold trim_space.
  change ((c :: m ++ [d]) ++ b2) with (c :: (m ++ [d]) ++ b2).
  rewrite trim_left_blanks by done.
  exact (trim_right_blanks b2 (c :: m) d H2 Hd).
Qed.

Lemma trim_space_visible (s : bytes) : forallb visible s = true -> trim_space s = s.
Proof.
  intros H. destruct s as [|c s]; [done|]. simpl in H. apply andb_true_iff in H as [Hc Hs].
  destruct s as [|d s _] using rev_ind.
  - unfold trim_space. change (trim_left [c]) with (trim_left ([] ++ [c])).
    rewrite trim_left_blanks by done. exact (trim_right_blanks [] [] c eq_refl Hc).
  - rewrite <- (app_nil_r (c :: s ++ [d])) at 1. apply (trim_space_word [] [] (c :: s ++ [d])); [done..|].
    exists c, s, d. rewrite forallb_app in Hs. apply andb_true_iff in Hs as [_ Hd]. simpl in Hd.
    by rewrite andb_true_r in Hd.
Qed.

(** ** Entity tags *)

(** An entity tag of RFC 9110 section 8.8.3; the opaque part of this grammar
    has no quote and, here, no comma (see [comma_in_etag_matches_wrongly]). *)
Record entity_tag : Type := MkTag { weak : bool; opaque : bytes }.
Definition tag_ok (t : entity_tag) : Prop := x22 ∉ opaque t /\ ch "," ∉ opaque t.
Definition tag_text (t : entity_tag) : bytes :=
  (if weak t then bs "W/" else []) ++ x22 :: opaque t ++ [x22].

(** One element of the list, with the blanks around it. *)
Record list_item : Type := MkItem { before : bytes; item : entity_tag; after : bytes }.
Definition blank (c : byte) : bool := beqb c (ch " ") || beqb c x09.
Definition item_ok (i : list_item) : Prop :=
  forallb blank (before i) = true /\ forallb blank (after i) = true /\ tag_ok (item i).
Definition item_text (i : list_item) : bytes := before i ++ tag_text (item i) ++ after i.
Definition list_text (l : list list_item) : bytes := join [ch ","] (map item_text l).

Lemma blanks_space (b : bytes) : forallb blank b = true -> forallb ascii_space b = true.
Proof.
  rewrite !forallb_forall. intros H x Hx. specialize (H x Hx). unfold blank in H.
  apply orb_true_iff in H as [H|H]; apply beqb_eq in H; by subst.
Qed.

Lemma tag_text_word (t : entity_tag) : word (tag_text t).
Proof.
  unfold tag_text. destruct (weak t).
  - exists (ch "W"), (ch "/" :: x22 :: opaque t), x22. by repeat split.
  - exists x22, (opaque t), x22. by repeat split.
Qed.

Lemma trim_left_byte_id (c : byte) (s : bytes) : c ∉ s -> trim_left_byte c s = s.
Proof.
  destruct s as [|a s]; [done|]. intros H. apply not_elem_of_cons in H as [H _]. simpl.
  by rewrite (proj2 (beqb_neq a c)) by congruence.
Qed.

Lemma trim_byte_quotes (c : byte) (s : bytes) : c ∉ s -> trim_byte c (c :: s ++ [c]) = s.
Proof.
  intros H. assert (c ∉ rev s) as Hr by (by rewrite list_elem_of_In, <- in_rev, <- list_elem_of_In).
  unfold trim_byte. cbn [trim_left_byte]. rewrite beqb_refl.
  assert (trim_left_byte c (rev (trim_left_byte c (s ++ [c]))) = rev s) as ->; [|apply rev_involutive].
  destruct s as [|a s].
  - cbn [app trim_left_byte]. by rewrite beqb_refl.
  - cbn [app trim_left_byte]. rewrite (proj2 (beqb_neq a c)) by (apply not_elem_of_cons in H as [? _]; congruence).
    change (a :: s ++ [c]) with ((a :: s) ++ [c]). rewrite rev_app_distr. cbn [rev app trim_left_byte].
    rewrite beqb_refl. by apply trim_left_byte_id.
Qed.

Lemma etag_norm_item (i : list_item) : item_ok i -> etag_norm (item_text i) = opaque (item i).
Proof.
  intros (Hb & Ha & Hq & _). unfold etag_norm, item_text.
  rewrite trim_space_word by auto using blanks_space, tag_text_word.
  unfold tag_text. destruct (weak (item i)); cbn [app].
  - change (bs "W/" ++ x22 :: opaque (item i) ++ [x22]) with (ch "W" :: ch "/" :: x22 :: opaque (item i) ++ [x22]).
    cbn [orb andb beqb]. change (beqb (ch "W") (ch "W")) with true. change (beqb (ch "/") (ch "/")) with true.
    by apply trim_byte_quotes.
  - replace (match opaque (item i) ++ [x22] with
             | [] => x22 :: opaque (item i) ++ [x22]
             | b :: r => if (beqb x22 (ch "W") || beqb x22 (ch "w")) && beqb b (ch "/") then r
                         else x22 :: opaque (item i) ++ [x22]
             end) with (x22 :: opaque (item i) ++ [x22]) by (by destruct (opaque (item i) ++ [x22])).
    by apply trim_byte_quotes.
Qed.

Lemma etag_norm_tag (t : entity_tag) : tag_ok t -> etag_norm (tag_text t) = opaque t.
Proof.
  intros H. pose proof (etag_norm_item (MkItem [] t []) (conj eq_refl (conj eq_refl H))) as E.
  unfold item_text in E. cbn [before item after app] in E. by rewrite app_nil_r in E.
Qed.

(** A well-formed tag is sent back as it is, a bare one is quoted, once. *)
Lemma quoteETag_tag (t : entity_tag) (s : bytes) :
  quoteETag (tag_text t) = tag_text t /\ quoteETag (quoteETag s) = quoteETag s.
Proof.
  split; [unfold tag_text; by destruct (weak t)|].
  destruct s as [|a r]; [done|]. unfold quoteETag at 2 3.
  destruct (beqb a x22 || _) eqn:E; [|done]. unfold quoteETag. by rewrite E.
Qed.

(** Cutting a list at its commas. *)
Lemma split_byte_last (c : byte) (s : bytes) : c ∉ s -> split_byte c s = [s].
Proof.
  induction s as [|a s IH]; [done|]. intros H. apply not_elem_of_cons in H as [Ha Hs]. cbn [split_byte].
  rewrite (proj2 (beqb_neq a c)) by congruence. by rewrite IH.
Qed.

Lemma split_byte_app (c : byte) (s r : bytes) : c ∉ s -> split_byte c (s ++ c :: r) = s :: split_byte c r.
Proof.
  induction s as [|a s IH]; intros H; cbn [app split_byte]; [by rewrite beqb_refl|].
  apply not_elem_of_cons in H as [Ha Hs].
  rewrite (proj2 (beqb_neq a c)) by congruence. by rewrite IH.
Qed.

Lemma split_join (c : byte) (l : list bytes) :
  l <> [] -> Forall (fun s => c ∉ s) l -> split_byte c (join [c] l) = l.
Proof.
  intros Hne H. induction H as [|s l Hs Hl IH]; [done|].
  destruct l as [|s' l]; [by apply split_byte_last|].
  change (join [c] (s :: s' :: l)) with (s ++ c :: join [c] (s' :: l)).
  rewrite split_byte_app by done. by rewrite IH.
Qed.

Lemma item_text_comma (i : list_item) : item_ok i -> ch "," ∉ item_text i.
Proof.
  intros (Hb & Ha & _ & Hc). unfold item_text, tag_text.
  assert (forall b, forallb blank b = true -> ch "," ∉ b) as Hbl.
  { intros b H Hin. rewrite forallb_forall in H. apply list_elem_of_In in Hin. by apply H in Hin. }
  rewrite !not_elem_of_app, not_elem_of_cons, not_elem_of_app. repeat split; auto; try done.
  - destruct (weak (item i)); vm_compute; set_solver.
  - vm_compute. set_solver.
Qed.

Lemma join_elem (sep x : bytes) (c : byte) (l : list bytes) : c ∈ x -> x ∈ l -> c ∈ join sep l.
Proof.
  intros Hc. induction l as [|y l IH]; intros Hx; [by apply not_elem_of_nil in Hx|].
  apply elem_of_cons in Hx as [->|Hx].
  - destruct l as [|b l]; [done|]. change (join sep (y :: b :: l)) with (y ++ sep ++ join sep (b :: l)).
    apply elem_of_app. by left.
  - destruct l as [|z l]; [by apply not_elem_of_nil in Hx|].
    change (join sep (y :: z :: l)) with (y ++ sep ++ join sep (z :: l)).
    rewrite !elem_of_app. right. right. auto.
Qed.

Lemma etagMatch_list (l : list list_item) (t : entity_tag) :
  l <> [] -> Forall item_ok l -> tag_ok t ->
  etagMatch (list_text l) (tag_text t) = existsb (fun i => beq (opaque (item i)) (opaque t)) l.
Proof.
  intros Hne Hl Ht. unfold etagMatch.
  assert (list_text l <> bs "*") as Hstar.
  { intros E. destruct l as [|i l]; [done|].
    assert (x22 ∈ list_text (i :: l)) as Hin.
    { eapply (join_elem _ (item_text i)); [|left].
      unfold item_text, tag_text. rewrite !elem_of_app, elem_of_cons. right. left. right. by left. }
    rewrite E in Hin. vm_compute in Hin. set_solver. }
  rewrite (proj2 (beq_neq _ _) Hstar). unfold list_text. rewrite split_join.
  - clear Hne Hstar. rewrite (etag_norm_tag t) by done.
    induction Hl as [|i l Hi _ IH]; [done|]. simpl. by rewrite IH, etag_norm_item.
  - by destruct l.
  - apply Forall_fmap. eapply Forall_impl; [exact Hl|]. intros i Hi. by apply item_text_comma.
Qed.

(** ** Header lines under Set, Del and the merge *)

Lemma all_values_app (k : bytes) (l l' : list (bytes * bytes)) :
  all_values k (l ++ l') = all_values k l ++ all_values k l'.
Proof. unfold all_values. by rewrite List.filter_app, map_app. Qed.

Lemma all_values_none (k : bytes) (l : list (bytes * bytes)) :
  Forall (fun kv => kv.1 <> k) l -> all_values k l = [].
Proof.
  unfold all_values. induction 1 as [|kv l H _ IH]; simpl; [done|].
  by rewrite (proj2 (beq_neq _ _) H).
Qed.

Lemma all_values_cons (k q v : bytes) (l : list (bytes * bytes)) :
  all_values k ((q, v) :: l) = if beq q k then v :: all_values k l else all_values k l.
Proof. unfold all_values. simpl. by destruct (beq q k). Qed.

(** Set writes the first line of the name, or adds one. *)
Lemma Set_values (h : Map) (k v k' : bytes) : wf h ->
  all_values k' (pairs (Set_ h k v)) =
  if beq (canonicalize k) k' then v :: tail (all_values k' (pairs h)) else all_values k' (pairs h).
Proof.
  intros Hw. unfold Set_, find_entry. rewrite InternKey_eq.
  destruct (find _ (entries h)) as [e|] eqn:Ef.
  - destruct (update_first h _ e v Hw Ef) as (_ & l1 & l2 & E & Hp & Hl & ->).
    apply beq_eq in Hp. unfold pairs. rewrite E, map_app. cbn [map].
    rewrite !all_values_app, !all_values_cons, Hp.
    destruct (beq (canonicalize k) k') eqn:Ek; [|done]. apply beq_eq in Ek. subst k'.
    by rewrite (all_values_none _ (map (fun e => (key e, value_at h e)) l1)) by (by apply keys_differ).
  - unfold insertSorted.
    destruct (insert_before_greater_split {| key := canonicalize k; off := length (values h) |} (entries h))
      as (l1 & l2 & E & ->).
    destruct (pairs_insert h (canonicalize k) v l1 l2 Hw E) as (p1 & p2 & Ep & E1 & ->).
    rewrite Ep, !all_values_app, all_values_cons.
    destruct (beq (canonicalize k) k') eqn:Ek; [|done]. apply beq_eq in Ek. subst k'.
    assert (all_values (canonicalize k) p1 ++ all_values (canonicalize k) p2 = []) as En.
    { rewrite <- all_values_app, <- Ep. apply all_values_none. unfold pairs. apply keys_differ.
      by apply find_none_forall in Ef. }
    by apply app_eq_nil in En as [-> ->].
Qed.

Lemma Del_values (h : Map) (k k' : bytes) :
  all_values k' (pairs (Del h k)) =
  if beq (canonicalize k) k' then tail (all_values k' (pairs h)) else all_values k' (pairs h).
Proof. by rewrite Del_pairs, all_values_del_first. Qed.

Lemma all_values_length (h : Map) (k : bytes) : (length (all_values k (pairs h)) <= length (entries h))%nat.
Proof.
  unfold all_values, pairs. rewrite length_map.
  etransitivity; [apply List.filter_length_le|]. by rewrite length_map.
Qed.

(** Enough rounds remove every line of the name. *)
Lemma del_loop_all (fuel : nat) (k : bytes) : canonicalize k = k -> forall h : Map,
  wf h -> (length (all_values k (pairs h)) <= fuel)%nat ->
  wf (del_loop fuel h k) /\
  forall k', all_values k' (pairs (del_loop fuel h k)) = if beq k k' then [] else all_values k' (pairs h).
Proof.
  intros Hk. induction fuel as [|fuel IH]; intros h Hw Hl; simpl.
  - split; [done|]. intros k'. destruct (beq k k') eqn:E; [|done]. apply beq_eq in E. subst k'.
    destruct (all_values k (pairs h)); [done|simpl in Hl; lia].
  - rewrite Has_all_values, Hk. destruct (all_values k (pairs h)) as [|v l] eqn:E.
    + simpl. split; [done|]. intros k'. destruct (beq k k') eqn:E'; [|done]. apply beq_eq in E'. by subst k'.
    + replace (0 <? len (v :: l)) with true by (rewrite len_cons; pose proof (len_nonneg l); symmetry; apply Z.ltb_lt; lia).
      destruct (IH (Del h k)) as [Hw' Hv].
      * by apply wf_Del.
      * rewrite Del_values, Hk, beq_refl, E. simpl in Hl |- *. lia.
      * split; [done|]. intros k'. rewrite Hv, Del_values, Hk. by destruct (beq k k').
Qed.

(** Appending the Vary lines of the 304. *)
Lemma append_lines (k : bytes) (l : list (bytes * bytes)) : canonicalize k = k -> forall h : Map, wf h ->
  let h' := fold_left (fun h '(q, v) => if beq q k then AppendEntry h q v else h) l h in
  wf h' /\ forall k', all_values k' (pairs h') =
    all_values k' (pairs h) ++ (if beq k k' then all_values k l else []).
Proof.
  intros Hk. induction l as [|[q v] l IH]; intros h Hw; cbn [fold_left].
  - split; [done|]. intros k'. destruct (beq k k'); by rewrite app_nil_r.
  - destruct (beq q k) eqn:E.
    + apply beq_eq in E. subst q. rewrite AppendEntry_canonical, Hk.
      destruct (wf_AppendEntryCanonical h k v Hw Hk) as [Hw' Hp].
      destruct (IH _ Hw') as [Hw2 Hv]. split; [done|]. intros k'.
      rewrite Hv, Hp, all_values_app, all_values_cons, all_values_cons, beq_refl, <- app_assoc.
      by destruct (beq k k').
    + destruct (IH h Hw) as [Hw2 Hv]. split; [done|]. intros k'. by rewrite Hv, all_values_cons, E.
Qed.

Lemma replace_vary_spec (h resp304 : Map) : wf h ->
  wf (replace_vary h resp304) /\
  forall k, all_values k (pairs (replace_vary h resp304)) =
    if Has resp304 Hdr.Vary && beq Hdr.Vary k then all_values k (pairs resp304) else all_values k (pairs h).
Proof.
  intros Hw. unfold replace_vary. destruct (Has resp304 Hdr.Vary); [|done].
  destruct (del_loop_all (length (entries h)) Hdr.Vary eq_refl h Hw (all_values_length h _)) as [Hw1 Hv1].
  destruct (append_lines Hdr.Vary (pairs resp304) eq_refl _ Hw1) as [Hw2 Hv2].
  split; [exact Hw2|]. intros k. rewrite Hv2, Hv1. cbn [andb].
  destruct (beq Hdr.Vary k) eqn:E; [apply beq_eq in E; by subst|]. by rewrite app_nil_r.
Qed.

(** The lines of one name after the lines [l] have been set in turn. *)
Definition after_sets (vals old : list bytes) : list bytes :=
  match last vals with Some v => v :: tail old | None => old end.

Lemma set_lines_spec (l : list (bytes * bytes)) :
  Forall (fun kv => canonicalize kv.1 = kv.1) l -> forall h : Map, wf h ->
  wf (fold_left set_line l h) /\
  forall k, all_values k (pairs (fold_left set_line l h)) =
    if not_merged k then all_values k (pairs h)
    else after_sets (all_values k l) (all_values k (pairs h)).
Proof.
  induction 1 as [|[q v] l Hq _ IH]; intros h Hw; cbn [fold_left].
  - split; [done|]. intros k. by destruct (not_merged k).
  - simpl in Hq. destruct (not_merged q) eqn:En; unfold set_line at 2 4; cbn [fst snd]; rewrite En.
    + destruct (IH h Hw) as [Hw' Hv]. split; [done|]. intros k. rewrite Hv, all_values_cons.
      destruct (not_merged k) eqn:Ek; [done|].
      destruct (beq q k) eqn:E; [|done]. apply beq_eq in E. congruence.
    + destruct (Set_spec h q v Hw) as [Hw' _]. destruct (IH _ Hw') as [Hw2 Hv]. split; [done|].
      intros k. rewrite Hv, Set_values, Hq, all_values_cons by done.
      destruct (not_merged k) eqn:Ek.
      * destruct (beq q k) eqn:E; [|done]. apply beq_eq in E. congruence.
      * destruct (beq q k) eqn:E; [|done]. unfold after_sets.
        rewrite last_cons. by destruct (last (all_values k l)).
Qed.

(** ** Remaining windows *)

Lemma quot_seconds (rem : Z) : 0 < rem -> 0 <= d_quot rem Second /\ d_quot rem Second * Second <= rem.
Proof.
  intros H. unfold d_quot. rewrite Z.quot_div_nonneg by (unfold Second; lia).
  split; [apply Z.div_pos; unfold Second; lia|].
  rewrite Z.mul_comm. apply Z.mul_div_le. unfold Second. lia.
Qed.

Lemma t_sub_pos_le (t u : Time) : 0 < t_sub t u -> t_sub t u <= t - u.
Proof. unfold t_sub, min_i64, max_i64. lia. Qed.

Lemma cdcWallRemaining_spec (obj : Object.t) (now : Time) :
  let n := cdcWallRemaining obj now in
  0 <= n /\ (0 < n -> now + n * Second <= Object.StoredAt obj + Object.TTL obj).
Proof.
  unfold cdcWallRemaining. destruct (Z.leb_spec (t_sub (t_add (Object.StoredAt obj) (Object.TTL obj)) now) 0) as [H|H].
  - lia.
  - destruct (quot_seconds _ H) as [H1 H2]. pose proof (t_sub_pos_le _ _ H) as H3. unfold t_add in H3.
    split; [done|]. intros _. unfold t_add in *. lia.
Qed.

Lemma cdcWindowRemaining_spec (obj : Object.t) (window : Duration) (now : Time) :
  in_i64 (Object.TTL obj) -> in_i64 window ->
  let n := cdcWindowRemaining obj window now in
  0 < n -> 0 < window /\ now + n * Second <= Object.StoredAt obj + Object.TTL obj + window.
Proof.
  intros HT HW n. subst n. unfold cdcWindowRemaining.
  destruct (Z.leb_spec window 0) as [Hw|Hw]; [lia|].
  destruct (Z.leb_spec (t_sub (t_add (Object.StoredAt obj) (d_add (Object.TTL obj) window)) now) 0) as [H|H]; [lia|].
  intros _. split; [done|]. destruct (quot_seconds _ H) as [H1 H2]. pose proof (t_sub_pos_le _ _ H) as H3.
  assert (d_add (Object.TTL obj) window <= Object.TTL obj + window) as Hle.
  { unfold d_add, i64. unfold in_i64 in *.
    pose proof (Z.mod_le (Object.TTL obj + window + 2 ^ 63) (2 ^ 64)). lia. }
  unfold t_add in *. lia.
Qed.

(** A window with whole seconds left is one the serving engine honours. *)
Lemma window_is_stale_window (obj : Object.t) (window : Duration) (now : Time) (n : Z) :
  0 < n -> 0 < window -> now + n * Second <= Object.StoredAt obj + Object.TTL obj + window ->
  Object.Fresh obj now = false ->
  (if Object.Fresh obj now || (window =? 0) then false
   else t_before now (t_add (t_add (Object.StoredAt obj) (Object.TTL obj)) window)) = true.
Proof.
  intros Hn Hw H ->. rewrite (proj2 (Z.eqb_neq window 0)) by lia. simpl.
  unfold t_before, t_add. apply Z.ltb_lt. unfold Second in H. lia.
Qed.

(** ** Ranges *)

Definition range_ok (size : Z) (ra : Z * Z) : Prop := 0 <= ra.1 /\ ra.1 <= ra.2 /\ ra.2 < size.

Lemma parseRange_ok (spec : bytes) (size : Z) (ra : Z * Z) :
  0 < size < 2 ^ 63 -> parseRange spec size = Some ra -> range_ok size ra.
Proof.
  intros Hs. unfold parseRange, range_ok. destruct (cut_byte (ch "-") spec) as [[a b]|]; [|done].
  rewrite (i64_id (size - 1)) by (unfold in_i64; lia).
  destruct (beq (trim_space a) []).
  - destruct (parse_int64 (trim_space b)) as [suffix|] eqn:E; [|done].
    apply parse_int64_range in E. unfold in_i64 in E.
    destruct (Z.leb_spec suffix 0); [done|]. intros [= <-]. simpl.
    rewrite (i64_id (size - suffix)) by (unfold in_i64; lia).
    destruct (Z.ltb_spec (size - suffix) 0); lia.
  - destruct (parse_int64 (trim_space a)) as [start|]; [|done].
    destruct (Z.ltb_spec start 0), (Z.leb_spec size start); simpl; try done.
    destruct (beq (trim_space b) []); [intros [= <-]; simpl; lia|].
    destruct (parse_int64 (trim_space b)) as [e|]; [|done].
    destruct (Z.ltb_spec e start); [done|]. intros [= <-]. simpl. destruct (Z.leb_spec size e); lia.
Qed.

Lemma resolve_ranges_ok (specs : list bytes) (size : Z) : 0 < size < 2 ^ 63 -> forall ranges,
  resolve_ranges specs size = Some ranges ->
  Forall (range_ok size) ranges /\ length ranges = length specs.
Proof.
  intros Hs. induction specs as [|s specs IH]; intros ranges; simpl; [by intros [= <-]|].
  destruct (parseRange (trim_space s) size) as [ra|] eqn:E; [|done].
  destruct (resolve_ranges specs size) as [l|]; [|done]. intros [= <-].
  destruct (IH l eq_refl) as [H1 H2]. split; [|simpl; by rewrite H2].
  constructor; [by apply (parseRange_ok _ _ _ Hs E)|done].
Qed.

(** The bytes [start..end] of the stored body. *)
Definition body_part (obj : Object.t) (ra : Z * Z) : bytes :=
  take (Z.to_nat (ra.2 - ra.1 + 1)) (drop (Z.to_nat ra.1) (Object.Body obj)).

Definition whole_body (obj : Object.t) : Prop :=
  Object.BodySize obj = len (Object.Body obj) /\ 0 < Object.BodySize obj < 2 ^ 63.

Lemma go_slice_part (obj : Object.t) (ra : Z * Z) : whole_body obj -> range_ok (Object.BodySize obj) ra ->
  go_slice (Object.Body obj) ra.1 (i64 (ra.2 + 1)) = Some (body_part obj ra) /\
  len (body_part obj ra) = i64 (i64 (ra.2 - ra.1) + 1).
Proof.
  intros [Hb Hs] (H1 & H2 & H3). rewrite !i64_id by (unfold in_i64; rewrite ?i64_id; unfold in_i64; lia).
  unfold go_slice. rewrite (proj2 (Z.leb_le 0 ra.1)), (proj2 (Z.leb_le ra.1 (ra.2 + 1))),
    (proj2 (Z.leb_le (ra.2 + 1) (len (Object.Body obj)))) by lia. simpl. unfold body_part.
  replace (ra.2 + 1 - ra.1) with (ra.2 - ra.1 + 1) by lia. split; [done|].
  unfold len in *. rewrite length_take, length_drop. lia.
Qed.

(** What a 206 sends: one part with its Content-Range and exact length, or the
    parts of a multipart body, each under its own Content-Range. *)
Definition partial_response (ri : RequestInfo) (obj : Object.t) (ranges : list (Z * Z)) : list wop :=
  let size := Object.BodySize obj in
  let head_only := beq (GetMethod ri) (bs "HEAD") in
  match ranges with
  | [ra] =>
      [SetHeader Hdr.ContentRange (content_range ra.1 ra.2 size);
       SetHeader Hdr.ContentLength (itoa (len (body_part obj ra))); WriteHeader 206]
      ++ (if head_only then [] else [Write (body_part obj ra)])
  | _ =>
      let boundary := bs "bouine-range-" ++ Hex (Object.Key_ obj) in
      let ct := if beq (Get (Object.Header obj) Hdr.ContentType) [] then bs "application/octet-stream"
                else Get (Object.Header obj) Hdr.ContentType in
      [SetHeader Hdr.ContentType (bs "multipart/byteranges; boundary=" ++ boundary); WriteHeader 206]
      ++ (if head_only then []
          else flat_map (fun ra => [Write (part_header boundary ct ra.1 ra.2 size); Write (body_part obj ra)]) ranges
               ++ [Write ([x0d; x0a] ++ bs "--" ++ boundary ++ bs "--" ++ [x0d; x0a])])
  end.

Lemma write_parts_ok (boundary ct : bytes) (obj : Object.t) (ranges : list (Z * Z)) :
  whole_body obj -> Forall (range_ok (Object.BodySize obj)) ranges ->
  write_parts boundary ct obj ranges =
  Some (flat_map (fun ra => [Write (part_header boundary ct ra.1 ra.2 (Object.BodySize obj));
                             Write (body_part obj ra)]) ranges
        ++ [Write ([x0d; x0a] ++ bs "--" ++ boundary ++ bs "--" ++ [x0d; x0a])]).
Proof.
  intros Hw. induction 1 as [|[s e] ranges Hr _ IH]; [done|]. cbn [write_parts].
  destruct (go_slice_part obj (s, e) Hw Hr) as [E _]. cbn [fst snd] in E. by rewrite E, IH.
Qed.

Lemma split_byte_nonempty (c : byte) (s : bytes) : split_byte c s <> [].
Proof. destruct s as [|a s]; simpl; [done|]. destruct (beqb a c); [done|]. by destruct (split_byte c s). Qed.

(** ** Theorems *)

(** Client validators: the fasthttp front end answers 304 exactly when the
    header-map one does; If-None-Match decides alone when it is present, and
    on a well-formed list of entity tags (weak or strong, any blanks around
    them) it matches exactly when some tag has the opaque part of the stored
    one. *)
Theorem conditional_304_exact (local : bytes -> Z -> option Z) (ri : RequestInfo)
  (peek : bytes -> bytes) (obj : Object.t)
  (Hinm : peek Hdr.IfNoneMatch = Get (ReqHeader ri) Hdr.IfNoneMatch)
  (Hims : peek Hdr.IfModifiedSince = Get (ReqHeader ri) Hdr.IfModifiedSince) :
  tryConditional304Fast local peek obj = ClientConditionalMatch local ri obj /\
  (forall (items : list list_item) (t : entity_tag),
     items <> [] -> Forall item_ok items -> tag_ok t ->
     Get (ReqHeader ri) Hdr.IfNoneMatch = list_text items -> Object.ETag obj = tag_text t ->
     ClientConditionalMatch local ri obj = existsb (fun i => beq (opaque (item i)) (opaque t)) items).
Proof.
  split.
  - unfold tryConditional304Fast, ClientConditionalMatch. rewrite Hinm, Hims, !len_pos_beq. reflexivity.
  - intros items t Hne Hi Ht E1 E2. unfold ClientConditionalMatch.
    rewrite E1, E2, etagMatch_list by done.
    assert (tag_text t <> []) as Hn1 by (unfold tag_text; by destruct (weak t)).
    assert (list_text items <> []) as Hn2.
    { intros E. destruct items as [|i items]; [done|].
      assert (x22 ∈ list_text (i :: items)) as Hin.
      { eapply (join_elem _ (item_text i)); [|left].
        unfold item_text, tag_text. rewrite !elem_of_app, elem_of_cons. right. left. right. by left. }
      rewrite E in Hin. by apply not_elem_of_nil in Hin. }
    rewrite (proj2 (beq_neq _ _) Hn1), (proj2 (beq_neq _ _) Hn2). simpl.
    by destruct (existsb _ items).
Qed.

(** Merging a 304 into the stored object, line by line for every header:
    the Vary lines are replaced as a whole (and kept when the 304 has none),
    Content-Length, Content-Encoding, Transfer-Encoding, Set-Cookie and
    Set-Login are untouched, and of any other field the first line becomes
    the last one of the 304. The header map stays well formed. *)
Theorem merge_304_lines (stored : Object.t) (resp304 : Map)
  (Hs : wf (Object.Header stored)) (Hr : wf resp304) :
  let h := Object.Header (MergeHeaders304 stored resp304) in
  wf h /\
  forall k, all_values k (pairs h) =
    if beq Hdr.Vary k then
      if Has resp304 Hdr.Vary then all_values k (pairs resp304) else all_values k (pairs (Object.Header stored))
    else if not_merged k then all_values k (pairs (Object.Header stored))
    else after_sets (all_values k (pairs resp304)) (all_values k (pairs (Object.Header stored))).
Proof.
  unfold MergeHeaders304. cbn [Object.Header].
  destruct (replace_vary_spec (Object.Header stored) resp304 Hs) as [Hw1 Hv1].
  destruct (set_lines_spec (pairs resp304) (pairs_canonical _ Hr) _ Hw1) as [Hw2 Hv2].
  split; [exact Hw2|]. intros k. rewrite Hv2, Hv1.
  destruct (beq Hdr.Vary k) eqn:E.
  - apply beq_eq in E. subst k. rewrite andb_true_r. by destruct (Has resp304 Hdr.Vary).
  - by rewrite andb_false_r.
Qed.

(** The three kinds of directive lists. *)
Lemma numeric_within (hbuf : bytes) (obj : Object.t) (now : Time) :
  exists n, 0 <= n /\ (0 < n -> now + n * Second <= Object.StoredAt obj + Object.TTL obj) /\
    appendServeCDCDirectives hbuf obj now cacheHit =
    hbuf ++ bs "public, max-age=" ++ itoa n
    ++ (if Object.RespMustRevalidate obj then bs ", must-revalidate" else []).
Proof.
  destruct (cdcWallRemaining_spec obj now) as [H1 H2].
  exists (cdcWallRemaining obj now). split; [done|]. split; [done|].
  cbn [appendServeCDCDirectives].
  destruct (Object.RespMustRevalidate obj); rewrite <- !app_assoc; [done|]. by rewrite app_nil_r.
Qed.

Lemma stale_mirror_within (hbuf : bytes) (obj : Object.t) (now : Time) :
  in_i64 (Object.TTL obj) -> in_i64 (Object.StaleWhileRevalidate obj) -> in_i64 (Object.StaleIfError obj) ->
  appendStaleMirrorDirectives hbuf obj now = hbuf ++ bs "public, max-age=0" \/
  exists n, 0 < n /\
    now + n * Second <= Object.StoredAt obj + Object.TTL obj
                        + Z.max (Object.StaleWhileRevalidate obj) (Object.StaleIfError obj) /\
    (Object.Fresh obj now = false -> Object.StaleButServable obj now = true) /\
    appendStaleMirrorDirectives hbuf obj now =
    hbuf ++ bs "public, max-age=0, stale-while-revalidate=" ++ itoa n.
Proof.
  intros HT HW HE. unfold appendStaleMirrorDirectives.
  destruct (Z.ltb_spec 0 (cdcWindowRemaining obj (Object.StaleWhileRevalidate obj) now)) as [H|H].
  { right. destruct (cdcWindowRemaining_spec obj _ now HT HW H) as [Hpos Hle].
    eexists. split; [exact H|]. split; [lia|]. split; [|by rewrite <- app_assoc].
    intros HF. unfold Object.StaleButServable. apply orb_true_iff. left.
    exact (window_is_stale_window obj _ now _ H Hpos Hle HF). }
  destruct (Z.ltb_spec 0 (cdcWindowRemaining obj (Object.StaleIfError obj) now)) as [H'|H']; [|by left].
  right. destruct (cdcWindowRemaining_spec obj _ now HT HE H') as [Hpos Hle].
  eexists. split; [exact H'|]. split; [lia|]. split; [|by rewrite <- app_assoc].
  intros HF. unfold Object.StaleButServable. apply orb_true_iff. right.
  exact (window_is_stale_window obj _ now _ H' Hpos Hle HF).
Qed.

Lemma fill_within (hbuf : bytes) (ttl : Duration) (respCC : Directives) (origin : Duration) :
  NoCache respCC = false -> exists n rest,
    0 <= n /\ n * Second <= Z.max 0 ttl /\ (0 < origin -> n * Second <= origin) /\
    appendFillCDCDirectives hbuf respCC origin ttl = hbuf ++ bs "public, max-age=" ++ itoa n ++ rest.
Proof.
  intros Hnc. unfold appendFillCDCDirectives. rewrite Hnc.
  set (cdc := if (0 <? origin) && (origin <? ttl) then origin else ttl).
  set (c := if cdc <? 0 then 0 else cdc).
  exists (d_quot c Second),
    ((if MustRevalidate respCC then bs ", must-revalidate" else [])
     ++ (if ProxyRevalidate respCC then bs ", proxy-revalidate" else [])).
  assert (0 <= c /\ c <= Z.max 0 ttl /\ (0 < origin -> c <= origin)) as (C1 & C2 & C3).
  { unfold c, cdc. destruct (Z.ltb_spec 0 origin), (Z.ltb_spec origin ttl); simpl;
      match goal with |- context [if ?x <? 0 then _ else _] => destruct (Z.ltb_spec x 0) end; lia. }
  assert (0 <= d_quot c Second /\ d_quot c Second * Second <= c) as [D1 D2].
  { destruct (Z.eq_dec c 0) as [->|Hc]; [vm_compute; split; discriminate|]. apply quot_seconds. lia. }
  split; [done|]. split; [lia|]. split; [lia|].
  destruct (MustRevalidate respCC), (ProxyRevalidate respCC); rewrite <- ?app_assoc; rewrite ?app_nil_r; done.
Qed.

(** The synthesized CDN-Cache-Control never lets a downstream cache trust
    a response beyond bouine's own clock: a numeric max-age ends no later than
    StoredAt + TTL, a stale window no later than the wider of the object's
    stale windows and only while the engine itself would serve the object
    stale; must-revalidate is passed on; a fill is capped by the stored TTL
    and by the origin's own lifetime. *)
Theorem cdc_within_own_clock (hbuf : bytes) (obj : Object.t) (now : Time)
  (HT : in_i64 (Object.TTL obj)) (HW : in_i64 (Object.StaleWhileRevalidate obj))
  (HE : in_i64 (Object.StaleIfError obj)) :
  (forall result, result <> cacheStale ->
     (appendServeCDCDirectives hbuf obj now result = hbuf ++ bs "public, no-cache" /\
        result = cacheRevalidated /\ Object.RespNoCache obj = true) \/
     (exists n, 0 <= n /\ (0 < n -> now + n * Second <= Object.StoredAt obj + Object.TTL obj) /\
        appendServeCDCDirectives hbuf obj now result =
        hbuf ++ bs "public, max-age=" ++ itoa n
        ++ (if Object.RespMustRevalidate obj then bs ", must-revalidate" else []))) /\
  (appendServeCDCDirectives hbuf obj now cacheStale = hbuf ++ bs "public, max-age=0" \/
   exists n, 0 < n /\
     now + n * Second <= Object.StoredAt obj + Object.TTL obj
                         + Z.max (Object.StaleWhileRevalidate obj) (Object.StaleIfError obj) /\
     (Object.Fresh obj now = false -> Object.StaleButServable obj now = true) /\
     appendServeCDCDirectives hbuf obj now cacheStale =
     hbuf ++ bs "public, max-age=0, stale-while-revalidate=" ++ itoa n) /\
  (forall respCC origin, NoCache respCC = false -> exists n rest,
     0 <= n /\ n * Second <= Z.max 0 (Object.TTL obj) /\ (0 < origin -> n * Second <= origin) /\
     appendFillCDCDirectives hbuf respCC origin (Object.TTL obj) =
     hbuf ++ bs "public, max-age=" ++ itoa n ++ rest).
Proof.
  split; [|split; [by apply stale_mirror_within|by apply fill_within]].
  intros result Hres. destruct result; [right; by apply numeric_within|done|].
  destruct (Object.RespNoCache obj) eqn:E.
  - left. cbn [appendServeCDCDirectives]. by rewrite E.
  - right. cbn [appendServeCDCDirectives]. rewrite E. exact (numeric_within hbuf obj now).
Qed.

(** The lines a range response adds to the stored ones. *)
Definition range_mark (stale : bool) (o : wop) : Prop :=
  match o with
  | SetHeader k v => k = Hdr.Warning /\ stale = true \/ k = Hdr.XCache /\ v = (if stale then bs "STALE" else bs "HIT") \/
                     k = Hdr.CDNCacheControl
  | _ => False
  end.

(** C39. Range requests never read outside the stored body: whatever the Range
    header says, the handler does not panic on a non-empty body; it answers
    exactly the requests with a byte range, and writes nothing for the others. An
    unsatisfiable range gets 416 and nothing else. Otherwise the whole of what it
    writes is the stored lines but Content-Length (and, when it synthesizes
    CDN-Cache-Control, that family), the X-Cache line and at most a Warning (when
    stale) and a CDN-Cache-Control line, and then the 206: its parts are exactly
    the bytes their Content-Range names, each within the body, with the exact
    Content-Length for one part, and no body for HEAD. (For an empty body:
    [suffix_range_of_empty_body].) *)
Theorem serve_range_exact (syncCDC : bool) (ri : RequestInfo) (obj : Object.t) (stale : bool) (now : Time)
  (Hw : whole_body obj) :
  let rangeHeader := Get (ReqHeader ri) Hdr.Range in
  exists ops, serveRange syncCDC ri obj stale now = Some (has_prefix rangeHeader (bs "bytes="), ops) /\
    (has_prefix rangeHeader (bs "bytes=") = false -> ops = []) /\
    (has_prefix rangeHeader (bs "bytes=") = true ->
     match resolve_ranges (split_byte (ch ",") (drop 6 rangeHeader)) (Object.BodySize obj) with
     | None => ops = [SetHeader Hdr.ContentRange (bs "bytes */" ++ itoa (Object.BodySize obj)); WriteHeader 416]
     | Some ranges =>
         ranges <> [] /\ Forall (range_ok (Object.BodySize obj)) ranges /\
         exists marks, Forall (range_mark stale) marks /\ (exists v, SetHeader Hdr.XCache v ∈ marks) /\
           ops = map (fun kv => SetHeader kv.1 kv.2)
                   (List.filter (fun kv => negb (equal_fold kv.1 Hdr.ContentLength) && negb (syncCDC && isCDCFamilyHeader kv.1))
                      (pairs (Object.Header obj)))
                 ++ marks ++ partial_response ri obj ranges
     end).
Proof.
  intros rangeHeader. unfold serveRange. fold rangeHeader.
  destruct (beq rangeHeader []) eqn:E0; [apply beq_eq in E0; rewrite E0; eexists; by split_and!|].
  destruct (has_prefix rangeHeader (bs "bytes=")); [|eexists; by split_and!]. cbn [negb].
  destruct (resolve_ranges _ _) as [ranges|] eqn:E; [|eexists; by split_and!].
  destruct (resolve_ranges_ok _ _ (proj2 Hw) _ E) as [Hok Hlen].
  assert (ranges <> []) as Hne by (intros ->; by apply (split_byte_nonempty (ch ",") (drop 6 rangeHeader)), length_zero_iff_nil).
  set (marks := (if stale then [SetHeader Hdr.Warning (bs "110 - " ++ [x22] ++ bs "Response is Stale" ++ [x22])] else [])
                ++ [SetHeader Hdr.XCache (if stale then bs "STALE" else bs "HIT")] ++ setRangeCDC syncCDC obj stale now).
  assert (Forall (range_mark stale) marks /\ exists v, SetHeader Hdr.XCache v ∈ marks) as [Hm Hx].
  { unfold marks, setRangeCDC. split; [destruct stale, syncCDC; repeat constructor; cbn; tauto|].
    eexists. rewrite !elem_of_app. right. left. by apply list_elem_of_singleton. }
  assert (forall tail, tail = partial_response ri obj ranges -> exists ops,
    Some (true, copyStoredHeaders obj syncCDC ++ marks ++ tail) = Some (true, ops) /\ (true = false -> ops = []) /\
    (true = true -> ranges <> [] /\ Forall (range_ok (Object.BodySize obj)) ranges /\
       exists marks, Forall (range_mark stale) marks /\ (exists v, SetHeader Hdr.XCache v ∈ marks) /\
         ops = copyStoredHeaders obj syncCDC ++ marks ++ partial_response ri obj ranges)) as Hout.
  { intros tail ->. eexists. split_and!; [done|done|]. intros _. split_and!; [done|done|]. by exists marks. }
  clearbody marks. destruct ranges as [|[st e] [|r2 rest]]; [done|..].
  - inversion_clear Hok as [|?? Hr _].
    destruct (go_slice_part obj (st, e) Hw Hr) as [Eg El]. cbn [fst snd] in Eg, El. unfold partial_response in Hout |- *.
    destruct (beq (GetMethod ri) (bs "HEAD")); cbn [negb]; [|rewrite Eg]; rewrite <- ?app_assoc; apply Hout; by rewrite <- El, ?app_nil_r.
  - rewrite write_parts_ok by done. unfold partial_response in Hout |- *.
    destruct (beq (GetMethod ri) (bs "HEAD")); rewrite <- ?app_assoc; apply Hout; by rewrite ?app_nil_r.
Qed.

Lemma itoa_visible (n : Z) : 0 <= n < 2 ^ 63 -> forallb visible (itoa n) = true /\ ch "-" ∉ itoa n /\ itoa n <> [].
Proof.
  intros Hn. destruct (utoa_digits n Hn) as (Hne & Hd & _).
  unfold itoa. rewrite (proj2 (Z.ltb_ge n 0)) by lia. rewrite all_digits_forallb, forallb_forall in Hd.
  assert (forall c, is_digit c = true -> visible c = true /\ c <> ch "-") as Hc.
  { intros c. destruct c; vm_compute; intuition congruence. }
  split; [|split; [|done]].
  - apply forallb_forall. intros c Hin. by apply Hc, Hd.
  - intros Hin. apply list_elem_of_In, Hd, Hc in Hin as [_ Hin]. done.
Qed.

(** The three spellings of a byte range resolve to the interval RFC 9110
    section 14.1.2 gives them: first to last, first to the end, the last n. *)
Theorem range_forms (size a b n : Z) (Hs : 0 < size < 2 ^ 63) (Ha : 0 <= a < size) (Hb : a <= b < 2 ^ 63)
  (Hn : 0 < n < 2 ^ 63) :
  parseRange (itoa a ++ ch "-" :: itoa b) size = Some (a, Z.min b (size - 1)) /\
  parseRange (itoa a ++ [ch "-"]) size = Some (a, size - 1) /\
  parseRange (ch "-" :: itoa n) size = Some (Z.max 0 (size - n), size - 1).
Proof.
  destruct (itoa_visible a) as (Va & Da & Na); [lia|].
  destruct (itoa_visible b) as (Vb & _ & Nb); [lia|]. destruct (itoa_visible n) as (Vn & _ & Nn); [lia|].
  unfold parseRange. rewrite !cut_byte_app by done. cbn [cut_byte]. rewrite beqb_refl.
  change (trim_space []) with (@nil byte). rewrite !trim_space_visible by done.
  rewrite (proj2 (beq_neq _ _) Na), (proj2 (beq_neq _ _) Nb), !parse_itoa, beq_refl by lia.
  rewrite (proj2 (Z.ltb_ge a 0)), (proj2 (Z.leb_gt size a)), (proj2 (Z.ltb_ge b a)), (proj2 (Z.leb_gt n 0)) by lia.
  cbn [orb]. rewrite !i64_id by (unfold in_i64; lia).
  split; [|split; [done|]].
  - destruct (Z.leb_spec size b); f_equal; f_equal; lia.
  - destruct (Z.ltb_spec (size - n) 0); f_equal; f_equal; lia.
Qed.

(** ** Where the code departs from the RFCs *)

(** A comma is legal inside an entity tag; the list is cut there, so a client
    holding the tag ["a,b"] gets a 304 for the different entity ["b"]. *)
Lemma comma_in_etag_matches_wrongly :
  etagMatch ([x22] ++ bs "a,b" ++ [x22]) ([x22] ++ bs "b" ++ [x22]) = true.
Proof. vm_compute. reflexivity. Qed.

(** A suffix range of an empty body is answered with 206 and the impossible
    [Content-Range: bytes 0--1/0] instead of 416. *)
Lemma suffix_range_of_empty_body : parseRange (bs "-5") 0 = Some (0, -1).
Proof. vm_compute. reflexivity. Qed.

(** A 304 with two Cache-Control lines keeps only the last: the no-cache of
    the first is lost, and with it the duty to revalidate. *)
Lemma merge_drops_first_line :
  let stored := {| Object.zero with Object.Header := AppendEntry NewMap Hdr.CacheControl (bs "max-age=1") |} in
  let resp := AppendEntry (AppendEntry NewMap Hdr.CacheControl (bs "no-cache")) Hdr.CacheControl (bs "max-age=60") in
  let h := Object.Header (MergeHeaders304 stored resp) in
  GetAll h Hdr.CacheControl = bs "max-age=60" /\
  NoCache (ParseCacheControl (Get h Hdr.CacheControl)) = false.
Proof. vm_compute. by split. Qed.

(** ** Witnesses *)

Definition range_request (method range inm : bytes) : RequestInfo :=
  MkRequest method [] [] [] [] (AppendEntry (AppendEntry NewMap Hdr.IfNoneMatch inm) Hdr.Range range) [] [] [] [] false.

Definition two_tags : list list_item :=
  [MkItem [] (MkTag false (bs "v0")) []; MkItem (bs " ") (MkTag true (bs "v1")) []].
Definition tagged : Object.t := {| Object.zero with Object.ETag := tag_text (MkTag false (bs "v1")) |}.

Lemma conditional_304_exact_witness :
  ClientConditionalMatch no_local_zone (range_request (bs "GET") [] (list_text two_tags)) tagged = true.
Proof.
  destruct (conditional_304_exact no_local_zone (range_request (bs "GET") [] (list_text two_tags))
    (fun k => if beq k Hdr.IfNoneMatch then list_text two_tags else []) tagged eq_refl eq_refl) as [_ H].
  rewrite (H two_tags (MkTag false (bs "v1")));
    [reflexivity|discriminate| |vm_compute; set_solver|reflexivity|reflexivity].
  repeat constructor; vm_compute; set_solver.
Defined.

Definition refreshed_304 : Map :=
  AppendEntry (AppendEntry NewMap Hdr.Vary (bs "Accept")) Hdr.ETag (bs "e2").
Definition stored_304 : Object.t :=
  {| Object.zero with Object.Header :=
       AppendEntry (AppendEntry (AppendEntry NewMap Hdr.Vary (bs "Cookie")) Hdr.ETag (bs "e1"))
         Hdr.ContentLength (bs "5") |}.

Lemma merge_304_lines_witness :
  let h := Object.Header (MergeHeaders304 stored_304 refreshed_304) in
  all_values Hdr.Vary (pairs h) = [bs "Accept"] /\ all_values Hdr.ETag (pairs h) = [bs "e2"] /\
  all_values Hdr.ContentLength (pairs h) = [bs "5"].
Proof.
  destruct (merge_304_lines stored_304 refreshed_304) as [_ H].
  - unfold stored_304. cbn [Object.Header]. rewrite !AppendEntry_canonical.
    repeat (apply wf_AppendEntryCanonical; [|apply canonicalize_idem]). apply wf_NewMap.
  - unfold refreshed_304. rewrite !AppendEntry_canonical.
    repeat (apply wf_AppendEntryCanonical; [|apply canonicalize_idem]). apply wf_NewMap.
  - cbv zeta in H |- *. rewrite !H. vm_compute. by repeat split.
Defined.

Definition aging : Object.t :=
  {| Object.zero with Object.StoredAt := 0; Object.TTL := 10 * Second; Object.StaleWhileRevalidate := 30 * Second |}.

Lemma cdc_within_own_clock_witness :
  exists n, 0 <= n /\ (0 < n -> 3 * Second + n * Second <= 0 + 10 * Second) /\
    appendServeCDCDirectives [] aging (3 * Second) cacheHit = [] ++ bs "public, max-age=" ++ itoa n ++ [].
Proof.
  destruct (cdc_within_own_clock [] aging (3 * Second)) as (H & _ & _);
    [vm_compute; split; congruence..|].
  destruct (H cacheHit) as [(_ & Hf & _)|Hn]; [discriminate|discriminate|exact Hn].
Defined.

Definition ranged : Object.t := {| Object.zero with Object.Body := bs "hello"; Object.BodySize := 5 |}.

Lemma serve_range_exact_witness :
  exists marks, Forall (range_mark false) marks /\ (exists v, SetHeader Hdr.XCache v ∈ marks) /\
    serveRange false (range_request (bs "GET") (bs "bytes=1-3") []) ranged false 0
    = Some (true, marks ++ [SetHeader Hdr.ContentRange (bs "bytes 1-3/5"); SetHeader Hdr.ContentLength (bs "3"); WriteHeader 206;
                            Write (bs "ell")]).
Proof.
  destruct (serve_range_exact false (range_request (bs "GET") (bs "bytes=1-3") []) ranged false 0) as (ops & E & _ & H).
  - split; [reflexivity|vm_compute; split; reflexivity].
  - destruct (H eq_refl) as (_ & _ & marks & Hm & Hx & ->). exists marks. split; [exact Hm|]. split; [exact Hx|].
    rewrite E. reflexivity.
Defined.
