(* ===== verification/Bans.v ===== *)
(** * Lazy bans: src/internal/storage/bans.go and the ban operations of hot.go

    A ban is a pattern (host, path, surrogate key) with the instant after which
    stored objects are exempt. Registration keeps an ordered list; lookups
    consult two derived views instead: a compiled snapshot of the bans with
    patterns, and a sharded set of the surrogate-key bans. Bans are shared by
    pointer between the views, so they live in a heap of their own here, and
    every pointer is an address. Each operation is what the code does under
    the list mutex; [time.Now()] and the outcome of [TryLock] are arguments.

    Go's regexp engine is the argument [regexp_compile]; the shard hash
    (maphash, seeded per process) is the argument [shard_hash]. *)

From Stdlib Require Import Sorting.Sorted.
From S2P Require Import Prelude GoStd CacheControl HeaderMap Api ClusterCodec.

(** ** Bans (hot.go) *)

Abbreviation banPredicate := (Object.t -> bool).

Record banPattern : Type := MkPattern { hostRegex : bytes; pathRegex : bytes; surrogateKey : bytes }.

#[export] Instance banPattern_eq_dec : EqDecision banPattern.
Proof. solve_decision. Defined.
#[export] Instance banPattern_countable : Countable banPattern.
Proof.
  refine (inj_countable' (fun p => (hostRegex p, pathRegex p, surrogateKey p))
            (fun t => MkPattern t.1.1 t.1.2 t.2) _).
  by intros [].
Defined.

Definition patternOf (expr : BanExpr) : banPattern :=
  MkPattern (HostRegex expr) (PathRegex expr) (SurrogateKey expr).

Record activeBan : Type := MkActive {
  pred : banPredicate;
  created : Time;
  pattern : banPattern;
  exemptNanos : Z;
  surrogate : bool;
}.

Definition noExemption : Z := min_i64.

(** [time.Unix(0, n)] is the instant [n] nanoseconds after the epoch. *)
Definition exemptAfter (b : activeBan) : Time :=
  let n := exemptNanos b in if n =? noExemption then zero_time else n.

Definition setExemptAfter (b : activeBan) (t : Time) : activeBan :=
  {| b with exemptNanos := if is_zero t then noExemption else unix_nano t |}.

Definition subjectTo (obj : Object.t) (exempt : Time) : bool :=
  is_zero exempt || negb (t_after (Object.StoredAt obj) exempt).

Definition subjectToNanos (obj : Object.t) (exempt : Z) : bool :=
  (exempt =? noExemption) || negb (t_after (Object.StoredAt obj) exempt).

Definition DefaultBanTTL : Duration := 24 * Hour.
Definition banListCap : Z := 4096.

(** ** Patterns *)

Definition regexpMetachars : bytes := bs "\.+*?()|[]{}^$".
Definition metachar (c : byte) : bool := 0 <=? index_byte c regexpMetachars.

(** [strings.ContainsAny] on an ASCII cutset. *)
Definition isBanLiteral (pat : bytes) : bool := negb (existsb metachar pat).

Fixpoint literalOfBody (body : bytes) : option bytes :=
  match body with
  | [] => Some []
  | c :: rest =>
      if beqb c (ch "\") then
        match rest with
        | [] => None
        | d :: rest' => option_map (cons d) (literalOfBody rest')
        end
      else if metachar c then None
      else option_map (cons c) (literalOfBody rest)
  end.

Definition first_is (c : byte) (s : bytes) : bool := match s with a :: _ => beqb a c | [] => false end.
Definition last_is (c : byte) (s : bytes) : bool := match last s with Some a => beqb a c | None => false end.

Definition isAnchoredPrefix (pat : bytes) : bool :=
  if (len pat <? 2) || negb (first_is (ch "^") pat) || last_is (ch "$") pat then false
  else match literalOfBody (drop 1 pat) with Some _ => true | None => false end.
Definition anchoredPrefix (pat : bytes) : bytes := default [] (literalOfBody (drop 1 pat)).

(** [pattern[1 : len(pattern)-1]] *)
Definition inner (pat : bytes) : bytes := take (length pat - 2) (drop 1 pat).

Definition isAnchoredExact (pat : bytes) : bool :=
  if (len pat <? 3) || negb (first_is (ch "^") pat) || negb (last_is (ch "$") pat) then false
  else match literalOfBody (inner pat) with Some _ => true | None => false end.
Definition anchoredExact (pat : bytes) : bytes := default [] (literalOfBody (inner pat)).

Definition literalHostPattern (pat : bytes) : bytes := if isAnchoredExact pat then anchoredExact pat else pat.
Definition literalPathPattern (pat : bytes) : bytes := if isAnchoredExact pat then anchoredExact pat else pat.

Inductive banClass : Type :=
  banClassOpaque | banClassLiteralHost | banClassLiteralPath | banClassLiteralSurrogate
| banClassPrefixHost | banClassPrefixPath.

Definition classifyBan (e : banPattern) : banClass :=
  let '(n, class) := (0, banClassOpaque) in
  let '(n, class) := if negb (beq (hostRegex e) []) then (n + 1, banClassLiteralHost) else (n, class) in
  let '(n, class) := if negb (beq (pathRegex e) []) then (n + 1, banClassLiteralPath) else (n, class) in
  let '(n, class) := if negb (beq (surrogateKey e) []) then (n + 1, banClassLiteralSurrogate) else (n, class) in
  if negb (n =? 1) then banClassOpaque
  else match class with
  | banClassLiteralHost =>
      if isBanLiteral (hostRegex e) || isAnchoredExact (hostRegex e) then banClassLiteralHost
      else if isAnchoredPrefix (hostRegex e) then banClassPrefixHost
      else banClassOpaque
  | banClassLiteralPath =>
      if isBanLiteral (pathRegex e) || isAnchoredExact (pathRegex e) then banClassLiteralPath
      else if isAnchoredPrefix (pathRegex e) then banClassPrefixPath
      else banClassOpaque
  | banClassLiteralSurrogate => banClassLiteralSurrogate
  | _ => banClassOpaque
  end.

Definition isSurrogateOnlyBan (expr : BanExpr) : bool :=
  negb (beq (SurrogateKey expr) []) && beq (HostRegex expr) [] && beq (PathRegex expr) [].

(** ** Compiling a predicate (hot.go) *)

Inductive ban_error : Type := ErrHostRegex | ErrPathRegex.

Section Regexp.
(** [regexp.Compile] and the [MatchString] of what it returns. *)
Context (regexp_compile : bytes -> option (bytes -> bool)).

(** Regexp and literal of a pattern; the empty pattern has neither. *)
Definition compileBanPattern (pat : bytes) : option (option (bytes -> bool) * bytes) :=
  if beq pat [] then Some (None, [])
  else if isBanLiteral pat then Some (None, pat)
  else match regexp_compile pat with
       | None => None
       | Some r => Some (Some r, [])
       end.

Definition hasSurrogateKey (keys : list bytes) (key : bytes) : bool := existsb (beq key) keys.

(** The tests of one pattern in the closure. *)
Definition pattern_refuses (c : option (bytes -> bool) * bytes) (v : bytes) : bool :=
  match c.1 with Some re => negb (re v) | None => false end || (negb (beq c.2 []) && negb (beq v c.2)).

Definition compileBanPredicate (expr : BanExpr) : result ban_error banPredicate :=
  match compileBanPattern (HostRegex expr) with
  | None => Err ErrHostRegex
  | Some host =>
      match compileBanPattern (PathRegex expr) with
      | None => Err ErrPathRegex
      | Some path =>
          Ok (fun obj =>
            if negb (is_zero (CreatedAt expr)) && t_after (Object.StoredAt obj) (CreatedAt expr) then false
            else if pattern_refuses host (Get (Object.Header obj) Hdr.XBouineHost) then false
            else if pattern_refuses path (Get (Object.Header obj) Hdr.XBouinePath) then false
            else if negb (beq (SurrogateKey expr) [])
                    && negb (hasSurrogateKey (Object.SurrogateKeys obj) (SurrogateKey expr)) then false
            else true)
      end
  end.
End Regexp.

(** ** The compiled snapshot *)

Record prefixBan : Type := MkPrefixBan { pb_exemptAfter : Time; pb_pred : banPredicate; prefix : bytes }.
Record opaqueBan : Type := MkOpaqueBan { ob_exemptAfter : Time; ob_pred : banPredicate }.

Record banSnapshot : Type := MkSnapshot {
  hosts : gmap bytes Time;
  paths : gmap bytes Time;
  hostPrefixes : list prefixBan;
  pathPrefixes : list prefixBan;
  opaqueBans : list opaqueBan;
}.
Definition emptyBanSnapshot : banSnapshot := MkSnapshot ∅ ∅ [] [] [].

(** The loop body of [compileBanSnapshot]. *)
Definition compile_one (now : Time) (ttl : Duration) (snap : banSnapshot) (b : activeBan) : banSnapshot :=
  if ttl <=? t_sub now (created b) then snap
  else
    let exempt := exemptAfter b in
    match classifyBan (pattern b) with
    | banClassLiteralHost =>
        {| snap with hosts := <[literalHostPattern (hostRegex (pattern b)) := exempt]> (hosts snap) |}
    | banClassLiteralPath =>
        {| snap with paths := <[literalPathPattern (pathRegex (pattern b)) := exempt]> (paths snap) |}
    | banClassPrefixHost =>
        {| snap with hostPrefixes :=
             hostPrefixes snap ++ [MkPrefixBan exempt (pred b) (anchoredPrefix (hostRegex (pattern b)))] |}
    | banClassPrefixPath =>
        {| snap with pathPrefixes :=
             pathPrefixes snap ++ [MkPrefixBan exempt (pred b) (anchoredPrefix (pathRegex (pattern b)))] |}
    | _ => {| snap with opaqueBans := opaqueBans snap ++ [MkOpaqueBan exempt (pred b)] |}
    end.
Definition compileBanSnapshot (bans : list activeBan) (now : Time) (ttl : Duration) : banSnapshot :=
  foldl (compile_one now ttl) emptyBanSnapshot bans.

Definition literalMatch (s : banSnapshot) (obj : Object.t) : bool :=
  match hosts s !! Get (Object.Header obj) Hdr.XBouineHost with
  | Some exempt => subjectTo obj exempt
  | None => false
  end
  || match paths s !! Get (Object.Header obj) Hdr.XBouinePath with
     | Some exempt => subjectTo obj exempt
     | None => false
     end.

Definition prefix_hit (obj : Object.t) (v : bytes) (pb : prefixBan) : bool :=
  has_prefix v (prefix pb) && subjectTo obj (pb_exemptAfter pb) && pb_pred pb obj.

Definition prefixMatch (s : banSnapshot) (obj : Object.t) : bool :=
  existsb (prefix_hit obj (Get (Object.Header obj) Hdr.XBouineHost)) (hostPrefixes s)
  || existsb (prefix_hit obj (Get (Object.Header obj) Hdr.XBouinePath)) (pathPrefixes s).

Definition snap_matches (s : banSnapshot) (obj : Object.t) : bool :=
  if literalMatch s obj then true
  else if prefixMatch s obj then true
  else existsb (fun b => subjectTo obj (ob_exemptAfter b) && ob_pred b obj) (opaqueBans s).

(** ** The surrogate set *)

(** Pointers to bans. *)
Abbreviation ptr := positive.

Record surrogateEntry : Type := MkSurrogate { se_ban : ptr; se_key : bytes }.
Abbreviation surrogateShard := (list surrogateEntry).

(** [slices.BinarySearchFunc] on a sorted shard: the first position whose key
    is not below, and whether it holds the key. *)
Fixpoint search (sh : surrogateShard) (key : bytes) : nat * bool :=
  match sh with
  | [] => (0%nat, false)
  | e :: sh' =>
      match bytes_cmp (se_key e) key with
      | Lt => let '(i, ok) := search sh' key in (S i, ok)
      | Eq => (0%nat, true)
      | Gt => (0%nat, false)
      end
  end.

Definition shard_find (sh : surrogateShard) (key : bytes) : option ptr :=
  if len sh <=? 8 then option_map se_ban (List.find (fun e => beq (se_key e) key) sh)
  else let '(i, ok) := search sh key in
       if ok then option_map se_ban (sh !! i) else None.

(** ** The surrogate table as a map *)

Lemma bytes_cmp_lt_trans (a b c : bytes) : bytes_cmp a b = Lt -> bytes_cmp b c = Lt -> bytes_cmp a c = Lt.
Proof.
  intros H1 H2. pose proof (bytes_leb_trans a b c) as Ht. unfold bytes_leb in Ht.
  rewrite H1, H2 in Ht. destruct (bytes_cmp a c) eqn:E; [|done|by discriminate Ht].
  apply bytes_cmp_eq in E as ->. rewrite bytes_cmp_antisym, H1 in H2. done.
Qed.

Abbreviation sorted_shard := (StronglySorted (fun a b => bytes_cmp (se_key a) (se_key b) = Lt)).

(** What a shard maps a key to. *)
Definition shard_lookup (sh : surrogateShard) (key : bytes) : option ptr :=
  option_map se_ban (List.find (fun e => beq (se_key e) key) sh).

Lemma find_cons_key (e : surrogateEntry) (sh : surrogateShard) (key : bytes) :
  shard_lookup (e :: sh) key = if decide (se_key e = key) then Some (se_ban e) else shard_lookup sh key.
Proof.
  unfold shard_lookup. simpl. destruct (beq (se_key e) key) eqn:E.
  - apply beq_eq in E. by rewrite decide_True.
  - apply beq_neq in E. by rewrite decide_False.
Qed.

Lemma shard_lookup_above (sh : surrogateShard) (key : bytes) :
  Forall (fun e => bytes_cmp key (se_key e) = Lt) sh -> shard_lookup sh key = None.
Proof.
  induction 1 as [|e sh He _ IH]; [done|]. rewrite find_cons_key.
  destruct (decide _) as [E|]; [|done]. by rewrite E, bytes_cmp_refl in He.
Qed.

(** The two ways of searching a shard agree with the lookup. *)
Lemma search_lookup (sh : surrogateShard) (key : bytes) :
  sorted_shard sh ->
  (let '(i, ok) := search sh key in if ok then option_map se_ban (sh !! i) else None) = shard_lookup sh key.
Proof.
  induction 1 as [|e sh Hs IH Hall]; [done|]. rewrite find_cons_key. simpl.
  destruct (bytes_cmp (se_key e) key) eqn:E.
  - apply bytes_cmp_eq in E. by rewrite decide_True.
  - rewrite decide_False by (intros He; by rewrite He, bytes_cmp_refl in E).
    rewrite <- IH. by destruct (search sh key) as [i []].
  - rewrite decide_False by (intros He; by rewrite He, bytes_cmp_refl in E).
    symmetry. apply shard_lookup_above. eapply Forall_impl; [exact Hall|].
    intros a Ha. eapply bytes_cmp_lt_trans; [|exact Ha]. by rewrite bytes_cmp_antisym, E.
Qed.

Lemma shard_find_lookup (sh : surrogateShard) (key : bytes) :
  sorted_shard sh -> shard_find sh key = shard_lookup sh key.
Proof. intros H. unfold shard_find. case_tests; [done|by apply search_lookup]. Qed.

(** Inserting at the searched position. *)
Lemma insert_at_search (sh : surrogateShard) (key : bytes) (p : ptr) :
  sorted_shard sh -> shard_lookup sh key = None ->
  sorted_shard (take (search sh key).1 sh ++ MkSurrogate p key :: drop (search sh key).1 sh) /\
  forall k, shard_lookup (take (search sh key).1 sh ++ MkSurrogate p key :: drop (search sh key).1 sh) k
            = if decide (k = key) then Some p else shard_lookup sh k.
Proof.
  assert (forall (sh : surrogateShard) k,
    shard_lookup (MkSurrogate p key :: sh) k = if decide (k = key) then Some p else shard_lookup sh k) as Hhd.
  { intros ? k. rewrite find_cons_key. simpl. by destruct (decide (key = k)), (decide (k = key)); subst. }
  induction 1 as [|e sh Hs IH Hall]; [intros _; simpl; split; [by repeat constructor|intros; apply Hhd]|].
  rewrite find_cons_key. destruct (decide (se_key e = key)) as [|Hne]; [done|]. intros Hn. simpl.
  destruct (bytes_cmp (se_key e) key) eqn:E.
  - by apply bytes_cmp_eq in E.
  - destruct (IH Hn) as [IH1 IH2]. destruct (search sh key) as [i ok]. simpl in *. split.
    + constructor; [done|]. rewrite <- (take_drop i sh), Forall_app in Hall. destruct Hall as [H1 H2].
      apply Forall_app. split; [done|]. by constructor.
    + intros k. rewrite !find_cons_key, IH2.
      destruct (decide (se_key e = k)), (decide (k = key)); congruence.
  - simpl. split; [|intros; apply Hhd].
    assert (bytes_cmp key (se_key e) = Lt) as Hlt by by rewrite bytes_cmp_antisym, E.
    constructor; [by constructor|]. constructor; [done|].
    eapply Forall_impl; [exact Hall|]. intros a Ha. by eapply bytes_cmp_lt_trans.
Qed.

(** Deleting the searched position. *)
Lemma delete_at_search (sh : surrogateShard) (key : bytes) :
  sorted_shard sh -> (search sh key).2 = true ->
  sorted_shard (take (search sh key).1 sh ++ drop ((search sh key).1 + 1) sh) /\
  forall k, shard_lookup (take (search sh key).1 sh ++ drop ((search sh key).1 + 1) sh) k
            = if decide (k = key) then None else shard_lookup sh k.
Proof.
  induction 1 as [|e sh Hs IH Hall]; [done|]. simpl.
  destruct (bytes_cmp (se_key e) key) eqn:E; [| |done].
  - apply bytes_cmp_eq in E as <-. intros _. simpl. split; [done|]. intros k. rewrite find_cons_key.
    destruct (decide (k = se_key e)) as [->|Hne]; [|by rewrite decide_False by congruence].
    by apply shard_lookup_above.
  - destruct (search sh key) as [i ok] eqn:Es. simpl in *. intros Hok. destruct (IH Hok) as [IH1 IH2]. split.
    + constructor; [done|]. apply Forall_app. split; [by apply Forall_take|by apply Forall_drop].
    + intros k. rewrite !find_cons_key, IH2.
      destruct (decide (se_key e = k)) as [Hk|Hk], (decide (k = key)) as [He|He]; try done.
      by rewrite Hk, He, bytes_cmp_refl in E.
Qed.

Section Surrogates.
(** [maphash.String(surrogateSetSeed, key)] *)
Context (shard_hash : bytes -> Z).

(** The number of shards; doubling stops within 64 rounds. *)
Fixpoint table_size (fuel : nat) (n capacity : Z) : Z :=
  match fuel with
  | O => n
  | S fuel => if n <? Z.quot capacity 2 then table_size fuel (Z.shiftl n 1) capacity else n
  end.
Definition surrogateSetMinShards : Z := 1024.

Record surrogateTable : Type := MkTable { shards : list surrogateShard; mask : Z }.
Definition newSurrogateTable (capacity : Z) : surrogateTable :=
  let n := table_size 64 surrogateSetMinShards capacity in
  {| shards := replicate (Z.to_nat n) []; mask := n - 1 |}.

(** [t.shard(key)]: the index of the shard; an empty shard stands for a nil
    pointer. *)
Definition shard_index (t : surrogateTable) (key : bytes) : nat := Z.to_nat (Z.land (shard_hash key) (mask t)).
Definition load (t : surrogateTable) (key : bytes) : surrogateShard := default [] (shards t !! shard_index t key).
Definition store (t : surrogateTable) (key : bytes) (sh : surrogateShard) : surrogateTable :=
  {| t with shards := <[shard_index t key := sh]> (shards t) |}.

Definition surr_put (s : option surrogateTable) (key : bytes) (ban : ptr) (capacity : Z) : option surrogateTable :=
  let t := match s with Some t => t | None => newSurrogateTable capacity end in
  let old := load t key in
  let '(i, _) := search old key in
  Some (store t key (take i old ++ [MkSurrogate ban key] ++ drop i old)).

Definition surr_remove (s : option surrogateTable) (key : bytes) (ban : ptr) : option surrogateTable :=
  match s with
  | None => None
  | Some t =>
      let old := load t key in
      let '(i, ok) := search old key in
      if negb ok || negb (bool_decide (option_map se_ban (old !! i) = Some ban)) then s
      else if len old =? 1 then Some (store t key [])
      else Some (store t key (take i old ++ drop (i + 1) old))
  end.

Definition surr_matches (bans : gmap ptr activeBan) (s : option surrogateTable) (obj : Object.t) : bool :=
  if len (Object.SurrogateKeys obj) =? 0 then false
  else match s with
  | None => false
  | Some t =>
      existsb (fun k => match shard_find (load t k) k with
                        | Some p => match bans !! p with
                                    | Some b => subjectToNanos obj (exemptNanos b)
                                    | None => false
                                    end
                        | None => false
                        end) (Object.SurrogateKeys obj)
  end.

(** ** The ban list *)

Record banListState : Type := MkBanList {
  bans : gmap ptr activeBan;
  next_ptr : ptr;
  snap : option banSnapshot;
  index : gmap banPattern ptr;
  surr : option surrogateTable;
  blist : list ptr;
  rest : list ptr;
  ttl : Duration;
  capacity : Z;
  dirty : bool;
}.

Definition NewBanList (d : Duration) (cap : Z) : banListState :=
  {| bans := ∅; next_ptr := 1; snap := None; index := ∅; surr := None; blist := []; rest := [];
     ttl := d; capacity := cap; dirty := false |}.

Definition ttlOrDefault (b : banListState) : Duration := if ttl b <=? 0 then DefaultBanTTL else ttl b.
Definition capOrDefault (b : banListState) : Z := if capacity b <=? 0 then banListCap else capacity b.
Definition setTTL (b : banListState) (d : Duration) : banListState := {| b with ttl := d |}.
Definition currentTTL (b : banListState) : Duration := ttl b.
Definition bans_len (b : banListState) : Z := len (blist b).

(** [slices.DeleteFunc] *)
Definition delete_func (p : ptr -> bool) (l : list ptr) : list ptr := List.filter (fun x => negb (p x)) l.

(** With an empty list the code would panic; the callers check. *)
Definition evictHeadLocked (b : banListState) : banListState :=
  match blist b with
  | [] => b
  | p :: l =>
      match bans b !! p with
      | None => b
      | Some ban =>
          let b := {| b with blist := l; index := delete (pattern ban) (index b) |} in
          if surrogate ban then {| b with surr := surr_remove (surr b) (surrogateKey (pattern ban)) p |}
          else
            let r := match rest b with
                     | q :: r => if bool_decide (q = p) then r else delete_func (fun x => bool_decide (x = p)) (rest b)
                     | [] => delete_func (fun x => bool_decide (x = p)) (rest b)
                     end in
            {| b with rest := r; dirty := true |}
      end
  end.

Definition created_at (b : banListState) (p : ptr) : Time :=
  match bans b !! p with Some ban => created ban | None => zero_time end.

(** Each round drops the head: the length of the list is enough fuel. *)
Fixpoint pop_expired (fuel : nat) (now : Time) (b : banListState) : banListState :=
  match fuel, blist b with
  | S fuel, p :: _ =>
      if ttlOrDefault b <=? t_sub now (created_at b p) then pop_expired fuel now (evictHeadLocked b) else b
  | _, _ => b
  end.
Definition popExpiredHeadLocked (b : banListState) (now : Time) : banListState :=
  pop_expired (length (blist b)) now b.

Fixpoint evict_to_cap (fuel : nat) (b : banListState) : banListState :=
  match fuel with
  | O => b
  | S fuel => if capOrDefault b <=? len (blist b) then evict_to_cap fuel (evictHeadLocked b) else b
  end.

Definition register (b : banListState) (expr : BanExpr) (pr : banPredicate) (createdAt now : Time) : banListState :=
  let pat := patternOf expr in
  let b := popExpiredHeadLocked b now in
  match index b !! pat with
  | Some p =>
      match bans b !! p with
      | Some ban =>
          let ban' := setExemptAfter {| ban with created := createdAt |} createdAt in
          let b := {| b with bans := <[p := ban']> (bans b) |} in
          if negb (surrogate ban) then {| b with dirty := true |} else b
      | None => b
      end
  | None =>
      let b := evict_to_cap (length (blist b)) b in
      let ban := setExemptAfter
                   {| pred := pr; created := createdAt; pattern := pat; exemptNanos := 0;
                      surrogate := match classifyBan pat with banClassLiteralSurrogate => true | _ => false end |}
                   createdAt in
      let p := next_ptr b in
      let b := {| b with bans := <[p := ban]> (bans b); next_ptr := Pos.succ p;
                         index := <[pat := p]> (index b); blist := blist b ++ [p] |} in
      if surrogate ban
      then {| b with surr := surr_put (surr b) (surrogateKey pat) p (capOrDefault b) |}
      else {| b with rest := rest b ++ [p]; dirty := true |}
  end.

(** The bans behind a list of pointers. *)
Definition deref (b : banListState) (l : list ptr) : list activeBan := omap (fun p => bans b !! p) l.

Definition rebuildLocked (b : banListState) (now : Time) : banListState :=
  {| b with snap := Some (compileBanSnapshot (deref b (rest b)) now (ttlOrDefault b)); dirty := false |}.

(** The loop of [pruneExpired]: an expired ban leaves every view. *)
Definition prune_one (t : Duration) (now : Time) (st : banListState * list ptr * bool) (p : ptr)
  : banListState * list ptr * bool :=
  let '(b, kept, restChanged) := st in
  match bans b !! p with
  | None => st
  | Some ban =>
      if t_sub now (created ban) <? t then (b, kept ++ [p], restChanged)
      else
        let b := {| b with index := delete (pattern ban) (index b) |} in
        if surrogate ban
        then ({| b with surr := surr_remove (surr b) (surrogateKey (pattern ban)) p |}, kept, restChanged)
        else (b, kept, true)
  end.

Definition pruneExpired (b : banListState) (now : Time) : banListState :=
  let '(b, kept, restChanged) := foldl (prune_one (ttlOrDefault b) now) (b, [], false) (blist b) in
  let b := {| b with blist := kept |} in
  let b := if restChanged
           then {| b with rest := delete_func
                     (fun r => match bans b !! r with
                               | Some ban => negb (bool_decide (index b !! pattern ban = Some r))
                               | None => true
                               end) (rest b) |}
           else b in
  rebuildLocked b now.

(** [snapshot]: [won] is the outcome of [TryLock]. *)
Definition snapshot (b : banListState) (won : bool) (now : Time) : banListState * banSnapshot :=
  match snap b, dirty b with
  | Some s, false => (b, s)
  | _, _ =>
      let b := if won && (dirty b || match snap b with None => true | _ => false end)
               then rebuildLocked b now else b in
      (b, default emptyBanSnapshot (snap b))
  end.

Definition matches (b : banListState) (obj : Object.t) (won : bool) (now : Time) : banListState * bool :=
  let '(b, s) := snapshot b won now in
  (b, snap_matches s obj || surr_matches (bans b) (surr b) obj).

Record BanDescriptor : Type := MkDescriptor {
  bd_CreatedAt : Time; bd_ExpiresAt : Time; bd_HostRegex : bytes; bd_PathRegex : bytes; bd_SurrogateKey : bytes }.

Definition descriptors (b : banListState) (obj : Object.t) (now : Time) : list BanDescriptor :=
  let t := ttlOrDefault b in
  omap (fun p =>
    match bans b !! p with
    | None => None
    | Some ban =>
        if t <=? t_sub now (created ban) then None
        else if negb (subjectTo obj (exemptAfter ban)) || negb (pred ban obj) then None
        else Some (MkDescriptor (created ban) (t_add (created ban) t) (hostRegex (pattern ban))
                     (pathRegex (pattern ban)) (surrogateKey (pattern ban)))
    end) (blist b).

(** [registerBan] (hot.go): a zero CreatedAt becomes the current time;
    [now1] and [now2] are its first and the list's reading of the clock. *)
Definition registerBan (b : banListState) (expr : BanExpr) (pr : banPredicate) (now1 now2 : Time) : banListState :=
  register b expr pr (if is_zero (CreatedAt expr) then now1 else CreatedAt expr) now2.
(** *** The table *)

Record table_wf (t : surrogateTable) : Prop := {
  wf_size : exists k : nat, len (shards t) = 2 ^ Z.of_nat k;
  wf_mask : mask t = len (shards t) - 1;
  wf_sorted : Forall sorted_shard (shards t);
}.

Definition surr_wf (s : option surrogateTable) : Prop := match s with Some t => table_wf t | None => True end.

Definition surr_lookup (s : option surrogateTable) (key : bytes) : option ptr :=
  match s with Some t => shard_lookup (load t key) key | None => None end.

Lemma table_size_pow (fuel k : nat) (cap : Z) :
  exists j : nat, table_size fuel (2 ^ Z.of_nat k) cap = 2 ^ Z.of_nat j.
Proof.
  revert k. induction fuel as [|fuel IH]; intros k; simpl; [by exists k|].
  case_tests; [|by exists k]. rewrite Z.shiftl_mul_pow2 by lia.
  replace (2 ^ Z.of_nat k * 2 ^ 1) with (2 ^ Z.of_nat (S k)) by (rewrite Nat2Z.inj_succ, Z.pow_succ_r; lia).
  apply IH.
Qed.

(** The fuel is enough: the doubling loop ends. *)
Lemma table_size_ends (fuel k : nat) (cap : Z) :
  Z.quot cap 2 <= 2 ^ (Z.of_nat k + Z.of_nat fuel) ->
  Z.quot cap 2 <= table_size fuel (2 ^ Z.of_nat k) cap.
Proof.
  revert k. induction fuel as [|fuel IH]; intros k Hc; simpl; [by rewrite Z.add_0_r in Hc|].
  case_tests; bool_cases; [|lia]. rewrite Z.shiftl_mul_pow2 by lia.
  replace (2 ^ Z.of_nat k * 2 ^ 1) with (2 ^ Z.of_nat (S k)) by (rewrite Nat2Z.inj_succ, Z.pow_succ_r; lia).
  apply IH. rewrite Nat2Z.inj_succ. by replace (Z.succ (Z.of_nat k) + Z.of_nat fuel)
    with (Z.of_nat k + Z.of_nat (S fuel)) by lia.
Qed.

Lemma newSurrogateTable_wf (cap : Z) : table_wf (newSurrogateTable cap).
Proof.
  destruct (table_size_pow 64 10 cap) as [j Hj]. change (2 ^ Z.of_nat 10) with surrogateSetMinShards in Hj.
  pose proof (Z.pow_pos_nonneg 2 (Z.of_nat j)).
  unfold newSurrogateTable. rewrite Hj.
  split; cbn [shards mask]; unfold len; rewrite ?length_replicate, ?Z2Nat.id by lia.
  - by exists j.
  - done.
  - apply Forall_replicate. constructor.
Qed.

Lemma shard_index_lt (t : surrogateTable) (key : bytes) :
  table_wf t -> (shard_index t key < length (shards t))%nat.
Proof.
  intros [[k Hk] Hm _]. unfold shard_index. rewrite Hm, Hk.
  replace (2 ^ Z.of_nat k - 1) with (Z.ones (Z.of_nat k)) by (rewrite Z.ones_equiv; lia).
  rewrite Z.land_ones by lia.
  pose proof (Z.mod_pos_bound (shard_hash key) (2 ^ Z.of_nat k) ltac:(lia)).
  unfold len in Hk. lia.
Qed.

Lemma load_sorted (t : surrogateTable) (key : bytes) : table_wf t -> sorted_shard (load t key).
Proof.
  intros [_ _ Hs]. unfold load. destruct (shards t !! _) as [sh|] eqn:E; simpl; [|constructor].
  by eapply Forall_lookup_1.
Qed.

(** Replacing the shard of [key] by one that differs at [key] only. *)
Lemma store_lookup (t : surrogateTable) (key : bytes) (sh : surrogateShard) (v : option ptr) :
  table_wf t -> sorted_shard sh ->
  (forall k, shard_lookup sh k = if decide (k = key) then v else shard_lookup (load t key) k) ->
  table_wf (store t key sh) /\
  forall k, surr_lookup (Some (store t key sh)) k = if decide (k = key) then v else surr_lookup (Some t) k.
Proof.
  intros Hwf Hs Hsh. pose proof (shard_index_lt t key Hwf) as Hlt. split.
  - destruct Hwf as [Hn Hm Hf]. split; unfold store; cbn [shards mask]; unfold len in *; rewrite ?length_insert; auto.
    by apply Forall_insert.
  - intros k. unfold surr_lookup, store, load at 1.
    change (shard_index _ k) with (shard_index t k). cbn [shards].
    destruct (decide (shard_index t k = shard_index t key)) as [E|E].
    + rewrite E, list_lookup_insert_eq by done. simpl. rewrite Hsh. unfold load. by rewrite E.
    + rewrite list_lookup_insert_ne by done. rewrite decide_False by (intros ->; done). done.
Qed.

Lemma surr_put_spec (s : option surrogateTable) (key : bytes) (p : ptr) (cap : Z) :
  surr_wf s -> surr_lookup s key = None ->
  surr_wf (surr_put s key p cap) /\
  forall k, surr_lookup (surr_put s key p cap) k = if decide (k = key) then Some p else surr_lookup s k.
Proof.
  intros Hwf Hn. unfold surr_put.
  set (t := match s with Some t => t | None => newSurrogateTable cap end).
  assert (table_wf t) as Ht by (destruct s; [done|apply newSurrogateTable_wf]).
  assert (forall k, surr_lookup (Some t) k = surr_lookup s k) as Hl.
  { intros k. destruct s; [done|]. subst t. cbn [surr_lookup]. unfold load, newSurrogateTable. cbn [shards].
    destruct (replicate _ _ !! _) as [sh|] eqn:E; [|done]. by apply lookup_replicate in E as [-> _]. }
  rewrite <- Hl in Hn. clearbody t.
  pose proof (insert_at_search (load t key) key p (load_sorted t key Ht) Hn) as [H1 H2].
  destruct (search (load t key) key) as [i ok]. simpl in H1, H2 |- *.
  destruct (store_lookup t key _ (Some p) Ht H1 H2) as [H3 H4]. split; [done|].
  intros k. rewrite <- Hl. apply H4.
Qed.

Lemma surr_remove_spec (s : option surrogateTable) (key : bytes) (p : ptr) :
  surr_wf s ->
  surr_wf (surr_remove s key p) /\
  forall k, surr_lookup (surr_remove s key p) k
            = if decide (k = key /\ surr_lookup s key = Some p) then None else surr_lookup s k.
Proof.
  destruct s as [t|]; [|intros _; split; [done|intros; by case_decide]]. intros Ht.
  cbn [surr_remove]. pose proof (load_sorted t key Ht) as Hs.
  pose proof (search_lookup _ key Hs) as Hl.
  pose proof (delete_at_search (load t key) key Hs) as Hd.
  assert (surr_lookup (Some t) key = shard_lookup (load t key) key) as Hk by done.
  destruct (search (load t key) key) as [i ok] eqn:Es. cbn [fst snd] in Hd.
  destruct ok; cbn [negb orb]; [|].
  2:{ split; [done|]. intros k. rewrite decide_False; [done|]. intros [_ H]. congruence. }
  destruct (bool_decide _) eqn:Eb; cbn [negb].
  2:{ apply bool_decide_eq_false in Eb. split; [done|]. intros k. rewrite decide_False; [done|].
      intros [_ H]. congruence. }
  apply bool_decide_eq_true in Eb. destruct (Hd eq_refl) as [H1 H2].
  assert (forall sh', sorted_shard sh' ->
    (forall k, shard_lookup sh' k = if decide (k = key) then None else shard_lookup (load t key) k) ->
    surr_wf (Some (store t key sh')) /\
    forall k, surr_lookup (Some (store t key sh')) k
      = if decide (k = key /\ surr_lookup (Some t) key = Some p) then None else surr_lookup (Some t) k) as Hgo.
  { intros sh' Hs' Hsh'. destruct (store_lookup t key sh' None Ht Hs' Hsh') as [H3 H4]. split; [done|].
    intros k. rewrite H4. destruct (decide (k = key)) as [->|Hne].
    - rewrite decide_True; [done|]. split; [done|]. congruence.
    - by rewrite decide_False by (intros [? _]; done). }
  destruct (len (load t key) =? 1) eqn:E1; [|by apply Hgo].
  apply Z.eqb_eq in E1. destruct (load t key) as [|e [|??]]; try (unfold len in E1; simpl in E1; lia).
  destruct i as [|i]; [|done]. apply Hgo; [constructor|]. intros k. rewrite <- H2. done.
Qed.
(** ** The views of the list agree *)

Definition is_surrogate (pat : banPattern) : bool :=
  match classifyBan pat with banClassLiteralSurrogate => true | _ => false end.

(** A ban record as the code keeps it. *)
Definition ban_ok (ban : activeBan) : Prop :=
  surrogate ban = is_surrogate (pattern ban) /\
  exemptNanos ban = (if is_zero (created ban) then noExemption else unix_nano (created ban)).

(** [S] lists the registered bans: the index and the surrogate set hold
    exactly those. *)
Record views (b : banListState) (S : list ptr) : Prop := {
  v_ban : forall p, p ∈ S -> exists ban, bans b !! p = Some ban /\ ban_ok ban;
  v_fresh : forall p, p ∈ S -> (p < next_ptr b)%positive;
  v_nodup : NoDup S;
  v_index : forall pat p, index b !! pat = Some p <->
              p ∈ S /\ exists ban, bans b !! p = Some ban /\ pattern ban = pat;
  v_wf : surr_wf (surr b);
  v_surr : forall key p, surr_lookup (surr b) key = Some p <->
             p ∈ S /\ exists ban, bans b !! p = Some ban /\ surrogate ban = true /\ surrogateKey (pattern ban) = key;
}.

Definition non_surrogate (b : banListState) (p : ptr) : bool :=
  match bans b !! p with Some ban => negb (surrogate ban) | None => false end.

Section Invariant.
(** What is known of the instant and the TTL of the last compilation. *)
Context (Q : Time -> Duration -> Prop).

Record bl_inv (b : banListState) : Prop := {
  inv_views : views b (blist b);
  inv_rest : rest b = List.filter (non_surrogate b) (blist b);
  inv_cap : 0 <= len (blist b) <= capOrDefault b;
  inv_snap : dirty b = false -> forall s, snap b = Some s ->
               exists now d, Q now d /\ s = compileBanSnapshot (deref b (rest b)) now d;
  inv_none : dirty b = false -> snap b = None -> rest b = [];
}.

(** Removing one ban from the index and the surrogate set. *)
Definition drop_views (b : banListState) (p : ptr) (ban : activeBan) : banListState :=
  {| b with index := delete (pattern ban) (index b);
            surr := if surrogate ban then surr_remove (surr b) (surrogateKey (pattern ban)) p else surr b |}.

Lemma views_drop (b : banListState) (l1 l2 : list ptr) (p : ptr) (ban : activeBan) :
  views b (l1 ++ p :: l2) -> bans b !! p = Some ban -> views (drop_views b p ban) (l1 ++ l2).
Proof.
  intros [Hb Hf Hn Hi Hwf Hs] Hp.
  assert (forall q, q ∈ l1 ++ l2 <-> q ∈ l1 ++ p :: l2 /\ q <> p) as Hel.
  { intros q. apply NoDup_app in Hn as (Hn1 & Hd & Hn2). apply NoDup_cons in Hn2 as [Hp2 Hn2].
    rewrite !elem_of_app, elem_of_cons. split; [|naive_solver].
    intros [H|H]; (split; [by auto|intros ->]); [|done]. apply (Hd p H). by left. }
  split; unfold drop_views; cbn [bans next_ptr index surr].
  - intros q [Hq _]%Hel. by apply Hb.
  - intros q [Hq _]%Hel. by apply Hf.
  - apply NoDup_app in Hn as (Hn1 & Hd & Hn2). apply NoDup_cons in Hn2 as [Hp2 Hn2].
    apply NoDup_app. split_and!; [done| |done]. intros x Hx Hx2. apply (Hd x Hx). by right.
  - intros pat q. rewrite lookup_delete_Some, Hi, Hel. split.
    + intros (Hne & Hq & ban' & Hq' & Hpat). split; [|by exists ban']. split; [done|].
      intros ->. rewrite Hp in Hq'. congruence.
    + intros ((Hq & Hne) & ban' & Hq' & Hpat). split; [|split; [done|by exists ban']].
      intros E. assert (index b !! pat = Some p) as H1.
      { apply Hi. split; [by apply elem_of_app; right; left|by exists ban]. }
      assert (index b !! pat = Some q) as H2 by (apply Hi; split; [done|by exists ban']). congruence.
  - destruct (surrogate ban); [|done]. by apply surr_remove_spec.
  - intros key q. destruct (surrogate ban) eqn:Esur.
    + destruct (surr_remove_spec (surr b) (surrogateKey (pattern ban)) p Hwf) as [_ Hr]. rewrite Hr.
      assert (surr_lookup (surr b) (surrogateKey (pattern ban)) = Some p) as Hk.
      { apply Hs. split; [by apply elem_of_app; right; left|by exists ban]. }
      destruct (decide (key = surrogateKey (pattern ban))) as [->|Hd].
      * rewrite decide_True by done. split; [done|]. intros ((Hq & Hne)%Hel & ban' & Hq').
        assert (surr_lookup (surr b) (surrogateKey (pattern ban)) = Some q) by (apply Hs; eauto). congruence.
      * rewrite decide_False by (by intros [? _]). rewrite Hs, Hel. split; [|naive_solver].
        intros [Hq Hex]. split; [|done]. split; [done|].
        intros ->. apply Hd. destruct Hex as (ban' & Hq' & _ & Hkey). congruence.
    + rewrite Hs, Hel. split; [|naive_solver]. intros [Hq (ban' & Hq' & Hsur & Hkey)]. split; [|eauto].
      split; [done|]. intros ->. congruence.
Qed.

(** Changing the fields the views do not mention. *)
Lemma views_ext (b b' : banListState) (S : list ptr) :
  bans b' = bans b -> next_ptr b' = next_ptr b -> index b' = index b -> surr b' = surr b ->
  views b S -> views b' S.
Proof. intros E1 E2 E3 E4 []. by split; rewrite ?E1, ?E2, ?E3, ?E4. Qed.

Lemma views_lookup (b : banListState) (S : list ptr) (p : ptr) :
  views b S -> p ∈ S -> exists ban, bans b !! p = Some ban /\ ban_ok ban.
Proof. intros H. apply (v_ban _ _ H). Qed.

Lemma evictHead_fields (b : banListState) (p : ptr) (l : list ptr) (ban : activeBan) :
  blist b = p :: l -> bans b !! p = Some ban ->
  let b' := evictHeadLocked b in
  bans b' = bans b /\ next_ptr b' = next_ptr b /\ blist b' = l /\ ttl b' = ttl b /\ capacity b' = capacity b /\
  index b' = index (drop_views b p ban) /\ surr b' = surr (drop_views b p ban).
Proof.
  intros Hl Hp. unfold evictHeadLocked. rewrite Hl, Hp. cbn [index surr drop_views].
  by destruct (surrogate ban).
Qed.

Lemma delete_func_notin (p : ptr) (l : list ptr) :
  p ∉ l -> delete_func (fun x => bool_decide (x = p)) l = l.
Proof.
  unfold delete_func. induction l as [|x l IH]; [done|]. intros [Hx Hl]%not_elem_of_cons. simpl.
  rewrite bool_decide_eq_false_2 by congruence. simpl. by rewrite IH.
Qed.

Lemma evictHead_inv (b : banListState) (p : ptr) (l : list ptr) :
  bl_inv b -> blist b = p :: l -> bl_inv (evictHeadLocked b).
Proof.
  intros [Hv Hr Hc Hs Hz] Hl. rewrite Hl in Hv.
  destruct (views_lookup _ _ p Hv) as (ban & Hp & Hok); [by left|].
  destruct (evictHead_fields b p l ban Hl Hp) as (E1 & E2 & E3 & E4 & E5 & E6 & E7).
  assert (rest b = if surrogate ban then List.filter (non_surrogate b) l
                   else p :: List.filter (non_surrogate b) l) as Hrest.
  { rewrite Hr, Hl. simpl. unfold non_surrogate at 1. rewrite Hp. by destruct (surrogate ban). }
  split.
  - rewrite E3. apply (views_ext (drop_views b p ban)); try done.
    by apply (views_drop b [] l p ban).
  - rewrite E3. unfold non_surrogate. rewrite E1. fold (non_surrogate b).
    unfold evictHeadLocked. rewrite Hl, Hp. cbn [rest]. rewrite Hrest.
    destruct (surrogate ban); cbn [rest]; [done|]. by rewrite bool_decide_eq_true_2.
  - rewrite E3. unfold capOrDefault in *. rewrite E5. rewrite Hl in Hc. unfold len in *. simpl in Hc. lia.
  - revert Hs. unfold evictHeadLocked, deref. rewrite Hl, Hp. cbn [rest].
    destruct (surrogate ban); by cbn.
  - revert Hz. unfold evictHeadLocked. rewrite Hl, Hp. by destruct (surrogate ban); cbn.
Qed.
(** ** What the list promises: an ordered list of patterns with their times *)

Abbreviation banSpec := (list (banPattern * Time)).

Fixpoint spec_pop (d : Duration) (now : Time) (l : banSpec) : banSpec :=
  match l with
  | e :: l' => if d <=? t_sub now e.2 then spec_pop d now l' else l
  | [] => []
  end.
Definition spec_known (pat : banPattern) (l : banSpec) : bool := existsb (fun e => bool_decide (e.1 = pat)) l.

(** A re-issued pattern takes the new time in place; a new one is appended,
    and the oldest make room. *)
Definition spec_register (d : Duration) (cap : Z) (pat : banPattern) (c now : Time) (l : banSpec) : banSpec :=
  let l := spec_pop d now l in
  if spec_known pat l then map (fun e => if bool_decide (e.1 = pat) then (pat, c) else e) l
  else drop (length l + 1 - Z.to_nat cap) l ++ [(pat, c)].
Definition spec_prune (d : Duration) (now : Time) (l : banSpec) : banSpec :=
  List.filter (fun e => t_sub now e.2 <? d) l.

(** The list behind a state. *)
Definition abs_bans (b : banListState) : banSpec :=
  map (fun ban => (pattern ban, created ban)) (deref b (blist b)).

Lemma capOrDefault_pos (b : banListState) : 1 <= capOrDefault b.
Proof. unfold capOrDefault, banListCap. case_tests; bool_cases; lia. Qed.

Lemma deref_unfold (b : banListState) (p : ptr) (l : list ptr) :
  deref b (p :: l) = match bans b !! p with Some ban => ban :: deref b l | None => deref b l end.
Proof. done. Qed.

Lemma deref_cons (b : banListState) (p : ptr) (l : list ptr) (ban : activeBan) :
  bans b !! p = Some ban -> deref b (p :: l) = ban :: deref b l.
Proof. intros Hp. unfold deref. simpl. by rewrite Hp. Qed.

Lemma deref_length (b : banListState) (l S : list ptr) :
  views b S -> (forall p, p ∈ l -> p ∈ S) -> length (deref b l) = length l.
Proof.
  intros Hv. induction l as [|p l IH]; intros Hin; [done|].
  destruct (views_lookup _ _ p Hv) as (ban & Hp & _); [apply Hin; by left|].
  rewrite (deref_cons _ _ _ _ Hp). simpl. rewrite IH; [done|]. intros q Hq. apply Hin. by right.
Qed.

Lemma abs_length (b : banListState) : bl_inv b -> length (abs_bans b) = length (blist b).
Proof.
  intros [Hv _ _ _ _]. unfold abs_bans. rewrite length_map. by apply (deref_length b _ (blist b)).
Qed.

Lemma head_ban (b : banListState) (p : ptr) (l : list ptr) :
  bl_inv b -> blist b = p :: l -> exists ban, bans b !! p = Some ban.
Proof.
  intros [Hv _ _ _ _] Hl. rewrite Hl in Hv. destruct (views_lookup _ _ p Hv) as (ban & Hp & _); [by left|]. by exists ban.
Qed.

Lemma evictHead_abs (b : banListState) (p : ptr) (l : list ptr) :
  bl_inv b -> blist b = p :: l -> abs_bans (evictHeadLocked b) = drop 1 (abs_bans b).
Proof.
  intros [Hv _ _ _ _] Hl. rewrite Hl in Hv. destruct (views_lookup _ _ p Hv) as (ban & Hp & _); [by left|].
  destruct (evictHead_fields b p l ban Hl Hp) as (E1 & _ & E3 & _).
  unfold abs_bans. rewrite Hl, E3, (deref_cons _ _ _ _ Hp). unfold deref. by rewrite E1.
Qed.

(** The parameters of the list do not change. *)
Definition same_params (b b' : banListState) : Prop := ttl b' = ttl b /\ capacity b' = capacity b.

Lemma evictHead_params (b : banListState) : same_params b (evictHeadLocked b).
Proof.
  unfold evictHeadLocked. destruct (blist b); [done|]. destruct (bans b !! _); [|done]. by case_tests.
Qed.

Lemma pop_expired_ok (fuel : nat) (now : Time) (b : banListState) :
  bl_inv b -> (length (blist b) <= fuel)%nat ->
  let b' := pop_expired fuel now b in
  bl_inv b' /\ same_params b b' /\ abs_bans b' = spec_pop (ttlOrDefault b) now (abs_bans b).
Proof.
  revert b. induction fuel as [|fuel IH]; intros b Hinv Hf; cbn [pop_expired].
  - destruct (blist b) as [|p l] eqn:Hl; [|simpl in Hf; lia]. split_and!; [done..|]. unfold abs_bans. by rewrite Hl.
  - destruct (blist b) as [|p l] eqn:Hl.
    + split_and!; [done..|]. unfold abs_bans. by rewrite Hl.
    + destruct (head_ban b p l Hinv Hl) as [ban Hp].
      assert (abs_bans b = (pattern ban, created ban) :: abs_bans (evictHeadLocked b)) as Habs.
      { rewrite (evictHead_abs b p l) by done. unfold abs_bans. by rewrite Hl, (deref_cons _ _ _ _ Hp). }
      rewrite Habs. cbn [spec_pop snd]. unfold created_at. rewrite Hp.
      destruct (_ <=? _) eqn:E; [|by rewrite <- Habs].
      destruct (evictHead_fields b p l ban Hl Hp) as (_ & _ & E3 & E4 & _).
      destruct (IH (evictHeadLocked b)) as (H1 & [H2 H2'] & H3).
      * by eapply evictHead_inv.
      * rewrite E3. simpl in Hf. lia.
      * destruct (evictHead_params b) as [P1 P2]. split_and!; [done| |].
        { split; congruence. }
        rewrite H3. unfold ttlOrDefault. by rewrite P1.
Qed.

Lemma evict_to_cap_ok (fuel : nat) (b : banListState) :
  bl_inv b -> (length (blist b) <= fuel)%nat ->
  let b' := evict_to_cap fuel b in
  bl_inv b' /\ same_params b b' /\ len (blist b') < capOrDefault b /\
  abs_bans b' = drop (length (abs_bans b) + 1 - Z.to_nat (capOrDefault b)) (abs_bans b).
Proof.
  revert b. induction fuel as [|fuel IH]; intros b Hinv Hf; cbn [evict_to_cap].
  - pose proof (capOrDefault_pos b). pose proof (abs_length b Hinv). split_and!; [done..| |].
    + unfold len. lia.
    + replace (length (abs_bans b) + 1 - _)%nat with 0%nat by lia. done.
  - pose proof (capOrDefault_pos b) as Hc. pose proof (abs_length b Hinv) as Ha.
    destruct (_ <=? _) eqn:E; bool_cases.
    2:{ split_and!; [done..|]. unfold len in E. replace (length (abs_bans b) + 1 - _)%nat with 0%nat by lia. done. }
    destruct (blist b) as [|p l] eqn:Hl; [unfold len in E; simpl in E; lia|].
    destruct (head_ban b p l Hinv Hl) as [ban Hp].
    destruct (evictHead_fields b p l ban Hl Hp) as (_ & _ & E3 & E4 & E5 & _).
    destruct (IH (evictHeadLocked b)) as (H1 & [H2 H2'] & H3 & H4).
    + by eapply evictHead_inv.
    + rewrite E3. simpl in Hf. lia.
    + assert (capOrDefault (evictHeadLocked b) = capOrDefault b) as Ecap by (unfold capOrDefault; by rewrite E5).
      rewrite Ecap in *. split_and!; [done|split; congruence|done|].
      rewrite H4, (evictHead_abs b p l) by done. rewrite drop_drop, length_drop. f_equal.
      unfold len in E. simpl in Ha, E. lia.
Qed.

(** *** Registration *)

Lemma setExemptAfter_ok (ban : activeBan) (t : Time) :
  surrogate ban = is_surrogate (pattern ban) -> created ban = t -> ban_ok (setExemptAfter ban t).
Proof. intros H <-. by split. Qed.

Lemma deref_ext (b b' : banListState) (l : list ptr) :
  (forall p, p ∈ l -> bans b' !! p = bans b !! p) -> deref b' l = deref b l.
Proof.
  induction l as [|p l IH]; intros H; [done|]. rewrite !deref_unfold, H by by left.
  rewrite IH; [done|]. intros q Hq. apply H. by right.
Qed.

Lemma filter_ext_in_list (f g : ptr -> bool) (l : list ptr) :
  (forall p, p ∈ l -> f p = g p) -> List.filter f l = List.filter g l.
Proof. intros H. apply List.filter_ext_in. intros p Hp. apply H. by apply list_elem_of_In. Qed.

Lemma spec_known_index (b : banListState) (pat : banPattern) :
  bl_inv b -> spec_known pat (abs_bans b) = match index b !! pat with Some _ => true | None => false end.
Proof.
  intros [Hv _ _ _ _]. unfold spec_known. apply Bool.eq_iff_eq_true. rewrite existsb_exists. split.
  - intros (e & (ban & <- & Hin)%in_map_iff & He%bool_decide_eq_true). simpl in He.
    apply list_elem_of_In in Hin. unfold deref in Hin. apply list_elem_of_omap in Hin as (p & Hp & Hban).
    assert (index b !! pat = Some p) as -> by (apply (v_index _ _ Hv); eauto). done.
  - destruct (index b !! pat) as [p|] eqn:E; [|done]. intros _.
    apply (v_index _ _ Hv) in E as (Hp & ban & Hban & Hpat).
    exists (pattern ban, created ban). split; [|by apply bool_decide_eq_true].
    apply in_map_iff. exists ban. split; [done|]. apply list_elem_of_In.
    apply list_elem_of_omap. by exists p.
Qed.

(** Moving the time of one registered ban. *)
Definition retime (b : banListState) (p : ptr) (ban : activeBan) (c : Time) : banListState :=
  let b := {| b with bans := <[p := setExemptAfter {| ban with created := c |} c]> (bans b) |} in
  if negb (surrogate ban) then {| b with dirty := true |} else b.

Lemma retime_views (b : banListState) (S : list ptr) (p : ptr) (ban : activeBan) (c : Time) :
  views b S -> p ∈ S -> bans b !! p = Some ban -> views (retime b p ban c) S.
Proof.
  intros [Hb Hf Hn Hi Hwf Hs] HpS Hp.
  destruct (Hb p HpS) as (ban0 & Hp0 & Hok). rewrite Hp in Hp0. injection Hp0 as <-.
  set (nb := setExemptAfter {| ban with created := c |} c).
  assert (bans (retime b p ban c) = <[p := nb]> (bans b) /\ next_ptr (retime b p ban c) = next_ptr b /\
          index (retime b p ban c) = index b /\ surr (retime b p ban c) = surr b) as (E1 & E2 & E3 & E4)
    by (unfold retime; by destruct (negb (surrogate ban))).
  assert (forall q (P : banPattern -> bool -> Prop),
    (exists x, <[p := nb]> (bans b) !! q = Some x /\ P (pattern x) (surrogate x)) <->
    (exists x, bans b !! q = Some x /\ P (pattern x) (surrogate x))) as Hex.
  { intros q P. destruct (decide (q = p)) as [->|].
    - rewrite lookup_insert_eq, Hp. split; intros (x & [= <-] & Hx); eexists; (split; [done|exact Hx]).
    - by rewrite lookup_insert_ne. }
  split; rewrite ?E1, ?E2, ?E3, ?E4; try done.
  - intros q Hq. destruct (decide (q = p)) as [->|]; [|rewrite lookup_insert_ne by done; by apply Hb].
    rewrite lookup_insert_eq. exists nb. split; [done|]. apply setExemptAfter_ok; [apply Hok|done].
  - intros pat q. rewrite Hi. by rewrite (Hex q (fun x _ => x = pat)).
  - intros key q. rewrite Hs. by rewrite (Hex q (fun x s => s = true /\ surrogateKey x = key)).
Qed.

Lemma retime_inv (b : banListState) (p : ptr) (ban : activeBan) (c : Time) :
  bl_inv b -> p ∈ blist b -> bans b !! p = Some ban ->
  bl_inv (retime b p ban c) /\
  abs_bans (retime b p ban c)
  = map (fun e => if bool_decide (e.1 = pattern ban) then (pattern ban, c) else e) (abs_bans b).
Proof.
  intros Hinv Hin Hp. pose proof Hinv as [Hv Hr Hc Hs Hz].
  set (nb := setExemptAfter {| ban with created := c |} c).
  assert (bans (retime b p ban c) = <[p := nb]> (bans b) /\ blist (retime b p ban c) = blist b /\
          rest (retime b p ban c) = rest b /\ capacity (retime b p ban c) = capacity b) as (E1 & E2 & E3 & E4)
    by (unfold retime; by destruct (negb (surrogate ban))).
  split; [split|].
  - rewrite E2. by apply retime_views.
  - rewrite E2, E3, Hr. apply filter_ext_in_list. intros q _. unfold non_surrogate. rewrite E1.
    destruct (decide (q = p)) as [->|]; [by rewrite lookup_insert_eq, Hp|by rewrite lookup_insert_ne].
  - rewrite E2. unfold capOrDefault in *. by rewrite E4.
  - rewrite E3. unfold retime. fold nb. destruct (surrogate ban) eqn:Esur; cbn [negb dirty snap]; [|done].
    intros Hd s Hsn. destruct (Hs Hd s Hsn) as (now & d & HQ & ->). exists now, d. split; [done|]. f_equal. symmetry.
    apply deref_ext. intros q Hq. cbn [bans]. apply lookup_insert_ne. intros <-.
    rewrite Hr in Hq. apply list_elem_of_In, filter_In in Hq as [_ Hq]. unfold non_surrogate in Hq.
    by rewrite Hp, Esur in Hq.
  - rewrite E3. unfold retime. by destruct (surrogate ban).
  - unfold abs_bans. rewrite E2.
    assert (forall q x, q ∈ blist b -> bans b !! q = Some x -> (pattern x = pattern ban <-> q = p)) as Hpat.
    { intros q x Hq Hx. split; [|intros ->; congruence]. intros E.
      assert (index b !! pattern ban = Some p) by (apply (v_index _ _ Hv); eauto).
      assert (index b !! pattern ban = Some q) by (apply (v_index _ _ Hv); eauto). congruence. }
    revert Hpat. clear -Hp E1. induction (blist b) as [|q l IH]; intros Hpat; [done|]. rewrite !deref_unfold, E1.
    destruct (decide (q = p)) as [->|Hne].
    + rewrite lookup_insert_eq, Hp. simpl. rewrite bool_decide_eq_true_2 by done.
      f_equal. apply IH. intros; apply Hpat; [by right|done].
    + rewrite lookup_insert_ne by done. destruct (bans b !! q) as [x|] eqn:Eq.
      * simpl. rewrite bool_decide_eq_false_2.
        { f_equal. apply IH. intros; apply Hpat; [by right|done]. }
        intros E. apply Hne. apply (Hpat q x); [by left|done..].
      * apply IH. intros; apply Hpat; [by right|done].
Qed.

(** Appending a ban with a new pattern. *)
Definition new_ban (pat : banPattern) (pr : banPredicate) (c : Time) : activeBan :=
  setExemptAfter {| pred := pr; created := c; pattern := pat; exemptNanos := 0; surrogate := is_surrogate pat |} c.

Definition add_ban (b : banListState) (ban : activeBan) : banListState :=
  let p := next_ptr b in
  let b := {| b with bans := <[p := ban]> (bans b); next_ptr := Pos.succ p;
                     index := <[pattern ban := p]> (index b); blist := blist b ++ [p] |} in
  if surrogate ban
  then {| b with surr := surr_put (surr b) (surrogateKey (pattern ban)) p (capOrDefault b) |}
  else {| b with rest := rest b ++ [p]; dirty := true |}.

Lemma register_cases (b : banListState) (expr : BanExpr) (pr : banPredicate) (c now : Time) :
  register b expr pr c now
  = let b := popExpiredHeadLocked b now in
    match index b !! patternOf expr with
    | Some p => match bans b !! p with Some ban => retime b p ban c | None => b end
    | None => add_ban (evict_to_cap (length (blist b)) b) (new_ban (patternOf expr) pr c)
    end.
Proof. done. Qed.

Lemma is_surrogate_key (pat : banPattern) :
  is_surrogate pat = true -> pat = MkPattern [] [] (surrogateKey pat).
Proof.
  destruct pat as [h p k]. unfold is_surrogate, classifyBan. cbn [hostRegex pathRegex surrogateKey].
  destruct (beq h []) eqn:Eh, (beq p []) eqn:Ep, (beq k []) eqn:Ek; cbn -[isBanLiteral isAnchoredExact isAnchoredPrefix];
    bool_cases; subst; try done; case_tests; done.
Qed.

Lemma surr_key_new (b : banListState) (S : list ptr) (ban : activeBan) :
  views b S -> ban_ok ban -> surrogate ban = true -> index b !! pattern ban = None ->
  surr_lookup (surr b) (surrogateKey (pattern ban)) = None.
Proof.
  intros [Hb _ _ Hi _ Hs] [Hsur _] Esur Hnew.
  destruct (surr_lookup (surr b) _) as [q|] eqn:El; [|done]. exfalso.
  apply Hs in El as (Hq & x & Hx & Hxs & Hxk). destruct (Hb q Hq) as (x' & Hx' & [Hsur' _]).
  rewrite Hx in Hx'. injection Hx' as <-. rewrite Hxs in Hsur'. rewrite Esur in Hsur.
  symmetry in Hsur, Hsur'. apply is_surrogate_key in Hsur, Hsur'.
  assert (pattern x = pattern ban) as Heq by congruence.
  assert (index b !! pattern ban = Some q) by (apply Hi; eauto). congruence.
Qed.

Lemma add_ban_views (b : banListState) (ban : activeBan) :
  views b (blist b) -> ban_ok ban -> index b !! pattern ban = None ->
  views (add_ban b ban) (blist b ++ [next_ptr b]).
Proof.
  intros Hv Hok Hnew. pose proof Hv as [Hb Hf Hn Hi Hwf Hs].
  set (p := next_ptr b).
  assert (p ∉ blist b) as Hfresh by (intros Hin; specialize (Hf p Hin); unfold p in Hf; lia).
  assert (bans (add_ban b ban) = <[p := ban]> (bans b) /\ next_ptr (add_ban b ban) = Pos.succ p /\
          index (add_ban b ban) = <[pattern ban := p]> (index b) /\
          surr (add_ban b ban) = if surrogate ban then surr_put (surr b) (surrogateKey (pattern ban)) p (capOrDefault b)
                                 else surr b) as (E1 & E2 & E3 & E4)
    by (unfold add_ban; by destruct (surrogate ban)).
  assert (forall q, q ∈ blist b -> <[p := ban]> (bans b) !! q = bans b !! q) as Hold.
  { intros q Hq. apply lookup_insert_ne. by intros <-. }
  assert (forall q (P : activeBan -> Prop),
    (q ∈ blist b ++ [p] /\ exists x, <[p := ban]> (bans b) !! q = Some x /\ P x) <->
    (q = p /\ P ban) \/ (q <> p /\ q ∈ blist b /\ exists x, bans b !! q = Some x /\ P x)) as Hex.
  { intros q P. rewrite elem_of_app, list_elem_of_singleton. destruct (decide (q = p)) as [->|Hne].
    - rewrite lookup_insert_eq. naive_solver.
    - rewrite lookup_insert_ne by done. naive_solver. }
  split; rewrite ?E1, ?E2, ?E3, ?E4.
  - intros q [Hq| ->%list_elem_of_singleton]%elem_of_app; [rewrite Hold by done; by apply Hb|].
    rewrite lookup_insert_eq. by exists ban.
  - intros q [Hq| ->%list_elem_of_singleton]%elem_of_app; [|lia]. specialize (Hf q Hq). unfold p. lia.
  - apply NoDup_app. split_and!; [done| |apply NoDup_singleton].
    intros x Hx ->%list_elem_of_singleton. done.
  - intros pat q. rewrite (Hex q (fun x => pattern x = pat)). rewrite lookup_insert_Some, Hi.
    split.
    + intros [[<- <-]|[Hne [Hq Hx]]]; [by left|]. right. split_and!; [by intros ->|done..].
    + intros [[-> <-]|(Hne & Hq & x & Hx & Hpat)]; [by left|]. right. split; [|eauto].
      intros E. assert (index b !! pat = Some q) by (apply Hi; eauto). congruence.
  - destruct (surrogate ban) eqn:Esur; [|done]. apply surr_put_spec; [done|]. by eapply surr_key_new.
  - intros key q. rewrite (Hex q (fun x => surrogate x = true /\ surrogateKey (pattern x) = key)).
    destruct (surrogate ban) eqn:Esur; [|rewrite Hs; split; [|naive_solver]].
    + destruct (surr_put_spec (surr b) (surrogateKey (pattern ban)) p (capOrDefault b) Hwf) as [_ ->].
      { by eapply surr_key_new. }
      destruct (decide (key = surrogateKey (pattern ban))) as [->|Hk].
      * split; [intros [= <-]; by left|]. intros [[-> _]|(_ & Hq & x & Hx & Hxk)]; [done|].
        pose proof (surr_key_new b _ ban Hv Hok Esur Hnew) as Hn'.
        assert (surr_lookup (surr b) (surrogateKey (pattern ban)) = Some q) by (apply Hs; eauto). congruence.
      * rewrite Hs. split; [|naive_solver]. intros [Hq Hx]. right. split_and!; [by intros ->|done..].
    + intros [Hq Hx]. right. split_and!; [by intros ->|done..].
Qed.

Lemma deref_app (b : banListState) (l k : list ptr) : deref b (l ++ k) = deref b l ++ deref b k.
Proof.
  induction l as [|p l IH]; [done|]. rewrite <- app_comm_cons, !deref_unfold, IH. by destruct (bans b !! p).
Qed.

Lemma add_ban_inv (b : banListState) (ban : activeBan) :
  bl_inv b -> ban_ok ban -> index b !! pattern ban = None -> len (blist b) < capOrDefault b ->
  bl_inv (add_ban b ban) /\ abs_bans (add_ban b ban) = abs_bans b ++ [(pattern ban, created ban)].
Proof.
  intros Hinv Hok Hnew Hlt. pose proof Hinv as [Hv Hr Hc Hs Hz].
  set (p := next_ptr b).
  assert (p ∉ blist b) as Hfresh by (intros Hin; pose proof (v_fresh _ _ Hv p Hin); unfold p in *; lia).
  assert (bans (add_ban b ban) = <[p := ban]> (bans b) /\ blist (add_ban b ban) = blist b ++ [p] /\
          capacity (add_ban b ban) = capacity b /\
          rest (add_ban b ban) = if surrogate ban then rest b else rest b ++ [p]) as (E1 & E2 & E3 & E4)
    by (unfold add_ban; by destruct (surrogate ban)).
  assert (forall q, q ∈ blist b -> <[p := ban]> (bans b) !! q = bans b !! q) as Hold.
  { intros q Hq. apply lookup_insert_ne. by intros <-. }
  split; [split|].
  - rewrite E2. by apply add_ban_views.
  - rewrite E2, E4, Hr, List.filter_app. simpl. 
    replace (non_surrogate (add_ban b ban) p) with (negb (surrogate ban))
      by (unfold non_surrogate; by rewrite E1, lookup_insert_eq).
    rewrite (filter_ext_in_list (non_surrogate (add_ban b ban)) (non_surrogate b)).
    + destruct (surrogate ban); simpl; [by rewrite app_nil_r|done].
    + intros q Hq. unfold non_surrogate. by rewrite E1, Hold.
  - rewrite E2. unfold capOrDefault in *. rewrite E3. rewrite len_app. unfold len in *. simpl. lia.
  - rewrite E4. unfold add_ban. destruct (surrogate ban) eqn:Esur; cbn [dirty snap]; [|done].
    intros Hd s Hsn. destruct (Hs Hd s Hsn) as (now & d & HQ & ->). exists now, d. split; [done|]. f_equal. symmetry.
    apply deref_ext. intros q Hq. cbn [bans]. apply Hold.
    rewrite Hr in Hq. apply list_elem_of_In, filter_In in Hq as [Hq _]. by apply list_elem_of_In.
  - rewrite E4. unfold add_ban. by destruct (surrogate ban).
  - unfold abs_bans. rewrite E2, deref_app, map_app. f_equal.
    + rewrite (deref_ext b (add_ban b ban)); [done|]. intros q Hq. rewrite E1. by apply Hold.
    + by rewrite deref_unfold, E1, lookup_insert_eq.
Qed.

Lemma register_ok (b : banListState) (expr : BanExpr) (pr : banPredicate) (c now : Time) :
  bl_inv b ->
  let b' := register b expr pr c now in
  bl_inv b' /\ same_params b b' /\
  abs_bans b' = spec_register (ttlOrDefault b) (capOrDefault b) (patternOf expr) c now (abs_bans b).
Proof.
  intros Hinv. rewrite register_cases. cbv zeta.
  destruct (pop_expired_ok (length (blist b)) now b Hinv ltac:(lia)) as (H1 & [P1 P2] & H3).
  fold (popExpiredHeadLocked b now) in *. set (b1 := popExpiredHeadLocked b now) in *.
  assert (capOrDefault b1 = capOrDefault b) as Ecap by (unfold capOrDefault; by rewrite P2).
  unfold spec_register. rewrite <- H3, spec_known_index by done.
  destruct (index b1 !! patternOf expr) as [p|] eqn:Ei.
  - pose proof H1 as [Hv _ _ _ _]. apply (v_index _ _ Hv) in Ei as (Hin & ban & Hp & Hpat).
    rewrite Hp. destruct (retime_inv b1 p ban c H1 Hin Hp) as [R1 R2]. split_and!; [done| |by rewrite R2, Hpat].
    unfold retime. destruct (negb (surrogate ban)); by split.
  - destruct (evict_to_cap_ok (length (blist b1)) b1 H1 ltac:(lia)) as (Q1 & [Q2 Q2'] & Q3 & Q4).
    set (b2 := evict_to_cap (length (blist b1)) b1) in *.
    assert (capOrDefault b2 = capOrDefault b1) as Ecap2 by (unfold capOrDefault; by rewrite Q2').
    destruct (add_ban_inv b2 (new_ban (patternOf expr) pr c)) as [A1 A2].
    + done.
    + by apply setExemptAfter_ok.
    + cbn [pattern new_ban setExemptAfter]. destruct (index b2 !! patternOf expr) as [q|] eqn:E2; [|done].
      pose proof (spec_known_index b2 (patternOf expr) Q1) as Hk. rewrite E2 in Hk.
      pose proof (spec_known_index b1 (patternOf expr) H1) as Hk1. rewrite Ei in Hk1.
      unfold spec_known in *. rewrite Q4 in Hk. apply existsb_exists in Hk as (e & He & Hpe).
      enough (false = true) by done. rewrite <- Hk1. apply existsb_exists. exists e. split; [|done].
      rewrite <- (take_drop (length (abs_bans b1) + 1 - Z.to_nat (capOrDefault b1)) (abs_bans b1)).
      apply in_or_app. by right.
    + lia.
    + split_and!; [done| |by rewrite A2, Q4, Ecap].
      unfold add_ban. destruct (surrogate _); split; cbn; congruence.
Qed.

(** *** The sweep *)

Definition live_ptr (b : banListState) (d : Duration) (now : Time) (p : ptr) : bool := t_sub now (created_at b p) <? d.

(** The fields the loop leaves alone. *)
Definition same_list (b b' : banListState) : Prop :=
  bans b' = bans b /\ rest b' = rest b /\ ttl b' = ttl b /\ capacity b' = capacity b.

Lemma prune_one_dead (d : Duration) (now : Time) (b : banListState) (kept l : list ptr) (rc : bool) (p : ptr)
    (ban : activeBan) :
  views b (kept ++ p :: l) -> bans b !! p = Some ban -> (t_sub now (created ban) <? d) = false ->
  exists b2, prune_one d now (b, kept, rc) p = (b2, kept, rc || negb (surrogate ban)) /\
             views b2 (kept ++ l) /\ same_list b b2.
Proof.
  intros Hv Hp E. pose proof (views_drop b kept l p ban Hv Hp) as Hd. unfold prune_one. rewrite Hp, E.
  destruct (surrogate ban) eqn:Es; (eexists; split; [by rewrite ?orb_false_r, ?orb_true_r|]); (split; [|done]);
    (eapply views_ext; [..|exact Hd]); unfold drop_views; by rewrite ?Es.
Qed.

Lemma existsb_pointwise {A} (f g : A -> bool) (l : list A) : (forall x, f x = g x) -> existsb f l = existsb g l.
Proof. intros H. induction l as [|x l IH]; [done|]. simpl. by rewrite H, IH. Qed.

Lemma prune_loop (d : Duration) (now : Time) (l : list ptr) (b : banListState) (kept : list ptr) (rc : bool) :
  views b (kept ++ l) ->
  let '(b', kept', rc') := foldl (prune_one d now) (b, kept, rc) l in
  views b' kept' /\ same_list b b' /\ kept' = kept ++ List.filter (live_ptr b d now) l /\
  rc' = rc || existsb (fun p => non_surrogate b p && negb (live_ptr b d now p)) l.
Proof.
  revert b kept rc. induction l as [|p l IH]; intros b kept rc Hv.
  - simpl. rewrite !app_nil_r in *. by rewrite orb_false_r.
  - destruct (views_lookup _ _ p Hv) as (ban & Hp & _); [apply elem_of_app; right; by left|].
    cbn [foldl].
    assert (live_ptr b d now p = (t_sub now (created ban) <? d)) as Hlive
      by (unfold live_ptr, created_at; by rewrite Hp).
    assert (non_surrogate b p = negb (surrogate ban)) as Hns by (unfold non_surrogate; by rewrite Hp).
    cbn [List.filter existsb]. rewrite Hlive, Hns. destruct (t_sub now (created ban) <? d) eqn:E.
    + replace (prune_one d now (b, kept, rc) p) with (b, kept ++ [p], rc) by (unfold prune_one; by rewrite Hp, E).
      specialize (IH b (kept ++ [p]) rc). rewrite <- app_assoc in IH. specialize (IH Hv).
      destruct (foldl _ _ l) as [[b' kept'] rc']. destruct IH as (H1 & H2 & H3 & H4).
      split_and!; [done..|by rewrite H3, <- app_assoc|by rewrite H4, andb_false_r].
    + destruct (prune_one_dead d now b kept l rc p ban Hv Hp E) as (b2 & Eb2 & Hv2 & Hsl).
      rewrite Eb2. specialize (IH b2 kept (rc || negb (surrogate ban)) Hv2).
      destruct (foldl _ _ l) as [[b' kept'] rc']. destruct IH as (H1 & H2 & H3 & H4).
      destruct Hsl as (S1 & S2 & S3 & S4). destruct H2 as (T1 & T2 & T3 & T4).
      assert (forall q, live_ptr b2 d now q = live_ptr b d now q) as L1
        by (intros; unfold live_ptr, created_at; by rewrite S1).
      assert (forall q, non_surrogate b2 q = non_surrogate b q) as L2 by (intros; unfold non_surrogate; by rewrite S1).
      split_and!; [done| | |].
      * unfold same_list. split_and!; congruence.
      * rewrite H3. f_equal. apply List.filter_ext. done.
      * rewrite H4, andb_true_r, <- orb_assoc. do 2 f_equal.
        apply existsb_pointwise. intros q. by rewrite L1, L2.
Qed.

Lemma filter_filter (f g : ptr -> bool) (l : list ptr) :
  List.filter f (List.filter g l) = List.filter (fun x => f x && g x) l.
Proof.
  induction l as [|x l IH]; [done|]. simpl. destruct (g x); simpl; [rewrite IH|]; destruct (f x); simpl; done.
Qed.

Lemma pruneExpired_ok (b : banListState) (now : Time) :
  bl_inv b -> Q now (ttlOrDefault b) ->
  let b' := pruneExpired b now in
  bl_inv b' /\ same_params b b' /\ abs_bans b' = spec_prune (ttlOrDefault b) now (abs_bans b).
Proof.
  intros Hinv HQ. pose proof Hinv as [Hv Hr Hc Hs Hz]. unfold pruneExpired.
  pose proof (prune_loop (ttlOrDefault b) now (blist b) b [] false Hv) as Hl.
  destruct (foldl _ _ (blist b)) as [[b1 kept] rc]. destruct Hl as (H1 & (S1 & S2 & S3 & S4) & Hk & Hrc).
  simpl in Hk, Hrc. set (live := live_ptr b (ttlOrDefault b) now) in *.
  set (b2 := if rc then _ else _). cbn [bans index rest] in b2.
  assert (bans b2 = bans b /\ blist b2 = kept /\ ttl b2 = ttl b /\ capacity b2 = capacity b /\
          next_ptr b2 = next_ptr b1 /\ index b2 = index b1 /\ surr b2 = surr b1)
    as (E1 & E2 & E3 & E4 & E5 & E6 & E7) by (unfold b2; by destruct rc).
  assert (forall p, p ∈ kept <-> p ∈ blist b /\ live p = true) as Hkept.
  { intros p. rewrite Hk, !list_elem_of_In. apply filter_In. }
  assert (rest b2 = List.filter (non_surrogate b2) kept) as Erest.
  { transitivity (List.filter (fun p => non_surrogate b p && live p) (blist b)).
    2:{ rewrite Hk, filter_filter. apply List.filter_ext. intros p. unfold non_surrogate. by rewrite E1. }
    unfold b2. destruct rc; cbn [rest]; rewrite S2, Hr.
    - unfold delete_func. rewrite filter_filter. apply filter_ext_in_list. intros p Hp.
      rewrite andb_comm. f_equal. destruct (views_lookup _ _ p Hv Hp) as (ban & Hban & _).
      rewrite S1, Hban, negb_involutive. apply Bool.eq_iff_eq_true. rewrite bool_decide_eq_true.
      rewrite (v_index _ _ H1), Hkept, S1. naive_solver.
    - apply filter_ext_in_list. intros p Hp. destruct (non_surrogate b p) eqn:En; [|done]. simpl.
      symmetry in Hrc. destruct (live p) eqn:El; [done|]. enough (false = true) by done.
      rewrite <- Hrc. apply existsb_exists. exists p. split; [by apply list_elem_of_In|]. by rewrite En, El. }
  split; [split|split].
  - unfold rebuildLocked. cbn [blist]. rewrite E2. eapply views_ext; [..|exact H1]; cbn; congruence.
  - unfold rebuildLocked. cbn [rest blist]. rewrite E2. exact Erest.
  - unfold rebuildLocked. cbn [blist]. rewrite E2. unfold capOrDefault in *. cbn [capacity]. rewrite E4.
    rewrite Hk. pose proof (List.filter_length_le live (blist b)). unfold len in *. lia.
  - unfold rebuildLocked. cbn. intros _ s [= <-]. eexists _, _. split; [|done].
    unfold ttlOrDefault in *. by rewrite E3.
  - done.
  - unfold rebuildLocked, same_params. cbn. by rewrite E3, E4.
  - unfold abs_bans at 1, rebuildLocked. cbn [blist]. rewrite E2.
    rewrite (deref_ext b2) by done. rewrite (deref_ext b b2) by (intros; by rewrite E1).
    unfold abs_bans, spec_prune. rewrite Hk. clear -Hv.
    assert (forall p, p ∈ blist b -> exists ban, bans b !! p = Some ban) as Hb.
    { intros p Hp. destruct (views_lookup _ _ p Hv Hp) as (ban & Hban & _). eauto. }
    revert Hb. generalize (blist b) as l. clear Hv. induction l as [|p l IH]; intros Hb; [done|].
    destruct (Hb p) as [ban Hp]; [by left|].
    rewrite (deref_cons _ _ _ _ Hp). simpl. unfold live, live_ptr, created_at in *. rewrite Hp.
    destruct (t_sub now (created ban) <? ttlOrDefault b); [rewrite (deref_cons _ _ _ _ Hp); simpl; f_equal|];
      apply IH; intros q Hq; apply Hb; by right.
Qed.

End Invariant.
End Surrogates.

(** ** What the compiled snapshot holds *)

Definition live_ban (now : Time) (d : Duration) (ban : activeBan) : bool := negb (d <=? t_sub now (created ban)).

(** The compilation keeps exactly the live bans, each in the view of its
    class; a literal's slot holds the exemption of one of its bans. *)
Record compiled (l : list activeBan) (now : Time) (d : Duration) (s : banSnapshot) : Prop := {
  c_host : forall v e, hosts s !! v = Some e -> exists ban, ban ∈ l /\ live_ban now d ban = true /\
             classifyBan (pattern ban) = banClassLiteralHost /\
             literalHostPattern (hostRegex (pattern ban)) = v /\ e = exemptAfter ban;
  c_host_all : forall ban, ban ∈ l -> live_ban now d ban = true ->
             classifyBan (pattern ban) = banClassLiteralHost ->
             is_Some (hosts s !! literalHostPattern (hostRegex (pattern ban)));
  c_path : forall v e, paths s !! v = Some e -> exists ban, ban ∈ l /\ live_ban now d ban = true /\
             classifyBan (pattern ban) = banClassLiteralPath /\
             literalPathPattern (pathRegex (pattern ban)) = v /\ e = exemptAfter ban;
  c_path_all : forall ban, ban ∈ l -> live_ban now d ban = true ->
             classifyBan (pattern ban) = banClassLiteralPath ->
             is_Some (paths s !! literalPathPattern (pathRegex (pattern ban)));
  c_hostp : forall x, x ∈ hostPrefixes s <-> exists ban, ban ∈ l /\ live_ban now d ban = true /\
             classifyBan (pattern ban) = banClassPrefixHost /\
             x = MkPrefixBan (exemptAfter ban) (pred ban) (anchoredPrefix (hostRegex (pattern ban)));
  c_pathp : forall x, x ∈ pathPrefixes s <-> exists ban, ban ∈ l /\ live_ban now d ban = true /\
             classifyBan (pattern ban) = banClassPrefixPath /\
             x = MkPrefixBan (exemptAfter ban) (pred ban) (anchoredPrefix (pathRegex (pattern ban)));
  c_opaque : forall x, x ∈ opaqueBans s <-> exists ban, ban ∈ l /\ live_ban now d ban = true /\
             (classifyBan (pattern ban) = banClassOpaque \/ classifyBan (pattern ban) = banClassLiteralSurrogate) /\
             x = MkOpaqueBan (exemptAfter ban) (pred ban);
}.

Lemma snoc_ex (l : list activeBan) (x : activeBan) (P : activeBan -> Prop) :
  (exists ban, ban ∈ l ++ [x] /\ P ban) <-> (exists ban, ban ∈ l /\ P ban) \/ P x.
Proof. setoid_rewrite elem_of_app. setoid_rewrite list_elem_of_singleton. naive_solver. Qed.

Lemma snoc_all (l : list activeBan) (x : activeBan) (P : activeBan -> Prop) :
  (forall ban, ban ∈ l -> P ban) -> P x -> forall ban, ban ∈ l ++ [x] -> P ban.
Proof. intros H Hx ban [Hb| ->%list_elem_of_singleton]%elem_of_app; auto. Qed.

Lemma compile_one_spec (l : list activeBan) (x : activeBan) (now : Time) (d : Duration) (s : banSnapshot) :
  compiled l now d s -> compiled (l ++ [x]) now d (compile_one now d s x).
Proof.
  intros [H1 H2 H3 H4 H5 H6 H7].
  assert (live_ban now d x = negb (d <=? t_sub now (created x))) as Hx by done.
  unfold compile_one. destruct (d <=? t_sub now (created x)) eqn:E; simpl in Hx.
  { split.
    - intros v e Hv. destruct (H1 v e Hv) as (ban & ? & ?). exists ban. rewrite elem_of_app. auto.
    - apply (snoc_all l x (fun ban => _ -> _ -> _)); [done|congruence].
    - intros v e Hv. destruct (H3 v e Hv) as (ban & ? & ?). exists ban. rewrite elem_of_app. auto.
    - apply (snoc_all l x (fun ban => _ -> _ -> _)); [done|congruence].
    - intros y. rewrite snoc_ex, H5. naive_solver congruence.
    - intros y. rewrite snoc_ex, H6. naive_solver congruence.
    - intros y. rewrite snoc_ex, H7. naive_solver congruence. }
  destruct (classifyBan (pattern x)) eqn:Ec; split; cbn [hosts paths hostPrefixes pathPrefixes opaqueBans].
  all: try (intros y; rewrite snoc_ex, ?elem_of_app, ?list_elem_of_singleton, ?H5, ?H6, ?H7; naive_solver congruence).
  all: try (apply (snoc_all l x (fun ban => _ -> _ -> _)); [done|by rewrite Ec]).
  all: try (intros v e Hv; destruct (H1 v e Hv) as (ban & ? & ?); exists ban; rewrite elem_of_app; by auto).
  all: try (intros v e Hv; destruct (H3 v e Hv) as (ban & ? & ?); exists ban; rewrite elem_of_app; by auto).
  - intros v e. rewrite lookup_insert_Some. intros [[<- <-]|[_ Hv]].
    + exists x. rewrite elem_of_app, list_elem_of_singleton. auto.
    + destruct (H1 v e Hv) as (ban & ? & ?). exists ban. rewrite elem_of_app. auto.
  - apply (snoc_all l x (fun ban => _ -> _ -> _)); [|intros; by rewrite lookup_insert_eq].
    intros ban Hb Hl Hc. apply lookup_insert_is_Some'. right. by apply H2.
  - intros v e. rewrite lookup_insert_Some. intros [[<- <-]|[_ Hv]].
    + exists x. rewrite elem_of_app, list_elem_of_singleton. auto.
    + destruct (H3 v e Hv) as (ban & ? & ?). exists ban. rewrite elem_of_app. auto.
  - apply (snoc_all l x (fun ban => _ -> _ -> _)); [|intros; by rewrite lookup_insert_eq].
    intros ban Hb Hl Hc. apply lookup_insert_is_Some'. right. by apply H4.
Qed.

Lemma compile_spec (l : list activeBan) (now : Time) (d : Duration) :
  compiled l now d (compileBanSnapshot l now d).
Proof.
  induction l as [|x l IH] using rev_ind.
  - split; unfold compileBanSnapshot; simpl; set_solver.
  - unfold compileBanSnapshot in *. rewrite foldl_snoc. by apply compile_one_spec.
Qed.

(** ** What a ban means *)

(** A body of plain ASCII characters and escaped ASCII punctuation, with the
    text it stands for. *)
Definition ascii_alnum (c : byte) : bool := is_digit c || is_lower c || is_upper c.
Fixpoint plain_body (body : bytes) : option bytes :=
  match body with
  | [] => Some []
  | c :: rest =>
      if 128 <=? Zb c then None
      else if beqb c (ch "\") then
        match rest with
        | [] => None
        | d :: rest' => if ascii_alnum d || (128 <=? Zb d) || (Zb d <=? 32) then None
                        else option_map (cons d) (plain_body rest')
        end
      else if metachar c then None
      else option_map (cons c) (plain_body rest)
  end.

(** Documented behaviour of Go's regexp package: [^] and [$] (without the
    multi-line flag) match at the ends of the text, a backslash before
    punctuation makes it literal, other characters match themselves. *)
Class RegexpLaws (regexp_compile : bytes -> option (bytes -> bool)) : Prop := {
  re_exact : forall body lit, plain_body body = Some lit ->
    exists m, regexp_compile (ch "^" :: body ++ [ch "$"]) = Some m /\ forall s, m s = beq s lit;
  re_prefix : forall body lit, plain_body body = Some lit ->
    exists m, regexp_compile (ch "^" :: body) = Some m /\ forall s, m s = has_prefix s lit;
}.

(** Patterns whose literal reading, if the code takes one, is the engine's. *)
Definition regular_pattern (pat : bytes) : bool :=
  implb (isAnchoredExact pat) (bool_decide (is_Some (plain_body (inner pat))))
  && implb (isAnchoredPrefix pat) (bool_decide (is_Some (plain_body (drop 1 pat)))).
Definition regular_ban (pat : banPattern) : bool :=
  regular_pattern (hostRegex pat) && regular_pattern (pathRegex pat).

Lemma plain_body_literal (n : nat) (body lit : bytes) :
  (length body <= n)%nat -> plain_body body = Some lit -> literalOfBody body = Some lit.
Proof.
  revert body lit. induction n as [|n IH]; intros body lit Hn; (destruct body as [|c rest]; [done|]);
    cbn [plain_body literalOfBody]; simpl in Hn; [lia|].
  case_tests; try done.
  - destruct rest as [|d rest']; [done|]. case_tests; [done|].
    destruct (plain_body rest') as [l|] eqn:E; [|done]. intros [= <-].
    rewrite (IH rest' l); [done| |done]. simpl in Hn. lia.
  - destruct (plain_body rest) as [l|] eqn:E; [|done]. intros [= <-]. rewrite (IH rest l); [done|lia|done].
Qed.

Section Meaning.
Context (regexp_compile : bytes -> option (bytes -> bool)).

(** One condition: no pattern, a literal, or a regexp. *)
Definition condition (pat v : bytes) : bool :=
  if beq pat [] then true
  else if isBanLiteral pat then beq v pat
  else match regexp_compile pat with Some m => m v | None => false end.

Definition pattern_holds (pat : banPattern) (obj : Object.t) : bool :=
  condition (hostRegex pat) (Get (Object.Header obj) Hdr.XBouineHost)
  && condition (pathRegex pat) (Get (Object.Header obj) Hdr.XBouinePath)
  && (beq (surrogateKey pat) [] || hasSurrogateKey (Object.SurrogateKeys obj) (surrogateKey pat)).

(** A ban of the list covers an object: stored no later, and matching. *)
Definition ban_hit (obj : Object.t) (e : banPattern * Time) : bool :=
  (Object.StoredAt obj <=? e.2) && pattern_holds e.1 obj.

(** The predicate keeps the time of the expression it was compiled from. *)
Definition pred_of (pat : banPattern) (issued : Time) (pr : banPredicate) : Prop :=
  forall obj, pr obj = (is_zero issued || (Object.StoredAt obj <=? issued)) && pattern_holds pat obj.

Lemma pattern_refuses_condition (pat v : bytes) (c : option (bytes -> bool) * bytes) :
  compileBanPattern regexp_compile pat = Some c -> pattern_refuses c v = negb (condition pat v).
Proof.
  unfold compileBanPattern, condition, pattern_refuses. destruct (beq pat []) eqn:E0.
  - intros [= <-]. done.
  - destruct (isBanLiteral pat).
    + intros [= <-]. cbn [fst snd]. by rewrite E0.
    + destruct (regexp_compile pat) as [m|]; [|done]. intros [= <-]. cbn [fst snd]. by rewrite beq_refl, orb_false_r.
Qed.

Lemma compileBanPredicate_spec (expr : BanExpr) (pr : banPredicate) :
  compileBanPredicate regexp_compile expr = Ok pr -> pred_of (patternOf expr) (CreatedAt expr) pr.
Proof.
  unfold compileBanPredicate. destruct (compileBanPattern _ (HostRegex expr)) as [h|] eqn:Eh; [|done].
  destruct (compileBanPattern _ (PathRegex expr)) as [p|] eqn:Ep; [|done]. intros [= <-] obj.
  rewrite (pattern_refuses_condition _ _ _ Eh), (pattern_refuses_condition _ _ _ Ep).
  unfold pattern_holds, t_after. cbn [hostRegex pathRegex surrogateKey patternOf].
  rewrite (Z.leb_antisym (CreatedAt expr)).
  destruct (is_zero _), (_ <? _), (condition _ _), (condition _ _), (beq _ _), (hasSurrogateKey _ _); done.
Qed.

(** Instants the code's 64-bit encoding represents. *)
Definition time_ok (t : Time) : Prop := min_i64 < t <= max_i64.

Lemma exempt_ok (ban : activeBan) :
  ban_ok ban -> time_ok (created ban) ->
  exemptAfter ban = created ban /\ exemptNanos ban = created ban /\ is_zero (created ban) = false.
Proof.
  intros [_ He] Ht. unfold time_ok, min_i64, max_i64 in Ht.
  assert (is_zero (created ban) = false) as Hz.
  { unfold is_zero, zero_time, Second. apply Z.eqb_neq. lia. }
  assert (exemptNanos ban = created ban) as Hn.
  { rewrite He, Hz. apply i64_id. unfold in_i64. lia. }
  split_and!; [|done|done]. unfold exemptAfter. rewrite Hn. unfold noExemption, min_i64.
  destruct (_ =? _) eqn:E; [|done]. bool_cases. lia.
Qed.

Lemma subject_exempt (ban : activeBan) (obj : Object.t) :
  ban_ok ban -> time_ok (created ban) ->
  subjectTo obj (exemptAfter ban) = (Object.StoredAt obj <=? created ban) /\
  subjectToNanos obj (exemptNanos ban) = (Object.StoredAt obj <=? created ban).
Proof.
  intros Hok Ht. destruct (exempt_ok ban Hok Ht) as (H1 & H2 & H3). unfold subjectTo, subjectToNanos, t_after.
  rewrite H1, H2, H3, Z.leb_antisym. split; [done|].
  replace (_ =? noExemption) with false; [done|]. symmetry. apply Z.eqb_neq.
  unfold time_ok, noExemption in *. lia.
Qed.
(** *** Classes and their conditions *)

Lemma classify_cases (pat : banPattern) :
  match classifyBan pat with
  | banClassLiteralHost => hostRegex pat <> [] /\ pathRegex pat = [] /\ surrogateKey pat = [] /\
      (isBanLiteral (hostRegex pat) || isAnchoredExact (hostRegex pat)) = true
  | banClassLiteralPath => hostRegex pat = [] /\ pathRegex pat <> [] /\ surrogateKey pat = [] /\
      (isBanLiteral (pathRegex pat) || isAnchoredExact (pathRegex pat)) = true
  | banClassPrefixHost => hostRegex pat <> [] /\ pathRegex pat = [] /\ surrogateKey pat = [] /\
      isAnchoredPrefix (hostRegex pat) = true
  | banClassPrefixPath => hostRegex pat = [] /\ pathRegex pat <> [] /\ surrogateKey pat = [] /\
      isAnchoredPrefix (pathRegex pat) = true
  | banClassLiteralSurrogate => hostRegex pat = [] /\ pathRegex pat = [] /\ surrogateKey pat <> []
  | banClassOpaque => True
  end.
Proof.
  destruct pat as [h p k]. unfold classifyBan. cbn [hostRegex pathRegex surrogateKey].
  destruct (beq h []) eqn:Eh, (beq p []) eqn:Ep, (beq k []) eqn:Ek;
    cbn -[isBanLiteral isAnchoredExact isAnchoredPrefix]; bool_cases; try done; case_tests; repeat split; done.
Qed.

Lemma first_is_cons (c : byte) (s : bytes) : first_is c s = true -> exists t, s = c :: t.
Proof. destruct s as [|a t]; [done|]. simpl. intros ->%beqb_eq. by exists t. Qed.

Lemma anchored_not_literal (pat : bytes) : first_is (ch "^") pat = true -> isBanLiteral pat = false.
Proof. intros [t ->]%first_is_cons. done. Qed.

Lemma isAnchoredExact_shape (pat : bytes) :
  isAnchoredExact pat = true ->
  pat = ch "^" :: inner pat ++ [ch "$"] /\ isBanLiteral pat = false /\ pat <> [].
Proof.
  unfold isAnchoredExact. destruct (_ || _ || _) eqn:E; [done|]. bool_cases. intros _.
  pose proof (anchored_not_literal pat ltac:(done)) as Hl.
  destruct (first_is_cons (ch "^") pat ltac:(done)) as [t ->].
  split_and!; [|done|done]. destruct t as [|z t' _] using rev_ind; [done|].
  match goal with H : last_is _ _ = true |- _ =>
    unfold last_is in H; rewrite app_comm_cons, last_snoc in H; apply beqb_eq in H; subst z end.
  unfold inner. cbn [length drop]. rewrite length_app. cbn [length].
  replace (S (length t' + 1) - 2)%nat with (length t') by lia. by rewrite drop_0, take_app_length.
Qed.

Lemma isAnchoredPrefix_shape (pat : bytes) :
  isAnchoredPrefix pat = true -> pat = ch "^" :: drop 1 pat /\ isBanLiteral pat = false /\ pat <> [].
Proof.
  unfold isAnchoredPrefix. destruct (_ || _ || _) eqn:E; [done|]. bool_cases. intros _.
  pose proof (anchored_not_literal pat ltac:(done)) as Hl.
  destruct (first_is_cons (ch "^") pat ltac:(done)) as [t ->]. cbn [drop]. rewrite drop_0.
  split_and!; [reflexivity|exact Hl|discriminate].
Qed.

Section Laws.
Context `{!RegexpLaws regexp_compile}.

Lemma condition_exact (pat v : bytes) :
  regular_pattern pat = true -> pat <> [] -> (isBanLiteral pat || isAnchoredExact pat) = true ->
  condition pat v = beq v (literalHostPattern pat).
Proof.
  intros Hr Hne Hc. unfold condition, literalHostPattern. rewrite (proj2 (beq_neq pat []) Hne).
  destruct (isAnchoredExact pat) eqn:Ee.
  - destruct (isAnchoredExact_shape pat Ee) as (Hs & Hl & _). rewrite Hl. unfold regular_pattern in Hr.
    rewrite Ee in Hr. cbn [implb] in Hr. apply andb_prop in Hr as [[lit Hp]%bool_decide_eq_true _].
    unfold anchoredExact. rewrite (plain_body_literal (length (inner pat)) _ lit) by done. cbn [default from_option].
    destruct (re_exact (inner pat) lit Hp) as (m & Hm & Hv). rewrite <- Hs in Hm. by rewrite Hm.
  - rewrite orb_false_r in Hc. by rewrite Hc.
Qed.

Lemma condition_prefix (pat v : bytes) :
  regular_pattern pat = true -> isAnchoredPrefix pat = true -> condition pat v = has_prefix v (anchoredPrefix pat).
Proof.
  intros Hr Hc. destruct (isAnchoredPrefix_shape pat Hc) as (Hs & Hl & Hne). unfold condition.
  rewrite (proj2 (beq_neq pat []) Hne), Hl. unfold regular_pattern in Hr. rewrite Hc in Hr. cbn [implb] in Hr.
  apply andb_prop in Hr as [_ [lit Hp]%bool_decide_eq_true].
  unfold anchoredPrefix. rewrite (plain_body_literal (length (drop 1 pat)) _ lit) by done. cbn [default from_option].
  destruct (re_prefix (drop 1 pat) lit Hp) as (m & Hm & Hv). rewrite <- Hs in Hm. by rewrite Hm.
Qed.

(** What the fast tests decide, class by class. *)
Lemma class_holds (pat : banPattern) (obj : Object.t) :
  regular_ban pat = true ->
  match classifyBan pat with
  | banClassLiteralHost => pattern_holds pat obj
      = beq (Get (Object.Header obj) Hdr.XBouineHost) (literalHostPattern (hostRegex pat))
  | banClassLiteralPath => pattern_holds pat obj
      = beq (Get (Object.Header obj) Hdr.XBouinePath) (literalPathPattern (pathRegex pat))
  | banClassPrefixHost => pattern_holds pat obj
      = has_prefix (Get (Object.Header obj) Hdr.XBouineHost) (anchoredPrefix (hostRegex pat))
  | banClassPrefixPath => pattern_holds pat obj
      = has_prefix (Get (Object.Header obj) Hdr.XBouinePath) (anchoredPrefix (pathRegex pat))
  | banClassLiteralSurrogate => pattern_holds pat obj
      = hasSurrogateKey (Object.SurrogateKeys obj) (surrogateKey pat)
  | banClassOpaque => True
  end.
Proof.
  intros [Hrh Hrp]%andb_prop. pose proof (classify_cases pat) as Hc. unfold pattern_holds.
  destruct (classifyBan pat); [done|..]; destruct Hc as (Ha & Hb & Hc).
  - destruct Hc as [Hk Hl]. rewrite Hb, Hk, condition_exact by done. cbn. by rewrite !andb_true_r.
  - destruct Hc as [Hk Hl]. rewrite Ha, Hk, (condition_exact (pathRegex pat)) by done. cbn. by rewrite andb_true_r.
  - rewrite Ha, Hb. cbn. by rewrite (proj2 (beq_neq _ _) Hc).
  - destruct Hc as [Hk Hl]. rewrite Hb, Hk, condition_prefix by done. cbn. by rewrite !andb_true_r.
  - destruct Hc as [Hk Hl]. rewrite Ha, Hk, (condition_prefix (pathRegex pat)) by done. cbn. by rewrite andb_true_r.
Qed.

(** *** The snapshot against the list it was compiled from *)

(** The records the lemmas below are about. *)
Definition good_ban (ban : activeBan) : Prop :=
  ban_ok ban /\ time_ok (created ban) /\ regular_ban (pattern ban) = true /\
  exists issued, pred_of (pattern ban) issued (pred ban).

Definition hit_of (obj : Object.t) (ban : activeBan) : bool := ban_hit obj (pattern ban, created ban).

Lemma good_hit (ban : activeBan) (obj : Object.t) :
  good_ban ban -> subjectTo obj (exemptAfter ban) = true -> pattern_holds (pattern ban) obj = true ->
  hit_of obj ban = true.
Proof.
  intros (Hok & Ht & _) Hs Hp. destruct (subject_exempt ban obj Hok Ht) as [H1 _].
  unfold hit_of, ban_hit. cbn [fst snd]. by rewrite <- H1, Hs, Hp.
Qed.

Lemma pred_pattern (ban : activeBan) (obj : Object.t) :
  good_ban ban -> pred ban obj = true -> pattern_holds (pattern ban) obj = true.
Proof. intros (_ & _ & _ & issued & Hp) H. rewrite Hp in H. by apply andb_prop in H as [_ ?]. Qed.

Lemma existsb_elem {A} (f : A -> bool) (l : list A) : existsb f l = true <-> exists x, x ∈ l /\ f x = true.
Proof. rewrite existsb_exists. setoid_rewrite list_elem_of_In. done. Qed.

(** The tests of a lookup, as a disjunction. *)
Lemma snap_matches_iff (s : banSnapshot) (obj : Object.t) :
  snap_matches s obj = true <->
  (exists e, hosts s !! Get (Object.Header obj) Hdr.XBouineHost = Some e /\ subjectTo obj e = true) \/
  (exists e, paths s !! Get (Object.Header obj) Hdr.XBouinePath = Some e /\ subjectTo obj e = true) \/
  (exists x, x ∈ hostPrefixes s /\ prefix_hit obj (Get (Object.Header obj) Hdr.XBouineHost) x = true) \/
  (exists x, x ∈ pathPrefixes s /\ prefix_hit obj (Get (Object.Header obj) Hdr.XBouinePath) x = true) \/
  (exists x, x ∈ opaqueBans s /\ subjectTo obj (ob_exemptAfter x) && ob_pred x obj = true).
Proof.
  assert (forall o, match o with Some e => subjectTo obj e | None => false end = true <->
                    exists e, o = Some e /\ subjectTo obj e = true) as Ho by (intros [e|]; naive_solver).
  rewrite <- !existsb_elem, <- !Ho. unfold snap_matches. unfold literalMatch, prefixMatch.
  rewrite <- !orb_true_iff.
  destruct (match hosts s !! _ with Some e => subjectTo obj e | None => false end),
    (match paths s !! _ with Some e => subjectTo obj e | None => false end),
    (existsb _ (hostPrefixes s)), (existsb _ (pathPrefixes s)), (existsb _ (opaqueBans s)); done.
Qed.

Lemma snap_sound (l : list activeBan) (now : Time) (d : Duration) (obj : Object.t) :
  (forall ban, ban ∈ l -> good_ban ban) ->
  snap_matches (compileBanSnapshot l now d) obj = true ->
  exists ban, ban ∈ l /\ hit_of obj ban = true.
Proof.
  intros Hgood. destruct (compile_spec l now d) as [H1 _ H3 _ H5 H6 H7]. rewrite snap_matches_iff.
  intros [(e & He & Hs)|[(e & He & Hs)|[(x & Hx & Hhit)|[(x & Hx & Hhit)|(x & Hx & Hhit)]]]].
  1: destruct (H1 _ _ He) as (ban & Hin & _ & Hc & Hv & ->).
  2: destruct (H3 _ _ He) as (ban & Hin & _ & Hc & Hv & ->).
  1-2: exists ban; split; [done|]; apply good_hit; auto;
    pose proof (class_holds (pattern ban) obj) as Hh; rewrite Hc in Hh;
    rewrite Hh by apply (Hgood ban Hin); apply beq_eq; by rewrite Hv.
  1: apply H5 in Hx as (ban & Hin & _ & _ & ->).
  2: apply H6 in Hx as (ban & Hin & _ & _ & ->).
  3: apply H7 in Hx as (ban & Hin & _ & _ & ->).
  all: exists ban; split; [done|]; unfold prefix_hit in Hhit; cbn in Hhit; bool_cases;
    apply good_hit; auto; apply pred_pattern; auto.
Qed.

(** Another ban in the same slot of a literal view. *)
Definition same_slot (a b : banPattern) : Prop :=
  classifyBan a = classifyBan b /\
  match classifyBan a with
  | banClassLiteralHost => literalHostPattern (hostRegex a) = literalHostPattern (hostRegex b)
  | banClassLiteralPath => literalPathPattern (pathRegex a) = literalPathPattern (pathRegex b)
  | _ => False
  end.

(** Completeness: a live ban that covers the object is found, unless an
    older one took its slot or its own predicate is older than it. *)
Lemma snap_complete (l : list activeBan) (now : Time) (d : Duration) (obj : Object.t) (ban : activeBan) :
  (forall b, b ∈ l -> good_ban b) -> ban ∈ l -> live_ban now d ban = true -> hit_of obj ban = true ->
  (forall b, b ∈ l -> same_slot (pattern b) (pattern ban) -> created ban <= created b) ->
  (classifyBan (pattern ban) = banClassLiteralHost \/ classifyBan (pattern ban) = banClassLiteralPath \/
   pred ban obj = true) ->
  snap_matches (compileBanSnapshot l now d) obj = true.
Proof.
  intros Hgood Hin Hlive Hhit Hslot Hpred. destruct (Hgood ban Hin) as (Hok & Ht & Hr & _).
  unfold hit_of, ban_hit in Hhit. cbn [fst snd] in Hhit. apply andb_prop in Hhit as [Hst Hph].
  destruct (compile_spec l now d) as [H1 H2 H3 H4 H5 H6 H7]. rewrite snap_matches_iff.
  pose proof (class_holds (pattern ban) obj Hr) as Hc.
  assert (subjectTo obj (exemptAfter ban) = true) as Hsub by (rewrite (proj1 (subject_exempt ban obj Hok Ht)); done).
  assert (forall b, b ∈ l -> same_slot (pattern b) (pattern ban) -> subjectTo obj (exemptAfter b) = true) as Hother.
  { intros b Hb Hs. destruct (Hgood b Hb) as (Hokb & Htb & _). rewrite (proj1 (subject_exempt b obj Hokb Htb)).
    specialize (Hslot b Hb Hs). bool_cases. apply Z.leb_le. lia. }
  destruct (classifyBan (pattern ban)) eqn:Ec.
  - right; right; right; right. exists (MkOpaqueBan (exemptAfter ban) (pred ban)). split; [apply H7; eauto 10|].
    cbn. rewrite Hsub. naive_solver.
  - left. rewrite Hph in Hc. symmetry in Hc. apply beq_eq in Hc. rewrite Hc.
    destruct (H2 ban Hin Hlive Ec) as [e He]. exists e. split; [done|].
    destruct (H1 _ _ He) as (b & Hb & _ & Hcb & Hv & ->). apply Hother; [done|]. unfold same_slot. by rewrite Hcb, Ec.
  - right; left. rewrite Hph in Hc. symmetry in Hc. apply beq_eq in Hc. rewrite Hc.
    destruct (H4 ban Hin Hlive Ec) as [e He]. exists e. split; [done|].
    destruct (H3 _ _ He) as (b & Hb & _ & Hcb & Hv & ->). apply Hother; [done|]. unfold same_slot. by rewrite Hcb, Ec.
  - right; right; right; right. exists (MkOpaqueBan (exemptAfter ban) (pred ban)). split; [apply H7; eauto 10|].
    cbn. rewrite Hsub. naive_solver.
  - right; right; left. eexists. split; [apply H5; eauto 10|]. unfold prefix_hit. cbn [prefix pb_exemptAfter pb_pred]. rewrite <- Hc, Hph, Hsub.
    naive_solver.
  - right; right; right; left. eexists. split; [apply H6; eauto 10|]. unfold prefix_hit. cbn [prefix pb_exemptAfter pb_pred]. rewrite <- Hc, Hph, Hsub.
    naive_solver.
Qed.

End Laws.
End Meaning.

(** ** Every history of the list *)

Section Histories.
Context (shard_hash : bytes -> Z) (regexp_compile : bytes -> option (bytes -> bool)).

(** The histories of one list of capacity [cap]: registrations ([Ban] after a
    successful compilation), sweeps, lookups and TTL changes, in the order of
    the list mutex. The clock only moves forward; [low] is the smallest TTL
    that has been in force. *)
Inductive history (cap : Z) : Time -> Duration -> banListState -> Prop :=
| H_new d now : history cap now (ttlOrDefault (NewBanList d cap)) (NewBanList d cap)
| H_register clock low b expr pr now1 now2 :
    history cap clock low b -> compileBanPredicate regexp_compile expr = Ok pr -> clock <= now2 ->
    history cap now2 low (registerBan shard_hash b expr pr now1 now2)
| H_prune clock low b now :
    history cap clock low b -> clock <= now -> history cap now low (pruneExpired shard_hash b now)
| H_lookup clock low b obj won now :
    history cap clock low b -> clock <= now -> history cap now low (matches shard_hash b obj won now).1
| H_ttl clock low b d :
    history cap clock low b -> history cap clock (Z.min low (ttlOrDefault (setTTL b d))) (setTTL b d).

(** Compiled no later than now, with no smaller TTL than the lowest. *)
Definition compiled_by (clock : Time) (low : Duration) (now : Time) (d : Duration) : Prop := now <= clock /\ low <= d.

Lemma bl_inv_weaken (Q Q' : Time -> Duration -> Prop) (b : banListState) :
  (forall n d, Q n d -> Q' n d) -> bl_inv shard_hash Q b -> bl_inv shard_hash Q' b.
Proof.
  intros H [H1 H2 H3 H4 H5]. split; [done..| |done]. intros Hd s Hs. destruct (H4 Hd s Hs) as (n & d & HQ & ->). eauto.
Qed.

(** Every predicate on the heap was compiled from its ban's pattern. *)
Definition preds_ok (b : banListState) : Prop :=
  forall p ban, bans b !! p = Some ban -> exists issued, pred_of regexp_compile (pattern ban) issued (pred ban).

Lemma evictHead_bans (b : banListState) : bans (evictHeadLocked shard_hash b) = bans b.
Proof. unfold evictHeadLocked. destruct (blist b); [done|]. destruct (bans b !! _); [|done]. by case_tests. Qed.

Lemma pop_expired_bans (fuel : nat) (now : Time) (b : banListState) : bans (pop_expired shard_hash fuel now b) = bans b.
Proof.
  revert b. induction fuel as [|fuel IH]; intros b; simpl; [by destruct (blist b)|].
  destruct (blist b); [done|]. case_tests; [|done]. by rewrite IH, evictHead_bans.
Qed.

Lemma evict_to_cap_bans (fuel : nat) (b : banListState) : bans (evict_to_cap shard_hash fuel b) = bans b.
Proof.
  revert b. induction fuel as [|fuel IH]; intros b; simpl; [done|]. case_tests; [|done]. by rewrite IH, evictHead_bans.
Qed.

Lemma pruneExpired_bans (b : banListState) (now : Time) : bans (pruneExpired shard_hash b now) = bans b.
Proof.
  unfold pruneExpired.
  assert (forall l st, bans (foldl (prune_one shard_hash (ttlOrDefault b) now) st l).1.1 = bans st.1.1) as Hl.
  { induction l as [|p l IH]; intros [[c k] r]; [done|]. cbn [foldl]. rewrite IH. unfold prune_one.
    destruct (bans c !! p); [|done]. by case_tests. }
  specialize (Hl (blist b) (b, [], false)). destruct (foldl _ _ _) as [[b1 kept] rc]. cbn in Hl |- *. by destruct rc.
Qed.

Lemma register_preds (b : banListState) (expr : BanExpr) (pr : banPredicate) (c now : Time) :
  preds_ok b -> compileBanPredicate regexp_compile expr = Ok pr -> preds_ok (register shard_hash b expr pr c now).
Proof.
  intros Hb Hc. rewrite register_cases. cbv zeta. unfold preds_ok in *.
  set (b1 := popExpiredHeadLocked shard_hash b now).
  assert (bans b1 = bans b) as E1 by apply pop_expired_bans.
  destruct (index b1 !! patternOf expr) as [p|].
  - rewrite E1. destruct (bans b !! p) as [ban|] eqn:Ep; [|by rewrite E1].
    intros q x Hq. assert (<[p := setExemptAfter {| ban with created := c |} c]> (bans b) !! q = Some x) as Hq'
      by (rewrite <- E1; revert Hq; unfold retime; by destruct (negb (surrogate ban))).
    apply lookup_insert_Some in Hq' as [[<- <-]|[_ Hx]]; [exact (Hb p ban Ep)|by eapply Hb].
  - set (b2 := evict_to_cap _ _ _). assert (bans b2 = bans b) as E2 by (unfold b2; by rewrite evict_to_cap_bans).
    intros q x Hq. assert (<[next_ptr b2 := new_ban (patternOf expr) pr c]> (bans b) !! q = Some x) as Hq'
      by (rewrite <- E2; revert Hq; unfold add_ban; by destruct (surrogate _)).
    apply lookup_insert_Some in Hq' as [[_ <-]|[_ Hx]]; [|by eapply Hb].
    exists (CreatedAt expr). by apply compileBanPredicate_spec.
Qed.

(** Looking up changes the compiled view only. *)
Lemma matches_state (b : banListState) (obj : Object.t) (won : bool) (now : Time) :
  (matches shard_hash b obj won now).1 = b \/ (matches shard_hash b obj won now).1 = rebuildLocked b now.
Proof.
  unfold matches, snapshot. destruct (snap b), (dirty b), won; simpl; auto.
Qed.

Lemma rebuild_inv (Q : Time -> Duration -> Prop) (b : banListState) (now : Time) :
  bl_inv shard_hash Q b -> Q now (ttlOrDefault b) -> bl_inv shard_hash Q (rebuildLocked b now).
Proof.
  intros [Hv Hr Hc Hs Hz] HQ. split; [|done|done| |done].
  - by eapply views_ext; [..|exact Hv].
  - intros _ s [= <-]. by eexists _, _.
Qed.

Lemma history_inv (cap : Z) (clock : Time) (low : Duration) (b : banListState) :
  history cap clock low b ->
  bl_inv shard_hash (compiled_by clock low) b /\ preds_ok b /\ capacity b = cap /\ low <= ttlOrDefault b.
Proof.
  induction 1 as [d now|clock low b expr pr now1 now2 _ (IH1 & IH2 & IH3 & IH4) Hc Hle
                 |clock low b now _ (IH1 & IH2 & IH3 & IH4) Hle|clock low b obj won now _ (IH1 & IH2 & IH3 & IH4) Hle
                 |clock low b d _ (IH1 & IH2 & IH3 & IH4)].
  - split_and!; [|by intros p ban Hp; simpl in Hp; rewrite lookup_empty in Hp|done|lia].
    split; [|done|pose proof (capOrDefault_pos (NewBanList d cap)); unfold len; simpl; lia|done|done].
    split; simpl; try (intros; set_solver). apply NoDup_nil_2.
  - unfold registerBan. set (c := if is_zero (CreatedAt expr) then now1 else CreatedAt expr).
    destruct (register_ok shard_hash (compiled_by now2 low) b expr pr c now2) as (R1 & [R2 R3] & _).
    { eapply bl_inv_weaken; [|exact IH1]. unfold compiled_by. intros; lia. }
    split_and!; [done|by apply register_preds|congruence|]. unfold ttlOrDefault. rewrite R2. exact IH4.
  - destruct (pruneExpired_ok shard_hash (compiled_by now low) b now) as (R1 & [R2 R3] & _).
    { eapply bl_inv_weaken; [|exact IH1]. unfold compiled_by. intros; lia. }
    { unfold compiled_by. lia. }
    split_and!; [done| |congruence|unfold ttlOrDefault; by rewrite R2].
    intros p ban. rewrite pruneExpired_bans. apply IH2.
  - assert (bl_inv shard_hash (compiled_by now low) b) as IH1'.
    { eapply bl_inv_weaken; [|exact IH1]. unfold compiled_by. intros; lia. }
    destruct (matches_state b obj won now) as [-> | ->]; [done|].
    split_and!; try done. apply rebuild_inv; [done|]. unfold compiled_by. lia.
  - split_and!; [|done..|unfold ttlOrDefault in *; lia].
    destruct IH1 as [Hv Hr Hcap Hs Hz]. split; [|done|done| |done].
    + by eapply views_ext; [..|exact Hv].
    + intros Hd s Hsn. destruct (Hs Hd s Hsn) as (n & d' & [HQ HQ'] & ->). exists n, d'. split; [|done].
      unfold compiled_by. lia.
Qed.
(** *** Lookups after any history *)

(** With the lock or a clean view, a lookup reads a compilation of the current
    list, and the surrogate set. *)
Lemma matches_value (Q : Time -> Duration -> Prop) (b : banListState) (obj : Object.t) (won : bool) (now : Time) :
  bl_inv shard_hash Q b -> Q now (ttlOrDefault b) -> won = true \/ dirty b = false ->
  exists t d, (Q t d \/ rest b = []) /\
    (matches shard_hash b obj won now).2
    = snap_matches (compileBanSnapshot (deref b (rest b)) t d) obj || surr_matches shard_hash (bans b) (surr b) obj.
Proof.
  intros [_ _ _ Hs Hz] HQ Hw. unfold matches, snapshot.
  destruct (snap b) as [s|] eqn:Es, (dirty b) eqn:Ed.
  - destruct Hw as [->|]; [|done]. simpl. exists now, (ttlOrDefault b). auto.
  - destruct (Hs eq_refl s eq_refl) as (t & d & Ht & ->). exists t, d. auto.
  - destruct Hw as [->|]; [|done]. simpl. exists now, (ttlOrDefault b). auto.
  - destruct won; simpl; [exists now, (ttlOrDefault b); auto|]. rewrite Es. exists now, (ttlOrDefault b).
    rewrite (Hz eq_refl eq_refl). auto.
Qed.

(** The surrogate set answers for the surrogate bans of the list. *)
Lemma surr_matches_iff (b : banListState) (S : list ptr) (obj : Object.t) :
  views shard_hash b S -> (forall p ban, p ∈ S -> bans b !! p = Some ban -> time_ok (created ban)) ->
  surr_matches shard_hash (bans b) (surr b) obj = true <->
  exists p ban, p ∈ S /\ bans b !! p = Some ban /\ surrogate ban = true /\
    (Object.StoredAt obj <= created ban) /\ surrogateKey (pattern ban) ∈ Object.SurrogateKeys obj.
Proof.
  intros [Hb _ _ _ Hwf Hs] Ht. unfold surr_matches.
  destruct (surr b) as [t|] eqn:Et.
  2:{ split; [by case_tests|]. intros (p & ban & Hp & Hban & Hsur & _).
      assert (surr_lookup shard_hash None (surrogateKey (pattern ban)) = Some p) by (apply Hs; eauto). done. }
  assert (forall k, shard_find (load shard_hash t k) k = surr_lookup shard_hash (Some t) k) as Hf.
  { intros k. apply shard_find_lookup. by apply load_sorted. }
  transitivity (exists k, k ∈ Object.SurrogateKeys obj /\
    match shard_find (load shard_hash t k) k with
    | Some p => match bans b !! p with Some ban => subjectToNanos obj (exemptNanos ban) | None => false end
    | None => false end = true).
  { rewrite <- existsb_elem. destruct (Object.SurrogateKeys obj) as [|k ks]; [done|].
    rewrite (proj2 (Z.eqb_neq (len (k :: ks)) 0)); [done|]. rewrite len_cons. pose proof (len_nonneg ks). lia. }
  split.
  - intros (k & Hk & Hm). rewrite Hf in Hm. destruct (surr_lookup _ (Some t) k) as [p|] eqn:El; [|done].
    apply Hs in El as (Hp & ban & Hban & Hsur & Hkey). rewrite Hban in Hm.
    destruct (Hb p Hp) as (ban' & Hban' & Hok). rewrite Hban in Hban'. injection Hban' as <-.
    rewrite (proj2 (subject_exempt ban obj Hok (Ht p ban Hp Hban))) in Hm.
    exists p, ban. split_and!; [done..|by apply Z.leb_le|by rewrite Hkey].
  - intros (p & ban & Hp & Hban & Hsur & Hst & Hk). exists (surrogateKey (pattern ban)). split; [done|].
    rewrite Hf, (proj2 (Hs _ p)) by eauto. rewrite Hban.
    destruct (Hb p Hp) as (ban' & Hban' & Hok). rewrite Hban in Hban'. injection Hban' as <-.
    rewrite (proj2 (subject_exempt ban obj Hok (Ht p ban Hp Hban))). by apply Z.leb_le.
Qed.

(** Lists whose instants and patterns the code can represent. *)
Definition good_list (l : list (banPattern * Time)) : Prop := forall e, e ∈ l -> time_ok e.2 /\ regular_ban e.1 = true.

Lemma abs_elem (b : banListState) (S : list ptr) (e : banPattern * Time) :
  e ∈ map (fun ban => (pattern ban, created ban)) (deref b S) <->
  exists p ban, p ∈ S /\ bans b !! p = Some ban /\ e = (pattern ban, created ban).
Proof.
  rewrite list_elem_of_fmap. unfold deref. setoid_rewrite list_elem_of_omap. naive_solver.
Qed.

Lemma good_times (b : banListState) :
  good_list (abs_bans b) -> forall p ban, p ∈ blist b -> bans b !! p = Some ban -> time_ok (created ban).
Proof. intros Hg p ban Hp Hban. apply (Hg (pattern ban, created ban)), abs_elem. eauto. Qed.

Lemma good_rest (Q : Time -> Duration -> Prop) (b : banListState) (p : ptr) (ban : activeBan) :
  bl_inv shard_hash Q b -> preds_ok b -> good_list (abs_bans b) -> p ∈ blist b -> bans b !! p = Some ban ->
  good_ban regexp_compile ban.
Proof.
  intros [Hv _ _ _ _] Hpr Hg Hp Hban. destruct (views_lookup _ _ _ p Hv Hp) as (ban' & Hban' & Hok).
  rewrite Hban in Hban'. injection Hban' as <-.
  destruct (Hg (pattern ban, created ban)) as [Ht Hr]; [apply abs_elem; eauto|].
  split_and!; [done..|by eapply Hpr].
Qed.

Lemma rest_elem (Q : Time -> Duration -> Prop) (b : banListState) (ban : activeBan) :
  bl_inv shard_hash Q b ->
  ban ∈ deref b (rest b) <-> exists p, p ∈ blist b /\ bans b !! p = Some ban /\ surrogate ban = false.
Proof.
  intros [_ Hr _ _ _]. unfold deref. rewrite list_elem_of_omap, Hr.
  setoid_rewrite list_elem_of_In. setoid_rewrite filter_In. unfold non_surrogate. split.
  - intros (p & [Hp Hn] & Hban). rewrite Hban in Hn. exists p. split_and!; [done..|by destruct (surrogate ban)].
  - intros (p & Hp & Hban & Hn). exists p. rewrite Hban, Hn. done.
Qed.

Lemma is_surrogate_class (pat : banPattern) :
  is_surrogate pat = true <-> classifyBan pat = banClassLiteralSurrogate.
Proof. unfold is_surrogate. by destruct (classifyBan pat). Qed.

Lemma hasSurrogateKey_elem (keys : list bytes) (key : bytes) : hasSurrogateKey keys key = true <-> key ∈ keys.
Proof.
  unfold hasSurrogateKey. rewrite existsb_elem. setoid_rewrite beq_eq. naive_solver.
Qed.

(** A surrogate ban covers the objects that carry its key. *)
Lemma surrogate_hit (ban : activeBan) (obj : Object.t) :
  classifyBan (pattern ban) = banClassLiteralSurrogate ->
  hit_of regexp_compile obj ban = true <->
  (Object.StoredAt obj <= created ban) /\ surrogateKey (pattern ban) ∈ Object.SurrogateKeys obj.
Proof.
  intros Hc. pose proof (classify_cases (pattern ban)) as Hcs. rewrite Hc in Hcs. destruct Hcs as (Hh & Hp & Hk).
  unfold hit_of, ban_hit, pattern_holds. cbn [fst snd]. rewrite Hh, Hp.
  rewrite (proj2 (beq_neq (surrogateKey (pattern ban)) []) Hk). cbn [condition].
  rewrite andb_true_iff, Z.leb_le. change (condition _ [] _) with true. cbn [andb orb].
  by rewrite hasSurrogateKey_elem.
Qed.

(** The ban list refines an ordered list of patterns with one time each.
    After any history, registering pops the expired heads and then moves the
    time of a known pattern in place or appends a new one, dropping the
    oldest at capacity; a sweep removes exactly the expired bans; lookups and
    TTL changes leave the list alone. No pattern occurs twice and the list
    never exceeds its capacity. *)
Theorem ban_list_refines (cap : Z) (clock : Time) (low : Duration) (b : banListState) :
  history cap clock low b ->
  (forall expr pr now1 now2,
     abs_bans (registerBan shard_hash b expr pr now1 now2)
     = spec_register (ttlOrDefault b) (capOrDefault b) (patternOf expr)
         (if is_zero (CreatedAt expr) then now1 else CreatedAt expr) now2 (abs_bans b)) /\
  (forall now, abs_bans (pruneExpired shard_hash b now) = spec_prune (ttlOrDefault b) now (abs_bans b)) /\
  (forall obj won now, abs_bans (matches shard_hash b obj won now).1 = abs_bans b) /\
  (forall d, abs_bans (setTTL b d) = abs_bans b) /\
  NoDup (abs_bans b).*1 /\ len (abs_bans b) <= capOrDefault b.
Proof.
  intros Hh. destruct (history_inv _ _ _ _ Hh) as (Hinv & _). split_and!.
  - intros. apply (register_ok shard_hash _ b expr pr _ now2 Hinv).
  - intros now. assert (bl_inv shard_hash (fun _ _ => True) b) as Hinv' by by eapply bl_inv_weaken.
    apply (pruneExpired_ok shard_hash _ b now Hinv' I).
  - intros. by destruct (matches_state b obj won now) as [-> | ->].
  - done.
  - destruct Hinv as [Hv _ _ _ _]. unfold abs_bans. change (map ?f ?l) with (f <$> l). rewrite <- list_fmap_compose.
    assert (forall l, NoDup l -> (forall p, p ∈ l -> p ∈ blist b) ->
      NoDup ((fst ∘ fun ban => (pattern ban, created ban)) <$> deref b l)) as Hgo; [|apply Hgo; [apply Hv|done]].
    induction l as [|p l IH]; intros Hn Hin; [constructor|]. apply NoDup_cons in Hn as [Hp Hn].
    destruct (views_lookup _ _ _ p Hv) as (ban & Hban & _); [apply Hin; by left|].
    rewrite (deref_cons _ _ _ _ Hban). simpl. apply NoDup_cons. split; [|apply IH; [done|set_solver]].
    intros (x & Hx & (q & Hq & Hqx)%list_elem_of_omap)%list_elem_of_fmap. simpl in Hx.
    assert (index b !! pattern ban = Some p) by (apply (v_index _ _ _ Hv); set_solver).
    assert (index b !! pattern ban = Some q) by (apply (v_index _ _ _ Hv); set_solver). congruence.
  - unfold len. rewrite (abs_length shard_hash _ b Hinv). apply Hinv.
Qed.

Context `{!RegexpLaws regexp_compile}.

(** C22. No object is invalidated without a ban: after any history, when a
    lookup that won the lock or reads a clean snapshot reports a match, a
    ban of the list covers the object, which was stored no later than the ban
    and satisfies its host, path and surrogate-key conditions. The anchored
    patterns of the list escape only punctuation: with a class such as a backslash
    and d, which the code reads as the letter, objects the regexp does not match
    are taken ([escape_class_read_as_letter]). *)
Theorem ban_match_sound (cap : Z) (clock : Time) (low : Duration) (b : banListState)
    (obj : Object.t) (won : bool) (now : Time) :
  history cap clock low b -> good_list (abs_bans b) -> won = true \/ dirty b = false ->
  (matches shard_hash b obj won now).2 = true ->
  exists e, e ∈ abs_bans b /\ ban_hit regexp_compile obj e = true.
Proof.
  intros Hh Hg Hw Hm. destruct (history_inv _ _ _ _ Hh) as (Hinv & Hpr & _).
  assert (bl_inv shard_hash (fun _ _ => True) b) as Hi by by eapply bl_inv_weaken.
  destruct (matches_value _ b obj won now Hi I Hw) as (t & d & _ & E). rewrite E in Hm.
  apply orb_prop in Hm as [Hm|Hm].
  - apply (snap_sound regexp_compile) in Hm as (ban & Hin & Hhit).
    + apply (rest_elem _ b ban Hi) in Hin as (p & Hp & Hban & _).
      exists (pattern ban, created ban). split; [apply abs_elem; eauto|done].
    + intros ban (p & Hp & Hban & _)%(rest_elem _ b ban Hi). by eapply good_rest.
  - apply (surr_matches_iff b (blist b)) in Hm as (p & ban & Hp & Hban & Hsur & Hst & Hk).
    + exists (pattern ban, created ban). split; [apply abs_elem; eauto|].
      apply surrogate_hit; [|done]. destruct (views_lookup _ _ _ p (inv_views _ _ _ Hi) Hp) as (ban' & Hban' & [Hs _]).
      rewrite Hban in Hban'. injection Hban' as <-. apply is_surrogate_class. congruence.
    + apply Hi.
    + by apply good_times.
Qed.

Lemma matches_complete (cap : Z) (clock : Time) (low : Duration) (b : banListState)
    (obj : Object.t) (won : bool) (now : Time) (ban : activeBan) :
  history cap clock low b -> clock <= now -> good_list (abs_bans b) -> won = true \/ dirty b = false ->
  ban ∈ deref b (blist b) -> hit_of regexp_compile obj ban = true -> t_sub now (created ban) < low ->
  (forall e, e ∈ abs_bans b -> same_slot e.1 (pattern ban) -> created ban <= e.2) ->
  (classifyBan (pattern ban) = banClassLiteralHost \/ classifyBan (pattern ban) = banClassLiteralPath \/
   classifyBan (pattern ban) = banClassLiteralSurrogate \/ pred ban obj = true) ->
  (matches shard_hash b obj won now).2 = true.
Proof.
  intros Hh Hnow Hg Hw Hin Hhit Hlive Hslot Hcl. destruct (history_inv _ _ _ _ Hh) as (Hinv & Hpr & _ & Hlow).
  assert (bl_inv shard_hash (compiled_by now low) b) as Hi
    by (eapply bl_inv_weaken; [|exact Hinv]; unfold compiled_by; intros; lia).
  destruct (matches_value _ b obj won now Hi ltac:(unfold compiled_by; lia) Hw) as (t & d & Hq & E). rewrite E.
  apply list_elem_of_omap in Hin as (p & Hp & Hban).
  destruct (views_lookup _ _ _ p (inv_views _ _ _ Hi) Hp) as (ban' & Hban' & [Hs _]).
  rewrite Hban in Hban'. injection Hban' as <-. apply orb_true_iff.
  destruct (surrogate ban) eqn:Esur.
  - right. apply (surr_matches_iff b (blist b)); [apply Hi|by apply good_times|].
    + exists p, ban. symmetry in Hs. apply is_surrogate_class in Hs. by apply surrogate_hit in Hhit as [? ?].
  - left. assert (ban ∈ deref b (rest b)) as Hr by (apply (rest_elem _ b ban Hi); eauto).
    destruct Hq as [[Ht Hd]|Hq]; [|rewrite Hq in Hr; by apply not_elem_of_nil in Hr].
    apply (snap_complete regexp_compile _ t d obj ban); try done.
    + intros x (q & Hq & Hx & _)%(rest_elem _ b x Hi). by eapply good_rest.
    + unfold live_ban. destruct (d <=? _) eqn:E'; [|done]. bool_cases. unfold t_sub in *. lia.
    + intros x (q & Hq & Hx & _)%(rest_elem _ b x Hi) Hsl. apply (Hslot (pattern x, created x)); [|done].
      apply abs_elem. eauto.
    + destruct Hcl as [?|[?|[Hc|?]]]; auto. apply is_surrogate_class in Hc. congruence.
Qed.

(** C21. After any history of the list, a ban on it that covers an object is found by
    a lookup within the smallest TTL in force so far, whatever the class of the
    ban, under these conditions. The lookup won the lock or reads a clean snapshot
    (one that lost it to a concurrent caller may read the view from before the
    ban). The anchored patterns of the list escape only punctuation: a class such
    as a backslash and d is read as a letter ([escape_class_read_as_letter]). For
    a literal host or path, no ban of the same literal has an earlier time
    ([shared_slot_under_invalidates]). For a prefix or regexp, the predicate
    compiled with the ban accepts the object: a ban issued again keeps the
    predicate of its first issue ([reissued_ban_keeps_old_exemption]). *)
Theorem ban_match_complete (cap : Z) (clock : Time) (low : Duration) (b : banListState)
    (obj : Object.t) (won : bool) (now : Time) (ban : activeBan) :
  history cap clock low b -> clock <= now -> good_list (abs_bans b) -> won = true \/ dirty b = false ->
  ban ∈ deref b (blist b) -> hit_of regexp_compile obj ban = true -> t_sub now (created ban) < low ->
  (forall e, e ∈ abs_bans b -> same_slot e.1 (pattern ban) -> created ban <= e.2) ->
  (classifyBan (pattern ban) = banClassLiteralHost \/ classifyBan (pattern ban) = banClassLiteralPath \/
   classifyBan (pattern ban) = banClassLiteralSurrogate \/ pred ban obj = true) ->
  (matches shard_hash b obj won now).2 = true.
Proof. apply matches_complete. Qed.

End Histories.

(** ** An engine that satisfies the laws, and concrete histories *)

(** Anchored literals only: what the laws speak about. *)
Definition mini_compile (pat : bytes) : option (bytes -> bool) :=
  match pat with
  | c :: t =>
      if negb (beqb c (ch "^")) then None
      else match (if last_is (ch "$") t then plain_body (take (length t - 1) t) else None) with
           | Some lit => Some (fun s => beq s lit)
           | None => match plain_body t with Some lit => Some (fun s => has_prefix s lit) | None => None end
           end
  | [] => None
  end.

(** An unescaped [$] ends a plain body. *)
Lemma plain_body_dollar (n : nat) (body lit : bytes) :
  (length body <= n)%nat -> plain_body body = Some lit -> plain_body (body ++ [ch "$"]) = None.
Proof.
  revert body lit. induction n as [|n IH]; intros body lit Hn; (destruct body as [|c rest]; [done|]);
    simpl in Hn; [lia|]. rewrite <- app_comm_cons. cbn [plain_body].
  case_tests; try done.
  - destruct rest as [|d rest']; [done|]. rewrite <- app_comm_cons. case_tests; [done|].
    destruct (plain_body rest') as [l|] eqn:E; [|done]. intros _. simpl in Hn. by rewrite (IH rest' l) by (done || lia).
  - destruct (plain_body rest) as [l|] eqn:E; [|done]. intros _. by rewrite (IH rest l) by (done || lia).
Qed.

#[export] Instance mini_laws : RegexpLaws mini_compile.
Proof.
  split; intros body lit Hb; unfold mini_compile; rewrite beqb_refl; cbn [negb].
  - unfold last_is. rewrite last_snoc, beqb_refl, length_app. cbn [length].
    replace (length body + 1 - 1)%nat with (length body) by lia. rewrite take_app_length, Hb. by eexists.
  - rewrite Hb. destruct (last_is (ch "$") body) eqn:El; [|by eexists].
    destruct body as [|z t _] using rev_ind; [done|].
    unfold last_is in El. rewrite last_snoc in El. apply beqb_eq in El. subst z.
    rewrite length_app. cbn [length]. replace (length t + 1 - 1)%nat with (length t) by lia. rewrite take_app_length.
    destruct (plain_body t) as [l|] eqn:E; [|by eexists].
    by rewrite (plain_body_dollar (length t) t l) in Hb.
Qed.

Definition demo_obj (host path : string) (stored : Time) : Object.t :=
  {| Object.zero with Object.StoredAt := stored; Object.SurrogateKeys := [bs "tag"];
       Object.Header := Set_ (Set_ NewMap Hdr.XBouineHost (bs host)) Hdr.XBouinePath (bs path) |}.

Definition ban_of (c : Time) (host path key : string) : BanExpr := MkBanExpr c (bs host) (bs path) (bs key).

(** One admin ban after another, each issued and registered at its time. *)
Definition demo_bans (l : list (Time * BanExpr)) (b : banListState) : banListState :=
  foldl (fun b '(now, expr) => match compileBanPredicate mini_compile expr with
                               | Ok pr => registerBan (fun _ => 0) b expr pr now now
                               | Err _ => b
                               end) b l.

Lemma demo_history (cap : Z) (clock last_ : Time) (low : Duration) (l : list (Time * BanExpr)) (b : banListState) :
  history (fun _ => 0) mini_compile cap clock low b -> Forall (fun e => clock <= e.1 /\ e.1 <= last_) l ->
  StronglySorted (fun x y => x.1 <= y.1) l -> clock <= last_ ->
  exists clock', clock <= clock' <= last_ /\ history (fun _ => 0) mini_compile cap clock' low (demo_bans l b).
Proof.
  intros Hb Hl Hs. revert clock b Hb Hl. induction Hs as [|[now expr] l Hs IH Hfa]; intros clock b Hb Hl Hle.
  - exists clock. split; [lia|done].
  - inversion Hl as [|?? [H1 H2] Hl']; subst. unfold demo_bans. cbn [foldl]. simpl in H1, H2.
    destruct (compileBanPredicate mini_compile expr) as [pr|] eqn:E.
    + destruct (IH now (registerBan (fun _ => 0) b expr pr now now)) as (c' & Hc' & Hh).
      * by eapply H_register.
      * rewrite Forall_forall in Hfa, Hl'. apply Forall_forall. intros x Hx. split; [by apply Hfa|by apply Hl'].
      * lia.
      * exists c'. split; [lia|done].
    + by apply IH.
Qed.

Definition three_bans : banListState :=
  demo_bans [(10, ban_of zero_time "^a\.example$" "" ""); (20, ban_of zero_time "" "^/img/" "");
             (30, ban_of zero_time "" "" "tag")] (NewBanList 0 0).

Lemma three_bans_history :
  exists clock, 0 <= clock <= 30 /\ history (fun _ => 0) mini_compile 0 clock DefaultBanTTL three_bans.
Proof.
  apply (demo_history 0 0 30 DefaultBanTTL); [exact (H_new _ _ 0 0 0)|repeat constructor; simpl; lia| |lia].
  repeat constructor; simpl; lia.
Qed.

Lemma ban_list_refines_witness :
  exists clock, history (fun _ => 0) mini_compile 0 clock DefaultBanTTL three_bans /\ NoDup (abs_bans three_bans).*1.
Proof.
  destruct three_bans_history as (clock & _ & Hh). exists clock. split; [done|].
  apply (ban_list_refines (fun _ => 0) mini_compile 0 clock DefaultBanTTL three_bans Hh).
Defined.

Lemma three_bans_good : good_list (abs_bans three_bans).
Proof.
  assert (abs_bans three_bans = [(MkPattern (bs "^a\.example$") [] [], 10); (MkPattern [] (bs "^/img/") [], 20);
                                 (MkPattern [] [] (bs "tag"), 30)]) as E by (vm_compute; reflexivity).
  assert (forall c, 0 <= c <= 30 -> time_ok c) as Ht by (intros c Hc; unfold time_ok, min_i64, max_i64; lia).
  intros e He. rewrite E, !elem_of_cons, elem_of_nil in He.
  destruct He as [->|[->|[->|[]]]]; (split; [apply Ht; cbn [snd]; lia|by vm_compute]).
Qed.

Lemma ban_match_sound_witness :
  (matches (fun _ => 0) three_bans (demo_obj "b" "/img/x" 15) true 40).2 = true /\
  exists e, e ∈ abs_bans three_bans /\ ban_hit mini_compile (demo_obj "b" "/img/x" 15) e = true.
Proof.
  assert ((matches (fun _ => 0) three_bans (demo_obj "b" "/img/x" 15) true 40).2 = true) as Hm
    by (vm_compute; reflexivity).
  split; [done|]. destruct three_bans_history as (clock & _ & Hh).
  apply (ban_match_sound (fun _ => 0) mini_compile 0 clock DefaultBanTTL three_bans _ true 40 Hh three_bans_good).
  - by left.
  - done.
Defined.

Lemma ban_match_complete_witness :
  (matches (fun _ => 0) three_bans (demo_obj "b" "/img/x" 15) true 40).2 = true.
Proof.
  destruct three_bans_history as (clock & Hc & Hh).
  destruct (deref three_bans (blist three_bans) !! 1%nat) as [ban|] eqn:E; [|by vm_compute in E].
  assert (ban ∈ deref three_bans (blist three_bans)) as Hin by by eapply list_elem_of_lookup_2.
  assert (pattern ban = MkPattern [] (bs "^/img/") [] /\ created ban = 20) as [Hp Hcr]
    by (vm_compute in E; by injection E as <-).
  assert (pred ban (demo_obj "b" "/img/x" 15) = true) as Hpr
    by (vm_compute in E; injection E as <-; by vm_compute).
  assert (hit_of mini_compile (demo_obj "b" "/img/x" 15) ban = true) as Hhit
    by (unfold hit_of; rewrite Hp, Hcr; vm_compute; reflexivity).
  assert (t_sub 40 (created ban) < DefaultBanTTL) as Hlive by (rewrite Hcr; vm_compute; reflexivity).
  assert (forall e, e ∈ abs_bans three_bans -> same_slot e.1 (pattern ban) -> created ban <= e.2) as Hslot.
  { intros e _ [Hc' Hs]. rewrite Hc', Hp in Hs. vm_compute in Hs. destruct Hs. }
  exact (ban_match_complete (fun _ => 0) mini_compile 0 clock DefaultBanTTL three_bans _ true 40 ban Hh
           ltac:(lia) three_bans_good (or_introl eq_refl) Hin Hhit Hlive Hslot
           (or_intror (or_intror (or_intror Hpr)))).
Defined.

(** *** Inputs on which a ban is not enforced *)

(** Re-issuing a prefix or regexp ban moves its time but keeps the predicate
    compiled for the first issue, which still exempts what was stored since:
    an object the refreshed ban covers stays in the cache. *)
Example reissued_ban_keeps_old_exemption :
  let b := demo_bans [(10, ban_of 10 "" "^/img/" ""); (30, ban_of 30 "" "^/img/" "")] (NewBanList 0 0) in
  abs_bans b = [(MkPattern [] (bs "^/img/") [], 30)] /\
  ban_hit mini_compile (demo_obj "b" "/img/x" 20) (MkPattern [] (bs "^/img/") [], 30) = true /\
  (matches (fun _ => 0) b (demo_obj "b" "/img/x" 20) true 40).2 = false.
Proof. vm_compute. done. Qed.

(** A class such as backslash-d is read as the letter: whatever the engine
    says of [^/item/\d], only paths that start with "/item/d" are tried, and
    [^/item/\d$] bans the path "/item/d". *)
Example escape_class_read_as_letter (pr : banPredicate) :
  classifyBan (MkPattern [] (bs "^/item/\d") []) = banClassPrefixPath /\
  anchoredPrefix (bs "^/item/\d") = bs "/item/d" /\
  (matches (fun _ => 0) (registerBan (fun _ => 0) (NewBanList 0 0) (ban_of zero_time "" "^/item/\d" "") pr 10 10)
     (demo_obj "b" "/item/7" 5) true 40).2 = false /\
  (matches (fun _ => 0) (registerBan (fun _ => 0) (NewBanList 0 0) (ban_of zero_time "" "^/item/\d$" "") pr 10 10)
     (demo_obj "b" "/item/d" 5) true 40).2 = true.
Proof. vm_compute. done. Qed.

(** [/a] and [^/a$] share a slot of the compiled view: registering the second
    with an earlier time takes the first out of force. *)
Example shared_slot_under_invalidates :
  let b := demo_bans [(30, ban_of 30 "" "/a" ""); (40, ban_of 10 "" "^/a$" "")] (NewBanList 0 0) in
  existsb (ban_hit mini_compile (demo_obj "b" "/a" 20)) (abs_bans b) = true /\
  (matches (fun _ => 0) b (demo_obj "b" "/a" 20) true 50).2 = false.
Proof. vm_compute. done. Qed.

(** A host name is no literal: the dot is a metacharacter, so the pattern
    goes to the regexp engine, unanchored. *)
Example host_name_is_a_regexp : classifyBan (patternOf (ban_of 0 "example.com" "" "")) = banClassOpaque.
Proof. reflexivity. Qed.
