(* ===== verification/EvictIndex.v ===== *)
(** * An index over an eviction list

    Both tiers keep a map from keys to entries and an eviction list, and each
    entry of the map knows its node of the list. This file relates the two
    under every operation of the [EvictionPolicy] interface, and sums over the
    map what the tiers count. *)

From S2P Require Import Prelude GoStd Evictor.

(** ** The list and the index *)

Lemma clock_keys {K} (chance : K * bool * Z -> option (K * bool * Z)) (n : nat) (ring ring' : list addr)
    (d d' : gmap addr (K * bool * Z)) (v : option addr) :
  (forall x y, chance x = Some y -> y.1.1 = x.1.1) ->
  clock chance n ring d = (ring', d', v) ->
  forall a, (fun x => x.1.1) <$> d' !! a = (fun x => x.1.1) <$> d !! a.
Proof.
  intros Hch. revert ring d. induction n as [|n IH]; intros ring d; [by intros [= _ <- _]|].
  destruct ring as [|b r]; [by intros [= _ <- _]|]. cbn [clock].
  destruct (d !! b) as [x|] eqn:Hx; [|by intros [= _ <- _]].
  destruct (chance x) as [y|] eqn:Hc; [|by intros [= _ <- _]].
  intros H a. rewrite (IH _ _ H a). destruct (decide (a = b)) as [->|].
  - rewrite lookup_insert_eq, Hx. simpl. by rewrite (Hch x y).
  - by rewrite lookup_insert_ne.
Qed.

Definition mark_visited {K} (l : List K) (a : addr) : List K := {| l with heap := alter MarkVisited a (heap l) |}.

Section Links.
Context {K : Type} `{HC : Countable K} {P : EvictionPolicy K} {A : Type} {node : A -> addr}.

(** The list holds exactly the entries of the index, each at its address. *)
Record linked (l : List K) (m : gmap K A) : Prop := {
  lk_repr : exists als, repr l als;
  lk_good : good (contents l);
  lk_entry : forall k e, m !! k = Some e -> exists x, contents l !! node e = Some x /\ x.1.1 = k;
  lk_key : forall a x, contents l !! a = Some x -> exists e, m !! x.1.1 = Some e /\ node e = a;
}.

Lemma linked_new : linked Dll.NewList ∅.
Proof.
  destruct (shard_ok_new (K := K)) as (als & Hr & Hg). split; [by exists als|done|..].
  - intros k e. by rewrite lookup_empty.
  - intros a x. unfold contents. simpl. by rewrite fmap_empty, lookup_empty.
Qed.

Lemma linked_len (l : List K) (m : gmap K A) : linked l m -> llen l = Z.of_nat (size m).
Proof.
  intros [[als Hr] Hg Hen Hk]. rewrite (r_len _ _ _ Hr). unfold len. f_equal.
  rewrite <- length_map_to_list, <- (length_fmap (fun p => node p.2)). symmetry.
  apply Permutation_length, NoDup_Permutation.
  - apply NoDup_fmap_2_strong; [|apply NoDup_map_to_list].
    intros [k1 e1] [k2 e2] H1%elem_of_map_to_list H2%elem_of_map_to_list E. simpl in E.
    destruct (Hen k1 e1 H1) as (x1 & Hx1 & <-), (Hen k2 e2 H2) as (x2 & Hx2 & <-). rewrite E in Hx1.
    rewrite Hx1 in Hx2. injection Hx2 as <-. rewrite H1 in H2. by injection H2 as <-.
  - apply (r_nodup _ _ _ Hr).
  - intros a. rewrite (repr_elem _ _ _ Hr), list_elem_of_fmap. split.
    + intros ([k e] & -> & He%elem_of_map_to_list). destruct (Hen k e He) as (x & Hx & _).
      unfold contents in Hx. rewrite lookup_fmap in Hx. simpl. by destruct (heap l !! node e).
    + intros [y Hy]. destruct (Hk a (erase y)) as (e & He & Ha); [unfold contents; by rewrite lookup_fmap, Hy|].
      exists ((erase y).1.1, e). split; [done|]. by apply elem_of_map_to_list.
Qed.

Lemma chance_keys (x y : K * bool * Z) : p_chance x = Some y -> y.1.1 = x.1.1.
Proof. intros H. by apply p_chance_good in H as [? _]. Qed.

(** A sweep takes one entry out of both, or changes nothing the index sees. *)
Lemma linked_evict (l l' : List K) (m : gmap K A) (n : Z) (r : option K) :
  linked l m -> p_evict l n = (l', r) ->
  match r with
  | None => linked l' m
  | Some k => linked l' (delete k m) /\ is_Some (m !! k)
  end.
Proof.
  intros [[als Hr] Hg Hen Hk] He. pose proof (p_evict_clock l als n Hr) as Hs.
  pose proof (shard_evict_ok P l n (ex_intro _ als (conj Hr Hg))) as (als' & Hr' & Hg').
  rewrite He in Hs, Hr', Hg'. simpl in Hr', Hg'.
  destruct (clock _ _ _ _) as [[ring' d'] v] eqn:Ec.
  pose proof (clock_keys p_chance _ _ _ _ _ _ chance_keys Ec) as Hkeys. simpl in Hs.
  assert (forall a k, (exists x, contents l !! a = Some x /\ x.1.1 = k) <->
                      (exists x, d' !! a = Some x /\ x.1.1 = k)) as Hex.
  { intros a k. specialize (Hkeys a). destruct (contents l !! a) as [x|], (d' !! a) as [y|]; simplify_eq/=;
      naive_solver. }
  destruct v as [a|].
  - destruct Hs as (l1 & l2 & x & -> & Hx & -> & _ & Hc & _).
    destruct (proj2 (Hex a x.1.1)) as (x0 & Hx0 & Hk0); [eauto|].
    destruct (Hk a x0 Hx0) as (e & Hme & Hea). rewrite Hk0 in Hme. split; [|by rewrite Hme].
    split; [by eexists|done|..].
    + intros k e'. rewrite lookup_delete_Some. intros [Hne He']. rewrite Hc.
      destruct (proj1 (Hex (node e') k) (Hen k e' He')) as (y & Hy & Hky). exists y. split; [|done].
      apply lookup_delete_Some. split; [|done]. intros E. subst. rewrite <- E in Hy. congruence.
    + intros b y. rewrite Hc, lookup_delete_Some. intros [Hne Hy].
      destruct (proj2 (Hex b y.1.1)) as (y0 & Hy0 & Hky0); [eauto|].
      destruct (Hk b y0 Hy0) as (e' & He' & Hb). rewrite Hky0 in He'. exists e'. split; [|done].
      apply lookup_delete_Some. split; [|done]. intros E. rewrite <- E in He'. congruence.
  - destruct Hs as (-> & _ & Hc & _). split; [by eexists|done|..]; rewrite Hc.
    + intros k e He'. by apply Hex, Hen.
    + intros b y Hy. destruct (proj2 (Hex b y.1.1)) as (y0 & Hy0 & Hky0); [eauto|].
      destruct (Hk b y0 Hy0) as (e' & He' & Hb). rewrite Hky0 in He'. eauto.
Qed.

(** Marking an entry visited. *)
Lemma linked_mark (l : List K) (m : gmap K A) (a : addr) : linked l m -> linked (mark_visited l a) m.
Proof.
  intros [[als Hr] Hg Hen Hk]. unfold mark_visited. destruct (contents l !! a) as [x|] eqn:Hx.
  - destruct (hit_repr l als a x MarkVisited Hr Hx) as (Hr' & y & Hy & Hyx & Hc); [done|].
    assert ((erase (MarkVisited y)).1.1 = x.1.1) as Hkey by by rewrite <- Hyx.
    split; [by exists als| |..]; rewrite ?Hc.
    + apply (good_update _ a x); try done. by rewrite <- Hyx.
    + intros k e He. destruct (Hen k e He) as (z & Hz & Hzk). destruct (decide (node e = a)) as [E|].
      * rewrite E in Hz |- *. rewrite lookup_insert_eq. eexists. split; [done|]. congruence.
      * rewrite lookup_insert_ne by done. eauto.
    + intros b z. rewrite lookup_insert_Some. intros [[<- <-]|[_ Hz]]; [rewrite Hkey|]; eauto.
  - assert (heap l !! a = None) as Ha.
    { unfold contents in Hx. rewrite lookup_fmap in Hx. by destruct (heap l !! a). }
    rewrite alter_id by (intros; congruence). destruct l. split; [by exists als|done..].
Qed.

(** [Access] with no entry for the key: the fresh entry joins both. *)
Lemma linked_fresh (l l' : List K) (m : gmap K A) (lookup : K -> option addr) (fresh a : addr) (k : K) (isNew : bool) (e : A) :
  linked l m -> m !! k = None -> lookup k = None -> heap l !! fresh = None ->
  p_access l k lookup fresh = (l', a, isNew) -> node e = a -> linked l' (<[k := e]> m).
Proof.
  intros [[als Hr] Hg Hen Hk] Hn Hlk Hfr Hi Hea.
  assert (fresh ∉ als) as Hf by (rewrite (repr_elem _ _ _ Hr), Hfr; by intros [? ?]).
  pose proof (p_access_new l als k lookup fresh Hr Hlk Hf) as Ha. rewrite Hi in Ha.
  destruct Ha as (-> & _ & Hr' & Hc). split; [by eexists| |..]; rewrite ?Hc.
  - destruct Hg as [Hu Hb].
    assert (Hnew : forall a' x, contents l !! a' = Some x -> x.1.1 <> k).
    { intros a' x Ha' E. destruct (Hk a' x Ha') as (e' & He' & _). congruence. }
    split.
    + intros b c u v Hb' Hc'. rewrite lookup_insert_Some in Hb', Hc'.
      destruct Hb' as [[<- <-]|[_ Hb']], Hc' as [[<- <-]|[_ Hc']]; simpl; intros E; eauto;
        exfalso; by eapply Hnew.
    + intros b u. rewrite lookup_insert_Some. intros [[<- <-]|[_ Hb']]; [simpl; lia|eauto].
  - intros k' e'. rewrite lookup_insert_Some. intros [[<- <-]|[Hne He']].
    + rewrite Hea, lookup_insert_eq. eexists. done.
    + destruct (Hen k' e' He') as (x & Hx & Hxk). exists x. split; [|done]. rewrite lookup_insert_ne; [done|].
      intros E. unfold contents in Hx. rewrite lookup_fmap, <- E, Hfr in Hx. done.
  - intros b x. rewrite lookup_insert_Some. intros [[<- <-]|[Hne Hx]].
    + exists e. simpl. by rewrite lookup_insert_eq.
    + destruct (Hk b x Hx) as (e' & He' & Hb'). exists e'. split; [|done]. rewrite lookup_insert_ne; [done|].
      intros ->. congruence.
Qed.

Lemma linked_remove (l : List K) (m : gmap K A) (k : K) (e : A) :
  linked l m -> m !! k = Some e -> linked (p_remove l (Some (node e))) (delete k m).
Proof.
  intros [[als Hr] Hg Hen Hk] He. destruct (Hen k e He) as (x & Hx & Hxk).
  assert (node e ∈ als) as Hin.
  { apply (repr_elem _ _ _ Hr). unfold contents in Hx. rewrite lookup_fmap in Hx. by destruct (heap l !! node e). }
  apply list_elem_of_split in Hin as (l1 & l2 & ->). destruct (p_remove_ok _ _ _ _ Hr) as [Hr' Hc].
  split; [by eexists| |..]; rewrite ?Hc.
  - by apply good_delete.
  - intros k' e'. rewrite lookup_delete_Some. intros [Hne He']. destruct (Hen k' e' He') as (y & Hy & Hyk).
    exists y. split; [|done]. apply lookup_delete_Some. split; [|done]. intros E. rewrite <- E in Hy. congruence.
  - intros a y. rewrite lookup_delete_Some. intros [Hne Hy]. destruct (Hk a y Hy) as (e' & He' & Ha).
    exists e'. split; [|done]. apply lookup_delete_Some. split; [|done]. intros E. congruence.
Qed.

Lemma linked_touch (l : List K) (m : gmap K A) (k : K) (e : A) (lookup : K -> option addr) (fresh : addr) :
  linked l m -> m !! k = Some e -> lookup k = Some (node e) ->
  (p_access l k lookup fresh).1.2 = node e /\ linked (p_access l k lookup fresh).1.1 m.
Proof.
  intros [[als Hr] Hg Hen Hk] He Hlk. destruct (Hen k e He) as (x & Hx & Hxk).
  pose proof (p_access_hit l als k lookup fresh (node e) x Hr Hlk Hx) as H.
  destruct (p_access _ _ _ _) as [[l' a'] b']. destruct H as (-> & _ & Hr' & Hc). simpl. split; [done|].
  destruct (p_touch_good x) as [Ht1 Ht2].
  split; [by eexists| |..]; rewrite ?Hc.
  - by apply (good_update _ _ x).
  - intros k' e' He'. destruct (Hen k' e' He') as (y & Hy & Hyk). destruct (decide (node e' = node e)) as [E|].
    + rewrite E, lookup_insert_eq. eexists. split; [done|]. rewrite E in Hy. congruence.
    + rewrite lookup_insert_ne by done. eauto.
  - intros b y. rewrite lookup_insert_Some. intros [[<- <-]|[_ Hy]]; [rewrite Ht1, Hxk|]; eauto.
Qed.

(** Changing an entry but not its place in the list. *)
Lemma linked_update (l : List K) (m : gmap K A) (k : K) (e e' : A) :
  linked l m -> m !! k = Some e -> node e' = node e -> linked l (<[k := e']> m).
Proof.
  intros [Hr Hg Hen Hk] He E. split; [done|done|..].
  - intros k' x. rewrite lookup_insert_Some. intros [[<- <-]|[_ Hx]]; [rewrite E|]; eauto.
  - intros a x Hx. destruct (Hk a x Hx) as (y & Hy & Ha). destruct (decide (k = x.1.1)) as [->|].
    + exists e'. rewrite lookup_insert_eq. split; [done|]. rewrite E. congruence.
    + exists y. by rewrite lookup_insert_ne.
Qed.
End Links.
#[global] Arguments linked {K _ _ A} node l m.

(** ** Sums over the index *)

Section Sums.
Context {K : Type} `{HC : Countable K} {A : Type}.
Implicit Types (g : A -> Z) (m : gmap K A).

Definition map_sum g m : Z := map_fold (fun _ c n => g c + n) 0 m.

Lemma map_sum_insert g m (k : K) (e : A) : m !! k = None -> map_sum g (<[k := e]> m) = g e + map_sum g m.
Proof. intros Hk. unfold map_sum. rewrite map_fold_insert_L; [done| |done]. intros. lia. Qed.

Lemma map_sum_delete g m (k : K) (e : A) : m !! k = Some e -> map_sum g (delete k m) = map_sum g m - g e.
Proof.
  intros Hk. rewrite <- (insert_delete_id m k e Hk) at 2. rewrite map_sum_insert by apply lookup_delete_eq. lia.
Qed.

Lemma map_sum_update g m (k : K) (e e' : A) : m !! k = Some e -> map_sum g (<[k := e']> m) = map_sum g m - g e + g e'.
Proof.
  intros Hk. rewrite <- insert_delete_eq, map_sum_insert by apply lookup_delete_eq. rewrite (map_sum_delete g m k e Hk). lia.
Qed.

Lemma map_sum_nonneg g m : (forall k e, m !! k = Some e -> 0 <= g e) -> 0 <= map_sum g m.
Proof.
  intros Hg. induction m as [|k e m Hk IH] using map_ind; [done|]. rewrite map_sum_insert by done.
  pose proof (Hg k e (lookup_insert_eq _ _ _)).
  enough (0 <= map_sum g m) by lia. apply IH. intros k' e' Hk'. apply (Hg k'). rewrite lookup_insert_ne; [done|]. congruence.
Qed.
End Sums.

(** Counts that wrap early or late are the same. *)
Lemma i64_sub (a b : Z) : i64 (i64 a - b) = i64 (a - b).
Proof.
  unfold i64. f_equal. replace ((a + 2 ^ 63) mod 2 ^ 64 - 2 ^ 63 - b + 2 ^ 63) with ((a + 2 ^ 63) mod 2 ^ 64 - b) by lia.
  rewrite Zminus_mod_idemp_l. f_equal. lia.
Qed.
Lemma i64_add (a b : Z) : i64 (i64 a + b) = i64 (a + b).
Proof. replace (i64 a + b) with (i64 a - - b) by lia. rewrite i64_sub. f_equal. lia. Qed.

(** A pool that hands out an unused address. *)
Definition pool_fresh {K} (l : List K) : addr := fresh (dom (heap l)).
Lemma pool_fresh_unused {K} (l : List K) : heap l !! pool_fresh l = None.
Proof. unfold pool_fresh. apply not_elem_of_dom. exact (is_fresh (dom (heap l))). Qed.
