(* ===== verification/Hot.v ===== *)
(** * The hot tier: src/internal/storage/hot.go (and Probe of probe.go)

    A sharded in-memory map of objects. Each shard keeps an index, an eviction
    list behind the interface [EvictionPolicy] of [Evictor], a byte count and
    a count of the entries with a copy in the warm tier. A definition is what
    the code does while it holds one shard's lock; [Get] and the store-wide
    operations compose them. Bodies are values here, so the slab allocator
    (which only decides where the bytes live) plays no part; log records and
    the eviction callbacks are outputs; the iteration order of Go's maps and
    the clock are arguments. Byte counts are int64 and wrap; counters that move
    by one per operation stay far from that bound and are plain integers. *)

From S2P Require Import Prelude GoStd CacheControl HeaderMap Api ClusterCodec Evictor EvictIndex Bans.

Definition inlineEvictCap : nat := 4.
Definition maxEvictSkips : nat := 4.
Definition maxSweepProbes : Z := 128.
Definition banScanCoalesceWindow : Duration := 50 * 1000000.

(** ** Sizes *)

Definition objectStructSize : Z := 352.
Definition hotEntrySize : Z := 32.
Definition sieveEntrySize : Z := 40.
Definition mapPerEntryOverhead : Z := 32.
Definition headerEntriesSlice : Z := 24.
Definition headerValuesSlice : Z := 24.
Definition headerEntrySize : Z := 24.
Definition headerValueHeader : Z := 16.

(** An int64: the wrapped sums add up to the wrapped total. *)
Definition objSize (obj : Object.t) : Z :=
  let size := len (Object.Body obj) + objectStructSize + hotEntrySize + sieveEntrySize + mapPerEntryOverhead in
  let '(nentries, valueSlots, valueBytes) := Footprint (Object.Header obj) in
  let size := size + (headerEntriesSlice + headerValuesSlice + headerEntrySize * nentries
                      + headerValueHeader * valueSlots + valueBytes) in
  let size := size + len (Object.VaryKey obj) in
  let size := size + len (Object.ETag obj) in
  let size := size + len (Object.CacheControl obj) in
  let size := size + len (Object.VaryValue obj) in
  i64 (fold_left (fun n sk => n + len sk) (Object.SurrogateKeys obj) size).

(** [v >> k] on a 64-bit int. *)
Definition nextPow2 (v : Z) : Z :=
  let v := i64 (v - 1) in
  let v := Z.lor v (Z.shiftr v 1) in
  let v := Z.lor v (Z.shiftr v 2) in
  let v := Z.lor v (Z.shiftr v 4) in
  let v := Z.lor v (Z.shiftr v 8) in
  let v := Z.lor v (Z.shiftr v 16) in
  let v := i64 (v + 1) in
  if v <? 1 then 1 else v.

(** ** A shard *)

(** [h_id] is the identity of the stored object (the pointer the code
    compares); [h_entry] the entry's address in the eviction list. *)
Record hotEntry : Type := MkHotEntry {
  h_obj : Object.t; h_id : positive; h_entry : addr; hasBackup : bool; windowHits : Z }.

Record shard : Type := MkShard {
  sentries : gmap Key hotEntry;
  sevict : List Key;
  sbytes : Z;
  backedCount : Z;
}.
Definition new_shard : shard := {| sentries := ∅; sevict := Dll.NewList; sbytes := 0; backedCount := 0 |}.

Inductive evictReason : Type := evictReasonSIEVE | evictReasonReaper | evictReasonBan | evictReasonDelete.

(** The two callbacks of HotConfig, as the calls made. *)
Inductive notice : Type := OnEvict (k : Key) | OnEvictDemoted (k : Key).

Record evictionLog : Type := MkLog { el_varyKey : bytes; el_reason : bytes; el_size : Z; el_key : Key }.

(** What an operation emits while it holds the lock. *)
Record effects : Type := MkEffects { notices : list notice; logs : list evictionLog; evicted : Z }.
Definition no_effects : effects := {| notices := []; logs := []; evicted := 0 |}.

Definition recordEviction (f : effects) (key : Key) (e : hotEntry) (reason : bytes) : effects :=
  if hasBackup e then f
  else {| f with logs := logs f ++ [MkLog (Object.VaryKey (h_obj e)) reason (objSize (h_obj e)) key] |}.

Definition notifyEvict (f : effects) (key : Key) (e : hotEntry) (reason : evictReason) : effects :=
  if negb (hasBackup e) then f
  else match reason with
       | evictReasonSIEVE => {| f with notices := notices f ++ [OnEvictDemoted key] |}
       | _ => {| f with notices := notices f ++ [OnEvict key] |}
       end.

Definition count_eviction (f : effects) : effects := {| f with evicted := evicted f + 1 |}.

(** [s.bytes -= objSize(e.obj); delete(s.entries, key)] *)
Definition drop_entry (s : shard) (key : Key) (e : hotEntry) : shard :=
  {| s with sbytes := i64 (sbytes s - objSize (h_obj e)); sentries := delete key (sentries s) |}.

Section Hot.
(** The eviction policy, and the pool the list entries come from. *)
Context {P : EvictionPolicy Key} (pool_get : List Key -> addr).

Definition unlink (s : shard) (e : hotEntry) : shard := {| s with sevict := p_remove (sevict s) (Some (h_entry e)) |}.

(** [s.evict.Access(key, func → nil)] and [MarkVisited]: a new list entry. *)
Definition list_insert (l : List Key) (key : Key) : List Key * addr :=
  let '(l, a, _) := p_access l key (fun _ => None) (pool_get l) in (mark_visited l a, a).

(** *** Eviction *)

Definition evict_one (s : shard) : shard * option Key :=
  let '(l, r) := p_evict (sevict s) maxSweepProbes in ({| s with sevict := l |}, r).

(** The rounds of [evictPreferBacked] that look for a backed victim. *)
Fixpoint prefer_backed (skips : nat) (s : shard) : shard * option Key :=
  match skips with
  | O => evict_one s
  | S skips =>
      let '(s, r) := evict_one s in
      match r with
      | None => (s, None)
      | Some k =>
          match sentries s !! k with
          | Some he =>
              if hasBackup he then ({| s with backedCount := backedCount s - 1 |}, Some k)
              else
                let '(l, a) := list_insert (sevict s) k in
                prefer_backed skips {| s with sevict := l; sentries := <[k := {| he with h_entry := a |}]> (sentries s) |}
          | None => prefer_backed skips s
          end
      end
  end.

Definition evictPreferBacked (s : shard) : shard * option Key :=
  if backedCount s =? 0 then evict_one s else prefer_backed maxEvictSkips s.

(** The body shared by the two overshoot loops, once a victim is chosen. *)
Definition evict_victim (reason : bytes) (evKey : Key) (s : shard) (f : effects) : shard * effects :=
  match sentries s !! evKey with
  | Some old =>
      let f := recordEviction f evKey old reason in
      let f := notifyEvict f evKey old evictReasonSIEVE in
      (drop_entry s evKey old, count_eviction f)
  | None => (s, f)
  end.

(** The loop of [putStored]. *)
Fixpoint inline_evict (rounds : nat) (size perShardMax : Z) (s : shard) (f : effects) : shard * effects :=
  match rounds with
  | O => (s, f)
  | S rounds =>
      if (i64 (sbytes s + size) <=? perShardMax) || (llen (sevict s) =? 0) then (s, f)
      else let '(s, r) := evictPreferBacked s in
           match r with
           | None => (s, f)
           | Some evKey =>
               let '(s, f) := evict_victim (bs "inline_overshoot") evKey s f in
               inline_evict rounds size perShardMax s f
           end
  end.

(** The loop of [sweeper] for one signal: a round evicts an entry or ends, so
    the length of the list bounds the rounds. *)
Fixpoint sweep_shard (rounds : nat) (perShardMax : Z) (s : shard) (f : effects) : shard * effects :=
  match rounds with
  | O => (s, f)
  | S rounds =>
      if (sbytes s <=? perShardMax) || (llen (sevict s) <=? 0) then (s, f)
      else let '(s, r) := evictPreferBacked s in
           match r with
           | None => (s, f)
           | Some evKey =>
               let '(s, f) := evict_victim (bs "sweeper_overshoot") evKey s f in
               sweep_shard rounds perShardMax s f
           end
  end.

(** *** Operations under one shard's lock *)

(** [putStored]: the shard, the effects and whether the shard is still over
    budget; [id] is the identity of the stored clone. *)
Definition shard_put (perShardMax : Z) (key : Key) (stored : Object.t) (id : positive) (s : shard)
  : shard * effects * bool :=
  let size := objSize stored in
  let '(s, f) := inline_evict inlineEvictCap size perShardMax s no_effects in
  let stillOver := perShardMax <? i64 (sbytes s + size) in
  let '(s, f) :=
    match sentries s !! key with
    | Some old =>
        let f := notifyEvict f key old evictReasonDelete in
        let s := {| s with sbytes := i64 (sbytes s - objSize (h_obj old)) |} in
        let s := unlink s old in
        (if hasBackup old then {| s with backedCount := backedCount s - 1 |} else s, f)
    | None => (s, f)
    end in
  let '(l, se) := list_insert (sevict s) key in
  let e := {| h_obj := stored; h_id := id; h_entry := se; hasBackup := false; windowHits := 0 |} in
  ({| s with sevict := l; sentries := <[key := e]> (sentries s); sbytes := i64 (sbytes s + size) |}, f, stillOver).

Definition Visited (s : shard) (e : hotEntry) : bool :=
  match heap (sevict s) !! h_entry e with Some x => visited x | None => false end.

Inductive fast_result : Type := FastMiss | FastSlow | FastHit (obj : Object.t) (id : positive).

(** The read-locked part of [Get]. *)
Definition get_fast (key : Key) (s : shard) : shard * fast_result :=
  match sentries s !! key with
  | None => (s, FastMiss)
  | Some e =>
      if Visited s e then
        ({| s with sentries := <[key := {| e with windowHits := windowHits e + 1 |}]> (sentries s) |},
         FastHit (h_obj e) (h_id e))
      else (s, FastSlow)
  end.

(** The write-locked part of [Get]. *)
Definition get_slow (key : Key) (s : shard) : shard * option (Object.t * positive) :=
  match sentries s !! key with
  | None => (s, None)
  | Some e =>
      let '(l, _, _) := p_access (sevict s) key (fun _ => Some (h_entry e)) (pool_get (sevict s)) in
      let o := h_obj e in
      let obj := {| o with Object.Hits := u64 (Object.Hits o + 1) |} in
      let e := {| e with h_obj := obj; windowHits := windowHits e + 1 |} in
      ({| s with sevict := l; sentries := <[key := e]> (sentries s) |}, Some (obj, h_id e))
  end.

Definition evictBanned (key : Key) (id : positive) (s : shard) : shard * effects :=
  match sentries s !! key with
  | Some cur =>
      if bool_decide (h_id cur = id) then
        (drop_entry (unlink s cur) key cur, count_eviction (notifyEvict no_effects key cur evictReasonBan))
      else (s, no_effects)
  | None => (s, no_effects)
  end.

Definition shard_delete (key : Key) (s : shard) : shard * effects :=
  match sentries s !! key with
  | Some e => (drop_entry (unlink s e) key e, notifyEvict no_effects key e evictReasonDelete)
  | None => (s, no_effects)
  end.

(** One round of [reapShard]; [mayReap] is nil or the gate. *)
Definition reap_one (mayReap : option (Object.t -> bool)) (now : Time) (st : shard * effects * Z) (key : Key)
  : shard * effects * Z :=
  let '(s, f, holds) := st in
  match sentries s !! key with
  | None => st
  | Some e =>
      let o := h_obj e in
      let expiry := t_add (Object.StoredAt o)
                      (d_add (d_add (Object.TTL o) (Object.StaleWhileRevalidate o)) (Object.StaleIfError o)) in
      if t_after now expiry then
        if Object.KeepGrace o && match mayReap with Some g => negb (g o) | None => false end
        then (s, f, holds + 1)
        else
          let f := recordEviction f key e (bs "expired") in
          let f := notifyEvict f key e evictReasonReaper in
          (drop_entry (unlink s e) key e, count_eviction f, holds)
      else st
  end.
(** [visit] lists the keys the loop reaches before its deadline. *)
Definition reapShard (mayReap : option (Object.t -> bool)) (now : Time) (visit : list Key) (s : shard)
  : shard * effects * Z :=
  foldl (reap_one mayReap now) (s, no_effects, 0) visit.

Definition ban_one (pr : banPredicate) (st : shard * effects * Z) (key : Key) : shard * effects * Z :=
  let '(s, f, n) := st in
  match sentries s !! key with
  | None => st
  | Some e =>
      if pr (h_obj e) then
        (drop_entry (unlink s e) key e, count_eviction (notifyEvict f key e evictReasonBan), n + 1)
      else st
  end.
(** [visit] is the order of the map's iteration. *)
Definition banShard (pr : banPredicate) (visit : list Key) (s : shard) : shard * effects * Z :=
  foldl (ban_one pr) (s, no_effects, 0) visit.

Definition shard_set_backed (key : Key) (s : shard) : shard :=
  match sentries s !! key with
  | Some e => if hasBackup e then s
              else {| s with sentries := <[key := {| e with hasBackup := true |}]> (sentries s);
                             backedCount := backedCount s + 1 |}
  | None => s
  end.
Definition shard_clear_backed (key : Key) (s : shard) : shard :=
  match sentries s !! key with
  | Some e => if hasBackup e
              then {| s with sentries := <[key := {| e with hasBackup := false |}]> (sentries s);
                             backedCount := backedCount s - 1 |}
              else s
  | None => s
  end.
End Hot.

(** ** The store *)

Record HotStore : Type := MkHotStore {
  hshards : list shard;
  hmask : Z;
  maxBytes : Z;
  evictSignal : list nat;
  mayReap : option (Object.t -> bool);
  hbans : banListState;
  lastBanScan : Z;
  st_hits : Z; st_misses : Z; st_evictions : Z; st_graceHolds : Z;
  next_id : positive;
  emitted : effects;
}.

(** [cpus] is [runtime.NumCPU()]. *)
Definition shard_count (numShards cpus : Z) : Z :=
  nextPow2 (if numShards <=? 0 then (if 64 <? cpus then 64 else cpus) else numShards).

Definition NewHotStore (numShards cpus maxB : Z) (banTTL : Duration) (gate : option (Object.t -> bool)) : HotStore :=
  let n := shard_count numShards cpus in
  {| hshards := replicate (Z.to_nat n) new_shard; hmask := n - 1; maxBytes := maxB; evictSignal := [];
     mayReap := gate;
     hbans := NewBanList (if 0 <? banTTL then banTTL else DefaultBanTTL) 0;
     lastBanScan := 0; st_hits := 0; st_misses := 0; st_evictions := 0; st_graceHolds := 0;
     next_id := 1; emitted := no_effects |}.

Definition shard_of (h : HotStore) (key : Key) : nat := Z.to_nat (Z.land (Hash64 key) (hmask h)).
Definition perShardMax (h : HotStore) : Z := Z.quot (maxBytes h) (len (hshards h)).

Definition emit (h : HotStore) (f : effects) : HotStore :=
  {| h with emitted := {| notices := notices (emitted h) ++ notices f; logs := logs (emitted h) ++ logs f;
                          evicted := evicted (emitted h) + evicted f |};
            st_evictions := st_evictions h + evicted f |}.

(** An operation on the shard at an index, with its effects. *)
Definition on_shard (h : HotStore) (i : nat) (op : shard -> shard * effects) : HotStore :=
  match hshards h !! i with
  | None => h
  | Some s => let '(s, f) := op s in emit {| h with hshards := <[i := s]> (hshards h) |} f
  end.

Definition hot_hit (h : HotStore) : HotStore := {| h with st_hits := st_hits h + 1 |}.
Definition hot_miss (h : HotStore) : HotStore := {| h with st_misses := st_misses h + 1 |}.

Section Store.
Context {P : EvictionPolicy Key} (pool_get : List Key -> addr).
Context (shard_hash : bytes -> Z) (regexp_compile : bytes -> option (bytes -> bool)).

Definition matchesActiveBan (h : HotStore) (obj : Object.t) (won : bool) (now : Time) : HotStore * bool :=
  let '(b, r) := matches shard_hash (hbans h) obj won now in ({| h with hbans := b |}, r).

(** The end of [Get] once an object was read: the ban check, and the eviction
    of a banned object if it is still the one stored. *)
Definition finish_get (h : HotStore) (key : Key) (obj : Object.t) (id : positive) (won : bool) (now : Time)
  : HotStore * option Object.t :=
  let '(h, banned) := matchesActiveBan h obj won now in
  if banned then (hot_miss (on_shard h (shard_of h key) (evictBanned key id)), None)
  else (hot_hit h, Some obj).

(** [won] and [now]: the outcome of the ban list's [TryLock] and its clock. *)
Definition Get (h : HotStore) (key : Key) (won : bool) (now : Time) : HotStore * option Object.t :=
  match hshards h !! shard_of h key with
  | None => (h, None)
  | Some s =>
      let '(s, r) := get_fast key s in
      let h := {| h with hshards := <[shard_of h key := s]> (hshards h) |} in
      match r with
      | FastMiss => (hot_miss h, None)
      | FastHit obj id => finish_get h key obj id won now
      | FastSlow =>
          let '(s, r) := get_slow pool_get key s in
          let h := {| h with hshards := <[shard_of h key := s]> (hshards h) |} in
          match r with
          | None => (hot_miss h, None)
          | Some (obj, id) => finish_get h key obj id won now
          end
      end
  end.

(** A full channel drops the signal. *)
Definition signal (h : HotStore) (i : nat) : HotStore :=
  if len (evictSignal h) <? len (hshards h) then {| h with evictSignal := evictSignal h ++ [i] |} else h.

Definition CloneForStorage (obj : Object.t) : Object.t := {| obj with Object.Header := Clone (Object.Header obj) |}.

Definition putStored (h : HotStore) (key : Key) (stored : Object.t) : HotStore :=
  match hshards h !! shard_of h key with
  | None => h
  | Some s =>
      let '(s, f, stillOver) := shard_put pool_get (perShardMax h) key stored (next_id h) s in
      let i := shard_of h key in
      let h := emit {| h with hshards := <[i := s]> (hshards h); next_id := Pos.succ (next_id h) |} f in
      if stillOver then signal h i else h
  end.
Definition Put (h : HotStore) (key : Key) (obj : Object.t) : HotStore := putStored h key (CloneForStorage obj).
Definition PutOwned (h : HotStore) (key : Key) (obj : Object.t) : HotStore := putStored h key (CloneForStorage obj).

(** One signal received by [sweeper]. *)
Definition sweeper (h : HotStore) : HotStore :=
  match evictSignal h with
  | [] => h
  | i :: rest_ =>
      on_shard {| h with evictSignal := rest_ |} i
        (fun s => sweep_shard pool_get (Z.to_nat (llen (sevict s))) (perShardMax h) s no_effects)
  end.

Definition Delete (h : HotStore) (key : Key) : HotStore := on_shard h (shard_of h key) (shard_delete key).

(** [visit i] are the keys of shard [i] the pass reaches before its deadline. *)
Definition reapExpired (h : HotStore) (now : Time) (visit : nat -> list Key) : HotStore :=
  let h := {| h with hbans := pruneExpired shard_hash (hbans h) now |} in
  foldl (fun h i =>
    match hshards h !! i with
    | None => h
    | Some s =>
        let '(s, f, holds) := reapShard (mayReap h) now (visit i) s in
        emit {| h with hshards := <[i := s]> (hshards h); st_graceHolds := st_graceHolds h + holds |} f
    end) h (seq 0 (length (hshards h))).

(** The eager scan of [Ban]. *)
Definition ban_scan (h : HotStore) (pr : banPredicate) (visit : nat -> list Key) : HotStore * Z :=
  foldl (fun st i =>
    let '(h, total) := st in
    match hshards h !! i with
    | None => st
    | Some s =>
        let '(s, f, n) := banShard pr (visit i) s in
        (emit {| h with hshards := <[i := s]> (hshards h) |} f, total + n)
    end) (h, 0) (seq 0 (length (hshards h))).

(** The readings of the clock, in order: for a ban without a time, at
    registration, under the list's mutex and after the scan. *)
Definition Ban (h : HotStore) (expr : BanExpr) (now0 now1 now2 now3 : Time) (visit : nat -> list Key)
  : HotStore * result ban_error Z :=
  match compileBanPredicate regexp_compile expr with
  | Err e => (h, Err e)
  | Ok pr =>
      let h := {| h with hbans := registerBan shard_hash (hbans h) expr pr now0 now2 |} in
      if isSurrogateOnlyBan expr then (h, Ok 0)
      else if negb (lastBanScan h =? 0) && (i64 (unix_nano now1 - lastBanScan h) <? banScanCoalesceWindow)
      then (h, Ok 0)
      else
        let '(h, total) := ban_scan h pr visit in
        ({| h with lastBanScan := unix_nano now3 |}, Ok total)
  end.

Definition Has (h : HotStore) (key : Key) : bool :=
  match hshards h !! shard_of h key with
  | Some s => match sentries s !! key with Some _ => true | None => false end
  | None => false
  end.

Definition WindowHits (h : HotStore) (key : Key) : Z :=
  match hshards h !! shard_of h key with
  | Some s => match sentries s !! key with Some e => windowHits e | None => 0 end
  | None => 0
  end.

Definition SetBacked (h : HotStore) (key : Key) : HotStore :=
  on_shard h (shard_of h key) (fun s => (shard_set_backed key s, no_effects)).
Definition ClearBacked (h : HotStore) (key : Key) : HotStore :=
  on_shard h (shard_of h key) (fun s => (shard_clear_backed key s, no_effects)).

Definition SetBanTTL (h : HotStore) (d : Duration) : HotStore := {| h with hbans := setTTL (hbans h) d |}.

(** The entries and bytes of [Stats]. *)
Definition HotEntries (h : HotStore) : Z := i64 (foldr (fun s n => Z.of_nat (size (sentries s)) + n) 0 (hshards h)).
Definition HotBytes (h : HotStore) : Z := i64 (foldr (fun s n => sbytes s + n) 0 (hshards h)).
Definition OverBudget (h : HotStore) : bool := maxBytes h <? HotBytes h.

(** [visit i] is the iteration order of shard [i]'s map. *)
Definition Keys (h : HotStore) (visit : nat -> list Key) : list Key :=
  concat (map visit (seq 0 (length (hshards h)))).

Definition hot_only (s : shard) (k : Key) : bool :=
  match sentries s !! k with Some e => negb (hasBackup e) | None => false end.

(** The second pass of [HotOnlyKeys]: [skipped] counts up to [offset],
    [needed] down to zero. *)
Fixpoint collect (l : list Key) (offset skipped needed : Z) : list Key * Z * Z :=
  match l with
  | [] => ([], skipped, needed)
  | k :: l =>
      if skipped <? offset then collect l offset (skipped + 1) needed
      else if needed - 1 <=? 0 then ([k], skipped, needed - 1)
      else let '(ks, sk, nd) := collect l offset skipped (needed - 1) in (k :: ks, sk, nd)
  end.
Fixpoint collect_shards (ls : list (list Key)) (offset skipped needed : Z) : list Key :=
  match ls with
  | [] => []
  | l :: ls =>
      if needed <=? 0 then []
      else let '(ks, skipped, needed) := collect l offset skipped needed in
           ks ++ collect_shards ls offset skipped needed
  end.
Definition hot_only_lists (h : HotStore) (visit : nat -> list Key) : list (list Key) :=
  map (fun i => match hshards h !! i with
                | Some s => List.filter (hot_only s) (visit i)
                | None => [] end) (seq 0 (length (hshards h))).

Definition HotOnlyKeys (h : HotStore) (visit1 visit2 : nat -> list Key) (offset limit : Z) : list Key * Z :=
  if limit <=? 0 then ([], 0)
  else
    let total := foldr (fun l n => len l + n) 0 (hot_only_lists h visit1) in
    if total =? 0 then ([], 0)
    else
      let offset := Z.rem offset total in
      let offset := if offset <? 0 then offset + total else offset in
      (collect_shards (hot_only_lists h visit2) offset 0 limit, total).
End Store.

(** ** The list and the index of a shard *)

Notation linked := (EvictIndex.linked h_entry).

Lemma linked_insert {P : EvictionPolicy Key} (pool_get : List Key -> addr) (l l' : List Key) (m : gmap Key hotEntry) (k : Key)
    (a : addr) (e : hotEntry) : (forall l, heap l !! pool_get l = None) ->
  linked l m -> m !! k = None -> list_insert pool_get l k = (l', a) -> h_entry e = a ->
  linked l' (<[k := e]> m).
Proof.
  intros Hu Hl Hn Hi Hea. unfold list_insert in Hi.
  destruct (p_access l k (fun _ => None) (pool_get l)) as [[l1 a1] b1] eqn:Ea. injection Hi as <- <-.
  apply linked_mark. by eapply linked_fresh.
Qed.

(** ** The shard invariant *)

(** An entry without its place in the list. *)
Definition core (e : hotEntry) : Object.t * positive * bool * Z := (h_obj e, h_id e, hasBackup e, windowHits e).

Definition msum (g : Object.t * positive * bool * Z -> Z) (m : gmap Key hotEntry) : Z := map_sum g (core <$> m).

Lemma msum_insert (g : Object.t * positive * bool * Z -> Z) (m : gmap Key hotEntry) (k : Key) (e : hotEntry) :
  m !! k = None -> msum g (<[k := e]> m) = g (core e) + msum g m.
Proof. intros Hk. unfold msum. by rewrite fmap_insert, map_sum_insert by by rewrite lookup_fmap, Hk. Qed.

Lemma msum_delete (g : Object.t * positive * bool * Z -> Z) (m : gmap Key hotEntry) (k : Key) (e : hotEntry) :
  m !! k = Some e -> msum g (delete k m) = msum g m - g (core e).
Proof. intros Hk. unfold msum. rewrite fmap_delete. apply map_sum_delete. by rewrite lookup_fmap, Hk. Qed.

Lemma msum_update (g : Object.t * positive * bool * Z -> Z) (m : gmap Key hotEntry) (k : Key) (e e' : hotEntry) :
  m !! k = Some e -> msum g (<[k := e']> m) = msum g m - g (core e) + g (core e').
Proof. intros Hk. unfold msum. rewrite fmap_insert. apply map_sum_update. by rewrite lookup_fmap, Hk. Qed.

Lemma msum_core (g : Object.t * positive * bool * Z -> Z) (m m' : gmap Key hotEntry) :
  core <$> m' = core <$> m -> msum g m' = msum g m.
Proof. intros E. unfold msum. by rewrite E. Qed.

Lemma msum_nonneg (g : Object.t * positive * bool * Z -> Z) (m : gmap Key hotEntry) :
  (forall c, 0 <= g c) -> 0 <= msum g m.
Proof. intros Hg. apply map_sum_nonneg. eauto. Qed.

Definition g_size (c : Object.t * positive * bool * Z) : Z := objSize c.1.1.1.
Definition g_backed (c : Object.t * positive * bool * Z) : Z := if c.1.2 then 1 else 0.

(** The bytes of the stored objects and the number of backed ones. *)
Definition stored_bytes (m : gmap Key hotEntry) : Z := msum g_size m.
Definition backed_entries (m : gmap Key hotEntry) : Z := msum g_backed m.

Lemma g_backed_nonneg (c : Object.t * positive * bool * Z) : 0 <= g_backed c.
Proof. unfold g_backed. by destruct c.1.2. Qed.

Lemma backed_nonneg (m : gmap Key hotEntry) : 0 <= backed_entries m.
Proof. apply msum_nonneg, g_backed_nonneg. Qed.

Record shard_inv (s : shard) : Prop := {
  si_linked : linked (sevict s) (sentries s);
  si_bytes : sbytes s = i64 (stored_bytes (sentries s));
  si_backed : backed_entries (sentries s) <= backedCount s;
}.

(** The victim [k] has left the list but not yet the index. *)
Record in_flight (s : shard) (k : Key) : Prop := {
  fl_linked : linked (sevict s) (delete k (sentries s));
  fl_key : is_Some (sentries s !! k);
  fl_bytes : sbytes s = i64 (stored_bytes (sentries s));
  fl_backed : backed_entries (delete k (sentries s)) <= backedCount s;
}.

Lemma shard_inv_new : shard_inv new_shard.
Proof. split; [apply linked_new|done|done]. Qed.

Section ShardInv.
Context {P : EvictionPolicy Key} (pool_get : List Key -> addr).
Context (pool_get_unused : forall l, heap l !! pool_get l = None).

(** [s'] has the entries of [s], up to their places in the list. *)
Definition same_entries (s s' : shard) : Prop := core <$> sentries s' = core <$> sentries s.

Lemma delete_backed_le (m : gmap Key hotEntry) (k : Key) (c : Z) :
  backed_entries m <= c -> backed_entries (delete k m) <= c.
Proof.
  intros Hc. destruct (m !! k) as [e|] eqn:Hk; [|by rewrite delete_id].
  unfold backed_entries in *. rewrite (msum_delete _ _ _ _ Hk). pose proof (g_backed_nonneg (core e)). lia.
Qed.

Lemma evict_one_inv (s s' : shard) (r : option Key) :
  shard_inv s -> evict_one s = (s', r) ->
  same_entries s s' /\ sentries s' = sentries s /\ backedCount s' = backedCount s /\ sbytes s' = sbytes s /\
  match r with None => shard_inv s' | Some k => in_flight s' k end.
Proof.
  intros [Hl Hb Hc]. unfold evict_one. destruct (p_evict (sevict s) maxSweepProbes) as [l r'] eqn:He.
  intros [= <- <-]. pose proof (linked_evict _ l _ _ r' Hl He) as Hk. split_and!; try done.
  destruct r' as [k|]; simpl.
  - destruct Hk as [Hk1 Hk2]. split; try done. by apply delete_backed_le.
  - by split.
Qed.

Lemma core_insert (m : gmap Key hotEntry) (k : Key) (e e' : hotEntry) :
  m !! k = Some e -> core e' = core e -> core <$> <[k := e']> m = core <$> m.
Proof.
  intros Hk E. rewrite fmap_insert, E. apply insert_id. by rewrite lookup_fmap, Hk.
Qed.

Lemma prefer_backed_inv (skips : nat) (s s' : shard) (r : option Key) :
  shard_inv s -> prefer_backed pool_get skips s = (s', r) ->
  same_entries s s' /\ match r with None => shard_inv s' | Some k => in_flight s' k end.
Proof.
  revert s. induction skips as [|skips IH]; intros s Hinv; cbn [prefer_backed].
  - intros He. by destruct (evict_one_inv s s' r Hinv He) as (? & _ & _ & _ & ?).
  - destruct (evict_one s) as [s1 [k|]] eqn:He; destruct (evict_one_inv s s1 _ Hinv He) as (Hs & Hsm & Hbc & Hby & Hi).
    2:{ by intros [= <- <-]. }
    destruct Hi as [Hl [he Hk] Hb Hc]. rewrite Hk. destruct (hasBackup he) eqn:Eb.
    + intros [= <- <-]. split; [done|]. split; simpl; try done.
      unfold backed_entries. rewrite (msum_delete _ _ _ _ Hk).
      replace (g_backed (core he)) with 1 by (unfold g_backed; simpl; by rewrite Eb).
      destruct Hinv as [_ _ Hc']. unfold backed_entries in Hc'. rewrite <- Hsm, <- Hbc in Hc'. lia.
    + destruct (list_insert pool_get (sevict s1) k) as [l a] eqn:Ei.
      set (he' := MkHotEntry (h_obj he) (h_id he) a false (windowHits he)). intros H.
      assert (core <$> <[k := he']> (sentries s1) = core <$> sentries s1) as Hcore
        by (eapply core_insert; [exact Hk|]; unfold core; by rewrite Eb).
      apply IH in H as [Hs' Hr]; cycle 1.
      * split; cbn [sevict sentries sbytes backedCount].
        -- rewrite <- insert_delete_eq. eapply linked_insert; [done|exact Hl|apply lookup_delete_eq|exact Ei|done].
        -- unfold stored_bytes. rewrite (msum_core _ _ _ Hcore). exact Hb.
        -- unfold backed_entries. rewrite (msum_core _ _ _ Hcore), Hsm, Hbc. apply Hinv.
      * split; [|done]. unfold same_entries in *. rewrite Hs'. cbn [sentries]. by rewrite Hcore.
Qed.

Lemma evictPreferBacked_inv (s s' : shard) (r : option Key) :
  shard_inv s -> evictPreferBacked pool_get s = (s', r) ->
  same_entries s s' /\ match r with None => shard_inv s' | Some k => in_flight s' k end.
Proof.
  intros Hinv. unfold evictPreferBacked. destruct (backedCount s =? 0).
  - intros He. by destruct (evict_one_inv s s' r Hinv He) as (? & _ & _ & _ & ?).
  - by apply prefer_backed_inv.
Qed.

(** [s'] keeps some of the entries of [s], unchanged. *)
Definition shrinks (s s' : shard) : Prop :=
  forall k c, core <$> sentries s' !! k = Some c -> core <$> sentries s !! k = Some c.
Lemma shrinks_refl (s : shard) : shrinks s s.
Proof. by intros k c. Qed.
#[local] Hint Resolve shrinks_refl : core.

Lemma shrinks_trans (s1 s2 s3 : shard) : shrinks s1 s2 -> shrinks s2 s3 -> shrinks s1 s3.
Proof. intros H1 H2 k c Hc. auto. Qed.

Lemma same_shrinks (s s' : shard) : same_entries s s' -> shrinks s s'.
Proof. unfold same_entries, shrinks. intros E k c. by rewrite <- !lookup_fmap, E. Qed.

Lemma delete_shrinks (s s' : shard) (key : Key) : sentries s' = delete key (sentries s) -> shrinks s s'.
Proof.
  intros E k c. rewrite E. destruct (decide (k = key)) as [->|]; [by rewrite lookup_delete_eq|].
  by rewrite lookup_delete_ne.
Qed.

(** Taking an entry out of both the list and the index. *)
Lemma drop_entry_inv (s : shard) (key : Key) (e : hotEntry) :
  sentries s !! key = Some e -> linked (sevict s) (delete key (sentries s)) ->
  sbytes s = i64 (stored_bytes (sentries s)) -> backed_entries (delete key (sentries s)) <= backedCount s ->
  shard_inv (drop_entry s key e).
Proof.
  intros Hk Hl Hb Hc. split; cbn [drop_entry sevict sentries sbytes backedCount]; [done| |done].
  rewrite Hb, i64_sub. unfold stored_bytes. by rewrite (msum_delete _ _ _ _ Hk).
Qed.

Lemma unlink_drop_inv (s : shard) (key : Key) (e : hotEntry) :
  shard_inv s -> sentries s !! key = Some e ->
  shard_inv (drop_entry (unlink s e) key e) /\ shrinks s (drop_entry (unlink s e) key e).
Proof.
  intros [Hl Hb Hc] Hk. split; [|by eapply delete_shrinks].
  apply drop_entry_inv; cbn [unlink sevict sentries sbytes backedCount]; try done.
  - by apply linked_remove.
  - by apply delete_backed_le.
Qed.

Lemma evict_victim_inv (reason : bytes) (k : Key) (s : shard) (f : effects) :
  in_flight s k ->
  let s' := (evict_victim reason k s f).1 in
  shard_inv s' /\ shrinks s s' /\ sentries s' = delete k (sentries s) /\ sevict s' = sevict s.
Proof.
  intros [Hl [e Hk] Hb Hc]. unfold evict_victim. rewrite Hk. cbn [fst].
  split_and!; [by apply drop_entry_inv|by eapply delete_shrinks|done|done].
Qed.

(** One victim of an overshoot loop. *)
Lemma evict_round_inv (reason : bytes) (s s1 : shard) (k : Key) (f : effects) :
  shard_inv s -> evictPreferBacked pool_get s = (s1, Some k) ->
  let s' := (evict_victim reason k s1 f).1 in
  shard_inv s' /\ shrinks s s' /\ llen (sevict s') = llen (sevict s) - 1.
Proof.
  intros Hi He. destruct (evictPreferBacked_inv s s1 (Some k) Hi He) as [Hs Hf].
  destruct (evict_victim_inv reason k s1 f Hf) as (H1 & H2 & H3 & H4). split_and!; [done| |].
  - eapply shrinks_trans; [by apply same_shrinks|done].
  - rewrite (linked_len _ _ (si_linked _ H1)), (linked_len _ _ (si_linked _ Hi)), H3.
    destruct Hf as [_ Hk _ _]. rewrite <- !(map_size_fmap core). unfold same_entries in Hs.
    rewrite fmap_delete, Hs, map_size_delete, lookup_fmap.
    assert (core <$> sentries s !! k = core <$> sentries s1 !! k) as E by (by rewrite <- !lookup_fmap, Hs).
    rewrite E. destruct Hk as [x Hx]. rewrite Hx. cbn [fmap option_fmap option_map].
    assert (size (core <$> sentries s) <> 0%nat) as Hne.
    { intros Hz%map_size_empty_inv. apply (f_equal (lookup k)) in Hz. rewrite lookup_fmap, E, Hx in Hz. done. }
    lia.
Qed.

Lemma inline_evict_inv (rounds : nat) (size_ mx : Z) (s : shard) (f : effects) :
  shard_inv s -> let s' := (inline_evict pool_get rounds size_ mx s f).1 in shard_inv s' /\ shrinks s s'.
Proof.
  revert s f. induction rounds as [|rounds IH]; intros s f Hi; cbn [inline_evict]; [done|].
  destruct (_ || _); [done|]. destruct (evictPreferBacked pool_get s) as [s1 [k|]] eqn:He.
  - destruct (evict_round_inv (bs "inline_overshoot") s s1 k f Hi He) as (H1 & H2 & _).
    destruct (evict_victim _ k s1 f) as [s2 f2]. destruct (IH s2 f2 H1) as [H3 H4].
    split; [done|]. by eapply shrinks_trans.
  - destruct (evictPreferBacked_inv s s1 None Hi He) as [H1 H2]. split; [done|]. by apply same_shrinks.
Qed.

(** The sweeper's loop ends, and leaves the shard within its budget or empty
    unless a bounded sweep found no victim. *)
Lemma sweep_shard_inv (rounds : nat) (mx : Z) (s : shard) (f : effects) :
  shard_inv s -> llen (sevict s) <= Z.of_nat rounds ->
  let s' := (sweep_shard pool_get rounds mx s f).1 in
  shard_inv s' /\ shrinks s s' /\
  (sbytes s' <= mx \/ sentries s' = ∅ \/
   exists s1, shard_inv s1 /\ llen (sevict s1) <= llen (sevict s) /\ 0 < llen (sevict s1) /\
              evictPreferBacked pool_get s1 = (s', None)).
Proof.
  revert s f. induction rounds as [|rounds IH]; intros s f Hi Hr; cbn [sweep_shard].
  - split_and!; [done..|]. right; left. rewrite (linked_len _ _ (si_linked _ Hi)) in Hr.
    apply map_size_empty_inv. cbn [fst]. lia.
  - destruct (_ || _) eqn:Eo; [apply orb_prop in Eo as [Eo|Eo]; bool_cases|].
    + split_and!; [done..|by left].
    + split_and!; [done..|]. right; left. rewrite (linked_len _ _ (si_linked _ Hi)) in Eo.
      apply map_size_empty_inv. cbn [fst]. lia.
    + bool_cases. destruct (evictPreferBacked pool_get s) as [s1 [k|]] eqn:He.
      * destruct (evict_round_inv (bs "sweeper_overshoot") s s1 k f Hi He) as (H1 & H2 & H3).
        destruct (evict_victim _ k s1 f) as [s2 f2]. cbn [fst] in H1, H2, H3.
        destruct (IH s2 f2 H1 ltac:(lia)) as (H4 & H5 & H6).
        split_and!; [done|by eapply shrinks_trans|]. destruct H6 as [?|[?|(s3 & ? & ? & ? & ?)]]; auto.
        right; right. exists s3. split_and!; auto; lia.
      * destruct (evictPreferBacked_inv s s1 None Hi He) as [H1 H2].
        split_and!; [done|by apply same_shrinks|]. right; right. exists s. split_and!; [done|lia|done|done].
Qed.

(** With few enough entries for the probe budget a victim is always found. *)
Definition probes_suffice (s : shard) : Prop := llen (sevict s) * Z.of_nat p_max_credit < maxSweepProbes.

Lemma evict_one_finds (s : shard) :
  shard_inv s -> 0 < llen (sevict s) -> probes_suffice s -> exists s' k, evict_one s = (s', Some k).
Proof.
  intros [[[als Hr] Hg _ _] _ _] Hlen Hp. unfold evict_one.
  destruct (evict_live P (sevict s) als maxSweepProbes Hr Hg) as [k Hk].
  - intros ->. rewrite (r_len _ _ _ Hr) in Hlen. done.
  - by rewrite <- (r_len _ _ _ Hr).
  - destruct (p_evict (sevict s) maxSweepProbes) as [l r]. simpl in Hk. subst r. eauto.
Qed.

Lemma evictPreferBacked_finds (s : shard) :
  shard_inv s -> 0 < llen (sevict s) -> probes_suffice s -> exists s' k, evictPreferBacked pool_get s = (s', Some k).
Proof.
  intros Hi Hlen Hp. unfold evictPreferBacked. destruct (backedCount s =? 0); [by apply evict_one_finds|].
  revert s Hi Hlen Hp. induction maxEvictSkips as [|skips IH]; intros s Hi Hlen Hp; cbn [prefer_backed];
    [by apply evict_one_finds|].
  destruct (evict_one_finds s Hi Hlen Hp) as (s1 & k & He). rewrite He.
  destruct (evict_one_inv s s1 _ Hi He) as (Hs & Hsm & Hbc & Hby & [Hl [he Hk] Hb Hc]). rewrite Hk.
  destruct (hasBackup he) eqn:Eb; [eauto|].
  destruct (list_insert pool_get (sevict s1) k) as [l a] eqn:Ei.
  set (he' := MkHotEntry (h_obj he) (h_id he) a false (windowHits he)).
  assert (core <$> <[k := he']> (sentries s1) = core <$> sentries s1) as Hcore
    by (eapply core_insert; [exact Hk|]; unfold core; by rewrite Eb).
  assert (linked l (<[k := he']> (sentries s1))) as Hl'.
  { rewrite <- insert_delete_eq. eapply linked_insert; [done|exact Hl|apply lookup_delete_eq|exact Ei|done]. }
  assert (llen l = llen (sevict s)) as Elen.
  { rewrite (linked_len _ _ Hl'), (linked_len _ _ (si_linked _ Hi)).
    by rewrite <- (map_size_fmap core), Hcore, map_size_fmap, Hsm. }
  apply IH; unfold probes_suffice in *; cbn [sevict]; [|lia|lia].
  split; cbn [sevict sentries sbytes backedCount]; [done|..].
  - unfold stored_bytes. by rewrite (msum_core _ _ _ Hcore).
  - unfold backed_entries. rewrite (msum_core _ _ _ Hcore), Hsm, Hbc. apply Hi.
Qed.

(** *** The other operations *)

Lemma update_inv (s : shard) (key : Key) (e e' : hotEntry) (l : List Key) (c : Z) :
  shard_inv s -> sentries s !! key = Some e -> linked l (<[key := e']> (sentries s)) ->
  objSize (h_obj e') = objSize (h_obj e) ->
  backedCount s + (g_backed (core e') - g_backed (core e)) <= c ->
  shard_inv {| s with sevict := l; sentries := <[key := e']> (sentries s); backedCount := c |}.
Proof.
  intros [Hl Hb Hc] Hk Hl' Hs Hcnt. split; cbn [sevict sentries sbytes backedCount]; [done|..].
  - unfold stored_bytes in *. rewrite (msum_update _ _ _ _ _ Hk), Hb. f_equal. unfold g_size at 3 4.
    cbn [core fst]. rewrite Hs. lia.
  - unfold backed_entries in *. rewrite (msum_update _ _ _ _ _ Hk). lia.
Qed.

Lemma get_fast_inv (key : Key) (s : shard) : shard_inv s -> shard_inv (get_fast key s).1.
Proof.
  intros Hi. unfold get_fast. destruct (sentries s !! key) as [e|] eqn:Hk; [|done].
  destruct (Visited s e); [|done]. cbn [fst].
  apply (update_inv s key e _ (sevict s) (backedCount s) Hi Hk); [|done|unfold g_backed; cbn [core fst snd hasBackup]; lia].
  eapply linked_update; [apply Hi|exact Hk|done].
Qed.

Lemma objSize_hits (o : Object.t) (n : Z) : objSize {| o with Object.Hits := n |} = objSize o.
Proof. done. Qed.

Lemma get_slow_inv (key : Key) (s : shard) : shard_inv s -> shard_inv (get_slow pool_get key s).1.
Proof.
  intros Hi. unfold get_slow. destruct (sentries s !! key) as [e|] eqn:Hk; [|done].
  pose proof (linked_touch (sevict s) (sentries s) key e (fun _ => Some (h_entry e)) (pool_get (sevict s)) (si_linked _ Hi) Hk eq_refl) as [_ Hl].
  destruct (p_access _ _ _ _) as [[l a] b]. cbn [fst] in Hl |- *.
  apply (update_inv s key e _ l (backedCount s) Hi Hk); [|done|unfold g_backed; cbn [core fst snd hasBackup]; lia].
  by eapply linked_update; [exact Hl|exact Hk|].
Qed.

Lemma set_backed_inv (key : Key) (s : shard) : shard_inv s -> shard_inv (shard_set_backed key s).
Proof.
  intros Hi. unfold shard_set_backed. destruct (sentries s !! key) as [e|] eqn:Hk; [|done].
  destruct (hasBackup e) eqn:Eb; [done|].
  apply (update_inv s key e _ (sevict s) (backedCount s + 1) Hi Hk); [|done|unfold g_backed; cbn [core fst snd hasBackup]; rewrite Eb; lia].
  eapply linked_update; [apply Hi|exact Hk|done].
Qed.

Lemma clear_backed_inv (key : Key) (s : shard) : shard_inv s -> shard_inv (shard_clear_backed key s).
Proof.
  intros Hi. unfold shard_clear_backed. destruct (sentries s !! key) as [e|] eqn:Hk; [|done].
  destruct (hasBackup e) eqn:Eb; [|done].
  apply (update_inv s key e _ (sevict s) (backedCount s - 1) Hi Hk); [|done|unfold g_backed; cbn [core fst snd hasBackup]; rewrite Eb; lia].
  eapply linked_update; [apply Hi|exact Hk|done].
Qed.

Lemma evictBanned_inv (key : Key) (id : positive) (s : shard) :
  shard_inv s -> shard_inv (evictBanned key id s).1 /\ shrinks s (evictBanned key id s).1.
Proof.
  intros Hi. unfold evictBanned. destruct (sentries s !! key) as [e|] eqn:Hk; [|done].
  case_bool_decide; [|done]. cbn [fst]. by apply unlink_drop_inv.
Qed.

Lemma shard_delete_inv (key : Key) (s : shard) :
  shard_inv s ->
  shard_inv (shard_delete key s).1 /\ shrinks s (shard_delete key s).1 /\ sentries (shard_delete key s).1 !! key = None.
Proof.
  intros Hi. unfold shard_delete. destruct (sentries s !! key) as [e|] eqn:Hk; [|done]. cbn [fst].
  destruct (unlink_drop_inv s key e Hi Hk) as [H1 H2]. split_and!; [done|done|]. apply lookup_delete_eq.
Qed.

Lemma reapShard_inv (gate : option (Object.t -> bool)) (now : Time) (visit : list Key) (s : shard) :
  shard_inv s -> shard_inv (reapShard gate now visit s).1.1 /\ shrinks s (reapShard gate now visit s).1.1.
Proof.
  unfold reapShard. generalize no_effects as f, 0 as n. revert s.
  induction visit as [|key visit IH]; intros s f n Hi; [done|]. cbn [foldl].
  destruct (sentries s !! key) as [e|] eqn:Hk; [|unfold reap_one at 2 4; rewrite Hk; by apply IH].
  unfold reap_one at 2 4. rewrite Hk. destruct (t_after _ _); [|by apply IH]. destruct (_ && _); [by apply IH|].
  destruct (unlink_drop_inv s key e Hi Hk) as [H1 H2].
  edestruct IH as [H3 H4]; [exact H1|]. split; [exact H3|]. by eapply shrinks_trans.
Qed.

Lemma banShard_inv (pr : banPredicate) (visit : list Key) (s : shard) :
  shard_inv s -> shard_inv (banShard pr visit s).1.1 /\ shrinks s (banShard pr visit s).1.1 /\
  forall k e, k ∈ visit -> sentries (banShard pr visit s).1.1 !! k = Some e -> pr (h_obj e) = false.
Proof.
  unfold banShard. generalize no_effects as f, 0 as n. revert s.
  induction visit as [|key visit IH]; intros s f n Hi; [split_and!; [done..|by intros k e []%not_elem_of_nil]|].
  cbn [foldl].
  assert (exists s1 f1 n1, ban_one pr (s, f, n) key = (s1, f1, n1) /\ shard_inv s1 /\ shrinks s s1 /\
    forall e, sentries s1 !! key = Some e -> pr (h_obj e) = false) as (s1 & f1 & n1 & -> & H1 & H2 & H3).
  { unfold ban_one. destruct (sentries s !! key) as [e|] eqn:Hk.
    - destruct (pr (h_obj e)) eqn:Ep.
      + destruct (unlink_drop_inv s key e Hi Hk) as [H1 H2]. eexists _, _, _. split_and!; [done..|].
        intros e'. cbn. by rewrite lookup_delete_eq.
      + eexists _, _, _. split_and!; [done..|]. intros e' E. congruence.
    - eexists _, _, _. split_and!; [done..|]. intros e' E. congruence. }
  destruct (IH s1 f1 n1 H1) as (H4 & H5 & H6). split_and!; [done|by eapply shrinks_trans|].
  intros k e [->|Hin]%elem_of_cons Hk; [|by eapply H6].
  specialize (H5 key (core e)). rewrite Hk in H5. specialize (H5 eq_refl).
  destruct (sentries s1 !! key) as [e1|] eqn:E1; [|done]. injection H5 as H5 _ _ _.
  rewrite <- H5. by apply H3.
Qed.

(** What [putStored] leaves: the object, and some of the other entries. *)
Lemma shard_put_inv (mx : Z) (key : Key) (o : Object.t) (id : positive) (s : shard) :
  shard_inv s ->
  let s' := (shard_put pool_get mx key o id s).1.1 in
  shard_inv s' /\
  (exists a, sentries s' !! key = Some (MkHotEntry o id a false 0)) /\
  (forall k c, k <> key -> core <$> sentries s' !! k = Some c -> core <$> sentries s !! k = Some c).
Proof.
  intros Hi. unfold shard_put.
  destruct (inline_evict_inv inlineEvictCap (objSize o) mx s no_effects Hi) as [H1 H2].
  destruct (inline_evict pool_get inlineEvictCap (objSize o) mx s no_effects) as [s1 f1]. cbn [fst] in H1, H2.
  set (st := match sentries s1 !! key with Some old => _ | None => _ end).
  assert (linked (sevict st.1) (delete key (sentries st.1)) /\ sentries st.1 = sentries s1 /\
          sbytes st.1 = i64 (stored_bytes (delete key (sentries s1))) /\
          backed_entries (delete key (sentries s1)) <= backedCount st.1) as (L1 & L2 & L3 & L4).
  { destruct H1 as [Hl Hb Hc]. unfold st. destruct (sentries s1 !! key) as [old|] eqn:Hk.
    - assert (i64 (sbytes s1 - objSize (h_obj old)) = i64 (stored_bytes (delete key (sentries s1)))) as Eb.
      { rewrite Hb, i64_sub. unfold stored_bytes. by rewrite (msum_delete _ _ _ _ Hk). }
      pose proof (msum_delete g_backed _ _ _ Hk) as Ed. unfold backed_entries in *.
      destruct (hasBackup old) eqn:Eo; cbn [fst unlink sevict sentries sbytes backedCount];
        (split_and!; [by apply linked_remove|done|done|]); rewrite Ed; unfold g_backed at 2; cbn [core fst snd hasBackup]; rewrite Eo; lia.
    - cbn [fst]. rewrite delete_id by done. done. }
  destruct st as [s2 f2]. cbn [fst] in L1, L2, L3, L4.
  destruct (list_insert pool_get (sevict s2) key) as [l a] eqn:Ei. cbn [fst].
  rewrite L2 in L1. split_and!.
  - split; cbn [sevict sentries sbytes backedCount]; rewrite L2.
    + rewrite <- insert_delete_eq. eapply linked_insert; [done|exact L1|apply lookup_delete_eq|exact Ei|done].
    + rewrite L3, i64_add, <- insert_delete_eq. unfold stored_bytes.
      rewrite msum_insert by apply lookup_delete_eq. f_equal. unfold g_size at 2. cbn [core fst h_obj]. lia.
    + rewrite <- insert_delete_eq. unfold backed_entries in *. rewrite msum_insert by apply lookup_delete_eq.
      unfold g_backed at 1. cbn [core fst snd hasBackup]. lia.
  - exists a. cbn [sentries]. by rewrite lookup_insert_eq.
  - intros k c Hne. cbn [sentries]. rewrite L2, lookup_insert_ne by done. apply H2.
Qed.

End ShardInv.

(** ** The number of shards *)

(** The [c] bits from [m] down are set, and none above. *)
Definition smeared (v m c : Z) : Prop :=
  0 <= v /\ forall i, 0 <= i -> (m < i -> Z.testbit v i = false) /\ (m - c < i <= m -> Z.testbit v i = true).

Lemma smear_step (v m c : Z) : 0 <= c -> smeared v m c -> smeared (Z.lor v (Z.shiftr v c)) m (2 * c).
Proof.
  intros Hc [Hv Hs]. split; [apply Z.lor_nonneg; rewrite Z.shiftr_nonneg; lia|].
  intros i Hi. rewrite Z.lor_spec, Z.shiftr_spec by lia. split; intros H.
  - rewrite (proj1 (Hs i Hi)), (proj1 (Hs (i + c) ltac:(lia))) by lia. done.
  - destruct (Z.lt_ge_cases (m - c) i).
    + by rewrite (proj2 (Hs i Hi)) by lia.
    + rewrite (proj2 (Hs (i + c) ltac:(lia))) by lia. apply orb_true_r.
Qed.

Lemma smeared_full (v m c : Z) : 0 <= m < c -> smeared v m c -> v = 2 ^ (m + 1) - 1.
Proof.
  intros Hm [Hv Hs]. replace (2 ^ (m + 1) - 1) with (Z.ones (m + 1)) by (rewrite Z.ones_equiv; lia).
  apply Z.bits_inj'. intros i Hi. destruct (Z.lt_ge_cases m i).
  - rewrite (proj1 (Hs i Hi)) by lia. by rewrite Z.ones_spec_high by lia.
  - rewrite (proj2 (Hs i Hi)) by lia. by rewrite Z.ones_spec_low by lia.
Qed.

Lemma nextPow2_spec (v : Z) :
  1 <= v <= 2 ^ 32 -> exists k : nat, nextPow2 v = 2 ^ Z.of_nat k /\ v <= nextPow2 v < 2 * v.
Proof.
  intros Hv. unfold nextPow2. rewrite (i64_id (v - 1)) by (unfold in_i64; lia).
  destruct (Z.eq_dec v 1) as [->|Hne]; [by exists 0%nat|].
  set (m := Z.log2 (v - 1)). assert (0 <= m < 32) as Hm.
  { unfold m. split; [apply Z.log2_nonneg|]. apply Z.log2_lt_pow2; lia. }
  pose proof (Z.log2_spec (v - 1) ltac:(lia)) as Hlog. fold m in Hlog.
  assert (smeared (v - 1) m 1) as H1.
  { split; [lia|]. intros i Hi. split; intros H; [by apply Z.bits_above_log2; [lia|]|].
    replace i with m by lia. apply Z.bit_log2. lia. }
  apply smear_step in H1; [|lia]. apply smear_step in H1; [|lia]. apply smear_step in H1; [|lia].
  apply smear_step in H1; [|lia]. apply smear_step in H1; [|lia].
  set (w := Z.lor _ (Z.shiftr _ 16)) in *.
  assert (w = 2 ^ (m + 1) - 1) as -> by (apply (smeared_full w m 32); [lia|exact H1]).
  replace (2 ^ (m + 1) - 1 + 1) with (2 ^ (m + 1)) by lia.
  rewrite Z.pow_succ_r in Hlog by lia. rewrite Z.pow_add_r by lia.
  assert (2 ^ m <= 2 ^ 31) by (apply Z.pow_le_mono_r; lia).
  assert (0 < 2 ^ m) by (apply Z.pow_pos_nonneg; lia).
  rewrite i64_id by (unfold in_i64; lia).
  destruct (_ <? 1) eqn:E; bool_cases; [lia|]. exists (Z.to_nat (m + 1)). rewrite Z2Nat.id by lia.
  rewrite Z.pow_add_r by lia. split; [done|]. lia.
Qed.

Lemma shard_count_pow2 (numShards cpus : Z) :
  numShards <= 2 ^ 32 -> 1 <= cpus -> exists k : nat, shard_count numShards cpus = 2 ^ Z.of_nat k.
Proof.
  intros Hn Hc. unfold shard_count. destruct (nextPow2_spec (if numShards <=? 0 then if 64 <? cpus then 64 else cpus else numShards))
    as (k & Hk & _); [case_tests; bool_cases; lia|]. by exists k.
Qed.

(** ** The store against an unbounded map *)

(** Objects up to their hit counter, the one field the tier writes. *)
Definition forget_hits (o : Object.t) : Object.t := {| o with Object.Hits := 0 |}.
(** [o] is [p] with another value of the counter, a uint64 like the first. *)
Definition same_object (o p : Object.t) : Prop :=
  forget_hits o = forget_hits p /\ (in_u64 (Object.Hits p) -> in_u64 (Object.Hits o)).
Lemma same_object_refl (o : Object.t) : same_object o o.
Proof. done. Qed.
Lemma same_object_trans (o p q : Object.t) : same_object o p -> same_object p q -> same_object o q.
Proof. intros [H1 H2] [H3 H4]. split; [congruence|auto]. Qed.
Lemma same_object_hit (o : Object.t) (n : Z) : same_object {| o with Object.Hits := u64 n |} o.
Proof. split; [done|]. intros _. apply u64_range. Qed.
#[export] Hint Resolve same_object_refl same_object_hit : core.

(** [sp] is the map of a cache that never evicts: the last object stored
    under each key since it was deleted. *)
Record store_ok (h : HotStore) (sp : gmap Key Object.t) : Prop := {
  so_size : exists k : nat, len (hshards h) = 2 ^ Z.of_nat k;
  so_mask : hmask h = len (hshards h) - 1;
  so_inv : forall i s, hshards h !! i = Some s -> shard_inv s;
  so_home : forall i s k e, hshards h !! i = Some s -> sentries s !! k = Some e -> shard_of h k = i;
  so_spec : forall i s k e, hshards h !! i = Some s -> sentries s !! k = Some e ->
              exists o, sp !! k = Some o /\ same_object (h_obj e) o;
}.

Lemma shard_of_lt (h : HotStore) (sp : gmap Key Object.t) (key : Key) :
  store_ok h sp -> exists s, hshards h !! shard_of h key = Some s.
Proof.
  intros [[k Hk] Hm _ _ _]. apply lookup_lt_is_Some. unfold shard_of. rewrite Hm, Hk.
  replace (2 ^ Z.of_nat k - 1) with (Z.ones (Z.of_nat k)) by (rewrite Z.ones_equiv; lia).
  rewrite Z.land_ones by lia. pose proof (Z.mod_pos_bound (Hash64 key) (2 ^ Z.of_nat k) ltac:(lia)).
  unfold len in Hk. lia.
Qed.

(** Replacing one shard. *)
Lemma store_update (h h' : HotStore) (sp sp' : gmap Key Object.t) (i : nat) (s s' : shard) :
  store_ok h sp -> hshards h !! i = Some s -> hshards h' = <[i := s']> (hshards h) -> hmask h' = hmask h ->
  shard_inv s' ->
  (forall k e, sentries s' !! k = Some e ->
     shard_of h k = i /\ exists o, sp' !! k = Some o /\ same_object (h_obj e) o) ->
  (forall k, shard_of h k <> i -> sp' !! k = sp !! k) ->
  store_ok h' sp'.
Proof.
  intros [Hn Hm Hi Hh Hs] Hk E Em Hinv He Hsp.
  assert (forall k, shard_of h' k = shard_of h k) as Eo by (intros k; unfold shard_of; by rewrite Em).
  split; rewrite ?E, ?Em; unfold len in *; rewrite ?length_insert; [done|done|..].
  - intros j x. rewrite list_lookup_insert_Some. intros [(<- & <- & _)|[_ Hx]]; [done|by eapply Hi].
  - intros j x k e. rewrite Eo, list_lookup_insert_Some. intros [(<- & <- & _)|[_ Hx]] Hke; [by apply (He k e Hke)|by eapply Hh].
  - intros j x k e. rewrite list_lookup_insert_Some. intros [(<- & <- & _)|[Hne Hx]] Hke; [by apply (He k e Hke)|].
    rewrite Hsp; [by eapply Hs|]. intros Hki. apply Hne. rewrite <- Hki. by eapply Hh.
Qed.

(** A change that keeps some entries, up to their place and counters. *)
Definition keeps_objects (s s' : shard) : Prop :=
  forall k e', sentries s' !! k = Some e' ->
    exists e, sentries s !! k = Some e /\ same_object (h_obj e') (h_obj e).

Lemma shrinks_keeps (s s' : shard) : shrinks s s' -> keeps_objects s s'.
Proof.
  intros H k e' He'. specialize (H k (core e')). rewrite He' in H. specialize (H eq_refl).
  destruct (sentries s !! k) as [e|]; [|done]. injection H as H _ _ _. exists e. by rewrite H.
Qed.

Lemma store_keeps (h h' : HotStore) (sp : gmap Key Object.t) (i : nat) (s s' : shard) :
  store_ok h sp -> hshards h !! i = Some s -> hshards h' = <[i := s']> (hshards h) -> hmask h' = hmask h ->
  shard_inv s' -> keeps_objects s s' -> store_ok h' sp.
Proof.
  intros Hok Hi E Em Hinv Hk. eapply (store_update h h' sp sp); try done.
  intros k e' He'. destruct (Hk k e' He') as (e & He & Ho). split; [by eapply (so_home _ _ Hok)|].
  destruct (so_spec _ _ Hok i s k e Hi He) as (o & Hso & Hoo). exists o. split; [done|by eapply same_object_trans].
Qed.

Lemma store_ext (h h' : HotStore) (sp : gmap Key Object.t) :
  hshards h' = hshards h -> hmask h' = hmask h -> store_ok h sp -> store_ok h' sp.
Proof.
  intros E Em [Hn Hm Hi Hh Hs]. assert (forall k, shard_of h' k = shard_of h k) as Eo
    by (intros k; unfold shard_of; by rewrite Em).
  split; rewrite ?E, ?Em; try done. intros i s k e. rewrite Eo. apply Hh.
Qed.

Lemma on_shard_ok (h : HotStore) (sp : gmap Key Object.t) (i : nat) (op : shard -> shard * effects) :
  store_ok h sp -> (forall s, shard_inv s -> shard_inv (op s).1 /\ keeps_objects s (op s).1) ->
  store_ok (on_shard h i op) sp /\ hbans (on_shard h i op) = hbans h.
Proof.
  intros Hok Hop. unfold on_shard. destruct (hshards h !! i) as [s|] eqn:Hi; [|done].
  destruct (Hop s (so_inv _ _ Hok i s Hi)) as [H1 H2]. destruct (op s) as [s' f]. cbn [fst] in H1, H2.
  split; [|done]. by eapply (store_keeps h _ sp i s s').
Qed.

Section Histories.
Context {P : EvictionPolicy Key} (pool_get : List Key -> addr).
Context (pool_get_unused : forall l, heap l !! pool_get l = None).
Context (shard_hash : bytes -> Z) (regexp_compile : bytes -> option (bytes -> bool)).

(** Every history of the tier: each step is one critical section (a shard's
    lock or the ban list's mutex), so the steps of concurrent calls interleave
    freely. [sp] is the map an unbounded cache would hold; [clock] and [low]
    are those of the ban list. *)
Inductive hot_history : HotStore -> gmap Key Object.t -> Time -> Duration -> Prop :=
| HH_new numShards cpus maxB ttl_ gate now :
    numShards <= 2 ^ 32 -> 1 <= cpus ->
    hot_history (NewHotStore numShards cpus maxB ttl_ gate) ∅ now (if 0 <? ttl_ then ttl_ else DefaultBanTTL)
| HH_read_fast h sp clock low key :
    hot_history h sp clock low ->
    hot_history (on_shard h (shard_of h key) (fun s => ((get_fast key s).1, no_effects))) sp clock low
| HH_read_slow h sp clock low key :
    hot_history h sp clock low ->
    hot_history (on_shard h (shard_of h key) (fun s => ((get_slow pool_get key s).1, no_effects))) sp clock low
| HH_ban_check h sp clock low obj won now :
    hot_history h sp clock low -> clock <= now ->
    hot_history (matchesActiveBan shard_hash h obj won now).1 sp now low
| HH_evict_banned h sp clock low key id :
    hot_history h sp clock low -> hot_history (on_shard h (shard_of h key) (evictBanned key id)) sp clock low
| HH_put h sp clock low key obj :
    hot_history h sp clock low ->
    hot_history (Put pool_get h key obj) (<[key := CloneForStorage obj]> sp) clock low
| HH_delete h sp clock low key :
    hot_history h sp clock low -> hot_history (Delete h key) (delete key sp) clock low
| HH_sweep h sp clock low :
    hot_history h sp clock low -> hot_history (sweeper pool_get h) sp clock low
| HH_reap h sp clock low i now visit :
    hot_history h sp clock low ->
    hot_history (on_shard h i (fun s => (reapShard (mayReap h) now visit s).1)) sp clock low
| HH_ban_shard h sp clock low i pr visit :
    hot_history h sp clock low -> hot_history (on_shard h i (fun s => (banShard pr visit s).1)) sp clock low
| HH_register h sp clock low expr pr now1 now2 :
    hot_history h sp clock low -> compileBanPredicate regexp_compile expr = Ok pr -> clock <= now2 ->
    hot_history {| h with hbans := registerBan shard_hash (hbans h) expr pr now1 now2 |} sp now2 low
| HH_prune h sp clock low now :
    hot_history h sp clock low -> clock <= now ->
    hot_history {| h with hbans := pruneExpired shard_hash (hbans h) now |} sp now low
| HH_ttl h sp clock low d :
    hot_history h sp clock low ->
    hot_history (SetBanTTL h d) sp clock (Z.min low (ttlOrDefault (setTTL (hbans h) d)))
| HH_backed h sp clock low key :
    hot_history h sp clock low -> hot_history (SetBacked h key) sp clock low
| HH_unbacked h sp clock low key :
    hot_history h sp clock low -> hot_history (ClearBacked h key) sp clock low
| HH_count h sp clock low hits misses holds scan :
    hot_history h sp clock low ->
    hot_history {| h with st_hits := hits; st_misses := misses; st_graceHolds := holds; lastBanScan := scan |} sp clock low.

Lemma get_fast_keeps (key : Key) (s : shard) : keeps_objects s (get_fast key s).1.
Proof.
  intros k e'. unfold get_fast. destruct (sentries s !! key) as [e|] eqn:Hk; [|by eauto].
  destruct (Visited s e); [|by eauto]. cbn [fst sentries]. rewrite lookup_insert_Some.
  intros [[<- <-]|[_ He']]; eauto.
Qed.

Lemma get_slow_keeps (key : Key) (s : shard) : keeps_objects s (get_slow pool_get key s).1.
Proof.
  intros k e'. unfold get_slow. destruct (sentries s !! key) as [e|] eqn:Hk; [|by eauto].
  destruct (p_access _ _ _ _) as [[l a] b]. cbn [fst sentries]. rewrite lookup_insert_Some.
  intros [[<- <-]|[_ He']]; [|by eauto]. exists e. split; [done|]. cbn [h_obj]. apply same_object_hit.
Qed.

Lemma backed_keeps (key : Key) (s : shard) :
  keeps_objects s (shard_set_backed key s) /\ keeps_objects s (shard_clear_backed key s).
Proof.
  unfold shard_set_backed, shard_clear_backed.
  destruct (sentries s !! key) as [e|] eqn:Hk; [|split; intros k e'; by eauto].
  split; destruct (hasBackup e); intros k e'; try by eauto.
  all: cbn [sentries]; rewrite lookup_insert_Some; intros [[<- <-]|[_ He']]; eauto.
Qed.

Lemma put_ok (h : HotStore) (sp : gmap Key Object.t) (key : Key) (o : Object.t) :
  store_ok h sp ->
  store_ok (putStored pool_get h key o) (<[key := o]> sp) /\
  hbans (putStored pool_get h key o) = hbans h /\
  exists s a id, hshards (putStored pool_get h key o) !! shard_of h key = Some s /\
                 sentries s !! key = Some (MkHotEntry o id a false 0).
Proof.
  intros Hok. destruct (shard_of_lt h sp key Hok) as [s Hs]. unfold putStored. rewrite Hs.
  destruct (shard_put_inv pool_get pool_get_unused (perShardMax h) key o (next_id h) s (so_inv _ _ Hok _ _ Hs))
    as (H1 & (a & Ha) & H3).
  destruct (shard_put pool_get (perShardMax h) key o (next_id h) s) as [[s' f] over]. cbn [fst] in H1, Ha, H3.
  set (h1 := emit _ f). set (h2 := if over then _ else _).
  assert (hshards h2 = <[shard_of h key := s']> (hshards h) /\ hmask h2 = hmask h /\ hbans h2 = hbans h) as (E1 & E2 & E3).
  { unfold h2, signal. destruct over; [destruct (_ <? _)|]; done. }
  split_and!; [|done|].
  - eapply (store_update h h2 sp _ (shard_of h key) s s'); try done.
    + intros k e He. destruct (decide (k = key)) as [->|Hne].
      * split; [done|]. exists o. rewrite lookup_insert_eq. split; [done|]. rewrite Ha in He. by injection He as <-.
      * specialize (H3 k (core e) Hne). rewrite He in H3. specialize (H3 eq_refl).
        destruct (sentries s !! k) as [e0|] eqn:He0; [|done]. injection H3 as H3 _ _ _.
        split; [by eapply (so_home _ _ Hok)|]. destruct (so_spec _ _ Hok _ s k e0 Hs He0) as (o' & Ho' & Hoo).
        exists o'. rewrite lookup_insert_ne by done. split; [done|]. by rewrite <- H3.
    + intros k Hk. apply lookup_insert_ne. by intros <-.
  - exists s', a, (next_id h). rewrite E1. split; [|done]. apply list_lookup_insert_eq. by apply lookup_lt_Some in Hs.
Qed.

Lemma delete_ok (h : HotStore) (sp : gmap Key Object.t) (key : Key) :
  store_ok h sp ->
  store_ok (Delete h key) (delete key sp) /\ hbans (Delete h key) = hbans h /\
  exists s, hshards (Delete h key) !! shard_of h key = Some s /\ sentries s !! key = None.
Proof.
  intros Hok. destruct (shard_of_lt h sp key Hok) as [s Hs]. unfold Delete, on_shard. rewrite Hs.
  destruct (shard_delete_inv key s (so_inv _ _ Hok _ _ Hs)) as (H1 & H2 & H3).
  destruct (shard_delete key s) as [s' f]. cbn [fst] in H1, H2, H3. split_and!; [|done|].
  - eapply (store_update h _ sp _ (shard_of h key) s s'); try done.
    + intros k e He. destruct (decide (k = key)) as [->|Hne]; [congruence|].
      destruct (shrinks_keeps s s' H2 k e He) as (e0 & He0 & Ho).
      split; [by eapply (so_home _ _ Hok)|]. destruct (so_spec _ _ Hok _ s k e0 Hs He0) as (o' & Ho' & Hoo).
      exists o'. rewrite lookup_delete_ne by done. split; [done|by eapply same_object_trans].
    + intros k Hk. apply lookup_delete_ne. by intros <-.
  - exists s'. split; [|done]. cbn [emit hshards]. apply list_lookup_insert_eq. by apply lookup_lt_Some in Hs.
Qed.
Lemma emit_none (h : HotStore) : emit h no_effects = h.
Proof.
  destruct h as [? ? ? ? ? ? ? ? ? ? ? ? [? ? ?]]. unfold emit. cbn.
  by rewrite !app_nil_r, !Z.add_0_r.
Qed.

Lemma on_shard_pure (h : HotStore) (i : nat) (s : shard) (g : shard -> shard) :
  hshards h !! i = Some s ->
  on_shard h i (fun s => (g s, no_effects)) = {| h with hshards := <[i := g s]> (hshards h) |}.
Proof. intros Hs. unfold on_shard. by rewrite Hs, emit_none. Qed.

Lemma NewHotStore_ok (numShards cpus maxB : Z) (ttl_ : Duration) (gate : option (Object.t -> bool)) :
  numShards <= 2 ^ 32 -> 1 <= cpus -> store_ok (NewHotStore numShards cpus maxB ttl_ gate) ∅.
Proof.
  intros Hn Hc. destruct (shard_count_pow2 numShards cpus Hn Hc) as [k Hk].
  pose proof (Z.pow_pos_nonneg 2 (Z.of_nat k)).
  split; unfold NewHotStore; cbn [hshards hmask]; unfold len;
    rewrite ?length_replicate, ?Z2Nat.id, ?Hk by lia; [by exists k|done|..].
  - intros i s [-> _]%lookup_replicate. apply shard_inv_new.
  - intros i s key e [-> _]%lookup_replicate. cbn. by rewrite lookup_empty.
  - intros i s key e [-> _]%lookup_replicate. cbn. by rewrite lookup_empty.
Qed.

Lemma hot_history_ok (h : HotStore) (sp : gmap Key Object.t) (clock : Time) (low : Duration) :
  hot_history h sp clock low -> store_ok h sp /\ history shard_hash regexp_compile 0 clock low (hbans h).
Proof.
  induction 1 as [numShards cpus maxB ttl_ gate now Hn Hc| h sp clock low key _ [IH1 IH2]| h sp clock low key _ [IH1 IH2]
    | h sp clock low obj won now _ [IH1 IH2] Hle| h sp clock low key id _ [IH1 IH2]| h sp clock low key obj _ [IH1 IH2]
    | h sp clock low key _ [IH1 IH2]| h sp clock low _ [IH1 IH2]| h sp clock low i now visit _ [IH1 IH2]
    | h sp clock low i pr visit _ [IH1 IH2]| h sp clock low expr pr now1 now2 _ [IH1 IH2] Hc Hle
    | h sp clock low now _ [IH1 IH2] Hle| h sp clock low d _ [IH1 IH2]| h sp clock low key _ [IH1 IH2]
    | h sp clock low key _ [IH1 IH2]| h sp clock low hits misses holds scan _ [IH1 IH2]].
  - split; [by apply NewHotStore_ok|]. cbn [hbans NewHotStore].
    set (d := if 0 <? ttl_ then ttl_ else DefaultBanTTL).
    assert (ttlOrDefault (NewBanList d 0) = d) as E.
    { unfold ttlOrDefault, d. cbn [ttl NewBanList]. destruct (0 <? ttl_) eqn:E; [|done]. bool_cases.
      by rewrite (proj2 (Z.leb_gt ttl_ 0)). }
    pose proof (H_new shard_hash regexp_compile 0 d now) as Hh. by rewrite E in Hh.
  - destruct (on_shard_ok h sp (shard_of h key) (fun s => ((get_fast key s).1, no_effects)) IH1) as [H1 H2].
    { intros s Hs. split; [by apply get_fast_inv|apply get_fast_keeps]. }
    by rewrite H2.
  - destruct (on_shard_ok h sp (shard_of h key) (fun s => ((get_slow pool_get key s).1, no_effects)) IH1) as [H1 H2].
    { intros s Hs. split; [by apply get_slow_inv|apply get_slow_keeps]. }
    by rewrite H2.
  - unfold matchesActiveBan. destruct (matches shard_hash (hbans h) obj won now) as [b r] eqn:Em. cbn [fst].
    split; [by apply (store_ext h)|]. cbn [hbans]. replace b with (matches shard_hash (hbans h) obj won now).1 by by rewrite Em.
    by eapply H_lookup.
  - destruct (on_shard_ok h sp (shard_of h key) (evictBanned key id) IH1) as [H1 H2]; [|by rewrite H2].
    intros s Hs. destruct (evictBanned_inv key id s Hs). split; [done|by apply shrinks_keeps].
  - destruct (put_ok h sp key (CloneForStorage obj) IH1) as (H1 & H2 & _). unfold Put. by rewrite H2.
  - destruct (delete_ok h sp key IH1) as (H1 & H2 & _). by rewrite H2.
  - unfold sweeper. destruct (evictSignal h) as [|i rest_]; [done|].
    edestruct (on_shard_ok {| h with evictSignal := rest_ |} sp i) as [H1 H2]; [by apply (store_ext h)| |split; [exact H1|by rewrite H2]].
    intros s Hs. destruct (sweep_shard_inv pool_get pool_get_unused (Z.to_nat (llen (sevict s))) (perShardMax h) s no_effects Hs)
      as (H1 & H2 & _); [lia|]. split; [done|by apply shrinks_keeps].
  - edestruct (on_shard_ok h sp i) as [H1 H2]; [done| |split; [exact H1|by rewrite H2]].
    intros s Hs. destruct (reapShard_inv (mayReap h) now visit s Hs). split; [done|by apply shrinks_keeps].
  - edestruct (on_shard_ok h sp i) as [H1 H2]; [done| |split; [exact H1|by rewrite H2]].
    intros s Hs. destruct (banShard_inv pr visit s Hs) as (? & ? & _). split; [done|by apply shrinks_keeps].
  - split; [by apply (store_ext h)|]. cbn [hbans]. by eapply H_register.
  - split; [by apply (store_ext h)|]. cbn [hbans]. by eapply H_prune.
  - split; [by apply (store_ext h)|]. cbn [hbans SetBanTTL]. by apply H_ttl.
  - edestruct (on_shard_ok h sp (shard_of h key)) as [H1 H2]; [done| |split; [exact H1|by unfold SetBacked; rewrite H2]].
    intros s Hs. cbn [fst]. split; [by apply set_backed_inv|apply backed_keeps].
  - edestruct (on_shard_ok h sp (shard_of h key)) as [H1 H2]; [done| |split; [exact H1|by unfold ClearBacked; rewrite H2]].
    intros s Hs. cbn [fst]. split; [by apply clear_backed_inv|apply backed_keeps].
  - split; [by apply (store_ext h)|done].
Qed.

(** What [Get] reads before the ban check. *)
Lemma Get_cases (h : HotStore) (sp : gmap Key Object.t) (key : Key) (won : bool) (now : Time) :
  store_ok h sp ->
  match hshards h !! shard_of h key ≫= fun s => sentries s !! key with
  | None => exists h', Get pool_get shard_hash h key won now = (h', None) /\ hbans h' = hbans h
  | Some e => exists h1 o, Get pool_get shard_hash h key won now = finish_get shard_hash h1 key o (h_id e) won now /\
      hbans h1 = hbans h /\ hmask h1 = hmask h /\ same_object o (h_obj e)
  end.
Proof.
  intros Hok. destruct (shard_of_lt h sp key Hok) as [s Hs]. unfold Get. rewrite Hs. cbn [mbind option_bind].
  unfold get_fast. destruct (sentries s !! key) as [e|] eqn:Hk; [|by eexists].
  destruct (Visited s e).
  - eexists _, _. split; [reflexivity|]. done.
  - unfold get_slow. rewrite Hk. destruct (p_access _ _ _ _) as [[l a] b]. eexists _, _. split; [reflexivity|]. done.
Qed.

Lemma finish_get_result (h : HotStore) (key : Key) (o : Object.t) (id : positive) (won : bool) (now : Time) :
  (finish_get shard_hash h key o id won now).2
  = if (matches shard_hash (hbans h) o won now).2 then None else Some o.
Proof.
  unfold finish_get, matchesActiveBan. destruct (matches shard_hash (hbans h) o won now) as [b []]; done.
Qed.

Lemma Get_sound (h : HotStore) (sp : gmap Key Object.t) (clock : Time) (low : Duration)
    (key : Key) (won : bool) (now : Time) (o : Object.t) :
  hot_history h sp clock low -> (Get pool_get shard_hash h key won now).2 = Some o ->
  exists o', sp !! key = Some o' /\ same_object o o' /\
             (matches shard_hash (hbans h) o won now).2 = false.
Proof.
  intros Hh Hg. destruct (hot_history_ok h sp clock low Hh) as [Hok _].
  pose proof (Get_cases h sp key won now Hok) as Hc.
  destruct (hshards h !! shard_of h key ≫= fun s => sentries s !! key) as [e|] eqn:E.
  - destruct Hc as (h1 & o1 & Eg & Eb & _ & Eo). rewrite Eg, finish_get_result, Eb in Hg.
    destruct (matches shard_hash (hbans h) o1 won now).2 eqn:Em; [done|]. injection Hg as <-.
    apply bind_Some in E as (s & Hs & He). destruct (so_spec _ _ Hok _ s key e Hs He) as (o' & Ho' & Hoo).
    exists o'. split_and!; [done|by eapply same_object_trans|done].
  - destruct Hc as (h' & Eg & _). by rewrite Eg in Hg.
Qed.

(** C18. The hot tier is a lossy map: after any history of critical sections,
    under either eviction policy, what [Get] returns is the object last stored
    under that key and not deleted since (up to its hit counter), and the ban
    list does not match it; and nothing else is ever returned. *)
Theorem hot_get_refines (h : HotStore) (sp : gmap Key Object.t) (clock : Time) (low : Duration)
    (key : Key) (won : bool) (now : Time) (o : Object.t) :
  hot_history h sp clock low -> (Get pool_get shard_hash h key won now).2 = Some o ->
  exists o', sp !! key = Some o' /\ forget_hits o = forget_hits o' /\
             (matches shard_hash (hbans h) o won now).2 = false.
Proof. intros Hh Hg. destruct (Get_sound _ _ _ _ _ _ _ _ Hh Hg) as (o' & H1 & [H2 _] & H3). eauto. Qed.

(** What was stored can be read back: right after [Put] (or [PutOwned]) a
    [Get] of the key returns the object, unless the ban list matches it; and
    right after [Delete] it returns nothing. *)
Theorem hot_put_get (h : HotStore) (sp : gmap Key Object.t) (clock : Time) (low : Duration)
    (key : Key) (obj : Object.t) (won : bool) (now : Time) :
  hot_history h sp clock low ->
  (exists o, forget_hits o = forget_hits (CloneForStorage obj) /\
     (Get pool_get shard_hash (Put pool_get h key obj) key won now).2
     = if (matches shard_hash (hbans h) o won now).2 then None else Some o) /\
  PutOwned pool_get h key obj = Put pool_get h key obj /\
  (Get pool_get shard_hash (Delete h key) key won now).2 = None.
Proof.
  intros Hh. destruct (hot_history_ok h sp clock low Hh) as [Hok _]. split_and!; [|done|].
  - destruct (put_ok h sp key (CloneForStorage obj) Hok) as (H1 & H2 & s & a & id & Hs & He).
    pose proof (Get_cases (Put pool_get h key obj) _ key won now H1) as Hc.
    assert (shard_of (Put pool_get h key obj) key = shard_of h key) as Eo.
    { unfold Put. pose proof (so_mask _ _ H1) as Hm. pose proof (so_mask _ _ Hok) as Hm'.
      unfold shard_of. do 2 f_equal. rewrite Hm, Hm'. unfold putStored.
      destruct (hshards h !! shard_of h key); [|done]. destruct (shard_put _ _ _ _ _ _) as [[s' f] over].
      unfold signal. destruct over; [destruct (_ <? _)|]; cbn [emit hshards]; unfold len; by rewrite length_insert. }
    rewrite Eo in Hc. unfold Put in Hc at 1. rewrite Hs in Hc. cbn [mbind option_bind] in Hc. rewrite He in Hc.
    destruct Hc as (h1 & o1 & Eg & Eb & _ & Eo1). exists o1. split; [apply Eo1|].
    rewrite Eg, finish_get_result, Eb. unfold Put. by rewrite H2.
  - destruct (delete_ok h sp key Hok) as (H1 & H2 & s & Hs & He).
    pose proof (Get_cases (Delete h key) _ key won now H1) as Hc.
    assert (shard_of (Delete h key) key = shard_of h key) as Eo.
    { unfold Delete, on_shard. destruct (hshards h !! _); [|done]. by destruct (shard_delete _ _). }
    rewrite Eo, Hs in Hc. cbn [mbind option_bind] in Hc. rewrite He in Hc. destruct Hc as (h' & Eg & _). by rewrite Eg.
Qed.

(** C26. The byte count is exact and eviction reaches the budget: after any
    history each shard's counter is the sum of the sizes of its objects (as an
    int64) and its list holds one entry per object; and when the sweeper
    answers a signal for a shard with fewer entries than the probe budget
    covers, that shard ends within its share of the memory budget, or empty.
    The loop always ends. *)
Theorem hot_budget (h : HotStore) (sp : gmap Key Object.t) (clock : Time) (low : Duration) :
  hot_history h sp clock low ->
  (forall i s, hshards h !! i = Some s ->
     sbytes s = i64 (stored_bytes (sentries s)) /\ llen (sevict s) = Z.of_nat (size (sentries s)) /\
     backed_entries (sentries s) <= backedCount s) /\
  (forall i rest_ s, evictSignal h = i :: rest_ -> hshards h !! i = Some s -> probes_suffice s ->
     exists s', hshards (sweeper pool_get h) !! i = Some s' /\ shrinks s s' /\
                (sbytes s' <= perShardMax h \/ sentries s' = ∅)).
Proof.
  intros Hh. destruct (hot_history_ok h sp clock low Hh) as [Hok _]. split.
  - intros i s Hs. destruct (so_inv _ _ Hok i s Hs) as [Hl Hb Hc]. split_and!; [done|by apply (linked_len _ _ Hl)|done].
  - intros i rest_ s He Hs Hp. pose proof (so_inv _ _ Hok i s Hs) as Hi.
    unfold sweeper, on_shard. rewrite He. cbn [hshards]. rewrite Hs.
    destruct (sweep_shard_inv pool_get pool_get_unused (Z.to_nat (llen (sevict s))) (perShardMax h) s no_effects Hi)
      as (H1 & H2 & H3); [lia|].
    destruct (sweep_shard _ _ _ s no_effects) as [s' f]. cbn [fst] in H1, H2, H3. exists s'. split_and!; [|done|].
    + cbn [emit hshards]. apply list_lookup_insert_eq. by apply lookup_lt_Some in Hs.
    + destruct H3 as [?|[?|(s1 & Hi1 & Hle & Hpos & He1)]]; auto. exfalso.
      destruct (evictPreferBacked_finds pool_get pool_get_unused s1 Hi1 Hpos) as (? & ? & E); [|congruence].
      unfold probes_suffice in *. nia.
Qed.

(** *** The calls are histories *)

Lemma step_shard (h : HotStore) (i : nat) (s s' : shard) (f : effects) (op : shard -> shard * effects) :
  hshards h !! i = Some s -> op s = (s', f) ->
  on_shard h i op = emit {| h with hshards := <[i := s']> (hshards h) |} f.
Proof. intros Hs Ho. unfold on_shard. by rewrite Hs, Ho. Qed.

Lemma finish_get_history (h : HotStore) (sp : gmap Key Object.t) (clock : Time) (low : Duration)
    (key : Key) (o : Object.t) (id : positive) (won : bool) (now : Time) :
  hot_history h sp clock low -> clock <= now ->
  hot_history (finish_get shard_hash h key o id won now).1 sp now low.
Proof.
  intros Hh Hle. pose proof (HH_ban_check h sp clock low o won now Hh Hle) as Hb. unfold finish_get.
  destruct (matchesActiveBan shard_hash h o won now) as [h1 []]; cbn [fst] in *.
  - apply (HH_evict_banned _ _ _ _ key id) in Hb. set (h2 := on_shard _ _ _) in *.
    apply (HH_count h2 sp now low (st_hits h2) (st_misses h2 + 1) (st_graceHolds h2) (lastBanScan h2) Hb).
  - apply (HH_count h1 sp now low (st_hits h1 + 1) (st_misses h1) (st_graceHolds h1) (lastBanScan h1) Hb).
Qed.

Lemma miss_history (h : HotStore) (sp : gmap Key Object.t) (clock : Time) (low : Duration) :
  hot_history h sp clock low -> hot_history (hot_miss h) sp clock low.
Proof.
  intros Hh. apply (HH_count h sp clock low (st_hits h) (st_misses h + 1) (st_graceHolds h) (lastBanScan h) Hh).
Qed.

Lemma Get_history (h : HotStore) (sp : gmap Key Object.t) (clock : Time) (low : Duration)
    (key : Key) (won : bool) (now : Time) :
  hot_history h sp clock low -> clock <= now ->
  exists clock', clock <= clock' <= now /\ hot_history (Get pool_get shard_hash h key won now).1 sp clock' low.
Proof.
  intros Hh Hle. destruct (hot_history_ok h sp clock low Hh) as [Hok _].
  destruct (shard_of_lt h sp key Hok) as [s Hs]. unfold Get. rewrite Hs.
  pose proof (HH_read_fast h sp clock low key Hh) as Hf. rewrite (on_shard_pure h _ s) in Hf by done.
  destruct (get_fast key s) as [s1 r]. cbn [fst] in Hf. destruct r as [| |o id].
  - exists clock. split; [lia|]. by apply miss_history.
  - set (h1 := {| h with hshards := <[shard_of h key := s1]> (hshards h) |}) in *.
    assert (hshards h1 !! shard_of h key = Some s1) as Hs1
      by (apply list_lookup_insert_eq; by apply lookup_lt_Some in Hs).
    pose proof (HH_read_slow h1 sp clock low key Hf) as Hsl. change (shard_of h1 key) with (shard_of h key) in *.
    rewrite (on_shard_pure h1 _ s1) in Hsl by done.
    destruct (get_slow pool_get key s1) as [s2 [[o id]|]]; cbn [fst] in Hsl.
    + exists now. split; [lia|]. by eapply finish_get_history.
    + exists clock. split; [lia|]. by apply miss_history.
  - exists now. split; [lia|]. by eapply finish_get_history.
Qed.

(** The eager scan visits every shard. *)
Lemma ban_scan_inv (h : HotStore) (sp : gmap Key Object.t) (clock : Time) (low : Duration)
    (pr : banPredicate) (visit : nat -> list Key) :
  hot_history h sp clock low ->
  let h' := (ban_scan h pr visit).1 in
  hot_history h' sp clock low /\ hbans h' = hbans h /\ length (hshards h') = length (hshards h) /\
  forall i s, hshards h' !! i = Some s -> exists s0, hshards h !! i = Some s0 /\ shrinks s0 s /\
    forall k e, k ∈ visit i -> sentries s !! k = Some e -> pr (h_obj e) = false.
Proof.
  intros Hh. unfold ban_scan. set (n := length (hshards h)).
  assert (forall m, (m <= n)%nat ->
    let h' := (foldl (fun st i => let '(h, total) := st in match hshards h !! i with None => st | Some s =>
        let '(s, f, n) := banShard pr (visit i) s in (emit {| h with hshards := <[i := s]> (hshards h) |} f, total + n)
      end) (h, 0) (seq 0 m)).1 in
    hot_history h' sp clock low /\ hbans h' = hbans h /\ length (hshards h') = n /\
    forall i s, hshards h' !! i = Some s -> exists s0, hshards h !! i = Some s0 /\ shrinks s0 s /\
      ((i < m)%nat -> forall k e, k ∈ visit i -> sentries s !! k = Some e -> pr (h_obj e) = false)) as Hgo.
  { induction m as [|m IH]; intros Hm; cbv zeta.
    - split_and!; [done..|]. intros i s Hs. exists s. split_and!; [done|by apply shrinks_refl|lia].
    - rewrite seq_S, foldl_app. cbn [foldl]. destruct (IH ltac:(lia)) as (I1 & I2 & I3 & I4).
      destruct (foldl _ (h, 0) (seq 0 m)) as [h1 total]. cbn [fst] in I1, I2, I3, I4.
      destruct (lookup_lt_is_Some_2 (hshards h1) m) as [s Hs]; [lia|]. cbn [Nat.add]. rewrite Hs.
      pose proof (HH_ban_shard h1 sp clock low m pr (visit m) I1) as Hb.
      destruct (hot_history_ok h1 sp clock low I1) as [Hok1 _].
      destruct (banShard_inv pr (visit m) s (so_inv _ _ Hok1 m s Hs)) as (B1 & B2 & B3).
      destruct (banShard pr (visit m) s) as [[s' f] c] eqn:Eb. cbn [fst] in B1, B2, B3 |- *.
      rewrite (step_shard h1 m s s' f) in Hb by (done || by rewrite Eb).
      split_and!; [exact Hb|exact I2|cbn [emit hshards]; by rewrite length_insert|].
      intros i x. cbn [emit hshards]. rewrite list_lookup_insert_Some. intros [(<- & <- & _)|[Hne Hx]].
      + destruct (I4 m s Hs) as (s0 & H0 & H1 & _). exists s0. split_and!; [done|by eapply shrinks_trans|].
        intros _. exact B3.
      + destruct (I4 i x Hx) as (s0 & H0 & H1 & H2). exists s0. split_and!; [done|done|]. intros Hi. apply H2. lia. }
  destruct (Hgo n ltac:(lia)) as (G1 & G2 & G3 & G4). split_and!; [done..|].
  intros i s Hs. destruct (G4 i s Hs) as (s0 & H0 & H1 & H2). exists s0. split_and!; [done|done|].
  apply H2. rewrite <- G3. by apply lookup_lt_Some in Hs.
Qed.

(** An administrative ban takes effect at once: [Ban] registers the
    predicate and, when the scan is not coalesced with a recent one, leaves no
    object in any shard that the predicate accepts; it fails only on an
    invalid pattern, and then changes nothing. *)
Theorem hot_ban_evicts (h : HotStore) (sp : gmap Key Object.t) (clock : Time) (low : Duration)
    (expr : BanExpr) (now0 now1 now2 now3 : Time) (visit : nat -> list Key) :
  hot_history h sp clock low -> clock <= now2 ->
  (forall i s k e, hshards h !! i = Some s -> sentries s !! k = Some e -> k ∈ visit i) ->
  let '(h', r) := Ban shard_hash regexp_compile h expr now0 now1 now2 now3 visit in
  match compileBanPredicate regexp_compile expr with
  | Err e => r = Err e /\ h' = h
  | Ok pr =>
      (exists n, r = Ok n) /\ (exists clock', hot_history h' sp clock' low) /\
      hbans h' = registerBan shard_hash (hbans h) expr pr now0 now2 /\
      (isSurrogateOnlyBan expr = false -> lastBanScan h = 0 ->
       forall i s k e, hshards h' !! i = Some s -> sentries s !! k = Some e -> pr (h_obj e) = false)
  end.
Proof.
  intros Hh Hle Hv. unfold Ban. destruct (compileBanPredicate regexp_compile expr) as [pr|e] eqn:Ec; [|done].
  pose proof (HH_register h sp clock low expr pr now0 now2 Hh Ec Hle) as Hr.
  set (h1 := {| h with hbans := registerBan shard_hash (hbans h) expr pr now0 now2 |}) in *.
  destruct (isSurrogateOnlyBan expr); [by split_and!; [eexists|eexists| |]|].
  change (lastBanScan h1) with (lastBanScan h).
  destruct (negb (lastBanScan h =? 0) && _) eqn:Es.
  - split_and!; [by eexists|by eexists|done|]. intros _ Hz. rewrite Hz in Es. done.
  - destruct (ban_scan_inv h1 sp now2 low pr visit Hr) as (H1 & H2 & _ & H4).
    destruct (ban_scan h1 pr visit) as [h2 total]. cbn [fst] in H1, H2, H4.
    split_and!; [by eexists| |exact H2|].
    + exists now2. apply (HH_count h2 sp now2 low (st_hits h2) (st_misses h2) (st_graceHolds h2) (unix_nano now3) H1).
    + intros _ _ i s k e Hs He. destruct (H4 i s Hs) as (s0 & Hs0 & Hsh & Hp).
      apply (Hp k e); [|done]. destruct (shrinks_keeps s0 s Hsh k e He) as (e0 & He0 & _). by eapply Hv.
Qed.

Context `{!RegexpLaws regexp_compile}.

(** The tiers compose: no object the ban list covers is served. After any
    history, an object that [Get] returns while holding the list lock or
    reading a clean snapshot is covered by no ban within its TTL, with the
    provisos of the ban list (no earlier ban in the same literal slot; for
    regexps, that the predicate compiled with the ban accepts the object). *)
Theorem hot_get_not_banned (h : HotStore) (sp : gmap Key Object.t) (clock : Time) (low : Duration)
    (key : Key) (won : bool) (now : Time) (o : Object.t) (ban : activeBan) :
  hot_history h sp clock low -> clock <= now -> good_list (abs_bans (hbans h)) ->
  won = true \/ dirty (hbans h) = false ->
  (Get pool_get shard_hash h key won now).2 = Some o ->
  ban ∈ deref (hbans h) (blist (hbans h)) -> t_sub now (created ban) < low ->
  (forall e, e ∈ abs_bans (hbans h) -> same_slot e.1 (pattern ban) -> created ban <= e.2) ->
  (classifyBan (pattern ban) = banClassLiteralHost \/ classifyBan (pattern ban) = banClassLiteralPath \/
   classifyBan (pattern ban) = banClassLiteralSurrogate \/ pred ban o = true) ->
  hit_of regexp_compile o ban = false.
Proof.
  intros Hh Hnow Hg Hw Hget Hin Hlive Hslot Hcl. destruct (hot_history_ok h sp clock low Hh) as [_ Hb].
  destruct (hit_of regexp_compile o ban) eqn:Ehit; [|done].
  destruct (Get_sound h sp clock low key won now o Hh Hget) as (_ & _ & _ & Hm).
  enough ((matches shard_hash (hbans h) o won now).2 = true) by congruence.
  by apply (matches_complete shard_hash regexp_compile 0 clock low _ o won now ban).
Qed.

End Histories.

(** ** Concrete stores *)

Definition demo_key (n : Z) : Key := put_be 16 n.
Definition demo_new (maxB : Z) : HotStore := NewHotStore 1 1 maxB 0 None.
Definition sized_obj (n : nat) : Object.t := {| Object.zero with Object.StoredAt := 15; Object.Body := replicate n x61 |}.

Abbreviation sput := (@Put (sieve_policy Key) pool_fresh).
Abbreviation sget := (@Get (sieve_policy Key) pool_fresh (fun _ => 0)).
Abbreviation ssweep := (@sweeper (sieve_policy Key) pool_fresh).
Abbreviation shistory := (@hot_history (sieve_policy Key) pool_fresh (fun _ => 0) mini_compile).

Definition two_objects : HotStore := sput (sput (demo_new 1100) (demo_key 1) (sized_obj 3)) (demo_key 2) (sized_obj 200).

Lemma two_objects_history :
  shistory two_objects (<[demo_key 2 := CloneForStorage (sized_obj 200)]> (<[demo_key 1 := CloneForStorage (sized_obj 3)]> ∅))
    0 DefaultBanTTL.
Proof. apply HH_put, HH_put. apply (HH_new pool_fresh _ _ 1 1 1100 0 None 0); lia. Qed.

Lemma hot_get_refines_witness :
  exists o o', (sget two_objects (demo_key 2) true 20).2 = Some o /\
    forget_hits o = forget_hits o' /\ o' = CloneForStorage (sized_obj 200).
Proof.
  destruct (sget two_objects (demo_key 2) true 20).2 as [o|] eqn:E; [|by vm_compute in E].
  destruct (hot_get_refines pool_fresh pool_fresh_unused (fun _ => 0) mini_compile two_objects _ 0 DefaultBanTTL
              (demo_key 2) true 20 o two_objects_history E) as (o' & Ho & Hf & _).
  exists o, o'. split_and!; [done|done|]. rewrite lookup_insert_eq in Ho. by injection Ho as <-.
Defined.

Lemma hot_put_get_witness :
  exists o, forget_hits o = forget_hits (CloneForStorage (sized_obj 7)) /\
    (sget (sput two_objects (demo_key 3) (sized_obj 7)) (demo_key 3) true 20).2
    = if (matches (fun _ => 0) (hbans two_objects) o true 20).2 then None else Some o.
Proof.
  apply (hot_put_get pool_fresh pool_fresh_unused (fun _ => 0) mini_compile two_objects _ 0 DefaultBanTTL
           (demo_key 3) (sized_obj 7) true 20 two_objects_history).
Defined.

(** The second object does not fit beside the first, which is evicted. *)
Lemma hot_budget_witness :
  (exists s, hshards two_objects !! 0%nat = Some s /\ sbytes s = 704) /\
  forall i s, hshards two_objects !! i = Some s -> sbytes s = i64 (stored_bytes (sentries s)).
Proof.
  split; [eexists; split; vm_compute; reflexivity|]. intros i s Hs.
  destruct (hot_budget pool_fresh pool_fresh_unused (fun _ => 0) mini_compile two_objects _ 0 DefaultBanTTL
              two_objects_history) as [H _].
  apply (H i s Hs).
Defined.

Definition img_ban : BanExpr := ban_of zero_time "" "^/img/" "".
Definition img_store : HotStore := sput (demo_new 100000) (demo_key 1) (demo_obj "b" "/img/x" 15).

Lemma img_store_history : shistory img_store (<[demo_key 1 := CloneForStorage (demo_obj "b" "/img/x" 15)]> ∅) 0 DefaultBanTTL.
Proof. apply HH_put. apply (HH_new pool_fresh _ _ 1 1 100000 0 None 0); lia. Qed.

Lemma img_store_keys (i : nat) (s : shard) (k : Key) (e : hotEntry) :
  hshards img_store !! i = Some s -> sentries s !! k = Some e -> k ∈ [demo_key 1].
Proof.
  intros Hs He. destruct (hot_history_ok pool_fresh pool_fresh_unused _ _ _ _ _ _ img_store_history) as [Hok _].
  destruct (so_spec _ _ Hok i s k e Hs He) as (o & Ho & _). apply lookup_insert_Some in Ho as [[<- _]|[_ Ho]].
  - apply list_elem_of_singleton. done.
  - by rewrite lookup_empty in Ho.
Qed.

Lemma hot_ban_evicts_witness :
  exists pr, compileBanPredicate mini_compile img_ban = Ok pr /\
    forall i s k e, hshards (Ban (fun _ => 0) mini_compile img_store img_ban 20 20 20 21 (fun _ => [demo_key 1])).1 !! i = Some s ->
      sentries s !! k = Some e -> pr (h_obj e) = false.
Proof.
  pose proof (hot_ban_evicts pool_fresh pool_fresh_unused (fun _ => 0) mini_compile img_store _ 0 DefaultBanTTL img_ban
                20 20 20 21 (fun _ => [demo_key 1]) img_store_history ltac:(lia) img_store_keys) as H.
  destruct (Ban _ _ _ _ _ _ _ _ _) as [h' r]. destruct (compileBanPredicate mini_compile img_ban) as [pr|] eqn:Ec.
  - exists pr. split; [done|]. destruct H as (_ & _ & _ & H). intros i s k e. apply H; vm_compute; reflexivity.
  - vm_compute in Ec. discriminate Ec.
Defined.

(** A ban registered on [img_store] and not yet scanned for. *)
Definition img_banned : HotStore :=
  match compileBanPredicate mini_compile img_ban with
  | Ok pr => {| img_store with hbans := registerBan (fun _ => 0) (hbans img_store) img_ban pr 10 10 |}
  | Err _ => img_store
  end.

(** The object was stored after the ban: it is served, and not covered. *)
Lemma hot_get_not_banned_witness :
  exists o ban, (sget img_banned (demo_key 1) true 20).2 = Some o /\
    ban ∈ deref (hbans img_banned) (blist (hbans img_banned)) /\ hit_of mini_compile o ban = false.
Proof.
  assert (shistory img_banned (<[demo_key 1 := CloneForStorage (demo_obj "b" "/img/x" 15)]> ∅) 10 DefaultBanTTL) as Hh.
  { unfold img_banned. destruct (compileBanPredicate mini_compile img_ban) as [pr|] eqn:E;
      [|vm_compute in E; discriminate E]. eapply HH_register; [exact img_store_history|exact E|lia]. }
  destruct (sget img_banned (demo_key 1) true 20).2 as [o|] eqn:Eo; [|vm_compute in Eo; discriminate Eo].
  destruct (deref (hbans img_banned) (blist (hbans img_banned)) !! 0%nat) as [ban|] eqn:E;
    [|vm_compute in E; discriminate E].
  assert (ban ∈ deref (hbans img_banned) (blist (hbans img_banned))) as Hin by by eapply list_elem_of_lookup_2.
  exists o, ban. split; [done|]. split; [done|].
  assert (abs_bans (hbans img_banned) = [(MkPattern [] (bs "^/img/") [], 10)]) as Ea by (vm_compute; reflexivity).
  assert (pattern ban = MkPattern [] (bs "^/img/") [] /\ created ban = 10 /\ pred ban o = true) as (Hp & Hc & Hpr).
  { vm_compute in E. injection E as <-. vm_compute in Eo. injection Eo as <-. split_and!; vm_compute; reflexivity. }
  apply (hot_get_not_banned pool_fresh pool_fresh_unused (fun _ => 0) mini_compile img_banned _ 10 DefaultBanTTL
           (demo_key 1) true 20 o ban Hh ltac:(lia)); [|by left|exact Eo|exact Hin| | |by right; right; right].
  - rewrite Ea. intros e ->%list_elem_of_singleton. split; [cbn [snd]; unfold time_ok, min_i64, max_i64; lia|].
    vm_compute. reflexivity.
  - rewrite Hc. vm_compute. reflexivity.
  - rewrite Ea. intros e ->%list_elem_of_singleton _. rewrite Hc. cbn [snd]. lia.
Defined.

(** *** Where the counters and the budget drift *)

(** [Delete] (like the reaper and the ban paths) forgets the backed count: an
    empty shard still counts a backed entry, so every later eviction searches
    for one in vain. *)
Example backed_count_drifts :
  let h := Delete (SetBacked (sput (demo_new 100000) (demo_key 1) (sized_obj 3)) (demo_key 1)) (demo_key 1) in
  option_map (fun s => (llen (sevict s), backedCount s)) (hshards h !! 0%nat) = Some (0, 1).
Proof. vm_compute. reflexivity. Qed.

(** With many recently used entries a bounded sweep only clears marks: two
    stores in a row, each followed by the sweeper, leave the shard over budget
    by more than the size of the last object. *)
Definition full_store : HotStore :=
  foldl (fun h n => sput h (demo_key (Z.of_nat n)) (sized_obj 0)) (demo_new (520 * 504)) (seq 0 520).
Example budget_overshoot :
  let h := ssweep (sput (ssweep (sput full_store (demo_key 1000) (sized_obj 4000))) (demo_key 1001) (sized_obj 4000)) in
  evictSignal h = [] /\ objSize (sized_obj 4000) = 4504 /\ HotBytes h = maxBytes h + 2 * 4504.
Proof. vm_compute. done. Qed.
