(* ===== verification/GoFloat.v ===== *)
(** * Go's [strconv.ParseFloat] and [float64] comparisons

    The quality weights of Accept-Encoding and Accept-Language are read with
    [strconv.ParseFloat(s, 64)] (src/internal/cache/vary.go, [parseAEWeight]).
    A [float64] is a [spec_float] of the Standard Library with 53 bits of
    precision; [ParseFloat] accepts what Go accepts (decimal and hexadecimal
    literals, digit separators, infinities and NaN) and rounds to nearest
    even. The lemmas give the order of the positive weights, which is what the
    negotiation of [Vary] compares. *)

From Stdlib Require Import Floats.SpecFloat.
From S2P Require Import Prelude GoStd.

Definition f64_zero : spec_float := S754_zero false.
(** The constants [1.0] and [float64(-1)]. *)
Definition f64_one : spec_float := S754_finite false (2 ^ 52) (-52).
Definition f64_minus_one : spec_float := S754_finite true (2 ^ 52) (-52).

(** The comparisons [>], [==], [<=] and [<] of two floats; all are false when
    one of the two is a NaN. *)
Definition fgt (a b : spec_float) : bool := SFltb b a.
Definition feq (a b : spec_float) : bool := SFeqb a b.
Definition fle (a b : spec_float) : bool := SFleb a b.
Definition flt (a b : spec_float) : bool := SFltb a b.

(** ** Reading a literal *)

(** What the digit loop of [readFloat] collects: the digits as one number, how
    many of them follow the point, and what was seen. *)
Record mantissa : Type := MkMantissa {
  m_digits : Z;
  m_frac : Z;
  m_dot : bool;
  m_some : bool;
  m_underscore : bool;
}.

Definition hex_letter (c : byte) : bool := (97 <=? Zb (lower_byte c)) && (Zb (lower_byte c) <=? 102).

Definition push_digit (base d : Z) (st : mantissa) : mantissa :=
  {| m_digits := m_digits st * base + d;
     m_frac := if m_dot st then m_frac st + 1 else m_frac st;
     m_dot := m_dot st; m_some := true; m_underscore := m_underscore st |}.

Fixpoint read_digits (base : Z) (st : mantissa) (s : bytes) : mantissa * bytes :=
  match s with
  | [] => (st, [])
  | c :: s' =>
      if beqb c (ch "_") then read_digits base {| st with m_underscore := true |} s'
      else if beqb c (ch ".") then
        if m_dot st then (st, s) else read_digits base {| st with m_dot := true |} s'
      else if is_digit c then read_digits base (push_digit base (Zb c - 48) st) s'
      else if (base =? 16) && hex_letter c then
        read_digits base (push_digit base (Zb (lower_byte c) - 87) st) s'
      else (st, s)
  end.

(** The exponent's digits: the value stops growing past 10000. *)
Fixpoint read_exp (e : Z) (u : bool) (s : bytes) : Z * bool * bytes :=
  match s with
  | [] => (e, u, [])
  | c :: s' =>
      if beqb c (ch "_") then read_exp e true s'
      else if is_digit c then read_exp (if e <? 10000 then e * 10 + (Zb c - 48) else e) u s'
      else (e, u, s)
  end.

(** [underscoreOK]: a separator stands between two digits, or after a base
    prefix. [prev] is the class of the character before. *)
Inductive prev_class : Type := PStart | PDigit | PUnder | POther.

Fixpoint underscore_loop (hex : bool) (prev : prev_class) (s : bytes) : bool :=
  match s with
  | [] => match prev with PUnder => false | _ => true end
  | c :: s' =>
      if is_digit c || (hex && hex_letter c) then underscore_loop hex PDigit s'
      else if beqb c (ch "_") then
        match prev with PDigit => underscore_loop hex PUnder s' | _ => false end
      else match prev with PUnder => false | _ => underscore_loop hex POther s' end
  end.

Definition base_prefix (s : bytes) : bool :=
  match s with
  | a :: b :: _ =>
      beqb a (ch "0") && existsb (beqb (lower_byte b)) [ch "b"; ch "o"; ch "x"]
  | _ => false
  end.
Definition hex_prefix (s : bytes) : bool :=
  match s with a :: b :: _ => beqb a (ch "0") && beqb (lower_byte b) (ch "x") | _ => false end.

(** [s] is the literal after its sign. *)
Definition underscoreOK (s : bytes) : bool :=
  if base_prefix s then underscore_loop (hex_prefix s) PDigit (drop 2 s)
  else underscore_loop false PStart s.

(** The value [n / d], rounded to nearest even, with the sign given. *)
Definition round64 (neg : bool) (n : Z) (d : positive) : spec_float :=
  match n with
  | Zpos m => SFdiv 53 1024 (S754_finite neg m 0) (S754_finite false d 0)
  | _ => S754_zero neg
  end.

(** [digits * 10^e] or, for a hexadecimal literal, [digits * 2^e]. *)
Definition scale (neg : bool) (base digits e : Z) : spec_float :=
  if 0 <=? e then round64 neg (digits * base ^ e) 1
  else round64 neg digits (Z.to_pos (base ^ (- e))).

(** The number after the sign: all of [s] must be one, and a finite literal
    that rounds to an infinity is a range error. *)
Definition readFloat (neg : bool) (s : bytes) : option spec_float :=
  let hex := hex_prefix s && (2 <? len s) in
  let base := if hex then 16 else 10 in
  let '(st, rest) :=
    read_digits base
      {| m_digits := 0; m_frac := 0; m_dot := false; m_some := false; m_underscore := false |}
      (if hex then drop 2 s else s) in
  if negb (m_some st) then None else
  let finish e u :=
    if u && negb (underscoreOK s) then None else
    let v := if hex then scale neg 2 (m_digits st) (e - 4 * m_frac st)
             else scale neg 10 (m_digits st) (e - m_frac st) in
    match v with S754_infinity _ => None | _ => Some v end in
  match rest with
  | [] => if hex then None else finish 0 (m_underscore st)
  | c :: r =>
      if negb (beqb (lower_byte c) (if hex then ch "p" else ch "e")) then None else
      let '(esign, r) :=
        match r with
        | x :: r' => if beqb x (ch "+") then (1, r') else if beqb x (ch "-") then (-1, r') else (1, r)
        | [] => (1, r)
        end in
      match r with
      | x :: _ =>
          if negb (is_digit x) then None else
          let '(e, u, rest) := read_exp 0 (m_underscore st) r in
          match rest with
          | [] => finish (e * esign) u
          | _ => None
          end
      | [] => None
      end
  end.

Definition is_inf (s : bytes) : bool := equal_fold s (bs "inf") || equal_fold s (bs "infinity").

(** [strconv.ParseFloat(s, 64)]; [None] is an error (syntax or range). *)
Definition ParseFloat (s : bytes) : option spec_float :=
  if equal_fold s (bs "nan") then Some S754_nan else
  let '(neg, u) :=
    match s with
    | c :: s' => if beqb c (ch "+") then (false, s') else if beqb c (ch "-") then (true, s') else (false, s)
    | [] => (false, s)
    end in
  if is_inf u then Some (S754_infinity neg) else readFloat neg u.

(** ** The order of positive weights *)

Definition fpos (q : spec_float) : bool := fgt q f64_zero.

Lemma fpos_cases (q : spec_float) :
  fpos q = true <-> q = S754_infinity false \/ exists m e, q = S754_finite false m e.
Proof.
  split.
  - destruct q as [|[]| |[] m e]; cbn; try done; eauto.
  - by intros [->|(m & e & ->)].
Qed.

Lemma fle_zero_nan (q : spec_float) : fle q f64_zero = false -> fpos q = false -> q = S754_nan.
Proof. destruct q as [|[]| |[] m e]; cbn; done. Qed.

Lemma fpos_fle (q : spec_float) : fpos q = true -> fle q f64_zero = false.
Proof. by intros [->|(m & e & ->)]%fpos_cases. Qed.

Lemma fgt_minus_one (q : spec_float) : fpos q = true -> fgt q f64_minus_one = true.
Proof. by intros [->|(m & e & ->)]%fpos_cases. Qed.

Lemma nan_compares (q : spec_float) : fgt S754_nan q = false /\ feq S754_nan q = false.
Proof. by destruct q. Qed.

Ltac float_order :=
  repeat match goal with
  | H : fpos _ = true |- _ => apply fpos_cases in H as [->|(? & ? & ->)]
  end;
  unfold fgt, feq, SFltb, SFeqb; cbn;
  repeat match goal with
  | |- context [Z.compare ?a ?b] => destruct (Z.compare_spec a b)
  | |- context [Pos.compare_cont Eq ?a ?b] =>
      change (Pos.compare_cont Eq a b) with (Pos.compare a b); destruct (Pos.compare_spec a b)
  end; try done; subst; try (intros; congruence || lia).

Lemma feq_pos (a b : spec_float) : fpos a = true -> fpos b = true -> feq a b = true -> a = b.
Proof. intros Ha Hb. float_order. Qed.

Lemma feq_refl (a : spec_float) : fpos a = true -> feq a a = true.
Proof. intros Ha. float_order. Qed.

Lemma fgt_irrefl (a : spec_float) : fgt a a = false.
Proof.
  destruct a as [|[]| |[] m e]; unfold fgt, SFltb; cbn; try done;
    rewrite Z.compare_refl; change (Pos.compare_cont Eq m m) with (Pos.compare m m);
    by rewrite Pos.compare_refl.
Qed.

Lemma fgt_total (a b : spec_float) : fpos a = true -> fpos b = true ->
  fgt a b = false -> feq a b = false -> fgt b a = true.
Proof. intros Ha Hb. float_order. Qed.

Lemma fgt_trans (a b c : spec_float) : fpos a = true -> fpos b = true -> fpos c = true ->
  fgt a b = true -> fgt b c = true -> fgt a c = true.
Proof. intros Ha Hb Hc. float_order. Qed.

Lemma fgt_asym (a b : spec_float) : fpos a = true -> fpos b = true ->
  fgt a b = true -> fgt b a = false.
Proof. intros Ha Hb. float_order. Qed.

(** Literals as Go reads them. *)
Example parse_08 : ParseFloat (bs "0.8") = Some (S754_finite false 7205759403792794 (-53)).
Proof. vm_compute. reflexivity. Qed.
Example parse_forms :
  map ParseFloat (map bs ["1"; "1."; ".5"; "5e-1"; "0x1p-1"; "1_0e-1"; "+1.0"; "-0"])
  = [Some f64_one; Some f64_one; ParseFloat (bs "0.5"); ParseFloat (bs "0.5"); ParseFloat (bs "0.5");
     Some f64_one; Some f64_one; Some (S754_zero true)] /\
  map ParseFloat (map bs ["inf"; "-Infinity"; "NaN"])
  = [Some (S754_infinity false); Some (S754_infinity true); Some S754_nan] /\
  map ParseFloat (map bs [""; "."; "q"; "1e"; "0x1"; "1__0"; "_1"; "1 "; "1e400"; "1.2.3"; "+nan"])
  = replicate 11 None.
Proof. vm_compute. auto. Qed.
