(* ===== verification/GoStrings.v ===== *)
(** * More of Go's [strings], [sort] and [strconv]

    What the Vary and cookie code (src/internal/cache vary.go, key.go,
    keypolicy.go, cookiename.go) uses beyond [GoStd]: the in-place insertion
    sorts, [strings.TrimRight] with a blank cutset, [strings.ToLower],
    loops over [strings.Cut] and [strconv.FormatUint(h, 16)]. *)

From stdpp Require Import sorting.
From S2P Require Import Prelude GoStd.

(** ** Insertion sort

    [for i := 1; i < n; i++ { for j := i; j > 0 && swap(a[j-1], a[j]); j-- { swap } }]:
    each element moves left past the elements [swap] names. The prefix already
    sorted is kept reversed. *)

Section InsertionSort.
Context {A : Type} (swap : A -> A -> bool).

Fixpoint sink_by (x : A) (rprefix : list A) : list A :=
  match rprefix with
  | [] => [x]
  | y :: r => if swap y x then y :: sink_by x r else x :: y :: r
  end.
Definition insertion_sort (l : list A) : list A := rev (foldl (fun r x => sink_by x r) [] l).

Lemma sink_by_perm (x : A) (r : list A) : sink_by x r ≡ₚ x :: r.
Proof.
  induction r as [|y r IH]; simpl; [done|]. destruct (swap y x); [|done].
  rewrite IH. apply Permutation_swap.
Qed.

Lemma foldl_sink_perm (l : list A) : forall r, foldl (fun r x => sink_by x r) r l ≡ₚ rev l ++ r.
Proof.
  induction l as [|x l IH]; intros r; simpl; [done|].
  rewrite IH, sink_by_perm. by rewrite <- app_assoc.
Qed.

Lemma insertion_sort_perm (l : list A) : insertion_sort l ≡ₚ l.
Proof.
  unfold insertion_sort. rewrite <- Permutation_rev, foldl_sink_perm, app_nil_r.
  symmetry. apply Permutation_rev.
Qed.

(** [swap y x = false]: [y] may stand before [x]. *)
Definition stays (y x : A) : Prop := swap y x = false.

Hypothesis swap_asym : forall x y, swap y x = true -> stays x y.
Hypothesis stays_trans : forall x y z, stays x y -> stays y z -> stays x z.

Lemma StronglySorted_weaken (R S : A -> A -> Prop) (l : list A) :
  (forall a b, R a b -> S a b) -> StronglySorted R l -> StronglySorted S l.
Proof.
  intros H. induction 1 as [|x l Hl IH Hx]; constructor; [done|].
  eapply Forall_impl; [exact Hx|]. eauto.
Qed.

Lemma sink_by_sorted (x : A) (r : list A) :
  StronglySorted (fun b a => stays a b) r -> StronglySorted (fun b a => stays a b) (sink_by x r).
Proof.
  induction 1 as [|y r Hr IH Hy]; simpl; [repeat constructor|].
  destruct (swap y x) eqn:E.
  - constructor; [done|]. rewrite sink_by_perm. constructor; [by apply swap_asym|done].
  - constructor; [by constructor|]. constructor; [done|].
    eapply Forall_impl; [exact Hy|]. intros z Hz. by apply (stays_trans z y x).
Qed.

Lemma insertion_sort_sorted (l : list A) : StronglySorted stays (insertion_sort l).
Proof.
  unfold insertion_sort.
  assert (forall l r, StronglySorted (fun b a => stays a b) r ->
            StronglySorted (fun b a => stays a b) (foldl (fun r x => sink_by x r) r l)) as H.
  { clear l. induction l as [|x l IH]; intros r Hr; simpl; [done|]. by apply IH, sink_by_sorted. }
  specialize (H l [] (SSorted_nil _)). revert H. generalize (foldl (fun r x => sink_by x r) [] l).
  induction l0 as [|x r IH]; intros H; simpl; [constructor|].
  apply StronglySorted_inv in H as [Hr Hx].
  apply StronglySorted_app_2; [|by apply IH|repeat constructor].
  intros a b Ha ->%list_elem_of_singleton. rewrite Forall_forall in Hx. apply Hx.
  by rewrite list_elem_of_In, in_rev, <- list_elem_of_In.
Qed.

End InsertionSort.

(** Two sorts of byte strings give one result. *)
Lemma insertion_sort_strings (l : list bytes) :
  insertion_sort bytes_gtb l = stable_sort id l.
Proof.
  assert (forall a b, bytes_gtb a b = false <-> bytes_leb a b = true) as Hg.
  { intros a b. rewrite bytes_gtb_leb. apply negb_false_iff. }
  apply (StronglySorted_unique_strong (fun a b => bytes_leb a b = true)).
  - intros a b _ _ Hab Hba. unfold bytes_leb in *. rewrite (bytes_cmp_antisym a b) in Hba.
    destruct (bytes_cmp a b) eqn:E; simpl in *; try done. by apply bytes_cmp_eq.
  - eapply StronglySorted_weaken; [|apply (insertion_sort_sorted bytes_gtb)].
    + intros a b H. by apply Hg.
    + intros x y H. unfold stays. apply Hg, bytes_leb_total.
      rewrite bytes_gtb_leb in H. by apply negb_true_iff in H.
    + unfold stays. intros x y z. rewrite !Hg. apply bytes_leb_trans.
  - assert (forall l, sorted_by id l -> StronglySorted (fun a b : bytes => bytes_leb a b = true) l) as H.
    { clear. induction l as [|x l IH]; simpl; [constructor|]. intros [Hx Hl]. constructor; auto. }
    apply H, stable_sort_sorted.
  - by rewrite insertion_sort_perm, stable_sort_perm.
Qed.

(** ** Loops over [strings.Cut]

    [for rest := s; rest != ""; { p, rest, _ = strings.Cut(rest, "c"); ... }]:
    the pieces the body sees. Each round consumes at least one byte of [rest],
    unless it ends the loop, so the length of [s] is enough fuel. *)

Fixpoint cut_loop (fuel : nat) (c : byte) (rest : bytes) : list bytes :=
  match fuel, rest with
  | _, [] => []
  | O, _ => []
  | S f, _ =>
      match cut_byte c rest with
      | Some (p, r) => p :: cut_loop f c r
      | None => [rest]
      end
  end.
Definition cut_pieces (c : byte) (s : bytes) : list bytes := cut_loop (length s) c s.

Lemma cut_byte_split (c : byte) (s : bytes) :
  split_byte c s = match cut_byte c s with Some (p, r) => p :: split_byte c r | None => [s] end.
Proof.
  induction s as [|a s IH]; simpl; [done|]. destruct (beqb a c); [done|].
  rewrite IH. by destruct (cut_byte c s) as [[p r]|].
Qed.

(** The loop visits the parts of [strings.Split], a last empty part apart. *)
Lemma cut_pieces_split (c : byte) (s : bytes) :
  split_byte c s = cut_pieces c s \/ split_byte c s = cut_pieces c s ++ [[]].
Proof.
  unfold cut_pieces. assert (length s <= length s)%nat as Hf by lia. revert Hf.
  generalize (length s) at 2 3 4. intros n. revert s. induction n as [|n IH]; intros s Hn.
  - destruct s; [by right|simpl in Hn; lia].
  - destruct s as [|a s]; [by right|]. cbn [cut_loop]. rewrite cut_byte_split.
    destruct (cut_byte c (a :: s)) as [[p r]|] eqn:E; [|by left].
    apply cut_byte_spec in E as [E _]. apply (f_equal length) in E. rewrite length_app in E. simpl in E, Hn.
    destruct (IH r ltac:(lia)) as [->| ->]; [by left|by right].
Qed.

(** ** Trimming *)

(** [strings.TrimRight(s, " \t")] *)
Definition ows (c : byte) : bool := beqb c (ch " ") || beqb c x09.
Fixpoint drop_while (p : byte -> bool) (s : bytes) : bytes :=
  match s with
  | [] => []
  | a :: s' => if p a then drop_while p s' else s
  end.
Definition drop_while_end (p : byte -> bool) (s : bytes) : bytes := rev (drop_while p (rev s)).
Definition trim_right_ows (s : bytes) : bytes := drop_while_end ows s.

Lemma drop_while_app (p : byte -> bool) (s : bytes) :
  exists b, s = b ++ drop_while p s /\ forallb p b = true.
Proof.
  induction s as [|a s (b & E & Hb)]; [by exists []|]. simpl.
  destruct (p a) eqn:Ea; [|by exists []]. exists (a :: b). simpl. rewrite Ea. by rewrite <- E.
Qed.

Lemma drop_while_end_app (p : byte -> bool) (s : bytes) :
  exists b, s = drop_while_end p s ++ b /\ forallb p b = true.
Proof.
  destruct (drop_while_app p (rev s)) as (b & E & Hb). exists (rev b). split.
  - unfold drop_while_end. rewrite <- rev_app_distr, <- E. by rewrite rev_involutive.
  - apply forallb_forall. intros x Hx. apply in_rev in Hx. by apply (proj1 (forallb_forall _ _) Hb).
Qed.

Lemma drop_while_end_snoc (p : byte -> bool) (s : bytes) (a : byte) :
  drop_while_end p (s ++ [a]) = if p a then drop_while_end p s else s ++ [a].
Proof.
  unfold drop_while_end. rewrite rev_app_distr. simpl. destruct (p a); [done|].
  simpl. by rewrite rev_involutive.
Qed.

Lemma ows_space (c : byte) : ows c = true -> ascii_space c = true.
Proof. unfold ows. intros [H|H]%orb_true_iff; apply beqb_eq in H; by subst. Qed.

Lemma ascii_space_lt (c : byte) : ascii_space c = true -> Zb c < 128.
Proof. unfold ascii_space. intros [H|H]%orb_true_iff; [|apply andb_true_iff in H as [_ H]]; lia. Qed.

Lemma space2_ascii (a c : byte) : ascii_space c = true -> space2 a c = false.
Proof. intros H%ascii_space_lt. unfold space2. destruct (Z.eqb_spec (Zb c) 133), (Z.eqb_spec (Zb c) 160); lia. Qed.

Lemma space3_ascii (a b c : byte) : ascii_space c = true -> space3 a b c = false.
Proof.
  intros H%ascii_space_lt. unfold space3.
  repeat match goal with
  | |- context [Zb c =? ?k] => destruct (Z.eqb_spec (Zb c) k); [lia|]
  | |- context [128 <=? Zb c] => destruct (Z.leb_spec 128 (Zb c)); [lia|]
  end.
  by rewrite !andb_false_r.
Qed.

Lemma trim_left_snoc (s : bytes) (c : byte) : ascii_space c = true ->
  trim_left (s ++ [c]) = match trim_left s with [] => [] | t => t ++ [c] end.
Proof.
  intros Hc. unfold trim_left. assert (length s <= length s)%nat as Hf by lia. revert Hf.
  generalize (length s) at 2. intros n. revert s. induction n as [|n IH]; intros s Hn.
  - destruct s; [|simpl in Hn; lia]. simpl. by rewrite Hc.
  - destruct s as [|a s]; [simpl; by rewrite Hc|]. simpl in Hn. simpl.
    destruct (ascii_space a); [apply IH; lia|].
    destruct s as [|b s]; simpl; [by rewrite space2_ascii|]. simpl in Hn.
    destruct (space2 a b); [apply IH; lia|].
    destruct s as [|d s]; simpl; [by rewrite space3_ascii|]. simpl in Hn.
    destruct (space3 a b d); [apply IH; lia|done].
Qed.

Lemma trim_space_snoc (s : bytes) (c : byte) : ascii_space c = true -> trim_space (s ++ [c]) = trim_space s.
Proof.
  intros Hc. unfold trim_space. rewrite trim_left_snoc by done.
  destruct (trim_left s) as [|a t]; [done|]. unfold trim_right.
  rewrite rev_app_distr. change (rev [c] ++ rev (a :: t)) with (c :: rev (a :: t)).
  cbn [trim_left_with]. by rewrite Hc.
Qed.

(** A value's trailing blanks do not matter to [strings.TrimSpace]. *)
Lemma trim_space_trim_right (s : bytes) : trim_space (trim_right_ows s) = trim_space s.
Proof.
  destruct (drop_while_end_app ows s) as (b & E & Hb).
  unfold trim_right_ows. rewrite E at 2. clear E. revert Hb. generalize (drop_while_end ows s). intros t.
  induction b as [|c b IH] using rev_ind; [by rewrite app_nil_r|].
  rewrite forallb_app. intros [Hb Hc]%andb_true_iff. simpl in Hc. rewrite andb_true_r in Hc.
  rewrite app_assoc, trim_space_snoc by (by apply ows_space). by apply IH.
Qed.

(** ** ASCII strings *)

Definition is_ascii (s : bytes) : bool := forallb (fun c => Zb c <? 128) s.

Lemma trim_left_with_ascii (p2 : byte -> byte -> bool) (p3 : byte -> byte -> byte -> bool) (s : bytes) :
  (forall a b, Zb a < 128 -> p2 a b = false) -> (forall a b d, Zb a < 128 -> p3 a b d = false) ->
  is_ascii s = true -> trim_left_with p2 p3 s = drop_while ascii_space s.
Proof.
  intros H2 H3. induction s as [|a s IH]; [done|]. intros [Ha Hs]%andb_true_iff. apply Z.ltb_lt in Ha.
  simpl. destruct (ascii_space a); [by apply IH|].
  destruct s as [|b s]; [done|]. rewrite H2 by done. destruct s as [|d s]; [done|]. by rewrite H3.
Qed.

Lemma is_ascii_app (a b : bytes) : is_ascii (a ++ b) = is_ascii a && is_ascii b.
Proof. apply forallb_app. Qed.

Lemma is_ascii_rev (s : bytes) : is_ascii (rev s) = is_ascii s.
Proof. induction s as [|a s IH]; simpl; [done|]. rewrite is_ascii_app, IH. simpl. rewrite andb_true_r. apply andb_comm. Qed.

Lemma is_ascii_drop_while (p : byte -> bool) (s : bytes) : is_ascii s = true -> is_ascii (drop_while p s) = true.
Proof.
  intros H. destruct (drop_while_app p s) as (b & E & _). rewrite E, is_ascii_app in H.
  by apply andb_true_iff in H as [_ H].
Qed.

Lemma trim_space_ascii (s : bytes) : is_ascii s = true ->
  trim_space s = drop_while_end ascii_space (drop_while ascii_space s).
Proof.
  intros H. unfold trim_space, trim_left, trim_right, drop_while_end.
  rewrite (trim_left_with_ascii space2 space3) by
    (try done; intros; unfold space2, space3;
     repeat match goal with |- context [Zb ?a =? ?k] => destruct (Z.eqb_spec (Zb a) k); try lia end).
  f_equal. apply trim_left_with_ascii.
  - intros a b Ha. unfold space2. destruct (Z.eqb_spec (Zb a) 133), (Z.eqb_spec (Zb a) 160); lia.
  - intros a b d Ha. unfold space3.
    repeat match goal with
    | |- context [Zb a =? ?k] => destruct (Z.eqb_spec (Zb a) k); [lia|]
    | |- context [128 <=? Zb a] => destruct (Z.leb_spec 128 (Zb a)); [lia|]
    end. by rewrite !andb_false_r.
  - rewrite is_ascii_rev. by apply is_ascii_drop_while.
Qed.

(** ** [strings.ToLower]

    Outside ASCII the mapping is the Unicode tables', so it is a parameter of
    the code that uses it, with what its documentation gives: it maps each
    code point on its own, ASCII letters to their lower case, neither makes
    nor removes a comma or white space, and a lower-case string is its own. *)

Class LowerLaws (to_lower : bytes -> bytes) : Prop := {
  lower_ascii : forall s, is_ascii s = true -> to_lower s = map lower_byte s;
  lower_split : forall s, split_byte (ch ",") (to_lower s) = map to_lower (split_byte (ch ",") s);
  lower_trim : forall s, trim_space (to_lower s) = to_lower (trim_space s);
  lower_idem : forall s, to_lower (to_lower s) = to_lower s;
}.

Lemma lower_byte_eqb (a : byte) (k : Z) :
  128 <= k \/ k <= 64 -> (Zb (lower_byte a) =? k) = (Zb a =? k).
Proof.
  intros Hk. unfold lower_byte, is_upper, in_range. change (Zb (ch "A")) with 65. change (Zb (ch "Z")) with 90.
  destruct (65 <=? Zb a) eqn:E1; [|done]. destruct (Zb a <=? 90) eqn:E2; [|done]. simpl.
  rewrite Zb_bZ, Z.mod_small by lia. lia.
Qed.

Lemma lower_byte_range (a : byte) (k l : Z) : 128 <= k \/ (0 <= k <= l /\ l <= 64) ->
  (k <=? Zb (lower_byte a)) && (Zb (lower_byte a) <=? l) = (k <=? Zb a) && (Zb a <=? l).
Proof.
  intros Hk. unfold lower_byte, is_upper, in_range. change (Zb (ch "A")) with 65. change (Zb (ch "Z")) with 90.
  destruct (65 <=? Zb a) eqn:E1; [|done]. destruct (Zb a <=? 90) eqn:E2; [|done]. simpl.
  rewrite Zb_bZ, Z.mod_small by lia. lia.
Qed.

Lemma ascii_space_lower (a : byte) : ascii_space (lower_byte a) = ascii_space a.
Proof. unfold ascii_space. by rewrite lower_byte_eqb, lower_byte_range by lia. Qed.

Lemma space2_lower (a b : byte) : space2 (lower_byte a) (lower_byte b) = space2 a b.
Proof. unfold space2. by rewrite !lower_byte_eqb by lia. Qed.

Lemma space3_lower (a b c : byte) : space3 (lower_byte a) (lower_byte b) (lower_byte c) = space3 a b c.
Proof. unfold space3. by rewrite !lower_byte_eqb, lower_byte_range by lia. Qed.

Lemma trim_left_with_lower (p2 : byte -> byte -> bool) (p3 : byte -> byte -> byte -> bool) (s : bytes) :
  (forall a b, p2 (lower_byte a) (lower_byte b) = p2 a b) ->
  (forall a b c, p3 (lower_byte a) (lower_byte b) (lower_byte c) = p3 a b c) ->
  trim_left_with p2 p3 (map lower_byte s) = map lower_byte (trim_left_with p2 p3 s).
Proof.
  intros H2 H3. assert (length s <= length s)%nat as Hf by lia. revert Hf.
  generalize (length s) at 2. intros n. revert s. induction n as [|n IH]; intros s Hn.
  - destruct s; [done|simpl in Hn; lia].
  - destruct s as [|a s]; [done|]. simpl in Hn. simpl. rewrite ascii_space_lower.
    destruct (ascii_space a); [apply IH; lia|].
    destruct s as [|b s]; [done|]. simpl in Hn. simpl. rewrite H2. destruct (p2 a b); [apply IH; lia|].
    destruct s as [|c s]; [done|]. simpl in Hn. simpl. rewrite H3. destruct (p3 a b c); [apply IH; lia|done].
Qed.

Lemma split_byte_map (c : byte) (f : byte -> byte) (s : bytes) :
  (forall a, beqb (f a) c = beqb a c) -> split_byte c (map f s) = map (map f) (split_byte c s).
Proof.
  intros H. induction s as [|a s IH]; [done|]. simpl. rewrite H, IH.
  destruct (beqb a c); [done|]. by destruct (split_byte c s).
Qed.

Lemma beqb_Zb (a b : byte) : beqb a b = (Zb a =? Zb b).
Proof.
  destruct (beqb a b) eqn:E.
  - apply beqb_eq in E as ->. by rewrite Z.eqb_refl.
  - apply beqb_neq in E. symmetry. apply Z.eqb_neq. intros H. by apply E, Zb_inj.
Qed.

(** The laws can hold: they do for the mapping of the ASCII letters alone. *)
#[export] Instance lower_laws_ascii : LowerLaws (map lower_byte).
Proof.
  split.
  - done.
  - intros s. apply split_byte_map. intros a. rewrite !beqb_Zb. apply lower_byte_eqb. change (Zb (ch ",")) with 44. lia.
  - intros s. unfold trim_space, trim_left, trim_right.
    rewrite trim_left_with_lower by (exact space2_lower || exact space3_lower).
    rewrite <- map_rev, trim_left_with_lower, map_rev; [done|..].
    + intros a b. apply space2_lower.
    + intros a b c. apply space3_lower.
  - intros s. rewrite map_map. apply map_ext. by intros [].
Qed.
