(* ===== verification/RawReq.v ===== *)
(** * The headers of a raw request

    The header array of [api.RawRequest] (src/pkg/api/fastpath.go): what the
    HTTP/1 parser leaves for the fast path, its lookups, the scan flags, and
    [reqHeaderMapFromRaw] (src/internal/cache/fastpath.go), the header map the
    slow path would have built from the same lines. A request's headers are
    the list of the first [NHeaders] lines, in request order. *)

From S2P Require Import Prelude GoStd CacheControl HeaderMap GoStrings.

Record RawHeader : Type := MkRawHeader { Key : bytes; Value : bytes }.
Abbreviation RawHeaders := (list RawHeader).

(** [ca += 32] for an upper-case letter. *)
Fixpoint EqualFold_loop (a b : bytes) : bool :=
  match a, b with
  | ca :: a', cb :: b' => if negb (beqb (lower_byte ca) (lower_byte cb)) then false else EqualFold_loop a' b'
  | _, _ => true
  end.
Definition EqualFold (a b : bytes) : bool :=
  if negb (len a =? len b) then false else EqualFold_loop a b.

Definition Header (r : RawHeaders) (key : bytes) : bytes :=
  match find (fun h => EqualFold (Key h) key) r with Some h => Value h | None => [] end.
Definition HasHeader (r : RawHeaders) (key : bytes) : bool :=
  existsb (fun h => EqualFold (Key h) key) r.

(** [CookieValue]: the loop over the lines, with its [first] flag. *)
Fixpoint cookie_value_loop (first : bool) (b : bytes) (r : RawHeaders) : bytes :=
  match r with
  | [] => b
  | h :: r' =>
      if negb (EqualFold (Key h) (bs "Cookie")) then cookie_value_loop first b r'
      else if beq (Value h) [] then cookie_value_loop first b r'
      else cookie_value_loop false ((if first then b else b ++ bs "; ") ++ Value h) r'
  end.
Definition CookieValue (r : RawHeaders) : bytes := cookie_value_loop true [] r.

(** [RequestScanFlags], a [uint32] *)
Definition FlagHasCL : Z := 1.
Definition FlagHasTE : Z := 2.
Definition FlagDuplicateCL : Z := 4.
Definition FlagPragmaNoCache : Z := 8.
Definition FlagHostSeen : Z := 16.
Definition FlagHasConnection : Z := 32.
Definition DisqualifyFastPath : Z := Z.shiftl 1 24.

Definition ScanFlagForHeader (key value : bytes) : Z :=
  if EqualFold key (bs "Host") then FlagHostSeen
  else if existsb (fun k => EqualFold key (bs k))
            ["If-None-Match"; "If-Modified-Since"; "If-Range"; "If-Unmodified-Since"; "If-Match"; "Range"]%string
  then DisqualifyFastPath
  else if EqualFold key (bs "Transfer-Encoding") then Z.lor FlagHasTE DisqualifyFastPath
  else if EqualFold key (bs "Content-Length") then Z.lor FlagHasCL DisqualifyFastPath
  else if EqualFold key (bs "Pragma") then
    if EqualFold value (bs "no-cache") then Z.lor FlagPragmaNoCache DisqualifyFastPath else 0
  else if EqualFold key (bs "Connection") then FlagHasConnection
  else 0.

(** One header of [RecomputeScanFlags]: flags, [clSeen] and [ccRaw]. *)
Definition recompute_step (st : Z * bool * bytes) (h : RawHeader) : Z * bool * bytes :=
  let '(flags, clSeen, ccRaw) := st in
  let flags := Z.lor flags (ScanFlagForHeader (Key h) (Value h)) in
  let cl := EqualFold (Key h) (bs "Content-Length") in
  (if cl && clSeen then Z.lor flags FlagDuplicateCL else flags,
   cl || clSeen,
   if EqualFold (Key h) (bs "Cache-Control") then Value h else ccRaw).
(** [RecomputeScanFlags]: the new [ScanFlags] and [CacheControlRaw]. *)
Definition RecomputeScanFlags (r : RawHeaders) : Z * bytes :=
  let '(flags, _, ccRaw) := foldl recompute_step (0, false, []) r in (flags, ccRaw).

Definition reqHeaderMapFromRaw (r : RawHeaders) : Map :=
  SortEntries
    (fold_left (fun hm h => AppendEntryCanonical hm (InternKey (Key h)) (trim_right_ows (Value h))) r NewMap).

(** ** Lookups *)

Lemma EqualFold_spec (a b : bytes) : EqualFold a b = true <-> map lower_byte a = map lower_byte b.
Proof.
  unfold EqualFold. destruct (len a =? len b) eqn:E; simpl.
  - apply Z.eqb_eq in E. unfold len in E. apply Nat2Z.inj in E. revert b E.
    induction a as [|x a IH]; intros [|y b] E; try done. simpl in *. injection E as E.
    destruct (beqb (lower_byte x) (lower_byte y)) eqn:Exy; simpl.
    + apply beqb_eq in Exy. rewrite IH by done. split; congruence.
    + apply beqb_neq in Exy. split; [done|]. congruence.
  - split; [done|]. intros H. apply (f_equal length) in H. rewrite !length_map in H.
    unfold len in E. rewrite H, Z.eqb_refl in E. done.
Qed.

Lemma EqualFold_canonical (a b : bytes) : EqualFold a b = beq (canonicalize a) (canonicalize b).
Proof.
  apply eq_true_iff_eq. rewrite EqualFold_spec, beq_eq, canonical_iff_EqFold, EqFold_spec. done.
Qed.

(** The lines of a field, in order. *)
Definition raw_values (r : RawHeaders) (k : bytes) : list bytes :=
  map Value (List.filter (fun h => EqualFold (Key h) k) r).

Lemma Header_first (r : RawHeaders) (k : bytes) : Header r k = default [] (head (raw_values r k)).
Proof.
  unfold Header, raw_values. induction r as [|h r IH]; simpl; [done|]. by destruct (EqualFold (Key h) k).
Qed.

Lemma fold_append_pairs (r : RawHeaders) : forall h, wf h ->
  wf (fold_left (fun hm h => AppendEntryCanonical hm (InternKey (Key h)) (trim_right_ows (Value h))) r h) /\
  pairs (fold_left (fun hm h => AppendEntryCanonical hm (InternKey (Key h)) (trim_right_ows (Value h))) r h)
  = pairs h ++ map (fun h => (canonicalize (Key h), trim_right_ows (Value h))) r.
Proof.
  induction r as [|x r IH]; intros h Hw; simpl; [by rewrite app_nil_r|]. rewrite !InternKey_eq.
  destruct (wf_AppendEntryCanonical h (canonicalize (Key x)) (trim_right_ows (Value x)) Hw) as [Hw' E];
    [apply canonicalize_idem|].
  destruct (IH _ Hw') as [Hw2 E2]. split; [done|]. by rewrite E2, E, <- app_assoc.
Qed.

Lemma wf_reqHeaderMapFromRaw (r : RawHeaders) : wf (reqHeaderMapFromRaw r).
Proof. apply wf_SortEntries. by apply fold_append_pairs, wf_NewMap. Qed.

(** A field's lines in the map are its lines in the request, right-trimmed. *)
Lemma raw_map_values (r : RawHeaders) (k : bytes) :
  all_values (canonicalize k) (pairs (reqHeaderMapFromRaw r)) = map trim_right_ows (raw_values r k).
Proof.
  unfold reqHeaderMapFromRaw. rewrite all_values_SortEntries.
  rewrite (proj2 (fold_append_pairs r NewMap wf_NewMap)). simpl.
  unfold all_values, raw_values. rewrite filter_map, !map_map. simpl.
  f_equal. apply filter_ext_Forall, Forall_forall. intros h _. by rewrite EqualFold_canonical.
Qed.

Lemma raw_map_Get (r : RawHeaders) (k : bytes) :
  HeaderMap.Get (reqHeaderMapFromRaw r) k = trim_right_ows (Header r k).
Proof.
  rewrite Get_pairs by apply wf_reqHeaderMapFromRaw. rewrite first_value_all, raw_map_values, Header_first.
  by destruct (raw_values r k).
Qed.

(** ** Cookie lines *)

Definition nonempty (v : bytes) : bool := negb (beq v []).

Lemma cookie_value_lines (r : RawHeaders) : forall b, b <> [] ->
  cookie_value_loop false b r = b ++ concat (map (fun v => bs "; " ++ v) (List.filter nonempty (raw_values r (bs "Cookie")))).
Proof.
  unfold raw_values, nonempty. induction r as [|h r IH]; intros b Hb; simpl; [by rewrite app_nil_r|].
  destruct (EqualFold (Key h) (bs "Cookie")); simpl; [|by apply IH].
  destruct (beq (Value h) []) eqn:E; simpl; [by apply IH|].
  rewrite IH by (by destruct b). by rewrite <- !app_assoc.
Qed.

Lemma join_concat (sep v : bytes) (l : list bytes) :
  join sep (v :: l) = v ++ concat (map (fun w => sep ++ w) l).
Proof.
  revert v. induction l as [|w l IH]; intros v; [simpl; by rewrite app_nil_r|].
  change (join sep (v :: w :: l)) with (v ++ sep ++ join sep (w :: l)).
  rewrite IH. simpl. by rewrite <- !app_assoc.
Qed.

(** [CookieValue] joins the non-empty lines with ["; "]. *)
Lemma CookieValue_join (r : RawHeaders) :
  CookieValue r = join (bs "; ") (List.filter nonempty (raw_values r (bs "Cookie"))).
Proof.
  unfold CookieValue. induction r as [|h r IH]; [done|]. unfold raw_values, nonempty in *. simpl.
  destruct (EqualFold (Key h) (bs "Cookie")); simpl; [|done].
  destruct (beq (Value h) []) eqn:E; simpl; [done|]. apply beq_neq in E.
  rewrite cookie_value_lines by done. unfold raw_values, nonempty. by rewrite <- join_concat.
Qed.

Lemma cookie_append_lines (l : list bytes) : forall b, b <> [] ->
  cookie_append b l = b ++ concat (map (fun w => bs "; " ++ w) l).
Proof.
  induction l as [|v l IH]; intros b Hb; [simpl; by rewrite app_nil_r|]. cbn [cookie_append].
  assert (0 <? len b = true) as -> by (apply Z.ltb_lt; destruct b; [done|]; unfold len; simpl; lia).
  rewrite IH by (by destruct b). cbn [map concat]. by rewrite <- !app_assoc.
Qed.

(** So does [CookieAll] over a header map. *)
Lemma CookieAll_join (h : Map) :
  CookieAll h = join (bs "; ") (List.filter nonempty (all_values Hdr.Cookie (pairs h))).
Proof.
  rewrite all_values_entries. change (List.filter nonempty _) with (cookie_lines h). unfold CookieAll.
  assert (forall v, v ∈ cookie_lines h -> v <> []) as Hne.
  { intros v. unfold cookie_lines. rewrite list_elem_of_In, filter_In. intros [_ H].
    by apply negb_true_iff, beq_neq in H. }
  destruct (cookie_lines h) as [|v [|w l]]; [done..|].
  assert (v <> []) as Hv by (apply Hne; left).
  rewrite join_concat, <- cookie_append_lines by done. done.
Qed.
