(* ===== verification/Cookies.v ===== *)
(** * Cookie names, presence and values

    src/internal/cache/cookiename.go (the scanner behind
    [cache.bypass_on_cookie_names]) and the cookie reductions of keypolicy.go
    ([normalizeCookieNameList], [cookiePresenceValue], [cookieValuesValue]).
    The theorems say that a cookie is found by its name token, whatever its
    case, position or field line, never inside a value; that the reductions
    are functions of the cookie pairs; and that the value buffer is filled
    exactly. *)

From stdpp Require Import sorting.
From S2P Require Import Prelude GoStd CacheControl HeaderMap Keys GoStrings RawReq.

(** ** asciiEqualFoldStrings *)

Fixpoint asciiEqualFold_loop (a b : bytes) : bool :=
  match a, b with
  | ca :: a', cb :: b' => if negb (beqb (lower_byte ca) (lower_byte cb)) then false else asciiEqualFold_loop a' b'
  | _, _ => true
  end.
Definition asciiEqualFoldStrings (a b : bytes) : bool :=
  if negb (len a =? len b) then false else asciiEqualFold_loop a b.

(** ** The name scanner (cookiename.go) *)

Record cookieNameScanner : Type := MkScanner { names : list bytes; maxLen : Z; minLen : Z }.
Definition scanner0 : cookieNameScanner := {| names := []; maxLen := 0; minLen := 0 |}.

(** [name] trimmed from its end first, then from its start. *)
Definition trim_token (name : bytes) : bytes := drop_while ows (drop_while_end ows name).

Definition empty (s : cookieNameScanner) : bool := match names s with [] => true | _ => false end.

Section Scanner.
Context (to_lower : bytes -> bytes).

Definition newCookieNameScanner (raw : list bytes) : cookieNameScanner :=
  let ns := List.filter nonempty (map (fun r => to_lower (trim_space r)) raw) in
  match insertion_sort (fun prev cur => len prev <? len cur) ns with
  | [] => scanner0
  | n :: l => {| names := n :: l; maxLen := len n; minLen := len (List.last (n :: l) []) |}
  end.

Fixpoint listed_loop (name : bytes) (l : list bytes) : bool :=
  match l with
  | [] => false
  | listed :: l' =>
      if len listed <? len name then false
      else if (len listed =? len name) && asciiEqualFoldStrings name listed then true
      else listed_loop name l'
  end.

Definition nameListed (s : cookieNameScanner) (rawName : bytes) : bool :=
  let name := trim_token rawName in
  if beq name [] || (len name <? minLen s) || (maxLen s <? len name) then false
  else listed_loop name (names s).

Definition hasCookieName (s : cookieNameScanner) (cookieValue : bytes) : bool :=
  if empty s || beq cookieValue [] then false
  else existsb (fun pair => nameListed s (cut_eq pair).1) (split_byte (ch ";") cookieValue).

(** [lines] is fasthttp's [hdr.PeekAll("Cookie")]. *)
Definition cookieBypassTriggered (bypassOnCookie : bool) (s : cookieNameScanner) (lines : list bytes) : bool :=
  if negb bypassOnCookie && empty s then false
  else existsb (fun line => nonempty line && (bypassOnCookie || hasCookieName s line)) lines.

Fixpoint bypass_raw_loop (bypassOnCookie : bool) (s : cookieNameScanner) (r : RawHeaders) : bool :=
  match r with
  | [] => false
  | h :: r' =>
      if negb (asciiEqualFoldStrings (Key h) (bs "Cookie")) then bypass_raw_loop bypassOnCookie s r'
      else if len (Value h) =? 0 then bypass_raw_loop bypassOnCookie s r'
      else if bypassOnCookie then true
      else if hasCookieName s (Value h) then true
      else bypass_raw_loop bypassOnCookie s r'
  end.
Definition cookieBypassTriggeredRaw (bypassOnCookie : bool) (s : cookieNameScanner) (r : RawHeaders) : bool :=
  if negb bypassOnCookie && empty s then false else bypass_raw_loop bypassOnCookie s r.

(** ** The cookie dimensions of a key policy (keypolicy.go) *)

(** One name of [normalizeCookieNameList]: the accepted names so far, in
    order; [seen] holds the same names. *)
Definition normalize_step (lowered : list bytes) (n : bytes) : list bytes :=
  let n := trim_space (to_lower n) in
  if beq n [] || existsb (beq n) lowered then lowered else lowered ++ [n].
Definition normalizeCookieNameList (ns : list bytes) : list bytes :=
  sort_strings (foldl normalize_step [] ns).

End Scanner.

Definition hasCookiePresence (p : option KeyPolicy) : bool :=
  match p with Some p => 0 <? len (cookiePresence p) | None => false end.
Definition hasCookieValues (p : option KeyPolicy) : bool :=
  match p with Some p => 0 <? len (cookieValues p) | None => false end.
Definition hasCookieKeying (p : option KeyPolicy) : bool := hasCookiePresence p || hasCookieValues p.

(** The position of the first listed name the token matches. *)
Fixpoint find_listed (l : list bytes) (token : bytes) : option nat :=
  match l with
  | [] => None
  | listed :: l' =>
      if (len listed =? len token) && asciiEqualFoldStrings token listed then Some O
      else S <$> find_listed l' token
  end.

Definition presence_step (l : list bytes) (bits : bytes) (pair : bytes) : bytes :=
  let token := trim_token (cut_eq pair).1 in
  if beq token [] then bits
  else match find_listed l token with Some i => <[i := ch "1"]> bits | None => bits end.

Definition cookiePresenceValue (p : option KeyPolicy) (cookieValue : bytes) : bytes :=
  if negb (hasCookiePresence p) || beq cookieValue [] then []
  else let l := match p with Some p => cookiePresence p | None => [] end in
       foldl (presence_step l) (replicate (length l) (ch "0")) (split_byte (ch ";") cookieValue).

(** Trimmed from its start first, then from its end. *)
Definition trimCookieOWS (s : bytes) : bytes := drop_while_end ows (drop_while ows s).

Definition values_step (l : list bytes) (vals : list bytes) (pair : bytes) : list bytes :=
  let '(name, val) := cut_eq pair in
  let token := trimCookieOWS name in
  if beq token [] then vals
  else match find_listed l token with Some i => <[i := trimCookieOWS val]> vals | None => vals end.

(** The buffer [b] of [total] bytes, filled up to [off = len acc]: an indexed
    store past its end panics ([None]), a [copy] stops there. *)
Definition put_byte (total : Z) (acc : bytes) (c : byte) : option bytes :=
  if len acc <? total then Some (acc ++ [c]) else None.
Definition put_copy (total : Z) (acc s : bytes) : bytes := acc ++ take (Z.to_nat (total - len acc)) s.

Fixpoint fill_values (total : Z) (i : nat) (l vals : list bytes) (acc : bytes) : option bytes :=
  match l, vals with
  | listed :: l', v :: vals' =>
      match (if (0 <? i)%nat then
               match put_byte total acc (ch ";") with
               | Some acc => put_byte total acc (ch " ")
               | None => None
               end
             else Some acc) with
      | Some acc =>
          match put_byte total (put_copy total acc listed) (ch "=") with
          | Some acc => fill_values total (S i) l' vals' (put_copy total acc v)
          | None => None
          end
      | None => None
      end
  | _, _ => Some acc
  end.

Definition values_total (l vals : list bytes) : Z :=
  foldr (fun '(listed, v) n => len (A := byte) listed + 1 + len (A := byte) v + 2 + n) 0 (zip l vals) - 2.

(** [None] is the panic of an index out of range. *)
Definition cookie_values_fill (l : list bytes) (cookieValue : bytes) : option bytes :=
  let vals := foldl (values_step l) (replicate (length l) []) (split_byte (ch ";") cookieValue) in
  let total := values_total l vals in
  match fill_values total 0 l vals [] with
  | Some acc => Some (acc ++ replicate (Z.to_nat (total - len acc)) x00)
  | None => None
  end.

Definition cookieValuesValue (p : option KeyPolicy) (cookieValue : bytes) : bytes :=
  if negb (hasCookieValues p) || beq cookieValue [] then []
  else match p with
       | Some p => default [] (cookie_values_fill (cookieValues p) cookieValue)
       | None => []
       end.

(** ** The reference reading of a Cookie value

    Its pairs: name and value around the first ["="], both trimmed, nameless
    pairs left out. *)

Definition cookie_pair (pair : bytes) : bytes * bytes :=
  let '(n, v) := cut_eq pair in (trimCookieOWS n, trimCookieOWS v).
Definition cookie_pairs (s : bytes) : list (bytes * bytes) :=
  List.filter (fun nv => nonempty nv.1) (map cookie_pair (split_byte (ch ";") s)).

(** ** Lemmas *)

Lemma asciiEqualFold_EqualFold (a b : bytes) : asciiEqualFoldStrings a b = EqualFold a b.
Proof. done. Qed.

Lemma asciiEqualFold_spec (a b : bytes) :
  asciiEqualFoldStrings a b = true <-> map lower_byte a = map lower_byte b.
Proof. rewrite asciiEqualFold_EqualFold. apply EqualFold_spec. Qed.

Lemma fold_equal_len (a b : bytes) : asciiEqualFoldStrings a b = true -> len a = len b.
Proof.
  rewrite asciiEqualFold_spec. intros H. apply (f_equal length) in H. rewrite !length_map in H.
  unfold len. lia.
Qed.

Lemma drop_while_end_cons (p : byte -> bool) (a : byte) (s : bytes) :
  drop_while_end p (a :: s) =
  match drop_while_end p s with [] => if p a then [] else [a] | t => a :: t end.
Proof.
  induction s as [|c s IH] using rev_ind.
  - unfold drop_while_end. simpl. by destruct (p a).
  - change (a :: s ++ [c]) with ((a :: s) ++ [c]). rewrite !drop_while_end_snoc.
    destruct (p c); [exact IH|]. by destruct s.
Qed.

(** The two orders of trimming agree. *)
Lemma trim_token_eq (s : bytes) : trim_token s = trimCookieOWS s.
Proof.
  unfold trim_token, trimCookieOWS. generalize ows as p. intros p. induction s as [|a s IH]; [done|].
  rewrite drop_while_end_cons. simpl. destruct (p a) eqn:Ea.
  - rewrite <- IH. destruct (drop_while_end p s); simpl; [done|]. by rewrite Ea.
  - rewrite drop_while_end_cons, Ea. destruct (drop_while_end p s); simpl; by rewrite ?Ea.
Qed.

Lemma trim_cookie_lead (c : byte) (s : bytes) : ows c = true -> trimCookieOWS (c :: s) = trimCookieOWS s.
Proof. intros Hc. unfold trimCookieOWS. simpl. by rewrite Hc. Qed.

Lemma trim_cookie_trail (s : bytes) : trimCookieOWS (trim_right_ows s) = trimCookieOWS s.
Proof.
  rewrite <- !trim_token_eq. unfold trim_token, trim_right_ows. f_equal.
  unfold drop_while_end. rewrite rev_involutive. f_equal.
  generalize (rev s). intros t. induction t as [|a t IH]; [done|]. simpl.
  destruct (ows a) eqn:E; [done|]. simpl. by rewrite E.
Qed.

(** ** The scanner finds exactly the listed names *)

Record scanner_ok (s : cookieNameScanner) : Prop := {
  so_sorted : StronglySorted (fun a b => len b <= len a) (names s);
  so_range : Forall (fun n => minLen s <= len n <= maxLen s) (names s);
}.

Lemma scanner_ok_new (to_lower : bytes -> bytes) (raw : list bytes) :
  scanner_ok (newCookieNameScanner to_lower raw) /\
  names (newCookieNameScanner to_lower raw) ≡ₚ
    List.filter nonempty (map (fun r => to_lower (trim_space r)) raw).
Proof.
  unfold newCookieNameScanner. set (ns := List.filter _ _).
  pose proof (insertion_sort_perm (fun prev cur => len prev <? len cur) ns) as Hp.
  assert (StronglySorted (fun a b => len b <= len a)
            (insertion_sort (fun prev cur : bytes => len prev <? len cur) ns)) as Hs.
  { eapply StronglySorted_weaken; [|apply insertion_sort_sorted]; unfold stays; intros *; simpl; lia. }
  destruct (insertion_sort _ ns) as [|n l]; [by repeat constructor|].
  split; [|done]. split; cbn [names minLen maxLen]; [done|]. apply Forall_forall. intros x Hx. split.
  - destruct (exists_last (l := n :: l)) as (l' & z & E); [done|]. rewrite E in *. rewrite last_last.
    apply elem_of_app in Hx as [Hx| ->%list_elem_of_singleton]; [|lia].
    apply (StronglySorted_app_1_elem_of _ _ _ x z Hs); [done|by left].
  - apply elem_of_cons in Hx as [->|Hx]; [lia|].
    apply StronglySorted_inv in Hs as [_ Hs]. rewrite Forall_forall in Hs. by apply Hs.
Qed.

Lemma listed_loop_spec (name : bytes) (l : list bytes) :
  StronglySorted (fun a b => len b <= len a) l ->
  listed_loop name l = existsb (asciiEqualFoldStrings name) l.
Proof.
  induction 1 as [|n l Hl IH Hn]; [done|]. cbn [listed_loop existsb].
  assert (len n < len name -> existsb (asciiEqualFoldStrings name) l = false) as Hlt.
  { intros H. apply not_true_iff_false. intros (x & Hx & E%fold_equal_len)%existsb_exists.
    rewrite Forall_forall in Hn. apply list_elem_of_In, Hn in Hx. lia. }
  destruct (len n <? len name) eqn:E1.
  - apply Z.ltb_lt in E1. rewrite Hlt by done. rewrite orb_false_r. symmetry. apply not_true_iff_false.
    intros H%fold_equal_len. lia.
  - destruct (asciiEqualFoldStrings name n) eqn:E2; [|by rewrite andb_false_r].
    apply fold_equal_len in E2. by rewrite E2, Z.eqb_refl.
Qed.

Lemma nameListed_spec (s : cookieNameScanner) (raw : bytes) : scanner_ok s ->
  nameListed s raw = nonempty (trimCookieOWS raw) && existsb (asciiEqualFoldStrings (trimCookieOWS raw)) (names s).
Proof.
  intros [Hs Hr]. unfold nameListed. rewrite trim_token_eq. set (name := trimCookieOWS raw).
  rewrite listed_loop_spec by done. unfold nonempty.
  destruct (beq name []) eqn:E; [done|]. cbn [orb negb andb].
  destruct ((len name <? minLen s) || (maxLen s <? len name)) eqn:E2; [|done].
  symmetry. apply not_true_iff_false. intros (x & Hx & Ex%fold_equal_len)%existsb_exists.
  rewrite Forall_forall in Hr. apply list_elem_of_In, Hr in Hx. lia.
Qed.

Lemma existsb_filter_map {A B} (f : A -> B) (p q : B -> bool) (l : list A) :
  existsb q (List.filter p (map f l)) = existsb (fun x => p (f x) && q (f x)) l.
Proof. induction l as [|x l IH]; simpl; [done|]. destruct (p (f x)); simpl; by rewrite IH. Qed.

Lemma existsb_ext {A} (p q : A -> bool) (l : list A) : (forall x, p x = q x) -> existsb p l = existsb q l.
Proof. intros H. induction l as [|x l IH]; simpl; [done|]. by rewrite H, IH. Qed.

(** The value carries a cookie with a listed name. *)
Definition carries (l : list bytes) (v : bytes) : bool :=
  existsb (fun nv => existsb (asciiEqualFoldStrings nv.1) l) (cookie_pairs v).

Lemma cookie_pair_name (pair : bytes) : (cookie_pair pair).1 = trimCookieOWS (cut_eq pair).1.
Proof. unfold cookie_pair. by destruct (cut_eq pair). Qed.

Lemma hasCookieName_spec (s : cookieNameScanner) (v : bytes) : scanner_ok s ->
  hasCookieName s v = carries (names s) v.
Proof.
  intros Hs. unfold hasCookieName, carries, cookie_pairs. rewrite existsb_filter_map.
  destruct (empty s) eqn:E; simpl.
  { unfold empty in E. destruct (names s); [|done]. simpl.
    induction (split_byte (ch ";") v) as [|x l IH]; simpl; [done|]. by rewrite andb_false_r. }
  destruct (beq v []) eqn:Ev; [apply beq_eq in Ev as ->; done|].
  apply existsb_ext. intros x. rewrite nameListed_spec by done. by rewrite cookie_pair_name.
Qed.

Lemma bypass_raw_spec (flag : bool) (s : cookieNameScanner) (r : RawHeaders) :
  bypass_raw_loop flag s r =
  existsb (fun line => nonempty line && (flag || hasCookieName s line)) (raw_values r (bs "Cookie")).
Proof.
  unfold raw_values. induction r as [|h r IH]; [done|]. cbn [bypass_raw_loop List.filter].
  rewrite asciiEqualFold_EqualFold. destruct (EqualFold (Key h) (bs "Cookie")); cbn [negb map existsb]; [|done].
  assert ((len (Value h) =? 0) = negb (nonempty (Value h))) as ->.
  { unfold nonempty. by destruct (Value h). }
  destruct (nonempty (Value h)); cbn [negb andb orb]; [|done].
  destruct flag; [done|]. cbn [orb]. destruct (hasCookieName s (Value h)); [done|]. apply IH.
Qed.

(** ** The pairs of a value, line by line *)

Lemma split_byte_cons (c a : byte) (s : bytes) : beqb a c = false ->
  exists w ws, split_byte c s = w :: ws /\ split_byte c (a :: s) = (a :: w) :: ws.
Proof.
  intros H. simpl. rewrite H. destruct (split_byte c s) as [|w ws] eqn:E; [|by eauto].
  exfalso. revert E. destruct s as [|b s]; simpl; [done|]. destruct (beqb b c); [done|]. by destruct (split_byte c s).
Qed.

Lemma split_byte_join2 (c : byte) (a r : bytes) : split_byte c (a ++ c :: r) = split_byte c a ++ split_byte c r.
Proof.
  induction a as [|x a IH]; simpl; [by rewrite beqb_refl|]. destruct (beqb x c) eqn:E; [by rewrite IH|].
  rewrite IH. destruct (split_byte_cons c x a E) as (w & ws & -> & _). done.
Qed.

Lemma split_byte_snoc (c a : byte) (s : bytes) : beqb a c = false ->
  exists l w, split_byte c s = l ++ [w] /\ split_byte c (s ++ [a]) = l ++ [w ++ [a]].
Proof.
  intros H. induction s as [|x s (l & w & E1 & E2)]; simpl; [rewrite H; by exists [], []|].
  rewrite E1, E2. destruct (beqb x c); [by exists ([] :: l), w|].
  destruct l as [|y l]; simpl; [by exists [], (x :: w)|by exists ((x :: y) :: l), w].
Qed.

Lemma cut_eq_cons (a : byte) (s : bytes) : beqb a (ch "=") = false ->
  cut_eq (a :: s) = (a :: (cut_eq s).1, (cut_eq s).2).
Proof. intros H. unfold cut_eq. cbn [cut_byte]. rewrite H. by destruct (cut_byte (ch "=") s) as [[l r]|]. Qed.

Lemma contains_byte_cons (c x : byte) (s : bytes) : contains_byte c (x :: s) = beqb x c || contains_byte c s.
Proof.
  unfold contains_byte. cbn [index_byte]. destruct (beqb x c); [done|]. cbn [orb].
  destruct (index_byte c s <? 0) eqn:E; lia.
Qed.

Lemma cut_eq_snoc (a : byte) (s : bytes) : beqb a (ch "=") = false ->
  cut_eq (s ++ [a]) = (if contains_byte (ch "=") s then ((cut_eq s).1, (cut_eq s).2 ++ [a]) else (s ++ [a], [])).
Proof.
  intros H. induction s as [|x s IH]; [unfold cut_eq; simpl; by rewrite H|].
  rewrite contains_byte_cons. cbn [app].
  destruct (beqb x (ch "=")) eqn:E; [unfold cut_eq; cbn [cut_byte]; rewrite E; done|].
  rewrite !cut_eq_cons, IH by done. cbn [orb]. by destruct (contains_byte (ch "=") s).
Qed.

Lemma trim_cookie_snoc (a : byte) (s : bytes) : ows a = true -> trimCookieOWS (s ++ [a]) = trimCookieOWS s.
Proof.
  intros H. rewrite <- !trim_token_eq. unfold trim_token. by rewrite drop_while_end_snoc, H.
Qed.

Lemma contains_cut (s : bytes) : contains_byte (ch "=") s = false -> cut_eq s = (s, []).
Proof.
  induction s as [|x s IH]; [done|]. rewrite contains_byte_cons. intros [E Hs]%orb_false_iff.
  rewrite cut_eq_cons by done. by rewrite IH.
Qed.

Lemma cookie_pair_lead (s : bytes) : cookie_pair (ch " " :: s) = cookie_pair s.
Proof.
  unfold cookie_pair. rewrite cut_eq_cons by done. destruct (cut_eq s). simpl. by rewrite trim_cookie_lead.
Qed.

Lemma cookie_pair_trail (a : byte) (s : bytes) : ows a = true -> cookie_pair (s ++ [a]) = cookie_pair s.
Proof.
  intros H. assert (beqb a (ch "=") = false) as Ha.
  { unfold ows in H. apply orb_true_iff in H as [H|H]; apply beqb_eq in H; by subst. }
  unfold cookie_pair. rewrite cut_eq_snoc by done.
  destruct (contains_byte (ch "=") s) eqn:E.
  - destruct (cut_eq s). simpl. by rewrite trim_cookie_snoc.
  - rewrite contains_cut by done. by rewrite trim_cookie_snoc.
Qed.

Lemma cookie_pairs_trail (s : bytes) : cookie_pairs (trim_right_ows s) = cookie_pairs s.
Proof.
  destruct (drop_while_end_app ows s) as (b & E & Hb). fold (trim_right_ows s) in E.
  rewrite E at 2. clear E. revert Hb. generalize (trim_right_ows s). intros t.
  induction b as [|c b IH] using rev_ind; [by rewrite app_nil_r|].
  rewrite forallb_app. intros [Hb Hc]%andb_true_iff. simpl in Hc. rewrite andb_true_r in Hc.
  rewrite app_assoc, (IH Hb). unfold cookie_pairs.
  destruct (split_byte_snoc (ch ";") c (t ++ b)) as (l & w & -> & ->).
  { unfold ows in Hc. apply orb_true_iff in Hc as [Hc|Hc]; apply beqb_eq in Hc; by subst. }
  rewrite !map_app. simpl. by rewrite cookie_pair_trail.
Qed.

(** Joining field lines with ["; "] folds no pair into another. *)
Lemma cookie_pairs_join (lines : list bytes) :
  cookie_pairs (join (bs "; ") lines) = concat (map cookie_pairs lines).
Proof.
  induction lines as [|v lines IH]; [done|]. destruct lines as [|w lines]; [simpl; by rewrite app_nil_r|].
  change (join (bs "; ") (v :: w :: lines)) with (v ++ ch ";" :: ch " " :: join (bs "; ") (w :: lines)).
  cbn [map concat]. cbn [map concat] in IH. rewrite <- IH. unfold cookie_pairs.
  rewrite split_byte_join2, map_app, List.filter_app. f_equal.
  destruct (split_byte_cons (ch ";") (ch " ") (join (bs "; ") (w :: lines)) eq_refl) as (x & xs & -> & ->).
  cbn [map]. by rewrite cookie_pair_lead.
Qed.

(** ** The reductions are functions of the pairs *)

(** The listed names are distinct up to case, as config validation requires
    and [normalizeCookieNameList] produces for ASCII names. *)
Definition fold_distinct (l : list bytes) : Prop := NoDup (map (map lower_byte) l).

Lemma find_listed_update {A} (l : list bytes) (token : bytes) (x : A) : fold_distinct l ->
  forall ys : list A, length ys = length l ->
  match find_listed l token with Some i => <[i := x]> ys | None => ys end =
  zip_with (fun n y => if asciiEqualFoldStrings token n then x else y) l ys.
Proof.
  unfold fold_distinct. induction l as [|n l IH]; intros Hd ys Hy; [by destruct ys|].
  destruct ys as [|y ys]; [done|]. cbn [map] in Hd. apply NoDup_cons in Hd as [Hn Hd]. simpl in Hy.
  cbn [find_listed zip_with]. destruct (asciiEqualFoldStrings token n) eqn:E.
  - rewrite (fold_equal_len _ _ E), Z.eqb_refl. cbn [andb]. simpl. f_equal.
    clear IH. assert (Forall (fun m => asciiEqualFoldStrings token m = false) l) as Hf.
    { apply Forall_forall. intros m Hm. apply not_true_iff_false. intros Em. apply Hn.
      apply asciiEqualFold_spec in E, Em. rewrite <- E, Em. apply list_elem_of_In, in_map. by apply list_elem_of_In. }
    clear Hn Hd. revert ys Hy. induction Hf as [|m l Hm Hf IH]; intros [|z ys] Hy; try done. simpl.
    rewrite Hm. f_equal. apply IH. simpl in *. lia.
  - rewrite andb_false_r. rewrite <- (IH Hd ys) by lia. by destruct (find_listed l token).
Qed.

Lemma zip_with_compose {A} (f g : bytes -> A -> A) (l : list bytes) : forall ys,
  zip_with f l (zip_with g l ys) = zip_with (fun n y => f n (g n y)) l ys.
Proof. induction l as [|n l IH]; intros [|y ys]; simpl; try done. by rewrite IH. Qed.

Lemma zip_with_id {A} (l : list bytes) : forall ys : list A, length ys = length l ->
  zip_with (fun _ y => y) l ys = ys.
Proof. induction l as [|n l IH]; intros [|y ys] H; try done. simpl. by rewrite IH by (simpl in H; lia). Qed.

(** A loop whose body updates the listed position of each pair's name. *)
Lemma fold_listed {A} (l : list bytes) (step : list A -> bytes -> list A) (upd : bytes * bytes -> A) :
  fold_distinct l ->
  (forall ys pair, step ys pair =
     (let nv := cookie_pair pair in
      if beq nv.1 [] then ys
      else match find_listed l nv.1 with Some i => <[i := upd nv]> ys | None => ys end)) ->
  forall ps ys, length ys = length l ->
  foldl step ys ps =
  zip_with (fun n y => foldl (fun y nv => if asciiEqualFoldStrings nv.1 n then upd nv else y) y
                         (List.filter (fun nv => nonempty nv.1) (map cookie_pair ps))) l ys.
Proof.
  intros Hd Hstep. induction ps as [|p ps IH]; intros ys Hy; [simpl; by rewrite zip_with_id|].
  cbn [foldl map List.filter]. rewrite Hstep. cbn zeta. unfold nonempty at 1.
  destruct (beq (cookie_pair p).1 []) eqn:E; cbn [negb]; [by apply IH|].
  rewrite find_listed_update by done. rewrite IH by (rewrite length_zip_with; lia).
  by rewrite zip_with_compose.
Qed.

Lemma foldl_last_match {A} (p : bytes * bytes -> bool) (x d : A) (ps : list (bytes * bytes)) :
  foldl (fun y nv => if p nv then x else y) d ps = if existsb p ps then x else d.
Proof.
  revert d. induction ps as [|nv ps IH]; intros d; simpl; [done|]. rewrite IH.
  destruct (p nv), (existsb p ps); done.
Qed.

Lemma zip_with_replicate {A B} (f : bytes -> A -> B) (x : A) (l : list bytes) :
  zip_with f l (replicate (length l) x) = map (fun n => f n x) l.
Proof. induction l as [|n l IH]; simpl; [done|]. by rewrite IH. Qed.

(** The presence bit of a listed name, and the value its last cookie gives. *)
Definition presence_bit (ps : list (bytes * bytes)) (n : bytes) : byte :=
  if existsb (fun nv => asciiEqualFoldStrings nv.1 n) ps then ch "1" else ch "0".
Definition last_value (ps : list (bytes * bytes)) (n : bytes) : bytes :=
  foldl (fun v nv => if asciiEqualFoldStrings nv.1 n then nv.2 else v) [] ps.

Lemma presence_fold (l : list bytes) (v : bytes) : fold_distinct l ->
  foldl (presence_step l) (replicate (length l) (ch "0")) (split_byte (ch ";") v)
  = map (presence_bit (cookie_pairs v)) l.
Proof.
  intros Hd. rewrite (fold_listed l (presence_step l) (fun _ => ch "1") Hd).
  - rewrite zip_with_replicate. apply map_ext. intros n. apply foldl_last_match.
  - intros ys pair. unfold presence_step. cbn zeta. by rewrite trim_token_eq, cookie_pair_name.
  - apply length_replicate.
Qed.

Lemma values_fold (l : list bytes) (v : bytes) : fold_distinct l ->
  foldl (values_step l) (replicate (length l) []) (split_byte (ch ";") v)
  = map (last_value (cookie_pairs v)) l.
Proof.
  intros Hd. rewrite (fold_listed l (values_step l) snd Hd).
  - by rewrite zip_with_replicate.
  - intros ys pair. unfold values_step, cookie_pair. by destruct (cut_eq pair).
  - apply length_replicate.
Qed.

(** ** The value buffer *)

Definition value_text (n v : bytes) : bytes := n ++ ch "=" :: v.

Lemma put_byte_fits (total : Z) (acc : bytes) (c : byte) :
  len acc + 1 <= total -> put_byte total acc c = Some (acc ++ [c]).
Proof. intros H. unfold put_byte. by rewrite (proj2 (Z.ltb_lt _ _)) by lia. Qed.

Lemma put_copy_fits (total : Z) (acc s : bytes) : len acc + len s <= total -> put_copy total acc s = acc ++ s.
Proof. intros H. unfold put_copy. rewrite take_ge; [done|]. unfold len in *. lia. Qed.

(** What the remaining pairs need, separators before each but the first. *)
Fixpoint fill_text (i : nat) (l vals : list bytes) : bytes :=
  match l, vals with
  | n :: l', v :: vals' => (if (0 <? i)%nat then bs "; " else []) ++ value_text n v ++ fill_text (S i) l' vals'
  | _, _ => []
  end.

Lemma fill_values_text (total : Z) (l : list bytes) : forall i vals acc,
  len acc + len (fill_text i l vals) <= total ->
  fill_values total i l vals acc = Some (acc ++ fill_text i l vals).
Proof.
  induction l as [|n l IH]; intros i [|v vals] acc H; simpl; try by rewrite app_nil_r.
  cbn [fill_text] in H. unfold value_text in *. rewrite !len_app, len_cons in H.
  pose proof (len_nonneg v). pose proof (len_nonneg n). pose proof (len_nonneg (fill_text (S i) l vals)).
  destruct (0 <? i)%nat eqn:Ei.
  - change (len (bs "; ")) with 2 in H.
    rewrite (put_byte_fits _ _ (ch ";")) by lia. rewrite put_byte_fits by (rewrite len_app; change (len [ch ";"]) with 1; lia).
    rewrite <- app_assoc. change ([ch ";"] ++ [ch " "]) with (bs "; ").
    rewrite (put_copy_fits _ _ n) by (rewrite len_app; change (len (bs "; ")) with 2; lia).
    rewrite put_byte_fits by (rewrite !len_app; change (len (bs "; ")) with 2; lia).
    rewrite (put_copy_fits _ _ v) by (rewrite !len_app; change (len (bs "; ")) with 2; change (len [ch "="]) with 1; lia).
    rewrite IH by (rewrite !len_app; change (len (bs "; ")) with 2; change (len [ch "="]) with 1; lia).
    by rewrite <- !app_assoc.
  - change (len (A := byte) []) with 0 in H.
    rewrite (put_copy_fits _ _ n) by lia. rewrite put_byte_fits by (rewrite len_app; lia).
    rewrite (put_copy_fits _ _ v) by (rewrite !len_app; change (len [ch "="]) with 1; lia).
    rewrite IH by (rewrite !len_app; change (len [ch "="]) with 1; lia).
    by rewrite <- !app_assoc.
Qed.

Lemma fill_text_len (l : list bytes) : forall i vals, length vals = length l ->
  len (fill_text (S i) l vals) =
  foldr (fun '(listed, v) n => len (A := byte) listed + 1 + len (A := byte) v + 2 + n) 0 (zip l vals).
Proof.
  induction l as [|n l IH]; intros i [|v vals] H; try done. cbn [fill_text zip zip_with foldr].
  simpl in H. rewrite !len_app, (IH (S i) vals) by lia. unfold value_text. rewrite len_app, len_cons.
  change (len (bs "; ")) with 2. cbn [Nat.ltb Nat.leb]. change (len (bs "; ")) with 2. lia.
Qed.

Lemma fill_text_join (l : list bytes) (vals : list bytes) :
  fill_text 0 l vals = join (bs "; ") (zip_with value_text l vals).
Proof.
  assert (forall l vals i, fill_text (S i) l vals = concat (map (fun w => bs "; " ++ w) (zip_with value_text l vals))) as H.
  { clear. induction l as [|n l IH]; intros [|v vals] i; try done. cbn [fill_text zip_with map concat].
    rewrite IH. by rewrite <- app_assoc. }
  destruct l as [|n l]; [done|]. destruct vals as [|v vals]; [done|].
  cbn [zip_with]. rewrite join_concat. cbn [fill_text]. by rewrite H.
Qed.

(** The fill never indexes out of range and leaves no byte unwritten. *)
Lemma cookie_values_fill_spec (l : list bytes) (v : bytes) : fold_distinct l -> l <> [] ->
  cookie_values_fill l v = Some (join (bs "; ") (map (fun n => value_text n (last_value (cookie_pairs v) n)) l)).
Proof.
  intros Hd Hl. unfold cookie_values_fill. rewrite values_fold by done. cbn zeta.
  set (vals := map _ l). assert (length vals = length l) as Hv by apply length_map.
  assert (values_total l vals = len (fill_text 0 l vals)) as Ht.
  { unfold values_total. destruct l as [|n l]; [done|]. destruct vals as [|w vals]; [done|]. simpl in Hv.
    cbn [zip zip_with foldr]. rewrite <- (fill_text_len l 0 vals) by lia. cbn [fill_text Nat.ltb Nat.leb app].
    unfold value_text. rewrite !len_app, len_cons. lia. }
  rewrite Ht, fill_values_text by (change (len (A := byte) []) with 0; lia). cbn [app].
  rewrite Z.sub_diag. simpl. rewrite app_nil_r, fill_text_join. f_equal. f_equal.
  subst vals. clear. induction l as [|n l IH]; [done|]. simpl. by rewrite IH.
Qed.

(** ** The normalized name list *)

Lemma normalize_fold (to_lower : bytes -> bytes) (ns : list bytes) : forall acc, NoDup acc ->
  NoDup (foldl (normalize_step to_lower) acc ns) /\
  (forall n, n ∈ foldl (normalize_step to_lower) acc ns <->
     n ∈ acc \/ (n <> [] /\ exists raw, raw ∈ ns /\ trim_space (to_lower raw) = n)).
Proof.
  induction ns as [|x ns IH]; intros acc Ha; simpl.
  - split; [done|]. intros n. split; [auto|]. intros [H|(_ & raw & H & _)]; [done|]. by apply not_elem_of_nil in H.
  - assert (NoDup (normalize_step to_lower acc x) /\
            (forall n, n ∈ normalize_step to_lower acc x <->
               n ∈ acc \/ (n <> [] /\ trim_space (to_lower x) = n))) as [Hn Hm].
    { unfold normalize_step. set (n := trim_space (to_lower x)).
      destruct (beq n [] || existsb (beq n) acc) eqn:E.
      - split; [done|]. intros m. split; [auto|]. intros [H|[H1 <-]]; [done|].
        apply orb_true_iff in E as [E|E]; [by apply beq_eq in E|].
        apply existsb_exists in E as (y & Hy & Ey). apply beq_eq in Ey as <-. by apply list_elem_of_In.
      - apply orb_false_iff in E as [E1 E2]. apply beq_neq in E1.
        assert (n ∉ acc) as Hni.
        { intros H. apply not_true_iff_false in E2. apply E2, existsb_exists. exists n.
          split; [by apply list_elem_of_In|by apply beq_eq]. }
        split.
        + apply NoDup_app. split; [done|]. split; [|apply NoDup_singleton].
          intros y Hy ->%list_elem_of_singleton. done.
        + intros m. rewrite elem_of_app, list_elem_of_singleton. split; [|naive_solver].
          intros [H| ->]; auto. }
    destruct (IH _ Hn) as [Hn' Hm']. split; [done|]. intros n. rewrite Hm', Hm. set_solver.
Qed.

Lemma normalize_spec (to_lower : bytes -> bytes) (ns : list bytes) :
  NoDup (normalizeCookieNameList to_lower ns) /\ sorted_by id (normalizeCookieNameList to_lower ns) /\
  (forall n, n ∈ normalizeCookieNameList to_lower ns <->
     n <> [] /\ exists raw, raw ∈ ns /\ trim_space (to_lower raw) = n).
Proof.
  destruct (normalize_fold to_lower ns [] (NoDup_nil_2)) as [Hn Hm].
  unfold normalizeCookieNameList, sort_strings. split; [by rewrite stable_sort_perm|].
  split; [apply stable_sort_sorted|]. intros n. rewrite stable_sort_perm, Hm.
  split; [intros [H|H]; [by apply not_elem_of_nil in H|done]|auto].
Qed.

(** ** Theorems *)

(** The configured names that can match: trimmed, and not blank. *)
Definition configured (raw : list bytes) : list bytes := List.filter nonempty (map trim_space raw).

Lemma carries_configured (to_lower : bytes -> bytes) (Hlaws : LowerLaws to_lower) (raw : list bytes) (v : bytes) :
  forallb is_ascii raw = true ->
  carries (names (newCookieNameScanner to_lower raw)) v = carries (configured raw) v.
Proof.
  intros Ha. destruct (scanner_ok_new to_lower raw) as [_ Hp]. unfold carries, configured.
  apply existsb_ext. intros nv. apply eq_true_iff_eq. rewrite !existsb_exists.
  assert (forall r, is_ascii r = true -> is_ascii (trim_space r) = true) as Ht.
  { intros r Hr. rewrite trim_space_ascii by done. unfold drop_while_end.
    rewrite is_ascii_rev. apply is_ascii_drop_while. rewrite is_ascii_rev. by apply is_ascii_drop_while. }
  assert (forall x, In x (names (newCookieNameScanner to_lower raw)) <->
            In x (map (map lower_byte) (List.filter nonempty (map trim_space raw)))) as Hin.
  { intros x. rewrite <- !list_elem_of_In, Hp, !list_elem_of_In. rewrite filter_In, !in_map_iff.
    rewrite forallb_forall in Ha. split.
    - intros ((r & <- & Hr) & Hne). exists (trim_space r).
      rewrite (lower_ascii (to_lower := to_lower)) in * by auto. split; [done|].
      rewrite filter_In, in_map_iff. split; [eauto|]. by destruct (trim_space r).
    - intros (y & <- & [(r & <- & Hr)%in_map_iff Hne]%filter_In). split.
      + exists r. rewrite (lower_ascii (to_lower := to_lower)) by auto. done.
      + by destruct (trim_space r). }
  assert (forall a b, asciiEqualFoldStrings a (map lower_byte b) = asciiEqualFoldStrings a b) as Hf.
  { intros a b. apply eq_true_iff_eq. rewrite !asciiEqualFold_spec, map_map.
    rewrite (map_ext (fun x => lower_byte (lower_byte x)) lower_byte); [done|]. by intros []. }
  split.
  - intros (x & Hx & E). apply Hin, in_map_iff in Hx as (y & <- & Hy). exists y. rewrite Hf in E. auto.
  - intros (y & Hy & E). exists (map lower_byte y). rewrite Hf. split; [|done].
    apply Hin, in_map_iff. eauto.
Qed.

(** The cookie bypass of a route with [bypass_on_cookie_names]: for ASCII
    names, a request takes it exactly when one of its Cookie field lines has a
    pair whose name token equals a configured name up to case, whatever the
    line, the position in it or the blanks around it (and never because of a
    value); with [bypass_on_cookie] exactly when some Cookie line is not
    empty. The check over a raw request and the one over fasthttp's lines
    agree. *)
Theorem cookie_bypass_exact (to_lower : bytes -> bytes) (Hlaws : LowerLaws to_lower)
  (raw : list bytes) (r : RawHeaders) (Ha : forallb is_ascii raw = true) :
  let s := newCookieNameScanner to_lower raw in
  let lines := raw_values r (bs "Cookie") in
  (cookieBypassTriggeredRaw false s r = true <->
     exists line n v name, line ∈ lines /\ (n, v) ∈ cookie_pairs line /\ name ∈ raw /\
       trim_space name <> [] /\ EqualFold n (trim_space name) = true) /\
  (cookieBypassTriggeredRaw true s r = true <-> exists line, line ∈ lines /\ line <> []) /\
  (forall flag, cookieBypassTriggered flag s lines = cookieBypassTriggeredRaw flag s r).
Proof.
  intros s lines. destruct (scanner_ok_new to_lower raw) as [Hok _]. fold s in Hok.
  assert (forall flag, cookieBypassTriggered flag s lines = cookieBypassTriggeredRaw flag s r) as Hsame.
  { intros flag. unfold cookieBypassTriggered, cookieBypassTriggeredRaw. by rewrite bypass_raw_spec. }
  split_and!; [| |exact Hsame].
  - assert (cookieBypassTriggeredRaw false s r = existsb (carries (configured raw)) lines) as ->.
    { unfold cookieBypassTriggeredRaw. rewrite bypass_raw_spec. cbn [negb andb orb].
      assert (forall line, hasCookieName s line = carries (configured raw) line) as Hc.
      { intros line. rewrite hasCookieName_spec by done. by apply carries_configured. }
      rewrite (existsb_ext _ (carries (configured raw))).
      - destruct (empty s) eqn:E; [|done]. symmetry. apply not_true_iff_false. fold lines.
        intros (x & _ & Hx)%existsb_exists. rewrite <- Hc in Hx. unfold hasCookieName in Hx. by rewrite E in Hx.
      - intros line. rewrite Hc. by destruct line. }
    rewrite existsb_exists. unfold carries, configured. split.
    + intros (line & Hl & ((n & v) & Hp & (m & Hm & E)%existsb_exists)%existsb_exists).
      apply filter_In in Hm as [(name & <- & Hname)%in_map_iff Hne].
      exists line, n, v, name. rewrite !list_elem_of_In. split_and!; try done.
      by apply negb_true_iff, beq_neq in Hne.
    + intros (line & n & v & name & Hl & Hp & Hname & Hne & E). rewrite list_elem_of_In in *.
      exists line. split; [done|]. apply existsb_exists. exists (n, v). split; [by apply list_elem_of_In|].
      apply existsb_exists. exists (trim_space name). split; [|done].
      apply filter_In. split; [by apply in_map; first [done|apply list_elem_of_In]|]. by apply negb_true_iff, beq_neq.
  - unfold cookieBypassTriggeredRaw. rewrite bypass_raw_spec. cbn [negb andb]. rewrite existsb_exists.
    split; intros (line & Hl & H); exists line; rewrite list_elem_of_In in *; (split; [done|]).
    + apply andb_true_iff in H as [H _]. by apply negb_true_iff, beq_neq in H.
    + cbn [orb]. rewrite andb_true_r. by apply negb_true_iff, beq_neq.
Qed.

(** The two cookie reductions of the variant key, over the Cookie lines of a
    request joined with ["; "]: the presence string has, for each listed name,
    the bit [1] exactly when some pair of some line has that name; the value
    string pairs each listed name with the value its last cookie gives (empty
    when there is none), and its buffer is filled exactly, with no store out
    of range. *)
Theorem cookie_reductions_exact (p : KeyPolicy) (lines : list bytes)
  (Hp : fold_distinct (cookiePresence p)) (Hv : fold_distinct (cookieValues p))
  (Hn : join (bs "; ") lines <> []) :
  let ps := concat (map cookie_pairs lines) in
  cookiePresenceValue (Some p) (join (bs "; ") lines) = map (presence_bit ps) (cookiePresence p) /\
  cookieValuesValue (Some p) (join (bs "; ") lines)
  = join (bs "; ") (map (fun n => value_text n (last_value ps n)) (cookieValues p)) /\
  (cookieValues p <> [] -> is_Some (cookie_values_fill (cookieValues p) (join (bs "; ") lines))).
Proof.
  intros ps. subst ps. rewrite <- cookie_pairs_join. apply beq_neq in Hn. split_and!.
  - unfold cookiePresenceValue. rewrite Hn, orb_false_r. cbn [hasCookiePresence].
    destruct (cookiePresence p) as [|n l] eqn:E; [done|]. rewrite <- E in *.
    assert (0 <? len (cookiePresence p) = true) as -> by (rewrite E; apply Z.ltb_lt; unfold len; simpl; lia).
    by apply presence_fold.
  - unfold cookieValuesValue. rewrite Hn, orb_false_r. cbn [hasCookieValues].
    destruct (cookieValues p) as [|n l] eqn:E; [done|]. rewrite <- E in *.
    assert (0 <? len (cookieValues p) = true) as -> by (rewrite E; apply Z.ltb_lt; unfold len; simpl; lia).
    cbn [negb]. rewrite cookie_values_fill_spec by (congruence || done). done.
  - intros Hne. rewrite cookie_values_fill_spec by done. eauto.
Qed.

(** ** Witnesses *)

Definition two_cookie_lines : RawHeaders :=
  [MkRawHeader (bs "Host") (bs "h"); MkRawHeader (bs "cookie") (bs "theme=session_id; a=1");
   MkRawHeader (bs "COOKIE") (bs "b=2;	Session_ID = x")].

Lemma cookie_bypass_exact_witness :
  cookieBypassTriggeredRaw false (newCookieNameScanner (map lower_byte) [bs " Session_id "; bs "zz"]) two_cookie_lines = true.
Proof.
  apply (proj2 (proj1 (cookie_bypass_exact (map lower_byte) lower_laws_ascii
                         [bs " Session_id "; bs "zz"] two_cookie_lines eq_refl))).
  exists (bs "b=2;	Session_ID = x"), (bs "Session_ID"), (bs "x"), (bs " Session_id ").
  rewrite !list_elem_of_In. vm_compute. intuition congruence.
Defined.

Definition cookie_policy : KeyPolicy :=
  {| KeyPolicy0 with cookiePresence := [bs "auth"; bs "cart"]; cookieValues := [bs "lang"; bs "tier"] |}.

Lemma cookie_reductions_exact_witness :
  cookiePresenceValue (Some cookie_policy) (bs "lang=fr; CART=; lang = en") = bs "01" /\
  cookieValuesValue (Some cookie_policy) (bs "lang=fr; CART=; lang = en") = bs "lang=en; tier=".
Proof.
  assert (fold_distinct [bs "auth"; bs "cart"] /\ fold_distinct [bs "lang"; bs "tier"]) as [H1 H2].
  { unfold fold_distinct. split; apply (bool_decide_eq_true_1 _); vm_compute; reflexivity. }
  pose proof (cookie_reductions_exact cookie_policy [bs "lang=fr; CART="; bs "lang = en"] H1 H2 ltac:(done)) as (E1 & E2 & _).
  split; [etransitivity; [exact E1|]|etransitivity; [exact E2|]]; vm_compute; reflexivity.
Defined.
