(* ===== verification/Negotiate.v ===== *)
(** * Accept-Encoding and Accept-Language buckets

    The value normalization of src/internal/cache/vary.go ([encodingBucket],
    [langBucket], [normalizeHeaderValue], [varyHeaderValue]) and key.go
    ([varyAssertionValue], [normaliseListHeader]). The theorems say that a
    bucket is the outcome of the negotiation, a function of the set of offers:
    the acceptable offer of greatest weight, ties going to the preferred
    coding or to the smallest tag, in whatever order the client lists them. *)

From Stdlib Require Import Floats.SpecFloat.
From S2P Require Import Prelude GoStd Keys GoFloat GoStrings RawReq.

(** [strings.Cut(s, "c")], without its third result *)
Definition cut (c : byte) (s : bytes) : bytes * bytes :=
  match cut_byte c s with Some kv => kv | None => (s, []) end.

(** ** Weights *)

Definition aeRank (coding : bytes) : option Z :=
  if beq coding (bs "br") then Some 3
  else if beq coding (bs "zstd") then Some 2
  else if beq coding (bs "gzip") then Some 1
  else None.

Fixpoint weight_loop (ps : list bytes) : option spec_float :=
  match ps with
  | [] => None
  | p :: ps' =>
      let p := trim_space p in
      if (len p <? 2) || negb (equal_fold (take 2 p) (bs "q=")) then weight_loop ps'
      else match ParseFloat (trim_space (drop 2 p)) with
           | Some q => if flt q f64_zero then None else Some q
           | None => None
           end
  end.
Definition parseAEWeight (params : bytes) : option spec_float := weight_loop (cut_pieces (ch ";") params).

(** The weight of an item: 1 when it is absent or cannot be read. *)
Definition item_weight (params : bytes) : spec_float :=
  if beq params [] then f64_one
  else match parseAEWeight params with Some q => q | None => f64_one end.

Section Lower.
Context (to_lower : bytes -> bytes).

(** ** Accept-Encoding *)

(** One item of [encodingBucket]'s loop, on [bestRank] and [bestQ]. *)
Definition ae_step (best : Z * spec_float) (item : bytes) : Z * spec_float :=
  let item := trim_space item in
  if beq item [] then best else
  let '(coding, params) := cut (ch ";") item in
  match aeRank (to_lower (trim_space coding)) with
  | None => best
  | Some rank =>
      let q := item_weight params in
      if fle q f64_zero then best
      else if fgt q best.2 || (feq q best.2 && (best.1 <? rank)) then (rank, q)
      else best
  end.

Definition bucket_name (rank : Z) : bytes :=
  if rank =? 3 then bs "br" else if rank =? 2 then bs "zstd" else if rank =? 1 then bs "gzip" else bs "identity".

Definition encodingBucket (v : bytes) : bytes :=
  bucket_name (foldl ae_step (-1, f64_minus_one) (cut_pieces (ch ",") (trim_space v))).1.

End Lower.

(** ** Accept-Language *)

Definition foldASCII (c : byte) : byte := if is_upper c then bZ (Zb c + 32) else c.

Fixpoint langTagLess (a b : bytes) : bool :=
  match a, b with
  | x :: a', y :: b' =>
      let ca := foldASCII x in let cb := foldASCII y in
      if negb (beqb ca cb) then Zb ca <? Zb cb else langTagLess a' b'
  | _, _ => len a <? len b
  end.

Definition isTagChar (c : byte) : bool := in_range "a" "z" c || in_range "A" "Z" c || in_range "0" "9" c.

(** [isLanguageTag]: the scan over [tag]; [seg] is the current segment. *)
Fixpoint tag_loop (seg : bytes) (segs : Z) (tag : bytes) : bool :=
  let seg_ok := negb ((len seg =? 0) || (8 <? len seg)) && forallb isTagChar seg in
  match tag with
  | [] => seg_ok && (1 <=? segs + 1) && (segs + 1 <=? 8)
  | c :: tag' =>
      if beqb c (ch "-") then seg_ok && tag_loop [] (segs + 1) tag'
      else tag_loop (seg ++ [c]) segs tag'
  end.
Definition isLanguageTag (tag : bytes) : bool :=
  if beq tag [] || beq tag (bs "*") then false else tag_loop [] 0 tag.

(** One item of [langBucket]'s loop, on [best] and [bestQ]. *)
Definition lang_step (st : bytes * spec_float) (item : bytes) : bytes * spec_float :=
  let '(best, bestQ) := st in
  let '(tag, params) := cut (ch ";") (trim_space item) in
  let tag := trim_space tag in
  if negb (isLanguageTag tag) then st else
  let q := item_weight params in
  if fle q f64_zero then st
  else if fgt q bestQ then (tag, q)
  else if feq q bestQ && equal_fold tag best then st
  else if feq q bestQ && langTagLess tag best then (tag, bestQ)
  else st.

Definition langBucket (v : bytes) : option bytes :=
  let '(best, _) := foldl lang_step ([], f64_minus_one) (cut_pieces (ch ",") (trim_space v)) in
  if beq best [] then None else Some best.

(** ** The value of a Vary field in the key *)

Section Values.
Context (to_lower : bytes -> bytes).

Definition normalizeHeaderValue (v : bytes) : bytes :=
  let v := trim_space v in
  if negb (contains_byte (ch ",") v) then to_lower v
  else join [ch ","] (sort_strings (map (fun p => trim_space (to_lower p)) (split_byte (ch ",") v))).

Definition verbatimEncoding (p : option KeyPolicy) : bool :=
  match p with Some p => verbatimAE p | None => false end.

Definition varyHeaderValue (field value : bytes) (policy : option KeyPolicy) : bytes :=
  if beq field (bs "accept-encoding") && negb (verbatimEncoding policy) then encodingBucket to_lower value
  else match (if beq field (bs "accept-language") then langBucket value else None) with
       | Some tag => to_lower tag
       | None => normalizeHeaderValue value
       end.

Definition isListValuedVaryField (f : bytes) : bool :=
  existsb (fun n => beq f (bs n)) ["accept-language"; "accept-encoding"; "accept"; "accept-charset"]%string.

Definition normaliseListHeader (v : bytes) : bytes :=
  if beq v [] || negb (contains_byte (ch ",") v) then trim_space v
  else join [ch ","] (sort_strings (map trim_space (split_byte (ch ",") v))).

Definition varyAssertionValue (field value : bytes) (policy : option KeyPolicy) : bytes :=
  if beq field (bs "accept-encoding") && negb (verbatimEncoding policy) then encodingBucket to_lower value
  else match (if beq field (bs "accept-language") then langBucket value else None) with
       | Some tag => to_lower tag
       | None => if isListValuedVaryField field then normaliseListHeader value else value
       end.

End Values.

(** ** What is offered

    The acceptable offers of a value: the rank of each coding the cache
    re-serves, or each well-formed tag, with its weight, those of weight zero
    (or not a number) left out. *)

Definition ae_offer (to_lower : bytes -> bytes) (item : bytes) : option (Z * spec_float) :=
  let '(coding, params) := cut (ch ";") (trim_space item) in
  match aeRank (to_lower (trim_space coding)) with
  | Some rank => if fpos (item_weight params) then Some (rank, item_weight params) else None
  | None => None
  end.
Definition ae_offers (to_lower : bytes -> bytes) (v : bytes) : list (Z * spec_float) :=
  omap (ae_offer to_lower) (split_byte (ch ",") (trim_space v)).

Definition lang_offer (item : bytes) : option (bytes * spec_float) :=
  let '(tag, params) := cut (ch ";") (trim_space item) in
  let tag := trim_space tag in
  if isLanguageTag tag && fpos (item_weight params) then Some (tag, item_weight params) else None.
Definition lang_offers (v : bytes) : list (bytes * spec_float) :=
  omap lang_offer (split_byte (ch ",") (trim_space v)).

(** [a] beats [b], or ties with it. *)
Definition ae_best (a b : Z * spec_float) : Prop :=
  fgt a.2 b.2 = true \/ (a.2 = b.2 /\ b.1 <= a.1).
Definition lang_best (a b : bytes * spec_float) : Prop :=
  fgt a.2 b.2 = true \/
  (a.2 = b.2 /\ bytes_leb (map lower_byte a.1) (map lower_byte b.1) = true).

(** ** Choosing the best offer

    Both loops keep the best offer so far. *)

Lemma omap_app_nil {A B} (f : A -> option B) (x : A) (l : list A) : f x = None -> omap f (l ++ [x]) = omap f l.
Proof. intros H. rewrite omap_app. simpl. rewrite H. apply app_nil_r. Qed.

(** Offers come from the parts of [strings.Split] or from the pieces of the
    loop: they differ by an empty part, which offers nothing. *)
Lemma omap_pieces {B} (f : bytes -> option B) (c : byte) (s : bytes) : f [] = None ->
  omap f (split_byte c s) = omap f (cut_pieces c s).
Proof. intros H. destruct (cut_pieces_split c s) as [->| ->]; [done|]. by apply omap_app_nil. Qed.

Lemma foldl_omap {A B S} (step : S -> A -> S) (pick : S -> B -> S) (f : A -> option B) (l : list A) :
  (forall st x, step st x = match f x with Some o => pick st o | None => st end) ->
  forall st, foldl step st l = foldl pick st (omap f l).
Proof.
  intros H. induction l as [|x l IH]; intros st; simpl; [done|]. rewrite H. by destruct (f x); simpl; rewrite IH.
Qed.

Lemma Forall_omap {A B} (P : B -> Prop) (f : A -> option B) (l : list A) :
  (forall x y, f x = Some y -> P y) -> Forall P (omap f l).
Proof.
  intros H. induction l as [|x l IH]; simpl; [constructor|]. destruct (f x) eqn:E; [|done]. constructor; eauto.
Qed.

Section Best.
Context {T : Type} (ok : T -> Prop) (better : T -> T -> Prop) (pick : T -> T -> T).
Hypothesis better_refl : forall a, ok a -> better a a.
Hypothesis better_trans : forall a b c, ok a -> ok b -> ok c -> better a b -> better b c -> better a c.
Hypothesis pick_best : forall a b, ok a -> ok b ->
  (pick a b = a \/ pick a b = b) /\ better (pick a b) a /\ better (pick a b) b.

Lemma foldl_best (l : list T) : forall b, ok b -> Forall ok l ->
  foldl pick b l ∈ b :: l /\ (forall x, x ∈ b :: l -> better (foldl pick b l) x).
Proof.
  induction l as [|x l IH]; intros b Hb Hl; simpl.
  - split; [by left|]. intros y ->%list_elem_of_singleton. by apply better_refl.
  - apply Forall_cons in Hl as [Hx Hl]. destruct (pick_best b x Hb Hx) as (Hin & H1 & H2).
    assert (ok (pick b x)) as Hp by (destruct Hin as [->| ->]; done).
    destruct (IH (pick b x) Hp Hl) as [Hm Ha]. split.
    + apply elem_of_cons in Hm as [->|Hm]; [|by do 2 right].
      destruct Hin as [->| ->]; [by left|by right; left].
    + assert (ok (foldl pick (pick b x) l)) as Hr.
      { apply elem_of_cons in Hm as [->|Hm]; [done|]. rewrite Forall_forall in Hl. by apply Hl. }
      assert (better (foldl pick (pick b x) l) (pick b x)) as Hbest by (apply Ha; by left).
      intros y [->|[->|Hy]%elem_of_cons]%elem_of_cons.
      * by apply (better_trans _ (pick b x)).
      * by apply (better_trans _ (pick b x)).
      * apply Ha. by right.
Qed.

End Best.

(** *** Codings *)

Definition ae_ok (o : Z * spec_float) : Prop := fpos o.2 = true /\ 1 <= o.1 <= 3.
Definition ae_pick (best o : Z * spec_float) : Z * spec_float :=
  if fgt o.2 best.2 || (feq o.2 best.2 && (best.1 <? o.1)) then o else best.

Lemma aeRank_range (c : bytes) (r : Z) : aeRank c = Some r -> 1 <= r <= 3.
Proof. unfold aeRank. repeat case_match; intros [= <-]; lia. Qed.

Lemma ae_best_trans (a b c : Z * spec_float) : ae_ok a -> ae_ok b -> ae_ok c ->
  ae_best a b -> ae_best b c -> ae_best a c.
Proof.
  unfold ae_best. intros [Ha _] [Hb _] [Hc _] [H1|[H1 H1']] [H2|[H2 H2']].
  - left. by apply (fgt_trans a.2 b.2 c.2).
  - left. by rewrite <- H2.
  - left. by rewrite H1.
  - right. split; [congruence|lia].
Qed.

Lemma ae_pick_best (a b : Z * spec_float) : ae_ok a -> ae_ok b ->
  (ae_pick a b = a \/ ae_pick a b = b) /\ ae_best (ae_pick a b) a /\ ae_best (ae_pick a b) b.
Proof.
  intros [Ha _] [Hb _]. unfold ae_pick, ae_best.
  destruct (fgt b.2 a.2) eqn:E1; cbn [orb]; [auto 10 with lia|].
  destruct (feq b.2 a.2) eqn:E2; cbn [andb].
  - apply feq_pos in E2; [|done..]. destruct (Z.ltb_spec a.1 b.1); auto 10 with lia.
  - auto 10 using fgt_total with lia.
Qed.

Lemma ae_step_pick (to_lower : bytes -> bytes) (Hlaws : LowerLaws to_lower) (st : Z * spec_float) (item : bytes) :
  ae_step to_lower st item = match ae_offer to_lower item with Some o => ae_pick st o | None => st end.
Proof.
  unfold ae_step, ae_offer. destruct (beq (trim_space item) []) eqn:E.
  - apply beq_eq in E. rewrite E. simpl. rewrite (lower_ascii (to_lower := to_lower)) by done. done.
  - destruct (cut (ch ";") (trim_space item)) as [coding params].
    destruct (aeRank (to_lower (trim_space coding))) as [rank|]; [|done].
    destruct (fpos (item_weight params)) eqn:Ep; [by rewrite (fpos_fle _ Ep)|].
    destruct (fle (item_weight params) f64_zero) eqn:El; [done|].
    rewrite (fle_zero_nan _ El Ep). destruct (nan_compares st.2) as [-> ->]. done.
Qed.

Lemma ae_offers_ok (to_lower : bytes -> bytes) (v : bytes) : Forall ae_ok (ae_offers to_lower v).
Proof.
  apply Forall_omap. intros x o. unfold ae_offer. destruct (cut _ _) as [coding params].
  destruct (aeRank _) eqn:E; [|done]. destruct (fpos _) eqn:Ep; [|done]. intros [= <-].
  split; [done|]. by apply aeRank_range in E.
Qed.

(** The bucket is the best acceptable offer, or identity when there is none. *)
Lemma encodingBucket_best (to_lower : bytes -> bytes) (Hlaws : LowerLaws to_lower) (v : bytes) :
  (ae_offers to_lower v = [] /\ encodingBucket to_lower v = bs "identity") \/
  exists o, o ∈ ae_offers to_lower v /\ encodingBucket to_lower v = bucket_name o.1 /\
    forall o', o' ∈ ae_offers to_lower v -> ae_best o o'.
Proof.
  assert (ae_offer to_lower [] = None) as H0.
  { unfold ae_offer. simpl. by rewrite (lower_ascii (to_lower := to_lower)). }
  unfold encodingBucket. rewrite (foldl_omap _ ae_pick (ae_offer to_lower)) by (by apply ae_step_pick).
  rewrite <- omap_pieces by done. change (omap _ _) with (ae_offers to_lower v).
  pose proof (ae_offers_ok to_lower v) as Hok. destruct (ae_offers to_lower v) as [|o l]; [by left|]. right.
  apply Forall_cons in Hok as [Ho Hl]. cbn [foldl].
  assert (ae_pick (-1, f64_minus_one) o = o) as ->.
  { unfold ae_pick. cbn [fst snd]. by rewrite (fgt_minus_one _ (proj1 Ho)). }
  destruct (foldl_best ae_ok ae_best ae_pick) with (l := l) (b := o) as [Hm Ha]; try done.
  - intros a Ha. right. auto with lia.
  - apply ae_best_trans.
  - apply ae_pick_best.
  - eauto.
Qed.

(** *** Tags *)

Definition lang_ok (o : bytes * spec_float) : Prop := fpos o.2 = true /\ o.1 <> [].
Definition lang_pick (best o : bytes * spec_float) : bytes * spec_float :=
  if fgt o.2 best.2 then o
  else if feq o.2 best.2 && equal_fold o.1 best.1 then best
  else if feq o.2 best.2 && langTagLess o.1 best.1 then (o.1, best.2)
  else best.

Lemma langTagLess_cmp (a b : bytes) :
  langTagLess a b = match bytes_cmp (map lower_byte a) (map lower_byte b) with Lt => true | _ => false end.
Proof.
  revert b. induction a as [|x a IH]; intros [|y b]; try done.
  cbn [langTagLess map bytes_cmp]. change foldASCII with lower_byte.
  rewrite IH, beqb_Zb. destruct (Z.compare_spec (Zb (lower_byte x)) (Zb (lower_byte y))) as [E|E|E].
  - by rewrite E, Z.eqb_refl.
  - rewrite (proj2 (Z.eqb_neq _ _)) by lia. by apply Z.ltb_lt.
  - rewrite (proj2 (Z.eqb_neq _ _)) by lia. apply Z.ltb_ge. lia.
Qed.

Lemma langTagLess_leb (a b : bytes) : langTagLess a b = negb (bytes_leb (map lower_byte b) (map lower_byte a)).
Proof.
  rewrite langTagLess_cmp. unfold bytes_leb. rewrite (bytes_cmp_antisym (map lower_byte a)).
  by destruct (bytes_cmp (map lower_byte a) (map lower_byte b)).
Qed.

Lemma lang_best_trans (a b c : bytes * spec_float) : lang_ok a -> lang_ok b -> lang_ok c ->
  lang_best a b -> lang_best b c -> lang_best a c.
Proof.
  unfold lang_best. intros [Ha _] [Hb _] [Hc _] [H1|[H1 H1']] [H2|[H2 H2']].
  - left. by apply (fgt_trans a.2 b.2 c.2).
  - left. by rewrite <- H2.
  - left. by rewrite H1.
  - right. split; [congruence|]. by apply (bytes_leb_trans _ (map lower_byte b.1)).
Qed.

Lemma lang_pick_best (a b : bytes * spec_float) : lang_ok a -> lang_ok b ->
  (lang_pick a b = a \/ lang_pick a b = b) /\ lang_best (lang_pick a b) a /\ lang_best (lang_pick a b) b.
Proof.
  intros [Ha _] [Hb _]. unfold lang_pick, lang_best.
  pose proof (bytes_leb_refl (map lower_byte a.1)). pose proof (bytes_leb_refl (map lower_byte b.1)).
  destruct (fgt b.2 a.2) eqn:E1; [auto 10|].
  destruct (feq b.2 a.2) eqn:E2; cbn [andb].
  - apply feq_pos in E2; [|done..]. destruct (equal_fold b.1 a.1) eqn:E3.
    + apply beq_eq in E3. rewrite E3. auto 10.
    + rewrite langTagLess_leb. destruct (bytes_leb (map lower_byte a.1) (map lower_byte b.1)) eqn:E4; cbn [negb].
      * auto 10.
      * rewrite <- E2, <- surjective_pairing. apply bytes_leb_total in E4. auto 10.
  - auto 10 using fgt_total.
Qed.

Lemma lang_step_pick (st : bytes * spec_float) (item : bytes) :
  lang_step st item = match lang_offer item with Some o => lang_pick st o | None => st end.
Proof.
  unfold lang_step, lang_offer. destruct st as [best bestQ].
  destruct (cut (ch ";") (trim_space item)) as [tag params].
  destruct (isLanguageTag (trim_space tag)); cbn [negb andb]; [|done].
  destruct (fpos (item_weight params)) eqn:Ep; [by rewrite (fpos_fle _ Ep)|].
  destruct (fle (item_weight params) f64_zero) eqn:El; [done|].
  rewrite (fle_zero_nan _ El Ep). by destruct (nan_compares bestQ) as [-> ->].
Qed.

Lemma lang_offers_ok (v : bytes) : Forall lang_ok (lang_offers v).
Proof.
  apply Forall_omap. intros x o. unfold lang_offer. destruct (cut _ _) as [tag params].
  destruct (isLanguageTag (trim_space tag)) eqn:E; [|done]. destruct (fpos _) eqn:Ep; [|done]. intros [= <-].
  split; [done|]. simpl. intros H. by rewrite H in E.
Qed.

Lemma langBucket_best (v : bytes) :
  (lang_offers v = [] /\ langBucket v = None) \/
  exists o, o ∈ lang_offers v /\ langBucket v = Some o.1 /\
    forall o', o' ∈ lang_offers v -> lang_best o o'.
Proof.
  unfold langBucket. rewrite (foldl_omap _ lang_pick lang_offer) by (by apply lang_step_pick).
  rewrite <- omap_pieces by done. change (omap _ _) with (lang_offers v).
  pose proof (lang_offers_ok v) as Hok. destruct (lang_offers v) as [|o l]; [by left|]. right.
  apply Forall_cons in Hok as [Ho Hl]. cbn [foldl].
  assert (lang_pick ([], f64_minus_one) o = o) as ->.
  { unfold lang_pick. cbn [fst snd]. by rewrite (fgt_minus_one _ (proj1 Ho)). }
  destruct (foldl_best lang_ok lang_best lang_pick) with (l := l) (b := o) as [Hm Ha]; try done.
  - intros a Ha. right. auto using bytes_leb_refl.
  - apply lang_best_trans.
  - apply lang_pick_best.
  - assert (lang_ok (foldl lang_pick o l)) as [_ Hne].
    { apply elem_of_cons in Hm as [->|Hm]; [done|]. rewrite Forall_forall in Hl. by apply Hl. }
    destruct (foldl lang_pick o l) as [best q] eqn:E. cbn in Hne. exists (best, q).
    rewrite (proj2 (beq_neq best [])) by done. auto.
Qed.

(** ** Theorems *)

Lemma best_offer_unique (a b : Z * spec_float) : ae_ok a -> ae_ok b -> ae_best a b -> ae_best b a -> a.1 = b.1.
Proof.
  unfold ae_best. intros [Ha _] [Hb _] [H1|[H1 H1']] [H2|[H2 H2']]; try lia.
  - by rewrite (fgt_asym _ _ Ha Hb H1) in H2.
  - by rewrite H2, fgt_irrefl in H1.
  - by rewrite H1, fgt_irrefl in H2.
Qed.

Lemma best_tag_unique (a b : bytes * spec_float) : lang_ok a -> lang_ok b -> lang_best a b -> lang_best b a ->
  map lower_byte a.1 = map lower_byte b.1.
Proof.
  unfold lang_best. intros [Ha _] [Hb _] [H1|[H1 H1']] [H2|[H2 H2']].
  - by rewrite (fgt_asym _ _ Ha Hb H1) in H2.
  - by rewrite H2, fgt_irrefl in H1.
  - by rewrite H1, fgt_irrefl in H2.
  - by apply bytes_leb_antisym.
Qed.

(** The Accept-Encoding bucket is the outcome of the negotiation: [identity]
    when no coding the cache re-serves is acceptable, else the name of an
    acceptable offer of greatest weight, [br] before [zstd] before [gzip] at
    equal weight. It depends only on the set of offers: two values that offer
    the same codings at the same weights, in any order and spelling, share
    their bucket. *)
Theorem encoding_bucket_negotiated (to_lower : bytes -> bytes) (Hlaws : LowerLaws to_lower) (v : bytes) :
  (encodingBucket to_lower v = bs "identity" <-> ae_offers to_lower v = []) /\
  (forall o, o ∈ ae_offers to_lower v -> exists w, w ∈ ae_offers to_lower v /\
     encodingBucket to_lower v = bucket_name w.1 /\ ae_best w o) /\
  (forall v', (forall o, o ∈ ae_offers to_lower v <-> o ∈ ae_offers to_lower v') ->
     encodingBucket to_lower v = encodingBucket to_lower v').
Proof.
  assert (forall o, o ∈ ae_offers to_lower v -> bucket_name o.1 <> bs "identity") as Hid.
  { intros o Ho. pose proof (ae_offers_ok to_lower v) as Hok. rewrite Forall_forall in Hok.
    apply Hok in Ho as [_ Hr]. assert (o.1 = 1 \/ o.1 = 2 \/ o.1 = 3) as [->|[->| ->]] by lia; done. }
  destruct (encodingBucket_best to_lower Hlaws v) as [[E Eb]|(w & Hw & Eb & Hbest)].
  - split_and!.
    + by rewrite E, Eb.
    + intros o. rewrite E. by intros ?%not_elem_of_nil.
    + intros v' Hv. destruct (encodingBucket_best to_lower Hlaws v') as [[_ ->]|(w' & Hw' & _)]; [done|].
      apply Hv in Hw'. rewrite E in Hw'. by apply not_elem_of_nil in Hw'.
  - split_and!.
    + rewrite Eb. split; [by intros ?%(Hid w Hw)|]. intros E. rewrite E in Hw. by apply not_elem_of_nil in Hw.
    + eauto.
    + intros v' Hv. destruct (encodingBucket_best to_lower Hlaws v') as [[E _]|(w' & Hw' & -> & Hbest')].
      { apply Hv in Hw. rewrite E in Hw. by apply not_elem_of_nil in Hw. }
      rewrite Eb. f_equal. pose proof (ae_offers_ok to_lower v) as Hok. rewrite Forall_forall in Hok.
      apply best_offer_unique; [by apply Hok|by apply Hok, Hv|by apply Hbest, Hv|by apply Hbest', Hv].
Qed.

(** The Accept-Language bucket is the outcome of the negotiation: none when no
    well-formed tag is acceptable, else an acceptable tag of greatest weight,
    the smallest one up to case at equal weight. Up to case it depends only on
    the set of offers, so every spelling of a list selects one variant. *)
Theorem lang_bucket_negotiated (v : bytes) :
  (langBucket v = None <-> lang_offers v = []) /\
  (forall o, o ∈ lang_offers v -> exists w, w ∈ lang_offers v /\ langBucket v = Some w.1 /\ lang_best w o) /\
  (forall v', (forall o, o ∈ lang_offers v <-> o ∈ lang_offers v') ->
     map lower_byte <$> langBucket v = map lower_byte <$> langBucket v').
Proof.
  destruct (langBucket_best v) as [[E Eb]|(w & Hw & Eb & Hbest)].
  - split_and!.
    + by rewrite E, Eb.
    + intros o. rewrite E. by intros ?%not_elem_of_nil.
    + intros v' Hv. destruct (langBucket_best v') as [[_ ->]|(w' & Hw' & _)]; [by rewrite Eb|].
      apply Hv in Hw'. rewrite E in Hw'. by apply not_elem_of_nil in Hw'.
  - split_and!.
    + rewrite Eb. split; [done|]. intros E. rewrite E in Hw. by apply not_elem_of_nil in Hw.
    + eauto.
    + intros v' Hv. destruct (langBucket_best v') as [[E _]|(w' & Hw' & -> & Hbest')].
      { apply Hv in Hw. rewrite E in Hw. by apply not_elem_of_nil in Hw. }
      rewrite Eb. simpl. f_equal. pose proof (lang_offers_ok v) as Hok. rewrite Forall_forall in Hok.
      apply best_tag_unique; [by apply Hok|by apply Hok, Hv|by apply Hbest, Hv|by apply Hbest', Hv].
Qed.

(** ** Edge inputs *)

(** Examples of the source's comments. *)
Example buckets_of_comments :
  encodingBucket (map lower_byte) (bs "gzip, deflate, br") = bs "br" /\
  encodingBucket (map lower_byte) (bs "br, gzip") = bs "br" /\
  encodingBucket (map lower_byte) (bs "gzip;q=0, deflate") = bs "identity" /\
  langBucket (bs "fr-FR,fr;q=0.9,en;q=0.8") = Some (bs "fr-FR") /\
  langBucket (bs "*;q=0.5") = None.
Proof. vm_compute. auto. Qed.

(** A malformed or negative weight counts as 1, and outranks a real one. *)
Lemma malformed_weight_is_one :
  encodingBucket (map lower_byte) (bs "gzip;q=0.9, br;q=0.1x") = bs "br" /\
  encodingBucket (map lower_byte) (bs "gzip;q=0.9, br;q=-1") = bs "br".
Proof. vm_compute. auto. Qed.

(** Weights outside the grammar of RFC 9110: an infinite one wins over 1, and
    NaN removes its coding. *)
Lemma non_finite_weights :
  encodingBucket (map lower_byte) (bs "gzip;q=inf, br") = bs "gzip" /\
  encodingBucket (map lower_byte) (bs "gzip;q=0.1, br;q=nan") = bs "gzip".
Proof. vm_compute. auto. Qed.

(** A primary subtag of one character is accepted. *)
Lemma short_primary_tag : isLanguageTag (bs "x") = true /\ isLanguageTag (bs "e-US") = true.
Proof. vm_compute. auto. Qed.

Lemma encoding_bucket_negotiated_witness :
  encodingBucket (map lower_byte) (bs "gzip, deflate, br") = encodingBucket (map lower_byte) (bs "br;q=1.0,GZIP;q=1").
Proof.
  apply (proj2 (proj2 (encoding_bucket_negotiated (map lower_byte) lower_laws_ascii (bs "gzip, deflate, br")))).
  intros o. assert (ae_offers (map lower_byte) (bs "gzip, deflate, br") = [(1, f64_one); (3, f64_one)]) as -> by (vm_compute; reflexivity).
  assert (ae_offers (map lower_byte) (bs "br;q=1.0,GZIP;q=1") = [(3, f64_one); (1, f64_one)]) as -> by (vm_compute; reflexivity).
  rewrite !elem_of_cons. tauto.
Defined.
