(* ===== verification/Vary.v ===== *)
(** * Vary keys

    The variant key of src/internal/cache/vary.go, the stored assertion hash
    of key.go ([BuildVaryKey], [varyKeyMatches]), the policy side of
    keypolicy.go ([NewKeyPolicy], [computeDerivedVary]), [effectiveVary] and
    [joinedVary] of stream.go, the flight key of collapse.go and the drift
    test of varydrift.go. Every construction of a key is proved equal to one
    reference string, hashed, so that the fast path, the slow path, the
    overflow fallbacks, the peer gate and the request collapsing agree on
    which stored variant a request selects. *)

From S2P Require Import Prelude GoStd CacheControl HeaderMap GoStrings RawReq Api Engine Cacheable Keys Cookies Negotiate.

(** ** The policy (keypolicy.go) *)

Definition cookiePresenceField : bytes := bs "x-bouine-cookie-presence".
Definition cookieValuesField : bytes := bs "x-bouine-cookie-values".

Definition QuerySummary (p : option KeyPolicy) : bytes :=
  match p with
  | None => bs "all"
  | Some p =>
      let count m := match m with Some g => Z.of_nat (size (g : gmap bytes bool)) | None => 0 end in
      let part (name : bytes) (n : Z) := if 0 <? n then [name ++ itoa n] else [] in
      let parts :=
        part (bs "allow:") (count (keepParams p)) ++ part (bs "strip:") (count (stripParams p))
        ++ part (bs "strip-prefix:") (len (stripPrefixes p))
        ++ (if stripEmpty p then [bs "strip-empty"] else []) ++ (if dedup p then [bs "dedup"] else []) in
      match parts with [] => bs "all" | _ => join [ch ","] parts end
  end.

Definition CookiePresenceVary (p : option KeyPolicy) : bytes :=
  match p with
  | Some p => if len (cookiePresence p) =? 0 then [] else cookiePresenceField
  | None => []
  end.
Definition CookieValuesVary (p : option KeyPolicy) : bytes :=
  match p with
  | Some p => if len (cookieValues p) =? 0 then [] else cookieValuesField
  | None => []
  end.

Definition HasQueryPolicy (p : option KeyPolicy) : bool :=
  match p with
  | None => false
  | Some p =>
      bool_decide (is_Some (stripParams p)) || bool_decide (is_Some (keepParams p)) ||
      (0 <? len (stripPrefixes p)) || stripEmpty p || dedup p
  end.

Definition ShouldExcludeHeader (p : option KeyPolicy) (h : bytes) : bool :=
  match p with Some p => map_get (excludeHeaders p) h | None => false end.

Definition hasIncludeHeaders (p : option KeyPolicy) : bool :=
  match p with Some p => 0 <? len (includeHeaders p) | None => false end.
Definition hasFlightDimensions (p : option KeyPolicy) : bool := hasIncludeHeaders p || hasCookieKeying p.
Definition flightVary (p : option KeyPolicy) : bytes := match p with Some p => derivedVary p | None => [] end.

(** The in-place removal of equal neighbours of a sorted slice; the slice is
    read before it is overwritten, so the comparison is with the neighbour. *)
Fixpoint uniq_loop (prev : option bytes) (l : list bytes) : list bytes :=
  match l with
  | [] => []
  | f :: l' =>
      if match prev with None => true | Some q => negb (beq f q) end then f :: uniq_loop (Some f) l'
      else uniq_loop (Some f) l'
  end.

(** [fields], sorted, deduplicated and joined with [", "]. *)
Definition union_text (fields : list bytes) : bytes := join (bs ", ") (uniq_loop None (sort_strings fields)).

Definition synthetic_fields (p : option KeyPolicy) : list bytes :=
  (if hasCookiePresence p then [cookiePresenceField] else []) ++
  (if hasCookieValues p then [cookieValuesField] else []).

Definition computeDerivedVary (p : KeyPolicy) : KeyPolicy :=
  {| p with derivedVary := union_text (includeHeaders p ++ synthetic_fields (Some p)) |}.

Section Lower.
Context (to_lower : bytes -> bytes).

Definition NewKeyPolicy (stripParams keepParams excludeHeaders : option (gmap bytes bool))
    (stripPrefixes : list bytes) (stripEmpty dedup : bool) (includeHeaders : list bytes)
    (excludeHost : bool) : KeyPolicy :=
  let lowered := List.filter nonempty (map (fun h => trim_space (to_lower h)) includeHeaders) in
  let includes := match lowered with [] => [] | _ => sort_strings lowered end in
  computeDerivedVary
    {| KeyPolicy0 with
       stripParams := stripParams; keepParams := keepParams; stripPrefixes := stripPrefixes;
       stripEmpty := stripEmpty; dedup := dedup; excludeHeaders := excludeHeaders;
       includeHeaders := includes; includeJoined := join (bs ", ") includes; excludeHost := excludeHost |}.

Definition WithCookiePresence (p : option KeyPolicy) (ns : list bytes) : option KeyPolicy :=
  match p with
  | Some p => Some (computeDerivedVary {| p with cookiePresence := normalizeCookieNameList to_lower ns |})
  | None => None
  end.
Definition WithCookieValues (p : option KeyPolicy) (ns : list bytes) : option KeyPolicy :=
  match p with
  | Some p => Some (computeDerivedVary {| p with cookieValues := normalizeCookieNameList to_lower ns |})
  | None => None
  end.
Definition SetVerbatimAE (p : option KeyPolicy) (verbatim : bool) : option KeyPolicy :=
  match p with Some p => Some {| p with verbatimAE := verbatim |} | None => None end.

(** ** The Vary a response is stored under (stream.go) *)

Definition joinedVary (h : Map) : bytes := GetAll h Hdr.Vary.

Definition effectiveVary (h : Map) (policy : option KeyPolicy) : bytes :=
  let joined := joinedVary h in
  if negb (hasIncludeHeaders policy) && negb (hasCookieKeying policy) then joined
  else
    union_text
      ((if beq joined [] then [] else map (fun f => trim_space (to_lower f)) (split_byte (ch ",") joined))
       ++ match policy with Some p => includeHeaders p | None => [] end ++ synthetic_fields policy).

End Lower.

(** ** Where a request's headers are read (vary.go)

    fasthttp's request header is third-party: it is what its three accessors
    return. *)

Record FastHeader : Type := MkFastHeader {
  Peek : bytes -> bytes;
  PeekAll : bytes -> list bytes;
  All : list (bytes * bytes);
}.

Inductive varySource : Type :=
| mapVarySrc (m : Map)
| fastVarySrc (h : FastHeader)
| rawVarySrc (r : RawHeaders).

Definition headerFromFastHTTPReqHeader (h : FastHeader) : Map :=
  SortEntries (fold_left (fun hm '(k, v) => AppendEntryCanonical hm k v) (All h) NewMap).

Definition getValue (s : varySource) (key : bytes) : bytes :=
  match s with
  | mapVarySrc m => HeaderMap.Get m key
  | fastVarySrc h => Peek h key
  | rawVarySrc r => Header r key
  end.
Definition toMap (s : varySource) : Map :=
  match s with
  | mapVarySrc m => m
  | fastVarySrc h => headerFromFastHTTPReqHeader h
  | rawVarySrc r => reqHeaderMapFromRaw r
  end.

(** The join of [presenceCookieValue] over fasthttp's lines. *)
Fixpoint peek_join (first : bool) (b : bytes) (lines : list bytes) : bytes :=
  match lines with
  | [] => b
  | line :: lines' =>
      if len line =? 0 then peek_join first b lines'
      else peek_join false ((if first then b else b ++ bs "; ") ++ line) lines'
  end.

Definition presenceCookieValue (s : varySource) : bytes :=
  match s with
  | rawVarySrc r => CookieValue r
  | mapVarySrc m => CookieAll m
  | fastVarySrc h =>
      let lines := PeekAll h Hdr.Cookie in
      if 1 <? len lines then peek_join true [] lines else Peek h Hdr.Cookie
  end.

(** ** The variant key *)

Definition maxVaryFields : Z := 16.

Section Keys.
Context (to_lower : bytes -> bytes) (sum64 : bytes -> Z).

(** The [switch] that computes a field's value in the two variant-key paths. *)
Definition field_value (policy : option KeyPolicy) (get : bytes -> bytes) (cookies : bytes) (f : bytes) : bytes :=
  if beq f cookieValuesField && hasCookieValues policy then cookieValuesValue policy cookies
  else if beq f cookiePresenceField && hasCookiePresence policy then cookiePresenceValue policy cookies
  else varyHeaderValue to_lower f (get f) policy.

(** The digest [h] is the bytes written to it. *)
Fixpoint slow_loop (policy : option KeyPolicy) (m : Map) (h : bytes) (written : bool) (fields : list bytes)
    : bytes * bool :=
  match fields with
  | [] => (h, written)
  | f :: fields' =>
      if ShouldExcludeHeader policy f then slow_loop policy m h written fields'
      else slow_loop policy m
             (h ++ f ++ bs "=" ++ field_value policy (HeaderMap.Get m) (CookieAll m) f ++ bs ";") true fields'
  end.

Definition variantKeySlow (primary : Key) (vary : bytes) (m : Map) (policy : option KeyPolicy) : Key :=
  let fields := sort_strings (map trim_space (split_byte (ch ",") (to_lower vary))) in
  let '(h, written) := slow_loop policy m [] false fields in
  if negb written then primary else WithVary primary (sum64 h).

(** [buf[:off]] and [written]; [None] when a field does not fit the 256 bytes. *)
Fixpoint core_loop (policy : option KeyPolicy) (s : varySource) (buf : bytes) (written : bool) (fields : list bytes)
    : option (bytes * bool) :=
  match fields with
  | [] => Some (buf, written)
  | f :: fields' =>
      if ShouldExcludeHeader policy f then core_loop policy s buf written fields'
      else
        let val := field_value policy (getValue s) (presenceCookieValue s) f in
        let needed := len f + 1 + len val + 1 in
        if 256 <? len buf + needed then None
        else core_loop policy s (buf ++ f ++ [ch "="] ++ val ++ [ch ";"]) true fields'
  end.

Definition variantKeyCore (primary : Key) (vary : bytes) (s : varySource) (policy : option KeyPolicy) : Key :=
  if beq vary [] then primary
  else if varyContainsStar vary then primary
  else
    let fields := split_byte (ch ",") vary in
    if maxVaryFields <? len fields then variantKeySlow primary vary (toMap s) policy
    else
      let fields := insertion_sort bytes_gtb (map (fun f => to_lower (trim_space f)) fields) in
      match core_loop policy s [] false fields with
      | None => variantKeySlow primary vary (toMap s) policy
      | Some (buf, written) => if negb written then primary else WithVary primary (sum64 buf)
      end.

Definition VariantKey (primary : Key) (vary : bytes) (m : Map) (policy : option KeyPolicy) : Key :=
  variantKeyCore primary vary (mapVarySrc m) policy.
Definition VariantKeyFast (primary : Key) (vary : bytes) (h : FastHeader) (policy : option KeyPolicy) : Key :=
  variantKeyCore primary vary (fastVarySrc h) policy.
Definition VariantKeyFromRaw (primary : Key) (vary : bytes) (r : RawHeaders) (policy : option KeyPolicy) : Key :=
  variantKeyCore primary vary (rawVarySrc r) policy.

(** ** The stored assertion (key.go) *)

(** [strconv.FormatUint(h, 16)]: the digits, last one first; sixteen are
    enough for a [uint64]. *)
Fixpoint hex_rdigits (fuel : nat) (z : Z) : bytes :=
  match fuel with
  | O => []
  | S f => hex_digit (z mod 16) :: (if z / 16 =? 0 then [] else hex_rdigits f (z / 16))
  end.
Definition FormatUint16 (z : Z) : bytes := rev (hex_rdigits 16 z).

(** A header map, or a raw request read as the map [reqHeaderMapFromRaw]
    would build. *)
Inductive varyAssertSrc : Type := assertMap (m : Map) | assertRaw (r : RawHeaders).

Definition assert_getValue (s : varyAssertSrc) (field : bytes) : bytes :=
  match s with
  | assertMap m => HeaderMap.Get m field
  | assertRaw r => trim_right_ows (Header r field)
  end.
Definition assert_toMap (s : varyAssertSrc) : Map :=
  match s with assertMap m => m | assertRaw r => reqHeaderMapFromRaw r end.

(** The first pass of [cookieAll]: the first non-empty line and their count. *)
Fixpoint cookie_first_pass (single : bytes) (count : Z) (r : RawHeaders) : bytes * Z :=
  match r with
  | [] => (single, count)
  | h :: r' =>
      if negb (EqualFold (RawReq.Key h) Hdr.Cookie) then cookie_first_pass single count r'
      else let v := trim_right_ows (Value h) in
           if beq v [] then cookie_first_pass single count r'
           else cookie_first_pass (if count =? 0 then v else single) (count + 1) r'
  end.
Fixpoint cookie_second_pass (b : bytes) (r : RawHeaders) : bytes :=
  match r with
  | [] => b
  | h :: r' =>
      if negb (EqualFold (RawReq.Key h) Hdr.Cookie) then cookie_second_pass b r'
      else let v := trim_right_ows (Value h) in
           if beq v [] then cookie_second_pass b r'
           else cookie_second_pass ((if 0 <? len b then b ++ bs "; " else b) ++ v) r'
  end.
Definition assert_cookieAll (s : varyAssertSrc) : bytes :=
  match s with
  | assertMap m => CookieAll m
  | assertRaw r =>
      let '(single, count) := cookie_first_pass [] 0 r in
      if count <=? 1 then single else cookie_second_pass [] r
  end.

Definition isASCIISpaceByte (c : byte) : bool := existsb (fun s => beqb c s) [x20; x09; x0a; x0b; x0c; x0d].

Definition trimASCIISpace (s : bytes) : option bytes :=
  if existsb (fun c => 128 <=? Zb c) s then None
  else Some (drop_while_end isASCIISpaceByte (drop_while isASCIISpaceByte s)).

Definition assertion_value (policy : option KeyPolicy) (get : bytes -> bytes) (cookies : bytes) (f : bytes) : bytes :=
  if beq f cookieValuesField && hasCookieValues policy then cookieValuesValue policy cookies
  else if beq f cookiePresenceField && hasCookiePresence policy then cookiePresenceValue policy cookies
  else varyAssertionValue to_lower f (get f) policy.

(** The loop over the sorted raw fields: [buf[:off]]; an excluded field leaves
    [off] where it was. *)
Fixpoint assertion_loop (policy : option KeyPolicy) (s : varyAssertSrc) (buf : bytes) (fields : list bytes)
    : option bytes :=
  match fields with
  | [] => Some buf
  | f :: fields' =>
      match trimASCIISpace f with
      | None => None
      | Some raw =>
          if 256 <? len buf + len raw + 2 then None
          else
            let f := map lower_byte raw in
            if ShouldExcludeHeader policy f then assertion_loop policy s buf fields'
            else
              let val := assertion_value policy (assert_getValue s) (assert_cookieAll s) f in
              if 256 <? len buf + len raw + 1 + len val + 1 then None
              else assertion_loop policy s (buf ++ f ++ [ch "="] ++ val ++ [ch ";"]) fields'
      end
  end.

Definition varyAssertionHash (vary : bytes) (s : varyAssertSrc) (policy : option KeyPolicy) : option Z :=
  let fields := split_byte (ch ",") vary in
  if maxVaryFields <? len fields then None
  else match assertion_loop policy s [] (insertion_sort bytes_gtb fields) with
       | Some buf => Some (sum64 buf)
       | None => None
       end.

Fixpoint buildVaryKeyInto (policy : option KeyPolicy) (m : Map) (w : cursor) (fields : list bytes) : cursor :=
  match fields with
  | [] => w
  | f :: fields' =>
      let f := trim_space (to_lower f) in
      if ShouldExcludeHeader policy f then buildVaryKeyInto policy m w fields'
      else
        let w := appendByte (copyOverflow w f) (ch "=") in
        let val := assertion_value policy (HeaderMap.Get m) (CookieAll m) f in
        buildVaryKeyInto policy m (appendByte (copyOverflow w val) (ch ";")) fields'
  end.

Definition buildVaryKeySlow (vary : bytes) (m : Map) (policy : option KeyPolicy) : bytes :=
  let fields := sort_strings (split_byte (ch ",") vary) in
  let w := buildVaryKeyInto policy m (new_cursor 256) fields in
  if (cn w <=? 256)%nat then FormatUint16 (sum64 (take (cn w) (cbuf w)))
  else FormatUint16 (sum64 (cbuf (buildVaryKeyInto policy m (new_cursor (cn w)) fields))).

Definition BuildVaryKey (vary : bytes) (m : Map) (policy : option KeyPolicy) : bytes :=
  if beq vary [] || beq vary (bs "*") then vary
  else match varyAssertionHash vary (assertMap m) policy with
       | Some h => FormatUint16 h
       | None => buildVaryKeySlow vary m policy
       end.

Definition varyKeyMatches (vary : bytes) (s : varyAssertSrc) (policy : option KeyPolicy) (want : bytes) : bool :=
  if beq vary [] || beq vary (bs "*") then beq vary want
  else match varyAssertionHash vary s policy with
       | None => beq (buildVaryKeySlow vary (assert_toMap s) policy) want
       | Some h => beq (FormatUint16 h) want
       end.

(** [peerGateMatchesVary] of fastpath.go, on the peer object's [VaryValue] and
    [VaryKey]. *)
Definition peerGateMatchesVary (r : RawHeaders) (policy : option KeyPolicy) (VaryValue VaryKey : bytes) : bool :=
  if beq VaryValue [] then true else varyKeyMatches VaryValue (assertRaw r) policy VaryKey.

(** ** The flight key (collapse.go) *)

Definition flightHeaders (p : KeyPolicy) (reqHeader : Map) : Map :=
  let m := fold_left (fun m f => Set_ m f (HeaderMap.Get reqHeader f)) (includeHeaders p) NewMap in
  if hasCookieKeying (Some p) then Set_ m Hdr.Cookie (CookieAll reqHeader) else m.

(** [cached]: [obj != nil]. The zero key refuses to share the flight. *)
Definition collapseFlightKey (policy : option KeyPolicy) (primaryKey lookupKey : Key) (cached : bool) (reqHeader : Map) : Key :=
  if cached || negb (beq primaryKey lookupKey) then lookupKey
  else if negb (hasFlightDimensions policy) then zero_key
  else match policy with
       | Some p =>
           let vk := variantKeyCore primaryKey (flightVary policy) (mapVarySrc (flightHeaders p reqHeader)) policy in
           if beq vk primaryKey then primaryKey else vk
       | None => zero_key
       end.

(** ** Drift (varydrift.go) *)

Definition varyFieldSet (v : bytes) : list bytes := map (fun f => to_lower (trim_space f)) (split_byte (ch ",") v).

Fixpoint same_fields (fa fb : list bytes) : bool :=
  match fa, fb with
  | x :: fa', y :: fb' => if negb (beq x y) then false else same_fields fa' fb'
  | _, _ => true
  end.
Definition varyFieldsEqual (a b : bytes) : bool :=
  if beq a b then true
  else
    let fa := varyFieldSet a in
    let fb := varyFieldSet b in
    if negb (len fa =? len fb) then false else same_fields (sort_strings fa) (sort_strings fb).

Definition isDriftDeclarationSource (status : Z) : bool := (status =? 304) || ((200 <=? status) && (status <? 300)).

(** The test of [detectVaryDrift]: whether the primary key is purged.
    [stale] is the stored object's [VaryValue], [None] when there is none. *)
Definition detectVaryDrift (stale : option bytes) (statusCode : Z) (freshVary : bytes) : bool :=
  match stale with
  | None => false
  | Some v => negb (beq v [] || negb (isDriftDeclarationSource statusCode) || varyFieldsEqual v freshVary)
  end.

End Keys.

(** ** The reference key

    The nominated fields, lower-cased, trimmed, sorted and without the
    excluded ones, each with the value the policy gives it. *)

Definition vary_names (to_lower : bytes -> bytes) (vary : bytes) : list bytes :=
  sort_strings (map (fun f => to_lower (trim_space f)) (split_byte (ch ",") vary)).
Definition kept (policy : option KeyPolicy) (fields : list bytes) : list bytes :=
  List.filter (fun f => negb (ShouldExcludeHeader policy f)) fields.
Definition nominated (to_lower : bytes -> bytes) (vary : bytes) (policy : option KeyPolicy) : list bytes :=
  kept policy (vary_names to_lower vary).

Definition field_text (value : bytes -> bytes) (f : bytes) : bytes := f ++ bs "=" ++ value f ++ bs ";".
Definition fields_text (value : bytes -> bytes) (fields : list bytes) : bytes := concat (map (field_text value) fields).

(** The value a request's headers give to a field. *)
Definition map_value (to_lower : bytes -> bytes) (policy : option KeyPolicy) (m : Map) : bytes -> bytes :=
  field_value to_lower policy (HeaderMap.Get m) (CookieAll m).

Definition variant_spec (to_lower : bytes -> bytes) (sum64 : bytes -> Z)
    (primary : Key) (vary : bytes) (m : Map) (policy : option KeyPolicy) : Key :=
  if beq vary [] || varyContainsStar vary then primary
  else match nominated to_lower vary policy with
       | [] => primary
       | fields => WithVary primary (sum64 (fields_text (map_value to_lower policy m) fields))
       end.

(** ** Values depend on the trimmed header and on the cookie pairs *)

(** Two Cookie values with the same pairs; both or neither are empty. *)
Definition same_cookies (a b : bytes) : Prop := (a = [] <-> b = []) /\ cookie_pairs a = cookie_pairs b.

Lemma foldl_filter_map {A B S} (step : S -> A -> S) (step' : S -> B -> S) (f : A -> B) (p : B -> bool) (l : list A) :
  (forall st x, step st x = if p (f x) then step' st (f x) else st) ->
  forall st, foldl step st l = foldl step' st (List.filter p (map f l)).
Proof.
  intros H. induction l as [|x l IH]; intros st; simpl; [done|]. rewrite H, IH. by destruct (p (f x)).
Qed.

Lemma presence_pairs (l : list bytes) (bits v : bytes) :
  foldl (presence_step l) bits (split_byte (ch ";") v) =
  foldl (fun bits nv => match find_listed l nv.1 with Some i => <[i := ch "1"]> bits | None => bits end)
    bits (cookie_pairs v).
Proof.
  apply foldl_filter_map. intros st x. unfold presence_step. cbn zeta.
  rewrite trim_token_eq, <- cookie_pair_name. unfold nonempty. by destruct (beq _ _).
Qed.

Lemma values_pairs (l vals : list bytes) (v : bytes) :
  foldl (values_step l) vals (split_byte (ch ";") v) =
  foldl (fun vals nv => match find_listed l nv.1 with Some i => <[i := nv.2]> vals | None => vals end)
    vals (cookie_pairs v).
Proof.
  apply foldl_filter_map. intros st x. unfold values_step, cookie_pair. destruct (cut_eq x). cbn zeta.
  unfold nonempty. simpl. by destruct (beq _ _).
Qed.

Lemma beq_nil_same (a b : bytes) : (a = [] <-> b = []) -> beq a [] = beq b [].
Proof. intros H. apply eq_true_iff_eq. by rewrite !beq_eq. Qed.

Lemma cookie_values_same (p : option KeyPolicy) (a b : bytes) : same_cookies a b ->
  cookiePresenceValue p a = cookiePresenceValue p b /\ cookieValuesValue p a = cookieValuesValue p b.
Proof.
  intros [He Hp]. unfold cookiePresenceValue, cookieValuesValue, cookie_values_fill.
  rewrite (beq_nil_same a b He). split.
  - destruct (_ || _); [done|]. by rewrite !presence_pairs, Hp.
  - destruct (_ || _); [done|]. destruct p as [p|]; [|done]. cbn zeta. by rewrite !values_pairs, Hp.
Qed.

Lemma varyHeaderValue_trim (to_lower : bytes -> bytes) (f v : bytes) (policy : option KeyPolicy) :
  varyHeaderValue to_lower f (trim_right_ows v) policy = varyHeaderValue to_lower f v policy.
Proof.
  unfold varyHeaderValue, encodingBucket, langBucket, normalizeHeaderValue.
  by rewrite !trim_space_trim_right.
Qed.

Lemma field_value_same (to_lower : bytes -> bytes) (policy : option KeyPolicy) (g g' : bytes -> bytes) (c c' f : bytes) :
  trim_right_ows (g f) = trim_right_ows (g' f) -> same_cookies c c' ->
  field_value to_lower policy g c f = field_value to_lower policy g' c' f.
Proof.
  intros Hg Hc. unfold field_value. destruct (cookie_values_same policy c c' Hc) as [-> ->].
  by rewrite <- (varyHeaderValue_trim _ _ (g f)), Hg, varyHeaderValue_trim.
Qed.

(** ** The interface of a header source

    What the key computation relies on: a source reads as the map it would
    build, up to trailing blanks of a value and the layout of cookies. *)

Class SourceLaws (s : varySource) : Prop := {
  source_value : forall f, trim_right_ows (getValue s f) = trim_right_ows (HeaderMap.Get (toMap s) f);
  source_cookies : same_cookies (presenceCookieValue s) (CookieAll (toMap s));
}.

#[export] Instance map_source_laws (m : Map) : SourceLaws (mapVarySrc m).
Proof. split; simpl; [done|]. by split. Qed.

(** The parser skips the blanks before a value. *)
Definition no_leading_blank (v : bytes) : bool := match v with c :: _ => negb (ows c) | [] => true end.
Definition parsed_headers (r : RawHeaders) : Prop := Forall (fun h => no_leading_blank (Value h) = true) r.

Lemma trim_right_ows_idem (v : bytes) : trim_right_ows (trim_right_ows v) = trim_right_ows v.
Proof.
  unfold trim_right_ows, drop_while_end. rewrite rev_involutive. f_equal.
  generalize (rev v). intros t. induction t as [|a t IH]; [done|]. simpl. destruct (ows a) eqn:E; [done|].
  simpl. by rewrite E.
Qed.

Lemma trim_right_nonempty (v : bytes) : no_leading_blank v = true -> nonempty (trim_right_ows v) = nonempty v.
Proof.
  destruct v as [|c v]; [done|]. simpl. intros H%negb_true_iff. unfold trim_right_ows.
  rewrite drop_while_end_cons, H. by destruct (drop_while_end ows v).
Qed.

Lemma filter_nonempty_trim (l : list bytes) : Forall (fun v => no_leading_blank v = true) l ->
  List.filter nonempty (map trim_right_ows l) = map trim_right_ows (List.filter nonempty l).
Proof.
  induction 1 as [|v l Hv Hl IH]; [done|]. simpl. rewrite trim_right_nonempty by done.
  destruct (nonempty v); simpl; by rewrite IH.
Qed.

Lemma join_nil_iff (l : list bytes) : Forall (fun v => nonempty v = true) l -> (join (bs "; ") l = [] <-> l = []).
Proof.
  intros H. split; [|by intros ->]. destruct H as [|v l Hv _]; [done|]. rewrite join_concat.
  destruct v; [done|]. by intros [=].
Qed.

Lemma same_cookies_join (l l' : list bytes) :
  Forall (fun v => nonempty v = true) l -> Forall (fun v => nonempty v = true) l' ->
  (l = [] <-> l' = []) -> concat (map cookie_pairs l) = concat (map cookie_pairs l') ->
  same_cookies (join (bs "; ") l) (join (bs "; ") l').
Proof.
  intros Hl Hl' He Hp. split; [by rewrite !join_nil_iff|]. by rewrite !cookie_pairs_join.
Qed.

Lemma filter_nonempty_Forall (l : list bytes) : Forall (fun v => nonempty v = true) (List.filter nonempty l).
Proof. apply Forall_forall. intros v. rewrite list_elem_of_In, filter_In. tauto. Qed.

#[export] Hint Resolve filter_nonempty_Forall : core.

Lemma raw_source_laws (r : RawHeaders) : parsed_headers r -> SourceLaws (rawVarySrc r).
Proof.
  intros Hr. split; simpl.
  - intros f. by rewrite raw_map_Get, trim_right_ows_idem.
  - rewrite CookieValue_join, CookieAll_join.
    change (all_values Hdr.Cookie) with (all_values (canonicalize (bs "Cookie"))).
    rewrite raw_map_values. assert (Forall (fun v => no_leading_blank v = true) (raw_values r (bs "Cookie"))) as Hv.
    { apply Forall_forall. intros v. unfold raw_values. rewrite list_elem_of_In.
      intros (h & <- & [Hh _]%filter_In)%in_map_iff. unfold parsed_headers in Hr. rewrite Forall_forall in Hr.
      by apply Hr, list_elem_of_In. }
    rewrite filter_nonempty_trim by done. apply same_cookies_join; auto.
    + rewrite <- filter_nonempty_trim by done. auto.
    + by destruct (List.filter nonempty _).
    + f_equal. rewrite map_map. apply map_ext. intros v. by rewrite cookie_pairs_trail.
Qed.

(** What the code relies on of fasthttp: [Peek] gives a field's first value as
    [All] lists it, keys come canonical, and [Peek]/[PeekAll] and [All] show
    the same cookies, whether or not fasthttp has collected them. *)
Class FastLaws (h : FastHeader) : Prop := {
  fast_canonical : Forall (fun kv => canonicalize kv.1 = kv.1) (All h);
  fast_peek : forall f, Peek h f = first_value (canonicalize f) (All h);
  fast_peek_one : len (PeekAll h Hdr.Cookie) <= 1 -> PeekAll h Hdr.Cookie = [] \/ PeekAll h Hdr.Cookie = [Peek h Hdr.Cookie];
  fast_no_line : PeekAll h Hdr.Cookie = [] -> Peek h Hdr.Cookie = [];
  fast_cookies : same_cookies (join (bs "; ") (List.filter nonempty (PeekAll h Hdr.Cookie)))
                              (join (bs "; ") (List.filter nonempty (all_values Hdr.Cookie (All h))));
}.

Lemma peek_join_lines (lines : list bytes) : forall b, b <> [] ->
  peek_join false b lines = b ++ concat (map (fun w => bs "; " ++ w) (List.filter nonempty lines)).
Proof.
  induction lines as [|v lines IH]; intros b Hb; simpl; [by rewrite app_nil_r|].
  destruct v as [|c v]; simpl; [by apply IH|]. rewrite IH by (by destruct b). by rewrite <- !app_assoc.
Qed.

Lemma peek_join_join (lines : list bytes) : peek_join true [] lines = join (bs "; ") (List.filter nonempty lines).
Proof.
  induction lines as [|v lines IH]; [done|]. destruct v as [|c v]; [exact IH|].
  cbn [peek_join List.filter]. change (len (c :: v) =? 0) with false. change (nonempty (c :: v)) with true.
  cbn iota. rewrite join_concat, peek_join_lines by done. done.
Qed.

Lemma append_canonical_pairs (l : list (bytes * bytes)) : Forall (fun kv => canonicalize kv.1 = kv.1) l ->
  forall h, wf h ->
  wf (fold_left (fun hm '(k, v) => AppendEntryCanonical hm k v) l h) /\
  pairs (fold_left (fun hm '(k, v) => AppendEntryCanonical hm k v) l h) = pairs h ++ l.
Proof.
  induction 1 as [|[k v] l Hk Hl IH]; intros h Hw; simpl; [by rewrite app_nil_r|].
  destruct (wf_AppendEntryCanonical h k v Hw Hk) as [Hw' E].
  destruct (IH _ Hw') as [Hw2 E2]. split; [done|]. by rewrite E2, E, <- app_assoc.
Qed.

Lemma fast_source_laws (h : FastHeader) : FastLaws h -> SourceLaws (fastVarySrc h).
Proof.
  intros [Hc Hp H1 H0 Hck]. destruct (append_canonical_pairs (All h) Hc NewMap wf_NewMap) as [Hw E]. simpl in E.
  split; simpl.
  - intros f. unfold headerFromFastHTTPReqHeader. rewrite Get_pairs by (by apply wf_SortEntries).
    by rewrite Hp, first_value_all, first_value_all, all_values_SortEntries, E.
  - unfold headerFromFastHTTPReqHeader. rewrite CookieAll_join, all_values_SortEntries, E.
    destruct (1 <? len (PeekAll h Hdr.Cookie)) eqn:El; [by rewrite peek_join_join|].
    destruct (H1 ltac:(lia)) as [El'|El']; rewrite El' in *.
    + by rewrite (H0 eq_refl).
    + revert Hck. destruct (Peek h Hdr.Cookie); simpl; done.
Qed.

(** ** Both paths hash the reference string *)

Section Equal.
Context (to_lower : bytes -> bytes) {Hlaws : LowerLaws to_lower} (sum64 : bytes -> Z).

Lemma slow_loop_spec (policy : option KeyPolicy) (m : Map) (fields : list bytes) : forall h w,
  slow_loop to_lower policy m h w fields =
  (h ++ fields_text (map_value to_lower policy m) (kept policy fields),
   w || match kept policy fields with [] => false | _ => true end).
Proof.
  unfold fields_text, kept. induction fields as [|f fields IH]; intros h w; cbn [slow_loop List.filter map concat].
  { by rewrite app_nil_r, orb_false_r. }
  destruct (ShouldExcludeHeader policy f); cbn [negb map concat]; [apply IH|].
  rewrite IH. rewrite orb_true_r. unfold field_text, map_value. f_equal. by rewrite <- !app_assoc.
Qed.

Lemma core_loop_spec (policy : option KeyPolicy) (s : varySource) (fields : list bytes) : SourceLaws s ->
  forall b w, core_loop to_lower policy s b w fields = None \/
  core_loop to_lower policy s b w fields =
  Some (b ++ fields_text (map_value to_lower policy (toMap s)) (kept policy fields),
        w || match kept policy fields with [] => false | _ => true end).
Proof.
  intros Hs. unfold fields_text, kept.
  induction fields as [|f fields IH]; intros b w; cbn [core_loop List.filter map concat].
  { right. by rewrite app_nil_r, orb_false_r. }
  destruct (ShouldExcludeHeader policy f); cbn [negb map concat]; [apply IH|].
  cbn zeta. destruct (256 <? _); [by left|].
  destruct (IH (b ++ f ++ [ch "="] ++ field_value to_lower policy (getValue s) (presenceCookieValue s) f ++ [ch ";"]) true)
    as [->| ->]; [by left|]. right. rewrite orb_true_r. unfold field_text, map_value. do 2 f_equal.
  rewrite (field_value_same to_lower policy (getValue s) (HeaderMap.Get (toMap s)) _ (CookieAll (toMap s)) f).
  - by rewrite <- !app_assoc.
  - apply source_value.
  - apply source_cookies.
Qed.

Lemma slow_names (vary : bytes) :
  sort_strings (map trim_space (split_byte (ch ",") (to_lower vary))) = vary_names to_lower vary.
Proof.
  unfold vary_names. f_equal. rewrite lower_split, map_map. apply map_ext. intros f. apply lower_trim.
Qed.

Lemma variantKeySlow_spec (primary : Key) (vary : bytes) (m : Map) (policy : option KeyPolicy) :
  vary <> [] -> varyContainsStar vary = false ->
  variantKeySlow to_lower sum64 primary vary m policy = variant_spec to_lower sum64 primary vary m policy.
Proof.
  intros Hv Hs. unfold variantKeySlow, variant_spec. rewrite slow_names, slow_loop_spec.
  rewrite (proj2 (beq_neq vary [])) by done. rewrite Hs. cbn [orb]. fold (nominated to_lower vary policy).
  by destruct (nominated to_lower vary policy).
Qed.

Lemma variantKeyCore_spec (primary : Key) (vary : bytes) (s : varySource) (policy : option KeyPolicy) :
  SourceLaws s ->
  variantKeyCore to_lower sum64 primary vary s policy = variant_spec to_lower sum64 primary vary (toMap s) policy.
Proof.
  intros Hs. unfold variantKeyCore. destruct (beq vary []) eqn:Ev; [unfold variant_spec; by rewrite Ev|].
  destruct (varyContainsStar vary) eqn:Est; [unfold variant_spec; by rewrite Est, orb_true_r|].
  apply beq_neq in Ev. destruct (maxVaryFields <? _); [by apply variantKeySlow_spec|].
  rewrite insertion_sort_strings.
  change (stable_sort id (map (fun f => to_lower (trim_space f)) (split_byte (ch ",") vary)))
    with (vary_names to_lower vary).
  destruct (core_loop_spec policy s (vary_names to_lower vary) Hs [] false) as [->| ->]; [by apply variantKeySlow_spec|].
  unfold variant_spec. rewrite (proj2 (beq_neq vary [])), Est by done. cbn [orb app].
  fold (nominated to_lower vary policy). by destruct (nominated to_lower vary policy).
Qed.

(** ** The assertion hash *)

(** The raw fields in their order, each trimmed and lower-cased, the excluded
    ones left out. *)
Definition assertion_names (vary : bytes) (policy : option KeyPolicy) : list bytes :=
  kept policy (map (fun f => trim_space (to_lower f)) (sort_strings (split_byte (ch ",") vary))).
Definition assertion_text (policy : option KeyPolicy) (m : Map) (vary : bytes) : bytes :=
  fields_text (assertion_value to_lower policy (HeaderMap.Get m) (CookieAll m)) (assertion_names vary policy).

Lemma writes_assertion (policy : option KeyPolicy) (m : Map) (fields : list bytes) :
  writes (fun w => buildVaryKeyInto to_lower policy m w fields)
    (fields_text (assertion_value to_lower policy (HeaderMap.Get m) (CookieAll m))
       (kept policy (map (fun f => trim_space (to_lower f)) fields))).
Proof.
  unfold fields_text, kept. induction fields as [|f fields IH]; cbn [buildVaryKeyInto map List.filter concat]; [apply writes_nil|].
  destruct (ShouldExcludeHeader policy (trim_space (to_lower f))); cbn [negb]; [exact IH|].
  cbn [map concat]. unfold field_text at 1. rewrite <- !app_assoc.
  exact (writes_compose _ _ _ _ (writes_copyOverflow _)
          (writes_cons _ _ _ _ (writes_appendByte (ch "="))
            (writes_compose _ _ _ _ (writes_copyOverflow _)
              (writes_cons _ _ _ _ (writes_appendByte (ch ";")) IH)))).
Qed.

Lemma buildVaryKeySlow_spec (vary : bytes) (m : Map) (policy : option KeyPolicy) :
  buildVaryKeySlow to_lower sum64 vary m policy = FormatUint16 (sum64 (assertion_text policy m vary)).
Proof.
  unfold buildVaryKeySlow, assertion_text, assertion_names. set (fields := sort_strings _).
  pose proof (writes_assertion policy m fields) as Hw. set (text := fields_text _ _) in *.
  assert (forall n, holds (buildVaryKeyInto to_lower policy m (new_cursor n) fields) text /\
            length (cbuf (buildVaryKeyInto to_lower policy m (new_cursor n) fields)) = n) as Hn.
  { intros n. destruct (Hw _ _ (holds_new n)) as [H1 H2]. split; [done|]. rewrite H2. apply length_replicate. }
  destruct (Hn 256%nat) as [H1 L1]. cbn zeta.
  destruct (Nat.leb_spec (cn (buildVaryKeyInto to_lower policy m (new_cursor 256) fields)) 256) as [Hc|Hc].
  - do 2 f_equal. pose proof (holds_written _ _ H1) as Hh. unfold written in Hh. rewrite Hh; [done|].
    destruct H1 as [<- _]. by rewrite L1.
  - do 2 f_equal. destruct H1 as [-> _]. destruct (Hn (length text)) as [[_ H2] L2].
    rewrite L2 in H2. rewrite <- (firstn_all2 (n := length text) (cbuf _)) by lia.
    rewrite H2. by apply firstn_all2.
Qed.

Lemma isASCIISpaceByte_eq (c : byte) : isASCIISpaceByte c = ascii_space c.
Proof. by destruct c. Qed.

Lemma drop_while_ext (p q : byte -> bool) (s : bytes) : (forall c, p c = q c) -> drop_while p s = drop_while q s.
Proof. intros H. induction s as [|a s IH]; [done|]. simpl. by rewrite H, IH. Qed.

Lemma trimASCIISpace_spec (s raw : bytes) : trimASCIISpace s = Some raw ->
  is_ascii s = true /\ raw = trim_space s /\ map lower_byte raw = trim_space (to_lower s).
Proof.
  unfold trimASCIISpace. destruct (existsb _ s) eqn:E; [done|]. intros [= <-].
  assert (is_ascii s = true) as Ha.
  { unfold is_ascii. apply forallb_forall. intros c Hc. apply not_true_iff_false in E.
    apply Z.ltb_lt. destruct (Z.leb_spec 128 (Zb c)); [|lia]. exfalso. apply E, existsb_exists.
    exists c. split; [done|]. by apply Z.leb_le. }
  assert (drop_while_end isASCIISpaceByte (drop_while isASCIISpaceByte s) = trim_space s) as ->.
  { rewrite trim_space_ascii by done. unfold drop_while_end.
    by rewrite !(drop_while_ext isASCIISpaceByte ascii_space _ isASCIISpaceByte_eq). }
  split; [done|]. split; [done|]. rewrite lower_trim. symmetry. apply lower_ascii.
  rewrite trim_space_ascii by done. unfold drop_while_end. rewrite is_ascii_rev.
  apply is_ascii_drop_while. rewrite is_ascii_rev. by apply is_ascii_drop_while.
Qed.

(** A raw request read as its map: values and cookies. *)
Lemma assert_value_map (s : varyAssertSrc) (f : bytes) : assert_getValue s f = HeaderMap.Get (assert_toMap s) f.
Proof. destruct s as [m|r]; [done|]. simpl. by rewrite raw_map_Get. Qed.

Lemma nonempty_beq (v : bytes) : beq v [] = negb (nonempty v).
Proof. symmetry. apply negb_involutive. Qed.

Lemma cookie_first_pass_spec (r : RawHeaders) : forall single count, 0 <= count ->
  let l := List.filter nonempty (map trim_right_ows (raw_values r Hdr.Cookie)) in
  cookie_first_pass single count r =
  (if count =? 0 then match l with v :: _ => v | [] => single end else single, count + len l).
Proof.
  unfold raw_values. induction r as [|h r IH]; intros single count Hc; cbn [cookie_first_pass List.filter map].
  { rewrite Z.add_0_r. by destruct (count =? 0). }
  destruct (EqualFold (RawReq.Key h) Hdr.Cookie); cbn [negb map List.filter]; [|by apply IH].
  rewrite nonempty_beq. destruct (nonempty (trim_right_ows (Value h))); cbn [negb]; [|by apply IH].
  rewrite (IH _ (count + 1)) by lia. cbn zeta. rewrite (proj2 (Z.eqb_neq (count + 1) 0)) by lia.
  rewrite len_cons. f_equal. lia.
Qed.

Lemma cookie_second_pass_spec (r : RawHeaders) : forall b, b <> [] ->
  cookie_second_pass b r =
  b ++ concat (map (fun w => bs "; " ++ w) (List.filter nonempty (map trim_right_ows (raw_values r Hdr.Cookie)))).
Proof.
  unfold raw_values. induction r as [|h r IH]; intros b Hb; cbn [cookie_second_pass List.filter map].
  { simpl. by rewrite app_nil_r. }
  destruct (EqualFold (RawReq.Key h) Hdr.Cookie); cbn [negb map List.filter]; [|by apply IH].
  rewrite nonempty_beq. destruct (nonempty (trim_right_ows (Value h))); cbn [negb]; [|by apply IH].
  assert (0 <? len b = true) as -> by (apply Z.ltb_lt; destruct b; [done|]; unfold len; simpl; lia).
  rewrite IH by (by destruct b). cbn [map concat]. by rewrite <- !app_assoc.
Qed.

Lemma cookie_second_pass_join (r : RawHeaders) :
  cookie_second_pass [] r = join (bs "; ") (List.filter nonempty (map trim_right_ows (raw_values r Hdr.Cookie))).
Proof.
  unfold raw_values. induction r as [|h r IH]; [done|]. cbn [cookie_second_pass List.filter].
  destruct (EqualFold (RawReq.Key h) Hdr.Cookie); cbn [negb map List.filter]; [|exact IH].
  rewrite nonempty_beq. destruct (nonempty (trim_right_ows (Value h))) eqn:E; cbn [negb]; [|exact IH].
  apply negb_true_iff, beq_neq in E. change (0 <? len (A := byte) []) with false. cbn [app].
  rewrite cookie_second_pass_spec by done. by rewrite join_concat.
Qed.

Lemma assert_cookies_map (s : varyAssertSrc) : assert_cookieAll s = CookieAll (assert_toMap s).
Proof.
  destruct s as [m|r]; [done|]. simpl. rewrite CookieAll_join.
  change (all_values Hdr.Cookie) with (all_values (canonicalize Hdr.Cookie)). rewrite raw_map_values.
  rewrite cookie_first_pass_spec by done. cbn zeta. rewrite Z.add_0_l. simpl (0 =? 0).
  destruct (Z.leb_spec (len (List.filter nonempty (map trim_right_ows (raw_values r Hdr.Cookie)))) 1) as [H|H];
    [|apply cookie_second_pass_join].
  destruct (List.filter nonempty _) as [|v [|w l]]; [done..|]. rewrite !len_cons in H. pose proof (len_nonneg l). lia.
Qed.

Lemma assertion_value_map (policy : option KeyPolicy) (s : varyAssertSrc) (f : bytes) :
  assertion_value to_lower policy (assert_getValue s) (assert_cookieAll s) f =
  assertion_value to_lower policy (HeaderMap.Get (assert_toMap s)) (CookieAll (assert_toMap s)) f.
Proof. unfold assertion_value. by rewrite assert_value_map, assert_cookies_map. Qed.

Lemma assertion_loop_spec (policy : option KeyPolicy) (s : varyAssertSrc) (fields : list bytes) : forall b t,
  assertion_loop to_lower policy s b fields = Some t ->
  t = b ++ fields_text (assertion_value to_lower policy (HeaderMap.Get (assert_toMap s)) (CookieAll (assert_toMap s)))
             (kept policy (map (fun f => trim_space (to_lower f)) fields)).
Proof.
  unfold fields_text, kept. induction fields as [|f fields IH]; intros b t; cbn [assertion_loop map List.filter concat].
  { intros [= <-]. by rewrite app_nil_r. }
  destruct (trimASCIISpace f) as [raw|] eqn:E; [|done]. apply trimASCIISpace_spec in E as (_ & _ & ->).
  destruct (256 <? _); [done|]. destruct (ShouldExcludeHeader policy _); cbn [negb]; [apply IH|].
  destruct (256 <? _); [done|]. intros H%IH. rewrite H. cbn [map concat]. unfold field_text at 2.
  rewrite assertion_value_map. rewrite <- !app_assoc. done.
Qed.

Lemma varyAssertionHash_spec (vary : bytes) (s : varyAssertSrc) (policy : option KeyPolicy) (h : Z) :
  varyAssertionHash to_lower sum64 vary s policy = Some h ->
  FormatUint16 h = buildVaryKeySlow to_lower sum64 vary (assert_toMap s) policy.
Proof.
  unfold varyAssertionHash. destruct (maxVaryFields <? _); [done|]. rewrite insertion_sort_strings.
  destruct (assertion_loop _ _ _ _ _) as [t|] eqn:E; [|done]. intros [= <-].
  rewrite buildVaryKeySlow_spec. do 2 f_equal. by apply assertion_loop_spec in E.
Qed.

End Equal.

(** ** Separation *)

Lemma WithVary_inj (k : Key) (v w : Z) : wf_key k -> in_u64 v -> in_u64 w -> WithVary k v = WithVary k w -> v = w.
Proof.
  intros Hk Hv Hw E. apply (lxor_inj (key_hi k)).
  by rewrite <- (proj1 (WithVary_halves k v Hk Hv)), <- (proj1 (WithVary_halves k w Hk Hw)), E.
Qed.

Lemma fields_text_inj (value value' : bytes -> bytes) (fields : list bytes) :
  Forall (fun f => ch ";" ∉ value f /\ ch ";" ∉ value' f) fields ->
  fields_text value fields = fields_text value' fields -> Forall (fun f => value f = value' f) fields.
Proof.
  unfold fields_text. induction 1 as [|f fields [H1 H2] Hf IH]; [constructor|]. cbn [map concat].
  unfold field_text at 1 3. rewrite <- !app_assoc. intros E%app_inv_head%app_inv_head.
  apply (bar_split (ch ";")) in E as [E1 E2]; [|done..]. constructor; auto.
Qed.

Lemma fields_text_ext (value value' : bytes -> bytes) (fields : list bytes) :
  Forall (fun f => value f = value' f) fields -> fields_text value fields = fields_text value' fields.
Proof.
  unfold fields_text. induction 1 as [|f fields E Hf IH]; [done|]. cbn [map concat]. rewrite IH.
  unfold field_text. by rewrite E.
Qed.

(** ** Drift *)

Lemma same_fields_eq (a b : list bytes) : length a = length b -> (same_fields a b = true <-> a = b).
Proof.
  revert b. induction a as [|x a IH]; intros [|y b] H; try done. simpl. simpl in H.
  destruct (beq x y) eqn:E; simpl.
  - apply beq_eq in E as ->. rewrite IH by lia. split; congruence.
  - apply beq_neq in E. split; [done|]. congruence.
Qed.

Lemma varyFieldsEqual_spec (to_lower : bytes -> bytes) (a b : bytes) :
  varyFieldsEqual to_lower a b = true <-> varyFieldSet to_lower a ≡ₚ varyFieldSet to_lower b.
Proof.
  unfold varyFieldsEqual. destruct (beq a b) eqn:E; [apply beq_eq in E as ->; done|].
  destruct (len (varyFieldSet to_lower a) =? len (varyFieldSet to_lower b)) eqn:El; simpl.
  - apply Z.eqb_eq in El. unfold len in El. apply Nat2Z.inj in El.
    assert (forall l, sort_strings l ≡ₚ l) as Hs by (intros l; apply stable_sort_perm).
    rewrite same_fields_eq by (by rewrite !Hs). split.
    + intros H. rewrite <- (Hs (varyFieldSet to_lower a)), H. apply Hs.
    + apply sort_strings_perm.
  - split; [done|]. intros H. apply Permutation_length in H. unfold len in El. rewrite H, Z.eqb_refl in El. done.
Qed.

(** ** Theorems *)

(** C31. One variant key per request: for every source of request headers that
    reads as the map it would build (a header map; the raw request of the
    HTTP/1 fast path, whose values have no leading blank; fasthttp's header),
    the key computed in the 256-byte stack buffer, and the one computed by the
    allocating fallback when there are too many fields or the buffer is too
    small, are the primary key mixed with the hash of one reference string:
    the nominated fields, lower-cased, sorted, without the excluded ones, each
    with its normalized value. So the key does not depend on the path taken
    nor on how the Vary value spells or orders its fields. *)
Theorem variant_key_canonical (to_lower : bytes -> bytes) (Hlaws : LowerLaws to_lower) (sum64 : bytes -> Z)
  (primary : Key) (vary : bytes) (policy : option KeyPolicy) :
  (forall s, SourceLaws s ->
     variantKeyCore to_lower sum64 primary vary s policy = variant_spec to_lower sum64 primary vary (toMap s) policy) /\
  (forall r, parsed_headers r ->
     VariantKeyFromRaw to_lower sum64 primary vary r policy
     = VariantKey to_lower sum64 primary vary (reqHeaderMapFromRaw r) policy) /\
  (forall h, FastLaws h ->
     VariantKeyFast to_lower sum64 primary vary h policy
     = VariantKey to_lower sum64 primary vary (headerFromFastHTTPReqHeader h) policy) /\
  (forall m vary', vary <> [] -> vary' <> [] -> varyContainsStar vary = false -> varyContainsStar vary' = false ->
     varyFieldSet to_lower vary ≡ₚ varyFieldSet to_lower vary' ->
     VariantKey to_lower sum64 primary vary m policy = VariantKey to_lower sum64 primary vary' m policy).
Proof.
  unfold VariantKeyFromRaw, VariantKeyFast, VariantKey. split_and!.
  - intros s Hs. by apply variantKeyCore_spec.
  - intros r Hr. rewrite !variantKeyCore_spec by auto using map_source_laws, raw_source_laws. done.
  - intros h Hh. rewrite !variantKeyCore_spec by auto using map_source_laws, fast_source_laws. done.
  - intros m vary' H1 H2 S1 S2 Hp. rewrite !variantKeyCore_spec by auto using map_source_laws.
    unfold variant_spec. rewrite S1, S2. rewrite !(proj2 (beq_neq _ [])) by done. cbn [orb].
    unfold nominated, vary_names. fold (varyFieldSet to_lower vary). fold (varyFieldSet to_lower vary').
    by rewrite (sort_strings_perm _ _ Hp).
Qed.

(** C32. A variant is shared only by requests that agree: for one Vary value without a
    star and one policy, two requests get the same variant key exactly when every
    nominated, non-excluded field has the same normalized value in both, provided
    that no nominated value contains a semicolon, the separator of the hashed
    text ([semicolon_values_collide] has two requests that differ and share a
    variant), and that the hash does not collide on the two texts. *)
Theorem variant_key_separates (to_lower : bytes -> bytes) (Hlaws : LowerLaws to_lower) (sum64 : bytes -> Z)
  (primary : Key) (vary : bytes) (m m' : Map) (policy : option KeyPolicy)
  (Hk : wf_key primary) (Hu : forall s, in_u64 (sum64 s))
  (Hv : vary <> []) (Hstar : varyContainsStar vary = false)
  (Hsemi : Forall (fun f => ch ";" ∉ map_value to_lower policy m f /\ ch ";" ∉ map_value to_lower policy m' f)
             (nominated to_lower vary policy))
  (Hinj : let text m := fields_text (map_value to_lower policy m) (nominated to_lower vary policy) in
          sum64 (text m) = sum64 (text m') -> text m = text m') :
  VariantKey to_lower sum64 primary vary m policy = VariantKey to_lower sum64 primary vary m' policy <->
  Forall (fun f => map_value to_lower policy m f = map_value to_lower policy m' f) (nominated to_lower vary policy).
Proof.
  cbn zeta in Hinj. unfold VariantKey. rewrite !variantKeyCore_spec by auto using map_source_laws. unfold variant_spec, toMap.
  rewrite Hstar, (proj2 (beq_neq vary [])) by done. cbn [orb].
  destruct (nominated to_lower vary policy) as [|f fs] eqn:E; [done|]. rewrite <- E in *. split.
  - intros H%WithVary_inj; auto. by apply fields_text_inj; [|apply Hinj].
  - intros H. by rewrite (fields_text_ext _ _ _ H).
Qed.

Lemma assertion_hash_slow (to_lower : bytes -> bytes) (Hlaws : LowerLaws to_lower) (sum64 : bytes -> Z)
  (vary : bytes) (policy : option KeyPolicy) (s : varyAssertSrc) :
  match varyAssertionHash to_lower sum64 vary s policy with
  | Some h => FormatUint16 h
  | None => buildVaryKeySlow to_lower sum64 vary (assert_toMap s) policy
  end = buildVaryKeySlow to_lower sum64 vary (assert_toMap s) policy.
Proof. destruct (varyAssertionHash _ _ _ _ _) eqn:E; [|done]. by apply varyAssertionHash_spec. Qed.

Lemma varyKeyMatches_eq (to_lower : bytes -> bytes) (Hlaws : LowerLaws to_lower) (sum64 : bytes -> Z)
  (vary : bytes) (policy : option KeyPolicy) (s : varyAssertSrc) (want : bytes) :
  varyKeyMatches to_lower sum64 vary s policy want
  = beq (BuildVaryKey to_lower sum64 vary (assert_toMap s) policy) want.
Proof.
  unfold varyKeyMatches, BuildVaryKey. destruct (_ || _); [done|].
  pose proof (assertion_hash_slow to_lower Hlaws sum64 vary policy (assertMap (assert_toMap s))) as E1.
  pose proof (assertion_hash_slow to_lower Hlaws sum64 vary policy s) as E2.
  simpl in E1. rewrite E1, <- E2. by destruct (varyAssertionHash _ _ _ s _).
Qed.

(** The peer gate compares what the fill stored: over every request source,
    [varyKeyMatches] answers whether [BuildVaryKey] over the request's header
    map equals the stored key, and [BuildVaryKey] is one function of the
    request whether its hash input fits the stack buffer or not. *)
Theorem vary_key_matches_exact (to_lower : bytes -> bytes) (Hlaws : LowerLaws to_lower) (sum64 : bytes -> Z)
  (vary : bytes) (policy : option KeyPolicy) (s : varyAssertSrc) (want : bytes) :
  varyKeyMatches to_lower sum64 vary s policy want
  = beq (BuildVaryKey to_lower sum64 vary (assert_toMap s) policy) want /\
  (vary <> [] -> vary <> bs "*" ->
     BuildVaryKey to_lower sum64 vary (assert_toMap s) policy
     = FormatUint16 (sum64 (assertion_text to_lower policy (assert_toMap s) vary))).
Proof.
  split; [by apply varyKeyMatches_eq|]. intros H1 H2. unfold BuildVaryKey.
  rewrite (proj2 (beq_neq vary [])), (proj2 (beq_neq vary (bs "*"))) by done. cbn [orb].
  rewrite <- buildVaryKeySlow_spec by done. by apply (assertion_hash_slow _ _ _ _ _ (assertMap (assert_toMap s))).
Qed.

(** A revalidation purges the stored variants exactly when the stored object
    has a Vary value, the fresh response is a 304 or a 2xx, and the two values
    differ as lists of field names up to order, case and blanks. *)
Theorem vary_drift_exact (to_lower : bytes -> bytes) (stale : option bytes) (status : Z) (fresh : bytes) :
  detectVaryDrift to_lower stale status fresh = true <->
  exists v, stale = Some v /\ v <> [] /\ (status = 304 \/ 200 <= status < 300) /\
    ~ (varyFieldSet to_lower v ≡ₚ varyFieldSet to_lower fresh).
Proof.
  unfold detectVaryDrift, isDriftDeclarationSource. destruct stale as [v|]; [|naive_solver].
  rewrite negb_true_iff, !orb_false_iff, negb_false_iff, beq_neq, <- not_true_iff_false, varyFieldsEqual_spec.
  rewrite orb_true_iff, andb_true_iff, Z.eqb_eq, Z.leb_le, Z.ltb_lt. naive_solver.
Qed.

(** ** What the code does on edge inputs *)

Definition line_map (l : list (bytes * bytes)) : Map := fold_left (fun m '(k, v) => AppendEntry m k v) l NewMap.

(** A semicolon in a value moves a field boundary: two requests with different
    values for both nominated headers share a variant key, whatever the hash. *)
Lemma semicolon_values_collide (sum64 : bytes -> Z) (primary : Key) :
  let m := line_map [(bs "X-A", bs "1;x-b=2"); (bs "X-B", bs "3")] in
  let m' := line_map [(bs "X-A", bs "1"); (bs "X-B", bs "2;x-b=3")] in
  VariantKey (map lower_byte) sum64 primary (bs "X-A, X-B") m None
  = VariantKey (map lower_byte) sum64 primary (bs "X-A, X-B") m' None /\
  HeaderMap.Get m (bs "X-A") <> HeaderMap.Get m' (bs "X-A").
Proof. split; [reflexivity|]. vm_compute. done. Qed.

(** A repeated field name counts as a change of the declaration. *)
Lemma repeated_field_is_drift :
  varyFieldsEqual (map lower_byte) (bs "Accept, Accept") (bs "Accept") = false.
Proof. reflexivity. Qed.

(** ** Witnesses *)

Definition raw_sample : RawHeaders :=
  [MkRawHeader (bs "accept-LANGUAGE") (bs "fr;q=0.5, EN  "); MkRawHeader (bs "x-region") (bs "EU	");
   MkRawHeader (bs "Cookie") (bs "a=1"); MkRawHeader (bs "cookie") (bs "cart=9 ")].

(** fasthttp's view of the same lines, before it collects the cookies. *)
Definition fast_sample : FastHeader :=
  let lines := map (fun h => (canonicalize (RawReq.Key h), trim_right_ows (Value h))) raw_sample in
  {| Peek := fun k => first_value (canonicalize k) lines;
     PeekAll := fun k => all_values (canonicalize k) lines;
     All := lines |}.

Lemma fast_sample_laws : FastLaws fast_sample.
Proof.
  split.
  - repeat (apply Forall_cons; split; [vm_compute; reflexivity|]). apply Forall_nil_2.
  - intros f. reflexivity.
  - intros H. exfalso. revert H. vm_compute. auto.
  - vm_compute. discriminate.
  - split; [done|reflexivity].
Qed.

Definition region_policy : KeyPolicy :=
  {| KeyPolicy0 with includeHeaders := [bs "x-region"]; cookiePresence := [bs "cart"] |}.

Lemma variant_key_canonical_witness :
  let vary := bs "Accept-Language, x-bouine-cookie-presence, x-region" in
  VariantKeyFromRaw (map lower_byte) len zero_key vary raw_sample (Some region_policy)
  = VariantKeyFast (map lower_byte) len zero_key vary fast_sample (Some region_policy).
Proof.
  intros vary.
  destruct (variant_key_canonical (map lower_byte) lower_laws_ascii len zero_key vary (Some region_policy)) as (_ & Hr & Hf & _).
  rewrite (Hf _ fast_sample_laws). rewrite Hr by (unfold parsed_headers, raw_sample; repeat constructor).
  f_equal.
Defined.

(** A stand-in for the 64-bit hash: the first eight bytes of the input. *)
Definition first8 (s : bytes) : Z := get_be (take 8 s).

Lemma variant_key_separates_witness :
  VariantKey (map lower_byte) first8 zero_key (bs "X") (line_map [(bs "X", bs "1")]) None
  <> VariantKey (map lower_byte) first8 zero_key (bs "X") (line_map [(bs "X", bs "2")]) None.
Proof.
  assert (nominated (map lower_byte) (bs "X") None = [bs "x"]) as En by (vm_compute; reflexivity).
  intros H. eapply variant_key_separates in H.
  - rewrite En in H. apply Forall_cons in H as [H _]. vm_compute in H. discriminate.
  - apply lower_laws_ascii.
  - reflexivity.
  - intros s. unfold first8, in_u64. pose proof (get_be_range (take 8 s)) as Hg.
    assert (256 ^ Z.of_nat (length (take 8 s)) <= 2 ^ 64).
    { change (2 ^ 64) with (256 ^ 8). apply Z.pow_le_mono_r; [lia|]. rewrite length_take. lia. }
    lia.
  - done.
  - reflexivity.
  - rewrite En. apply Forall_cons. split; [|apply Forall_nil_2].
    split; apply (bool_decide_eq_false_1 _); vm_compute; reflexivity.
  - rewrite En. vm_compute. discriminate.
Defined.

Lemma vary_key_matches_exact_witness :
  varyKeyMatches (map lower_byte) len (bs "X-Region,Accept") (assertRaw raw_sample) None
    (BuildVaryKey (map lower_byte) len (bs "X-Region,Accept") (reqHeaderMapFromRaw raw_sample) None) = true.
Proof.
  rewrite (proj1 (vary_key_matches_exact (map lower_byte) lower_laws_ascii len (bs "X-Region,Accept") None
                    (assertRaw raw_sample) _)).
  apply beq_eq. reflexivity.
Defined.
