(* ===== verification/KeyConfig.v ===== *)
(** * From a route's key configuration to its policy

    The validation of [cache.key] (src/internal/config/loader.go,
    [validateRouteKey] and what it calls) and the compilation of an accepted
    configuration into a [KeyPolicy] (src/cmd/bouine/cmd/builder.go,
    [buildKeyPolicy]). The theorems say that an accepted configuration gives a
    policy with the shape the key computations of [Cookies] and [Vary] rely
    on, and that under such a policy a cold request joins another's flight
    only when their stored variants would have one key. *)

From S2P Require Import Prelude GoStd CacheControl HeaderMap GoStrings RawReq Api Engine Cacheable Conditional Keys Cookies Negotiate Vary.

(** ** Configuration (config.go) *)

Record RouteKey : Type := MkRouteKey {
  IncludeHost : option bool;
  StripQueryParams : list bytes;
  ExcludeHeaders : list bytes;
  IncludeHeaders : list bytes;
  CookiePresence : list bytes;
  CookieValues : list bytes;
  KeepQueryParams : list bytes;
  StripQueryPrefix : list bytes;
  StripEmptyParams : bool;
  DedupQueryParams : bool;
  VerbatimEncoding : bool;
}.

(** ** Validation (loader.go) *)

(** The messages [addf] is called with, without their arguments. *)
Inductive message : Type :=
| KeepWithStrip | KeepWithPrefix | CappedAt (max : Z) | MustBeNonEmpty | EmptyHeaderName | WildcardVary
| NotAToken | DuplicateHeader | AlsoIncluded | EmptyCookieName | DuplicateCookie | AlsoPresence | CookieInIncludes.

Record FieldError : Type := MkFieldError { err_path : bytes; err_message : message }.

Definition tchar_punctuation : bytes := bs "!#$%&'*+-.^_`|~".
(** [tcharTable[c]] *)
Definition isTchar (c : byte) : bool :=
  is_digit c || in_range "A" "Z" c || in_range "a" "z" c || existsb (beqb c) tchar_punctuation.
Definition isHTTPToken (s : bytes) : bool := if beq s [] then false else forallb isTchar s.

(** [fmt.Sprintf("%s.field[%d]", path, j)] *)
Definition entry_path (path field : bytes) (j : nat) : bytes :=
  path ++ field ++ bs "[" ++ itoa (Z.of_nat j) ++ bs "]".

(** [maxCookieNames] and [maxCookieValueNames] *)
Definition maxCookieNames : Z := 16.
Definition maxCookieValueNames : Z := 4.

Section Config.
Context (to_lower : bytes -> bytes) (fold_equal : bytes -> bytes -> bool).

(** The first loop of [validateIncludeHeaders]: the errors and [seen]. *)
Fixpoint include_loop (path : bytes) (j : nat) (seen : list bytes) (l : list bytes) : list FieldError * list bytes :=
  match l with
  | [] => ([], seen)
  | raw :: l' =>
      let h := trim_space raw in
      let at_ m := MkFieldError (entry_path path (bs ".include_headers") j) m in
      let fail m := let '(es, seen) := include_loop path (S j) seen l' in (at_ m :: es, seen) in
      if beq h [] then fail EmptyHeaderName
      else let lower := to_lower h in
           if beq lower (bs "*") then fail WildcardVary
           else if negb (isHTTPToken lower) then fail NotAToken
           else if existsb (beq lower) seen then fail DuplicateHeader
           else include_loop path (S j) (lower :: seen) l'
  end.

Fixpoint exclude_loop (path : bytes) (j : nat) (seen : list bytes) (l : list bytes) : list FieldError :=
  match l with
  | [] => []
  | raw :: l' =>
      (if existsb (beq (to_lower (trim_space raw))) seen
       then [MkFieldError (entry_path path (bs ".exclude_headers") j) AlsoIncluded] else [])
      ++ exclude_loop path (S j) seen l'
  end.

Definition validateIncludeHeaders (path : bytes) (rk : RouteKey) : list FieldError :=
  (if 16 <? len (IncludeHeaders rk) then [MkFieldError (path ++ bs ".include_headers") (CappedAt 16)] else [])
  ++ (let '(es, seen) := include_loop path 0 [] (IncludeHeaders rk) in
      es ++ exclude_loop path 0 seen (ExcludeHeaders rk)).

Fixpoint names_loop (path : bytes) (j : nat) (seen : list bytes) (l : list bytes) : list FieldError :=
  match l with
  | [] => []
  | raw :: l' =>
      let name := trim_space raw in
      let fail m := MkFieldError (entry_path path [] j) m :: names_loop path (S j) seen l' in
      if beq name [] then fail EmptyCookieName
      else let lower := to_lower name in
           if negb (isHTTPToken lower) then fail NotAToken
           else if existsb (beq lower) seen then fail DuplicateCookie
           else names_loop path (S j) (lower :: seen) l'
  end.

Definition validateCookieNameListCapped (path : bytes) (ns : list bytes) (max : Z) : list FieldError :=
  if max <? len ns then [MkFieldError path (CappedAt max)] else names_loop path 0 [] ns.
Definition validateCookieNameList (path : bytes) (ns : list bytes) : list FieldError :=
  validateCookieNameListCapped path ns maxCookieNames.

Definition validateCookiePresence (path : bytes) (rk : RouteKey) : list FieldError :=
  if len (CookiePresence rk) =? 0 then []
  else validateCookieNameList (path ++ bs ".cookie_presence") (CookiePresence rk).

Fixpoint overlap_loop (path : bytes) (j : nat) (presence : list bytes) (l : list bytes) : list FieldError :=
  match l with
  | [] => []
  | raw :: l' =>
      let name := trim_space raw in
      (if negb (beq name []) && existsb (beq (to_lower name)) presence
       then [MkFieldError (entry_path path (bs ".cookie_values") j) AlsoPresence] else [])
      ++ overlap_loop path (S j) presence l'
  end.
Definition validateCookieValuesPresenceOverlap (path : bytes) (rk : RouteKey) : list FieldError :=
  if (len (CookieValues rk) =? 0) || (len (CookiePresence rk) =? 0) then []
  else overlap_loop path 0 (map to_lower (List.filter nonempty (map trim_space (CookiePresence rk)))) (CookieValues rk).

Fixpoint cookie_include_loop (path : bytes) (j : nat) (l : list bytes) : list FieldError :=
  match l with
  | [] => []
  | raw :: l' =>
      (if fold_equal (trim_space raw) (bs "cookie")
       then [MkFieldError (entry_path path (bs ".include_headers") j) CookieInIncludes] else [])
      ++ cookie_include_loop path (S j) l'
  end.
Definition validateCookieKeyingIncludeHeaders (path : bytes) (rk : RouteKey) : list FieldError :=
  if (len (CookieValues rk) =? 0) && (len (CookiePresence rk) =? 0) then []
  else cookie_include_loop path 0 (IncludeHeaders rk).

Definition validateCookieValues (path : bytes) (rk : RouteKey) : list FieldError :=
  if len (CookieValues rk) =? 0 then []
  else validateCookieNameListCapped (path ++ bs ".cookie_values") (CookieValues rk) maxCookieValueNames
       ++ validateCookieValuesPresenceOverlap path rk ++ validateCookieKeyingIncludeHeaders path rk.

Fixpoint prefix_loop (path : bytes) (j : nat) (l : list bytes) : list FieldError :=
  match l with
  | [] => []
  | p :: l' =>
      (if beq p [] then [MkFieldError (entry_path path (bs ".strip_query_prefix") j) MustBeNonEmpty] else [])
      ++ prefix_loop path (S j) l'
  end.

Definition validateRouteKey (path : bytes) (rk : RouteKey) : list FieldError :=
  (if 0 <? len (KeepQueryParams rk) then
     (if 0 <? len (StripQueryParams rk) then [MkFieldError (path ++ bs ".keep_query_params") KeepWithStrip] else [])
     ++ (if 0 <? len (StripQueryPrefix rk) then [MkFieldError (path ++ bs ".keep_query_params") KeepWithPrefix] else [])
   else [])
  ++ (if 16 <? len (StripQueryPrefix rk) then [MkFieldError (path ++ bs ".strip_query_prefix") (CappedAt 16)] else [])
  ++ prefix_loop path 0 (StripQueryPrefix rk)
  ++ validateIncludeHeaders path rk ++ validateCookiePresence path rk ++ validateCookieValues path rk.

(** ** Compilation (builder.go) *)

(** [make(map[string]bool)] with each name set, or nil for an empty list. *)
Definition name_set (l : list bytes) : option (gmap bytes bool) :=
  match l with [] => None | _ => Some (foldl (fun m p => <[p := true]> m) (∅ : gmap bytes bool) l) end.
Definition buildStripSet (params : list bytes) : option (gmap bytes bool) := name_set params.
Definition buildKeepSet (params : list bytes) : option (gmap bytes bool) := name_set params.
Definition buildExcludeHeaderSet (headers : list bytes) : option (gmap bytes bool) := name_set (map to_lower headers).

Definition excludeHost_of (rk : RouteKey) : bool := match IncludeHost rk with Some b => negb b | None => false end.

Definition hasKeyPolicy (rk : RouteKey) : bool :=
  (0 <? len (StripQueryParams rk)) || (0 <? len (ExcludeHeaders rk)) || (0 <? len (IncludeHeaders rk)) ||
  (0 <? len (KeepQueryParams rk)) || (0 <? len (StripQueryPrefix rk)) ||
  StripEmptyParams rk || DedupQueryParams rk || excludeHost_of rk || VerbatimEncoding rk ||
  (0 <? len (CookiePresence rk)) || (0 <? len (CookieValues rk)).

Definition buildKeyPolicy (rk : RouteKey) : option KeyPolicy :=
  if negb (hasKeyPolicy rk) then None
  else
    let p := Some (NewKeyPolicy to_lower (buildStripSet (StripQueryParams rk)) (buildKeepSet (KeepQueryParams rk))
                     (buildExcludeHeaderSet (ExcludeHeaders rk)) (StripQueryPrefix rk) (StripEmptyParams rk)
                     (DedupQueryParams rk) (IncludeHeaders rk) (excludeHost_of rk)) in
    let p := SetVerbatimAE p (VerbatimEncoding rk) in
    let p := WithCookiePresence to_lower p (CookiePresence rk) in
    WithCookieValues to_lower p (CookieValues rk).

End Config.

(** [strings.EqualFold], outside ASCII a parameter like [strings.ToLower]: it
    is ASCII case-insensitive equality on ASCII strings. Outside ASCII nothing is
    assumed of it, nor could it be that strings with one lower-case form are equal
    under it: [strings.ToLower] maps U+0130 to [i], which does not fold with it. *)
Class FoldLaws (fold_equal : bytes -> bytes -> bool) : Prop :=
  fold_ascii : forall a b, is_ascii a = true -> is_ascii b = true -> fold_equal a b = equal_fold a b.

#[export] Instance fold_laws_ascii : FoldLaws equal_fold.
Proof. by intros a b. Qed.

(** ** The shape of a policy *)

(** A field or cookie name as a policy holds it: a lower-case token. *)
Definition policy_name (f : bytes) : Prop := isHTTPToken f = true /\ map lower_byte f = f.

Record policy_ok (p : KeyPolicy) : Prop := {
  po_includes : Forall policy_name (includeHeaders p);
  po_includes_nodup : NoDup (includeHeaders p);
  po_presence : Forall policy_name (cookiePresence p) /\ fold_distinct (cookiePresence p);
  po_values : Forall policy_name (cookieValues p) /\ fold_distinct (cookieValues p);
  po_disjoint : forall n, n ∈ cookieValues p -> n ∉ cookiePresence p;
  po_excluded : forall f, f ∈ includeHeaders p -> ShouldExcludeHeader (Some p) f = false;
  po_derived : derivedVary p = union_text (includeHeaders p ++ synthetic_fields (Some p));
}.

(** ** What validation accepts *)

Lemma isTchar_ascii (c : byte) : isTchar c = true -> Zb c <? 128 = true.
Proof. by destruct c. Qed.

Lemma token_ascii (s : bytes) : isHTTPToken s = true -> is_ascii s = true.
Proof.
  unfold isHTTPToken. destruct (beq s []); [done|]. unfold is_ascii. rewrite !forallb_forall.
  intros H c Hc. by apply isTchar_ascii, H.
Qed.

Section Accepted.
Context (to_lower : bytes -> bytes) {Hlaws : LowerLaws to_lower} (fold_equal : bytes -> bytes -> bool)
  {Hfold : FoldLaws fold_equal}.

Definition lowered (raw : bytes) : bytes := to_lower (trim_space raw).

Lemma lowered_name (raw : bytes) : isHTTPToken (lowered raw) = true -> policy_name (lowered raw).
Proof.
  intros H. split; [done|]. rewrite <- (lower_ascii (to_lower := to_lower)) by (by apply token_ascii).
  unfold lowered. apply lower_idem.
Qed.

Lemma existsb_beq_false (x : bytes) (l : list bytes) : existsb (beq x) l = false -> x ∉ l.
Proof.
  intros H Hx. apply not_true_iff_false in H. apply H, existsb_exists. exists x.
  split; [by apply list_elem_of_In|by apply beq_eq].
Qed.

Lemma include_loop_ok (path : bytes) (l : list bytes) : forall j seen seen',
  include_loop to_lower path j seen l = ([], seen') -> NoDup seen ->
  Forall (fun raw => isHTTPToken (lowered raw) = true) l /\
  seen' ≡ₚ map lowered l ++ seen /\ NoDup seen'.
Proof.
  induction l as [|raw l IH]; intros j seen seen'; simpl.
  { intros [= <-] Hn. split_and!; [constructor|done|done]. }
  repeat match goal with
  | |- context [let '(es, seen) := ?x in (_ :: es, seen)] => destruct x
  end.
  destruct (beq (trim_space raw) []); [done|]. destruct (beq _ (bs "*")); [done|].
  destruct (isHTTPToken _) eqn:Et; simpl; [|done]. destruct (existsb _ seen) eqn:Es; [done|].
  intros H Hn. destruct (IH _ _ _ H) as (H1 & H2 & H3).
  { constructor; [by apply existsb_beq_false|done]. }
  split_and!; [by constructor| |done]. rewrite H2. unfold lowered. by rewrite Permutation_middle.
Qed.

Lemma names_loop_ok (path : bytes) (l : list bytes) : forall j seen,
  names_loop to_lower path j seen l = [] ->
  Forall (fun raw => isHTTPToken (lowered raw) = true) l.
Proof.
  induction l as [|raw l IH]; intros j seen; simpl; [constructor|].
  destruct (beq (trim_space raw) []); [done|].
  destruct (isHTTPToken _) eqn:Et; simpl; [|done]. destruct (existsb _ seen); [done|].
  intros H. constructor; eauto.
Qed.

Lemma exclude_loop_ok (path : bytes) (seen l : list bytes) : forall j,
  exclude_loop to_lower path j seen l = [] -> forall raw, raw ∈ l -> lowered raw ∉ seen.
Proof.
  induction l as [|x l IH]; intros j; simpl; [intros _ raw H; by apply not_elem_of_nil in H|].
  destruct (existsb _ seen) eqn:E; [done|]. intros H raw [->|Hr]%elem_of_cons; [by apply existsb_beq_false|eauto].
Qed.

Lemma overlap_loop_ok (path : bytes) (presence l : list bytes) : forall j,
  overlap_loop to_lower path j presence l = [] ->
  forall raw, raw ∈ l -> trim_space raw <> [] -> lowered raw ∉ presence.
Proof.
  induction l as [|x l IH]; intros j; simpl; [intros _ raw H; by apply not_elem_of_nil in H|].
  destruct (beq (trim_space x) []) eqn:Ex; simpl.
  - intros H raw [->|Hr]%elem_of_cons Hne; [by apply beq_eq in Ex|eauto].
  - destruct (existsb _ presence) eqn:E; [done|].
    intros H raw [->|Hr]%elem_of_cons Hne; [by apply existsb_beq_false|eauto].
Qed.

Lemma cookie_include_loop_ok (path : bytes) (l : list bytes) : forall j,
  cookie_include_loop fold_equal path j l = [] ->
  forall raw, raw ∈ l -> is_ascii (trim_space raw) = true -> lowered raw <> bs "cookie".
Proof.
  induction l as [|x l IH]; intros j; simpl; [intros _ raw H; by apply not_elem_of_nil in H|].
  destruct (fold_equal (trim_space x) (bs "cookie")) eqn:E; [done|].
  intros H raw [->|Hr]%elem_of_cons Ha; [|eauto]. intros Ec. apply not_true_iff_false in E. apply E.
  rewrite fold_ascii by done. apply beq_eq. unfold lowered in Ec.
  by rewrite (lower_ascii (to_lower := to_lower)) in Ec.
Qed.

(** The names the policy holds. *)
Lemma policy_includes (l : list bytes) : Forall (fun raw => isHTTPToken (lowered raw) = true) l ->
  (let ns := List.filter nonempty (map (fun h => trim_space (to_lower h)) l) in
   match ns with [] => [] | _ => sort_strings ns end) ≡ₚ map lowered l.
Proof.
  intros H. cbn zeta. assert (List.filter nonempty (map (fun h => trim_space (to_lower h)) l) = map lowered l) as ->.
  { induction H as [|raw l Hr Hl IH]; [done|]. simpl. rewrite lower_trim. fold (lowered raw).
    destruct (lowered raw) eqn:E; [done|]. simpl. by rewrite IH. }
  destruct (map lowered l) as [|x ns]; [done|]. apply stable_sort_perm.
Qed.

Lemma policy_cookies (ns : list bytes) : Forall (fun raw => isHTTPToken (lowered raw) = true) ns ->
  Forall policy_name (normalizeCookieNameList to_lower ns) /\ fold_distinct (normalizeCookieNameList to_lower ns) /\
  (forall n, n ∈ normalizeCookieNameList to_lower ns <-> n ∈ map lowered ns).
Proof.
  intros H. destruct (normalize_spec to_lower ns) as (Hd & _ & Hm).
  assert (forall n, n ∈ normalizeCookieNameList to_lower ns <-> n ∈ map lowered ns) as Hin.
  { intros n. rewrite Hm, !list_elem_of_In, in_map_iff. rewrite Forall_forall in H. split.
    - intros (_ & raw & Hr & E). exists raw. rewrite list_elem_of_In in Hr. unfold lowered. by rewrite <- lower_trim.
    - intros (raw & <- & Hr). apply list_elem_of_In in Hr. split.
      + intros E. specialize (H raw Hr). by rewrite E in H.
      + exists raw. unfold lowered. by rewrite <- lower_trim. }
  assert (Forall policy_name (normalizeCookieNameList to_lower ns)) as Hn.
  { apply Forall_forall. intros n. rewrite Hin, list_elem_of_In, in_map_iff. intros (raw & <- & Hr).
    rewrite Forall_forall in H. by apply lowered_name, H, list_elem_of_In. }
  split_and!; [done| |done]. unfold fold_distinct.
  assert (map (map lower_byte) (normalizeCookieNameList to_lower ns) = normalizeCookieNameList to_lower ns) as ->; [|done].
  rewrite <- (map_id (normalizeCookieNameList to_lower ns)) at 2. apply map_ext_Forall.
  eapply Forall_impl; [exact Hn|]. by intros n [_ E].
Qed.

Lemma name_set_elem (l : list bytes) (f : bytes) : map_get (name_set l) f = true -> f ∈ l.
Proof.
  unfold name_set. destruct l as [|x l]; [done|]. generalize (x :: l). clear x l. intros l.
  assert (forall m : gmap bytes bool, map_get (Some (foldl (fun m p => <[p := true]> m) m l)) f = true ->
            f ∈ l \/ map_get (Some m) f = true) as H.
  { induction l as [|y l IH]; intros m; simpl; [auto|]. intros H. destruct (IH _ H) as [Hf|Hf].
    - left. by right.
    - simpl in Hf. destruct (decide (y = f)) as [->|Hne]; [left; left|]. rewrite lookup_insert_ne in Hf by done. auto. }
  intros Hf. destruct (H _ Hf) as [|Hm]; [done|]. simpl in Hm. by rewrite lookup_empty in Hm.
Qed.

End Accepted.

Lemma names_capped_ok (to_lower : bytes -> bytes) (path : bytes) (ns : list bytes) (max : Z) :
  validateCookieNameListCapped to_lower path ns max = [] -> names_loop to_lower path 0 [] ns = [].
Proof. unfold validateCookieNameListCapped. by destruct (max <? len ns). Qed.

(** The parts of an accepted configuration. *)
Lemma accepted_parts (to_lower : bytes -> bytes) (fold_equal : bytes -> bytes -> bool) (path : bytes) (rk : RouteKey) :
  validateRouteKey to_lower fold_equal path rk = [] ->
  (exists seen, include_loop to_lower path 0 [] (IncludeHeaders rk) = ([], seen) /\
     exclude_loop to_lower path 0 seen (ExcludeHeaders rk) = []) /\
  (exists p, names_loop to_lower p 0 [] (CookiePresence rk) = []) /\
  (exists p, names_loop to_lower p 0 [] (CookieValues rk) = []) /\
  (CookieValues rk <> [] -> validateCookieValuesPresenceOverlap to_lower path rk = [] /\
     cookie_include_loop fold_equal path 0 (IncludeHeaders rk) = []).
Proof.
  unfold validateRouteKey, validateIncludeHeaders, validateCookiePresence, validateCookieValues.
  intros (_ & (_ & (_ & (Hi & (Hp & Hv)%app_eq_nil)%app_eq_nil)%app_eq_nil)%app_eq_nil)%app_eq_nil.
  apply app_eq_nil in Hi as [_ Hi]. destruct (include_loop _ _ _ _ _) as [es seen].
  apply app_eq_nil in Hi as [-> Hi]. split_and!.
  - eauto.
  - destruct (CookiePresence rk) as [|x l]; [by exists []|]. eexists. by apply names_capped_ok in Hp.
  - destruct (CookieValues rk) as [|x l]; [by exists []|]. change (len (x :: l) =? 0) with false in Hv. cbn iota in Hv.
    apply app_eq_nil in Hv as [Hv _]. eexists. by apply names_capped_ok in Hv.
  - intros Hne. unfold validateCookieKeyingIncludeHeaders in Hv.
    destruct (len (CookieValues rk) =? 0) eqn:E; [unfold len in E; destruct (CookieValues rk); [done|simpl in E; lia]|].
    apply app_eq_nil in Hv as [_ Hv]. by apply app_eq_nil in Hv.
Qed.

Lemma token_trim (f : bytes) : isHTTPToken f = true -> trim_space f = f.
Proof.
  unfold isHTTPToken. destruct (beq f []) eqn:E; [done|]. intros H. apply trim_space_visible.
  apply forallb_forall. intros c Hc. rewrite forallb_forall in H. specialize (H c Hc). revert H. by destruct c.
Qed.

Section Built.
Context (to_lower : bytes -> bytes) {Hlaws : LowerLaws to_lower}.

Lemma token_nonempty (raw : bytes) : isHTTPToken (lowered to_lower raw) = true -> trim_space raw <> [].
Proof.
  intros Hx E. unfold lowered in Hx. by rewrite E, (lower_ascii (to_lower := to_lower)) in Hx.
Qed.

(** What the compiled policy holds. *)
Lemma built_policy (rk : RouteKey) (p : KeyPolicy) : buildKeyPolicy to_lower rk = Some p ->
  Forall (fun raw => isHTTPToken (lowered to_lower raw) = true) (IncludeHeaders rk) ->
  includeHeaders p ≡ₚ map (lowered to_lower) (IncludeHeaders rk) /\
  cookiePresence p = normalizeCookieNameList to_lower (CookiePresence rk) /\
  cookieValues p = normalizeCookieNameList to_lower (CookieValues rk) /\
  excludeHeaders p = name_set (map to_lower (ExcludeHeaders rk)) /\
  derivedVary p = union_text (includeHeaders p ++ synthetic_fields (Some p)).
Proof.
  unfold buildKeyPolicy. destruct (negb (hasKeyPolicy rk)); [done|]. intros [= <-] Hi.
  split; [|by split_and!]. exact (policy_includes to_lower _ Hi).
Qed.

Lemma overlap_disjoint (path : bytes) (rk : RouteKey) (n : bytes) :
  Forall (fun raw => isHTTPToken (lowered to_lower raw) = true) (CookieValues rk) ->
  Forall (fun raw => isHTTPToken (lowered to_lower raw) = true) (CookiePresence rk) ->
  validateCookieValuesPresenceOverlap to_lower path rk = [] ->
  n ∈ map (lowered to_lower) (CookieValues rk) -> n ∉ map (lowered to_lower) (CookiePresence rk).
Proof.
  rewrite !Forall_forall, !list_elem_of_In, !in_map_iff. intros Hva Hpr Ho (raw & <- & Hr) (raw' & E & Hr').
  apply list_elem_of_In in Hr, Hr'. unfold validateCookieValuesPresenceOverlap in Ho.
  assert ((len (CookieValues rk) =? 0) || (len (CookiePresence rk) =? 0) = false) as El.
  { unfold len. destruct (CookieValues rk); [by apply not_elem_of_nil in Hr|].
    destruct (CookiePresence rk); [by apply not_elem_of_nil in Hr'|done]. }
  rewrite El in Ho. eapply (overlap_loop_ok to_lower) in Ho; [|done|by apply token_nonempty, Hva].
  apply Ho. rewrite list_elem_of_In, in_map_iff. exists (trim_space raw'). split; [exact E|].
  apply filter_In. split; [by apply in_map, list_elem_of_In|].
  apply negb_true_iff, beq_neq. by apply token_nonempty, Hpr.
Qed.

Lemma excluded_not_included (path : bytes) (rk : RouteKey) (seen : list bytes) (f : bytes) :
  exclude_loop to_lower path 0 seen (ExcludeHeaders rk) = [] -> f ∈ seen -> isHTTPToken f = true ->
  map_get (name_set (map to_lower (ExcludeHeaders rk))) f = false.
Proof.
  intros He Hf Ht. apply not_true_iff_false. intros Hx%name_set_elem.
  apply list_elem_of_In, in_map_iff in Hx as (raw & E & Hr).
  apply (exclude_loop_ok to_lower _ _ _ _ He raw (proj2 (list_elem_of_In _ _) Hr)).
  unfold lowered. by rewrite <- lower_trim, E, token_trim.
Qed.

End Built.

(** ** Theorems *)

(** C33. An accepted key configuration compiles to a well-formed policy: every
    included header and listed cookie is a lower-case token, none twice, no
    included header is excluded, no cookie is keyed both by value and by
    presence, and the precomputed Vary list is the union of what the policy
    declares; with value keying the raw Cookie header is not included, when the
    listed names are ASCII. (A name with U+0130 passes the check for [cookie] and
    compiles to it: [dotted_cookie_accepted].) *)
Theorem accepted_key_policy (to_lower : bytes -> bytes) (Hlaws : LowerLaws to_lower)
  (fold_equal : bytes -> bytes -> bool) (Hfold : FoldLaws fold_equal)
  (path : bytes) (rk : RouteKey) (p : KeyPolicy)
  (Hok : validateRouteKey to_lower fold_equal path rk = []) (Hp : buildKeyPolicy to_lower rk = Some p) :
  policy_ok p /\
  (Forall (fun raw => is_ascii (trim_space raw) = true) (IncludeHeaders rk) -> cookieValues p <> [] -> bs "cookie" ∉ includeHeaders p).
Proof.
  destruct (accepted_parts _ _ _ _ Hok) as ((seen & Hi & He) & (pp & Hpr) & (pv & Hva) & Hcv).
  destruct (include_loop_ok to_lower _ _ _ _ _ Hi (NoDup_nil_2)) as (Hit & Hs & Hsn). rewrite app_nil_r in Hs.
  apply names_loop_ok in Hpr, Hva.
  destruct (policy_cookies to_lower _ Hpr) as (P1 & P2 & P3), (policy_cookies to_lower _ Hva) as (V1 & V2 & V3).
  destruct (built_policy to_lower rk p Hp Hit) as (Hin & Ep & Ev & Ex & Ed). rewrite <- Ep in *. rewrite <- Ev in *.
  assert (forall f, f ∈ includeHeaders p -> isHTTPToken f = true) as Htok.
  { intros f. rewrite Hin, list_elem_of_In, in_map_iff. intros (raw & <- & Hr).
    rewrite Forall_forall in Hit. by apply Hit, list_elem_of_In. }
  assert (cookieValues p <> [] -> CookieValues rk <> []) as Hne by (intros H E; apply H; by rewrite Ev, E).
  split; [split; auto|].
  - rewrite Hin. apply Forall_forall. intros f. rewrite list_elem_of_In, in_map_iff. intros (raw & <- & Hr).
    rewrite Forall_forall in Hit. by apply (lowered_name to_lower), Hit, list_elem_of_In.
  - by rewrite Hin, <- Hs.
  - intros n Hn. rewrite P3. apply (overlap_disjoint to_lower path); auto; [|by apply V3].
    apply Hcv, Hne. by destruct (cookieValues p); [apply not_elem_of_nil in Hn|].
  - intros f Hf. simpl. rewrite Ex. eapply (excluded_not_included to_lower); [exact He| |by apply Htok].
    by rewrite Hs, <- Hin.
  - intros Ha H. rewrite Hin, list_elem_of_In, in_map_iff. intros (raw & E & Hr). apply list_elem_of_In in Hr.
    rewrite Forall_forall in Ha. by apply (cookie_include_loop_ok to_lower fold_equal _ _ _ (proj2 (Hcv (Hne H))) raw Hr (Ha _ Hr)) in E.
Qed.

(** ** Flights *)

Lemma uniq_loop_elem (l : list bytes) : forall prev f, f ∈ uniq_loop prev l -> f ∈ l.
Proof.
  induction l as [|x l IH]; intros prev f; simpl; [done|].
  destruct (match prev with None => true | Some q => negb (beq x q) end).
  - intros [->|H]%elem_of_cons; [by left|right; eauto].
  - intros H. right. eauto.
Qed.

Lemma split_join_comma (l : list bytes) : l <> [] -> Forall (fun f => ch "," ∉ f) l ->
  exists f fs, l = f :: fs /\ split_byte (ch ",") (join (bs ", ") l) = f :: map (cons (ch " ")) fs.
Proof.
  intros Hne H. induction H as [|f l Hf Hl IH]; [done|]. exists f, l. split; [done|].
  destruct l as [|g l]; [simpl; by apply split_byte_last|].
  change (join (bs ", ") (f :: g :: l)) with (f ++ ch "," :: ch " " :: join (bs ", ") (g :: l)).
  rewrite split_byte_app by done. f_equal.
  destruct (IH ltac:(done)) as (? & ? & [= <- <-] & E).
  destruct (split_byte_cons (ch ",") (ch " ") (join (bs ", ") (g :: l)) eq_refl) as (w & ws & E' & ->).
  rewrite E in E'. injection E' as <- <-. done.
Qed.

Lemma token_no_comma (f : bytes) : isHTTPToken f = true -> ch "," ∉ f.
Proof.
  unfold isHTTPToken. destruct (beq f []); [done|]. intros H Hc. apply list_elem_of_In in Hc.
  by apply (proj1 (forallb_forall _ _) H) in Hc.
Qed.

Lemma token_trim_space (f : bytes) : isHTTPToken f = true -> trim_space (ch " " :: f) = f.
Proof.
  intros H. rewrite trim_space_ascii by (simpl; by apply token_ascii).
  rewrite <- (token_trim f H) at 2. by rewrite (trim_space_ascii f) by (by apply token_ascii).
Qed.

(** The names of a joined list of lower-case tokens are its elements. *)
Lemma vary_names_join (to_lower : bytes -> bytes) (Hlaws : LowerLaws to_lower) (l : list bytes) (f : bytes) :
  Forall policy_name l -> l <> [] -> f ∈ vary_names to_lower (join (bs ", ") l) -> f ∈ l.
Proof.
  intros Hl Hne. unfold vary_names, sort_strings. rewrite stable_sort_perm.
  destruct (split_join_comma l Hne) as (g & gs & -> & ->).
  { eapply Forall_impl; [exact Hl|]. intros x [Hx _]. by apply token_no_comma. }
  assert (forall x, policy_name x -> to_lower x = x) as Hlow.
  { intros x [Hx Ex]. by rewrite (lower_ascii (to_lower := to_lower)) by (by apply token_ascii). }
  apply Forall_cons in Hl as [Hg Hgs]. cbn [map]. rewrite token_trim, Hlow by (try apply Hg; done).
  intros [->|H]%elem_of_cons; [by left|]. right.
  apply list_elem_of_In, in_map_iff in H as (y & <- & Hy). apply in_map_iff in Hy as (x & <- & Hx).
  apply list_elem_of_In in Hx. rewrite Forall_forall in Hgs. pose proof (Hgs x Hx) as Hp.
  rewrite token_trim_space, Hlow by (try apply Hp; done). done.
Qed.

Lemma synthetic_names (p : option KeyPolicy) : Forall policy_name (synthetic_fields p).
Proof.
  unfold synthetic_fields. apply Forall_app. split.
  - destruct (hasCookiePresence p); repeat constructor.
  - destruct (hasCookieValues p); repeat constructor.
Qed.

(** The header map of a flight: the values of the included fields, and one
    Cookie line. *)
Lemma set_loop_values (reqHeader : Map) (l : list bytes) : wf reqHeader -> forall m, wf m ->
  (forall k, all_values k (pairs m) = [] \/ first_value k (pairs m) = HeaderMap.Get reqHeader k) ->
  let m' := fold_left (fun m f => Set_ m f (HeaderMap.Get reqHeader f)) l m in
  wf m' /\
  (forall k, all_values k (pairs m') = [] \/ first_value k (pairs m') = HeaderMap.Get reqHeader k) /\
  (forall k, (forall f, f ∈ l -> canonicalize f <> k) -> all_values k (pairs m') = all_values k (pairs m)) /\
  (forall f, f ∈ l \/ all_values (canonicalize f) (pairs m) <> [] -> all_values (canonicalize f) (pairs m') <> []).
Proof.
  intros Hr. induction l as [|f l IH]; intros m Hw Hm; simpl.
  { split_and!; auto. intros f [H|H]; [by apply not_elem_of_nil in H|done]. }
  assert (wf (Set_ m f (HeaderMap.Get reqHeader f))) as Hw' by (by apply Set_spec).
  destruct (IH _ Hw') as (H1 & H2 & H3 & H4).
  { intros k. rewrite Set_values by done. rewrite (proj2 (Set_spec m f (HeaderMap.Get reqHeader f) Hw)).
    destruct (beq (canonicalize f) k) eqn:E; [|apply Hm]. right. apply beq_eq in E as <-.
    rewrite !Get_pairs by done. by rewrite canonicalize_idem. }
  split_and!; auto.
  - intros k Hk. rewrite H3 by (intros g Hg; apply Hk; by right). rewrite Set_values by done.
    rewrite (proj2 (beq_neq (canonicalize f) k)); [done|]. apply Hk. by left.
  - intros g Hg. apply H4. rewrite Set_values by done. destruct Hg as [[->|Hg]%elem_of_cons|Hg].
    + right. by rewrite (proj2 (beq_eq _ _) eq_refl).
    + by left.
    + right. by destruct (beq (canonicalize f) (canonicalize g)).
Qed.

Lemma canonical_cookie (f : bytes) : policy_name f -> canonicalize f = Hdr.Cookie -> f = bs "cookie".
Proof.
  intros [_ E] H. apply (f_equal (map fold_byte)) in H. rewrite fold_canonicalize in H.
  change (map fold_byte f) with (map lower_byte f) in H. rewrite E in H. by rewrite H.
Qed.

Lemma flight_values (p : KeyPolicy) (reqHeader : Map) : wf reqHeader -> Forall policy_name (includeHeaders p) ->
  (hasCookieKeying (Some p) = true -> bs "cookie" ∉ includeHeaders p) ->
  (forall f, f ∈ includeHeaders p -> HeaderMap.Get (flightHeaders p reqHeader) f = HeaderMap.Get reqHeader f) /\
  (hasCookieKeying (Some p) = true -> CookieAll (flightHeaders p reqHeader) = CookieAll reqHeader).
Proof.
  intros Hr Hn Hc. destruct (set_loop_values reqHeader (includeHeaders p) Hr NewMap wf_NewMap) as (H1 & H2 & H3 & H4);
    [by left|]. cbn zeta in *. unfold flightHeaders.
  set (m := fold_left _ (includeHeaders p) NewMap) in *.
  assert (forall f, f ∈ includeHeaders p -> HeaderMap.Get m f = HeaderMap.Get reqHeader f) as Hm.
  { intros f Hf. rewrite (Get_pairs m) by done.
    destruct (H2 (canonicalize f)) as [E|E]; [by apply (H4 f) in E; [|left]|].
    rewrite E, !Get_pairs by done. by rewrite canonicalize_idem. }
  destruct (hasCookieKeying (Some p)); [|by split].
  assert (forall f, f ∈ includeHeaders p -> canonicalize f <> Hdr.Cookie) as Hnc.
  { intros f Hf E. rewrite Forall_forall in Hn. apply canonical_cookie in E; [|by apply Hn]. subst. by apply Hc. }
  split.
  - intros f Hf. rewrite Get_pairs by (by apply Set_spec). rewrite (proj2 (Set_spec m Hdr.Cookie _ H1)).
    change (canonicalize Hdr.Cookie) with Hdr.Cookie. rewrite (proj2 (beq_neq _ _)) by (intros E; by apply (Hnc f Hf)).
    rewrite <- Get_pairs by done. by apply Hm.
  - intros _. rewrite (CookieAll_join (Set_ _ _ _)), Set_values by done.
    change (canonicalize Hdr.Cookie) with Hdr.Cookie. rewrite (proj2 (beq_eq _ _) eq_refl).
    rewrite H3 by done. simpl. destruct (CookieAll reqHeader); done.
Qed.

(** The fields of the precomputed Vary list. *)
Lemma derived_names (to_lower : bytes -> bytes) (Hlaws : LowerLaws to_lower) (p : KeyPolicy) (f : bytes) :
  policy_ok p -> derivedVary p <> [] -> f ∈ vary_names to_lower (derivedVary p) ->
  f ∈ includeHeaders p ++ synthetic_fields (Some p).
Proof.
  intros Hp. rewrite (po_derived p Hp). unfold union_text. intros Hne Hf.
  set (l := includeHeaders p ++ synthetic_fields (Some p)) in *.
  assert (Forall policy_name (uniq_loop None (sort_strings l))) as Hl.
  { apply Forall_forall. intros x Hx%uniq_loop_elem. revert x Hx. apply Forall_forall. unfold sort_strings.
    rewrite stable_sort_perm. apply Forall_app. split; [apply Hp|apply synthetic_names]. }
  apply vary_names_join in Hf; auto.
  - apply uniq_loop_elem in Hf. unfold sort_strings in Hf. by rewrite stable_sort_perm in Hf.
  - intros E. by rewrite E in Hne.
Qed.

(** A flight's map gives every declared field the request's value. *)
Lemma flight_field_value (to_lower : bytes -> bytes) (p : KeyPolicy) (reqHeader : Map) (f : bytes) :
  policy_ok p -> (hasCookieKeying (Some p) = true -> bs "cookie" ∉ includeHeaders p) -> wf reqHeader ->
  f ∈ includeHeaders p ++ synthetic_fields (Some p) ->
  map_value to_lower (Some p) (flightHeaders p reqHeader) f = map_value to_lower (Some p) reqHeader f.
Proof.
  intros Hp Hc Hw. destruct (flight_values p reqHeader Hw (po_includes p Hp) Hc) as [Hg Hck].
  unfold map_value, field_value. intros [Hi|Hs]%elem_of_app.
  - rewrite Hg by done.
    destruct (hasCookieKeying (Some p)) eqn:Ek; [by rewrite Hck|]. unfold hasCookieKeying in Ek.
    apply orb_false_iff in Ek as [-> ->]. by rewrite !andb_false_r.
  - unfold synthetic_fields in Hs. apply elem_of_app in Hs as [Hs|Hs].
    + destruct (hasCookiePresence (Some p)) eqn:E1; [|by apply not_elem_of_nil in Hs].
      apply list_elem_of_singleton in Hs as ->. rewrite Hck by (unfold hasCookieKeying; by rewrite E1). done.
    + destruct (hasCookieValues (Some p)) eqn:E1; [|by apply not_elem_of_nil in Hs].
      apply list_elem_of_singleton in Hs as ->.
      rewrite Hck by (unfold hasCookieKeying; by rewrite E1, orb_true_r). done.
Qed.

(** A cold request joins another's flight under the key its stored variant
    would have: on a route that declares dimensions, with a well-formed
    policy that does not include the raw Cookie header beside cookie keying,
    the flight key is the variant key of the Vary value a response without a
    Vary header is stored under. *)
Theorem flight_key_is_variant_key (to_lower : bytes -> bytes) (Hlaws : LowerLaws to_lower) (sum64 : bytes -> Z)
  (p : KeyPolicy) (k : Api.Key) (reqHeader resHeader : Map)
  (Hp : policy_ok p) (Hc : hasCookieKeying (Some p) = true -> bs "cookie" ∉ includeHeaders p)
  (Hw : wf reqHeader) (Hd : hasFlightDimensions (Some p) = true) (Hv : joinedVary resHeader = []) :
  collapseFlightKey to_lower sum64 (Some p) k k false reqHeader
  = VariantKey to_lower sum64 k (effectiveVary to_lower resHeader (Some p)) reqHeader (Some p).
Proof.
  assert (effectiveVary to_lower resHeader (Some p) = derivedVary p) as Ee.
  { unfold effectiveVary. rewrite Hv. rewrite (po_derived p Hp). unfold hasFlightDimensions in Hd.
    destruct (hasIncludeHeaders (Some p)), (hasCookieKeying (Some p)); done. }
  assert (collapseFlightKey to_lower sum64 (Some p) k k false reqHeader
          = VariantKey to_lower sum64 k (derivedVary p) (flightHeaders p reqHeader) (Some p)) as ->.
  { unfold collapseFlightKey. rewrite (proj2 (beq_eq k k) eq_refl), Hd. cbn [negb orb flightVary]. unfold VariantKey.
    destruct (beq _ k) eqn:E; [|done]. by apply beq_eq in E. }
  rewrite Ee. unfold VariantKey. rewrite !variantKeyCore_spec by auto using map_source_laws. unfold variant_spec, toMap.
  destruct (beq (derivedVary p) [] || varyContainsStar (derivedVary p)) eqn:Es; [done|].
  assert (fields_text (map_value to_lower (Some p) (flightHeaders p reqHeader)) (nominated to_lower (derivedVary p) (Some p))
          = fields_text (map_value to_lower (Some p) reqHeader) (nominated to_lower (derivedVary p) (Some p))) as Et;
    [|destruct (nominated _ _ _); [done|by rewrite Et]].
  apply fields_text_ext, Forall_forall. intros f Hf. unfold nominated, kept in Hf.
  apply list_elem_of_In, filter_In in Hf as [Hf _]. apply list_elem_of_In in Hf.
  apply flight_field_value; auto. apply derived_names in Hf; auto. intros E. by rewrite E in Es.
Qed.

(** ** What validation lets through *)

(** [cookie_presence] alone does not reject the raw Cookie header in
    [include_headers] (the check runs only for [cookie_values]); the flight
    map then replaces the first Cookie line by all of them, so two requests
    share a flight although their stored variants differ. *)
Definition presence_and_cookie : RouteKey :=
  {| IncludeHost := None; StripQueryParams := []; ExcludeHeaders := []; IncludeHeaders := [bs "Cookie"];
     CookiePresence := [bs "cart"]; CookieValues := []; KeepQueryParams := []; StripQueryPrefix := [];
     StripEmptyParams := false; DedupQueryParams := false; VerbatimEncoding := false |}.

Lemma cookie_include_accepted (sum64 : bytes -> Z) (k : Api.Key) :
  let policy := buildKeyPolicy (map lower_byte) presence_and_cookie in
  let two := line_map [(bs "Cookie", bs "a=1"); (bs "Cookie", bs "b=2")] in
  let one := line_map [(bs "Cookie", bs "a=1; b=2")] in
  validateRouteKey (map lower_byte) equal_fold (bs "key") presence_and_cookie = [] /\
  collapseFlightKey (map lower_byte) sum64 policy k k false two
  = collapseFlightKey (map lower_byte) sum64 policy k k false one /\
  map_value (map lower_byte) policy two (bs "cookie") <> map_value (map lower_byte) policy one (bs "cookie").
Proof.
  intros policy two one. split_and!.
  - vm_compute. reflexivity.
  - assert (buildKeyPolicy (map lower_byte) presence_and_cookie
            = Some (default KeyPolicy0 (buildKeyPolicy (map lower_byte) presence_and_cookie))) as E by (vm_compute; reflexivity).
    fold policy in E. rewrite E. set (p := default KeyPolicy0 policy) in *. unfold collapseFlightKey.
    assert (flightHeaders p two = flightHeaders p one) as -> by (vm_compute; reflexivity). done.
  - vm_compute. discriminate.
Qed.

(** [strings.ToLower] on ASCII and U+0130, and [strings.EqualFold], which tells
    U+0130 from every ASCII letter: a name written with it passes the check for
    [cookie] and is compiled to it, next to value keying. *)
Fixpoint lower_dotted (s : bytes) : bytes :=
  match s with
  | a :: ((b :: s') as t) => if (Zb a =? 196) && (Zb b =? 176) then ch "i" :: lower_dotted s' else lower_byte a :: lower_dotted t
  | _ => map lower_byte s
  end.
Definition dotted_cookie : RouteKey :=
  {| presence_and_cookie with IncludeHeaders := [bs "cook" ++ [bZ 196; bZ 176] ++ bs "e"]; CookieValues := [bs "tier"] |}.

Lemma dotted_cookie_accepted :
  validateRouteKey lower_dotted equal_fold (bs "key") dotted_cookie = [] /\
  (includeHeaders <$> buildKeyPolicy lower_dotted dotted_cookie) = Some [bs "cookie"] /\
  (cookieValues <$> buildKeyPolicy lower_dotted dotted_cookie) = Some [bs "tier"].
Proof. vm_compute. auto. Qed.

(** An excluded header is looked up as it is written: with a blank around it
    the configuration is accepted and nothing is excluded. *)
Definition padded_exclude : RouteKey := {| presence_and_cookie with ExcludeHeaders := [bs " X-Debug"]; IncludeHeaders := [] |}.

Lemma padded_exclude_ignored :
  validateRouteKey (map lower_byte) equal_fold (bs "key") padded_exclude = [] /\
  ShouldExcludeHeader (buildKeyPolicy (map lower_byte) padded_exclude) (bs "x-debug") = false.
Proof. vm_compute. auto. Qed.

(** ** Witnesses *)

Definition shop_key : RouteKey :=
  {| presence_and_cookie with IncludeHeaders := [bs " X-Region"; bs "Accept-Language"]; ExcludeHeaders := [bs "Origin"];
     CookieValues := [bs "Tier"] |}.
Definition shop_policy : KeyPolicy := default KeyPolicy0 (buildKeyPolicy (map lower_byte) shop_key).

Lemma accepted_key_policy_witness :
  policy_ok shop_policy /\ cookieValues shop_policy = [bs "tier"] /\ bs "cookie" ∉ includeHeaders shop_policy.
Proof.
  destruct (accepted_key_policy (map lower_byte) lower_laws_ascii equal_fold fold_laws_ascii (bs "key") shop_key shop_policy)
    as [H1 H2]; [vm_compute; reflexivity..|].
  split; [exact H1|]. split; [vm_compute; reflexivity|]. apply H2; [|vm_compute; discriminate].
  repeat constructor.
Defined.

Lemma shop_policy_ok : policy_ok shop_policy.
Proof.
  assert (forall l : list bytes, forallb (fun f => isHTTPToken f && beq (map lower_byte f) f) l = true -> Forall policy_name l) as Hn.
  { intros l. rewrite forallb_forall, Forall_forall. intros H x Hx. apply list_elem_of_In, H, andb_true_iff in Hx as [H1 H2].
    split; [done|]. by apply beq_eq. }
  split.
  - apply Hn. vm_compute. reflexivity.
  - apply (bool_decide_eq_true_1 _). vm_compute. reflexivity.
  - split; [apply Hn; vm_compute; reflexivity|]. apply (bool_decide_eq_true_1 _). vm_compute. reflexivity.
  - split; [apply Hn; vm_compute; reflexivity|]. apply (bool_decide_eq_true_1 _). vm_compute. reflexivity.
  - intros n Hv Hp. assert (forallb (fun n => negb (existsb (beq n) (cookiePresence shop_policy))) (cookieValues shop_policy) = true) as H
      by (vm_compute; reflexivity).
    rewrite forallb_forall in H. apply list_elem_of_In, H, negb_true_iff, existsb_beq_false in Hv. done.
  - intros f Hf. assert (forallb (fun f => negb (ShouldExcludeHeader (Some shop_policy) f)) (includeHeaders shop_policy) = true) as H
      by (vm_compute; reflexivity).
    rewrite forallb_forall in H. apply list_elem_of_In, H in Hf. by apply negb_true_iff.
  - vm_compute. reflexivity.
Qed.

Lemma flight_key_is_variant_key_witness :
  collapseFlightKey (map lower_byte) len (Some shop_policy) zero_key zero_key false sample_map
  = VariantKey (map lower_byte) len zero_key (effectiveVary (map lower_byte) NewMap (Some shop_policy)) sample_map (Some shop_policy).
Proof.
  apply flight_key_is_variant_key.
  - exact lower_laws_ascii.
  - exact shop_policy_ok.
  - intros _. apply (bool_decide_eq_false_1 _). vm_compute. reflexivity.
  - exact wf_sample_map.
  - vm_compute. reflexivity.
  - reflexivity.
Defined.
