(* ===== verification/H1Parser.v ===== *)
(** * The HTTP/1 request parser

    src/internal/server/h1parser/parser.go: reading a request head from a
    connection, the fused header scan, the smuggling test, rebuilding a head
    for the fallback handler, and the keep-alive loop. The theorems say that
    the scan derives what a second scan of the headers would, that a parse
    stops at the blank line that ends the head and leaves every byte after it,
    that a rebuilt head reads as the same request, and that what happens on a
    connection depends on the bytes received and not on how they were cut into
    reads.

    A position in a buffer is the rest of the buffer from there. *)

From S2P Require Import Prelude GoStd CacheControl HeaderMap GoStrings RawReq Keys Cookies Vary.

Definition CR : byte := x0d.
Definition LF : byte := x0a.
Definition crlf : bytes := [CR; LF].

(** [api.RawRequest]: the header array is its first [NHeaders] entries. *)
Record Request : Type := MkRequest {
  Method : bytes;
  Path : bytes;
  Query : bytes;
  Host : bytes;
  HTTPVersion : bytes;
  Scheme : bytes;
  CacheControlRaw : bytes;
  ScanFlags : Z;
  Headers : RawHeaders;
  ConnectionClose : bool;
  OwnerMiss : bool;
  OwnerGateReject : bool;
  OwnerShed : bool;
  OwnerResolver : bool;
  Source : bytes;
}.

Definition MaxRawHeaders : Z := 100.
Definition readBufferSize : nat := Z.to_nat 16384.

Inductive parse_error : Type :=
| MalformedRequestLine | MissingPath | MissingVersion | ObsFold | TooManyHeaders.

(** ** Scanning *)

(** [for i < len(s) && s[i] != c]: the bytes before the first [c], and the
    rest from it. *)
Fixpoint span_byte (c : byte) (s : bytes) : bytes * bytes :=
  match s with
  | [] => ([], [])
  | a :: s' => if beqb a c then ([], s) else let '(l, r) := span_byte c s' in (a :: l, r)
  end.

(** The line up to the first CR LF, and what follows it. *)
Fixpoint cut_crlf (s : bytes) : option (bytes * bytes) :=
  match s with
  | [] => None
  | a :: s' =>
      match s' with
      | b :: s'' =>
          if beqb a CR && beqb b LF then Some ([], s'')
          else match cut_crlf s' with Some (l, r) => Some (a :: l, r) | None => None end
      | [] => None
      end
  end.

(** [bytes.Index(buf, "\r\n\r\n") + 4]: [None] is -1. *)
Fixpoint findHeaderEnd (s : bytes) : option nat :=
  if has_prefix s (crlf ++ crlf) then Some 4%nat
  else match s with [] => None | _ :: s' => S <$> findHeaderEnd s' end.

(** [indexByte] *)
Definition indexByte (s : bytes) (b : byte) : Z := index_byte b s.

(** ** The request line *)

Definition parseRequestLine (buf : bytes) (req : Request) : result parse_error Request :=
  let '(line, rest) := span_byte CR buf in
  if negb (has_prefix rest crlf) then Err MalformedRequestLine
  else
    let '(method, r1) := span_byte (ch " ") line in
    match r1 with
    | [] => Err MissingPath
    | _ :: r1 =>
        let '(fullPath, r2) := span_byte (ch " ") r1 in
        match r2 with
        | [] => Err MissingVersion
        | _ :: version =>
            let q := indexByte fullPath (ch "?") in
            Ok (if 0 <=? q
                then {| req with Method := method; Path := take (Z.to_nat q) fullPath;
                        Query := drop (Z.to_nat q + 1) fullPath; HTTPVersion := version |}
                else {| req with Method := method; Path := fullPath; HTTPVersion := version |})
        end
    end.

(** ** Headers *)

Fixpoint tokens_loop (fuel : nat) (val : bytes) : list bytes :=
  match fuel, val with
  | S f, _ :: _ =>
      let '(token, val') :=
        match cut_byte (ch ",") val with Some (t, r) => (t, r) | None => (val, []) end in
      let token := drop_while_end ows (drop_while ows token) in
      (if beq token [] then [] else [token]) ++ tokens_loop f val'
  | _, _ => []
  end.
Definition splitHeaderTokens (val : bytes) : list bytes := tokens_loop (length val) val.

Definition connectionCloseValue (val : bytes) : bool :=
  if beq val [] then false else existsb (fun token => EqualFold token (bs "close")) (splitHeaderTokens val).

Definition has_flag (flags f : Z) : bool := negb (Z.land flags f =? 0).

Definition appendHeader (req : Request) (line : bytes) : Request :=
  match cut_byte (ch ":") line with
  | None => req
  | Some (key, after) =>
      let value := drop_while ows after in
      let flags := ScanFlagForHeader key value in
      let hostSeen := has_flag (ScanFlags req) FlagHostSeen in
      let flags :=
        if has_flag flags FlagHasCL && has_flag (ScanFlags req) FlagHasCL then Z.lor flags FlagDuplicateCL else flags in
      let req := {| req with Headers := Headers req ++ [MkRawHeader key value];
                    ScanFlags := Z.lor (ScanFlags req) flags |} in
      if has_flag flags FlagHostSeen && negb hostSeen then {| req with Host := value |}
      else if EqualFold key Hdr.CacheControl then {| req with CacheControlRaw := value |}
      else if has_flag flags FlagHasConnection && negb (ConnectionClose req)
      then {| req with ConnectionClose := connectionCloseValue value |}
      else req
  end.

Definition starts_blank (line : bytes) : bool := match line with c :: _ => ows c | [] => false end.

(** The loop of [parseHeaders] from [pos] on: the request, and the position it
    stops at. Each round consumes a line and its CR LF. *)
Fixpoint headers_loop (fuel : nat) (pos : bytes) (req : Request) : result parse_error (Request * bytes) :=
  match fuel with
  | O => Ok (req, pos)
  | S f =>
      match cut_crlf pos with
      | None => Ok (req, pos)
      | Some ([], _) => Ok (req, pos)
      | Some (line, rest) =>
          if starts_blank line then Err ObsFold
          else if MaxRawHeaders <=? len (Headers req) then Err TooManyHeaders
          else headers_loop f rest (appendHeader req line)
      end
  end.

(** [skipRequestLine] *)
Definition skipRequestLine (buf : bytes) : bytes :=
  match cut_crlf buf with Some (_, rest) => rest | None => [] end.

Definition parse_headers_at (buf : bytes) (req : Request) : result parse_error (Request * bytes) :=
  let pos := skipRequestLine buf in headers_loop (length pos) pos req.
Definition parseHeaders (buf : bytes) (req : Request) : result parse_error Request :=
  match parse_headers_at buf req with Ok (req, _) => Ok req | Err e => Err e end.

Definition smugglingDetected (req : Request) : bool :=
  let f := ScanFlags req in
  if has_flag f FlagHasCL && has_flag f FlagHasTE then true else has_flag f FlagDuplicateCL.

(** ** A buffered request *)

(** [scratch] after the soft reset; [scheme] is the listener's. *)
Definition reset_request (scheme : bytes) : Request :=
  {| Method := []; Path := []; Query := []; Host := []; HTTPVersion := []; Scheme := scheme;
     CacheControlRaw := []; ScanFlags := 0; Headers := []; ConnectionClose := false; OwnerMiss := false;
     OwnerGateReject := false; OwnerShed := false; OwnerResolver := false; Source := [] |}.

(** The request, whether it must fall through, and the bytes after its head. *)
Definition parseBuffer (scheme : bytes) (buf : bytes) (headerEnd : option nat)
    : result parse_error (Request * bool * bytes) :=
  let! req := parseRequestLine buf (reset_request scheme) in
  let! req := parseHeaders buf req in
  if smugglingDetected req then Ok (req, true, [])
  else Ok (req, false, match headerEnd with
                       | Some e => if (e <? length buf)%nat then drop e buf else []
                       | None => []
                       end).

(** ** Reading from the connection

    What the connection still delivers: data, or a failure (a deadline, a
    reset), or, as [io.Reader] allows, its last data in one [Read] with the error
    that ends it; the end of the list is the end of the stream. [Read] fills at
    most [cap] bytes, and returns at once when there is no room. *)

Inductive read_event : Type := Data (b : bytes) | Fail | DataEOF (b : bytes) | DataFail (b : bytes).
Abbreviation conn := (list read_event).

(** The data a read returns, with its error if it has one. *)
Inductive read_result : Type := ReadOk (b : bytes) (c : conn) | ReadEOF (b : bytes) | ReadFail (b : bytes).

Definition read (cap : nat) (c : conn) : read_result :=
  match cap, c with
  | O, _ => ReadOk [] c
  | _, [] => ReadEOF []
  | _, Fail :: _ => ReadFail []
  | _, Data b :: c' => ReadOk (take cap b) (match drop cap b with [] => c' | r => Data r :: c' end)
  | _, DataEOF b :: _ => match drop cap b with [] => ReadEOF (take cap b) | r => ReadOk (take cap b) [DataEOF r] end
  | _, DataFail b :: _ => match drop cap b with [] => ReadFail (take cap b) | r => ReadOk (take cap b) [DataFail r] end
  end.

(** The results of [parseRequest]: an error from the connection or from the
    parser, the buffered bytes of an oversize head, or a request. *)
Inductive request_result : Type :=
| ReadError
| ParseError (e : parse_error)
| Oversize (buf : bytes) (c : conn)
| Parsed (req : Request) (fallThrough : bool) (excess : bytes) (c : conn).

Definition finish_parse (scheme buf : bytes) (headerEnd : option nat) (c : conn) : request_result :=
  match parseBuffer scheme buf headerEnd with
  | Ok (req, ft, excess) => Parsed req ft excess c
  | Err e => ParseError e
  end.

(** The read loop; the fuel counts reads. *)
Fixpoint read_loop (fuel : nat) (scheme buf : bytes) (c : conn) : request_result :=
  match (if (0 <? length buf)%nat then findHeaderEnd buf else None) with
  | Some e => finish_parse scheme buf (Some e) c
  | None =>
      match fuel with
      | O => ReadError
      | S f =>
          match read (readBufferSize - length buf) c with
          | ReadFail _ => ReadError
          | ReadEOF b => let buf := buf ++ b in if (0 <? length buf)%nat then finish_parse scheme buf None [] else ReadError
          | ReadOk b c' =>
              let buf := buf ++ b in
              match findHeaderEnd buf with
              | Some e => finish_parse scheme buf (Some e) c'
              | None => if (readBufferSize <=? length buf)%nat then Oversize buf c' else read_loop f scheme buf c'
              end
          end
      end
  end.

(** Every read takes a byte, takes an event or finds the buffer full. *)
Fixpoint reads (c : conn) : nat :=
  match c with
  | [] => 1
  | Fail :: c' => S (reads c')
  | Data b :: c' => S (length b) + reads c'
  | DataEOF b :: _ | DataFail b :: _ => S (length b)
  end.

Definition parseRequest (scheme prefix : bytes) (c : conn) : request_result :=
  read_loop (reads c) scheme (take readBufferSize prefix) c.

(** ** The head for the fallback handler *)

Definition header_line (h : RawHeader) : bytes := Key h ++ bs ": " ++ Value h ++ crlf.

Definition rebuildRequestHead (req : Request) (excess : bytes) : bytes :=
  Method req ++ [ch " "] ++ Path req ++ (if beq (Query req) [] then [] else ch "?" :: Query req)
  ++ [ch " "] ++ HTTPVersion req ++ crlf
  ++ bs "Host: " ++ Host req ++ crlf
  ++ concat (map header_line (List.filter (fun h => negb (EqualFold (Key h) (bs "Host"))) (Headers req)))
  ++ crlf ++ excess.

Definition isConnectionClose (req : Request) : bool := ConnectionClose req.

(** [prefixConn.Read]: the prefix before the connection. *)
Definition prefixConn (prefix : bytes) (c : conn) : conn := match prefix with [] => c | _ => Data prefix :: c end.

(** ** Lines *)

Definition crlf_free (s : bytes) : Prop := cut_crlf s = None.

Lemma cut_crlf_cons (a b : byte) (s : bytes) :
  cut_crlf (a :: b :: s)
  = if beqb a CR && beqb b LF then Some ([], s)
    else match cut_crlf (b :: s) with Some (l, r) => Some (a :: l, r) | None => None end.
Proof. reflexivity. Qed.

Lemma cut_crlf_app (l r : bytes) : crlf_free l -> cut_crlf (l ++ crlf ++ r) = Some (l, r).
Proof.
  unfold crlf_free. induction l as [|a [|b l] IH]; intros H; [done| |].
  - unfold crlf. cbn [app]. rewrite cut_crlf_cons. change (beqb CR LF) with false. by rewrite andb_false_r.
  - cbn [app] in *. rewrite cut_crlf_cons in *. destruct (beqb a CR && beqb b LF); [done|].
    rewrite IH; [done|]. by destruct (cut_crlf (b :: l)) as [[??]|].
Qed.

Lemma crlf_free_tail (c : byte) (s : bytes) : crlf_free (c :: s) -> crlf_free s.
Proof.
  unfold crlf_free. destruct s as [|b s]; [done|]. rewrite cut_crlf_cons. destruct (_ && _); [done|].
  by destruct (cut_crlf (b :: s)) as [[??]|].
Qed.

Lemma cut_crlf_inv (s l r : bytes) : cut_crlf s = Some (l, r) -> s = l ++ crlf ++ r /\ crlf_free l.
Proof.
  revert l. induction s as [|a [|b s] IH]; intros l H; [done..|]. rewrite cut_crlf_cons in H.
  destruct (beqb a CR && beqb b LF) eqn:E.
  - injection H as <- <-. apply andb_true_iff in E as [->%beqb_eq ->%beqb_eq]. done.
  - destruct (cut_crlf (b :: s)) as [[l' r']|] eqn:Ec; [|done]. injection H as <- <-.
    destruct (IH l' eq_refl) as [Es Hl]. split; [by rewrite Es|]. unfold crlf_free in *.
    destruct l' as [|b' l']; [done|]. cbn [app] in Es. injection Es as <- Es. by rewrite cut_crlf_cons, E, Hl.
Qed.

Lemma cut_crlf_ext (s x l r : bytes) : cut_crlf s = Some (l, r) -> cut_crlf (s ++ x) = Some (l, r ++ x).
Proof. intros [-> H]%cut_crlf_inv. rewrite <- !app_assoc. by apply cut_crlf_app. Qed.

Lemma crlf_free_prefix (a b : bytes) : crlf_free (a ++ b) -> crlf_free a.
Proof.
  unfold crlf_free. intros H. destruct (cut_crlf a) as [[l r]|] eqn:E; [|done]. by rewrite (cut_crlf_ext a b l r E) in H.
Qed.

Lemma crlf_free_suffix (a b : bytes) : crlf_free (a ++ b) -> crlf_free b.
Proof. induction a as [|c a IH]; [done|]. intros H. apply IH. by eapply crlf_free_tail. Qed.

Lemma crlf_free_app (a b : bytes) : crlf_free a -> crlf_free b -> head b <> Some LF -> crlf_free (a ++ b).
Proof.
  intros Ha Hb Hh. induction a as [|c [|d a] IH]; [done| |].
  - destruct b as [|e b]; [done|]. cbn [app]. unfold crlf_free in *. rewrite cut_crlf_cons, Hb.
    destruct (beqb e LF) eqn:E; [apply beqb_eq in E; by subst|]. by rewrite andb_false_r.
  - pose proof (IH (crlf_free_tail _ _ Ha)) as H'. cbn [app] in *. unfold crlf_free in *.
    rewrite cut_crlf_cons, H' in *. by destruct (_ && _).
Qed.

Lemma drop_while_suffix (p : byte -> bool) (s : bytes) : exists t, s = t ++ drop_while p s.
Proof.
  induction s as [|c s [t IH]]; [by exists []|]. simpl. destruct (p c); [exists (c :: t); by rewrite IH at 1|by exists []].
Qed.

Lemma span_byte_inv (c : byte) (s l r : bytes) : span_byte c s = (l, r) ->
  s = l ++ r /\ c ∉ l /\ (r = [] \/ exists r', r = c :: r').
Proof.
  revert l. induction s as [|a s IH]; intros l H; simpl in H.
  - injection H as <- <-. split_and!; [done|apply not_elem_of_nil|by left].
  - destruct (beqb a c) eqn:E.
    + injection H as <- <-. apply beqb_eq in E as ->. split_and!; [done|apply not_elem_of_nil|right; eauto].
    + destruct (span_byte c s) as [l' r'] eqn:Es. injection H as <- <-. destruct (IH l' eq_refl) as (-> & Hn & Hr).
      apply beqb_neq in E. split_and!; [done| |done]. rewrite not_elem_of_cons. done.
Qed.

Lemma span_byte_app (c : byte) (l r : bytes) : c ∉ l -> span_byte c (l ++ c :: r) = (l, c :: r).
Proof.
  induction l as [|a l IH]; simpl; [by rewrite beqb_refl|]. rewrite not_elem_of_cons. intros [Ha Hl].
  rewrite (proj2 (beqb_neq a c)) by done. by rewrite IH.
Qed.

Lemma crlf_free_no_cr (s : bytes) : CR ∉ s -> crlf_free s.
Proof.
  unfold crlf_free. induction s as [|a [|b s] IH]; [done..|]. rewrite not_elem_of_cons. intros [Ha Hs].
  rewrite cut_crlf_cons, (proj2 (beqb_neq a CR)) by done. cbn [andb]. by rewrite IH.
Qed.

(** ** The fused scan *)

Lemma has_flag_lor (a b f : Z) : has_flag (Z.lor a b) f = has_flag a f || has_flag b f.
Proof.
  unfold has_flag. rewrite Z.land_lor_distr_l, <- negb_andb. f_equal. apply eq_true_iff_eq.
  by rewrite andb_true_iff, !Z.eqb_eq, Z.lor_eq_0_iff.
Qed.

Lemma EqualFold_other (k a b : bytes) : EqualFold k a = true -> EqualFold k b = EqualFold a b.
Proof. intros H%EqualFold_spec. apply eq_true_iff_eq. by rewrite !EqualFold_spec, H. Qed.

(** Each of the flags is set for one field name only. *)
Ltac scan_cases k v :=
  unfold ScanFlagForHeader; cbn [existsb];
  destruct (EqualFold v (bs "no-cache"));
  repeat match goal with
  | |- context [EqualFold k ?n] =>
      let E := fresh "E" in
      destruct (EqualFold k n) eqn:E; [rewrite ?(EqualFold_other k n _ E); vm_compute; reflexivity|]; cbn [orb]
  end; vm_compute; reflexivity.

Lemma flag_host (k v : bytes) : has_flag (ScanFlagForHeader k v) FlagHostSeen = EqualFold k (bs "Host").
Proof. scan_cases k v. Qed.
Lemma flag_cl (k v : bytes) : has_flag (ScanFlagForHeader k v) FlagHasCL = EqualFold k (bs "Content-Length").
Proof. scan_cases k v. Qed.
Lemma flag_te (k v : bytes) : has_flag (ScanFlagForHeader k v) FlagHasTE = EqualFold k (bs "Transfer-Encoding").
Proof. scan_cases k v. Qed.
Lemma flag_connection (k v : bytes) : has_flag (ScanFlagForHeader k v) FlagHasConnection = EqualFold k (bs "Connection").
Proof. scan_cases k v. Qed.
Lemma flag_dup (k v : bytes) : has_flag (ScanFlagForHeader k v) FlagDuplicateCL = false.
Proof. scan_cases k v. Qed.

(** The lines of a field, and whether one of them asks to close. *)
Definition count_field (r : RawHeaders) (name : bytes) : nat := length (raw_values r name).
Definition asks_close (r : RawHeaders) : bool := existsb connectionCloseValue (raw_values r (bs "Connection")).

(** What the scan has derived is what the header lines say. *)
Record scan_ok (req : Request) : Prop := {
  ok_recompute : foldl recompute_step (0, false, []) (Headers req)
                 = (ScanFlags req, has_flag (ScanFlags req) FlagHasCL, CacheControlRaw req);
  ok_host_seen : has_flag (ScanFlags req) FlagHostSeen = HasHeader (Headers req) (bs "Host");
  ok_host : Host req = Header (Headers req) (bs "Host");
  ok_close : ConnectionClose req = asks_close (Headers req);
  ok_cl : has_flag (ScanFlags req) FlagHasCL = (0 <? count_field (Headers req) (bs "Content-Length"))%nat;
  ok_te : has_flag (ScanFlags req) FlagHasTE = (0 <? count_field (Headers req) (bs "Transfer-Encoding"))%nat;
  ok_dup : has_flag (ScanFlags req) FlagDuplicateCL = (1 <? count_field (Headers req) (bs "Content-Length"))%nat;
  ok_values : parsed_headers (Headers req);
}.

Lemma raw_values_snoc (r : RawHeaders) (k v n : bytes) :
  raw_values (r ++ [MkRawHeader k v]) n = raw_values r n ++ (if EqualFold k n then [v] else []).
Proof. unfold raw_values. rewrite List.filter_app, map_app. cbn [List.filter RawReq.Key]. by destruct (EqualFold k n). Qed.

Lemma count_field_snoc (r : RawHeaders) (k v n : bytes) :
  count_field (r ++ [MkRawHeader k v]) n = (count_field r n + (if EqualFold k n then 1 else 0))%nat.
Proof. unfold count_field. rewrite raw_values_snoc, length_app. by destruct (EqualFold k n). Qed.

Lemma HasHeader_values (r : RawHeaders) (n : bytes) : HasHeader r n = negb (bool_decide (raw_values r n = [])).
Proof.
  unfold HasHeader, raw_values. induction r as [|h r IH]; [done|]. simpl. by destruct (EqualFold (RawReq.Key h) n).
Qed.

Lemma no_leading_blank_drop (s : bytes) : no_leading_blank (drop_while ows s) = true.
Proof. induction s as [|c s IH]; [done|]. simpl. destruct (ows c) eqn:E; [done|]. simpl. by rewrite E. Qed.

Definition dup_flag (req : Request) (key : bytes) : Z :=
  if EqualFold key (bs "Content-Length") && has_flag (ScanFlags req) FlagHasCL then FlagDuplicateCL else 0.

(** What one line changes. *)
Lemma appendHeader_fields (req : Request) (line key after : bytes) :
  cut_byte (ch ":") line = Some (key, after) ->
  let v := drop_while ows after in
  Headers (appendHeader req line) = Headers req ++ [MkRawHeader key v] /\
  ScanFlags (appendHeader req line) = Z.lor (Z.lor (ScanFlags req) (ScanFlagForHeader key v)) (dup_flag req key) /\
  Host (appendHeader req line)
  = (if EqualFold key (bs "Host") && negb (has_flag (ScanFlags req) FlagHostSeen) then v else Host req) /\
  CacheControlRaw (appendHeader req line) = (if EqualFold key (bs "Cache-Control") then v else CacheControlRaw req) /\
  ConnectionClose (appendHeader req line)
  = (if EqualFold key (bs "Connection") then ConnectionClose req || connectionCloseValue v else ConnectionClose req).
Proof.
  intros E v. unfold appendHeader, dup_flag. rewrite E. fold v. rewrite flag_cl. change Hdr.CacheControl with (bs "Cache-Control").
  set (flags := if EqualFold key (bs "Content-Length") && _ then _ else ScanFlagForHeader key v).
  assert (has_flag flags FlagHostSeen = EqualFold key (bs "Host")) as ->.
  { subst flags. destruct (_ && _); rewrite ?has_flag_lor, flag_host; [apply orb_false_r|done]. }
  assert (has_flag flags FlagHasConnection = EqualFold key (bs "Connection")) as ->.
  { subst flags. destruct (_ && _); rewrite ?has_flag_lor, flag_connection; [apply orb_false_r|done]. }
  assert (Z.lor (ScanFlags req) flags
    = Z.lor (Z.lor (ScanFlags req) (ScanFlagForHeader key v))
        (if EqualFold key (bs "Content-Length") && has_flag (ScanFlags req) FlagHasCL then FlagDuplicateCL else 0)) as ->.
  { subst flags. destruct (_ && _); [by rewrite Z.lor_assoc|by rewrite Z.lor_0_r]. }
  destruct (EqualFold key (bs "Host")) eqn:EH.
  { rewrite !(EqualFold_other key (bs "Host") _ EH).
    destruct (has_flag (ScanFlags req) FlagHostSeen); cbn [andb negb]; split_and!; reflexivity. }
  cbn [andb]. destruct (EqualFold key (bs "Cache-Control")) eqn:EC.
  { rewrite !(EqualFold_other key (bs "Cache-Control") _ EC). split_and!; reflexivity. }
  destruct (EqualFold key (bs "Connection")); cbn [andb ConnectionClose]; [|split_and!; reflexivity].
  destruct (ConnectionClose req) eqn:Ecl; cbn [negb]; split_and!; reflexivity.
Qed.

Lemma scan_ok_append (req : Request) (line : bytes) : scan_ok req -> scan_ok (appendHeader req line).
Proof.
  intros H. destruct (cut_byte (ch ":") line) as [[key after]|] eqn:E; [|by unfold appendHeader; rewrite E].
  destruct (appendHeader_fields req line key after E) as (E1 & E2 & E3 & E4 & E5).
  set (v := drop_while ows after) in *. destruct H as [H1 H2 H3 H4 H5 H6 H7 H8].
  assert (has_flag (dup_flag req key) FlagDuplicateCL
          = EqualFold key (bs "Content-Length") && has_flag (ScanFlags req) FlagHasCL) as Hd
    by (unfold dup_flag; destruct (EqualFold key (bs "Content-Length") && _); reflexivity).
  assert (forall f, Z.land FlagDuplicateCL f = 0 -> has_flag (dup_flag req key) f = false) as Hn.
  { intros f Hf. unfold dup_flag. destruct (EqualFold key (bs "Content-Length") && _); unfold has_flag; [by rewrite Hf|by rewrite Z.land_0_l]. }
  constructor; rewrite ?E1, ?E2, ?E3, ?E4, ?E5, ?has_flag_lor, ?flag_host, ?flag_cl, ?flag_te, ?flag_dup, ?Hd,
    ?(Hn FlagHasCL), ?(Hn FlagHasTE), ?(Hn FlagHostSeen), ?orb_false_r by done.
  - rewrite foldl_app, H1. cbn [foldl recompute_step RawReq.Key RawReq.Value]. unfold dup_flag.
    destruct (EqualFold key (bs "Content-Length")), (has_flag (ScanFlags req) FlagHasCL); cbn [andb orb];
      rewrite ?Z.lor_0_r; done.
  - rewrite H2, !HasHeader_values, raw_values_snoc. destruct (EqualFold key (bs "Host")).
    + rewrite orb_true_r. by destruct (raw_values (Headers req) (bs "Host")).
    + by rewrite app_nil_r, orb_false_r.
  - rewrite H2, H3, HasHeader_values, !Header_first, raw_values_snoc.
    destruct (EqualFold key (bs "Host")); [|by rewrite app_nil_r].
    by destruct (raw_values (Headers req) (bs "Host")).
  - unfold asks_close in *. rewrite raw_values_snoc, existsb_app, H4.
    destruct (EqualFold key (bs "Connection")); cbn [existsb]; by rewrite ?orb_false_r.
  - rewrite count_field_snoc, H5. destruct (EqualFold key (bs "Content-Length")); [|by rewrite orb_false_r, Nat.add_0_r].
    rewrite orb_true_r. symmetry. apply Nat.ltb_lt. lia.
  - rewrite count_field_snoc, H6. destruct (EqualFold key (bs "Transfer-Encoding")); [|by rewrite orb_false_r, Nat.add_0_r].
    rewrite orb_true_r. symmetry. apply Nat.ltb_lt. lia.
  - rewrite count_field_snoc, H5, H7. destruct (EqualFold key (bs "Content-Length")); cbn [andb]; [|by rewrite orb_false_r, Nat.add_0_r].
    apply eq_true_iff_eq. rewrite orb_true_iff, !Nat.ltb_lt. lia.
  - apply Forall_app. split; [done|]. apply Forall_cons. split; [apply no_leading_blank_drop|constructor].
Qed.

(** What holds of the request line's result holds of the loop's. *)
Lemma headers_loop_inv (P : Request -> Prop) :
  (forall req line, P req -> len (Headers req) < MaxRawHeaders -> crlf_free line -> starts_blank line = false ->
     P (appendHeader req line)) ->
  forall fuel pos req req' pos', P req -> headers_loop fuel pos req = Ok (req', pos') -> P req'.
Proof.
  intros HP. induction fuel as [|f IH]; intros pos req req' pos' H; simpl; [congruence|].
  destruct (cut_crlf pos) as [[[|c line] rest]|] eqn:Ec; [congruence| |congruence].
  apply cut_crlf_inv in Ec as [_ Hl].
  destruct (starts_blank _) eqn:Eb; [done|]. destruct (_ <=? _) eqn:E; [done|]. apply Z.leb_gt in E. intros E'.
  by eapply IH; [apply HP|].
Qed.

Lemma scan_ok_start (req : Request) : Headers req = [] -> ScanFlags req = 0 -> Host req = [] -> CacheControlRaw req = [] ->
  ConnectionClose req = false -> scan_ok req.
Proof. intros E1 E2 E3 E4 E5. constructor; rewrite ?E1, ?E2, ?E3, ?E4, ?E5; try reflexivity. constructor. Qed.

Lemma parseRequestLine_frame (buf : bytes) (req req' : Request) : parseRequestLine buf req = Ok req' ->
  Headers req' = Headers req /\ ScanFlags req' = ScanFlags req /\ Host req' = Host req /\
  CacheControlRaw req' = CacheControlRaw req /\ ConnectionClose req' = ConnectionClose req /\ Scheme req' = Scheme req.
Proof.
  unfold parseRequestLine. destruct (span_byte CR buf) as [line rest]. destruct (negb _); [done|].
  destruct (span_byte (ch " ") line) as [m [|c1 r1]]; [done|]. destruct (span_byte (ch " ") r1) as [fp [|c2 v]]; [done|].
  intros [= <-]. destruct (0 <=? _); by split_and!.
Qed.

Lemma parse_scan_ok (scheme buf : bytes) (e : option nat) (req : Request) (ft : bool) (excess : bytes) :
  parseBuffer scheme buf e = Ok (req, ft, excess) ->
  scan_ok req /\ len (Headers req) <= MaxRawHeaders /\ ft = smugglingDetected req.
Proof.
  unfold parseBuffer, parseHeaders. destruct (parseRequestLine _ _) as [r1|] eqn:E1; [|done].
  apply parseRequestLine_frame in E1 as (A1 & A2 & A3 & A4 & A5 & _).
  destruct (parse_headers_at buf r1) as [[r2 pos]|] eqn:E2; [|done]. intros E3.
  assert (r2 = req) as <- by (destruct (smugglingDetected r2); congruence).
  assert (ft = smugglingDetected r2) by (destruct (smugglingDetected r2); congruence).
  unfold parse_headers_at in E2. split_and!; [| |done].
  - eapply (headers_loop_inv scan_ok); [|by apply scan_ok_start|exact E2]. intros r line Hr _ _ _. by apply scan_ok_append.
  - eapply (headers_loop_inv (fun r => len (Headers r) <= MaxRawHeaders)); [|by rewrite A1|exact E2].
    intros r line Hr Hlt _ _. destruct (cut_byte (ch ":") line) as [[k a]|] eqn:Ec.
    + destruct (appendHeader_fields r line k a Ec) as [-> _]. rewrite len_app. unfold len at 2. simpl. lia.
    + unfold appendHeader. by rewrite Ec.
Qed.

(** C38. The single pass of [appendHeader] derives what separate scans
    of the parsed lines would: the flags and the Cache-Control value are those
    [RecomputeScanFlags] computes, Host is the first Host line, the connection
    is to be closed exactly when a Connection line has a close token, and the
    request falls through as smuggled exactly when Content-Length comes with
    Transfer-Encoding or is repeated. No value starts with a blank, and there
    are at most 100 lines. *)
Theorem fused_scan_exact (scheme buf : bytes) (e : option nat) (req : Request) (ft : bool) (excess : bytes) :
  parseBuffer scheme buf e = Ok (req, ft, excess) ->
  (ScanFlags req, CacheControlRaw req) = RecomputeScanFlags (Headers req) /\
  Host req = Header (Headers req) (bs "Host") /\
  isConnectionClose req = existsb connectionCloseValue (raw_values (Headers req) (bs "Connection")) /\
  (ft = true <-> (0 < count_field (Headers req) (bs "Content-Length") /\
                  0 < count_field (Headers req) (bs "Transfer-Encoding") \/
                  1 < count_field (Headers req) (bs "Content-Length"))%nat) /\
  parsed_headers (Headers req) /\ len (Headers req) <= 100.
Proof.
  intros ([H1 H2 H3 H4 H5 H6 H7 H8] & Hl & ->)%parse_scan_ok.
  split_and!; [|done|done| |done|done].
  - unfold RecomputeScanFlags. by rewrite H1.
  - unfold smugglingDetected. rewrite H5, H6, H7. set (c := count_field _ _). set (t := count_field _ _).
    destruct (Nat.ltb_spec 0 c), (Nat.ltb_spec 0 t); simpl; rewrite ?Nat.ltb_lt; intuition lia.
Qed.

Definition sample_head : bytes :=
  bs "GET /a?b=1 HTTP/1.1" ++ crlf ++ bs "Host: h" ++ crlf ++ bs "Connection: keep-alive, Close" ++ crlf
  ++ bs "Cache-Control:  no-cache" ++ crlf ++ bs "content-length: 0" ++ crlf ++ bs "junk" ++ crlf ++ crlf ++ bs "GET".
Definition sample_request : Request :=
  match parseBuffer (bs "http") sample_head (findHeaderEnd sample_head) with
  | Ok (req, _, _) => req
  | Err _ => reset_request []
  end.

Lemma fused_scan_exact_witness :
  parseBuffer (bs "http") sample_head (findHeaderEnd sample_head) = Ok (sample_request, false, bs "GET") /\
  isConnectionClose sample_request = existsb connectionCloseValue (raw_values (Headers sample_request) (bs "Connection")).
Proof.
  assert (parseBuffer (bs "http") sample_head (findHeaderEnd sample_head) = Ok (sample_request, false, bs "GET")) as H
    by (vm_compute; reflexivity).
  split; [exact H|]. apply (fused_scan_exact _ _ _ _ _ _ H).
Defined.

(** ** The shape of a head

    A request line, header lines, and an empty line. *)

Definition line_ok (l : bytes) : Prop := crlf_free l /\ l <> [].
Definition lines_text (ls : list bytes) : bytes := concat (map (fun l => l ++ crlf) ls) ++ crlf.
Definition head_text (l0 : bytes) (ls : list bytes) : bytes := l0 ++ crlf ++ lines_text ls.

Lemma lines_text_cons (l : bytes) (ls : list bytes) (x : bytes) :
  lines_text (l :: ls) ++ x = l ++ crlf ++ (lines_text ls ++ x).
Proof. unfold lines_text. cbn [map concat]. by rewrite <- !app_assoc. Qed.

(** The end of the head, from the start of a line. *)
Definition head_end (pos : bytes) : option nat := if has_prefix pos crlf then Some 2%nat else findHeaderEnd pos.

Lemma findHeaderEnd_cons (a : byte) (s : bytes) :
  findHeaderEnd (a :: s) = if has_prefix (a :: s) [CR; LF; CR; LF] then Some 4%nat else S <$> findHeaderEnd s.
Proof. reflexivity. Qed.

Lemma findHeaderEnd_cut (l r : bytes) : crlf_free l ->
  findHeaderEnd (l ++ crlf ++ r) = (fun n => length l + 2 + n)%nat <$> head_end r.
Proof.
  unfold head_end. induction l as [|a l IH]; intros H.
  - unfold crlf. cbn [app]. rewrite !findHeaderEnd_cons. change (has_prefix (CR :: LF :: r) _) with (has_prefix r [CR; LF]).
    change (has_prefix (LF :: r) _) with false. destruct (has_prefix r [CR; LF]); [done|]. by destruct (findHeaderEnd r).
  - cbn [app]. rewrite findHeaderEnd_cons, IH by (by eapply crlf_free_tail).
    destruct (has_prefix (a :: l ++ crlf ++ r) _) eqn:E.
    + exfalso. apply has_prefix_spec in E as (t & E). destruct l as [|b l]; [done|].
      injection E as -> -> _. done.
    + destruct (if has_prefix r crlf then _ else _); done.
Qed.

Lemma findHeaderEnd_none (s : bytes) : crlf_free s -> findHeaderEnd s = None.
Proof.
  induction s as [|a s IH]; [done|]. intros H. rewrite findHeaderEnd_cons, IH by (by eapply crlf_free_tail).
  destruct (has_prefix (a :: s) _) eqn:E; [|done]. apply has_prefix_spec in E as (t & E). by rewrite E in H.
Qed.

Lemma head_end_lines (ls : list bytes) (x : bytes) : Forall line_ok ls ->
  head_end (lines_text ls ++ x) = Some (length (lines_text ls)).
Proof.
  induction 1 as [|l ls [Hl Hn] Hls IH].
  { unfold head_end. by rewrite has_prefix_app. }
  rewrite lines_text_cons.
  unfold head_end. destruct (has_prefix (l ++ _) crlf) eqn:E.
  - exfalso. apply has_prefix_spec in E as (t & E). destruct l as [|a [|b l]]; [done|discriminate E|].
    injection E as -> -> E. discriminate Hl.
  - rewrite findHeaderEnd_cut, IH by done. simpl. f_equal. unfold lines_text. cbn [map concat].
    rewrite !length_app. simpl. lia.
Qed.

Lemma head_end_inv (n : nat) : forall s e, (length s <= n)%nat -> head_end s = Some e ->
  exists ls x, s = lines_text ls ++ x /\ e = length (lines_text ls) /\ Forall line_ok ls.
Proof.
  induction n as [|n IH]; intros s e Hn H.
  - destruct s; [done|]. simpl in Hn. lia.
  - unfold head_end in H. destruct (has_prefix s crlf) eqn:E.
    + injection H as <-. apply has_prefix_spec in E as (x & ->). exists [], x. done.
    + destruct (cut_crlf s) as [[l r]|] eqn:Ec; [|by rewrite findHeaderEnd_none in H].
      apply cut_crlf_inv in Ec as [-> Hl]. rewrite findHeaderEnd_cut in H by done.
      destruct (head_end r) as [e'|] eqn:Er; [|done]. injection H as <-.
      destruct (IH r e') as (ls & x & -> & -> & Hls); [rewrite !length_app in Hn; simpl in Hn; lia|done|].
      exists (l :: ls), x. rewrite lines_text_cons. split_and!; [done| |].
      * unfold lines_text. cbn [map concat]. rewrite !length_app. simpl. lia.
      * constructor; [|done]. split; [done|]. intros ->. by rewrite app_nil_l, has_prefix_app in E.
Qed.

(** [findHeaderEnd] finds the end of exactly such a head. *)
Lemma findHeaderEnd_head (s : bytes) (e : nat) : findHeaderEnd s = Some e <->
  exists l0 ls x, s = head_text l0 ls ++ x /\ e = length (head_text l0 ls) /\ crlf_free l0 /\ Forall line_ok ls.
Proof.
  unfold head_text. split.
  - intros H. destruct (cut_crlf s) as [[l0 r]|] eqn:Ec; [|by rewrite findHeaderEnd_none in H].
    apply cut_crlf_inv in Ec as [-> Hl]. rewrite findHeaderEnd_cut in H by done.
    destruct (head_end r) as [e'|] eqn:Er; [|done]. injection H as <-.
    destruct (head_end_inv _ r e' (Nat.le_refl _) Er) as (ls & x & -> & -> & Hls).
    exists l0, ls, x. rewrite <- !app_assoc. split_and!; [done| |done|done]. rewrite !length_app. simpl. lia.
  - intros (l0 & ls & x & -> & -> & Hl & Hls). rewrite <- !app_assoc, findHeaderEnd_cut, head_end_lines by done.
    simpl. f_equal. rewrite !length_app. simpl. lia.
Qed.

(** The header lines, one at a time. *)
Fixpoint run_lines (ls : list bytes) (req : Request) : result parse_error Request :=
  match ls with
  | [] => Ok req
  | l :: ls' =>
      if starts_blank l then Err ObsFold
      else if MaxRawHeaders <=? len (Headers req) then Err TooManyHeaders
      else run_lines ls' (appendHeader req l)
  end.

Lemma headers_loop_lines (ls : list bytes) (x : bytes) : Forall line_ok ls -> forall fuel req, (length ls < fuel)%nat ->
  headers_loop fuel (lines_text ls ++ x) req
  = match run_lines ls req with Ok r => Ok (r, crlf ++ x) | Err e => Err e end.
Proof.
  induction 1 as [|l ls [Hl Hn] Hls IH]; intros [|f] req Hf; try (simpl in Hf; lia).
  - cbn [headers_loop]. unfold lines_text. cbn [map concat]. rewrite app_nil_l.
    by rewrite (cut_crlf_app [] x eq_refl : cut_crlf (crlf ++ x) = _).
  - rewrite lines_text_cons. cbn [headers_loop run_lines]. rewrite cut_crlf_app by done.
    destruct l as [|a l]; [done|]. destruct (starts_blank _); [done|]. destruct (_ <=? _); [done|].
    apply IH. simpl in Hf. lia.
Qed.

Lemma lines_text_length (ls : list bytes) : (length ls < length (lines_text ls))%nat.
Proof.
  unfold lines_text. rewrite length_app. simpl. induction ls as [|l ls IH]; [simpl; lia|].
  cbn [map concat length]. rewrite !length_app. simpl. lia.
Qed.

(** A line ends at its CR LF, whatever follows. *)
Lemma parseRequestLine_line (l0 r : bytes) (req : Request) : crlf_free l0 ->
  parseRequestLine (l0 ++ crlf ++ r) req = parseRequestLine (l0 ++ crlf) req.
Proof.
  intros H. unfold parseRequestLine. destruct (span_byte CR l0) as [a b] eqn:E.
  apply span_byte_inv in E as (-> & Ha & [->|(b' & ->)]).
  - rewrite app_nil_r. unfold crlf at 1 3. cbn [app]. rewrite !span_byte_app by done.
    assert (forall t, has_prefix (CR :: LF :: t) crlf = true) as Hp by (intros t; apply has_prefix_spec; by exists t).
    by rewrite !Hp.
  - rewrite <- !app_assoc. cbn [app]. rewrite !span_byte_app by done.
    destruct b' as [|c b']; [done|].
    assert (beqb LF c = false) as Hc.
    { apply beqb_neq. intros <-. apply crlf_free_suffix in H. done. }
    unfold crlf. cbn [app has_prefix]. by rewrite Hc, !andb_false_r.
Qed.

Definition parse_head (scheme l0 : bytes) (ls : list bytes) : result parse_error Request :=
  let! req := parseRequestLine (l0 ++ crlf) (reset_request scheme) in run_lines ls req.

(** Of a buffer that holds a whole head, only the head is parsed, and every
    byte after it is left. *)
Lemma parseBuffer_head (scheme l0 : bytes) (ls : list bytes) (x : bytes) : crlf_free l0 -> Forall line_ok ls ->
  parseBuffer scheme (head_text l0 ls ++ x) (Some (length (head_text l0 ls)))
  = match parse_head scheme l0 ls with
    | Ok req => Ok (req, smugglingDetected req, if smugglingDetected req then [] else x)
    | Err e => Err e
    end.
Proof.
  intros Hl Hls. unfold parseBuffer, parse_head, parseHeaders, parse_headers_at, skipRequestLine.
  assert (head_text l0 ls ++ x = l0 ++ crlf ++ (lines_text ls ++ x)) as Eh by (unfold head_text; by rewrite <- !app_assoc).
  rewrite Eh, parseRequestLine_line, cut_crlf_app by done.
  destruct (parseRequestLine _ _) as [req|]; [|done]. cbn beta iota zeta. rewrite headers_loop_lines; [|done|].
  - destruct (run_lines ls req) as [r|]; [|done]. destruct (smugglingDetected r); [done|].
    rewrite <- Eh, drop_app_length. destruct (_ <? _)%nat eqn:E; [done|].
    apply Nat.ltb_ge in E. rewrite length_app in E. destruct x; [done|]. simpl in E. lia.
  - rewrite length_app. pose proof (lines_text_length ls). lia.
Qed.

(** ** The rebuilt head *)

Lemma drop_S_app (p q : bytes) (c : byte) : drop (S (length p)) (p ++ c :: q) = q.
Proof. induction p as [|a p IH]; [done|]. exact IH. Qed.

Ltac elems :=
  rewrite ?elem_of_app, ?elem_of_cons, ?elem_of_app, ?elem_of_cons, ?elem_of_app, ?elem_of_cons, ?elem_of_app,
    ?elem_of_cons, ?elem_of_nil in *.

(** The request line's parts, as they can come out of a line. *)
Definition line_parts (m p q v : bytes) : Prop :=
  ch " " ∉ m /\ ch " " ∉ p ++ q /\ ch "?" ∉ p /\ CR ∉ m ++ p ++ q ++ v.
Definition with_line (scheme m p q v : bytes) : Request :=
  {| (reset_request scheme) with Method := m; Path := p; Query := q; HTTPVersion := v |}.
Definition target (p q : bytes) : bytes := p ++ (if beq q [] then [] else ch "?" :: q).
Definition request_line (m p q v : bytes) : bytes := m ++ ch " " :: target p q ++ ch " " :: v.

Lemma parseRequestLine_parts (scheme buf : bytes) (req : Request) : parseRequestLine buf (reset_request scheme) = Ok req ->
  exists m p q v, line_parts m p q v /\ req = with_line scheme m p q v.
Proof.
  unfold parseRequestLine. destruct (span_byte CR buf) as [line rest] eqn:E0. destruct (negb _); [done|].
  apply span_byte_inv in E0 as (_ & Hcr & _).
  destruct (span_byte (ch " ") line) as [m [|c1 r1]] eqn:E1; [done|]. apply span_byte_inv in E1 as (-> & Hm & _).
  destruct (span_byte (ch " ") r1) as [fp [|c2 v]] eqn:E2; [done|]. apply span_byte_inv in E2 as (-> & Hfp & _).
  unfold indexByte. rewrite index_byte_cut. intros [= <-].
  destruct (cut_byte (ch "?") fp) as [[p q]|] eqn:E3.
  - apply cut_byte_spec in E3 as [-> Hp]. rewrite (proj2 (Z.leb_le 0 (len p)) (len_nonneg p)).
    exists m, p, q, v. unfold line_parts, len. rewrite Nat2Z.id, take_app_length, Nat.add_1_r.
    rewrite drop_S_app. split; [|done]. elems. tauto.
  - apply cut_byte_None in E3. exists m, fp, [], v. unfold line_parts. split; [|done].
    elems. tauto.
Qed.

Lemma request_line_no_cr (m p q v : bytes) : line_parts m p q v -> CR ∉ request_line m p q v.
Proof.
  intros (_ & _ & _ & Hcr). unfold request_line, target. destruct (beq q []); elems; intuition done.
Qed.

Lemma parseRequestLine_build (scheme m p q v : bytes) : line_parts m p q v ->
  parseRequestLine (request_line m p q v ++ crlf) (reset_request scheme) = Ok (with_line scheme m p q v).
Proof.
  intros Hlp. pose proof (request_line_no_cr _ _ _ _ Hlp) as Hc. destruct Hlp as (Hm & Hs & Hq & Hcr).
  unfold parseRequestLine, request_line in *.
  assert (ch " " ∉ target p q) as Ht.
  { unfold target. destruct (beq q []); elems; [tauto|].
    intros [?|[?|?]]; [tauto|done|tauto]. }
  unfold crlf at 1. rewrite (span_byte_app CR _ [LF] Hc). change (has_prefix [CR; LF] crlf) with (has_prefix (crlf ++ []) crlf).
  rewrite has_prefix_app. cbn [negb]. rewrite (span_byte_app (ch " ") m) by done. rewrite (span_byte_app (ch " ") (target p q)) by done.
  unfold indexByte. rewrite index_byte_cut. unfold target, with_line.
  destruct (beq q []) eqn:Eq; [apply beq_eq in Eq as ->|].
  - rewrite app_nil_r. destruct (cut_byte (ch "?") p) as [[a b]|] eqn:E; [|done].
    apply cut_byte_spec in E as [-> _]. rewrite elem_of_app, elem_of_cons in Hq. tauto.
  - rewrite cut_byte_app by done. rewrite (proj2 (Z.leb_le 0 (len p)) (len_nonneg p)).
    unfold len. by rewrite Nat2Z.id, take_app_length, Nat.add_1_r, drop_S_app.
Qed.

(** A header as it can come out of a line. *)
Definition header_ok (h : RawHeader) : Prop :=
  crlf_free (Key h) /\ crlf_free (Value h) /\ ch ":" ∉ Key h /\ starts_blank (Key h) = false /\
  no_leading_blank (Value h) = true.
Definition line_of (h : RawHeader) : bytes := Key h ++ bs ": " ++ Value h.

Lemma header_ok_line (line key after : bytes) : crlf_free line -> starts_blank line = false ->
  cut_byte (ch ":") line = Some (key, after) -> header_ok (MkRawHeader key (drop_while ows after)).
Proof.
  intros Hl Hb [-> Hk]%cut_byte_spec. destruct (drop_while_suffix ows after) as [t Et].
  split_and!; cbn [Key Value]; [by eapply crlf_free_prefix| |done| |apply no_leading_blank_drop].
  - apply crlf_free_suffix, crlf_free_tail in Hl. rewrite Et in Hl. by eapply crlf_free_suffix.
  - by destruct key.
Qed.

Lemma line_of_ok (h : RawHeader) : header_ok h ->
  line_ok (line_of h) /\ starts_blank (line_of h) = false /\
  cut_byte (ch ":") (line_of h) = Some (Key h, ch " " :: Value h) /\ drop_while ows (ch " " :: Value h) = Value h.
Proof.
  intros (Hk & Hv & Hc & Hb & Hn). unfold line_of. change (bs ": ") with [ch ":"; ch " "]. cbn [app].
  split_and!; [split| | |].
  - apply crlf_free_app; [done| |done]. apply (crlf_free_app [ch ":"]); [done| |done].
    destruct (Value h) as [|c v] eqn:Ev; [done|]. unfold crlf_free in *. by rewrite cut_crlf_cons, Hv.
  - by destruct (Key h).
  - by destruct (Key h).
  - by apply cut_byte_app.
  - cbn [drop_while]. change (ows (ch " ")) with true. cbn iota. destruct (Value h) as [|c v]; [done|].
    cbn [no_leading_blank] in Hn. apply negb_true_iff in Hn. cbn [drop_while]. by rewrite Hn.
Qed.

(** Fields other than those the scan derives. *)
Definition base (r : Request) : Request :=
  {| r with Headers := []; Host := []; ScanFlags := 0; CacheControlRaw := []; ConnectionClose := false |}.

Lemma base_append (req : Request) (line : bytes) : base (appendHeader req line) = base req.
Proof.
  unfold appendHeader. destruct (cut_byte _ _) as [[k a]|]; [|done].
  repeat match goal with |- base (if ?b then _ else _) = _ => destruct b; [reflexivity|] end. reflexivity.
Qed.

Lemma run_lines_headers (hs : list RawHeader) : forall req, Forall header_ok hs -> scan_ok req ->
  len (Headers req) + len hs <= MaxRawHeaders ->
  exists req', run_lines (map line_of hs) req = Ok req' /\ Headers req' = Headers req ++ hs /\ scan_ok req' /\ base req' = base req.
Proof.
  induction hs as [|h hs IH]; intros req Hf Hs Hm.
  - exists req. by rewrite app_nil_r.
  - apply Forall_cons in Hf as [Hh Hhs]. cbn [map run_lines]. rewrite len_cons in Hm. pose proof (len_nonneg hs).
    destruct (line_of_ok h Hh) as (_ & -> & Ec & Ed). rewrite (proj2 (Z.leb_gt _ _)) by lia.
    destruct (appendHeader_fields req _ _ _ Ec) as (E1 & _). rewrite Ed in E1.
    destruct (IH (appendHeader req (line_of h))) as (req' & -> & E2 & Hs' & E3);
      [done|by apply scan_ok_append|rewrite E1, len_app; unfold len in *; simpl; lia|].
    exists req'. rewrite E2, E1, <- app_assoc, E3, base_append. split_and!; [done| |done|done]. by destruct h.
Qed.

Lemma request_ext (a b : Request) : base a = base b -> scan_ok a -> scan_ok b -> Headers a = Headers b -> a = b.
Proof.
  intros Hb [A1 _ A3 A4 _ _ _ _] [B1 _ B3 B4 _ _ _ _] Hh. rewrite Hh in *. rewrite A1 in B1.
  destruct a, b. unfold base in Hb. simpl in *. injection Hb; injection B1; intros. subst. reflexivity.
Qed.

Lemma parse_header_ok (scheme buf : bytes) (e : option nat) (req : Request) (ft : bool) (excess : bytes) :
  parseBuffer scheme buf e = Ok (req, ft, excess) ->
  Forall header_ok (Headers req) /\ exists m p q v, line_parts m p q v /\ base req = with_line scheme m p q v.
Proof.
  unfold parseBuffer, parseHeaders. destruct (parseRequestLine _ _) as [r1|] eqn:E1; [|done].
  apply parseRequestLine_parts in E1 as (m & p & q & v & Hp & ->).
  destruct (parse_headers_at buf _) as [[r2 pos]|] eqn:E2; [|done]. intros E3.
  assert (r2 = req) as <- by (destruct (smugglingDetected r2); congruence).
  unfold parse_headers_at in E2.
  assert (Forall header_ok (Headers r2) /\ base r2 = with_line scheme m p q v) as [? ?]; [|by eauto 10].
  refine (headers_loop_inv (fun r => Forall header_ok (Headers r) /\ base r = with_line scheme m p q v) _ _ _ _ _ _ _ E2);
    [|split; [constructor|reflexivity]].
  intros r line [Hr Hbr] _ Hl Hb. rewrite base_append. split; [|done].
  destruct (cut_byte (ch ":") line) as [[k a]|] eqn:Ec.
  - destruct (appendHeader_fields r line k a Ec) as [-> _]. apply Forall_app. split; [done|].
    apply Forall_cons. split; [by eapply header_ok_line|constructor].
  - unfold appendHeader. by rewrite Ec.
Qed.

(** [Host] and the other lines, as the rebuilt head has them. *)
Definition is_host (h : RawHeader) : bool := EqualFold (Key h) (bs "Host").
Definition rebuilt_headers (req : Request) : RawHeaders :=
  MkRawHeader (bs "Host") (Host req) :: List.filter (fun h => negb (is_host h)) (Headers req).
Definition rebuilt (req : Request) : Request :=
  {| req with Headers := rebuilt_headers req; ScanFlags := Z.lor FlagHostSeen (ScanFlags req) |}.

Lemma rebuild_head_text (req : Request) (x : bytes) :
  rebuildRequestHead req x
  = head_text (request_line (Method req) (Path req) (Query req) (HTTPVersion req)) (map line_of (rebuilt_headers req)) ++ x.
Proof.
  unfold rebuildRequestHead, head_text, request_line, target, lines_text, rebuilt_headers. cbn [map concat].
  unfold line_of at 1. cbn [Key Value]. change (bs "Host" ++ bs ": " ++ Host req) with (bs "Host: " ++ Host req).
  rewrite map_map. unfold is_host.
  rewrite (map_ext (fun h => line_of h ++ crlf) header_line) by (intros h; unfold header_line, line_of; by rewrite <- !app_assoc).
  rewrite <- !app_assoc. cbn [app]. rewrite <- !app_assoc. reflexivity.
Qed.

Lemma raw_values_rebuilt (req : Request) (n : bytes) : EqualFold (bs "Host") n = false ->
  raw_values (rebuilt_headers req) n = raw_values (Headers req) n.
Proof.
  intros Hn. unfold raw_values, rebuilt_headers. cbn [List.filter Key]. rewrite Hn.
  induction (Headers req) as [|h hs IH]; [done|]. cbn [List.filter]. unfold is_host at 1.
  destruct (EqualFold (Key h) (bs "Host")) eqn:E; cbn [negb].
  - by rewrite (EqualFold_other _ _ n E), Hn.
  - cbn [List.filter]. destruct (EqualFold (Key h) n); [|done]. cbn [map]. by f_equal.
Qed.

Lemma scan_host (k v : bytes) : EqualFold k (bs "Host") = true -> ScanFlagForHeader k v = FlagHostSeen.
Proof. intros H. unfold ScanFlagForHeader. by rewrite H. Qed.

(** A Host line more or less changes only its own flag. *)
Lemma recompute_no_host (hs : RawHeaders) : forall f cl cc,
  foldl recompute_step (Z.lor FlagHostSeen f, cl, cc) (List.filter (fun h => negb (is_host h)) hs)
  = let '(f', cl', cc') := foldl recompute_step (f, cl, cc) hs in (Z.lor FlagHostSeen f', cl', cc').
Proof.
  induction hs as [|h hs IH]; intros f cl cc; [done|]. cbn [List.filter]. unfold is_host at 1.
  destruct (EqualFold (Key h) (bs "Host")) eqn:E; cbn [negb foldl].
  - unfold recompute_step at 3. rewrite scan_host by done. rewrite !(EqualFold_other _ _ _ E).
    change (EqualFold (bs "Host") (bs "Content-Length")) with false.
    change (EqualFold (bs "Host") (bs "Cache-Control")) with false. cbn [andb orb].
    rewrite <- IH. by rewrite (Z.lor_comm f), Z.lor_assoc, Z.lor_diag.
  - assert (recompute_step (Z.lor FlagHostSeen f, cl, cc) h
            = let '(f', cl', cc') := recompute_step (f, cl, cc) h in (Z.lor FlagHostSeen f', cl', cc')) as ->.
    { unfold recompute_step. destruct (EqualFold (Key h) (bs "Content-Length") && cl); by rewrite <- !Z.lor_assoc. }
    destruct (recompute_step (f, cl, cc) h) as [[f' cl'] cc']. apply IH.
Qed.

Lemma scan_ok_rebuilt (req : Request) : scan_ok req -> scan_ok (rebuilt req).
Proof.
  intros [H1 H2 H3 H4 H5 H6 H7 H8]. unfold parsed_headers in H8.
  assert (no_leading_blank (Host req) = true) as Hb.
  { rewrite H3, Header_first. destruct (raw_values (Headers req) (bs "Host")) as [|v l] eqn:E; [done|].
    assert (v ∈ raw_values (Headers req) (bs "Host")) as Hv by (rewrite E; left). unfold raw_values in Hv.
    apply list_elem_of_In, in_map_iff in Hv as (h & <- & [Hin _]%filter_In).
    rewrite Forall_forall in H8. by apply H8, list_elem_of_In. }
  constructor; unfold rebuilt; cbn [Headers ScanFlags Host CacheControlRaw ConnectionClose];
    unfold asks_close, count_field in *; rewrite ?raw_values_rebuilt, ?has_flag_lor by done; rewrite <- ?H5, <- ?H6, <- ?H7; try done.
  - unfold rebuilt_headers. cbn [foldl]. unfold recompute_step at 2. cbn [Key Value].
    change (ScanFlagForHeader (bs "Host") (Host req)) with FlagHostSeen.
    change (EqualFold (bs "Host") (bs "Content-Length")) with false.
    change (EqualFold (bs "Host") (bs "Cache-Control")) with false. cbn [andb orb].
    rewrite Z.lor_comm, recompute_no_host, H1. done.
  - constructor; [done|]. apply Forall_forall. intros h [Hin _]%list_elem_of_In%filter_In.
    rewrite Forall_forall in H8. by apply H8, list_elem_of_In.
Qed.

Lemma rebuilt_headers_ok (req : Request) : scan_ok req -> Forall header_ok (Headers req) ->
  Forall header_ok (rebuilt_headers req) /\
  (HasHeader (Headers req) (bs "Host") = true \/ len (Headers req) < MaxRawHeaders -> len (Headers req) <= MaxRawHeaders ->
   len (rebuilt_headers req) <= MaxRawHeaders).
Proof.
  intros Hs Hh. split.
  - constructor.
    + assert (crlf_free (Host req) /\ no_leading_blank (Host req) = true) as [? ?]; [|split_and!; try done; by apply not_elem_of_cons; set_solver].
      rewrite (ok_host req Hs). unfold Header. destruct (find _ _) as [h|] eqn:E; [|done].
      apply find_some in E as [Hin _]. rewrite Forall_forall in Hh. apply list_elem_of_In, Hh in Hin. by destruct Hin as (? & ? & ? & ? & ?).
    + apply Forall_forall. intros h [Hin _]%list_elem_of_In%filter_In. rewrite Forall_forall in Hh. by apply Hh, list_elem_of_In.
  - unfold rebuilt_headers. rewrite len_cons. unfold HasHeader. intros Hor Hle.
    assert (len (List.filter (fun h => negb (is_host h)) (Headers req)) <= len (Headers req)) as Hf
      by (unfold len; pose proof (List.filter_length_le (fun h => negb (is_host h)) (Headers req)); lia).
    destruct Hor as [Hx|]; [|lia]. enough (len (List.filter (fun h => negb (is_host h)) (Headers req)) < len (Headers req)) by lia.
    apply existsb_exists in Hx as (h & Hin & Hx).
    assert (is_host h = true) by done. unfold len. apply inj_lt. revert Hin. clear - H Hx.
    induction (Headers req) as [|g hs IH]; [done|]. intros [->|Hin]; cbn [List.filter].
    + rewrite H. simpl. pose proof (List.filter_length_le (fun h => negb (is_host h)) hs). lia.
    + specialize (IH Hin). destruct (negb _); simpl; lia.
Qed.

(** Whatever the parser hands to the fallback handler, the head it
    rebuilds is a complete head that reads as the same request: same method,
    target, version, host, connection and smuggling decisions, the same lines
    in the same order except that one Host line comes first, and the same
    bytes after it. The Host line the parser adds must fit in the limit of 100
    lines. *)
Theorem rebuild_roundtrip (scheme buf : bytes) (e : option nat) (req : Request) (excess x : bytes) :
  parseBuffer scheme buf e = Ok (req, false, excess) ->
  HasHeader (Headers req) (bs "Host") = true \/ len (Headers req) < 100 ->
  let head := rebuildRequestHead req x in
  exists n, findHeaderEnd head = Some n /\
    parseBuffer scheme head (Some n) = Ok (rebuilt req, false, x).
Proof.
  intros Hp Hor head. destruct (parse_header_ok _ _ _ _ _ _ Hp) as (Hh & m & p & q & v & Hl & Hb).
  destruct (parse_scan_ok _ _ _ _ _ _ Hp) as (Hs & Hm & Hft).
  assert (Method req = m /\ Path req = p /\ Query req = q /\ HTTPVersion req = v) as (<- & <- & <- & <-)
    by (destruct req; injection Hb; intros; by subst).
  destruct (rebuilt_headers_ok req Hs Hh) as [Hr Hlen]. specialize (Hlen Hor Hm).
  assert (Forall line_ok (map line_of (rebuilt_headers req))) as Hlines
    by (apply Forall_map; eapply Forall_impl; [exact Hr|]; intros h Hh'; by apply line_of_ok).
  pose proof (crlf_free_no_cr _ (request_line_no_cr _ _ _ _ Hl)) as Hl0.
  exists (length (head_text (request_line (Method req) (Path req) (Query req) (HTTPVersion req)) (map line_of (rebuilt_headers req)))).
  subst head. rewrite rebuild_head_text. split; [apply findHeaderEnd_head; eauto 10|].
  rewrite parseBuffer_head by done. unfold parse_head. rewrite parseRequestLine_build by done.
  destruct (run_lines_headers (rebuilt_headers req) (with_line scheme (Method req) (Path req) (Query req) (HTTPVersion req)))
    as (req' & -> & E1 & Hs' & E2); [done|by apply scan_ok_start|done|].
  assert (req' = rebuilt req) as ->.
  { apply request_ext; [|done|by apply scan_ok_rebuilt|done]. rewrite E2. symmetry. exact Hb. }
  assert (smugglingDetected (rebuilt req) = false) as ->; [|done].
  unfold smugglingDetected, rebuilt in *. cbn [ScanFlags]. by rewrite !has_flag_lor.
Qed.

Lemma rebuild_roundtrip_witness :
  parseBuffer (bs "http") sample_head (findHeaderEnd sample_head) = Ok (sample_request, false, bs "GET") /\
  HasHeader (Headers sample_request) (bs "Host") = true /\
  exists n, findHeaderEnd (rebuildRequestHead sample_request (bs "GET")) = Some n /\
    parseBuffer (bs "http") (rebuildRequestHead sample_request (bs "GET")) (Some n) = Ok (rebuilt sample_request, false, bs "GET").
Proof.
  assert (parseBuffer (bs "http") sample_head (findHeaderEnd sample_head) = Ok (sample_request, false, bs "GET")) as H
    by (vm_compute; reflexivity).
  assert (HasHeader (Headers sample_request) (bs "Host") = true) as H' by (vm_compute; reflexivity).
  split; [exact H|]. split; [exact H'|]. exact (rebuild_roundtrip _ _ _ _ _ (bs "GET") H (or_introl H')).
Defined.

(** ** Segmentation

    What a connection delivers, without the boundaries of the reads. *)

Inductive ending : Type := EndEOF | EndFail.

Fixpoint stream (c : conn) : bytes * ending :=
  match c with
  | [] => ([], EndEOF)
  | Fail :: _ => ([], EndFail)
  | Data b :: c' => (b ++ (stream c').1, (stream c').2)
  | DataEOF b :: _ => (b, EndEOF)
  | DataFail b :: _ => (b, EndFail)
  end.

(** No read returns data together with an error. *)
Definition errors_alone (c : conn) : Prop :=
  Forall (fun e => match e with Data _ | Fail => True | _ => False end) c.

(** A result without the boundary between buffered and unread bytes. After a
    smuggling attempt nothing more is read. *)
Inductive observed : Type :=
| SawReadError
| SawParseError (e : parse_error)
| SawOversize (s : bytes) (fin : ending)
| SawRequest (req : Request) (rest : bytes) (fin : ending)
| SawSmuggling (req : Request).

Definition observe (r : request_result) : observed :=
  match r with
  | ReadError => SawReadError
  | ParseError e => SawParseError e
  | Oversize buf c => SawOversize (buf ++ (stream c).1) (stream c).2
  | Parsed req true _ _ => SawSmuggling req
  | Parsed req false excess c => SawRequest req (excess ++ (stream c).1) (stream c).2
  end.

(** The reference: a request is what comes before the first empty line, when
    that is within the first 16 KiB. *)
Definition stream_result (r : result parse_error (Request * bool * bytes)) (rest : bytes) (fin : ending) : observed :=
  match r with
  | Ok (req, true, _) => SawSmuggling req
  | Ok (req, false, _) => SawRequest req rest fin
  | Err e => SawParseError e
  end.
Definition parse_stream (scheme s : bytes) (fin : ending) : observed :=
  match findHeaderEnd (take readBufferSize s) with
  | Some e => stream_result (parseBuffer scheme (take e s) (Some e)) (drop e s) fin
  | None =>
      if (readBufferSize <=? length s)%nat then SawOversize s fin
      else match fin, s with
           | EndEOF, _ :: _ => stream_result (parseBuffer scheme s None) [] EndEOF
           | _, _ => SawReadError
           end
  end.

Lemma findHeaderEnd_ext (s x : bytes) (e : nat) : findHeaderEnd s = Some e -> findHeaderEnd (s ++ x) = Some e.
Proof.
  rewrite !findHeaderEnd_head. intros (l0 & ls & y & -> & -> & H). exists l0, ls, (y ++ x). by rewrite <- app_assoc.
Qed.

Lemma observe_finish (scheme buf : bytes) (e : nat) (c : conn) : findHeaderEnd buf = Some e -> (length buf <= readBufferSize)%nat ->
  observe (finish_parse scheme buf (Some e) c) = parse_stream scheme (buf ++ (stream c).1) (stream c).2.
Proof.
  intros He Hb. unfold parse_stream. rewrite take_app_ge by done. rewrite (findHeaderEnd_ext _ _ _ He).
  apply findHeaderEnd_head in He as (l0 & ls & x & -> & -> & Hl & Hls). unfold finish_parse.
  rewrite <- app_assoc, take_app_length, drop_app_length, parseBuffer_head by done.
  pose proof (parseBuffer_head scheme l0 ls [] Hl Hls) as E. rewrite app_nil_r in E. rewrite E.
  destruct (parse_head scheme l0 ls) as [req|]; [|done]. cbn [stream_result]. by destruct (smugglingDetected req).
Qed.

Lemma observe_finish_eof (scheme buf : bytes) :
  observe (finish_parse scheme buf None []) = stream_result (parseBuffer scheme buf None) [] EndEOF.
Proof.
  unfold finish_parse. destruct (parseBuffer scheme buf None) as [[[req ft] ex]|] eqn:E; [|done].
  destruct ft; [done|]. cbn [observe stream_result stream fst snd]. rewrite app_nil_r. f_equal.
  unfold parseBuffer in E. destruct (parseRequestLine _ _); [|done]. destruct (parseHeaders _ _); [|done].
  destruct (smugglingDetected _); congruence.
Qed.

(** A read takes the next bytes of the stream. *)
Lemma read_ok (cap : nat) (c c' : conn) (b : bytes) : read cap c = ReadOk b c' -> (0 < cap)%nat ->
  stream c = (b ++ (stream c').1, (stream c').2) /\ (length b <= cap)%nat /\ (reads c' < reads c)%nat /\
  (errors_alone c -> errors_alone c').
Proof.
  destruct cap as [|cap]; [lia|]. intros H _.
  assert (forall d : bytes, exists t r : bytes, take (S cap) d = t /\ drop (S cap) d = r /\ d = t ++ r /\ length d = (length t + length r)%nat /\
            (length t <= S cap)%nat /\ (r <> [] -> 0 < length t)%nat) as Hd.
  { intros d. exists (take (S cap) d), (drop (S cap) d). rewrite take_drop, length_take, length_drop. split_and!; try done; [lia..|].
    intros Hr. assert (0 < length (drop (S cap) d))%nat as Hl by (by destruct (drop (S cap) d); [|simpl; lia]). rewrite length_drop in Hl. lia. }
  unfold errors_alone. destruct c as [|[d| |d|d] c]; try done; unfold read in H;
    destruct (Hd d) as (t & r & Et & Er & Ed & El & Ht & Hr); rewrite Et, Er in H; destruct r as [|a r]; try done; injection H as <- <-;
    cbn [stream reads fst snd]; rewrite El, Ed; cbn [length] in *; try specialize (Hr ltac:(done));
    (split_and!; [by rewrite ?app_nil_r, <- ?app_assoc|lia|lia|]); intros Hc; inversion_clear Hc; try done; by constructor.
Qed.

(** The data of a read that returns an error fits too. *)
Lemma read_error_fits (cap : nat) (c : conn) (b : bytes) :
  read cap c = ReadEOF b \/ read cap c = ReadFail b -> (length b <= cap)%nat.
Proof.
  destruct cap as [|cap]; [by intros [[=]|[=]]|]. pose proof (fun d : bytes => length_take d (S cap)) as El.
  unfold read. destruct c as [|[d| |d|d] c]; try (by intros [[=]|[=]]); try (intros [[= <-]|[= <-]]; simpl; lia);
    specialize (El d); revert El; generalize (take (S cap) d), (drop (S cap) d); intros t [|a l] El; intros [[=]|[=]]; subst; lia.
Qed.

Lemma reads_pos (c : conn) : (0 < reads c)%nat.
Proof. induction c as [|[b| |b|b] c IH]; cbn [reads]; lia. Qed.

Lemma read_loop_stream (scheme : bytes) : forall fuel buf c, (length buf <= readBufferSize)%nat -> (reads c <= fuel)%nat ->
  errors_alone c -> observe (read_loop fuel scheme buf c) = parse_stream scheme (buf ++ (stream c).1) (stream c).2.
Proof.
  induction fuel as [|f IH]; intros buf c Hb Hf Hc; [pose proof (reads_pos c); lia|].
  cbn [read_loop].
  assert ((if (0 <? length buf)%nat then findHeaderEnd buf else None) = findHeaderEnd buf) as -> by (by destruct buf).
  destruct (findHeaderEnd buf) as [e|] eqn:E; [by apply observe_finish|].
  destruct (readBufferSize - length buf)%nat as [|cap] eqn:Ecap.
  - assert (length buf = readBufferSize) as Hl by lia. cbn [read]. rewrite app_nil_r, E, Hl, Nat.leb_refl.
    unfold parse_stream. rewrite <- Hl, take_app_length, E, length_app. by rewrite (proj2 (Nat.leb_le _ _)) by lia.
  - assert (length buf < readBufferSize)%nat as Hl by lia.
    destruct (read (S cap) c) as [b c'|b|b] eqn:Er.
    + apply read_ok in Er as (Es & Hb' & Hr & Hc'); [|lia]. rewrite Es. cbn [fst snd]. rewrite app_assoc.
      assert (length (buf ++ b) <= readBufferSize)%nat as Hbb by (rewrite length_app; lia).
      destruct (findHeaderEnd (buf ++ b)) as [e|] eqn:E'; [by apply observe_finish|].
      destruct (readBufferSize <=? length (buf ++ b))%nat eqn:Eb; [|apply IH; [done|lia|auto]].
      apply Nat.leb_le in Eb. unfold parse_stream. rewrite take_app_ge by done.
      replace readBufferSize with (length (buf ++ b)) by lia.
      rewrite Nat.sub_diag, take_0, app_nil_r, E'. rewrite (proj2 (Nat.leb_le _ _)); [done|]. rewrite (length_app (buf ++ b)). lia.
    + destruct c as [|[?| |?|?] ?]; try done; [|by inversion_clear Hc|by inversion_clear Hc].
      injection Er as <-. cbn [stream fst snd]. rewrite app_nil_r. unfold parse_stream.
      rewrite take_ge, E by lia. rewrite (proj2 (Nat.leb_gt _ _)) by lia. destruct buf as [|a buf]; [done|].
      apply observe_finish_eof.
    + destruct c as [|[?| |?|?] ?]; try done; [|by inversion_clear Hc|by inversion_clear Hc]. cbn [stream fst snd]. rewrite app_nil_r. unfold parse_stream.
      rewrite take_ge, E by lia. by rewrite (proj2 (Nat.leb_gt _ _)) by lia.
Qed.

(** One request of a connection: it depends on the bytes left over from the
    previous one and those the connection delivers, not on the reads. *)
Lemma parseRequest_stream (scheme prefix : bytes) (c : conn) : (length prefix <= readBufferSize)%nat -> errors_alone c ->
  observe (parseRequest scheme prefix c) = parse_stream scheme (prefix ++ (stream c).1) (stream c).2.
Proof. intros H Hc. unfold parseRequest. rewrite take_ge by done. by apply read_loop_stream. Qed.

(** Its buffers hold at most 16 KiB, and it falls through exactly on a
    smuggling attempt. *)
Definition fits (r : request_result) : Prop :=
  match r with
  | Oversize buf _ => length buf = readBufferSize
  | Parsed req ft excess _ => ft = smugglingDetected req /\ (length excess <= readBufferSize)%nat
  | _ => True
  end.

Lemma finish_fits (scheme buf : bytes) (e : option nat) (c : conn) : (length buf <= readBufferSize)%nat ->
  fits (finish_parse scheme buf e c).
Proof.
  intros H. unfold finish_parse, parseBuffer. destruct (parseRequestLine _ _); [|done].
  destruct (parseHeaders _ _) as [r|]; [|done]. destruct (smugglingDetected r) eqn:Es; cbn [fits length]; (split; [done|]); [lia|].
  destruct e as [e|]; [|cbn [length]; lia]. destruct (_ <? _)%nat; rewrite ?length_drop; cbn [length]; lia.
Qed.

Lemma read_loop_fits (scheme : bytes) : forall fuel buf c, (length buf <= readBufferSize)%nat -> fits (read_loop fuel scheme buf c).
Proof.
  induction fuel as [|f IH]; intros buf c Hb; cbn [read_loop];
    (destruct (if (0 <? length buf)%nat then findHeaderEnd buf else None); [by apply finish_fits|]); [done|].
  destruct (read _ c) as [b c'|b|b] eqn:Er; [|cbv zeta; destruct (0 <? length (buf ++ b))%nat; [|done]; apply finish_fits;
    rewrite length_app; pose proof (read_error_fits _ _ _ (or_introl Er)); lia|done].
  assert (length (buf ++ b) <= readBufferSize)%nat as Hbb.
  { rewrite length_app. destruct (readBufferSize - length buf)%nat as [|cap] eqn:Ec.
    - injection Er as <- _. simpl. lia.
    - apply read_ok in Er as (_ & ? & _); lia. }
  destruct (findHeaderEnd (buf ++ b)); [by apply finish_fits|].
  destruct (readBufferSize <=? length (buf ++ b))%nat eqn:E; [|by apply IH]. apply Nat.leb_le in E. cbn [fits]. lia.
Qed.

(** What a request leaves of a connection returns its errors alone too. *)
Lemma read_loop_alone (scheme : bytes) : forall fuel buf c, errors_alone c ->
  match read_loop fuel scheme buf c with Oversize _ c' | Parsed _ _ _ c' => errors_alone c' | _ => True end.
Proof.
  assert (forall buf e c, errors_alone c ->
    match finish_parse scheme buf e c with Oversize _ c' | Parsed _ _ _ c' => errors_alone c' | _ => True end) as Hfin.
  { intros buf e c Hc. unfold finish_parse. by destruct (parseBuffer _ _ _) as [[[??]?]|]. }
  induction fuel as [|f IH]; intros buf c Hc; cbn [read_loop];
    (destruct (if (0 <? length buf)%nat then findHeaderEnd buf else None); [by apply Hfin|]); [done|].
  destruct (read _ c) as [b c'|b|b] eqn:Er; [|cbv zeta; destruct (0 <? _)%nat; [apply Hfin; constructor|done]|done].
  assert (errors_alone c') as Hc'.
  { destruct (readBufferSize - length buf)%nat as [|cap]; [by injection Er as _ <-|]. apply read_ok in Er as (_ & _ & _ & H); [auto|lia]. }
  cbv zeta. destruct (findHeaderEnd (buf ++ b)); [by apply Hfin|]. destruct (readBufferSize <=? _)%nat; [done|by apply IH].
Qed.

(** ** The keep-alive loop

    The fast path, fasthttp's request reader and the fallback handler are the
    parameters: [TryHit] may leave hints on the request; [Request_Read] reads
    one request from the replayed bytes and then the connection, and gives the
    bytes its buffer holds past it, and so does [ContinueReadBody] after a
    100 Continue; [fallback] gives the response as written
    and whether it closes the connection. Writes to the connection succeed;
    deadlines are the failures of [conn]. *)

Inductive serveResult : Type := serveContinue | serveClose | serveContinueLeftover.

Definition adoptLeftover (res : serveResult) (left parserExcess : bytes) : bytes :=
  match res with
  | serveContinueLeftover => left
  | serveContinue => parserExcess
  | serveClose => []
  end.

Definition badRequestResponse : bytes :=
  bs "HTTP/1.1 400 Bad Request" ++ crlf ++ bs "Content-Length: 0" ++ crlf ++ bs "Connection: close" ++ crlf ++ crlf.

Record FastPathResponse : Type := { Buffers : bytes; CloseConn : bool }.

(** [transferOwnerMissHint]: the user values of the fallback's context. *)
Record hints : Type := {
  hOwnerMiss : bool; hOwnerGateReject : bool; hOwnerShed : bool; hOwnerResolver : bool; hSource : bytes;
}.
Definition no_hints : hints :=
  {| hOwnerMiss := false; hOwnerGateReject := false; hOwnerShed := false; hOwnerResolver := false; hSource := [] |}.
Definition transferOwnerMissHint (req : Request) : hints :=
  {| hOwnerMiss := OwnerMiss req; hOwnerGateReject := OwnerGateReject req; hOwnerShed := OwnerShed req;
     hOwnerResolver := OwnerResolver req; hSource := Source req |}.

Section Serve.
Context {St Ctx : Type}.
Variable fastPath : option (St -> Request -> St * Request * option FastPathResponse).
Variable Request_Read : nat -> bytes -> conn -> option (Ctx * bytes * conn).
Variable MayContinue : Ctx -> bool.
Variable ContinueReadBody : nat -> Ctx -> bytes -> conn -> option (Ctx * bytes * conn).
Variable fallback : St -> Ctx -> hints -> bool -> St * bytes * bool.
Variable scheme : bytes.

(** One round's effect: the state, what was written, what to do next, the
    bytes left, and the connection. *)
Definition round : Type := St * bytes * serveResult * bytes * conn.

Definition continueResponse : bytes := bs "HTTP/1.1 100 Continue" ++ crlf ++ crlf.
Definition oversizeBufferSize : nat := Z.to_nat 65536.

(** [writeFallThroughResponse]: written bytes, and whether to close. *)
Definition writeFallThroughResponse (st : St) (ctx : Ctx) (h : hints) (clientClose : bool) : St * bytes * bool :=
  let '(st, out, respClose) := fallback st ctx h clientClose in (st, out, clientClose || respClose).

Definition handleFallThrough (st : St) (req : Request) (excess : bytes) (c : conn) : St * bytes * bool * bytes * conn :=
  let head := rebuildRequestHead req excess in
  let clientClose := isConnectionClose req in
  match Request_Read readBufferSize head c with
  | None => (st, [], true, [], c)
  | Some (ctx, leftover, c) =>
      let interim := if MayContinue ctx then continueResponse else [] in
      match (if MayContinue ctx then ContinueReadBody readBufferSize ctx leftover c else Some (ctx, leftover, c)) with
      | None => (st, interim, true, [], c)
      | Some (ctx, leftover, c) =>
          let '(st, out, close) := writeFallThroughResponse st ctx (transferOwnerMissHint req) clientClose in
          (st, interim ++ out, close, leftover, c)
      end
  end.

(** [fastPathMissResult] and [serveFastMiss] *)
Definition fastPathMissResult (st : St) (req : Request) (excess : bytes) (c : conn) : round :=
  let '(st, out, close, leftover, c) := handleFallThrough st req excess c in
  if close then (st, out, serveClose, [], c) else (st, out, serveContinueLeftover, leftover, c).
Definition serveFastMiss := fastPathMissResult.

Definition handleFallThroughRaw (st : St) (buffered : bytes) (c : conn) : St * bytes :=
  match Request_Read oversizeBufferSize buffered c with
  | None => (st, badRequestResponse)
  | Some (ctx, _, _) =>
      let '(st, out, _) := writeFallThroughResponse st ctx no_hints true in (st, out)
  end.

(** [serveFallThroughRequest] for a parsed request. *)
Definition serveFallThroughRequest (st : St) (req : Request) (excess : bytes) (c : conn) : round :=
  if smugglingDetected req then (st, badRequestResponse, serveClose, [], c) else fastPathMissResult st req excess c.
(** The same for oversize headers, where the request is nil. *)
Definition serve_oversize (st : St) (excess : bytes) (c : conn) : round :=
  match excess with
  | [] => (st, [], serveClose, [], c)
  | _ => let '(st, out) := handleFallThroughRaw st excess c in (st, out, serveClose, [], c)
  end.

Definition serveFastHit (tryHit : St -> Request -> St * Request * option FastPathResponse)
    (st : St) (req : Request) (excess : bytes) (c : conn) : round :=
  match tryHit st req with
  | (st, req, None) => fastPathMissResult st req excess c
  | (st, _, Some resp) => (st, Buffers resp, if CloseConn resp then serveClose else serveContinue, [], c)
  end.

(** [Serve]: the state and the bytes written when the connection ends, or when
    [fuel] requests have been served. *)
Fixpoint Serve (fuel : nat) (st : St) (excess : bytes) (c : conn) : St * bytes :=
  match fuel with
  | O => (st, [])
  | S f =>
      let next (r : round) (excess : bytes) :=
        let '(st, out, res, leftover, c) := r in
        match res with
        | serveClose => (st, out)
        | _ => let '(st, out') := Serve f st (adoptLeftover res leftover excess) c in (st, out ++ out')
        end in
      match parseRequest scheme excess c with
      | ReadError | ParseError _ => (st, [])
      | Oversize buf c => next (serve_oversize st buf c) buf
      | Parsed req true excess c => next (serveFallThroughRequest st req excess c) excess
      | Parsed req false excess c =>
          match fastPath with
          | Some tryHit => next (serveFastHit tryHit st req excess c) excess
          | None => next (serveFastMiss st req excess c) excess
          end
      end
  end.

(** Where a connection stands: the bytes to come and how it ends. *)
Definition at_stream (excess : bytes) (c : conn) : bytes * ending := (excess ++ (stream c).1, (stream c).2).

(** A reader that frames by the bytes: from two readers at the same point of
    the stream, it reads the same and leaves them at the same point; its
    buffer holds [size] bytes, and it makes no read return data with an error. *)
Definition frames (size : nat) (rd : bytes -> conn -> option (Ctx * bytes * conn)) : Prop :=
  forall p1 c1 p2 c2, at_stream p1 c1 = at_stream p2 c2 ->
  match rd p1 c1, rd p2 c2 with
  | None, None => True
  | Some (ctx1, l1, c1'), Some (ctx2, l2, c2') =>
      ctx1 = ctx2 /\ at_stream l1 c1' = at_stream l2 c2' /\ (length l1 <= size)%nat /\ (length l2 <= size)%nat /\
      (errors_alone c1 -> errors_alone c1') /\ (errors_alone c2 -> errors_alone c2')
  | _, _ => False
  end.

Class FramedByBytes : Prop := {
  framed_read : forall size, frames size (Request_Read size);
  framed_body : forall size ctx, frames size (ContinueReadBody size ctx);
}.

(** Two rounds that do the same and leave the connections at the same point. *)
Definition same_round (r1 r2 : round) (ex1 ex2 : bytes) : Prop :=
  let '(st1, out1, res1, l1, c1) := r1 in
  let '(st2, out2, res2, l2, c2) := r2 in
  st1 = st2 /\ out1 = out2 /\ res1 = res2 /\
  (res1 <> serveClose ->
   errors_alone c1 /\ errors_alone c2 /\
   at_stream (adoptLeftover res1 l1 ex1) c1 = at_stream (adoptLeftover res1 l2 ex2) c2 /\
   (length (adoptLeftover res1 l1 ex1) <= readBufferSize)%nat /\ (length (adoptLeftover res1 l2 ex2) <= readBufferSize)%nat).

Context `{!FramedByBytes}.

Lemma rebuild_excess (req : Request) (x : bytes) : rebuildRequestHead req x = rebuildRequestHead req [] ++ x.
Proof. rewrite !rebuild_head_text. by rewrite app_nil_r. Qed.

Lemma same_miss (st : St) (req : Request) (ex1 ex2 : bytes) (c1 c2 : conn) : at_stream ex1 c1 = at_stream ex2 c2 ->
  errors_alone c1 -> errors_alone c2 -> same_round (fastPathMissResult st req ex1 c1) (fastPathMissResult st req ex2 c2) ex1 ex2.
Proof.
  intros E A1 A2. unfold fastPathMissResult, handleFallThrough.
  assert (at_stream (rebuildRequestHead req ex1) c1 = at_stream (rebuildRequestHead req ex2) c2) as Eh.
  { unfold at_stream in *. rewrite (rebuild_excess req ex1), (rebuild_excess req ex2), <- !app_assoc. congruence. }
  pose proof (framed_read readBufferSize _ _ _ _ Eh) as Hr.
  destruct (Request_Read _ (rebuildRequestHead req ex1) c1) as [[[ctx1 l1] c1']|],
    (Request_Read _ (rebuildRequestHead req ex2) c2) as [[[ctx2 l2] c2']|]; try done.
  destruct Hr as (<- & El & Hl1 & Hl2 & A1' & A2').
  assert (match (if MayContinue ctx1 then ContinueReadBody readBufferSize ctx1 l1 c1' else Some (ctx1, l1, c1')),
                (if MayContinue ctx1 then ContinueReadBody readBufferSize ctx1 l2 c2' else Some (ctx1, l2, c2')) with
          | None, None => True
          | Some (ctx1, l1, c1'), Some (ctx2, l2, c2') =>
              ctx1 = ctx2 /\ at_stream l1 c1' = at_stream l2 c2' /\ (length l1 <= readBufferSize)%nat /\ (length l2 <= readBufferSize)%nat /\
              errors_alone c1' /\ errors_alone c2'
          | _, _ => False
          end) as Hb.
  { destruct (MayContinue ctx1); [|by split_and!; auto].
    pose proof (framed_body readBufferSize ctx1 _ _ _ _ El) as Hb. destruct (ContinueReadBody _ _ l1 c1') as [[[??]?]|],
      (ContinueReadBody _ _ l2 c2') as [[[??]?]|]; try done. destruct Hb as (? & ? & ? & ? & ? & ?). split_and!; auto. }
  destruct (if MayContinue ctx1 then _ else Some (ctx1, l1, c1')) as [[[a1 m1] d1]|],
    (if MayContinue ctx1 then _ else Some (ctx1, l2, c2')) as [[[a2 m2] d2]|]; try done.
  destruct Hb as (<- & Em & Hm1 & Hm2 & A1'' & A2'').
  destruct (writeFallThroughResponse _ _ _ _) as [[st' out] close]. destruct close; by split_and!.
Qed.

Lemma same_oversize (st : St) (b1 b2 : bytes) (c1 c2 : conn) : at_stream b1 c1 = at_stream b2 c2 -> (b1 = [] <-> b2 = []) ->
  same_round (serve_oversize st b1 c1) (serve_oversize st b2 c2) b1 b2.
Proof.
  intros E H0. unfold serve_oversize. destruct b1 as [|a b1], b2 as [|a' b2]; [done|naive_solver..|].
  unfold handleFallThroughRaw. pose proof (framed_read oversizeBufferSize _ _ _ _ E) as Hr.
  destruct (Request_Read _ (a :: b1) c1) as [[[ctx1 l1] c1']|], (Request_Read _ (a' :: b2) c2) as [[[ctx2 l2] c2']|]; try done.
  destruct Hr as (<- & _). destruct (writeFallThroughResponse _ _ _ _) as [[st' out] close]. done.
Qed.

Lemma same_requests (ex1 ex2 : bytes) (c1 c2 : conn) : at_stream ex1 c1 = at_stream ex2 c2 ->
  (length ex1 <= readBufferSize)%nat -> (length ex2 <= readBufferSize)%nat -> errors_alone c1 -> errors_alone c2 ->
  observe (parseRequest scheme ex1 c1) = observe (parseRequest scheme ex2 c2).
Proof. intros [= E1 E2] H1 H2 A1 A2. rewrite !parseRequest_stream by done. by rewrite E1, E2. Qed.

(** The loop from two connections at the same point. *)
Lemma serve_same (fuel : nat) : forall st ex1 ex2 c1 c2, at_stream ex1 c1 = at_stream ex2 c2 ->
  (length ex1 <= readBufferSize)%nat -> (length ex2 <= readBufferSize)%nat -> errors_alone c1 -> errors_alone c2 ->
  Serve fuel st ex1 c1 = Serve fuel st ex2 c2.
Proof.
  induction fuel as [|f IH]; intros st ex1 ex2 c1 c2 E H1 H2 A1 A2; [done|]. cbn [Serve].
  assert (forall r1 r2 x1 x2, same_round r1 r2 x1 x2 ->
    (let '(st, out, res, leftover, c) := r1 in
     match res with
     | serveClose => (st, out)
     | _ => let '(st, out') := Serve f st (adoptLeftover res leftover x1) c in (st, out ++ out')
     end)
    = (let '(st, out, res, leftover, c) := r2 in
       match res with
       | serveClose => (st, out)
       | _ => let '(st, out') := Serve f st (adoptLeftover res leftover x2) c in (st, out ++ out')
       end)) as Hnext.
  { intros [[[[s1 o1] res] l1] d1] [[[[s2 o2] res2] l2] d2] x1 x2 (-> & -> & -> & Hs).
    destruct res2; [|done|]; (destruct Hs as (Hx & Hy & Ha & Hb & Hc); [done|]); by rewrite (IH _ _ _ _ _ Ha Hb Hc Hx Hy). }
  pose proof (same_requests _ _ _ _ E H1 H2 A1 A2) as Ho.
  pose proof (read_loop_fits scheme (reads c1) (take readBufferSize ex1) c1 (firstn_le_length _ _)) as F1.
  pose proof (read_loop_fits scheme (reads c2) (take readBufferSize ex2) c2 (firstn_le_length _ _)) as F2.
  pose proof (read_loop_alone scheme (reads c1) (take readBufferSize ex1) c1 A1) as G1.
  pose proof (read_loop_alone scheme (reads c2) (take readBufferSize ex2) c2 A2) as G2.
  fold (parseRequest scheme ex1 c1) in F1, G1. fold (parseRequest scheme ex2 c2) in F2, G2.
  destruct (parseRequest scheme ex1 c1) as [| |b1 d1|q1 [] x1 d1], (parseRequest scheme ex2 c2) as [| |b2 d2|q2 [] x2 d2];
    try done; cbn [observe fits] in *.
  - apply Hnext, same_oversize; [unfold at_stream; congruence|].
    assert (forall b : bytes, length b = readBufferSize -> b <> []) as Hne by (intros b Hb ->; unfold readBufferSize in Hb; simpl in Hb; lia).
    apply Hne in F1, F2. tauto.
  - injection Ho as <-. destruct F1 as [Hs _]. apply Hnext. unfold serveFallThroughRequest. by rewrite <- Hs.
  - assert (at_stream x1 d1 = at_stream x2 d2) as Ex by (unfold at_stream; congruence).
    injection Ho as <- _ _. destruct F1 as [_ F1], F2 as [_ F2].
    destruct fastPath as [tryHit|]; [|by apply Hnext, same_miss]. apply Hnext. unfold serveFastHit.
    destruct (tryHit st q1) as [[st' q'] [resp|]]; [|by apply same_miss]. destruct (CloseConn resp); by split_and!.
Qed.

(** C37. What a connection's peer is sent, and the state the cache is
    left in, depend on the bytes the connection delivers and on how it ends,
    not on how the bytes were cut into reads: not for pipelined requests,
    bodies that follow a head, heads split over reads or heads over 16 KiB. It is
    stated for connections whose reads return data or an error and not both: when
    the last data comes in one read with the end of the stream, what follows a
    head in it is dropped ([data_with_eof_dropped]). *)
Theorem serve_segmentation (fuel : nat) (st : St) (c1 c2 : conn) :
  errors_alone c1 -> errors_alone c2 -> stream c1 = stream c2 -> Serve fuel st [] c1 = Serve fuel st [] c2.
Proof.
  intros A1 A2 E. apply serve_same; [|cbn [length]; lia..|done|done]. unfold at_stream. by rewrite E.
Qed.

End Serve.

(** A reader of heads without bodies. *)
Definition head_reader (size : nat) (p : bytes) (c : conn) : option (bytes * bytes * conn) :=
  let '(s, fin) := at_stream p c in
  match findHeaderEnd (take size s) with
  | Some e => Some (take e s, [], Data (drop e s) :: match fin with EndEOF => [] | EndFail => [Fail] end)
  | None => None
  end.
Definition no_body (size : nat) (ctx p : bytes) (c : conn) : option (bytes * bytes * conn) := head_reader size p c.

Lemma head_reader_frames (size : nat) : frames size (head_reader size).
Proof.
  intros p1 c1 p2 c2 E. unfold head_reader. rewrite E. destruct (at_stream p2 c2) as [s fin].
  assert (forall r, errors_alone (Data r :: match fin with EndEOF => [] | EndFail => [Fail] end)) as Ha
    by (intros r; destruct fin; repeat constructor).
  destruct (findHeaderEnd _); [|done]. split_and!; try done; simpl; lia || done.
Qed.
#[export] Instance head_reader_framed : FramedByBytes head_reader no_body.
Proof. split; [apply head_reader_frames|intros; apply head_reader_frames]. Qed.

(** A fast path that knows every path but "/miss". *)
Definition sample_fast (st : nat) (req : Request) : nat * Request * option FastPathResponse :=
  (S st, req, if beq (Path req) (bs "/miss") then None else Some {| Buffers := Path req; CloseConn := ConnectionClose req |}).
Definition sample_fallback (st : nat) (ctx : bytes) (h : hints) (clientClose : bool) : nat * bytes * bool := (st, ctx, false).
Definition sample_serve : conn -> nat * bytes :=
  Serve (Some sample_fast) head_reader (fun _ => false) no_body sample_fallback (bs "http") 5%nat 0%nat [].
Definition sample_get (path : string) : bytes := bs "GET " ++ bs path ++ bs " HTTP/1.1" ++ crlf ++ bs "Host: h" ++ crlf ++ crlf.
Definition one_read : conn := [Data (sample_get "/a" ++ sample_get "/miss" ++ sample_get "/b")].
Definition many_reads : conn :=
  [Data (take 7 (sample_get "/a")); Data []; Data (drop 7 (sample_get "/a") ++ take 40 (sample_get "/miss"));
   Data (drop 40 (sample_get "/miss")); Data (sample_get "/b")].

Lemma serve_segmentation_witness :
  stream one_read = stream many_reads /\ sample_serve one_read = sample_serve many_reads /\
  sample_serve many_reads = (3%nat, bs "/a" ++ sample_get "/miss" ++ bs "/b").
Proof.
  assert (stream one_read = stream many_reads) as E by (vm_compute; reflexivity).
  split; [exact E|]. split; [|vm_compute; reflexivity].
  refine (serve_segmentation (Some sample_fast) head_reader (fun _ => false) no_body sample_fallback (bs "http") 5%nat 0%nat _ _ _ _ E);
    repeat constructor.
Defined.

(** The last two requests of a connection, with the end of the stream in the read
    that delivers them: the second is never served. In a read of its own the end
    does not hide it. *)
Lemma data_with_eof_dropped :
  let s := sample_get "/a" ++ sample_get "/b" in
  stream [DataEOF s] = stream [Data s] /\
  sample_serve [Data s] = (2%nat, bs "/a" ++ bs "/b") /\ sample_serve [DataEOF s] = (1%nat, bs "/a").
Proof. vm_compute. split_and!; reflexivity. Qed.

(** ** Inputs the parser takes differently from the documents *)

(** A blank before the colon hides Content-Length: the request qualifies for
    the fast path, and its body is left to be read as the next request. *)
Example blank_before_colon :
  let buf := bs "GET / HTTP/1.1" ++ crlf ++ bs "Host: h" ++ crlf ++ bs "Content-Length : 5" ++ crlf ++ crlf ++ bs "hello" in
  match parseBuffer (bs "http") buf (findHeaderEnd buf) with
  | Ok (req, ft, excess) => ScanFlags req = FlagHostSeen /\ ft = false /\ excess = bs "hello"
  | Err _ => False
  end.
Proof. vm_compute. auto. Qed.

(** A bare LF stays inside a value, and so does the line after it. *)
Example bare_lf_in_value :
  let buf := bs "GET / HTTP/1.1" ++ crlf ++ bs "X: a" ++ [LF] ++ bs "Transfer-Encoding: chunked" ++ crlf ++ crlf in
  match parseBuffer (bs "http") buf (findHeaderEnd buf) with
  | Ok (req, _, _) => ScanFlags req = 0 /\ map Value (Headers req) = [bs "a" ++ [LF] ++ bs "Transfer-Encoding: chunked"]
  | Err _ => False
  end.
Proof. vm_compute. auto. Qed.

(** A head cut off by the end of the stream is served without its last line. *)
Example truncated_head_parsed :
  let c := [Data (bs "GET / HTTP/1.1" ++ crlf ++ bs "Host: h" ++ crlf ++ bs "Cookie: id=1")] in
  match parseRequest (bs "http") [] c with
  | Parsed req ft _ _ => ft = false /\ Headers req = [MkRawHeader (bs "Host") (bs "h")]
  | _ => False
  end.
Proof. vm_compute. auto. Qed.

(** A folded line ends the connection without a response. *)
Example obs_fold_silent :
  sample_serve [Data (bs "GET / HTTP/1.1" ++ crlf ++ bs "X: a" ++ crlf ++ bs " b" ++ crlf ++ crlf)] = (0%nat, []).
Proof. vm_compute. reflexivity. Qed.
