(* ===== verification/UABypass.v ===== *)
(** * User-Agent bypass

    src/internal/cache/uabypass.go: the compiled [cache.bypass_on_user_agent]
    patterns and their matcher, and the validation of the list in
    src/internal/config/loader.go. The reference is the usual reading of a
    glob, byte by byte; the theorem says that the matcher, which cuts a
    pattern at its stars and looks for the pieces from left to right, decides
    it. *)

From S2P Require Import Prelude GoStd CacheControl HeaderMap GoStrings RawReq Conditional Cookies Negotiate.

Definition star : byte := ch "*".

(** ** The matcher (uabypass.go) *)

(** The literal runs between the stars, in lower case. *)
Record uaGlob : Type := MkGlob { segs : list bytes }.
Record uaBypass : Type := MkBypass { globs : list uaGlob }.

(** One pattern of the loop of [compileUABypass]: [None] is [continue]. *)
Definition compile_pattern (p : bytes) : option uaGlob :=
  let p := trim_space p in
  if beq p [] then None
  else
    let rawSegs := split_byte star p in
    if forallb (fun seg => beq seg []) rawSegs then None
    else Some (MkGlob (map (map foldASCII) rawSegs)).

Definition compileUABypass (patterns : list bytes) : option uaBypass :=
  if (length patterns =? 0)%nat then None
  else
    let gs := omap compile_pattern patterns in
    if (length gs =? 0)%nat then None else Some (MkBypass gs).

Fixpoint uaEqualFold_loop (a b : bytes) : bool :=
  match a, b with
  | x :: a', y :: b' => if negb (beqb (foldASCII x) y) then false else uaEqualFold_loop a' b'
  | _, _ => true
  end.
(** [asciiEqualFold]: [b] is already in lower case. *)
Definition asciiEqualFold (a b : bytes) : bool :=
  if negb (len a =? len b) then false else uaEqualFold_loop a b.

(** The inner loop of [asciiIndex] at one position. *)
Fixpoint sub_at (s sub : bytes) : bool :=
  match sub, s with
  | [], _ => true
  | _ :: _, [] => false
  | y :: sub', x :: s' => if negb (beqb (foldASCII x) y) then false else sub_at s' sub'
  end.
(** [asciiIndex]: [None] is -1. *)
Fixpoint asciiIndex (s sub : bytes) : option nat :=
  if (length sub <=? length s)%nat then
    if sub_at s sub then Some O
    else match s with [] => None | _ :: s' => S <$> asciiIndex s' sub end
  else None.

(** The loop over the inner segments. *)
Fixpoint inner_loop (rest : bytes) (l : list bytes) : bool :=
  match l with
  | [] => true
  | seg :: l' =>
      match asciiIndex rest seg with
      | None => false
      | Some idx => inner_loop (drop (idx + length seg) rest) l'
      end
  end.

Definition uaGlobMatch (g : uaGlob) (ua : bytes) : bool :=
  match segs g with
  | [seg] => asciiEqualFold ua seg
  | sgs =>
      let first := default [] (head sgs) in
      let last_ := default [] (last sgs) in
      if (length ua <? length first + length last_)%nat then false
      else if negb (asciiEqualFold (take (length first) ua) first) then false
      else if negb (asciiEqualFold (drop (length ua - length last_) ua) last_) then false
      else
        let rest := drop (length first) (take (length ua - length last_) ua) in
        inner_loop rest (removelast (tail sgs))
  end.

Definition matchBytes (b : uaBypass) (ua : bytes) : bool := existsb (fun g => uaGlobMatch g ua) (globs b).
Definition matchString (b : uaBypass) (ua : bytes) : bool := existsb (fun g => uaGlobMatch g ua) (globs b).

(** [f.uaBypass != nil && f.uaBypass.matchString(ua)] *)
Definition ua_bypassed (b : option uaBypass) (ua : bytes) : bool :=
  match b with None => false | Some b => matchString b ua end.

(** ** Validation (loader.go) *)

Definition maxBypassUAEntries : nat := 16.
Definition maxBypassUAPatternBytes : nat := 256.

(** [uaPatternCharError]: true when it reports an error. *)
Definition ua_char_ok (c : byte) : bool :=
  (33 <=? Zb c) && (Zb c <=? 126) && negb (existsb (beqb c) [ch "?"; ch "["; ch "]"; ch "\"]).
Definition uaPatternCharError (p : bytes) : bool := negb (forallb ua_char_ok p).

Section Validate.
Context (to_lower : bytes -> bytes).

(** The loop of [validateBypassOnUserAgent]: whether every entry is valid. *)
Fixpoint ua_entries_loop (seen : list bytes) (l : list bytes) : bool :=
  match l with
  | [] => true
  | raw :: l' =>
      let p := trim_space raw in
      if beq p [] then ua_entries_loop seen l' && false
      else if (maxBypassUAPatternBytes <? length p)%nat then ua_entries_loop seen l' && false
      else if beq p [star] then ua_entries_loop seen l' && false
      else if contains p [star; star] then ua_entries_loop seen l' && false
      else if uaPatternCharError p then ua_entries_loop seen l' && false
      else
        let lower := to_lower p in
        if existsb (beq lower) seen then ua_entries_loop seen l' && false
        else ua_entries_loop (lower :: seen) l'
  end.
Definition validateBypassOnUserAgent (patterns : list bytes) : bool :=
  negb (maxBypassUAEntries <? length patterns)%nat && ua_entries_loop [] patterns.
End Validate.

(** ** The reference: a glob, byte by byte *)

Inductive glob_match : bytes -> bytes -> Prop :=
| glob_end : glob_match [] []
| glob_star p s t : glob_match p t -> glob_match (star :: p) (s ++ t)
| glob_byte a b p s : a <> star -> lower_byte a = lower_byte b -> glob_match p s -> glob_match (a :: p) (b :: s).

(** The same on the pieces between the stars. *)
Fixpoint seg_match (l : list bytes) (s : bytes) : Prop :=
  match l with
  | [] => False
  | [a] => s = a
  | a :: l' => exists x s', s = a ++ x ++ s' /\ seg_match l' s'
  end.

Lemma seg_match_cons (a : bytes) (l : list bytes) (s : bytes) : l <> [] ->
  seg_match (a :: l) s <-> exists x s', s = a ++ x ++ s' /\ seg_match l s'.
Proof. by destruct l. Qed.

Lemma seg_match_byte (a : byte) (w : bytes) (l : list bytes) (s : bytes) :
  seg_match ((a :: w) :: l) s <-> exists s', s = a :: s' /\ seg_match (w :: l) s'.
Proof.
  destruct l as [|b l]; [simpl; naive_solver|]. rewrite !seg_match_cons by done. split.
  - intros (x & s' & -> & H). cbn [app]. eexists. split; [done|]. rewrite seg_match_cons by done. eauto.
  - intros (t & -> & H). rewrite seg_match_cons in H by done. destruct H as (x & s' & -> & H). exists x, s'. done.
Qed.

Lemma glob_match_segs (p : bytes) : forall s,
  glob_match p s <-> seg_match (map (map lower_byte) (split_byte star p)) (map lower_byte s).
Proof.
  induction p as [|a p IH]; intros s.
  - simpl. split; [by inversion 1|]. destruct s; [|done]. constructor.
  - cbn [split_byte]. destruct (beqb a star) eqn:E.
    + apply beqb_eq in E as ->. cbn [map]. rewrite seg_match_cons by (by destruct (split_byte star p) eqn:?; [destruct (split_byte_nonempty star p)|]).
      split.
      * inversion 1 as [|q u t Hm|]; subst; [|done]. apply IH in Hm. exists (map lower_byte u), (map lower_byte t).
        by rewrite map_app.
      * intros (x & s' & Es & Hs). cbn [app] in Es. apply map_eq_app in Es as (u & t & -> & <- & <-).
        constructor. by apply IH.
    + apply beqb_neq in E. pose proof (split_byte_nonempty star p) as Hne.
      destruct (split_byte star p) as [|w ws]; [done|]. cbn [map]. rewrite seg_match_byte. split.
      * inversion 1 as [| |? b q t Hn Hl Hm]; subst; [done|]. cbn [map]. rewrite <- Hl. eexists. split; [done|]. by apply IH.
      * intros (s' & Es & Hs). destruct s as [|b s]; [done|]. injection Es as Eb <-. constructor; [done..|]. by apply IH.
Qed.

(** ** The search is exact *)

Lemma uaEqualFold_spec (a b : bytes) : asciiEqualFold a b = true <-> map lower_byte a = b.
Proof.
  unfold asciiEqualFold. destruct (len a =? len b) eqn:E; simpl.
  - apply Z.eqb_eq in E. unfold len in E. apply Nat2Z.inj in E. revert b E.
    induction a as [|x a IH]; intros [|y b] E; try done. cbn [uaEqualFold_loop map]. injection E as E.
    change (foldASCII x) with (lower_byte x).
    destruct (beqb (lower_byte x) y) eqn:Exy; cbn [negb].
    + apply beqb_eq in Exy as ->. rewrite IH by done. split; congruence.
    + apply beqb_neq in Exy. split; [done|]. congruence.
  - split; [done|]. intros <-. unfold len in E. by rewrite length_map, Z.eqb_refl in E.
Qed.

Lemma sub_at_spec (s sub : bytes) : sub_at s sub = true <-> exists r, map lower_byte s = sub ++ r.
Proof.
  revert s. induction sub as [|y sub IH]; intros s; [split; [eauto|by destruct s]|].
  destruct s as [|x s].
  { split; [intros H; discriminate H|]. intros (r & H). discriminate H. }
  cbn [sub_at].   change (foldASCII x) with (lower_byte x). cbn [map].
  destruct (beqb (lower_byte x) y) eqn:E; cbn [negb].
  - apply beqb_eq in E as ->. rewrite IH. split; intros (r & H); exists r; [cbn [app]; congruence|by injection H].
  - apply beqb_neq in E. split; [done|]. intros (r & [=]). done.
Qed.

(** The leftmost occurrence. *)
Lemma asciiIndex_spec (sub s : bytes) :
  match asciiIndex s sub with
  | Some i => (exists x r, map lower_byte s = x ++ sub ++ r /\ length x = i) /\
              forall x r, map lower_byte s = x ++ sub ++ r -> (i <= length x)%nat
  | None => forall x r, map lower_byte s <> x ++ sub ++ r
  end.
Proof.
  induction s as [|a s IH].
  - cbn [asciiIndex]. destruct (length sub <=? length [])%nat eqn:E.
    + apply Nat.leb_le in E. destruct sub; [|simpl in E; lia]. cbn [sub_at]. split; [by exists [], []|]. intros. simpl. lia.
    + apply Nat.leb_gt in E. intros x r H. symmetry in H. apply app_eq_nil in H as [_ [-> _]%app_eq_nil]. simpl in E. lia.
  - cbn [asciiIndex]. destruct (length sub <=? length (a :: s))%nat eqn:E.
    + destruct (sub_at (a :: s) sub) eqn:Ea.
      * apply sub_at_spec in Ea as (r & Er). split; [by exists [], r|]. intros. lia.
      * assert (forall r, map lower_byte (a :: s) <> sub ++ r) as Hn.
        { intros r Hr. by rewrite (proj2 (sub_at_spec (a :: s) sub)) in Ea by eauto. }
        destruct (asciiIndex s sub) as [i|]; cbn [fmap option_fmap option_map].
        -- destruct IH as [(x & r & Ex & Hx) Hmin]. split.
           ++ exists (lower_byte a :: x), r. cbn [map app length]. by rewrite Ex, Hx.
           ++ intros [|b x'] r' H; [by destruct (Hn r')|]. injection H as _ H. apply Hmin in H. simpl. lia.
        -- intros [|b x'] r' H; [by destruct (Hn r')|]. injection H as _ H. by destruct (IH x' r').
    + apply Nat.leb_gt in E. intros x r H. apply (f_equal length) in H. rewrite length_map, !length_app in H. lia.
Qed.

(** The inner pieces, in order and disjoint. *)
Fixpoint mids (l : list bytes) (s : bytes) : Prop :=
  match l with
  | [] => True
  | a :: l' => exists x s', s = x ++ a ++ s' /\ mids l' s'
  end.

Lemma mids_suffix (l : list bytes) (t s : bytes) : mids l s -> mids l (t ++ s).
Proof.
  destruct l as [|a l]; [done|]. intros (x & s' & -> & H). exists (t ++ x), s'. by rewrite app_assoc.
Qed.

(** Taking the leftmost occurrence never loses a match. *)
Lemma inner_loop_spec (l : list bytes) : forall rest, inner_loop rest l = true <-> mids l (map lower_byte rest).
Proof.
  induction l as [|a l IH]; intros rest; [done|]. cbn [inner_loop mids]. pose proof (asciiIndex_spec a rest) as Hi.
  destruct (asciiIndex rest a) as [i|].
  - destruct Hi as [(x & r & Ex & Hx) Hmin]. rewrite IH, <- skipn_map, Ex.
    assert (drop (i + length a) (x ++ a ++ r) = r) as -> by (rewrite app_assoc, <- Hx, <- length_app; apply drop_app_length).
    split; [eauto|]. intros (x' & s' & E & H). rewrite Ex in Hmin. pose proof (Hmin _ _ E) as Hl. clear Hmin.
    assert (exists t, r = t ++ s') as (t & ->); [|by apply mids_suffix].
    exists (take (length r - length s') r). rewrite !app_assoc in E.
    assert (length r = (length x' - length x) + length s')%nat as Hlen.
    { apply (f_equal length) in E. rewrite !length_app in E. lia. }
    apply (f_equal (drop (length (x ++ a) + (length r - length s')))) in E.
    rewrite <- drop_drop, drop_app_length in E.
    replace (length (x ++ a) + (length r - length s'))%nat with (length (x' ++ a)) in E by (rewrite !length_app; lia).
    rewrite drop_app_length in E. rewrite <- E at 2. by rewrite take_drop.
  - split; [done|]. intros (x & s' & E & _). by destruct (Hi x s').
Qed.

Lemma seg_match_mids (first last_ : bytes) (m : list bytes) : forall s,
  seg_match (first :: m ++ [last_]) s <-> exists r, s = first ++ r ++ last_ /\ mids m r.
Proof.
  revert first. induction m as [|a m IH]; intros first s; cbn [app].
  - split; [intros (x & s' & -> & ->); by exists x|intros (r & -> & _); by exists r, last_].
  - rewrite seg_match_cons by (by destruct m). setoid_rewrite IH. split.
    + intros (x & s' & -> & r & -> & H). exists (x ++ a ++ r). rewrite <- !app_assoc. cbn [mids]. eauto 10.
    + intros (r & -> & x & s' & -> & H). rewrite <- !app_assoc. eauto 10.
Qed.

Lemma uaGlobMatch_segs (l : list bytes) (ua : bytes) : l <> [] ->
  uaGlobMatch (MkGlob l) ua = true <-> seg_match l (map lower_byte ua).
Proof.
  intros Hne. destruct l as [|first l]; [done|]. unfold uaGlobMatch. cbn [segs].
  destruct (exists_last (l := first :: l)) as (pre & last_ & El); [done|]. destruct l as [|b l].
  { rewrite uaEqualFold_spec. done. }
  destruct pre as [|first' m]; [by destruct l|]. cbn [app] in El. injection El as <- El. cbn [head from_option id tail].
  assert (last (first :: b :: l) = Some last_) as -> by (rewrite El, app_comm_cons; apply last_snoc).
  rewrite El. rewrite removelast_last. cbn [from_option id]. rewrite seg_match_mids.
  set (ua' := map lower_byte ua). assert (length ua = length ua') as Hlen by (symmetry; apply length_map).
  destruct (length ua <? length first + length last_)%nat eqn:Elt.
  { apply Nat.ltb_lt in Elt. split; [done|]. intros (r & E & _). apply (f_equal length) in E. rewrite !length_app in E. lia. }
  apply Nat.ltb_ge in Elt.
  destruct (asciiEqualFold (take (length first) ua) first) eqn:Ef; cbn [negb].
  2:{ split; [done|]. intros (r & E & _). exfalso. assert (asciiEqualFold (take (length first) ua) first = true); [|congruence].
      apply uaEqualFold_spec. rewrite <- firstn_map. fold ua'. rewrite E. apply take_app_length. }
  apply uaEqualFold_spec in Ef. rewrite <- firstn_map in Ef. fold ua' in Ef.
  destruct (asciiEqualFold (drop _ ua) last_) eqn:Eg; cbn [negb].
  2:{ split; [done|]. intros (r & E & _). exfalso. assert (asciiEqualFold (drop (length ua - length last_) ua) last_ = true); [|congruence].
      apply uaEqualFold_spec. rewrite <- skipn_map, Hlen. fold ua'. rewrite E, app_assoc.
      rewrite length_app, Nat.add_sub. apply drop_app_length. }
  apply uaEqualFold_spec in Eg. rewrite <- skipn_map in Eg. fold ua' in Eg.
  rewrite inner_loop_spec, <- skipn_map, <- firstn_map. fold ua'.
  set (n2 := (length ua - length last_)%nat) in *.
  assert (ua' = first ++ drop (length first) (take n2 ua') ++ last_) as Eu.
  { assert (take (length first) (take n2 ua') = first) as Ef' by (rewrite take_take, Nat.min_l; [done|subst n2; lia]).
    rewrite <- Ef' at 1. rewrite app_assoc, take_drop. rewrite <- Eg. symmetry. apply take_drop. }
  split.
  - intros H. eauto.
  - intros (r & E & H). rewrite Eu in E. apply app_inv_head, app_inv_tail in E. by rewrite E.
Qed.

Lemma stars_only (q : bytes) :
  forallb (fun seg => beq seg []) (split_byte star q) = negb (existsb (fun c => negb (beqb c star)) q).
Proof.
  induction q as [|a q IH]; [done|]. cbn [split_byte existsb]. destruct (beqb a star) eqn:E.
  - cbn [forallb]. rewrite IH. by rewrite beq_refl.
  - pose proof (split_byte_nonempty star q). by destruct (split_byte star q).
Qed.

Lemma compile_pattern_spec (p ua : bytes) :
  match compile_pattern p with Some g => uaGlobMatch g ua | None => false end = true <->
  existsb (fun c => negb (beqb c star)) (trim_space p) = true /\ glob_match (trim_space p) ua.
Proof.
  unfold compile_pattern. set (q := trim_space p).
  rewrite stars_only.
  destruct (beq q []) eqn:Eq.
  { apply beq_eq in Eq as ->. by split; [|intros [? _]]. }
  destruct (existsb _ q); cbn [negb]; [|by split; [|intros [? _]]].
  change foldASCII with lower_byte. rewrite uaGlobMatch_segs, <- glob_match_segs; [naive_solver|].
  pose proof (split_byte_nonempty star q). by destruct (split_byte star q).
Qed.

Lemma ua_bypassed_spec (patterns : list bytes) (ua : bytes) :
  ua_bypassed (compileUABypass patterns) ua = true <->
  exists p, p ∈ patterns /\ existsb (fun c => negb (beqb c star)) (trim_space p) = true /\ glob_match (trim_space p) ua.
Proof.
  unfold compileUABypass. destruct (length patterns =? 0)%nat eqn:E0.
  { apply Nat.eqb_eq, length_zero_iff_nil in E0 as ->. split; [done|]. intros (p & Hp & _). by apply not_elem_of_nil in Hp. }
  assert (ua_bypassed (if (length (omap compile_pattern patterns) =? 0)%nat then None else Some (MkBypass (omap compile_pattern patterns))) ua
          = existsb (fun g => uaGlobMatch g ua) (omap compile_pattern patterns)) as ->.
  { destruct (omap compile_pattern patterns); done. }
  rewrite existsb_exists. setoid_rewrite <- list_elem_of_In. setoid_rewrite list_elem_of_omap. split.
  - intros (g & (p & Hp & Eg) & Hm). exists p. split; [done|]. apply compile_pattern_spec. by rewrite Eg.
  - intros (p & Hp & H). apply compile_pattern_spec in H. destruct (compile_pattern p) as [g|] eqn:Eg; [|done]. eauto.
Qed.

(** ** Accepted patterns *)

Lemma only_stars (q : bytes) : existsb (fun c => negb (beqb c star)) q = false ->
  q = [] \/ q = [star] \/ contains q [star; star] = true.
Proof.
  destruct q as [|a [|b q]]; [by left|..]; cbn [existsb]; intros H; apply orb_false_iff in H as [Ha H];
    apply negb_false_iff, beqb_eq in Ha as ->; right; [by left|right].
  apply orb_false_iff in H as [Hb _]. apply negb_false_iff, beqb_eq in Hb as ->.
  apply orb_true_iff. left. apply has_prefix_spec. by exists q.
Qed.

Lemma ua_entries_significant (to_lower : bytes -> bytes) (l : list bytes) : forall seen, ua_entries_loop to_lower seen l = true ->
  Forall (fun p => existsb (fun c => negb (beqb c star)) (trim_space p) = true /\ forallb ua_char_ok (trim_space p) = true) l.
Proof.
  induction l as [|p l IH]; intros seen H; [constructor|]. cbn [ua_entries_loop] in H. set (q := trim_space p) in *.
  destruct (beq q []) eqn:E1; [by rewrite andb_false_r in H|].
  destruct (_ <? _)%nat; [by rewrite andb_false_r in H|].
  destruct (beq q [star]) eqn:E2; [by rewrite andb_false_r in H|].
  destruct (contains q _) eqn:E3; [by rewrite andb_false_r in H|].
  destruct (uaPatternCharError q) eqn:E4; [by rewrite andb_false_r in H|].
  destruct (existsb (beq (to_lower q)) seen); [by rewrite andb_false_r in H|].
  constructor; [|by eapply IH]. split; [|by apply negb_false_iff].
  destruct (existsb (fun c => negb (beqb c star)) q) eqn:E; [done|]. apply only_stars in E as [->|[->|E]]; [done|by rewrite beq_refl in E2|congruence].
Qed.

Lemma glob_match_empty (q : bytes) : existsb (fun c => negb (beqb c star)) q = true -> ~ glob_match q [].
Proof.
  induction q as [|a q IH]; [done|]. cbn [existsb]. intros H Hm. inversion Hm as [|p s t Ht Ep Es|]; subst.
  apply app_eq_nil in Es as [-> ->]. rewrite beqb_refl in H. by apply IH.
Qed.

(** An accepted list compiles entry by entry, and never bypasses a request
    without a User-Agent. *)
Lemma ua_accepted (to_lower : bytes -> bytes) (patterns : list bytes) : validateBypassOnUserAgent to_lower patterns = true ->
  length (omap compile_pattern patterns) = length patterns /\ ua_bypassed (compileUABypass patterns) [] = false.
Proof.
  unfold validateBypassOnUserAgent. intros [_ H]%andb_true_iff. apply ua_entries_significant in H. split.
  - induction H as [|p l [Hp _] Hl IH]; [done|]. cbn [omap list_omap length].
    destruct (compile_pattern p) eqn:E; [by cbn [length]; rewrite IH|]. exfalso. unfold compile_pattern in E.
    destruct (beq (trim_space p) []) eqn:Eb; [apply beq_eq in Eb; by rewrite Eb in Hp|].
    destruct (forallb _ (split_byte star (trim_space p))) eqn:Ef; [|done]. by rewrite stars_only in Ef; rewrite Hp in Ef.
  - apply not_true_iff_false. intros (p & Hp & Hs & Hm)%ua_bypassed_spec. by eapply glob_match_empty.
Qed.

(** A request bypasses the cache exactly when its User-Agent, up to
    ASCII case, is matched in full by one of the configured patterns, with
    [*] for any run of bytes; a pattern of stars alone never matches. The
    matcher answers alike on the slow path's bytes and the fast path's
    string. A list the configuration accepts compiles entry by entry and never
    bypasses a request without a User-Agent. *)
Theorem ua_bypass_exact (to_lower : bytes -> bytes) (patterns : list bytes) (ua : bytes) :
  (ua_bypassed (compileUABypass patterns) ua = true <->
   exists p, p ∈ patterns /\ existsb (fun c => negb (beqb c star)) (trim_space p) = true /\ glob_match (trim_space p) ua) /\
  (forall b, matchBytes b ua = matchString b ua) /\
  (validateBypassOnUserAgent to_lower patterns = true ->
   length (omap compile_pattern patterns) = length patterns /\ ua_bypassed (compileUABypass patterns) [] = false).
Proof. split_and!; [apply ua_bypassed_spec|done|apply ua_accepted]. Qed.

Lemma ua_bypass_exact_witness :
  validateBypassOnUserAgent (map lower_byte) [bs "*bot*"; bs "curl/*"] = true /\
  ua_bypassed (compileUABypass [bs "*bot*"; bs "curl/*"]) (bs "Curl/8.0") = true /\
  ua_bypassed (compileUABypass [bs "*bot*"; bs "curl/*"]) [] = false.
Proof.
  assert (validateBypassOnUserAgent (map lower_byte) [bs "*bot*"; bs "curl/*"] = true) as H by (vm_compute; reflexivity).
  split; [exact H|]. split; [vm_compute; reflexivity|].
  apply (ua_bypass_exact (map lower_byte) [bs "*bot*"; bs "curl/*"] []). exact H.
Defined.
