(* ===== verification/DateFormat.v ===== *)
(** * Writing HTTP dates

    [now.UTC().AppendFormat(nil, httpTimeFormat)] of Go's [time], which the
    fast path and the conditional requests write, with the calendar it needs.
    The theorem says that a date written by the proxy is read back by
    [parseHTTPDate] (src/internal/cache/httpdate.go) as the second it was
    written in. *)

From S2P Require Import Prelude GoStd CacheControl HeaderMap GoStrings Api HttpDate.

(** ** The calendar *)

(** Month and day of a day of the year that starts in March. *)
Definition month_day (doy : Z) : Z * Z :=
  let mp := (5 * doy + 2) / 153 in
  (if mp <? 10 then mp + 3 else mp - 9, doy - (153 * mp + 2) / 5 + 1).
(** Year, month and day of a day of a 400-year era: cycles of 100, 4 and 1
    years. *)
Definition civil_of_era_day (doe : Z) : Z * Z * Z :=
  let c := Z.min 3 (doe / 36524) in
  let r1 := doe - 36524 * c in
  let q := r1 / 1461 in
  let r2 := r1 - 1461 * q in
  let r := Z.min 3 (r2 / 365) in
  let '(m, d) := month_day (r2 - 365 * r) in
  let yoe := 100 * c + 4 * q + r in
  (if m <=? 2 then yoe + 1 else yoe, m, d).
(** The same for a number of days since 1970-01-01. *)
Definition civil_from_days (z : Z) : Z * Z * Z :=
  let z := z + 719468 in
  let era := z / 146097 in
  let '(y, m, d) := civil_of_era_day (z mod 146097) in
  (y + 400 * era, m, d).

(** [t.Unix()] *)
Definition unix (t : Time) : Z := t / Second.
(** [t.Weekday()]: Sunday is 0, and the epoch was a Thursday. *)
Definition weekday (days : Z) : Z := (days + 4) mod 7.

(** ** AppendFormat *)

Definition dec_digit (z : Z) : byte := bZ (48 + z mod 10).
Definition two_digits (z : Z) : bytes := [dec_digit (z / 10); dec_digit z].
Definition four_digits (z : Z) : bytes := [dec_digit (z / 1000); dec_digit (z / 100); dec_digit (z / 10); dec_digit z].

(** "Mon, 02 Jan 2006 15:04:05 GMT", for years of four digits. *)
Definition formatHTTPDate (t : Time) : bytes :=
  let secs := unix t in
  let days := secs / 86400 in
  let rem := secs mod 86400 in
  let '(y, m, d) := civil_from_days days in
  nth (Z.to_nat (weekday days)) shortDayNames [] ++ bs ", " ++ two_digits d ++ bs " "
  ++ nth (Z.to_nat (m - 1)) shortMonthNames [] ++ bs " " ++ four_digits y ++ bs " "
  ++ two_digits (rem / 3600) ++ bs ":" ++ two_digits (rem mod 3600 / 60) ++ bs ":" ++ two_digits (rem mod 60) ++ bs " GMT".

Example format_epoch :
  formatHTTPDate (784111777 * Second + 5) = bs "Sun, 06 Nov 1994 08:49:37 GMT" /\
  formatHTTPDate 0 = bs "Thu, 01 Jan 1970 00:00:00 GMT" /\
  formatHTTPDate zero_time = bs "Mon, 01 Jan 0001 00:00:00 GMT".
Proof. by vm_compute. Qed.

(** ** The calendar is a bijection *)

Definition month_day_ok (doy : Z) : bool :=
  let '(m, d) := month_day doy in
  (1 <=? m) && (m <=? 12) && (1 <=? d) && ((153 * (m + (if 2 <? m then -3 else 9)) + 2) / 5 + d - 1 =? doy)
  && (d <=? (if m =? 2 then if doy =? 365 then 29 else 28 else days_in m 0)) && (negb (doy =? 365) || (m =? 2)).

(** One year, day by day. *)
Fixpoint all_below (n : nat) (p : Z -> bool) (start : Z) : bool :=
  match n with O => true | S n => p start && all_below n p (start + 1) end.

Lemma all_below_spec (n : nat) (p : Z -> bool) : forall start, all_below n p start = true ->
  forall z, start <= z < start + Z.of_nat n -> p z = true.
Proof.
  induction n as [|n IH]; intros start H z Hz; [lia|]. cbn [all_below] in H. apply andb_true_iff in H as [H1 H2].
  destruct (decide (z = start)) as [->|]; [done|]. apply (IH (start + 1)); [done|lia].
Qed.

Lemma month_day_spec (doy m d : Z) : 0 <= doy <= 365 -> month_day doy = (m, d) ->
  1 <= m <= 12 /\ 1 <= d /\ (153 * (m + (if 2 <? m then -3 else 9)) + 2) / 5 + d - 1 = doy /\
  (doy = 365 -> m = 2) /\
  (forall y, doy <> 365 \/ is_leap (if m <=? 2 then y + 1 else y) = true -> d <= days_in m (if m <=? 2 then y + 1 else y)).
Proof.
  intros Hd E. assert (all_below 366 month_day_ok 0 = true) as Ha by (vm_compute; reflexivity).
  pose proof (all_below_spec _ _ 0 Ha doy ltac:(lia)) as H. unfold month_day_ok in H. rewrite E in H.
  rewrite !andb_true_iff, !Z.leb_le, Z.eqb_eq in H. destruct H as (((((? & ?) & ?) & ?) & Hdm) & H2). split_and!; [done..| |].
  { intros E5. rewrite E5 in H2. by apply Z.eqb_eq. }
  intros y Hy. unfold days_in in *. destruct (m =? 2) eqn:Em; [|destruct (_ || _); lia].
  revert Hdm. destruct (Z.eqb_spec doy 365) as [E5|E5]; intros Hdm; [|destruct (is_leap _); lia].
  destruct Hy as [Hy| ->]; [lia|done].
Qed.

Ltac div_lia := Z.to_euclidean_division_equations; lia.

Lemma era_day_spec (doe y m d : Z) : 0 <= doe < 146097 -> civil_of_era_day doe = (y, m, d) ->
  days_from_civil y m d = doe - 719468 /\ 1 <= m <= 12 /\ 1 <= d <= days_in m y.
Proof.
  unfold civil_of_era_day. intros Hd. set (c := Z.min 3 (doe / 36524)). set (r1 := doe - 36524 * c).
  set (q := r1 / 1461). set (r2 := r1 - 1461 * q). set (r := Z.min 3 (r2 / 365)).
  assert (0 <= c <= 3 /\ 0 <= r1 <= 36524 /\ (c < 3 -> r1 < 36524)) as (Hc & Hr1 & Hc3)
    by (unfold r1, c; div_lia).
  assert (0 <= q <= 24 /\ 0 <= r2 <= 1460) as (Hq & Hr2) by (unfold r2, q; clearbody r1; div_lia).
  assert (0 <= r <= 3 /\ 0 <= r2 - 365 * r <= 365 /\ (r2 - 365 * r = 365 -> r = 3)) as (Hr & Hy & Hy3)
    by (unfold r; clearbody r2; div_lia).
  destruct (month_day (r2 - 365 * r)) as [m' d'] eqn:E. intros [= <- <- <-].
  apply month_day_spec in E as (Hm & Hd1 & Edoy & Hfeb & Hdays); [|done]. set (yoe := 100 * c + 4 * q + r).
  assert (yoe / 4 = 25 * c + q /\ yoe / 100 = c /\ yoe / 400 = 0) as (Y4 & Y100 & Y400)
    by (clear - Hc Hq Hr; clearbody c q r; subst yoe; div_lia).
  split_and!; [|lia..|].
  - unfold days_from_civil.
    replace (if m' <=? 2 then (if m' <=? 2 then yoe + 1 else yoe) - 1 else if m' <=? 2 then yoe + 1 else yoe) with yoe
      by (destruct (m' <=? 2); lia).
    rewrite Edoy, Y400. replace (yoe - 0 * 400) with yoe by lia. rewrite Y4, Y100. subst yoe r2 r1. lia.
  - apply Hdays. destruct (decide (r2 - 365 * r = 365)) as [E5|]; [right|by left]. specialize (Hy3 E5).
    rewrite (Hfeb E5). cbn [Z.leb Z.compare Pos.compare Pos.compare_cont].
    assert (q = 24 -> c = 3) as Hq24 by (intros; unfold r2 in *; lia).
    unfold is_leap. subst yoe. rewrite Hy3. clear - Hc Hq Hq24. clearbody c q. replace (100 * c + 4 * q + 3 + 1) with (4 * (25 * c + q + 1)) by lia.
    rewrite andb_true_iff, orb_true_iff, negb_true_iff, !Z.eqb_eq, Z.eqb_neq. split; [rewrite Z.mul_comm; apply Z.mod_mul; lia|].
    destruct (decide (q = 24)) as [->|]; [right; rewrite Hq24 by done; done|left; div_lia].
Qed.

Lemma days_from_civil_era (y m d k : Z) : days_from_civil (y + 400 * k) m d = days_from_civil y m d + 146097 * k.
Proof.
  unfold days_from_civil. set (y0 := if m <=? 2 then y - 1 else y).
  replace (if m <=? 2 then y + 400 * k - 1 else y + 400 * k) with (y0 + k * 400) by (subst y0; destruct (m <=? 2); lia).
  rewrite Z.div_add by lia. replace (y0 + k * 400 - (y0 / 400 + k) * 400) with (y0 - y0 / 400 * 400) by lia. lia.
Qed.

Lemma days_in_era (m y k : Z) : days_in m (y + 400 * k) = days_in m y.
Proof.
  unfold days_in, is_leap.
  replace ((y + 400 * k) mod 4) with (y mod 4) by (rewrite <- (Z.mod_add y (100 * k) 4) by lia; f_equal; lia).
  replace ((y + 400 * k) mod 100) with (y mod 100) by (rewrite <- (Z.mod_add y (4 * k) 100) by lia; f_equal; lia).
  replace ((y + 400 * k) mod 400) with (y mod 400) by (rewrite <- (Z.mod_add y k 400) by lia; f_equal; lia).
  done.
Qed.

(** [civil_from_days] gives a valid date, and [days_from_civil] takes it back. *)
Lemma civil_from_days_spec (z : Z) :
  let '(y, m, d) := civil_from_days z in
  days_from_civil y m d = z /\ 1 <= m <= 12 /\ 1 <= d <= days_in m y.
Proof.
  unfold civil_from_days. pose proof (Z.mod_pos_bound (z + 719468) 146097 ltac:(lia)) as Hb.
  destruct (civil_of_era_day ((z + 719468) mod 146097)) as [[y m] d] eqn:E.
  apply era_day_spec in E as (E & Hm & Hd); [|done]. rewrite days_from_civil_era, days_in_era, E.
  pose proof (Z.div_mod (z + 719468) 146097 ltac:(lia)). lia.
Qed.

(** ** A written date is read back *)

Lemma dec_digit_spec (z : Z) : is_digit (dec_digit z) = true /\ digit (dec_digit z) = z mod 10.
Proof.
  unfold is_digit, in_range, digit, dec_digit. pose proof (Z.mod_pos_bound z 10 ltac:(lia)).
  rewrite Zb_bZ, Z.mod_small by lia. change (Zb (ch "0")) with 48. change (Zb (ch "9")) with 57. split; [|lia].
  apply andb_true_iff. rewrite !Z.leb_le. lia.
Qed.

Lemma digit_not (c d : byte) : is_digit c = true -> is_digit d = false -> beqb c d = false.
Proof. intros Hc Hd. apply beqb_neq. intros ->. congruence. Qed.

Lemma getnum_two (fixed : bool) (n : Z) (r : bytes) : 0 <= n < 100 -> getnum fixed (two_digits n ++ r) = Some (n, r).
Proof.
  intros Hn. unfold two_digits. cbn [app getnum].
  destruct (dec_digit_spec (n / 10)) as [-> ->], (dec_digit_spec n) as [-> ->]. cbn [negb]. f_equal. f_equal. div_lia.
Qed.

Lemma cutspace_id (r : bytes) : head r <> Some (ch " ") -> cutspace r = r.
Proof. destruct r as [|c r]; [done|]. simpl. intros H. rewrite (proj2 (beqb_neq c (ch " "))); [done|]. intros ->. by apply H. Qed.

Lemma skip_blank (r : bytes) : head r <> Some (ch " ") -> skip false (bs " " ++ r) (bs " ") = Some r.
Proof. intros H. cbn. by rewrite (cutspace_id r H). Qed.

Lemma head_two (z : Z) (r : bytes) : head (two_digits z ++ r) <> Some (ch " ").
Proof.
  cbn [two_digits app head hd_error]. intros [= E]. pose proof (proj1 (dec_digit_spec (z / 10))) as H. by rewrite E in H.
Qed.

Lemma parse_weekday (i : nat) (f : fields) (r : bytes) : (i < 7)%nat ->
  parse_chunk StdWeekDay f (nth i shortDayNames [] ++ r) = Some (f, r).
Proof. intros H. do 7 (destruct i as [|i]; [destruct r; vm_compute; reflexivity|]). lia. Qed.

Lemma parse_month (i : nat) (f : fields) (r : bytes) : (i < 12)%nat ->
  parse_chunk StdMonth f (nth i shortMonthNames [] ++ r) = Some ({| f with f_month := Z.of_nat i + 1 |}, r).
Proof. intros H. do 12 (destruct i as [|i]; [destruct r; vm_compute; reflexivity|]). lia. Qed.

Lemma head_month (i : nat) (r : bytes) : (i < 12)%nat -> head (nth i shortMonthNames [] ++ r) <> Some (ch " ").
Proof. intros H. do 12 (destruct i as [|i]; [vm_compute; discriminate|]). lia. Qed.

Lemma parse_year (y : Z) (f : fields) (r : bytes) : 0 <= y <= 9999 ->
  parse_chunk StdLongYear f (four_digits y ++ r) = Some ({| f with f_year := y |}, r).
Proof.
  intros Hy. cbn [parse_chunk]. unfold four_digits. cbn [app].
  destruct (dec_digit_spec (y / 1000)) as [D1 V1], (dec_digit_spec (y / 100)) as [D2 V2],
    (dec_digit_spec (y / 10)) as [D3 V3], (dec_digit_spec y) as [D4 V4]. unfold digit in *.
  rewrite D1, !len_cons. pose proof (len_nonneg r). rewrite (proj2 (Z.ltb_ge _ _)) by lia. cbn [orb negb take drop].
  unfold time_atoi. rewrite (digit_not _ (ch "-") D1), (digit_not _ (ch "+") D1) by done.
  cbn [all_digits]. rewrite D1, D2, D3, D4. cbn [andb digits_value negb]. rewrite V1, V2, V3, V4.
  assert (10 * (10 * (10 * (10 * 0 + (y / 1000) mod 10) + (y / 100) mod 10) + (y / 10) mod 10) + y mod 10 = y) as ->;
    [div_lia|done].
Qed.

Lemma parse_comma (f : fields) (r : bytes) : head r <> Some (ch " ") -> parse_chunk (Lit (bs ", ")) f (bs ", " ++ r) = Some (f, r).
Proof. intros H. cbn. by rewrite (cutspace_id r H). Qed.
Lemma parse_blank (f : fields) (r : bytes) : head r <> Some (ch " ") -> parse_chunk (Lit (bs " ")) f (bs " " ++ r) = Some (f, r).
Proof. intros H. cbn [parse_chunk]. by rewrite skip_blank. Qed.
Lemma parse_colon (f : fields) (r : bytes) : parse_chunk (Lit (bs ":")) f (bs ":" ++ r) = Some (f, r).
Proof. by destruct r. Qed.
Lemma parse_day (f : fields) (d : Z) (r : bytes) : 0 <= d < 100 ->
  parse_chunk StdZeroDay f (two_digits d ++ r) = Some ({| f with f_day := d |}, r).
Proof. intros H. cbn [parse_chunk]. by rewrite getnum_two. Qed.
Lemma parse_hour (f : fields) (d : Z) (r : bytes) : 0 <= d < 24 ->
  parse_chunk StdHour f (two_digits d ++ r) = Some ({| f with f_hour := d |}, r).
Proof. intros H. cbn [parse_chunk]. rewrite getnum_two by lia. by rewrite (proj2 (Z.leb_gt 24 d)) by lia. Qed.
Lemma parse_minute (f : fields) (d : Z) (r : bytes) : 0 <= d < 60 ->
  parse_chunk StdZeroMinute f (two_digits d ++ r) = Some ({| f with f_min := d |}, r).
Proof. intros H. cbn [parse_chunk]. rewrite getnum_two by lia. by rewrite (proj2 (Z.leb_gt 60 d)) by lia. Qed.
Lemma parse_second (f : fields) (d : Z) : 0 <= d < 60 ->
  parse_chunk StdZeroSecond f (two_digits d ++ bs " GMT") = Some ({| f with f_sec := d; f_nsec := 0 |}, bs " GMT").
Proof. intros H. cbn [parse_chunk]. rewrite getnum_two by lia. by rewrite (proj2 (Z.leb_gt 60 d)) by lia. Qed.

Lemma head_four (z : Z) (r : bytes) : head (four_digits z ++ r) <> Some (ch " ").
Proof.
  cbn [four_digits app head hd_error]. intros [= E]. pose proof (proj1 (dec_digit_spec (z / 1000))) as H. by rewrite E in H.
Qed.

Lemma parse_chunks_cons (c : chunk) (l : list chunk) (f f' : fields) (v v' : bytes) :
  parse_chunk c f v = Some (f', v') -> parse_chunks (c :: l) f v = parse_chunks l f' v'.
Proof. intros E. cbn [parse_chunks]. by rewrite E. Qed.

(** The layout's elements, one by one. *)
Lemma parse_format (wd mi : nat) (d y h m s : Z) : (wd < 7)%nat -> (mi < 12)%nat -> 0 <= d < 100 -> 0 <= y <= 9999 ->
  0 <= h < 24 -> 0 <= m < 60 -> 0 <= s < 60 ->
  parse_chunks httpTimeFormat fields0
    (nth wd shortDayNames [] ++ bs ", " ++ two_digits d ++ bs " " ++ nth mi shortMonthNames [] ++ bs " " ++ four_digits y
     ++ bs " " ++ two_digits h ++ bs ":" ++ two_digits m ++ bs ":" ++ two_digits s ++ bs " GMT")
  = Some (MkFields y (Z.of_nat mi + 1) d h m s 0 false []).
Proof.
  intros Hwd Hmi Hd Hy Hh Hm Hs. unfold httpTimeFormat, hms. cbn [app].
  rewrite (parse_chunks_cons _ _ _ _ _ _ (parse_weekday wd _ _ Hwd)).
  rewrite (parse_chunks_cons _ _ _ _ _ _ (parse_comma _ _ (head_two _ _))).
  rewrite (parse_chunks_cons _ _ _ _ _ _ (parse_day _ d _ Hd)).
  rewrite (parse_chunks_cons _ _ _ _ _ _ (parse_blank _ _ (head_month mi _ Hmi))).
  rewrite (parse_chunks_cons _ _ _ _ _ _ (parse_month mi _ _ Hmi)).
  rewrite (parse_chunks_cons _ _ _ _ _ _ (parse_blank _ _ (head_four _ _))).
  rewrite (parse_chunks_cons _ _ _ _ _ _ (parse_year y _ _ Hy)).
  rewrite (parse_chunks_cons _ _ _ _ _ _ (parse_blank _ _ (head_two _ _))).
  rewrite (parse_chunks_cons _ _ _ _ _ _ (parse_hour _ h _ Hh)).
  rewrite (parse_chunks_cons _ _ _ _ _ _ (parse_colon _ _)).
  rewrite (parse_chunks_cons _ _ _ _ _ _ (parse_minute _ m _ Hm)).
  rewrite (parse_chunks_cons _ _ _ _ _ _ (parse_colon _ _)).
  rewrite (parse_chunks_cons _ _ _ _ _ _ (parse_second _ s Hs)). reflexivity.
Qed.

(** The wrapper's tests: only the blanks, the comma and the colons matter. *)
Definition date_shape (s : bytes) : Prop :=
  trim_space s = s /\ s <> [] /\ validHTTPTimeField s = true /\ contains s (bs "  ") = false /\ normalizeTZ s = s.

Lemma parse_shaped (local : bytes -> Z -> option Z) (s : bytes) (f : fields) : date_shape s ->
  parse_chunks httpTimeFormat fields0 s = Some f -> 1 <= f_day f <= days_in (f_month f) (f_year f) -> f_zone f = [] ->
  parseHTTPDate local s = date_utc f.
Proof.
  intros (E1 & E2 & E3 & E4 & E5) Hp Hd Hz. unfold parseHTTPDate. rewrite E1, E3, E4, E5, andb_false_r.
  rewrite (proj2 (beq_neq s [])) by done. cbn [negb try_formats formats]. unfold time_parse. rewrite Hp.
  rewrite (proj2 (Z.ltb_ge _ 1)), (proj2 (Z.ltb_ge (days_in _ _) _)) by lia. cbn [orb]. rewrite Hz, beq_refl, orb_true_r. done.
Qed.

Definition plain (c : byte) : bool := negb (ascii_space c) && (Zb c <? 128) && negb (beqb c (ch ":")) && negb (beqb (ch " ") c).

Lemma plain_digit (z : Z) : plain (dec_digit z) = true.
Proof.
  pose proof (dec_digit_spec z) as [H _]. unfold is_digit, in_range in H.
  change (Zb (ch "0")) with 48 in H. change (Zb (ch "9")) with 57 in H. rewrite andb_true_iff, !Z.leb_le in H.
  unfold plain, ascii_space. rewrite !beqb_Zb. change (Zb (ch ":")) with 58. change (Zb (ch " ")) with 32.
  rewrite !andb_true_iff, !negb_true_iff, !orb_false_iff, andb_false_iff, !Z.eqb_neq, !Z.leb_gt, Z.ltb_lt. lia.
Qed.

Lemma plain_facts (c : byte) : plain c = true ->
  ascii_space c = false /\ (Zb c <? 128) = true /\ beqb c (ch ":") = false /\ beqb (ch " ") c = false.
Proof. unfold plain. rewrite !andb_true_iff, !negb_true_iff. tauto. Qed.

Ltac plain_rewrite :=
  repeat match goal with
  | H : plain ?c = true |- context [ascii_space ?c] => rewrite (proj1 (plain_facts c H))
  | H : plain ?c = true |- context [Zb ?c <? 128] => rewrite (proj1 (proj2 (plain_facts c H)))
  | H : plain ?c = true |- context [beqb ?c (ch ":")] => rewrite (proj1 (proj2 (proj2 (plain_facts c H))))
  | H : plain ?c = true |- context [beqb (ch " ") ?c] => rewrite (proj2 (proj2 (proj2 (plain_facts c H))))
  end.

Lemma plain_name (i : nat) (names : list bytes) : (i < length names)%nat ->
  forallb (fun n => (length n =? 3)%nat && forallb plain n) names = true ->
  exists a b c, nth i names [] = [a; b; c] /\ plain a = true /\ plain b = true /\ plain c = true.
Proof.
  intros Hi H. rewrite forallb_forall in H. specialize (H _ (nth_In names [] Hi)).
  destruct (nth i names []) as [|a [|b [|c [|d l]]]]; try done. cbn [length Nat.eqb forallb] in H.
  rewrite !andb_true_iff in H. destruct H as (_ & ? & ? & ? & _). by exists a, b, c.
Qed.

Lemma contains_cons (a : byte) (s sub : bytes) : contains (a :: s) sub = has_prefix (a :: s) sub || contains s sub.
Proof. reflexivity. Qed.

Lemma format_shape (wd mi : nat) (d y h m s : Z) : (wd < 7)%nat -> (mi < 12)%nat ->
  date_shape
    (nth wd shortDayNames [] ++ bs ", " ++ two_digits d ++ bs " " ++ nth mi shortMonthNames [] ++ bs " " ++ four_digits y
     ++ bs " " ++ two_digits h ++ bs ":" ++ two_digits m ++ bs ":" ++ two_digits s ++ bs " GMT").
Proof.
  intros Hwd Hmi.
  destruct (plain_name wd shortDayNames Hwd eq_refl) as (w1 & w2 & w3 & -> & W1 & W2 & W3).
  destruct (plain_name mi shortMonthNames Hmi eq_refl) as (m1 & m2 & m3 & -> & M1 & M2 & M3).
  unfold two_digits, four_digits. change (bs ", ") with [ch ","; ch " "]. change (bs " ") with [ch " "]. change (bs ":") with [ch ":"].
  change (bs " GMT") with [ch " "; ch "G"; ch "M"; ch "T"]. cbn [app].
  repeat match goal with |- context [dec_digit ?z] => 
    pose proof (plain_digit z); pose proof (proj1 (dec_digit_spec z)); generalize dependent (dec_digit z); intros end.
  split_and!.
  - rewrite trim_space_ascii.
    + cbn [drop_while]. plain_rewrite. reflexivity.
    + unfold is_ascii. cbn [forallb]. plain_rewrite. reflexivity.
  - discriminate.
  - unfold validHTTPTimeField. rewrite index_byte_cut. cbn [cut_byte]. plain_rewrite. assumption.
  - change (bs "  ") with [ch " "; ch " "]. rewrite !contains_cons. cbn [has_prefix]. plain_rewrite. reflexivity.
  - reflexivity.
Qed.

(** A date the proxy writes, for an instant of the years 0 to 9999,
    is one [parseHTTPDate] accepts, and it reads back as the second it was
    written in, whatever the machine's zone. *)
Theorem http_date_roundtrip (local : bytes -> Z -> option Z) (t : Time) :
  0 <= (civil_from_days (unix t / 86400)).1.1 <= 9999 ->
  parseHTTPDate local (formatHTTPDate t) = unix t * Second.
Proof.
  intros Hy. unfold formatHTTPDate. pose proof (civil_from_days_spec (unix t / 86400)) as Hc.
  destruct (civil_from_days (unix t / 86400)) as [[y m] d]. destruct Hc as (Ed & Hm & Hd). cbn [fst] in Hy.
  set (wd := Z.to_nat (weekday (unix t / 86400))). set (mi := Z.to_nat (m - 1)). set (rem := unix t mod 86400).
  assert (wd < 7)%nat by (unfold wd, weekday; pose proof (Z.mod_pos_bound (unix t / 86400 + 4) 7); lia).
  assert (mi < 12)%nat by (unfold mi; lia). pose proof (Z.mod_pos_bound (unix t) 86400 ltac:(lia)) as Hr. fold rem in Hr.
  assert (d < 100) by (unfold days_in in Hd; destruct (m =? 2); [destruct (is_leap y)|destruct (_ || _)]; lia).
  assert (0 <= rem / 3600 < 24 /\ 0 <= rem mod 3600 / 60 < 60 /\ 0 <= rem mod 60 < 60) as (? & ? & ?) by (clearbody rem; div_lia).
  assert (parse_chunks httpTimeFormat fields0 _ = _) as Ep
    by exact (parse_format wd mi d y (rem / 3600) (rem mod 3600 / 60) (rem mod 60) ltac:(done) ltac:(done) ltac:(lia) Hy ltac:(done) ltac:(done) ltac:(done)).
  rewrite (parse_shaped local _ _ (format_shape wd mi d y _ _ _ ltac:(done) ltac:(done)) Ep);
    cbn [f_day f_month f_year f_zone]; [|replace (Z.of_nat mi + 1) with m by (unfold mi; lia); done|done].
  unfold date_utc. cbn [f_day f_month f_year f_hour f_min f_sec f_nsec]. replace (Z.of_nat mi + 1) with m by (unfold mi; lia).
  rewrite Ed, Z.add_0_r. f_equal. unfold rem. clear. div_lia.
Qed.

Lemma http_date_roundtrip_witness :
  0 <= (civil_from_days (unix (784111777 * Second + 5) / 86400)).1.1 <= 9999 /\
  parseHTTPDate no_local_zone (formatHTTPDate (784111777 * Second + 5)) = 784111777 * Second.
Proof.
  assert (0 <= (civil_from_days (unix (784111777 * Second + 5) / 86400)).1.1 <= 9999) as H by (vm_compute; split; discriminate).
  split; [exact H|]. rewrite (http_date_roundtrip no_local_zone _ H). vm_compute. reflexivity.
Defined.
