(* ===== verification/FastPath.v ===== *)
(** * The hit fast path

    src/internal/cache/fastpath.go with [serializeHead] (handler.go),
    [pathNeedsNormalization] (key.go), the status texts of httpdate.go, the
    peer tests of resolver.go and the rendered heads an object carries
    (src/pkg/api/storage.go): from a parsed request to the bytes of a hit, or
    to the request handed to the slow path with the hints of the peer branch.

    The store, the cluster's owner lookup and peer fetch are arguments. The
    rendered heads of an object are part of what the store returns, and a
    served object comes back with the heads it then has. The capacity of a
    pooled buffer is an argument too, since the code decides on it. *)

From S2P Require Import Prelude GoStd CacheControl HeaderMap GoFloat GoStrings RawReq Api HttpDate Engine Cacheable Conditional Keys Cookies Negotiate Vary H1Parser UABypass DateFormat.
From Stdlib Require Import Floats.SpecFloat.

Definition maxFastPathHeaderBytes : Z := 8 * 1024.

(** ** Which requests qualify *)

(** [pathNeedsNormalization] from the second byte on; [prev] is [p[i-1]]. *)
Fixpoint path_scan (prev : byte) (p : bytes) : bool :=
  match p with
  | [] => false
  | c :: p' =>
      if beqb c (ch "%") || beqb c (ch "#") then true
      else if beqb c (ch ".") && beqb prev (ch "/") then
        match p' with
        | [] => true
        | d :: p'' =>
            if beqb d (ch "/") then true
            else if beqb d (ch ".") && match p'' with [] => true | e :: _ => beqb e (ch "/") end then true
            else path_scan c p'
        end
      else path_scan c p'
  end.
Definition pathNeedsNormalization (p : bytes) : bool :=
  match p with
  | c :: p' => if beqb c (ch "/") then path_scan c p' else true
  | [] => true
  end.

Definition qualifiesForFastPath (req : Request) : option Directives :=
  if negb (beq (H1Parser.Method req) (bs "GET")) && negb (beq (H1Parser.Method req) (bs "HEAD")) then None
  else if has_flag (ScanFlags req) DisqualifyFastPath then None
  else if pathNeedsNormalization (H1Parser.Path req) then None
  else
    let ccRaw := CacheControlRaw req in
    let reqCC := if beq ccRaw [] then Directives0 else ParseCacheControl ccRaw in
    if negb (beq ccRaw []) && (NoCache reqCC || NoStore reqCC) then None
    else if has_flag (ScanFlags req) FlagPragmaNoCache then None
    else Some reqCC.

(** ** The static head *)

(** [strings.FieldsFunc(s, r == ',' || r == ' ')] *)
Fixpoint fields_loop (cur : bytes) (s : bytes) : list bytes :=
  match s with
  | [] => if beq cur [] then [] else [rev cur]
  | c :: s' =>
      if beqb c (ch ",") || beqb c (ch " ") then (if beq cur [] then [] else [rev cur]) ++ fields_loop [] s'
      else fields_loop (c :: cur) s'
  end.
Definition list_fields (s : bytes) : list bytes := fields_loop [] s.

Definition parseConnectionListedHeaders (obj : Object.t) : list bytes :=
  if negb (Object.HasConnectionList obj) then []
  else
    let conn := Get (Object.Header obj) Hdr.Connection in
    if beq conn [] then [] else map InternKey (list_fields conn).

Definition parseNoCacheFieldNames (ccHeader : bytes) : list bytes :=
  if beq ccHeader [] then []
  else
    let cc := ParseCacheControl ccHeader in
    if beq (NoCacheFields cc) [] then [] else map InternKey (list_fields (NoCacheFields cc)).

Definition in_names (names : list bytes) (key : bytes) : bool := existsb (beq key) names.

Definition internal_headers : list bytes := [Hdr.XBouinePath; Hdr.XBouineHost; Hdr.XBouineRoute].
Definition hop_by_hop : list bytes :=
  [Hdr.Connection; Hdr.KeepAlive; Hdr.TransferEncoding; Hdr.TE; Hdr.Trailer; Hdr.Upgrade].

Definition shouldSkipHeader (key : bytes) (noCacheFields : list bytes) : bool :=
  if in_names internal_headers key then true
  else if in_names hop_by_hop key then true
  else if beq key Hdr.Age then true
  else in_names noCacheFields key.

Definition skipStaticHeader (key : bytes) (noCacheFields connListed : list bytes) (skipCDC : bool) : bool :=
  if shouldSkipHeader key noCacheFields then true
  else if in_names connListed key then true
  else if in_names [Hdr.XCache; Hdr.Warning] key then true
  else skipCDC && isCDCFamilyHeader key.

Definition write_line (key value : bytes) : bytes := key ++ bs ": " ++ value ++ crlf.

(** The stored lines that are served. *)
Definition static_lines (obj : Object.t) (skipCDC : bool) : list (bytes * bytes) :=
  let noCacheFields := parseNoCacheFieldNames (Object.CacheControl obj) in
  let connListed := if Object.HasConnectionList obj then parseConnectionListedHeaders obj else [] in
  List.filter (fun kv => negb (skipStaticHeader kv.1 noCacheFields connListed skipCDC)) (pairs (Object.Header obj)).

Definition serializeHead (obj : Object.t) (skipCDC : bool) : bytes :=
  fold_left (fun buf kv => buf ++ write_line kv.1 kv.2) (static_lines obj skipCDC) [].

(** ** Status line and dynamic headers *)

Definition statusMessage (code : Z) : bytes :=
  if code =? 200 then bs "OK" else if code =? 201 then bs "Created" else if code =? 204 then bs "No Content"
  else if code =? 206 then bs "Partial Content" else if code =? 301 then bs "Moved Permanently"
  else if code =? 302 then bs "Found" else if code =? 304 then bs "Not Modified"
  else if code =? 307 then bs "Temporary Redirect" else if code =? 308 then bs "Permanent Redirect"
  else if code =? 400 then bs "Bad Request" else if code =? 401 then bs "Unauthorized"
  else if code =? 403 then bs "Forbidden" else if code =? 404 then bs "Not Found"
  else if code =? 405 then bs "Method Not Allowed" else if code =? 406 then bs "Not Acceptable"
  else if code =? 413 then bs "Request Entity Too Large" else if code =? 416 then bs "Range Not Satisfiable"
  else if code =? 429 then bs "Too Many Requests" else if code =? 500 then bs "Internal Server Error"
  else if code =? 502 then bs "Bad Gateway" else if code =? 503 then bs "Service Unavailable"
  else if code =? 504 then bs "Gateway Timeout" else bs "Unknown".

Definition appendStatusLine (buf : bytes) (statusCode : Z) : bytes :=
  if statusCode =? 200 then buf ++ bs "HTTP/1.1 200 OK" ++ crlf
  else if statusCode =? 301 then buf ++ bs "HTTP/1.1 301 Moved Permanently" ++ crlf
  else if statusCode =? 302 then buf ++ bs "HTTP/1.1 302 Found" ++ crlf
  else if statusCode =? 304 then buf ++ bs "HTTP/1.1 304 Not Modified" ++ crlf
  else if statusCode =? 404 then buf ++ bs "HTTP/1.1 404 Not Found" ++ crlf
  else if statusCode =? 500 then buf ++ bs "HTTP/1.1 500 Internal Server Error" ++ crlf
  else (((buf ++ bs "HTTP/1.1 ") ++ itoa statusCode) ++ [ch " "]) ++ statusMessage statusCode ++ crlf.

(** [d.Seconds()]: whole seconds plus the rest as a fraction, in float64. *)
Definition f64_of_Z (z : Z) : spec_float := round64 (z <? 0) (Z.abs z) 1.
Definition d_seconds (d : Duration) : spec_float :=
  SFadd 53 1024 (f64_of_Z (Z.quot d Second)) (round64 (d <? 0) (Z.abs (Z.rem d Second)) 1000000000).
(** [int64(f)] of a finite number in range. *)
Definition f64_trunc (f : spec_float) : Z :=
  match f with
  | S754_finite s m e =>
      let a := if 0 <=? e then Zpos m * 2 ^ e else Zpos m / 2 ^ (- e) in
      if s then - a else a
  | _ => 0
  end.

(** The two labels of a hit. *)
Definition HIT : bytes := bs "HIT".
Definition STALE : bytes := bs "STALE".

Definition appendDynamicHeaders (hbuf : bytes) (obj : Object.t) (now : Time) (cacheResult dateStr : bytes)
    (closeConn syncCDC : bool) : bytes :=
  let hbuf :=
    if negb (Object.HasDate obj) && negb (Has (Object.Header obj) Hdr.Date)
    then hbuf ++ write_line Hdr.Date dateStr else hbuf in
  let age := ComputeAge obj now in
  let hbuf := hbuf ++ write_line Hdr.Age (itoa (f64_trunc (d_seconds age))) in
  let hbuf := hbuf ++ write_line Hdr.XCache cacheResult in
  let hbuf := if beq cacheResult STALE then hbuf ++ Hdr.Warning ++ bs ": 110 - " ++ [x22] ++ bs "Response is Stale" ++ [x22] ++ crlf else hbuf in
  let hbuf :=
    if syncCDC then appendServeCDCLine hbuf obj now (if beq cacheResult STALE then cacheStale else cacheHit) else hbuf in
  let hbuf := if closeConn then hbuf ++ bs "Connection: close" ++ crlf else hbuf ++ bs "Connection: keep-alive" ++ crlf in
  hbuf ++ crlf.

(** [appendResponseHeaders]: the fallback without a rendered head. It appends
    the dynamic headers itself. *)
Definition appendResponseHeaders (hbuf : bytes) (obj : Object.t) (now : Time) (cacheResult dateStr : bytes)
    (closeConn skipCDC : bool) : bytes :=
  let hbuf := fold_left (fun buf kv => buf ++ write_line kv.1 kv.2) (static_lines obj skipCDC) hbuf in
  appendDynamicHeaders hbuf obj now cacheResult dateStr closeConn skipCDC.

(** ** The cached date *)

(** [cachedDateUnix] and [cachedDate]; [None] is the nil pointer. *)
Record date_cache : Type := MkDateCache { cachedDateUnix : Z; cachedDate : option bytes }.
Definition date_cache0 : date_cache := MkDateCache 0 None.

(** The two atomic loads, and the two atomic stores one after the other. *)
Definition date_load (dc : date_cache) (now : Time) : option bytes :=
  if unix now =? cachedDateUnix dc then cachedDate dc else None.
Definition date_store_unix (dc : date_cache) (now : Time) : date_cache := {| dc with cachedDateUnix := unix now |}.
Definition date_store_text (dc : date_cache) (now : Time) : date_cache := {| dc with cachedDate := Some (formatHTTPDate now) |}.

Definition getCachedDate (dc : date_cache) (now : Time) : bytes * date_cache :=
  match date_load dc now with
  | Some s => (s, dc)
  | None => (formatHTTPDate now, date_store_text (date_store_unix dc now) now)
  end.

(** ** Rendered heads of an object (api/storage.go) *)

Record composedHead : Type := MkComposed {
  ch_unix : Z; ch_statusEnd : Z; ch_cacheResult : bytes; ch_closeConn : bool; ch_head : bytes;
}.
(** [serializedHead] and [composedHeadPtr]; [None] is nil. *)
Record heads : Type := MkHeads { serializedHead : option bytes; composedHeadPtr : option composedHead }.
Definition heads0 : heads := MkHeads None None.

Definition LoadSerializedHead (h : heads) : option bytes := serializedHead h.
Definition StoreSerializedHead (h : heads) (head : bytes) : heads := {| h with serializedHead := Some head |}.
Definition ComposedHeadFor (h : heads) (now : Time) (cacheResult : bytes) (closeConn : bool) : option (bytes * Z) :=
  match composedHeadPtr h with
  | None => None
  | Some c =>
      if negb (ch_unix c =? unix now) || negb (beq (ch_cacheResult c) cacheResult) || negb (eqb (ch_closeConn c) closeConn)
      then None else Some (ch_head c, ch_statusEnd c)
  end.
Definition StoreComposedHead (h : heads) (now : Time) (cacheResult : bytes) (closeConn : bool) (statusEnd : Z) (head : bytes)
    : heads := {| h with composedHeadPtr := Some (MkComposed (unix now) statusEnd cacheResult closeConn head) |}.

(** ** Responses *)

(** [api.FastPathResponse]: [Buffers] is [BuffersArr[:3]]; [HeaderBuf] is nil
    for a composed head. *)
Record fp_response : Type := MkResponse {
  resp_HeaderBuf : option bytes;
  resp_StatusCode : Z;
  resp_CacheResult : bytes;
  resp_Source : bytes;
  resp_Pool : bytes;
  resp_BytesOut : Z;
  resp_StatusEnd : Z;
  resp_CloseConn : bool;
  resp_status_line : bytes;
  resp_header_block : bytes;
  resp_body : bytes;
}.
(** What [Buffers.WriteTo] writes. *)
Definition wire (r : fp_response) : bytes := resp_status_line r ++ resp_header_block r ++ resp_body r.
Definition to_parser (r : fp_response) : FastPathResponse := {| Buffers := wire r; CloseConn := resp_CloseConn r |}.

(** The end of the status line: [statusEnd + 2] of the scan. *)
Definition status_end (hbuf : bytes) : Z :=
  match cut_crlf hbuf with
  | Some (line, _) => len line + 2
  | None => Z.max 0 (len hbuf - 1) + 2
  end.

Definition body_for (req : Request) (obj : Object.t) : bytes :=
  if beq (H1Parser.Method req) (bs "HEAD") then [] else Object.Body obj.

Definition buildFastPathResponse (hbuf : bytes) (obj : Object.t) (req : Request) (cacheResult src poolName : bytes)
    (closeConn : bool) : fp_response :=
  let statusEnd := status_end hbuf in
  let body := body_for req obj in
  {| resp_HeaderBuf := Some hbuf; resp_StatusCode := Object.StatusCode obj; resp_CacheResult := cacheResult;
     resp_Source := src; resp_Pool := poolName; resp_BytesOut := len body; resp_StatusEnd := statusEnd;
     resp_CloseConn := closeConn; resp_status_line := take (Z.to_nat statusEnd) hbuf;
     resp_header_block := drop (Z.to_nat statusEnd) hbuf; resp_body := body |}.

Definition responseFromComposedHead (obj : Object.t) (head : bytes) (statusEnd : Z) (req : Request)
    (cacheResult src poolName : bytes) (closeConn : bool) : fp_response :=
  let body := body_for req obj in
  {| resp_HeaderBuf := None; resp_StatusCode := Object.StatusCode obj; resp_CacheResult := cacheResult;
     resp_Source := src; resp_Pool := poolName; resp_BytesOut := len body; resp_StatusEnd := statusEnd;
     resp_CloseConn := closeConn; resp_status_line := take (Z.to_nat statusEnd) head;
     resp_header_block := drop (Z.to_nat statusEnd) head; resp_body := body |}.

(** ** The handler *)

Abbreviation PeerInfo := bytes.
Inductive peer_answer : Type := PeerObject (o : Object.t) (h : heads) | PeerMiss | PeerShed | PeerError.

Record FastPathHandler : Type := MkHandler {
  fp_policy : option KeyPolicy;
  fp_bypassOnCookie : bool;
  fp_bypassCookieNames : cookieNameScanner;
  fp_uaBypass : option uaBypass;
  fp_syncCDC : bool;
  fp_poolName : bytes;
  fp_memo : option unstorableMemo;
  fp_ownerFn : option (Api.Key -> PeerInfo * bool);
  fp_peerFetch : option (PeerInfo -> Api.Key -> bytes -> peer_answer);
  fp_onStale : bool;
  fp_onPeerStale : bool;
}.

Definition getOrComputeSerializedHead (f : FastPathHandler) (obj : Object.t) (h : heads) : option bytes * heads :=
  match LoadSerializedHead h with
  | Some head => (Some head, h)
  | None =>
      let head := serializeHead obj (fp_syncCDC f) in
      if maxFastPathHeaderBytes <? len head then (None, h)
      else let h := StoreSerializedHead h head in (LoadSerializedHead h, h)
  end.

Section Handler.
(** [cap(append(s, t...))] for a slice of capacity [c] and a result of [n]
    bytes: Go promises no more than [GrowLaws]. *)
Variable grow : Z -> Z -> Z.

(** [composeResponse] with a pooled buffer of capacity [bufcap]; [dateStr] is
    what [getCachedDate] returns. The head it would serve is also a result. *)
Definition compose_head (f : FastPathHandler) (obj : Object.t) (h : heads) (now : Time) (cacheResult dateStr : bytes)
    (closeConn : bool) : bytes * heads :=
  let hbuf := appendStatusLine [] (Object.StatusCode obj) in
  let '(head, h) := getOrComputeSerializedHead f obj h in
  let hbuf :=
    match head with
    | Some head => hbuf ++ head
    | None => appendResponseHeaders hbuf obj now cacheResult dateStr closeConn (fp_syncCDC f)
    end in
  (appendDynamicHeaders hbuf obj now cacheResult dateStr closeConn (fp_syncCDC f), h).

Definition composeResponse (f : FastPathHandler) (bufcap : Z) (req : Request) (obj : Object.t) (h : heads) (src : bytes)
    (now : Time) (cacheResult dateStr : bytes) (closeConn : bool) : option fp_response * heads :=
  let '(hbuf, h) := compose_head f obj h now cacheResult dateStr closeConn in
  if maxFastPathHeaderBytes <? grow bufcap (len hbuf) then (None, h)
  else (Some (buildFastPathResponse hbuf obj req cacheResult src (fp_poolName f) closeConn), h).

(** The capacity of the buffer that goes back to the pool, when one does: by
    [composeResponse] itself on an oversize head, else by [Release]. *)
Definition composed_pool_put (bufcap : Z) (hbuf : bytes) : Z := grow bufcap (len hbuf).
Definition Release_pool_put (bufcap : Z) (r : fp_response) : option Z :=
  match resp_HeaderBuf r with
  | None => None
  | Some hbuf => if grow bufcap (len hbuf) <=? maxFastPathHeaderBytes then Some (grow bufcap (len hbuf)) else None
  end.

Definition serializeResponse (f : FastPathHandler) (bufcap : Z) (req : Request) (obj : Object.t) (h : heads) (src : bytes)
    (now : Time) (cacheResult dateStr : bytes) : option fp_response * heads :=
  let closeConn := ConnectionClose req in
  match ComposedHeadFor h now cacheResult closeConn with
  | Some (head, statusEnd) =>
      (Some (responseFromComposedHead obj head statusEnd req cacheResult src (fp_poolName f) closeConn), h)
  | None =>
      match composeResponse f bufcap req obj h src now cacheResult dateStr closeConn with
      | (None, h) => (None, h)
      | (Some resp, h) =>
          (Some resp, StoreComposedHead h now cacheResult closeConn (resp_StatusEnd resp) (default [] (resp_HeaderBuf resp)))
      end
  end.
End Handler.

(** ** Serving *)

(** The request of [buildKeyFromRaw]. *)
Definition key_request (req : Request) : RawRequest :=
  {| raw_Scheme := Scheme req; raw_Host := H1Parser.Host req; raw_Path := H1Parser.Path req; raw_Query := Query req;
     raw_Method := H1Parser.Method req |}.

(** What a call of [TryHit] does: the response, the request with its hints,
    the heads of the object it rendered, and the refresh it asks for. *)
Record outcome : Type := MkOutcome {
  out_resp : option fp_response;
  out_req : Request;
  out_heads : option heads;
  out_stale : option (Api.Key * Object.t);
  out_peerStale : option (Api.Key * Object.t);
}.
Definition declined (req : Request) : outcome := MkOutcome None req None None None.

Definition isPeerResolverMetadata (obj : Object.t) : bool := Object.IsVaryResolver obj && (len (Object.Body obj) =? 0).
Definition configDerivedVary (policy : option KeyPolicy) : bytes :=
  match policy with None => [] | Some p => derivedVary p end.
Definition peerStaleKey (peerObj : Object.t) (lookupKey : Api.Key) : Api.Key :=
  if negb (beq (Object.Key_ peerObj) zero_key) then Object.Key_ peerObj else lookupKey.

(** The transient fields a blob of an older codec comes without. *)
Definition restore_transients (o : Object.t) : Object.t :=
  let o :=
    if beq (Object.CacheControl o) [] then
      let v := Get (Object.Header o) Hdr.CacheControl in
      let cc := ParseCacheControl v in
      {| o with Object.CacheControl := v; Object.RespNoCache := NoCache cc;
                Object.RespMustRevalidate := MustRevalidate cc || ProxyRevalidate cc |}
    else o in
  if negb (Object.HasDate o) then {| o with Object.HasDate := Has (Object.Header o) Hdr.Date |} else o.

Definition SourcePeer : bytes := bs "peer".

Section TryHit.
Variable to_lower : bytes -> bytes.
Variable sum128 : bytes -> Api.Key.
Variable sum64 : bytes -> Z.
Variable grow : Z -> Z -> Z.
(** [store.Get]: the object, its heads and the tier; [None] on a miss or an error. *)
Variable store_Get : Api.Key -> option (Object.t * heads * bytes).

(** The switch on the decision: a response, or none, and whether a stale
    object was served. *)
Definition serve_decision (f : FastPathHandler) (bufcap : Z) (req : Request) (obj : Object.t) (h : heads) (src : bytes)
    (now : Time) (dateStr : bytes) (reqCC : Directives) : option fp_response * heads * bool :=
  match decision (evaluate (Some obj) reqCC (respGateFromObject (Some obj)) now) with
  | Hit => let '(r, h) := serializeResponse grow f bufcap req obj h src now HIT dateStr in (r, h, false)
  | StaleHit =>
      let '(r, h) := serializeResponse grow f bufcap req obj h src now STALE dateStr in
      (r, h, match r with Some _ => true | None => false end)
  | _ => (None, h, false)
  end.

Definition tryPeerFetch (f : FastPathHandler) (bufcap : Z) (req : Request) (lookupKey : Api.Key) (now : Time)
    (dateStr : bytes) (reqCC : Directives) : outcome :=
  match fp_ownerFn f, fp_peerFetch f with
  | Some ownerFn, Some peerFetch =>
      if OnlyIfCached reqCC then declined req
      else
        let '(owner, isLocal) := ownerFn lookupKey in
        if isLocal : bool then declined req
        else if match fp_memo f with Some m => bypass m lookupKey now | None => false end
        then declined {| req with OwnerMiss := true |}
        else if negb (beq (configDerivedVary (fp_policy f)) []) then declined req
        else
          match peerFetch owner lookupKey [] with
          | PeerObject peerObj h =>
              if isPeerResolverMetadata peerObj then declined {| req with OwnerResolver := true |}
              else if negb (peerGateMatchesVary to_lower sum64 (H1Parser.Headers req) (fp_policy f)
                              (Object.VaryValue peerObj) (Object.VaryKey peerObj))
              then declined {| req with OwnerGateReject := true |}
              else
                let peerObj := restore_transients peerObj in
                let '(r, h, stale) := serve_decision f bufcap req peerObj h SourcePeer now dateStr reqCC in
                MkOutcome r req (Some h) None
                  (if stale && fp_onPeerStale f && (0 <? Object.StaleWhileRevalidate peerObj)
                   then Some (peerStaleKey peerObj lookupKey, peerObj) else None)
          | PeerMiss => declined {| req with OwnerMiss := true |}
          | PeerShed => declined {| req with OwnerShed := true |}
          | PeerError => declined req
          end
  | _, _ => declined req
  end.

(** [tryHit] after the key is known: the local lookup and the variant's. *)
Definition local_lookup (f : FastPathHandler) (req : Request) (key : Api.Key)
    : option (option (Object.t * heads * bytes * Api.Key)) :=
  match store_Get key with
  | None => None
  | Some (obj, h, src) =>
      let vary := Object.VaryValue obj in
      if beq vary [] then Some (Some (obj, h, src, key))
      else
        let vk := VariantKeyFromRaw to_lower sum64 key vary (H1Parser.Headers req) (fp_policy f) in
        if beq vk key then Some (Some (obj, h, src, key))
        else match store_Get vk with
             | None => Some None
             | Some (vobj, vh, vsrc) => Some (Some (vobj, vh, vsrc, vk))
             end
  end.

Definition tryHit (f : FastPathHandler) (bufcap : Z) (req : Request) (now : Time) (dateStr : bytes) : outcome :=
  match qualifiesForFastPath req with
  | None => declined req
  | Some reqCC =>
      let key := buildKeyFromRaw sum128 (key_request req) (fp_policy f) in
      match local_lookup f req key with
      | None => tryPeerFetch f bufcap req key now dateStr reqCC
      | Some None => declined req
      | Some (Some (obj, h, src, lookupKey)) =>
          let '(r, h, stale) := serve_decision f bufcap req obj h src now dateStr reqCC in
          MkOutcome r req (Some h)
            (if stale && fp_onStale f && (0 <? Object.StaleWhileRevalidate obj) then Some (lookupKey, obj) else None) None
      end
  end.

Definition TryHit (f : FastPathHandler) (bufcap : Z) (req : Request) (now : Time) (dateStr : bytes) : outcome :=
  if (fp_bypassOnCookie f || negb (empty (fp_bypassCookieNames f)))
     && cookieBypassTriggeredRaw (fp_bypassOnCookie f) (fp_bypassCookieNames f) (H1Parser.Headers req)
  then declined req
  else if ua_bypassed (fp_uaBypass f) (Header (H1Parser.Headers req) (bs "User-Agent")) then declined req
  else tryHit f bufcap req now dateStr.
End TryHit.

(** ** The slow path's lookup (handler.go)

    What [ServeRequest] asks of fasthttp's request context. *)

Record RequestCtx : Type := MkCtx {
  ctx_Method : bytes;
  ctx_RequestURI : bytes;
  ctx_Host : bytes;
  ctx_Path : bytes;
  ctx_IsTLS : bool;
  ctx_Header : FastHeader;
}.

Definition buildKey (sum128 : bytes -> Api.Key) (policy : option KeyPolicy) (ctx : RequestCtx) : Api.Key :=
  BuildKeyFast sum128 (ctx_Method ctx) (ctx_RequestURI ctx) (ctx_Host ctx) (ctx_Path ctx) (ctx_IsTLS ctx) policy.

Definition requestBypass (bypassOnCookie : bool) (bypassCookieNames : cookieNameScanner) (ua : option uaBypass)
    (ctx : RequestCtx) : bool :=
  if cookieBypassTriggered bypassOnCookie bypassCookieNames (PeekAll (ctx_Header ctx) Hdr.Cookie) then true
  else match ua with Some b => matchBytes b (Peek (ctx_Header ctx) (bs "User-Agent")) | None => false end.

(** [lookup]: the primary and the lookup key, the object, the resolver of a
    variant miss, and the tier. *)
Record looked_up : Type := MkLookup {
  lk_primary : Api.Key; lk_key : Api.Key; lk_obj : option Object.t; lk_resolver : option Object.t; lk_src : bytes;
}.
Definition lookup (to_lower : bytes -> bytes) (sum128 : bytes -> Api.Key) (sum64 : bytes -> Z)
    (store_Get : Api.Key -> option (Object.t * heads * bytes)) (policy : option KeyPolicy) (ctx : RequestCtx) : looked_up :=
  let primaryKey := buildKey sum128 policy ctx in
  match store_Get primaryKey with
  | None => MkLookup primaryKey primaryKey None None []
  | Some (obj, _, src) =>
      if beq (Object.VaryValue obj) [] then MkLookup primaryKey primaryKey (Some obj) None src
      else
        let vk := VariantKeyFast to_lower sum64 primaryKey (Object.VaryValue obj) (ctx_Header ctx) policy in
        if beq vk primaryKey then MkLookup primaryKey primaryKey (Some obj) None src
        else match store_Get vk with
             | Some (vobj, _, vsrc) => MkLookup primaryKey vk (Some vobj) None vsrc
             | None => MkLookup primaryKey vk None (Some obj) src
             end
  end.

(** ** Facts of the scan *)

Lemma recompute_fold (r : RawHeaders) : forall st,
  (forall f, f = DisqualifyFastPath \/ f = FlagPragmaNoCache ->
     has_flag (foldl recompute_step st r).1.1 f =
     has_flag st.1.1 f || existsb (fun h => has_flag (ScanFlagForHeader (RawReq.Key h) (Value h)) f) r) /\
  (foldl recompute_step st r).2 = default st.2 (last (raw_values r (bs "Cache-Control"))).
Proof.
  induction r as [|h r IH]; intros st; cbn [foldl existsb]; [split; [intros f _; by rewrite orb_false_r|done]|].
  destruct (IH (recompute_step st h)) as [IH1 IH2]. split.
  - intros f Hf. rewrite (IH1 f Hf), orb_assoc. f_equal. destruct st as [[flags cl] cc]. simpl.
    destruct (_ && cl); rewrite !has_flag_lor; [|done]. by destruct Hf as [-> | ->]; rewrite orb_false_r.
  - rewrite IH2. destruct st as [[flags cl] cc]. unfold raw_values. simpl.
    destruct (EqualFold (RawReq.Key h) (bs "Cache-Control")); [|done]. cbn [map].
    by destruct (map Value (List.filter _ r)) as [|v l] using rev_ind; [|rewrite app_comm_cons, !last_snoc].
Qed.

(** The fields that keep a request off the fast path. *)
Definition disqualifying : list bytes :=
  map bs ["If-None-Match"; "If-Modified-Since"; "If-Range"; "If-Unmodified-Since"; "If-Match"; "Range";
          "Transfer-Encoding"; "Content-Length"]%string.

Lemma flag_disqualify (k v : bytes) : has_flag (ScanFlagForHeader k v) DisqualifyFastPath = false ->
  Forall (fun n => EqualFold k n = false) disqualifying /\ (EqualFold k (bs "Pragma") = true -> EqualFold v (bs "no-cache") = false).
Proof.
  unfold ScanFlagForHeader, disqualifying. intros H.
  destruct (EqualFold k (bs "Host")) eqn:Eh.
  { split; [|by rewrite (EqualFold_other k (bs "Host")) by done].
    repeat (constructor; [by rewrite (EqualFold_other k (bs "Host")) by done|]). constructor. }
  destruct (existsb _ _) eqn:E1 in H; [done|]. destruct (EqualFold k (bs "Transfer-Encoding")) eqn:E2; [done|].
  destruct (EqualFold k (bs "Content-Length")) eqn:E3; [done|].
  cbn [existsb map] in E1. repeat (apply orb_false_iff in E1 as [? E1]).
  split; [repeat (constructor; [done|]); constructor|]. intros Ep. rewrite Ep in H.
  by destruct (EqualFold v (bs "no-cache")).
Qed.

Lemma qualifies_inv (req : Request) (cc : Directives) : scan_ok req -> qualifiesForFastPath req = Some cc ->
  (H1Parser.Method req = bs "GET" \/ H1Parser.Method req = bs "HEAD") /\
  pathNeedsNormalization (H1Parser.Path req) = false /\
  Forall (fun n => HasHeader (Headers req) n = false) disqualifying /\
  Forall (fun v => EqualFold v (bs "no-cache") = false) (raw_values (Headers req) (bs "Pragma")) /\
  cc = ParseCacheControl (default [] (last (raw_values (Headers req) (bs "Cache-Control")))) /\
  NoCache cc = false /\ NoStore cc = false.
Proof.
  intros Hs. unfold qualifiesForFastPath.
  destruct (negb (beq (H1Parser.Method req) (bs "GET")) && negb (beq (H1Parser.Method req) (bs "HEAD"))) eqn:Em; [done|].
  destruct (has_flag (ScanFlags req) DisqualifyFastPath) eqn:Ed; [done|].
  destruct (pathNeedsNormalization (H1Parser.Path req)); [done|].
  destruct (recompute_fold (Headers req) (0, false, [])) as [Hf Hc]. rewrite (ok_recompute req Hs) in Hf, Hc. simpl in Hf, Hc.
  rewrite (Hf DisqualifyFastPath) in Ed by auto. simpl in Ed. rewrite <- Hc.
  assert (forall h, h ∈ Headers req -> has_flag (ScanFlagForHeader (RawReq.Key h) (Value h)) DisqualifyFastPath = false) as Hd.
  { intros h Hh. apply not_true_iff_false. intros E. apply not_true_iff_false in Ed. apply Ed, existsb_exists.
    exists h. by rewrite <- list_elem_of_In. }
  assert ((if beq (CacheControlRaw req) [] then Directives0 else ParseCacheControl (CacheControlRaw req))
          = ParseCacheControl (CacheControlRaw req)) as ->
    by (destruct (beq (CacheControlRaw req) []) eqn:E; [apply beq_eq in E; by rewrite E|done]).
  destruct (negb (beq (CacheControlRaw req) []) && _) eqn:Ec; [done|].
  destruct (has_flag _ FlagPragmaNoCache); [done|]. intros [= <-].
  split_and!; try done.
  - bool_cases; eauto; congruence.
  - apply Forall_forall. intros n Hn. unfold HasHeader. apply not_true_iff_false. intros (h & Hh & E)%existsb_exists.
    apply list_elem_of_In in Hh. destruct (flag_disqualify _ _ (Hd h Hh)) as [HF _]. rewrite Forall_forall in HF.
    by rewrite (HF n Hn) in E.
  - apply Forall_forall. intros v. unfold raw_values. rewrite list_elem_of_In.
    intros (h & <- & [Hh E]%filter_In)%in_map_iff. apply list_elem_of_In in Hh.
    by apply (flag_disqualify _ _ (Hd h Hh)).
  - destruct (beq (CacheControlRaw req) []) eqn:E; [apply beq_eq in E; by rewrite E|]. simpl in Ec.
    by apply orb_false_iff in Ec as [-> _].
  - destruct (beq (CacheControlRaw req) []) eqn:E; [apply beq_eq in E; by rewrite E|]. simpl in Ec.
    by apply orb_false_iff in Ec as [_ ->].
Qed.

(** ** Both paths see one request

    What the fast path relies on of fasthttp, which parses the rebuilt head
    for the slow path: it lower-cases the host, leaves a path alone that needs
    no normalization but for repeated slashes, trims the values, and shows the
    same cookies. Of several Connection or Cookie lines nothing is assumed of
    [Peek], which treats these two fields apart. *)
Class SameRequest (req : Request) (ctx : RequestCtx) : Prop := {
  same_method : ctx_Method ctx = H1Parser.Method req;
  same_query : extractRawQuery (ctx_RequestURI ctx) = Query req;
  same_host : canonical_host (ctx_Host ctx) = canonical_host (H1Parser.Host req);
  same_path : pathNeedsNormalization (H1Parser.Path req) = false ->
    canonical_path (ctx_Path ctx) = canonical_path (H1Parser.Path req);
  same_scheme : Scheme req = (if ctx_IsTLS ctx then bs "https" else bs "http");
  same_values : forall k, (canonicalize k ∈ [Hdr.Connection; Hdr.Cookie] -> (count_field (Headers req) k <= 1)%nat) ->
    Peek (ctx_Header ctx) k = trim_right_ows (Header (Headers req) k);
  same_cookie_pairs : same_cookies (join (bs "; ") (List.filter nonempty (PeekAll (ctx_Header ctx) Hdr.Cookie)))
                                   (CookieValue (Headers req));
  same_laws :: FastLaws (ctx_Header ctx);
}.

(** The spellings on which the two paths read one value: a single
    Cache-Control, Connection and Cookie line, and no blank after the values of
    the fields whose text is compared. *)
Definition single_lines (r : RawHeaders) : Prop :=
  (count_field r Hdr.Connection <= 1)%nat /\ (count_field r Hdr.Cookie <= 1)%nat.
Definition plain_directives (r : RawHeaders) : Prop :=
  (single_lines r /\ (count_field r (bs "Cache-Control") <= 1)%nat) /\
  Forall (fun k => trim_right_ows (Header r k) = Header r k) [Hdr.CacheControl; Hdr.Pragma; bs "User-Agent"].

Lemma same_primary_key (sum128 : bytes -> Api.Key) (policy : option KeyPolicy) (req : Request) (ctx : RequestCtx) :
  SameRequest req ctx -> pathNeedsNormalization (H1Parser.Path req) = false ->
  buildKeyFromRaw sum128 (key_request req) policy = buildKey sum128 policy ctx.
Proof.
  intros [Hm Hq Hh Hp Hs _ _ _] Hn. unfold buildKey. rewrite BuildKeyFast_canonical, buildKeyFromRaw_canonical. simpl.
  rewrite Hm, Hq, Hs. f_equal. unfold canonical_key. rewrite Hh, (Hp Hn). by destruct (ctx_IsTLS ctx).
Qed.

Lemma single_line (r : RawHeaders) (k : bytes) : single_lines r ->
  canonicalize k ∈ [Hdr.Connection; Hdr.Cookie] -> (count_field r k <= 1)%nat.
Proof.
  intros [H1 H2]. assert (forall n, canonicalize n = n -> canonicalize k = n -> count_field r k = count_field r n) as E.
  { intros n Hn Hk. unfold count_field, raw_values. do 2 f_equal. apply filter_ext_Forall, Forall_forall. intros h _.
    rewrite !EqualFold_canonical. by rewrite Hk, Hn. }
  rewrite !elem_of_cons, elem_of_nil. intros [Hk|[Hk|[]]]; [by rewrite (E Hdr.Connection)|by rewrite (E Hdr.Cookie)].
Qed.

Lemma same_cookies_trans (a b c : bytes) : same_cookies a b -> same_cookies b c -> same_cookies a c.
Proof. unfold same_cookies. intros [H1 H2] [H3 H4]. split; [tauto|congruence]. Qed.
Lemma same_cookies_sym (a b : bytes) : same_cookies a b -> same_cookies b a.
Proof. unfold same_cookies. intros [H1 H2]. split; [tauto|congruence]. Qed.

Lemma same_variant_key (to_lower : bytes -> bytes) (Hlaws : LowerLaws to_lower) (sum64 : bytes -> Z) (key : Api.Key)
    (vary : bytes) (policy : option KeyPolicy) (req : Request) (ctx : RequestCtx) :
  SameRequest req ctx -> parsed_headers (Headers req) -> single_lines (Headers req) ->
  VariantKeyFromRaw to_lower sum64 key vary (Headers req) policy
  = VariantKeyFast to_lower sum64 key vary (ctx_Header ctx) policy.
Proof.
  intros HS Hr Hsl. pose proof (raw_source_laws _ Hr) as L1. pose proof (fast_source_laws _ same_laws) as L2.
  unfold VariantKeyFromRaw, VariantKeyFast. rewrite !variantKeyCore_spec by done. unfold variant_spec.
  destruct (_ || _); [done|]. destruct (nominated to_lower vary policy) as [|x l]; [done|]. do 2 f_equal.
  apply fields_text_ext, Forall_forall. intros f _. unfold map_value. apply field_value_same.
  - rewrite <- (source_value (s := rawVarySrc _)), <- (source_value (s := fastVarySrc _)). simpl.
    by rewrite same_values, trim_right_ows_idem by (by apply single_line).
  - pose proof (source_cookies (s := rawVarySrc (Headers req))) as C1.
    pose proof (fast_cookies (h := ctx_Header ctx)) as C3. cbn [toMap presenceCookieValue] in *.
    eapply same_cookies_trans; [apply same_cookies_sym, C1|].
    eapply same_cookies_trans; [apply same_cookies_sym, same_cookie_pairs|].
    eapply same_cookies_trans; [apply C3|]. unfold headerFromFastHTTPReqHeader.
    destruct (append_canonical_pairs (All (ctx_Header ctx)) fast_canonical NewMap wf_NewMap) as [Hw E]. simpl in E.
    rewrite CookieAll_join, all_values_SortEntries, E. by split.
Qed.

(** Whether the cookie gate triggers depends on the pairs of all lines. *)
Lemma bypass_lines_pairs (flag : bool) (s : cookieNameScanner) (lines : list bytes) : scanner_ok s ->
  existsb (fun line => nonempty line && (flag || hasCookieName s line)) lines =
  (flag && nonempty (join (bs "; ") (List.filter nonempty lines))) ||
  carries (names s) (join (bs "; ") (List.filter nonempty lines)).
Proof.
  intros Hs. assert (forall l, carries (names s) (join (bs "; ") l) = existsb (carries (names s)) l) as Hj.
  { intros l. unfold carries. rewrite cookie_pairs_join. induction l as [|v l IH]; [done|]. cbn [map concat existsb].
    by rewrite existsb_app, IH. }
  rewrite Hj. induction lines as [|v lines IH]; [by rewrite andb_false_r|]. cbn [existsb List.filter].
  destruct v as [|c v]; [exact IH|]. change (nonempty (c :: v)) with true. cbn [andb existsb]. rewrite IH, hasCookieName_spec by done.
  replace (nonempty (join (bs "; ") ((c :: v) :: List.filter nonempty lines))) with true
    by (rewrite join_concat; done).
  destruct flag; simpl; [done|]. done.
Qed.

Lemma in_names_spec (l : list bytes) (k : bytes) : in_names l k = true <-> k ∈ l.
Proof.
  unfold in_names. rewrite existsb_exists. split.
  - intros (x & Hx & E). apply beq_eq in E as ->. by apply list_elem_of_In.
  - intros H. exists k. split; [by apply list_elem_of_In|]. unfold beq. by rewrite bool_decide_true.
Qed.

(** The other fields the paths compare. *)
Lemma same_value (req : Request) (ctx : RequestCtx) (k : bytes) : SameRequest req ctx -> in_names [Hdr.Connection; Hdr.Cookie] (canonicalize k) = false ->
  Peek (ctx_Header ctx) k = trim_right_ows (Header (Headers req) k).
Proof. intros HS Hk. apply same_values. rewrite <- in_names_spec. congruence. Qed.

Lemma same_bypass (flag : bool) (s : cookieNameScanner) (ua : option uaBypass) (req : Request) (ctx : RequestCtx) :
  SameRequest req ctx -> scanner_ok s -> plain_directives (Headers req) ->
  requestBypass flag s ua ctx =
  ((flag || negb (empty s)) && cookieBypassTriggeredRaw flag s (Headers req))
  || ua_bypassed ua (Header (Headers req) (bs "User-Agent")).
Proof.
  intros HS Hs [_ Hp]. unfold requestBypass, cookieBypassTriggered, cookieBypassTriggeredRaw, ua_bypassed.
  rewrite (same_value req ctx) by done. rewrite !Forall_cons in Hp. destruct Hp as (_ & _ & -> & _).
  replace (flag || negb (empty s)) with (negb (negb flag && empty s)) by (by destruct flag, (empty s)).
  destruct (negb flag && empty s); [done|]. cbn [negb andb].
  rewrite bypass_raw_spec, !bypass_lines_pairs by done. rewrite <- CookieValue_join.
  destruct same_cookie_pairs as [H1 H2]. set (a := join _ _) in *. set (b := CookieValue _) in *.
  assert (nonempty a = nonempty b) as -> by (unfold nonempty; by rewrite (beq_nil_same a b)).
  unfold carries. rewrite H2. by destruct (_ || _).
Qed.

Lemma Header_one_line (r : RawHeaders) (k : bytes) : (count_field r k <= 1)%nat ->
  default [] (last (raw_values r k)) = Header r k.
Proof. rewrite Header_first. unfold count_field. destruct (raw_values r k) as [|v [|w l]]; simpl; [done..|lia]. Qed.

Lemma Header_pragma (r : RawHeaders) : Forall (fun v => EqualFold v (bs "no-cache") = false) (raw_values r (bs "Pragma")) ->
  beq (Header r Hdr.Pragma) (bs "no-cache") = false.
Proof.
  change Hdr.Pragma with (bs "Pragma"). rewrite Header_first. destruct (raw_values r (bs "Pragma")) as [|v l]; [done|]. simpl. intros [E _]%Forall_cons.
  destruct (beq v (bs "no-cache")) eqn:Ev; [|done]. apply beq_eq in Ev as ->. by vm_compute in E.
Qed.

(** Both paths act on the same request directives, so decide alike. *)
Lemma same_decision (req : Request) (ctx : RequestCtx) (cc : Directives) (o : Object.t) (now : Time) :
  scan_ok req -> SameRequest req ctx -> plain_directives (Headers req) -> qualifiesForFastPath req = Some cc ->
  evaluateFast (ctx_Method ctx) (Peek (ctx_Header ctx)) (Some o) now
  = evaluate (Some o) cc (respGateFromObject (Some o)) now.
Proof.
  intros Hs HS [[_ Hone] Hp] Hq. destruct (qualifies_inv req cc Hs Hq) as (Hm & _ & _ & Hpr & -> & Hnc & _).
  rewrite !Forall_cons in Hp. destruct Hp as (Hcc & Hpg & _).
  unfold evaluateFast. rewrite !(same_value req ctx), Hcc, Hpg, same_method, (Header_pragma _ Hpr), andb_false_r by done.
  rewrite Header_one_line by done. change (bs "Cache-Control") with Hdr.CacheControl.
  destruct Hm as [-> | ->]; cbn [beq negb andb bool_decide];
    (replace (if 0 <? len _ then _ else _) with (ParseCacheControl (Header (Headers req) Hdr.CacheControl)); [done|];
     rewrite ParseCacheControlBytes_eq; by destruct (Header (Headers req) Hdr.CacheControl)).
Qed.

Lemma same_lookup (to_lower : bytes -> bytes) (Hlaws : LowerLaws to_lower) (sum128 : bytes -> Api.Key) (sum64 : bytes -> Z)
    (store_Get : Api.Key -> option (Object.t * heads * bytes)) (f : FastPathHandler) (req : Request) (ctx : RequestCtx) :
  SameRequest req ctx -> scan_ok req -> single_lines (Headers req) -> pathNeedsNormalization (H1Parser.Path req) = false ->
  let lk := lookup to_lower sum128 sum64 store_Get (fp_policy f) ctx in
  local_lookup to_lower sum64 store_Get f req (buildKeyFromRaw sum128 (key_request req) (fp_policy f)) =
  match store_Get (lk_primary lk) with
  | None => None
  | Some _ => Some (match lk_obj lk, store_Get (lk_key lk) with
                    | Some o, Some (_, h, _) => Some (o, h, lk_src lk, lk_key lk)
                    | _, _ => None
                    end)
  end.
Proof.
  intros HS Hs Hsl Hn. rewrite (same_primary_key sum128 (fp_policy f) req ctx) by done. unfold lookup, local_lookup.
  set (key := buildKey sum128 (fp_policy f) ctx).
  destruct (store_Get key) as [[[obj h] src]|] eqn:Eg; cbn [lk_primary]; [|by rewrite Eg].
  rewrite (same_variant_key _ Hlaws _ _ _ _ req ctx) by (done || apply Hs).
  destruct (beq (Object.VaryValue obj) []) eqn:Ev; cbn [lk_primary lk_obj lk_key lk_src]; [by rewrite Eg|].
  set (vk := VariantKeyFast _ _ _ _ _ _). destruct (beq vk key) eqn:Ek; cbn [lk_primary lk_obj lk_key lk_src]; [by rewrite Eg|].
  destruct (store_Get vk) as [[[vobj vh] vsrc]|] eqn:Evk; cbn [lk_primary lk_obj lk_key lk_src]; by rewrite Eg, ?Evk.
Qed.

Lemma lookup_found (to_lower : bytes -> bytes) (sum128 : bytes -> Api.Key) (sum64 : bytes -> Z)
    (store_Get : Api.Key -> option (Object.t * heads * bytes)) (policy : option KeyPolicy) (ctx : RequestCtx) (o : Object.t) :
  let lk := lookup to_lower sum128 sum64 store_Get policy ctx in
  lk_obj lk = Some o -> exists h, store_Get (lk_key lk) = Some (o, h, lk_src lk) /\ is_Some (store_Get (lk_primary lk)).
Proof.
  unfold lookup. set (key := buildKey _ _ _). destruct (store_Get key) as [[[obj h] src]|] eqn:Eg; [|done].
  destruct (beq (Object.VaryValue obj) []); cbn; [intros [= ->]; rewrite Eg; eauto|].
  set (vk := VariantKeyFast _ _ _ _ _ _). destruct (beq vk key); cbn; [intros [= ->]; rewrite Eg; eauto|].
  destruct (store_Get vk) as [[[vobj vh] vsrc]|] eqn:Ev; cbn; [|done]. intros [= ->]. rewrite Ev, Eg. eauto.
Qed.

Lemma serializeResponse_fields (grow : Z -> Z -> Z) (f : FastPathHandler) (bufcap : Z) (req : Request) (obj : Object.t)
    (h h' : heads) (src : bytes) (now : Time) (label dateStr : bytes) (r : fp_response) :
  serializeResponse grow f bufcap req obj h src now label dateStr = (Some r, h') ->
  resp_StatusCode r = Object.StatusCode obj /\ resp_body r = body_for req obj /\ resp_Source r = src /\
  resp_CacheResult r = label /\ resp_CloseConn r = ConnectionClose req /\ resp_BytesOut r = len (body_for req obj).
Proof.
  unfold serializeResponse, composeResponse. destruct (ComposedHeadFor h now label _) as [[hd n]|].
  - by intros [= <- <-].
  - destruct (compose_head _ _ _ _ _ _ _) as [hbuf h1]. destruct (_ <? _); [done|]. by intros [= <- <-].
Qed.

(** C34. A local hit on the fast path is the hit of the slow path, for a parsed
    request that fasthttp reads as the same request and that is plain: at most one
    Cache-Control, Connection and Cookie line, and no blank after the values of
    Cache-Control, Pragma and User-Agent (elsewhere the two paths can differ:
    [fast_path_reads_other_directives], [ua_blank_not_bypassed]). Then a request the slow path sends around the cache is
    declined; a response is served only to a request without a conditional,
    range, length or transfer-coding field; it has the status, body and tier
    of the object the slow path's lookup finds (variant included), labelled
    HIT or STALE as the slow path's decision on that object says, and a stale
    one asks for the refresh of the slow path's lookup key; and a qualified
    request is declined on a servable object only when its head does not fit
    the buffer. *)
Theorem fast_path_serves_as_slow (to_lower : bytes -> bytes) (Hlaws : LowerLaws to_lower) (sum128 : bytes -> Api.Key)
    (sum64 : bytes -> Z) (grow : Z -> Z -> Z) (store_Get : Api.Key -> option (Object.t * heads * bytes))
    (f : FastPathHandler) (bufcap : Z) (now : Time) (dateStr : bytes)
    (scheme buf : bytes) (e : option nat) (req : Request) (ft : bool) (excess : bytes) (ctx : RequestCtx)
    (Hparse : parseBuffer scheme buf e = Ok (req, ft, excess)) (HS : SameRequest req ctx)
    (Hplain : plain_directives (Headers req)) (Hsc : scanner_ok (fp_bypassCookieNames f)) :
  let out := TryHit to_lower sum128 sum64 grow store_Get f bufcap req now dateStr in
  let lk := lookup to_lower sum128 sum64 store_Get (fp_policy f) ctx in
  let bypassed := requestBypass (fp_bypassOnCookie f) (fp_bypassCookieNames f) (fp_uaBypass f) ctx in
  let decide o := decision (evaluateFast (ctx_Method ctx) (Peek (ctx_Header ctx)) (Some o) now) in
  (bypassed = true -> out = declined req) /\
  (forall r, out_resp out = Some r ->
     (ctx_Method ctx = bs "GET" \/ ctx_Method ctx = bs "HEAD") /\ Forall (fun n => HasHeader (Headers req) n = false) disqualifying /\
     (is_Some (store_Get (lk_primary lk)) -> exists o, lk_obj lk = Some o /\
        resp_StatusCode r = Object.StatusCode o /\ resp_body r = body_for req o /\ resp_Source r = lk_src lk /\
        (decide o = Hit /\ resp_CacheResult r = HIT /\ out_stale out = None \/
         decide o = StaleHit /\ resp_CacheResult r = STALE /\
         out_stale out = if fp_onStale f && (0 <? Object.StaleWhileRevalidate o) then Some (lk_key lk, o) else None))) /\
  (forall o h cc label, bypassed = false -> qualifiesForFastPath req = Some cc -> lk_obj lk = Some o ->
     store_Get (lk_key lk) = Some (o, h, lk_src lk) ->
     decide o = Hit /\ label = HIT \/ decide o = StaleHit /\ label = STALE ->
     out_resp out = (serializeResponse grow f bufcap req o h (lk_src lk) now label dateStr).1).
Proof.
  intros out lk bypassed decide. apply parse_scan_ok in Hparse as [Hs _].
  assert (bypassed = _) as Hb by (apply same_bypass; [exact HS|exact Hsc|exact Hplain]).
  assert (out = if bypassed then declined req else tryHit to_lower sum128 sum64 grow store_Get f bufcap req now dateStr) as Eo.
  { rewrite Hb. unfold out, TryHit. by destruct (_ && _), (ua_bypassed _ _). }
  clearbody out. clearbody bypassed. clear Hb. subst out. split; [by intros ->|].
  destruct bypassed; [done|]. unfold tryHit.
  destruct (qualifiesForFastPath req) as [cc|] eqn:Eq; [|done].
  pose proof (qualifies_inv req cc Hs Eq) as (Hm & Hpn & Hdis & _).
  assert (forall o, decide o = decision (evaluate (Some o) cc (respGateFromObject (Some o)) now)) as Hd
    by (intros o; unfold decide; by rewrite (same_decision req ctx cc) by done).
  rewrite (same_lookup _ Hlaws _ _ _ _ _ ctx) by (done || apply Hplain). fold lk.
  split.
  - intros r. destruct (store_Get (lk_primary lk)) as [p|] eqn:Ep.
    2:{ intros _. rewrite same_method. split_and!; [done..|]. by intros []. }
    destruct (lk_obj lk) as [o|] eqn:El; [|done]. destruct (lookup_found _ _ _ _ _ _ _ El) as (h & Eh & _). fold lk in Eh. rewrite Eh.
    unfold serve_decision. rewrite <- Hd.
    destruct (decide o) eqn:Ed; try done;
      (destruct (serializeResponse _ _ _ _ _ _ _ _ _ _) as [[r'|] h'] eqn:Es; [|done]); cbn [out_resp out_stale]; intros [= <-];
      apply serializeResponse_fields in Es as (E1 & E2 & E3 & E4 & _ & _);
      (rewrite same_method; split_and!; [done..|]; intros _; exists o; split_and!; auto).
  - intros o h cc' label _ _ Ho Eh Hdec. rewrite Ho, Eh. destruct (lookup_found _ _ _ _ _ _ _ Ho) as (_ & _ & [p Ep]).
    fold lk in Ep. rewrite Ep.
    unfold serve_decision. rewrite <- Hd.
    destruct Hdec as [[-> ->]|[-> ->]]; by destruct (serializeResponse _ _ _ _ _ _ _ _ _ _) as [? ?].
Qed.

(** ** A fasthttp view of a parsed request *)

Definition fasthttp_view (r : RawHeaders) : FastHeader :=
  let lines := map (fun h => (canonicalize (RawReq.Key h), trim_right_ows (Value h))) r in
  {| Peek := fun k => first_value (canonicalize k) lines; PeekAll := fun k => all_values (canonicalize k) lines; All := lines |}.

Lemma view_values (r : RawHeaders) (k : bytes) :
  all_values (canonicalize k) (All (fasthttp_view r)) = map trim_right_ows (raw_values r k).
Proof.
  unfold all_values, raw_values, fasthttp_view. simpl. rewrite filter_map, !map_map. simpl.
  f_equal. apply filter_ext_Forall, Forall_forall. intros h _. by rewrite EqualFold_canonical.
Qed.

Lemma view_laws (r : RawHeaders) : FastLaws (fasthttp_view r).
Proof.
  split; simpl.
  - apply Forall_forall. intros kv. rewrite list_elem_of_In. intros (h & <- & _)%in_map_iff. apply canonicalize_idem.
  - done.
  - change Hdr.Cookie with (canonicalize Hdr.Cookie) at 1. rewrite first_value_all.
    destruct (all_values _ _) as [|v [|w l]]; unfold len; simpl; [auto..|lia].
  - rewrite first_value_all. by intros ->.
  - by split.
Qed.

Definition view_ctx (req : Request) (tls : bool) : RequestCtx :=
  {| ctx_Method := H1Parser.Method req; ctx_RequestURI := target (H1Parser.Path req) (Query req);
     ctx_Host := map lower_byte (H1Parser.Host req); ctx_Path := H1Parser.Path req; ctx_IsTLS := tls;
     ctx_Header := fasthttp_view (Headers req) |}.

Lemma view_same (req : Request) (tls : bool) : scan_ok req ->
  extractRawQuery (target (H1Parser.Path req) (Query req)) = Query req ->
  canonical_host (map lower_byte (H1Parser.Host req)) = canonical_host (H1Parser.Host req) ->
  Scheme req = (if tls then bs "https" else bs "http") -> SameRequest req (view_ctx req tls).
Proof.
  intros Hs Hq Hh Hsch. split; simpl; try done.
  - intros k _. rewrite first_value_all, Header_first. change (map _ (Headers req)) with (All (fasthttp_view (Headers req))).
    rewrite view_values. by destruct (raw_values (Headers req) k).
  - change (map _ (Headers req)) with (All (fasthttp_view (Headers req))). rewrite view_values.
    pose proof (raw_source_laws (Headers req) (ok_values req Hs)) as L. pose proof (source_cookies (s := rawVarySrc (Headers req))) as C.
    cbn [toMap presenceCookieValue] in C. rewrite CookieAll_join in C. change (all_values Hdr.Cookie) with (all_values (canonicalize (bs "Cookie"))) in C.
    rewrite raw_map_values in C. change (raw_values (Headers req) Hdr.Cookie) with (raw_values (Headers req) (bs "Cookie")).
    apply same_cookies_sym, C.
  - apply view_laws.
Qed.

Definition hit_head : bytes :=
  bs "GET /a HTTP/1.1" ++ crlf ++ bs "Host: H:80" ++ crlf ++ bs "Cookie: a=1" ++ crlf ++ bs "accept-language: fr " ++ crlf ++ crlf.
Definition hit_request : Request :=
  match parseBuffer (bs "http") hit_head (findHeaderEnd hit_head) with
  | Ok (req, _, _) => req
  | Err _ => reset_request []
  end.
Definition plain_handler : FastPathHandler :=
  {| fp_policy := None; fp_bypassOnCookie := false; fp_bypassCookieNames := newCookieNameScanner (map lower_byte) [bs "sid"];
     fp_uaBypass := compileUABypass [bs "*bot*"]; fp_syncCDC := false; fp_poolName := bs "web"; fp_memo := None;
     fp_ownerFn := None; fp_peerFetch := None; fp_onStale := true; fp_onPeerStale := false |}.
Definition page : Object.t :=
  {| sample_object with Object.StatusCode := 200; Object.Body := bs "hello"; Object.VaryValue := bs "Accept-Language";
                        Object.HasDate := false |}.
(** The resolver under the primary key, the variant under every other. *)
Definition page_store (k : Api.Key) : option (Object.t * heads * bytes) :=
  if beq k zero_key then Some ({| page with Object.Body := [] |}, heads0, bs "hot") else Some (page, heads0, bs "warm").

Lemma fast_path_serves_as_slow_witness :
  out_resp (TryHit (map lower_byte) (fun _ => zero_key) len (fun c _ => c) page_store plain_handler 4096 hit_request 0 []) =
  (serializeResponse (fun c _ => c) plain_handler 4096 hit_request page heads0 (bs "warm") 0 HIT []).1.
Proof.
  assert (parseBuffer (bs "http") hit_head (findHeaderEnd hit_head) = Ok (hit_request, false, [])) as H
    by (vm_compute; reflexivity).
  pose proof (parse_scan_ok _ _ _ _ _ _ H) as [Hs _].
  assert (SameRequest hit_request (view_ctx hit_request false)) as HS by (apply view_same; [exact Hs|vm_compute; reflexivity..]).
  assert (plain_directives (Headers hit_request)) as Hp.
  { split; [vm_compute; split_and!; auto|]. repeat (apply Forall_cons; split; [vm_compute; reflexivity|]). apply Forall_nil_2. }
  destruct (fast_path_serves_as_slow (map lower_byte) lower_laws_ascii (fun _ => zero_key) len (fun c _ => c)
    page_store plain_handler 4096 0 [] _ _ _ _ _ _ _ H HS Hp (proj1 (scanner_ok_new _ _))) as (_ & _ & Hr).
  apply (Hr page heads0 Directives0 HIT); [vm_compute; reflexivity..|]. left. split; vm_compute; reflexivity.
Defined.

(** ** The head as lines *)

Definition field_line (kv : bytes * bytes) : bytes := kv.1 ++ bs ": " ++ kv.2.
Definition status_text (code : Z) : bytes := bs "HTTP/1.1 " ++ itoa code ++ ch " " :: statusMessage code.

(** The fields a hit adds, and the head. *)
Definition dynamic_fields (obj : Object.t) (now : Time) (label dateStr : bytes) (closeConn syncCDC : bool) : list (bytes * bytes) :=
  (if negb (Object.HasDate obj) && negb (Has (Object.Header obj) Hdr.Date) then [(Hdr.Date, dateStr)] else [])
  ++ [(Hdr.Age, itoa (f64_trunc (d_seconds (ComputeAge obj now)))); (Hdr.XCache, label)]
  ++ (if beq label STALE then [(Hdr.Warning, bs "110 - " ++ [x22] ++ bs "Response is Stale" ++ [x22])] else [])
  ++ (if syncCDC then [(Hdr.CDNCacheControl, appendServeCDCDirectives [] obj now (if beq label STALE then cacheStale else cacheHit))]
      else [])
  ++ [(Hdr.Connection, if closeConn then bs "close" else bs "keep-alive")].

Definition head_fields (f : FastPathHandler) (obj : Object.t) (now : Time) (label : bytes) (closeConn : bool)
    : list (bytes * bytes) :=
  static_lines obj (fp_syncCDC f) ++ dynamic_fields obj now label (formatHTTPDate now) closeConn (fp_syncCDC f).
Definition fresh_head (f : FastPathHandler) (obj : Object.t) (now : Time) (label : bytes) (closeConn : bool) : bytes :=
  head_text (status_text (Object.StatusCode obj)) (map field_line (head_fields f obj now label closeConn)).

Lemma appendStatusLine_text (buf : bytes) (code : Z) : appendStatusLine buf code = buf ++ status_text code ++ crlf.
Proof.
  unfold appendStatusLine.
  repeat (match goal with |- context [code =? ?n] => destruct (Z.eqb_spec code n) as [->|_] end; [reflexivity|]).
  unfold status_text. by rewrite <- !app_assoc.
Qed.

Lemma serve_directives_acc (hbuf : bytes) (obj : Object.t) (now : Time) (r : cacheResult) :
  appendServeCDCDirectives hbuf obj now r = hbuf ++ appendServeCDCDirectives [] obj now r.
Proof.
  unfold appendServeCDCDirectives, appendStaleMirrorDirectives.
  destruct r; case_tests; rewrite <- ?app_assoc; reflexivity.
Qed.

Lemma serve_line (hbuf : bytes) (obj : Object.t) (now : Time) (r : cacheResult) :
  appendServeCDCLine hbuf obj now r = hbuf ++ field_line (Hdr.CDNCacheControl, appendServeCDCDirectives [] obj now r) ++ crlf.
Proof. unfold appendServeCDCLine, field_line. rewrite serve_directives_acc. by rewrite <- !app_assoc. Qed.

Lemma lines_text_app (ls ls' : list bytes) : lines_text (ls ++ ls') = concat (map (fun l => l ++ crlf) ls) ++ lines_text ls'.
Proof. unfold lines_text. by rewrite map_app, concat_app, app_assoc. Qed.

Lemma appendDynamicHeaders_lines (hbuf : bytes) (obj : Object.t) (now : Time) (label dateStr : bytes) (closeConn syncCDC : bool) :
  appendDynamicHeaders hbuf obj now label dateStr closeConn syncCDC
  = hbuf ++ lines_text (map field_line (dynamic_fields obj now label dateStr closeConn syncCDC)).
Proof.
  unfold appendDynamicHeaders, dynamic_fields. cbv zeta. unfold lines_text.
  destruct (_ && _), (beq label STALE), syncCDC, closeConn; cbn [app];
    rewrite ?serve_line; unfold field_line, write_line; cbn [map concat fst snd];
    rewrite ?app_nil_r, <- ?app_assoc; repeat f_equal; reflexivity.
Qed.

Lemma serializeHead_lines (obj : Object.t) (skipCDC : bool) :
  serializeHead obj skipCDC = concat (map (fun l => l ++ crlf) (map field_line (static_lines obj skipCDC))).
Proof.
  unfold serializeHead. rewrite <- (app_nil_l (concat _)). generalize (@nil byte) as buf.
  induction (static_lines obj skipCDC) as [|kv l IH]; intros buf; [by rewrite app_nil_r|]. simpl.
  rewrite IH. unfold write_line, field_line. by rewrite <- !app_assoc.
Qed.

(** The rendered heads of an object are what the handler would render, at
    some instant of the second they are for. *)
Record heads_ok (f : FastPathHandler) (obj : Object.t) (h : heads) : Prop := {
  ok_static : forall hd, serializedHead h = Some hd -> hd = serializeHead obj (fp_syncCDC f);
  ok_composed : forall c, composedHeadPtr h = Some c -> exists t, unix t = ch_unix c /\
    ch_head c = fresh_head f obj t (ch_cacheResult c) (ch_closeConn c) /\ ch_statusEnd c = status_end (ch_head c);
}.

(** What Go promises of the capacity after [append]. *)
Class GrowLaws (grow : Z -> Z -> Z) : Prop := {
  grow_fits : forall c n, n <= grow c n;
  grow_keeps : forall c n, n <= c -> grow c n = c;
}.

Lemma compose_head_fresh (f : FastPathHandler) (obj : Object.t) (h : heads) (now : Time) (label : bytes) (closeConn : bool) :
  heads_ok f obj h ->
  let '(hbuf, h') := compose_head f obj h now label (formatHTTPDate now) closeConn in
  heads_ok f obj h' /\ composedHeadPtr h' = composedHeadPtr h /\
  (maxFastPathHeaderBytes < len hbuf /\ maxFastPathHeaderBytes < len (fresh_head f obj now label closeConn) \/
   hbuf = fresh_head f obj now label closeConn).
Proof.
  intros [H1 H2]. unfold compose_head, getOrComputeSerializedHead, LoadSerializedHead.
  assert (Hf : forall hd, hd = serializeHead obj (fp_syncCDC f) ->
    appendDynamicHeaders (appendStatusLine [] (Object.StatusCode obj) ++ hd) obj now label (formatHTTPDate now) closeConn (fp_syncCDC f)
    = fresh_head f obj now label closeConn).
  { intros hd ->. rewrite appendDynamicHeaders_lines, appendStatusLine_text, serializeHead_lines. unfold fresh_head, head_text, head_fields.
    by rewrite map_app, lines_text_app, app_nil_l, <- !app_assoc. }
  destruct (serializedHead h) as [hd|] eqn:Eh; cbn iota beta; [split_and!; [by constructor; rewrite ?Eh|done|right; by apply Hf, H1]|].
  destruct (maxFastPathHeaderBytes <? len (serializeHead obj (fp_syncCDC f))) eqn:El; cbn iota beta.
  - split_and!; [by constructor; rewrite ?Eh|done|left]. apply Z.ltb_lt in El. split.
    2:{ rewrite <- (Hf _ eq_refl), appendDynamicHeaders_lines, !len_app.
        pose proof (len_nonneg (appendStatusLine [] (Object.StatusCode obj))).
        pose proof (len_nonneg (lines_text (map field_line (dynamic_fields obj now label (formatHTTPDate now) closeConn (fp_syncCDC f))))). lia. }
    unfold appendResponseHeaders.
    rewrite !appendDynamicHeaders_lines. unfold serializeHead in El. revert El. generalize (static_lines obj (fp_syncCDC f)) as l.
    intros l El. rewrite !len_app. enough (len (fold_left (fun buf kv => buf ++ write_line kv.1 kv.2) l [])
      <= len (fold_left (fun buf kv => buf ++ write_line kv.1 kv.2) l (appendStatusLine [] (Object.StatusCode obj)))).
    { pose proof (len_nonneg (lines_text (map field_line (dynamic_fields obj now label (formatHTTPDate now) closeConn (fp_syncCDC f))))). lia. }
    clear. assert (len (@nil byte) <= len (appendStatusLine [] (Object.StatusCode obj))) as H by apply len_nonneg.
    revert H. generalize (@nil byte), (appendStatusLine [] (Object.StatusCode obj)).
    induction l as [|kv l IH]; intros a b H; simpl; [done|]. apply IH. rewrite !len_app. lia.
  - simpl. split_and!; [|done|right; by apply Hf]. constructor; simpl; [|done]. by intros hd [= <-].
Qed.

(** ** No carriage return in what the handler writes *)

Lemma no_cr_app (a b : bytes) : CR ∉ a -> CR ∉ b -> CR ∉ a ++ b.
Proof. rewrite elem_of_app. tauto. Qed.
Create HintDb no_cr.
#[export] Hint Resolve no_cr_app : no_cr.
Lemma no_cr_const (s : bytes) : forallb (fun c => negb (beqb c CR)) s = true -> CR ∉ s.
Proof.
  induction s as [|c s IH]; [intros _; apply not_elem_of_nil|]. cbn [forallb]. intros [H1 H2]%andb_true_iff.
  rewrite not_elem_of_cons. split; [|by apply IH]. intros <-. discriminate H1.
Qed.
Ltac no_cr_const := apply no_cr_const; vm_compute; reflexivity.
#[export] Hint Extern 5 (CR ∉ bs _) => no_cr_const : no_cr.

Lemma digit_no_cr (z : Z) : bZ (48 + z mod 10) <> CR.
Proof.
  intros E. pose proof (Z.mod_pos_bound z 10 ltac:(lia)). destruct (digit_byte (z mod 10)) as [E1 _]; [lia|].
  rewrite E in E1. change (Zb CR) with 13 in E1. lia.
Qed.

Lemma itoa_no_cr (z : Z) : CR ∉ itoa z.
Proof.
  assert (forall n z, CR ∉ rdigits n z) as Hr.
  { induction n as [|n IH]; intros y; [apply not_elem_of_nil|]. cbn [rdigits]. rewrite not_elem_of_cons. split.
    - intros E. by apply (digit_no_cr y).
    - destruct (y <? 10); [apply not_elem_of_nil|apply IH]. }
  assert (forall z, CR ∉ utoa z) as Hu by (intros y; unfold utoa; rewrite list_elem_of_In, <- in_rev, <- list_elem_of_In; apply Hr).
  unfold itoa. destruct (z <? 0); [rewrite not_elem_of_cons; split; [discriminate|apply Hu]|apply Hu].
Qed.
#[export] Hint Resolve itoa_no_cr : no_cr.

Lemma nth_no_cr (l : list bytes) (n : nat) : Forall (fun s => CR ∉ s) l -> CR ∉ nth n l [].
Proof. intros H. revert n. induction H as [|s l Hs _ IH]; intros [|n]; simpl; auto using not_elem_of_nil. Qed.

Lemma formatHTTPDate_no_cr (t : Time) : CR ∉ formatHTTPDate t.
Proof.
  assert (forall z, CR ∉ two_digits z) as H2
    by (intros z; unfold two_digits, dec_digit; rewrite !not_elem_of_cons; split_and!;
        [intros E; by apply (digit_no_cr (z / 10))|intros E; by apply (digit_no_cr z)|apply not_elem_of_nil]).
  assert (forall z, CR ∉ four_digits z) as H4 by (intros z; unfold four_digits, dec_digit;
     rewrite !not_elem_of_cons; split_and!; [intros E; symmetry in E; by apply digit_no_cr in E..|apply not_elem_of_nil]).
  unfold formatHTTPDate. destruct (civil_from_days _) as [[y m] d].
  repeat apply no_cr_app; auto with no_cr; apply nth_no_cr; repeat (constructor; [no_cr_const|]); constructor.
Qed.
#[export] Hint Resolve formatHTTPDate_no_cr : no_cr.

Lemma status_text_no_cr (code : Z) : CR ∉ status_text code.
Proof.
  unfold status_text, statusMessage. repeat apply no_cr_app; auto with no_cr.
  rewrite not_elem_of_cons. split; [discriminate|]. case_tests; no_cr_const.
Qed.

Lemma serve_directives_no_cr (obj : Object.t) (now : Time) (r : cacheResult) : CR ∉ appendServeCDCDirectives [] obj now r.
Proof.
  unfold appendServeCDCDirectives, appendStaleMirrorDirectives. destruct r; case_tests; repeat apply no_cr_app; auto with no_cr;
    apply not_elem_of_nil.
Qed.
#[export] Hint Resolve status_text_no_cr serve_directives_no_cr : no_cr.

(** ** Served heads *)

(** The stored lines have names, and no line break in them. *)
Definition clean_lines (obj : Object.t) : Prop :=
  Forall (fun kv => kv.1 <> [] /\ CR ∉ kv.1 /\ CR ∉ kv.2) (pairs (Object.Header obj)).

Definition named (k : bytes) (fields : list (bytes * bytes)) : list (bytes * bytes) := List.filter (fun kv => beq kv.1 k) fields.

Lemma named_app (k : bytes) (a b : list (bytes * bytes)) : named k (a ++ b) = named k a ++ named k b.
Proof. apply List.filter_app. Qed.

Lemma named_static (k : bytes) (obj : Object.t) (skipCDC : bool) :
  named k (static_lines obj skipCDC) =
  if skipStaticHeader k (parseNoCacheFieldNames (Object.CacheControl obj))
       (if Object.HasConnectionList obj then parseConnectionListedHeaders obj else []) skipCDC
  then [] else named k (pairs (Object.Header obj)).
Proof.
  unfold static_lines, named. set (ncf := parseNoCacheFieldNames _). set (cl := if Object.HasConnectionList obj then parseConnectionListedHeaders obj else []).
  induction (pairs (Object.Header obj)) as [|kv l IH]; cbn [List.filter]; [by destruct (skipStaticHeader _ _ _ _)|].
  destruct (beq kv.1 k) eqn:E.
  - apply beq_eq in E. rewrite <- E in IH |- *. destruct (skipStaticHeader kv.1 ncf cl skipCDC); cbn [negb List.filter]; [done|].
    unfold beq at 1. by rewrite bool_decide_true, IH by done.
  - destruct (negb _); cbn [List.filter]; [|done]. by rewrite E.
Qed.

Definition dynamic_names : list bytes := [Hdr.Date; Hdr.Age; Hdr.XCache; Hdr.Warning; Hdr.CDNCacheControl; Hdr.Connection].

Lemma dynamic_names_only (obj : Object.t) (now : Time) (label dateStr : bytes) (closeConn syncCDC : bool) :
  Forall (fun kv => kv.1 ∈ dynamic_names) (dynamic_fields obj now label dateStr closeConn syncCDC).
Proof.
  unfold dynamic_fields. destruct (_ && _), (beq label STALE), syncCDC; cbn [app];
    repeat (apply Forall_cons; split; [unfold dynamic_names; set_solver|]); apply Forall_nil_2.
Qed.

Lemma named_dynamic_other (k : bytes) (obj : Object.t) (now : Time) (label dateStr : bytes) (closeConn syncCDC : bool) :
  k ∉ dynamic_names -> named k (dynamic_fields obj now label dateStr closeConn syncCDC) = [].
Proof.
  intros Hk. pose proof (dynamic_names_only obj now label dateStr closeConn syncCDC) as H. unfold named.
  induction H as [|kv l Hkv _ IH]; [done|]. cbn [List.filter]. destruct (beq kv.1 k) eqn:E; [|done].
  apply beq_eq in E as <-. done.
Qed.

Lemma dynamic_no_cr (obj : Object.t) (now : Time) (label : bytes) (closeConn syncCDC : bool) : CR ∉ label ->
  Forall (fun kv => kv.1 <> [] /\ CR ∉ kv.1 /\ CR ∉ kv.2) (dynamic_fields obj now label (formatHTTPDate now) closeConn syncCDC).
Proof.
  intros Hl. unfold dynamic_fields. destruct (_ && _), (beq label STALE), syncCDC, closeConn; cbn [app];
    repeat (apply Forall_cons; split; [split_and!; [discriminate|no_cr_const|cbn [snd]; auto with no_cr; no_cr_const]|]);
    apply Forall_nil_2.
Qed.

Lemma field_line_ok (kv : bytes * bytes) : kv.1 <> [] /\ CR ∉ kv.1 /\ CR ∉ kv.2 -> line_ok (field_line kv).
Proof.
  intros (H1 & H2 & H3). unfold field_line. split.
  - apply crlf_free_no_cr. auto with no_cr.
  - destruct kv.1; [done|discriminate].
Qed.

Lemma skipStaticHeader_other (k : bytes) (ncf cl : list bytes) (skipCDC : bool) : k ∉ dynamic_names ->
  skipStaticHeader k ncf cl skipCDC = true <->
  k ∈ internal_headers ++ hop_by_hop ++ ncf ++ cl \/ skipCDC = true /\ isCDCFamilyHeader k = true.
Proof.
  intros Hk. unfold skipStaticHeader, shouldSkipHeader.
  assert (beq k Hdr.Age = false) as -> by (apply beq_neq; intros ->; apply Hk; unfold dynamic_names; set_solver).
  assert (in_names [Hdr.XCache; Hdr.Warning] k = false) as ->
    by (apply not_true_iff_false; rewrite in_names_spec; unfold dynamic_names in Hk; set_solver).
  rewrite !elem_of_app, <- !in_names_spec.
  destruct (in_names internal_headers k), (in_names hop_by_hop k), (in_names ncf k), (in_names cl k), skipCDC, (isCDCFamilyHeader k);
    simpl; intuition congruence.
Qed.

(** The stored lines of these names are never served. *)
Lemma skip_dynamic (k : bytes) (ncf cl : list bytes) (skipCDC : bool) :
  k ∈ [Hdr.Connection; Hdr.Age; Hdr.XCache; Hdr.Warning] -> skipStaticHeader k ncf cl skipCDC = true.
Proof.
  rewrite !elem_of_cons, elem_of_nil. unfold skipStaticHeader, shouldSkipHeader.
  intros [->|[->|[->|[->|[]]]]]; [reflexivity..| |];
    destruct (in_names ncf _); [reflexivity|destruct (in_names cl _); reflexivity|reflexivity|destruct (in_names cl _); reflexivity].
Qed.
Lemma skip_cdc (ncf cl : list bytes) : skipStaticHeader Hdr.CDNCacheControl ncf cl true = true.
Proof.
  unfold skipStaticHeader, shouldSkipHeader. destruct (in_names ncf _); [reflexivity|]. destruct (in_names cl _); reflexivity.
Qed.

Lemma named_nil_Has (k : bytes) (h : Map) : canonicalize k = k -> Has h k = negb (bool_decide (named k (pairs h) = [])).
Proof.
  intros Hk. rewrite Has_all_values, Hk. unfold all_values. fold (named k (pairs h)).
  by destruct (named k (pairs h)).
Qed.

Lemma fresh_head_split (f : FastPathHandler) (obj : Object.t) (t : Time) (label : bytes) (closeConn : bool) :
  let head := fresh_head f obj t label closeConn in
  take (Z.to_nat (status_end head)) head = status_text (Object.StatusCode obj) ++ crlf.
Proof.
  unfold fresh_head, head_text, status_end. rewrite cut_crlf_app by (apply crlf_free_no_cr, status_text_no_cr). cbv zeta.
  replace (Z.to_nat _) with (length (status_text (Object.StatusCode obj) ++ crlf)) by (unfold len; rewrite length_app; simpl; lia).
  by rewrite app_assoc, take_app_length.
Qed.

(** ** Theorems on heads *)

(** The fields of a head rendered anew. *)
Lemma head_fields_exact (f : FastPathHandler) (obj : Object.t) (now : Time) (label body : bytes) (closeConn : bool)
    (Hclean : clean_lines obj) (Hlabel : label = HIT \/ label = STALE) :
  let head := fresh_head f obj now label closeConn in
  let fields := head_fields f obj now label closeConn in
  let stored := pairs (Object.Header obj) in
  let hidden k := k ∈ internal_headers ++ hop_by_hop ++ parseNoCacheFieldNames (Object.CacheControl obj)
                      ++ (if Object.HasConnectionList obj then parseConnectionListedHeaders obj else [])
                  \/ fp_syncCDC f = true /\ isCDCFamilyHeader k = true in
  findHeaderEnd (head ++ body) = Some (length head) /\
  named Hdr.Connection fields = [(Hdr.Connection, if closeConn then bs "close" else bs "keep-alive")] /\
  named Hdr.Age fields = [(Hdr.Age, itoa (f64_trunc (d_seconds (ComputeAge obj now))))] /\
  named Hdr.XCache fields = [(Hdr.XCache, label)] /\
  length (named Hdr.Warning fields) = (if beq label STALE then 1 else 0)%nat /\
  (named Hdr.Date stored = [] -> Object.HasDate obj = false -> named Hdr.Date fields = [(Hdr.Date, formatHTTPDate now)]) /\
  (named Hdr.Date stored <> [] -> named Hdr.Date fields = [] \/ named Hdr.Date fields = named Hdr.Date stored) /\
  (fp_syncCDC f = true -> length (named Hdr.CDNCacheControl fields) = 1%nat) /\
  (forall k, k ∉ dynamic_names -> (hidden k -> named k fields = []) /\ (~ hidden k -> named k fields = named k stored)).
Proof.
  intros head fields stored hidden.
  assert (Forall line_ok (map field_line fields)) as Hok.
  { apply Forall_map, Forall_app. split.
    - unfold static_lines. apply Forall_forall. intros kv. rewrite list_elem_of_In. intros [Hin _]%filter_In.
      unfold clean_lines in Hclean. rewrite Forall_forall in Hclean. by apply field_line_ok, Hclean, list_elem_of_In.
    - eapply Forall_impl; [apply dynamic_no_cr|apply field_line_ok]. destruct Hlabel as [-> | ->]; no_cr_const. }
  assert (crlf_free (status_text (Object.StatusCode obj))) as Hst by apply crlf_free_no_cr, status_text_no_cr.
  assert (forall k, named k fields = named k (static_lines obj (fp_syncCDC f))
            ++ named k (dynamic_fields obj now label (formatHTTPDate now) closeConn (fp_syncCDC f))) as Hn
    by (intros k; apply named_app).
  split_and!.
  - apply findHeaderEnd_head. by exists (status_text (Object.StatusCode obj)), (map field_line fields), body.
  - rewrite Hn, named_static, skip_dynamic by set_solver.
    unfold dynamic_fields. destruct (_ && _), (beq label STALE), (fp_syncCDC f); reflexivity.
  - rewrite Hn, named_static, skip_dynamic by set_solver.
    unfold dynamic_fields. destruct (_ && _), (beq label STALE), (fp_syncCDC f); reflexivity.
  - rewrite Hn, named_static, skip_dynamic by set_solver.
    unfold dynamic_fields. destruct (_ && _), (beq label STALE), (fp_syncCDC f); reflexivity.
  - rewrite Hn, named_static, skip_dynamic by set_solver.
    unfold dynamic_fields. destruct (_ && _), (beq label STALE), (fp_syncCDC f); reflexivity.
  - intros Hd Hh. rewrite Hn, named_static. fold stored. rewrite Hd. unfold dynamic_fields.
    rewrite named_nil_Has, Hh by reflexivity. fold stored. rewrite Hd.
    destruct (skipStaticHeader _ _ _ _), (beq label STALE), (fp_syncCDC f); reflexivity.
  - intros Hd. rewrite Hn, named_static. fold stored. unfold dynamic_fields.
    rewrite named_nil_Has by reflexivity. fold stored. rewrite bool_decide_false, andb_false_r by done.
    assert (forall l, named Hdr.Date l ++ [] = named Hdr.Date l) as Hr by (intros; apply app_nil_r).
    destruct (skipStaticHeader _ _ _ _), (beq label STALE), (fp_syncCDC f); (left; reflexivity) || (right; apply Hr).
  - intros Hs. rewrite Hn, named_static, Hs, skip_cdc. unfold dynamic_fields. destruct (_ && _), (beq label STALE); reflexivity.
  - intros k Hk. rewrite Hn, named_static, named_dynamic_other, app_nil_r by done. fold stored.
    pose proof (skipStaticHeader_other k (parseNoCacheFieldNames (Object.CacheControl obj))
      (if Object.HasConnectionList obj then parseConnectionListedHeaders obj else []) (fp_syncCDC f) Hk) as He. fold (hidden k) in He.
    destruct (skipStaticHeader _ _ _ _); intuition congruence.
Qed.

(** ** The caches of a handler *)

(** The cached text is the date of the cached second. *)
Definition date_ok (dc : date_cache) : Prop :=
  forall s, cachedDate dc = Some s -> exists t, unix t = cachedDateUnix dc /\ s = formatHTTPDate t.

Lemma formatHTTPDate_unix (t t' : Time) : unix t = unix t' -> formatHTTPDate t = formatHTTPDate t'.
Proof. unfold formatHTTPDate. by intros ->. Qed.

Lemma getCachedDate_exact (dc : date_cache) (now : Time) : date_ok dc ->
  (getCachedDate dc now).1 = formatHTTPDate now /\ date_ok (getCachedDate dc now).2.
Proof.
  intros Hd. unfold getCachedDate, date_load. destruct (Z.eqb_spec (unix now) (cachedDateUnix dc)) as [E|E].
  - destruct (cachedDate dc) as [s|] eqn:Es; simpl.
    + destruct (Hd s Es) as (t & Et & ->). split; [|done]. apply formatHTTPDate_unix. lia.
    + split; [done|]. intros s [= <-]. by exists now.
  - simpl. split; [done|]. intros s [= <-]. by exists now.
Qed.

(** The two stores are not one: between them, a reader of the new second gets
    the date of the old one. *)
Lemma date_race : forall t0 t1 : Time, unix t0 <> unix t1 ->
  let dc := (getCachedDate date_cache0 t0).2 in
  (getCachedDate (date_store_unix dc t1) t1).1 = formatHTTPDate t0.
Proof.
  intros t0 t1 Hne dc. assert (cachedDate dc = Some (formatHTTPDate t0)) as E.
  { unfold dc, getCachedDate, date_load. by destruct (_ =? _). }
  unfold getCachedDate, date_load. simpl. by rewrite Z.eqb_refl, E.
Qed.

Lemma heads_ok0 (f : FastPathHandler) (obj : Object.t) : heads_ok f obj heads0.
Proof. by split. Qed.

(** A response built anew, and what it leaves in the object. *)
Lemma composeResponse_fresh (grow : Z -> Z -> Z) (Hg : GrowLaws grow) (f : FastPathHandler) (bufcap : Z) (req : Request)
    (obj : Object.t) (h : heads) (src : bytes) (now : Time) (label : bytes) (closeConn : bool) : heads_ok f obj h ->
  let '(r, h') := composeResponse grow f bufcap req obj h src now label (formatHTTPDate now) closeConn in
  heads_ok f obj h' /\
  match r with
  | Some r => let head := fresh_head f obj now label closeConn in
              r = buildFastPathResponse head obj req label src (fp_poolName f) closeConn
  | None => ~ (len (fresh_head f obj now label closeConn) <= bufcap <= maxFastPathHeaderBytes)
  end.
Proof.
  intros H1. unfold composeResponse. pose proof (compose_head_fresh f obj h now label closeConn H1) as Hc.
  destruct (compose_head f obj h now label (formatHTTPDate now) closeConn) as [hbuf h2].
  destruct Hc as (H2 & _ & Hc). pose proof (grow_fits bufcap (len hbuf)).
  destruct (maxFastPathHeaderBytes <? grow bufcap (len hbuf)) eqn:Eg; (split; [done|]).
  - destruct Hc as [[_ Hc]| ->]; [lia|]. intros [L1 L2]. rewrite grow_keeps in Eg by done. lia.
  - destruct Hc as [[Hc _]| ->]; [lia|]. done.
Qed.

Lemma ComposedHeadFor_fresh (f : FastPathHandler) (obj : Object.t) (h : heads) (now : Time) (label : bytes) (closeConn : bool)
    (head : bytes) (n : Z) : heads_ok f obj h -> ComposedHeadFor h now label closeConn = Some (head, n) ->
  exists t, unix t = unix now /\ head = fresh_head f obj t label closeConn /\ n = status_end head.
Proof.
  intros [_ H]. unfold ComposedHeadFor. destruct (composedHeadPtr h) as [c|] eqn:Ec; [|done].
  destruct (negb _ || _ || _) eqn:E; [done|]. intros [= <- <-]. destruct (H c eq_refl) as (t & E1 & E2 & E3).
  apply orb_false_iff in E as [[Eu El]%orb_false_iff Ex]. rewrite negb_false_iff in *.
  apply Z.eqb_eq in Eu. apply beq_eq in El. apply eqb_prop in Ex. exists t. rewrite <- El, <- Ex. split_and!; congruence.
Qed.

(** The caches of rendered bytes are transparent: whatever sequence
    of hits has filled them, a response carries the head the handler would
    render for this object, label and close flag at some instant of the
    request's second, split after the status line, and then the body (none
    for HEAD); the caches stay so; and a head that fits the pooled buffer is
    always served, from the caches or not. *)
Theorem head_cache_transparent (grow : Z -> Z -> Z) (Hg : GrowLaws grow) (f : FastPathHandler) (bufcap : Z) (req : Request)
    (obj : Object.t) (h : heads) (src : bytes) (now : Time) (label : bytes) (dc : date_cache)
    (Hh : heads_ok f obj h) (Hd : date_ok dc) :
  let '(r, h') := serializeResponse grow f bufcap req obj h src now label (getCachedDate dc now).1 in
  heads_ok f obj h' /\ date_ok (getCachedDate dc now).2 /\
  (forall r', r = Some r' -> exists t, unix t = unix now /\
     wire r' = fresh_head f obj t label (ConnectionClose req)
               ++ (if beq (H1Parser.Method req) (bs "HEAD") then [] else Object.Body obj) /\
     resp_status_line r' = status_text (Object.StatusCode obj) ++ crlf /\ resp_CloseConn r' = ConnectionClose req) /\
  (len (fresh_head f obj now label (ConnectionClose req)) <= bufcap <= maxFastPathHeaderBytes -> r <> None).
Proof.
  destruct (getCachedDate_exact dc now Hd) as [-> Hd']. unfold serializeResponse.
  destruct (ComposedHeadFor h now label (ConnectionClose req)) as [[head n]|] eqn:Ef.
  - destruct (ComposedHeadFor_fresh f obj h _ _ _ _ _ Hh Ef) as (t & Et & -> & ->). split_and!; try done.
    intros r' [= <-]. exists t. unfold wire. rewrite app_assoc.
    unfold responseFromComposedHead. cbn [resp_status_line resp_header_block resp_body resp_CloseConn].
    split_and!; [done|by rewrite take_drop|apply fresh_head_split|done].
  - pose proof (composeResponse_fresh grow Hg f bufcap req obj h src now label (ConnectionClose req) Hh) as Hnew.
    destruct (composeResponse _ _ _ _ _ _ _ _ _ _ _) as [[r|] h']; destruct Hnew as [Hh' Hr]; [|by split_and!]. cbv zeta in Hr. subst r.
    split_and!; try done.
    + destruct Hh' as [Hs _]. split; [exact Hs|]. intros c [= <-]. exists now. done.
    + intros r' [= <-]. exists now. unfold wire. rewrite app_assoc.
      unfold buildFastPathResponse. cbn [resp_status_line resp_header_block resp_body resp_CloseConn].
      split_and!; [done|by rewrite take_drop|apply fresh_head_split|done].
Qed.

(** The buffers of a response, in terms of a head rendered anew. *)
Lemma served_buffers (grow : Z -> Z -> Z) (Hg : GrowLaws grow) (f : FastPathHandler) (bufcap : Z) (req : Request)
    (obj : Object.t) (h h' : heads) (src : bytes) (now : Time) (label : bytes) (dc : date_cache) (r : fp_response) :
  heads_ok f obj h -> date_ok dc ->
  serializeResponse grow f bufcap req obj h src now label (getCachedDate dc now).1 = (Some r, h') ->
  exists t, unix t = unix now /\ resp_status_line r = status_text (Object.StatusCode obj) ++ crlf /\
    resp_header_block r = lines_text (map field_line (head_fields f obj t label (ConnectionClose req))) /\
    resp_body r = body_for req obj.
Proof.
  intros Hh Hd. rewrite (proj1 (getCachedDate_exact dc now Hd)). unfold serializeResponse.
  assert (forall t head, head = fresh_head f obj t label (ConnectionClose req) ->
    take (Z.to_nat (status_end head)) head = status_text (Object.StatusCode obj) ++ crlf /\
    drop (Z.to_nat (status_end head)) head = lines_text (map field_line (head_fields f obj t label (ConnectionClose req)))) as Hs.
  { intros t head ->. pose proof (fresh_head_split f obj t label (ConnectionClose req)) as E. split; [exact E|].
    apply (app_inv_head (status_text (Object.StatusCode obj) ++ crlf)). rewrite <- E at 1. rewrite take_drop.
    unfold fresh_head, head_text. by rewrite <- app_assoc. }
  destruct (ComposedHeadFor h now label (ConnectionClose req)) as [[head n]|] eqn:Ef.
  - destruct (ComposedHeadFor_fresh f obj h _ _ _ _ _ Hh Ef) as (t & Et & E & ->). intros [= <- _]. exists t.
    destruct (Hs t head E). unfold responseFromComposedHead. by split_and!.
  - pose proof (composeResponse_fresh grow Hg f bufcap req obj h src now label (ConnectionClose req) Hh) as Hnew.
    destruct (composeResponse _ _ _ _ _ _ _ _ _ _ _) as [[r0|] h0]; [|done]. destruct Hnew as [_ E]. cbv zeta in E.
    intros [= <- _]. exists now. destruct (Hs now _ eq_refl). rewrite E. unfold buildFastPathResponse. by split_and!.
Qed.

(** The heads of an object that any sequence of hits on it has left. *)
Inductive rendered (grow : Z -> Z -> Z) (f : FastPathHandler) (obj : Object.t) : heads -> Prop :=
| rendered_none : rendered grow f obj heads0
| rendered_hit (bufcap : Z) (req : Request) (h : heads) (src : bytes) (now : Time) (label : bytes) (dc : date_cache) :
    rendered grow f obj h -> date_ok dc ->
    rendered grow f obj (serializeResponse grow f bufcap req obj h src now label (getCachedDate dc now).1).2.

Lemma rendered_ok (grow : Z -> Z -> Z) (Hg : GrowLaws grow) (f : FastPathHandler) (obj : Object.t) (h : heads) :
  rendered grow f obj h -> heads_ok f obj h.
Proof.
  induction 1 as [|bufcap req h src now label dc _ IH Hd]; [apply heads_ok0|].
  pose proof (head_cache_transparent grow Hg f bufcap req obj h src now label dc IH Hd) as H.
  destruct (serializeResponse _ _ _ _ _ _ _ _ _ _) as [r h']. apply H.
Qed.

(** The hop-by-hop names, as stored: [TE] is stored as Te, which the list misses. *)
Definition hop_by_hop_stored : list bytes := [Hdr.Connection; Hdr.KeepAlive; Hdr.TransferEncoding; Hdr.Trailer; Hdr.Upgrade].

Lemma hop_by_hop_canonical (k : bytes) : canonicalize k = k -> k ∈ hop_by_hop <-> k ∈ hop_by_hop_stored.
Proof.
  intros Hk. unfold hop_by_hop, hop_by_hop_stored. rewrite !elem_of_cons, elem_of_nil.
  assert (k <> Hdr.TE) as Hte by (intros ->; discriminate Hk). tauto.
Qed.

(** C35. What a hit on the fast path sends, after any hits on the same object
    and whatever heads they left cached, is one well-formed HTTP/1.1 response,
    when the stored lines have names and no carriage return: the status line of
    the stored status, then field lines and an empty line, which is the first
    empty line of the response whatever the body, and the stored body (none for
    HEAD); the first of the buffers is the status line. The Connection, Age and
    X-Cache lines are there once, with the handler's values (the age at an instant
    of the request's second) and not the stored ones; Warning exactly on a stale
    hit; a Date only when none is stored; CDN-Cache-Control once on a syncing
    route. Of the other canonical names, every stored line is served, in order and
    unchanged, unless its name is internal, Connection, Keep-Alive,
    Transfer-Encoding, Trailer or Upgrade, listed by the stored Connection line or
    by no-cache, or (on a syncing route) of the CDN-Cache-Control family, and then
    none is. (So a stored Te line is served: [te_line_served].) *)
Theorem fast_head_wellformed (grow : Z -> Z -> Z) (Hg : GrowLaws grow) (f : FastPathHandler) (bufcap : Z) (req : Request)
    (obj : Object.t) (h h' : heads) (src : bytes) (now : Time) (label : bytes) (dc : date_cache) (r : fp_response)
    (Hh : rendered grow f obj h) (Hd : date_ok dc) (Hclean : clean_lines obj) (Hlabel : label = HIT \/ label = STALE)
    (Hr : serializeResponse grow f bufcap req obj h src now label (getCachedDate dc now).1 = (Some r, h')) :
  let stored := pairs (Object.Header obj) in
  let hidden k := k ∈ internal_headers ++ hop_by_hop_stored ++ parseNoCacheFieldNames (Object.CacheControl obj)
                      ++ (if Object.HasConnectionList obj then parseConnectionListedHeaders obj else [])
                  \/ fp_syncCDC f = true /\ isCDCFamilyHeader k = true in
  exists t fields, unix t = unix now /\
  resp_status_line r = bs "HTTP/1.1 " ++ itoa (Object.StatusCode obj) ++ [ch " "] ++ statusMessage (Object.StatusCode obj) ++ crlf /\
  resp_header_block r = concat (map (fun kv => kv.1 ++ bs ": " ++ kv.2 ++ crlf) fields) ++ crlf /\
  resp_body r = (if beq (H1Parser.Method req) (bs "HEAD") then [] else Object.Body obj) /\
  findHeaderEnd (wire r) = Some (length (resp_status_line r ++ resp_header_block r)) /\
  named Hdr.Connection fields = [(Hdr.Connection, if ConnectionClose req then bs "close" else bs "keep-alive")] /\
  named Hdr.Age fields = [(Hdr.Age, itoa (f64_trunc (d_seconds (ComputeAge obj t))))] /\
  named Hdr.XCache fields = [(Hdr.XCache, label)] /\
  length (named Hdr.Warning fields) = (if beq label STALE then 1 else 0)%nat /\
  (named Hdr.Date stored = [] -> Object.HasDate obj = false -> named Hdr.Date fields = [(Hdr.Date, formatHTTPDate now)]) /\
  (named Hdr.Date stored <> [] -> named Hdr.Date fields = [] \/ named Hdr.Date fields = named Hdr.Date stored) /\
  (fp_syncCDC f = true -> length (named Hdr.CDNCacheControl fields) = 1%nat) /\
  (forall k, canonicalize k = k -> k ∉ dynamic_names ->
     (hidden k -> named k fields = []) /\ (~ hidden k -> named k fields = named k stored)).
Proof.
  intros stored hidden. pose proof (rendered_ok grow Hg f obj h Hh) as Hok.
  destruct (served_buffers grow Hg f bufcap req obj h h' src now label dc r Hok Hd Hr) as (t & Et & Es & Eb & Ebody).
  exists t, (head_fields f obj t label (ConnectionClose req)).
  destruct (head_fields_exact f obj t label (resp_body r) (ConnectionClose req) Hclean Hlabel) as (H1 & H2 & H3 & H4 & H5 & H6 & H7 & H8 & H9).
  assert (resp_status_line r ++ resp_header_block r = fresh_head f obj t label (ConnectionClose req)) as Ehead.
  { rewrite Es, Eb. unfold fresh_head, head_text. by rewrite <- app_assoc. }
  rewrite <- (formatHTTPDate_unix _ _ Et). split_and!; try done.
  - rewrite Es. unfold status_text. by rewrite <- !app_assoc.
  - rewrite Eb. unfold lines_text. rewrite map_map. do 2 f_equal. apply map_ext. intros kv. unfold field_line. by rewrite <- !app_assoc.
  - unfold wire. by rewrite app_assoc, Ehead.
  - intros k Hk Hdyn. destruct (H9 k Hdyn) as [Ha Hb]. unfold hidden. rewrite !elem_of_app, <- (hop_by_hop_canonical k Hk), <- !elem_of_app.
    split; [exact Ha|exact Hb].
Qed.

(** ** The peer branch *)

Definition hint_count (req : Request) : nat :=
  length (List.filter id [OwnerMiss req; OwnerGateReject req; OwnerShed req; OwnerResolver req]).

(** What the owner was asked and answered, when it was asked. *)
Definition owner_answer (f : FastPathHandler) (key : Api.Key) : option peer_answer :=
  match fp_ownerFn f, fp_peerFetch f with
  | Some ownerFn, Some peerFetch =>
      let '(owner, isLocal) := ownerFn key in
      if isLocal : bool then None else Some (peerFetch owner key [])
  | _, _ => None
  end.

Lemma hint_none (req : Request) : hint_count req = 0%nat ->
  OwnerMiss req = false /\ OwnerGateReject req = false /\ OwnerShed req = false /\ OwnerResolver req = false.
Proof. unfold hint_count. destruct (OwnerMiss req), (OwnerGateReject req), (OwnerShed req), (OwnerResolver req); done. Qed.

Lemma restore_fields (o : Object.t) :
  Object.StatusCode (restore_transients o) = Object.StatusCode o /\
  Object.StaleWhileRevalidate (restore_transients o) = Object.StaleWhileRevalidate o /\
  Object.Key_ (restore_transients o) = Object.Key_ o /\
  (forall req, body_for req (restore_transients o) = body_for req o).
Proof. unfold restore_transients, body_for. by destruct (beq (Object.CacheControl o) []), (Object.HasDate o). Qed.

(** An outcome without a response. *)
Ltac no_peer := split_and!; [intros ? [=]| | |done]; unfold hint_count; cbn [out_req declined OwnerMiss OwnerGateReject OwnerShed OwnerResolver];
  repeat match goal with H : ?p ?r = false |- _ => rewrite H end; cbn; (lia || done).

(** C36. A peer's object is served only when it answers this request: the
    owner is another node and the request allows a fetch; the object is not
    the metadata of a resolver, and when it varies, its variant key is the one
    this request's headers select under the route's policy; its status and
    body are served, with the peer as source and labelled by the decision on
    the object with its transient fields restored. A request without hints
    gets at most one, and only when it is declined. *)
Theorem peer_fetch_gated (to_lower : bytes -> bytes) (Hlaws : LowerLaws to_lower) (sum64 : bytes -> Z) (grow : Z -> Z -> Z)
    (f : FastPathHandler) (bufcap : Z) (req : Request) (key : Api.Key) (now : Time) (dateStr : bytes) (cc : Directives)
    (H0 : hint_count req = 0%nat) :
  let out := tryPeerFetch to_lower sum64 grow f bufcap req key now dateStr cc in
  (forall r, out_resp out = Some r -> out_req out = req /\ OnlyIfCached cc = false /\
     exists o h, owner_answer f key = Some (PeerObject o h) /\ isPeerResolverMetadata o = false /\
       (Object.VaryValue o <> [] ->
          Object.VaryKey o = BuildVaryKey to_lower sum64 (Object.VaryValue o) (reqHeaderMapFromRaw (Headers req)) (fp_policy f)) /\
       resp_StatusCode r = Object.StatusCode o /\ resp_body r = body_for req o /\ resp_Source r = SourcePeer /\
       let o' := restore_transients o in
       let d := decision (evaluate (Some o') cc (respGateFromObject (Some o')) now) in
       (d = Hit /\ resp_CacheResult r = HIT /\ out_peerStale out = None \/
        d = StaleHit /\ resp_CacheResult r = STALE /\
        out_peerStale out = if fp_onPeerStale f && (0 <? Object.StaleWhileRevalidate o) then Some (peerStaleKey o key, o') else None)) /\
  (hint_count (out_req out) <= 1)%nat /\ (hint_count (out_req out) = 1%nat -> out_resp out = None) /\
  out_stale out = None.
Proof.
  destruct (hint_none req H0) as (M & G & S & R). unfold tryPeerFetch, owner_answer.
  destruct (fp_ownerFn f) as [ownerFn|]; [|no_peer].
  destruct (fp_peerFetch f) as [peerFetch|]; [|no_peer]. destruct (OnlyIfCached cc) eqn:Eo; [no_peer|].
  destruct (ownerFn key) as [owner isLocal]. destruct isLocal; [no_peer|].
  destruct (match fp_memo f with Some _ => _ | None => _ end); [no_peer|].
  destruct (negb (beq (configDerivedVary (fp_policy f)) [])); [no_peer|].
  destruct (peerFetch owner key []) as [o h| | |]; [|no_peer..].
  destruct (isPeerResolverMetadata o) eqn:Er; [no_peer|].
  destruct (peerGateMatchesVary _ _ _ _ _ _) eqn:Eg; cbn [negb]; [|no_peer]. unfold serve_decision.
  set (o' := restore_transients o).
  assert (Object.VaryValue o <> [] -> Object.VaryKey o =
    BuildVaryKey to_lower sum64 (Object.VaryValue o) (reqHeaderMapFromRaw (Headers req)) (fp_policy f)) as Hv.
  { intros Hne. unfold peerGateMatchesVary in Eg. rewrite (proj2 (beq_neq _ [])), varyKeyMatches_eq in Eg by done.
    symmetry. by apply beq_eq. }
  destruct (restore_fields o) as (F1 & F2 & F3 & F4). fold o' in F1, F2, F3, F4.
  destruct (decision _) eqn:Ed; try no_peer;
    (destruct (serializeResponse _ _ _ _ _ _ _ _ _ _) as [[r|] h'] eqn:Es; [|no_peer]);
    apply serializeResponse_fields in Es as (E1 & E2 & E3 & E4 & _ & _); cbn [out_resp out_req out_peerStale out_stale];
    (split_and!; [intros r' [= <-]; split_and!; [done..|]; exists o, h; rewrite E1, E2, F1, F4; split_and!; auto|lia..|done]).
  - right. unfold peerStaleKey. rewrite F2, F3. auto.
Qed.

(** ** What the code does on edge inputs *)

(** A buffer over the limit goes back to the pool, where it makes every later
    composition with it fail too. *)
Lemma oversize_buffer_stays (grow : Z -> Z -> Z) (Hg : GrowLaws grow) (f : FastPathHandler) (bufcap : Z) (req : Request)
    (obj : Object.t) (h : heads) (src : bytes) (now : Time) (label dateStr : bytes) (closeConn : bool) :
  maxFastPathHeaderBytes < bufcap ->
  (composeResponse grow f bufcap req obj h src now label dateStr closeConn).1 = None /\
  forall hbuf, maxFastPathHeaderBytes < composed_pool_put grow bufcap hbuf.
Proof.
  intros Hc. assert (forall n, maxFastPathHeaderBytes < grow bufcap n) as Hgrow.
  { intros n. destruct (Z.le_gt_cases n bufcap) as [L|L]; [by rewrite grow_keeps|]. pose proof (grow_fits bufcap n). lia. }
  split; [|intros hbuf; apply Hgrow]. unfold composeResponse. destruct (compose_head _ _ _ _ _ _ _) as [hbuf h'].
  by rewrite (proj2 (Z.ltb_lt _ _) (Hgrow _)).
Qed.

(** A stored TE line is served: the hop-by-hop list has TE, the stored name is Te. *)
Lemma te_line_served : skipStaticHeader (canonicalize (bs "TE")) [] [] false = false.
Proof. vm_compute. reflexivity. Qed.

Definition parsed (head : bytes) : Request :=
  match parseBuffer (bs "http") head (findHeaderEnd head) with Ok (req, _, _) => req | Err _ => reset_request [] end.
Definition get_with (lines : list string) : Request :=
  parsed (head_text (bs "GET /a HTTP/1.1") (map bs ("Host: h" :: lines)%string)).
(** What each path decides about [sample_object] for a request with these lines. *)
Definition both_decide (lines : list string) : option Decision * Decision :=
  let req := get_with lines in
  (cc ← qualifiesForFastPath req; Some (decision (evaluate (Some sample_object) cc (respGateFromObject (Some sample_object)) 0)),
   decision (evaluateFast (H1Parser.Method req) (Peek (fasthttp_view (Headers req))) (Some sample_object) 0)).

(** The last Cache-Control line counts here, the first on the slow path; and a
    blank after Pragma's value hides it here only. *)
Lemma fast_path_reads_other_directives :
  both_decide ["Cache-Control: max-age=60"] = (Some Hit, Hit) /\
  both_decide ["Cache-Control: no-cache"; "Cache-Control: max-age=60"] = (Some Hit, Revalidate) /\
  both_decide ["Pragma: no-cache "] = (Some Hit, Revalidate).
Proof. vm_compute. auto. Qed.

(** A blank after the User-Agent value hides a pattern that ends the text. *)
Lemma ua_blank_not_bypassed :
  let req := get_with ["User-Agent: xbot "] in
  let ua := compileUABypass [bs "*bot"] in
  ua_bypassed ua (Header (Headers req) (bs "User-Agent")) = false /\
  requestBypass false (newCookieNameScanner (map lower_byte) []) ua (view_ctx req false) = true.
Proof. vm_compute. auto. Qed.

(** The head is not a function of the second: the age of an object stored
    within a second grows within the next. *)
Lemma age_moves_within_second :
  let o := {| sample_object with Object.StoredAt := 500000000; Object.OriginAge := 0 |} in
  let t := 1200000000 in let t' := 1800000000 in
  unix t = unix t' /\ fresh_head plain_handler o t HIT false <> fresh_head plain_handler o t' HIT false.
Proof. vm_compute. split; [reflexivity|discriminate]. Qed.

(** ** Witnesses *)

Definition page_with_lines : Object.t :=
  {| page with Object.Header := AppendEntry (AppendEntry (AppendEntry NewMap (bs "Content-Type") (bs "text/html"))
                                 (bs "Keep-Alive") (bs "5")) (bs "Set-Cookie") (bs "a=1");
               Object.CacheControl := bs "max-age=60, no-cache=" ++ [x22] ++ bs "Set-Cookie" ++ [x22] |}.

Lemma grow_max : GrowLaws Z.max.
Proof. split; intros; lia. Qed.

Lemma fast_head_wellformed_witness :
  exists r h fields, serializeResponse Z.max plain_handler 4096 hit_request page_with_lines heads0 (bs "hot") 0 STALE
                       (getCachedDate date_cache0 0).1 = (Some r, h) /\
    findHeaderEnd (wire r) = Some (length (resp_status_line r ++ resp_header_block r)) /\
    resp_header_block r = concat (map (fun kv => kv.1 ++ bs ": " ++ kv.2 ++ crlf) fields) ++ crlf /\
    named (bs "Set-Cookie") fields = [] /\ named (bs "Content-Type") fields = [(bs "Content-Type", bs "text/html")].
Proof.
  assert (clean_lines page_with_lines) as Hc.
  { repeat (apply Forall_cons; split; [split_and!; [discriminate|no_cr_const..]|]). apply Forall_nil_2. }
  assert (date_ok date_cache0) as Hd by (intros s; discriminate).
  destruct (serializeResponse Z.max plain_handler 4096 hit_request page_with_lines heads0 (bs "hot") 0 STALE
              (getCachedDate date_cache0 0).1) as [[r|] h] eqn:Er; [|vm_compute in Er; discriminate Er].
  destruct (fast_head_wellformed Z.max grow_max plain_handler 4096 hit_request page_with_lines heads0 h (bs "hot") 0 STALE
              date_cache0 r (rendered_none _ _ _) Hd Hc (or_intror eq_refl) Er)
    as (t & fields & _ & _ & Hb & _ & He & _ & _ & _ & _ & _ & _ & _ & Hk).
  exists r, h, fields. split; [reflexivity|]. split; [exact He|]. split; [exact Hb|]. split.
  - apply Hk; [vm_compute; reflexivity|rewrite <- in_names_spec; vm_compute; discriminate|].
    left. rewrite <- in_names_spec. vm_compute. reflexivity.
  - etransitivity; [apply Hk|vm_compute; reflexivity]; [vm_compute; reflexivity|rewrite <- in_names_spec; vm_compute; discriminate|].
    rewrite <- in_names_spec. vm_compute. intuition discriminate.
Defined.

Lemma head_cache_transparent_witness :
  let '(r, h') := serializeResponse Z.max plain_handler 4096 hit_request page heads0 (bs "hot") 0 HIT (getCachedDate date_cache0 0).1 in
  heads_ok plain_handler page h' /\ r <> None.
Proof.
  assert (date_ok date_cache0) as Hd by (intros s; discriminate).
  pose proof (head_cache_transparent Z.max grow_max plain_handler 4096 hit_request page heads0 (bs "hot") 0 HIT date_cache0
                (heads_ok0 _ _) Hd) as H.
  destruct (serializeResponse _ _ _ _ _ _ _ _ _ _) as [r h']. destruct H as (H1 & _ & _ & H2). split; [exact H1|].
  apply H2. vm_compute. split; discriminate.
Defined.

Definition peer_page : Object.t := {| page with Object.VaryValue := []; Object.Body := bs "from the owner" |}.
Definition peer_handler : FastPathHandler :=
  {| plain_handler with fp_ownerFn := Some (fun _ => (bs "n2", false));
                        fp_peerFetch := Some (fun _ _ _ => PeerObject peer_page heads0) |}.

Lemma peer_fetch_gated_witness :
  exists r, out_resp (tryPeerFetch (map lower_byte) len Z.max peer_handler 4096 hit_request zero_key 0 [] Directives0) = Some r /\
    resp_Source r = SourcePeer.
Proof.
  destruct (out_resp (tryPeerFetch (map lower_byte) len Z.max peer_handler 4096 hit_request zero_key 0 [] Directives0)) as [r|] eqn:E.
  - exists r. split; [done|].
    destruct (peer_fetch_gated (map lower_byte) lower_laws_ascii len Z.max peer_handler 4096 hit_request zero_key 0 [] Directives0)
      as [H _]; [vm_compute; reflexivity|]. destruct (H r E) as (_ & _ & o & h & _ & _ & _ & _ & _ & Hs & _). exact Hs.
  - exfalso. revert E. vm_compute. discriminate.
Defined.
