(* ===== verification/WarmRecord.v ===== *)
(** * Records of the warm tier: src/internal/storage/warm/warm.go (and
      warm_mmap_linux.go)

    A segment file is a sequence of records: magic, key, body length, body,
    CRC-32C. [writeRecordAt] writes one with [pwritev] and completes a short
    write by hand; a record is read back from the mapping, by one read of its
    indexed size, or by three reads when the size is unknown; two scans walk a
    whole file. A file is its bytes; the outcome of each system call that
    writes is an argument (it may commit a part of the data and then fail);
    reads fail only at the end of the file. *)

From S2P Require Import Prelude GoStd Api Wal Snapshot Checkpoint.

Definition magicLive : Z := 0x424F5549.
Definition magicDead : Z := 0x44454144.

(** ** Writing *)

(** [crc32.Update] *)
Definition crc_Update (crc : Z) (data : bytes) : Z :=
  u32 (Z.lxor (fold_left crc_update data (Z.lxor crc (2^32 - 1))) (2^32 - 1)).

Definition record_header (magic : Z) (key : Key) (body : bytes) : bytes := put_le 4 magic ++ key ++ put_le 4 (len body).
Definition record_crc (hdr body : bytes) : Z :=
  let crc := crc_Update 0 hdr in
  if 0 <? len body then crc_Update crc body else crc.
Definition record_iov (magic : Z) (key : Key) (body : bytes) : list bytes :=
  let hdr := record_header magic key body in
  [hdr] ++ (if 0 <? len body then [body] else []) ++ [put_le 4 (record_crc hdr body)].

(** What a write at [off] leaves in a file: a gap reads as zeros. *)
Definition file_write (off : Z) (data file : bytes) : bytes :=
  match data with
  | [] => file
  | _ => take (Z.to_nat off) (file ++ replicate (Z.to_nat off - length file) x00) ++ data
         ++ drop (Z.to_nat off + length data) file
  end.

(** A call of [WriteAt]: bytes committed, without or with an error. *)
Inductive write_result : Type := Wrote (n : nat) | Failed (n : nat).

(** The retry loop over one buffer: the file, the results left for the next
    calls (none left: they succeed), the next offset, and whether it failed. *)
Fixpoint write_buf (outs : list write_result) (w : bytes) (off : Z) (file : bytes)
    : bytes * list write_result * Z * bool :=
  match w with
  | [] => (file, outs, off, false)
  | _ :: _ =>
      match outs with
      | [] => (file_write off w file, [], off + len w, false)
      | Failed n :: outs => (file_write off (take n w) file, outs, off, true)
      | Wrote n :: outs =>
          if (n =? 0)%nat then (file, outs, off, true)
          else write_buf outs (drop n w) (off + len (take n w)) (file_write off (take n w) file)
      end
  end.

(** The walk of [writeRemaining] over the buffers. *)
Fixpoint write_iov (outs : list write_result) (off remaining : Z) (iov : list bytes) (file : bytes) : bytes * bool :=
  match iov with
  | [] => (file, false)
  | buf :: iov =>
      if len buf <=? remaining then write_iov outs off (remaining - len buf) iov file
      else
        let '(file, outs, off, failed) := write_buf outs (drop (Z.to_nat remaining) buf) off file in
        if failed then (file, true) else write_iov outs off 0 iov file
  end.
Definition writeRemaining (outs : list write_result) (baseOffset : Z) (iov : list bytes) (alreadyWritten : Z) (file : bytes)
    : bytes * bool := write_iov outs baseOffset alreadyWritten iov file.

(** The results of one record's system calls: what [pwritev] returns (it has
    committed that many bytes when positive), then the [WriteAt] calls. *)
Record write_io : Type := MkIO { pwritev_n : Z; pwritev_err : bool; write_ats : list write_result }.

(** The file, and whether an error is returned. *)
Definition writeRecordAt (io : write_io) (file : bytes) (off magic : Z) (key : Key) (body : bytes) : bytes * bool :=
  let iov := record_iov magic key body in
  let n := pwritev_n io in
  let file := file_write off (take (Z.to_nat n) (concat iov)) file in
  if negb (pwritev_err io) && (n =? len (concat iov)) then (file, false)
  else if 0 <? n then writeRemaining (write_ats io) (off + n) iov n file
  else writeRemaining (write_ats io) off iov 0 file.

(** ** Reading *)

Inductive read_error : Type := ErrTornRecord | ErrCRC.

(** [f.ReadAt(buf, off)] with a buffer of [n] bytes; [None] is an EOF. *)
Definition ReadAt (file : bytes) (off n : Z) : option bytes :=
  if off + n <=? len file then Some (take (Z.to_nat n) (drop (Z.to_nat off) file)) else None.

Definition hdr_magic (buf : bytes) : Z := get_le (slice 0 4 buf).
Definition hdr_key (buf : bytes) : Key := slice 4 20 buf.
Definition hdr_bodyLen (buf : bytes) : Z := get_le (slice 20 24 buf).

Definition mk_rec (magic : Z) (key : Key) (body : bytes) (segID off : Z) : Rec :=
  {| RKey := key; Body := body; RSegID := segID; ROffset := off; IsTomb := magic =? magicDead |}.

(** The checks on a whole record in [buf]. *)
Definition check_record (buf : bytes) (segID off : Z) : result read_error Rec :=
  let bodyLen := hdr_bodyLen buf in
  if len buf - (HeaderLen + FooterLen) <? bodyLen then Err ErrTornRecord
  else
    let body := slice 24 (24 + Z.to_nat bodyLen) buf in
    let storedCRC := get_le (drop (length buf - 4) buf) in
    if negb (Checksum (take (length buf - 4) buf) =? storedCRC) then Err ErrCRC
    else Ok (mk_rec (hdr_magic buf) (hdr_key buf) body segID off).

Definition readRecordAtSingle (file : bytes) (segID off size : Z) : result read_error Rec :=
  if size <? HeaderLen + FooterLen then Err ErrTornRecord
  else match ReadAt file off size with
       | None => Err ErrTornRecord
       | Some buf => check_record buf segID off
       end.

Definition readRecordAtLegacy (file : bytes) (segID off : Z) : result read_error Rec :=
  match ReadAt file off HeaderLen with
  | None => Err ErrTornRecord
  | Some hdr =>
      let bodyLen := hdr_bodyLen hdr in
      match (if 0 <? bodyLen then ReadAt file (off + HeaderLen) bodyLen else Some []) with
      | None => Err ErrTornRecord
      | Some body =>
          match ReadAt file (off + HeaderLen + bodyLen) FooterLen with
          | None => Err ErrTornRecord
          | Some foot =>
              if negb (record_crc hdr body =? get_le foot) then Err ErrCRC
              else Ok (mk_rec (hdr_magic hdr) (hdr_key hdr) body segID off)
          end
      end
  end.

(** [None] is [nil, nil]: no mapping, or no size. *)
Definition readRecordAtMmap (mmap : option bytes) (segID off size : Z) : option (result read_error Rec) :=
  match mmap with
  | None => None
  | Some data =>
      if size <=? 0 then None
      else if len data <? off + size then Some (Err ErrTornRecord)
      else if size <? HeaderLen + FooterLen then Some (Err ErrTornRecord)
      else Some (check_record (take (Z.to_nat size) (drop (Z.to_nat off) data)) segID off)
  end.

Definition readRecordAt (mmap : option bytes) (file : bytes) (segID off size : Z) : result read_error Rec :=
  match readRecordAtMmap mmap segID off size with
  | Some r => r
  | None => if 0 <? size then readRecordAtSingle file segID off size else readRecordAtLegacy file segID off
  end.

(** ** Scanning *)

(** The loop of [scanSegment] over the mapped file from [off]: the records it
    calls back with and whether it ends without an error. *)
Fixpoint scan_loop (fuel : nat) (data : bytes) (segID off : Z) : scan_result :=
  match fuel with
  | O => {| delivered := []; scan_ok := true |}
  | S fuel =>
      if len data <=? off then {| delivered := []; scan_ok := true |}
      else if len data <? off + HeaderLen then {| delivered := []; scan_ok := true |}
      else
        let hdr := take 24 (drop (Z.to_nat off) data) in
        let bodyLen := hdr_bodyLen hdr in
        let recEnd := off + HeaderLen + bodyLen + FooterLen in
        if len data <? recEnd then {| delivered := []; scan_ok := true |}
        else
          let body := take (Z.to_nat bodyLen) (drop (Z.to_nat (off + HeaderLen)) data) in
          let storedCRC := get_le (take 4 (drop (Z.to_nat (off + HeaderLen + bodyLen)) data)) in
          if negb (record_crc hdr body =? storedCRC) then {| delivered := []; scan_ok := false |}
          else
            let rest := scan_loop fuel data segID recEnd in
            {| delivered := mk_rec (hdr_magic hdr) (hdr_key hdr) body segID off :: delivered rest; scan_ok := scan_ok rest |}
  end.
(** Each round consumes at least 28 bytes. *)
Definition scanSegment (file : bytes) (segID : Z) : scan_result := scan_loop (S (length file)) file segID 0.

Fixpoint scan_readat_loop (fuel : nat) (file : bytes) (segID off : Z) : scan_result :=
  match fuel with
  | O => {| delivered := []; scan_ok := true |}
  | S fuel =>
      if len file <=? off then {| delivered := []; scan_ok := true |}
      else match readRecordAtLegacy file segID off with
           | Err ErrTornRecord => {| delivered := []; scan_ok := true |}
           | Err ErrCRC => {| delivered := []; scan_ok := false |}
           | Ok rec =>
               let rest := scan_readat_loop fuel file segID (off + (HeaderLen + len (Body rec) + FooterLen)) in
               {| delivered := rec :: delivered rest; scan_ok := scan_ok rest |}
           end
  end.
Definition scanSegmentReadAt (file : bytes) (segID : Z) : scan_result := scan_readat_loop (S (length file)) file segID 0.

(** ** The checksum of a record *)

Lemma lxor_range (a b : Z) : 0 <= a < 2^32 -> 0 <= b < 2^32 -> 0 <= Z.lxor a b < 2^32.
Proof.
  intros Ha Hb. assert (0 <= Z.lxor a b) as Hn by (apply Z.lxor_nonneg; lia). split; [done|].
  destruct (Z.eq_dec (Z.lxor a b) 0) as [->|]; [lia|]. apply Z.log2_lt_pow2; [lia|].
  pose proof (Z.log2_lxor a b ltac:(lia) ltac:(lia)).
  assert (forall z, 0 <= z < 2^32 -> Z.log2 z < 32) as Hl.
  { intros z Hz. destruct (Z.eq_dec z 0) as [->|]; [done|]. apply Z.log2_lt_pow2; lia. }
  pose proof (Hl a Ha). pose proof (Hl b Hb). lia.
Qed.

Lemma crc_step_range (c : Z) : 0 <= c < 2^32 ->
  0 <= (if Z.testbit c 0 then Z.lxor (Z.shiftr c 1) crc_poly else Z.shiftr c 1) < 2^32.
Proof.
  intros Hc. assert (0 <= Z.shiftr c 1 < 2^32) by (rewrite Z.shiftr_div_pow2 by lia; change (2^1) with 2; Z.to_euclidean_division_equations; lia).
  destruct (Z.testbit c 0); [|done]. apply lxor_range; [done|]. by vm_compute.
Qed.

Lemma crc_bits_range (n : nat) : forall c, 0 <= c < 2^32 -> 0 <= crc_bits n c < 2^32.
Proof. induction n as [|n IH]; intros c Hc; [done|]. cbn [crc_bits]. by apply IH, crc_step_range. Qed.

Lemma crc_update_range (c : Z) (b : byte) : 0 <= c < 2^32 -> 0 <= crc_update c b < 2^32.
Proof.
  intros Hc. unfold crc_update. apply lxor_range.
  - apply crc_bits_range. apply lxor_range; [|pose proof (Zb_range b); lia].
    split; [apply Z.land_nonneg; lia|]. apply (Z.le_lt_trans _ 255); [|lia]. change 255 with (Z.ones 8) at 1.
    rewrite Z.land_ones by lia. pose proof (Z.mod_pos_bound c (2^8)). lia.
  - rewrite Z.shiftr_div_pow2 by lia. Z.to_euclidean_division_equations; lia.
Qed.

Lemma crc_fold_range (data : bytes) : forall c, 0 <= c < 2^32 -> 0 <= fold_left crc_update data c < 2^32.
Proof. induction data as [|b data IH]; intros c Hc; [done|]. cbn [fold_left]. by apply IH, crc_update_range. Qed.

Lemma record_crc_Checksum (hdr body : bytes) : record_crc hdr body = Checksum (hdr ++ body).
Proof.
  assert (crc_Update 0 hdr = Checksum hdr) as E by done.
  unfold record_crc. rewrite E. destruct body as [|b body]; [by rewrite app_nil_r|].
  replace (0 <? len (b :: body)) with true by (rewrite len_cons; pose proof (len_nonneg body); lia).
  unfold crc_Update, Checksum. rewrite fold_left_app. do 3 f_equal.
  pose proof (crc_fold_range hdr (2^32 - 1) ltac:(lia)) as Hr. set (c := fold_left crc_update hdr (2^32 - 1)) in *.
  rewrite u32_id by (apply lxor_range; lia). rewrite Z.lxor_assoc, Z.lxor_nilpotent. apply Z.lxor_0_r.
Qed.

(** ** Bytes at an offset *)

Definition holds_at (off : Z) (s file : bytes) : Prop := exists a b, file = a ++ s ++ b /\ len a = off.

Lemma holds_at_range (off : Z) (s file : bytes) : holds_at off s file -> 0 <= off /\ off + len s <= len file.
Proof. intros (a & b & -> & <-). rewrite !len_app. pose proof (len_nonneg a). pose proof (len_nonneg b). lia. Qed.

Lemma holds_at_read (off : Z) (s file : bytes) : holds_at off s file -> take (length s) (drop (Z.to_nat off) file) = s.
Proof.
  intros (a & b & -> & <-). unfold len. rewrite Nat2Z.id, drop_app_length. by rewrite take_app_length.
Qed.

Lemma holds_at_sub (off : Z) (s x t file : bytes) : holds_at off (s ++ x ++ t) file -> holds_at (off + len s) x file.
Proof. intros (a & b & -> & <-). exists (a ++ s), (t ++ b). rewrite len_app, <- !app_assoc. done. Qed.

Lemma holds_at_join (off : Z) (s t file : bytes) : holds_at off s file -> holds_at (off + len s) t file -> holds_at off (s ++ t) file.
Proof.
  intros (a & b & E1 & <-) (a' & b' & E2 & El). exists a, b'. split; [|done]. rewrite E1 in E2.
  rewrite app_assoc in E2. apply app_inj_1 in E2 as [<- E]; [|unfold len in El; rewrite length_app; lia].
  by rewrite E1, E, <- !app_assoc.
Qed.

Lemma ReadAt_holds (off : Z) (s file : bytes) (n : Z) : holds_at off s file -> n = len s -> ReadAt file off n = Some s.
Proof.
  intros H ->. pose proof (holds_at_range _ _ _ H). unfold ReadAt. rewrite (proj2 (Z.leb_le _ _)) by lia.
  unfold len. rewrite Nat2Z.id. by rewrite holds_at_read.
Qed.

(** Writing within or at the end of a file. *)
Lemma file_write_split (off : Z) (data file : bytes) : 0 <= off <= len file ->
  file_write off data file = take (Z.to_nat off) file ++ data ++ drop (Z.to_nat off + length data) file.
Proof.
  intros Ho. unfold file_write, len in *. destruct data as [|d data]; [|f_equal].
  - rewrite app_nil_l, Nat.add_0_r. by rewrite take_drop.
  - replace (Z.to_nat off - length file)%nat with O by lia. by rewrite app_nil_r.
Qed.

Lemma file_write_holds (off : Z) (data file : bytes) : 0 <= off <= len file -> holds_at off data (file_write off data file).
Proof.
  intros Ho. rewrite file_write_split by done. eexists _, _. split; [done|]. unfold len in *. rewrite length_take. lia.
Qed.

Lemma file_write_len (off : Z) (data file : bytes) : 0 <= off <= len file ->
  len (file_write off data file) = Z.max (len file) (off + len data).
Proof. intros Ho. rewrite file_write_split by done. unfold len in *. rewrite !length_app, length_take, length_drop. lia. Qed.

Lemma take_take_prefix {A} (n m : nat) (l : list A) : (n <= m)%nat -> take n (take m l) = take n l.
Proof. intros H. rewrite take_take. by rewrite Nat.min_l. Qed.

(** What lies before [off] stays, and no byte goes. *)
Definition kept (off : Z) (file file' : bytes) : Prop :=
  take (Z.to_nat off) file' = take (Z.to_nat off) file /\ len file <= len file'.

Lemma kept_refl (off : Z) (file : bytes) : kept off file file.
Proof. by split. Qed.

Lemma kept_trans (off off' : Z) (f1 f2 f3 : bytes) : off <= off' -> kept off f1 f2 -> kept off' f2 f3 -> kept off f1 f3.
Proof.
  intros Ho [H1 L1] [H2 L2]. split; [|lia]. rewrite <- H1.
  rewrite <- (take_take_prefix (Z.to_nat off) (Z.to_nat off') f3), <- (take_take_prefix (Z.to_nat off) (Z.to_nat off') f2) by lia.
  by rewrite H2.
Qed.

Lemma kept_holds (off o : Z) (file file' s : bytes) : kept off file file' -> holds_at o s file -> o + len s <= off ->
  holds_at o s file'.
Proof.
  intros [Hk Hl] (a & b & -> & <-) Ho. unfold len in *.
  exists a, (drop (length a + length s) file'). split; [|done].
  assert (take (length a + length s) file' = a ++ s) as E.
  { rewrite <- (take_take_prefix _ (Z.to_nat off)) by lia. rewrite Hk, take_take_prefix by lia.
    rewrite app_assoc, take_app_exact; [done|]. by rewrite length_app. }
  rewrite <- (take_drop (length a + length s) file') at 1. by rewrite E, <- app_assoc.
Qed.

Lemma file_write_kept (off : Z) (data file : bytes) : 0 <= off <= len file -> kept off file (file_write off data file).
Proof.
  intros Ho. split; [|rewrite file_write_len by done; lia]. rewrite file_write_split by done. unfold len in *.
  apply take_app_exact. rewrite length_take. lia.
Qed.

Lemma write_buf_spec (outs : list write_result) : forall w off file, 0 <= off <= len file ->
  let '(file', _, off', failed) := write_buf outs w off file in
  kept off file file' /\ (failed = false -> off' = off + len w /\ holds_at off w file').
Proof.
  assert (Hnil : forall off file, 0 <= off <= len file -> holds_at off [] file).
  { intros off file Ho. exists (take (Z.to_nat off) file), (drop (Z.to_nat off) file). rewrite app_nil_l, take_drop.
    split; [done|]. unfold len in *. rewrite length_take. lia. }
  induction outs as [|r outs IH]; intros w off file Ho; destruct w as [|c w]; cbn [write_buf].
  1,3: split; [apply kept_refl|]; intros _; change (len (@nil byte)) with 0; split; [lia|by apply Hnil].
  - split; [by apply file_write_kept|]. intros _. split; [done|by apply file_write_holds].
  - set (data := c :: w). destruct r as [n|n]; [|split; [by apply file_write_kept|done]].
    destruct (n =? 0)%nat; [split; [apply kept_refl|done]|].
    pose proof (file_write_len off (take n data) file Ho) as Hlen.
    pose proof (len_nonneg (take n data)). specialize (IH (drop n data) (off + len (take n data)) (file_write off (take n data) file) ltac:(lia)).
    destruct (write_buf outs _ _ _) as [[[file' outs'] off'] failed]. destruct IH as [Hk Hok]. split.
    + eapply kept_trans; [|by apply file_write_kept|exact Hk]. lia.
    + intros Hf. destruct (Hok Hf) as [-> Hh]. split.
      * rewrite <- Z.add_assoc, <- len_app. by rewrite take_drop.
      * rewrite <- (take_drop n data). apply holds_at_join; [|exact Hh].
        eapply kept_holds; [exact Hk|by apply file_write_holds|lia].
Qed.

Lemma write_iov_spec (iov : list bytes) : forall outs off rem file, 0 <= rem -> 0 <= off <= len file ->
  let '(file', failed) := write_iov outs off rem iov file in
  kept off file file' /\ (failed = false -> holds_at off (drop (Z.to_nat rem) (concat iov)) file').
Proof.
  induction iov as [|buf iov IH]; intros outs off rem file Hr Ho; cbn [write_iov concat].
  - split; [apply kept_refl|]. intros _. rewrite drop_nil. exists (take (Z.to_nat off) file), (drop (Z.to_nat off) file).
    rewrite app_nil_l, take_drop. split; [done|]. unfold len in *. rewrite length_take. lia.
  - destruct (len buf <=? rem) eqn:El.
    + apply Z.leb_le in El. specialize (IH outs off (rem - len buf) file ltac:(lia) Ho).
      destruct (write_iov _ _ _ _ _) as [file' failed]. destruct IH as [Hk Hh]. split; [done|]. intros Hf.
      rewrite drop_app, drop_ge, app_nil_l by (unfold len in *; lia).
      replace (Z.to_nat rem - length buf)%nat with (Z.to_nat (rem - len buf)) by (unfold len in *; lia). by apply Hh.
    + apply Z.leb_gt in El. pose proof (write_buf_spec outs (drop (Z.to_nat rem) buf) off file Ho) as Hw.
      destruct (write_buf _ _ _ _) as [[[f1 outs'] off'] failed]. destruct Hw as [Hk Hok].
      destruct failed; [by split|]. destruct (Hok eq_refl) as [-> Hh].
      pose proof (holds_at_range _ _ _ Hh). pose proof (len_nonneg (drop (Z.to_nat rem) buf)).
      specialize (IH outs' (off + len (drop (Z.to_nat rem) buf)) 0 f1 ltac:(lia) ltac:(lia)).
      destruct (write_iov _ _ _ _ _) as [f2 failed2]. destruct IH as [Hk2 Hh2]. split.
      * eapply kept_trans; [|exact Hk|exact Hk2]. lia.
      * intros Hf. rewrite drop_app_le by (unfold len in *; lia). apply holds_at_join.
        -- eapply kept_holds; [exact Hk2|exact Hh|lia].
        -- by apply Hh2.
Qed.

(** No write goes beyond the end of its data. *)
Lemma write_buf_len (outs : list write_result) : forall w off file, 0 <= off <= len file ->
  let '(file', _, off', _) := write_buf outs w off file in off <= off' <= off + len w /\ len file' <= Z.max (len file) (off + len w).
Proof.
  induction outs as [|r outs IH]; intros w off file Ho; destruct w as [|c w]; cbn [write_buf].
  1,3: change (len (@nil byte)) with 0; lia.
  - rewrite file_write_len by done. rewrite len_cons. pose proof (len_nonneg w). lia.
  - generalize (c :: w). intros data. assert (forall n, 0 <= len (take n data) <= len data) as Ht.
    { intros n. unfold len. rewrite length_take. lia. }
    destruct r as [n|n]; [|rewrite file_write_len by done; specialize (Ht n); lia].
    destruct (n =? 0)%nat; [specialize (Ht O); lia|]. pose proof (file_write_len off (take n data) file Ho) as Hl. specialize (Ht n).
    specialize (IH (drop n data) (off + len (take n data)) (file_write off (take n data) file) ltac:(lia)).
    destruct (write_buf outs _ _ _) as [[[file' outs'] off'] failed]. rewrite Hl in IH.
    assert (len (drop n data) = len data - len (take n data)) as Ed by (unfold len; rewrite length_take, length_drop; lia).
    destruct IH as [? IH]. split; [lia|]. rewrite <- Z.max_assoc, (Z.max_r (off + len (take n data))) in IH by lia. lia.
Qed.

Lemma write_iov_len (iov : list bytes) : forall outs off rem file, 0 <= rem -> 0 <= off <= len file ->
  len (write_iov outs off rem iov file).1 <= Z.max (len file) (off + len (drop (Z.to_nat rem) (concat iov))).
Proof.
  induction iov as [|buf iov IH]; intros outs off rem file Hr Ho; cbn [write_iov concat]; [cbn [fst]; lia|].
  destruct (len buf <=? rem) eqn:El.
  - apply Z.leb_le in El. specialize (IH outs off (rem - len buf) file ltac:(lia) Ho).
    rewrite drop_app, drop_ge, app_nil_l by (unfold len in *; lia).
    replace (Z.to_nat rem - length buf)%nat with (Z.to_nat (rem - len buf)) by (unfold len in *; lia). done.
  - apply Z.leb_gt in El. pose proof (write_buf_len outs (drop (Z.to_nat rem) buf) off file Ho) as Hw.
    pose proof (write_buf_spec outs (drop (Z.to_nat rem) buf) off file Ho) as Hs.
    rewrite drop_app_le, len_app by (unfold len in *; lia). pose proof (len_nonneg (concat iov)).
    destruct (write_buf _ _ _ _) as [[[f1 outs'] off'] failed]. destruct failed; [cbn [fst]; lia|].
    destruct Hs as [[_ Hk] Hs]. destruct (Hs eq_refl) as [-> Hh]. apply holds_at_range in Hh.
    pose proof (len_nonneg (drop (Z.to_nat rem) buf)).
    specialize (IH outs' (off + len (drop (Z.to_nat rem) buf)) 0 f1 ltac:(lia) ltac:(lia)). rewrite drop_0 in IH. lia.
Qed.

(** The bytes of a record. *)
Definition encodeRecord (magic : Z) (key : Key) (body : bytes) : bytes := concat (record_iov magic key body).
Definition recSize (body : bytes) : Z := HeaderLen + len body + FooterLen.

Lemma encodeRecord_eq (magic : Z) (key : Key) (body : bytes) :
  encodeRecord magic key body =
  let hdr := record_header magic key body in hdr ++ body ++ put_le 4 (Checksum (hdr ++ body)).
Proof.
  unfold encodeRecord, record_iov. rewrite <- record_crc_Checksum. cbv zeta.
  destruct (0 <? len body) eqn:E; cbn [app concat]; rewrite app_nil_r; [done|].
  destruct body as [|b body]; [done|]. rewrite len_cons in E. pose proof (len_nonneg body). lia.
Qed.

Lemma record_header_len (magic : Z) (key : Key) (body : bytes) : wf_key key -> length (record_header magic key body) = 24%nat.
Proof. unfold wf_key. intros Hk. unfold record_header. by rewrite !length_app, !length_put_le, Hk. Qed.

Lemma encodeRecord_len (magic : Z) (key : Key) (body : bytes) : wf_key key -> len (encodeRecord magic key body) = recSize body.
Proof.
  intros Hk. rewrite encodeRecord_eq. cbv zeta. rewrite !len_app, len_put_le.
  unfold len at 1. rewrite record_header_len by done. unfold recSize, HeaderLen, FooterLen. lia.
Qed.

(** [pwritev] commits at most what it is given; a larger count changes nothing. *)
Definition io_ok (io : write_io) (magic : Z) (key : Key) (body : bytes) : Prop :=
  pwritev_n io <= len (encodeRecord magic key body).

Lemma writeRecordAt_spec_in (io : write_io) (file : bytes) (off magic : Z) (key : Key) (body : bytes) :
  0 <= off <= len file -> io_ok io magic key body ->
  let '(file', failed) := writeRecordAt io file off magic key body in
  kept off file file' /\ (failed = false -> holds_at off (encodeRecord magic key body) file').
Proof.
  intros Ho Hio. unfold writeRecordAt, io_ok, writeRemaining, encodeRecord in *. set (iov := record_iov magic key body) in *.
  set (n := pwritev_n io) in *. set (f1 := file_write off (take (Z.to_nat n) (concat iov)) file).
  pose proof (file_write_kept off (take (Z.to_nat n) (concat iov)) file Ho) as Hk1. fold f1 in Hk1.
  pose proof (file_write_holds off (take (Z.to_nat n) (concat iov)) file Ho) as Hh1. fold f1 in Hh1.
  pose proof (holds_at_range _ _ _ Hh1) as [_ Hr].
  destruct (negb (pwritev_err io) && (n =? len (concat iov))) eqn:E1.
  - split; [done|]. intros _. apply andb_true_iff in E1 as [_ E1%Z.eqb_eq].
    rewrite take_ge in Hh1 by (unfold len in *; lia). done.
  - destruct (0 <? n) eqn:E2.
    + apply Z.ltb_lt in E2. assert (len (take (Z.to_nat n) (concat iov)) = n) as El by (unfold len in *; rewrite length_take; lia).
      pose proof (write_iov_spec iov (write_ats io) (off + n) n f1 ltac:(lia) ltac:(lia)) as Hw.
      destruct (write_iov _ _ _ _ _) as [f2 failed]. destruct Hw as [Hk2 Hh2]. split; [eapply kept_trans; [|exact Hk1|exact Hk2]; lia|].
      intros Hf. rewrite <- (take_drop (Z.to_nat n) (concat iov)). apply holds_at_join; [|rewrite El; by apply Hh2].
      eapply kept_holds; [exact Hk2|exact Hh1|lia].
    + apply Z.ltb_ge in E2. destruct Hk1 as [Hk1 Hl1].
      pose proof (write_iov_spec iov (write_ats io) off 0 f1 ltac:(lia) ltac:(lia)) as Hw.
      destruct (write_iov _ _ _ _ _) as [f2 failed]. destruct Hw as [Hk2 Hh2]. split; [eapply kept_trans; [|split; [exact Hk1|exact Hl1]|exact Hk2]; lia|].
      exact Hh2.
Qed.

Lemma writeRecordAt_len_in (io : write_io) (file : bytes) (off magic : Z) (key : Key) (body : bytes) :
  0 <= off <= len file -> io_ok io magic key body ->
  len (writeRecordAt io file off magic key body).1 <= Z.max (len file) (off + len (encodeRecord magic key body)).
Proof.
  intros Ho Hio. unfold writeRecordAt, io_ok, writeRemaining, encodeRecord in *. set (iov := record_iov magic key body) in *.
  set (n := pwritev_n io) in *. set (d := take (Z.to_nat n) (concat iov)).
  assert (len d = Z.max 0 n) as Hd by (unfold d, len in *; rewrite length_take; lia).
  pose proof (file_write_len off d file Ho) as Hl. pose proof (len_nonneg (concat iov)).
  destruct (negb _ && _); [cbn [fst]; lia|]. destruct (0 <? n) eqn:E.
  - pose proof (write_iov_len iov (write_ats io) (off + n) n (file_write off d file) ltac:(lia) ltac:(lia)) as Hw.
    assert (len (drop (Z.to_nat n) (concat iov)) = len (concat iov) - n) by (unfold len in *; rewrite length_drop; lia). lia.
  - pose proof (write_iov_len iov (write_ats io) off 0 (file_write off d file) ltac:(lia) ltac:(lia)) as Hw. rewrite drop_0 in Hw. lia.
Qed.

Lemma write_iov_skip (iov : list bytes) : forall outs off rem file, len (concat iov) <= rem -> write_iov outs off rem iov file = (file, false).
Proof.
  induction iov as [|buf iov IH]; intros outs off rem file Hr; [done|]. cbn [write_iov concat] in *. rewrite len_app in Hr.
  pose proof (len_nonneg (concat iov)). rewrite (proj2 (Z.leb_le _ _)) by lia. apply IH. lia.
Qed.

Lemma writeRecordAt_over (io : write_io) (file : bytes) (off magic : Z) (key : Key) (body : bytes) :
  len (encodeRecord magic key body) < pwritev_n io ->
  writeRecordAt io file off magic key body = writeRecordAt (MkIO (len (encodeRecord magic key body)) true (write_ats io)) file off magic key body.
Proof.
  intros Hn. unfold writeRecordAt, writeRemaining. cbn [pwritev_n pwritev_err write_ats negb andb]. fold (encodeRecord magic key body).
  pose proof (len_nonneg (encodeRecord magic key body)) as Hp. rewrite (proj2 (Z.eqb_neq _ _)) by lia. rewrite andb_false_r.
  rewrite (proj2 (Z.ltb_lt 0 (pwritev_n io))) by lia. rewrite write_iov_skip by (fold (encodeRecord magic key body); lia).
  rewrite !take_ge by (unfold len in *; lia). destruct (0 <? len (encodeRecord magic key body)) eqn:E.
  - by rewrite write_iov_skip by (fold (encodeRecord magic key body); lia).
  - by rewrite write_iov_skip by (fold (encodeRecord magic key body); lia).
Qed.

Lemma writeRecordAt_spec (io : write_io) (file : bytes) (off magic : Z) (key : Key) (body : bytes) : 0 <= off <= len file ->
  let '(file', failed) := writeRecordAt io file off magic key body in
  kept off file file' /\ (failed = false -> holds_at off (encodeRecord magic key body) file').
Proof.
  intros Ho. destruct (Z.le_gt_cases (pwritev_n io) (len (encodeRecord magic key body))) as [H|H]; [by apply writeRecordAt_spec_in|].
  rewrite writeRecordAt_over by lia. apply writeRecordAt_spec_in; [done|]. apply Z.le_refl.
Qed.

Lemma writeRecordAt_len (io : write_io) (file : bytes) (off magic : Z) (key : Key) (body : bytes) : 0 <= off <= len file ->
  len (writeRecordAt io file off magic key body).1 <= Z.max (len file) (off + len (encodeRecord magic key body)).
Proof.
  intros Ho. destruct (Z.le_gt_cases (pwritev_n io) (len (encodeRecord magic key body))) as [H|H]; [by apply writeRecordAt_len_in|].
  rewrite writeRecordAt_over by lia. apply writeRecordAt_len_in; [done|]. apply Z.le_refl.
Qed.

(** A record written at the end of a file extends it by its bytes. *)
Lemma writeRecordAt_append (io : write_io) (file file' : bytes) (magic : Z) (key : Key) (body : bytes) :
  writeRecordAt io file (len file) magic key body = (file', false) ->
  file' = file ++ encodeRecord magic key body.
Proof.
  intros Hw. pose proof (len_nonneg file).
  pose proof (writeRecordAt_spec io file (len file) magic key body ltac:(lia)) as Hs.
  pose proof (writeRecordAt_len io file (len file) magic key body ltac:(lia)) as Hl. rewrite Hw in Hs, Hl.
  destruct Hs as [[Hk _] Hh]. destruct (Hh eq_refl) as (a & b & -> & Ha). cbn [fst] in Hl. rewrite !len_app in Hl.
  rewrite <- Ha in Hk. unfold len in *. rewrite Nat2Z.id, take_app_length, take_ge in Hk by lia. subst a.
  assert (b = []) as -> by (apply length_zero_iff_nil; rewrite ?length_app in *; lia). by rewrite app_nil_r.
Qed.

(** ** Reading back *)

(** What the format can represent. *)
Definition rec_ok (magic : Z) (key : Key) (body : bytes) : Prop := in_u32 magic /\ wf_key key /\ len body < 2^32.

Lemma header_fields (magic : Z) (key : Key) (body t : bytes) : rec_ok magic key body ->
  hdr_magic (record_header magic key body ++ t) = magic /\ hdr_key (record_header magic key body ++ t) = key /\
  hdr_bodyLen (record_header magic key body ++ t) = len body.
Proof.
  intros (Hm & Hk & Hb). unfold wf_key in Hk. unfold hdr_magic, hdr_key, hdr_bodyLen, record_header. rewrite <- !app_assoc. split_and!.
  - replace (slice 0 4 _) with (put_le 4 magic) by (symmetry; by apply (slice_app 0 4 [])).
    rewrite get_put_le4. by apply u32_id.
  - apply slice_app; [by rewrite length_put_le|by rewrite Hk].
  - rewrite app_assoc, slice_app; [|by rewrite length_app, length_put_le, Hk|by rewrite length_put_le].
    rewrite get_put_le4. apply u32_id. pose proof (len_nonneg body). unfold in_u32. lia.
Qed.

Lemma check_record_ok (magic : Z) (key : Key) (body : bytes) (segID off : Z) : rec_ok magic key body ->
  check_record (encodeRecord magic key body) segID off = Ok (mk_rec magic key body segID off).
Proof.
  intros H. pose proof H as (_ & Hk & _). pose proof (encodeRecord_len magic key body Hk) as Hl.
  pose proof (record_header_len magic key body Hk) as Hh. unfold check_record.
  rewrite encodeRecord_eq in *. cbv zeta in *. set (hdr := record_header magic key body) in *.
  set (rec := hdr ++ body ++ put_le 4 _) in *.
  destruct (header_fields magic key body (body ++ put_le 4 (Checksum (hdr ++ body))) H) as (E1 & E2 & E3).
  fold hdr rec in E1, E2, E3. rewrite E1, E2, E3, Hl. unfold recSize. rewrite (proj2 (Z.ltb_ge _ _)) by lia.
  assert (length rec - 4 = length (hdr ++ body))%nat as E4 by (unfold rec; rewrite !length_app, length_put_le; lia).
  rewrite E4. unfold rec. rewrite app_assoc, drop_app_length, take_app_length, get_put_le4.
  rewrite u32_id by apply Checksum_range. rewrite Z.eqb_refl. cbn [negb]. do 2 f_equal.
  unfold len. rewrite Nat2Z.id, <- app_assoc. by apply slice_app.
Qed.

Lemma holds_at_take (off : Z) (s file : bytes) (n : nat) : holds_at off s file -> off + len s <= Z.of_nat n ->
  holds_at off s (take n file).
Proof.
  intros (a & b & -> & <-) Hn. unfold len in *. exists a, (take (n - length a - length s) b). split; [|done].
  rewrite !take_app, !(take_ge a), (take_ge s) by lia. done.
Qed.

Section ReadBack.
Context (magic : Z) (key : Key) (body : bytes) (Hok : rec_ok magic key body).
Context (file : bytes) (off : Z) (Hat : holds_at off (encodeRecord magic key body) file) (segID : Z).

Lemma rec_size_pos : HeaderLen + FooterLen <= recSize body.
Proof. unfold recSize. pose proof (len_nonneg body). lia. Qed.

Lemma readRecordAtSingle_ok : readRecordAtSingle file segID off (recSize body) = Ok (mk_rec magic key body segID off).
Proof.
  pose proof rec_size_pos. destruct Hok as (_ & Hk & _). unfold readRecordAtSingle. rewrite (proj2 (Z.ltb_ge _ _)) by lia.
  rewrite (ReadAt_holds off (encodeRecord magic key body)) by (done || by rewrite encodeRecord_len).
  by apply check_record_ok.
Qed.

Lemma readRecordAtLegacy_ok : readRecordAtLegacy file segID off = Ok (mk_rec magic key body segID off).
Proof.
  pose proof Hok as (_ & Hk & _). unfold readRecordAtLegacy. pose proof Hat as Hat'. rewrite encodeRecord_eq in Hat'. cbv zeta in Hat'.
  set (hdr := record_header magic key body) in *. pose proof (record_header_len magic key body Hk) as Hh. fold hdr in Hh.
  assert (holds_at off hdr file) as H1.
  { destruct Hat' as (a & b & -> & <-). exists a, ((body ++ put_le 4 (Checksum (hdr ++ body))) ++ b).
    by rewrite <- !app_assoc. }
  assert (holds_at (off + HeaderLen) body file) as H2.
  { replace HeaderLen with (len hdr) by (unfold len; rewrite Hh; done). by eapply holds_at_sub. }
  assert (holds_at (off + HeaderLen + len body) (put_le 4 (Checksum (hdr ++ body))) file) as H3.
  { replace (off + HeaderLen + len body) with (off + len (hdr ++ body)) by (rewrite len_app; unfold len, HeaderLen in *; lia).
    apply (holds_at_sub off (hdr ++ body) _ []). by rewrite app_nil_r, <- app_assoc. }
  rewrite (ReadAt_holds off hdr) by (done || (unfold len; by rewrite Hh)).
  destruct (header_fields magic key body [] Hok) as (E1 & E2 & E3). fold hdr in E1, E2, E3. rewrite app_nil_r in E1, E2, E3.
  rewrite E1, E2, E3. assert ((if 0 <? len body then ReadAt file (off + HeaderLen) (len body) else Some []) = Some body) as ->.
  { destruct (0 <? len body) eqn:E; [by apply ReadAt_holds|]. destruct body as [|c b]; [done|].
    rewrite len_cons in E. pose proof (len_nonneg b). lia. }
  rewrite (ReadAt_holds _ _ _ _ H3) by (by rewrite len_put_le).
  rewrite record_crc_Checksum, get_put_le4, u32_id by apply Checksum_range. by rewrite Z.eqb_refl.
Qed.

Lemma readRecordAtMmap_ok (n : nat) : off + recSize body <= Z.of_nat n ->
  readRecordAtMmap (Some (take n file)) segID off (recSize body) = Some (Ok (mk_rec magic key body segID off)).
Proof.
  intros Hn. pose proof rec_size_pos. pose proof Hok as (_ & Hk & _). unfold readRecordAtMmap.
  change (HeaderLen + FooterLen) with 28 in *.
  pose proof (holds_at_range _ _ _ Hat) as [Ho Hr]. rewrite encodeRecord_len in Hr by done.
  assert (holds_at off (encodeRecord magic key body) (take n file)) as Ht.
  { apply holds_at_take; [done|]. rewrite encodeRecord_len by done. lia. }
  pose proof (holds_at_range _ _ _ Ht) as [_ Hr']. rewrite encodeRecord_len in Hr' by done.
  rewrite (proj2 (Z.leb_gt _ _)), !(proj2 (Z.ltb_ge _ _)) by lia. do 2 f_equal.
  pose proof (holds_at_read _ _ _ Ht) as E. pose proof (encodeRecord_len magic key body Hk) as El.
  replace (Z.to_nat (recSize body)) with (length (encodeRecord magic key body)) by (unfold len in El; lia).
  rewrite E. by apply check_record_ok.
Qed.

(** Whichever path reads it: the mapping (of the file as far as the record at
    least), one read, or three. *)
Lemma readRecordAt_ok (mmap : option bytes) (size : Z) : size = recSize body \/ size = 0 ->
  (forall data, mmap = Some data -> exists n, data = take n file /\ off + recSize body <= Z.of_nat n) ->
  readRecordAt mmap file segID off size = Ok (mk_rec magic key body segID off).
Proof.
  intros Hs Hm. unfold readRecordAt. pose proof rec_size_pos as Hp. change (HeaderLen + FooterLen) with 28 in Hp.
  destruct Hs as [-> | ->].
  - destruct mmap as [data|]; [destruct (Hm data eq_refl) as (n & -> & Hn); by rewrite readRecordAtMmap_ok|].
    cbn [readRecordAtMmap]. rewrite (proj2 (Z.ltb_lt _ _)) by lia. apply readRecordAtSingle_ok.
  - destruct mmap as [data|]; cbn [readRecordAtMmap Z.leb Z.compare]; apply readRecordAtLegacy_ok.
Qed.
End ReadBack.

(** ** Scans *)

(** The fallback scan is the scan. *)
Lemma scan_loops_agree (fuel : nat) (file : bytes) (segID : Z) : forall off, 0 <= off ->
  scan_readat_loop fuel file segID off = scan_loop fuel file segID off.
Proof.
  induction fuel as [|fuel IH]; intros off Ho; [done|]. cbn [scan_readat_loop scan_loop].
  destruct (len file <=? off) eqn:E0; [done|]. unfold readRecordAtLegacy, ReadAt at 1.
  change (Z.to_nat HeaderLen) with 24%nat. rewrite (Z.leb_antisym (len file) (off + HeaderLen)).
  destruct (len file <? off + HeaderLen) eqn:E1; cbn [negb]; [done|]. set (hdr := take 24 (drop (Z.to_nat off) file)).
  set (bl := hdr_bodyLen hdr). assert (0 <= bl) as Hbl by (unfold bl, hdr_bodyLen; apply get_le_range).
  assert (Hf : ReadAt file (off + HeaderLen + bl) FooterLen =
     if len file <? off + HeaderLen + bl + FooterLen then None else Some (take 4 (drop (Z.to_nat (off + HeaderLen + bl)) file)))
    by (unfold ReadAt; rewrite (Z.leb_antisym (len file)); by destruct (len file <? off + HeaderLen + bl + FooterLen)).
  assert (Hb : (if 0 <? bl then ReadAt file (off + HeaderLen) bl else Some []) =
     if len file <? off + HeaderLen + bl then None else Some (take (Z.to_nat bl) (drop (Z.to_nat (off + HeaderLen)) file))).
  { unfold ReadAt. rewrite (Z.leb_antisym (len file)). destruct (0 <? bl) eqn:Ez; [by destruct (len file <? off + HeaderLen + bl)|].
    replace bl with 0 by lia. rewrite Z.add_0_r, E1. done. }
  rewrite Hb. destruct (len file <? off + HeaderLen + bl) eqn:E2.
  { rewrite (proj2 (Z.ltb_lt _ (_ + FooterLen))); [done|]. unfold FooterLen. lia. }
  rewrite Hf. destruct (len file <? off + HeaderLen + bl + FooterLen) eqn:E3; [done|].
  set (body := take (Z.to_nat bl) _). destruct (negb _); [done|]. cbn [Body mk_rec].
  assert (len body = bl) as El.
  { unfold body, len in *. rewrite length_take, length_drop. unfold HeaderLen in *. lia. }
  rewrite El. replace (off + (HeaderLen + bl + FooterLen)) with (off + HeaderLen + bl + FooterLen) by lia.
  rewrite IH by (unfold HeaderLen, FooterLen; lia). done.
Qed.

(** *** The scan of a log *)

Record logged : Type := MkLogged { lg_magic : Z; lg_key : Key; lg_body : bytes }.
Definition lg_ok (e : logged) : Prop := rec_ok (lg_magic e) (lg_key e) (lg_body e).
Definition lg_enc (e : logged) : bytes := encodeRecord (lg_magic e) (lg_key e) (lg_body e).
Definition log_text (es : list logged) : bytes := concat (map lg_enc es).
(** The records of a log that starts at [off]. *)
Fixpoint log_recs (segID off : Z) (es : list logged) : list Rec :=
  match es with
  | [] => []
  | e :: es => mk_rec (lg_magic e) (lg_key e) (lg_body e) segID off :: log_recs segID (off + recSize (lg_body e)) es
  end.

(** A tail too short for the record it starts. *)
Definition torn (t : bytes) : Prop := len t < HeaderLen \/ len t < HeaderLen + hdr_bodyLen (take 24 t) + FooterLen.

Lemma scan_loop_torn (fuel : nat) (pre t : bytes) (segID : Z) : torn t ->
  scan_loop fuel (pre ++ t) segID (len pre) = {| delivered := []; scan_ok := true |}.
Proof.
  intros Ht. destruct fuel; [done|]. cbn [scan_loop]. rewrite len_app.
  destruct (len pre + len t <=? len pre); [done|]. destruct (len pre + len t <? len pre + HeaderLen) eqn:E; [done|].
  assert (drop (Z.to_nat (len pre)) (pre ++ t) = t) as -> by (unfold len; rewrite Nat2Z.id; apply drop_app_length).
  destruct Ht as [Ht|Ht]; [lia|]. by rewrite (proj2 (Z.ltb_lt _ (_ + FooterLen))) by lia.
Qed.

Lemma scan_loop_rec (fuel : nat) (e : logged) (pre rest : bytes) (segID : Z) : lg_ok e ->
  scan_loop (S fuel) (pre ++ lg_enc e ++ rest) segID (len pre) =
  let r := scan_loop fuel (pre ++ lg_enc e ++ rest) segID (len pre + recSize (lg_body e)) in
  {| delivered := mk_rec (lg_magic e) (lg_key e) (lg_body e) segID (len pre) :: delivered r; scan_ok := scan_ok r |}.
Proof.
  intros He. pose proof He as (_ & Hk & _). set (file := pre ++ lg_enc e ++ rest).
  assert (holds_at (len pre) (lg_enc e) file) as Hat by (by exists pre, rest).
  rewrite <- (scan_loops_agree (S fuel)) by apply len_nonneg. cbn [scan_readat_loop].
  pose proof (holds_at_range _ _ _ Hat) as [_ Hr]. unfold lg_enc in Hr. rewrite encodeRecord_len in Hr by done.
  pose proof (rec_size_pos (lg_body e)) as Hp. change (HeaderLen + FooterLen) with 28 in Hp.
  rewrite (proj2 (Z.leb_gt _ _)) by lia. rewrite (readRecordAtLegacy_ok _ _ _ He _ _ Hat).
  cbn [Body mk_rec]. rewrite scan_loops_agree by (unfold recSize in *; pose proof (len_nonneg pre); lia). done.
Qed.

Lemma scan_loop_log (es : list logged) (t : bytes) (segID : Z) : Forall lg_ok es -> torn t ->
  forall pre fuel, (length es < fuel)%nat ->
  scan_loop fuel (pre ++ log_text es ++ t) segID (len pre) = {| delivered := log_recs segID (len pre) es; scan_ok := true |}.
Proof.
  intros He Ht. induction He as [|e es He Hes IH]; intros pre fuel Hf; [by apply scan_loop_torn|].
  destruct fuel as [|fuel]; [simpl in Hf; lia|]. unfold log_text. cbn [map concat]. rewrite <- app_assoc, scan_loop_rec by done.
  pose proof He as (_ & Hk & _). rewrite app_assoc.
  replace (len pre + recSize (lg_body e)) with (len (pre ++ lg_enc e)) by (rewrite len_app; unfold lg_enc; by rewrite encodeRecord_len).
  rewrite IH by (simpl in Hf; lia). cbn [delivered scan_ok log_recs]. rewrite len_app. unfold lg_enc.
  by rewrite encodeRecord_len.
Qed.

Lemma log_text_length (es : list logged) : Forall lg_ok es -> (length es <= length (log_text es))%nat.
Proof.
  induction 1 as [|e es He _ IH]; [simpl; lia|]. unfold log_text in *. cbn [map concat length]. rewrite length_app.
  destruct He as (_ & Hk & _). pose proof (encodeRecord_len (lg_magic e) (lg_key e) (lg_body e) Hk) as El.
  pose proof (rec_size_pos (lg_body e)) as Hp. change (HeaderLen + FooterLen) with 28 in Hp. unfold lg_enc, len in *. lia.
Qed.

Lemma torn_prefix (e : logged) (p q : bytes) : lg_ok e -> lg_enc e = p ++ q -> q <> [] -> torn p.
Proof.
  intros He E Hq. pose proof He as (_ & Hk & _). unfold torn. destruct (Z.lt_ge_cases (len p) HeaderLen) as [H|H]; [by left|right].
  assert (take 24 p = record_header (lg_magic e) (lg_key e) (lg_body e)) as ->.
  { pose proof (record_header_len (lg_magic e) (lg_key e) (lg_body e) Hk) as Hh.
    assert (take 24 (p ++ q) = take 24 p) as <- by (apply take_app_le; unfold len, HeaderLen in *; lia).
    rewrite <- E. unfold lg_enc. rewrite encodeRecord_eq. cbv zeta. rewrite <- Hh. apply take_app_length. }
  destruct (header_fields _ _ _ [] He) as (_ & _ & El). rewrite app_nil_r in El. rewrite El.
  pose proof (encodeRecord_len (lg_magic e) (lg_key e) (lg_body e) Hk) as Hl. fold (lg_enc e) in Hl. rewrite E, len_app in Hl.
  destruct q; [done|]. rewrite len_cons in Hl. pose proof (len_nonneg q). unfold recSize in Hl. lia.
Qed.

Lemma scanSegment_log (es : list logged) (t : bytes) (segID : Z) : Forall lg_ok es -> torn t ->
  scanSegment (log_text es ++ t) segID = {| delivered := log_recs segID 0 es; scan_ok := true |}.
Proof.
  intros He Ht. apply (scan_loop_log es t segID He Ht []). rewrite length_app. pose proof (log_text_length es He). lia.
Qed.

(** Whatever a scan delivers is what a read at its offset returns. *)
Lemma scan_delivered (file : bytes) (segID : Z) (r : Rec) : r ∈ delivered (scanSegment file segID) ->
  RSegID r = segID /\ readRecordAtLegacy file segID (ROffset r) = Ok r.
Proof.
  unfold scanSegment. rewrite <- scan_loops_agree by done. generalize (S (length file)) 0. intros fuel.
  induction fuel as [|fuel IH]; intros off; cbn [scan_readat_loop delivered]; [intros H; by apply not_elem_of_nil in H|].
  destruct (len file <=? off); [intros H; by apply not_elem_of_nil in H|].
  destruct (readRecordAtLegacy file segID off) as [rec|[]] eqn:Er; cbn [delivered]; try (intros H; by apply not_elem_of_nil in H).
  rewrite elem_of_cons. intros [-> | H]; [|by eapply IH].
  assert (RSegID rec = segID /\ ROffset rec = off) as [E1 E2]; [|by rewrite E2].
  unfold readRecordAtLegacy in Er. destruct (ReadAt file off HeaderLen); [|done]. destruct (if 0 <? _ then _ else Some _); [|done].
  destruct (ReadAt _ _ _); [|done]. destruct (negb _); [done|]. by injection Er as <-.
Qed.

Lemma log_recs_elem (segID : Z) (e : logged) (es1 es2 : list logged) : Forall lg_ok es1 -> forall off,
  mk_rec (lg_magic e) (lg_key e) (lg_body e) segID (off + len (log_text es1)) ∈ log_recs segID off (es1 ++ e :: es2).
Proof.
  induction 1 as [|x es1 Hx _ IH]; intros off; cbn [app log_recs].
  - change (len (log_text [])) with 0. rewrite Z.add_0_r. by apply list_elem_of_here.
  - apply list_elem_of_further. unfold log_text. cbn [map concat]. rewrite len_app. unfold lg_enc at 1.
    rewrite encodeRecord_len by apply Hx. rewrite Z.add_assoc. apply IH.
Qed.

(** ** Theorems *)

(** C25. A record that was written is read back: whatever part of it
    [pwritev] committed and however [WriteAt] completed it, when
    [writeRecordAt] returns no error the record is at its offset, and the
    mapping, the single read of its indexed size and the three reads all return
    its key, body and kind. Whether or not it fails, no byte before the offset
    changes and the file does not shrink. *)
Theorem warm_record_roundtrip (io : write_io) (file file' : bytes) (off magic : Z) (key : Key) (body : bytes) (failed : bool)
    (segID : Z) (Ho : 0 <= off <= len file) (Hr : rec_ok magic key body)
    (Hw : writeRecordAt io file off magic key body = (file', failed)) :
  take (Z.to_nat off) file' = take (Z.to_nat off) file /\ len file <= len file' /\
  (failed = false ->
   let r := {| RKey := key; Body := body; RSegID := segID; ROffset := off; IsTomb := magic =? magicDead |} in
   readRecordAtSingle file' segID off (HeaderLen + len body + FooterLen) = Ok r /\
   readRecordAtLegacy file' segID off = Ok r /\
   readRecordAtMmap (Some file') segID off (HeaderLen + len body + FooterLen) = Some (Ok r)).
Proof.
  pose proof (writeRecordAt_spec io file off magic key body Ho) as H. rewrite Hw in H. destruct H as [[Hk Hl] Hh].
  split_and!; [done..|]. intros Hf r. specialize (Hh Hf). pose proof (holds_at_range _ _ _ Hh) as [_ Hn].
  destruct (Hr) as (_ & Hkey & _). rewrite encodeRecord_len in Hn by done.
  split_and!; [by apply readRecordAtSingle_ok|by apply readRecordAtLegacy_ok|].
  pose proof (readRecordAtMmap_ok magic key body Hr file' off Hh segID (length file') ltac:(unfold len in *; lia)) as Hm.
  by rewrite firstn_all in Hm.
Qed.

(** Both scans of a segment agree on every file, and on a log that ends in a
    torn record (any strict prefix of one, or nothing) they deliver exactly
    the records of the log, in order and at their offsets, without an error. *)
Theorem warm_scan_exact (file : bytes) (es : list logged) (last : logged) (p q : bytes) (segID : Z)
    (He : Forall lg_ok es) (Hl : lg_ok last) (Hp : lg_enc last = p ++ q) (Hq : q <> []) :
  scanSegmentReadAt file segID = scanSegment file segID /\
  scanSegment (log_text es ++ p) segID = {| delivered := log_recs segID 0 es; scan_ok := true |}.
Proof.
  split; [by apply scan_loops_agree|]. by eapply scanSegment_log, torn_prefix.
Qed.

(** ** What the code does on edge inputs *)

Definition short_key : Key := replicate 16 x41.
(** A failed write leaves its bytes behind the end of the log. When the file is
    closed and opened again, the segment's size is the file's, so the next
    record goes behind them, where no scan sees it: it is read by its offset,
    and lost by a compaction or a rebuild. *)
Lemma failed_write_hides_later_records :
  let '(f1, failed) := writeRecordAt (MkIO (-1) true [Wrote 24; Failed 100]) [] 0 magicLive short_key (replicate 200 x42) in
  let '(f2, failed2) := writeRecordAt (MkIO 32 false []) f1 (len f1) magicLive short_key (bs "body") in
  failed = true /\ failed2 = false /\
  readRecordAtLegacy f2 1 (len f1) = Ok (mk_rec magicLive short_key (bs "body") 1 (len f1)) /\
  scanSegment f2 1 = {| delivered := []; scan_ok := true |}.
Proof. vm_compute. auto. Qed.

(** A preallocated file is all zeros, which no scan accepts. *)
Lemma preallocated_file_unscannable : scanSegment (replicate 64 x00) 0 = {| delivered := []; scan_ok := false |}.
Proof. vm_compute. reflexivity. Qed.

(** ** Witnesses *)

Lemma warm_record_roundtrip_witness :
  exists file', writeRecordAt (MkIO 10 false [Wrote 3; Wrote 50]) (bs "old") 3 magicLive short_key (bs "body") = (file', false) /\
    readRecordAtLegacy file' 7 3 = Ok {| RKey := short_key; Body := bs "body"; RSegID := 7; ROffset := 3; IsTomb := false |}.
Proof.
  destruct (writeRecordAt (MkIO 10 false [Wrote 3; Wrote 50]) (bs "old") 3 magicLive short_key (bs "body")) as [file' failed] eqn:E.
  assert (failed = false) as -> by (vm_compute in E; congruence). exists file'. split; [done|].
  destruct (warm_record_roundtrip (MkIO 10 false [Wrote 3; Wrote 50]) (bs "old") file' 3 magicLive short_key (bs "body") false 7)
    as (_ & _ & H); [vm_compute; split; discriminate| |exact E|].
  - split_and!; [unfold in_u32, magicLive; simpl; lia|reflexivity|reflexivity].
  - apply H. reflexivity.
Defined.

Lemma warm_scan_exact_witness :
  let e := MkLogged magicLive short_key (bs "body") in
  delivered (scanSegment (log_text [e; e] ++ take 30 (lg_enc e)) 1) = log_recs 1 0 [e; e].
Proof.
  intros e. assert (lg_ok e) as He by (split_and!; [unfold in_u32, e, magicLive; simpl; lia|reflexivity|reflexivity]).
  rewrite (proj2 (warm_scan_exact [] [e; e] e (take 30 (lg_enc e)) (drop 30 (lg_enc e)) 1
    ltac:(repeat (apply Forall_cons; split; [exact He|]); apply Forall_nil_2) He ltac:(by rewrite take_drop) ltac:(vm_compute; discriminate))).
  reflexivity.
Defined.
