(* ===== verification/WarmStore.v ===== *)
(** * The warm tier: src/internal/storage/warm/warm.go

    The store of segment files, its index and its eviction list. A definition
    is what the code does while it holds one lock: [Put] and [Delete] write to
    the active segment and then update the index, two critical sections with
    other writers in between; eviction is one; reads, [newSegment], the full
    compaction and the two halves of the compaction of one segment are others.
    The sequential [Put] and [Delete] compose them.

    A segment carries its file; the outcomes of its write calls are arguments,
    as in [WarmRecord]. Opening a file succeeds and takes the size of the file,
    as [openLocked] does; a segment is closed at any time by the cache of file
    descriptors. A new segment starts with an empty file. Metrics are left
    out; the eviction callback is an output. *)

From Stdlib Require Import Floats.SpecFloat.
From stdpp Require Import sorting.
From S2P Require Import Prelude GoStd Api Evictor EvictIndex GoFloat Wal Snapshot Checkpoint WarmRecord.

Definition maxWarmEvictSkips : nat := 16.
Definition maxSweepProbes : Z := 256.

(** ** State *)

(** [seg_mmap] is the length of the persistent mapping of the file. *)
Record Segment : Type := MkSegment {
  seg_ID : Z; seg_size : Z; seg_maxBytes : Z; seg_open : bool; seg_mmap : option Z; seg_file : bytes }.

(** An index entry: the location and the node of the eviction list. *)
Record wloc : Type := MkWLoc { at_loc : warmLoc; at_entry : addr }.

Record Store : Type := MkWarm {
  w_segs : list Segment;
  w_index : gmap Key wloc;
  w_evict : List Key;
  w_entries : Z;
  w_bytes : Z;
  w_selfHeals : Z;
  w_protectedCount : Z;
  w_nextID : Z;
  w_segMax : Z;
  w_maxBytes : Z;
  w_maxEntries : Z;
}.

Inductive warm_error : Type := ErrOverBudget | errSegFull | errIO | ErrSegmentNotFound.

(** ** Segments *)

Definition update_segs (id : Z) (f : Segment -> Segment) (segs : list Segment) : list Segment :=
  map (fun seg => if seg_ID seg =? id then f seg else seg) segs.
(** [segByID]: the last segment with the ID. *)
Definition find_seg (segs : list Segment) (id : Z) : option Segment := last (List.filter (fun seg => seg_ID seg =? id) segs).
Definition is_last (segs : list Segment) (id : Z) : bool :=
  match last segs with Some l => seg_ID l =? id | None => false end.
Definition update_seg (id : Z) (f : Segment -> Segment) (s : Store) : Store := {| s with w_segs := update_segs id f (w_segs s) |}.

(** [ensureOpen] and [openLocked]. *)
Definition ensureOpen (seg : Segment) : Segment :=
  if seg_open seg then seg else {| seg with seg_open := true; seg_size := len (seg_file seg) |}.
Definition closeIfIdle (seg : Segment) : Segment := {| seg with seg_open := false |}.
Definition munmap (seg : Segment) : Segment := {| seg with seg_mmap := None |}.
Definition tryMmap (seg : Segment) : Segment :=
  match seg_mmap seg with
  | Some _ => seg
  | None => if (seg_size seg <=? 0) || negb (seg_open seg) then seg else {| seg with seg_mmap := Some (seg_size seg) |}
  end.
Definition ensureMmapOpened (isActive : bool) (seg : Segment) : Segment :=
  if isActive || match seg_mmap seg with Some _ => true | None => false end then seg else tryMmap (ensureOpen seg).
Definition mmap_data (seg : Segment) : option bytes :=
  match seg_mmap seg with Some n => Some (take (Z.to_nat n) (seg_file seg)) | None => None end.

(** [NewStore] over the segment files of a directory, without preallocation:
    [openExisting] sorts them by ID and leaves them closed. *)
Definition id_le (f g : Z * bytes) : Prop := f.1 <= g.1.
#[export] Instance id_le_dec (f g : Z * bytes) : Decision (id_le f g) := Z_le_dec f.1 g.1.
Definition openExisting (segMax : Z) (files : list (Z * bytes)) : list Segment * Z :=
  let files := merge_sort id_le files in
  (map (fun f => MkSegment f.1 (len f.2) segMax false None f.2) files,
   fold_left (fun next f => if next <=? f.1 then f.1 + 1 else next) files 0).
Definition NewStore (SegMax MaxBytes MaxEntries : Z) (files : list (Z * bytes)) : Store :=
  let segMax := if SegMax <=? 0 then Z.shiftl 64 20 else SegMax in
  let '(segs, nextID) := openExisting segMax files in
  MkWarm segs ∅ Dll.NewList 0 0 0 0 nextID segMax MaxBytes MaxEntries.

(** [Scan] calls back with the records of all segments until an error. *)
Fixpoint scan_segs (segs : list Segment) : scan_result :=
  match segs with
  | [] => {| delivered := []; scan_ok := true |}
  | seg :: segs =>
      let sc := scanSegment (seg_file seg) (seg_ID seg) in
      if scan_ok sc then let rest := scan_segs segs in {| delivered := delivered sc ++ delivered rest; scan_ok := scan_ok rest |}
      else sc
  end.
Definition Scan (s : Store) : scan_result := scan_segs (w_segs s).

Definition seg_full (seg : Segment) : bool := seg_maxBytes seg <=? seg_size seg.

Definition activeSegRLocked (s : Store) : result warm_error (Store * Z) :=
  match last (w_segs s) with
  | Some l => if seg_full l then Err errSegFull else Ok (update_seg (seg_ID l) ensureOpen s, seg_ID l)
  | None => Err errSegFull
  end.

Definition newSegment (s : Store) : Store :=
  match activeSegRLocked s with
  | Ok (s, _) => s
  | Err _ =>
      let id := w_nextID s in
      let s := {| s with w_nextID := id + 1 |} in
      let s := match last (w_segs s) with
               | Some old => update_seg (seg_ID old) (fun seg => tryMmap (ensureOpen seg)) s
               | None => s
               end in
      {| s with w_segs := w_segs s ++ [MkSegment id 0 (w_segMax s) true None []] |}
  end.

(** Appending a record to segment [id] under its lock: the offset, or an error. *)
Definition append_segs (io : write_io) (id magic : Z) (key : Key) (body : bytes) (segs : list Segment)
    : list Segment * result warm_error Z :=
  match find_seg segs id with
  | None => (segs, Err errIO)
  | Some seg =>
      let seg := ensureOpen seg in
      let off := seg_size seg in
      let '(file, failed) := writeRecordAt io (seg_file seg) off magic key body in
      if failed then (update_segs id (fun _ => {| seg with seg_file := file |}) segs, Err errIO)
      else (update_segs id (fun _ => {| seg with seg_file := file; seg_size := off + recSize body |}) segs, Ok off)
  end.
Definition append_record (io : write_io) (id magic : Z) (key : Key) (body : bytes) (s : Store)
    : Store * result warm_error Z :=
  let '(segs, r) := append_segs io id magic key body (w_segs s) in ({| s with w_segs := segs |}, r).

(** ** The index *)

Section Store.
Context {P : EvictionPolicy Key} (pool_get : List Key -> addr).

Definition entry_of (s : Store) (k : Key) : option addr := at_entry <$> w_index s !! k.

(** [s.evictList.Access(key, ...)] with the index or with nothing as lookup. *)
Definition list_access (s : Store) (key : Key) : List Key * addr :=
  let '(l, a, _) := p_access (w_evict s) key (entry_of s) (pool_get (w_evict s)) in (l, a).
Definition list_new (l : List Key) (key : Key) : List Key * addr :=
  let '(l, a, _) := p_access l key (fun _ => None) (pool_get l) in (l, a).

Definition sub_size (bytes size : Z) : Z := if 0 <? size then i64 (bytes - size) else bytes.

(** The second half of [Put]. *)
Definition put_index (key : Key) (id off size : Z) (s : Store) : Store :=
  let s := match w_index s !! key with
           | Some old => {| s with w_bytes := sub_size (w_bytes s) (Snapshot.size (at_loc old));
                                   w_protectedCount := if protected (at_loc old) then w_protectedCount s - 1 else w_protectedCount s |}
           | None => {| s with w_entries := w_entries s + 1 |}
           end in
  let s := {| s with w_bytes := i64 (w_bytes s + size) |} in
  let '(l, a) := list_access s key in
  {| s with w_evict := l; w_index := <[key := MkWLoc (MkLoc id off size false) a]> (w_index s) |}.

(** The second half of [Delete]; [dropStaleIndex] removes an entry the same way. *)
Definition remove_entry (key : Key) (w : wloc) (s : Store) : Store :=
  {| s with w_protectedCount := if protected (at_loc w) then w_protectedCount s - 1 else w_protectedCount s;
            w_evict := p_remove (w_evict s) (Some (at_entry w));
            w_index := delete key (w_index s);
            w_entries := w_entries s - 1;
            w_bytes := sub_size (w_bytes s) (Snapshot.size (at_loc w)) |}.
Definition delete_index (key : Key) (s : Store) : Store :=
  match w_index s !! key with Some w => remove_entry key w s | None => s end.
Definition dropStaleIndex (key : Key) (stale : warmLoc) (s : Store) : Store :=
  match w_index s !! key with
  | Some cur =>
      if (segID (at_loc cur) =? segID stale) && (offset (at_loc cur) =? offset stale)
      then let s := remove_entry key cur s in {| s with w_selfHeals := w_selfHeals s + 1 |}
      else s
  | None => s
  end.

Definition Protect (key : Key) (s : Store) : Store :=
  match w_index s !! key with
  | Some w =>
      if negb (protected (at_loc w))
      then {| s with w_index := <[key := MkWLoc {| (at_loc w) with protected := true |} (at_entry w)]> (w_index s);
                     w_protectedCount := w_protectedCount s + 1 |}
      else s
  | None => s
  end.
Definition Unprotect (key : Key) (s : Store) : Store :=
  match w_index s !! key with
  | Some w =>
      if protected (at_loc w)
      then {| s with w_index := <[key := MkWLoc {| (at_loc w) with protected := false |} (at_entry w)]> (w_index s);
                     w_protectedCount := w_protectedCount s - 1 |}
      else s
  | None => s
  end.

(** ** Eviction *)

(** [pickEvictVictim] *)
Fixpoint pick_victim (skips : nat) (s : Store) : Store * option (Key * wloc) :=
  match skips with
  | O => (s, None)
  | S skips =>
      let '(l, r) := p_evict (w_evict s) maxSweepProbes in
      let s := {| s with w_evict := l |} in
      match r with
      | None => (s, None)
      | Some cand =>
          match w_index s !! cand with
          | None => pick_victim skips s
          | Some w =>
              if protected (at_loc w) then
                let '(l, a) := list_new (w_evict s) cand in
                pick_victim skips {| s with w_evict := mark_visited l a; w_index := <[cand := MkWLoc (at_loc w) a]> (w_index s) |}
              else (s, Some (cand, w))
          end
      end
  end.
Definition pickEvictVictim (s : Store) : Store * option (Key * wloc) := pick_victim maxWarmEvictSkips s.

Definition restoreSIEVEEntry (key : Key) (w : wloc) (s : Store) : Store :=
  let '(l, a) := list_new (w_evict s) key in
  {| s with w_evict := l; w_index := <[key := MkWLoc (at_loc w) a]> (w_index s) |}.

(** [evictOneLocked] on the active segment [id]: the key it evicts. *)
Definition evictOneLocked (io : write_io) (id : Z) (s : Store) : Store * option Key :=
  if llen (w_evict s) =? 0 then (s, None)
  else
    let '(s, r) := pickEvictVictim s in
    match r with
    | None => (s, None)
    | Some (victimKey, victimLoc) =>
        let '(s, w) := append_record io id magicDead victimKey [] s in
        match w with
        | Err _ => (restoreSIEVEEntry victimKey victimLoc s, None)
        | Ok _ =>
            ({| s with w_index := delete victimKey (w_index s);
                       w_entries := w_entries s - 1;
                       w_bytes := sub_size (w_bytes s) (Snapshot.size (at_loc victimLoc)) |}, Some victimKey)
        end
    end.

Definition fitsBudgets (recSize : Z) (s : Store) : bool :=
  ((w_maxBytes s <=? 0) || (i64 (w_bytes s + recSize) <=? w_maxBytes s))
  && ((w_maxEntries s <=? 0) || (w_entries s + 1 <=? w_maxEntries s)).

(** The results of the writes still to come; none left: they succeed. *)
Definition io_done : write_io := MkIO (-1) true [].
Definition next_io (ios : list write_io) : write_io * list write_io :=
  match ios with io :: ios => (io, ios) | [] => (io_done, []) end.

(** The loop of [evictToFitBatchLocked] on segment [id]: the keys evicted and
    whether the record fits. *)
Fixpoint evict_loop (fuel : nat) (ios : list write_io) (id recSize : Z) (s : Store)
    : Store * list write_io * list Key * bool :=
  if fitsBudgets recSize s then (s, ios, [], true)
  else match fuel with
       | O => (s, ios, [], false)
       | S fuel =>
           let '(io, ios) := next_io ios in
           let '(s, r) := evictOneLocked io id s in
           match r with
           | None => (s, ios, [], false)
           | Some k => let '(s, ios, ks, ok) := evict_loop fuel ios id recSize s in (s, ios, k :: ks, ok)
           end
       end.

Definition evictToFitBatchLocked (ios : list write_io) (recSize : Z) (s : Store)
    : Store * list write_io * list Key * option warm_error :=
  if (w_maxBytes s <=? 0) && (w_maxEntries s <=? 0) then (s, ios, [], None)
  else if (0 <? w_maxBytes s) && (w_maxBytes s <? recSize) then (s, ios, [], Some ErrOverBudget)
  else if fitsBudgets recSize s then (s, ios, [], None)
  else match activeSegRLocked s with
       | Err e => (s, ios, [], Some e)
       | Ok (s, id) =>
           let '(s, ios, ks, ok) := evict_loop (S (base.size (w_index s))) ios id recSize s in
           (s, ios, ks, if ok then None else Some ErrOverBudget)
       end.

Definition ensureBudgetLocked (ios : list write_io) (recSize : Z) (s : Store)
    : Store * list write_io * list Key * option warm_error :=
  if (w_maxBytes s <=? 0) && (w_maxEntries s <=? 0) then (s, ios, [], None)
  else if fitsBudgets recSize s then (s, ios, [], None)
  else evictToFitBatchLocked ios recSize s.

(** ** Put, Delete, Get *)

(** The loop of [Put] without other writers: the location, the keys evicted. *)
Fixpoint put_loop (fuel : nat) (ios : list write_io) (key : Key) (body : bytes) (s : Store)
    : option (Store * list write_io * list Key * result warm_error (Z * Z)) :=
  match fuel with
  | O => None
  | S fuel =>
      let '(s, ios, ks, budgetErr) := ensureBudgetLocked ios (recSize body) s in
      let retry s :=
        match put_loop fuel ios key body s with
        | Some (s, ios, ks', r) => Some (s, ios, ks ++ ks', r)
        | None => None
        end in
      match budgetErr with
      | Some errSegFull => retry (newSegment s)
      | Some e => Some (s, ios, ks, Err e)
      | None =>
          match activeSegRLocked s with
          | Err _ => retry (newSegment s)
          | Ok (s, id) =>
              let '(io, ios) := next_io ios in
              let '(s, r) := append_record io id magicLive key body s in
              match r with
              | Err e => Some (s, ios, ks, Err e)
              | Ok off => Some (put_index key id off (recSize body) s, ios, ks, Ok (id, off))
              end
          end
      end
  end.
(** Four rounds are enough: see [put_returns]. *)
Definition Put (ios : list write_io) (key : Key) (body : bytes) (s : Store) := put_loop 4 ios key body s.

Fixpoint del_loop (fuel : nat) (io : write_io) (key : Key) (s : Store) : option (Store * result warm_error Z) :=
  match fuel with
  | O => None
  | S fuel =>
      match activeSegRLocked s with
      | Err _ => del_loop fuel io key (newSegment s)
      | Ok (s, id) =>
          let '(s, r) := append_record io id magicDead key [] s in
          match r with
          | Err e => Some (s, Err e)
          | Ok _ => Some (delete_index key s, Ok id)
          end
      end
  end.
Definition Delete (io : write_io) (key : Key) (s : Store) := del_loop 2 io key s.

(** [readRecord] after the lookup in the index: the body; a miss; a miss whose
    index entry is to be dropped; an error. *)
Inductive read_outcome : Type := RBody (body : bytes) | RMiss | RStale | RErr (e : read_error).

Definition read_at (loc : warmLoc) (s : Store) : Store * read_outcome :=
  match find_seg (w_segs s) (segID loc) with
  | None => (s, RStale)
  | Some seg =>
      let prepare seg := ensureMmapOpened (is_last (w_segs s) (segID loc)) (ensureOpen seg) in
      let seg := prepare seg in
      (update_seg (segID loc) prepare s,
       match readRecordAt (mmap_data seg) (seg_file seg) (seg_ID seg) (offset loc) (Snapshot.size loc) with
       | Err ErrTornRecord => RStale
       | Err e => RErr e
       | Ok rec => if IsTomb rec then RMiss else RBody (Body rec)
       end)
  end.

(** [readRecord]: the body and the location, [Ok None] on a miss. *)
Definition readRecord (key : Key) (s : Store) : Store * result read_error (option (bytes * warmLoc)) :=
  match w_index s !! key with
  | None => (s, Ok None)
  | Some w =>
      let '(s, r) := read_at (at_loc w) s in
      match r with
      | RBody body => (s, Ok (Some (body, at_loc w)))
      | RMiss => (s, Ok None)
      | RStale => (dropStaleIndex key (at_loc w) s, Ok None)
      | RErr e => (s, Err e)
      end
  end.

(** The visit of [Get], in its own critical section. *)
Definition mark_visited_at (key : Key) (loc : warmLoc) (s : Store) : Store :=
  match w_index s !! key with
  | Some cur =>
      if (segID (at_loc cur) =? segID loc) && (offset (at_loc cur) =? offset loc)
      then {| s with w_evict := mark_visited (w_evict s) (at_entry cur) |} else s
  | None => s
  end.
Definition Get (key : Key) (s : Store) : Store * result read_error (option bytes) :=
  let '(s, r) := readRecord key s in
  match r with
  | Ok (Some (body, loc)) => (mark_visited_at key loc s, Ok (Some body))
  | Ok None => (s, Ok None)
  | Err e => (s, Err e)
  end.
Definition Peek (key : Key) (s : Store) : Store * result read_error (option bytes) :=
  let '(s, r) := readRecord key s in
  (s, match r with Ok (Some (body, _)) => Ok (Some body) | Ok None => Ok None | Err e => Err e end).
End Store.

(** ** Compaction of one segment *)

(** [pendingRec] and [compactRec] *)
Record pendingRec : Type := MkPending { p_key : Key; p_body : bytes }.
Record compactRec : Type := MkCompact { c_key : Key; c_segID : Z; c_offset : Z; c_size : Z }.

(** The callback of the scan: the live records. *)
Definition pending_of (idxSnap : gmap Key wloc) (r : Rec) : option pendingRec :=
  if IsTomb r then None
  else match idxSnap !! RKey r with
       | Some w =>
           if (segID (at_loc w) =? RSegID r) && (offset (at_loc w) =? ROffset r) then Some (MkPending (RKey r) (Body r)) else None
       | None => None
       end.

(** The first half of [CompactSegment]: the records to keep. *)
Definition compact_scan (id : Z) (s : Store) : Store * result warm_error (list pendingRec) :=
  match List.find (fun seg => seg_ID seg =? id) (w_segs s) with
  | None => (s, Err ErrSegmentNotFound)
  | Some target =>
      if is_last (w_segs s) id then (s, Err ErrSegmentNotFound)
      else
        let idxSnap := base.filter (fun kv => segID (at_loc kv.2) = id) (w_index s) in
        let scan := scanSegment (seg_file target) (seg_ID target) in
        (update_seg id ensureOpen s,
         if scan_ok scan then Ok (omap (pending_of idxSnap) (delivered scan)) else Err errIO)
  end.

(** The records one after the other: the file and where each is. *)
Fixpoint write_pending (ios : list write_io) (newSegID off : Z) (pending : list pendingRec) (file : bytes)
    : result warm_error (bytes * list compactRec) :=
  match pending with
  | [] => Ok (file, [])
  | p :: pending =>
      let '(io, ios) := next_io ios in
      let '(file, failed) := writeRecordAt io file off magicLive (p_key p) (p_body p) in
      if failed then Err errIO
      else match write_pending ios newSegID (off + recSize (p_body p)) pending file with
           | Ok (file, recs) => Ok (file, MkCompact (p_key p) newSegID off (recSize (p_body p)) :: recs)
           | Err e => Err e
           end
  end.
Definition writeCompactTemp (ios : list write_io) (pending : list pendingRec) (s : Store)
    : Store * result warm_error (Z * bytes * list compactRec) :=
  let newSegID := w_nextID s in
  ({| s with w_nextID := newSegID + 1 |},
   match write_pending ios newSegID 0 pending [] with
   | Ok (file, recs) => Ok (newSegID, file, recs)
   | Err e => Err e
   end).

(** The position of the first segment with the ID. *)
Fixpoint seg_index (id : Z) (segs : list Segment) : option nat :=
  match segs with
  | [] => None
  | seg :: segs => if seg_ID seg =? id then Some O else S <$> seg_index id segs
  end.
Definition relocate (id : Z) (idx : gmap Key wloc) (nr : compactRec) : gmap Key wloc :=
  match idx !! c_key nr with
  | Some cur =>
      if negb (segID (at_loc cur) =? id) then idx
      else <[c_key nr := MkWLoc {| (at_loc cur) with segID := c_segID nr; offset := c_offset nr; Snapshot.size := c_size nr |}
                                (at_entry cur)]> idx
  | None => idx
  end.
(** [renamed]: the temporary file was moved into place and opened. *)
Definition swapCompactSegment (renamed : bool) (id newSegID : Z) (file : bytes) (recs : list compactRec) (s : Store)
    : Store * option warm_error :=
  match seg_index id (w_segs s) with
  | None => (s, Some ErrSegmentNotFound)
  | Some i =>
      if (i =? length (w_segs s) - 1)%nat then (s, Some ErrSegmentNotFound)
      else if negb renamed then (s, Some errIO)
      else
        let newSeg := tryMmap (MkSegment newSegID (len file) (w_segMax s) true None file) in
        ({| s with w_segs := <[i := newSeg]> (w_segs s); w_index := fold_left (relocate id) recs (w_index s) |}, None)
  end.

(** The whole compaction without other operations in between. *)
Definition CompactSegment (ios : list write_io) (renamed : bool) (id : Z) (s : Store) : Store * option warm_error :=
  let '(s, r) := compact_scan id s in
  match r with
  | Err e => (s, Some e)
  | Ok pending =>
      let '(s, r) := writeCompactTemp ios pending s in
      match r with
      | Err e => (s, Some e)
      | Ok (newSegID, file, recs) => swapCompactSegment renamed id newSegID file recs s
      end
  end.

(** *** Compaction of the whole store *)

Section Compact.
Context {P : EvictionPolicy Key} (pool_get : List Key -> addr).

(** What [compactSegments] builds up: the temporary store, the new index and
    the keys in the order they were written. *)
Record compaction : Type := MkCompaction { cp_tmp : Store; cp_index : gmap Key warmLoc; cp_keys : list Key }.

Fixpoint compact_puts (ios : list write_io) (idxSnap : gmap Key wloc) (pending : list pendingRec) (cp : compaction)
    : result warm_error (list write_io * compaction) :=
  match pending with
  | [] => Ok (ios, cp)
  | p :: pending =>
      match Put pool_get ios (p_key p) (p_body p) (cp_tmp cp) with
      | Some (tmp, ios, _, Ok (id, off)) =>
          let old := match idxSnap !! p_key p with Some w => protected (at_loc w) | None => false end in
          compact_puts ios idxSnap pending
            (MkCompaction tmp (<[p_key p := MkLoc id off (recSize (p_body p)) old]> (cp_index cp)) (cp_keys cp ++ [p_key p]))
      | Some (_, _, _, Err e) => Err e
      | None => Err errIO
      end
  end.

(** A closed segment has no file to scan. *)
Fixpoint compactSegments (ios : list write_io) (idxSnap : gmap Key wloc) (segs : list Segment) (cp : compaction)
    : result warm_error compaction :=
  match segs with
  | [] => Ok cp
  | seg :: segs =>
      if negb (seg_open seg) then Err errIO
      else
        let scan := scanSegment (seg_file seg) (seg_ID seg) in
        if negb (scan_ok scan) then Err errIO
        else match compact_puts ios idxSnap (omap (pending_of idxSnap) (delivered scan)) cp with
             | Ok (ios, cp) => compactSegments ios idxSnap segs cp
             | Err e => Err e
             end
  end.

(** The fresh eviction list, and the entries of the new index with its nodes. *)
Fixpoint relist (keys : list Key) (newIndex : gmap Key warmLoc) (l : List Key) (idx : gmap Key wloc) : List Key * gmap Key wloc :=
  match keys with
  | [] => (l, idx)
  | key :: keys =>
      let '(l, a) := list_new pool_get l key in
      relist keys newIndex l (match newIndex !! key with Some loc => <[key := MkWLoc loc a]> idx | None => idx end)
  end.

(** [Compact] from the copy of the index it takes first; [Protect] and
    [Unprotect] do not wait for it. [listed]: [swapSegmentFiles] could read the
    directory; when it cannot, the segments have lost their mappings and nothing
    else. A removal or a rename that fails after that, with some of the old files
    gone, is not modelled, nor is a failure to create the temporary store, to
    close it or to open the new one. *)
Definition compact_from (idxSnap : gmap Key wloc) (ios : list write_io) (listed : bool) (s : Store) : Store * option warm_error :=
  let tmp := NewStore (w_segMax s) 0 0 [] in
  match compactSegments ios idxSnap (w_segs s) (MkCompaction tmp ∅ []) with
  | Err e => (s, Some e)
  | Ok cp =>
      if (length (cp_keys cp) =? 0)%nat then (s, None)
      else
        let '(l, idx) := relist (cp_keys cp) (cp_index cp) Dll.NewList ∅ in
        if negb listed then ({| s with w_segs := map munmap (w_segs s) |}, Some errIO) else
        let fresh := NewStore (w_segMax s) (w_maxBytes s) 0 (map (fun seg => (seg_ID seg, seg_file seg)) (w_segs (cp_tmp cp))) in
        ({| s with w_segs := w_segs fresh; w_index := idx; w_evict := l;
                   w_protectedCount := map_sum (fun loc => if protected loc then 1 else 0) (cp_index cp);
                   w_entries := Z.of_nat (base.size (cp_index cp));
                   w_bytes := i64 (map_sum Snapshot.size (cp_index cp)) |}, None)
  end.
Definition Compact (ios : list write_io) (listed : bool) (s : Store) : Store * option warm_error :=
  compact_from (w_index s) ios listed s.
End Compact.

(** *** When to compact *)

Definition f64_int (z : Z) : spec_float := round64 (z <? 0) (Z.abs z) 1.
Definition f64_div (a b : spec_float) : spec_float := SFdiv 53 1024 a b.
Definition f64_sub (a b : spec_float) : spec_float := SFsub 53 1024 a b.
Definition CompactionThreshold : spec_float := round64 false 3 10.

Definition diskBytes (s : Store) : Z := foldr (fun seg n => seg_size seg + n) 0 (w_segs s).
Definition NeedsCompaction (s : Store) : bool :=
  if (w_bytes s =? 0) || (w_entries s =? 0) then false
  else if diskBytes s =? 0 then false
  else flt (f64_div (f64_int (w_bytes s)) (f64_int (diskBytes s))) (round64 false 7 10).

Definition livePerSeg (s : Store) (id : Z) : Z :=
  map_sum (fun w => if segID (at_loc w) =? id then Snapshot.size (at_loc w) else 0) (w_index s).
Definition needs_seg (s : Store) (seg : Segment) : bool :=
  negb (seg_size seg =? 0)
  && fle CompactionThreshold (f64_sub f64_one (f64_div (f64_int (livePerSeg s (seg_ID seg))) (f64_int (seg_size seg)))).
Definition NeedsSegmentCompaction (s : Store) : option Z :=
  seg_ID <$> List.find (needs_seg s) (take (length (w_segs s) - 1) (w_segs s)).

(** ** The index, its list and its counters *)

Definition loc_protected (l : warmLoc) : Z := if protected l then 1 else 0.
(** The index without the nodes of the list. *)
Definition locs (s : Store) : gmap Key warmLoc := at_loc <$> w_index s.

Notation linked := (EvictIndex.linked at_entry).

(** The list holds exactly the keys of the index, and the three counters are
    the index's size, its bytes (as the int64 they wrap to) and its protected
    entries. *)
Record counted (s : Store) (m : gmap Key warmLoc) : Prop := {
  ct_entries : w_entries s = Z.of_nat (base.size m);
  ct_bytes : w_bytes s = i64 (map_sum Snapshot.size m);
  ct_protected : w_protectedCount s = map_sum loc_protected m;
  ct_sizes : forall k l, m !! k = Some l -> 0 <= Snapshot.size l;
}.
Record idx_inv (s : Store) : Prop := {
  ii_linked : linked (w_evict s) (w_index s);
  ii_counted : counted s (locs s);
}.

Lemma sub_size_i64 (b n : Z) : 0 <= n -> sub_size (i64 b) n = i64 (b - n).
Proof.
  intros Hn. unfold sub_size. destruct (0 <? n) eqn:E; [apply i64_sub|]. f_equal. lia.
Qed.

Lemma locs_lookup (s : Store) (k : Key) : locs s !! k = at_loc <$> w_index s !! k.
Proof. apply lookup_fmap. Qed.

Lemma locs_same_node (m : gmap Key wloc) (k : Key) (w : wloc) (a : addr) :
  m !! k = Some w -> at_loc <$> <[k := MkWLoc (at_loc w) a]> m = at_loc <$> m.
Proof. intros Hk. rewrite fmap_insert. apply insert_id. by rewrite lookup_fmap, Hk. Qed.

Lemma next_io_in (ios ios' : list write_io) (io : write_io) : next_io ios = (io, ios') -> (io ∈ ios \/ io = io_done) /\ ios' ⊆ ios.
Proof. destruct ios; intros [= <- <-]; set_solver. Qed.

Section Index.
Context {P : EvictionPolicy Key} (pool_get : List Key -> addr).
Context (pool_get_unused : forall l, heap l !! pool_get l = None).

(** [Access] with the index as lookup, or with nothing for a key not in it. *)
Lemma linked_access (s : Store) (key : Key) (l : List Key) (a : addr) (loc : warmLoc) :
  linked (w_evict s) (w_index s) -> list_access pool_get s key = (l, a) ->
  linked l (<[key := MkWLoc loc a]> (w_index s)).
Proof.
  intros Hl Ha. unfold list_access in Ha. destruct (p_access _ _ _ _) as [[l' a'] isNew] eqn:Ep. injection Ha as <- <-.
  destruct (w_index s !! key) as [w|] eqn:Hk.
  - pose proof (linked_touch _ _ key w (entry_of s) (pool_get (w_evict s)) Hl Hk ltac:(unfold entry_of; by rewrite Hk)) as [Ea Hl'].
    rewrite Ep in Ea, Hl'. by eapply linked_update.
  - eapply linked_fresh; [exact Hl|exact Hk| |apply pool_get_unused|exact Ep|done]. unfold entry_of. by rewrite Hk.
Qed.

Lemma linked_list_new (l l' : List Key) (m : gmap Key wloc) (key : Key) (loc : warmLoc) (a : addr) :
  linked l (delete key m) -> list_new pool_get l key = (l', a) -> linked l' (<[key := MkWLoc loc a]> m).
Proof.
  intros Hl Hn. unfold list_new in Hn. destruct (p_access _ _ _ _) as [[l1 a1] isNew] eqn:Ep. injection Hn as <- <-.
  rewrite <- insert_delete_eq. eapply linked_fresh; [exact Hl|apply lookup_delete_eq|done|apply pool_get_unused|exact Ep|done].
Qed.

Lemma put_index_inv (key : Key) (id off n : Z) (s : Store) : 0 <= n -> idx_inv s ->
  idx_inv (put_index pool_get key id off n s) /\
  locs (put_index pool_get key id off n s) = <[key := MkLoc id off n false]> (locs s).
Proof.
  intros Hn [Hl [He Hb Hp Hs]]. unfold put_index. pose proof (locs_lookup s key) as Hk.
  set (s1 := match w_index s !! key with Some _ => _ | None => _ end).
  assert (w_index s1 = w_index s /\ w_evict s1 = w_evict s) as [Ei Ev] by (unfold s1; by destruct (w_index s !! key)).
  destruct (list_access _ _ _) as [l a] eqn:Ha.
  pose proof (linked_access _ key l a (MkLoc id off n false) ltac:(cbn [w_evict w_index]; rewrite Ei, Ev; exact Hl) Ha) as Hl'.
  cbn [w_index] in Hl'. match goal with |- idx_inv ?x /\ _ => assert (locs x = <[key := MkLoc id off n false]> (locs s)) as El end.
  { unfold locs; cbn [w_index]. by rewrite Ei, fmap_insert. }
  split; [|exact El]. split; [exact Hl'|]. rewrite El. split; cbn [w_entries w_bytes w_protectedCount]; unfold s1;
    [destruct (w_index s !! key) as [old|]; cbn [w_entries w_bytes w_protectedCount]..|].
  - by rewrite He, map_size_insert_Some by (rewrite Hk; done).
  - rewrite map_size_insert_None by (rewrite Hk; done). lia.
  - rewrite Hb, sub_size_i64 by (by apply (Hs key)). by rewrite i64_add, (map_sum_update _ _ _ _ _ Hk).
  - rewrite Hb, i64_add, map_sum_insert by done. f_equal. cbn [Snapshot.size]. lia.
  - rewrite Hp, (map_sum_update _ _ _ _ _ Hk). change (loc_protected (MkLoc id off n false)) with 0.
    change (loc_protected (at_loc old)) with (if protected (at_loc old) then 1 else 0). destruct (protected (at_loc old)); lia.
  - by rewrite Hp, map_sum_insert.
  - intros k w. rewrite lookup_insert_Some. intros [[<- <-]|[_ Hw]]; [done|by apply (Hs k)].
Qed.

Lemma put_index_frame (key : Key) (id off n : Z) (s : Store) :
  w_segs (put_index pool_get key id off n s) = w_segs s /\ w_nextID (put_index pool_get key id off n s) = w_nextID s /\
  w_maxBytes (put_index pool_get key id off n s) = w_maxBytes s /\ w_maxEntries (put_index pool_get key id off n s) = w_maxEntries s.
Proof. unfold put_index. destruct (list_access _ _ _). by destruct (w_index s !! key). Qed.

(** Taking an entry out of the index and the counters. *)
Lemma warm_drop_inv (key : Key) (loc : warmLoc) (s s' : Store) : counted s (locs s) -> locs s !! key = Some loc ->
  linked (w_evict s') (w_index s') -> locs s' = delete key (locs s) ->
  w_entries s' = w_entries s - 1 -> w_bytes s' = sub_size (w_bytes s) (Snapshot.size loc) ->
  w_protectedCount s' = w_protectedCount s - loc_protected loc -> idx_inv s'.
Proof.
  intros [He Hb Hp Hs] Hk Hl' El Ee Eb Ep. split; [done|]. rewrite El. split.
  - rewrite Ee, He, map_size_delete_Some by eauto. pose proof (map_size_ne_0_lookup_2 (locs s) key ltac:(eauto)). lia.
  - rewrite Eb, Hb, sub_size_i64 by (by apply (Hs key)). by rewrite (map_sum_delete _ _ _ _ Hk).
  - by rewrite Ep, Hp, (map_sum_delete _ _ _ _ Hk).
  - intros k w'. rewrite lookup_delete_Some. intros [_ Hw]. by apply (Hs k).
Qed.

Lemma remove_entry_inv (key : Key) (w : wloc) (s : Store) : idx_inv s -> w_index s !! key = Some w ->
  idx_inv (remove_entry key w s) /\ locs (remove_entry key w s) = delete key (locs s).
Proof.
  intros [Hl Hc] Hk. assert (locs (remove_entry key w s) = delete key (locs s)) as El
    by (unfold locs; cbn [w_index remove_entry]; by rewrite fmap_delete).
  split; [|done]. eapply (warm_drop_inv key (at_loc w) s); try done.
  - by rewrite locs_lookup, Hk.
  - by apply linked_remove.
  - cbn. unfold loc_protected. destruct (protected (at_loc w)); lia.
Qed.

(** Changing whether an entry is protected. *)
Lemma reprotect_inv (key : Key) (w : wloc) (b : bool) (c : Z) (s : Store) : idx_inv s -> w_index s !! key = Some w ->
  c = w_protectedCount s - loc_protected (at_loc w) + (if b then 1 else 0) ->
  idx_inv {| s with w_index := <[key := MkWLoc {| (at_loc w) with protected := b |} (at_entry w)]> (w_index s);
                    w_protectedCount := c |}.
Proof.
  intros [Hl [He Hb Hp Hs]] Hk ->. split; [by eapply linked_update|].
  assert (locs s !! key = Some (at_loc w)) as Hkl by (by rewrite locs_lookup, Hk).
  unfold locs at 1. cbn [w_index]. rewrite fmap_insert. fold (locs s). cbn [at_loc].
  split; cbn [w_entries w_bytes w_protectedCount].
  - by rewrite map_size_insert_Some.
  - rewrite Hb, (map_sum_update _ _ _ _ _ Hkl). f_equal. cbn [Snapshot.size]. lia.
  - by rewrite Hp, (map_sum_update _ _ _ _ _ Hkl).
  - intros k w'. rewrite lookup_insert_Some. intros [[<- <-]|[_ Hw]]; [by apply (Hs key (at_loc w))|by apply (Hs k)].
Qed.

Lemma Protect_inv (key : Key) (s : Store) : idx_inv s -> idx_inv (Protect key s).
Proof.
  intros Hi. unfold Protect. destruct (w_index s !! key) as [w|] eqn:Hk; [|done].
  destruct (protected (at_loc w)) eqn:Ep; cbn [negb]; [done|]. apply reprotect_inv; [done|done|].
  unfold loc_protected. rewrite Ep. lia.
Qed.
Lemma Unprotect_inv (key : Key) (s : Store) : idx_inv s -> idx_inv (Unprotect key s).
Proof.
  intros Hi. unfold Unprotect. destruct (w_index s !! key) as [w|] eqn:Hk; [|done].
  destruct (protected (at_loc w)) eqn:Ep; [|done]. apply reprotect_inv; [done|done|].
  unfold loc_protected. rewrite Ep. lia.
Qed.

(** Another list with the same keys, and the same locations. *)
Lemma relist_inv (s s' : Store) : counted s (locs s) -> linked (w_evict s') (w_index s') -> locs s' = locs s ->
  w_entries s' = w_entries s -> w_bytes s' = w_bytes s -> w_protectedCount s' = w_protectedCount s -> idx_inv s'.
Proof. intros [He Hb Hp Hs] Hl' El Ee Eb Ep. split; [done|]. rewrite El. split; congruence || done. Qed.

Lemma mark_inv (s : Store) (a : addr) : idx_inv s -> idx_inv {| s with w_evict := mark_visited (w_evict s) a |}.
Proof. intros Hi. apply (relist_inv s); try done; [apply Hi|]. apply linked_mark, Hi. Qed.

(** *** Eviction *)

(** What eviction leaves alone. *)
Definition static (s s' : Store) : Prop :=
  w_nextID s' = w_nextID s /\ w_segMax s' = w_segMax s /\ w_maxBytes s' = w_maxBytes s /\ w_maxEntries s' = w_maxEntries s.

Lemma pick_victim_inv (skips : nat) : forall (s s' : Store) (r : option (Key * wloc)), idx_inv s ->
  pick_victim pool_get skips s = (s', r) ->
  (exists l m, s' = {| s with w_evict := l; w_index := m |}) /\ locs s' = locs s /\
  match r with
  | None => idx_inv s'
  | Some (k, w) => w_index s' !! k = Some w /\ protected (at_loc w) = false /\ linked (w_evict s') (delete k (w_index s'))
  end.
Proof.
  induction skips as [|n IH]; intros s s' r Hi.
  { intros [= <- <-]. split; [|done]. by exists (w_evict s), (w_index s); destruct s. }
  cbn [pick_victim]. destruct (p_evict (w_evict s) maxSweepProbes) as [l r0] eqn:He.
  pose proof (linked_evict _ l _ _ r0 (ii_linked _ Hi) He) as Hk. destruct r0 as [cand|].
  2:{ intros [= <- <-]. split; [by eexists _, _|]. split; [done|]. by apply (relist_inv s); [apply Hi|..]. }
  destruct Hk as [Hl [w Hw]]. cbn [w_index w_evict]. rewrite Hw. destruct (protected (at_loc w)) eqn:Ep.
  - destruct (list_new pool_get l cand) as [l2 a] eqn:En. intros H.
    pose proof (linked_list_new _ _ _ _ (at_loc w) _ Hl En) as Hl2.
    apply IH in H as ((l3 & m3 & ->) & Eloc & Hr); [|apply (relist_inv s); try done; [apply Hi|by apply linked_mark|]; unfold locs; cbn [w_index]; by apply locs_same_node].
    split; [by eexists _, _|]. split; [|done]. rewrite Eloc. unfold locs. cbn [w_index]. by apply locs_same_node.
  - intros [= <- <-]. split; [by eexists _, _|]. done.
Qed.

Lemma append_record_segs (io : write_io) (id magic : Z) (key : Key) (body : bytes) (s s' : Store) (r : result warm_error Z) :
  append_record io id magic key body s = (s', r) ->
  exists segs, s' = {| s with w_segs := segs |} /\ append_segs io id magic key body (w_segs s) = (segs, r).
Proof. unfold append_record. destruct (append_segs _ _ _ _ _ _) as [segs r0]. intros [= <- <-]. by exists segs. Qed.

(** A tombstone appended for a key of the index. *)
Definition tomb_step (id : Z) (ios : list write_io) (idx : gmap Key warmLoc) (segs segs' : list Segment) : Prop :=
  exists io k r, (io ∈ ios \/ io = io_done) /\ is_Some (idx !! k) /\ append_segs io id magicDead k [] segs = (segs', r).

Lemma evictOneLocked_inv (io : write_io) (id : Z) (s s' : Store) (r : option Key) : idx_inv s ->
  evictOneLocked pool_get io id s = (s', r) ->
  idx_inv s' /\ static s s' /\ (w_segs s' = w_segs s \/ tomb_step id [io] (locs s) (w_segs s) (w_segs s')) /\
  match r with
  | None => locs s' = locs s
  | Some k => locs s' = delete k (locs s) /\ exists loc, locs s !! k = Some loc /\ protected loc = false
  end.
Proof.
  intros Hi. unfold evictOneLocked, pickEvictVictim. generalize maxWarmEvictSkips. intros skips. destruct (llen (w_evict s) =? 0).
  { intros [= <- <-]. split_and!; [done|done|by left|done]. }
  destruct (pick_victim pool_get skips s) as [s1 r1] eqn:Hp.
  apply pick_victim_inv in Hp as ((l1 & m1 & ->) & Eloc & Hr); [|done].
  match goal with H : locs ?x = locs s |- _ => assert (static s x) as Hst by done end.
  destruct r1 as [[k w]|].
  2:{ intros [= <- <-]. split_and!; [done|done|by left|done]. }
  destruct Hr as (Hk & Hpr & Hl). destruct (append_record io id magicDead k [] _) as [s2 a] eqn:Ha.
  apply append_record_segs in Ha as (segs & -> & Ha). assert (is_Some (locs s !! k)) as Hkl by (rewrite <- Eloc, locs_lookup, Hk; eauto).
  assert (tomb_step id [io] (locs s) (w_segs s) segs) as Ht.
  { exists io, k, a. split_and!; [left; set_solver|done|done]. }
  destruct Hi as [_ Hc]. destruct a as [off|e]; unfold restoreSIEVEEntry.
  - intros [= <- <-]. cbn [w_segs w_index w_entries w_bytes].
    match goal with |- idx_inv ?x /\ _ => assert (locs x = delete k (locs s)) as El end.
    { unfold locs at 1. cbn [w_index]. by rewrite fmap_delete, <- Eloc. }
    split_and!; [|done|by right|done|].
    + apply (warm_drop_inv k (at_loc w) s); try done; cbn [w_entries w_bytes w_protectedCount].
      * by rewrite <- Eloc, locs_lookup, Hk.
      * unfold loc_protected. rewrite Hpr. lia.
    + exists (at_loc w). by rewrite <- Eloc, locs_lookup, Hk.
  - destruct (list_new pool_get _ k) as [l a] eqn:En. intros [= <- <-]. cbn [w_segs w_index w_evict] in *.
    pose proof (linked_list_new _ _ _ _ (at_loc w) _ Hl En) as Hl2.
    match goal with |- idx_inv ?x /\ _ => assert (locs x = locs s) as El end.
    { unfold locs at 1. cbn [w_index]. rewrite (locs_same_node _ _ _ _ Hk). exact Eloc. }
    split_and!; [by apply (relist_inv s)|done|by right|done].
Qed.

Definition remove_keys {A} (ks : list Key) (m : gmap Key A) : gmap Key A := fold_left (fun m k => delete k m) ks m.
Definition evictable (m : gmap Key warmLoc) (k : Key) : Prop := exists loc, m !! k = Some loc /\ protected loc = false.

Lemma evictable_delete (m : gmap Key warmLoc) (k k' : Key) : evictable (delete k m) k' -> k' <> k /\ evictable m k'.
Proof. intros (loc & Hk & Hp). apply lookup_delete_Some in Hk as [Hne Hk]. split; [done|]. by exists loc. Qed.

Lemma tomb_step_mono (id : Z) (ios ios' : list write_io) (m m' : gmap Key warmLoc) (segs segs' : list Segment) :
  ios ⊆ ios' -> (forall k, is_Some (m !! k) -> is_Some (m' !! k)) -> tomb_step id ios m segs segs' -> tomb_step id ios' m' segs segs'.
Proof. intros Hs Hm (io & k & r & Hio & Hk & Ha). exists io, k, r. split_and!; [|by apply Hm|done]. set_solver. Qed.

(** What a run of evictions does, whatever its end. *)
Record evicted (id : Z) (ios : list write_io) (s s' : Store) (ks : list Key) : Prop := {
  ev_inv : idx_inv s';
  ev_static : static s s';
  ev_segs : rtc (tomb_step id ios (locs s)) (w_segs s) (w_segs s');
  ev_locs : locs s' = remove_keys ks (locs s);
  ev_keys : Forall (evictable (locs s)) ks;
  ev_nodup : NoDup ks;
}.

Lemma evicted_none (id : Z) (ios : list write_io) (s : Store) : idx_inv s -> evicted id ios s s [].
Proof. intros Hi. split; [done|done|by apply rtc_refl|done|by apply Forall_nil_2|apply NoDup_nil_2]. Qed.

Lemma evict_loop_inv (id n : Z) (fuel : nat) : forall (ios ios' : list write_io) (s s' : Store) (ks : list Key) (ok : bool),
  idx_inv s -> evict_loop pool_get fuel ios id n s = (s', ios', ks, ok) ->
  evicted id ios s s' ks /\ ios' ⊆ ios /\ (ok = true -> fitsBudgets n s' = true).
Proof.
  induction fuel as [|fuel IH]; intros ios ios' s s' ks ok Hi; cbn [evict_loop].
  { destruct (fitsBudgets n s) eqn:Ef; intros [= <- <- <- <-]; split_and!; by apply evicted_none || done. }
  destruct (fitsBudgets n s) eqn:Ef; [intros [= <- <- <- <-]; split_and!; by apply evicted_none || done|].
  destruct (next_io ios) as [io ios1] eqn:En. apply next_io_in in En as [Hio Hsub].
  destruct (evictOneLocked pool_get io id s) as [s1 r] eqn:E1. apply evictOneLocked_inv in E1 as (Hi1 & Hst & Hseg & Hr); [|done].
  assert (rtc (tomb_step id ios (locs s)) (w_segs s) (w_segs s1)) as Hrtc.
  { destruct Hseg as [-> | (io' & k & a & Hio' & Hk & Ha)]; [done|]. apply rtc_once. exists io', k, a. split_and!; [|done|done]. set_solver. }
  destruct r as [k|].
  2:{ intros [= <- <- <- <-]. split_and!; [|done|done]. by split; [..|apply Forall_nil_2|apply NoDup_nil_2]. }
  destruct Hr as (El & Hev). destruct (evict_loop pool_get fuel ios1 id n s1) as [[[s2 ios2] ks2] ok2] eqn:E2.
  intros [= <- <- <- <-]. apply IH in E2 as ([Hi2 Hst2 Hrtc2 El2 Hks Hnd] & Hsub2 & Hfit); [|done].
  split_and!; [|set_solver|done]. split.
  - done.
  - unfold static in *. naive_solver congruence.
  - etrans; [exact Hrtc|]. eapply (rtc_subrel _ _ _ _); [|exact Hrtc2]. intros x y. apply tomb_step_mono; [done|].
    intros k'. rewrite El. intros [loc Hl]. apply lookup_delete_Some in Hl as [_ Hl]. eauto.
  - by rewrite El2, El.
  - apply Forall_cons. split; [done|]. eapply Forall_impl; [exact Hks|]. intros k'. rewrite El. intros H. by apply evictable_delete in H as [_ ?].
  - apply NoDup_cons. split; [|done]. intros Hin. rewrite Forall_forall in Hks. specialize (Hks k Hin). rewrite El in Hks.
    by apply evictable_delete in Hks as [? _].
Qed.

(** The loop ends by itself: more fuel changes nothing. *)
Lemma evict_loop_fuel (id n : Z) (fuel fuel' : nat) : forall (ios : list write_io) (s : Store), idx_inv s ->
  (base.size (locs s) < fuel)%nat -> (base.size (locs s) < fuel')%nat ->
  evict_loop pool_get fuel ios id n s = evict_loop pool_get fuel' ios id n s.
Proof.
  revert fuel'. induction fuel as [|fuel IH]; intros fuel' ios s Hi Hf Hf'; [lia|]. destruct fuel' as [|fuel']; [lia|].
  cbn [evict_loop]. destruct (fitsBudgets n s); [done|]. destruct (next_io ios) as [io ios1].
  destruct (evictOneLocked pool_get io id s) as [s1 [k|]] eqn:E1; [|done].
  apply evictOneLocked_inv in E1 as (Hi1 & _ & _ & El & loc & Hk & _); [|done].
  rewrite (IH fuel'); [done|done|..]; rewrite El, map_size_delete_Some by eauto;
    pose proof (map_size_ne_0_lookup_2 (locs s) k ltac:(eauto)); lia.
Qed.
End Index.

(** ** Put *)

Section PutLoop.
Context {P : EvictionPolicy Key} (pool_get : List Key -> addr).
Context (pool_get_unused : forall l, heap l !! pool_get l = None).

Definition has_room (s : Store) : Prop := exists x, activeSegRLocked s = Ok x.

Lemma newSegment_room (s : Store) (e : warm_error) : 0 < w_segMax s -> activeSegRLocked s = Err e -> has_room (newSegment s).
Proof.
  intros Hm Ha. unfold has_room, newSegment. rewrite Ha. cbv zeta. cbn [w_segs w_nextID].
  destruct (last (w_segs s)) as [old|]; unfold activeSegRLocked; cbn [w_segs w_segMax update_seg]; rewrite last_snoc; unfold seg_full;
    cbn [seg_maxBytes seg_size]; rewrite (proj2 (Z.leb_gt _ _)) by lia; eauto.
Qed.

(** Another segment list: budgets and counters are the same. *)
Lemma newSegment_budget (s : Store) (n : Z) :
  fitsBudgets n (newSegment s) = fitsBudgets n s /\ w_maxBytes (newSegment s) = w_maxBytes s /\
  w_maxEntries (newSegment s) = w_maxEntries s /\ w_segMax (newSegment s) = w_segMax s /\
  w_index (newSegment s) = w_index s /\ (idx_inv s -> idx_inv (newSegment s)).
Proof.
  assert (exists segs id, newSegment s = {| s with w_segs := segs; w_nextID := id |}) as (segs & id & ->).
  { unfold newSegment. destruct (activeSegRLocked s) as [[s1 i]|e] eqn:Ea.
    - unfold activeSegRLocked in Ea. destruct (last (w_segs s)); [|done]. destruct (seg_full _); [done|]. injection Ea as <- <-. by eexists _, _.
    - destruct (last _); by eexists _, _. }
  split_and!; try done. intros [? [? ? ? ?]]. by split; [|split].
Qed.

(** A budget check that succeeds leaves room for the record; it asks for a new
    segment only when the active one is full. *)
Lemma ensureBudget_spec (ios ios' : list write_io) (n : Z) (s s' : Store) (ks : list Key) (e : option warm_error) :
  idx_inv s -> ensureBudgetLocked pool_get ios n s = (s', ios', ks, e) ->
  idx_inv s' /\ static s s' /\ locs s' = remove_keys ks (locs s) /\ Forall (evictable (locs s)) ks /\
  (e = None -> fitsBudgets n s' = true) /\ (e = Some errSegFull -> s' = s /\ exists e', activeSegRLocked s = Err e').
Proof.
  intros Hi. unfold ensureBudgetLocked, evictToFitBatchLocked.
  destruct ((w_maxBytes s <=? 0) && (w_maxEntries s <=? 0)) eqn:E0.
  { intros [= <- <- <- <-]. split_and!; try done. intros _. unfold fitsBudgets. apply andb_true_iff in E0 as [-> ->]. done. }
  destruct (fitsBudgets n s) eqn:Ef; [by intros [= <- <- <- <-]; split_and!|].
  destruct ((0 <? w_maxBytes s) && (w_maxBytes s <? n)); [by intros [= <- <- <- <-]; split_and!|].
  destruct (activeSegRLocked s) as [[s1 id]|e'] eqn:Ea.
  2:{ intros [= <- <- <- <-]. split_and!; try done. intros _. eauto. }
  assert (exists segs, s1 = {| s with w_segs := segs |}) as (segs & ->).
  { unfold activeSegRLocked in Ea. destruct (last (w_segs s)); [|done]. destruct (seg_full _); [done|]. injection Ea as <- <-. by eexists. }
  generalize (S (base.size (w_index {| s with w_segs := segs |}))). intros fuel.
  destruct (evict_loop _ _ _ _ _ _) as [[[s2 ios2] ks2] ok] eqn:El. intros [= <- <- <- <-].
  apply evict_loop_inv in El as ([Hi2 Hst _ Eloc Hks _] & _ & Hfit); [|done|destruct Hi as [? [? ? ? ?]]; by split; [|split]].
  destruct ok; split_and!; done || by intros _; apply Hfit.
Qed.

Lemma ensureBudget_fits (ios : list write_io) (n : Z) (s : Store) : fitsBudgets n s = true -> ensureBudgetLocked pool_get ios n s = (s, ios, [], None).
Proof. intros Hf. unfold ensureBudgetLocked. destruct (_ && _); [done|]. by rewrite Hf. Qed.

Lemma remove_keys_app {A} (ks ks' : list Key) (m : gmap Key A) : remove_keys (ks ++ ks') m = remove_keys ks' (remove_keys ks m).
Proof. apply fold_left_app. Qed.

Lemma evictable_remove (ks : list Key) : forall (m : gmap Key warmLoc) (k : Key), evictable (remove_keys ks m) k -> evictable m k.
Proof. induction ks as [|x ks IH]; intros m k H; [done|]. apply IH in H. by apply evictable_delete in H as [_ ?]. Qed.

Definition live_bytes (m : gmap Key warmLoc) : Z := map_sum Snapshot.size m.
Definition sizes_ok (m : gmap Key warmLoc) : Prop := forall k l, m !! k = Some l -> 0 <= Snapshot.size l.

Lemma live_bytes_remove (ks : list Key) : forall m, sizes_ok m -> sizes_ok (remove_keys ks m) /\ live_bytes (remove_keys ks m) <= live_bytes m.
Proof.
  induction ks as [|k ks IH]; intros m Hm; [done|]. destruct (IH (delete k m)) as [H1 H2].
  { intros k' l. rewrite lookup_delete_Some. intros [_ ?]. by eapply Hm. }
  split; [done|]. etrans; [exact H2|]. destruct (m !! k) as [l|] eqn:Hk; [|by rewrite delete_id].
  unfold live_bytes. rewrite (map_sum_delete _ _ _ _ Hk). pose proof (Hm k l Hk). lia.
Qed.

Lemma live_bytes_put (m : gmap Key warmLoc) (k : Key) (l : warmLoc) : sizes_ok m -> live_bytes (<[k := l]> m) <= live_bytes m + Snapshot.size l.
Proof.
  intros Hm. unfold live_bytes. destruct (m !! k) as [l0|] eqn:Hk; [rewrite (map_sum_update _ _ _ _ _ Hk); pose proof (Hm k l0 Hk)|rewrite map_sum_insert by done]; lia.
Qed.

(** The budgets after a record of [n] bytes went in where it fitted. *)
Lemma put_fits (key : Key) (id off n : Z) (s : Store) : idx_inv s -> 0 <= n -> fitsBudgets n s = true -> live_bytes (locs s) + n < 2 ^ 63 ->
  (0 < w_maxEntries s -> w_entries (put_index pool_get key id off n s) <= w_maxEntries s) /\
  (0 < w_maxBytes s -> w_bytes (put_index pool_get key id off n s) <= w_maxBytes s).
Proof.
  intros Hi Hn Hf Hov. destruct (put_index_inv pool_get pool_get_unused key id off n s Hn Hi) as [[_ [He' Hb' _ Hs']] El].
  destruct Hi as [_ [He Hb _ Hs]]. rewrite El in *. unfold fitsBudgets in Hf. apply andb_true_iff in Hf as [F1 F2]. split; intros Hmax.
  - rewrite He'. apply orb_true_iff in F2 as [F2%Z.leb_le | F2%Z.leb_le]; [lia|]. rewrite He in F2.
    destruct (locs s !! key) as [l|] eqn:Hk; [rewrite map_size_insert_Some by eauto|rewrite map_size_insert_None by done]; lia.
  - rewrite Hb'. apply orb_true_iff in F1 as [F1%Z.leb_le | F1%Z.leb_le]; [lia|]. rewrite Hb, i64_add in F1.
    pose proof (live_bytes_put (locs s) key (MkLoc id off n false) Hs) as Hle. cbn [Snapshot.size] in Hle. unfold live_bytes in *.
    pose proof (map_sum_nonneg Snapshot.size (locs s) Hs). pose proof (map_sum_nonneg Snapshot.size _ Hs') as Hp.
    rewrite i64_id in F1 by (unfold in_i64; lia). rewrite i64_id by (unfold in_i64; lia). lia.
Qed.

(** What [Put] promises, with or without an error. *)
Record put_post (key : Key) (n : Z) (s s' : Store) (ks : list Key) (r : result warm_error (Z * Z)) : Prop := {
  pp_inv : idx_inv s';
  pp_keys : Forall (evictable (locs s)) ks;
  pp_locs : match r with
            | Ok (id, off) => locs s' = <[key := MkLoc id off n false]> (remove_keys ks (locs s)) /\
                (live_bytes (locs s) + n < 2 ^ 63 ->
                 (0 < w_maxEntries s -> w_entries s' <= w_maxEntries s) /\ (0 < w_maxBytes s -> w_bytes s' <= w_maxBytes s))
            | Err _ => locs s' = remove_keys ks (locs s)
            end;
}.

Lemma put_loop_post (key : Key) (body : bytes) (fuel : nat) : forall (ios ios' : list write_io) (s s' : Store) (ks : list Key) (r : result warm_error (Z * Z)),
  idx_inv s -> put_loop pool_get fuel ios key body s = Some (s', ios', ks, r) -> put_post key (recSize body) s s' ks r.
Proof.
  induction fuel as [|fuel IH]; intros ios ios' s s' ks r Hi; [done|]. cbn [put_loop].
  pose proof (rec_size_pos body) as Hp. change (HeaderLen + FooterLen) with 28 in Hp. set (n := recSize body) in *.
  destruct (ensureBudgetLocked pool_get ios n s) as [[[s1 ios1] ks1] e] eqn:Eb.
  destruct (ensureBudget_spec _ _ _ _ _ _ _ Hi Eb) as (Hi1 & (_ & _ & Hmb & Hme) & Eloc & Hks & Hfit & _).
  destruct (live_bytes_remove ks1 (locs s) (ct_sizes _ _ (ii_counted _ Hi))) as [_ Hlb]. rewrite <- Eloc in Hlb.
  assert (Hretry : forall s2, idx_inv s2 -> locs s2 = locs s1 -> w_maxBytes s2 = w_maxBytes s1 -> w_maxEntries s2 = w_maxEntries s1 ->
    match put_loop pool_get fuel ios1 key body s2 with Some (s0, ios0, ks0, r0) => Some (s0, ios0, ks1 ++ ks0, r0) | None => None end
      = Some (s', ios', ks, r) -> put_post key n s s' ks r).
  { intros s2 Hi2 El2 E1 E2. destruct (put_loop pool_get fuel ios1 key body s2) as [[[[s3 ios3] ks3] r3]|] eqn:Ep; [|done].
    intros [= -> -> <- ->]. apply IH in Ep as [H1 H2 H3]; [|done]. rewrite El2, Eloc in H2, H3. split; [done|..].
    - apply Forall_app. split; [done|]. eapply Forall_impl; [exact H2|]. apply evictable_remove.
    - rewrite remove_keys_app. destruct r as [[id off]|e0]; [|done]. destruct H3 as [H3 H4]. split; [done|]. intros Hov.
      rewrite E1, E2, Hmb, Hme in H4. apply H4. rewrite Eloc in Hlb. lia. }
  pose proof (newSegment_budget s1 n) as (_ & N1 & N2 & _ & N3 & N4).
  assert (locs (newSegment s1) = locs s1) as N5 by (unfold locs; by rewrite N3).
  destruct e as [[]|]; try (intros [= <- <- <- <-]; by split); [by apply Hretry; auto|].
  destruct (activeSegRLocked s1) as [[s2 id]|e] eqn:Ea; [|by apply Hretry; auto].
  assert (exists segs, s2 = {| s1 with w_segs := segs |}) as (segs & ->).
  { unfold activeSegRLocked in Ea. destruct (last (w_segs s1)); [|done]. destruct (seg_full _); [done|]. injection Ea as <- <-. by eexists. }
  destruct (next_io ios1) as [io ios2]. destruct (append_record _ _ _ _ _ _) as [s3 r3] eqn:Ew.
  apply append_record_segs in Ew as (segs2 & -> & _).
  assert (idx_inv {| s1 with w_segs := segs2 |}) as Hi3 by (destruct Hi1 as [? [? ? ? ?]]; by split; [|split]).
  destruct r3 as [off|e]; intros [= <- <- <- <-]; [|by split]. 
  destruct (put_index_inv pool_get pool_get_unused key id off n _ ltac:(lia) Hi3) as [Hi4 El4]. split; [exact Hi4|exact Hks|]. split; [by rewrite El4, <- Eloc|].
  intros Hov. destruct (put_fits key id off n {| s1 with w_segs := segs2 |} Hi3 ltac:(lia) (Hfit eq_refl)) as [H1 H2].
  { change (locs {| s1 with w_segs := segs2 |}) with (locs s1). lia. }
  rewrite <- Hmb, <- Hme. by split.
Qed.

(** *** The rounds of [Put] *)

Definition returns (fuel : nat) (key : Key) (body : bytes) (s : Store) : Prop :=
  forall ios, exists x, put_loop pool_get fuel ios key body s = Some x.

(** With room and a record that fits, one round is enough. *)
Lemma returns_fits (fuel : nat) (key : Key) (body : bytes) (s : Store) : has_room s -> fitsBudgets (recSize body) s = true ->
  returns (S fuel) key body s.
Proof.
  intros [[s1 id] Hr] Hf ios. cbn [put_loop]. rewrite (ensureBudget_fits _ _ _ Hf), Hr. destruct (next_io ios) as [io ios1].
  destruct (append_record _ _ _ _ _ _) as [s2 [off|e]]; eauto.
Qed.

(** With room, two: evicting may fill the active segment with tombstones. *)
Lemma returns_room (fuel : nat) (key : Key) (body : bytes) (s : Store) : idx_inv s -> 0 < w_segMax s -> has_room s ->
  returns (S (S fuel)) key body s.
Proof.
  intros Hi Hm [x Hr] ios. cbn [put_loop]. destruct (ensureBudgetLocked pool_get ios (recSize body) s) as [[[s1 ios1] ks1] e] eqn:Eb.
  destruct (ensureBudget_spec _ _ _ _ _ _ _ Hi Eb) as (Hi1 & (_ & Esm & _) & _ & _ & Hfit & Hfull).
  destruct e as [[]|]; try (eexists; reflexivity); [destruct (Hfull eq_refl) as (_ & e' & He); congruence|].
  destruct (activeSegRLocked s1) as [[s2 id]|e] eqn:Ea.
  - destruct (next_io ios1) as [io ios2]. destruct (append_record _ _ _ _ _ _) as [s3 [off|e]]; eauto.
  - destruct (returns_fits fuel key body (newSegment s1)) with (ios := ios1) as [[[[s3 ios3] ks3] r3] Ep].
    + eapply newSegment_room; [lia|done].
    + rewrite (proj1 (newSegment_budget s1 (recSize body))). by apply Hfit.
    + cbn [put_loop] in Ep. rewrite Ep. eauto.
Qed.

(** Four rounds are enough. *)
Lemma put_returns (ios : list write_io) (key : Key) (body : bytes) (s : Store) : idx_inv s -> 0 < w_segMax s ->
  exists x, Put pool_get ios key body s = Some x.
Proof.
  intros Hi Hseg. unfold Put. change 4%nat with (S 3). remember 3%nat as fuel eqn:Ef. cbn [put_loop].
  destruct (ensureBudgetLocked pool_get ios (recSize body) s) as [[[s1 ios1] ks1] e] eqn:Eb.
  destruct (ensureBudget_spec _ _ _ _ _ _ _ Hi Eb) as (Hi1 & (_ & Esm & _) & _ & _ & _ & Hfull).
  assert (Hnew : forall e', activeSegRLocked s1 = Err e' -> exists x, put_loop pool_get fuel ios1 key body (newSegment s1) = Some x).
  { intros e' He. subst fuel. destruct (newSegment_budget s1 0) as (_ & _ & _ & Es & _ & Hn).
    apply (returns_room 1); [by apply Hn|rewrite Es; lia|]. eapply newSegment_room; [lia|done]. }
  destruct e as [[]|]; try (eexists; reflexivity).
  - destruct (Hfull eq_refl) as (-> & e' & He). destruct (Hnew e' He) as [[[[? ?] ?] ?] ->]. eauto.
  - destruct (activeSegRLocked s1) as [[s2 id]|e'] eqn:Ea; [|destruct (Hnew e' eq_refl) as [[[[? ?] ?] ?] ->]; eauto].
    destruct (next_io ios1) as [io ios2]. destruct (append_record _ _ _ _ _ _) as [s3 [off|e]]; eauto.
Qed.

(** [Delete] seals at most one segment. *)
Lemma del_returns (io : write_io) (key : Key) (s : Store) : 0 < w_segMax s -> exists x, Delete io key s = Some x.
Proof.
  intros Hm. unfold Delete. cbn [del_loop]. destruct (activeSegRLocked s) as [[s1 id]|e] eqn:Ea.
  - destruct (append_record _ _ _ _ _ _) as [s2 [off|e]]; eauto.
  - destruct (newSegment_room s e Hm Ea) as [[s1 id] ->]. destruct (append_record _ _ _ _ _ _) as [s2 [off|e']]; eauto.
Qed.
End PutLoop.

(** ** Theorems *)

(** C23. [Put] returns: whatever the state of the segments and the outcomes of the
    writes, four rounds of its loop are enough (sealing a full segment, making
    room, sealing the segment the tombstones filled, writing). It evicts only
    keys that were in the index and not protected; without an error the index
    holds the new record and otherwise what it held less the evicted keys, and
    both budgets are met; with an error nothing else changed. The index, its
    list and the counters stay consistent either way. *)
Theorem warm_put_total {P : EvictionPolicy Key} (pool_get : List Key -> addr)
    (Hpool : forall l, heap l !! pool_get l = None) (ios : list write_io) (key : Key) (body : bytes) (s : Store)
    (Hi : idx_inv s) (Hseg : 0 < w_segMax s) :
  exists s' ios' ks r, Put pool_get ios key body s = Some (s', ios', ks, r) /\ idx_inv s' /\ Forall (evictable (locs s)) ks /\
    match r with
    | Ok (id, off) =>
        locs s' = <[key := MkLoc id off (recSize body) false]> (remove_keys ks (locs s)) /\
        (live_bytes (locs s) + recSize body < 2 ^ 63 ->
         (0 < w_maxEntries s -> w_entries s' <= w_maxEntries s) /\ (0 < w_maxBytes s -> w_bytes s' <= w_maxBytes s))
    | Err _ => locs s' = remove_keys ks (locs s)
    end.
Proof.
  destruct (put_returns pool_get Hpool ios key body s Hi Hseg) as [[[[s' ios'] ks] r] Ep].
  exists s', ios', ks, r. destruct (put_loop_post pool_get Hpool key body _ _ _ _ _ _ _ Hi Ep) as [H1 H2 H3]. by split_and!.
Qed.

(** ** Witnesses *)

Lemma NewStore_idx_inv (SegMax MaxBytes MaxEntries : Z) (files : list (Z * bytes)) : idx_inv (NewStore SegMax MaxBytes MaxEntries files).
Proof.
  unfold NewStore. destruct (openExisting _ _) as [segs next]. split; [apply linked_new|].
  assert (forall s, w_index s = ∅ -> locs s = ∅) as E by (intros s E; unfold locs; rewrite E; apply fmap_empty).
  rewrite E by done. split; [done..|]. intros k l. by rewrite lookup_empty.
Qed.

Definition demo_key (n : Z) : Key := put_be 16 n.
Abbreviation dput := (@Put (sieve_policy Key) pool_fresh).
Definition after (x : option (Store * list write_io * list Key * result warm_error (Z * Z))) : Store :=
  match x with Some (s, _, _, _) => s | None => NewStore 0 0 0 [] end.
Definition one_key : Store := after (dput [] (demo_key 1) (bs "abcd") (NewStore 30 0 1 [])).

(** The second key of a store with room for one: the first one is evicted, in a
    segment of its own since the first segment is full. *)
Lemma warm_put_total_witness : exists s' ios' ks r, dput [] (demo_key 2) (bs "ef") one_key = Some (s', ios', ks, r) /\
  w_entries s' <= 1 /\ ks = [demo_key 1].
Proof.
  destruct (@warm_put_total (sieve_policy Key) pool_fresh pool_fresh_unused [] (demo_key 1) (bs "abcd") (NewStore 30 0 1 [])
    (NewStore_idx_inv 30 0 1 []) ltac:(reflexivity)) as (s1 & ios1 & ks1 & r1 & E1 & Hi1 & _).
  assert (one_key = s1) as Eo by (unfold one_key; rewrite E1; reflexivity).
  destruct (@warm_put_total (sieve_policy Key) pool_fresh pool_fresh_unused [] (demo_key 2) (bs "ef") one_key
    ltac:(rewrite Eo; exact Hi1) ltac:(vm_compute; reflexivity)) as (s' & ios' & ks & r & E & _ & _ & Hr).
  exists s', ios', ks, r. split; [exact E|].
  assert (ks = [demo_key 1] /\ exists x, r = Ok x) as [Ek [[id off] ->]].
  { assert (match dput [] (demo_key 2) (bs "ef") one_key with Some (_, _, ks, r) => (ks, r) | None => ([], Err errIO) end
            = ([demo_key 1], Ok (1, 28))) as H by (vm_compute; reflexivity). rewrite E in H. injection H as -> ->. eauto. }
  split; [|exact Ek]. destruct Hr as [_ Hr]. destruct Hr as [Hr _]; [vm_compute; reflexivity|]. apply Hr. vm_compute. reflexivity.
Defined.
