(* ===== verification/WarmSystem.v ===== *)
(** * Concurrent use of the warm tier: src/internal/storage/warm/warm.go

    [Put], [Delete], [Get] and [CompactSegment] each take several locks one
    after the other. Here the store is a transition system whose steps are the
    critical sections of [WarmStore]: writers append to the active segment and
    later update the index, readers look a key up and later read the record,
    evictions, sealing, closing of files and the three parts of a compaction
    happen in between wherever the locks allow. The state carries the
    operations in flight (they hold [s.mu] for reading, which keeps out sealing
    and the swap of a compaction), the progress of the one compaction, and, as
    a ghost, the body each key was last stored with. The compaction of the whole
    store is one step (it holds [s.mu]); it is taken only when the IDs of the
    segments it makes are below the next ID, which the code does not ensure
    when the segment size was reduced since the segments were written. *)

From S2P Require Import Prelude GoStd Api Evictor EvictIndex Wal Snapshot Checkpoint WarmRecord WarmStore.

(** ** Segments *)

Section Find.
Implicit Types (segs : list Segment) (seg : Segment) (f : Segment -> Segment).

Lemma find_seg_Some segs (id : Z) seg : find_seg segs id = Some seg -> seg ∈ segs /\ seg_ID seg = id.
Proof.
  intros H. unfold find_seg in H. apply last_Some_elem_of in H. rewrite list_elem_of_In, List.filter_In in H.
  destruct H as [H E%Z.eqb_eq]. by rewrite list_elem_of_In.
Qed.

Lemma find_seg_app segs seg (id : Z) : find_seg (segs ++ [seg]) id = if seg_ID seg =? id then Some seg else find_seg segs id.
Proof.
  unfold find_seg. rewrite List.filter_app. cbn [List.filter]. destruct (seg_ID seg =? id); [apply last_snoc|by rewrite app_nil_r].
Qed.

Lemma find_seg_cons segs seg (id : Z) : NoDup (map seg_ID (seg :: segs)) ->
  find_seg (seg :: segs) id = if seg_ID seg =? id then Some seg else find_seg segs id.
Proof.
  intros Hnd. unfold find_seg. cbn [List.filter]. destruct (seg_ID seg =? id) eqn:E; [|done]. apply Z.eqb_eq in E.
  destruct (List.filter (fun s => seg_ID s =? id) segs) as [|x l] eqn:Ef; [done|].
  assert (x ∈ segs /\ seg_ID x = id) as [Hx Ex].
  { assert (In x (x :: l)) as Hin by by left. rewrite <- Ef, List.filter_In, Z.eqb_eq in Hin. by rewrite list_elem_of_In. }
  apply NoDup_cons in Hnd as [Hn _]. destruct Hn. rewrite E, <- Ex. by apply list_elem_of_fmap_2.
Qed.

Lemma find_seg_elem segs seg : NoDup (map seg_ID segs) -> seg ∈ segs -> find_seg segs (seg_ID seg) = Some seg.
Proof.
  induction segs as [|x segs IH]; intros Hnd Hin; [by apply not_elem_of_nil in Hin|]. rewrite find_seg_cons by done.
  apply NoDup_cons in Hnd as [Hn Hnd]. apply elem_of_cons in Hin as [<- | Hin]; [by rewrite Z.eqb_refl|].
  destruct (seg_ID x =? seg_ID seg) eqn:E; [|by apply IH]. apply Z.eqb_eq in E. destruct Hn. rewrite E. by apply list_elem_of_fmap_2.
Qed.

Lemma find_seg_update segs f (id id' : Z) : (forall seg, seg_ID seg = id -> seg_ID (f seg) = id) ->
  find_seg (update_segs id f segs) id' = if id' =? id then f <$> find_seg segs id' else find_seg segs id'.
Proof.
  intros Hf. unfold update_segs. set (g := fun seg => if seg_ID seg =? id then f seg else seg).
  assert (Hid : forall seg, seg_ID (g seg) = seg_ID seg).
  { intros seg. unfold g. destruct (seg_ID seg =? id) eqn:E; [|done]. apply Z.eqb_eq in E. by rewrite Hf. }
  assert (find_seg (map g segs) id' = g <$> find_seg segs id') as ->.
  { unfold find_seg. rewrite <- fmap_last. f_equal. induction segs as [|x segs IH]; [done|]. cbn [map List.filter]. rewrite Hid.
    destruct (seg_ID x =? id'); [cbn; by f_equal|done]. }
  destruct (find_seg segs id') as [seg|] eqn:E; [|by destruct (id' =? id)]. apply find_seg_Some in E as [_ <-]. simpl. unfold g.
  by destruct (seg_ID seg =? id).
Qed.

Lemma is_last_update segs f (id id' : Z) : (forall seg, seg_ID seg = id -> seg_ID (f seg) = id) ->
  is_last (update_segs id f segs) id' = is_last segs id'.
Proof.
  intros Hf. unfold is_last, update_segs. change (map ?g segs) with (g <$> segs). rewrite fmap_last.
  destruct (last segs) as [l|]; [|done]. simpl. destruct (seg_ID l =? id) eqn:E; [|done]. apply Z.eqb_eq in E. by rewrite (Hf l E), E.
Qed.

Lemma update_ids segs f (id : Z) : (forall seg, seg_ID seg = id -> seg_ID (f seg) = id) ->
  map seg_ID (update_segs id f segs) = map seg_ID segs.
Proof.
  intros Hf. unfold update_segs. rewrite map_map. apply map_ext. intros seg. destruct (seg_ID seg =? id) eqn:E; [|done].
  apply Z.eqb_eq in E. by rewrite Hf.
Qed.
End Find.

(** *** What stays true of the segments *)

Definition seg_bounds (seg : Segment) : Prop :=
  0 <= seg_size seg <= len (seg_file seg) /\ forall n, seg_mmap seg = Some n -> 0 <= n <= len (seg_file seg).
Definition is_log (seg : Segment) : Prop :=
  seg_size seg = len (seg_file seg) /\ exists es, Forall lg_ok es /\ seg_file seg = log_text es.

(** IDs are unique and below the next one, sizes and mappings within the files,
    the active segment not mapped; [clean]: as long as no write has failed, each
    file is a log up to its end. *)
Record segs_inv (clean : bool) (next : Z) (segs : list Segment) : Prop := {
  sg_ids : NoDup (map seg_ID segs);
  sg_next : forall seg, seg ∈ segs -> seg_ID seg < next;
  sg_bounds : forall seg, seg ∈ segs -> seg_bounds seg;
  sg_last : forall l, last segs = Some l -> seg_mmap l = None;
  sg_log : clean = true -> forall seg, seg ∈ segs -> is_log seg;
}.

(** A record of the segment that reads must find. *)
Record in_seg (clean : bool) (seg : Segment) (off : Z) (e : logged) : Prop := {
  is_holds : holds_at off (lg_enc e) (seg_file seg);
  is_size : off + recSize (lg_body e) <= seg_size seg;
  is_mmap : forall n, seg_mmap seg = Some n -> off + recSize (lg_body e) <= n;
  is_scan : clean = true -> exists es1 es2, Forall lg_ok (es1 ++ e :: es2) /\
      seg_file seg = log_text (es1 ++ e :: es2) /\ off = len (log_text es1);
}.

(** [seg'] is [seg] after appends, opening, closing or mapping. *)
Record seg_le (clean : bool) (seg seg' : Segment) : Prop := {
  sl_kept : kept (seg_size seg) (seg_file seg) (seg_file seg');
  sl_size : seg_size seg <= seg_size seg';
  sl_mmap : seg_mmap seg' = seg_mmap seg \/ exists n, seg_mmap seg' = Some n /\ seg_size seg <= n;
  sl_log : clean = true -> exists t, Forall lg_ok t /\ seg_file seg' = seg_file seg ++ log_text t;
}.
Record segs_le (clean : bool) (next : Z) (segs segs' : list Segment) : Prop := {
  le_find : forall id seg, find_seg segs id = Some seg -> exists seg', find_seg segs' id = Some seg' /\ seg_le clean seg seg';
  le_none : forall id, id < next -> find_seg segs id = None -> find_seg segs' id = None;
}.

Section SegLe.
Context (clean : bool).
Implicit Types (segs : list Segment) (seg : Segment) (f : Segment -> Segment).

Lemma log_text_app (es es' : list logged) : log_text (es ++ es') = log_text es ++ log_text es'.
Proof. unfold log_text. by rewrite map_app, concat_app. Qed.

Lemma seg_le_refl seg : seg_le clean seg seg.
Proof. split; [apply kept_refl|lia|by left|]. intros _. exists []. split; [by apply Forall_nil_2|]. cbn. by rewrite app_nil_r. Qed.

Lemma seg_le_trans seg1 seg2 seg3 : seg_le clean seg1 seg2 -> seg_le clean seg2 seg3 -> seg_le clean seg1 seg3.
Proof.
  intros [K1 S1 M1 L1] [K2 S2 M2 L2]. split; [by eapply kept_trans|lia| |].
  - destruct M2 as [-> | (n & -> & Hn)]; [done|]. right. exists n. split; [done|lia].
  - intros Hc. destruct (L1 Hc) as (t1 & Ht1 & E1), (L2 Hc) as (t2 & Ht2 & E2). exists (t1 ++ t2).
    split; [by apply Forall_app|]. by rewrite E2, E1, log_text_app, app_assoc.
Qed.

Lemma in_seg_le seg seg' (off : Z) (e : logged) : lg_ok e -> seg_le clean seg seg' -> in_seg clean seg off e -> in_seg clean seg' off e.
Proof.
  intros (_ & Hk & _) [K S M L] [Hh Hs Hm Hl]. split.
  - eapply kept_holds; [exact K|exact Hh|]. unfold lg_enc. rewrite encodeRecord_len by done. lia.
  - lia.
  - intros n Hn. destruct M as [E | (n' & E & Hn')]; [apply Hm; congruence|]. rewrite Hn in E. injection E as <-. lia.
  - intros Hc. destruct (Hl Hc) as (es1 & es2 & Hok & Ef & Eo), (L Hc) as (t & Ht & E). exists es1, (es2 ++ t).
    rewrite E, Ef, <- log_text_app, <- app_assoc. split; [|done]. rewrite app_comm_cons, app_assoc. by apply Forall_app.
Qed.

Lemma segs_le_refl (next : Z) segs : segs_le clean next segs segs.
Proof. split; [|done]. intros id seg H. exists seg. split; [done|apply seg_le_refl]. Qed.

Lemma segs_le_trans (next next' : Z) segs1 segs2 segs3 : next <= next' ->
  segs_le clean next segs1 segs2 -> segs_le clean next' segs2 segs3 -> segs_le clean next segs1 segs3.
Proof.
  intros Hn [F1 N1] [F2 N2]. split.
  - intros id seg H. destruct (F1 id seg H) as (seg2 & H2 & L2), (F2 id seg2 H2) as (seg3 & H3 & L3).
    exists seg3. split; [done|by eapply seg_le_trans].
  - intros id Hid H. apply N2; [lia|]. by apply N1.
Qed.

(** Updating one segment. *)
Lemma update_segs_le (next : Z) segs f (id : Z) : (forall seg, seg_ID seg = id -> seg_ID (f seg) = id) ->
  (forall seg, find_seg segs id = Some seg -> seg_le clean seg (f seg)) -> segs_le clean next segs (update_segs id f segs).
Proof.
  intros Hf Hle. split.
  - intros id' seg H. rewrite find_seg_update, H by done. destruct (id' =? id) eqn:E; [|eexists; split; [done|apply seg_le_refl]].
    apply Z.eqb_eq in E as ->. eexists. split; [done|by apply Hle].
  - intros id' _ H. rewrite find_seg_update, H by done. by destruct (id' =? id).
Qed.

Lemma update_elem segs f (id : Z) seg' : NoDup (map seg_ID segs) -> seg' ∈ update_segs id f segs -> exists seg, seg ∈ segs /\
  ((seg_ID seg = id /\ seg' = f seg /\ find_seg segs id = Some seg) \/ (seg_ID seg <> id /\ seg' = seg)).
Proof.
  intros Hids H. unfold update_segs in H. change (map ?g segs) with (g <$> segs) in H.
  apply list_elem_of_fmap in H as (seg & -> & Hin). exists seg. split; [done|].
  destruct (seg_ID seg =? id) eqn:E; bool_cases; [left|by right]. split_and!; [done|done|]. rewrite <- E. by apply find_seg_elem.
Qed.

Lemma update_segs_inv (next : Z) segs f (id : Z) : segs_inv clean next segs ->
  (forall seg, seg_ID seg = id -> seg_ID (f seg) = id) ->
  (forall seg, find_seg segs id = Some seg -> seg_bounds (f seg) /\ (is_last segs id = true -> seg_mmap (f seg) = None) /\
    (clean = true -> is_log (f seg))) ->
  segs_inv clean next (update_segs id f segs).
Proof.
  intros [Hids Hnext Hb Hl Hlog] Hf Hg.
  pose proof (fun seg' => update_elem segs f id seg' Hids) as Hin.
  split.
  - by rewrite update_ids.
  - intros seg' (seg & Hs & [(E & -> & _) | (_ & ->)])%Hin; [rewrite Hf by done; rewrite <- E|]; by apply Hnext.
  - intros seg' (seg & Hs & [(_ & -> & Hfs) | (_ & ->)])%Hin; [by apply Hg|by apply Hb].
  - intros l. unfold update_segs. change (map ?g segs) with (g <$> segs). rewrite fmap_last. destruct (last segs) as [x|] eqn:Ex; [|done].
    intros [= <-]. destruct (seg_ID x =? id) eqn:E; [|by apply Hl]. apply Z.eqb_eq in E. apply Hg.
    + rewrite <- E. apply find_seg_elem; [done|]. by apply last_Some_elem_of.
    + unfold is_last. rewrite Ex. by apply Z.eqb_eq.
  - intros Hc seg' (seg & Hs & [(_ & -> & Hfs) | (_ & ->)])%Hin; [by apply Hg|by apply Hlog].
Qed.
End SegLe.

(** *** The operations on segments *)

(** A write that commits everything in the end, whatever the record. *)
Definition io_complete (io : write_io) : Prop :=
  forall file off magic key body, (writeRecordAt io file off magic key body).2 = false.

Lemma io_done_complete : io_complete io_done.
Proof.
  assert (Hb : forall w off file, write_buf [] w off file = (match w with [] => file | _ => file_write off w file end, [], off + len w, false)).
  { intros [|c w] off file; [|done]. cbn [write_buf]. do 2 f_equal. change (len (@nil byte)) with 0. lia. }
  intros file off magic key body. unfold writeRecordAt, writeRemaining, io_done. cbn [pwritev_n pwritev_err write_ats negb andb].
  change (0 <? -1) with false. cbv iota. generalize (file_write off (take (Z.to_nat (-1)) (concat (record_iov magic key body))) file).
  generalize 0. revert off. induction (record_iov magic key body) as [|buf iov IH]; intros off rem f; [done|]. cbn [write_iov].
  destruct (len buf <=? rem); [apply IH|]. rewrite Hb. apply IH.
Qed.

(** What the steps under [s.mu] held for reading do to the segments. *)
Record seg_move (clean : bool) (next : Z) (segs segs' : list Segment) : Prop := {
  mv_inv : segs_inv clean next segs';
  mv_le : segs_le clean next segs segs';
  mv_last : forall id, is_last segs' id = is_last segs id;
}.

Section Moves.
Context (clean : bool) (next : Z).
Implicit Types (segs : list Segment) (seg : Segment).

Lemma seg_move_refl segs : segs_inv clean next segs -> seg_move clean next segs segs.
Proof. intros H. split; [done|apply segs_le_refl|done]. Qed.

Lemma seg_move_trans segs1 segs2 segs3 :
  seg_move clean next segs1 segs2 -> seg_move clean next segs2 segs3 -> seg_move clean next segs1 segs3.
Proof. intros [I1 L1 A1] [I2 L2 A2]. split; [done|by eapply segs_le_trans|]. intros id. by rewrite A2, A1. Qed.

Lemma active_unmapped segs seg (id : Z) : segs_inv clean next segs -> find_seg segs id = Some seg -> is_last segs id = true ->
  seg_mmap seg = None.
Proof.
  intros Hi Hf Hl. apply (sg_last _ _ _ Hi). unfold is_last in Hl. destruct (last segs) as [l|] eqn:El; [|done]. apply Z.eqb_eq in Hl.
  rewrite <- Hf, <- Hl. symmetry. apply find_seg_elem; [apply Hi|by apply last_Some_elem_of].
Qed.

Lemma update_move segs (f : Segment -> Segment) (id : Z) : segs_inv clean next segs ->
  (forall seg, seg_ID (f seg) = seg_ID seg) ->
  (forall seg, find_seg segs id = Some seg -> seg_bounds seg -> (clean = true -> is_log seg) ->
     seg_bounds (f seg) /\ seg_le clean seg (f seg) /\
     (is_last segs id = true -> seg_mmap seg = None -> seg_mmap (f seg) = None) /\ (clean = true -> is_log (f seg))) ->
  seg_move clean next segs (update_segs id f segs).
Proof.
  intros Hi Hid Hf. assert (Hg : forall seg, find_seg segs id = Some seg -> seg_bounds (f seg) /\ seg_le clean seg (f seg) /\
     (is_last segs id = true -> seg_mmap (f seg) = None) /\ (clean = true -> is_log (f seg))).
  { intros seg Hs. pose proof (find_seg_Some _ _ _ Hs) as [Hin E].
    destruct (Hf seg Hs (sg_bounds _ _ _ Hi _ Hin) (fun Hc => sg_log _ _ _ Hi Hc _ Hin)) as (H1 & H2 & H3 & H4).
    split_and!; [done|done| |done]. intros Hl. apply H3; [done|]. by eapply active_unmapped. }
  assert (Hid' : forall seg, seg_ID seg = id -> seg_ID (f seg) = id) by (intros; by rewrite Hid).
  split.
  - apply update_segs_inv; [done|done|]. intros seg Hs. by destruct (Hg seg Hs) as (? & _ & ? & ?).
  - apply update_segs_le; [done|]. intros seg Hs. by apply Hg.
  - intros id'. by apply is_last_update.
Qed.

Lemma ensureOpen_ok seg : seg_bounds seg -> (clean = true -> is_log seg) ->
  seg_bounds (ensureOpen seg) /\ seg_le clean seg (ensureOpen seg) /\ (clean = true -> is_log (ensureOpen seg)).
Proof.
  intros Hb Hl. unfold ensureOpen. destruct (seg_open seg); [split_and!; [done|apply seg_le_refl|done]|].
  pose proof Hb as [[Hs1 Hs2] Hm]. split_and!.
  - split; [|done]. cbn [seg_size seg_file]. lia.
  - split; cbn [seg_size seg_file seg_mmap]; [apply kept_refl|lia|by left|]. apply (sl_log _ _ _ (seg_le_refl _ seg)).
  - intros Hc. destruct (Hl Hc) as [_ He]. by split.
Qed.
Lemma ensureOpen_same seg : seg_ID (ensureOpen seg) = seg_ID seg /\ seg_mmap (ensureOpen seg) = seg_mmap seg /\
  seg_file (ensureOpen seg) = seg_file seg.
Proof. unfold ensureOpen. by destruct (seg_open seg). Qed.

Lemma tryMmap_ok seg : seg_bounds seg -> (clean = true -> is_log seg) ->
  seg_bounds (tryMmap seg) /\ seg_le clean seg (tryMmap seg) /\ (clean = true -> is_log (tryMmap seg)).
Proof.
  intros Hb Hl. unfold tryMmap. destruct (seg_mmap seg) eqn:Em; [split_and!; [done|apply seg_le_refl|done]|].
  destruct ((seg_size seg <=? 0) || negb (seg_open seg)); [split_and!; [done|apply seg_le_refl|done]|].
  destruct Hb as [[Hs1 Hs2] Hm]. split_and!; [|split|done]; cbn [seg_size seg_file seg_mmap].
  - split; cbn [seg_size seg_file seg_mmap]; [lia|]. intros n [= <-]. lia.
  - apply kept_refl.
  - lia.
  - right. eexists. split; [done|]. lia.
  - apply (sl_log _ _ _ (seg_le_refl _ seg)).
Qed.
Lemma tryMmap_ID seg : seg_ID (tryMmap seg) = seg_ID seg.
Proof. unfold tryMmap. destruct (seg_mmap seg); [done|]. by destruct (_ || _). Qed.

Lemma open_move segs (id : Z) : segs_inv clean next segs -> seg_move clean next segs (update_segs id ensureOpen segs).
Proof.
  intros Hi. apply update_move; [done|intros seg; apply ensureOpen_same|]. intros seg _ Hb Hl.
  destruct (ensureOpen_ok seg Hb Hl) as (H1 & H2 & H3). split_and!; [done..| |done]. intros _. by rewrite (proj1 (proj2 (ensureOpen_same seg))).
Qed.

Lemma close_move segs (id : Z) : segs_inv clean next segs -> seg_move clean next segs (update_segs id closeIfIdle segs).
Proof.
  intros Hi. apply update_move; [done|done|]. intros seg _ Hb Hl. split_and!; [done| |done|done].
  split; [apply kept_refl|done|by left|]. apply (sl_log _ _ _ (seg_le_refl _ seg)).
Qed.

(** What [readRecord] does to the segment before it reads. *)
Lemma prepare_move segs (id : Z) : segs_inv clean next segs ->
  seg_move clean next segs (update_segs id (fun seg => ensureMmapOpened (is_last segs id) (ensureOpen seg)) segs).
Proof.
  intros Hi. apply update_move; [done|..].
  - intros seg. unfold ensureMmapOpened. destruct (_ || _); [apply ensureOpen_same|]. rewrite tryMmap_ID.
    rewrite (proj1 (ensureOpen_same (ensureOpen seg))). apply ensureOpen_same.
  - intros seg _ Hb Hl. destruct (ensureOpen_ok seg Hb Hl) as (H1 & H2 & H3). unfold ensureMmapOpened.
    destruct (is_last segs id) eqn:El; cbn [orb].
    + split_and!; [done..| |done]. intros _. by rewrite (proj1 (proj2 (ensureOpen_same seg))).
    + destruct (match seg_mmap (ensureOpen seg) with Some _ => true | None => false end); [split_and!; by done|].
      destruct (ensureOpen_ok _ H1 H3) as (H4 & H5 & H6), (tryMmap_ok _ H4 H6) as (H7 & H8 & H9).
      split_and!; [done| |done|done]. eapply seg_le_trans; [exact H2|]. by eapply seg_le_trans.
Qed.

(** The active segment after a write of a record at its end. *)
Definition after_write (seg : Segment) (file : bytes) (failed : bool) (body : bytes) : Segment :=
  if failed then {| seg with seg_file := file |} else {| seg with seg_file := file; seg_size := seg_size seg + recSize body |}.

Lemma after_write_ok seg (io : write_io) (magic : Z) (key : Key) (body file : bytes) (failed : bool) :
  seg_bounds seg -> (clean = true -> is_log seg) -> seg_mmap seg = None -> rec_ok magic key body ->
  (clean = true -> failed = false) -> writeRecordAt io (seg_file seg) (seg_size seg) magic key body = (file, failed) ->
  seg_bounds (after_write seg file failed body) /\ seg_le clean seg (after_write seg file failed body) /\
  (clean = true -> is_log (after_write seg file failed body)) /\
  (failed = false -> in_seg clean (after_write seg file failed body) (seg_size seg) (MkLogged magic key body)).
Proof.
  intros [Hsz Hmm] Hlog Hnomap Hr Hcomp Ew.
  pose proof (writeRecordAt_spec io (seg_file seg) (seg_size seg) magic key body Hsz) as Hw. rewrite Ew in Hw. destruct Hw as [Hk Hh].
  pose proof (Hr) as (_ & Hkey & _). pose proof (encodeRecord_len magic key body Hkey) as Hlen.
  pose proof (rec_size_pos body) as Hp. change (HeaderLen + FooterLen) with 28 in Hp.
  assert (Hclean : clean = true -> failed = false /\ file = seg_file seg ++ log_text [MkLogged magic key body]).
  { intros Hc. split; [by apply Hcomp|]. rewrite (Hcomp Hc), (proj1 (Hlog Hc)) in Ew. rewrite (writeRecordAt_append _ _ _ _ _ _ Ew).
    unfold log_text. cbn [map concat]. by rewrite app_nil_r. }
  assert (Forall lg_ok [MkLogged magic key body]) as Hone by by apply Forall_singleton.
  unfold after_write. destruct failed.
  - destruct Hk as [Hk1 Hk2]. split_and!; [..|by intros Hc; destruct (Hclean Hc)|done].
    + split; cbn [seg_size seg_file seg_mmap]; [lia|by rewrite Hnomap].
    + split; cbn [seg_size seg_file seg_mmap]; [by split|lia|by left|]. intros Hc. by destruct (Hclean Hc).
  - pose proof (holds_at_range _ _ _ (Hh eq_refl)) as Hrg. split_and!.
    + split; cbn [seg_size seg_file seg_mmap]; [lia|by rewrite Hnomap].
    + split; cbn [seg_size seg_file seg_mmap]; [done|lia|by left|]. intros Hc. destruct (Hclean Hc) as [_ ->]. by eexists.
    + intros Hc. destruct (Hclean Hc) as [_ ->], (Hlog Hc) as (Esz & es & Hes & E). split; cbn [seg_size seg_file].
      * rewrite Esz, len_app. f_equal. unfold log_text. cbn [map concat]. rewrite app_nil_r. symmetry. exact Hlen.
      * exists (es ++ [MkLogged magic key body]). rewrite E, log_text_app. split; [|done]. by apply Forall_app.
    + intros _. split; cbn [seg_file seg_size seg_mmap lg_body]; [by apply Hh|lia|by rewrite Hnomap|].
      intros Hc. destruct (Hclean Hc) as [_ ->], (Hlog Hc) as (Esz & es & Hes & E). exists es, [].
      rewrite Esz, E, <- log_text_app. split_and!; [|done|done]. by apply Forall_app.
Qed.

(** Appending to the active segment. *)
Lemma append_move segs segs' (io : write_io) (id magic : Z) (key : Key) (body : bytes) (r : result warm_error Z) :
  segs_inv clean next segs -> rec_ok magic key body -> (clean = true -> forall e, r <> Err e) ->
  is_last segs id = true -> append_segs io id magic key body segs = (segs', r) ->
  seg_move clean next segs segs' /\
  forall off, r = Ok off -> exists seg, find_seg segs' id = Some seg /\ in_seg clean seg off (MkLogged magic key body).
Proof.
  intros Hi Hr Hcomp Hlast. unfold append_segs. destruct (find_seg segs id) as [seg0|] eqn:Hf.
  2:{ intros [= <- <-]. split; [by apply seg_move_refl|]. by intros. }
  destruct (find_seg_Some _ _ _ Hf) as [Hin Hid].
  destruct (ensureOpen_ok seg0 (sg_bounds _ _ _ Hi _ Hin) (fun Hc => sg_log _ _ _ Hi Hc _ Hin)) as (Hb & Hle & Hlog).
  destruct (ensureOpen_same seg0) as (Eid & Emm & _).
  assert (seg_mmap (ensureOpen seg0) = None) as Hnomap by (rewrite Emm; by eapply active_unmapped).
  destruct (writeRecordAt _ _ _ _ _ _) as [file failed] eqn:Ew. intros Happ.
  assert (clean = true -> failed = false) as Hok.
  { intros Hc. destruct failed; [|done]. injection Happ as _ Er. by destruct (Hcomp Hc errIO). }
  destruct (after_write_ok _ _ _ _ _ _ _ Hb Hlog Hnomap Hr Hok Ew) as (H1 & H2 & H3 & H4).
  set (seg' := after_write (ensureOpen seg0) file failed body) in *.
  assert (seg_ID seg' = id /\ seg_mmap seg' = None) as [H5 H6] by (unfold seg', after_write; destruct failed; cbn; by rewrite ?Eid).
  assert (Hmv : seg_move clean next segs (update_segs id (fun _ => seg') segs)).
  { split.
    - apply update_segs_inv; [done|done|]. intros x Hx. by split_and!.
    - apply update_segs_le; [done|]. intros x Hx. rewrite Hf in Hx. injection Hx as <-. by eapply seg_le_trans.
    - intros id'. by apply is_last_update. }
  assert (find_seg (update_segs id (fun _ => seg') segs) id = Some seg') as Hfs
    by (rewrite find_seg_update by done; by rewrite Z.eqb_refl, Hf).
  unfold seg', after_write in *. destruct failed; injection Happ as <- <-; (split; [exact Hmv|]); [by intros|]. intros off [= <-]. eauto.
Qed.
End Moves.

(** *** Sealing *)

Section Seal.
Context (clean : bool).

Lemma seal_inv (next mx : Z) (segs : list Segment) (f : Segment -> Segment) (id : Z) : segs_inv clean next segs ->
  (forall seg, seg_ID (f seg) = seg_ID seg) ->
  (forall seg, seg_bounds seg -> (clean = true -> is_log seg) -> seg_bounds (f seg) /\ seg_le clean seg (f seg) /\ (clean = true -> is_log (f seg))) ->
  segs_inv clean (next + 1) (update_segs id f segs ++ [MkSegment next 0 mx true None []]) /\
  segs_le clean next segs (update_segs id f segs ++ [MkSegment next 0 mx true None []]).
Proof.
  intros Hi Hid Hf. set (new := MkSegment next 0 mx true None []). set (segs1 := update_segs id f segs).
  assert (Hid' : forall seg, seg_ID seg = id -> seg_ID (f seg) = id) by (intros; by rewrite Hid).
  assert (Hel : forall x, x ∈ segs1 -> seg_ID x < next /\ seg_bounds x /\ (clean = true -> is_log x)).
  { intros x (y & Hy & Hxy)%update_elem; [|apply Hi]. pose proof (sg_next _ _ _ Hi y Hy). pose proof (sg_bounds _ _ _ Hi y Hy) as Hb.
    pose proof (fun Hc => sg_log _ _ _ Hi Hc y Hy) as Hl. destruct Hxy as [(_ & -> & _) | (_ & ->)]; [|by split_and!].
    rewrite Hid. destruct (Hf y Hb Hl) as (? & _ & ?). by split_and!. }
  assert (Hcase : forall x, x ∈ segs1 ++ [new] -> x ∈ segs1 \/ x = new).
  { intros x Hx. rewrite elem_of_app, list_elem_of_singleton in Hx. done. }
  split; [split|].
  - rewrite map_app. unfold segs1. rewrite update_ids by done. apply NoDup_app. split_and!; [apply Hi| |apply NoDup_singleton].
    intros x (seg & -> & Hs)%list_elem_of_fmap Hx. apply list_elem_of_singleton in Hx. pose proof (sg_next _ _ _ Hi seg Hs). simpl in Hx. lia.
  - intros x [Hx | ->]%Hcase; [destruct (Hel x Hx); lia|simpl; lia].
  - intros x [Hx | ->]%Hcase; [by apply Hel|]. by split.
  - intros l. rewrite last_snoc. by intros [= <-].
  - intros Hc x [Hx | ->]%Hcase; [by apply Hel|]. split; [done|]. by exists [].
  - apply (segs_le_trans clean next next _ segs1); [lia|..].
    + apply update_segs_le; [done|]. intros seg Hs. destruct (find_seg_Some _ _ _ Hs) as [Hin _].
      apply Hf; [by apply (sg_bounds _ _ _ Hi)|]. intros Hc. by apply (sg_log _ _ _ Hi).
    + split.
      * intros id' seg Hs. exists seg. rewrite find_seg_app. destruct (find_seg_Some _ _ _ Hs) as [Hin E].
        destruct (Hel seg Hin) as [Hlt _]. rewrite (proj2 (Z.eqb_neq _ _)) by (unfold new; cbn [seg_ID]; lia). split; [done|apply seg_le_refl].
      * intros id' Hlt Hn. rewrite find_seg_app, (proj2 (Z.eqb_neq _ _)) by (unfold new; cbn [seg_ID]; lia). done.
Qed.

Lemma newSegment_ok (s : Store) : segs_inv clean (w_nextID s) (w_segs s) ->
  segs_inv clean (w_nextID (newSegment s)) (w_segs (newSegment s)) /\
  segs_le clean (w_nextID s) (w_segs s) (w_segs (newSegment s)) /\ w_nextID s <= w_nextID (newSegment s) /\
  (forall id, id < w_nextID s -> is_last (w_segs s) id = false -> is_last (w_segs (newSegment s)) id = false) /\
  newSegment s = {| s with w_segs := w_segs (newSegment s); w_nextID := w_nextID (newSegment s) |}.
Proof.
  intros Hi. unfold newSegment. destruct (activeSegRLocked s) as [[s1 id1]|e] eqn:Ea.
  - unfold activeSegRLocked in Ea. destruct (last (w_segs s)) as [l|] eqn:El; [|done]. destruct (seg_full l); [done|]. injection Ea as <- <-.
    destruct (open_move clean (w_nextID s) (w_segs s) (seg_ID l) Hi) as [H1 H2 H3]. split_and!; [done|done|done| |done].
    intros id _ Hl. cbn [w_segs update_seg]. by rewrite H3.
  - assert (Hseal : forall seg, seg_bounds seg -> (clean = true -> is_log seg) ->
      seg_bounds (tryMmap (ensureOpen seg)) /\ seg_le clean seg (tryMmap (ensureOpen seg)) /\ (clean = true -> is_log (tryMmap (ensureOpen seg)))).
    { intros seg Hb Hl. destruct (ensureOpen_ok clean seg Hb Hl) as (H1 & H2 & H3), (tryMmap_ok clean _ H1 H3) as (H4 & H5 & H6).
      split_and!; [done| |done]. by eapply seg_le_trans. }
    assert (Hsid : forall seg, seg_ID (tryMmap (ensureOpen seg)) = seg_ID seg) by (intros; rewrite tryMmap_ID; apply ensureOpen_same).
    assert (Hnew : forall id segs x, id < w_nextID s -> seg_ID x = w_nextID s -> is_last (segs ++ [x]) id = false).
    { intros id segs x Hlt E. unfold is_last. rewrite last_snoc, E. apply Z.eqb_neq. lia. }
    cbn [w_segs w_nextID w_segMax]. destruct (last (w_segs s)) as [old|] eqn:El; cbn [w_segs w_nextID w_segMax update_seg].
    + destruct (seal_inv (w_nextID s) (w_segMax s) _ _ (seg_ID old) Hi Hsid Hseal). split_and!; [done|done|lia| |done].
      intros id Hlt _. by apply Hnew.
    + destruct (w_segs s) as [|x segs] eqn:Es; [|by rewrite last_cons in El; destruct (last segs)].
      destruct (seal_inv (w_nextID s) (w_segMax s) [] id 0 Hi ltac:(done)) as [H1 H2].
      { intros seg Hb Hl. split_and!; [done|apply seg_le_refl|done]. }
      split_and!; [done|done|lia| |done]. intros id Hlt _. by apply Hnew.
Qed.
End Seal.

(** ** The transition system *)

(** Operations in flight: a put or a delete that has written its record, a get
    that has looked its key up (with the body the key had then), and a get
    about to drop the entry it found stale. *)
Inductive wop : Type :=
  | OpPut (key : Key) (body : bytes) (id off : Z)
  | OpDel (key : Key)
  | OpGet (key : Key) (loc : option warmLoc) (body : option bytes)
  | OpDrop (key : Key) (loc : warmLoc).

(** The progress of [CompactSegment]: after the scan; after the temporary file. *)
Inductive wcomp : Type :=
  | CIdle
  | CScanned (id : Z) (pending : list pendingRec)
  | CWritten (id newID : Z) (file : bytes) (recs : list compactRec).

Record wsys : Type := MkSys { sy_store : Store; sy_ops : list wop; sy_comp : wcomp; sy_model : gmap Key bytes }.

(** An empty directory. *)
Definition wsys_init (segMax maxBytes maxEntries : Z) : wsys := MkSys (NewStore segMax maxBytes maxEntries []) [] CIdle ∅.

Section System.
Context {P : EvictionPolicy Key} (pool_get : List Key -> addr).
(** [clean]: no write fails. *)
Context (clean : bool).

Definition io_fits (io : write_io) : Prop := clean = true -> io_complete io.
Definition write_fits {A} (r : result warm_error A) : Prop := clean = true -> forall e, r <> Err e.

(** The copy of the index [Compact] works from: since it was taken, entries may
    have been protected, unprotected or visited. *)
Definition same_places (a b : gmap Key wloc) : Prop :=
  forall k, (fun w => (segID (at_loc w), offset (at_loc w))) <$> a !! k = (fun w => (segID (at_loc w), offset (at_loc w))) <$> b !! k.

Inductive wstep : wsys -> wsys -> Prop :=
  | ws_evict ios n s ops c m s' ios' ks e :
      Forall io_fits ios -> evictToFitBatchLocked pool_get ios n s = (s', ios', ks, e) ->
      wstep (MkSys s ops c m) (MkSys s' ops c (remove_keys ks m))
  | ws_seal s c m : wstep (MkSys s [] c m) (MkSys (newSegment s) [] c m)
  | ws_put_write io key body s s1 s2 id r ops c m :
      rec_ok magicLive key body -> write_fits r -> activeSegRLocked s = Ok (s1, id) ->
      append_record io id magicLive key body s1 = (s2, r) ->
      wstep (MkSys s ops c m) (MkSys s2 (match r with Ok off => OpPut key body id off :: ops | Err _ => ops end) c m)
  | ws_put_index key body id off s l1 l2 c m :
      wstep (MkSys s (l1 ++ OpPut key body id off :: l2) c m)
            (MkSys (put_index pool_get key id off (recSize body) s) (l1 ++ l2) c (<[key := body]> m))
  | ws_del_write io key s s1 s2 id r ops c m :
      rec_ok magicDead key [] -> write_fits r -> activeSegRLocked s = Ok (s1, id) ->
      append_record io id magicDead key [] s1 = (s2, r) ->
      wstep (MkSys s ops c m) (MkSys s2 (match r with Ok _ => OpDel key :: ops | Err _ => ops end) c m)
  | ws_del_index key s l1 l2 c m :
      wstep (MkSys s (l1 ++ OpDel key :: l2) c m) (MkSys (delete_index key s) (l1 ++ l2) c (delete key m))
  | ws_lookup key s ops c m : wstep (MkSys s ops c m) (MkSys s (OpGet key (locs s !! key) (m !! key) :: ops) c m)
  | ws_miss key body s l1 l2 c m : wstep (MkSys s (l1 ++ OpGet key None body :: l2) c m) (MkSys s (l1 ++ l2) c m)
  | ws_read key loc body s s' r l1 l2 c m :
      read_at loc s = (s', r) ->
      wstep (MkSys s (l1 ++ OpGet key (Some loc) body :: l2) c m)
            (MkSys s' (match r with RStale => OpDrop key loc :: l1 ++ l2 | _ => l1 ++ l2 end) c m)
  | ws_drop key loc s l1 l2 c m :
      wstep (MkSys s (l1 ++ OpDrop key loc :: l2) c m) (MkSys (dropStaleIndex key loc s) (l1 ++ l2) c m)
  | ws_visit key loc s ops c m : wstep (MkSys s ops c m) (MkSys (mark_visited_at key loc s) ops c m)
  | ws_protect key s ops c m : wstep (MkSys s ops c m) (MkSys (Protect key s) ops c m)
  | ws_unprotect key s ops c m : wstep (MkSys s ops c m) (MkSys (Unprotect key s) ops c m)
  | ws_close id s ops c m : wstep (MkSys s ops c m) (MkSys (update_seg id closeIfIdle s) ops c m)
  | ws_scan id s s' r ops m :
      compact_scan id s = (s', r) ->
      wstep (MkSys s ops CIdle m) (MkSys s' ops (match r with Ok pending => CScanned id pending | Err _ => CIdle end) m)
  | ws_temp ios id pending s s' r ops m :
      writeCompactTemp ios pending s = (s', r) ->
      wstep (MkSys s ops (CScanned id pending) m)
            (MkSys s' ops (match r with Ok (newID, file, recs) => CWritten id newID file recs | Err _ => CIdle end) m)
  | ws_swap renamed id newID file recs s m :
      wstep (MkSys s [] (CWritten id newID file recs) m) (MkSys (swapCompactSegment renamed id newID file recs s).1 [] CIdle m)
  | ws_compact snap ios listed s s' e m :
      same_places snap (w_index s) -> compact_from pool_get snap ios listed s = (s', e) -> (forall seg, seg ∈ w_segs s' -> seg_ID seg < w_nextID s) ->
      wstep (MkSys s [] CIdle m) (MkSys s' [] CIdle m).

(** ** The invariant *)

(** The record at [loc] is [key]'s, with [body]; or, after failed writes, its
    segment is gone. *)
Record loc_ok (segs : list Segment) (next : Z) (loc : warmLoc) (key : Key) (body : bytes) : Prop := {
  lo_size : Snapshot.size loc = recSize body;
  lo_rec : rec_ok magicLive key body;
  lo_next : segID loc < next;
  lo_seg : (exists seg, find_seg segs (segID loc) = Some seg /\ in_seg clean seg (offset loc) (MkLogged magicLive key body)) \/
           (clean = false /\ find_seg segs (segID loc) = None);
}.

Definition op_ok (segs : list Segment) (next : Z) (op : wop) : Prop :=
  match op with
  | OpPut key body id off => loc_ok segs next (MkLoc id off (recSize body) false) key body /\ is_last segs id = true /\ is_Some (find_seg segs id)
  | OpDel _ => True
  | OpGet key (Some loc) b => exists body, b = Some body /\ loc_ok segs next loc key body
  | OpGet _ None b => clean = true -> b = None
  | OpDrop _ _ => clean = false
  end.

(** What a compaction of segment [id] relies on until the swap: the keys still
    there have the bodies it copied, and it copied all of them. *)
Record pending_ok (idx : gmap Key warmLoc) (m : gmap Key bytes) (id : Z) (pending : list pendingRec) : Prop := {
  pd_rec : forall p, p ∈ pending -> rec_ok magicLive (p_key p) (p_body p);
  pd_body : forall p loc, p ∈ pending -> idx !! p_key p = Some loc -> segID loc = id -> m !! p_key p = Some (p_body p);
  pd_all : clean = true -> forall k loc, idx !! k = Some loc -> segID loc = id -> exists p, p ∈ pending /\ p_key p = k;
}.
Definition sealed (segs : list Segment) (next id : Z) : Prop := id < next /\ is_last segs id = false.
Definition live (p : pendingRec) : logged := MkLogged magicLive (p_key p) (p_body p).
Fixpoint recs_of (newID off : Z) (pending : list pendingRec) : list compactRec :=
  match pending with
  | [] => []
  | p :: pending => MkCompact (p_key p) newID off (recSize (p_body p)) :: recs_of newID (off + recSize (p_body p)) pending
  end.

Definition comp_ok (segs : list Segment) (next : Z) (idx : gmap Key warmLoc) (m : gmap Key bytes) (c : wcomp) : Prop :=
  match c with
  | CIdle => True
  | CScanned id pending => sealed segs next id /\ pending_ok idx m id pending
  | CWritten id newID file recs =>
      sealed segs next id /\ newID < next /\ newID <> id /\ find_seg segs newID = None /\
      (forall k loc, idx !! k = Some loc -> segID loc <> newID) /\
      exists pending, pending_ok idx m id pending /\ file = log_text (map live pending) /\ recs = recs_of newID 0 pending
  end.

Record sys_inv (st : wsys) : Prop := {
  sv_segs : segs_inv clean (w_nextID (sy_store st)) (w_segs (sy_store st));
  sv_idx : idx_inv (sy_store st);
  sv_locs : forall k loc, locs (sy_store st) !! k = Some loc ->
      exists body, sy_model st !! k = Some body /\ loc_ok (w_segs (sy_store st)) (w_nextID (sy_store st)) loc k body;
  sv_all : clean = true -> forall k, is_Some (sy_model st !! k) -> is_Some (locs (sy_store st) !! k);
  sv_ops : Forall (op_ok (w_segs (sy_store st)) (w_nextID (sy_store st))) (sy_ops st);
  sv_comp : comp_ok (w_segs (sy_store st)) (w_nextID (sy_store st)) (locs (sy_store st)) (sy_model st) (sy_comp st);
}.

(** *** Preservation *)

Section Preservation.
Context (pool_get_unused : forall l, heap l !! pool_get l = None).
Implicit Types (s : Store) (segs : list Segment) (idx : gmap Key warmLoc) (m : gmap Key bytes).

Definition same_place (l l' : warmLoc) : Prop :=
  segID l' = segID l /\ offset l' = offset l /\ Snapshot.size l' = Snapshot.size l.

Lemma loc_ok_le segs segs' (next next' : Z) (l l' : warmLoc) (key : Key) (body : bytes) :
  segs_le clean next segs segs' -> next <= next' -> same_place l l' -> loc_ok segs next l key body -> loc_ok segs' next' l' key body.
Proof.
  intros [Hf Hn] Hle (E1 & E2 & E3) [Hs Hr Hx Hg]. split; [congruence|done|lia|]. rewrite E1, E2. destruct Hg as [(seg & Hseg & Hin) | [Hc Hnone]].
  - left. destruct (Hf _ _ Hseg) as (seg' & Hseg' & Hl). exists seg'. split; [done|]. by eapply in_seg_le.
  - right. split; [done|]. by apply Hn.
Qed.

Lemma op_ok_move segs segs' (next : Z) (op : wop) : seg_move clean next segs segs' -> op_ok segs next op -> op_ok segs' next op.
Proof.
  intros [_ Hle Hl]. destruct op as [key body id off|key|key [loc|] b|key loc]; cbn [op_ok]; try done.
  - intros (H1 & H2 & [seg Hs]). split_and!; [by eapply loc_ok_le; [exact Hle|lia|done|]|by rewrite Hl|].
    destruct (le_find _ _ _ _ Hle _ _ Hs) as (seg' & H' & _). eauto.
  - intros (body & E & H). exists body. split; [done|]. by eapply loc_ok_le; [exact Hle|lia|done|].
Qed.

(** Entries go, stay, or appear in the active segment. *)
Definition idx_from segs idx idx' m m' : Prop :=
  forall k loc, idx' !! k = Some loc ->
    (exists loc0, idx !! k = Some loc0 /\ segID loc = segID loc0 /\ m' !! k = m !! k) \/
    (is_last segs (segID loc) = true /\ is_Some (find_seg segs (segID loc))).

Lemma pending_ok_from segs idx idx' m m' (next id : Z) (pending : list pendingRec) :
  idx_from segs idx idx' m m' -> sealed segs next id -> pending_ok idx m id pending -> pending_ok idx' m' id pending.
Proof.
  intros Hfrom [_ Hl] [Hr Hb Ha]. split; [done|..].
  - intros p loc Hp Hk Hid. destruct (Hfrom _ _ Hk) as [(loc0 & Hk0 & E & Em) | [Hl' _]]; [|congruence].
    rewrite Em. apply (Hb p loc0); [done|done|congruence].
  - intros Hc k loc Hk Hid. destruct (Hfrom _ _ Hk) as [(loc0 & Hk0 & E & _) | [Hl' _]]; [|congruence].
    apply (Ha Hc k loc0); [done|congruence].
Qed.

Lemma comp_ok_from segs segs' idx idx' m m' (next next' : Z) (c : wcomp) : segs_le clean next segs segs' -> next <= next' ->
  (forall id, id < next -> is_last segs id = false -> is_last segs' id = false) ->
  idx_from segs idx idx' m m' -> comp_ok segs next idx m c -> comp_ok segs' next' idx' m' c.
Proof.
  intros Hle Hnext Hl Hfrom. assert (Hsl : forall id, sealed segs next id -> sealed segs' next' id).
  { intros id [H1 H2]. split; [lia|]. by apply Hl. }
  destruct c as [|id pending|id newID file recs]; cbn [comp_ok]; [done|..].
  - intros [H1 H2]. split; [by apply Hsl|]. by eapply pending_ok_from.
  - intros (H1 & H2 & H3 & H4 & H5 & pending & H6 & H7 & H8). split; [by apply Hsl|]. split_and!; [lia|done|by apply (le_none _ _ _ _ Hle)| |].
    + intros k loc Hk. destruct (Hfrom _ _ Hk) as [(loc0 & Hk0 & E & _) | [_ [seg Hs]]]; [rewrite E; by eapply H5|]. intros E. rewrite E in Hs. congruence.
    + exists pending. split_and!; [|done|done]. by eapply pending_ok_from.
Qed.

(** Steps under the read lock that only remove entries. *)
Lemma inv_shrink s s' (ops ops' : list wop) (c : wcomp) m m' :
  sys_inv (MkSys s ops c m) -> idx_inv s' -> w_nextID s' = w_nextID s -> seg_move clean (w_nextID s) (w_segs s) (w_segs s') ->
  (forall k loc, locs s' !! k = Some loc -> exists loc0, locs s !! k = Some loc0 /\ same_place loc0 loc /\ m' !! k = m !! k) ->
  (clean = true -> forall k, is_Some (m' !! k) -> is_Some (locs s' !! k)) ->
  Forall (op_ok (w_segs s) (w_nextID s)) ops' -> sys_inv (MkSys s' ops' c m').
Proof.
  intros [Hsegs Hidx Hlocs Hall Hops Hcomp] Hi' En Hmv Hl Ha Ho. cbn [sy_store sy_ops sy_comp sy_model] in *.
  split; cbn [sy_store sy_ops sy_comp sy_model]; rewrite ?En; [apply Hmv|done| |done|..].
  - intros k loc Hk. destruct (Hl k loc Hk) as (loc0 & Hk0 & Hsp & Em). destruct (Hlocs k loc0 Hk0) as (body & Hb & Hok).
    exists body. rewrite Em. split; [done|]. by eapply loc_ok_le; [apply Hmv|lia|exact Hsp|].
  - eapply Forall_impl; [exact Ho|]. intros op. by apply op_ok_move.
  - eapply comp_ok_from; [apply Hmv|lia| | |exact Hcomp].
    + intros id _ H. by rewrite (mv_last _ _ _ _ Hmv).
    + intros k loc Hk. left. destruct (Hl k loc Hk) as (loc0 & Hk0 & (E & _) & Em). eauto.
Qed.

(** Steps that only move segments. *)
Lemma inv_move s segs' (ops ops' : list wop) (c : wcomp) m :
  sys_inv (MkSys s ops c m) -> seg_move clean (w_nextID s) (w_segs s) segs' -> Forall (op_ok (w_segs s) (w_nextID s)) ops' ->
  sys_inv (MkSys {| s with w_segs := segs' |} ops' c m).
Proof.
  intros Hi Hmv Ho. eapply inv_shrink; [exact Hi|..|exact Ho]; try done.
  - destruct Hi as [_ [Hl Hc] _ _ _ _]. split; [done|]. by destruct Hc.
  - intros k loc Hk. by exists loc.
  - intros Hc k Hk. by apply (sv_all _ Hi Hc).
Qed.

Lemma ops_mid (l1 l2 : list wop) (op : wop) segs (next : Z) :
  Forall (op_ok segs next) (l1 ++ op :: l2) -> op_ok segs next op /\ Forall (op_ok segs next) (l1 ++ l2).
Proof. rewrite !Forall_app, Forall_cons. tauto. Qed.

(** The steps of an append: opening the active segment, then the write. *)
Lemma active_move s s1 (id : Z) : segs_inv clean (w_nextID s) (w_segs s) -> activeSegRLocked s = Ok (s1, id) ->
  (exists segs, s1 = {| s with w_segs := segs |} /\ seg_move clean (w_nextID s) (w_segs s) segs) /\
  is_last (w_segs s1) id = true /\ is_Some (find_seg (w_segs s1) id).
Proof.
  intros Hi. unfold activeSegRLocked. destruct (last (w_segs s)) as [l|] eqn:El; [|done]. destruct (seg_full l); [done|]. intros [= <- <-].
  pose proof (open_move clean _ _ (seg_ID l) Hi) as Hmv. split; [by eexists|]. cbn [w_segs update_seg]. rewrite (mv_last _ _ _ _ Hmv). split.
  - unfold is_last. rewrite El. apply Z.eqb_refl.
  - rewrite find_seg_update by (intros ? <-; apply ensureOpen_same). rewrite Z.eqb_refl.
    rewrite find_seg_elem; [eauto|apply Hi|by apply last_Some_elem_of].
Qed.

Lemma write_step_inv s s1 s2 (ops : list wop) (c : wcomp) m (io : write_io) (id magic : Z) (key : Key) (body : bytes) (r : result warm_error Z) :
  sys_inv (MkSys s ops c m) -> rec_ok magic key body -> write_fits r -> activeSegRLocked s = Ok (s1, id) ->
  append_record io id magic key body s1 = (s2, r) ->
  sys_inv (MkSys s2 ops c m) /\ is_last (w_segs s2) id = true /\ w_nextID s2 = w_nextID s /\
  forall off, r = Ok off -> exists seg, find_seg (w_segs s2) id = Some seg /\ in_seg clean seg off (MkLogged magic key body).
Proof.
  intros Hi Hr Hc Ha Hw. destruct (active_move s s1 id (sv_segs _ Hi) Ha) as ((segs & -> & Hmv) & Hl & _).
  apply append_record_segs in Hw as (segs2 & -> & Hw). cbn [w_segs] in *.
  destruct (append_move clean _ _ _ _ _ _ _ _ _ (mv_inv _ _ _ _ Hmv) Hr Hc Hl Hw) as [Hmv2 Hoff].
  split_and!; [|by rewrite (mv_last _ _ _ _ Hmv2)|done|done].
  apply (inv_move s segs2 ops ops c m Hi); [|apply (sv_ops _ Hi)]. by eapply seg_move_trans.
Qed.

(** *** Index updates *)

Lemma put_index_step s (key : Key) (body : bytes) (id off : Z) (l1 l2 : list wop) (c : wcomp) m :
  sys_inv (MkSys s (l1 ++ OpPut key body id off :: l2) c m) ->
  sys_inv (MkSys (put_index pool_get key id off (recSize body) s) (l1 ++ l2) c (<[key := body]> m)).
Proof.
  intros Hi. pose proof Hi as [Hsegs Hidx Hlocs Hall Hops Hcomp]. cbn [sy_store sy_ops sy_comp sy_model] in *.
  apply ops_mid in Hops as [(Hok & Hlast & Hfind) Hops].
  pose proof (rec_size_pos body) as Hp. change (HeaderLen + FooterLen) with 28 in Hp.
  destruct (put_index_inv pool_get pool_get_unused key id off (recSize body) s ltac:(lia) Hidx) as [Hi' El].
  assert (w_segs (put_index pool_get key id off (recSize body) s) = w_segs s /\
          w_nextID (put_index pool_get key id off (recSize body) s) = w_nextID s) as [Es En] by (split; apply put_index_frame).
  split; cbn [sy_store sy_ops sy_comp sy_model]; rewrite ?Es, ?En, ?El; [done|done|..|done|].
  - intros k loc. rewrite lookup_insert_Some. intros [[<- <-] | [Hne Hk]]; [exists body; by rewrite lookup_insert_eq|].
    rewrite lookup_insert_ne by done. by apply Hlocs.
  - intros Hc k Hk. destruct (decide (k = key)) as [->|]; [by rewrite lookup_insert_eq|].
    rewrite lookup_insert_ne in Hk by done. rewrite lookup_insert_ne by done. by apply Hall.
  - eapply (comp_ok_from (w_segs s)); [apply segs_le_refl|apply Z.le_refl|done| |exact Hcomp].
    intros k loc. rewrite lookup_insert_Some. intros [[<- <-] | [Hne Hk]]; [by right|]. left. exists loc. by rewrite lookup_insert_ne.
Qed.

Lemma delete_index_step s (key : Key) (l1 l2 : list wop) (c : wcomp) m :
  sys_inv (MkSys s (l1 ++ OpDel key :: l2) c m) -> sys_inv (MkSys (delete_index key s) (l1 ++ l2) c (delete key m)).
Proof.
  intros Hi. pose proof (ops_mid _ _ _ _ _ (sv_ops _ Hi)) as [_ Hops]. pose proof (sv_idx _ Hi) as Hidx. cbn [sy_store] in Hidx.
  assert (idx_inv (delete_index key s) /\ locs (delete_index key s) = delete key (locs s) /\ w_segs (delete_index key s) = w_segs s /\
          w_nextID (delete_index key s) = w_nextID s) as (Hi' & El & Es & En).
  { unfold delete_index. destruct (w_index s !! key) as [w|] eqn:Hk; [by destruct (remove_entry_inv key w s Hidx Hk)|].
    split_and!; [done| |done|done]. rewrite delete_id; [done|]. by rewrite locs_lookup, Hk. }
  eapply inv_shrink; [exact Hi|done|done| | | |exact Hops].
  - rewrite Es. apply seg_move_refl, (sv_segs _ Hi).
  - intros k loc. rewrite El, lookup_delete_Some. intros [Hne Hk]. exists loc. by rewrite lookup_delete_ne.
  - intros Hc k. rewrite El. destruct (decide (k = key)) as [->|]; [by rewrite lookup_delete_eq; intros [? ?]|].
    rewrite !lookup_delete_ne by done. apply (sv_all _ Hi Hc).
Qed.

Lemma dropStale_step s (key : Key) (stale : warmLoc) (l1 l2 : list wop) (c : wcomp) m :
  sys_inv (MkSys s (l1 ++ OpDrop key stale :: l2) c m) -> sys_inv (MkSys (dropStaleIndex key stale s) (l1 ++ l2) c m).
Proof.
  intros Hi. pose proof (ops_mid _ _ _ _ _ (sv_ops _ Hi)) as [Hc Hops]. pose proof (sv_idx _ Hi) as Hidx. cbn [sy_store op_ok] in Hidx, Hc.
  assert (idx_inv (dropStaleIndex key stale s) /\ w_segs (dropStaleIndex key stale s) = w_segs s /\ w_nextID (dropStaleIndex key stale s) = w_nextID s /\
    forall k loc, locs (dropStaleIndex key stale s) !! k = Some loc -> locs s !! k = Some loc) as (Hi' & Es & En & Hl).
  { unfold dropStaleIndex. destruct (w_index s !! key) as [w|] eqn:Hk; [|done]. destruct (_ && _); [|done].
    destruct (remove_entry_inv key w s Hidx Hk) as [[H1 [H2 H3 H4 H5]] El]. split_and!; [|done|done|].
    - by split; [done|split].
    - intros k loc Hk'. assert (locs (remove_entry key w s) !! k = Some loc) as H by exact Hk'.
      rewrite El, lookup_delete_Some in H. by destruct H. }
  eapply inv_shrink; [exact Hi|done|done| | | |exact Hops].
  - rewrite Es. apply seg_move_refl, (sv_segs _ Hi).
  - intros k loc Hk. exists loc. split_and!; [by apply Hl|done|done].
  - congruence.
Qed.

(** Steps that change neither the segments nor a location. *)
Lemma inv_relist s s' (ops : list wop) (c : wcomp) m : sys_inv (MkSys s ops c m) -> idx_inv s' ->
  w_segs s' = w_segs s -> w_nextID s' = w_nextID s ->
  (forall k, locs s' !! k = locs s !! k \/ exists l b, locs s !! k = Some l /\ locs s' !! k = Some {| l with protected := b |}) ->
  sys_inv (MkSys s' ops c m).
Proof.
  intros Hi Hi' Es En Hl. eapply inv_shrink; [exact Hi|done|done| | | |apply (sv_ops _ Hi)].
  - rewrite Es. apply seg_move_refl, (sv_segs _ Hi).
  - intros k loc Hk. destruct (Hl k) as [E | (l & b & Hk0 & E)]; [exists loc; by rewrite <- E|].
    rewrite Hk in E. injection E as ->. by exists l.
  - intros Hc k Hk. pose proof (sv_all _ Hi Hc k Hk) as Hs. cbn [sy_store] in Hs. destruct (Hl k) as [-> | (l & b & _ & ->)]; eauto.
Qed.

Lemma mark_step s (key : Key) (loc : warmLoc) (ops : list wop) (c : wcomp) m :
  sys_inv (MkSys s ops c m) -> sys_inv (MkSys (mark_visited_at key loc s) ops c m).
Proof.
  intros Hi. unfold mark_visited_at. destruct (w_index s !! key) as [w|]; [|done]. destruct (_ && _); [|done].
  eapply inv_relist; [exact Hi|apply mark_inv, (sv_idx _ Hi)|done|done|]. by left.
Qed.

Lemma protect_step s (key : Key) (ops : list wop) (c : wcomp) m :
  sys_inv (MkSys s ops c m) -> sys_inv (MkSys (Protect key s) ops c m) /\ sys_inv (MkSys (Unprotect key s) ops c m).
Proof.
  intros Hi. assert (Hins : forall w b k, w_index s !! key = Some w ->
    let l := at_loc <$> <[key := MkWLoc {| (at_loc w) with protected := b |} (at_entry w)]> (w_index s) in
    l !! k = locs s !! k \/ exists l0 b, locs s !! k = Some l0 /\ l !! k = Some {| l0 with protected := b |}).
  { intros w b k Hk l. unfold l. rewrite fmap_insert. destruct (decide (k = key)) as [->|]; [|left; by rewrite lookup_insert_ne].
    right. exists (at_loc w), b. by rewrite lookup_insert_eq, locs_lookup, Hk. }
  split; (eapply inv_relist; [exact Hi|first [apply Protect_inv | apply Unprotect_inv]; apply (sv_idx _ Hi)|..]);
    unfold Protect, Unprotect; destruct (w_index s !! key) as [w|] eqn:Hk; try done; try (by left);
    destruct (protected (at_loc w)); try done; try (by left); intros k; by apply Hins.
Qed.

(** *** Eviction *)

Lemma remove_keys_lookup {A} (ks : list Key) : forall (mm : gmap Key A) (k : Key) (x : A),
  remove_keys ks mm !! k = Some x <-> k ∉ ks /\ mm !! k = Some x.
Proof.
  induction ks as [|k' ks IH]; intros mm k x; [set_solver|]. unfold remove_keys in *. cbn [fold_left].
  rewrite IH, lookup_delete_Some. set_solver.
Qed.

Lemma tombs_move segs segs' (next id : Z) (ios : list write_io) idx : segs_inv clean next segs ->
  (forall k, is_Some (idx !! k) -> wf_key k) -> Forall io_fits ios -> is_last segs id = true ->
  rtc (tomb_step id ios idx) segs segs' -> seg_move clean next segs segs'.
Proof.
  intros Hi Hk Hios Hl Hrtc. revert Hi Hl. induction Hrtc as [segs|segs segs1 segs2 Hs _ IH]; intros Hi Hl; [by apply seg_move_refl|].
  destruct Hs as (io & k & r & Hio & Hkk & Ha). specialize (Hk k Hkk).
  assert (io_fits io) as Hc.
  { destruct Hio as [Hin | ->]; [by eapply Forall_forall|]. intros _. apply io_done_complete. }
  assert (rec_ok magicDead k []) as Hr by (split_and!; [unfold in_u32, magicDead; lia|done|done]).
  assert (clean = true -> forall e, r <> Err e) as Hw.
  { intros Hcl e ->. unfold append_segs in Ha. destruct (find_seg segs id) as [seg|] eqn:Hf.
    - pose proof (Hc Hcl (seg_file (ensureOpen seg)) (seg_size (ensureOpen seg)) magicDead k []) as Hw.
      destruct (writeRecordAt _ _ _ _ _ _) as [file failed]. cbn [snd] in Hw. by rewrite Hw in Ha.
    - unfold is_last in Hl. destruct (last segs) as [l|] eqn:El; [|done]. apply Z.eqb_eq in Hl. subst id.
      rewrite find_seg_elem in Hf; [done|apply Hi|by apply last_Some_elem_of]. }
  destruct (append_move clean next _ _ _ _ _ _ _ _ Hi Hr Hw Hl Ha) as [Hmv _].
  eapply seg_move_trans; [exact Hmv|]. apply IH; [apply Hmv|]. by rewrite (mv_last _ _ _ _ Hmv).
Qed.

Lemma evict_step s s' (ops : list wop) (c : wcomp) m (ios ios' : list write_io) (n : Z) (ks : list Key) (e : option warm_error) :
  sys_inv (MkSys s ops c m) -> Forall io_fits ios -> evictToFitBatchLocked pool_get ios n s = (s', ios', ks, e) ->
  sys_inv (MkSys s' ops c (remove_keys ks m)).
Proof.
  intros Hi Hios. unfold evictToFitBatchLocked. destruct (_ && _); [by intros [= <- <- <- <-]|]. destruct (_ && _); [by intros [= <- <- <- <-]|].
  destruct (fitsBudgets n s); [by intros [= <- <- <- <-]|].
  destruct (activeSegRLocked s) as [[s1 id]|e'] eqn:Ea; [|by intros [= <- <- <- <-]].
  destruct (active_move s s1 id (sv_segs _ Hi) Ea) as ((segs & -> & Hmv) & Hl & _).
  pose proof (inv_move s segs ops ops c m Hi Hmv (sv_ops _ Hi)) as Hi1.
  generalize (S (base.size (w_index {| s with w_segs := segs |}))). intros fuel.
  destruct (evict_loop pool_get fuel ios id n _) as [[[s2 ios2] ks2] ok] eqn:El. intros [= <- <- <- <-].
  apply evict_loop_inv in El as ([Hi2 Hst Hrtc Eloc Hks Hnd] & _); [|done|apply (sv_idx _ Hi1)].
  eapply inv_shrink; [exact Hi1|done|apply Hst| | | |apply (sv_ops _ Hi1)].
  - eapply tombs_move; [apply (sv_segs _ Hi1)| |exact Hios|exact Hl|exact Hrtc].
    intros k [loc Hk]. destruct (sv_locs _ Hi1 k loc Hk) as (body & _ & Hok). apply (lo_rec _ _ _ _ _ Hok).
  - intros k loc. rewrite Eloc. intros [Hn Hk]%remove_keys_lookup. exists loc. split_and!; [done|done|].
    apply option_eq. intros x. rewrite remove_keys_lookup. naive_solver.
  - intros Hc k [x [Hn Hx]%remove_keys_lookup]. destruct (sv_all _ Hi1 Hc k) as [loc Hk]; [eauto|]. exists loc. rewrite Eloc.
    by apply remove_keys_lookup.
Qed.

(** *** Reads *)

Lemma read_at_ok s s' (loc : warmLoc) (key : Key) (body : bytes) (r : read_outcome) :
  segs_inv clean (w_nextID s) (w_segs s) -> loc_ok (w_segs s) (w_nextID s) loc key body -> read_at loc s = (s', r) ->
  (r = RBody body \/ clean = false /\ r = RStale) /\
  exists segs, s' = {| s with w_segs := segs |} /\ seg_move clean (w_nextID s) (w_segs s) segs.
Proof.
  intros Hi [Hsz Hr _ Hs] Hread. unfold read_at in Hread. destruct Hs as [(seg & Hf & Hin) | [Hc Hf]]; rewrite Hf in Hread; injection Hread as <- <-.
  2:{ split; [by right|]. exists (w_segs s). split; [by destruct s|]. by apply seg_move_refl. }
  pose proof (prepare_move clean _ _ (segID loc) Hi) as Hmv. split; [left|by eexists].
  destruct (le_find _ _ _ _ (mv_le _ _ _ _ Hmv) _ _ Hf) as (seg' & Hf' & Hle).
  rewrite find_seg_update, Z.eqb_refl, Hf in Hf'.
  2:{ intros x <-. unfold ensureMmapOpened. destruct (_ || _); [apply ensureOpen_same|]. rewrite tryMmap_ID.
      rewrite (proj1 (ensureOpen_same (ensureOpen x))). apply ensureOpen_same. }
  injection Hf' as E. rewrite E. apply (in_seg_le clean _ _ (offset loc) (MkLogged magicLive key body) Hr Hle) in Hin as [Hh _ Hm _].
  rewrite (readRecordAt_ok magicLive key body Hr _ _ Hh); [done|by left|].
  unfold mmap_data. destruct (seg_mmap seg') as [n|] eqn:En; [|done]. intros data [= <-]. exists (Z.to_nat n). split; [done|].
  specialize (Hm n eq_refl). cbn [lg_body] in Hm. pose proof (holds_at_range _ _ _ Hh). pose proof (rec_size_pos body) as Hp.
  change (HeaderLen + FooterLen) with 28 in Hp. lia.
Qed.

Lemma read_step s s' (key : Key) (loc : warmLoc) (b : option bytes) (r : read_outcome) (l1 l2 : list wop) (c : wcomp) m :
  sys_inv (MkSys s (l1 ++ OpGet key (Some loc) b :: l2) c m) -> read_at loc s = (s', r) ->
  sys_inv (MkSys s' (match r with RStale => OpDrop key loc :: l1 ++ l2 | _ => l1 ++ l2 end) c m).
Proof.
  intros Hi Hr. pose proof (ops_mid _ _ _ _ _ (sv_ops _ Hi)) as [(body & -> & Hok) Hops].
  destruct (read_at_ok s s' loc key body r (sv_segs _ Hi) Hok Hr) as (Hres & segs & -> & Hmv).
  eapply inv_move; [exact Hi|done|]. destruct Hres as [-> | [Hc ->]]; [done|]. by apply Forall_cons.
Qed.

Lemma seal_step s (c : wcomp) m : sys_inv (MkSys s [] c m) -> sys_inv (MkSys (newSegment s) [] c m).
Proof.
  intros Hi. pose proof Hi as [Hsegs Hidx Hlocs Hall Hops Hcomp]. cbn [sy_store sy_ops sy_comp sy_model] in *.
  destruct (newSegment_ok clean s Hsegs) as (H1 & H2 & H3 & H4 & E).
  assert (locs (newSegment s) = locs s) as El by (rewrite E; done).
  assert (idx_inv (newSegment s)) as Hi' by (destruct Hidx as [L [? ? ? ?]]; rewrite E; by split; [|split]).
  split; cbn [sy_store sy_ops sy_comp sy_model]; rewrite ?El; [done|done| |done|by apply Forall_nil_2|].
  - intros k loc Hk. destruct (Hlocs k loc Hk) as (body & Hb & Hok). exists body. split; [done|]. by eapply loc_ok_le.
  - eapply comp_ok_from; [exact H2|done|done| |exact Hcomp]. intros k loc Hk. left. by exists loc.
Qed.

(** *** Compaction *)

Lemma find_first segs (id : Z) seg : NoDup (map seg_ID segs) ->
  List.find (fun x => seg_ID x =? id) segs = Some seg -> find_seg segs id = Some seg.
Proof. intros Hnd [Hin E%Z.eqb_eq]%List.find_some. rewrite <- E. apply find_seg_elem; [done|]. by apply list_elem_of_In. Qed.

Lemma scan_pending s (seg : Segment) m (id : Z) (ops : list wop) (c : wcomp) : sys_inv (MkSys s ops c m) ->
  find_seg (w_segs s) id = Some seg ->
  pending_ok (locs s) m id
    (omap (pending_of (base.filter (fun kv => segID (at_loc kv.2) = id) (w_index s))) (delivered (scanSegment (seg_file seg) id))).
Proof.
  intros Hi Hf. set (snap := base.filter _ (w_index s)).
  assert (Hsnap : forall k w, snap !! k = Some w <-> w_index s !! k = Some w /\ segID (at_loc w) = id)
    by (intros k w; apply map_lookup_filter_Some).
  assert (Hp : forall p, p ∈ omap (pending_of snap) (delivered (scanSegment (seg_file seg) id)) ->
    exists loc, locs s !! p_key p = Some loc /\ segID loc = id /\ m !! p_key p = Some (p_body p) /\ rec_ok magicLive (p_key p) (p_body p)).
  { intros p (r & Hr & E)%list_elem_of_omap. apply scan_delivered in Hr as [Eid Hread]. unfold pending_of in E.
    destruct (IsTomb r) eqn:Et; [done|]. destruct (snap !! RKey r) as [w|] eqn:Hw; [|done]. apply Hsnap in Hw as [Hw Hid].
    destruct ((segID (at_loc w) =? RSegID r) && (offset (at_loc w) =? ROffset r)) eqn:Eb; [|done]. injection E as <-. cbn [p_key p_body].
    apply andb_true_iff in Eb as [_ Eo%Z.eqb_eq].
    assert (locs s !! RKey r = Some (at_loc w)) as Hloc by (by rewrite locs_lookup, Hw).
    destruct (sv_locs _ Hi _ _ Hloc) as (body & Hb & [_ Hok _ Hseg]). exists (at_loc w). cbn [sy_store sy_model] in *. rewrite Hid in Hseg.
    destruct Hseg as [(seg' & Hf' & Hin) | [_ Hf']]; [|congruence]. rewrite Hf in Hf'. injection Hf' as <-.
    rewrite <- Eo, (readRecordAtLegacy_ok magicLive (RKey r) body Hok _ _ (is_holds _ _ _ _ Hin)) in Hread. injection Hread as Hread.
    assert (Body r = body) as -> by by rewrite <- Hread. by split_and!. }
  split.
  - intros p Hin. destruct (Hp p Hin) as (_ & _ & _ & _ & Hr). done.
  - intros p loc Hin _ _. destruct (Hp p Hin) as (_ & _ & _ & Hb & _). done.
  - intros Hc k loc Hk Hid. destruct (sv_locs _ Hi _ _ Hk) as (body & _ & [_ _ _ Hseg]). cbn [sy_store] in Hseg. rewrite Hid in Hseg.
    destruct Hseg as [(seg' & Hf' & Hin) | [? _]]; [|congruence]. rewrite Hf in Hf'. injection Hf' as <-.
    destruct (is_scan _ _ _ _ Hin Hc) as (es1 & es2 & Hes & Efile & Eo). exists (MkPending k body). split; [|done].
    rewrite locs_lookup, fmap_Some in Hk. destruct Hk as (w & Hw & ->).
    apply list_elem_of_omap. exists (mk_rec magicLive k body id (offset (at_loc w))). split.
    + assert (scanSegment (seg_file seg) id = {| delivered := log_recs id 0 (es1 ++ MkLogged magicLive k body :: es2); scan_ok := true |}) as ->.
      { rewrite Efile, <- (app_nil_r (log_text _)). apply scanSegment_log; [done|]. left. done. }
      cbn [delivered]. rewrite Eo. apply (log_recs_elem id (MkLogged magicLive k body) es1 es2 (proj1 (proj1 (Forall_app _ _ _) Hes)) 0).
    + unfold pending_of. cbn [IsTomb mk_rec RKey RSegID ROffset Body]. change (magicLive =? magicDead) with false. cbv iota.
      rewrite (proj2 (Hsnap k w)) by done. by rewrite Hid, !Z.eqb_refl.
Qed.

Lemma scan_step s s' (id : Z) (r : result warm_error (list pendingRec)) (ops : list wop) m :
  sys_inv (MkSys s ops CIdle m) -> compact_scan id s = (s', r) ->
  sys_inv (MkSys s' ops (match r with Ok pending => CScanned id pending | Err _ => CIdle end) m).
Proof.
  intros Hi. unfold compact_scan. destruct (List.find _ _) as [target|] eqn:Hfd; [|by intros [= <- <-]].
  pose proof (find_first _ _ _ (sg_ids _ _ _ (sv_segs _ Hi)) Hfd) as Hf. cbn [sy_store] in Hf. destruct (find_seg_Some _ _ _ Hf) as [Hin Hid].
  destruct (is_last (w_segs s) id) eqn:El; [by intros [= <- <-]|]. rewrite Hid.
  pose proof (scan_pending s target m id ops CIdle Hi Hf) as Hp.
  pose proof (open_move clean _ _ id (sv_segs _ Hi)) as Hmv. cbn [sy_store] in Hmv.
  pose proof (inv_move s _ ops ops CIdle m Hi Hmv (sv_ops _ Hi)) as Hi'.
  destruct (scan_ok _); intros [= <- <-]; [|exact Hi']. destruct Hi' as [H1 H2 H3 H4 H5 _]. split; try done.
  split; [|exact Hp]. split; cbn [sy_store w_segs w_nextID update_seg].
  - rewrite <- Hid. apply (sg_next _ _ _ (sv_segs _ Hi)). done.
  - by rewrite (mv_last _ _ _ _ Hmv).
Qed.

Lemma write_pending_ok (newID : Z) (pending : list pendingRec) : forall (ios : list write_io) (file file' : bytes) (recs : list compactRec),
  (forall p, p ∈ pending -> rec_ok magicLive (p_key p) (p_body p)) ->
  write_pending ios newID (len file) pending file = Ok (file', recs) ->
  file' = file ++ log_text (map live pending) /\ recs = recs_of newID (len file) pending.
Proof.
  induction pending as [|p pending IH]; intros ios file file' recs Hr; cbn [write_pending].
  { intros [= <- <-]. cbn. by rewrite app_nil_r. }
  destruct (next_io ios) as [io ios1].
  destruct (writeRecordAt io file (len file) magicLive (p_key p) (p_body p)) as [file1 [|]] eqn:Ew; [done|].
  apply writeRecordAt_append in Ew as ->. destruct (Hr p (list_elem_of_here _ _)) as (_ & Hk & _).
  assert (len file + recSize (p_body p) = len (file ++ encodeRecord magicLive (p_key p) (p_body p))) as -> by by rewrite len_app, encodeRecord_len.
  destruct (write_pending _ _ _ _ _) as [[file2 recs2]|e] eqn:Ep; [|done]. intros [= <- <-]. apply IH in Ep as [-> ->].
  - unfold log_text. cbn [map concat recs_of]. rewrite len_app, encodeRecord_len by done. by rewrite <- app_assoc.
  - intros q Hq. apply Hr. by apply list_elem_of_further.
Qed.

Lemma temp_step s s' (ios : list write_io) (id : Z) (pending : list pendingRec) (r : result warm_error (Z * bytes * list compactRec)) (ops : list wop) m :
  sys_inv (MkSys s ops (CScanned id pending) m) ->
  writeCompactTemp ios pending s = (s', r) ->
  sys_inv (MkSys s' ops (match r with Ok (newID, file, recs) => CWritten id newID file recs | Err _ => CIdle end) m).
Proof.
  intros [Hsegs [Hl Hct] Hlocs Hall Hops [[Hid Hlast] Hpd]]. cbn [sy_store sy_ops sy_comp sy_model] in *. unfold writeCompactTemp. intros [= <- <-].
  assert (Hfresh : find_seg (w_segs s) (w_nextID s) = None).
  { destruct (find_seg (w_segs s) (w_nextID s)) as [seg|] eqn:Hf; [|done]. apply find_seg_Some in Hf as [Hin E].
    pose proof (sg_next _ _ _ Hsegs seg Hin). lia. }
  assert (Hlo : forall loc k b, loc_ok (w_segs s) (w_nextID s) loc k b -> loc_ok (w_segs s) (w_nextID s + 1) loc k b)
    by (intros; eapply loc_ok_le; [apply segs_le_refl| |done|done]; lia).
  split; cbn [sy_store sy_ops sy_comp sy_model w_nextID w_segs].
  - destruct Hsegs as [A B C D E]. split; try done. intros seg Hin. specialize (B seg Hin). lia.
  - split; [done|]. by destruct Hct.
  - intros k loc Hk. destruct (Hlocs k loc Hk) as (body & Hb & Hok). eauto.
  - done.
  - eapply Forall_impl; [exact Hops|]. intros [key body i off|key|key [loc|] b|key loc]; cbn [op_ok]; try done; [naive_solver|].
    intros (body & E & H). eauto.
  - destruct (write_pending ios (w_nextID s) 0 pending []) as [[file recs]|e] eqn:Ew; [|done].
    change 0 with (len (@nil byte)) in Ew. apply write_pending_ok in Ew as [-> ->]; [|apply Hpd].
    split; [split; [lia|done]|]. split_and!; [lia|lia|done| |by exists pending].
    intros k loc Hk. destruct (Hlocs k loc Hk) as (body & _ & Hok). pose proof (lo_next _ _ _ _ _ Hok). lia.
Qed.

(** *** The swap *)

Lemma recs_of_elem (newID : Z) (pending : list pendingRec) : (forall p, p ∈ pending -> rec_ok magicLive (p_key p) (p_body p)) ->
  forall off r, r ∈ recs_of newID off pending -> exists pre p post, pending = pre ++ p :: post /\
    r = MkCompact (p_key p) newID (off + len (log_text (map live pre))) (recSize (p_body p)).
Proof.
  induction pending as [|p pending IH]; intros Hr off r; cbn [recs_of]; [intros H; by apply not_elem_of_nil in H|].
  rewrite elem_of_cons. intros [-> | Hin].
  - exists [], p, pending. split; [done|]. change (len (log_text (map live []))) with 0. by rewrite Z.add_0_r.
  - apply IH in Hin as (pre & q & post & -> & ->); [|intros q Hq; apply Hr; by apply list_elem_of_further].
    exists (p :: pre), q, post. split; [done|]. f_equal. unfold log_text. cbn [map concat]. rewrite len_app. unfold lg_enc at 2, live at 2 3 4.
    destruct (Hr p (list_elem_of_here _ _)) as (_ & Hk & _). cbn [lg_magic lg_key lg_body]. rewrite encodeRecord_len by done. lia.
Qed.

Lemma recs_of_key (newID : Z) (pending : list pendingRec) (p : pendingRec) : p ∈ pending ->
  forall off, exists r, r ∈ recs_of newID off pending /\ c_key r = p_key p.
Proof.
  induction 1 as [p pending|p q pending _ IH]; intros off; cbn [recs_of].
  - eexists. split; [by apply list_elem_of_here|done].
  - destruct (IH (off + recSize (p_body q))) as (r & Hr & E). exists r. split; [by apply list_elem_of_further|done].
Qed.

(** What the loop of the swap does to the entry of a key. *)
Lemma relocate_fold (id newID : Z) (recs : list compactRec) : newID <> id -> (forall r, r ∈ recs -> c_segID r = newID) ->
  forall (ix : gmap Key wloc) (k : Key), match ix !! k with
  | None => fold_left (relocate id) recs ix !! k = None
  | Some w =>
      (fold_left (relocate id) recs ix !! k = Some w /\ (segID (at_loc w) = id -> forall r, r ∈ recs -> c_key r <> k)) \/
      (segID (at_loc w) = id /\ exists r, r ∈ recs /\ c_key r = k /\
         fold_left (relocate id) recs ix !! k =
         Some (MkWLoc {| (at_loc w) with segID := newID; offset := c_offset r; Snapshot.size := c_size r |} (at_entry w)))
  end.
Proof.
  intros Hne. induction recs as [|r recs IH]; intros Hids ix k; cbn [fold_left].
  { destruct (ix !! k); [|done]. left. split; [done|]. intros _ r Hr. by apply not_elem_of_nil in Hr. }
  specialize (IH (fun x Hx => Hids x (list_elem_of_further _ _ _ Hx)) (relocate id ix r) k).
  assert (Hr : c_segID r = newID) by (apply Hids, list_elem_of_here).
  destruct (decide (c_key r = k)) as [Ek|Ek].
  - destruct (ix !! k) as [w|] eqn:Hk.
    2:{ assert (relocate id ix r = ix) as E by (unfold relocate; by rewrite Ek, Hk). rewrite E in IH |- *. by rewrite Hk in IH. }
    destruct (segID (at_loc w) =? id) eqn:Es.
    + assert (relocate id ix r !! k = Some (MkWLoc {| (at_loc w) with segID := newID; offset := c_offset r; Snapshot.size := c_size r |} (at_entry w))) as E
        by (unfold relocate; rewrite Ek, Hk, Es; cbn [negb]; by rewrite lookup_insert_eq, Hr).
      rewrite E in IH. cbn [at_loc at_entry segID] in IH. apply Z.eqb_eq in Es. right. split; [done|]. exists r.
      split; [by apply list_elem_of_here|]. split; [done|]. by destruct IH as [[IH _] | [IH _]].
    + assert (relocate id ix r = ix) as E by (unfold relocate; by rewrite Ek, Hk, Es). rewrite E, Hk in IH. rewrite E.
      apply Z.eqb_neq in Es. left. by destruct IH as [[IH _] | [IH _]].
  - assert (relocate id ix r !! k = ix !! k) as E.
    { unfold relocate. destruct (ix !! c_key r) as [cur|]; [|done]. destruct (negb _); [done|]. by rewrite lookup_insert_ne. }
    rewrite E in IH. destruct (ix !! k) as [w|]; [|done]. destruct IH as [[IH1 IH2] | (IH1 & x & Hx & IH2)].
    + left. split; [done|]. intros Hid x. rewrite elem_of_cons. intros [-> | Hx]; [done|by apply IH2].
    + right. split; [done|]. exists x. split; [by apply list_elem_of_further|done].
Qed.

(** The counters do not see a relocation, since the record's size is the same. *)
Lemma relocate_idx_inv (id newID : Z) (recs : list compactRec) : newID <> id -> (forall r, r ∈ recs -> c_segID r = newID) ->
  forall s, (forall r w, r ∈ recs -> w_index s !! c_key r = Some w -> segID (at_loc w) = id -> Snapshot.size (at_loc w) = c_size r) ->
  idx_inv s -> idx_inv {| s with w_index := fold_left (relocate id) recs (w_index s) |}.
Proof.
  intros Hne. induction recs as [|r recs IH]; intros Hids s Hsz Hi; cbn [fold_left]; [by destruct s|].
  assert (Hids' : forall x, x ∈ recs -> c_segID x = newID) by (intros x Hx; apply Hids; by apply list_elem_of_further).
  assert (Hr : c_segID r = newID) by (apply Hids, list_elem_of_here).
  apply (IH Hids' {| s with w_index := relocate id (w_index s) r |}); cbn [w_index]; unfold relocate;
    destruct (w_index s !! c_key r) as [cur|] eqn:Hk.
  - destruct (segID (at_loc cur) =? id) eqn:Es; cbn [negb].
    + intros x w Hx. rewrite lookup_insert_Some. intros [[_ <-] | [_ Hw]]; [cbn; congruence|].
      apply Hsz; [by apply list_elem_of_further|done].
    + intros x w Hx. apply Hsz. by apply list_elem_of_further.
  - intros x w Hx. apply Hsz. by apply list_elem_of_further.
  - destruct (segID (at_loc cur) =? id) eqn:Es; cbn [negb]; [|by destruct s]. apply Z.eqb_eq in Es.
    destruct Hi as [Hl [He Hb Hp Hs]]. split; [by eapply linked_update|].
    assert (locs s !! c_key r = Some (at_loc cur)) as Hkl by (by rewrite locs_lookup, Hk).
    unfold locs at 1. cbn [w_index]. rewrite fmap_insert. fold (locs s). cbn [at_loc].
    pose proof (Hsz r cur (list_elem_of_here _ _) Hk Es) as Esz. split; cbn [w_entries w_bytes w_protectedCount].
    + by rewrite map_size_insert_Some.
    + rewrite Hb, (map_sum_update _ _ _ _ _ Hkl). f_equal. cbn [Snapshot.size]. lia.
    + rewrite Hp, (map_sum_update _ _ _ _ _ Hkl). unfold loc_protected at 3 4. cbn [protected]. lia.
    + intros k w. rewrite lookup_insert_Some. intros [[<- <-] | [_ Hw]]; [cbn; rewrite <- Esz; by apply (Hs (c_key r))|by apply (Hs k)].
  - by destruct s.
Qed.

Lemma seg_index_Some (id : Z) segs (i : nat) : seg_index id segs = Some i ->
  exists l1 old l2, segs = l1 ++ old :: l2 /\ seg_ID old = id /\ i = length l1.
Proof.
  revert i. induction segs as [|x segs IH]; intros i; cbn [seg_index]; [done|]. destruct (seg_ID x =? id) eqn:E.
  - intros [= <-]. exists [], x, segs. split_and!; [done|by apply Z.eqb_eq|done].
  - destruct (seg_index id segs) as [j|]; [|done]. intros [= <-]. destruct (IH j eq_refl) as (l1 & old & l2 & -> & Eo & ->).
    by exists (x :: l1), old, l2.
Qed.

Lemma find_seg_iff segs (k : Z) seg : NoDup (map seg_ID segs) -> find_seg segs k = Some seg <-> seg ∈ segs /\ seg_ID seg = k.
Proof. intros Hnd. split; [apply find_seg_Some|]. intros [Hin <-]. by apply find_seg_elem. Qed.

(** Replacing a segment that is not the last. *)
Lemma replace_seg (next : Z) (l1 l2 : list Segment) (old new : Segment) :
  segs_inv clean next (l1 ++ old :: l2) -> l2 <> [] -> find_seg (l1 ++ old :: l2) (seg_ID new) = None -> seg_ID new < next ->
  seg_bounds new -> (clean = true -> is_log new) ->
  segs_inv clean next (l1 ++ new :: l2) /\ find_seg (l1 ++ new :: l2) (seg_ID new) = Some new /\
  find_seg (l1 ++ new :: l2) (seg_ID old) = None /\
  forall k, k <> seg_ID old -> k <> seg_ID new -> find_seg (l1 ++ new :: l2) k = find_seg (l1 ++ old :: l2) k.
Proof.
  intros [Hids Hn Hb Hla Hlg] Hne Hfresh Hlt Hbn Hln.
  assert (Hperm : forall x, map seg_ID (l1 ++ x :: l2) ≡ₚ seg_ID x :: map seg_ID (l1 ++ l2)).
  { intros x. rewrite !map_app. cbn [map]. by rewrite Permutation_middle. }
  assert (Hnotin : seg_ID new ∉ map seg_ID (l1 ++ old :: l2)).
  { intros (seg & E & Hin)%list_elem_of_fmap. rewrite E in Hfresh. by rewrite find_seg_elem in Hfresh. }
  rewrite (Hperm old) in Hids, Hnotin. apply NoDup_cons in Hids as [Ho Hids]. rewrite not_elem_of_cons in Hnotin. destruct Hnotin as [Hno Hnotin].
  assert (Hids' : NoDup (map seg_ID (l1 ++ new :: l2))) by (rewrite (Hperm new); by apply NoDup_cons).
  assert (Hids0 : NoDup (map seg_ID (l1 ++ old :: l2))) by (rewrite (Hperm old); by apply NoDup_cons).
  assert (Hin : forall x, x ∈ l1 ++ new :: l2 <-> x = new \/ x ∈ l1 ++ l2) by (intros x; rewrite !elem_of_app, elem_of_cons; tauto).
  assert (Hin0 : forall x, x ∈ l1 ++ old :: l2 <-> x = old \/ x ∈ l1 ++ l2) by (intros x; rewrite !elem_of_app, elem_of_cons; tauto).
  assert (Hlast : last (l1 ++ new :: l2) = last (l1 ++ old :: l2)).
  { destruct l2 as [|y l2 _] using rev_ind; [done|]. rewrite !app_comm_cons, !app_assoc. by rewrite !last_snoc. }
  split_and!; [split|..].
  - done.
  - intros x [-> | Hx]%Hin; [done|]. apply Hn, Hin0. by right.
  - intros x [-> | Hx]%Hin; [done|]. apply Hb, Hin0. by right.
  - intros l. rewrite Hlast. apply Hla.
  - intros Hc x [-> | Hx]%Hin; [by apply Hln|]. apply Hlg; [done|]. apply Hin0. by right.
  - apply find_seg_iff; [done|]. split; [|done]. apply Hin. by left.
  - destruct (find_seg _ (seg_ID old)) as [x|] eqn:E; [|done]. apply find_seg_iff in E as [[-> | Hx]%Hin E]; [congruence| |done].
    destruct Ho. rewrite <- E. by apply list_elem_of_fmap_2.
  - intros k H1 H2. apply option_eq. intros x. rewrite !find_seg_iff by done. rewrite Hin, Hin0. naive_solver.
Qed.

(** The segment a compaction makes. *)
Lemma new_seg_ok (newID mx : Z) (pending : list pendingRec) : (forall p, p ∈ pending -> rec_ok magicLive (p_key p) (p_body p)) ->
  let file := log_text (map live pending) in
  let new := tryMmap (MkSegment newID (len file) mx true None file) in
  seg_ID new = newID /\ seg_bounds new /\ (clean = true -> is_log new) /\
  forall pre p post, pending = pre ++ p :: post -> in_seg clean new (len (log_text (map live pre))) (live p).
Proof.
  intros Hr file new. assert (Hes : Forall lg_ok (map live pending)).
  { apply Forall_forall. intros e (p & -> & Hp)%list_elem_of_fmap. by apply Hr. }
  assert (Hb : seg_bounds (MkSegment newID (len file) mx true None file)) by (split; [cbn; pose proof (len_nonneg file); lia|done]).
  assert (Hl : is_log (MkSegment newID (len file) mx true None file)) by (split; [done|by exists (map live pending)]).
  destruct (tryMmap_ok clean _ Hb (fun _ => Hl)) as (H1 & H2 & H3). split_and!; [unfold new; by rewrite tryMmap_ID|done|done|].
  intros pre p post E. assert (Hp : lg_ok (live p)) by (apply Hr; rewrite E, elem_of_app, elem_of_cons; by right; left).
  apply (in_seg_le _ _ _ _ _ Hp H2). assert (Hf : file = log_text (map live pre) ++ lg_enc (live p) ++ log_text (map live post)).
  { unfold file. rewrite E, map_app, log_text_app. done. }
  pose proof Hp as (_ & Hk & _). split; cbn [seg_file seg_size seg_mmap].
  - by eexists _, _.
  - rewrite Hf, !len_app. unfold lg_enc. rewrite encodeRecord_len by done. pose proof (len_nonneg (log_text (map live post))). lia.
  - done.
  - intros _. exists (map live pre), (map live post). rewrite <- map_cons, <- map_app, <- E. by split_and!.
Qed.

Lemma swap_step s (renamed : bool) (id newID : Z) (file : bytes) (recs : list compactRec) m :
  sys_inv (MkSys s [] (CWritten id newID file recs) m) -> sys_inv (MkSys (swapCompactSegment renamed id newID file recs s).1 [] CIdle m).
Proof.
  intros [Hsegs Hidx Hlocs Hall Hops (_ & Hlt & Hne & Hfresh & Hnew & pending & [Hrec Hbody Hcomp] & Ef & Er)].
  cbn [sy_store sy_ops sy_comp sy_model] in *. unfold swapCompactSegment.
  destruct (seg_index id (w_segs s)) as [i|] eqn:Ei; [|by split]. destruct (i =? length (w_segs s) - 1)%nat eqn:Elast; [by split|].
  destruct (negb renamed); [by split|].
  apply seg_index_Some in Ei as (l1 & old & l2 & Esegs & <- & ->). apply Nat.eqb_neq in Elast.
  assert (l2 <> []) as Hl2 by (intros ->; rewrite Esegs, length_app in Elast; simpl in Elast; lia).
  destruct (new_seg_ok newID (w_segMax s) pending Hrec) as (Enew & Hnb & Hnl & Hin). rewrite <- Ef in *.
  set (new := tryMmap (MkSegment newID (len file) (w_segMax s) true None file)) in *.
  assert (<[length l1 := new]> (w_segs s) = l1 ++ new :: l2) as Eins by (rewrite Esegs; by rewrite <- (Nat.add_0_r (length l1)), insert_app_r).
  rewrite Esegs in Hsegs, Hfresh. rewrite <- Enew in Hfresh, Hlt.
  destruct (replace_seg _ l1 l2 old new Hsegs Hl2 Hfresh Hlt Hnb Hnl) as (Hinv & Hfn & Hfo & Hfk).
  assert (Hids : forall r, r ∈ recs -> c_segID r = newID).
  { intros r Hr. rewrite Er in Hr. by apply recs_of_elem in Hr as (? & ? & ? & _ & ->). }
  assert (Hwhere : forall r w, r ∈ recs -> w_index s !! c_key r = Some w -> segID (at_loc w) = seg_ID old -> exists pre p post,
     pending = pre ++ p :: post /\ r = MkCompact (p_key p) newID (len (log_text (map live pre))) (recSize (p_body p)) /\
     m !! c_key r = Some (p_body p) /\ Snapshot.size (at_loc w) = recSize (p_body p)).
  { intros r w Hr Hw Hid. rewrite Er in Hr. apply recs_of_elem in Hr as (pre & p & post & Ep & ->); [|done]. cbn [c_key] in *.
    assert (locs s !! p_key p = Some (at_loc w)) as Hk by (by rewrite locs_lookup, Hw).
    assert (m !! p_key p = Some (p_body p)) as Hm by (eapply Hbody; [rewrite Ep, elem_of_app, elem_of_cons; by right; left|exact Hk|done]).
    exists pre, p, post. split_and!; [done|by rewrite Z.add_0_l|done|]. destruct (Hlocs _ _ Hk) as (b & Hb & [Hs _ _ _]). congruence. }
  cbn [fst]. split; cbn [sy_store sy_ops sy_comp sy_model w_segs w_nextID]; rewrite ?Eins; [done| | | |by apply Forall_nil_2|done].
  - apply (relocate_idx_inv (seg_ID old) newID recs Hne Hids {| s with w_segs := l1 ++ new :: l2 |}); [|by destruct Hidx as [? [? ? ? ?]]; split; [|split]].
    intros r w Hr Hw Hid. destruct (Hwhere r w Hr Hw Hid) as (pre & p & post & _ & -> & _ & E). exact E.
  - intros k loc. rewrite locs_lookup. cbn [w_index]. pose proof (relocate_fold (seg_ID old) newID recs Hne Hids (w_index s) k) as Hrl.
    destruct (w_index s !! k) as [w|] eqn:Hw; [|by rewrite Hrl].
    assert (locs s !! k = Some (at_loc w)) as Hk by (by rewrite locs_lookup, Hw).
    destruct (Hlocs k _ Hk) as (body & Hb & [Hsz Hrok Hnx Hseg]). destruct Hrl as [[-> Hno] | (Hid & r & Hr & Ek & ->)]; cbn; intros [= <-]; exists body.
    + split; [done|]. split; [done..|]. destruct (decide (segID (at_loc w) = seg_ID old)) as [E|E].
      * right. rewrite E. split; [|done]. destruct clean eqn:Hcl; [|done]. destruct (Hcomp eq_refl k _ Hk E) as (p & Hp & Epk).
        destruct (recs_of_key newID pending p Hp 0) as (r & Hr & Er'). destruct (Hno E r); [by rewrite Er|congruence].
      * rewrite Hfk; [rewrite <- Esegs; done|done|]. rewrite Enew. by eapply Hnew.
    + subst k. destruct (Hwhere r w Hr Hw Hid) as (pre & p & post & Ep & -> & Hm & Esz). cbn [c_key c_offset c_size] in *.
      rewrite Hb in Hm. injection Hm as ->. split; [done|]. split; cbn [Snapshot.size segID offset]; [done|done|by rewrite <- Enew|].
      left. exists new. rewrite Enew in Hfn. split; [exact Hfn|]. by eapply Hin.
  - intros Hc k Hk. destruct (Hall Hc k Hk) as [loc Hloc]. rewrite locs_lookup in Hloc |- *. cbn [w_index].
    pose proof (relocate_fold (seg_ID old) newID recs Hne Hids (w_index s) k) as Hrl. destruct (w_index s !! k) as [w|]; [|done].
    destruct Hrl as [[-> _] | (_ & r & _ & _ & ->)]; eauto.
Qed.

(** Taking the mappings away, with nothing in flight. *)
Lemma unmap_step s m : sys_inv (MkSys s [] CIdle m) -> sys_inv (MkSys {| s with w_segs := map munmap (w_segs s) |} [] CIdle m).
Proof.
  intros [[Hids Hnext Hbounds Hlast Hlog] Hidx Hlocs Hall Hops Hcomp]. cbn [sy_store sy_ops sy_comp sy_model] in *.
  assert (forall id, find_seg (map munmap (w_segs s)) id = munmap <$> find_seg (w_segs s) id) as Hfind.
  { intros id. unfold find_seg. rewrite <- fmap_last. f_equal. clear. induction (w_segs s) as [|seg segs IH]; [done|]. cbn [map List.filter].
    change (seg_ID (munmap seg)) with (seg_ID seg). destruct (seg_ID seg =? id); rewrite IH; done. }
  assert (forall seg', seg' ∈ map munmap (w_segs s) -> exists seg, seg' = munmap seg /\ seg ∈ w_segs s) as Hin
    by (intros seg'; apply list_elem_of_fmap).
  split; cbn [sy_store sy_ops sy_comp sy_model w_segs w_nextID]; try done.
  - split.
    + rewrite map_map. exact Hids.
    + intros seg' (seg & -> & Hs)%Hin. exact (Hnext seg Hs).
    + intros seg' (seg & -> & Hs)%Hin. split; [exact (proj1 (Hbounds seg Hs))|done].
    + intros l. rewrite fmap_last. destruct (last (w_segs s)); [by intros [= <-]|done].
    + intros Hc seg' (seg & -> & Hs)%Hin. exact (Hlog Hc seg Hs).
  - by destruct Hidx as [? [? ? ? ?]]; split; [|split].
  - intros k loc Hk. destruct (Hlocs k loc Hk) as (body & Hb & [H1 H2 H3 H4]). exists body. split; [done|]. split; [done..|].
    rewrite Hfind. destruct H4 as [(seg & -> & [A B C D])|[Hc ->]]; [left; exists (munmap seg); by split|by right].
Qed.
End Preservation.
End System.
