(* ===== verification/WarmRefine.v ===== *)
(** * What the warm tier promises: src/internal/storage/warm/warm.go

    The compaction of the whole store, which rewrites every live record into a
    new set of segments, and the theorems on all reachable states of
    [WarmSystem]. *)

From stdpp Require Import sorting.
From S2P Require Import Prelude GoStd Api Evictor EvictIndex Wal Snapshot Checkpoint WarmRecord WarmStore WarmSystem.

(** ** Scans deliver each record once *)

Lemma scan_offsets (file : bytes) (segID : Z) : NoDup (map ROffset (delivered (scanSegment file segID))).
Proof.
  unfold scanSegment. rewrite <- scan_loops_agree by done.
  assert (forall fuel off, NoDup (map ROffset (delivered (scan_readat_loop fuel file segID off))) /\
    Forall (fun r => off <= ROffset r) (delivered (scan_readat_loop fuel file segID off))) as H; [|apply H].
  induction fuel as [|fuel IH]; intros off; cbn [scan_readat_loop delivered map]; [split; [apply NoDup_nil_2|by apply Forall_nil_2]|].
  destruct (len file <=? off); [split; [apply NoDup_nil_2|by apply Forall_nil_2]|].
  destruct (readRecordAtLegacy file segID off) as [rec|[]] eqn:Er; cbn [delivered map]; try (split; [apply NoDup_nil_2|by apply Forall_nil_2]).
  assert (ROffset rec = off) as E.
  { unfold readRecordAtLegacy in Er. destruct (ReadAt file off HeaderLen); [|done]. destruct (if 0 <? _ then _ else Some _); [|done].
    destruct (ReadAt _ _ _); [|done]. destruct (negb _); [done|]. by injection Er as <-. }
  destruct (IH (off + (HeaderLen + len (Body rec) + FooterLen))) as [H1 H2]. pose proof (len_nonneg (Body rec)).
  unfold HeaderLen, FooterLen in *. rewrite E. split.
  - apply NoDup_cons. split; [|done]. intros (r & Er' & Hr)%list_elem_of_fmap. rewrite Forall_forall in H2. specialize (H2 r Hr). lia.
  - apply Forall_cons. split; [lia|]. eapply Forall_impl; [exact H2|]. intros r Hr. simpl in *. lia.
Qed.

Lemma pending_of_Some (idx : gmap Key wloc) (r : Rec) (p : pendingRec) : pending_of idx r = Some p ->
  p = MkPending (RKey r) (Body r) /\ exists w, idx !! RKey r = Some w /\ segID (at_loc w) = RSegID r /\ offset (at_loc w) = ROffset r.
Proof.
  unfold pending_of. destruct (IsTomb r); [done|]. destruct (idx !! RKey r) as [w|] eqn:Hw; [|done].
  destruct ((segID (at_loc w) =? RSegID r) && (offset (at_loc w) =? ROffset r)) eqn:E; [|done]. intros [= <-].
  apply andb_true_iff in E as [E1%Z.eqb_eq E2%Z.eqb_eq]. split; [done|]. by exists w.
Qed.

Lemma pending_nodup (idx : gmap Key wloc) (rs : list Rec) : NoDup (map ROffset rs) -> NoDup (map p_key (omap (pending_of idx) rs)).
Proof.
  induction rs as [|r rs IH]; intros Hnd; [apply NoDup_nil_2|]. apply NoDup_cons in Hnd as [Hn Hnd]. cbn [omap list_omap].
  destruct (pending_of idx r) as [p|] eqn:Hp; [|by apply IH]. cbn [map]. apply NoDup_cons. split; [|by apply IH].
  intros (q & Eq & (r' & Hr' & Hq)%list_elem_of_omap)%list_elem_of_fmap.
  apply pending_of_Some in Hp as (-> & w & Hw & _ & Eo). apply pending_of_Some in Hq as (-> & w' & Hw' & _ & Eo'). cbn [p_key] in Eq.
  apply Hn, list_elem_of_fmap. exists r'. split; [|done]. rewrite <- Eo, <- Eo'. congruence.
Qed.

(** ** The temporary store *)

Lemma init_inv (clean : bool) (segMax maxBytes maxEntries : Z) : sys_inv clean (wsys_init segMax maxBytes maxEntries).
Proof.
  pose proof (NewStore_idx_inv segMax maxBytes maxEntries []) as Hi.
  assert (locs (NewStore segMax maxBytes maxEntries []) = ∅) as E by apply fmap_empty.
  split; cbn [sy_store sy_ops sy_comp sy_model wsys_init]; rewrite ?E; try done.
  - split; [apply NoDup_nil_2|..]; try done; intros *; intros; by apply not_elem_of_nil in H || by apply not_elem_of_nil in H0.
  - intros _ k. rewrite lookup_empty. by intros [? ?].
Qed.

Section Whole.
Context {P : EvictionPolicy Key} (pool_get : List Key -> addr).
Context (pool_get_unused : forall l, heap l !! pool_get l = None).
Implicit Types (s : Store) (m : gmap Key bytes).

Lemma put_write_inv (clean : bool) (io : write_io) (key : Key) (body : bytes) s s1 s2 (id off : Z) (ops : list wop) (c : wcomp) m :
  sys_inv clean (MkSys s ops c m) -> rec_ok magicLive key body -> activeSegRLocked s = Ok (s1, id) ->
  append_record io id magicLive key body s1 = (s2, Ok off) -> sys_inv clean (MkSys s2 (OpPut key body id off :: ops) c m).
Proof.
  intros Hi Hr Ha Hw. assert (write_fits clean (Ok off : result warm_error Z)) as Hwf by (by intros _ e).
  destruct (write_step_inv clean _ _ _ _ _ _ _ _ _ _ _ _ Hi Hr Hwf Ha Hw) as (Hi2 & Hl & En & Hoff).
  destruct (Hoff off eq_refl) as (seg & Hf & Hin). destruct Hi2 as [A B C D E F]. split; try done. apply Forall_cons. split; [|done].
  cbn [op_ok sy_store]. split_and!; [|done|eauto]. split; cbn [Snapshot.size segID offset]; [done|done| |left; eauto].
  destruct (find_seg_Some _ _ _ Hf) as [Hel <-]. by apply (sg_next _ _ _ A).
Qed.

(** [Put] without budgets: nothing is evicted, and a put that succeeds has only
    written what it meant to. *)
Lemma put_unbounded (key : Key) (body : bytes) (fuel : nat) : forall (ios ios' : list write_io) s s' (ks : list Key) (id off : Z) m,
  sys_inv true (MkSys s [] CIdle m) -> rec_ok magicLive key body -> w_maxBytes s <= 0 -> w_maxEntries s <= 0 ->
  put_loop pool_get fuel ios key body s = Some (s', ios', ks, Ok (id, off)) ->
  sys_inv true (MkSys s' [] CIdle (<[key := body]> m)) /\ locs s' = <[key := MkLoc id off (recSize body) false]> (locs s) /\
  w_maxBytes s' <= 0 /\ w_maxEntries s' <= 0.
Proof.
  induction fuel as [|fuel IH]; intros ios ios' s s' ks id off m Hi Hr Hb He; [done|]. cbn [put_loop].
  assert (ensureBudgetLocked pool_get ios (recSize body) s = (s, ios, [], None)) as ->.
  { unfold ensureBudgetLocked. by rewrite !(proj2 (Z.leb_le _ _)) by lia. }
  destruct (activeSegRLocked s) as [[s1 id1]|e] eqn:Ea.
  - destruct (next_io ios) as [io ios1]. destruct (append_record io id1 magicLive key body s1) as [s2 [off1|e]] eqn:Ew; [|done].
    intros [= <- <- <- <- <-]. pose proof (put_write_inv true _ _ _ _ _ _ _ _ _ _ _ Hi Hr Ea Ew) as Hi2.
    pose proof (put_index_step pool_get true pool_get_unused s2 key body id1 off1 [] [] CIdle m Hi2) as Hi3. split; [done|].
    apply append_record_segs in Ew as (segs2 & -> & _).
    assert (exists segs, s1 = {| s with w_segs := segs |}) as (segs & ->).
    { unfold activeSegRLocked in Ea. destruct (last (w_segs s)); [|done]. destruct (seg_full _); [done|]. injection Ea as <- <-. by eexists. }
    pose proof (rec_size_pos body) as Hp. change (HeaderLen + FooterLen) with 28 in Hp.
    destruct (put_index_inv pool_get pool_get_unused key id1 off1 (recSize body) _ ltac:(lia) (sv_idx _ _ Hi2)) as [_ El]. cbn [sy_store] in El.
    split; [exact El|].
    match goal with |- context [put_index pool_get key id1 off1 ?n ?x] => pose proof (put_index_frame pool_get key id1 off1 n x) as (_ & _ & -> & ->) end. done.
  - destruct (newSegment_budget s 0) as (_ & N1 & N2 & _ & N3 & _).
    destruct (put_loop pool_get fuel ios key body (newSegment s)) as [[[[s3 ios3] ks3] r3]|] eqn:Ep; [|done]. intros [= -> -> <- ->].
    apply (IH _ _ _ _ _ _ _ m) in Ep as (H1 & H2 & H3 & H4); [|by apply seal_step|done|by rewrite N1|by rewrite N2].
    split_and!; [done| |done|done]. rewrite H2. unfold locs at 1. by rewrite N3.
Qed.

(** What holds of the temporary store [cp_tmp] and the new index, [mt] being
    the bodies put into it. *)
Record cp_ok m (cp : compaction) (mt : gmap Key bytes) : Prop := {
  cp_sys : sys_inv true (MkSys (cp_tmp cp) [] CIdle mt);
  cp_limits : w_maxBytes (cp_tmp cp) <= 0 /\ w_maxEntries (cp_tmp cp) <= 0;
  cp_some : forall k l, cp_index cp !! k = Some l -> exists l', locs (cp_tmp cp) !! k = Some l' /\ same_place l' l;
  cp_dom : forall k, k ∈ cp_keys cp <-> is_Some (cp_index cp !! k);
  cp_nodup : NoDup (cp_keys cp);
  cp_model : forall k b, mt !! k = Some b -> m !! k = Some b;
}.

Lemma compact_puts_ok m (idx : gmap Key wloc) (pending : list pendingRec) : forall (ios ios' : list write_io) (cp cp' : compaction) (mt : gmap Key bytes),
  cp_ok m cp mt -> (forall p, p ∈ pending -> rec_ok magicLive (p_key p) (p_body p) /\ m !! p_key p = Some (p_body p)) ->
  NoDup (map p_key pending) -> (forall p, p ∈ pending -> p_key p ∉ cp_keys cp) ->
  compact_puts pool_get ios idx pending cp = Ok (ios', cp') ->
  (exists mt', cp_ok m cp' mt') /\ cp_keys cp' = cp_keys cp ++ map p_key pending.
Proof.
  induction pending as [|p pending IH]; intros ios ios' cp cp' mt Hcp Hp Hnd Hdis; cbn [compact_puts].
  { intros [= <- <-]. cbn [map]. rewrite app_nil_r. eauto. }
  destruct (Put pool_get ios (p_key p) (p_body p) (cp_tmp cp)) as [[[[tmp ios1] ks] [[id off]|e]]|] eqn:Eput; [|done|done].
  destruct Hcp as [Hsys [Hmb Hme] Hsome Hdom Hnk Hmod]. destruct (Hp p (list_elem_of_here _ _)) as [Hrec Hbody].
  destruct (put_unbounded _ _ _ _ _ _ _ _ _ _ mt Hsys Hrec Hmb Hme Eput) as (Hsys' & Eloc & Hmb' & Hme').
  cbn [map] in Hnd. apply NoDup_cons in Hnd as [Hnp Hnd]. pose proof (Hdis p (list_elem_of_here _ _)) as Hnk'.
  set (old := match idx !! p_key p with Some w => protected (at_loc w) | None => false end). intros Hrest.
  apply (IH _ _ _ _ (<[p_key p := p_body p]> mt)) in Hrest as [Hok Ek].
  - split; [done|]. rewrite Ek. cbn [cp_keys map]. by rewrite <- app_assoc.
  - split; cbn [cp_tmp cp_index cp_keys]; [done|done|..].
    + intros k l. rewrite Eloc, lookup_insert_Some. intros [[<- <-] | [Hne Hk]].
      * exists (MkLoc id off (recSize (p_body p)) false). by rewrite lookup_insert_eq.
      * rewrite lookup_insert_ne by done. by apply Hsome.
    + intros k. rewrite elem_of_app, list_elem_of_singleton, Hdom, lookup_insert_is_Some.
      destruct (decide (p_key p = k)); naive_solver.
    + apply NoDup_app. split_and!; [done| |apply NoDup_singleton]. intros k Hk ->%list_elem_of_singleton. done.
    + intros k b. rewrite lookup_insert_Some. intros [[<- <-] | [_ Hk]]; [done|by apply Hmod].
  - intros q Hq. apply Hp. by apply list_elem_of_further.
  - done.
  - intros q Hq. cbn [cp_keys]. rewrite not_elem_of_app, list_elem_of_singleton. split; [apply Hdis; by apply list_elem_of_further|].
    intros E. apply Hnp. rewrite <- E. by apply list_elem_of_fmap_2.
Qed.

(** The scan of a segment with the whole index, or with its part at the segment. *)
Lemma pending_filter (idx : gmap Key wloc) (file : bytes) (id : Z) :
  omap (pending_of idx) (delivered (scanSegment file id)) =
  omap (pending_of (base.filter (fun kv => segID (at_loc kv.2) = id) idx)) (delivered (scanSegment file id)).
Proof.
  assert (forall r, r ∈ delivered (scanSegment file id) -> RSegID r = id) as Hid by (intros r Hr; by apply scan_delivered in Hr as [? _]).
  induction (delivered (scanSegment file id)) as [|r rs IH]; [done|]. cbn [omap list_omap].
  rewrite IH by (intros x Hx; apply Hid; by apply list_elem_of_further).
  assert (pending_of idx r = pending_of (base.filter (fun kv => segID (at_loc kv.2) = id) idx) r) as ->; [|done].
  pose proof (Hid r (list_elem_of_here _ _)) as Er. unfold pending_of. destruct (IsTomb r); [done|].
  destruct (base.filter _ idx !! RKey r) as [w|] eqn:Hw.
  - apply map_lookup_filter_Some in Hw as [-> _]. done.
  - destruct (idx !! RKey r) as [w|] eqn:Hk; [|done]. rewrite map_lookup_filter_None in Hw.
    destruct (segID (at_loc w) =? RSegID r) eqn:E; [|done]. apply Z.eqb_eq in E. destruct Hw as [Hw|Hw]; [congruence|].
    by destruct (Hw w Hk); simpl; rewrite E.
Qed.

Lemma pending_of_places (a b : gmap Key wloc) (r : Rec) : same_places a b -> pending_of a r = pending_of b r.
Proof.
  intros H. specialize (H (RKey r)). unfold pending_of. destruct (IsTomb r); [done|].
  destruct (a !! RKey r), (b !! RKey r); simplify_eq/=; [|done]. by match goal with E : segID _ = _, E' : offset _ = _ |- _ => rewrite E, E' end.
Qed.

Lemma omap_places (a b : gmap Key wloc) (rs : list Rec) : same_places a b -> omap (pending_of a) rs = omap (pending_of b) rs.
Proof.
  intros H. induction rs as [|r rs IH]; [done|]. cbn [omap list_omap]. by rewrite (pending_of_places a b r H), IH.
Qed.

Lemma compactSegments_ok (clean : bool) s m (snap : gmap Key wloc) : sys_inv clean (MkSys s [] CIdle m) -> same_places snap (w_index s) ->
  forall segs (ios : list write_io) (cp cp' : compaction) (mt : gmap Key bytes),
  (forall seg, seg ∈ segs -> seg ∈ w_segs s) -> NoDup (map seg_ID segs) -> cp_ok m cp mt ->
  (forall k, k ∈ cp_keys cp -> exists l, locs s !! k = Some l /\ segID l ∉ map seg_ID segs) ->
  compactSegments pool_get ios snap segs cp = Ok cp' ->
  (exists mt', cp_ok m cp' mt') /\ cp_keys cp ⊆ cp_keys cp' /\
  (clean = true -> forall k l, locs s !! k = Some l -> segID l ∈ map seg_ID segs -> k ∈ cp_keys cp').
Proof.
  intros Hi Hsp. induction segs as [|seg segs IH]; intros ios cp cp' mt Hin Hnd Hcp Hkeys; cbn [compactSegments].
  { intros [= <-]. split_and!; [eauto|done|]. intros _ k l _ H. by apply not_elem_of_nil in H. }
  destruct (negb (seg_open seg)); [done|]. destruct (negb _); [done|].
  cbn [map] in Hnd. apply NoDup_cons in Hnd as [Hn Hnd].
  assert (find_seg (w_segs s) (seg_ID seg) = Some seg) as Hf by (apply find_seg_elem; [apply (sv_segs _ _ Hi)|apply Hin, list_elem_of_here]).
  pose proof (scan_pending clean s seg m (seg_ID seg) [] CIdle Hi Hf) as [Hrec Hbody Hall]. rewrite <- pending_filter in Hrec, Hbody, Hall.
  set (pending := omap (pending_of (w_index s)) (delivered (scanSegment (seg_file seg) (seg_ID seg)))) in *.
  assert (Hloc : forall p, p ∈ pending -> exists l, locs s !! p_key p = Some l /\ segID l = seg_ID seg).
  { intros p (r & Hr & Hp)%list_elem_of_omap. apply scan_delivered in Hr as [Er _]. apply pending_of_Some in Hp as (-> & w & Hw & E & _).
    exists (at_loc w). cbn [p_key]. rewrite locs_lookup, Hw. split; [done|]. by rewrite E. }
  assert (omap (pending_of snap) (delivered (scanSegment (seg_file seg) (seg_ID seg))) = pending) as ->
    by by apply omap_places.
  destruct (compact_puts pool_get ios snap pending cp) as [[ios1 cp1]|e] eqn:Eput; [|done]. intros Hrest.
  destruct (compact_puts_ok m snap pending ios ios1 cp cp1 mt Hcp) as [[mt1 Hcp1] Ek]; [| | |exact Eput|].
  - intros p Hp. split; [by apply Hrec|]. destruct (Hloc p Hp) as (l & Hl & El). by eapply Hbody.
  - apply pending_nodup, scan_offsets.
  - intros p Hp Hk. destruct (Hloc p Hp) as (l & Hl & El), (Hkeys _ Hk) as (l' & Hl' & Hl'n). rewrite Hl in Hl'. injection Hl' as <-.
    apply Hl'n. rewrite El. by apply list_elem_of_here.
  - apply (IH _ _ _ mt1) in Hrest as (H1 & H2 & H3); [|intros x Hx; apply Hin; by apply list_elem_of_further|done|done|].
    + split_and!; [done|rewrite Ek in H2; set_solver|]. intros Hc k l Hk Hl. cbn [map] in Hl. apply elem_of_cons in Hl as [El | Hl]; [|by eapply H3].
      destruct (Hall Hc k l Hk El) as (p & Hp & <-). apply H2. rewrite Ek, elem_of_app. right. by apply list_elem_of_fmap_2.
    + intros k. rewrite Ek, elem_of_app. intros [Hk | (p & -> & Hp)%list_elem_of_fmap].
      * destruct (Hkeys k Hk) as (l & Hl & Hln). exists l. split; [done|]. cbn [map] in Hln. by apply not_elem_of_cons in Hln as [_ ?].
      * destruct (Hloc p Hp) as (l & Hl & El). exists l. split; [done|]. by rewrite El.
Qed.

(** ** The new index and the new segments *)

Lemma relist_ok (newIndex : gmap Key warmLoc) (keys : list Key) : forall (l l' : List Key) (idx idx' : gmap Key wloc),
  linked l idx -> NoDup keys -> (forall k, k ∈ keys -> idx !! k = None /\ is_Some (newIndex !! k)) ->
  relist pool_get keys newIndex l idx = (l', idx') ->
  linked l' idx' /\ forall k, at_loc <$> idx' !! k = if decide (k ∈ keys) then newIndex !! k else at_loc <$> idx !! k.
Proof.
  induction keys as [|key keys IH]; intros l l' idx idx' Hl Hnd Hk; cbn [relist].
  { intros [= <- <-]. split; [done|]. intros k. rewrite decide_False by apply not_elem_of_nil. done. }
  apply NoDup_cons in Hnd as [Hn Hnd]. destruct (Hk key (list_elem_of_here _ _)) as [Hnone [loc Hloc]].
  destruct (list_new pool_get l key) as [l1 a] eqn:Ea. rewrite Hloc. intros Hrest.
  assert (linked l1 (<[key := MkWLoc loc a]> idx)) as Hl1.
  { eapply linked_list_new; [exact pool_get_unused| |exact Ea]. by rewrite delete_id. }
  apply IH in Hrest as [H1 H2]; [|done|done|].
  - split; [done|]. intros k. rewrite H2. destruct (decide (k = key)) as [->|Hne].
    + rewrite decide_False by done. rewrite decide_True by apply list_elem_of_here. by rewrite lookup_insert_eq, Hloc.
    + rewrite lookup_insert_ne by done. destruct (decide (k ∈ keys)).
      * by rewrite decide_True by by apply list_elem_of_further.
      * rewrite decide_False; [done|]. by rewrite not_elem_of_cons.
  - intros k Hin. destruct (Hk k (list_elem_of_further _ _ _ Hin)) as [H1 H2]. split; [|done].
    rewrite lookup_insert_ne; [done|]. by intros ->.
Qed.

(** A segment as [openExisting] finds its file. *)
Definition reopen_seg (mx : Z) (seg : Segment) : Segment := MkSegment (seg_ID seg) (len (seg_file seg)) mx false None (seg_file seg).

Lemma reopen_elem (mx : Z) (segs : list Segment) : exists segs', (openExisting mx (map (fun seg => (seg_ID seg, seg_file seg)) segs)).1 = segs' /\
  segs' ≡ₚ map (reopen_seg mx) segs.
Proof.
  eexists. split; [done|]. unfold openExisting. cbn [fst].
  rewrite (Permutation_map _ (merge_sort_Permutation id_le (map (fun seg => (seg_ID seg, seg_file seg)) segs))). by rewrite map_map.
Qed.

Lemma reopen_inv (next next' mx : Z) (segs segs' : list Segment) : segs_inv true next segs -> segs' ≡ₚ map (reopen_seg mx) segs ->
  (forall seg, seg ∈ segs' -> seg_ID seg < next') ->
  segs_inv true next' segs' /\ forall id seg, find_seg segs id = Some seg -> find_seg segs' id = Some (reopen_seg mx seg).
Proof.
  intros [Hids _ _ _ Hlog] Hp Hn.
  assert (Hel : forall x, x ∈ segs' -> exists seg, seg ∈ segs /\ x = reopen_seg mx seg).
  { intros x. rewrite Hp. intros (seg & -> & Hin)%list_elem_of_fmap. eauto. }
  assert (Hnd : NoDup (map seg_ID segs')) by (rewrite Hp, map_map; exact Hids). split; [split|].
  - done.
  - done.
  - intros x (seg & _ & ->)%Hel. split; [cbn; pose proof (len_nonneg (seg_file seg)); lia|done].
  - intros l Hl. apply last_Some_elem_of, Hel in Hl as (seg & _ & ->). done.
  - intros Hc x (seg & Hin & ->)%Hel. destruct (Hlog Hc seg Hin) as [_ He]. split; [done|exact He].
  - intros id seg [Hin <-]%find_seg_Some. change (seg_ID seg) with (seg_ID (reopen_seg mx seg)). apply find_seg_elem; [done|].
    rewrite Hp. by apply list_elem_of_fmap_2.
Qed.

Lemma reopen_in_seg (mx : Z) (seg : Segment) (off : Z) (e : logged) : seg_bounds seg -> in_seg true seg off e -> in_seg true (reopen_seg mx seg) off e.
Proof. intros [Hb _] [H1 H2 H3 H4]. split; cbn [reopen_seg seg_file seg_size seg_mmap]; [done|lia|done|done]. Qed.

(** A store whose files are logs is no worse where writes may fail. *)
Lemma segs_inv_weaken (clean : bool) (next : Z) (segs : list Segment) : segs_inv true next segs -> segs_inv clean next segs.
Proof. intros [A B C D E]. split; try done. intros _. by apply E. Qed.

Lemma loc_ok_weaken (clean : bool) (segs : list Segment) (next : Z) (loc : warmLoc) (key : Key) (body : bytes) :
  loc_ok true segs next loc key body -> loc_ok clean segs next loc key body.
Proof.
  intros [A B C D]. split; try done. destruct D as [(seg & Hf & [E F G H]) | [D _]]; [|done]. left. exists seg. split; [done|].
  split; try done. intros _. by apply H.
Qed.

Lemma compact_step (clean : bool) (snap : gmap Key wloc) (ios : list write_io) (listed : bool) s s' (e : option warm_error) m :
  sys_inv clean (MkSys s [] CIdle m) -> same_places snap (w_index s) ->
  compact_from pool_get snap ios listed s = (s', e) -> (forall seg, seg ∈ w_segs s' -> seg_ID seg < w_nextID s) -> sys_inv clean (MkSys s' [] CIdle m).
Proof.
  intros Hi Hsp. unfold compact_from. set (tmp := NewStore (w_segMax s) 0 0 []).
  destruct (compactSegments pool_get ios snap (w_segs s) (MkCompaction tmp ∅ [])) as [cp|e'] eqn:Ec; [|by intros [= <- <-]].
  destruct (length (cp_keys cp) =? 0)%nat eqn:E0; [by intros [= <- <-]|].
  destruct (relist pool_get (cp_keys cp) (cp_index cp) Dll.NewList ∅) as [l idx] eqn:Er.
  destruct (negb listed); [intros [= <- <-] _; by apply unmap_step|].
  assert (cp_ok m (MkCompaction tmp ∅ []) ∅) as Hcp0.
  { split; cbn [cp_tmp cp_index cp_keys]; [apply init_inv|done|..|apply NoDup_nil_2|].
    - intros k x. by rewrite lookup_empty.
    - intros k. rewrite lookup_empty. split; [by intros H%not_elem_of_nil|by intros [? ?]].
    - intros k b. by rewrite lookup_empty. }
  destruct (compactSegments_ok clean s m snap Hi Hsp (w_segs s) ios (MkCompaction tmp ∅ []) cp ∅ ltac:(done) (sg_ids _ _ _ (sv_segs _ _ Hi)) Hcp0) as ([mt [Hsys _ Hsome Hdom Hnd Hmod]] & _ & Hall);
    [intros k Hk; by apply not_elem_of_nil in Hk|exact Ec|].
  destruct (relist_ok _ _ _ _ _ _ linked_new Hnd ltac:(intros k Hk; split; [apply lookup_empty|by apply Hdom]) Er) as [Hl Hidx].
  unfold NewStore. destruct (reopen_elem (if w_segMax s <=? 0 then Z.shiftl 64 20 else w_segMax s) (w_segs (cp_tmp cp))) as (segs' & Es & Hp).
  destruct (openExisting _ _) as [segs1 next1]. cbn [fst] in Es. subst segs1. intros [= <- <-]. cbn [w_segs]. intros Hlt.
  destruct (reopen_inv _ (w_nextID s) _ _ _ (sv_segs _ _ Hsys) Hp Hlt) as [Hinv Hfind].
  match goal with |- sys_inv _ (MkSys ?x _ _ _) => assert (locs x = cp_index cp) as El end.
  { apply map_eq. intros k. rewrite locs_lookup. cbn [w_index]. rewrite Hidx, lookup_empty. destruct (decide (k ∈ cp_keys cp)) as [|Hk]; [done|].
    simpl. destruct (cp_index cp !! k) eqn:E; [|done]. destruct Hk. apply Hdom. eauto. }
  split; cbn [sy_store sy_ops sy_comp sy_model w_segs w_nextID]; rewrite ?El; [by apply segs_inv_weaken| | | |by apply Forall_nil_2|done].
  - split; [exact Hl|]. rewrite El. split; try done. intros k x Hk. destruct (Hsome k x Hk) as (x' & Hx' & _ & _ & Esz). rewrite Esz.
    by apply (ct_sizes _ _ (ii_counted _ (sv_idx _ _ Hsys)) k).
  - intros k loc Hk. destruct (Hsome k loc Hk) as (l0 & Hl0 & Esg & Eo & Esz). destruct (sv_locs _ _ Hsys k l0 Hl0) as (body & Hb & [Hsz Hr _ Hseg]).
    exists body. split; [by apply Hmod|]. apply loc_ok_weaken. destruct Hseg as [(seg & Hf & Hin) | [? _]]; [|done]. cbn [sy_store] in *.
    pose proof (Hfind _ _ Hf) as Hf'. split; [congruence|done| |].
    + rewrite Esg. destruct (find_seg_Some _ _ _ Hf') as [Hel <-]. by apply Hlt.
    + left. eexists. rewrite Esg, Eo. split; [exact Hf'|]. apply reopen_in_seg; [|done].
      destruct (find_seg_Some _ _ _ Hf) as [Hel _]. by apply (sg_bounds _ _ _ (sv_segs _ _ Hsys)).
  - intros Hc k Hk. destruct (sv_all _ _ Hi Hc k Hk) as [loc Hloc]. cbn [sy_store] in Hloc. apply Hdom. eapply (Hall Hc); [exact Hloc|].
    destruct (sv_locs _ _ Hi k loc Hloc) as (body & _ & [_ _ _ Hseg]). destruct Hseg as [(seg & Hf & _) | [? _]]; [|congruence].
    destruct (find_seg_Some _ _ _ Hf) as [Hel <-]. by apply list_elem_of_fmap_2.
Qed.

(** ** All steps *)

Lemma wstep_inv (clean : bool) (st st' : wsys) : wstep pool_get clean st st' -> sys_inv clean st -> sys_inv clean st'.
Proof.
  intros Hs Hi. destruct Hs.
  - by eapply evict_step.
  - by apply seal_step.
  - destruct r as [off|e]; [by eapply put_write_inv|].
    by destruct (write_step_inv clean _ _ _ _ _ _ _ _ _ _ _ _ Hi H H0 H1 H2) as (Hi2 & _).
  - by apply put_index_step.
  - destruct (write_step_inv clean _ _ _ _ _ _ _ _ _ _ _ _ Hi H H0 H1 H2) as (Hi2 & _ & _ & _). destruct r as [off|e]; [|done].
    destruct Hi2 as [A B C D E F]. split; try done. by apply Forall_cons.
  - by apply delete_index_step.
  - destruct Hi as [A B C D E F]. split; try done. apply Forall_cons. split; [|done]. cbn [op_ok sy_store sy_model] in *.
    destruct (locs s !! key) as [loc|] eqn:Hk; [by apply C|]. intros Hc. destruct (m !! key) as [b|] eqn:Hb; [|done].
    destruct (D Hc key) as [loc Hl]; [eauto|congruence].
  - destruct Hi as [A B C D E F]. split; try done. by apply ops_mid in E as [_ E].
  - by eapply read_step.
  - by apply dropStale_step.
  - by apply mark_step.
  - by apply protect_step.
  - by apply protect_step.
  - eapply (inv_move clean s); [exact Hi|apply close_move, (sv_segs _ _ Hi)|apply (sv_ops _ _ Hi)].
  - by eapply scan_step.
  - by eapply temp_step.
  - by apply swap_step.
  - by eapply compact_step.
Qed.

Lemma reachable_inv (clean : bool) (segMax maxBytes maxEntries : Z) (st : wsys) : rtc (wstep pool_get clean) (wsys_init segMax maxBytes maxEntries) st -> sys_inv clean st.
Proof.
  intros H. pose proof (init_inv clean segMax maxBytes maxEntries) as Hi. remember (wsys_init _ _ _) as st0 eqn:E. clear E.
  induction H as [|st0 st1 st2 Hs _ IH]; [done|]. apply IH. by eapply wstep_inv.
Qed.
End Whole.


(** ** Theorems *)


(** C24. The counters of the warm tier are exact in every state a process that opened
    an empty directory reaches, failed writes and compactions included: the entry
    count is the number of keys in the index and of nodes in the eviction list,
    the byte count is the sum of the sizes of the indexed records as an int64, the
    protected count is the number of protected entries, and every indexed key is
    in the model. A restart is not a step: after one the counters can be off
    (Checkpoint: [rebuild_leaves_counters_zero],
    [snapshot_counters_ignore_the_log]). *)
Theorem warm_counters_exact {P : EvictionPolicy Key} (pool_get : List Key -> addr)
    (Hpool : forall l, heap l !! pool_get l = None) (clean : bool) (segMax maxBytes maxEntries : Z) (st : wsys)
    (Hst : rtc (wstep pool_get clean) (wsys_init segMax maxBytes maxEntries) st) :
  w_entries (sy_store st) = Z.of_nat (base.size (locs (sy_store st))) /\
  llen (w_evict (sy_store st)) = w_entries (sy_store st) /\
  w_bytes (sy_store st) = i64 (map_sum Snapshot.size (locs (sy_store st))) /\
  w_protectedCount (sy_store st) = map_sum (fun l => if protected l then 1 else 0) (locs (sy_store st)) /\
  (forall key, is_Some (locs (sy_store st) !! key) -> is_Some (sy_model st !! key)).
Proof.
  pose proof (reachable_inv pool_get Hpool clean _ _ _ _ Hst) as Hi. destruct (sv_idx _ _ Hi) as [Hl [He Hb Hp Hs]].
  split_and!; [done| |done|done|].
  - rewrite (linked_len _ _ Hl), He. unfold locs. by rewrite map_size_fmap.
  - intros key [loc Hk]. destruct (sv_locs _ _ Hi _ _ Hk) as (body & Hbd & _). eauto.
Qed.

(** ** Witnesses *)

Lemma demo_live (n : Z) (b : bytes) : len b < 2 ^ 32 -> rec_ok magicLive (demo_key n) b.
Proof. intros H. split_and!; [unfold in_u32, magicLive; lia|apply length_put_be|done]. Qed.

Definition demo_write (n : Z) (b : bytes) (id : Z) (s : Store) : Store :=
  (append_record io_done id magicLive (demo_key n) b (update_seg id ensureOpen s)).1.

Abbreviation dstep := (@wstep (sieve_policy Key) pool_fresh true).
Abbreviation dindex := (fun n => @put_index (sieve_policy Key) pool_fresh (demo_key n)).

Lemma demo_write_step (n : Z) (b : bytes) (id off : Z) (s : Store) (ops : list wop) (c : wcomp) (m : gmap Key bytes) :
  len b < 2 ^ 32 -> (match last (w_segs s) with Some l => if seg_full l then None else Some (seg_ID l) | None => None end) = Some id ->
  (append_record io_done id magicLive (demo_key n) b (update_seg id ensureOpen s)).2 = Ok off ->
  dstep (MkSys s ops c m) (MkSys (demo_write n b id s) (OpPut (demo_key n) b id off :: ops) c m).
Proof.
  intros Hb Ha Hw. eapply (ws_put_write pool_fresh true io_done (demo_key n) b s (update_seg id ensureOpen s) _ id (Ok off));
    [by apply demo_live|done| |].
  - unfold activeSegRLocked. destruct (last (w_segs s)) as [l|]; [|done]. destruct (seg_full l); [done|]. by injection Ha as <-.
  - unfold demo_write. destruct (append_record _ _ _ _ _ _). simpl in *. by subst.
Qed.

(** Two keys are stored and the first one's segment is sealed. It is compacted
    while a put of the second key is between its write and its index update,
    and the second key is looked up. *)
Definition d1 : Store := newSegment (NewStore 30 0 0 []).
Definition d2 : Store := dindex 1 0 0 32 (demo_write 1 (bs "abcd") 0 d1).
Definition d3 : Store := newSegment d2.
Definition d3' : Store := dindex 2 1 0 31 (demo_write 2 (bs "old") 1 d3).
Definition d4 : Store := newSegment d3'.
Definition d5 : Store := (compact_scan 0 d4).1.
Definition demo_pending : list pendingRec := [MkPending (demo_key 1) (bs "abcd")].
Definition d6 : Store := (writeCompactTemp [] demo_pending (demo_write 2 (bs "new") 2 d5)).1.
Definition demo_file : bytes := encodeRecord magicLive (demo_key 1) (bs "abcd").
Definition demo_recs : list compactRec := [MkCompact (demo_key 1) 3 0 32].
Definition d6' : Store := dindex 2 2 0 31 d6.
Definition d7 : Store := (swapCompactSegment true 0 3 demo_file demo_recs d6').1.
Definition demo_state : wsys :=
  MkSys d7 [OpGet (demo_key 2) (Some (MkLoc 2 0 31 false)) (Some (bs "new"))] CIdle
    (<[demo_key 2 := bs "new"]> (<[demo_key 2 := bs "old"]> (<[demo_key 1 := bs "abcd"]> ∅))).

Lemma demo_run : rtc dstep (wsys_init 30 0 0) demo_state.
Proof.
  set (m1 := <[demo_key 1 := bs "abcd"]> (∅ : gmap Key bytes)). set (m2 := <[demo_key 2 := bs "old"]> m1). set (m3 := <[demo_key 2 := bs "new"]> m2).
  apply (rtc_l _ _ (MkSys d1 [] CIdle ∅)); [exact (ws_seal pool_fresh true (NewStore 30 0 0 []) CIdle ∅)|].
  apply (rtc_l _ _ _ _ (demo_write_step 1 (bs "abcd") 0 0 d1 [] CIdle ∅ ltac:(reflexivity) ltac:(vm_compute; reflexivity) ltac:(vm_compute; reflexivity))).
  apply (rtc_l _ _ (MkSys d2 [] CIdle m1)); [exact (ws_put_index pool_fresh true (demo_key 1) (bs "abcd") 0 0 _ [] [] CIdle ∅)|].
  apply (rtc_l _ _ (MkSys d3 [] CIdle m1)); [exact (ws_seal pool_fresh true d2 CIdle m1)|].
  apply (rtc_l _ _ _ _ (demo_write_step 2 (bs "old") 1 0 d3 [] CIdle m1 ltac:(reflexivity) ltac:(vm_compute; reflexivity) ltac:(vm_compute; reflexivity))).
  apply (rtc_l _ _ (MkSys d3' [] CIdle m2)); [exact (ws_put_index pool_fresh true (demo_key 2) (bs "old") 1 0 _ [] [] CIdle m1)|].
  apply (rtc_l _ _ (MkSys d4 [] CIdle m2)); [exact (ws_seal pool_fresh true d3' CIdle m2)|].
  apply (rtc_l _ _ (MkSys d5 [] (CScanned 0 demo_pending) m2)).
  { refine (ws_scan pool_fresh true 0 d4 d5 (Ok demo_pending) [] m2 (injective_projections _ _ eq_refl _)). vm_compute. reflexivity. }
  apply (rtc_l _ _ _ _ (demo_write_step 2 (bs "new") 2 0 d5 [] (CScanned 0 demo_pending) m2 ltac:(reflexivity) ltac:(vm_compute; reflexivity) ltac:(vm_compute; reflexivity))).
  apply (rtc_l _ _ (MkSys d6 [OpPut (demo_key 2) (bs "new") 2 0] (CWritten 0 3 demo_file demo_recs) m2)).
  { refine (ws_temp pool_fresh true [] 0 demo_pending (demo_write 2 (bs "new") 2 d5) d6 (Ok (3, demo_file, demo_recs)) _ m2 (injective_projections _ _ eq_refl _)).
    vm_compute. reflexivity. }
  apply (rtc_l _ _ (MkSys d6' [] (CWritten 0 3 demo_file demo_recs) m3));
    [exact (ws_put_index pool_fresh true (demo_key 2) (bs "new") 2 0 d6 [] [] (CWritten 0 3 demo_file demo_recs) m2)|].
  apply (rtc_l _ _ (MkSys d7 [] CIdle m3)); [exact (ws_swap pool_fresh true true 0 3 demo_file demo_recs d6' m3)|].
  apply rtc_once. assert (locs d7 !! demo_key 2 = Some (MkLoc 2 0 31 false)) as E1 by (vm_compute; reflexivity).
  assert (m3 !! demo_key 2 = Some (bs "new")) as E2 by apply lookup_insert_eq.
  unfold demo_state. fold m1. fold m2. fold m3. rewrite <- E1, <- E2. exact (ws_lookup pool_fresh true (demo_key 2) d7 [] CIdle m3).
Qed.


Lemma warm_counters_exact_witness : llen (w_evict d7) = w_entries d7.
Proof.
  pose proof (proj1 (proj2 (warm_counters_exact pool_fresh pool_fresh_unused true 30 0 0 demo_state demo_run))) as H.
  assert (sy_store demo_state = d7) as E by reflexivity. rewrite E in H. exact H.
Defined.

(** ** What the code does on edge inputs *)

(** A compacted segment has a higher ID than the segment records go to, and a
    rebuild of the index scans in the order of the IDs. A key that is deleted
    after its segment was compacted comes back: the tombstone is scanned before
    the record it deletes. *)
Definition reopened (s : Store) : Store :=
  NewStore (w_segMax s) (w_maxBytes s) (w_maxEntries s) (map (fun seg => (seg_ID seg, seg_file seg)) (w_segs s)).
Definition compacted_store : Store :=
  let s := newSegment (after (dput [] (demo_key 1) (bs "abcd") (NewStore 30 0 0 []))) in (CompactSegment [] true 0 s).1.
Definition deleted_store : Store :=
  match @Delete (sieve_policy Key) io_done (demo_key 1) compacted_store with Some (s, Ok _) => s | _ => compacted_store end.
Lemma compaction_resurrects_deleted :
  locs compacted_store !! demo_key 1 = Some (MkLoc 2 0 32 false) /\ locs deleted_store !! demo_key 1 = None /\
  index (rebuildIndexFromScan (Scan (reopened deleted_store)) new_store) !! demo_key 1 = Some (MkLoc 2 0 0 false).
Proof. vm_compute. auto. Qed.

(** The whole-store compaction fails as soon as one segment is closed. *)
Lemma compact_needs_open_segments :
  (@Compact (sieve_policy Key) pool_fresh [] true (update_seg 0 closeIfIdle d2)).2 = Some errIO /\
  (@Compact (sieve_policy Key) pool_fresh [] true d2).2 = None.
Proof. vm_compute. auto. Qed.

(** It numbers its segments from zero and does not raise the next ID. After the
    segment size was reduced there can be more of them than before, and the
    next segment gets the ID, and so the file, of an existing one. *)
Definition three_keys : Store :=
  let put n s := after (dput [] (demo_key n) (bs "abcd") s) in
  {| (put 3 (put 2 (put 1 (NewStore 1000 0 0 [])))) with w_segMax := 30 |}.
Lemma compact_reuses_ids :
  map seg_ID (w_segs (newSegment (@Compact (sieve_policy Key) pool_fresh [] true three_keys).1)) = [0; 1; 2; 1].
Proof. vm_compute. reflexivity. Qed.

(** A [Protect] that comes between its copy of the index and its end is undone. *)
Lemma compact_undoes_protect :
  protected <$> locs (Protect (demo_key 1) d2) !! demo_key 1 = Some true /\
  protected <$> locs (@compact_from (sieve_policy Key) pool_fresh (w_index d2) [] true (Protect (demo_key 1) d2)).1 !! demo_key 1 = Some false.
Proof. vm_compute. auto. Qed.
