(* ===== verification/Tiered.v ===== *)
(** * The tiered store: src/internal/storage/tiered.go (and Probe of probe.go)

    The hot tier of [Hot] over the warm tier of [WarmStore], joined by three
    bounded queues and a write-ahead log. A definition is one call of a public
    operation, or one round of a background loop, run to its end; the hot
    tier's callbacks and the warm tier's are the queue sends the code makes.
    The log is the list of entries handed to it ([Wal] models what it does with
    them, [Checkpoint] the checkpoints and the restart). Outcomes of file
    operations, clocks and the iteration order of maps are arguments. *)

From S2P Require Import Prelude GoStd CacheControl HeaderMap Api ClusterCodec Evictor ObjectCodec Wal Snapshot Checkpoint Bans EvictIndex Hot WarmRecord WarmStore WarmSystem WarmRefine.

(** ** Configuration *)

Record TieredConfig : Type := MkTConfig {
  cfg_BodyThreshold : Z; cfg_WarmSyncBatchSize : Z; cfg_WarmSyncInterval : Duration; cfg_WALSyncInterval : Duration;
  cfg_CheckpointInterval : Duration; cfg_CheckpointWALThreshold : Z; cfg_TombstoneQueueSize : Z;
  cfg_TombstoneDrainInterval : Duration; cfg_CompactStartupDelay : Duration; cfg_CompactInterval : Duration }.

Definition second : Duration := 1000000000.
Definition DefaultSyncInterval : Duration := 100 * 1000000.

(** The defaults of [NewTieredStore]. *)
Definition tiered_defaults (cfg : TieredConfig) : TieredConfig :=
  {| cfg_BodyThreshold := if cfg_BodyThreshold cfg <=? 0 then Z.shiftl 64 10 else cfg_BodyThreshold cfg;
     cfg_WarmSyncBatchSize := if cfg_WarmSyncBatchSize cfg <=? 0 then 5000 else cfg_WarmSyncBatchSize cfg;
     cfg_WarmSyncInterval := (let d := if cfg_WarmSyncInterval cfg =? 0 then 60 * second else cfg_WarmSyncInterval cfg in
                              if d <? 0 then 0 else d);
     cfg_WALSyncInterval := if cfg_WALSyncInterval cfg =? 0 then DefaultSyncInterval else cfg_WALSyncInterval cfg;
     cfg_CheckpointInterval := if cfg_CheckpointInterval cfg =? 0 then 5 * 60 * second else cfg_CheckpointInterval cfg;
     cfg_CheckpointWALThreshold := if cfg_CheckpointWALThreshold cfg =? 0 then 100000 else cfg_CheckpointWALThreshold cfg;
     cfg_TombstoneQueueSize := if cfg_TombstoneQueueSize cfg <=? 0 then 65536 else cfg_TombstoneQueueSize cfg;
     cfg_TombstoneDrainInterval := if cfg_TombstoneDrainInterval cfg =? 0 then second else cfg_TombstoneDrainInterval cfg;
     cfg_CompactStartupDelay := cfg_CompactStartupDelay cfg;
     cfg_CompactInterval := cfg_CompactInterval cfg |}.

(** ** State *)

(** The [wal] field: nil, a log with the entries handed to it, or an interface
    that holds a nil pointer. *)
Inductive wal_field : Type := WalNil | WalLog (handed : list Entry) | WalNilPtr.

Record TieredStore : Type := MkTiered {
  t_cfg : TieredConfig;
  t_hot : HotStore;
  t_warm : option Store;
  t_wal : wal_field;
  walEntryCount : Z;
  tombstoneQueue : list Key;
  warmEvictQueue : list Key;
  warmUnprotectQueue : list Key;
  droppedTombstones : Z;
  droppedWarmEvicts : Z;
  droppedWarmUnprotects : Z;
  warmSyncCycleCount : Z;
  warmSyncOffset : Z;
}.

Inductive tiered_error : Type :=
  | EWarm (e : warm_error) | ERead (e : read_error) | ESync | EPanic | ERounds.

(** [NewTieredStore] on an opened warm store (or none), before the loops start. *)
Definition NewTieredStore (cfg : TieredConfig) (hot : HotStore) (warm : option Store) (wal : bool) : TieredStore :=
  {| t_cfg := tiered_defaults cfg; t_hot := hot; t_warm := warm; t_wal := if wal then WalLog [] else WalNil;
     walEntryCount := 0; tombstoneQueue := []; warmEvictQueue := []; warmUnprotectQueue := [];
     droppedTombstones := 0; droppedWarmEvicts := 0; droppedWarmUnprotects := 0;
     warmSyncCycleCount := 0; warmSyncOffset := 0 |}.

(** ** The callbacks *)

Definition queue_room (q : list Key) (t : TieredStore) : bool := len q <? cfg_TombstoneQueueSize (t_cfg t).

(** [cfg.Hot.OnEvict] *)
Definition hot_OnEvict (key : Key) (t : TieredStore) : TieredStore :=
  if queue_room (tombstoneQueue t) t then {| t with tombstoneQueue := tombstoneQueue t ++ [key] |}
  else {| t with droppedTombstones := droppedTombstones t + 1 |}.

(** [cfg.Hot.OnEvictDemoted] *)
Definition hot_OnEvictDemoted (key : Key) (t : TieredStore) : TieredStore :=
  if queue_room (warmUnprotectQueue t) t then {| t with warmUnprotectQueue := warmUnprotectQueue t ++ [key] |}
  else let t := hot_OnEvict key t in {| t with droppedWarmUnprotects := droppedWarmUnprotects t + 1 |}.

Definition hot_notice (t : TieredStore) (n : notice) : TieredStore :=
  match n with OnEvict k => hot_OnEvict k t | OnEvictDemoted k => hot_OnEvictDemoted k t end.

(** The hot tier after a call, with the callbacks the call made. *)
Definition with_hot (h : HotStore) (t : TieredStore) : TieredStore :=
  foldl hot_notice {| t with t_hot := h |} (drop (length (notices (emitted (t_hot t)))) (notices (emitted h))).

(** [w.OnEvict] of [initWarm] *)
Definition warm_OnEvict (t : TieredStore) (key : Key) : TieredStore :=
  let t := {| t with t_hot := ClearBacked (t_hot t) key |} in
  if queue_room (warmEvictQueue t) t then {| t with warmEvictQueue := warmEvictQueue t ++ [key] |}
  else {| t with droppedWarmEvicts := droppedWarmEvicts t + 1 |}.

(** ** The log *)

(** [walEnqueue] and [walEnqueueBatch], outside a checkpoint: on a nil pointer
    the method dereferences it. *)
Definition walEnqueueBatch (es : list Entry) (t : TieredStore) : result tiered_error TieredStore :=
  match t_wal t with
  | WalNil => Ok t
  | WalLog handed => Ok {| t with t_wal := WalLog (handed ++ es); walEntryCount := walEntryCount t + len es |}
  | WalNilPtr => Err EPanic
  end.
Definition walEnqueue (e : Entry) (t : TieredStore) : result tiered_error TieredStore := walEnqueueBatch [e] t.
Definition has_wal (t : TieredStore) : bool := match t_wal t with WalNil => false | _ => true end.

(** [warm.SyncSegment]: [ok] is the outcome of opening and syncing the file. *)
Definition SyncSegment (ok : bool) (id : Z) (s : Store) : Store * bool :=
  match List.find (fun seg => seg_ID seg =? id) (w_segs s) with
  | None => (s, false)
  | Some _ => (update_seg id ensureOpen s, ok)
  end.

(** [warm.Lookup], [warm.Protected] and [warm.OverBudget] *)
Definition Lookup (s : Store) (key : Key) : option (Z * Z) :=
  match w_index s !! key with Some w => Some (segID (at_loc w), offset (at_loc w)) | None => None end.
Definition Protected (s : Store) (key : Key) : bool :=
  match w_index s !! key with Some w => protected (at_loc w) | None => false end.
Definition WarmOverBudget (s : Store) : bool :=
  if (0 <? w_maxBytes s) && (w_maxBytes s <=? w_bytes s) then true
  else (0 <? w_maxEntries s) && (w_maxEntries s <=? w_entries s).

(** ** Reading a warm object *)

(** The digits of the Age loop; [secs] is an int64. *)
Fixpoint age_digits (secs : Z) (age : bytes) : Z :=
  match age with
  | [] => secs
  | b :: age => if is_digit b then age_digits (i64 (i64 (secs * 10) + (Zb b - 48))) age else secs
  end.
Definition rederiveTransients (o : Object.t) : Object.t :=
  let o := match Object.CacheControl o with
           | [] => match HeaderMap.Get (Object.Header o) (bs "Cache-Control") with
                   | [] => o
                   | cc => {| o with Object.CacheControl := cc |}
                   end
           | _ => o
           end in
  if Object.OriginAge o =? 0 then
    match HeaderMap.Get (Object.Header o) (bs "Age") with
    | [] => o
    | age => {| o with Object.OriginAge := i64 (age_digits 0 age * second) |}
    end
  else o.

Inductive Source : Type := SourceHot | SourceWarm.

Section Tiered.
(** The eviction policy and the node pool of each tier. *)
Context {PH : EvictionPolicy Key} (hot_pool : List Key -> addr).
Context {PW : EvictionPolicy Key} (warm_pool : List Key -> addr).
Context (shard_hash : bytes -> Z) (regexp_compile : bytes -> option (bytes -> bool)).

Let hot_get := @Hot.Get PH hot_pool shard_hash.
Let hot_put := @Hot.Put PH hot_pool.
Let hot_delete := @Hot.Delete PH.
Let warm_get := @WarmStore.Get PW.
Let warm_put := @WarmStore.Put PW warm_pool.
Let warm_delete := @WarmStore.Delete PW.

(** ** Delete *)

Definition set_warm (w : Store) (t : TieredStore) : TieredStore := {| t with t_warm := Some w |}.

(** [evictWarmErr]; [synced] is the outcome of the fsync. *)
Definition evictWarmErr (io : write_io) (synced : bool) (key : Key) (t : TieredStore) : TieredStore * result tiered_error unit :=
  match t_warm t with
  | None => (t, Ok tt)
  | Some w =>
      match warm_delete io key w with
      | None => (t, Err ERounds)
      | Some (w, Err e) => (set_warm w t, Err (EWarm e))
      | Some (w, Ok id) =>
          if has_wal t then
            let '(w, ok) := SyncSegment synced id w in
            let t := set_warm w t in
            if ok then match walEnqueue (DeleteEntry key) t with Ok t => (t, Ok tt) | Err e => (t, Err e) end
            else (t, Err ESync)
          else (set_warm w t, Ok tt)
      end
  end.

Definition Delete (io : write_io) (synced : bool) (key : Key) (t : TieredStore) : TieredStore * result tiered_error unit :=
  evictWarmErr io synced key (with_hot (hot_delete (t_hot t) key) t).

(** ** Get *)

(** What a lookup reads of its environment: the ban list's lock and clock for
    the hot lookup and for the check of a warm object, and the outcomes of the
    eviction of an unreadable blob. *)
Record get_env : Type := MkGetEnv {
  g_won : bool; g_now : Time; g_won2 : bool; g_now2 : Time; g_io : write_io; g_synced : bool }.

(** [Get] once the hot tier missed. *)
Definition get_warm (env : get_env) (key : Key) (w : Store) (t : TieredStore)
    : TieredStore * result tiered_error (option (Object.t * Source)) :=
  let '(w, r) := warm_get key w in
  let t := set_warm w t in
  match r with
  | Err e => (t, Err (ERead e))
  | Ok None => (t, Ok None)
  | Ok (Some body) =>
      match decodeObject body with
      | Err _ =>
          let '(t, e) := evictWarmErr (g_io env) (g_synced env) key t in
          (t, match e with Err EPanic => Err EPanic | _ => Ok None end)
      | Ok loaded =>
          let loaded := rederiveTransients loaded in
          let t := with_hot (hot_put (t_hot t) key loaded) t in
          let '(h, banned) := matchesActiveBan shard_hash (t_hot t) loaded (g_won2 env) (g_now2 env) in
          let t := {| t with t_hot := h |} in
          if banned then (with_hot (hot_delete (t_hot t) key) t, Ok None)
          else (t, Ok (Some (loaded, SourceWarm)))
      end
  end.

Definition Get (env : get_env) (key : Key) (t : TieredStore) : TieredStore * result tiered_error (option (Object.t * Source)) :=
  let '(h, obj) := hot_get (t_hot t) key (g_won env) (g_now env) in
  let t := with_hot h t in
  match obj with
  | Some obj => (t, Ok (Some (obj, SourceHot)))
  | None => match t_warm t with
            | None => (t, Ok None)
            | Some w => get_warm env key w t
            end
  end.

(** ** Put *)

Definition backs (t : TieredStore) (obj : Object.t) : bool :=
  (cfg_BodyThreshold (t_cfg t) <? Object.BodySize obj) || Object.KeepGrace obj || Object.IsVaryResolver obj.

(** [SetBacked] and [Protect], after a write to the warm tier. *)
Definition mark_backed (key : Key) (w : Store) (t : TieredStore) : TieredStore :=
  {| t with t_hot := SetBacked (t_hot t) key; t_warm := Some (Protect key w) |}.

Definition warmBack (ios : list write_io) (synced : bool) (key : Key) (obj : Object.t) (t : TieredStore)
    : TieredStore * result tiered_error unit :=
  match t_warm t with
  | None => (t, Ok tt)
  | Some w =>
      if negb (backs t obj) then (t, Ok tt)
      else
        let body := encodeObject obj in
        match warm_put ios key body w with
        | None => (t, Err ERounds)
        | Some (w, _, ks, r) =>
            let t := foldl warm_OnEvict (set_warm w t) ks in
            match r with
            | Err ErrOverBudget => (t, Ok tt)
            | Err e => (t, Err (EWarm e))
            | Ok (id, off) =>
                let w := Protect key w in
                let t := {| t with t_hot := SetBacked (t_hot t) key; t_warm := Some w |} in
                if has_wal t then
                  let '(w, ok) := SyncSegment synced id w in
                  let t := set_warm w t in
                  if ok then match walEnqueue (PutEntryWithSize key id off (recSize body)) t with
                             | Ok t => (t, Ok tt) | Err e => (t, Err e) end
                  else (t, Err ESync)
                else (t, Ok tt)
            end
        end
  end.

(** [Put], and [PutOwned] with the hot tier's [PutOwned]. *)
Definition Put (ios : list write_io) (synced : bool) (key : Key) (obj : Object.t) (t : TieredStore)
    : TieredStore * result tiered_error unit :=
  warmBack ios synced key obj (with_hot (hot_put (t_hot t) key obj) t).
Definition PutOwned (ios : list write_io) (synced : bool) (key : Key) (obj : Object.t) (t : TieredStore)
    : TieredStore * result tiered_error unit :=
  warmBack ios synced key obj (with_hot (@Hot.PutOwned PH hot_pool (t_hot t) key obj) t).

(** ** Queries *)

Definition Has (key : Key) (t : TieredStore) : bool :=
  if Hot.Has (t_hot t) key then true
  else match t_warm t with None => false | Some w => match Lookup w key with Some _ => true | None => false end end.

(** The union of the keys: hot keys first, each key once. *)
Fixpoint add_unseen (seen : gset Key) (ks : list Key) : gset Key * list Key :=
  match ks with
  | [] => (seen, [])
  | k :: ks => if bool_decide (k ∈ seen) then add_unseen seen ks
               else let '(seen, out) := add_unseen ({[k]} ∪ seen) ks in (seen, k :: out)
  end.
(** [visit] and [warmKeys] are the iteration orders of the shards and of the
    warm index. *)
Definition Keys (visit : nat -> list Key) (warmKeys : list Key) (t : TieredStore) : list Key :=
  let hotKeys := Hot.Keys (t_hot t) visit in
  match t_warm t with
  | None => hotKeys
  | Some _ =>
      match warmKeys with
      | [] => hotKeys
      | _ => let '(seen, out) := add_unseen ∅ hotKeys in out ++ (add_unseen seen warmKeys).2
      end
  end.

(** ** The queues *)

(** One round of the loop of [drainTombstones] per key of the queue. *)
Fixpoint drain_tombs (ios : list write_io) (ks : list Key) (w : Store) (walEntries : list Entry)
    : Store * list write_io * list Entry :=
  match ks with
  | [] => (w, ios, walEntries)
  | k :: ks =>
      let '(io, ios) := next_io ios in
      match warm_delete io k w with
      | Some (w, Ok _) => drain_tombs ios ks w (walEntries ++ [DeleteEntry k])
      | Some (w, Err _) => drain_tombs ios ks w walEntries
      | None => drain_tombs ios ks w walEntries
      end
  end.
Definition drainTombstones (ios : list write_io) (w : Store) (walEntries : list Entry) (t : TieredStore)
    : TieredStore * list write_io * list Entry :=
  let '(w, ios, walEntries) := drain_tombs ios (tombstoneQueue t) w walEntries in
  ({| t with tombstoneQueue := []; t_warm := Some w |}, ios, walEntries).
Definition drainWarmEvicts (walEntries : list Entry) (t : TieredStore) : TieredStore * list Entry :=
  ({| t with warmEvictQueue := [] |}, walEntries ++ map DeleteEntry (warmEvictQueue t)).
Definition drainWarmUnprotects (w : Store) (t : TieredStore) : TieredStore :=
  {| t with warmUnprotectQueue := []; t_warm := Some (foldl (fun w k => Unprotect k w) w (warmUnprotectQueue t)) |}.

(** The three drains of a round, in order. *)
Definition drain_all (ios : list write_io) (t : TieredStore) : TieredStore * list write_io * list Entry :=
  match t_warm t with
  | None => (t, ios, [])
  | Some w =>
      let '(t, ios, walEntries) := drainTombstones ios w [] t in
      let '(t, walEntries) := drainWarmEvicts walEntries t in
      (match t_warm t with Some w => drainWarmUnprotects w t | None => t end, ios, walEntries)
  end.

Definition reset_drops (t : TieredStore) : TieredStore :=
  {| t with droppedTombstones := 0; droppedWarmEvicts := 0; droppedWarmUnprotects := 0 |}.

(** The end of both rounds: the batch goes to the log, the counters to the logger. *)
Definition flush_entries (walEntries : list Entry) (t : TieredStore) : result tiered_error TieredStore :=
  match walEntries with
  | [] => Ok (reset_drops t)
  | _ => match walEnqueueBatch walEntries t with Ok t => Ok (reset_drops t) | Err e => Err e end
  end.

Definition drainQueues (ios : list write_io) (t : TieredStore) : result tiered_error TieredStore :=
  match t_warm t with
  | None => Ok t
  | Some _ => let '(t, _, walEntries) := drain_all ios t in flush_entries walEntries t
  end.

(** ** The sync round *)

(** The two passes of the fallback scan stop when [needed] is used up. *)
Fixpoint fill_missing (missing : Key -> bool) (needed : Z) (ks : list Key) : list Key * Z :=
  match ks with
  | [] => ([], needed)
  | k :: ks =>
      let '(out, needed) := if missing k then ([k], needed - 1) else ([], needed) in
      if needed <=? 0 then (out, needed)
      else let '(out', needed) := fill_missing missing needed ks in (out ++ out', needed)
  end.
Definition collectHotOnlyKeysFallback (hotKeys : list Key) (w : Store) (t : TieredStore) : TieredStore * list Key :=
  let total := len hotKeys in
  if total =? 0 then (t, [])
  else
    let offset := Z.rem (warmSyncOffset t) total in
    let offset := if offset <? 0 then offset + total else offset in
    let missing k := match Lookup w k with Some _ => false | None => true end in
    let '(ks, needed) := fill_missing missing (cfg_WarmSyncBatchSize (t_cfg t)) (drop (Z.to_nat offset) hotKeys) in
    let ks' := if 0 <? needed then (fill_missing missing needed (take (Z.to_nat offset) hotKeys)).1 else [] in
    ({| t with warmSyncOffset := 0 |}, ks ++ ks').

(** [visits] are the iteration orders of the passes over the shards. *)
Definition collectHotOnlyKeys (visits : (nat -> list Key) * (nat -> list Key)) (w : Store) (t : TieredStore) : TieredStore * list Key :=
  let t := {| t with warmSyncCycleCount := warmSyncCycleCount t + 1 |} in
  if Z.rem (warmSyncCycleCount t) 10 =? 0 then collectHotOnlyKeysFallback (Hot.Keys (t_hot t) visits.1) w t
  else
    let '(ks, total) := HotOnlyKeys (t_hot t) visits.1 visits.2 (warmSyncOffset t) (cfg_WarmSyncBatchSize (t_cfg t)) in
    (if 0 <? total then {| t with warmSyncOffset := Z.rem (warmSyncOffset t + cfg_WarmSyncBatchSize (t_cfg t)) total |} else t, ks).

(** [clk i] is the ban list's lock and clock at the [i]th lookup. *)
Fixpoint writeHotOnlyToWarm (clk : nat -> bool * Time) (i : nat) (ios : list write_io) (ks : list Key) (walEntries : list Entry) (t : TieredStore)
    : result tiered_error (TieredStore * list Entry) :=
  match ks with
  | [] => Ok (t, walEntries)
  | k :: ks =>
      let '(h, obj) := hot_get (t_hot t) k (clk i).1 (clk i).2 in
      let t := with_hot h t in
      match obj, t_warm t with
      | Some obj, Some w =>
          let body := encodeObject obj in
          match warm_put ios k body w with
          | None => Err ERounds
          | Some (w, ios, evicted, r) =>
              let t := foldl warm_OnEvict (set_warm w t) evicted in
              match r with
              | Err ErrOverBudget => Ok (t, walEntries)
              | Err _ => writeHotOnlyToWarm clk (S i) ios ks walEntries t
              | Ok (id, off) =>
                  writeHotOnlyToWarm clk (S i) ios ks (walEntries ++ [PutEntryWithSize k id off (recSize body)])
                    (mark_backed k w t)
              end
          end
      | _, _ => writeHotOnlyToWarm clk (S i) ios ks walEntries t
      end
  end.

Definition runWarmSyncCycle (clk : nat -> bool * Time) (visits : (nat -> list Key) * (nat -> list Key)) (ios : list write_io) (t : TieredStore)
    : result tiered_error TieredStore :=
  match t_warm t with
  | None => Ok t
  | Some _ =>
      let '(t, ios, walEntries) := drain_all ios t in
      match t_warm t with
      | None => Ok t
      | Some w =>
          if WarmOverBudget w then flush_entries walEntries t
          else
            let '(t, ks) := collectHotOnlyKeys visits w t in
            match writeHotOnlyToWarm clk 0 ios ks walEntries t with
            | Ok (t, walEntries) => flush_entries walEntries t
            | Err e => Err e
            end
      end
  end.

(** ** Compaction *)

(** The outcome of each file operation of [rewriteWAL]. *)
Inductive rewrite_outcome : Type :=
  | RwDone | RwOpenTmp | RwBatch | RwCloseTmp | RwCloseOld | RwRename (reopened : bool) | RwReopen.

(** The live entries, in the iteration order [warmKeys] of the index. *)
Definition live_entries (warmKeys : list Key) (w : Store) : list Entry :=
  omap (fun k => match w_index w !! k with
                 | Some loc => let l := at_loc loc in
                     Some (if 0 <? Snapshot.size l then PutEntryWithSize k (segID l) (offset l) (Snapshot.size l)
                           else PutEntry k (segID l) (offset l))
                 | None => None
                 end) warmKeys.

(** [rewriteWAL]: whether it succeeded. An interface over a nil pointer is not
    nil; the first method called on it is [Close]. *)
Definition rewriteWAL (warmKeys : list Key) (o : rewrite_outcome) (w : Store) (t : TieredStore) : result tiered_error (TieredStore * bool) :=
  match t_wal t with
  | WalNil => Ok (t, true)
  | cur =>
      match o with
      | RwOpenTmp | RwBatch | RwCloseTmp => Ok (t, false)
      | _ =>
          match cur with
          | WalLog handed =>
              match o with
              | RwCloseOld => Ok ({| t with t_wal := WalNil |}, false)
              | RwRename true => Ok ({| t with t_wal := WalLog handed |}, false)
              | RwRename false => Ok ({| t with t_wal := WalNil |}, false)
              | RwReopen => Ok ({| t with t_wal := WalNilPtr |}, false)
              | _ => Ok ({| t with t_wal := WalLog (live_entries warmKeys w) |}, true)
              end
          | _ => Err EPanic
          end
      end
  end.

(** [runPostCompaction]; [snap] is the outcome of writing the snapshot. *)
Definition runPostCompaction (warmKeys : list Key) (o : rewrite_outcome) (snap : bool) (w : Store) (t : TieredStore)
    : result tiered_error TieredStore :=
  match rewriteWAL warmKeys o w t with
  | Err e => Err e
  | Ok (t, ok) => Ok (if ok && snap then {| t with walEntryCount := 0 |} else t)
  end.

Definition runCompaction (force : bool) (ios : list write_io) (listed : bool) (warmKeys : list Key) (o : rewrite_outcome) (snap : bool) (w : Store) (t : TieredStore)
    : result tiered_error TieredStore :=
  if negb force && negb (NeedsCompaction w) then Ok t
  else
    let '(w, e) := @Compact PW warm_pool ios listed w in
    let t := set_warm w t in
    match e with
    | Some _ => Ok t
    | None => runPostCompaction warmKeys o snap w t
    end.

(** The per-segment loop of a check tick: the store and whether a segment was
    compacted. *)
Fixpoint compact_ticks (rounds : nat) (ios : nat -> list write_io) (renamed : nat -> bool) (w : Store) (compacted : bool) : Store * bool :=
  match rounds with
  | O => (w, compacted)
  | S rounds =>
      match NeedsSegmentCompaction w with
      | None => (w, compacted)
      | Some id =>
          let '(w, e) := CompactSegment (ios rounds) (renamed rounds) id w in
          match e with
          | None => compact_ticks rounds ios renamed w true
          | Some ErrSegmentNotFound => compact_ticks rounds ios renamed w compacted
          | Some _ => (w, compacted)
          end
      end
  end.
(** A check tick up to the disk test; [len(segs)] rounds. *)
Definition compact_check (ios : nat -> list write_io) (renamed : nat -> bool) (warmKeys : list Key) (o : rewrite_outcome) (snap : bool) (t : TieredStore)
    : result tiered_error TieredStore :=
  match t_warm t with
  | None => Ok t
  | Some w =>
      let '(w, compacted) := compact_ticks (length (w_segs w)) ios renamed w false in
      let t := set_warm w t in
      if compacted then runPostCompaction warmKeys o snap w t else Ok t
  end.

(** The test of [checkpointLoop]. *)
Definition checkpoint_due (elapsed : Duration) (t : TieredStore) : bool :=
  negb (walEntryCount t =? 0) &&
  ((cfg_CheckpointInterval (t_cfg t) <=? elapsed) || (cfg_CheckpointWALThreshold (t_cfg t) <=? walEntryCount t)).
End Tiered.
