(* ===== verification/TieredRefine.v ===== *)
(** * What the tiered store returns

    The two tiers of [Tiered] against one map: what [Hot] and [WarmRefine]
    prove of each tier, composed. An object travels through the tiers as copies
    (cloned into the hot tier, encoded into the warm one, decoded and completed
    on the way back); a lookup returns a copy of an object that was stored
    under its key since the key was last deleted, and of the last one if the
    last write reached the warm tier. *)

From S2P Require Import Prelude GoStd CacheControl HeaderMap Api ClusterCodec Evictor Varint ObjectCodec Wal Snapshot Checkpoint Bans EvictIndex Hot WarmRecord WarmStore WarmSystem WarmRefine Tiered.

(** ** Whole operations of the warm tier *)

Section WarmOps.
Context {P : EvictionPolicy Key} (pool_get : List Key -> addr).
Context (pool_get_unused : forall l, heap l !! pool_get l = None).
Implicit Types (s : Store) (m : gmap Key bytes).

(** A store at rest that holds the bodies [m], with writes that may fail. *)
Record at_rest s m : Prop := {
  ar_sys : sys_inv false (MkSys s [] CIdle m);
  ar_max : 0 < w_segMax s;
}.

Lemma io_any (ios : list write_io) : Forall (io_fits false) ios.
Proof. apply Forall_forall. done. Qed.

Lemma budget_rest (ios ios' : list write_io) (n : Z) s s' (ks : list Key) (e : option warm_error) m :
  at_rest s m -> ensureBudgetLocked pool_get ios n s = (s', ios', ks, e) -> at_rest s' (remove_keys ks m).
Proof.
  intros [Hi Hm] Hb. destruct (ensureBudget_spec pool_get pool_get_unused _ _ _ _ _ _ _ (sv_idx _ _ Hi) Hb) as (_ & (_ & E & _) & _).
  split; [|by rewrite E]. unfold ensureBudgetLocked in Hb. destruct (_ && _); [by injection Hb as <- <- <- <-|].
  destruct (fitsBudgets n s); [by injection Hb as <- <- <- <-|]. eapply evict_step; [done|exact Hi|apply io_any|exact Hb].
Qed.

Lemma seal_rest s m : at_rest s m -> at_rest (newSegment s) m.
Proof. intros [Hi Hm]. split; [by apply seal_step|]. by rewrite (proj1 (proj2 (proj2 (proj2 (newSegment_budget s 0))))). Qed.

Lemma write_rest (io : write_io) s s1 s2 (id magic : Z) (key : Key) (body : bytes) (r : result warm_error Z) m :
  at_rest s m -> rec_ok magic key body -> activeSegRLocked s = Ok (s1, id) -> append_record io id magic key body s1 = (s2, r) -> at_rest s2 m.
Proof.
  intros [Hi Hm] Hr Ha Hw. split; [by destruct (write_step_inv false _ _ _ _ _ _ _ _ _ _ _ _ Hi Hr ltac:(done) Ha Hw)|].
  destruct (active_move false _ _ _ (sv_segs _ _ Hi) Ha) as ((segs & -> & _) & _). by apply append_record_segs in Hw as (segs2 & -> & _).
Qed.

Lemma put_index_segMax (key : Key) (id off n : Z) s : w_segMax (put_index pool_get key id off n s) = w_segMax s.
Proof. unfold put_index. destruct (list_access _ _ _). by destruct (w_index s !! key). Qed.

(** [Put]: the body is there if it succeeded, and the evicted keys are gone. *)
Lemma warm_put_rest (key : Key) (body : bytes) (ios ios' : list write_io) s s' (ks : list Key) (r : result warm_error (Z * Z)) m :
  at_rest s m -> rec_ok magicLive key body -> WarmStore.Put pool_get ios key body s = Some (s', ios', ks, r) ->
  at_rest s' (match r with Ok _ => <[key := body]> (remove_keys ks m) | Err _ => remove_keys ks m end).
Proof.
  intros Hs Hr. unfold WarmStore.Put. generalize 4%nat. intros fuel. revert ios s ks m Hs. induction fuel as [|fuel IH]; intros ios s ks m Hs; [done|].
  cbn [put_loop]. destruct (ensureBudgetLocked pool_get ios (recSize body) s) as [[[s1 ios1] ks1] e] eqn:Eb.
  pose proof (budget_rest _ _ _ _ _ _ _ _ Hs Eb) as Hs1.
  assert (Hretry : match put_loop pool_get fuel ios1 key body (newSegment s1) with
     Some (s0, ios0, ks0, r0) => Some (s0, ios0, ks1 ++ ks0, r0) | None => None end = Some (s', ios', ks, r) ->
     at_rest s' (match r with Ok _ => <[key := body]> (remove_keys ks m) | Err _ => remove_keys ks m end)).
  { destruct (put_loop pool_get fuel ios1 key body (newSegment s1)) as [[[[s3 ios3] ks3] r3]|] eqn:Ep; [|done]. intros [= -> -> <- ->].
    apply (IH _ _ _ (remove_keys ks1 m)) in Ep; [|by apply seal_rest]. by rewrite remove_keys_app. }
  destruct e as [[]|]; try (by intros [= <- <- <- <-]); [exact Hretry|].
  destruct (activeSegRLocked s1) as [[s2 id]|e] eqn:Ea; [|exact Hretry].
  destruct (next_io ios1) as [io ios2]. destruct (append_record io id magicLive key body s2) as [s3 [off|e]] eqn:Ew; intros [= <- <- <- <-].
  2:{ by eapply write_rest. }
  destruct (write_rest _ _ _ _ _ _ _ _ _ _ Hs1 Hr Ea Ew) as [_ Hm3].
  split; [|by rewrite put_index_segMax]. apply (put_index_step pool_get false pool_get_unused s3 key body id off [] [] CIdle).
  eapply put_write_inv; [apply Hs1|done|exact Ea|exact Ew].
Qed.

(** [Delete]: without an error the key is gone, with one nothing changed. *)
Lemma warm_delete_rest (io : write_io) (key : Key) s s' (r : result warm_error Z) m :
  at_rest s m -> wf_key key -> WarmStore.Delete io key s = Some (s', r) ->
  at_rest s' (match r with Ok _ => delete key m | Err _ => m end).
Proof.
  intros Hs Hk. assert (rec_ok magicDead key []) as Hr by (split_and!; [unfold in_u32, magicDead; lia|done|done]).
  unfold WarmStore.Delete. generalize 2%nat. intros fuel. revert s Hs. induction fuel as [|fuel IH]; intros s Hs; [done|].
  cbn [del_loop]. destruct (activeSegRLocked s) as [[s1 id]|e] eqn:Ea; [|by apply IH, seal_rest].
  destruct (append_record io id magicDead key [] s1) as [s2 [off|e]] eqn:Ew; intros [= <- <-]; [|by eapply write_rest].
  destruct (write_rest _ _ _ _ _ _ _ _ _ _ Hs Hr Ea Ew) as [Hi2 Hm2]. split.
  - apply (delete_index_step false s2 key [] [] CIdle m). destruct Hi2 as [A B C D E F]. split; try done. by apply Forall_cons.
  - unfold delete_index. by destruct (w_index s2 !! key).
Qed.

(** [Get] returns the body or misses, and leaves the bodies as they are. *)
Lemma warm_get_rest (key : Key) s m : at_rest s m ->
  at_rest (WarmStore.Get key s).1 m /\ ((WarmStore.Get key s).2 = Ok (m !! key) \/ (WarmStore.Get key s).2 = Ok None).
Proof.
  intros [Hi Hm]. unfold WarmStore.Get, readRecord. pose proof (locs_lookup s key) as Hk.
  destruct (w_index s !! key) as [w|]; cbn [fmap option_fmap option_map] in Hk; [|by split; [|right]].
  destruct (sv_locs _ _ Hi _ _ Hk) as (body & Hb & Hok). cbn [sy_model sy_store] in *.
  destruct (read_at (at_loc w) s) as [s1 r] eqn:Hr. destruct (read_at_ok false _ _ _ _ _ _ (sv_segs _ _ Hi) Hok Hr) as [Hres (segs & -> & Hmv)].
  pose proof (inv_move false s segs [] [] CIdle m Hi Hmv (sv_ops _ _ Hi)) as Hi1.
  destruct Hres as [-> | [_ ->]]; cbn [fst snd].
  - rewrite Hb. split; [|by left]. split; [by apply mark_step|]. unfold mark_visited_at. destruct (w_index _ !! key); [|done]. by destruct (_ && _).
  - split; [|by right]. split; [|unfold dropStaleIndex; destruct (w_index _ !! key); [|done]; by destruct (_ && _)].
    apply (dropStale_step false _ key (at_loc w) [] [] CIdle m). destruct Hi1 as [A B C D E F]. split; try done. by apply Forall_cons.
Qed.

Lemma protect_rest (key : Key) s m : at_rest s m -> at_rest (Protect key s) m /\ at_rest (Unprotect key s) m.
Proof.
  intros [Hi Hm]. destruct (protect_step false s key [] CIdle m Hi) as [H1 H2]. split; split; try done.
  - unfold Protect. destruct (w_index s !! key); [|done]. by destruct (protected _).
  - unfold Unprotect. destruct (w_index s !! key); [|done]. by destruct (protected _).
Qed.

Lemma sync_rest (ok : bool) (id : Z) s m : at_rest s m -> at_rest (SyncSegment ok id s).1 m.
Proof.
  intros [Hi Hm]. unfold SyncSegment. destruct (List.find _ _); [|done]. split; [|done].
  eapply (inv_move false s); [exact Hi|apply open_move, (sv_segs _ _ Hi)|apply (sv_ops _ _ Hi)].
Qed.

(** The compactions. *)
Lemma compact_segment_rest (ios : list write_io) (renamed : bool) (id : Z) s m :
  at_rest s m -> at_rest (CompactSegment ios renamed id s).1 m.
Proof.
  intros [Hi Hm]. unfold CompactSegment. destruct (compact_scan id s) as [s1 r1] eqn:E1.
  pose proof (scan_step false s s1 id r1 [] m Hi E1) as H1.
  assert (w_segMax s1 = w_segMax s) as M1.
  { unfold compact_scan in E1. repeat case_match; simplify_eq/=; done. }
  destruct r1 as [pending|e]; [|split; [exact H1|cbn [fst]; lia]].
  destruct (writeCompactTemp ios pending s1) as [s2 r2] eqn:E2. pose proof (temp_step false s1 s2 ios id pending r2 [] m H1 E2) as H2.
  assert (w_segMax s2 = w_segMax s1) as M2 by (unfold writeCompactTemp in E2; by injection E2 as <- _).
  destruct r2 as [[[newID file] recs]|e]; [|split; [exact H2|cbn [fst]; lia]].
  split; [by apply swap_step|]. unfold swapCompactSegment. repeat case_match; cbn [fst w_segMax]; lia.
Qed.

Lemma compact_rest (ios : list write_io) (listed : bool) s s' (e : option warm_error) m : at_rest s m -> Compact pool_get ios listed s = (s', e) ->
  (forall seg, seg ∈ w_segs s' -> seg_ID seg < w_nextID s) -> at_rest s' m.
Proof.
  intros [Hi Hm] Hc Hid. split; [by eapply (compact_step pool_get pool_get_unused false (w_index s))|].
  unfold Compact, compact_from in Hc. repeat case_match; simplify_eq/=; done.
Qed.

Lemma new_rest (segMax maxBytes maxEntries : Z) : at_rest (NewStore segMax maxBytes maxEntries []) ∅.
Proof.
  split; [exact (init_inv false segMax maxBytes maxEntries)|]. unfold NewStore. destruct (openExisting _ _).
  cbn [w_segMax]. destruct (segMax <=? 0) eqn:E; [done|]. apply Z.leb_gt in E. lia.
Qed.
End WarmOps.

(** ** Copies of an object *)

(** [copy p o]: the tiers may return [o] for a stored [p]. *)
Inductive copy (p : Object.t) : Object.t -> Prop :=
  | copy_refl : copy p p
  | copy_stored o : copy p o -> copy p (CloneForStorage o)
  | copy_hits o o' : copy p o -> same_object o' o -> copy p o'
  | copy_read o : copy p o -> copy p (rederiveTransients (decoded o)).

Definition pairs_weight (l : list (bytes * bytes)) : Z := foldr (fun kv n => len kv.1 + len kv.2 + 20 + n) 0 l.
Definition keys_weight (l : list bytes) : Z := foldr (fun s n => len s + 10 + n) 0 l.
(** A bound on the encodings of an object and of its copies: the Cache-Control
    line may be taken again from the header. *)
Definition weight (o : Object.t) : Z :=
  300 + len (Object.VaryKey o) + len (Object.VaryValue o) + len (Object.ETag o) + len (Object.Pool o) +
  keys_weight (Object.SurrogateKeys o) + len (Object.Body o) + pairs_weight (pairs (Object.Header o)) +
  Z.max (len (Object.CacheControl o)) (pairs_weight (pairs (Object.Header o))).

(** An object of Go's types whose encoding fits a record of the warm tier. *)
Record storable (o : Object.t) : Prop := {
  st_key : wf_key (Object.Key_ o);
  st_paired : wf_key (Object.PairedKey o);
  st_status : in_i64 (Object.StatusCode o);
  st_ttl : in_i64 (Object.TTL o);
  st_swr : in_i64 (Object.StaleWhileRevalidate o);
  st_sie : in_i64 (Object.StaleIfError o);
  st_age : in_i64 (Object.OriginAge o);
  st_u64 : in_u64 (Object.Hits o);
  st_stored : is_zero (Object.StoredAt o) = true \/ in_i64 (Object.StoredAt o);
  st_lastmod : is_zero (Object.LastModified o) = true \/ in_i64 (Object.LastModified o);
  st_header : wf (Object.Header o);
  st_weight : weight o < 2 ^ 32;
}.

Lemma uvarint_len (fuel : nat) (x : Z) : len (uvarint_bytes fuel x) <= Z.of_nat (S fuel).
Proof.
  revert x. induction fuel as [|fuel IH]; intros x; cbn [uvarint_bytes]; [done|].
  destruct (128 <=? x); rewrite len_cons; [specialize (IH (Z.shiftr x 7)); lia|]. change (len []) with 0. lia.
Qed.

Lemma len_field (x : Z) : len (ub x) <= 10 /\ len (vb x) <= 10.
Proof. split; exact (uvarint_len 9 _). Qed.

Lemma len_sb_le (s : bytes) : len (sb s) <= 10 + len s.
Proof. unfold sb. rewrite len_app. pose proof (proj1 (len_field (u64 (len s)))). lia. Qed.

Lemma len_tb (t : Time) : len (tb t) <= 11.
Proof. unfold tb. destruct (is_zero t); [done|]. rewrite len_cons. pose proof (proj2 (len_field (unix_nano t))). lia. Qed.

Lemma len_pairs_bytes (l : list (bytes * bytes)) : len (pairs_bytes l) <= pairs_weight l.
Proof.
  induction l as [|[k v] l IH]; [done|]. unfold pairs_bytes in *. cbn [map concat pairs_weight foldr fst snd]. rewrite !len_app.
  pose proof (len_sb_le k). pose proof (len_sb_le v). fold (pairs_weight l). lia.
Qed.

Lemma len_keys_bytes (l : list bytes) : len (keys_bytes l) <= keys_weight l.
Proof.
  induction l as [|s l IH]; [done|]. unfold keys_bytes in *. cbn [map concat keys_weight foldr]. rewrite len_app.
  pose proof (len_sb_le s). fold (keys_weight l). lia.
Qed.

Lemma len_encode_weight (o : Object.t) : wf_key (Object.Key_ o) -> wf_key (Object.PairedKey o) -> len (encodeObject o) <= weight o.
Proof.
  intros Hk Hp. rewrite len_encodeObject. unfold fields_bytes, tail_bytes, weight. rewrite !len_app.
  assert (len (Object.Key_ o) = 16 /\ len (Object.PairedKey o) = 16) as [-> ->] by (unfold wf_key, len in *; lia).
  pose proof (len_sb_le (Object.VaryKey o)). pose proof (len_sb_le (Object.VaryValue o)). pose proof (len_sb_le (Object.ETag o)).
  pose proof (len_sb_le (Object.Pool o)). pose proof (len_sb_le (Object.CacheControl o)).
  pose proof (len_field (u64 (Object.StatusCode o))). pose proof (len_field (Object.TTL o)). pose proof (len_field (Object.StaleWhileRevalidate o)).
  pose proof (len_field (Object.StaleIfError o)). pose proof (len_field (Object.Hits o)). pose proof (len_field (Object.OriginAge o)).
  pose proof (len_tb (Object.StoredAt o)). pose proof (len_tb (Object.LastModified o)).
  pose proof (len_field (u64 (Len (Object.Header o)))). pose proof (len_field (u64 (len (Object.SurrogateKeys o)))).
  pose proof (len_field (u64 (len (Object.Body o)))). pose proof (len_pairs_bytes (pairs (Object.Header o))).
  pose proof (len_keys_bytes (Object.SurrogateKeys o)).
  change (len [if Object.KeepGrace o then x01 else x00]) with 1. change (len [bZ (object_flags o)]) with 1. lia.
Qed.

Lemma storable_encodable (o : Object.t) : storable o -> encodable o /\ len (encodeObject o) < 2 ^ 32.
Proof.
  intros [K Pk A B C D E F G H I J]. pose proof (len_encode_weight o K Pk) as Hl. split; [|lia]. split; try done. lia.
Qed.

(** *** What copying does to the fields *)

Lemma pairs_Clone (h : Map) : wf h -> wf (Clone h) /\ pairs (Clone h) = pairs h.
Proof. intros Hw. unfold Clone. destruct h as [[|e es] vs]; [split; [apply wf_NewMap|done]|done]. Qed.

Lemma pairs_decoded (h : Map) : wf h -> pairs (decoded_header h) ≡ₚ pairs h.
Proof.
  intros Hw. unfold decoded_header. pose proof (len_pairs h) as El. destruct (Len h <=? 0) eqn:E.
  - apply Z.leb_le in E. destruct (pairs h); [done|]. rewrite len_cons in El. pose proof (len_nonneg l). lia.
  - destruct (rebuild_spec (pairs h) NewMap wf_NewMap (pairs_canonical h Hw)) as [_ Ep]. cbn [pairs NewMap entries map app] in Ep.
    revert Ep. generalize (rebuild (pairs h) NewMap). intros r <-. rewrite SortEntries_eq.
    apply (Permutation_map (fun e => (key e, value_at r e))), stable_sort_perm.
Qed.

Lemma pairs_weight_perm (l l' : list (bytes * bytes)) : l ≡ₚ l' -> pairs_weight l = pairs_weight l'.
Proof. induction 1; cbn [pairs_weight foldr] in *; unfold pairs_weight in *; lia. Qed.

Lemma pairs_weight_nonneg (l : list (bytes * bytes)) : 0 <= pairs_weight l.
Proof. induction l as [|[k v] l IH]; [done|]. cbn [pairs_weight foldr fst snd]. fold (pairs_weight l). pose proof (len_nonneg k). pose proof (len_nonneg v). lia. Qed.

Lemma first_value_weight (k : bytes) (l : list (bytes * bytes)) : len (first_value k l) <= pairs_weight l.
Proof.
  unfold first_value. induction l as [|[k' v] l IH]; [done|]. cbn [find fst snd pairs_weight foldr]. fold (pairs_weight l).
  pose proof (len_nonneg k'). pose proof (len_nonneg v). pose proof (pairs_weight_nonneg l). destruct (beq k' k); cbn [snd]; lia.
Qed.

Lemma Get_weight (h : Map) (k : bytes) : wf h -> len (HeaderMap.Get h k) <= pairs_weight (pairs h).
Proof. intros Hw. rewrite Get_pairs by done. apply first_value_weight. Qed.

(** The fields [rederiveTransients] may set. *)
Lemma rederive_spec (o : Object.t) : exists cc age, rederiveTransients o = {| o with Object.CacheControl := cc; Object.OriginAge := age |} /\
  (cc = Object.CacheControl o \/ Object.CacheControl o = [] /\ cc = HeaderMap.Get (Object.Header o) (bs "Cache-Control")) /\
  (age = Object.OriginAge o \/ Object.OriginAge o = 0 /\ in_i64 age).
Proof.
  unfold rederiveTransients.
  assert (exists cc, (match Object.CacheControl o with
     | [] => match HeaderMap.Get (Object.Header o) (bs "Cache-Control") with [] => o | cc => {| o with Object.CacheControl := cc |} end
     | _ => o end) = {| o with Object.CacheControl := cc |} /\
     (cc = Object.CacheControl o \/ Object.CacheControl o = [] /\ cc = HeaderMap.Get (Object.Header o) (bs "Cache-Control"))) as (cc & -> & Hcc).
  { destruct (Object.CacheControl o) as [|c l] eqn:E.
    - destruct (HeaderMap.Get (Object.Header o) (bs "Cache-Control")) as [|b s]; [exists []|exists (b :: s)]; (split; [by destruct o; simpl in *; subst|auto]).
    - exists (c :: l). split; [by destruct o; simpl in *; subst|auto]. }
  exists cc. cbn [Object.OriginAge Object.Header]. destruct (Object.OriginAge o =? 0) eqn:Ea.
  - apply Z.eqb_eq in Ea. destruct (HeaderMap.Get (Object.Header o) (bs "Age")) as [|b s].
    + exists (Object.OriginAge o). by split_and!; [destruct o|..]; auto.
    + eexists. split_and!; [reflexivity|done|]. right. split; [done|apply i64_range].
  - exists (Object.OriginAge o). by split_and!; [destruct o|..]; auto.
Qed.

Lemma storable_copy (p o : Object.t) : copy p o -> storable p -> storable o.
Proof.
  intros Hc Hp. induction Hc as [|o Hc IH|o o' Hc IH Hs|o Hc IH]; [done|..].
  - destruct IH as [K Pk A B C D E F G H I J]. destruct (pairs_Clone _ I) as [I' J']. split; try done.
    replace (weight (CloneForStorage o)) with (weight o); [done|]. destruct o. unfold weight, CloneForStorage. simpl in *. by rewrite J'.
  - destruct Hs as [Hs Hu]. destruct IH as [K Pk A B C D E F G H I J]. destruct o, o'. unfold forget_hits, weight in *. simpl in *.
    injection Hs as -> -> -> -> -> -> -> -> -> -> -> -> -> -> -> -> -> -> -> -> -> -> -> ->. split; simpl; auto.
  - destruct IH as [K Pk A B C D E F G H I J]. destruct (rederive_spec (decoded o)) as (cc & age & -> & Hcc & Hage).
    destruct (decoded_header_spec _ I) as (I' & _). pose proof (pairs_weight_perm _ _ (pairs_decoded _ I)) as Hw.
    split; try done; cbn [Object.OriginAge decoded] in *.
    + destruct Hage as [-> | [_ ?]]; done.
    + pose proof (Get_weight _ (bs "Cache-Control") I') as Hg. destruct o. unfold weight, decoded in *. simpl in *.
      rewrite Hw in *. destruct Hcc as [-> | [_ ->]]; lia.
Qed.

(** A copy has the fields of the object that decide how it is served; the header
    may be reordered by name, and a missing Cache-Control or age completed from it. *)
Record same_response (p o : Object.t) : Prop := {
  sr_fields : (Object.StatusCode o, Object.Body o, Object.ETag o, Object.StoredAt o, Object.LastModified o, Object.TTL o,
               Object.StaleWhileRevalidate o, Object.StaleIfError o, Object.Key_ o, Object.VaryKey o, Object.VaryValue o, Object.SurrogateKeys o,
               Object.RespNoCache o, Object.RespMustRevalidate o, Object.KeepGrace o) =
              (Object.StatusCode p, Object.Body p, Object.ETag p, Object.StoredAt p, Object.LastModified p, Object.TTL p,
               Object.StaleWhileRevalidate p, Object.StaleIfError p, Object.Key_ p, Object.VaryKey p, Object.VaryValue p, Object.SurrogateKeys p,
               Object.RespNoCache p, Object.RespMustRevalidate p, Object.KeepGrace p);
  sr_header : forall k, all_values k (pairs (Object.Header o)) = all_values k (pairs (Object.Header p));
  sr_cc : Object.CacheControl o = Object.CacheControl p \/
          Object.CacheControl p = [] /\ Object.CacheControl o = HeaderMap.Get (Object.Header p) (bs "Cache-Control");
  sr_age : Object.OriginAge o = Object.OriginAge p \/ Object.OriginAge p = 0;
}.

Lemma Get_all_values (h h' : Map) (k : bytes) : wf h -> wf h' -> (forall k, all_values k (pairs h) = all_values k (pairs h')) ->
  HeaderMap.Get h k = HeaderMap.Get h' k.
Proof. intros Hw Hw' He. rewrite !Get_pairs, !first_value_all by done. by rewrite He. Qed.

Lemma copy_same (p o : Object.t) : storable p -> copy p o -> same_response p o.
Proof.
  intros Hp Hc. induction Hc as [|o Hc IH|o o' Hc IH [Hs _]|o Hc IH].
  - split; auto.
  - destruct (pairs_Clone _ (st_header _ (storable_copy _ _ Hc Hp))) as [_ Ep]. destruct IH as [A B C D]. split; [exact A|intros k; rewrite <- B; f_equal; exact Ep|exact C|exact D].
  - destruct IH as [A B C D], o, o'. unfold forget_hits in Hs. simpl in *.
    injection Hs as -> -> -> -> -> -> -> -> -> -> -> -> -> -> -> -> -> -> -> -> -> -> -> ->. by split.
  - pose proof (storable_copy _ _ Hc Hp) as Ho. destruct (decoded_header_spec _ (st_header _ Ho)) as (Hw & _ & Hv & _).
    destruct (rederive_spec (decoded o)) as (cc & age & -> & Hcc & Hage). destruct IH as [A B C D].
    assert (HeaderMap.Get (decoded_header (Object.Header o)) (bs "Cache-Control") = HeaderMap.Get (Object.Header p) (bs "Cache-Control")) as Eg.
    { apply Get_all_values; [done|apply (st_header _ Hp)|]. intros k. by rewrite Hv. }
    split; cbn [Object.Header Object.CacheControl Object.OriginAge decoded] in *.
    + exact A.
    + intros k. rewrite <- B. apply Hv.
    + destruct Hcc as [-> | [E ->]]; [exact C|]. rewrite Eg. destruct C as [C | [C C']]; [|by auto]. right. split; [by rewrite <- C|done].
    + destruct Hage as [-> | [E _]]; [exact D|]. destruct D as [D | D]; [right; by rewrite <- D|by right].
Qed.

(** ** Histories *)

(** What a key may be read as: the objects stored under it. *)
Abbreviation offers := (gmap Key (list Object.t)).
Definition offered (sp : offers) (k : Key) (o : Object.t) : Prop :=
  exists p, p ∈ default [] (sp !! k) /\ storable p /\ copy p o.

Lemma offered_copy (sp : offers) (k : Key) (o o' : Object.t) : offered sp k o -> (forall p, copy p o -> copy p o') -> offered sp k o'.
Proof. intros (p & Hp & Hs & Hc) H. exists p. auto. Qed.

Lemma offered_storable (sp : offers) (k : Key) (o : Object.t) : offered sp k o -> storable o.
Proof. intros (p & _ & Hs & Hc). by eapply storable_copy. Qed.

Section Tiers.
Context {PH : EvictionPolicy Key} (hot_pool : List Key -> addr) (hot_unused : forall l, heap l !! hot_pool l = None).
Context {PW : EvictionPolicy Key} (warm_pool : List Key -> addr) (warm_unused : forall l, heap l !! warm_pool l = None).
Context (shard_hash : bytes -> Z) (regexp_compile : bytes -> option (bytes -> bool)).
Implicit Types (t : TieredStore) (sp : offers) (w : Store).

Abbreviation history_ := (@hot_history PH hot_pool shard_hash regexp_compile).

(** The hot tier holds offered objects, the clock of its ban list is not ahead
    of [now]; the warm tier holds encodings of offered objects. *)
Definition hot_ok (h : HotStore) sp (now : Time) (low : Duration) : Prop :=
  exists hsp clock, clock <= now /\ history_ h hsp clock low /\ forall k o, hsp !! k = Some o -> offered sp k o.
Definition warm_ok w sp : Prop :=
  exists m, at_rest w m /\ forall k b, m !! k = Some b -> exists o, b = encodeObject o /\ offered sp k o.
Record tiered_ok t sp (now : Time) (low : Duration) : Prop := {
  tk_hot : hot_ok (t_hot t) sp now low;
  tk_warm : forall w, t_warm t = Some w -> warm_ok w sp;
}.

(** *** The callbacks touch the queues and the backup flags *)

Lemma notices_frame (l : list notice) t : t_hot (foldl hot_notice t l) = t_hot t /\ t_warm (foldl hot_notice t l) = t_warm t /\
  t_wal (foldl hot_notice t l) = t_wal t /\ t_cfg (foldl hot_notice t l) = t_cfg t.
Proof.
  revert t. induction l as [|n l IH]; intros t; [done|]. cbn [foldl]. destruct (IH (hot_notice t n)) as (-> & -> & -> & ->).
  unfold hot_notice, hot_OnEvictDemoted, hot_OnEvict. by destruct n; repeat case_match.
Qed.

Lemma with_hot_frame (h : HotStore) t : t_hot (with_hot h t) = h /\ t_warm (with_hot h t) = t_warm t /\
  t_wal (with_hot h t) = t_wal t /\ t_cfg (with_hot h t) = t_cfg t.
Proof. unfold with_hot. exact (notices_frame _ {| t with t_hot := h |}). Qed.

Lemma evicts_frame (ks : list Key) t : t_warm (foldl warm_OnEvict t ks) = t_warm t /\ t_wal (foldl warm_OnEvict t ks) = t_wal t /\
  t_cfg (foldl warm_OnEvict t ks) = t_cfg t /\ t_hot (foldl warm_OnEvict t ks) = foldl ClearBacked (t_hot t) ks.
Proof.
  revert t. induction ks as [|k ks IH]; intros t; [done|]. cbn [foldl]. destruct (IH (warm_OnEvict t k)) as (-> & -> & -> & ->).
  unfold warm_OnEvict. by case_match.
Qed.

Lemma wal_frame (es : list Entry) t t' : walEnqueueBatch es t = Ok t' -> t_hot t' = t_hot t /\ t_warm t' = t_warm t.
Proof. unfold walEnqueueBatch. destruct (t_wal t); by intros [= <-]. Qed.

(** *** Steps of each tier *)

Lemma hot_same (h h' : HotStore) sp (now : Time) (low : Duration) :
  (forall hsp clock, history_ h hsp clock low -> history_ h' hsp clock low) -> hot_ok h sp now low -> hot_ok h' sp now low.
Proof. intros H (hsp & clock & Hle & Hh & Ho). exists hsp, clock. auto. Qed.

Lemma hot_backed (h : HotStore) (k : Key) sp (now : Time) (low : Duration) : hot_ok h sp now low -> hot_ok (SetBacked h k) sp now low.
Proof. apply hot_same. intros. by apply HH_backed. Qed.

Lemma hot_unbacked (ks : list Key) (h : HotStore) sp (now : Time) (low : Duration) : hot_ok h sp now low -> hot_ok (foldl ClearBacked h ks) sp now low.
Proof. revert h. induction ks as [|k ks IH]; intros h Hh; [done|]. apply IH. revert Hh. apply hot_same. intros. by apply HH_unbacked. Qed.

(** More offers, or a later clock, never hurt. *)
Definition offers_le sp sp' : Prop := forall k o, offered sp k o -> offered sp' k o.
Lemma hot_ok_mono (h : HotStore) sp sp' (now now' : Time) (low : Duration) : offers_le sp sp' -> now <= now' -> hot_ok h sp now low -> hot_ok h sp' now' low.
Proof. intros Hs Hn (hsp & clock & Hle & Hh & Ho). exists hsp, clock. split_and!; [lia|done|]. intros k o Hk. by apply Hs, Ho. Qed.
Lemma warm_ok_mono w sp sp' : offers_le sp sp' -> warm_ok w sp -> warm_ok w sp'.
Proof. intros Hs (m & Hr & Ho). exists m. split; [done|]. intros k b Hk. destruct (Ho k b Hk) as (o & -> & Hof). eauto. Qed.

Lemma hot_put_ok (h : HotStore) (key : Key) (obj : Object.t) sp (now : Time) (low : Duration) :
  hot_ok h sp now low -> offered sp key obj -> hot_ok (@Hot.Put PH hot_pool h key obj) sp now low.
Proof.
  intros (hsp & clock & Hle & Hh & Ho) Hob. exists (<[key := CloneForStorage obj]> hsp), clock. split_and!; [done|by apply HH_put|].
  intros k o. rewrite lookup_insert_Some. intros [[<- <-] | [_ Hk]]; [|by apply Ho]. eapply offered_copy; [exact Hob|]. intros p. apply copy_stored.
Qed.

Lemma hot_delete_ok (h : HotStore) (key : Key) sp (now : Time) (low : Duration) :
  hot_ok h sp now low -> hot_ok (@Hot.Delete PH h key) sp now low.
Proof.
  intros (hsp & clock & Hle & Hh & Ho). exists (delete key hsp), clock. split_and!; [done|by apply HH_delete|].
  intros k o [_ Hk]%lookup_delete_Some. by apply Ho.
Qed.

Lemma hot_get_ok (h : HotStore) (key : Key) (won : bool) (now0 now : Time) sp (low : Duration) : hot_ok h sp now0 low -> now0 <= now ->
  hot_ok (@Hot.Get PH hot_pool shard_hash h key won now).1 sp now low /\
  forall o, (@Hot.Get PH hot_pool shard_hash h key won now).2 = Some o ->
    offered sp key o /\ (matches shard_hash (hbans h) o won now).2 = false.
Proof.
  intros (hsp & clock & Hle & Hh & Ho) Hnow. split.
  - destruct (Get_history hot_pool hot_unused shard_hash regexp_compile h hsp clock low key won now Hh ltac:(lia)) as (clock' & Hc & Hh').
    exists hsp, clock'. by split_and!; [lia|..].
  - intros o Hg. destruct (Get_sound hot_pool hot_unused shard_hash regexp_compile _ _ _ _ _ _ _ _ Hh Hg) as (o' & Hsp & Hs & Hm).
    split; [|done]. eapply offered_copy; [by apply Ho|]. intros p Hc. by eapply copy_hits.
Qed.

Lemma offered_rec (sp : offers) (k : Key) (o : Object.t) : wf_key k -> offered sp k o -> rec_ok magicLive k (encodeObject o).
Proof.
  intros Hk Ho. destruct (storable_encodable o (offered_storable _ _ _ Ho)) as [_ Hl]. split_and!; [unfold in_u32, magicLive; lia|done|done].
Qed.

Lemma warm_put_ok (key : Key) (obj : Object.t) (ios ios' : list write_io) w w' (ks : list Key) (r : result warm_error (Z * Z)) sp :
  warm_ok w sp -> wf_key key -> offered sp key obj -> @WarmStore.Put PW warm_pool ios key (encodeObject obj) w = Some (w', ios', ks, r) ->
  warm_ok w' sp.
Proof.
  intros (m & Hr & Ho) Hk Hob Hput. pose proof (warm_put_rest warm_pool warm_unused _ _ _ _ _ _ _ _ _ Hr (offered_rec _ _ _ Hk Hob) Hput) as Hr'.
  eexists. split; [exact Hr'|]. destruct r as [x|e]; intros k b.
  - rewrite lookup_insert_Some. intros [[<- <-] | [_ [_ Hm]%(remove_keys_lookup warm_pool warm_unused)]]; [eauto|by apply Ho].
  - intros [_ Hm]%(remove_keys_lookup warm_pool warm_unused). by apply Ho.
Qed.

Lemma warm_get_ok (key : Key) w sp : warm_ok w sp ->
  warm_ok (@WarmStore.Get PW key w).1 sp /\
  ((@WarmStore.Get PW key w).2 = Ok None \/ exists o, (@WarmStore.Get PW key w).2 = Ok (Some (encodeObject o)) /\ offered sp key o).
Proof.
  intros (m & Hr & Ho). destruct (warm_get_rest key w m Hr) as [Hr' Hg]. split; [by exists m|].
  destruct Hg as [-> | ->]; [|by left]. destruct (m !! key) as [b|] eqn:Hm; [|by left]. destruct (Ho key b Hm) as (o & -> & Hof). right. eauto.
Qed.

Lemma warm_delete_ok (io : write_io) (key : Key) w w' (r : result warm_error Z) sp :
  warm_ok w sp -> wf_key key -> @WarmStore.Delete PW io key w = Some (w', r) -> warm_ok w' sp.
Proof.
  intros (m & Hr & Ho) Hk Hd. pose proof (warm_delete_rest _ _ _ _ _ _ Hr Hk Hd) as Hr'. eexists. split; [exact Hr'|].
  destruct r; [|done]. intros k b [_ Hm]%lookup_delete_Some. by apply Ho.
Qed.

Lemma offered_insert_ne sp (k key : Key) (l : list Object.t) (o : Object.t) : k <> key -> offered sp k o -> offered (<[key := l]> sp) k o.
Proof. intros Hne (p & Hp & H). exists p. by rewrite lookup_insert_ne by done. Qed.
Lemma offered_delete_ne sp (k key : Key) (o : Object.t) : k <> key -> offered sp k o -> offered (delete key sp) k o.
Proof. intros Hne (p & Hp & H). exists p. by rewrite lookup_delete_ne by done. Qed.
Lemma offered_new sp (key : Key) (l : list Object.t) (obj : Object.t) : storable obj -> offered (<[key := obj :: l]> sp) key obj.
Proof. intros Hs. exists obj. rewrite lookup_insert_eq. split_and!; [apply list_elem_of_here|done|apply copy_refl]. Qed.

Definition add_offer (key : Key) (obj : Object.t) sp : offers := <[key := obj :: default [] (sp !! key)]> sp.
Lemma add_offer_le (key : Key) (obj : Object.t) sp : offers_le sp (add_offer key obj sp).
Proof.
  intros k o Ho. unfold add_offer. destruct (decide (k = key)) as [->|]; [|by apply offered_insert_ne].
  destruct Ho as (p & Hp & H). exists p. rewrite lookup_insert_eq. split; [by apply list_elem_of_further|done].
Qed.

(** A put replaces what the hot tier holds, and what the warm tier holds if it
    reaches it. *)
Lemma hot_put_replaces (h : HotStore) (key : Key) (obj : Object.t) (l : list Object.t) sp (now : Time) (low : Duration) :
  hot_ok h sp now low -> storable obj -> hot_ok (@Hot.Put PH hot_pool h key obj) (<[key := obj :: l]> sp) now low.
Proof.
  intros (hsp & clock & Hle & Hh & Ho) Hob. exists (<[key := CloneForStorage obj]> hsp), clock. split_and!; [done|by apply HH_put|].
  intros k o. rewrite lookup_insert_Some. intros [[<- <-] | [Hne Hk]]; [|by apply offered_insert_ne, Ho].
  eapply offered_copy; [by apply offered_new|]. intros p. apply copy_stored.
Qed.

Lemma warm_put_replaces (key : Key) (obj : Object.t) (l : list Object.t) (ios ios' : list write_io) w w' (ks : list Key) (x : Z * Z) sp :
  warm_ok w sp -> wf_key key -> storable obj -> @WarmStore.Put PW warm_pool ios key (encodeObject obj) w = Some (w', ios', ks, Ok x) ->
  warm_ok w' (<[key := obj :: l]> sp).
Proof.
  intros (m & Hr & Ho) Hk Hob Hput. pose proof (offered_rec _ _ _ Hk (offered_new ∅ key l obj Hob)) as Hrec.
  pose proof (warm_put_rest warm_pool warm_unused _ _ _ _ _ _ _ _ _ Hr Hrec Hput) as Hr'.
  eexists. split; [exact Hr'|]. intros k b. rewrite lookup_insert_Some.
  intros [[<- <-] | [Hne [_ Hm]%(remove_keys_lookup warm_pool warm_unused)]]; [exists obj; split; [done|by apply offered_new]|].
  destruct (Ho k b Hm) as (o & -> & Hof). exists o. split; [done|by apply offered_insert_ne].
Qed.

Lemma warm_delete_forgets (io : write_io) (key : Key) w w' (id : Z) sp :
  warm_ok w sp -> wf_key key -> @WarmStore.Delete PW io key w = Some (w', Ok id) -> warm_ok w' (delete key sp).
Proof.
  intros (m & Hr & Ho) Hk Hd. pose proof (warm_delete_rest _ _ _ _ _ _ Hr Hk Hd) as Hr'. eexists. split; [exact Hr'|].
  intros k b [Hne Hm]%lookup_delete_Some. destruct (Ho k b Hm) as (o & -> & Hof). exists o. split; [done|by apply offered_delete_ne].
Qed.

Lemma hot_delete_forgets (h : HotStore) (key : Key) sp (now : Time) (low : Duration) :
  hot_ok h sp now low -> hot_ok (@Hot.Delete PH h key) (delete key sp) now low.
Proof.
  intros (hsp & clock & Hle & Hh & Ho). exists (delete key hsp), clock. split_and!; [done|by apply HH_delete|].
  intros k o [Hne Hk]%lookup_delete_Some. by apply offered_delete_ne, Ho.
Qed.

Lemma sync_ok (ok : bool) (id : Z) w sp : warm_ok w sp -> warm_ok (SyncSegment ok id w).1 sp.
Proof. intros (m & Hr & Ho). exists m. split; [by apply sync_rest|done]. Qed.
Lemma protect_ok (key : Key) w sp : warm_ok w sp -> warm_ok (Protect key w) sp /\ warm_ok (Unprotect key w) sp.
Proof. intros (m & Hr & Ho). destruct (protect_rest key w m Hr). split; by exists m. Qed.

(** *** Delete, Get and Put *)

Lemma evictWarm_ok (io : write_io) (synced : bool) (key : Key) t sp : wf_key key -> (forall w, t_warm t = Some w -> warm_ok w sp) ->
  let x := @evictWarmErr PW io synced key t in
  t_hot x.1 = t_hot t /\ (forall w, t_warm x.1 = Some w -> warm_ok w sp) /\
  (x.2 = Ok tt -> forall w, t_warm x.1 = Some w -> warm_ok w (delete key sp)).
Proof.
  intros Hk Hw. unfold evictWarmErr. destruct (t_warm t) as [w|] eqn:Ew; [|by split_and!; [done|..]; intros; simplify_eq/=].
  specialize (Hw w eq_refl). destruct (WarmStore.Delete io key w) as [[w1 [id|e]]|] eqn:Ed; cbn [fst snd].
  - pose proof (warm_delete_ok _ _ _ _ _ _ Hw Hk Ed) as H1. pose proof (warm_delete_forgets _ _ _ _ _ _ Hw Hk Ed) as H2.
    destruct (has_wal t).
    + pose proof (sync_ok synced id w1 _ H1) as S1. pose proof (sync_ok synced id w1 _ H2) as S2.
      destruct (SyncSegment synced id w1) as [w2 ok]. cbn [fst] in S1, S2. destruct ok; [|by split_and!; [done|..]; intros; simplify_eq/=].
      destruct (walEnqueue (DeleteEntry key) (set_warm w2 t)) as [t'|e] eqn:El; cbn [fst snd]; [|by split_and!; [done|..]; intros; simplify_eq/=].
      apply wal_frame in El as [Eh Et]. rewrite Eh, Et. by split_and!; [done|..]; intros; simplify_eq/=.
    + by split_and!; [done|..]; intros; simplify_eq/=.
  - pose proof (warm_delete_ok _ _ _ _ _ _ Hw Hk Ed) as H1. by split_and!; [done|..]; intros; simplify_eq/=.
  - rewrite Ew. by split_and!; [done|..]; intros; simplify_eq/=.
Qed.

Lemma delete_tiered_ok (io : write_io) (synced : bool) (key : Key) t sp (now : Time) (low : Duration) : wf_key key -> tiered_ok t sp now low ->
  let x := @Tiered.Delete PH PW io synced key t in
  tiered_ok x.1 (match x.2 with Ok _ => delete key sp | Err _ => sp end) now low.
Proof.
  intros Hk [Hh Hw] x. unfold x, Tiered.Delete. clear x. destruct (with_hot_frame (@Hot.Delete PH (t_hot t) key) t) as (F1 & F2 & _).
  destruct (evictWarm_ok io synced key (with_hot (@Hot.Delete PH (t_hot t) key) t) sp Hk) as (E1 & E2 & E3); [by rewrite F2|].
  destruct (evictWarmErr io synced key _) as [t' [[]|e]]; cbn [fst snd] in *; split; rewrite ?E1, ?F1; try by auto.
  - by apply hot_delete_forgets.
  - by apply hot_delete_ok.
Qed.

Lemma get_tiered_ok (env : get_env) (key : Key) t sp (now : Time) (low : Duration) :
  tiered_ok t sp now low -> now <= g_now env -> g_now env <= g_now2 env ->
  let x := @Tiered.Get PH hot_pool PW shard_hash env key t in
  tiered_ok x.1 sp (g_now2 env) low /\
  (x.2 = Ok None \/ exists o src, x.2 = Ok (Some (o, src)) /\ offered sp key o /\
     match src with
     | SourceHot => (matches shard_hash (hbans (t_hot t)) o (g_won env) (g_now env)).2 = false
     | SourceWarm => (matches shard_hash (hbans (@Hot.Get PH hot_pool shard_hash (t_hot t) key (g_won env) (g_now env)).1) o (g_won2 env) (g_now2 env)).2 = false
     end).
Proof.
  intros [Hh Hw] Hn1 Hn2 x. unfold x, Tiered.Get. clear x.
  destruct (hot_get_ok (t_hot t) key (g_won env) now (g_now env) sp low Hh Hn1) as [Hh1 Hg].
  destruct (@Hot.Get PH hot_pool shard_hash (t_hot t) key (g_won env) (g_now env)) as [h1 r]. cbn [fst snd] in *.
  pose proof (with_hot_frame h1 t) as (F1 & F2 & _).
  assert (tiered_ok (with_hot h1 t) sp (g_now2 env) low) as Hok1
    by (split; rewrite ?F1, ?F2; [by eapply hot_ok_mono; [intros ? ?|exact Hn2|exact Hh1]|done]).
  destruct r as [o|]; [split; [done|]; right; exists o, SourceHot; split_and!; [done|by apply Hg|by apply Hg]|].
  rewrite F2. destruct (t_warm t) as [w|] eqn:Ew; [|by split; [|left]].
  unfold get_warm. destruct (warm_get_ok key w sp (Hw w eq_refl)) as [Hw1 Hres]. destruct (WarmStore.Get key w) as [w1 r1]. cbn [fst snd] in *.
  assert (forall t', t_warm t' = Some w1 -> hot_ok (t_hot t') sp (g_now2 env) low -> tiered_ok t' sp (g_now2 env) low) as Hmk.
  { intros t' E Hh'. split; [done|]. intros w' E'. rewrite E in E'. by injection E' as <-. }
  destruct Hres as [-> | (p & -> & Hp)]; [split; [apply Hmk; [done|apply Hok1]|by left]|].
  destruct (storable_encodable p (offered_storable _ _ _ Hp)) as [He _].
  rewrite (decode_encode p He). set (o := rederiveTransients (decoded p)).
  assert (offered sp key o) as Ho by (eapply offered_copy; [exact Hp|]; intros q; apply copy_read).
  set (h2 := @Hot.Put PH hot_pool (t_hot (set_warm w1 (with_hot h1 t))) key o).
  destruct (with_hot_frame h2 (set_warm w1 (with_hot h1 t))) as (G1 & G2 & _). set (t2 := with_hot h2 _) in *.
  assert (hot_ok h1 sp (g_now env) low) as Hh1' by done.
  assert (hot_ok h2 sp (g_now env) low /\ hbans h2 = hbans h1) as [Hh2 Eb].
  { unfold h2. cbn [set_warm t_hot]. rewrite F1. split; [by apply hot_put_ok|]. destruct Hh1' as (hsp & clock & _ & Hhist & _).
    by apply (put_ok hot_pool hot_unused h1 hsp key (CloneForStorage o)), (hot_history_ok hot_pool hot_unused shard_hash regexp_compile _ _ _ _ Hhist). }
  rewrite G1. destruct (matchesActiveBan shard_hash h2 o (g_won2 env) (g_now2 env)) as [h3 banned] eqn:Em.
  assert (hot_ok h3 sp (g_now2 env) low) as Hh3.
  { destruct Hh2 as (hsp & clock & Hle & Hhist & Hof). exists hsp, (g_now2 env). split_and!; [lia| |done].
    pose proof (HH_ban_check hot_pool shard_hash regexp_compile h2 hsp clock low o (g_won2 env) (g_now2 env) Hhist ltac:(lia)) as H. by rewrite Em in H. }
  destruct banned.
  - match goal with |- context [with_hot ?h ?x] => destruct (with_hot_frame h x) as (K1 & K2 & _) end. split; [|by left].
    apply Hmk; cbn [fst]; [rewrite K2; exact G2|]. rewrite K1. by apply hot_delete_ok.
  - split; [by apply Hmk|]. right. exists o, SourceWarm. split_and!; [done|done|]. rewrite <- Eb.
    unfold matchesActiveBan in Em. destruct (matches shard_hash (hbans h2) o (g_won2 env) (g_now2 env)) as [b r]. by injection Em as _ ->.
Qed.

(** Whether a put reaches the warm tier, or there is none. *)
Definition replaces (ios : list write_io) (key : Key) (obj : Object.t) t : bool :=
  match t_warm t with
  | None => true
  | Some w => backs t obj &&
      match @WarmStore.Put PW warm_pool ios key (encodeObject obj) w with Some (_, _, _, Ok _) => true | _ => false end
  end.
Definition put_offer (ios : list write_io) (key : Key) (obj : Object.t) t sp : offers :=
  if replaces ios key obj t then <[key := [obj]]> sp else add_offer key obj sp.

Lemma put_tiered_ok (ios : list write_io) (synced : bool) (key : Key) (obj : Object.t) t sp (now : Time) (low : Duration) :
  wf_key key -> storable obj -> tiered_ok t sp now low ->
  tiered_ok (@Tiered.Put PH hot_pool PW warm_pool ios synced key obj t).1 (put_offer ios key obj t sp) now low.
Proof.
  intros Hk Hs [Hh Hw]. unfold Tiered.Put. set (h1 := @Hot.Put PH hot_pool (t_hot t) key obj).
  destruct (with_hot_frame h1 t) as (F1 & F2 & F3 & F4). set (t1 := with_hot h1 t) in *.
  assert (forall l, hot_ok h1 (<[key := obj :: l]> sp) now low) as Hh1 by (intros l; by apply hot_put_replaces).
  unfold put_offer, replaces, warmBack. rewrite F2. destruct (t_warm t) as [w|] eqn:Ew.
  2:{ cbn [fst]. split; [by rewrite F1|]. by rewrite F2. }
  specialize (Hw w eq_refl). assert (backs t1 obj = backs t obj) as -> by (unfold backs; by rewrite F4).
  destruct (backs t obj); cbn [negb andb].
  2:{ cbn [fst]. split; [rewrite F1; apply Hh1|]. rewrite F2. intros w' [= <-]. eapply warm_ok_mono; [apply add_offer_le|done]. }
  destruct (@WarmStore.Put PW warm_pool ios key (encodeObject obj) w) as [[[[w1 ios1] ks] r]|] eqn:Ep.
  2:{ cbn [fst]. split; [rewrite F1; apply Hh1|]. rewrite F2. intros w' [= <-]. eapply warm_ok_mono; [apply add_offer_le|done]. }
  destruct (evicts_frame ks (set_warm w1 t1)) as (G1 & G2 & G3 & G4). cbn [set_warm t_warm t_hot] in G1, G4. rewrite F1 in G4.
  set (t2 := foldl warm_OnEvict (set_warm w1 t1) ks) in *.
  assert (forall l, hot_ok (t_hot t2) (<[key := obj :: l]> sp) now low) as Hh2 by (intros l; rewrite G4; apply hot_unbacked, Hh1).
  destruct r as [[id off]|e].
  - pose proof (warm_put_replaces key obj [] _ _ _ _ _ _ _ Hw Hk Hs Ep) as Hw1. destruct (protect_ok key w1 _ Hw1) as [Hw2 _].
    cbn [has_wal t_wal]. destruct (has_wal _); cbn [fst].
    + pose proof (sync_ok synced id (Protect key w1) _ Hw2) as Hw3. destruct (SyncSegment synced id (Protect key w1)) as [w3 ok]. cbn [fst] in Hw3.
      destruct ok; [|split; cbn [fst set_warm t_hot t_warm]; [apply hot_backed, Hh2|by intros ? [= <-]]].
      destruct (walEnqueue _ _) as [t3|e] eqn:El; [apply wal_frame in El as [E1 E2]|]; (split; cbn [fst]; rewrite ?E1, ?E2; cbn [set_warm t_hot t_warm]; [apply hot_backed, Hh2|by intros ? [= <-]]).
    + split; cbn [t_hot t_warm]; [apply hot_backed, Hh2|by intros ? [= <-]].
  - assert (warm_ok w1 (add_offer key obj sp)) as Hw1.
    { eapply warm_put_ok; [eapply warm_ok_mono; [apply add_offer_le|exact Hw]|exact Hk|by apply offered_new|exact Ep]. }
    assert (tiered_ok t2 (add_offer key obj sp) now low) as Hok by (split; [apply Hh2|rewrite G1; by intros ? [= <-]]).
    by destruct e.
Qed.

(** *** The rounds *)

Lemma drain_tombs_ok (ks : list Key) : Forall wf_key ks -> forall (ios : list write_io) w (es : list Entry) sp, warm_ok w sp ->
  warm_ok (@drain_tombs PW ios ks w es).1.1 sp.
Proof.
  induction 1 as [|k ks Hk _ IH]; intros ios w es sp Hw; [done|]. cbn [drain_tombs]. destruct (next_io ios) as [io ios1].
  destruct (WarmStore.Delete io k w) as [[w1 [id|e]]|] eqn:Ed; apply IH; try done; by eapply warm_delete_ok.
Qed.

Lemma unprotects_ok (ks : list Key) : forall w sp, warm_ok w sp -> warm_ok (foldl (fun w k => Unprotect k w) w ks) sp.
Proof. induction ks as [|k ks IH]; intros w sp Hw; [done|]. by apply IH, protect_ok. Qed.

Lemma drain_all_ok (ios : list write_io) t sp (now : Time) (low : Duration) : Forall wf_key (tombstoneQueue t) -> tiered_ok t sp now low ->
  tiered_ok (@drain_all PW ios t).1.1 sp now low.
Proof.
  intros Hq [Hh Hw]. unfold drain_all. destruct (t_warm t) as [w|] eqn:Ew; [|cbn [fst]; split; [done|by rewrite Ew]].
  pose proof (drain_tombs_ok _ Hq ios w [] sp (Hw w eq_refl)) as Hd. unfold drainTombstones.
  destruct (drain_tombs ios (tombstoneQueue t) w []) as [[w1 ios1] es]. cbn [fst snd drainWarmEvicts t_warm drainWarmUnprotects] in *.
  split; cbn [t_hot t_warm]; [done|]. intros w' [= <-]. by apply unprotects_ok.
Qed.

Lemma flush_frame (es : list Entry) t t' : flush_entries es t = Ok t' -> t_hot t' = t_hot t /\ t_warm t' = t_warm t.
Proof.
  unfold flush_entries. destruct es; [by intros [= <-]|]. destruct (walEnqueueBatch _ t) as [t1|] eqn:E; [|done]. intros [= <-]. by apply wal_frame in E.
Qed.

Lemma tiered_ext t t' sp (now : Time) (low : Duration) : t_hot t' = t_hot t -> t_warm t' = t_warm t -> tiered_ok t sp now low -> tiered_ok t' sp now low.
Proof. intros E1 E2 [Hh Hw]. split; by rewrite ?E1, ?E2. Qed.

Lemma drain_ok (ios : list write_io) t t' sp (now : Time) (low : Duration) : Forall wf_key (tombstoneQueue t) -> tiered_ok t sp now low ->
  @drainQueues PW ios t = Ok t' -> tiered_ok t' sp now low.
Proof.
  intros Hq Hok. unfold drainQueues. destruct (t_warm t); [|by intros [= <-]].
  pose proof (drain_all_ok ios t sp now low Hq Hok) as Hd. destruct (drain_all ios t) as [[t1 ios1] es]. intros H.
  apply flush_frame in H as [E1 E2]. by eapply tiered_ext.
Qed.

(** The clock readings of a round. *)
Definition clock_ok (clk : nat -> bool * Time) (now later : Time) : Prop :=
  now <= (clk O).2 /\ (forall i, (clk i).2 <= (clk (S i)).2) /\ forall i, (clk i).2 <= later.

Lemma write_hot_only_ok (clk : nat -> bool * Time) (later : Time) (low : Duration) sp :
  (forall i, (clk i).2 <= (clk (S i)).2) -> (forall i, (clk i).2 <= later) -> (forall k o, offered sp k o -> wf_key k) ->
  forall (ks : list Key) (i : nat) (ios : list write_io) (es es' : list Entry) t t' (now : Time), now <= (clk i).2 -> tiered_ok t sp now low ->
  @writeHotOnlyToWarm PH hot_pool PW warm_pool shard_hash clk i ios ks es t = Ok (t', es') -> tiered_ok t' sp later low.
Proof.
  intros Hmono Hlater Hkeys. induction ks as [|k ks IH]; intros i ios es es' t t' now Hnow [Hh Hw]; cbn [writeHotOnlyToWarm].
  { intros [= <- <-]. split; [|done]. eapply hot_ok_mono; [by intros ? ?| |exact Hh]. specialize (Hlater i). lia. }
  destruct (hot_get_ok (t_hot t) k (clk i).1 now (clk i).2 sp low Hh Hnow) as [Hh1 Hg].
  destruct (@Hot.Get PH hot_pool shard_hash (t_hot t) k (clk i).1 (clk i).2) as [h1 r]. cbn [fst snd] in *.
  destruct (with_hot_frame h1 t) as (F1 & F2 & _). set (t1 := with_hot h1 t) in *.
  assert (tiered_ok t1 sp (clk i).2 low) as Hok1 by (split; rewrite ?F1, ?F2; done).
  destruct r as [o|]; [|by apply (IH _ _ _ _ _ _ (clk i).2 (Hmono i))]. destruct (Hg o eq_refl) as [Ho _].
  rewrite F2. destruct (t_warm t) as [w|] eqn:Ew; [|by apply (IH _ _ _ _ _ _ (clk i).2 (Hmono i))].
  destruct (@WarmStore.Put PW warm_pool ios k (encodeObject o) w) as [[[[w1 ios1] ev] r]|] eqn:Ep; [|done].
  pose proof (warm_put_ok _ _ _ _ _ _ _ _ _ (Hw w eq_refl) (Hkeys k o Ho) Ho Ep) as Hw1.
  destruct (evicts_frame ev (set_warm w1 t1)) as (G1 & _ & _ & G4). cbn [set_warm t_warm t_hot] in G1, G4. rewrite F1 in G4.
  set (t2 := foldl warm_OnEvict (set_warm w1 t1) ev) in *.
  assert (tiered_ok t2 sp (clk i).2 low) as Hok2 by (split; rewrite ?G1, ?G4; [by apply hot_unbacked|by intros ? [= <-]]).
  destruct r as [[id off]|e].
  - apply (IH _ _ _ _ _ _ (clk i).2 (Hmono i)). split; cbn [mark_backed t_hot t_warm]; [apply hot_backed, Hok2|]. intros ? [= <-]. by apply protect_ok.
  - destruct e; try (by apply (IH _ _ _ _ _ _ (clk i).2 (Hmono i))). intros [= <- <-].
    split; [|apply Hok2]. eapply hot_ok_mono; [by intros ? ?|apply Hlater|apply Hok2].
Qed.

Lemma collect_frame (visits : (nat -> list Key) * (nat -> list Key)) w t : t_hot (collectHotOnlyKeys visits w t).1 = t_hot t /\
  t_warm (collectHotOnlyKeys visits w t).1 = t_warm t.
Proof.
  unfold collectHotOnlyKeys, collectHotOnlyKeysFallback. cbn [t_hot]. destruct (_ =? 0).
  - destruct (_ =? 0); [done|]. by destruct (fill_missing _ _ _).
  - destruct (HotOnlyKeys _ _ _ _ _). by case_match.
Qed.

Lemma sync_cycle_ok (clk : nat -> bool * Time) (visits : (nat -> list Key) * (nat -> list Key)) (ios : list write_io) t t' sp (now later : Time) (low : Duration) :
  (forall k o, offered sp k o -> wf_key k) -> Forall wf_key (tombstoneQueue t) -> clock_ok clk now later -> tiered_ok t sp now low ->
  @runWarmSyncCycle PH hot_pool PW warm_pool shard_hash clk visits ios t = Ok t' -> tiered_ok t' sp later low.
Proof.
  intros Hkeys Hq (Hnow & Hmono & Hlater) Hok. assert (now <= later) as Hnl by (specialize (Hlater O); lia).
  assert (forall x, tiered_ok x sp now low -> tiered_ok x sp later low) as Hmon.
  { intros x [Hh Hw]. split; [|done]. by eapply hot_ok_mono; [intros ? ?|..]. }
  unfold runWarmSyncCycle. destruct (t_warm t); [|by intros [= <-]; auto].
  pose proof (drain_all_ok ios t sp now low Hq Hok) as Hd. destruct (drain_all ios t) as [[t1 ios1] es]. cbn [fst] in Hd.
  destruct (t_warm t1) as [w|] eqn:Ew; [|by intros [= <-]; auto]. destruct (WarmOverBudget w).
  { intros H. apply flush_frame in H as [E1 E2]. by eapply tiered_ext; [..|by apply Hmon]. }
  pose proof (collect_frame visits w t1) as [C1 C2]. destruct (collectHotOnlyKeys visits w t1) as [t2 ks]. cbn [fst] in *.
  destruct (writeHotOnlyToWarm _ _ _ _ _ _ _ _) as [[t3 es3]|e] eqn:E; [|done]. intros H. apply flush_frame in H as [E1 E2].
  eapply tiered_ext; [exact E1|exact E2|]. eapply write_hot_only_ok; [..|exact E]; try done. by eapply tiered_ext.
Qed.

(** *** Compaction *)

Lemma compact_ticks_ok (ios : nat -> list write_io) (renamed : nat -> bool) (rounds : nat) : forall w sp (b : bool),
  warm_ok w sp -> warm_ok (compact_ticks rounds ios renamed w b).1 sp.
Proof.
  induction rounds as [|rounds IH]; intros w sp b (m & Hr & Ho); [by exists m|]. cbn [compact_ticks]. destruct (NeedsSegmentCompaction w) as [id|]; [|by exists m].
  pose proof (compact_segment_rest (ios rounds) (renamed rounds) id w m Hr) as Hr1. destruct (CompactSegment (ios rounds) (renamed rounds) id w) as [w1 e]. cbn [fst] in Hr1.
  assert (warm_ok w1 sp) as Hw1 by by exists m. destruct e as [[]|]; try done; by apply IH.
Qed.

Lemma post_frame (warmKeys : list Key) (o : rewrite_outcome) (snap : bool) w t t' : runPostCompaction warmKeys o snap w t = Ok t' ->
  t_hot t' = t_hot t /\ t_warm t' = t_warm t.
Proof. unfold runPostCompaction, rewriteWAL. repeat case_match; intros; simplify_eq/=; done. Qed.

Lemma check_ok (ios : nat -> list write_io) (renamed : nat -> bool) (warmKeys : list Key) (o : rewrite_outcome) (snap : bool) t t' sp (now : Time) (low : Duration) :
  tiered_ok t sp now low -> compact_check ios renamed warmKeys o snap t = Ok t' -> tiered_ok t' sp now low.
Proof.
  intros [Hh Hw]. unfold compact_check. destruct (t_warm t) as [w|] eqn:Ew; [|intros [= <-]; by split; rewrite ?Ew].
  pose proof (compact_ticks_ok ios renamed (length (w_segs w)) w sp false (Hw w eq_refl)) as H1.
  destruct (compact_ticks _ ios renamed w false) as [w1 b]. cbn [fst] in H1.
  assert (tiered_ok (set_warm w1 t) sp now low) as H2 by (split; [done|by intros ? [= <-]]).
  destruct b; [|by intros [= <-]]. intros H. apply post_frame in H as [E1 E2]. by eapply tiered_ext.
Qed.

Lemma compaction_ok (force : bool) (ios : list write_io) (listed : bool) (warmKeys : list Key) (o : rewrite_outcome) (snap : bool) w t t' sp (now : Time) (low : Duration) :
  t_warm t = Some w -> (forall seg, seg ∈ w_segs (@Compact PW warm_pool ios listed w).1 -> seg_ID seg < w_nextID w) ->
  tiered_ok t sp now low -> @runCompaction PW warm_pool force ios listed warmKeys o snap w t = Ok t' -> tiered_ok t' sp now low.
Proof.
  intros Ew Hid [Hh Hw]. unfold runCompaction. destruct (_ && _); [by intros [= <-]|].
  destruct (Hw w Ew) as (m & Hr & Ho). destruct (Compact warm_pool ios listed w) as [w1 e] eqn:Ec. cbn [fst] in Hid.
  pose proof (compact_rest warm_pool warm_unused _ _ _ _ _ _ Hr Ec Hid) as Hr1.
  assert (tiered_ok (set_warm w1 t) sp now low) as H2 by (split; [done|intros ? [= <-]; by exists m]).
  destruct e; [by intros [= <-]|]. intros H. apply post_frame in H as [E1 E2]. by eapply tiered_ext.
Qed.

(** Every sequence of calls and rounds. [sp] lists what each key may be read as:
    a put that reaches the warm tier (or a store without one) leaves the new
    object, any other put adds it, a delete without an error leaves nothing. *)
Inductive tiered_history : TieredStore -> offers -> Time -> Duration -> Prop :=
  | TH_new cfg numShards cpus maxB ttl_ gate segs wal now :
      numShards <= 2 ^ 32 -> 1 <= cpus ->
      tiered_history (NewTieredStore cfg (NewHotStore numShards cpus maxB ttl_ gate)
        (match segs with Some (segMax, maxBytes, maxEntries) => Some (NewStore segMax maxBytes maxEntries []) | None => None end) wal)
        ∅ now (if 0 <? ttl_ then ttl_ else DefaultBanTTL)
  | TH_time t sp now now' low : tiered_history t sp now low -> now <= now' -> tiered_history t sp now' low
  | TH_get env key t sp now low :
      tiered_history t sp now low -> now <= g_now env -> g_now env <= g_now2 env ->
      tiered_history (@Tiered.Get PH hot_pool PW shard_hash env key t).1 sp (g_now2 env) low
  | TH_put ios synced key obj t sp now low :
      tiered_history t sp now low -> wf_key key -> storable obj ->
      tiered_history (@Tiered.Put PH hot_pool PW warm_pool ios synced key obj t).1 (put_offer ios key obj t sp) now low
  | TH_delete io synced key t sp now low :
      tiered_history t sp now low -> wf_key key ->
      tiered_history (@Tiered.Delete PH PW io synced key t).1
        (match (@Tiered.Delete PH PW io synced key t).2 with Ok _ => delete key sp | Err _ => sp end) now low
  | TH_drain ios t t' sp now low :
      tiered_history t sp now low -> Forall wf_key (tombstoneQueue t) -> @drainQueues PW ios t = Ok t' -> tiered_history t' sp now low
  | TH_sync clk visits ios t t' sp now later low :
      tiered_history t sp now low -> Forall wf_key (tombstoneQueue t) -> clock_ok clk now later ->
      @runWarmSyncCycle PH hot_pool PW warm_pool shard_hash clk visits ios t = Ok t' -> tiered_history t' sp later low
  | TH_check ios renamed warmKeys o snap t t' sp now low :
      tiered_history t sp now low -> compact_check ios renamed warmKeys o snap t = Ok t' -> tiered_history t' sp now low
  | TH_compact force ios listed warmKeys o snap w t t' sp now low :
      tiered_history t sp now low -> t_warm t = Some w ->
      (forall seg, seg ∈ w_segs (@Compact PW warm_pool ios listed w).1 -> seg_ID seg < w_nextID w) ->
      @runCompaction PW warm_pool force ios listed warmKeys o snap w t = Ok t' -> tiered_history t' sp now low
  | TH_sweep t sp now low : tiered_history t sp now low -> tiered_history (with_hot (@sweeper PH hot_pool (t_hot t)) t) sp now low
  | TH_reap i at_ visit t sp now low :
      tiered_history t sp now low ->
      tiered_history (with_hot (on_shard (t_hot t) i (fun s => (@reapShard PH (mayReap (t_hot t)) at_ visit s).1)) t) sp now low
  | TH_ban_shard i pr visit t sp now low :
      tiered_history t sp now low -> tiered_history (with_hot (on_shard (t_hot t) i (fun s => (@banShard PH pr visit s).1)) t) sp now low
  | TH_register expr pr now1 now2 t sp now low :
      tiered_history t sp now low -> compileBanPredicate regexp_compile expr = Ok pr -> now <= now2 ->
      tiered_history (with_hot {| (t_hot t) with hbans := registerBan shard_hash (hbans (t_hot t)) expr pr now1 now2 |} t) sp now2 low
  | TH_prune at_ t sp now low :
      tiered_history t sp now low -> now <= at_ ->
      tiered_history (with_hot {| (t_hot t) with hbans := pruneExpired shard_hash (hbans (t_hot t)) at_ |} t) sp at_ low.

Lemma hot_step_ok (h : HotStore) t sp (now : Time) (low : Duration) : hot_ok h sp now low -> tiered_ok t sp now low -> tiered_ok (with_hot h t) sp now low.
Proof. intros Hh [_ Hw]. destruct (with_hot_frame h t) as (F1 & F2 & _). split; by rewrite ?F1, ?F2. Qed.

(** A step of the ban list moves the clock. *)
Lemma hot_clock_ok (h h' : HotStore) t sp (now now' : Time) (low : Duration) :
  (forall hsp clock, clock <= now' -> history_ h hsp clock low -> history_ h' hsp now' low) -> t_hot t = h -> now <= now' ->
  tiered_ok t sp now low -> tiered_ok (with_hot h' t) sp now' low.
Proof.
  intros Hstep Eh Hle [(hsp & clock & Hc & Hh & Ho) Hw]. destruct (with_hot_frame h' t) as (F1 & F2 & _). split; rewrite ?F1, ?F2; [|done].
  exists hsp, now'. split_and!; [lia| |done]. apply (Hstep hsp clock); [lia|]. by rewrite <- Eh.
Qed.

Lemma offered_keys (sp sp' : offers) : (forall k, is_Some (sp' !! k) -> is_Some (sp !! k) \/ wf_key k) ->
  (forall k, is_Some (sp !! k) -> wf_key k) -> forall k, is_Some (sp' !! k) -> wf_key k.
Proof. intros H1 H2 k Hk. destruct (H1 k Hk); auto. Qed.

Lemma put_offer_keys (ios : list write_io) (key : Key) (obj : Object.t) t sp : wf_key key -> (forall k, is_Some (sp !! k) -> wf_key k) ->
  forall k, is_Some (put_offer ios key obj t sp !! k) -> wf_key k.
Proof.
  intros Hk Hs. apply (offered_keys sp); [|done]. intros k. unfold put_offer, add_offer. destruct (decide (k = key)) as [->|]; [auto|].
  destruct (replaces ios key obj t); rewrite lookup_insert_ne by done; auto.
Qed.

Lemma tiered_history_ok t sp (now : Time) (low : Duration) : tiered_history t sp now low ->
  tiered_ok t sp now low /\ forall k, is_Some (sp !! k) -> wf_key k.
Proof.
  induction 1 as [cfg numShards cpus maxB ttl_ gate segs wal now Hn Hc|t sp now now' low _ [IH Hk] Hle|env key t sp now low _ [IH Hk] H1 H2
    |ios synced key obj t sp now low _ [IH Hk] H1 H2|io synced key t sp now low _ [IH Hk] H1|ios t t' sp now low _ [IH Hk] H1 H2
    |clk visits ios t t' sp now later low _ [IH Hk] H1 H2 H3|ios renamed warmKeys o snap t t' sp now low _ [IH Hk] H1
    |force ios listed warmKeys o snap w t t' sp now low _ [IH Hk] H1 H2 H3|t sp now low _ [IH Hk]|i at_ visit t sp now low _ [IH Hk]
    |i pr visit t sp now low _ [IH Hk]|expr pr now1 now2 t sp now low _ [IH Hk] H1 H2|at_ t sp now low _ [IH Hk] H1].
  - split; [split|by intros k [? H]; rewrite lookup_empty in H]; cbn [NewTieredStore t_hot t_warm].
    + exists ∅, now. split_and!; [done|by apply HH_new|]. intros k o. by rewrite lookup_empty.
    + intros w. destruct segs as [[[a b] c]|]; [|done]. intros [= <-]. exists ∅. split; [apply new_rest|]. intros k x. by rewrite lookup_empty.
  - split; [|done]. destruct IH as [Hh Hw]. split; [|done]. by eapply hot_ok_mono; [intros ? ?|..].
  - split; [|done]. by eapply get_tiered_ok.
  - split; [by apply put_tiered_ok|by apply put_offer_keys].
  - split; [by apply delete_tiered_ok|]. destruct (_.2); [|done]. intros k [x [_ Hx]%lookup_delete_Some]. eauto.
  - split; [|done]. by eapply drain_ok.
  - split; [|done]. eapply sync_cycle_ok; [|done..]. intros k o (p & Hp & _). apply Hk. destruct (sp !! k); [eauto|]. by apply not_elem_of_nil in Hp.
  - split; [|done]. by eapply check_ok.
  - split; [|done]. by eapply compaction_ok.
  - split; [|done]. apply hot_step_ok; [|done]. eapply hot_same; [|apply IH]. intros. by apply HH_sweep.
  - split; [|done]. apply hot_step_ok; [|done]. eapply hot_same; [|apply IH]. intros. by apply HH_reap.
  - split; [|done]. apply hot_step_ok; [|done]. eapply hot_same; [|apply IH]. intros. by apply HH_ban_shard.
  - split; [|done]. eapply hot_clock_ok; [|done|exact H2|exact IH]. intros. by eapply HH_register.
  - split; [|done]. eapply hot_clock_ok; [|done|exact H1|exact IH]. intros. by eapply HH_prune.
Qed.
(** *** Errors *)

Lemma enqueue_error (e : Entry) t (err : tiered_error) : walEnqueue e t = Err err -> err = EPanic /\ t_wal t = WalNilPtr.
Proof. unfold walEnqueue, walEnqueueBatch. destruct (t_wal t); try done. by intros [= <-]. Qed.

(** A put or a delete fails on a failed write or sync, or panics on a log that
    could not be reopened; the rounds of the model's loops are always enough. *)
Definition real_error t (e : tiered_error) : Prop := (exists x, e = EWarm x) \/ e = ESync \/ (e = EPanic /\ t_wal t = WalNilPtr).

Lemma tiered_put_errors (ios : list write_io) (synced : bool) (key : Key) (obj : Object.t) t sp (now : Time) (low : Duration) (e : tiered_error) :
  tiered_ok t sp now low -> (@Tiered.Put PH hot_pool PW warm_pool ios synced key obj t).2 = Err e -> real_error t e.
Proof.
  intros [_ Hw]. unfold Tiered.Put, warmBack. destruct (with_hot_frame (@Hot.Put PH hot_pool (t_hot t) key obj) t) as (_ & F2 & F3 & _). rewrite F2.
  destruct (t_warm t) as [w|]; [|done]. destruct (negb _); [done|]. destruct (Hw w eq_refl) as (m & [Hi Hm] & _).
  destruct (put_returns warm_pool warm_unused ios key (encodeObject obj) w (sv_idx _ _ Hi) Hm) as [[[[w1 ios1] ks] r] ->].
  destruct (evicts_frame ks (set_warm w1 (with_hot (@Hot.Put PH hot_pool (t_hot t) key obj) t))) as (_ & G2 & _).
  destruct r as [[id off]|[]]; try done; try (by intros [= <-]; left; eauto).
  destruct (has_wal _); [|done]. destruct (SyncSegment _ _ _) as [w2 []]; [|by intros [= <-]; right; left].
  destruct (walEnqueue _ _) as [t3|e3] eqn:El; [done|]. intros [= <-]. apply enqueue_error in El as [-> El]. right. right. split; [done|].
  cbn [set_warm t_wal] in El, G2. by rewrite <- F3, <- G2.
Qed.

Lemma tiered_delete_errors (io : write_io) (synced : bool) (key : Key) t sp (now : Time) (low : Duration) (e : tiered_error) :
  tiered_ok t sp now low -> (@Tiered.Delete PH PW io synced key t).2 = Err e -> real_error t e.
Proof.
  intros [_ Hw]. unfold Tiered.Delete, evictWarmErr. destruct (with_hot_frame (@Hot.Delete PH (t_hot t) key) t) as (_ & F2 & F3 & _). rewrite F2.
  destruct (t_warm t) as [w|]; [|done]. destruct (Hw w eq_refl) as (m & [Hi Hm] & _).
  destruct (del_returns io key w Hm) as [[w1 [id|e1]] ->]; [|by intros [= <-]; left; eauto].
  destruct (has_wal _); [|done]. destruct (SyncSegment _ _ _) as [w2 []]; [|by intros [= <-]; right; left].
  destruct (walEnqueue _ _) as [t3|e3] eqn:El; [done|]. intros [= <-]. apply enqueue_error in El as [-> El]. right. right. split; [done|].
  cbn [set_warm t_wal] in El. by rewrite <- F3.
Qed.
End Tiers.

(** ** Theorems *)

(** C20. The tiered store is a lossy map over both tiers. After any sequence of
    puts, deletes, lookups, bans, evictions, drains, sync rounds and
    compactions, with writes and syncs that may fail, a lookup never fails,
    and what it returns, from either tier, is a copy of an object stored under
    that key since the key was last deleted: the last one stored, or one from
    before it as long as the writes since then did not reach the warm tier.
    The ban list does not match it. After a delete without an error the key
    misses until it is stored again. *)
Theorem tiered_get_refines {PH PW : EvictionPolicy Key} (hot_pool warm_pool : List Key -> addr)
    (Hhot : forall l, heap l !! hot_pool l = None) (Hwarm : forall l, heap l !! warm_pool l = None)
    (shard_hash : bytes -> Z) (regexp_compile : bytes -> option (bytes -> bool))
    (t : TieredStore) (sp : gmap Key (list Object.t)) (now : Time) (low : Duration) (env : get_env) (key : Key)
    (Ht : @tiered_history PH hot_pool PW warm_pool shard_hash regexp_compile t sp now low)
    (Hnow : now <= g_now env) (Hnow2 : g_now env <= g_now2 env) :
  (@Tiered.Get PH hot_pool PW shard_hash env key t).2 = Ok None \/
  exists o src p, (@Tiered.Get PH hot_pool PW shard_hash env key t).2 = Ok (Some (o, src)) /\
    p ∈ default [] (sp !! key) /\ same_response p o /\
    match src with
    | SourceHot => (matches shard_hash (hbans (t_hot t)) o (g_won env) (g_now env)).2 = false
    | SourceWarm => (matches shard_hash (hbans (@Hot.Get PH hot_pool shard_hash (t_hot t) key (g_won env) (g_now env)).1) o (g_won2 env) (g_now2 env)).2 = false
    end.
Proof.
  destruct (tiered_history_ok hot_pool Hhot warm_pool Hwarm shard_hash regexp_compile _ _ _ _ Ht) as [Hok _].
  destruct (get_tiered_ok hot_pool Hhot shard_hash regexp_compile env key t sp now low Hok Hnow Hnow2) as [_ [H | (o & src & E & (p & Hp & Hs & Hc) & Hb)]]; [by left|].
  right. exists o, src, p. split_and!; [done|done|by apply copy_same|done].
Qed.

(** ** Witnesses *)

Definition body_obj (s : string) : Object.t :=
  {| Object.zero with Object.StoredAt := 15; Object.Body := bs s; Object.BodySize := len (bs s); Object.Key_ := Hot.demo_key 1; Object.PairedKey := Hot.demo_key 0 |}.
Definition small_cfg : TieredConfig := MkTConfig 3 0 0 0 0 0 0 0 0 0.
Definition demo_env : get_env := MkGetEnv true 20 true 20 io_done true.
Abbreviation tput := (@Tiered.Put (sieve_policy Key) pool_fresh (sieve_policy Key) pool_fresh).
Abbreviation tget := (@Tiered.Get (sieve_policy Key) pool_fresh (sieve_policy Key) (fun _ => 0)).
Abbreviation thistory := (@tiered_history (sieve_policy Key) pool_fresh (sieve_policy Key) pool_fresh (fun _ => 0) mini_compile).

(** Room for one object in memory. *)
Definition t0 : TieredStore := NewTieredStore small_cfg (NewHotStore 1 1 700 0 None) (Some (NewStore 0 0 0 [])) true.
Definition t1 : TieredStore := (tput [] true (Hot.demo_key 1) (body_obj "abcdef") t0).1.
Definition t2 : TieredStore := (tput [] true (Hot.demo_key 2) (body_obj "pq") t1).1.
Definition t3 : TieredStore := (tput [] true (Hot.demo_key 1) (body_obj "xy") t2).1.
Definition t4 : TieredStore := (tput [] true (Hot.demo_key 2) (body_obj "rs") t3).1.

Definition shown (x : TieredStore * result tiered_error (option (Object.t * Source))) : option (bytes * Source) :=
  match x.2 with Ok (Some (o, src)) => Some (Object.Body o, src) | _ => None end.

Lemma shown_spec x (b : bytes) (src : Source) : shown x = Some (b, src) -> exists o, x.2 = Ok (Some (o, src)).
Proof. unfold shown. destruct (x.2) as [[[o s]|]|e]; [|done|done]. intros [= _ ->]. eauto. Qed.

Lemma t2_reads_warm : shown (tget demo_env (Hot.demo_key 1) t2) = Some (bs "abcdef", SourceWarm).
Proof. vm_compute. reflexivity. Qed.

Lemma body_storable (s : string) : len (bs s) < 2 ^ 20 -> storable (body_obj s).
Proof.
  intros Hl. split; try done; try (by apply length_put_be); try (by right); try (by left).
  - apply wf_NewMap.
  - unfold weight. cbn [body_obj Object.VaryKey Object.VaryValue Object.ETag Object.Pool Object.SurrogateKeys Object.Body Object.Header Object.CacheControl Object.zero pairs NewMap entries map keys_weight pairs_weight foldr].
    change (len []) with 0. lia.
Qed.

(** A key stored in both tiers, then pushed out of memory. *)
Definition t2_offers : gmap Key (list Object.t) :=
  add_offer (Hot.demo_key 2) (body_obj "pq") (<[Hot.demo_key 1 := [body_obj "abcdef"]]> ∅).
Lemma t2_history : thistory t2 t2_offers 20 DefaultBanTTL.
Proof.
  assert (thistory t0 ∅ 20 DefaultBanTTL) as H0 by exact (@TH_new (sieve_policy Key) pool_fresh (sieve_policy Key) pool_fresh (fun _ => 0) mini_compile
    small_cfg 1 1 700 0 None (Some (0, 0, 0)) true 20 ltac:(lia) ltac:(lia)).
  pose proof (@TH_put (sieve_policy Key) pool_fresh (sieve_policy Key) pool_fresh (fun _ => 0) mini_compile [] true (Hot.demo_key 1) (body_obj "abcdef")
    t0 ∅ 20 _ H0 ltac:(apply length_put_be) ltac:(apply body_storable; reflexivity)) as H1. fold t1 in H1.
  pose proof (@TH_put (sieve_policy Key) pool_fresh (sieve_policy Key) pool_fresh (fun _ => 0) mini_compile [] true (Hot.demo_key 2) (body_obj "pq")
    t1 _ 20 _ H1 ltac:(apply length_put_be) ltac:(apply body_storable; reflexivity)) as H2. fold t2 in H2. unfold put_offer in H2.
  assert (@replaces (sieve_policy Key) pool_fresh [] (Hot.demo_key 1) (body_obj "abcdef") t0 = true) as E1 by (vm_compute; reflexivity).
  assert (@replaces (sieve_policy Key) pool_fresh [] (Hot.demo_key 2) (body_obj "pq") t1 = false) as E2 by (vm_compute; reflexivity).
  rewrite E1, E2 in H2. exact H2.
Qed.

Lemma tiered_get_refines_witness : exists o p, (tget demo_env (Hot.demo_key 1) t2).2 = Ok (Some (o, SourceWarm)) /\
  p = body_obj "abcdef" /\ same_response p o.
Proof.
  destruct (shown_spec _ _ _ t2_reads_warm) as [o' Ho].
  destruct (@tiered_get_refines (sieve_policy Key) (sieve_policy Key) pool_fresh pool_fresh pool_fresh_unused pool_fresh_unused (fun _ => 0) mini_compile
    t2 t2_offers 20 DefaultBanTTL demo_env (Hot.demo_key 1) t2_history (Z.le_refl 20) (Z.le_refl 20)) as [H | (o & src & p & H & Hp & Hr & _)].
  - rewrite Ho in H. discriminate H.
  - rewrite Ho in H. injection H as E1 E2. subst o' src. exists o, p. split; [exact Ho|]. split; [|exact Hr].
    unfold t2_offers, add_offer in Hp. rewrite lookup_insert_ne, lookup_insert_eq in Hp by (vm_compute; discriminate).
    apply list_elem_of_singleton in Hp. exact Hp.
Defined.

(** ** What the code does on edge inputs *)

(** An object small enough to stay in memory does not replace the older copy in
    the warm tier: once memory drops it, the old object is read again. *)
Lemma stale_after_small_put : shown (tget demo_env (Hot.demo_key 1) t3) = Some (bs "xy", SourceHot) /\
  shown (tget demo_env (Hot.demo_key 1) t4) = Some (bs "abcdef", SourceWarm).
Proof. vm_compute. auto. Qed.

(** A lookup that read the warm record before a delete of the key stores it in
    memory after the delete returned. *)
Definition promoted : option Object.t :=
  match t_warm t2 with
  | Some w => match (@WarmStore.Get (sieve_policy Key) (Hot.demo_key 1) w).2 with
              | Ok (Some b) => match decodeObject b with Ok o => Some (rederiveTransients o) | Err _ => None end
              | _ => None
              end
  | None => None
  end.
Definition deleted : TieredStore * result tiered_error unit :=
  @Tiered.Delete (sieve_policy Key) (sieve_policy Key) io_done true (Hot.demo_key 1) t2.
Lemma promotion_undoes_delete : deleted.2 = Ok tt /\ shown (tget demo_env (Hot.demo_key 1) deleted.1) = None /\
  match promoted with
  | Some o => shown (tget demo_env (Hot.demo_key 1) (with_hot (@Hot.Put (sieve_policy Key) pool_fresh (t_hot deleted.1) (Hot.demo_key 1) o) deleted.1))
              = Some (bs "abcdef", SourceHot)
  | None => False
  end.
Proof. vm_compute. auto. Qed.

(** A log that cannot be reopened after a rewrite leaves an interface over a nil
    pointer, and the next entry dereferences it. *)
Lemma reopen_failure_panics (w : Store) (e : Entry) (t : TieredStore) (handed : list Entry) : t_wal t = WalLog handed ->
  exists t', rewriteWAL [] RwReopen w t = Ok (t', false) /\ has_wal t' = true /\ walEnqueue e t' = Err EPanic.
Proof. intros E. unfold rewriteWAL. rewrite E. eexists. split; [reflexivity|]. done. Qed.

(** The log's delete of an evicted key comes after the put of the same key that
    happened before the drain. *)
Definition wal_of (t : TieredStore) : list Entry := match t_wal t with WalLog es => es | _ => [] end.
Definition ok_or {A} (d : A) (r : result tiered_error A) : A := match r with Ok x => x | Err _ => d end.
Definition e0 : TieredStore := NewTieredStore small_cfg (NewHotStore 1 1 700 0 None) (Some (NewStore 0 0 2 [])) true.
Definition tdrain (t : TieredStore) : TieredStore := ok_or t (@drainQueues (sieve_policy Key) [] t).
Definition e3 : TieredStore :=
  (tput [] true (Hot.demo_key 3) (body_obj "third") (tdrain (tput [] true (Hot.demo_key 2) (body_obj "second") (tput [] true (Hot.demo_key 1) (body_obj "first") e0).1).1)).1.
Definition e4 : TieredStore :=
  tdrain (tput [] true (Hot.demo_key 1) (body_obj "again") (@Tiered.Delete (sieve_policy Key) (sieve_policy Key) io_done true (Hot.demo_key 3) e3).1).1.
Lemma late_delete_entry :
  match t_warm e4 with Some w => bool_decide (is_Some (w_index w !! Hot.demo_key 1)) | None => false end = true /\
  bool_decide (foldl index_step ∅ (wal_of e4) !! Hot.demo_key 1 = None) = true.
Proof. vm_compute. auto. Qed.
