(* ===== verification/StoreSpec.v ===== *)
(** The store as the request handler sees it: the interface of
    src/internal/storage/store.go ([Get], [Put], [Delete], [Has]) with what the
    handler may rely on, and the stores that keep it: a plain map, a map that
    loses entries and fails, and the tiered store of [Tiered] under any clock and
    any outcome of its writes. *)

From S2P Require Import Prelude GoStd CacheControl HeaderMap Api ClusterCodec Evictor ObjectCodec Wal Snapshot Checkpoint Bans EvictIndex Hot WarmRecord WarmStore WarmSystem WarmRefine Tiered TieredRefine.

(** ** The interface *)

(** [Get] returns no object for a miss and for an error alike: the handler logs
    an error and goes on as for a miss. [Put] and [Delete] tell whether they ran
    without error. *)
Class ObjectStore (S : Type) : Type := {
  store_Get : Key -> S -> S * option (Object.t * Source);
  store_Put : Key -> Object.t -> S -> S * bool;
  store_Delete : Key -> S -> S * bool;
  store_Has : Key -> S -> bool;
}.

(** What may be said of the objects under each key: a stored object comes back
    as a copy with the same response. *)
Definition stable (P : Key -> Object.t -> Prop) : Prop := forall k o o', P k o -> same_response o o' -> P k o'.

(** [holds P s]: whatever [s] returns under a key satisfies [P]. A store is a
    lossy map: it may drop what it holds at any time, but it returns only what
    was put under the key and not deleted since. *)
Class StoreLaws (S : Type) {OS : ObjectStore S} : Type := {
  accepts : Key -> Object.t -> Prop;
  holds : (Key -> Object.t -> Prop) -> S -> Prop;
  holds_mono (P Q : Key -> Object.t -> Prop) s : (forall k o, P k o -> Q k o) -> holds P s -> holds Q s;
  holds_Get P k s : holds P s -> holds P (store_Get k s).1;
  Get_holds P k s o src : stable P -> holds P s -> (store_Get k s).2 = Some (o, src) -> P k o;
  holds_Put P k o s : holds P s -> accepts k o -> P k o -> holds P (store_Put k o s).1;
  holds_Delete P k s : wf_key k -> holds P s -> holds P (store_Delete k s).1;
  holds_Deleted P k s : wf_key k -> holds P s -> (store_Delete k s).2 = true -> holds (fun k' o => P k' o /\ k' <> k) (store_Delete k s).1;
}.

(** A store that takes every object and every key. (The tiered store takes the
    objects that fit a record, under keys of sixteen bytes.) *)
Class TotalStore (S : Type) {OS : ObjectStore S} {SL : StoreLaws S} : Prop := {
  total_accepts k o : accepts k o;
  total_Delete P k s : holds P s -> holds P (store_Delete k s).1;
  total_Deleted P k s : holds P s -> (store_Delete k s).2 = true -> holds (fun k' o => P k' o /\ k' <> k) (store_Delete k s).1;
}.

(** ** A map *)

#[export] Instance map_store : ObjectStore (gmap Key Object.t) := {|
  store_Get k m := (m, match m !! k with Some o => Some (o, SourceHot) | None => None end);
  store_Put k o m := (<[k := o]> m, true);
  store_Delete k m := (delete k m, true);
  store_Has k m := bool_decide (is_Some (m !! k)) |}.

#[export] Instance map_store_laws : StoreLaws (gmap Key Object.t).
Proof.
  refine {| accepts _ _ := True; holds P m := map_Forall P m |}.
  - intros P Q m H Hm k o E. apply H. by apply Hm.
  - done.
  - intros P k m o src _ Hm. cbn. destruct (m !! k) eqn:E; [|done]. intros [= <- <-]. by apply Hm.
  - intros P k o m Hm _ Ho. by apply map_Forall_insert_2.
  - intros P k m _ Hm. by apply map_Forall_delete.
  - intros P k m _ Hm _ k' o E. cbn in E. apply lookup_delete_Some in E as [Hne E]. split; [by apply Hm|done].
Defined.

#[export] Instance map_store_total : TotalStore (gmap Key Object.t).
Proof.
  split; [done|..].
  - intros P k m Hm. by apply map_Forall_delete.
  - intros P k m Hm _ k' o E. cbn in E. apply lookup_delete_Some in E as [Hne E]. split; [by apply Hm|done].
Qed.

(** ** A map that loses entries *)

(** Before each operation the environment takes away what it likes, and a [Put] or
    a [Delete] may fail. *)
Record lossy : Type := MkLossy { lo_map : gmap Key Object.t; lo_op : nat; lo_lost : nat -> gset Key; lo_fails : nat -> bool }.
Definition lose (s : lossy) : lossy :=
  {| s with lo_map := filter (fun kv => kv.1 ∉ lo_lost s (lo_op s)) (lo_map s); lo_op := S (lo_op s) |}.

#[export] Instance lossy_store : ObjectStore lossy := {|
  store_Get k s := let s := lose s in (s, match lo_map s !! k with Some o => Some (o, SourceHot) | None => None end);
  store_Put k o s := let ok := negb (lo_fails s (lo_op s)) in let s := lose s in (if ok then {| s with lo_map := <[k := o]> (lo_map s) |} else s, ok);
  store_Delete k s := let ok := negb (lo_fails s (lo_op s)) in let s := lose s in (if ok then {| s with lo_map := delete k (lo_map s) |} else s, ok);
  store_Has k s := bool_decide (is_Some (lo_map s !! k)) |}.

Lemma lose_holds (P : Key -> Object.t -> Prop) (s : lossy) : map_Forall P (lo_map s) -> map_Forall P (lo_map (lose s)).
Proof. intros H k o. cbn. rewrite map_lookup_filter_Some. intros [E _]. by apply H. Qed.

#[export] Instance lossy_store_laws : StoreLaws lossy.
Proof.
  refine {| accepts _ _ := True; holds P s := map_Forall P (lo_map s) |}.
  - intros P Q m H Hm k o E. apply H. by apply Hm.
  - intros P k s. apply lose_holds.
  - intros P k s o src _ Hm%lose_holds. cbn [store_Get lossy_store snd]. destruct (lo_map (lose s) !! k) eqn:E; [|done]. intros [= <- <-]. by apply Hm.
  - intros P k o s Hm%lose_holds _ Ho. cbn [store_Put lossy_store fst]. destruct (negb _); [|done]. by apply map_Forall_insert_2.
  - intros P k s _ Hm%lose_holds. cbn [store_Delete lossy_store fst]. destruct (negb _); [|done]. by apply map_Forall_delete.
  - intros P k s _ Hm%lose_holds. cbn [store_Delete lossy_store fst snd]. destruct (negb _); [|done]. intros _ k' o E. cbn [lo_map] in E.
    apply lookup_delete_Some in E as [Hne E]. split; [by apply Hm|done].
Defined.

#[export] Instance lossy_store_total : TotalStore lossy.
Proof.
  split; [done|..].
  - intros P k s Hm%lose_holds. cbn [store_Delete lossy_store fst]. destruct (negb _); [|done]. by apply map_Forall_delete.
  - intros P k s Hm%lose_holds. cbn [store_Delete lossy_store fst snd]. destruct (negb _); [|done]. intros _ k' o E. cbn [holds lossy_store_laws lo_map] in E.
    apply lookup_delete_Some in E as [Hne E]. split; [by apply Hm|done].
Qed.

(** ** The tiered store *)

Section TieredNode.
Context {PH : EvictionPolicy Key} (hot_pool : List Key -> addr) (Hhot : forall l, heap l !! hot_pool l = None).
Context {PW : EvictionPolicy Key} (warm_pool : List Key -> addr) (Hwarm : forall l, heap l !! warm_pool l = None).
Context (shard_hash : bytes -> Z) (regexp_compile : bytes -> option (bytes -> bool)).

(** A tiered store with the environment of its next operations: the clock and
    the outcomes of the writes and syncs, one for each operation. *)
Record tiered_node : Type := MkTieredNode {
  tn_store : TieredStore;
  tn_op : nat;
  tn_get : nat -> get_env;
  tn_ios : nat -> list write_io;
  tn_io : nat -> write_io;
  tn_synced : nat -> bool;
}.

Definition next_op (t : TieredStore) (s : tiered_node) : tiered_node := {| s with tn_store := t; tn_op := S (tn_op s) |}.

#[local] Instance tiered_store : ObjectStore tiered_node := {|
  store_Get k s :=
    let '(t, r) := @Tiered.Get PH hot_pool PW shard_hash (tn_get s (tn_op s)) k (tn_store s) in
    (next_op t s, match r with Ok r => r | Err _ => None end);
  store_Put k o s :=
    let r := @Tiered.Put PH hot_pool PW warm_pool (tn_ios s (tn_op s)) (tn_synced s (tn_op s)) k o (tn_store s) in
    (next_op r.1 s, is_ok r.2);
  store_Delete k s :=
    let '(t, r) := @Tiered.Delete PH PW (tn_io s (tn_op s)) (tn_synced s (tn_op s)) k (tn_store s) in
    (next_op t s, is_ok r);
  store_Has k s := Tiered.Has k (tn_store s) |}.

(** The clock of the lookups does not go back. *)
Definition clocks_ok (s : tiered_node) : Prop :=
  forall i, g_now (tn_get s i) <= g_now2 (tn_get s i) /\ g_now2 (tn_get s i) <= g_now (tn_get s (S i)).

Definition tiered_holds (P : Key -> Object.t -> Prop) (s : tiered_node) : Prop :=
  clocks_ok s /\
  exists sp now low, @tiered_history PH hot_pool PW warm_pool shard_hash regexp_compile (tn_store s) sp now low /\
    now <= g_now (tn_get s (tn_op s)) /\ forall k o, o ∈ default [] (sp !! k) -> P k o.

Lemma clocks_next (t : TieredStore) (s : tiered_node) : clocks_ok s -> clocks_ok (next_op t s).
Proof. done. Qed.

Lemma clock_step (s : tiered_node) : clocks_ok s -> g_now (tn_get s (tn_op s)) <= g_now (tn_get s (S (tn_op s))).
Proof. intros H. destruct (H (tn_op s)). lia. Qed.

(** The store keeps the interface for objects of Go's types that fit a record. *)
Definition tiered_store_laws : @StoreLaws tiered_node tiered_store.
Proof using Hhot Hwarm regexp_compile.
  refine (@Build_StoreLaws tiered_node tiered_store (fun k o => wf_key k /\ storable o) tiered_holds _ _ _ _ _ _).
  - intros P Q s H [Hc (sp & now & low & Hh & Hn & HP)]. split; [done|]. exists sp, now, low. split_and!; auto.
  - intros P k s [Hc (sp & now & low & Hh & Hn & HP)]. cbn. set (env := tn_get s (tn_op s)).
    pose proof (TH_get hot_pool warm_pool shard_hash regexp_compile env k _ _ _ _ Hh Hn (proj1 (Hc _))) as Hg.
    destruct (@Tiered.Get PH hot_pool PW shard_hash env k (tn_store s)) as [t r]. split; [done|].
    exists sp, (g_now2 env), low. split_and!; [exact Hg|apply (Hc (tn_op s))|done].
  - intros P k s o src Hst [Hc (sp & now & low & Hh & Hn & HP)]. cbn. set (env := tn_get s (tn_op s)).
    destruct (tiered_history_ok hot_pool Hhot warm_pool Hwarm shard_hash regexp_compile _ _ _ _ Hh) as [Hok _].
    destruct (get_tiered_ok hot_pool Hhot shard_hash regexp_compile env k _ sp now low Hok Hn (proj1 (Hc _)))
      as [_ [E | (o' & src' & E & (p & Hp & Hs & Hcp) & _)]]; destruct (@Tiered.Get PH hot_pool PW shard_hash env k (tn_store s)) as [t r]; cbn in E; subst r.
    + done.
    + intros [= -> ->]. eapply Hst; [by apply HP|]. by apply copy_same.
  - intros P k o s [Hc (sp & now & low & Hh & Hn & HP)] [Hk Ho] HPo. cbn. split; [done|].
    eexists _, now, low. split_and!; [by apply (TH_put hot_pool warm_pool shard_hash regexp_compile)|cbn; pose proof (clock_step s Hc); lia|].
    intros k' p. unfold put_offer, add_offer. destruct (decide (k' = k)) as [->|Hne].
    + destruct (replaces _ _ _ _); rewrite lookup_insert_eq; cbn.
      * intros ->%list_elem_of_singleton. done.
      * intros [->|Hp]%elem_of_cons; [done|by apply HP].
    + destruct (replaces _ _ _ _); rewrite lookup_insert_ne by done; apply HP.
  - intros P k s Hk [Hc (sp & now & low & Hh & Hn & HP)]. cbn.
    pose proof (TH_delete hot_pool warm_pool shard_hash regexp_compile (tn_io s (tn_op s)) (tn_synced s (tn_op s)) k _ _ _ _ Hh Hk) as Hd.
    destruct (@Tiered.Delete PH PW _ _ k (tn_store s)) as [t r]. cbn in Hd. split; [done|]. eexists _, now, low.
    split_and!; [exact Hd|cbn; pose proof (clock_step s Hc); lia|]. intros k' o. destruct r; [|apply HP]. cbn beta iota.
    destruct (decide (k' = k)) as [->|Hne]; [rewrite lookup_delete_eq; by intros Ho%not_elem_of_nil|rewrite lookup_delete_ne by done; apply HP].
  - intros P k s Hk [Hc (sp & now & low & Hh & Hn & HP)]. cbn.
    pose proof (TH_delete hot_pool warm_pool shard_hash regexp_compile (tn_io s (tn_op s)) (tn_synced s (tn_op s)) k _ _ _ _ Hh Hk) as Hd.
    destruct (@Tiered.Delete PH PW _ _ k (tn_store s)) as [t [u|e]]; [|done]. cbn in Hd. intros _. split; [done|]. eexists _, now, low.
    split_and!; [exact Hd|cbn; pose proof (clock_step s Hc); lia|]. intros k' o Ho.
    destruct (decide (k' = k)) as [->|Hne]; [rewrite lookup_delete_eq in Ho; by apply not_elem_of_nil in Ho|].
    rewrite lookup_delete_ne in Ho by done. split; [by apply HP|done].
Defined.
End TieredNode.
