(* ===== verification/Fill.v ===== *)
(** Storing a response (src/internal/cache handler.go, stream.go, resolver.go):
    the object built from an origin response, the object a 304 or a HEAD
    refreshes, the resolver stored beside a variant, and the storage gate of
    the streaming path over raw header lines. *)

From S2P Require Import Prelude GoStd GoStrings CacheControl HeaderMap RawReq Api HttpDate Engine Cacheable Conditional Cookies Keys Negotiate Vary KeyConfig.

(** ** The route *)

(** The fields of [Handler] the modelled operations read. *)
Record Handler : Type := MkHandler {
  h_policy : option KeyPolicy;
  h_fp : fillPolicy;
  h_stayinAlive : bool;
  h_poolName : bytes;
  h_allowSetCookie : bool;
  h_maxObjectSize : Z;
  h_maxResponseBytes : Z;
  h_maxStreamingBufferBytes : Z;
  h_maxVariants : Z;
  h_syncCDC : bool;
  h_disabled : bool;
  h_refreshBeforeExpiry : bool;
  h_refreshReactiveFirst : bool;
  h_refreshMinHits : Z;
  h_refreshMinScore : Z;
  h_refreshPersistCycles : Z;
  h_refreshMargin : Duration;
}.

(** [fetchResult] of a fetch that succeeded. *)
Record fetchResult : Type := MkFetch {
  res_StatusCode : Z;
  res_Header : Map;
  res_Body : bytes;
  res_Delay : Duration;
}.

(** What a fill reads of its environment: the value of an out-of-range float
    conversion, the draws of the two jitters, and the clock [Expires] is
    compared with. *)
Record fill_env : Type := MkFillEnv { fe_out : Z; fe_draw : Z -> Z; fe_draw_ov : Z -> Z; fe_clock : Time }.

(** ** Surrogate keys *)

Definition flush_field (cur : bytes) : list bytes := if beq cur [] then [] else [cur].

(** [strings.Fields] *)
Fixpoint fields_from (cur s : bytes) : list bytes :=
  match s with
  | [] => flush_field cur
  | a :: s1 =>
      if ascii_space a then flush_field cur ++ fields_from [] s1 else
      match s1 with
      | [] => flush_field (cur ++ [a])
      | b :: s2 =>
          if space2 a b then flush_field cur ++ fields_from [] s2 else
          match s2 with
          | [] => fields_from (cur ++ [a]) s1
          | c :: s3 => if space3 a b c then flush_field cur ++ fields_from [] s3 else fields_from (cur ++ [a]) s1
          end
      end
  end.
Definition Fields (s : bytes) : list bytes := fields_from [] s.

(** [strings.ReplaceAll(s, ",", " ")] *)
Definition commas_to_blanks (s : bytes) : bytes := map (fun c => if beqb c (ch ",") then ch " " else c) s.

Definition seen_cap : Z := 16.

(** [seen] is the filled part of the array, in reverse. *)
Fixpoint surrogate_tags (seen : list bytes) (tags : list bytes) : list bytes :=
  match tags with
  | [] => []
  | tag :: tags =>
      let tag := trim_space tag in
      if beq tag [] then surrogate_tags seen tags
      else if len seen <? seen_cap then
        if existsb (beq tag) seen then surrogate_tags seen tags else tag :: surrogate_tags (tag :: seen) tags
      else tag :: surrogate_tags seen tags
  end.

Definition SurrogateKeyHeaders : list bytes := [Hdr.SurrogateKey; Hdr.CacheTag; Hdr.XCacheTags].

Fixpoint surrogate_from (h : Map) (hdrs : list bytes) : list bytes :=
  match hdrs with
  | [] => []
  | hdr :: hdrs => if beq (Get h hdr) [] then surrogate_from h hdrs else surrogate_tags [] (Fields (commas_to_blanks (Get h hdr)))
  end.
Definition parseSurrogateKeys (h : Map) : list bytes := surrogate_from h SurrogateKeyHeaders.

(** ** Copies of an object (pkg/api/storage.go); the cached heads are left out *)

Definition CloneForReturn (o : Object.t) (body : bytes) : Object.t := {| o with Object.Body := body |}.
Definition CloneForRefresh (o : Object.t) : Object.t := {| o with Object.Header := Clone (Object.Header o) |}.

(** ** The resolver of a variant (resolver.go) *)

Definition buildResolver (variant : Object.t) (primaryKey : Key) : Object.t :=
  {| (CloneForReturn variant []) with
     Object.Key_ := primaryKey; Object.VaryKey := []; Object.Body := []; Object.BodySize := 0;
     Object.PairedKey := Object.Key_ variant |}.

Definition minRefreshTTL : Duration := 5 * Second.

Definition shouldRegisterRefresh (h : Handler) (obj : Object.t) (ri : RequestInfo) : bool :=
  h_refreshBeforeExpiry h && (minRefreshTTL <=? Object.TTL obj) && negb (Object.IsVaryResolver obj)
  && negb (beq (GetURI ri) []).

(** [staleHits*obj.BodySize] wraps. *)
Definition shouldRefresh (h : Handler) (staleHits : Z) (obj : Object.t) : bool :=
  if staleHits <? h_refreshMinHits h then false
  else if (0 <? h_refreshMinScore h) && (i64 (staleHits * Object.BodySize obj) <? h_refreshMinScore h) then false
  else true.

Section Fill.
Context (to_lower : bytes -> bytes) (sum64 : bytes -> Z) (local : bytes -> Z -> option Z).

(** ** buildObject *)

(** The directives a response is stored under, and the line they come from. *)
Definition stored_directives (resMap : Map) : Directives * bytes :=
  let '(cdnCC, hasCDN) := cdnCacheControl resMap in
  if hasCDN then (cdnCC, GetAll resMap Hdr.CDNCacheControl)
  else (ParseCacheControl (GetAll resMap Hdr.CacheControl), GetAll resMap Hdr.CacheControl).

(** The header block as stored: the lines for the ban predicates, no
    client-state line, and a length. *)
Definition stored_header (ri : RequestInfo) (status bodySize : Z) (resMap : Map) : Map :=
  let hdr := SetEntryRaw resMap Hdr.XBouinePath (GetPath ri) in
  let hdr := SetEntryRaw hdr Hdr.XBouineHost (GetHost ri) in
  let hdr := Del hdr Hdr.SetCookie in
  let hdr := Del hdr Hdr.SetLogin in
  if beq (Get hdr Hdr.ContentLength) [] && (0 <? bodySize) && negb (status =? 304)
  then Set_ hdr Hdr.ContentLength (itoa bodySize) else hdr.

Definition swr_window (fp : fillPolicy) (status : Z) (respCC : Directives) : Duration :=
  if 0 <? swrOverrideFor fp status then swrOverrideFor fp status
  else if StaleWhileRevalidSet respCC then StaleWhileRevalid respCC
  else if 0 <? fp_defaultSWR fp then fp_defaultSWR fp else 0.

Definition sie_window (fp : fillPolicy) (respCC : Directives) : Duration :=
  if StaleIfErrorSet respCC then CacheControl.StaleIfError respCC
  else if 0 <? fp_defaultSIE fp then fp_defaultSIE fp else 0.

(** [time.Parse(httpTimeFormat, lm)] of the stored line; unchanged when it is
    absent or does not parse. *)
Definition last_modified (hdr : Map) (old : Time) : Time :=
  let lm := Get hdr Hdr.LastModified in
  if beq lm [] then old else default old (time_parse local httpTimeFormat lm).

Definition buildObject (h : Handler) (env : fill_env) (key : Key) (ri : RequestInfo) (res : fetchResult) (resMap : Map)
    (presetTTL : option Duration) (now : Time) : Object.t :=
  let '(respCC, ccHeader) := stored_directives resMap in
  let status := res_StatusCode res in
  let dateStr := Get resMap Hdr.Date in
  let originAge := correctedInitialAge local (parseOriginAge resMap) (res_Delay res) dateStr now in
  let ttl := match presetTTL with
             | Some ttl => ttl
             | None => fillFinalTTL local (fe_out env) (fe_draw env) (fe_draw_ov env) (fe_clock env) (h_fp h) resMap status respCC originAge now
             end in
  let hdr := stored_header ri status (len (res_Body res)) resMap in
  let vary := effectiveVary to_lower resMap (h_policy h) in
  {| Object.Key_ := key; Object.StatusCode := status; Object.Header := hdr; Object.Body := res_Body res;
     Object.BodySize := len (res_Body res); Object.StoredAt := now; Object.TTL := ttl; Object.ETag := Get resMap Hdr.ETag;
     Object.CacheControl := ccHeader; Object.OriginAge := originAge; Object.HasDate := negb (beq dateStr []);
     Object.VaryValue := vary; Object.RespNoCache := NoCache respCC;
     Object.RespMustRevalidate := MustRevalidate respCC || ProxyRevalidate respCC;
     Object.KeepGrace := h_stayinAlive h; Object.Pool := h_poolName h;
     Object.StaleWhileRevalidate := swr_window (h_fp h) status respCC; Object.StaleIfError := sie_window (h_fp h) respCC;
     Object.LastModified := last_modified hdr zero_time;
     Object.VaryKey := BuildVaryKey to_lower sum64 vary (ReqHeader ri) (h_policy h);
     Object.SurrogateKeys := parseSurrogateKeys resMap;
     Object.HasConnectionList := negb (beq (Get hdr Hdr.Connection) []);
     Object.HasNoCacheFields := negb (beq (NoCacheFields respCC) []);
     Object.PairedKey := zero_key; Object.Hits := 0 |}.

(** The key a response is stored under. *)
Definition storeKey_of (h : Handler) (primaryKey : Key) (reqHeader resMap : Map) : Key :=
  let vary := effectiveVary to_lower resMap (h_policy h) in
  if beq vary [] then primaryKey else VariantKey to_lower sum64 primaryKey vary reqHeader (h_policy h).

(** ** refreshFrom304 *)

Definition refreshFrom304 (h : Handler) (env : fill_env) (stale : Object.t) (res : fetchResult) (ri : RequestInfo) (now : Time) : Object.t :=
  let refreshed := {| (CloneForRefresh stale) with
    Object.StoredAt := now; Object.KeepGrace := h_stayinAlive h; Object.Pool := h_poolName h; Object.Hits := 0 |} in
  let refreshed := MergeHeaders304 refreshed (res_Header res) in
  let hdr := Object.Header refreshed in
  let vary := effectiveVary to_lower hdr (h_policy h) in
  let cc := Get hdr Hdr.CacheControl in
  let newCC := ParseCacheControl cc in
  let '(ttl, ok) := FreshnessLifetime local newCC (Get hdr) in
  let ttl := if ok then ttl else Object.TTL refreshed in
  let ov := overrideTTLFor (fe_out env) (fe_draw_ov env) (h_fp h) (Object.StatusCode refreshed) in
  let swr := swrOverrideFor (h_fp h) (Object.StatusCode refreshed) in
  let newETag := Get (res_Header res) Hdr.ETag in
  {| refreshed with
     Object.HasDate := Has hdr Hdr.Date;
     Object.VaryValue := vary;
     Object.VaryKey := if negb (beq vary []) && negb (varyContainsStar vary)
                       then BuildVaryKey to_lower sum64 vary (ReqHeader ri) (h_policy h) else [];
     Object.CacheControl := cc;
     Object.RespNoCache := NoCache newCC;
     Object.RespMustRevalidate := MustRevalidate newCC || ProxyRevalidate newCC;
     Object.TTL := if 0 <? ov then ov else ttl;
     Object.StaleWhileRevalidate := if 0 <? swr then swr else Object.StaleWhileRevalidate refreshed;
     Object.OriginAge := correctedInitialAge local (parseOriginAge hdr) (res_Delay res) (Get hdr Hdr.Date) now;
     Object.ETag := if negb (beq newETag []) then newETag else Object.ETag refreshed;
     Object.LastModified := last_modified hdr (Object.LastModified refreshed) |}.

(** ** Freshening from a HEAD response *)

(** [strconv.Atoi] *)
Definition headFreshenAllowed (stale : Object.t) (res : fetchResult) : bool :=
  let e := Get (res_Header res) Hdr.ETag in
  let lm := Get (res_Header res) Hdr.LastModified in
  let cl := Get (res_Header res) Hdr.ContentLength in
  if negb (beq e []) && negb (etagMatch e (Object.ETag stale)) then false
  else if negb (beq lm []) &&
    (is_zero (parseHTTPDate local lm) || is_zero (Object.LastModified stale)
     || negb (Object.LastModified stale =? parseHTTPDate local lm)) then false
  else if negb (beq cl []) && match parse_int64 cl with Some n => negb (n =? Object.BodySize stale) | None => true end then false
  else true.

(** The entry the HEAD response leaves, when it may freshen the stored one. *)
Definition head_freshened (h : Handler) (env : fill_env) (stale : Object.t) (res : fetchResult) (ri : RequestInfo) (now : Time)
    : option Object.t :=
  if negb (res_StatusCode res =? 200) && negb (res_StatusCode res =? 410) then None
  else if (0 <? len (res_Body res)) || negb (headFreshenAllowed stale res) then None
  else Some (refreshFrom304 h env stale res ri now).

(** ** The storage gate of the streaming path (stream.go) *)

(** [streamFetchResult]: [sf_resp] is the fasthttp response (its header and its
    [ContentLength()]) or nil on the in-process upstream, whose header map is
    [sf_map]. *)
Record streamFetchResult : Type := MkStream {
  sf_resp : option (FastHeader * Z);
  sf_map : Map;
  sf_StatusCode : Z;
  sf_Delay : Duration;
  sf_buffered : bool;
}.

(** [sf.Header.ToMap()] *)
Definition sf_toMap (sf : streamFetchResult) : Map :=
  match sf_resp sf with Some (hdr, _) => FromFastHTTP (All hdr) | None => sf_map sf end.

Definition clientStateInFastHTTP (hdr : FastHeader) : bool :=
  (0 <? len (Peek hdr Hdr.SetCookie)) || (0 <? len (Peek hdr Hdr.SetLogin)).

(** [joinedCacheControlBytes] and [joinedVaryBytes]: [append] past the 512
    bytes of the stack buffer moves to the heap. *)
Definition joined_lines (hdr : FastHeader) (k : bytes) : bytes :=
  match PeekAll hdr k with
  | [] => []
  | [v] => v
  | v :: vs => fold_left (fun joined v => joined ++ bs ", " ++ v) vs v
  end.
Definition joinedCacheControlBytes (hdr : FastHeader) : bytes := joined_lines hdr Hdr.CacheControl.
Definition joinedVaryBytes (hdr : FastHeader) : bytes := joined_lines hdr Hdr.Vary.

Definition trim_blanks (token : bytes) : bytes := drop_while_end ows (drop_while ows token).

(** One round per token, and each consumes a byte. *)
Fixpoint star_loop (fuel : nat) (vary : bytes) : bool :=
  match fuel, vary with
  | _, [] => false
  | O, _ => false
  | S fuel, _ =>
      let '(token, rest) := span (fun c => negb (beqb c (ch ","))) vary in
      if beq (trim_blanks token) (bs "*") then true else star_loop fuel (drop 1 rest)
  end.
Definition varyContainsStarBytes (vary : bytes) : bool := star_loop (length vary) vary.

Definition isBlockedByDirectives (h : Handler) (hdr : FastHeader) (respCC : Directives) (status : Z) : bool :=
  if NoStore respCC && (negb (MustUnderstand respCC) || negb (isUnderstoodStatus status)) then true
  else if Private respCC then true
  else if varyContainsStarBytes (joinedVaryBytes hdr) then true
  else negb (h_allowSetCookie h) && clientStateInFastHTTP hdr.

Definition isBlockedByPragmaBytes (hdr : FastHeader) (respCC : Directives) : bool :=
  if negb (beq (Peek hdr Hdr.Pragma) (bs "no-cache")) then false
  else negb (MaxAgeSet respCC) && negb (SMaxAgeSet respCC)
       && (len (Peek hdr Hdr.Expires) =? 0) && (len (Peek hdr Hdr.LastModified) =? 0).

Definition isBytesBlocked (h : Handler) (hdr : FastHeader) (respCC : Directives) (ri : RequestInfo) (status : Z) : bool :=
  if isBlockedByDirectives h hdr respCC status then true
  else if negb (beq (Get (ReqHeader ri) Hdr.Authorization) [])
          && (negb (Public respCC) && negb (MustRevalidate respCC) && negb (SMaxAgeSet respCC)) then true
  else isBlockedByPragmaBytes hdr respCC.

Definition hasBytesFreshness (h : Handler) (hdr : FastHeader) (respCC : Directives) (status : Z) : bool :=
  if MaxAgeSet respCC || SMaxAgeSet respCC then true
  else if (0 <? len (Peek hdr Hdr.Expires)) && negb (is_zero (parseHTTPDate local (Peek hdr Hdr.Expires))) then true
  else if (0 <? len (Peek hdr Hdr.LastModified)) && (isHeuristicStatus status || Public respCC) then true
  else if NoCache respCC && (0 <? len (Peek hdr Hdr.ETag)) && isHeuristicStatus status then true
  else if Cacheable (fp_neg (h_fp h)) status then true
  else (0 <? fp_defaultTTL (h_fp h)) && isHeuristicStatus status.

Definition too_long (h : Handler) (cl : Z) : bool := (0 <? h_maxObjectSize h) && ((0 <? cl) && (h_maxObjectSize h <? cl)).

(** [None] is the nil dereference of [sf.resp]. *)
Definition isResponseCacheable (h : Handler) (sf : streamFetchResult) (ri : RequestInfo) (resMap : Map) : option bool :=
  let parsed := newParsedResponse (sf_StatusCode sf) (ReqHeader ri) resMap in
  let cacheable := isCacheableWithDefault local parsed (fp_neg (h_fp h)) (fp_defaultTTL (h_fp h)) in
  if cacheable && negb (h_allowSetCookie h) && clientStateInMap resMap then Some false
  else if cacheable && (0 <? h_maxObjectSize h) then
    match sf_resp sf with
    | None => None
    | Some (_, cl) => Some (if too_long h cl then false else cacheable)
    end
  else Some cacheable.

Definition isResponseCacheableBytes (h : Handler) (sf : streamFetchResult) (hdr : FastHeader) (cl : Z) (ri : RequestInfo) : option bool :=
  let status := sf_StatusCode sf in
  if status =? 304 then Some false
  else if 0 <? len (Peek hdr Hdr.CDNCacheControl) then isResponseCacheable h sf ri (sf_toMap sf)
  else
    let respCC := ParseCacheControlBytes (joinedCacheControlBytes hdr) in
    if isBytesBlocked h hdr respCC ri status then Some false
    else if negb (hasBytesFreshness h hdr respCC status) then Some false
    else Some (negb (too_long h cl)).

(** The gate as [streamMiss] applies it. *)
Definition stream_cacheable (h : Handler) (sf : streamFetchResult) (ri : RequestInfo) : option bool :=
  match sf_resp sf with
  | Some (hdr, cl) => isResponseCacheableBytes h sf hdr cl ri
  | None => isResponseCacheable h sf ri (sf_toMap sf)
  end.

(** unstorable.go *)
Definition responseRefusesSharedStorage (sf : streamFetchResult) : bool :=
  let by_map := refusesSharedStorage (p_respCC (newParsedResponse (sf_StatusCode sf) NewMap (sf_toMap sf))) (sf_StatusCode sf) in
  match sf_resp sf with
  | None => by_map
  | Some (hdr, _) =>
      if 0 <? len (Peek hdr Hdr.CDNCacheControl) then by_map
      else refusesSharedStorage (ParseCacheControlBytes (joinedCacheControlBytes hdr)) (sf_StatusCode sf)
  end.
End Fill.

(** ** Reading raw response lines *)

(** What the code relies on of a fasthttp response header: canonical names, the
    first line of a field by [Peek] and all of them by [PeekAll], except
    Set-Cookie, whose lines fasthttp keeps apart and [Peek] renders. *)
Class RespLaws (hdr : FastHeader) : Prop := {
  resp_canonical : Forall (fun kv => canonicalize kv.1 = kv.1) (All hdr);
  resp_peek : forall f, f <> Hdr.SetCookie -> Peek hdr f = first_value (canonicalize f) (All hdr);
  resp_peekAll : forall f, f <> Hdr.SetCookie -> PeekAll hdr f = all_values (canonicalize f) (All hdr);
  resp_cookie : Peek hdr Hdr.SetCookie = [] <-> first_value Hdr.SetCookie (All hdr) = [];
}.

(** The fields the gates read, and that none of their lines is empty: a header
    map is built without the empty lines, which [Peek] and [PeekAll] see. *)
Definition gate_fields : list bytes :=
  [Hdr.CacheControl; Hdr.CDNCacheControl; Hdr.Vary; Hdr.Pragma; Hdr.Expires; Hdr.LastModified; Hdr.ETag; Hdr.SetCookie; Hdr.SetLogin].
Definition gate_field (k : bytes) : bool := existsb (beq (canonicalize k)) gate_fields.
Definition full_lines (hdr : FastHeader) : Prop := Forall (fun kv => kv.2 <> [] \/ existsb (beq kv.1) gate_fields = false) (All hdr).

Definition full_line (kv : bytes * bytes) : bool := negb ((len kv.1 =? 0) || (len kv.2 =? 0)).

Lemma append_full_pairs (l : list (bytes * bytes)) : forall m,
  fold_left (fun hm '(k, v) => if (len k =? 0) || (len v =? 0) then hm else AppendEntryCanonical hm k v) l m
  = fold_left (fun hm '(k, v) => AppendEntryCanonical hm k v) (List.filter full_line l) m.
Proof.
  induction l as [|[k v] l IH]; intros m; [done|]. cbn [fold_left List.filter]. unfold full_line at 1. cbn [fst snd].
  destruct (_ || _); cbn [negb fold_left]; apply IH.
Qed.

Section Lines.
Context (hdr : FastHeader) {Hlaws : RespLaws hdr} (Hfull : full_lines hdr).

Lemma full_line_values (k : bytes) (l : list (bytes * bytes)) : Forall (fun kv => kv.2 <> [] \/ existsb (beq kv.1) gate_fields = false) l ->
  existsb (beq k) gate_fields = true -> all_values k (List.filter full_line l) = all_values k l /\ Forall (fun v => v <> []) (all_values k l).
Proof.
  intros Hl Hk. unfold all_values. induction Hl as [|[f v] l Hv _ [IH1 IH2]]; [done|]. cbn [List.filter]. cbn [fst snd] in Hv.
  destruct (beq f k) eqn:Ef; cbn [fst].
  - rewrite Ef. apply beq_eq in Ef as ->. destruct Hv as [Hv|Hv]; [|congruence]. assert (full_line (k, v) = true) as ->.
    { unfold full_line. cbn [fst snd]. destruct v as [|c v]; [done|]. destruct k as [|d k]; [done|]. rewrite !len_cons. pose proof (len_nonneg k). pose proof (len_nonneg v).
      by rewrite (proj2 (Z.eqb_neq _ 0)), (proj2 (Z.eqb_neq _ 0)) by lia. }
    cbn [List.filter fst]. rewrite beq_refl. cbn [map snd]. rewrite IH1. split; [done|by constructor].
  - destruct (full_line (f, v)); cbn [List.filter fst]; rewrite ?Ef; done.
Qed.

Lemma resp_map_lines : wf (FromFastHTTP (All hdr)) /\
  forall k, gate_field k = true -> all_values (canonicalize k) (pairs (FromFastHTTP (All hdr))) = all_values (canonicalize k) (All hdr).
Proof.
  unfold FromFastHTTP. rewrite append_full_pairs.
  assert (Forall (fun kv : bytes * bytes => canonicalize kv.1 = kv.1) (List.filter full_line (All hdr))) as Hc.
  { pose proof resp_canonical as Hc. rewrite List.Forall_forall in *. intros kv [Hkv _]%filter_In. by apply Hc. }
  destruct (append_canonical_pairs _ Hc NewMap wf_NewMap) as [Hw E].
  split; [by apply wf_SortEntries|]. intros k Hk. rewrite all_values_SortEntries, E. by apply full_line_values.
Qed.

Lemma resp_map_Get (k : bytes) : gate_field k = true -> Get (FromFastHTTP (All hdr)) k = first_value (canonicalize k) (All hdr).
Proof. destruct resp_map_lines as [Hw E]. intros Hk. by rewrite (Get_pairs _ _ Hw), !first_value_all, E. Qed.

Lemma resp_map_GetAll (k : bytes) : gate_field k = true -> GetAll (FromFastHTTP (All hdr)) k = join (bs ", ") (all_values (canonicalize k) (All hdr)).
Proof. destruct resp_map_lines as [Hw E]. intros Hk. by rewrite (GetAll_pairs _ _ Hw), E. Qed.

Lemma peek_is_Get (k : bytes) : k <> Hdr.SetCookie -> gate_field k = true -> Peek hdr k = Get (FromFastHTTP (All hdr)) k.
Proof. intros H Hk. by rewrite resp_map_Get, resp_peek. Qed.

Lemma joined_is_GetAll (k : bytes) : k <> Hdr.SetCookie -> gate_field k = true -> joined_lines hdr k = GetAll (FromFastHTTP (All hdr)) k.
Proof.
  intros H Hk. rewrite resp_map_GetAll by done. unfold joined_lines. rewrite resp_peekAll by done.
  destruct (all_values _ _) as [|v [|w l]]; [done|done|]. rewrite join_concat.
  generalize (w :: l). clear. intros l. revert v. induction l as [|w l IH]; intros v; cbn [fold_left map concat]; [by rewrite app_nil_r|].
  by rewrite IH, <- !app_assoc.
Qed.

Lemma client_state_is_map : clientStateInFastHTTP hdr = clientStateInMap (FromFastHTTP (All hdr)).
Proof.
  unfold clientStateInFastHTTP, clientStateInMap. rewrite (peek_is_Get Hdr.SetLogin) by done.
  assert (forall s : bytes, (0 <? len s) = negb (beq s [])) as El.
  { intros [|c s]; [done|]. rewrite len_cons. pose proof (len_nonneg s). by rewrite (proj2 (Z.ltb_lt 0 _)) by lia. }
  rewrite !El. f_equal. f_equal. rewrite resp_map_Get by done. change (canonicalize Hdr.SetCookie) with Hdr.SetCookie.
  apply Bool.eq_iff_eq_true. rewrite !beq_eq. apply resp_cookie.
Qed.

Lemma no_line_GetAll (k : bytes) : gate_field k = true -> Get (FromFastHTTP (All hdr)) k = [] -> GetAll (FromFastHTTP (All hdr)) k = [].
Proof.
  intros Hk. rewrite resp_map_Get, resp_map_GetAll, first_value_all by done.
  destruct (full_line_values (canonicalize k) (All hdr) Hfull Hk) as [_ Hv]. destruct Hv as [|v l Hv _]; done.
Qed.
End Lines.

(** A value with no whitespace but blanks and tabs, in ASCII. *)
Definition plain_value (v : bytes) : bool := forallb (fun c => (Zb c <? 128) && (negb (ascii_space c) || ows c)) v.

Lemma plain_trim_left (p2 : byte -> byte -> bool) (p3 : byte -> byte -> byte -> bool) (s : bytes) :
  (forall a b, Zb a < 128 -> Zb b < 128 -> p2 a b = false) -> (forall a b c, Zb a < 128 -> Zb b < 128 -> p3 a b c = false) ->
  plain_value s = true -> trim_left_with p2 p3 s = drop_while ows s.
Proof.
  intros H2 H3. induction s as [|a s IH]; [done|]. cbn [plain_value forallb trim_left_with drop_while]. intros Hp.
  apply andb_prop in Hp as [[Ha Hs]%andb_prop Hp]. apply Z.ltb_lt in Ha.
  assert (ascii_space a = ows a) as Ea.
  { destruct (ascii_space a) eqn:E; cbn in Hs; [done|]. destruct (ows a) eqn:Eo; [|done]. revert E Eo. clear. each_byte a. }
  rewrite <- Ea. destruct (ascii_space a); [by apply IH|]. destruct s as [|b s]; [done|].
  assert (Zb b < 128) as Hb by (cbn in Hp; apply andb_prop in Hp as [[Hb _]%andb_prop _]; by apply Z.ltb_lt).
  rewrite H2 by done. destruct s as [|c s]; [done|]. by rewrite H3.
Qed.

Lemma plain_value_rev (s : bytes) : plain_value s = true -> plain_value (rev s) = true.
Proof. unfold plain_value. rewrite !forallb_forall. intros H x Hx%in_rev. by apply H. Qed.

Lemma drop_while_tail (p : byte -> bool) (s : bytes) : exists l, s = l ++ drop_while p s.
Proof. induction s as [|a s [l E]]; [by exists []|]. simpl. destruct (p a); [exists (a :: l); by rewrite E at 1|by exists []]. Qed.

Lemma plain_trim (s : bytes) : plain_value s = true -> trim_space s = trim_blanks s.
Proof.
  intros Hp. unfold trim_space, trim_left, trim_right, trim_blanks, drop_while_end.
  rewrite (plain_trim_left space2 space3 s);
    [|intros a b Ha _; unfold space2; by rewrite (proj2 (Z.eqb_neq (Zb a) 194)) by lia
     |intros a b c Ha _; unfold space3; by rewrite (proj2 (Z.eqb_neq (Zb a) 225)), (proj2 (Z.eqb_neq (Zb a) 226)), (proj2 (Z.eqb_neq (Zb a) 227)) by lia
     |done].
  f_equal. apply plain_trim_left.
  - intros a b Ha Hb. unfold space2. by rewrite (proj2 (Z.eqb_neq (Zb b) 194)) by lia.
  - intros a b c Ha Hb. unfold space3. rewrite (proj2 (Z.eqb_neq (Zb b) 154)), (proj2 (Z.eqb_neq (Zb b) 128)), (proj2 (Z.eqb_neq (Zb b) 129)) by lia.
    by rewrite !andb_false_r.
  - apply plain_value_rev. destruct (drop_while_tail ows s) as [l E]. revert Hp. rewrite E at 1. unfold plain_value.
    rewrite forallb_app. by intros [_ H]%andb_prop.
Qed.

Lemma star_loop_spec (fuel : nat) (v : bytes) : (length v <= fuel)%nat ->
  star_loop fuel v = existsb (fun f => beq (trim_blanks f) (bs "*")) (split_byte (ch ",") v).
Proof.
  revert v. induction fuel as [|fuel IH]; intros v Hf; [by destruct v; [|cbn in Hf; lia]|].
  destruct v as [|c v0]; [done|]. set (v := c :: v0) in *. change (star_loop (S fuel) v) with
    (let '(token, rest) := span (fun c => negb (beqb c (ch ","))) v in
     if beq (trim_blanks token) (bs "*") then true else star_loop fuel (drop 1 rest)).
  assert (forall s, let '(token, rest) := span (fun c => negb (beqb c (ch ","))) s in
    split_byte (ch ",") s = match rest with [] => [token] | _ :: r => token :: split_byte (ch ",") r end /\
    (length rest <= length s)%nat) as Hspan.
  { clear. induction s as [|a s IH]; [done|]. cbn [span split_byte]. destruct (beqb a (ch ",")) eqn:E; cbn [negb]; [split; [done|cbn; lia]|].
    destruct (span _ s) as [token rest]. destruct IH as [-> Hl]. split; [|cbn; lia]. by destruct rest. }
  specialize (Hspan v). destruct (span _ v) as [token rest]. destruct Hspan as [-> Hl].
  destruct rest as [|r rest]; cbn [existsb drop]; destruct (beq (trim_blanks token) (bs "*")); try done; cbn [orb].
  - by destruct fuel.
  - apply IH. cbn in Hl, Hf. lia.
Qed.

Lemma plain_split (v : bytes) : plain_value v = true -> Forall (fun f => plain_value f = true) (split_byte (ch ",") v).
Proof.
  induction v as [|c v IH]; [intros _; by repeat constructor|]. cbn [plain_value forallb split_byte]. intros [Hc Hv]%andb_prop.
  specialize (IH Hv). destruct (beqb c (ch ",")); [by constructor|]. destruct (split_byte (ch ",") v) as [|w ws]; [by repeat constructor; cbn; rewrite Hc|].
  inversion IH; subst. constructor; [|done]. cbn. by rewrite Hc.
Qed.

Lemma star_bytes_eq (v : bytes) : plain_value v = true -> varyContainsStarBytes v = varyContainsStar v.
Proof.
  intros Hp. unfold varyContainsStarBytes, varyContainsStar. rewrite star_loop_spec by done.
  apply plain_split in Hp. induction Hp as [|f l Hf _ IH]; [done|]. cbn [existsb]. by rewrite IH, plain_trim.
Qed.

(** ** The gates agree *)

Section Gates.
Context (local : bytes -> Z -> option Z) (h : Handler) (ri : RequestInfo) (status : Z) (hdr : FastHeader)
  {Hlaws : RespLaws hdr} (Hfull : full_lines hdr) (Hplain : plain_value (joinedVaryBytes hdr) = true).

Definition line_map : Map := FromFastHTTP (All hdr).
Definition line_directives : Directives := ParseCacheControl (GetAll line_map Hdr.CacheControl).

(** What both gates refuse whatever the client state. *)
Definition refused : bool :=
  (NoStore line_directives && (negb (MustUnderstand line_directives) || negb (isUnderstoodStatus status)))
  || Private line_directives || hasVaryStar line_map
  || (negb (beq (Get (ReqHeader ri) Hdr.Authorization) [])
      && (negb (Public line_directives) && negb (MustRevalidate line_directives) && negb (SMaxAgeSet line_directives)))
  || isBlockedByPragma line_directives line_map.

Lemma len_pos (s : bytes) : (0 <? len s) = negb (beq s []).
Proof. destruct s as [|c s]; [done|]. rewrite len_cons. pose proof (len_nonneg s). by rewrite (proj2 (Z.ltb_lt 0 _)) by lia. Qed.

Lemma len_zero (s : bytes) : (len s =? 0) = beq s [].
Proof. destruct s as [|c s]; [done|]. rewrite len_cons. pose proof (len_nonneg s). by rewrite (proj2 (Z.eqb_neq _ 0)) by lia. Qed.

Lemma bytes_blocked_eq :
  isBytesBlocked h hdr line_directives ri status
  = refused || (negb (h_allowSetCookie h) && clientStateInMap line_map).
Proof using Hlaws Hfull Hplain.
  unfold isBytesBlocked, isBlockedByDirectives, isBlockedByPragmaBytes, refused, hasVaryStar, isBlockedByPragma.
  rewrite client_state_is_map, star_bytes_eq by done. unfold joinedVaryBytes. rewrite joined_is_GetAll by done.
  rewrite !peek_is_Get, !len_zero by done. fold line_map.
  generalize (NoStore line_directives && (negb (MustUnderstand line_directives) || negb (isUnderstoodStatus status))).
  generalize (Private line_directives), (varyContainsStar (GetAll line_map Hdr.Vary)), (negb (h_allowSetCookie h) && clientStateInMap line_map).
  generalize (beq (Get (ReqHeader ri) Hdr.Authorization) []), (negb (Public line_directives) && negb (MustRevalidate line_directives)).
  generalize (beq (Get line_map Hdr.Pragma) (bs "no-cache")), (negb (MaxAgeSet line_directives)), (SMaxAgeSet line_directives).
  generalize (beq (Get line_map Hdr.Expires) []), (beq (Get line_map Hdr.LastModified) []).
  intros. repeat match goal with b : bool |- _ => destruct b end; reflexivity.
Qed.

Lemma map_blocked_eq : isCacheBlocked status line_directives false (ReqHeader ri) line_map
  = refused || isBlockedByClientState line_directives line_map.
Proof.
  unfold isCacheBlocked, refused. cbn [negb andb].
  generalize (NoStore line_directives && (negb (MustUnderstand line_directives) || negb (isUnderstoodStatus status))).
  generalize (negb (beq (Get (ReqHeader ri) Hdr.Authorization) [])
    && (negb (Public line_directives) && negb (MustRevalidate line_directives) && negb (SMaxAgeSet line_directives))).
  generalize (Private line_directives), (hasVaryStar line_map), (isBlockedByPragma line_directives line_map),
    (isBlockedByClientState line_directives line_map).
  intros. repeat match goal with b : bool |- _ => destruct b end; reflexivity.
Qed.

Lemma map_gate_eq : cdnCacheControl line_map = (Directives0, false) ->
  isCacheableWithDefault local (newParsedResponse status (ReqHeader ri) line_map) (fp_neg (h_fp h)) (fp_defaultTTL (h_fp h))
  = negb (status =? 304) && negb (refused || isBlockedByClientState line_directives line_map)
    && hasBytesFreshness local h hdr line_directives status.
Proof using Hlaws Hfull.
  intros Hcdn. unfold newParsedResponse. rewrite Hcdn. unfold isCacheableWithDefault, isCacheable, hasBytesFreshness.
  cbn [p_status p_respCC p_hasCDN p_reqHeader p_respHeader]. fold line_directives. rewrite map_blocked_eq, !peek_is_Get, !len_pos by done. fold line_map.
  rewrite (Z.leb_antisym 0). destruct (status =? 304) eqn:E3.
  { apply Z.eqb_eq in E3. cbn [negb andb]. assert (isHeuristicStatus status = false) as -> by (by rewrite E3). by destruct (0 <? _), (_ || _). }
  assert (isBlockedByPragma line_directives line_map = true -> refused = true) as Hp.
  { unfold refused. intros ->. by rewrite orb_true_r. }
  revert Hp. generalize refused, (isBlockedByPragma line_directives line_map), (isBlockedByClientState line_directives line_map).
  generalize (MaxAgeSet line_directives || SMaxAgeSet line_directives), (isHeuristicStatus status), (Public line_directives),
    (NoCache line_directives), (beq (Get line_map Hdr.ETag) []), (beq (Get line_map Hdr.LastModified) []), (beq (Get line_map Hdr.Expires) []),
    (is_zero (parseHTTPDate local (Get line_map Hdr.Expires))), (Cacheable (fp_neg (h_fp h)) status), (0 <? fp_defaultTTL (h_fp h)).
  intros ms heur pub nc et lm ex iz neg dt rf pr cs Hp.
  destruct rf, cs; cbn [orb negb andb]; try (by destruct dt). destruct pr; [by specialize (Hp eq_refl)|].
  by destruct ms, heur, pub, nc, et, lm, ex, iz, neg, dt.
Qed.
End Gates.

Lemma not_modified_uncacheable (local : bytes -> Z -> option Z) (req resp : Map) (neg : option StatusTTLPolicy) (ttl : Duration) :
  isCacheableWithDefault local (newParsedResponse 304 req resp) neg ttl = false.
Proof.
  unfold isCacheableWithDefault, isCacheable.
  assert (p_status (newParsedResponse 304 req resp) = 304) as -> by (unfold newParsedResponse; by destruct (cdnCacheControl resp)).
  change (304 =? 304) with true. change (isHeuristicStatus 304) with false. cbn iota.
  destruct (ttl <=? 0); [done|]. by destruct (isCacheBlocked _ _ _ _ _).
Qed.

(** ** Theorems on the gate *)

(** C10. The streaming path decides over raw header lines whether a response is
    stored, without building a header map. Its decision is that of the map
    path on the same response, status, size limit and client-state rule
    included, when the fields the gate reads have no empty line and Vary no
    control characters, and when, on a route that allows client-state headers, a
    response with such a header has a max-age or s-maxage (otherwise the two part:
    [gates_part_on_allowed_cookie]). *)
Theorem stream_gate_exact (local : bytes -> Z -> option Z) (h : Handler) (ri : RequestInfo) (sf : streamFetchResult)
    (hdr : FastHeader) (cl : Z) (Hlaws : RespLaws hdr) (Hfull : full_lines hdr)
    (Hplain : plain_value (joinedVaryBytes hdr) = true) (Hsf : sf_resp sf = Some (hdr, cl))
    (Hstate : h_allowSetCookie h = true -> clientStateInMap (sf_toMap sf) = true ->
              MaxAgeSet (line_directives hdr) = true \/ SMaxAgeSet (line_directives hdr) = true) :
  isResponseCacheableBytes local h sf hdr cl ri = isResponseCacheable local h sf ri (sf_toMap sf) /\
  (isResponseCacheableBytes local h sf hdr cl ri = Some true ->
   isCacheableWithDefault local (newParsedResponse (sf_StatusCode sf) (ReqHeader ri) (sf_toMap sf)) (fp_neg (h_fp h)) (fp_defaultTTL (h_fp h)) = true /\
   skipStoreReason (h_allowSetCookie h) 0 (sf_toMap sf) 0 = []).
Proof.
  assert (isResponseCacheableBytes local h sf hdr cl ri = isResponseCacheable local h sf ri (sf_toMap sf)) as E.
  { unfold isResponseCacheableBytes. rewrite len_pos. destruct (beq (Peek hdr Hdr.CDNCacheControl) []) eqn:Ec; cbn [negb].
    - rewrite ParseCacheControlBytes_eq. unfold joinedCacheControlBytes. rewrite joined_is_GetAll by done. fold (line_map hdr) (line_directives hdr).
      assert (sf_toMap sf = line_map hdr) as Em by (unfold sf_toMap; by rewrite Hsf).
      unfold isResponseCacheable. rewrite Em in *. rewrite map_gate_eq, Hsf, bytes_blocked_eq by
        (try done; unfold cdnCacheControl; apply beq_eq in Ec; rewrite peek_is_Get in Ec by done; unfold line_map; by rewrite no_line_GetAll).
      destruct (sf_StatusCode sf =? 304); cbn [negb andb]; [done|]. unfold too_long, isBlockedByClientState.
      revert Hstate. generalize (hasBytesFreshness local h hdr (line_directives hdr) (sf_StatusCode sf)), (refused ri (sf_StatusCode sf) hdr),
        (clientStateInMap (line_map hdr)), (h_allowSetCookie h), (MaxAgeSet (line_directives hdr)), (SMaxAgeSet (line_directives hdr)),
        (0 <? h_maxObjectSize h), (0 <? cl), (h_maxObjectSize h <? cl).
      intros fr rf cs al ma sm mo c1 c2 Hs. destruct al, cs; [destruct (Hs eq_refl eq_refl) as [-> | ->]|..]; clear Hs;
        destruct rf, fr, mo; try (by destruct c1, c2); repeat match goal with b : bool |- _ => destruct b end; reflexivity.
    - destruct (sf_StatusCode sf =? 304) eqn:E3; [|done]. apply Z.eqb_eq in E3. unfold isResponseCacheable. by rewrite E3, not_modified_uncacheable. }
  split; [done|]. rewrite E. unfold isResponseCacheable, skipStoreReason. rewrite Hsf. intros Ht.
  destruct (isCacheableWithDefault _ _ _ _) eqn:Ec; cbn [andb] in Ht; [|by destruct (clientStateInMap _)]. split; [done|].
  destruct (negb _ && _); [done|]. by destruct (0 <? _).
Qed.

(** ** The stored header block *)

Lemma SetEntryRaw_values (m : Map) (k v k' : bytes) : wf m -> canonicalize k = k ->
  wf (SetEntryRaw m k v) /\
  all_values k' (pairs (SetEntryRaw m k v)) = (if beq k k' then v :: tail (all_values k' (pairs m)) else all_values k' (pairs m)).
Proof.
  intros Hw Hk. unfold SetEntryRaw, find_entry. destruct (find _ (entries m)) as [e|] eqn:Ef.
  - destruct (update_first m _ e v Hw Ef) as (Hw' & l1 & l2 & E & Hp & Hl & ->). split; [done|]. apply beq_eq in Hp. rewrite Hp.
    unfold pairs. rewrite E, map_app, !all_values_app. cbn [map]. rewrite !all_values_cons, Hp.
    destruct (beq k k') eqn:Ek; [|done]. apply beq_eq in Ek. subst k'.
    assert (all_values k (map (fun e => (key e, value_at m e)) l1) = []) as ->; [|done].
    unfold all_values. rewrite filter_none_of_false; [done|]. eapply Forall_impl; [by apply (keys_differ m)|]. intros kv Hkv. by apply beq_neq.
  - destruct (wf_AppendEntryCanonical m k v Hw Hk) as [Hw' Hp]. split; [exact Hw'|]. unfold AppendEntryCanonical in Hp. rewrite Hp, all_values_app, all_values_cons.
    destruct (beq k k') eqn:Ek; [|by rewrite app_nil_r]. apply beq_eq in Ek. subst k'.
    assert (all_values k (pairs m) = []) as ->; [|done].
    unfold all_values, pairs. rewrite filter_none_of_false; [done|]. apply find_none_forall in Ef.
    eapply Forall_impl; [by apply (keys_differ m)|]. intros kv Hkv. by apply beq_neq.
Qed.

Definition stamped : list bytes := [Hdr.XBouinePath; Hdr.XBouineHost; Hdr.SetCookie; Hdr.SetLogin; Hdr.ContentLength].

Lemma in_names_neq (k : bytes) (l : list bytes) : existsb (beq k) l = false -> Forall (fun n => beq n k = false) l.
Proof.
  induction l as [|n l IH]; cbn; [by constructor|]. intros [H1 H2]%orb_false_elim. constructor; [|by apply IH].
  apply beq_neq in H1. apply beq_neq. congruence.
Qed.

Lemma stored_header_lines (ri : RequestInfo) (status size : Z) (m : Map) : wf m ->
  let s := stored_header ri status size m in
  wf s /\ Get s Hdr.XBouinePath = GetPath ri /\ Get s Hdr.XBouineHost = GetHost ri /\
  (Get m Hdr.ContentLength = [] -> 0 < size -> status <> 304 -> Get s Hdr.ContentLength = itoa size) /\
  forall k, existsb (beq k) stamped = false -> all_values k (pairs s) = all_values k (pairs m).
Proof.
  intros Hw. unfold stored_header.
  set (m1 := SetEntryRaw m Hdr.XBouinePath (GetPath ri)). set (m2 := SetEntryRaw m1 Hdr.XBouineHost (GetHost ri)).
  set (m4 := Del (Del m2 Hdr.SetCookie) Hdr.SetLogin).
  assert (wf m1) as H1 by (by apply (SetEntryRaw_values m _ _ [])). assert (wf m2) as H2 by (by apply (SetEntryRaw_values m1 _ _ [])).
  assert (wf m4) as H4 by (by apply wf_Del, wf_Del).
  assert (forall k, beq Hdr.SetCookie k = false -> beq Hdr.SetLogin k = false -> all_values k (pairs m4) = all_values k (pairs m2)) as V4.
  { intros k E1 E2. unfold m4. rewrite !Del_values.
    change (canonicalize Hdr.SetCookie) with Hdr.SetCookie. change (canonicalize Hdr.SetLogin) with Hdr.SetLogin. by rewrite E1, E2. }
  assert (forall k, all_values k (pairs m2) = if beq Hdr.XBouineHost k then GetHost ri :: tail (all_values k (pairs m1)) else all_values k (pairs m1)) as V2
    by (intros k; by apply SetEntryRaw_values).
  assert (forall k, all_values k (pairs m1) = if beq Hdr.XBouinePath k then GetPath ri :: tail (all_values k (pairs m)) else all_values k (pairs m)) as V1
    by (intros k; by apply SetEntryRaw_values).
  assert (forall k c, Get (if c : bool then Set_ m4 Hdr.ContentLength (itoa size) else m4) k
    = if c && beq Hdr.ContentLength (canonicalize k) then itoa size else first_value (canonicalize k) (pairs m4)) as VG.
  { intros k [|]; cbn [andb]; [|by rewrite Get_pairs]. destruct (Set_spec m4 Hdr.ContentLength (itoa size) H4) as [Hw5 Hv]. by rewrite Get_pairs, Hv. }
  cbn zeta. split_and!.
  - case_match; [|done]. by apply Set_spec.
  - rewrite VG, andb_false_r, first_value_all. change (canonicalize Hdr.XBouinePath) with Hdr.XBouinePath. by rewrite V4, V2, V1.
  - rewrite VG, andb_false_r, first_value_all. change (canonicalize Hdr.XBouineHost) with Hdr.XBouineHost. by rewrite V4, V2.
  - intros E Hs H3. rewrite VG. change (canonicalize Hdr.ContentLength) with Hdr.ContentLength. rewrite beq_refl, andb_true_r.
    rewrite (proj2 (Z.ltb_lt 0 size)), (proj2 (Z.eqb_neq status 304)), !andb_true_r by done.
    assert (Get m4 Hdr.ContentLength = []) as ->; [|done]. rewrite Get_pairs in E by done. rewrite Get_pairs, first_value_all by done.
    change (canonicalize Hdr.ContentLength) with Hdr.ContentLength. rewrite V4, V2, V1 by done.
    rewrite first_value_all in E. exact E.
  - intros k Hk%in_names_neq. repeat (apply Forall_cons in Hk as [? Hk]).
    assert (all_values k (pairs m4) = all_values k (pairs m)) as E4 by (rewrite V4, V2, V1 by done; by rewrite H0, H).
    case_match; [|done]. rewrite Set_values by done. change (canonicalize Hdr.ContentLength) with Hdr.ContentLength. by rewrite H6.
Qed.

(** ** Coherent objects *)

(** The flags the fast path reads are those of the Cache-Control line the slow
    path parses, and the stored Vary pair selects the request: a blank pair,
    a list the key computation refuses (it contains a star) under a blank key,
    or the key of the list over the request's headers. *)
Record coherent (to_lower : bytes -> bytes) (sum64 : bytes -> Z) (policy : option KeyPolicy) (reqHeader : Map) (o : Object.t) : Prop := {
  co_noCache : Object.RespNoCache o = NoCache (objDirectives o);
  co_mustRevalidate : Object.RespMustRevalidate o = MustRevalidate (objDirectives o) || ProxyRevalidate (objDirectives o);
  co_vary : (Object.VaryValue o = [] \/ varyContainsStar (Object.VaryValue o) = true) /\ Object.VaryKey o = []
    \/ Object.VaryValue o <> [] /\ varyContainsStar (Object.VaryValue o) = false /\
       Object.VaryKey o = BuildVaryKey to_lower sum64 (Object.VaryValue o) reqHeader policy /\ Object.VaryKey o <> [];
}.

Lemma hex_nonempty (z : Z) : FormatUint16 z <> [].
Proof. unfold FormatUint16. cbn [hex_rdigits]. intros E. apply (f_equal length) in E. rewrite length_rev in E. by cbn in E. Qed.

Lemma buildVaryKeySlow_nonempty (to_lower : bytes -> bytes) (sum64 : bytes -> Z) (vary : bytes) (m : Map) (policy : option KeyPolicy) :
  vary <> [] -> vary <> bs "*" -> BuildVaryKey to_lower sum64 vary m policy <> [].
Proof.
  intros H1 H2. unfold BuildVaryKey. rewrite (proj2 (beq_neq vary [])), (proj2 (beq_neq vary (bs "*"))) by done. cbn [orb].
  destruct (varyAssertionHash _ _ _ _ _); [apply hex_nonempty|]. unfold buildVaryKeySlow. destruct (_ <=? _)%nat; apply hex_nonempty.
Qed.

Lemma star_contains_star : varyContainsStar (bs "*") = true.
Proof. reflexivity. Qed.

Lemma vary_pair (to_lower : bytes -> bytes) (sum64 : bytes -> Z) (vary : bytes) (m : Map) (policy : option KeyPolicy) :
  varyContainsStar vary = false ->
  (vary = [] \/ varyContainsStar vary = true) /\ BuildVaryKey to_lower sum64 vary m policy = []
  \/ vary <> [] /\ varyContainsStar vary = false /\ BuildVaryKey to_lower sum64 vary m policy = BuildVaryKey to_lower sum64 vary m policy /\
     BuildVaryKey to_lower sum64 vary m policy <> [].
Proof.
  intros Hs. destruct (decide (vary = [])) as [->|Hv]; [by left; split; [left|]|]. right. split_and!; [done|done|done|].
  apply buildVaryKeySlow_nonempty; [done|]. intros ->. by rewrite star_contains_star in Hs.
Qed.

(** ** The stored Vary list has no star *)

Section Trim.
Context (p2 : byte -> byte -> bool) (p3 : byte -> byte -> byte -> bool).
Abbreviation tl := (trim_left_with p2 p3).

Lemma trim_left_length (s : bytes) : (length (tl s) <= length s)%nat.
Proof.
  induction s as [s IH] using (induction_ltof1 _ (@length byte)). unfold ltof in IH.
  destruct s as [|a s1]; [done|]. cbn [trim_left_with]. destruct (ascii_space a); [specialize (IH s1 ltac:(cbn; lia)); cbn; lia|].
  destruct s1 as [|b s2]; [done|]. destruct (p2 a b); [specialize (IH s2 ltac:(cbn; lia)); cbn; lia|].
  destruct s2 as [|c s3]; [done|]. destruct (p3 a b c); [specialize (IH s3 ltac:(cbn; lia)); cbn; lia|done].
Qed.

(** The head of a trimmed text stays when the text is cut short. *)
Lemma trim_left_prefix (t u : bytes) : tl (t ++ u) = t ++ u -> tl t = t.
Proof.
  destruct t as [|a t]; [done|]. cbn [app trim_left_with]. intros H.
  destruct (ascii_space a).
  { pose proof (trim_left_length (t ++ u)) as Hl. rewrite H in Hl. cbn in Hl. lia. }
  destruct t as [|b t]; [done|]. cbn [app] in H. destruct (p2 a b).
  { pose proof (trim_left_length (t ++ u)) as Hl. rewrite H in Hl. cbn in Hl. lia. }
  destruct t as [|c t]; [done|]. cbn [app] in H. destruct (p3 a b c); [|done].
  pose proof (trim_left_length (t ++ u)) as Hl. rewrite H in Hl. cbn in Hl. lia.
Qed.

Lemma trim_left_idem (s : bytes) : tl (tl s) = tl s /\ exists l, s = l ++ tl s.
Proof.
  induction s as [s IH] using (induction_ltof1 _ (@length byte)). unfold ltof in IH.
  destruct s as [|a s1]; [by split; [|exists []]|]. cbn [trim_left_with]. destruct (ascii_space a) eqn:Ea.
  { destruct (IH s1 ltac:(cbn; lia)) as [H [l E]]. split; [done|]. exists (a :: l). cbn. by rewrite <- E. }
  destruct s1 as [|b s2]; [split; [cbn; by rewrite Ea|by exists []]|]. destruct (p2 a b) eqn:Eb.
  { destruct (IH s2 ltac:(cbn; lia)) as [H [l E]]. split; [done|]. exists (a :: b :: l). cbn. by rewrite <- E. }
  destruct s2 as [|c s3]; [split; [cbn; by rewrite Ea, Eb|by exists []]|]. destruct (p3 a b c) eqn:Ec.
  { destruct (IH s3 ltac:(cbn; lia)) as [H [l E]]. split; [done|]. exists (a :: b :: c :: l). cbn. by rewrite <- E. }
  split; [cbn; by rewrite Ea, Eb, Ec|by exists []].
Qed.
End Trim.

Lemma trim_space_part (s : bytes) : exists l r, s = l ++ trim_space s ++ r.
Proof.
  unfold trim_space, trim_right. destruct (trim_left_idem space2 space3 s) as [_ [l E]]. fold (trim_left s) in E.
  destruct (trim_left_idem (fun a b => space2 b a) (fun a b c => space3 c b a) (rev (trim_left s))) as [_ [r Er]].
  exists l, (rev r). rewrite E at 1. f_equal. rewrite <- (rev_involutive (trim_left s)) at 1. rewrite Er at 1. by rewrite rev_app_distr.
Qed.

Lemma trim_space_idem (s : bytes) : trim_space (trim_space s) = trim_space s.
Proof.
  unfold trim_space. destruct (trim_left_idem space2 space3 s) as [Hl _]. fold (trim_left s) (trim_left (trim_left s)) in Hl.
  set (t := trim_left s) in *. unfold trim_right.
  destruct (trim_left_idem (fun a b => space2 b a) (fun a b c => space3 c b a) (rev t)) as [Hr [r Er]].
  set (w := trim_left_with _ _ (rev t)) in *.
  assert (trim_left (rev w) = rev w) as ->; [|by rewrite rev_involutive, Hr].
  apply (trim_left_prefix space2 space3 _ (rev r)). rewrite <- rev_app_distr, <- Er, rev_involutive. exact Hl.
Qed.

Lemma trim_space_blank (s : bytes) : trim_space (ch " " :: s) = trim_space s.
Proof. reflexivity. Qed.

Lemma split_no_sep (c : byte) (s : bytes) : Forall (fun f => c ∉ f) (split_byte c s).
Proof.
  induction s as [|a s IH]; cbn [split_byte]; [by repeat constructor; apply not_elem_of_nil|].
  destruct (beqb a c) eqn:E; [by constructor; [apply not_elem_of_nil|]|].
  assert (c <> a) as Hne by (intros ->; by rewrite beqb_refl in E).
  destruct (split_byte c s) as [|w ws]; [by constructor; [apply not_elem_of_cons; split; [|apply not_elem_of_nil]|]|].
  apply Forall_cons in IH as [Hw Hws]. constructor; [|done]. by apply not_elem_of_cons.
Qed.

Lemma star_of_join (l : list bytes) : Forall (fun f => ch "," ∉ f) l ->
  varyContainsStar (join (bs ", ") l) = existsb (fun f => beq (trim_space f) (bs "*")) l.
Proof.
  unfold varyContainsStar. intros Hl. destruct Hl as [|v l Hv Hl]; [done|]. revert v Hv. induction Hl as [|w l Hw Hl IH]; intros v Hv.
  - cbn [join]. by rewrite split_byte_last.
  - change (join (bs ", ") (v :: w :: l)) with (v ++ bs ", " ++ join (bs ", ") (w :: l)).
    change (bs ", " ++ join (bs ", ") (w :: l)) with (ch "," :: (ch " " :: join (bs ", ") (w :: l))).
    rewrite split_byte_app by done. cbn [existsb]. f_equal.
    assert (ch " " :: join (bs ", ") (w :: l) = join (bs ", ") ((ch " " :: w) :: l)) as -> by (destruct l; reflexivity).
    rewrite IH by (apply not_elem_of_cons; split; [done|exact Hw]). cbn [existsb]. by rewrite trim_space_blank.
Qed.

(** [strings.ToLower] maps nothing else to a star. *)
Class StarLaws (to_lower : bytes -> bytes) : Prop := { lower_star : forall s, to_lower s = bs "*" -> s = bs "*" }.

#[export] Instance ascii_star_laws : StarLaws (map lower_byte).
Proof.
  split. intros [|a [|b s]]; [done| |done]. intros [= E]. f_equal. revert E. each_byte a.
Qed.

(** The included headers are names: no comma, and not the star, which the
    configuration rejects. *)
Definition names_ok (policy : option KeyPolicy) : Prop :=
  match policy with Some p => Forall (fun f => ch "," ∉ f /\ trim_space f <> bs "*") (includeHeaders p) | None => True end.

Lemma elem_part (c : byte) (l m r : bytes) : c ∉ l ++ m ++ r -> c ∉ m.
Proof. intros H Hm. apply H. apply elem_of_app. right. apply elem_of_app. by left. Qed.

Lemma effective_vary_starless (to_lower : bytes -> bytes) (Hl : LowerLaws to_lower) (Hs : StarLaws to_lower) (m : Map) (policy : option KeyPolicy) :
  names_ok policy -> hasVaryStar m = false -> varyContainsStar (effectiveVary to_lower m policy) = false.
Proof.
  intros Hn Hm. unfold effectiveVary, joinedVary. destruct (negb _ && negb _); [exact Hm|]. unfold union_text.
  set (fields := _ ++ _ ++ _).
  assert (Forall (fun f => ch "," ∉ f /\ trim_space f <> bs "*") fields) as Hf.
  { apply Forall_app. split; [|apply Forall_app; split].
    - destruct (beq (GetAll m Hdr.Vary) []); [constructor|]. unfold hasVaryStar, varyContainsStar in Hm.
      apply Forall_map, Forall_forall. intros f Hf. split.
      + pose proof (split_no_sep (ch ",") (to_lower (GetAll m Hdr.Vary))) as Hc. rewrite lower_split, Forall_map, Forall_forall in Hc.
        specialize (Hc f Hf). destruct (trim_space_part (to_lower f)) as (l & r & E). rewrite E in Hc. by apply elem_part in Hc.
      + rewrite trim_space_idem, lower_trim. intros E%lower_star. apply not_true_iff_false in Hm. apply Hm, existsb_exists.
        exists f. split; [by apply list_elem_of_In|]. by apply beq_eq.
    - destruct policy; [exact Hn|constructor].
    - unfold synthetic_fields. destruct (hasCookiePresence _), (hasCookieValues _); repeat constructor;
        first [by apply (bool_decide_unpack (ch "," ∉ _)) | done]. }
  rewrite star_of_join.
  - apply not_true_iff_false. intros (f & Hf1 & Hf2)%existsb_exists. apply list_elem_of_In, uniq_loop_elem in Hf1. unfold sort_strings in Hf1.
    rewrite stable_sort_perm in Hf1. rewrite Forall_forall in Hf. apply beq_eq in Hf2. by apply (Hf f).
  - apply Forall_forall. intros f Hf1%uniq_loop_elem. unfold sort_strings in Hf1. rewrite stable_sort_perm in Hf1. rewrite Forall_forall in Hf. by apply (Hf f).
Qed.

(** ** What is stored is coherent *)

Section Coherent.
Context (to_lower : bytes -> bytes) {Hl : LowerLaws to_lower} {Hs : StarLaws to_lower} (sum64 : bytes -> Z) (local : bytes -> Z -> option Z).

Lemma GetAll_nil_Get (m : Map) (k : bytes) : wf m -> GetAll m k = [] -> first_value (canonicalize k) (pairs m) = [].
Proof.
  intros Hw. rewrite GetAll_pairs, first_value_all by done. destruct (all_values _ _) as [|v [|w l]]; [done|done|].
  rewrite join_concat. cbn [map concat]. intros E. apply app_eq_nil in E as [_ E]. done.
Qed.

Lemma stored_directives_line (m : Map) : let '(d, cc) := stored_directives m in d = ParseCacheControl cc.
Proof.
  unfold stored_directives, cdnCacheControl. destruct (beq _ []); [done|]. destruct (cdn_forbidden _); [done|].
  by destruct (negb _).
Qed.

Lemma built_directives (h : Handler) (env : fill_env) (key : Key) (ri : RequestInfo) (res : fetchResult) (m : Map) (preset : option Duration) (now : Time) :
  wf m -> objDirectives (buildObject to_lower sum64 local h env key ri res m preset now) = (stored_directives m).1.
Proof.
  intros Hw. unfold buildObject, objDirectives. pose proof (stored_directives_line m) as Hd. unfold stored_directives in *.
  destruct (cdnCacheControl m) as [d b] eqn:Ec. destruct b; cbn [Object.CacheControl Object.Header fst] in *.
  - destruct (beq _ []) eqn:E; [|done]. apply beq_eq in E. unfold cdnCacheControl in Ec. by rewrite E in Ec.
  - destruct (beq _ []) eqn:E; [|done]. apply beq_eq in E. rewrite E. f_equal.
    destruct (stored_header_lines ri (res_StatusCode res) (len (res_Body res)) m Hw) as (Hw' & _ & _ & _ & Hv).
    rewrite Get_pairs by done. rewrite first_value_all, Hv, <- first_value_all by done. by apply GetAll_nil_Get.
Qed.

Lemma built_coherent (h : Handler) (env : fill_env) (key : Key) (ri : RequestInfo) (res : fetchResult) (m : Map) (preset : option Duration) (now : Time) :
  wf m -> names_ok (h_policy h) -> hasVaryStar m = false ->
  coherent to_lower sum64 (h_policy h) (ReqHeader ri) (buildObject to_lower sum64 local h env key ri res m preset now).
Proof.
  intros Hw Hn Hst. pose proof (built_directives h env key ri res m preset now Hw) as Ed.
  pose proof (vary_pair to_lower sum64 (effectiveVary to_lower m (h_policy h)) (ReqHeader ri) (h_policy h)
    (effective_vary_starless to_lower Hl Hs m (h_policy h) Hn Hst)) as Hv.
  split; rewrite ?Ed; unfold buildObject; destruct (stored_directives m) as [d cc]; [done|done|exact Hv].
Qed.

Lemma refreshed_coherent (h : Handler) (env : fill_env) (stale : Object.t) (res : fetchResult) (ri : RequestInfo) (now : Time) :
  coherent to_lower sum64 (h_policy h) (ReqHeader ri) (refreshFrom304 to_lower sum64 local h env stale res ri now).
Proof.
  unfold refreshFrom304. set (o := MergeHeaders304 _ _). destruct (FreshnessLifetime _ _ _) as [ttl ok].
  split; cbn [Object.RespNoCache Object.RespMustRevalidate Object.CacheControl Object.VaryValue Object.VaryKey objDirectives Object.Header].
  1,2: unfold objDirectives; cbn [Object.CacheControl Object.Header]; by case_match.
  set (vary := effectiveVary _ _ _). destruct (beq vary []) eqn:E; cbn [negb andb].
  - apply beq_eq in E. left. split; [by left|done].
  - destruct (varyContainsStar vary) eqn:Est; cbn [negb]; [left; split; [by right|done]|].
    apply beq_neq in E. right. split_and!; [done|done|done|]. apply buildVaryKeySlow_nonempty; [done|]. intros E'. by rewrite E' in Est.
Qed.
End Coherent.

(** ** Surrogate keys *)

Definition tags_of (v : bytes) : list bytes := List.filter (fun t => negb (beq t [])) (map trim_space (Fields (commas_to_blanks v))).

Lemma surrogate_tags_spec (tags : list bytes) : forall seen,
  (forall t, t ∈ List.filter (fun t => negb (beq t [])) (map trim_space tags) -> t ∈ seen \/ t ∈ surrogate_tags seen tags) /\
  (forall t, t ∈ surrogate_tags seen tags -> t ∈ List.filter (fun t => negb (beq t [])) (map trim_space tags)) /\
  ((length seen + length (surrogate_tags seen tags) <= 16)%nat -> NoDup seen -> NoDup (surrogate_tags seen tags) /\ forall t, t ∈ seen -> t ∉ surrogate_tags seen tags).
Proof.
  induction tags as [|tag tags IH]; intros seen; cbn [surrogate_tags map List.filter].
  { split_and!; [intros t H; by apply not_elem_of_nil in H|done|]. intros _ _. split; [constructor|]. intros t _. apply not_elem_of_nil. }
  set (t0 := trim_space tag). destruct (beq t0 []) eqn:E0; cbn [negb]; [apply IH|].
  destruct (len seen <? seen_cap) eqn:Ec; [destruct (existsb (beq t0) seen) eqn:Es|].
  - destruct (IH seen) as (H1 & H2 & H3). apply existsb_exists in Es as (x & Hx%list_elem_of_In & E%beq_eq). subst x. split_and!.
    + intros t [->|Ht]%elem_of_cons; [by left|by apply H1].
    + intros t Ht. right. by apply H2.
    + exact H3.
  - destruct (IH (t0 :: seen)) as (H1 & H2 & H3). split_and!.
    + intros t [->|Ht]%elem_of_cons; [right; by left|]. destruct (H1 t Ht) as [[->|H]%elem_of_cons|H]; [right; by left|by left|right; by right].
    + intros t [->|Ht]%elem_of_cons; [by left|right; by apply H2].
    + intros Hlen Hn. cbn in Hlen. assert (t0 ∉ seen) as Hnew.
      { intros Hin%list_elem_of_In. apply not_true_iff_false in Es. apply Es, existsb_exists. exists t0. split; [done|apply beq_refl]. }
      destruct H3 as [H3 H4]; [cbn; lia|by constructor|]. split; [constructor; [apply H4; by left|done]|].
      intros t Ht [->|Hin]%elem_of_cons; [done|]. apply (H4 t); [by right|done].
  - destruct (IH seen) as (H1 & H2 & H3). split_and!.
    + intros t [->|Ht]%elem_of_cons; [right; by left|]. destruct (H1 t Ht); [by left|right; by right].
    + intros t [->|Ht]%elem_of_cons; [by left|right; by apply H2].
    + intros Hlen. unfold len, seen_cap in Ec. apply Z.ltb_ge in Ec. cbn in Hlen. lia.
Qed.

(** The keys of an object are the tags of the first non-empty of the three
    header dialects, each of them, and nothing else; up to sixteen keys come
    without repetition. *)
Lemma surrogate_keys_exact (h : Map) :
  let line := default [] (head (List.filter (fun v => negb (beq v [])) (map (Get h) SurrogateKeyHeaders))) in
  (forall t, t ∈ parseSurrogateKeys h <-> t ∈ tags_of line) /\
  ((length (parseSurrogateKeys h) <= 16)%nat -> NoDup (parseSurrogateKeys h)).
Proof.
  assert (parseSurrogateKeys h = surrogate_tags [] (Fields (commas_to_blanks
    (default [] (head (List.filter (fun v => negb (beq v [])) (map (Get h) SurrogateKeyHeaders))))))) as ->.
  { unfold parseSurrogateKeys. induction SurrogateKeyHeaders as [|k l IH]; [done|]. cbn [surrogate_from map List.filter].
    destruct (beq (Get h k) []); cbn [negb]; [exact IH|done]. }
  cbn zeta. set (v := default [] _). destruct (surrogate_tags_spec (Fields (commas_to_blanks v)) []) as (H1 & H2 & H3). split.
  - intros t. split; [apply H2|]. intros Ht. destruct (H1 t Ht) as [H|H]; [by apply not_elem_of_nil in H|done].
  - intros Hlen. apply H3; [exact Hlen|constructor].
Qed.

(** ** Theorems on stored objects *)

Lemma gate_no_star (local : bytes -> Z -> option Z) (status : Z) (req resp : Map) (neg : option StatusTTLPolicy) (ttl : Duration) :
  isCacheableWithDefault local (newParsedResponse status req resp) neg ttl = true -> hasVaryStar resp = false.
Proof.
  unfold isCacheableWithDefault, isCacheable, newParsedResponse. destruct (cdnCacheControl resp) as [d b]. cbn.
  assert (forall d b, isCacheBlocked status d b req resp = false -> hasVaryStar resp = false) as Hb.
  { intros d' b'. unfold isCacheBlocked. destruct (hasVaryStar resp); [|done]. by case_tests. }
  destruct (isCacheBlocked _ _ _ _ _) eqn:E; [|intros _; by eapply Hb]. destruct (status =? 304); [by destruct (ttl <=? 0)|]. by destruct (ttl <=? 0).
Qed.


(** ** Witnesses *)

Definition plain_route : Handler :=
  MkHandler None (MkFill None 0 0 0 0 0 0) false (bs "web") false 0 0 0 8 false false false false 0 0 0 0.
Definition plain_env : fill_env := MkFillEnv 0 (fun _ => 0) (fun _ => 0) 1000.
Definition lines (l : list (string * string)) : Map := FromFastHTTP (map (fun '(k, v) => (bs k, bs v)) l).
Definition fetched (l : list (string * string)) (body : string) : fetchResult := MkFetch 200 (lines l) (bs body) 0.
Definition page_request : RequestInfo :=
  MkRequest (bs "GET") (bs "/p") (bs "h") (bs "/p") [] (lines [("Accept-Language", "fr")]%string) [] [] [] [] false.
Abbreviation build l body := (buildObject (map lower_byte) len no_local_zone plain_route plain_env zero_key page_request (fetched l body) (lines l) None 2000).
Abbreviation refresh o l := (refreshFrom304 (map lower_byte) len no_local_zone plain_route plain_env o (MkFetch 304 (lines l) [] 0) page_request 3000).


Definition raw_reply (l : list (string * string)) : FastHeader :=
  let all := map (fun '(k, v) => (bs k, bs v)) l in
  MkFastHeader (fun k => first_value (canonicalize k) all) (fun k => all_values (canonicalize k) all) all.

Lemma raw_reply_laws (l : list (string * string)) :
  forallb (fun '(k, _) => beq (canonicalize (bs k)) (bs k)) l = true -> RespLaws (raw_reply l).
Proof.
  intros H. split; cbn; [|done|done|done]. apply Forall_map, Forall_forall. intros [k v] Hkv%list_elem_of_In.
  rewrite forallb_forall in H. apply beq_eq. exact (H _ Hkv).
Qed.

Lemma stream_gate_exact_witness :
  let hdr := raw_reply [("Cache-Control", "s-maxage=60"); ("Vary", "Accept, *")]%string in
  isResponseCacheableBytes no_local_zone plain_route (MkStream (Some (hdr, 5)) NewMap 200 0 false) hdr 5 page_request
  = isResponseCacheable no_local_zone plain_route (MkStream (Some (hdr, 5)) NewMap 200 0 false) page_request (FromFastHTTP (All hdr)).
Proof.
  apply (stream_gate_exact no_local_zone plain_route page_request
    (MkStream (Some (raw_reply [("Cache-Control", "s-maxage=60"); ("Vary", "Accept, *")]%string, 5)) NewMap 200 0 false)).
  - apply raw_reply_laws. vm_compute. reflexivity.
  - repeat constructor; discriminate.
  - vm_compute. reflexivity.
  - reflexivity.
  - discriminate.
Defined.

(** ** What the code does on edge inputs *)

(** The two gates part where client-state headers are allowed: with an Expires
    date and no max-age the streaming path stores what the map path refuses. *)
Lemma gates_part_on_allowed_cookie :
  let hdr := raw_reply [("Expires", "Thu, 01 Jan 2026 00:00:00 GMT"); ("Set-Cookie", "id=1")]%string in
  let h := {| plain_route with h_allowSetCookie := true |} in
  let sf := MkStream (Some (hdr, 5)) NewMap 200 0 false in
  isResponseCacheableBytes no_local_zone h sf hdr 5 page_request = Some true /\
  isResponseCacheable no_local_zone h sf page_request (sf_toMap sf) = Some false.
Proof. vm_compute. auto. Qed.

(** On the in-process upstream there is no fasthttp response, and a size limit
    makes the gate dereference it. *)
Lemma upstream_gate_panics :
  let sf := MkStream None (lines [("Cache-Control", "max-age=60")]%string) 200 0 true in
  stream_cacheable no_local_zone {| plain_route with h_maxObjectSize := 1000 |} sf page_request = None.
Proof. vm_compute. reflexivity. Qed.

(** A 304 without any header changes what the stored object says: a directive
    of the second Cache-Control line, or of CDN-Cache-Control, is forgotten. *)
Lemma refresh_forgets_directives :
  let o := build [("Cache-Control", "max-age=60"); ("Cache-Control", "no-cache")]%string ""%string in
  let c := build [("Cdn-Cache-Control", "max-age=60, must-revalidate"); ("Cache-Control", "max-age=9")]%string ""%string in
  Object.RespNoCache o = true /\ Object.RespNoCache (refresh o []) = false /\
  Object.RespMustRevalidate c = true /\ Object.RespMustRevalidate (refresh c []) = false.
Proof. vm_compute. auto. Qed.

(** A response of age 50 with a lifetime of 60 seconds is stored for 10, but a
    304 of the same age makes the object fresh for another 60: at an age of 105
    it is still a hit. *)
Lemma refresh_ignores_age :
  let l := [("Cache-Control", "max-age=60"); ("Age", "50")]%string in
  let o := refresh (build l ""%string) l in
  Object.TTL (build l ""%string) = 10 * Second /\ Object.TTL o = 60 * Second /\
  ComputeAge o (3000 + 55 * Second) = 105 * Second /\ decision (Evaluate page_request (Some o) (3000 + 55 * Second)) = Hit.
Proof. vm_compute. auto. Qed.
