(* ===== verification/Handler.v ===== *)
(** The request handler (src/internal/cache handler.go, stream.go, resolver.go,
    sse.go, refresh_registry.go): what a request reads from the store, whether
    it contacts the origin, what it serves and what it stores, purges, the
    variant sets, and the background refreshes. The store is any
    [ObjectStore]; the answers of the origin and of the peers are inputs. A
    request runs as a whole: it leads its own flight. *)

From S2P Require Import Prelude GoStd Tiered StoreSpec H1Parser UABypass FastPath GoStrings CacheControl HeaderMap RawReq Api HttpDate Engine Cacheable Conditional Cookies Keys Negotiate Vary KeyConfig Fill.

(** ** State *)

(** [refreshEntry] *)
Record refreshEntry : Type := MkRefresh { re_url : bytes; re_method : bytes; re_header : Map; re_persistCycles : Z }.

(** A goroutine started by a request. *)
Inductive job : Type :=
| BgRevalidate (ri : RequestInfo) (key : Key) (stale : Object.t)
| ShedRefill (ri : RequestInfo) (key : Key).

(** The mutable part of a handler and the messages it has sent: objects to
    their owner, purges to the peers, jobs to the scheduler. *)
Record Node (S : Type) : Type := MkNode {
  n_store : S;
  n_variants : gmap Key (gset Key);
  n_registry : gmap Key refreshEntry;
  n_scheduled : gmap Key Time;
  n_memo : unstorableMemo;
  n_forwarded : list Object.t;
  n_broadcast : list Key;
  n_jobs : list job;
}.
Arguments MkNode {S}. Arguments n_store {S}. Arguments n_variants {S}. Arguments n_registry {S}. Arguments n_scheduled {S}.
Arguments n_memo {S}. Arguments n_forwarded {S}. Arguments n_broadcast {S}. Arguments n_jobs {S}.

(** ** Background requests *)

Definition remapHeadToGet (method : bytes) : bytes := if beq method (bs "HEAD") then bs "GET" else method.

(** The request a background job is given: [triggerBgRevalidate] and
    [triggerShedRefill] copy the fields of the client's. *)
Definition background_request (ri : RequestInfo) : RequestInfo :=
  MkRequest (remapHeadToGet (GetMethod ri)) (GetURI ri) (GetHost ri) (GetPath ri) [] (ReqHeader ri) [] [] [] [] (TLS ri).

Definition requestInfoFromCtx (ctx : RequestCtx) : RequestInfo :=
  MkRequest [] [] [] [] [] (headerFromFastHTTPReqHeader (ctx_Header ctx))
    (ctx_Method ctx) (ctx_RequestURI ctx) (ctx_Host ctx) (ctx_Path ctx) (ctx_IsTLS ctx).

(** collapse.go *)
Definition collapseDenied (ri : RequestInfo) : bool :=
  if (if negb (beq (Method ri) []) then isInvalidating (Method ri)
      else (0 <? len (methodBytes ri)) && isInvalidatingBytes (methodBytes ri)) then true
  else negb (beq (Get (ReqHeader ri) Hdr.Authorization) []) || negb (beq (Get (ReqHeader ri) Hdr.Cookie) []).

(** ** The refresh registry (refresh_registry.go) *)

Fixpoint save_varied (reqHeader : Map) (saved : Map) (fields : list bytes) : Map :=
  match fields with
  | [] => saved
  | f :: fields =>
      let f := trim_space f in
      if beq f (bs "*") then save_varied reqHeader (Clone reqHeader) fields
      else if beq f [] then save_varied reqHeader saved fields
      else let v := Get reqHeader f in
           save_varied reqHeader (if beq v [] then saved else Set_ saved f v) fields
  end.

Definition saved_header (ri : RequestInfo) (varyHeader : bytes) (policy : option KeyPolicy) : Map :=
  let ae := Get (ReqHeader ri) Hdr.AcceptEncoding in
  let saved := if beq ae [] then NewMap else Set_ NewMap Hdr.AcceptEncoding ae in
  let cv := CookieAll (ReqHeader ri) in
  let saved := if hasCookieKeying policy && negb (beq cv []) then Set_ saved Hdr.Cookie cv else saved in
  if beq varyHeader [] then saved else save_varied (ReqHeader ri) saved (split_byte (ch ",") varyHeader).

Definition Register (key : Key) (ri : RequestInfo) (varyHeader : bytes) (persistCycles : Z) (policy : option KeyPolicy)
    (r : gmap Key refreshEntry) : gmap Key refreshEntry :=
  <[key := MkRefresh (GetURI ri) (GetMethod ri) (saved_header ri varyHeader policy) persistCycles]> r.

Definition Unregister (key : Key) (r : gmap Key refreshEntry) : gmap Key refreshEntry := delete key r.

Definition DecrementPersist (key : Key) (r : gmap Key refreshEntry) : gmap Key refreshEntry * bool :=
  match r !! key with
  | None => (r, false)
  | Some e => if re_persistCycles e <=? 0 then (r, false) else (<[key := {| e with re_persistCycles := re_persistCycles e - 1 |}]> r, true)
  end.

(** ** Answers *)

Inductive fetch_error : Type := ErrFetchShed | ErrTimeout | ErrOther.
Inductive served_from : Type := FromTier (src : Tiered.Source) | FromPeer.

(** What the client is sent: a stored object, a 304 or the parts of a range made
    from it, its head with the status of a HEAD response, the origin's
    response, or an error. [ServePanic] is a panic of the handler. *)
Inductive reply : Type :=
| ServeObject (o : Object.t) (r : cacheResult) (from : served_from)
| ServeNotModified (o : Object.t) (r : cacheResult) (from : served_from)
| ServeParts (ops : list wop) (o : Object.t) (from : served_from)
| ServeHead (o : Object.t) (status : Z) (from : served_from)
| ServeOrigin (status : Z) (hdr : Map) (body : option bytes)
| ServeError (status : Z)
| ServePanic.

(** upstreamerror.go *)
Definition writeUpstreamError (e : fetch_error) : reply := ServeError (match e with ErrTimeout => 504 | _ => 502 end).
Definition writeShed503 : reply := ServeError 503.

(** What happens around one request: the clock when it starts and when it
    stores, the draws of a fill, whether the background pools have room, what
    the fast path handed over, and whether a stored body without bytes is a nil
    slice ([Object.Body] does not tell a nil slice from an empty one). *)
Record req_env : Type := MkReqEnv {
  q_now : Time; q_later : Time; q_fill : fill_env; q_room : bool; q_hints : bool; q_transferred : option Object.t; q_nilBody : bool;
}.

(** ** Streaming a response to the client and the cache (stream.go) *)

Inductive read_end : Type := More | ReadEOF | ReadFailed.

Definition defaultMaxResponseBytes : Z := 4 * 2 ^ 20.

(** [load] is what the shared buffer counter reads in this round. *)
Definition shouldStopBuffering (h : Handler) (buf : bytes) (chunkLen totalBytes bufCap load : Z) : bool :=
  if bufCap <? len buf + chunkLen then true
  else if (0 <? h_maxResponseBytes h) && (h_maxResponseBytes h <? totalBytes) then true
  else (0 <? h_maxStreamingBufferBytes h) && (h_maxStreamingBufferBytes h <=? load).

Record tee : Type := MkTee { t_sent : bytes; t_buf : bytes; t_total : Z; t_exceeded : bool; t_complete : bool }.

(** The loop of [teeStreamToClient] over the reads of the body: each is a chunk,
    what the read said about the end, whether the write to the client failed,
    and the shared counter. A stream that ends without a word has failed. *)
Fixpoint tee_loop (h : Handler) (bufCap : Z) (reads : list (bytes * read_end * bool * Z)) (t : tee) : tee :=
  match reads with
  | [] => t
  | (chunk, e, wfail, load) :: reads =>
      let next t := match e with
                    | More => tee_loop h bufCap reads t
                    | ReadEOF => {| t with t_complete := true |}
                    | ReadFailed => t
                    end in
      if 0 <? len chunk then
        let t := {| t with t_total := t_total t + len chunk |} in
        if wfail then t
        else
          let t := {| t with t_sent := t_sent t ++ chunk |} in
          if t_exceeded t then next t
          else if shouldStopBuffering h (t_buf t) (len chunk) (t_total t) bufCap load then next {| t with t_exceeded := true |}
          else next {| t with t_buf := t_buf t ++ chunk |}
      else next t
  end.

Definition teeStreamToClient (h : Handler) (reads : list (bytes * read_end * bool * Z)) : tee :=
  tee_loop h (if h_maxResponseBytes h <=? 0 then defaultMaxResponseBytes else h_maxResponseBytes h) reads (MkTee [] [] 0 false false).

(** ** The operations *)

Section Handler.
Context {S : Type} {OS : ObjectStore S}.
Context (to_lower : bytes -> bytes) (sum64 : bytes -> Z) (sum128 : bytes -> Key) (local : bytes -> Z -> option Z).
Context (h : Handler).
(** [ownerFn]: whether this node owns a key; [None] outside strong mode. *)
Context (ownerFn : option (Key -> bool)).

Abbreviation node := (Node S).

Definition with_store (s : S) (n : node) : node := {| n with n_store := s |}.
Definition get_from (key : Key) (n : node) : node * option (Object.t * Tiered.Source) :=
  let '(s, r) := store_Get key (n_store n) in (with_store s n, r).
Definition unregister (key : Key) (n : node) : node := {| n with n_registry := Unregister key (n_registry n) |}.

Definition isOwnerOrUnmanaged (key : Key) : bool := match ownerFn with None => true | Some isLocal => isLocal key end.

(** *** Variant sets *)

Definition liveVariantSet (primaryKey : Key) (n : node) : gset Key := default ∅ (n_variants n !! primaryKey).
Definition set_variants (primaryKey : Key) (vs : gset Key) (n : node) : node :=
  {| n with n_variants := <[primaryKey := vs]> (n_variants n) |}.

(** The keys of the list the store no longer holds. *)
Fixpoint dead_keys (keys : list Key) (n : node) : node * list Key :=
  match keys with
  | [] => (n, [])
  | k :: keys =>
      let '(n, r) := get_from k n in
      let '(n, dead) := dead_keys keys n in
      (n, match r with Some _ => dead | None => k :: dead end)
  end.

Definition pruneDeadVariants (primaryKey : Key) (keys : list Key) (n : node) : node :=
  let '(n, dead) := dead_keys keys n in
  set_variants primaryKey (liveVariantSet primaryKey n ∖ list_to_set dead) n.

Definition reconcileStaleIncarnation (primaryKey : Key) (n : node) : node :=
  let '(n, pk) := get_from primaryKey n in
  match pk, ownerFn with
  | Some _, _ => set_variants primaryKey (liveVariantSet primaryKey n) n
  | None, None => set_variants primaryKey ∅ n
  | None, Some _ => pruneDeadVariants primaryKey (elements (liveVariantSet primaryKey n)) n
  end.

Definition reserveVariantSlotMode (primaryKey storeKey : Key) (fromPeer : bool) (n : node) : node * bool :=
  let n := set_variants primaryKey (liveVariantSet primaryKey n) n in
  if bool_decide (storeKey ∈ liveVariantSet primaryKey n) then (n, true)
  else
    let n := if bool_decide (liveVariantSet primaryKey n ≠ ∅) && negb fromPeer then reconcileStaleIncarnation primaryKey n else n in
    let add n := set_variants primaryKey ({[storeKey]} ∪ liveVariantSet primaryKey n) n in
    if Z.of_nat (size (liveVariantSet primaryKey n)) <? h_maxVariants h then (add n, true)
    else
      let n := pruneDeadVariants primaryKey (elements (liveVariantSet primaryKey n)) n in
      if (Z.of_nat (size (liveVariantSet primaryKey n)) <? h_maxVariants h) || fromPeer then (add n, true)
      else (n, false).

Definition reserveVariantSlot (primaryKey storeKey : Key) (n : node) : node * bool := reserveVariantSlotMode primaryKey storeKey false n.
Definition reserveVariantSlotFromPeer (primaryKey storeKey : Key) (n : node) : node := (reserveVariantSlotMode primaryKey storeKey true n).1.

(** *** Purges *)

(** Best effort: errors are ignored. *)
Fixpoint delete_keys (keys : list Key) (n : node) : node :=
  match keys with
  | [] => n
  | k :: keys => delete_keys keys (unregister k (with_store (store_Delete k (n_store n)).1 n))
  end.

(** [owned] and whether the last delete ran without error. *)
Definition Purge (primaryKey : Key) (n : node) : node * bool * bool :=
  let vs := liveVariantSet primaryKey n in
  let n := {| n with n_variants := delete primaryKey (n_variants n) |} in
  if bool_decide (vs = ∅) && negb (store_Has primaryKey (n_store n)) then (n, false, true)
  else
    let n := delete_keys (elements vs) n in
    let '(s, ok) := store_Delete primaryKey (n_store n) in
    let n := with_store s n in
    if ok then (unregister primaryKey n, true, true) else (n, true, false).

Definition purgeAndBroadcast (key : Key) (n : node) : node :=
  let n := (Purge key n).1.1 in {| n with n_broadcast := n_broadcast n ++ [key] |}.

(** The clone that keeps the grace windows; [now] is the clock of the purge. *)
Definition softPurged (obj : Object.t) (now : Time) : Object.t :=
  {| (CloneForRefresh obj) with Object.StoredAt := t_add now (- Second); Object.TTL := 0; Object.Hits := 0 |}.

(** [owned] and whether the loop ran without error: an error of [Put] ends it. *)
Fixpoint soft_purge_keys (now : Time) (keys : list Key) (n : node) (owned : bool) : node * bool * bool :=
  match keys with
  | [] => (n, owned, true)
  | key :: keys =>
      let '(n, r) := get_from key n in
      match r with
      | None => soft_purge_keys now keys n owned
      | Some (obj, _) =>
          if (Object.StaleWhileRevalidate obj =? 0) && (Object.StaleIfError obj =? 0)
          then soft_purge_keys now keys (unregister key (with_store (store_Delete key (n_store n)).1 n)) true
          else
            let '(s, ok) := store_Put key (softPurged obj now) (n_store n) in
            if ok then soft_purge_keys now keys (with_store s n) true else (with_store s n, true, false)
      end
  end.

Definition SoftPurge (now : Time) (primaryKey : Key) (n : node) : node * bool * bool :=
  soft_purge_keys now (primaryKey :: elements (liveVariantSet primaryKey n)) n false.

(** [detectVaryDrift]: [freshVary] is the declaration of the response. *)
Definition driftPurge (stale : option Object.t) (ri : RequestInfo) (statusCode : Z) (freshVary : bytes) (n : node) : node :=
  if detectVaryDrift to_lower (option_map Object.VaryValue stale) statusCode freshVary
  then (Purge (BuildKey sum128 ri (h_policy h)) n).1.1 else n.

(** *** Storing *)

Definition Schedule (key : Key) (at_ : Time) (n : node) : node := {| n with n_scheduled := <[key := at_]> (n_scheduled n) |}.
Definition refresh_time (obj : Object.t) : Time := t_add (Object.StoredAt obj) (d_sub (Object.TTL obj) (h_refreshMargin h)).

Definition registerRefresh (key : Key) (obj : Object.t) (ri : RequestInfo) (isRefresh : bool) (staleHits : Z) (n : node) : node :=
  if negb (shouldRegisterRefresh h obj ri) then n
  else if Cacheable (fp_neg (h_fp h)) (Object.StatusCode obj) then n
  else if negb isRefresh && h_refreshReactiveFirst h then n
  else if isRefresh && (0 <? h_refreshMinHits h) && negb (shouldRefresh h staleHits obj) then
    let '(r, persists) := if 0 <? h_refreshPersistCycles h then DecrementPersist key (n_registry n) else (n_registry n, false) in
    let n := {| n with n_registry := r |} in
    if persists then Schedule key (refresh_time obj) n else unregister key n
  else
    let varyHeader := if 0 <? Len (Object.Header obj) then Object.VaryValue obj else [] in
    Schedule key (refresh_time obj)
      {| n with n_registry := Register key ri varyHeader (h_refreshPersistCycles h) (h_policy h) (n_registry n) |}.

(** [Put] and [PutOwned] differ in who owns the body bytes; their errors are
    ignored. *)
Definition storeObject (key : Key) (obj : Object.t) (ri : RequestInfo) (isRefresh : bool) (staleHits : Z) (n : node) : node :=
  if negb (isOwnerOrUnmanaged key) then n
  else registerRefresh key obj ri isRefresh staleHits (with_store (store_Put key obj (n_store n)).1 n).

Definition forwardToOwnerIfRemote (obj : Object.t) (n : node) : node :=
  match ownerFn with
  | None => n
  | Some isLocal => if isLocal (Object.Key_ obj) then n else {| n with n_forwarded := n_forwarded n ++ [obj] |}
  end.

(** The resolver stored beside a variant. *)
Definition storeResolver (obj : Object.t) (primaryKey : Key) (ri : RequestInfo) (n : node) : node :=
  let primaryObj := buildResolver obj primaryKey in
  forwardToOwnerIfRemote primaryObj (storeObject primaryKey primaryObj ri false 0 n).

Definition with_pair (obj : Object.t) (storeKey primaryKey : Key) : Object.t :=
  if beq storeKey primaryKey then obj else {| obj with Object.PairedKey := primaryKey |}.

(** The store half of [writeAndMaybeStore]. *)
Definition store_response (q : req_env) (res : fetchResult) (primaryKey : Key) (stale : option Object.t) (ri : RequestInfo) (preset : option Duration) (n : node) : node :=
  let resMap := res_Header res in
  let parsed := newParsedResponse (res_StatusCode res) (ReqHeader ri) resMap in
  if negb (isCacheableWithDefault local parsed (fp_neg (h_fp h)) (fp_defaultTTL (h_fp h))) then n
  else if negb (beq (skipStoreReason (h_allowSetCookie h) (h_maxObjectSize h) resMap (len (res_Body res))) []) then n
  else
    let n := driftPurge stale ri (res_StatusCode res) (effectiveVary to_lower resMap (h_policy h)) n in
    let storeKey := storeKey_of to_lower sum64 h primaryKey (ReqHeader ri) resMap in
    let obj := with_pair (buildObject to_lower sum64 local h (q_fill q) storeKey ri res resMap preset (q_later q)) storeKey primaryKey in
    if beq storeKey primaryKey then forwardToOwnerIfRemote obj (storeObject storeKey obj ri false 0 n)
    else
      let '(n, room) := reserveVariantSlot primaryKey storeKey n in
      if negb room then n
      else storeResolver obj primaryKey ri (forwardToOwnerIfRemote obj (storeObject storeKey obj ri false 0 n)).

(** [fillFinalTTLFor] of downstreamcc.go: the lifetime advertised and stored
    under downstream_freshness: sync. *)
Definition sync_ttl (q : req_env) (res : fetchResult) (ri : RequestInfo) : option Duration :=
  let parsed := newParsedResponse (res_StatusCode res) (ReqHeader ri) (res_Header res) in
  if h_syncCDC h && isCacheableWithDefault local parsed (fp_neg (h_fp h)) (fp_defaultTTL (h_fp h)) then
    let originAge := correctedInitialAge local (parseOriginAge (res_Header res)) (res_Delay res) (Get (res_Header res) Hdr.Date) (q_later q) in
    Some (fillFinalTTL local (fe_out (q_fill q)) (fe_draw (q_fill q)) (fe_draw_ov (q_fill q)) (fe_clock (q_fill q)) (h_fp h)
            (res_Header res) (res_StatusCode res) (p_respCC parsed) originAge (q_later q))
  else None.

Definition isHead (method : bytes) : bool := beq method (bs "HEAD").

Definition writeAndMaybeStore (q : req_env) (method : bytes) (res : fetchResult) (primaryKey : Key) (stale : option Object.t) (ri : RequestInfo) (n : node)
    : node * reply :=
  let answer := ServeOrigin (res_StatusCode res) (res_Header res) (if isHead method then None else Some (res_Body res)) in
  if isHead method then (n, answer)
  else (store_response q res primaryKey stale ri (sync_ttl q res ri) n, answer).
End Handler.
