(* ===== verification/Serve.v ===== *)
(** Requests through the handler (src/internal/cache handler.go, stream.go,
    resolver.go, sse.go): the lookup, the dispatch on the decision, misses,
    revalidations, peer fetches, unsafe methods, and the background jobs. The
    state is a [Node] of [Handler]; what the origin and the peers answer is the
    record [answers]. The request is the one after the route's header
    rewrites. *)

From S2P Require Import Prelude GoStd Tiered StoreSpec H1Parser UABypass DateFormat FastPath GoStrings CacheControl HeaderMap RawReq Api HttpDate Engine Cacheable Conditional Cookies Keys Negotiate Vary KeyConfig Fill Handler.

(** ** Event streams (pkg/header/eventstream.go) *)

Definition eventStreamMediaType : bytes := bs "text/event-stream".

(** [ct[i]|0x20 == mt[i]] for each byte of [mt]; the rest of [ct] after them. *)
Fixpoint media_rest (mt ct : bytes) : option bytes :=
  match mt, ct with
  | [], _ => Some ct
  | _, [] => None
  | m :: mt, c :: ct => if Z.lor (Zb c) 32 =? Zb m then media_rest mt ct else None
  end.

Definition IsEventStreamContentType (ct : bytes) : bool :=
  match media_rest eventStreamMediaType (drop_while ows ct) with
  | None => false
  | Some rest => match drop_while ows rest with [] => true | c :: _ => beqb c (ch ";") end
  end.

Definition AcceptsEventStream (accept : bytes) : bool := existsb IsEventStreamContentType (split_byte (ch ",") accept).

(** ** What the outside answers *)

(** A response read into memory by [invalidateAndProxy]. *)
Record proxied : Type := MkProxied { px_StatusCode : Z; px_Header : FastHeader; px_Body : bytes }.

(** [doFetchStream], with what [resp.Body()] returns when the body is read
    whole and the reads when it is streamed, and the shared buffer counter when
    the headers are in; [doFetch]; [doFetchBg] for a given If-None-Match and
    If-Modified-Since; [peerFetch] for a key and an assertion ([None] is an
    error, [Some None] a miss); the proxied response of an unsafe method. *)
Record answers : Type := MkAnswers {
  an_stream : result fetch_error streamFetchResult;
  an_body : bytes;
  an_reads : list (bytes * read_end * bool * Z);
  an_load : Z;
  an_fetch : result fetch_error fetchResult;
  an_cond : bytes -> bytes -> result fetch_error fetchResult;
  an_peer : option (Key -> bytes -> option (option Object.t));
  an_proxy : result fetch_error proxied;
}.

(** The bypass knobs of the route, and whether it has an HTTP client (a static
    route has an in-process upstream instead). *)
Record gates : Type := MkGates { g_bypassOnCookie : bool; g_bypassCookieNames : cookieNameScanner; g_uaBypass : option uaBypass; g_fastClient : bool }.

Definition ContentLocation : bytes := bs "Content-Location".
Definition Location : bytes := bs "Location".

(** [net/url]: what the handler uses of it. [Parse] fails with a nil URL, and
    [ResolveReference] of a nil receiver is a nil dereference ([None]) unless
    the reference has a scheme. *)
Record NetURL : Type := MkNetURL {
  URL : Type;
  url_Parse : bytes -> option URL;
  url_Resolve : option URL -> URL -> option URL;
  url_Scheme : URL -> bytes;
  url_Host : URL -> bytes;
  url_Path : URL -> bytes;
  url_String : URL -> bytes;
}.

(** request.go *)
Definition requestInfoFromURL (u : NetURL) (method rawURL : bytes) : RequestInfo :=
  match url_Parse u rawURL with
  | None => MkRequest method rawURL [] [] [] NewMap [] [] [] [] false
  | Some v => MkRequest method rawURL (url_Host u v) (url_Path u v) [] NewMap [] [] [] [] (beq (url_Scheme u v) (bs "https"))
  end.

(** The bytes [streamCopyFlush] sends over the reads of a body. *)
Fixpoint streamCopyFlush (reads : list (bytes * read_end * bool * Z)) : bytes :=
  match reads with
  | [] => []
  | (chunk, e, wfail, _) :: reads =>
      if (0 <? len chunk) && wfail then []
      else chunk ++ match e with More => streamCopyFlush reads | _ => [] end
  end.

Section Serve.
Context {S : Type} {OS : ObjectStore S}.
Context (to_lower : bytes -> bytes) (sum64 : bytes -> Z) (sum128 : bytes -> Key) (local : bytes -> Z -> option Z).
Context (u : NetURL) (h : Handler) (gt : gates) (ownerFn : option (Key -> bool)).

Abbreviation node := (Node S).
Abbreviation peek ctx := (Peek (ctx_Header ctx)).
Abbreviation is_head ctx := (isHead (ctx_Method ctx)).
Abbreviation owner := (isOwnerOrUnmanaged ownerFn).
Abbreviation store_object := (storeObject h ownerFn).
Abbreviation forward := (forwardToOwnerIfRemote ownerFn).
Abbreviation store_resolver := (storeResolver h ownerFn).
Abbreviation reserve := (reserveVariantSlot h ownerFn).
Abbreviation drift_purge := (driftPurge to_lower sum128 h).
Abbreviation write_and_store := (writeAndMaybeStore to_lower sum64 sum128 local h ownerFn).

(** ** Lookup *)

(** The primary key, the lookup key, the object, and the resolver of a variant
    miss. *)
Definition lookup (ctx : RequestCtx) (n : node) : node * Key * Key * option (Object.t * Tiered.Source) * option (Object.t * Tiered.Source) :=
  let primaryKey := buildKey sum128 (h_policy h) ctx in
  let '(n, r) := get_from primaryKey n in
  match r with
  | None => (n, primaryKey, primaryKey, None, None)
  | Some (obj, src) =>
      if beq (Object.VaryValue obj) [] then (n, primaryKey, primaryKey, r, None)
      else
        let vk := VariantKeyFast to_lower sum64 primaryKey (Object.VaryValue obj) (ctx_Header ctx) (h_policy h) in
        if beq vk primaryKey then (n, primaryKey, primaryKey, r, None)
        else
          let '(n, v) := get_from vk n in
          match v with Some _ => (n, primaryKey, vk, v, None) | None => (n, primaryKey, vk, None, r) end
  end.

(** ** Jobs: when the handler is closing or the pool is full, none is started *)

Definition start_job (q : req_env) (j : job) (n : node) : node :=
  if q_room q then {| n with n_jobs := n_jobs n ++ [j] |} else n.
Definition triggerBgRevalidate (q : req_env) (ri : RequestInfo) (key : Key) (stale : Object.t) (n : node) : node :=
  start_job q (BgRevalidate (background_request ri) key stale) n.
Definition triggerShedRefill (q : req_env) (ri : RequestInfo) (key : Key) (n : node) : node :=
  if negb (g_fastClient gt) then n else start_job q (ShedRefill (background_request ri) key) n.

(** ** Serving what is stored *)

(** A 304 when the client's condition holds, and the object otherwise. *)
Definition conditional_or_object (ctx : RequestCtx) (obj : Object.t) (r : cacheResult) (from : served_from) : reply :=
  if tryConditional304Fast local (peek ctx) obj then ServeNotModified obj r from else ServeObject obj r from.

(** The arm of [ServeRequest] for [Hit] and [StaleHit]. *)
Definition serve_hit (q : req_env) (ctx : RequestCtx) (key : Key) (obj : Object.t) (src : Tiered.Source) (stale : bool) (n : node) : node * reply :=
  let r := if stale then cacheStale else cacheHit in
  let ri := requestInfoFromCtx ctx in
  let refresh n := if stale && (0 <? Object.StaleWhileRevalidate obj) && owner key then triggerBgRevalidate q ri key obj n else n in
  if tryConditional304Fast local (peek ctx) obj then (refresh n, ServeNotModified obj r (FromTier src))
  else
    match (if 0 <? len (peek ctx Hdr.Range) then serveRange (h_syncCDC h) ri obj stale (q_now q) else Some (false, [])) with
    | None => (n, ServePanic)
    | Some (true, ops) => (n, ServeParts ops obj (FromTier src))
    | Some (false, _) => (refresh n, ServeObject obj r (FromTier src))
    end.

(** ** The origin's response on a miss (stream.go) *)

Definition stream_answer (sf : streamFetchResult) (body : option bytes) : reply := ServeOrigin (sf_StatusCode sf) (sf_toMap sf) body.

(** [storeStreamedObject], then the resolver. *)
Definition store_streamed (q : req_env) (storeKey primaryKey : Key) (ri : RequestInfo) (res : fetchResult) (resMap : Map) (preset : option Duration)
    (n : node) : node :=
  let obj := with_pair (buildObject to_lower sum64 local h (q_fill q) storeKey ri res resMap preset (q_later q)) storeKey primaryKey in
  let n := forward obj (store_object storeKey obj ri false 0 n) in
  if beq storeKey primaryKey then n else store_resolver obj primaryKey ri n.

(** [reserveVariantSlot] when the response has a variant key of its own. *)
Definition reserve_for (storeKey primaryKey : Key) (n : node) : node * bool :=
  if beq storeKey primaryKey then (n, true) else reserve primaryKey storeKey n.

Definition too_large (limit size : Z) : bool := (0 <? limit) && (limit <? size).

Definition streamMissBuffered (q : req_env) (ctx : RequestCtx) (sf : streamFetchResult) (body : bytes) (primaryKey : Key) (ri : RequestInfo)
    (cacheable : bool) (preset : option Duration) (n : node) : node * reply :=
  if too_large (h_maxResponseBytes h) (len body) && match sf_resp sf with Some _ => true | None => false end
  then (n, ServeError 502)
  else
    let n := if negb cacheable && negb (is_head ctx) && negb (collapseDenied ri) && responseRefusesSharedStorage sf
             then {| n with n_memo := note (n_memo n) primaryKey (q_now q) (q_later q) |} else n in
    let resMap := sf_toMap sf in
    let answer := stream_answer sf (if is_head ctx then None else Some body) in
    if cacheable && negb (is_head ctx) then
      if too_large (h_maxObjectSize h) (len body) then (n, answer)
      else
        let storeKey := storeKey_of to_lower sum64 h primaryKey (ReqHeader ri) resMap in
        let '(n, room) := reserve_for storeKey primaryKey n in
        if negb room then (n, answer)
        else (store_streamed q storeKey primaryKey ri (MkFetch (sf_StatusCode sf) resMap body (sf_Delay sf)) resMap preset n, answer)
    else (n, answer).

(** [streamMissTee], [teeStreamToClient] and [settleTeeFill]: without a slot
    the stream is copied to the client and not kept. *)
Definition streamMissTee (q : req_env) (sf : streamFetchResult) (reads : list (bytes * read_end * bool * Z)) (primaryKey : Key) (ri : RequestInfo)
    (preset : option Duration) (n : node) : node * reply :=
  let resMap := sf_toMap sf in
  let storeKey := storeKey_of to_lower sum64 h primaryKey (ReqHeader ri) resMap in
  let '(n, room) := reserve_for storeKey primaryKey n in
  let t := teeStreamToClient h reads in
  let answer := stream_answer sf (Some (t_sent t)) in
  if negb room then (n, stream_answer sf (Some (streamCopyFlush reads)))
  else if negb (t_complete t) then (n, answer)
  else if t_exceeded t || too_large (h_maxObjectSize h) (t_total t) then (n, answer)
  else (store_streamed q storeKey primaryKey ri (MkFetch (sf_StatusCode sf) resMap (t_buf t) (sf_Delay sf)) resMap preset n, answer).

(** The response of a stream that is not buffered is never nil. *)
Definition is_event_stream (sf : streamFetchResult) : bool :=
  match sf_resp sf with Some (hdr, _) => IsEventStreamContentType (Peek hdr Hdr.ContentType) | None => false end.

Definition streamMiss (q : req_env) (a : answers) (ctx : RequestCtx) (primaryKey : Key) (ri : RequestInfo) (n : node) : node * reply :=
  match an_stream a with
  | Err ErrFetchShed => (triggerShedRefill q ri primaryKey n, writeShed503)
  | Err e => (n, writeUpstreamError e)
  | Ok sf =>
      if negb (sf_buffered sf) && negb (is_head ctx) && is_event_stream sf
      then (n, stream_answer sf (Some (streamCopyFlush (an_reads a))))
      else
        match stream_cacheable local h sf ri with
        | None => (n, ServePanic)
        | Some cacheable =>
            let preset := sync_ttl local h q (MkFetch (sf_StatusCode sf) (sf_toMap sf) [] (sf_Delay sf)) ri in
            if sf_buffered sf || is_head ctx || negb cacheable
               || (0 <? h_maxStreamingBufferBytes h) && (h_maxStreamingBufferBytes h <=? an_load a)
            then streamMissBuffered q ctx sf (an_body a) primaryKey ri cacheable preset n
            else streamMissTee q sf (an_reads a) primaryKey ri preset n
        end
  end.

(** The leader of its flight. *)
Definition fetchAndStore (q : req_env) (a : answers) (ctx : RequestCtx) (primaryKey : Key) (ri : RequestInfo) (n : node) : node * reply :=
  streamMiss q a ctx primaryKey ri n.

(** ** Freshening from a HEAD, and stale objects kept alive *)

Definition freshenFromHead (q : req_env) (ctx : RequestCtx) (res : fetchResult) (lookupKey : Key) (stale : Object.t) (src : Tiered.Source) (ri : RequestInfo)
    (n : node) : option (node * reply) :=
  match head_freshened to_lower sum64 local h (q_fill q) stale res ri (q_now q) with
  | None => None
  | Some refreshed =>
      let n := drift_purge (Some stale) ri (res_StatusCode res) (Object.VaryValue refreshed) n in
      let n := store_object lookupKey refreshed ri false 0 n in
      Some (n, if tryConditional304Fast local (peek ctx) refreshed then ServeNotModified refreshed cacheRevalidated (FromTier src)
               else ServeHead refreshed (res_StatusCode res) (FromTier src))
  end.

(** What [fetchAndStoreStayinAlive] and [revalidate] do with a full response. *)
Definition freshen_or_store (q : req_env) (ctx : RequestCtx) (res : fetchResult) (lookupKey primaryKey : Key) (stale : Object.t) (src : Tiered.Source)
    (ri : RequestInfo) (n : node) : node * reply :=
  match (if is_head ctx then freshenFromHead q ctx res lookupKey stale src ri n else None) with
  | Some r => r
  | None => write_and_store q (ctx_Method ctx) res primaryKey (Some stale) ri n
  end.

Definition fetchAndStoreStayinAlive (q : req_env) (a : answers) (ctx : RequestCtx) (lookupKey primaryKey : Key) (stale : Object.t) (src : Tiered.Source)
    (ri : RequestInfo) (n : node) : node * reply :=
  let served := ServeObject stale cacheStale (FromTier src) in
  match an_fetch a with
  | Err ErrFetchShed => (triggerShedRefill q ri lookupKey n, served)
  | Err _ => (n, served)
  | Ok res =>
      if 500 <=? res_StatusCode res then (n, served)
      else freshen_or_store q ctx res lookupKey primaryKey stale src ri n
  end.

(** ** Revalidation *)

(** The validators sent: those of the stored object, and the client's where it
    has none (conditional.go setConditionalHeaders). *)
Definition setConditionalHeaders (ctx : RequestCtx) (obj : Object.t) : bytes * bytes :=
  (if negb (beq (Object.ETag obj) []) then quoteETag (Object.ETag obj) else peek ctx Hdr.IfNoneMatch,
   if negb (is_zero (Object.LastModified obj)) then formatHTTPDate (Object.LastModified obj) else peek ctx Hdr.IfModifiedSince).

Definition revalidate (q : req_env) (a : answers) (ctx : RequestCtx) (primaryKey lookupKey : Key) (stale : Object.t) (src : Tiered.Source)
    (ri : RequestInfo) (n : node) : node * reply :=
  let '(inm, ims) := setConditionalHeaders ctx stale in
  let served := ServeObject stale cacheStale (FromTier src) in
  match an_cond a inm ims with
  | Err e =>
      if h_stayinAlive h then (n, served)
      else if staleFallbackAllowed stale then (n, served)
      else (n, writeUpstreamError e)
  | Ok res =>
      if (500 <=? res_StatusCode res) && (h_stayinAlive h || staleFallbackAllowed stale) then (n, served)
      else if res_StatusCode res =? 304 then
        let refreshed := refreshFrom304 to_lower sum64 local h (q_fill q) stale res ri (q_now q) in
        let n := drift_purge (Some stale) ri 304 (Object.VaryValue refreshed) n in
        let n := store_object lookupKey refreshed ri false 0 n in
        (n, conditional_or_object ctx refreshed cacheRevalidated (FromTier src))
      else freshen_or_store q ctx res lookupKey primaryKey stale src ri n
  end.

(** ** The validators of a resolver *)

(** The union of the client's tags and the resolver's. *)
Definition resolver_validators (ctx : RequestCtx) (resolver : Object.t) : bytes * bytes :=
  let clientINM := peek ctx Hdr.IfNoneMatch in
  let inm := if 0 <? len clientINM then
               if beq (trim_space clientINM) (bs "*") then clientINM else clientINM ++ bs ", " ++ quoteETag (Object.ETag resolver)
             else quoteETag (Object.ETag resolver) in
  let ims := if negb (is_zero (Object.LastModified resolver)) && (len (peek ctx Hdr.IfModifiedSince) =? 0)
             then formatHTTPDate (Object.LastModified resolver) else peek ctx Hdr.IfModifiedSince in
  (inm, ims).

(** The resolver refreshed, with the body of the variant it mirrors. *)
Definition with_body (o : Object.t) (body : bytes) (size : Z) : Object.t :=
  {| o with Object.Body := body; Object.BodySize := size |}.
Definition set_length (o : Object.t) (body : bytes) : Object.t :=
  {| o with Object.Header := Set_ (Object.Header o) Hdr.ContentLength (itoa (len body)) |}.

(** [None] when the ordinary fill must follow. *)
Definition serveResolver304 (q : req_env) (ctx : RequestCtx) (resolver : Object.t) (res : fetchResult) (src : Tiered.Source) (ri : RequestInfo) (n : node)
    : node * option reply :=
  let tag304 := Get (res_Header res) Hdr.ETag in
  let inm := peek ctx Hdr.IfNoneMatch in
  let clientConditional := (0 <? len inm) || (0 <? len (peek ctx Hdr.IfModifiedSince)) in
  if beq tag304 [] && clientConditional then (n, None)
  else if negb (beq tag304 []) && negb (beq tag304 (bs "*")) && negb (etagMatch tag304 (Object.ETag resolver)) then
    if (0 <? len inm) && etagMatch inm tag304 then (n, Some (ServeOrigin 304 (res_Header res) None)) else (n, None)
  else
    let '(n, body) := if negb (beq (Object.PairedKey resolver) zero_key) then
                        let '(n, m) := get_from (Object.PairedKey resolver) n in
                        (n, match m with Some (mirror, _) => Some (Object.Body mirror, Object.BodySize mirror) | None => None end)
                      else (n, Some (Object.Body resolver, Object.BodySize resolver)) in
    match body with
    | None => (n, None)
    | Some (body, size) =>
        let refreshed := with_body (refreshFrom304 to_lower sum64 local h (q_fill q) resolver res ri (q_now q)) body size in
        let refreshed := if beq body [] && q_nilBody q then refreshed else set_length refreshed body in
        let n := drift_purge (Some resolver) ri (res_StatusCode res) (Object.VaryValue refreshed) n in
        (n, Some (conditional_or_object ctx refreshed cacheRevalidated (FromTier src)))
    end.

Definition revalidateResolverMiss (q : req_env) (a : answers) (ctx : RequestCtx) (primaryKey : Key) (resolver : Object.t) (src : Tiered.Source)
    (ri : RequestInfo) (n : node) : node * option reply :=
  let '(inm, ims) := resolver_validators ctx resolver in
  match an_cond a inm ims with
  | Err _ => (n, None)
  | Ok res =>
      if res_StatusCode res =? 304 then serveResolver304 q ctx resolver res src ri n
      else let '(n, r) := write_and_store q (ctx_Method ctx) res primaryKey None ri n in (n, Some r)
  end.

(** ** Peers (resolver.go) *)

Definition peerVaryAssertion (obj : option Object.t) : bytes := match obj with Some o => Object.VaryKey o | None => [] end.

(** [q_hints]: the fast path asked the owner already. *)
Definition peerHintsApply (q : req_env) (obj : option Object.t) : bool :=
  match obj, h_policy h with None, None => q_hints q | _, _ => false end.

Definition transferredResolver (q : req_env) (obj : option Object.t) (lookupKey : Key) : option Object.t :=
  match obj, q_transferred q with
  | None, Some xfer => if negb (isPeerResolverMetadata xfer) || negb (beq (Object.Key_ xfer) lookupKey) then None else Some xfer
  | _, _ => None
  end.

Definition servePeerHit (q : req_env) (lookupKey : Key) (peerObj : Object.t) (ri : RequestInfo) (n : node) : node * option reply :=
  if negb (beq (Object.VaryValue peerObj) [])
     && negb (varyKeyMatches to_lower sum64 (Object.VaryValue peerObj) (assertMap (ReqHeader ri)) (h_policy h) (Object.VaryKey peerObj))
  then (n, None)
  else match decision (Evaluate ri (Some peerObj) (q_now q)) with
       | Hit => (n, Some (ServeObject peerObj cacheHit FromPeer))
       | StaleHit =>
           (if 0 <? Object.StaleWhileRevalidate peerObj then triggerBgRevalidate q ri (peerStaleKey peerObj lookupKey) peerObj n else n,
            Some (ServeObject peerObj cacheStale FromPeer))
       | _ => (n, None)
       end.

Definition getVariantForResolution (isLocal : Key -> bool) (peerFetch : Key -> bytes -> option (option Object.t)) (vk : Key) (assertion : bytes) (n : node)
    : node * option Object.t :=
  if isLocal vk then let '(n, r) := get_from vk n in (n, option_map fst r)
  else (n, match peerFetch vk assertion with Some (Some o) => Some o | _ => None end).

Definition serveDerivedPeerVariant (q : req_env) (isLocal : Key -> bool) (peerFetch : Key -> bytes -> option (option Object.t))
    (primaryKey : Key) (varyValue : bytes) (ri : RequestInfo) (n : node) : node * option reply :=
  let vk := VariantKey to_lower sum64 primaryKey varyValue (ReqHeader ri) (h_policy h) in
  if beq vk primaryKey then (n, None)
  else
    let assertion := BuildVaryKey to_lower sum64 varyValue (ReqHeader ri) (h_policy h) in
    if beq assertion [] then (n, None)
    else
      let '(n, variant) := getVariantForResolution isLocal peerFetch vk assertion n in
      match variant with None => (n, None) | Some v => servePeerHit q vk v ri n end.

(** The answer of the owner to a bare question, once it is there. *)
Definition use_peer_object (q : req_env) (isLocal : Key -> bool) (peerFetch : Key -> bytes -> option (option Object.t))
    (primaryKey lookupKey : Key) (derivedTried : bytes) (peerObj : option (option Object.t)) (ri : RequestInfo) (n : node) : node * option reply :=
  match peerObj with
  | None | Some None => (n, None)
  | Some (Some p) =>
      if isPeerResolverMetadata p then
        if negb (beq derivedTried []) && beq (Object.VaryValue p) derivedTried then (n, None)
        else serveDerivedPeerVariant q isLocal peerFetch primaryKey (Object.VaryValue p) ri n
      else servePeerHit q lookupKey p ri n
  end.

(** The peer half of [handleCacheMiss]. *)
Definition ask_owner (q : req_env) (a : answers) (primaryKey lookupKey : Key) (obj resolver : option Object.t) (ri : RequestInfo) (n : node)
    : node * option reply :=
  if peerHintsApply q obj then (n, None)
  else
    match ownerFn, an_peer a with
    | Some isLocal, Some peerFetch =>
        if bypass (n_memo n) lookupKey (q_now q) || isLocal lookupKey then (n, None)
        else
          match transferredResolver q obj lookupKey with
          | Some p => use_peer_object q isLocal peerFetch primaryKey lookupKey [] (Some (Some p)) ri n
          | None =>
              let derivedTried := match obj, resolver with None, None => configDerivedVary (h_policy h) | _, _ => [] end in
              let '(n, served) := if beq derivedTried [] then (n, None)
                                  else serveDerivedPeerVariant q isLocal peerFetch primaryKey derivedTried ri n in
              match served with
              | Some r => (n, Some r)
              | None => use_peer_object q isLocal peerFetch primaryKey lookupKey derivedTried (peerFetch lookupKey (peerVaryAssertion obj)) ri n
              end
          end
    | _, _ => (n, None)
    end.

(** ** Misses *)

Definition resolver_attempt (q : req_env) (a : answers) (ctx : RequestCtx) (primaryKey lookupKey : Key) (resolver : option (Object.t * Tiered.Source))
    (ri : RequestInfo) (n : node) : node * option reply :=
  match resolver with
  | Some (r, src) =>
      if negb (beq (Object.ETag r) []) && negb (collapseDenied ri) && owner lookupKey
      then revalidateResolverMiss q a ctx primaryKey r src ri n else (n, None)
  | None => (n, None)
  end.

Definition handleCacheMiss (q : req_env) (a : answers) (ctx : RequestCtx) (primaryKey lookupKey : Key) (obj resolver : option (Object.t * Tiered.Source))
    (ri : RequestInfo) (n : node) : node * reply :=
  let '(n, served) := ask_owner q a primaryKey lookupKey (option_map fst obj) (option_map fst resolver) ri n in
  match served with
  | Some r => (n, r)
  | None =>
      let '(n, served) := resolver_attempt q a ctx primaryKey lookupKey resolver ri n in
      match served with
      | Some r => (n, r)
      | None =>
          match obj with
          | Some (o, src) =>
              if h_stayinAlive h || Object.StaleForSIE o (q_now q) || staleFallbackAllowed o
              then fetchAndStoreStayinAlive q a ctx lookupKey primaryKey o src ri n
              else fetchAndStore q a ctx primaryKey ri n
          | None => fetchAndStore q a ctx primaryKey ri n
          end
      end
  end.

(** ** Requests around the cache *)

(** [streamBypass] and the stream of [handleSSE] *)
Definition relay (ctx : RequestCtx) (a : answers) (sf : streamFetchResult) : reply :=
  stream_answer sf (if is_head ctx then None else Some (if sf_buffered sf then an_body a else streamCopyFlush (an_reads a))).

Definition streamBypass (ctx : RequestCtx) (a : answers) : reply :=
  match an_stream a with
  | Err ErrFetchShed => writeShed503
  | Err e => writeUpstreamError e
  | Ok sf => relay ctx a sf
  end.

Definition handleBypass (ctx : RequestCtx) (a : answers) : reply :=
  if OnlyIfCached (ParseCacheControlBytes (peek ctx Hdr.CacheControl)) then ServeError 504 else streamBypass ctx a.

Definition sseIntent (ctx : RequestCtx) : bool := AcceptsEventStream (peek ctx Hdr.Accept).

(** ** Unsafe methods *)

(** [None] is the nil dereference. *)
Definition buildLocationKey (ctx : RequestCtx) (loc : bytes) : option Key :=
  match url_Parse u loc with
  | None => Some zero_key
  | Some ref =>
      match url_Resolve u (url_Parse u (ctx_RequestURI ctx)) ref with
      | None => None
      | Some resolved =>
          let scheme := if beq (url_Scheme u resolved) [] then (if ctx_IsTLS ctx then bs "https" else bs "http") else url_Scheme u resolved in
          let host := if beq (url_Host u resolved) [] then ctx_Host ctx else url_Host u resolved in
          let ri := requestInfoFromURL u (bs "GET") (url_String u resolved) in
          Some (BuildKey sum128 {| ri with Host := host; TLS := beq scheme (bs "https") |} (h_policy h))
      end
  end.

(** The loop over Content-Location and Location; the flag tells that it ran to
    its end. *)
Fixpoint purge_locations (ctx : RequestCtx) (hdr : FastHeader) (names : list bytes) (n : node) : node * bool :=
  match names with
  | [] => (n, true)
  | name :: names =>
      let loc := Peek hdr name in
      if beq loc [] then purge_locations ctx hdr names n
      else
        match buildLocationKey ctx loc with
        | None => (n, false)
        | Some locKey => purge_locations ctx hdr names (if IsZero locKey then n else purgeAndBroadcast locKey n)
        end
  end.

Definition getRI (ctx : RequestCtx) : RequestInfo := {| (requestInfoFromCtx ctx) with Method := bs "GET" |}.

(** [purgeAfterSSEProxy], which [invalidateAfterProxyFast] begins with. *)
Definition purgeAfterSSEProxy (ctx : RequestCtx) (hdr : FastHeader) (n : node) : node * bool :=
  purge_locations ctx hdr [ContentLocation; Location] (purgeAndBroadcast (BuildKey sum128 (getRI ctx) (h_policy h)) n).

Definition maybeStorePostResponseFast (q : req_env) (ri : RequestInfo) (key : Key) (resp : proxied) (n : node) : node :=
  if h_disabled h then n
  else if px_StatusCode resp =? 304 then n
  else if clientStateInFastHTTP (px_Header resp) then n
  else if beq (Peek (px_Header resp) ContentLocation) [] then n
  else
    let hdr := FromFastHTTP (All (px_Header resp)) in
    let obj := buildObject to_lower sum64 local h (q_fill q) key ri (MkFetch (px_StatusCode resp) hdr (px_Body resp) 0) hdr None (q_later q) in
    store_object key obj ri false 0 n.

Definition invalidateAfterProxyFast (q : req_env) (ctx : RequestCtx) (resp : proxied) (n : node) : node * bool :=
  let '(n, ok) := purgeAfterSSEProxy ctx (px_Header resp) n in
  if ok then (maybeStorePostResponseFast q (getRI ctx) (BuildKey sum128 (getRI ctx) (h_policy h)) resp n, true) else (n, false).

Definition succeeded (status : Z) : bool := (200 <=? status) && (status <? 400).

Definition invalidateAndProxy (q : req_env) (a : answers) (ctx : RequestCtx) (n : node) : node * reply :=
  if negb (g_fastClient gt) then (n, ServeError 502)
  else
    match an_proxy a with
    | Err e => (n, writeUpstreamError e)
    | Ok resp =>
        if too_large (h_maxResponseBytes h) (len (px_Body resp)) then (n, ServeError 502)
        else
          let answer := ServeOrigin (px_StatusCode resp) (FromFastHTTP (All (px_Header resp))) (Some (px_Body resp)) in
          if succeeded (px_StatusCode resp) then
            let '(n, ok) := invalidateAfterProxyFast q ctx resp n in (n, if ok then answer else ServePanic)
          else (n, answer)
    end.

(** sse.go; with a client the response is never nil *)
Definition handleSSE (a : answers) (ctx : RequestCtx) (n : node) : node * reply :=
  if negb (g_fastClient gt) then (n, ServeError 502)
  else
    match an_stream a with
    | Err ErrFetchShed => (n, writeShed503)
    | Err e => (n, writeUpstreamError e)
    | Ok sf =>
        match sf_resp sf with
        | None => (n, ServePanic)
        | Some (hdr, _) =>
            if isInvalidatingBytes (ctx_Method ctx) && succeeded (sf_StatusCode sf) then
              let '(n, ok) := purgeAfterSSEProxy ctx hdr n in (n, if ok then relay ctx a sf else ServePanic)
            else (n, relay ctx a sf)
        end
    end.

Definition serveInvalidating (q : req_env) (a : answers) (ctx : RequestCtx) (n : node) : node * reply :=
  if sseIntent ctx then handleSSE a ctx n else invalidateAndProxy q a ctx n.

Definition serveCacheBypass (a : answers) (ctx : RequestCtx) (n : node) : node * reply :=
  if sseIntent ctx then handleSSE a ctx n else (n, handleBypass ctx a).

Definition serveDisabledRoute (q : req_env) (a : answers) (ctx : RequestCtx) (n : node) : node * reply :=
  if isInvalidatingBytes (ctx_Method ctx) then serveInvalidating q a ctx n else serveCacheBypass a ctx n.

(** ** ServeRequest *)

(** The decision on what the lookup found. *)
Definition dispatch (q : req_env) (a : answers) (ctx : RequestCtx) (primaryKey key : Key) (obj resolver : option (Object.t * Tiered.Source)) (n : node)
    : node * reply :=
  let d := decision (evaluateFast (ctx_Method ctx) (peek ctx) (option_map fst obj) (q_now q)) in
  let ri := requestInfoFromCtx ctx in
  match d, obj with
  | Hit, Some (o, src) => serve_hit q ctx key o src false n
  | StaleHit, Some (o, src) => serve_hit q ctx key o src true n
  | (Hit | StaleHit), None => (n, ServePanic)
  | _, _ =>
      if sseIntent ctx then handleSSE a ctx n
      else match d, obj with
           | Miss, _ => handleCacheMiss q a ctx primaryKey key obj resolver ri n
           | Revalidate, Some (o, src) =>
               if negb (owner key) then handleCacheMiss q a ctx primaryKey key obj None ri n
               else revalidate q a ctx primaryKey key o src ri n
           | Revalidate, None => (n, ServePanic)
           | _, _ => (n, handleBypass ctx a)
           end
  end.

Definition ServeRequest (q : req_env) (a : answers) (ctx : RequestCtx) (n : node) : node * reply :=
  if h_disabled h then serveDisabledRoute q a ctx n
  else if isInvalidatingBytes (ctx_Method ctx) then serveInvalidating q a ctx n
  else if requestBypass (g_bypassOnCookie gt) (g_bypassCookieNames gt) (g_uaBypass gt) ctx then serveCacheBypass a ctx n
  else
    let '(n, primaryKey, key, obj, resolver) := lookup ctx n in
    dispatch q a ctx primaryKey key obj resolver n.

(** ** Objects from peers, and jobs *)

Definition StoreFromPeer (obj : Object.t) (n : node) : node :=
  if beq (Object.Key_ obj) zero_key then n
  else
    let n := if negb (beq (Object.VaryKey obj) []) && negb (beq (Object.PairedKey obj) zero_key) && negb (beq (Object.PairedKey obj) (Object.Key_ obj))
             then reserveVariantSlotFromPeer h ownerFn (Object.PairedKey obj) (Object.Key_ obj) n else n in
    store_object (Object.Key_ obj) obj (MkRequest (bs "GET") [] [] [] [] (Clone (Object.Header obj)) [] [] [] [] false) false 0 n.

(** The gate of the background fills: the response may be stored. *)
Definition may_store (ri : RequestInfo) (res : fetchResult) : bool :=
  isCacheableWithDefault local (newParsedResponse (res_StatusCode res) (ReqHeader ri) (res_Header res)) (fp_neg (h_fp h)) (fp_defaultTTL (h_fp h))
  && beq (skipStoreReason (h_allowSetCookie h) (h_maxObjectSize h) (res_Header res) (len (res_Body res))) [].

Definition built (q : req_env) (key : Key) (ri : RequestInfo) (res : fetchResult) : Object.t :=
  buildObject to_lower sum64 local h (q_fill q) key ri res (res_Header res) None (q_later q).

Definition doBackgroundRevalidate (q : req_env) (res : result fetch_error fetchResult) (ri : RequestInfo) (key : Key) (stale : Object.t) (staleHits : Z)
    (n : node) : node :=
  if Object.IsVaryResolver stale then n
  else match res with
  | Err _ => n
  | Ok res =>
      if res_StatusCode res =? 304 then
        let refreshed := refreshFrom304 to_lower sum64 local h (q_fill q) stale res ri (q_later q) in
        let n := drift_purge (Some stale) ri 304 (Object.VaryValue refreshed) n in
        forward refreshed (store_object key refreshed ri true staleHits n)
      else if may_store ri res then
        let n := drift_purge (Some stale) ri (res_StatusCode res) (effectiveVary to_lower (res_Header res) (h_policy h)) n in
        let obj := built q key ri res in
        let obj := if negb (beq (Object.VaryKey obj) []) then {| obj with Object.PairedKey := Object.PairedKey stale |} else obj in
        forward obj (store_object key obj ri true staleHits n)
      else n
  end.

Definition doShedRefill (q : req_env) (res : result fetch_error fetchResult) (ri : RequestInfo) (key : Key) (n : node) : node :=
  match res with
  | Err _ => n
  | Ok res => if negb (may_store ri res) then n else let obj := built q key ri res in forward obj (store_object key obj ri true 0 n)
  end.

(** [scheduleRefreshRetry]: half the remaining lifetime, within the margin and
    not under a second. *)
Definition scheduleRefreshRetry (q : req_env) (key : Key) (stale : Object.t) (n : node) : node :=
  let remaining := t_sub (t_add (Object.StoredAt stale) (Object.TTL stale)) (q_now q) in
  if remaining <=? 0 then n
  else
    let delay := Z.min (h_refreshMargin h) (Z.quot remaining 2) in
    Schedule key (t_add (q_now q) (if delay <? Second then Second else delay)) n.

(** The request of a refresh, from its registry entry. *)
Definition refresh_request (entry : refreshEntry) (v : URL u) : RequestInfo :=
  MkRequest (re_method entry) (re_url entry) (url_Host u v) (url_Path u v) [] (Clone (re_header entry)) [] [] [] [] (beq (url_Scheme u v) (bs "https")).

Definition doBackgroundRefresh (q : req_env) (res : result fetch_error fetchResult) (key : Key) (stale : Object.t) (staleHits : Z) (n : node) : node :=
  match n_registry n !! key with
  | None => n
  | Some entry =>
      match url_Parse u (re_url entry) with
      | None => unregister key n
      | Some v =>
          let ri := refresh_request entry v in
          match res with
          | Err _ => scheduleRefreshRetry q key stale n
          | Ok res =>
              if res_StatusCode res =? 304 then
                let refreshed := refreshFrom304 to_lower sum64 local h (q_fill q) stale res ri (q_later q) in
                let n := drift_purge (Some stale) ri 304 (Object.VaryValue refreshed) n in
                store_object key refreshed ri true staleHits n
              else if may_store ri res then
                let n := drift_purge (Some stale) ri (res_StatusCode res) (effectiveVary to_lower (res_Header res) (h_policy h)) n in
                store_object key {| (built q key ri res) with Object.Hits := 0 |} ri true staleHits n
              else n
          end
      end
  end.

(** [triggerBgRefresh]: [allowed] and [delay] are the rate limiter's word and
    the draw of the deferral, [res] what the refresh fetches. *)
Definition triggerBgRefresh (q : req_env) (res : result fetch_error fetchResult) (allowed : bool) (delay : Duration) (staleHits : Z) (key : Key) (n : node)
    : node :=
  let '(n, r) := get_from key n in
  match r with
  | None => unregister key n
  | Some (obj, _) =>
      if negb (Object.Fresh obj (q_now q)) then unregister key n
      else if negb allowed then Schedule key (t_add (q_now q) delay) n
      else if negb (q_room q) then n
      else doBackgroundRefresh q res key obj staleHits n
  end.
End Serve.
