(* ===== verification/ServeSpec.v ===== *)
(** What the handler promises: where the bodies it serves come from, when it
    may serve what it has stored, that a filled response is found again, and
    that a purge removes it. The proofs use the store through the interface of
    [StoreSpec]. *)

From S2P Require Import Prelude GoStd Tiered TieredRefine H1Parser UABypass DateFormat FastPath GoStrings CacheControl HeaderMap RawReq Api HttpDate Engine Cacheable Conditional Cookies Keys Negotiate Vary KeyConfig StoreSpec Fill Handler Serve.

(** ** Streaming a body *)

(** The bytes up to the end the origin announced, if it did. *)
Fixpoint whole_body (reads : list (bytes * read_end * bool * Z)) : option bytes :=
  match reads with
  | [] => None
  | (chunk, e, _, _) :: reads =>
      match e with
      | More => option_map (app chunk) (whole_body reads)
      | ReadEOF => Some chunk
      | ReadFailed => None
      end
  end.

Definition buffer_cap (h : Handler) : Z := if h_maxResponseBytes h <=? 0 then defaultMaxResponseBytes else h_maxResponseBytes h.

(** What the loop keeps: while the buffer is in use it holds all that was
    sent, and it stays within the cap. *)
Record tee_ok (h : Handler) (t : tee) : Prop := {
  to_buf : t_exceeded t = false -> t_buf t = t_sent t;
  to_cap : len (t_buf t) <= buffer_cap h;
  to_prefix : t_buf t `prefix_of` t_sent t;
}.

Definition tee_take (h : Handler) (t : tee) (chunk : bytes) (load : Z) : tee :=
  let t1 := {| {| t with t_total := t_total t + len chunk |} with t_sent := t_sent t ++ chunk |} in
  if t_exceeded t then t1
  else if shouldStopBuffering h (t_buf t) (len chunk) (t_total t + len chunk) (buffer_cap h) load then {| t1 with t_exceeded := true |}
  else {| t1 with t_buf := t_buf t ++ chunk |}.

Lemma tee_take_ok (h : Handler) (t : tee) (chunk : bytes) (load : Z) : tee_ok h t ->
  let t1 := tee_take h t chunk load in
  tee_ok h t1 /\ t_complete t1 = t_complete t /\ t_sent t1 = t_sent t ++ chunk /\ t_total t1 = t_total t + len chunk.
Proof.
  intros [H1 H2 H3]. unfold tee_take. destruct (t_exceeded t) eqn:Ee.
  - split_and!; [split; cbn; [congruence|done|by apply prefix_app_r]|done..].
  - specialize (H1 eq_refl). destruct (shouldStopBuffering _ _ _ _ _ _) eqn:Es; split_and!; try done; split; cbn; try done; try by apply prefix_app_r.
    + intros _. by rewrite H1.
    + rewrite len_app. unfold shouldStopBuffering in Es. case_tests_in Es; [done..|]. bool_cases; lia.
    + by rewrite H1.
Qed.

(** One round of the loop. *)
Lemma tee_loop_round (h : Handler) (chunk : bytes) (e : read_end) (wfail : bool) (load : Z) (reads : list (bytes * read_end * bool * Z)) (t : tee) :
  tee_loop h (buffer_cap h) ((chunk, e, wfail, load) :: reads) t =
  if (0 <? len chunk) && wfail then {| t with t_total := t_total t + len chunk |}
  else let t := if 0 <? len chunk then tee_take h t chunk load else t in
       match e with More => tee_loop h (buffer_cap h) reads t | ReadEOF => {| t with t_complete := true |} | ReadFailed => t end.
Proof.
  cbn [tee_loop]. destruct (0 <? len chunk); [|done]. destruct wfail; [done|]. cbn [andb]. unfold tee_take. cbn.
  destruct (t_exceeded t) eqn:E; [done|]. by destruct (shouldStopBuffering _ _ _ _ _ _).
Qed.

Lemma tee_loop_ok (h : Handler) (reads : list (bytes * read_end * bool * Z)) : forall t,
  tee_ok h t -> t_complete t = false -> t_total t = len (t_sent t) ->
  let t' := tee_loop h (buffer_cap h) reads t in
  tee_ok h t' /\ t_sent t' = t_sent t ++ streamCopyFlush reads /\
  (t_complete t' = true -> whole_body reads = Some (streamCopyFlush reads) /\ t_total t' = len (t_sent t')).
Proof.
  induction reads as [|[[[chunk e] wfail] load] reads IH]; intros t Ht Hc Hl; cbn zeta.
  { cbn. rewrite app_nil_r, Hc. split_and!; done. }
  rewrite tee_loop_round. cbn [streamCopyFlush whole_body]. destruct ((0 <? len chunk) && wfail) eqn:Ew.
  { cbn. rewrite app_nil_r, Hc. split_and!; [by destruct Ht; split|done..]. }
  set (t1 := if 0 <? len chunk then _ else t). assert (tee_ok h t1 /\ t_complete t1 = false /\ t_sent t1 = t_sent t ++ chunk /\ t_total t1 = len (t_sent t1)) as (A & B & C & D).
  { unfold t1. destruct (0 <? len chunk) eqn:El.
    - destruct (tee_take_ok h t chunk load Ht) as (A & B & C & D). split_and!; [done|congruence|done|]. by rewrite D, C, len_app, Hl.
    - assert (chunk = []) as -> by (destruct chunk; [done|]; rewrite len_cons in El; pose proof (len_nonneg chunk); apply Z.ltb_ge in El; lia).
      by rewrite app_nil_r. }
  destruct e.
  - destruct (IH t1 A B D) as (A' & B' & C'). split_and!; [done|by rewrite B', C, app_assoc|]. intros Ec. destruct (C' Ec) as [-> ?]. done.
  - cbn. rewrite app_nil_r. split_and!; [by destruct A; split|done|done].
  - rewrite app_nil_r. split_and!; [done|done|]. by rewrite B.
Qed.

(** The client gets the chunks as they come, and the copy kept for the store is
    either the whole body the origin announced, equal to what the client was
    sent and within the cap, or it is not used: a stream cut by the client or by
    the origin is never marked complete, and a body past a cap is marked
    exceeded. *)
Lemma tee_exact (h : Handler) (reads : list (bytes * read_end * bool * Z)) :
  let t := teeStreamToClient h reads in
  t_sent t = streamCopyFlush reads /\ len (t_buf t) <= buffer_cap h /\ t_buf t `prefix_of` t_sent t /\
  (t_complete t = true -> t_exceeded t = false ->
   whole_body reads = Some (t_buf t) /\ t_buf t = t_sent t /\ t_total t = len (t_buf t)).
Proof.
  cbn zeta. unfold teeStreamToClient. fold (buffer_cap h).
  destruct (tee_loop_ok h reads (MkTee [] [] 0 false false)) as ([A B C] & D & E); [split; cbn; try done|done|done|].
  { change (0 <= buffer_cap h). unfold buffer_cap, defaultMaxResponseBytes. destruct (h_maxResponseBytes h <=? 0) eqn:Eh; bool_cases; lia. }
  split_and!; [exact D|exact B|exact C|]. intros Hc He. destruct (E Hc) as [E1 E2]. rewrite (A He), E2. split_and!; [|done|done]. by rewrite E1, D.
Qed.

(** ** Responses that may be shared *)

Definition resp_directives (hdr : Map) : Directives := (stored_directives hdr).1.

(** RFC 9111 section 3 for a shared cache: the directives in force allow
    storing, the response selects on named fields, an authorized request needs
    the origin's word, and client-state headers need the operator's. *)
Record shareable (h : Handler) (reqHeader : Map) (status : Z) (hdr : Map) : Prop := {
  sh_status : status <> 304;
  sh_store : NoStore (resp_directives hdr) = true -> MustUnderstand (resp_directives hdr) = true /\ isUnderstoodStatus status = true;
  sh_private : Private (resp_directives hdr) = false;
  sh_star : hasVaryStar hdr = false;
  sh_auth : Get reqHeader Hdr.Authorization <> [] ->
    Public (resp_directives hdr) = true \/ MustRevalidate (resp_directives hdr) = true \/ SMaxAgeSet (resp_directives hdr) = true;
  sh_state : clientStateInMap hdr = true -> h_allowSetCookie h = true;
}.

Lemma parsed_directives (status : Z) (reqHeader hdr : Map) : p_respCC (newParsedResponse status reqHeader hdr) = resp_directives hdr.
Proof. unfold newParsedResponse, resp_directives, stored_directives. destruct (cdnCacheControl hdr) as [d []]; done. Qed.

Lemma unblocked_shareable (h : Handler) (reqHeader : Map) (status : Z) (hdr : Map) (hasCDN : bool) :
  status <> 304 -> isCacheBlocked status (resp_directives hdr) hasCDN reqHeader hdr = false ->
  (clientStateInMap hdr = true -> h_allowSetCookie h = true) -> shareable h reqHeader status hdr.
Proof.
  unfold isCacheBlocked. intros Hs Hb Hc. case_tests_in Hb; try done. split; try done.
  - intros En. rewrite En in *. destruct (MustUnderstand _), (isUnderstoodStatus status); done.
  - intros Ha. apply beq_neq in Ha. rewrite Ha in *. destruct (Public _), (MustRevalidate _), (SMaxAgeSet _); auto.
Qed.

Lemma map_gate_unblocked (local : bytes -> Z -> option Z) (status : Z) (reqHeader hdr : Map) (neg : option StatusTTLPolicy) (ttl : Duration) :
  isCacheableWithDefault local (newParsedResponse status reqHeader hdr) neg ttl = true ->
  status <> 304 /\ exists b, isCacheBlocked status (resp_directives hdr) b reqHeader hdr = false.
Proof.
  intros Hg. assert (status <> 304) as Hs by (intros ->; by rewrite not_modified_uncacheable in Hg). split; [done|].
  assert (isCacheBlocked (p_status (newParsedResponse status reqHeader hdr)) (p_respCC (newParsedResponse status reqHeader hdr))
    (p_hasCDN (newParsedResponse status reqHeader hdr)) (p_reqHeader (newParsedResponse status reqHeader hdr))
    (p_respHeader (newParsedResponse status reqHeader hdr)) = false) as Hb.
  { revert Hg. unfold isCacheableWithDefault, isCacheable. destruct (isCacheBlocked _ _ _ _ _); [|done]. destruct (_ =? 304); by destruct (ttl <=? 0). }
  rewrite parsed_directives in Hb. unfold newParsedResponse in Hb. destruct (cdnCacheControl hdr) as [d b]. eauto.
Qed.

Lemma map_gate_shareable (local : bytes -> Z -> option Z) (h : Handler) (reqHeader : Map) (status : Z) (hdr : Map) (size : Z) :
  isCacheableWithDefault local (newParsedResponse status reqHeader hdr) (fp_neg (h_fp h)) (fp_defaultTTL (h_fp h)) = true ->
  skipStoreReason (h_allowSetCookie h) (h_maxObjectSize h) hdr size = [] -> shareable h reqHeader status hdr.
Proof.
  intros Hg Hk. destruct (map_gate_unblocked _ _ _ _ _ _ Hg) as [Hs [b Hb]]. apply (unblocked_shareable h _ _ _ b); [done..|].
  unfold skipStoreReason in Hk. intros E. rewrite E in Hk. by destruct (h_allowSetCookie h).
Qed.

(** What the code relies on of a response of the HTTP client. *)
Definition plain_response (sf : streamFetchResult) : Prop :=
  match sf_resp sf with
  | Some (hdr, _) => RespLaws hdr /\ full_lines hdr /\ plain_value (joinedVaryBytes hdr) = true
  | None => True
  end.

Lemma stream_gate_shareable (local : bytes -> Z -> option Z) (h : Handler) (ri : RequestInfo) (sf : streamFetchResult) :
  plain_response sf -> stream_cacheable local h sf ri = Some true -> shareable h (ReqHeader ri) (sf_StatusCode sf) (sf_toMap sf).
Proof.
  assert (isResponseCacheable local h sf ri (sf_toMap sf) = Some true -> shareable h (ReqHeader ri) (sf_StatusCode sf) (sf_toMap sf)) as Hmap.
  { unfold isResponseCacheable. destruct (isCacheableWithDefault _ _ _ _) eqn:Eg; cbn [andb]; [|done].
    destruct (negb (h_allowSetCookie h) && clientStateInMap (sf_toMap sf)) eqn:Es; [done|]. intros _.
    destruct (map_gate_unblocked _ _ _ _ _ _ Eg) as [Hs [b Hb]]. apply (unblocked_shareable h _ _ _ b); [done..|].
    intros E. rewrite E, andb_true_r in Es. by apply negb_false_iff in Es. }
  unfold plain_response, stream_cacheable. destruct (sf_resp sf) as [[hdr cl]|] eqn:Esf; [|intros _; exact Hmap].
  intros (Hl & Hf & Hp). unfold isResponseCacheableBytes. destruct (sf_StatusCode sf =? 304) eqn:E3; [done|]. apply Z.eqb_neq in E3.
  rewrite len_pos. destruct (beq (Peek hdr Hdr.CDNCacheControl) []) eqn:Ec; [|exact Hmap]. cbn [negb].
  rewrite ParseCacheControlBytes_eq. unfold joinedCacheControlBytes. rewrite joined_is_GetAll by done. fold (line_map hdr) (line_directives hdr).
  rewrite bytes_blocked_eq by done. destruct (refused _ _ _ || _) eqn:Er; [done|]. intros _.
  assert (sf_toMap sf = line_map hdr) as -> by (unfold sf_toMap; by rewrite Esf).
  assert (resp_directives (line_map hdr) = line_directives hdr) as Ed.
  { unfold resp_directives, stored_directives, cdnCacheControl. apply beq_eq in Ec. rewrite peek_is_Get in Ec by done. unfold line_map at 1.
    by rewrite no_line_GetAll. }
  apply orb_false_elim in Er as [Er Es]. unfold refused in Er. rewrite <- Ed in Er. repeat (apply orb_false_elim in Er as [Er ?]).
  split; try done.
  - intros En. rewrite En in Er. destruct (MustUnderstand _), (isUnderstoodStatus _); done.
  - intros Ha. apply beq_neq in Ha. rewrite Ha in *. destruct (Public _), (MustRevalidate _), (SMaxAgeSet _); auto.
  - intros E. rewrite E, andb_true_r in Es. by apply negb_false_iff in Es.
Qed.

(** ** Operations on a node whose store holds only good objects *)

Create HintDb kept.

Section Kept.
Context {S : Type} {OS : ObjectStore S} {SL : StoreLaws S} {ST : TotalStore S}.
Context (to_lower : bytes -> bytes) (sum64 : bytes -> Z) (sum128 : bytes -> Key) (local : bytes -> Z -> option Z).
Context (h : Handler) (ownerFn : option (Key -> bool)).
(** What is said of an object, whatever key it is stored under: [G] of objects,
    which a copy keeps. *)
Context (G : Object.t -> Prop) (HG : forall o o', G o -> Object.Body o' = Object.Body o -> G o').

Definition job_good (j : job) : Prop := match j with BgRevalidate _ _ stale => G stale | ShedRefill _ _ => True end.
Definition kept (n : Node S) : Prop := holds (fun _ o => G o) (n_store n) /\ Forall job_good (n_jobs n).

Lemma good_stable : stable (fun _ o => G o).
Proof using HG. intros k o o' Ho [Hf _ _ _]. apply (HG o); [done|]. by injection Hf. Qed.

Lemma kept_get (k : Key) (n : Node S) : kept n ->
  kept (get_from k n).1 /\ match (get_from k n).2 with Some (o, _) => G o | None => True end.
Proof using HG.
  intros [Hs Hj]. unfold get_from. pose proof (holds_Get _ k _ Hs) as Hh. pose proof (Get_holds (fun _ o => G o) k (n_store n)) as Hg.
  destruct (store_Get k (n_store n)) as [s r]. cbn in *. split; [by split|]. destruct r as [[o src]|]; [|done].
  by apply (Hg _ src good_stable Hs).
Qed.

Lemma kept_put (k : Key) (o : Object.t) (n : Node S) : kept n -> G o -> kept (with_store (store_Put k o (n_store n)).1 n).
Proof using ST. intros [Hs Hj] Ho. split; [|done]. cbn. apply holds_Put; [done|apply total_accepts|done]. Qed.

Lemma kept_delete (k : Key) (n : Node S) : kept n -> kept (with_store (store_Delete k (n_store n)).1 n).
Proof using ST. intros [Hs Hj]. split; [|done]. cbn. by apply total_Delete. Qed.

Lemma kept_dead (keys : list Key) : forall n : Node S, kept n -> kept (dead_keys keys n).1.
Proof using HG.
  induction keys as [|k keys IH]; intros n Hn; [done|]. cbn [dead_keys]. destruct (kept_get k n Hn) as [Hg _].
  destruct (get_from k n) as [n1 r]. specialize (IH n1 Hg). by destruct (dead_keys keys n1).
Qed.

Lemma kept_prune (p : Key) (keys : list Key) (n : Node S) : kept n -> kept (pruneDeadVariants p keys n).
Proof using HG. intros Hn. unfold pruneDeadVariants. pose proof (kept_dead keys n Hn) as Hd. by destruct (dead_keys keys n). Qed.

Lemma kept_reconcile (p : Key) (n : Node S) : kept n -> kept (reconcileStaleIncarnation ownerFn p n).
Proof using HG.
  intros Hn. unfold reconcileStaleIncarnation. destruct (kept_get p n Hn) as [Hg _]. destruct (get_from p n) as [n1 r].
  destruct r, ownerFn; try done. by apply kept_prune.
Qed.

Lemma kept_reserve (p k : Key) (peer : bool) (n : Node S) : kept n -> kept (reserveVariantSlotMode h ownerFn p k peer n).1.
Proof using HG.
  intros Hn. unfold reserveVariantSlotMode. assert (kept (set_variants p (liveVariantSet p n) n)) as H1 by done. revert H1.
  generalize (set_variants p (liveVariantSet p n) n). clear n Hn. intros n H1. case_bool_decide; [done|].
  set (n2 := if _ && negb peer then _ else n). assert (kept n2) as H2 by (unfold n2; case_tests; [by apply kept_reconcile|done]).
  destruct (_ <? _); [done|]. pose proof (kept_prune p (elements (liveVariantSet p n2)) n2 H2) as H3. by destruct (_ || _).
Qed.

Lemma kept_delete_keys (keys : list Key) : forall n : Node S, kept n -> kept (delete_keys keys n).
Proof using ST. induction keys as [|k keys IH]; intros n Hn; [done|]. cbn [delete_keys]. apply IH. exact (kept_delete k n Hn). Qed.

Lemma kept_purge (p : Key) (n : Node S) : kept n -> kept (Purge p n).1.1.
Proof using ST.
  intros Hn. unfold Purge. destruct (_ && _); [done|].
  match goal with |- context [delete_keys ?l ?m] => assert (kept (delete_keys l m)) as Hd by (by apply kept_delete_keys) end.
  revert Hd. generalize (delete_keys (elements (liveVariantSet p n)) {| n with n_variants := delete p (n_variants n) |}). intros m Hd.
  pose proof (kept_delete p m Hd) as Hm. destruct (store_Delete p (n_store m)) as [s []]; exact Hm.
Qed.

Lemma kept_broadcast (p : Key) (n : Node S) : kept n -> kept (purgeAndBroadcast p n).
Proof using ST. intros Hn. exact (kept_purge p n Hn). Qed.

Lemma kept_soft_keys (now : Time) (keys : list Key) : forall (n : Node S) owned, kept n -> kept (soft_purge_keys now keys n owned).1.1.
Proof using HG ST.
  induction keys as [|k keys IH]; intros n owned Hn; [done|]. cbn [soft_purge_keys]. destruct (kept_get k n Hn) as [Hg Ho].
  destruct (get_from k n) as [n1 [[o src]|]]; cbn in Hg, Ho; [|by apply IH]. destruct (_ && _).
  - apply IH. exact (kept_delete k n1 Hg).
  - assert (kept (with_store (store_Put k (softPurged o now) (n_store n1)).1 n1)) as Hp by (apply kept_put; [done|by apply (HG o)]).
    destruct (store_Put k _ (n_store n1)) as [s []]; [by apply IH|done].
Qed.

Lemma kept_soft (now : Time) (p : Key) (n : Node S) : kept n -> kept (SoftPurge now p n).1.1.
Proof using HG ST. apply kept_soft_keys. Qed.

Lemma kept_drift (stale : option Object.t) (ri : RequestInfo) (status : Z) (vary : bytes) (n : Node S) :
  kept n -> kept (driftPurge to_lower sum128 h stale ri status vary n).
Proof using ST. intros Hn. unfold driftPurge. case_tests; [by apply kept_purge|done]. Qed.

Lemma kept_register (k : Key) (o : Object.t) (ri : RequestInfo) (b : bool) (hits : Z) (n : Node S) : kept n -> kept (registerRefresh h k o ri b hits n).
Proof.
  intros Hn. unfold registerRefresh. case_tests; try done. all: by destruct (DecrementPersist k (n_registry n)) as [r []].
Qed.

Lemma kept_store (k : Key) (o : Object.t) (ri : RequestInfo) (b : bool) (hits : Z) (n : Node S) :
  kept n -> G o -> kept (storeObject h ownerFn k o ri b hits n).
Proof using ST. intros Hn Ho. unfold storeObject. case_tests; [done|]. apply kept_register. by apply kept_put. Qed.

Lemma kept_forward (o : Object.t) (n : Node S) : kept n -> kept (forwardToOwnerIfRemote ownerFn o n).
Proof. intros Hn. unfold forwardToOwnerIfRemote. destruct ownerFn; [|done]. by case_tests. Qed.

Lemma kept_resolver (o : Object.t) (p : Key) (ri : RequestInfo) (n : Node S) :
  kept n -> G (buildResolver o p) -> kept (storeResolver h ownerFn o p ri n).
Proof using ST. intros Hn Ho. unfold storeResolver. by apply kept_forward, kept_store. Qed.
End Kept.
#[export] Hint Resolve kept_drift kept_store kept_forward kept_broadcast kept_purge kept_soft kept_reserve kept_resolver : kept.

(** ** Where the bodies come from *)

Section Sources.
Context {S : Type} {OS : ObjectStore S} {SL : StoreLaws S} {ST : TotalStore S}.
Context (to_lower : bytes -> bytes) (sum64 : bytes -> Z) (sum128 : bytes -> Key) (local : bytes -> Z -> option Z).
Context (u : NetURL) (h : Handler) (gt : gates) (ownerFn : option (Key -> bool)).
(** The responses the origin gave to safe requests and to unsafe ones, and the
    objects received from peers. *)
Context (log posts : RequestInfo -> fetchResult -> Prop) (peers : Object.t -> Prop).

Inductive body_source (o : Object.t) : Prop :=
| from_response (ri : RequestInfo) (res : fetchResult) : log ri res ->
    shareable h (ReqHeader ri) (res_StatusCode res) (res_Header res) -> Object.Body o = res_Body res -> body_source o
| from_post (ri : RequestInfo) (res : fetchResult) : posts ri res ->
    clientStateInMap (res_Header res) = false -> Object.Body o = res_Body res -> body_source o
| from_peer (p : Object.t) : peers p -> Object.Body o = Object.Body p -> body_source o
| without_body : Object.Body o = [] -> body_source o.

Lemma body_source_copy (o o' : Object.t) : body_source o -> Object.Body o' = Object.Body o -> body_source o'.
Proof. intros [ri res H1 H2 H3|ri res H1 H2 H3|p H1 H2|H] E; rewrite <- E in *; [eapply from_response|eapply from_post|eapply from_peer|apply without_body]; eauto; congruence. Qed.

Abbreviation sound := (kept (S:=S) body_source).
Hint Resolve body_source_copy : kept.

Definition reply_good (r : reply) : Prop :=
  match r with
  | ServeObject o _ _ | ServeNotModified o _ _ | ServeParts _ o _ | ServeHead o _ _ => body_source o
  | _ => True
  end.
Definition outcome_good (r : Node S * reply) : Prop := sound r.1 /\ reply_good r.2.
Definition attempt_good (r : Node S * option reply) : Prop := sound r.1 /\ match r.2 with Some r => reply_good r | None => True end.

(** The logs have the answers to a request. *)
Record answers_in (q : req_env) (a : answers) (ctx : RequestCtx) : Prop := {
  in_stream sf : an_stream a = Ok sf -> plain_response sf /\
    log (requestInfoFromCtx ctx) (MkFetch (sf_StatusCode sf) (sf_toMap sf) (an_body a) (sf_Delay sf)) /\
    forall body, whole_body (an_reads a) = Some body -> log (requestInfoFromCtx ctx) (MkFetch (sf_StatusCode sf) (sf_toMap sf) body (sf_Delay sf));
  in_fetch res : an_fetch a = Ok res -> log (requestInfoFromCtx ctx) res;
  in_cond inm ims res : an_cond a inm ims = Ok res -> log (requestInfoFromCtx ctx) res;
  in_peer pf k v o : an_peer a = Some pf -> pf k v = Some (Some o) -> peers o;
  in_transferred o : q_transferred q = Some o -> peers o;
  in_proxy px : an_proxy a = Ok px -> RespLaws (px_Header px) /\ full_lines (px_Header px) /\
    posts (getRI ctx) (MkFetch (px_StatusCode px) (FromFastHTTP (All (px_Header px))) (px_Body px) 0);
}.

Lemma sound_memo (m : unstorableMemo) (n : Node S) : sound n -> sound {| n with n_memo := m |}.
Proof. done. Qed.

Lemma sound_job (q : req_env) (j : job) (n : Node S) : sound n -> job_good body_source j -> sound (start_job q j n).
Proof. intros [Hs Hj] Hg. unfold start_job. case_tests; [|done]. split; [done|]. cbn. apply Forall_app. by split; [|apply Forall_singleton]. Qed.

Lemma sound_shed (q : req_env) (ri : RequestInfo) (k : Key) (n : Node S) : sound n -> sound (triggerShedRefill gt q ri k n).
Proof. intros Hn. unfold triggerShedRefill. case_tests; [done|]. by apply sound_job. Qed.

Lemma fill_good (q : req_env) (k p : Key) (ri : RequestInfo) (res : fetchResult) (preset : option Duration) :
  log ri res -> shareable h (ReqHeader ri) (res_StatusCode res) (res_Header res) ->
  body_source (with_pair (buildObject to_lower sum64 local h (q_fill q) k ri res (res_Header res) preset (q_later q)) k p).
Proof.
  intros Hl Hs. apply (from_response _ ri res Hl Hs). unfold with_pair, buildObject. destruct (stored_directives (res_Header res)). by case_tests.
Qed.

Lemma refresh_good (q : req_env) (stale : Object.t) (res : fetchResult) (ri : RequestInfo) (now : Time) :
  body_source stale -> body_source (refreshFrom304 to_lower sum64 local h (q_fill q) stale res ri now).
Proof. intros H. apply (body_source_copy stale); [done|]. unfold refreshFrom304. by destruct (FreshnessLifetime _ _ _). Qed.

Lemma sound_streamed (q : req_env) (k p : Key) (ri : RequestInfo) (res : fetchResult) (preset : option Duration) (n : Node S) :
  sound n -> log ri res -> shareable h (ReqHeader ri) (res_StatusCode res) (res_Header res) ->
  sound (store_streamed to_lower sum64 local h ownerFn q k p ri res (res_Header res) preset n).
Proof using ST.
  intros Hn Hl Hs. unfold store_streamed. pose proof (fill_good q k p ri res preset Hl Hs) as Hf.
  case_tests; [by auto with kept|]. apply kept_resolver; [by auto with kept|]. by apply without_body.
Qed.

Lemma sound_reserve_for (k p : Key) (n : Node S) : sound n -> sound (reserve_for h ownerFn k p n).1.
Proof. intros Hn. unfold reserve_for. case_tests; [done|]. apply kept_reserve; [exact body_source_copy|done]. Qed.

Lemma buffered_good (q : req_env) (ctx : RequestCtx) (sf : streamFetchResult) (body : bytes) (p : Key) (ri : RequestInfo) (cacheable : bool)
    (preset : option Duration) (n : Node S) : sound n -> log ri (MkFetch (sf_StatusCode sf) (sf_toMap sf) body (sf_Delay sf)) ->
  (cacheable = true -> shareable h (ReqHeader ri) (sf_StatusCode sf) (sf_toMap sf)) ->
  outcome_good (streamMissBuffered to_lower sum64 local h ownerFn q ctx sf body p ri cacheable preset n).
Proof using ST.
  intros Hn Hl Hs. unfold streamMissBuffered. destruct (too_large _ _ && _); [done|].
  set (n1 := if negb cacheable && _ && _ && _ then _ else n). assert (sound n1) as H1 by (unfold n1; by case_tests).
  destruct (cacheable && _) eqn:Ec; [|done]. apply andb_prop in Ec as [Ec _]. destruct (too_large _ _); [done|].
  set (k := storeKey_of _ _ _ _ _ _). pose proof (sound_reserve_for k p n1 H1) as H2. destruct (reserve_for h ownerFn k p n1) as [n2 room]. cbn in H2.
  destruct room; cbn [negb]; [|done]. split; [|done].
  exact (sound_streamed q k p ri (MkFetch (sf_StatusCode sf) (sf_toMap sf) body (sf_Delay sf)) preset n2 H2 Hl (Hs Ec)).
Qed.

Lemma tee_good (q : req_env) (sf : streamFetchResult) (reads : list (bytes * read_end * bool * Z)) (p : Key) (ri : RequestInfo)
    (preset : option Duration) (n : Node S) : sound n ->
  (forall body, whole_body reads = Some body -> log ri (MkFetch (sf_StatusCode sf) (sf_toMap sf) body (sf_Delay sf))) ->
  shareable h (ReqHeader ri) (sf_StatusCode sf) (sf_toMap sf) ->
  outcome_good (streamMissTee to_lower sum64 local h ownerFn q sf reads p ri preset n).
Proof using ST.
  intros Hn Hl Hs. unfold streamMissTee. set (k := storeKey_of _ _ _ _ _ _). pose proof (sound_reserve_for k p n Hn) as H2.
  destruct (reserve_for h ownerFn k p n) as [n2 room]. cbn in H2. destruct (tee_exact h reads) as (_ & _ & _ & Ht).
  destruct room; cbn [negb]; [|done]. destruct (t_complete _) eqn:Ec; cbn [negb]; [|done]. destruct (t_exceeded _) eqn:Ee; cbn [orb]; [done|].
  destruct (too_large _ _); [done|]. split; [|done]. destruct (Ht eq_refl eq_refl) as [Hb _].
  exact (sound_streamed q k p ri (MkFetch (sf_StatusCode sf) (sf_toMap sf) (t_buf (teeStreamToClient h reads)) (sf_Delay sf)) preset n2 H2 (Hl _ Hb) Hs).
Qed.

Lemma stream_miss_good (q : req_env) (a : answers) (ctx : RequestCtx) (p : Key) (n : Node S) : sound n -> answers_in q a ctx ->
  outcome_good (streamMiss to_lower sum64 local h gt ownerFn q a ctx p (requestInfoFromCtx ctx) n).
Proof using ST.
  intros Hn Ha. unfold streamMiss. destruct (an_stream a) as [sf|[]] eqn:Es; [|split; [by apply sound_shed|done]|done|done].
  destruct (in_stream _ _ _ Ha sf Es) as (Hp & Hl & Hw). destruct (_ && is_event_stream sf); [done|].
  destruct (stream_cacheable local h sf _) as [c|] eqn:Ec; [|done].
  assert (c = true -> shareable h (ReqHeader (requestInfoFromCtx ctx)) (sf_StatusCode sf) (sf_toMap sf)) as Hs
    by (intros ->; by apply (stream_gate_shareable local)).
  destruct (_ || _) eqn:Eb; [by apply buffered_good|]. apply tee_good; [done|done|]. apply Hs. repeat (apply orb_false_elim in Eb as [Eb ?]).
  by apply negb_false_iff.
Qed.

Lemma write_good (q : req_env) (method : bytes) (res : fetchResult) (p : Key) (stale : option Object.t) (ri : RequestInfo) (n : Node S) :
  sound n -> log ri res -> outcome_good (writeAndMaybeStore to_lower sum64 sum128 local h ownerFn q method res p stale ri n).
Proof using ST.
  intros Hn Hl. unfold writeAndMaybeStore. destruct (isHead method); [done|]. split; [|done]. cbn [fst]. unfold store_response.
  destruct (isCacheableWithDefault _ _ _ _) eqn:Eg; cbn [negb]; [|done].
  destruct (beq (skipStoreReason _ _ _ _) []) eqn:Ek; cbn [negb]; [|done]. apply beq_eq in Ek.
  pose proof (map_gate_shareable _ _ _ _ _ _ Eg Ek) as Hs. set (n1 := driftPurge _ _ _ _ _ _ _ _).
  assert (sound n1) as H1 by (unfold n1; auto with kept). set (k := storeKey_of _ _ _ _ _ _).
  pose proof (fill_good q k p ri res (sync_ttl local h q res ri) Hl Hs) as Hf. set (obj := with_pair _ _ _) in *.
  destruct (beq k p) eqn:E; [by auto with kept|].
  pose proof (kept_reserve h ownerFn body_source body_source_copy p k false n1 H1) as H2. unfold reserveVariantSlot.
  destruct (reserveVariantSlotMode h ownerFn p k false n1) as [n2 room]. cbn in H2. destruct room; cbn [negb]; [|done].
  apply kept_resolver; [by auto with kept|]. by apply without_body.
Qed.

Lemma conditional_good (ctx : RequestCtx) (o : Object.t) (r : cacheResult) (from : served_from) :
  body_source o -> reply_good (conditional_or_object local ctx o r from).
Proof. intros H. unfold conditional_or_object. by case_tests. Qed.

Lemma freshen_good (q : req_env) (ctx : RequestCtx) (res : fetchResult) (k p : Key) (stale : Object.t) (src : Tiered.Source) (ri : RequestInfo) (n : Node S) :
  sound n -> log ri res -> body_source stale -> outcome_good (freshen_or_store to_lower sum64 sum128 local h ownerFn q ctx res k p stale src ri n).
Proof using ST.
  intros Hn Hl Hs. unfold freshen_or_store. destruct (isHead (ctx_Method ctx)); [|by apply write_good]. unfold freshenFromHead, head_freshened.
  destruct (_ && _); [by apply write_good|]. destruct (_ || _); [by apply write_good|].
  pose proof (refresh_good q stale res ri (q_now q) Hs) as Hr. split; cbn [fst snd]; [by auto with kept|]. by case_tests.
Qed.

Lemma alive_good (q : req_env) (a : answers) (ctx : RequestCtx) (k p : Key) (stale : Object.t) (src : Tiered.Source) (n : Node S) :
  sound n -> answers_in q a ctx -> body_source stale ->
  outcome_good (fetchAndStoreStayinAlive to_lower sum64 sum128 local h gt ownerFn q a ctx k p stale src (requestInfoFromCtx ctx) n).
Proof using ST.
  intros Hn Ha Hs. unfold fetchAndStoreStayinAlive. destruct (an_fetch a) as [res|[]] eqn:E; [|split; [by apply sound_shed|done]|done|done].
  destruct (500 <=? _); [done|]. apply freshen_good; [done|by eapply in_fetch|done].
Qed.

Lemma revalidate_good (q : req_env) (a : answers) (ctx : RequestCtx) (p k : Key) (stale : Object.t) (src : Tiered.Source) (n : Node S) :
  sound n -> answers_in q a ctx -> body_source stale ->
  outcome_good (revalidate to_lower sum64 sum128 local h ownerFn q a ctx p k stale src (requestInfoFromCtx ctx) n).
Proof using ST.
  intros Hn Ha Hs. unfold revalidate. destruct (setConditionalHeaders ctx stale) as [inm ims]. destruct (an_cond a inm ims) as [res|e] eqn:E.
  - destruct (_ && _); [done|]. destruct (_ =? 304); [|apply freshen_good; [done|by eapply in_cond|done]].
    pose proof (refresh_good q stale res (requestInfoFromCtx ctx) (q_now q) Hs) as Hr. split; [|by apply conditional_good]. by cbn; auto with kept.
  - by case_tests.
Qed.

Lemma resolver304_good (q : req_env) (ctx : RequestCtx) (r : Object.t) (res : fetchResult) (src : Tiered.Source) (ri : RequestInfo) (n : Node S) :
  sound n -> body_source r -> attempt_good (serveResolver304 to_lower sum64 sum128 local h q ctx r res src ri n).
Proof using ST.
  intros Hn Hr. unfold serveResolver304. destruct (_ && _); [done|]. destruct (_ && _); [by case_tests|].
  set (found := if negb (beq (Object.PairedKey r) zero_key) then _ else _).
  assert (sound found.1 /\ match found.2 with Some (b, _) => forall o, Object.Body o = b -> body_source o | None => True end) as [H1 H2].
  { unfold found. destruct (negb _).
    - destruct (kept_get body_source body_source_copy (Object.PairedKey r) n Hn) as [A B]. destruct (get_from _ n) as [n1 [[m msrc]|]]; cbn in *; [|done].
      split; [done|]. intros o. by apply body_source_copy.
    - split; [done|]. cbn. intros o. by apply body_source_copy. }
  destruct found as [n1 [[b size]|]]; cbn in H1, H2; [|done]. set (o := if beq b [] && _ then _ else _).
  assert (body_source o) as Ho by (apply H2; unfold o; by case_tests). split; [by cbn; auto with kept|]. by apply conditional_good.
Qed.

Lemma resolver_attempt_good (q : req_env) (a : answers) (ctx : RequestCtx) (p k : Key) (r : option (Object.t * Tiered.Source)) (n : Node S) :
  sound n -> answers_in q a ctx -> match r with Some (o, _) => body_source o | None => True end ->
  attempt_good (resolver_attempt to_lower sum64 sum128 local h ownerFn q a ctx p k r (requestInfoFromCtx ctx) n).
Proof using ST.
  intros Hn Ha Hr. unfold resolver_attempt. destruct r as [[r src]|]; [|done]. case_tests; [|done]. unfold revalidateResolverMiss.
  destruct (resolver_validators ctx r) as [inm ims]. destruct (an_cond a inm ims) as [res|e] eqn:E; [|done].
  destruct (_ =? 304); [by apply resolver304_good|].
  pose proof (write_good q (ctx_Method ctx) res p None (requestInfoFromCtx ctx) n Hn (in_cond _ _ _ Ha _ _ _ E)) as [A B].
  by destruct (writeAndMaybeStore _ _ _ _ _ _ _ _ _ _ _ _ n).
Qed.

Lemma peer_hit_good (q : req_env) (k : Key) (o : Object.t) (ri : RequestInfo) (n : Node S) :
  sound n -> body_source o -> attempt_good (servePeerHit to_lower sum64 h q k o ri n).
Proof.
  intros Hn Ho. unfold servePeerHit. destruct (_ && _); [done|]. destruct (decision _); try done. split; [|done]. cbn [fst].
  case_tests; [|done]. by apply sound_job.
Qed.

Lemma derived_good (q : req_env) (a : answers) (ctx : RequestCtx) (isLocal : Key -> bool) (pf : Key -> bytes -> option (option Object.t)) (p : Key)
    (vary : bytes) (ri : RequestInfo) (n : Node S) : sound n -> answers_in q a ctx -> an_peer a = Some pf ->
  attempt_good (serveDerivedPeerVariant to_lower sum64 h q isLocal pf p vary ri n).
Proof using ST.
  intros Hn Ha Hpf. unfold serveDerivedPeerVariant. case_tests; [done|done|]. unfold getVariantForResolution. set (vk := VariantKey _ _ _ _ _ _).
  destruct (isLocal vk).
  - destruct (kept_get body_source body_source_copy vk n Hn) as [A B]. destruct (get_from vk n) as [n1 [[o src]|]]; cbn in *; [by apply peer_hit_good|done].
  - destruct (pf vk _) as [[o|]|] eqn:E; [|done..]. apply peer_hit_good; [done|]. apply (from_peer o o); [|done]. by eapply in_peer.
Qed.

Lemma use_peer_good (q : req_env) (a : answers) (ctx : RequestCtx) (isLocal : Key -> bool) (pf : Key -> bytes -> option (option Object.t)) (p k : Key)
    (tried : bytes) (answer : option (option Object.t)) (ri : RequestInfo) (n : Node S) : sound n -> answers_in q a ctx -> an_peer a = Some pf ->
  (forall o, answer = Some (Some o) -> peers o) -> attempt_good (use_peer_object to_lower sum64 h q isLocal pf p k tried answer ri n).
Proof using ST.
  intros Hn Ha Hpf Ho. unfold use_peer_object. destruct answer as [[o|]|]; [|done..]. destruct (isPeerResolverMetadata o).
  - case_tests; [done|]. by eapply derived_good.
  - apply peer_hit_good; [done|]. apply (from_peer o o); [|done]. by apply Ho.
Qed.

Lemma ask_owner_good (q : req_env) (a : answers) (ctx : RequestCtx) (p k : Key) (obj resolver : option Object.t) (ri : RequestInfo) (n : Node S) :
  sound n -> answers_in q a ctx -> attempt_good (ask_owner to_lower sum64 h ownerFn q a p k obj resolver ri n).
Proof using ST.
  intros Hn Ha. unfold ask_owner. destruct (peerHintsApply h q obj); [done|]. destruct ownerFn as [isLocal|]; [|done].
  destruct (an_peer a) as [pf|] eqn:Epf; [|done]. destruct (_ || _); [done|]. unfold transferredResolver.
  assert (forall tried n1, sound n1 -> attempt_good (use_peer_object to_lower sum64 h q isLocal pf p k tried (pf k (peerVaryAssertion obj)) ri n1)) as Hask.
  { intros tried n1 H1. eapply use_peer_good; [done..|]. intros o. by apply (in_peer _ _ _ Ha _ _ _ _ Epf). }
  assert (forall tried, attempt_good (let '(n, served) := if beq tried [] then (n, None) else serveDerivedPeerVariant to_lower sum64 h q isLocal pf p tried ri n in
    match served with Some r => (n, Some r) | None => use_peer_object to_lower sum64 h q isLocal pf p k tried (pf k (peerVaryAssertion obj)) ri n end)) as Hd.
  { intros tried. destruct (beq tried []); [by apply Hask|]. pose proof (derived_good q a ctx isLocal pf p tried ri n Hn Ha Epf) as [A B].
    destruct (serveDerivedPeerVariant _ _ _ _ _ _ _ _ _ n) as [n1 [r|]]; [done|by apply Hask]. }
  destruct obj as [o|]; [apply Hd|]. destruct (q_transferred q) as [x|] eqn:Ex; [|apply Hd].
  destruct (_ || _); [apply Hd|]. eapply use_peer_good; [done..|]. intros o [= <-]. by eapply in_transferred.
Qed.

Lemma miss_good (q : req_env) (a : answers) (ctx : RequestCtx) (p k : Key) (obj resolver : option (Object.t * Tiered.Source)) (n : Node S) :
  sound n -> answers_in q a ctx -> match obj with Some (o, _) => body_source o | None => True end ->
  match resolver with Some (o, _) => body_source o | None => True end ->
  outcome_good (handleCacheMiss to_lower sum64 sum128 local h gt ownerFn q a ctx p k obj resolver (requestInfoFromCtx ctx) n).
Proof using ST.
  intros Hn Ha Ho Hr. unfold handleCacheMiss.
  pose proof (ask_owner_good q a ctx p k (option_map fst obj) (option_map fst resolver) (requestInfoFromCtx ctx) n Hn Ha) as [A B].
  destruct (ask_owner _ _ _ _ _ _ _ _ _ _ _ n) as [n1 [r|]]; cbn in A, B; [done|].
  pose proof (resolver_attempt_good q a ctx p k resolver n1 A Ha Hr) as [C D].
  destruct (resolver_attempt _ _ _ _ _ _ _ _ _ _ _ _ _ n1) as [n2 [r|]]; cbn in C, D; [done|].
  destruct obj as [[o src]|]; [|by apply stream_miss_good]. case_tests; [by apply alive_good|by apply stream_miss_good].
Qed.

Lemma locations_good (ctx : RequestCtx) (hdr : FastHeader) (names : list bytes) : forall n : Node S, sound n ->
  sound (purge_locations sum128 u h ctx hdr names n).1.
Proof using ST.
  induction names as [|name names IH]; intros n Hn; [done|]. cbn [purge_locations]. destruct (beq _ []); [by apply IH|].
  destruct (buildLocationKey _ _ _ _ _); [|done]. apply IH. case_tests; [done|]. by apply kept_broadcast.
Qed.

Lemma purge_after_good (ctx : RequestCtx) (hdr : FastHeader) (n : Node S) : sound n -> sound (purgeAfterSSEProxy sum128 u h ctx hdr n).1.
Proof using ST. intros Hn. unfold purgeAfterSSEProxy. apply locations_good. by apply kept_broadcast. Qed.

Lemma invalidate_good (q : req_env) (a : answers) (ctx : RequestCtx) (n : Node S) : sound n -> answers_in q a ctx ->
  outcome_good (invalidateAndProxy to_lower sum64 sum128 local u h gt ownerFn q a ctx n).
Proof using ST.
  intros Hn Ha. unfold invalidateAndProxy. destruct (negb _); [done|]. destruct (an_proxy a) as [px|[]] eqn:E; try done.
  destruct (too_large _ _); [done|]. destruct (succeeded _); [|done]. destruct (in_proxy _ _ _ Ha px E) as (Hl & Hf & Hp).
  unfold invalidateAfterProxyFast. pose proof (purge_after_good ctx (px_Header px) n Hn) as H1.
  destruct (purgeAfterSSEProxy _ _ _ _ _ n) as [n1 []]; [|done]. split; [|done]. cbn [fst] in *. unfold maybeStorePostResponseFast.
  destruct (h_disabled h); [done|]. destruct (_ =? 304); [done|]. destruct (clientStateInFastHTTP _) eqn:Ec; [done|]. destruct (beq _ []); [done|].
  apply kept_store; [done|]. apply (from_post _ _ _ Hp); [|unfold buildObject; by destruct (stored_directives _)].
  cbn. rewrite <- client_state_is_map by done. done.
Qed.

Lemma sse_good (a : answers) (ctx : RequestCtx) (n : Node S) : sound n -> outcome_good (handleSSE sum128 u h gt a ctx n).
Proof using ST.
  intros Hn. unfold handleSSE. destruct (negb _); [done|]. destruct (an_stream a) as [sf|[]]; try done. destruct (sf_resp sf) as [[hdr cl]|]; [|done].
  destruct (_ && _); [|done]. pose proof (purge_after_good ctx hdr n Hn) as H1. destruct (purgeAfterSSEProxy _ _ _ _ _ n) as [n1 []]; done.
Qed.

Lemma hit_good (q : req_env) (ctx : RequestCtx) (k : Key) (o : Object.t) (src : Tiered.Source) (stale : bool) (n : Node S) :
  sound n -> body_source o -> outcome_good (serve_hit local h ownerFn q ctx k o src stale n).
Proof.
  intros Hn Ho. unfold serve_hit.
  assert (sound (if stale && (0 <? Object.StaleWhileRevalidate o) && isOwnerOrUnmanaged ownerFn k
                 then triggerBgRevalidate q (requestInfoFromCtx ctx) k o n else n)) as Hr by (case_tests; [by apply sound_job|done]).
  destruct (tryConditional304Fast _ _ _); [done|]. destruct (if 0 <? _ then _ else _) as [[[] ops]|]; done.
Qed.

Lemma lookup_good (ctx : RequestCtx) (n : Node S) : sound n ->
  let '(n1, _, _, obj, resolver) := lookup to_lower sum64 sum128 h ctx n in
  sound n1 /\ match obj with Some (o, _) => body_source o | None => True end /\ match resolver with Some (o, _) => body_source o | None => True end.
Proof.
  intros Hn. unfold lookup. destruct (kept_get body_source body_source_copy (buildKey sum128 (h_policy h) ctx) n Hn) as [A B].
  destruct (get_from _ n) as [n1 [[o src]|]]; cbn in A, B; [|done]. case_tests; try done.
  set (vk := VariantKeyFast _ _ _ _ _ _). destruct (kept_get body_source body_source_copy vk n1 A) as [C D]. by destruct (get_from vk n1) as [n2 [[v vsrc]|]].
Qed.

Lemma request_good (q : req_env) (a : answers) (ctx : RequestCtx) (n : Node S) : sound n -> answers_in q a ctx ->
  outcome_good (ServeRequest to_lower sum64 sum128 local u h gt ownerFn q a ctx n).
Proof using ST.
  intros Hn Ha. unfold ServeRequest, serveDisabledRoute, serveInvalidating, serveCacheBypass.
  pose proof (sse_good a ctx n Hn) as Hsse. pose proof (invalidate_good q a ctx n Hn Ha) as Hinv.
  assert (reply_good (handleBypass ctx a)) as Hby.
  { unfold handleBypass, streamBypass. case_tests; [done|]. by destruct (an_stream a) as [sf|[]]. }
  destruct (h_disabled h); [by case_tests|]. destruct (isInvalidatingBytes _); [by case_tests|]. destruct (requestBypass _ _ _ _); [by case_tests|].
  pose proof (lookup_good ctx n Hn) as Hl. destruct (lookup _ _ _ _ ctx n) as [[[[n1 p] k] obj] resolver]. destruct Hl as (H1 & Ho & Hr).
  unfold dispatch. pose proof (sse_good a ctx n1 H1) as Hs1.
  destruct (decision _); destruct obj as [[o src]|]; try by apply hit_good. all: try done. all: destruct (sseIntent ctx); try done.
  all: try by apply miss_good. destruct (isOwnerOrUnmanaged ownerFn k); cbn [negb]; [by apply revalidate_good|by apply miss_good].
Qed.

(** ** Events *)

(** A request with what it is answered; an object from a peer; a purge; a soft
    purge; the run of a started job, with the origin's answer and the hits of
    the entry; a scheduled refresh. *)
Inductive event : Type :=
| ERequest (q : req_env) (a : answers) (ctx : RequestCtx)
| EPeerPut (o : Object.t)
| EPurge (key : Key)
| ESoftPurge (now : Time) (key : Key)
| ERunJob (q : req_env) (res : result fetch_error fetchResult) (hits : Z) (i : nat)
| ERefresh (q : req_env) (res : result fetch_error fetchResult) (allowed : bool) (delay : Duration) (hits : Z) (key : Key).

Definition run_job (q : req_env) (res : result fetch_error fetchResult) (hits : Z) (j : job) (n : Node S) : Node S :=
  match j with
  | BgRevalidate ri key stale => doBackgroundRevalidate to_lower sum64 sum128 local h ownerFn q res ri key stale hits n
  | ShedRefill ri key => doShedRefill to_lower sum64 local h ownerFn q res ri key n
  end.

Definition event_step (e : event) (n : Node S) : Node S * option reply :=
  match e with
  | ERequest q a ctx => let '(n, r) := ServeRequest to_lower sum64 sum128 local u h gt ownerFn q a ctx n in (n, Some r)
  | EPeerPut o => (StoreFromPeer h ownerFn o n, None)
  | EPurge key => ((Purge key n).1.1, None)
  | ESoftPurge now key => ((SoftPurge now key n).1.1, None)
  | ERunJob q res hits i =>
      match n_jobs n !! i with
      | Some j => (run_job q res hits j {| n with n_jobs := delete i (n_jobs n) |}, None)
      | None => (n, None)
      end
  | ERefresh q res allowed delay hits key =>
      (triggerBgRefresh to_lower sum64 sum128 local u h ownerFn q res allowed delay hits key n, None)
  end.

Fixpoint run (es : list event) (n : Node S) : Node S * list reply :=
  match es with
  | [] => (n, [])
  | e :: es => let '(n, r) := event_step e n in let '(n, rs) := run es n in (n, match r with Some r => r :: rs | None => rs end)
  end.

(** The logs have what the event brings in. *)
Definition event_in (e : event) (n : Node S) : Prop :=
  match e with
  | ERequest q a ctx => answers_in q a ctx
  | EPeerPut o => peers o
  | ERunJob _ (Ok res) _ i => forall j, n_jobs n !! i = Some j -> match j with BgRevalidate ri _ _ | ShedRefill ri _ => log ri res end
  | ERefresh _ (Ok res) _ _ _ key => forall entry v, n_registry n !! key = Some entry -> url_Parse u (re_url entry) = Some v -> log (refresh_request u entry v) res
  | _ => True
  end.
Fixpoint run_in (es : list event) (n : Node S) : Prop :=
  match es with [] => True | e :: es => event_in e n /\ run_in es (event_step e n).1 end.

Lemma may_store_shareable (ri : RequestInfo) (res : fetchResult) :
  may_store local h ri res = true -> shareable h (ReqHeader ri) (res_StatusCode res) (res_Header res).
Proof. intros [Hg Hk]%andb_prop. apply beq_eq in Hk. by eapply map_gate_shareable. Qed.

Lemma built_good (q : req_env) (k : Key) (ri : RequestInfo) (res : fetchResult) : log ri res -> may_store local h ri res = true ->
  body_source (built to_lower sum64 local h q k ri res).
Proof. intros Hl Hm. apply (from_response _ ri res Hl (may_store_shareable _ _ Hm)). unfold built, buildObject. by destruct (stored_directives _). Qed.

Lemma job_sound (q : req_env) (res : result fetch_error fetchResult) (hits : Z) (j : job) (n : Node S) : sound n -> job_good body_source j ->
  match res with Ok res => match j with BgRevalidate ri _ _ | ShedRefill ri _ => log ri res end | Err _ => True end -> sound (run_job q res hits j n).
Proof using ST.
  intros Hn Hj Hl. destruct j as [ri k stale|ri k]; cbn [run_job].
  - unfold doBackgroundRevalidate. destruct (Object.IsVaryResolver stale); [done|]. destruct res as [res|]; [|done]. destruct (_ =? 304).
    + pose proof (refresh_good q stale res ri (q_later q) Hj) as Hr. auto with kept.
    + destruct (may_store local h ri res) eqn:Em; [|done]. pose proof (built_good q k ri res Hl Em) as Hb.
      set (o := if negb _ then _ else _). assert (body_source o) as Ho by (unfold o; case_tests; [by apply (body_source_copy _ _ Hb)|done]). auto with kept.
  - unfold doShedRefill. destruct res as [res|]; [|done]. destruct (may_store local h ri res) eqn:Em; cbn [negb]; [|done].
    pose proof (built_good q k ri res Hl Em) as Hb. auto with kept.
Qed.

Lemma refresh_sound (q : req_env) (res : result fetch_error fetchResult) (allowed : bool) (delay : Duration) (hits : Z) (k : Key) (n : Node S) : sound n ->
  event_in (ERefresh q res allowed delay hits k) n -> sound (triggerBgRefresh to_lower sum64 sum128 local u h ownerFn q res allowed delay hits k n).
Proof using ST.
  intros Hn Hin. unfold triggerBgRefresh. destruct (kept_get body_source body_source_copy k n Hn) as [A B].
  assert (n_registry (get_from k n).1 = n_registry n) as Er by (unfold get_from; by destruct (store_Get k (n_store n))).
  destruct (get_from k n) as [n1 [[o src]|]]; cbn in A, B, Er; [|done]. case_tests; try done. unfold doBackgroundRefresh.
  destruct (n_registry n1 !! k) as [entry|] eqn:En; [|done]. destruct (url_Parse u (re_url entry)) as [v|] eqn:Ev; [|done].
  destruct res as [res|]; [|unfold scheduleRefreshRetry; by case_tests]. cbn in Hin. rewrite <- Er in Hin. specialize (Hin _ _ En Ev).
  destruct (_ =? 304).
  - pose proof (refresh_good q o res (refresh_request u entry v) (q_later q) B) as Hr. auto with kept.
  - destruct (may_store local h (refresh_request u entry v) res) eqn:Em; [|done]. apply kept_store; [by auto with kept|].
    by apply (body_source_copy _ _ (built_good q k _ res Hin Em)).
Qed.

Lemma step_good (e : event) (n : Node S) : sound n -> event_in e n ->
  sound (event_step e n).1 /\ match (event_step e n).2 with Some r => reply_good r | None => True end.
Proof using ST.
  intros Hn Hin. destruct e as [q a ctx|o|k|now k|q res hits i|q res al delay hits k]; cbn [event_step].
  - pose proof (request_good q a ctx n Hn Hin) as [A B]. by destruct (ServeRequest _ _ _ _ _ _ _ _ _ _ _ n).
  - split; [|done]. unfold StoreFromPeer. cbn [fst]. destruct (beq _ _); [done|]. apply kept_store; [|by apply (from_peer o o)].
    case_tests; [|done]. apply kept_reserve; [exact body_source_copy|done].
  - split; [by apply kept_purge|done].
  - split; [|done]. apply kept_soft; [exact body_source_copy|done].
  - destruct (n_jobs n !! i) as [j|] eqn:Ej; [|done]. split; [|done]. destruct Hn as [Hs Hj]. apply job_sound.
    + split; [done|]. cbn. by apply Forall_delete.
    + rewrite Forall_lookup in Hj. by eapply Hj.
    + destruct res; [|done]. by apply Hin.
  - split; [|done]. by apply refresh_sound.
Qed.
End Sources.

(** C1. Whatever the handler does, over any run of requests (hits, misses,
    revalidations, unsafe methods), purges, peer objects, background jobs and
    scheduled refreshes, on any store that accepts every object (it may lose
    objects and fail), the body of every object in the store and of every
    object served from the cache is that of a response the origin gave to a
    request for which it may be shared (not no-store, not private, no Vary: *,
    with the origin's word when the request was authorized, without
    client-state headers unless the operator allows them), or of a response to
    an unsafe request, or of an object a peer sent, or empty. The responses are
    assumed to have no empty line among the fields the gates read and no control
    characters in Vary: [ServeCases.empty_cdn_line_is_shared] is a response with
    an empty CDN-Cache-Control line that is stored although it is no-store. *)
Theorem served_bodies_shareable {S : Type} {OS : ObjectStore S} {SL : StoreLaws S} {ST : TotalStore S}
    (to_lower : bytes -> bytes) (sum64 : bytes -> Z) (sum128 : bytes -> Key) (local : bytes -> Z -> option Z) (u : NetURL)
    (h : Handler) (gt : gates) (ownerFn : option (Key -> bool))
    (log posts : RequestInfo -> fetchResult -> Prop) (peers : Object.t -> Prop) (es : list event) (n : Node S)
    (Hn : holds (fun _ o => body_source h log posts peers o) (n_store n)) (Hj : n_jobs n = [])
    (Hin : run_in to_lower sum64 sum128 local u h gt ownerFn log posts peers es n) :
  let '(n', replies) := run to_lower sum64 sum128 local u h gt ownerFn es n in
  holds (fun _ o => body_source h log posts peers o) (n_store n') /\ Forall (reply_good h log posts peers) replies.
Proof.
  assert (kept (body_source h log posts peers) n) as Hk by (split; [done|by rewrite Hj]). clear Hn Hj. revert n Hk Hin.
  induction es as [|e es IH]; intros n Hk Hin; cbn [run]; [split; [apply Hk|done]|]. destruct Hin as [He Hin].
  destruct (step_good to_lower sum64 sum128 local u h gt ownerFn log posts peers e n Hk He) as [H1 H2].
  destruct (event_step _ _ _ _ _ _ _ _ e n) as [n1 r]. cbn in H1, H2, Hin. specialize (IH n1 H1 Hin).
  destruct (run _ _ _ _ _ _ _ _ es n1) as [n2 rs]. destruct IH as [A B]. split; [done|]. destruct r; [by constructor|done].
Qed.

(** ** When a stored response may be served *)

Section Licensed.
Context {S : Type} {OS : ObjectStore S}.
Context (to_lower : bytes -> bytes) (sum64 : bytes -> Z) (sum128 : bytes -> Key) (local : bytes -> Z -> option Z).
Context (u : NetURL) (h : Handler) (gt : gates) (ownerFn : option (Key -> bool)).
Context (q : req_env) (a : answers) (ctx : RequestCtx).
(** The node when the request arrives. *)
Context (n0 : Node S).

Definition origin_failed (r : result fetch_error fetchResult) : Prop := match r with Err _ => True | Ok res => 500 <= res_StatusCode res end.

(** A reply made from a stored object: the object, or a 304 for the client's own
    condition. *)
Inductive made_from (o : Object.t) (r : cacheResult) (from : served_from) : reply -> Prop :=
| made_object : made_from o r from (ServeObject o r from)
| made_304 : tryConditional304Fast local (Peek (ctx_Header ctx)) o = true -> made_from o r from (ServeNotModified o r from).

(** The decision on what the lookup found under the request's key. *)
Definition verdict (o : Object.t) : Decision := decision (evaluateFast (ctx_Method ctx) (Peek (ctx_Header ctx)) (Some o) (q_now q)).

(** The request goes through the cache. *)
Definition uses_cache : Prop :=
  h_disabled h = false /\ isInvalidatingBytes (ctx_Method ctx) = false /\
  requestBypass (g_bypassOnCookie gt) (g_bypassCookieNames gt) (g_uaBypass gt) ctx = false.

(** The origin may be asked: the request does not go through the cache, or
    nothing was found that may be served. *)
Definition asks (found : option (Object.t * Tiered.Source)) : Prop :=
  ~ uses_cache \/ forall o src, found = Some (o, src) -> verdict o <> Hit /\ verdict o <> StaleHit.

(** The node after some lookups of this request and nothing else. *)
Inductive looked : Node S -> Prop :=
| LK_start : looked n0
| LK_get n k : looked n -> looked (get_from k n).1.

(** The node has the object under the key when this request looks. *)
Definition in_store (k : Key) (o : Object.t) : Prop := exists n src, looked n /\ (get_from k n).2 = Some (o, src).

(** The dereferences that can fail: a range outside the stored body, the missing
    response of an in-process upstream, a Location header resolved against a
    request target that does not parse. *)
Inductive panics (found : option (Object.t * Tiered.Source)) : Prop :=
| P_range o src stale : found = Some (o, src) -> serveRange (h_syncCDC h) (requestInfoFromCtx ctx) o stale (q_now q) = None -> panics found
| P_upstream sf : an_stream a = Ok sf -> sf_resp sf = None -> panics found
| P_location loc : buildLocationKey sum128 u h ctx loc = None -> panics found.

(** What the origin answered to this request, as it is passed on: the response
    to the fetch, read whole or streamed; to the plain or the conditional fetch of
    a response in memory; the 304 that names the client's own tag; the response
    to an unsafe method. *)
Definition body_for (body : bytes) : option bytes := if isHead (ctx_Method ctx) then None else Some body.
Inductive origin_answer : Z -> Map -> option bytes -> Prop :=
| OA_stream sf body : an_stream a = Ok sf -> body = body_for (an_body a) \/ body = Some (streamCopyFlush (an_reads a)) \/ body = None /\ isHead (ctx_Method ctx) = true ->
    origin_answer (sf_StatusCode sf) (sf_toMap sf) body
| OA_fetch res : an_fetch a = Ok res -> origin_answer (res_StatusCode res) (res_Header res) (body_for (res_Body res))
| OA_cond inm ims res : an_cond a inm ims = Ok res -> res_StatusCode res <> 304 -> origin_answer (res_StatusCode res) (res_Header res) (body_for (res_Body res))
| OA_condition inm ims res : an_cond a inm ims = Ok res -> res_StatusCode res = 304 ->
    etagMatch (Peek (ctx_Header ctx) Hdr.IfNoneMatch) (Get (res_Header res) Hdr.ETag) = true -> origin_answer 304 (res_Header res) None
| OA_proxy px : an_proxy a = Ok px -> isInvalidatingBytes (ctx_Method ctx) = true ->
    origin_answer (px_StatusCode px) (FromFastHTTP (All (px_Header px))) (Some (px_Body px)).

(** Why the client is sent an error. *)
Definition error_status (e : fetch_error) : Z := match e with ErrFetchShed => 503 | ErrTimeout => 504 | ErrOther => 502 end.
Definition cond_status (e : fetch_error) : Z := match e with ErrTimeout => 504 | _ => 502 end.
Inductive error_reason : Z -> Prop :=
| ER_stream e : an_stream a = Err e -> error_reason (error_status e)
| ER_cond inm ims e : an_cond a inm ims = Err e -> error_reason (cond_status e)
| ER_proxy e : an_proxy a = Err e -> error_reason (cond_status e)
| ER_large sf : an_stream a = Ok sf -> too_large (h_maxResponseBytes h) (len (an_body a)) = true -> error_reason 502
| ER_proxy_large px : an_proxy a = Ok px -> too_large (h_maxResponseBytes h) (len (px_Body px)) = true -> error_reason 502
| ER_only_if_cached : OnlyIfCached (ParseCacheControlBytes (Peek (ctx_Header ctx) Hdr.CacheControl)) = true -> error_reason 504
| ER_no_client : g_fastClient gt = false -> error_reason 502.

(** An object a peer sent to this request, or the variant of this node a
    resolver of the owner pointed at. *)
Definition from_owner (o : Object.t) : Prop :=
  (exists pf k v, an_peer a = Some pf /\ pf k v = Some (Some o)) \/
  (exists isLocal k, ownerFn = Some isLocal /\ isLocal k = true /\ in_store k o).

(** The representation behind a resolver: its own bytes, or those of the variant
    it is paired with. *)
Definition mirrored (o : Object.t) (body : bytes) (size : Z) : Prop :=
  if beq (Object.PairedKey o) zero_key then body = Object.Body o /\ size = Object.BodySize o
  else exists m, in_store (Object.PairedKey o) m /\ body = Object.Body m /\ size = Object.BodySize m.

(** The reasons for a reply, for the object and the resolver the lookup found. *)
Inductive licensed (found resolver : option (Object.t * Tiered.Source)) : reply -> Prop :=
| L_hit o src r : uses_cache -> found = Some (o, src) -> verdict o = Hit -> made_from o cacheHit (FromTier src) r -> licensed found resolver r
| L_stale o src r : uses_cache -> found = Some (o, src) -> verdict o = StaleHit -> made_from o cacheStale (FromTier src) r -> licensed found resolver r
| L_parts o src ops stale : uses_cache -> found = Some (o, src) -> verdict o = (if stale : bool then StaleHit else Hit) ->
    serveRange (h_syncCDC h) (requestInfoFromCtx ctx) o stale (q_now q) = Some (true, ops) -> licensed found resolver (ServeParts ops o (FromTier src))
| L_fallback o src : uses_cache -> found = Some (o, src) -> (verdict o = Miss \/ verdict o = Revalidate) ->
    h_stayinAlive h || Object.StaleForSIE o (q_now q) || staleFallbackAllowed o = true ->
    origin_failed (an_fetch a) \/ origin_failed (an_cond a (setConditionalHeaders ctx o).1 (setConditionalHeaders ctx o).2) ->
    licensed found resolver (ServeObject o cacheStale (FromTier src))
| L_validated o src res r : uses_cache -> found = Some (o, src) -> verdict o = Revalidate ->
    an_cond a (setConditionalHeaders ctx o).1 (setConditionalHeaders ctx o).2 = Ok res -> res_StatusCode res = 304 ->
    made_from (refreshFrom304 to_lower sum64 local h (q_fill q) o res (requestInfoFromCtx ctx) (q_now q)) cacheRevalidated (FromTier src) r ->
    licensed found resolver r
| L_head o src res o' r : uses_cache -> found = Some (o, src) -> (verdict o = Miss \/ verdict o = Revalidate) -> isHead (ctx_Method ctx) = true ->
    an_fetch a = Ok res \/ an_cond a (setConditionalHeaders ctx o).1 (setConditionalHeaders ctx o).2 = Ok res ->
    head_freshened to_lower sum64 local h (q_fill q) o res (requestInfoFromCtx ctx) (q_now q) = Some o' ->
    r = ServeHead o' (res_StatusCode res) (FromTier src) \/
    r = ServeNotModified o' cacheRevalidated (FromTier src) /\ tryConditional304Fast local (Peek (ctx_Header ctx)) o' = true -> licensed found resolver r
| L_resolver o src res body size r : uses_cache -> resolver = Some (o, src) -> found = None ->
    an_cond a (resolver_validators ctx o).1 (resolver_validators ctx o).2 = Ok res -> res_StatusCode res = 304 ->
    (Get (res_Header res) Hdr.ETag = [] /\ Peek (ctx_Header ctx) Hdr.IfNoneMatch = [] /\ Peek (ctx_Header ctx) Hdr.IfModifiedSince = []
     \/ Get (res_Header res) Hdr.ETag = bs "*" \/ etagMatch (Get (res_Header res) Hdr.ETag) (Object.ETag o) = true) ->
    mirrored o body size ->
    made_from (let o' := with_body (refreshFrom304 to_lower sum64 local h (q_fill q) o res (requestInfoFromCtx ctx) (q_now q)) body size in
               if beq body [] && q_nilBody q then o' else set_length o' body) cacheRevalidated (FromTier src) r -> licensed found resolver r
| L_peer o r : uses_cache -> asks found -> from_owner o -> (Object.VaryValue o <> [] ->
      varyKeyMatches to_lower sum64 (Object.VaryValue o) (assertMap (ReqHeader (requestInfoFromCtx ctx))) (h_policy h) (Object.VaryKey o) = true) ->
    decision (Evaluate (requestInfoFromCtx ctx) (Some o) (q_now q)) = (match r with cacheHit => Hit | _ => StaleHit end) -> r <> cacheRevalidated ->
    licensed found resolver (ServeObject o r FromPeer)
| L_origin status hdr body : asks found -> origin_answer status hdr body -> licensed found resolver (ServeOrigin status hdr body)
| L_error status : asks found -> error_reason status -> licensed found resolver (ServeError status)
| L_panic : panics found -> licensed found resolver ServePanic.
Hint Constructors licensed made_from origin_answer error_reason looked : licensed.

Abbreviation ri := (requestInfoFromCtx ctx).

Lemma miss_asks found : (forall o src, found = Some (o, src) -> verdict o = Miss \/ verdict o = Revalidate) -> asks found.
Proof. intros H. right. intros o src E. destruct (H o src E) as [-> | ->]; done. Qed.

Lemma conditional_made (o : Object.t) (r : cacheResult) (from : served_from) : made_from o r from (conditional_or_object local ctx o r from).
Proof. unfold conditional_or_object. destruct (tryConditional304Fast local _ o) eqn:E; auto with licensed. Qed.

Lemma gate_nil (sf : streamFetchResult) (r : RequestInfo) : stream_cacheable local h sf r = None -> sf_resp sf = None.
Proof.
  assert (forall m, isResponseCacheable local h sf r m = None -> sf_resp sf = None) as H.
  { intros m. unfold isResponseCacheable. case_tests; try done. by destruct (sf_resp sf) as [[]|]. }
  unfold stream_cacheable. destruct (sf_resp sf) as [[hdr cl]|] eqn:E; [|done]. unfold isResponseCacheableBytes. case_tests; try done. intros Hn.
  exact (H _ Hn).
Qed.

Lemma stream_licensed (p : Key) (n : Node S) found resolver : asks found -> licensed found resolver (streamMiss to_lower sum64 local h gt ownerFn q a ctx p ri n).2.
Proof.
  intros Hk. unfold streamMiss. destruct (an_stream a) as [sf|e] eqn:Es; [|pose proof (ER_stream e Es); destruct e; by apply L_error].
  assert (forall body, body = body_for (an_body a) \/ body = Some (streamCopyFlush (an_reads a)) \/ body = None /\ isHead (ctx_Method ctx) = true ->
    licensed found resolver (stream_answer sf body)) as Ha by (intros body Hb; apply L_origin; [done|by eapply OA_stream]).
  destruct (_ && is_event_stream sf); [by apply Ha; auto|].
  destruct (stream_cacheable _ _ _ _) as [c|] eqn:Eg; [|apply L_panic; eapply P_upstream; [done|by eapply gate_nil]]. destruct (_ || _).
  - unfold streamMissBuffered. fold (body_for (an_body a)). destruct (too_large _ _ && _) eqn:El; [apply andb_prop in El as [El _]; apply L_error; [done|by eapply ER_large]|].
    destruct (c && _); [|by apply Ha; auto]. destruct (too_large (h_maxObjectSize h) _); [by apply Ha; auto|].
    destruct (reserve_for _ _ _ _ _) as [n1 []]; cbn [negb snd]; by apply Ha; auto.
  - unfold streamMissTee. destruct (tee_exact h (an_reads a)) as [Et _]. destruct (reserve_for _ _ _ _ _) as [n1 []]; cbn [negb snd]; [|by apply Ha; auto].
    case_tests; cbn [snd]; rewrite ?Et; by apply Ha; auto.
Qed.

Lemma write_licensed (res : fetchResult) (p : Key) (stale : option Object.t) (n : Node S) found resolver :
  asks found -> origin_answer (res_StatusCode res) (res_Header res) (body_for (res_Body res)) ->
  licensed found resolver (writeAndMaybeStore to_lower sum64 sum128 local h ownerFn q (ctx_Method ctx) res p stale ri n).2.
Proof. intros Hk Ho. unfold writeAndMaybeStore, body_for in *. destruct (isHead _); by apply L_origin. Qed.

Lemma freshen_licensed (res : fetchResult) (k p : Key) (o : Object.t) (src : Tiered.Source) (n : Node S) resolver :
  uses_cache -> (verdict o = Miss \/ verdict o = Revalidate) -> origin_answer (res_StatusCode res) (res_Header res) (body_for (res_Body res)) ->
  an_fetch a = Ok res \/ an_cond a (setConditionalHeaders ctx o).1 (setConditionalHeaders ctx o).2 = Ok res ->
  licensed (Some (o, src)) resolver (freshen_or_store to_lower sum64 sum128 local h ownerFn q ctx res k p o src ri n).2.
Proof.
  intros Hc Hv Ho Hr. assert (asks (Some (o, src))) as Hk by (apply miss_asks; by intros ? ? [= <- <-]).
  unfold freshen_or_store, freshenFromHead. destruct (isHead (ctx_Method ctx)) eqn:Eh; [|by apply write_licensed].
  destruct (head_freshened _ _ _ _ _ _ _ _ _) as [o'|] eqn:E; [|by apply write_licensed]. eapply L_head; [done..|exact Hr|exact E|].
  cbn [snd]. destruct (tryConditional304Fast local _ o') eqn:Et; auto with licensed.
Qed.

Lemma alive_licensed (k p : Key) (o : Object.t) (src : Tiered.Source) (n : Node S) resolver : uses_cache -> (verdict o = Miss \/ verdict o = Revalidate) ->
  h_stayinAlive h || Object.StaleForSIE o (q_now q) || staleFallbackAllowed o = true ->
  licensed (Some (o, src)) resolver (fetchAndStoreStayinAlive to_lower sum64 sum128 local h gt ownerFn q a ctx k p o src ri n).2.
Proof.
  intros Hc Hv Hf. unfold fetchAndStoreStayinAlive.
  assert (origin_failed (an_fetch a) -> licensed (Some (o, src)) resolver (ServeObject o cacheStale (FromTier src))) as Hs by (intros; eapply L_fallback; eauto).
  destruct (an_fetch a) as [res|[]] eqn:E; try by apply Hs. destruct (500 <=? res_StatusCode res) eqn:E5; [apply Hs; by apply Z.leb_le|].
  apply freshen_licensed; [done..|by apply OA_fetch|by left].
Qed.

Lemma revalidate_licensed (p k : Key) (o : Object.t) (src : Tiered.Source) (n : Node S) resolver : uses_cache -> verdict o = Revalidate ->
  licensed (Some (o, src)) resolver (revalidate to_lower sum64 sum128 local h ownerFn q a ctx p k o src ri n).2.
Proof.
  intros Hc Hv. unfold revalidate. destruct (setConditionalHeaders ctx o) as [inm ims] eqn:Ec.
  assert (h_stayinAlive h || staleFallbackAllowed o = true -> origin_failed (an_cond a inm ims) -> licensed (Some (o, src)) resolver (ServeObject o cacheStale (FromTier src))) as Hs.
  { intros Hf Ho. eapply L_fallback; [done|done|by right|apply orb_prop in Hf as [-> | ->]; by rewrite ?orb_true_r|right; by rewrite Ec]. }
  destruct (an_cond a inm ims) as [res|e] eqn:E.
  - destruct (_ && _) eqn:E5; [apply andb_prop in E5 as [E5 Hf]; apply Hs; [done|by apply Z.leb_le]|].
    destruct (res_StatusCode res =? 304) eqn:E3.
    + apply Z.eqb_eq in E3. eapply L_validated; [done|done|done|by rewrite Ec|done|]. apply conditional_made.
    + apply Z.eqb_neq in E3. apply freshen_licensed; [done|by right|by eapply OA_cond|right; by rewrite Ec].
  - destruct (h_stayinAlive h); [by apply Hs|]. destruct (staleFallbackAllowed o); [by apply Hs|].
    apply L_error; [apply miss_asks; intros ? ? [= <- <-]; by right|]. by apply (ER_cond inm ims e).
Qed.

Lemma resolver304_licensed (o : Object.t) (src : Tiered.Source) (res : fetchResult) (n : Node S) : uses_cache -> looked n ->
  an_cond a (resolver_validators ctx o).1 (resolver_validators ctx o).2 = Ok res -> res_StatusCode res = 304 ->
  match (serveResolver304 to_lower sum64 sum128 local h q ctx o res src ri n).2 with Some r => licensed None (Some (o, src)) r | None => True end.
Proof.
  intros Hc Hn Ha H3. unfold serveResolver304. rewrite !len_pos. set (tag := Get (res_Header res) Hdr.ETag).
  destruct (beq tag [] && _) eqn:E1; [done|]. destruct (_ && _ && _) eqn:E2.
  { destruct (_ && etagMatch _ tag) eqn:Ei; [|done]. apply andb_prop in Ei as [_ Ei]. apply L_origin; [by apply miss_asks|by eapply OA_condition]. }
  set (got := if negb (beq (Object.PairedKey o) zero_key) then _ else _).
  assert (match got.2 with Some (body, size) => mirrored o body size | None => True end) as Hm.
  { unfold got, mirrored. destruct (beq (Object.PairedKey o) zero_key); cbn [negb]; [done|]. destruct (get_from (Object.PairedKey o) n) as [n1 [[m msrc]|]] eqn:Eg; [|done].
    exists m. split; [|done]. exists n, msrc. by rewrite Eg. }
  destruct got as [n1 [[body size]|]]; [|done]. eapply L_resolver; [done|done|done|done|done| |exact Hm|apply conditional_made].
  fold tag. bool_cases; auto; congruence.
Qed.

Lemma resolver_attempt_licensed (p k : Key) (r : option (Object.t * Tiered.Source)) (n : Node S) : uses_cache -> looked n ->
  match (resolver_attempt to_lower sum64 sum128 local h ownerFn q a ctx p k r ri n).2 with Some rep => licensed None r rep | None => True end.
Proof.
  intros Hc Hn. unfold resolver_attempt. destruct r as [[o src]|]; [|done]. case_tests; [|done]. unfold revalidateResolverMiss.
  destruct (resolver_validators ctx o) as [inm ims] eqn:Ec. destruct (an_cond a inm ims) as [res|] eqn:Ea; [|done].
  destruct (res_StatusCode res =? 304) eqn:E3; [apply Z.eqb_eq in E3; apply resolver304_licensed; [done|done|by rewrite Ec|done]|]. apply Z.eqb_neq in E3.
  pose proof (write_licensed res p None n None (Some (o, src)) (miss_asks None ltac:(done)) (OA_cond inm ims res Ea E3)) as Hw. by destruct (writeAndMaybeStore _ _ _ _ _ _ _ _ _ _ _ _ n).
Qed.

Lemma peer_hit_licensed (k : Key) (o : Object.t) (n : Node S) found resolver : uses_cache -> asks found -> from_owner o ->
  match (servePeerHit to_lower sum64 h q k o ri n) with (_, Some r) => licensed found resolver r | (n', None) => n' = n end.
Proof.
  intros Hc Hk Ho. unfold servePeerHit. destruct (_ && _) eqn:Ev; [done|].
  assert (Object.VaryValue o <> [] -> varyKeyMatches to_lower sum64 (Object.VaryValue o) (assertMap (ReqHeader ri)) (h_policy h) (Object.VaryKey o) = true) as Hv.
  { intros Hn. apply beq_neq in Hn. rewrite Hn in Ev. by apply negb_false_iff in Ev. }
  destruct (decision _) eqn:Ed; try done; cbn; apply L_peer; auto; done.
Qed.

Lemma derived_licensed (isLocal : Key -> bool) (pf : Key -> bytes -> option (option Object.t)) (p : Key) (vary : bytes) (n : Node S) found resolver :
  uses_cache -> asks found -> looked n -> ownerFn = Some isLocal -> an_peer a = Some pf ->
  match (serveDerivedPeerVariant to_lower sum64 h q isLocal pf p vary ri n) with (_, Some r) => licensed found resolver r | (n', None) => looked n' end.
Proof.
  intros Hc Hk Hn Ho Hp. unfold serveDerivedPeerVariant. set (vk := VariantKey _ _ _ _ _ _). set (v := BuildVaryKey _ _ _ _ _).
  destruct (beq vk p); [done|]. destruct (beq v []); [done|]. unfold getVariantForResolution.
  assert (forall o n1, from_owner o -> looked n1 -> match servePeerHit to_lower sum64 h q vk o ri n1 with (_, Some r) => licensed found resolver r | (n', None) => looked n' end) as Hs.
  { intros o n1 Hf Hl. pose proof (peer_hit_licensed vk o n1 found resolver Hc Hk Hf) as H. destruct (servePeerHit _ _ _ _ _ _ _ n1) as [n' [r|]]; [done|by subst]. }
  destruct (isLocal vk) eqn:El.
  - pose proof (LK_get n vk Hn) as Hg. destruct (get_from vk n) as [n1 [[o src]|]] eqn:Eg; cbn in *; [|done]. apply Hs; [|done].
    right. exists isLocal, vk. split; [done|]. split; [done|]. exists n, src. by rewrite Eg.
  - destruct (pf vk v) as [[o|]|] eqn:Ep; [|done..]. apply Hs; [|done]. left. eauto.
Qed.

Lemma ask_owner_licensed (p k : Key) (obj rs : option Object.t) (n : Node S) found resolver : uses_cache -> asks found -> looked n ->
  match (ask_owner to_lower sum64 h ownerFn q a p k obj rs ri n) with (_, Some r) => licensed found resolver r | (n', None) => looked n' end.
Proof.
  intros Hc Hk Hn. unfold ask_owner. destruct (peerHintsApply h q obj); [done|].
  pose proof (fun isLocal pf p vary n => derived_licensed isLocal pf p vary n found resolver Hc Hk) as Hd.
  pose proof (fun k o n => peer_hit_licensed k o n found resolver Hc Hk) as Hp. destruct ownerFn as [isLocal|]; [|done].
  destruct (an_peer a) as [pf|] eqn:Ea; [|done]. destruct (_ || _); [done|].
  assert (forall tried answer n1, looked n1 -> (forall o, answer = Some (Some o) -> isPeerResolverMetadata o = true \/ from_owner o) ->
    match (use_peer_object to_lower sum64 h q isLocal pf p k tried answer ri n1) with (_, Some r) => licensed found resolver r | (n', None) => looked n' end) as Hu.
  { intros tried answer n1 Hl Hf. unfold use_peer_object. destruct answer as [[o|]|]; [|done..]. destruct (isPeerResolverMetadata o) eqn:Em; [case_tests; [done|by apply Hd]|].
    destruct (Hf o eq_refl) as [Hx|Hf1]; [congruence|]. specialize (Hp k o n1 Hf1). destruct (servePeerHit _ _ _ _ _ _ _ n1) as [n' [r|]]; [done|by subst]. }
  destruct (transferredResolver q obj k) as [x|] eqn:Et.
  { apply Hu; [done|]. intros o [= <-]. left. unfold transferredResolver in Et. destruct obj; [done|]. destruct (q_transferred q) as [y|]; [|done]. destruct (isPeerResolverMetadata y) eqn:Ey; [|done]. cbn in Et. case_tests_in Et; [done|]. by injection Et as <-. }
  assert (forall v o, pf k v = Some (Some o) -> isPeerResolverMetadata o = true \/ from_owner o) as Hf by (intros v o Hv; right; left; eauto).
  set (tried := match obj with None => _ | Some _ => _ end).
  destruct (beq tried []); [apply Hu; [done|by apply Hf]|]. specialize (Hd isLocal pf p tried n Hn eq_refl eq_refl).
  destruct (serveDerivedPeerVariant _ _ _ _ _ _ _ _ _ n) as [n1 [r|]]; [done|]. apply Hu; [done|by apply Hf].
Qed.

Lemma miss_licensed (p k : Key) (found resolver rs : option (Object.t * Tiered.Source)) (n : Node S) : uses_cache -> looked n ->
  (forall o src, found = Some (o, src) -> verdict o = Miss \/ verdict o = Revalidate) -> found = None /\ rs = resolver \/ rs = None ->
  licensed found resolver (handleCacheMiss to_lower sum64 sum128 local h gt ownerFn q a ctx p k found rs ri n).2.
Proof.
  intros Hc Hn Hv Hr. unfold handleCacheMiss. pose proof (miss_asks found Hv) as Hk.
  pose proof (ask_owner_licensed p k (option_map fst found) (option_map fst rs) n found resolver Hc Hk Hn) as Ho.
  destruct (ask_owner _ _ _ _ _ _ _ _ _ _ _ n) as [n1 [r|]]; [done|]. pose proof (resolver_attempt_licensed p k rs n1 Hc Ho) as Ht.
  destruct (resolver_attempt _ _ _ _ _ _ _ _ _ _ _ _ _ n1) as [n2 [r|]] eqn:Er.
  { destruct Hr as [[-> ->] | -> ]; [done|]. cbn in Er. by inversion Er. }
  destruct found as [[o src]|]; [|by apply stream_licensed]. case_tests; [apply alive_licensed; eauto|by apply stream_licensed].
Qed.

Lemma hit_licensed (k : Key) (o : Object.t) (src : Tiered.Source) (stale : bool) (n : Node S) resolver : uses_cache -> verdict o = (if stale then StaleHit else Hit) ->
  licensed (Some (o, src)) resolver (serve_hit local h ownerFn q ctx k o src stale n).2.
Proof.
  intros Hc Hv. unfold serve_hit. destruct (tryConditional304Fast local _ o) eqn:Et; [destruct stale; [eapply L_stale|eapply L_hit]; by auto with licensed|].
  destruct (0 <? _); [|destruct stale; [eapply L_stale|eapply L_hit]; by auto with licensed].
  destruct (serveRange _ _ _ _ _) as [[[] ops]|] eqn:Es; [by eapply L_parts|destruct stale; [eapply L_stale|eapply L_hit]; by auto with licensed|apply L_panic; by eapply P_range].
Qed.

Lemma purge_locations_ok (hdr : FastHeader) (names : list bytes) : forall n n1 : Node S,
  purge_locations sum128 u h ctx hdr names n = (n1, false) -> exists loc, buildLocationKey sum128 u h ctx loc = None.
Proof.
  induction names as [|name names IH]; intros n n1; [done|]. cbn [purge_locations]. destruct (beq _ []); [apply IH|].
  destruct (buildLocationKey _ _ _ _ _) eqn:E; [apply IH|eauto].
Qed.

Lemma purge_after_ok (hdr : FastHeader) (n n1 : Node S) : purgeAfterSSEProxy sum128 u h ctx hdr n = (n1, false) ->
  exists loc, buildLocationKey sum128 u h ctx loc = None.
Proof. apply purge_locations_ok. Qed.

Lemma relay_licensed (sf : streamFetchResult) found resolver : asks found -> an_stream a = Ok sf -> licensed found resolver (relay ctx a sf).
Proof.
  intros Hk Es. apply L_origin; [done|]. apply (OA_stream sf); [done|]. unfold body_for. destruct (isHead _); [by auto|]. destruct (sf_buffered sf); auto.
Qed.

Lemma sse_licensed (n : Node S) found resolver : asks found -> licensed found resolver (handleSSE sum128 u h gt a ctx n).2.
Proof.
  intros Hk. unfold handleSSE. destruct (negb _) eqn:Ec; [apply L_error; [done|apply ER_no_client; by apply negb_true_iff]|].
  destruct (an_stream a) as [sf|e] eqn:Es; [|pose proof (ER_stream e Es); destruct e; by apply L_error].
  destruct (sf_resp sf) as [[hdr cl]|] eqn:Er; [|apply L_panic; by eapply P_upstream].
  destruct (_ && _); [|by apply relay_licensed]. destruct (purgeAfterSSEProxy _ _ _ _ _ n) as [n1 []] eqn:E; [by apply relay_licensed|].
  apply purge_after_ok in E as [loc Hl]. by apply L_panic, (P_location _ loc).
Qed.

Lemma bypass_licensed found resolver : asks found -> licensed found resolver (handleBypass ctx a).
Proof.
  intros Hk. unfold handleBypass, streamBypass. destruct (OnlyIfCached _) eqn:Eo; [apply L_error; [done|by apply ER_only_if_cached]|].
  destruct (an_stream a) as [sf|e] eqn:Es; [by apply relay_licensed|pose proof (ER_stream e Es); destruct e; by apply L_error].
Qed.

Lemma proxy_licensed (n : Node S) found resolver : asks found -> isInvalidatingBytes (ctx_Method ctx) = true ->
  licensed found resolver (invalidateAndProxy to_lower sum64 sum128 local u h gt ownerFn q a ctx n).2.
Proof.
  intros Hk Hi. unfold invalidateAndProxy. destruct (negb _) eqn:Ec; [apply L_error; [done|apply ER_no_client; by apply negb_true_iff]|].
  destruct (an_proxy a) as [px|e] eqn:Ep; [|apply L_error; [done|by apply (ER_proxy e)]]. destruct (too_large _ _) eqn:El; [apply L_error; [done|by eapply ER_proxy_large]|].
  destruct (succeeded _); [|apply L_origin; [done|by apply OA_proxy]]. unfold invalidateAfterProxyFast.
  destruct (purgeAfterSSEProxy _ _ _ _ _ n) as [n1 []] eqn:E; [apply L_origin; [done|by apply OA_proxy]|].
  apply purge_after_ok in E as [loc Hl]. by apply L_panic, (P_location _ loc).
Qed.

Lemma lookup_one : let '(n1, _, _, found, resolver) := lookup to_lower sum64 sum128 h ctx n0 in looked n1 /\ (found = None \/ resolver = None).
Proof.
  unfold lookup. pose proof (LK_get n0 (buildKey sum128 (h_policy h) ctx) LK_start) as H1. destruct (get_from _ n0) as [n1 [[o src]|]]; [|auto]. cbn in H1. case_tests; auto.
  match goal with |- context [get_from ?k n1] => pose proof (LK_get n1 k H1) as H2; destruct (get_from k n1) as [n2 [[v vs]|]] end; auto.
Qed.
End Licensed.

Lemma evaluate_none_misses (method : bytes) (pk : bytes -> bytes) (now : Time) :
  decision (evaluateFast method pk None now) = Miss \/ decision (evaluateFast method pk None now) = Bypass.
Proof. unfold evaluateFast. destruct (_ && _); [by right|]. unfold evaluate, evalMiss. case_tests; auto. Qed.


(** ** Variant slots *)

Section Slots.
Context {S : Type} {OS : ObjectStore S} (h : Handler) (ownerFn : option (Key -> bool)).

Lemma get_from_variants (k : Key) (n : Node S) : n_variants (get_from k n).1 = n_variants n.
Proof. unfold get_from. by destruct (store_Get k (n_store n)). Qed.

Lemma dead_keys_spec (keys : list Key) : forall n : Node S,
  n_variants (dead_keys keys n).1 = n_variants n /\ (dead_keys keys n).2 ⊆ keys.
Proof.
  induction keys as [|k keys IH]; intros n; [done|]. cbn [dead_keys]. pose proof (get_from_variants k n) as Hv. destruct (get_from k n) as [n1 r].
  destruct (IH n1) as [A B]. destruct (dead_keys keys n1) as [n2 dead]. cbn in *. split; [congruence|]. destruct r; set_solver.
Qed.

(** Only tracked keys leave a set, and no other set changes. *)
Definition shrinks (p : Key) (n n' : Node S) : Prop :=
  liveVariantSet p n' ⊆ liveVariantSet p n /\ forall p', p' <> p -> n_variants n' !! p' = n_variants n !! p'.

Lemma live_set (p p' : Key) (vs : gset Key) (n : Node S) : liveVariantSet p (set_variants p' vs n) = if decide (p = p') then vs else liveVariantSet p n.
Proof. unfold liveVariantSet, set_variants. cbn. destruct (decide (p = p')) as [->|Hne]; [by rewrite lookup_insert_eq|by rewrite lookup_insert_ne]. Qed.

Lemma set_variants_shrinks (p : Key) (vs : gset Key) (n : Node S) : vs ⊆ liveVariantSet p n -> shrinks p n (set_variants p vs n).
Proof. intros H. split; [rewrite live_set; by rewrite decide_True|]. intros p' Hne. cbn. by rewrite lookup_insert_ne. Qed.

Lemma prune_shrinks (p : Key) (keys : list Key) (n : Node S) : shrinks p n (pruneDeadVariants p keys n).
Proof.
  unfold pruneDeadVariants. destruct (dead_keys_spec keys n) as [A _]. destruct (dead_keys keys n) as [n1 dead]. cbn in A.
  assert (shrinks p n1 (set_variants p (liveVariantSet p n1 ∖ list_to_set dead) n1)) as [B C] by (apply set_variants_shrinks; set_solver).
  unfold shrinks, liveVariantSet in *. by rewrite A in *.
Qed.

Lemma reconcile_shrinks (p : Key) (n : Node S) : shrinks p n (reconcileStaleIncarnation ownerFn p n).
Proof.
  unfold reconcileStaleIncarnation. pose proof (get_from_variants p n) as Hv. destruct (get_from p n) as [n1 pk]. cbn in Hv.
  assert (forall n2, shrinks p n1 n2 -> shrinks p n n2) as Ht by (intros n2; unfold shrinks, liveVariantSet; by rewrite Hv).
  destruct pk as [pk|]; [apply Ht, set_variants_shrinks; set_solver|]. destruct ownerFn; [apply Ht, prune_shrinks|apply Ht, set_variants_shrinks; set_solver].
Qed.

(** Asking for a slot: the key is tracked afterwards when the answer is yes, and
    always for an object a peer has put; the answer is yes while there is room;
    a slot given to a local fill keeps the set within the limit; other primary
    keys keep their sets. *)
Lemma reserve_spec (p k : Key) (peer : bool) (n : Node S) :
  let '(n', ok) := reserveVariantSlotMode h ownerFn p k peer n in
  (ok = true -> k ∈ liveVariantSet p n') /\ (peer = true -> ok = true) /\
  (Z.of_nat (size (liveVariantSet p n)) < h_maxVariants h \/ k ∈ liveVariantSet p n -> ok = true) /\
  (ok = true -> peer = false -> k ∉ liveVariantSet p n -> Z.of_nat (size (liveVariantSet p n')) <= h_maxVariants h) /\
  (forall p', p' <> p -> n_variants n' !! p' = n_variants n !! p').
Proof.
  unfold reserveVariantSlotMode. set (n0 := set_variants p (liveVariantSet p n) n).
  assert (liveVariantSet p n0 = liveVariantSet p n) as E0 by (unfold n0; by rewrite live_set, decide_True).
  assert (forall p', p' <> p -> n_variants n0 !! p' = n_variants n !! p') as O0 by (intros p' Hne; cbn; by rewrite lookup_insert_ne).
  rewrite E0. case_bool_decide as Hin; [rewrite E0; split_and!; auto; done|].
  set (n1 := if _ && negb peer then _ else n0). assert (shrinks p n0 n1) as [S1 O1].
  { unfold n1. case_tests; [apply reconcile_shrinks|by split]. }
  assert (forall m, shrinks p n0 m -> Z.of_nat (size (liveVariantSet p m)) < h_maxVariants h \/ peer = true ->
    let n' := set_variants p ({[k]} ∪ liveVariantSet p m) m in
    k ∈ liveVariantSet p n' /\ (peer = false -> Z.of_nat (size (liveVariantSet p n')) <= h_maxVariants h) /\ forall p', p' <> p -> n_variants n' !! p' = n_variants n !! p') as Hadd.
  { intros m [Sm Om] Hr. cbn zeta. rewrite live_set, decide_True by done. split_and!; [set_solver| |].
    - intros Hp. destruct Hr as [Hr|Hr]; [|congruence]. rewrite size_union by (rewrite E0 in Sm; set_solver). rewrite size_singleton. lia.
    - intros p' Hne. cbn. rewrite lookup_insert_ne by done. by rewrite Om, O0. }
  assert (size (liveVariantSet p n1) <= size (liveVariantSet p n))%nat as Hsz by (apply subseteq_size; by rewrite <- E0).
  destruct (Z.ltb_spec (Z.of_nat (size (liveVariantSet p n1))) (h_maxVariants h)) as [Hlt|Hge].
  { destruct (Hadd n1 (conj S1 O1) (or_introl Hlt)) as (A & B & C). split_and!; auto. }
  pose proof (prune_shrinks p (elements (liveVariantSet p n1)) n1) as [S2 O2]. set (n2 := pruneDeadVariants p _ n1) in *.
  assert (shrinks p n0 n2) as Sh by (split; [set_solver|intros p' Hne; by rewrite O2, O1]).
  destruct (_ || peer) eqn:Er.
  - destruct (Hadd n2 Sh) as (A & B & C); [apply orb_prop in Er as [Er|Er]; [left; by apply Z.ltb_lt|by right]|]. split_and!; auto.
  - apply orb_false_elim in Er as [Er ->]. split_and!; try done; [intros [Hr|Hr]; [lia|done]|]. intros p' Hne. destruct Sh as [_ Osh]. by rewrite Osh, O0.
Qed.
End Slots.

(** ** Purges of a map *)

(** A purge of a key of this store leaves nothing under it nor under its
    variants, and adds nothing. *)
Lemma delete_keys_map (keys : list Key) : forall (n : Node (gmap Key Object.t)) x,
  n_store (delete_keys keys n) !! x = if bool_decide (x ∈ keys) then None else n_store n !! x.
Proof.
  induction keys as [|k keys IH]; intros n x; [done|]. cbn [delete_keys]. rewrite IH. cbn.
  destruct (decide (x = k)) as [->|Hne]; [rewrite (bool_decide_true (k ∈ k :: keys)) by set_solver; rewrite lookup_delete_eq; by case_bool_decide|].
  rewrite lookup_delete_ne by done. by rewrite (bool_decide_ext (x ∈ keys) (x ∈ k :: keys)) by set_solver.
Qed.

Lemma purge_map (p : Key) (n : Node (gmap Key Object.t)) (x : Key) :
  n_store (Purge p n).1.1 !! x = if bool_decide (x = p \/ x ∈ liveVariantSet p n) then None else n_store n !! x.
Proof.
  unfold Purge. set (vs := liveVariantSet p n). destruct (bool_decide (vs = ∅) && negb _) eqn:E.
  - apply andb_prop in E as [E1%bool_decide_eq_true E2%negb_true_iff]. cbn in E2. apply bool_decide_eq_false in E2. cbn. rewrite E1.
    case_bool_decide as Hx; [|done]. destruct Hx as [-> | Hx]; [by apply eq_None_not_Some|set_solver].
  - cbn. destruct (decide (x = p)) as [->|Hne]; [rewrite lookup_delete_eq; by rewrite bool_decide_true by auto|].
    rewrite lookup_delete_ne, delete_keys_map by done. cbn. rewrite (bool_decide_ext (x ∈ elements vs) (x = p \/ x ∈ vs)); [done|]. rewrite elem_of_elements. naive_solver.
Qed.

(** ** A filled response is found again

    On a store that keeps what it is given. *)

Section Found.
Context (to_lower : bytes -> bytes) {Hl : LowerLaws to_lower} (sum64 : bytes -> Z) (sum128 : bytes -> Key) (local : bytes -> Z -> option Z).
Context (u : NetURL) (h : Handler) (gt : gates) (ownerFn : option (Key -> bool)).
Abbreviation mnode := (Node (gmap Key Object.t)).

Lemma map_get (k : Key) (n : mnode) : get_from k n = (n, match n_store n !! k with Some o => Some (o, SourceHot) | None => None end).
Proof. unfold get_from. cbn. destruct n. cbn. done. Qed.

Lemma register_store (k : Key) (o : Object.t) (ri : RequestInfo) (b : bool) (hits : Z) (n : mnode) :
  n_store (registerRefresh h k o ri b hits n) = n_store n /\ n_variants (registerRefresh h k o ri b hits n) = n_variants n.
Proof. unfold registerRefresh. case_tests; try done; by destruct (DecrementPersist k (n_registry n)) as [r []]. Qed.

Lemma forward_store (o : Object.t) (n : mnode) :
  n_store (forwardToOwnerIfRemote ownerFn o n) = n_store n /\ n_variants (forwardToOwnerIfRemote ownerFn o n) = n_variants n.
Proof. unfold forwardToOwnerIfRemote. destruct ownerFn; [|done]. by case_tests. Qed.

Lemma store_map (k : Key) (o : Object.t) (ri : RequestInfo) (b : bool) (hits : Z) (n : mnode) : isOwnerOrUnmanaged ownerFn k = true ->
  n_store (storeObject h ownerFn k o ri b hits n) = <[k := o]> (n_store n) /\ n_variants (storeObject h ownerFn k o ri b hits n) = n_variants n.
Proof.
  intros Ho. unfold storeObject. rewrite Ho. cbn [negb].
  by destruct (register_store k o ri b hits (with_store (store_Put k o (n_store n)).1 n)) as [-> ->].
Qed.

Lemma streamed_map (q : req_env) (k p : Key) (ri : RequestInfo) (res : fetchResult) (m : Map) (preset : option Duration) (n : mnode) :
  isOwnerOrUnmanaged ownerFn k = true -> isOwnerOrUnmanaged ownerFn p = true ->
  let obj := with_pair (buildObject to_lower sum64 local h (q_fill q) k ri res m preset (q_later q)) k p in
  let n' := store_streamed to_lower sum64 local h ownerFn q k p ri res m preset n in
  n_store n' = (if beq k p then <[k := obj]> (n_store n) else <[p := buildResolver obj p]> (<[k := obj]> (n_store n))) /\ n_variants n' = n_variants n.
Proof.
  intros Hk Hp. cbn zeta. unfold store_streamed. set (obj := with_pair _ k p).
  destruct (store_map k obj ri false 0 n Hk) as [A B]. destruct (forward_store obj (storeObject h ownerFn k obj ri false 0 n)) as [C D].
  destruct (beq k p); [by rewrite C, D, A, B|]. unfold storeResolver. set (n1 := forwardToOwnerIfRemote ownerFn obj _) in *.
  destruct (store_map p (buildResolver obj p) ri false 0 n1 Hp) as [E F].
  destruct (forward_store (buildResolver obj p) (storeObject h ownerFn p (buildResolver obj p) ri false 0 n1)) as [I J].
  by rewrite I, J, E, F, C, D, A, B.
Qed.

(** The body a streamed fill keeps, when it keeps one. *)
Definition delivered (a : answers) (sf : streamFetchResult) : option bytes :=
  if negb (sf_buffered sf) && is_event_stream sf then None
  else if sf_buffered sf || (0 <? h_maxStreamingBufferBytes h) && (h_maxStreamingBufferBytes h <=? an_load a) then
    if too_large (h_maxResponseBytes h) (len (an_body a)) || too_large (h_maxObjectSize h) (len (an_body a)) then None else Some (an_body a)
  else
    let t := teeStreamToClient h (an_reads a) in
    if t_complete t && negb (t_exceeded t) && negb (too_large (h_maxObjectSize h) (t_total t)) then Some (t_buf t) else None.

Lemma stream_miss_fill (q : req_env) (a : answers) (ctx : RequestCtx) (p : Key) (sf : streamFetchResult) (body : bytes) (n : mnode) :
  let ri := requestInfoFromCtx ctx in
  let k := storeKey_of to_lower sum64 h p (ReqHeader ri) (sf_toMap sf) in
  isHead (ctx_Method ctx) = false -> an_stream a = Ok sf -> stream_cacheable local h sf ri = Some true -> delivered a sf = Some body ->
  (reserve_for h ownerFn k p n).2 = true ->
  streamMiss to_lower sum64 local h gt ownerFn q a ctx p ri n =
  (store_streamed to_lower sum64 local h ownerFn q k p ri (MkFetch (sf_StatusCode sf) (sf_toMap sf) body (sf_Delay sf)) (sf_toMap sf)
     (sync_ttl local h q (MkFetch (sf_StatusCode sf) (sf_toMap sf) [] (sf_Delay sf)) ri) (reserve_for h ownerFn k p n).1, stream_answer sf (Some body)).
Proof.
  cbn zeta. intros Hh Hs Hc Hd Hr. unfold streamMiss. rewrite Hs, Hh, Hc. cbn [negb andb orb]. rewrite andb_true_r. unfold delivered in Hd.
  destruct (negb (sf_buffered sf) && is_event_stream sf); [done|]. rewrite !orb_false_r.
  destruct (sf_buffered sf || _).
  - unfold streamMissBuffered. rewrite Hh. cbn [negb andb]. destruct (too_large (h_maxResponseBytes h) _); [done|]. cbn [orb andb] in *.
    destruct (too_large (h_maxObjectSize h) _); [done|]. injection Hd as <-. destruct (reserve_for _ _ _ _ _) as [n1 room]. cbn in Hr |- *. by rewrite Hr.
  - unfold streamMissTee. destruct (tee_exact h (an_reads a)) as (_ & _ & _ & Ht). destruct (t_complete _) eqn:E1; [|done].
    destruct (t_exceeded _) eqn:E2; [done|]. cbn [negb andb orb] in *. destruct (too_large _ _); [done|]. injection Hd as <-.
    destruct (Ht eq_refl eq_refl) as (_ & Hb & _). destruct (reserve_for _ _ _ _ _) as [n1 room]. cbn in Hr |- *. rewrite Hr. cbn [negb]. by rewrite <- Hb.
Qed.

(** The two requests select the same variant of a response with this Vary list. *)
Definition same_selection (vary : bytes) (ctx ctx' : RequestCtx) : Prop :=
  forall f, f ∈ nominated to_lower vary (h_policy h) ->
    map_value to_lower (h_policy h) (headerFromFastHTTPReqHeader (ctx_Header ctx)) f = map_value to_lower (h_policy h) (headerFromFastHTTPReqHeader (ctx_Header ctx')) f.

Lemma selected_key (p : Key) (vary : bytes) (ctx ctx' : RequestCtx) : FastLaws (ctx_Header ctx') -> same_selection vary ctx ctx' ->
  VariantKeyFast to_lower sum64 p vary (ctx_Header ctx') (h_policy h) = VariantKey to_lower sum64 p vary (ReqHeader (requestInfoFromCtx ctx)) (h_policy h).
Proof using Hl.
  intros Hf Hs. unfold VariantKeyFast, VariantKey. rewrite !variantKeyCore_spec by auto using map_source_laws, fast_source_laws.
  unfold variant_spec. destruct (_ || _); [done|]. unfold same_selection in Hs. destruct (nominated to_lower vary (h_policy h)) as [|f l] eqn:En; [done|].
  f_equal. f_equal. symmetry. apply fields_text_ext, Forall_forall. exact Hs.
Qed.

(** The entries under the two keys of a fill are the same in both stores. *)
Definition entries_kept (p k : Key) (n n' : mnode) : Prop := n_store n' !! p = n_store n !! p /\ n_store n' !! k = n_store n !! k.

Lemma filled_found (q : req_env) (ctx ctx' : RequestCtx) (p : Key) (sf : streamFetchResult) (body : bytes) (preset : option Duration) (n n2 : mnode) :
  let ri := requestInfoFromCtx ctx in
  let k := storeKey_of to_lower sum64 h p (ReqHeader ri) (sf_toMap sf) in
  let res := MkFetch (sf_StatusCode sf) (sf_toMap sf) body (sf_Delay sf) in
  let obj := with_pair (buildObject to_lower sum64 local h (q_fill q) k ri res (sf_toMap sf) preset (q_later q)) k p in
  let n' := store_streamed to_lower sum64 local h ownerFn q k p ri res (sf_toMap sf) preset n in
  isOwnerOrUnmanaged ownerFn k = true -> isOwnerOrUnmanaged ownerFn p = true -> FastLaws (ctx_Header ctx') ->
  buildKey sum128 (h_policy h) ctx' = p -> same_selection (effectiveVary to_lower (sf_toMap sf) (h_policy h)) ctx ctx' ->
  entries_kept p k n' n2 -> lookup to_lower sum64 sum128 h ctx' n2 = (n2, p, k, Some (obj, SourceHot), None).
Proof using Hl.
  cbn zeta. intros Hk Hp Hf Hb Hs [Kp Kk]. unfold lookup. rewrite Hb. set (k := storeKey_of _ _ _ _ _ _) in *. set (res := MkFetch _ _ _ _) in *.
  set (obj := with_pair _ _ _) in *. set (n' := store_streamed _ _ _ _ _ _ _ _ _ _ _ _ n) in *.
  destruct (streamed_map q k p (requestInfoFromCtx ctx) res (sf_toMap sf) preset n Hk Hp) as [En _]. fold obj n' in En.
  assert (Object.VaryValue obj = effectiveVary to_lower (sf_toMap sf) (h_policy h)) as Ev.
  { unfold obj, with_pair, buildObject. destruct (stored_directives _). by case_tests. }
  pose proof (selected_key p _ ctx ctx' Hf Hs) as Ek. rewrite En in Kp, Kk. rewrite map_get, Kp.
  assert (k = if beq (effectiveVary to_lower (sf_toMap sf) (h_policy h)) [] then p
              else VariantKey to_lower sum64 p (effectiveVary to_lower (sf_toMap sf) (h_policy h)) (ReqHeader (requestInfoFromCtx ctx)) (h_policy h)) as Dk by done.
  destruct (beq k p) eqn:Ekp.
  - apply beq_eq in Ekp. rewrite <- Ekp, lookup_insert_eq. rewrite Ev. destruct (beq (effectiveVary _ _ _) []) eqn:E; [done|].
    rewrite Ekp, Ek, <- Dk, Ekp, beq_refl. done.
  - rewrite lookup_insert_eq. cbn [Object.VaryValue buildResolver CloneForReturn]. rewrite Ev.
    destruct (beq (effectiveVary _ _ _) []) eqn:E; [rewrite Dk, beq_refl in Ekp; done|]. rewrite Ek, <- Dk, Ekp, map_get, Kk.
    apply beq_neq in Ekp. by rewrite lookup_insert_ne, lookup_insert_eq by congruence.
Qed.

(** A request the route sends through the cache. *)
Record through_cache (ctx : RequestCtx) : Prop := {
  tc_enabled : h_disabled h = false;
  tc_safe : isInvalidatingBytes (ctx_Method ctx) = false;
  tc_gate : requestBypass (g_bypassOnCookie gt) (g_bypassCookieNames gt) (g_uaBypass gt) ctx = false;
  tc_stream : sseIntent ctx = false;
}.

Abbreviation serve := (ServeRequest to_lower sum64 sum128 local u h gt ownerFn).

Lemma owner_not_asked (q : req_env) (a : answers) (p k : Key) (obj rs : option Object.t) (ri : RequestInfo) (n : mnode) :
  isOwnerOrUnmanaged ownerFn k = true -> ask_owner to_lower sum64 h ownerFn q a p k obj rs ri n = (n, None).
Proof using Type.
  intros Ho. unfold ask_owner. destruct (peerHintsApply h q obj); [done|]. unfold isOwnerOrUnmanaged in Ho. destruct ownerFn; [|done].
  destruct (an_peer a); [|done]. by rewrite Ho, orb_true_r.
Qed.

Lemma cold_miss (q : req_env) (a : answers) (ctx : RequestCtx) (n : mnode) : let p := buildKey sum128 (h_policy h) ctx in
  through_cache ctx -> isOwnerOrUnmanaged ownerFn p = true -> n_store n !! p = None ->
  decision (evaluateFast (ctx_Method ctx) (Peek (ctx_Header ctx)) None (q_now q)) = Miss ->
  serve q a ctx n = streamMiss to_lower sum64 local h gt ownerFn q a ctx p (requestInfoFromCtx ctx) n.
Proof using Type.
  cbn zeta. intros [T1 T2 T3 T4] Ho Hc Hm. unfold ServeRequest. rewrite T1, T2, T3. unfold lookup. rewrite map_get, Hc. unfold dispatch.
  cbn [option_map]. rewrite Hm, T4. unfold handleCacheMiss. by rewrite owner_not_asked.
Qed.

Lemma reserve_ok (k p : Key) (n : mnode) : k = p \/ Z.of_nat (size (liveVariantSet p n)) < h_maxVariants h ->
  (reserve_for h ownerFn k p n).2 = true /\ (k <> p -> k ∈ liveVariantSet p (reserve_for h ownerFn k p n).1).
Proof using Type.
  intros Hr. unfold reserve_for. destruct (beq k p) eqn:E; [apply beq_eq in E; by split|]. apply beq_neq in E. destruct Hr as [|Hr]; [done|].
  pose proof (reserve_spec h ownerFn p k false n) as Hs. unfold reserveVariantSlot. destruct (reserveVariantSlotMode h ownerFn p k false n) as [n1 ok].
  destruct Hs as (A & _ & B & _). split; [by apply B; left|]. intros _. apply A, B. by left.
Qed.

Lemma locations_map (ctx : RequestCtx) (hdr : FastHeader) (names : list bytes) : forall (n : mnode) x, n_store n !! x = None ->
  n_store (purge_locations sum128 u h ctx hdr names n).1 !! x = None.
Proof using Type.
  induction names as [|name names IH]; intros n x Hx; [done|]. cbn [purge_locations]. destruct (beq _ []); [by apply IH|].
  destruct (buildLocationKey _ _ _ _ _); [|done]. apply IH. case_tests; [done|]. unfold purgeAndBroadcast. cbn. rewrite purge_map. by case_bool_decide.
Qed.
End Found.

(** C3. A response filled on a miss is found again: when the first request for a
    page goes through the cache, the response may be stored and its body arrives
    whole, the client gets the response. In every later state of the node in
    which the entries under the page's key and the variant's key are still the
    ones this fill left, a request for the page that selects the same variant
    (equal values of the fields the response varies on) is looked up to the
    object built from that response, body and status included, through the
    resolver when the response varies; if the decision on that object is a hit
    and the request has no condition that holds and no range, it is served the
    object and the state does not change. This is for the plain map store (the
    tiered store may evict), a node that owns both keys, and a page whose
    variants are below their cap. *)
Theorem miss_then_hit (to_lower : bytes -> bytes) (Hl : LowerLaws to_lower) (sum64 : bytes -> Z) (sum128 : bytes -> Key) (local : bytes -> Z -> option Z)
    (u : NetURL) (h : Handler) (gt : gates) (ownerFn : option (Key -> bool)) (q q' : req_env) (a a' : answers) (ctx ctx' : RequestCtx)
    (n : Node (gmap Key Object.t)) (sf : streamFetchResult) (body : bytes) :
  let p := buildKey sum128 (h_policy h) ctx in
  let ri := requestInfoFromCtx ctx in
  let k := storeKey_of to_lower sum64 h p (ReqHeader ri) (sf_toMap sf) in
  through_cache h gt ctx -> isHead (ctx_Method ctx) = false -> n_store n !! p = None ->
  decision (evaluateFast (ctx_Method ctx) (Peek (ctx_Header ctx)) None (q_now q)) = Miss ->
  an_stream a = Ok sf -> stream_cacheable local h sf ri = Some true -> delivered h a sf = Some body ->
  k = p \/ Z.of_nat (size (liveVariantSet p n)) < h_maxVariants h ->
  isOwnerOrUnmanaged ownerFn k = true -> isOwnerOrUnmanaged ownerFn p = true ->
  through_cache h gt ctx' -> FastLaws (ctx_Header ctx') -> buildKey sum128 (h_policy h) ctx' = p ->
  same_selection to_lower h (effectiveVary to_lower (sf_toMap sf) (h_policy h)) ctx ctx' ->
  let '(n1, r1) := ServeRequest to_lower sum64 sum128 local u h gt ownerFn q a ctx n in
  r1 = ServeOrigin (sf_StatusCode sf) (sf_toMap sf) (Some body) /\
  exists obj, Object.Body obj = body /\ Object.StatusCode obj = sf_StatusCode sf /\ Object.Key_ obj = k /\
    forall n2, entries_kept p k n1 n2 ->
    lookup to_lower sum64 sum128 h ctx' n2 = (n2, p, k, Some (obj, SourceHot), None) /\
    (verdict q' ctx' obj = Hit -> tryConditional304Fast local (Peek (ctx_Header ctx')) obj = false -> Peek (ctx_Header ctx') Hdr.Range = [] ->
     ServeRequest to_lower sum64 sum128 local u h gt ownerFn q' a' ctx' n2 = (n2, ServeObject obj cacheHit (FromTier SourceHot))).
Proof.
  cbn zeta. intros T Hh Hc Hm Hs Hg Hd Hr Ok Op T' Hf Hb Hsel. set (p := buildKey sum128 (h_policy h) ctx) in *.
  set (k := storeKey_of _ _ _ _ _ _) in *. destruct (reserve_ok h ownerFn k p n Hr) as [Hres _].
  rewrite (cold_miss to_lower sum64 sum128 local u h gt ownerFn q a ctx n T Op Hc Hm). fold p.
  rewrite (stream_miss_fill to_lower sum64 local h gt ownerFn q a ctx p sf body n) by done.
  split; [done|]. eexists. split_and!; [..|intros n2 Hn2; split; [eapply (filled_found to_lower sum64 sum128 local h ownerFn q ctx ctx' p sf body); [done..|exact Hn2]|]].
  1-3: unfold with_pair, buildObject; destruct (stored_directives _); by case_tests.
  intros Hv Hi Hra. destruct T' as [T1 T2 T3 T4]. unfold ServeRequest. rewrite T1, T2, T3.
  erewrite (filled_found to_lower sum64 sum128 local h ownerFn q ctx ctx' p sf body); [|done..|exact Hn2]. unfold dispatch. cbn [option_map fst].
  unfold verdict in Hv. rewrite Hv. unfold serve_hit. rewrite Hi, Hra. done.
Qed.


(** ** Witnesses *)

Lemma raw_request_laws (l : list (string * string)) :
  forallb (fun '(k, _) => beq (canonicalize (bs k)) (bs k)) l = true -> FastLaws (raw_reply l).
Proof.
  intros H. split; cbn; [|done|..].
  - apply Forall_map, Forall_forall. intros [k v] Hkv%list_elem_of_In. rewrite forallb_forall in H. apply beq_eq. exact (H _ Hkv).
  - change (canonicalize Hdr.Cookie) with Hdr.Cookie. rewrite first_value_all. destruct (all_values _ _) as [|v [|w vs]]; [by left|by right|].
    rewrite !len_cons. pose proof (len_nonneg vs). lia.
  - change (canonicalize Hdr.Cookie) with Hdr.Cookie. rewrite first_value_all. by intros ->.
  - change (canonicalize Hdr.Cookie) with Hdr.Cookie. by split.
Qed.

Definition no_url : NetURL := {| URL := bytes; url_Parse s := Some s; url_Resolve _ r := Some r; url_Scheme _ := []; url_Host _ := []; url_Path s := s; url_String s := s |}.
Definition open_gates : gates := MkGates false scanner0 None true.
Definition a_request (method : string) (l : list (string * string)) : RequestCtx := MkCtx (bs method) (bs "/page") (bs "site") (bs "/page") false (raw_reply l).
Definition a_reply (status : Z) (l : list (string * string)) : streamFetchResult := MkStream (Some (raw_reply l, -1)) NewMap status 0 true.
Definition answers_of (sf : streamFetchResult) (body : string) : answers :=
  MkAnswers (Ok sf) (bs body) [] 0 (Err ErrOther) (fun _ _ => Err ErrOther) None (Err ErrOther).
Definition at_time (t : Z) : req_env := MkReqEnv (t * Second) (t * Second) plain_env true false None true.
Definition empty_node : Node (gmap Key Object.t) := MkNode ∅ ∅ ∅ ∅ (fun _ => None) [] [] [].
Abbreviation serve_in h := (ServeRequest (map lower_byte) len id no_local_zone no_url h open_gates None).

Definition french : RequestCtx := a_request "GET" [("Accept-Language", "fr")]%string.
Definition page_reply : streamFetchResult := a_reply 200 [("Cache-Control", "max-age=60"); ("Vary", "Accept-Language")]%string.
Definition page_answers : answers := answers_of page_reply "salut".

Lemma french_through : through_cache plain_route open_gates french.
Proof. split; reflexivity. Qed.

Lemma miss_then_hit_witness :
  let '(n1, r1) := serve_in plain_route (at_time 100) page_answers french empty_node in
  r1 = ServeOrigin 200 (sf_toMap page_reply) (Some (bs "salut")) /\
  exists obj, Object.Body obj = bs "salut" /\ forall n2, n_store n2 = n_store n1 -> lookup (map lower_byte) len id plain_route french n2
    = (n2, buildKey id None french, storeKey_of (map lower_byte) len plain_route (buildKey id None french) (ReqHeader (requestInfoFromCtx french)) (sf_toMap page_reply),
       Some (obj, SourceHot), None).
Proof.
  pose proof (miss_then_hit (map lower_byte) _ len id no_local_zone no_url plain_route open_gates None (at_time 100) (at_time 110) page_answers page_answers
    french french empty_node page_reply (bs "salut") french_through ltac:(reflexivity) ltac:(reflexivity) ltac:(vm_compute; reflexivity) ltac:(reflexivity)
    ltac:(vm_compute; reflexivity) ltac:(vm_compute; reflexivity) ltac:(right; vm_compute; reflexivity) ltac:(reflexivity) ltac:(reflexivity) french_through
    ltac:(apply raw_request_laws; vm_compute; reflexivity) ltac:(reflexivity) ltac:(intros f _; reflexivity)) as H.
  destruct (serve_in plain_route (at_time 100) page_answers french empty_node) as [n1 r1]. destruct H as (A & obj & B & C & D & E).
  split; [exact A|]. exists obj. split; [exact B|]. intros n2 Hn. apply E. split; by rewrite Hn.
Defined.

Definition posted : answers :=
  MkAnswers (Err ErrOther) [] [] 0 (Err ErrOther) (fun _ _ => Err ErrOther) None (Ok (MkProxied 204 (raw_reply []) [])).


(** A run: a miss that fills, a hit, an unsafe request. *)
Definition page_log (ri : RequestInfo) (res : fetchResult) : Prop :=
  ri = requestInfoFromCtx french /\ res = MkFetch 200 (sf_toMap page_reply) (bs "salut") 0.
Definition post_log (ri : RequestInfo) (res : fetchResult) : Prop := True.
Definition page_run : list event :=
  [ERequest (at_time 100) page_answers french; ERequest (at_time 110) page_answers french; ERequest (at_time 120) posted (a_request "POST" [])].

Lemma page_answers_in (q : req_env) : q_transferred q = None -> answers_in page_log post_log (fun _ => False) q page_answers french.
Proof.
  intros Hq. split; cbn; try done; [|congruence]. intros sf [= <-]. split_and!; [|done|done]. cbn.
  split_and!; [apply raw_reply_laws; vm_compute; reflexivity|repeat constructor; discriminate|vm_compute; reflexivity].
Qed.

(** The same run on a store whose second write (the resolver of the fill) fails
    and that then loses what it holds. *)
Definition lossy_node : Node lossy :=
  MkNode (MkLossy ∅ 0 (fun i => if decide (i = 4)%nat then {[buildKey id None french]} else ∅) (Nat.eqb 3)) ∅ ∅ ∅ (fun _ => None) [] [] [].

Lemma served_bodies_shareable_witness :
  (let '(n, replies) := run (map lower_byte) len id no_local_zone no_url plain_route open_gates None page_run empty_node in
   length replies = 3%nat /\ n_store n = ∅ /\ Forall (reply_good plain_route page_log post_log (fun _ => False)) replies) /\
  (let '(n, replies) := run (map lower_byte) len id no_local_zone no_url plain_route open_gates None page_run lossy_node in
   length replies = 3%nat /\ Forall (reply_good plain_route page_log post_log (fun _ => False)) replies).
Proof.
  assert (forall (S : Type) (OS : ObjectStore S) (n : Node S), run_in (map lower_byte) len id no_local_zone no_url plain_route open_gates None page_log post_log (fun _ => False) page_run n) as Hin.
  { intros S OS n. unfold page_run, run_in, event_in. split; [apply page_answers_in; reflexivity|]. split; [apply page_answers_in; reflexivity|]. split; [|exact I].
    split; cbn; try done. intros px [= <-]. split_and!; [apply raw_reply_laws; reflexivity|constructor|exact I]. }
  split.
  - pose proof (@served_bodies_shareable _ map_store map_store_laws map_store_total (map lower_byte) len id no_local_zone no_url plain_route open_gates None page_log post_log (fun _ => False) page_run empty_node
      ltac:(apply map_Forall_empty) ltac:(reflexivity) (Hin _ _ _)) as H.
    assert (length (run (map lower_byte) len id no_local_zone no_url plain_route open_gates None page_run empty_node).2 = 3%nat
      /\ n_store (run (map lower_byte) len id no_local_zone no_url plain_route open_gates None page_run empty_node).1 = ∅) as Hc by (vm_compute; split; reflexivity).
    destruct (run (map lower_byte) len id no_local_zone no_url plain_route open_gates None page_run empty_node) as [n replies].
    split; [exact (proj1 Hc)|]. split; [exact (proj2 Hc)|]. apply H.
  - pose proof (@served_bodies_shareable _ lossy_store lossy_store_laws lossy_store_total (map lower_byte) len id no_local_zone no_url plain_route open_gates None page_log post_log (fun _ => False) page_run lossy_node
      ltac:(apply map_Forall_empty) ltac:(reflexivity) (Hin _ _ _)) as H.
    assert (length (run (map lower_byte) len id no_local_zone no_url plain_route open_gates None page_run lossy_node).2 = 3%nat) as Hc by (vm_compute; reflexivity).
    destruct (run (map lower_byte) len id no_local_zone no_url plain_route open_gates None page_run lossy_node) as [n replies].
    split; [exact Hc|]. apply H.
Defined.

