(* ===== verification/ServeCases.v ===== *)
(** What the handler does on edge inputs, by evaluation: concrete requests,
    answers of the origin and events on a map as the store. *)

From S2P Require Import Prelude GoStd Tiered TieredRefine H1Parser UABypass DateFormat FastPath GoStrings CacheControl HeaderMap RawReq Api HttpDate Engine Cacheable Conditional Cookies Keys Negotiate Vary KeyConfig StoreSpec Fill Handler Serve ServeSpec.

(** ** Inputs *)

Definition get_page : RequestCtx := a_request "GET" [].
Definition page_key : Key := buildKey id None get_page.
Definition cond_answers (f : bytes -> bytes -> result fetch_error fetchResult) : answers :=
  MkAnswers (Err ErrOther) [] [] 0 (Err ErrOther) f None (Err ErrOther).
Definition fetch_answers (r : result fetch_error fetchResult) : answers :=
  MkAnswers (Err ErrOther) [] [] 0 r (fun _ _ => Err ErrOther) None (Err ErrOther).
Definition proxy_answers (status : Z) (l : list (string * string)) (body : string) : answers :=
  MkAnswers (Err ErrOther) [] [] 0 (Err ErrOther) (fun _ _ => Err ErrOther) None (Ok (MkProxied status (raw_reply l) (bs body))).
Definition response (status : Z) (l : list (string * string)) (body : string) : fetchResult := MkFetch status (lines l) (bs body) 0.

(** The body and the kind of a reply. *)
Definition shown (r : reply) : option (Z * bytes * option cacheResult) :=
  match r with
  | ServeObject o c _ => Some (Object.StatusCode o, Object.Body o, Some c)
  | ServeNotModified _ c _ => Some (304, [], Some c)
  | ServeOrigin s _ b => Some (s, default [] b, None)
  | _ => None
  end.
Definition fill (h : Handler) (t : Z) (ctx : RequestCtx) (l : list (string * string)) (body : string) (n : Node (gmap Key Object.t)) : Node (gmap Key Object.t) :=
  (serve_in h (at_time t) (answers_of (a_reply 200 l) body) ctx n).1.
Definition variant_of (ctx : RequestCtx) : Key := VariantKeyFast (map lower_byte) len page_key (bs "Accept-Language") (ctx_Header ctx) None.
Definition speaking (lang : string) : RequestCtx := a_request "GET" [("Accept-Language", lang)]%string.
Definition keys_of (n : Node (gmap Key Object.t)) (ks : list Key) : list bool := map (fun k => bool_decide (is_Some (n_store n !! k))) ks.

(** ** Unsafe methods *)

(** The response to a POST is stored under the URL whatever its directives: a
    private one is served to the next GET. *)
Lemma private_post_is_shared :
  let n := (serve_in plain_route (at_time 100) (proxy_answers 200 [("Cache-Control", "private, max-age=60"); ("Content-Location", "/elsewhere")] "mine") (a_request "POST" [("Cookie", "session=1")]) empty_node).1 in
  shown (serve_in plain_route (at_time 110) page_answers get_page n).2 = Some (200, bs "mine", Some cacheHit).
Proof. vm_compute. reflexivity. Qed.

(** A Location header that is resolved against a target that does not parse. *)
Lemma location_panics :
  let strict := {| URL := bytes; url_Parse s := if beq s (bs "/%zz") then None else Some s;
                   url_Resolve b r := match b with Some _ => Some r | None => None end;
                   url_Scheme _ := []; url_Host _ := []; url_Path s := s; url_String s := s |} in
  let ctx := MkCtx (bs "POST") (bs "/%zz") (bs "site") (bs "/%zz") false (raw_reply []) in
  (ServeRequest (map lower_byte) len id no_local_zone strict plain_route open_gates None (at_time 100)
     (proxy_answers 201 [("Location", "/new")]%string "") ctx empty_node).2 = ServePanic.
Proof. vm_compute. reflexivity. Qed.

(** ** Empty lines *)

(** An empty CDN-Cache-Control line hides a second one from the streaming gate: a
    response that is no-store for shared caches is stored and served as stale. *)
Lemma empty_cdn_line_is_shared :
  let n := (serve_in plain_route (at_time 100) (answers_of (a_reply 200 [("Cdn-Cache-Control", ""); ("Cdn-Cache-Control", "no-store"); ("Cache-Control", "max-age=60")]) "kept")
              get_page empty_node).1 in
  shown (serve_in plain_route (at_time 110) page_answers get_page n).2 = Some (200, bs "kept", Some cacheStale).
Proof. vm_compute. reflexivity. Qed.

(** ** Partial content *)

(** The 206 to a range request that missed is stored and served to a request
    without a range. *)
Lemma partial_content_is_shared :
  let n := (serve_in plain_route (at_time 100) (answers_of (a_reply 206 [("Cache-Control", "max-age=60"); ("Content-Range", "bytes 0-1/5")]) "he")
              (a_request "GET" [("Range", "bytes=0-1")]) empty_node).1 in
  shown (serve_in plain_route (at_time 110) page_answers get_page n).2 = Some (206, bs "he", Some cacheHit).
Proof. vm_compute. reflexivity. Qed.

(** ** Revalidation *)

Definition old_page : Node (gmap Key Object.t) :=
  fill plain_route 100 get_page [("Cache-Control", "max-age=10"); ("Last-Modified", "Thu, 01 Jan 1970 00:00:50 GMT")]%string "old" empty_node.

(** A stored object without a tag is revalidated with the client's own: the 304
    that answers the client's tag makes the old body fresh for everyone. *)
Lemma client_tag_freshens_old_body :
  let a := cond_answers (fun inm _ => if beq inm (bs "v2") then Ok (response 304 [("Cache-Control", "max-age=60"); ("Etag", "v2")] "") else Ok (response 200 [("Cache-Control", "max-age=60")] "new")) in
  let '(n, r) := serve_in plain_route (at_time 120) a (a_request "GET" [("If-None-Match", "v2")]) old_page in
  shown r = Some (304, [], Some cacheRevalidated) /\ shown (serve_in plain_route (at_time 130) page_answers get_page n).2 = Some (200, bs "old", Some cacheHit).
Proof. vm_compute. split; reflexivity. Qed.

(** A 304 is merged without the storage gate: what it marks private stays and is
    served as a hit. *)
Lemma private_304_stays :
  let a := cond_answers (fun _ _ => Ok (response 304 [("Cache-Control", "private, max-age=60")]%string "")) in
  let n := (serve_in plain_route (at_time 120) a get_page old_page).1 in
  option_map Object.CacheControl (n_store n !! page_key) = Some (bs "private, max-age=60") /\
  shown (serve_in plain_route (at_time 130) page_answers get_page n).2 = Some (200, bs "old", Some cacheHit).
Proof. vm_compute. split; reflexivity. Qed.

(** A stale-if-error window outweighs must-revalidate when the object has no
    validator. *)
Lemma must_revalidate_served_stale :
  let n := fill plain_route 100 get_page [("Cache-Control", "max-age=10, must-revalidate, stale-if-error=600")]%string "old" empty_node in
  shown (serve_in plain_route (at_time 120) (fetch_answers (Err ErrOther)) get_page n).2 = Some (200, bs "old", Some cacheStale).
Proof. vm_compute. reflexivity. Qed.

(** A stale object served as parts of a range starts no revalidation, unlike the
    same object served whole. *)
Lemma stale_range_starts_no_refresh :
  let n := fill plain_route 100 get_page [("Cache-Control", "max-age=10, stale-while-revalidate=600")]%string "hello" empty_node in
  length (n_jobs (serve_in plain_route (at_time 120) page_answers get_page n).1) = 1%nat /\
  let '(n', r) := serve_in plain_route (at_time 120) page_answers (a_request "GET" [("Range", "bytes=0-1")]%string) n in
  match r with ServeParts _ _ _ => n_jobs n' = [] | _ => False end.
Proof. vm_compute. split; reflexivity. Qed.

(** ** Variants *)

Definition two_variants : Node (gmap Key Object.t) :=
  fill plain_route 101 (speaking "eng") [("Cache-Control", "max-age=60"); ("Vary", "Accept-Language")]%string "hello"
    (fill plain_route 100 (speaking "fr") [("Cache-Control", "max-age=60"); ("Vary", "Accept-Language")]%string "salut" empty_node).

(** On a single node the set of variants is emptied when only the resolver was
    evicted: the older variants are no longer known to a purge and are served
    after it. *)
Lemma purge_misses_untracked_variants :
  let n := {| two_variants with n_store := delete page_key (n_store two_variants) |} in
  let n := fill plain_route 102 (speaking "de-at") [("Cache-Control", "max-age=60"); ("Vary", "Accept-Language")]%string "hallo" n in
  let n := (Purge page_key n).1.1 in
  keys_of n [page_key; variant_of (speaking "de-at"); variant_of (speaking "fr")] = [false; false; true] /\
  let n := fill plain_route 103 (speaking "de-at") [("Cache-Control", "max-age=60"); ("Vary", "Accept-Language")]%string "neu" n in
  shown (serve_in plain_route (at_time 104) page_answers (speaking "fr") n).2 = Some (200, bs "salut", Some cacheHit).
Proof. vm_compute. split; reflexivity. Qed.

(** The background refill of a shed miss stores a varying response under the
    primary key, where no lookup takes it for the request. *)
Lemma refill_is_not_found :
  let ri := background_request (requestInfoFromCtx (speaking "fr")) in
  let n := doShedRefill (map lower_byte) len no_local_zone plain_route None (at_time 100)
             (Ok (response 200 [("Cache-Control", "max-age=60"); ("Vary", "Accept-Language")]%string "salut")) ri page_key empty_node in
  let '(_, _, _, found, resolver) := lookup (map lower_byte) len id plain_route (speaking "fr") n in
  found = None /\ option_map (fun r => Object.Body r.1) resolver = Some (bs "salut").
Proof. vm_compute. split; reflexivity. Qed.

(** A 304 that changes Vary purges the page and then stores the refreshed
    object under its old variant key, which is not tracked any more. *)
Lemma drift_leaves_untracked_variant :
  let n := fill plain_route 100 (speaking "fr") [("Cache-Control", "max-age=10"); ("Etag", "a"); ("Vary", "Accept-Language")]%string "salut" empty_node in
  let a := cond_answers (fun _ _ => Ok (response 304 [("Vary", "Accept-Encoding")]%string "")) in
  let n := (serve_in plain_route (at_time 120) a (speaking "fr") n).1 in
  keys_of n [page_key; variant_of (speaking "fr")] = [false; true] /\ liveVariantSet page_key n = ∅.
Proof. vm_compute. split; reflexivity. Qed.

(** The body served behind a resolver is that of the variant as it is now, the
    tag that was validated is that of the variant when the resolver was made:
    after the variant was refreshed in the background, a 304 for the old tag
    serves the new body under the old tag. *)
Lemma resolver_tag_with_other_body :
  let n := fill plain_route 100 (speaking "fr") [("Cache-Control", "max-age=60"); ("Etag", "v1"); ("Vary", "Accept-Language")]%string "one" empty_node in
  let stale := default Object.zero (n_store n !! variant_of (speaking "fr")) in
  let n := doBackgroundRevalidate (map lower_byte) len id no_local_zone plain_route None (at_time 110)
             (Ok (response 200 [("Cache-Control", "max-age=60"); ("Etag", "v2"); ("Vary", "Accept-Language")]%string "two"))
             (background_request (requestInfoFromCtx (speaking "fr"))) (variant_of (speaking "fr")) stale 0 n in
  let a := cond_answers (fun inm _ => Ok (response 304 [("Etag", "v1")]%string "")) in
  match (serve_in plain_route (at_time 115) a (speaking "eng") n).2 with
  | ServeObject o cacheRevalidated _ => Object.ETag o = bs "v1" /\ Object.Body o = bs "two"
  | _ => False
  end.
Proof. vm_compute. split; reflexivity. Qed.

(** ** Scheduled refreshes *)

Definition refreshing_route : Handler := {| plain_route with h_refreshBeforeExpiry := true; h_refreshMargin := Second |}.

(** A HEAD that is answered by a 304 registers its method: the refresh then asks
    with HEAD and stores the empty body under the key GETs are served from. It
    also has lost the host, because the registry keeps the request target. *)
Lemma head_refresh_empties_page :
  let n := fill refreshing_route 100 get_page [("Cache-Control", "max-age=10"); ("Etag", "a")]%string "hello" empty_node in
  let n := (serve_in refreshing_route (at_time 120) (cond_answers (fun _ _ => Ok (response 304 [("Cache-Control", "max-age=60")]%string ""))) (a_request "HEAD" []) n).1 in
  option_map re_method (n_registry n !! page_key) = Some (bs "HEAD") /\
  let n := triggerBgRefresh (map lower_byte) len id no_local_zone no_url refreshing_route None (at_time 170)
             (Ok (response 200 [("Cache-Control", "max-age=60"); ("Etag", "b")]%string "")) true 0 1 page_key n in
  shown (serve_in refreshing_route (at_time 175) page_answers get_page n).2 = Some (200, [], Some cacheHit) /\
  option_map (fun o => Get (Object.Header o) Hdr.XBouineHost) (n_store n !! page_key) = Some [].
Proof. vm_compute. split_and!; reflexivity. Qed.
