(* ===== verification/Scheduler.v ===== *)
(** The refresh scheduler (src/internal/cache/scheduler.go): a binary heap of
    entries shared through pointers with an index by key, the operations on it
    under the mutex, and the drainer goroutine with its timer, its wake-up
    channel and its compaction pass as a step relation that interleaves with
    [Schedule] calls. [None] is a panic (an index out of range). *)

From S2P Require Import Prelude GoStd Api.

(** ** State *)

(** [index] is the position in the heap. *)
Record heapEntry : Type := MkEntry { e_key : Key; e_refreshAt : Z; e_index : nat }.

(** The entries behind their pointers, the heap, the index, and the next
    pointer to allocate. *)
Record scheduler : Type := MkSched {
  s_ents : gmap nat heapEntry;
  s_heap : list nat;
  s_index : gmap Key nat;
  s_next : nat;
}.

Definition NewRefreshScheduler : scheduler := MkSched ∅ [] ∅ 0.

(** ** heap.Interface *)

Definition entry_at (s : scheduler) (i : nat) : option heapEntry := p ← s_heap s !! i; s_ents s !! p.

Definition Less (s : scheduler) (i j : nat) : option bool :=
  a ← entry_at s i; b ← entry_at s j; Some (e_refreshAt a <? e_refreshAt b).

Definition set_index (s : scheduler) (p i : nat) : option scheduler :=
  e ← s_ents s !! p; Some {| s with s_ents := <[p := {| e with e_index := i |}]> (s_ents s) |}.

Definition Swap (s : scheduler) (i j : nat) : option scheduler :=
  pi ← s_heap s !! i; pj ← s_heap s !! j;
  s ← set_index {| s with s_heap := <[j := pi]> (<[i := pj]> (s_heap s)) |} pj i;
  set_index s pi j.

Definition Push (s : scheduler) (p : nat) : option scheduler :=
  s ← set_index s p (length (s_heap s)); Some {| s with s_heap := s_heap s ++ [p] |}.

Definition Pop (s : scheduler) : option (scheduler * nat) :=
  p ← last (s_heap s); Some ({| s with s_heap := take (length (s_heap s) - 1) (s_heap s) |}, p).

(** ** container/heap *)

Fixpoint up (fuel : nat) (s : scheduler) (j : nat) : option scheduler :=
  match fuel with
  | O => None
  | S fuel =>
      let i := ((j - 1) / 2)%nat in
      if (i =? j)%nat then Some s
      else lt ← Less s j i; if negb lt then Some s else s ← Swap s i j; up fuel s i
  end.

(** The smaller child of a node whose left child [j1] is below [n]. *)
Definition smaller_child (s : scheduler) (j1 n : nat) : option nat :=
  if (j1 + 1 <? n)%nat then b ← Less s (j1 + 1) j1; Some (if (b : bool) then (j1 + 1)%nat else j1) else Some j1.

(** The position [i] ends at. *)
Fixpoint down (fuel : nat) (s : scheduler) (i n : nat) : option (scheduler * nat) :=
  match fuel with
  | O => None
  | S fuel =>
      let j1 := (2 * i + 1)%nat in
      if (n <=? j1)%nat then Some (s, i)
      else
        j ← smaller_child s j1 n;
        lt ← Less s j i; if negb lt then Some (s, i) else s ← Swap s i j; down fuel s j n
  end.

Definition heap_Push (s : scheduler) (p : nat) : option scheduler :=
  s ← Push s p; up (length (s_heap s)) s (length (s_heap s) - 1).

Definition heap_Pop (s : scheduler) : option (scheduler * nat) :=
  let n := (length (s_heap s) - 1)%nat in
  s ← Swap s 0 n; '(s, _) ← down (length (s_heap s)) s 0 n; Pop s.

Definition heap_Fix (s : scheduler) (i : nat) : option scheduler :=
  '(s, i') ← down (length (s_heap s)) s i (length (s_heap s));
  if (i <? i')%nat then Some s else up (length (s_heap s)) s i.

(** ** Operations under the mutex *)

(** The locked part of [Schedule] (not stopped). *)
Definition schedule_locked (s : scheduler) (key : Key) (refreshAt : Time) : option scheduler :=
  match s_index s !! key with
  | Some p =>
      e ← s_ents s !! p;
      heap_Fix {| s with s_ents := <[p := {| e with e_refreshAt := unix_nano refreshAt |}]> (s_ents s) |} (e_index e)
  | None =>
      let p := s_next s in
      let s := {| s with s_ents := <[p := MkEntry key (unix_nano refreshAt) 0]> (s_ents s); s_next := S p |} in
      s ← heap_Push s p; Some {| s with s_index := <[key := p]> (s_index s) |}
  end.

Definition heap_Len (s : scheduler) : nat := length (s_heap s).

(** [heap.Pop] and the deletion from the index. *)
Definition pop_locked (s : scheduler) : option (scheduler * nat) :=
  '(s, p) ← heap_Pop s; e ← s_ents s !! p; Some ({| s with s_index := delete (e_key e) (s_index s) |}, p).

Definition compactionWindow : Duration := 5 * Second.

(** Phase 1 of [compact]. *)
Fixpoint collect_locked (fuel : nat) (s : scheduler) (cutoff : Z) : option (scheduler * list nat) :=
  match fuel with
  | O => Some (s, [])
  | S fuel =>
      match s_heap s with
      | [] => Some (s, [])
      | top :: _ =>
          e ← s_ents s !! top;
          if cutoff <? e_refreshAt e then Some (s, [])
          else '(s, p) ← pop_locked s; '(s, ps) ← collect_locked fuel s cutoff; Some (s, p :: ps)
      end
  end.

(** Phase 3. *)
Fixpoint reinsert_locked (s : scheduler) (live : list nat) : option scheduler :=
  match live with
  | [] => Some s
  | p :: live =>
      e ← s_ents s !! p;
      match s_index s !! e_key e with
      | Some _ => reinsert_locked s live
      | None => s ← heap_Push s p; reinsert_locked {| s with s_index := <[e_key e := p]> (s_index s) |} live
      end
  end.

(** ** The heap *)

(** Every entry of the heap knows its position. *)
Definition placed (s : scheduler) : Prop := forall i p, s_heap s !! i = Some p -> exists e, s_ents s !! p = Some e /\ e_index e = i.

(** The time at a position. *)
Definition tm (s : scheduler) (i : nat) : Z := match entry_at s i with Some e => e_refreshAt e | None => 0 end.

(** The key and time behind a pointer. *)
Definition data (s : scheduler) (p : nat) : option (Key * Z) := (fun e => (e_key e, e_refreshAt e)) <$> s_ents s !! p.

(** What moving entries leaves alone. *)
Record frame (s s' : scheduler) : Prop := MkFrame {
  fr_length : length (s_heap s') = length (s_heap s);
  fr_heap p : p ∈ s_heap s' <-> p ∈ s_heap s;
  fr_index : s_index s' = s_index s;
  fr_next : s_next s' = s_next s;
  fr_data p : data s' p = data s p;
}.

#[export] Instance frame_refl : Reflexive frame.
Proof. by constructor. Qed.

#[export] Instance frame_trans : Transitive frame.
Proof.
  intros s1 s2 s3 [A1 A2 A3 A4 A5] [B1 B2 B3 B4 B5]. split; [congruence| |congruence|congruence|].
  - intros p. by rewrite B2, A2.
  - intros p. by rewrite B5, A5.
Qed.

Definition swp (i j k : nat) : nat := if (k =? i)%nat then j else if (k =? j)%nat then i else k.

Lemma tm_at (s : scheduler) (i : nat) (p : nat) (e : heapEntry) : s_heap s !! i = Some p -> s_ents s !! p = Some e -> tm s i = e_refreshAt e.
Proof. intros H1 H2. unfold tm, entry_at. rewrite H1. cbn. by rewrite H2. Qed.

Lemma tm_data (s : scheduler) (i p : nat) : s_heap s !! i = Some p -> tm s i = default 0 (snd <$> data s p).
Proof. intros H1. unfold tm, entry_at, data. rewrite H1. cbn. by destruct (s_ents s !! p). Qed.

Lemma placed_entry (s : scheduler) (i : nat) : placed s -> (i < length (s_heap s))%nat ->
  exists p e, s_heap s !! i = Some p /\ s_ents s !! p = Some e /\ e_index e = i /\ tm s i = e_refreshAt e.
Proof.
  intros Hs Hi. destruct (lookup_lt_is_Some_2 _ _ Hi) as [p Hp]. destruct (Hs i p Hp) as (e & He & Hx). exists p, e. split_and!; [done..|]. by eapply tm_at.
Qed.

Lemma Less_spec (s : scheduler) (i j : nat) : placed s -> (i < length (s_heap s))%nat -> (j < length (s_heap s))%nat -> Less s i j = Some (tm s i <? tm s j).
Proof.
  intros Hs Hi Hj. destruct (placed_entry s i Hs Hi) as (p & e & Hp & He & _ & ->). destruct (placed_entry s j Hs Hj) as (p' & e' & Hp' & He' & _ & ->).
  unfold Less, entry_at. rewrite Hp, Hp'. cbn. by rewrite He, He'.
Qed.

Lemma Swap_spec (s : scheduler) (i j : nat) : placed s -> (i < length (s_heap s))%nat -> (j < length (s_heap s))%nat ->
  exists s', Swap s i j = Some s' /\ placed s' /\ frame s s' /\
    (forall k, s_heap s' !! k = s_heap s !! swp i j k) /\ forall k, tm s' k = tm s (swp i j k).
Proof.
  intros Hs Hi Hj. destruct (placed_entry s i Hs Hi) as (p & e & Hp & He & Hx & _). destruct (placed_entry s j Hs Hj) as (p' & e' & Hp' & He' & Hx' & _).
  assert (p = p' -> i = j) as Hpp by (intros ->; congruence).
  unfold Swap, set_index. rewrite Hp, Hp'. cbn [mbind option_bind s_ents]. rewrite He'. cbn [mbind option_bind s_ents].
  set (h' := <[j := p]> (<[i := p']> (s_heap s))).
  assert (forall k, h' !! k = s_heap s !! swp i j k) as Hh.
  { intros k. unfold h', swp. destruct (decide (k = j)) as [->|Hj'].
    - rewrite list_lookup_insert_eq by (by rewrite length_insert). rewrite Nat.eqb_refl. destruct (Nat.eqb_spec j i) as [->|]; congruence.
    - rewrite list_lookup_insert_ne by done. rewrite (proj2 (Nat.eqb_neq k j)) by done. destruct (Nat.eqb_spec k i) as [->|].
      + by rewrite list_lookup_insert_eq.
      + by rewrite list_lookup_insert_ne. }
  assert (exists e2, <[p' := {| e' with e_index := i |}]> (s_ents s) !! p = Some e2 /\ (e_key e2, e_refreshAt e2) = (e_key e, e_refreshAt e)) as (e2 & He2 & Hd).
  { destruct (decide (p' = p)) as [->|]; [|rewrite lookup_insert_ne by done; eauto]. rewrite lookup_insert_eq. eexists. split; [done|]. cbn. congruence. }
  rewrite He2. eexists. split; [reflexivity|]. cbn [s_heap s_ents s_index s_next].
  set (ents' := <[p := {| e2 with e_index := j |}]> (<[p' := {| e' with e_index := i |}]> (s_ents s))).
  assert (forall x, (fun e => (e_key e, e_refreshAt e)) <$> ents' !! x = (fun e => (e_key e, e_refreshAt e)) <$> s_ents s !! x) as Hdata.
  { intros x. unfold ents'. destruct (decide (p = x)) as [<-|]; [rewrite lookup_insert_eq, He; cbn; congruence|]. rewrite lookup_insert_ne by done.
    destruct (decide (p' = x)) as [<-|]; [by rewrite lookup_insert_eq, He'|]. by rewrite lookup_insert_ne. }
  split_and!.
  - intros k x. cbn. rewrite Hh. unfold swp, ents'. destruct (Nat.eqb_spec k i) as [->|]; [|destruct (Nat.eqb_spec k j) as [->|]].
    + rewrite Hp'. intros [= <-]. destruct (decide (p = p')) as [E|]; [subst; rewrite lookup_insert_eq; eexists; split; [done|]; cbn; congruence|].
      rewrite lookup_insert_ne, lookup_insert_eq by done. by eexists.
    + rewrite Hp. intros [= <-]. rewrite lookup_insert_eq. by eexists.
    + intros Hk. destruct (Hs k x Hk) as (ex & Hex & Hi'). rewrite !lookup_insert_ne by congruence. by eexists.
  - split; cbn; [unfold h'; by rewrite !length_insert| |done..|exact Hdata]. intros x. rewrite !list_elem_of_lookup. split; intros [k Hk].
    + rewrite Hh in Hk. by eexists.
    + exists (swp i j k). rewrite Hh. assert (swp i j (swp i j k) = k) as ->; [|done]. unfold swp. repeat case_match; bool_cases; try done; rewrite ?Nat.eqb_eq, ?Nat.eqb_neq in *; congruence.
  - exact Hh.
  - intros k. unfold tm, entry_at. cbn. rewrite Hh. destruct (s_heap s !! swp i j k) as [x|]; [|done]. cbn. pose proof (Hdata x) as Hdx.
    destruct (ents' !! x), (s_ents s !! x); cbn in Hdx; congruence.
Qed.

(** *** Heap order *)

Definition kid (i c : nat) : Prop := (c = 2 * i + 1 \/ c = 2 * i + 2)%nat.

Definition ordered (n : nat) (t : nat -> Z) : Prop := forall i c, kid i c -> (c < n)%nat -> t i <= t c.

(** Ordered but for the edges at [x]. *)
Record hole (x n : nat) (t : nat -> Z) : Prop := MkHole {
  hole_edge i c : kid i c -> (c < n)%nat -> c <> x -> i <> x -> t i <= t c;
  hole_over i c : kid i x -> kid x c -> (c < n)%nat -> t i <= t c;
}.

Definition kids_above (x n : nat) (t : nat -> Z) : Prop := forall c, kid x c -> (c < n)%nat -> t x <= t c.
Definition parent_below (x : nat) (t : nat -> Z) : Prop := forall i, kid i x -> t i <= t x.

Lemma hole_closed (x n : nat) (t : nat -> Z) : hole x n t -> kids_above x n t -> parent_below x t -> ordered n t.
Proof.
  intros [H1 _] H2 H3 i c Hk Hc. destruct (decide (c = x)) as [->|]; [by apply H3|]. destruct (decide (i = x)) as [->|]; [by apply H2|]. by apply H1.
Qed.

Lemma ordered_hole (x n : nat) (t t' : nat -> Z) : ordered n t -> (forall k, k <> x -> t' k = t k) -> (x < n)%nat -> hole x n t'.
Proof.
  intros Ho Ht Hx. split.
  - intros i c Hk Hc ? ?. rewrite !Ht by done. by apply Ho.
  - intros i c Hi Hk Hc. unfold kid in *. rewrite !Ht by lia. transitivity (t x); apply Ho; unfold kid; lia.
Qed.

Lemma swp_l (i j : nat) : swp i j i = j.
Proof. unfold swp. by rewrite Nat.eqb_refl. Qed.
Lemma swp_r (i j : nat) : swp i j j = i.
Proof. unfold swp. rewrite Nat.eqb_refl. by destruct (Nat.eqb_spec j i). Qed.
Lemma swp_ne (i j k : nat) : k <> i -> k <> j -> swp i j k = k.
Proof. intros A B. unfold swp. by rewrite (proj2 (Nat.eqb_neq k i) A), (proj2 (Nat.eqb_neq k j) B). Qed.

(** The swap of [up]: the hole moves to the parent. *)
Lemma hole_up (i j n : nat) (t t' : nat -> Z) : kid i j -> (j < n)%nat -> hole j n t -> kids_above j n t -> t j < t i ->
  (forall k, t' k = t (swp i j k)) -> hole i n t' /\ kids_above i n t'.
Proof.
  intros Hk Hj [H1 H2] H3 Hlt Ht. assert (t' i = t j) as Ei by (by rewrite Ht, swp_l). assert (t' j = t i) as Ej by (by rewrite Ht, swp_r).
  assert (forall k, k <> i -> k <> j -> t' k = t k) as En by (intros k A B; by rewrite Ht, swp_ne).
  assert (forall c, kid i c -> (c < n)%nat -> c <> j -> t i <= t c) as Hs by (intros c Hc ? ?; apply H1; unfold kid in *; try lia; done).
  split; [split|].
  - intros a c Hac Hc ? ?. destruct (decide (a = j)) as [->|].
    + rewrite Ej, En by (unfold kid in *; lia). by apply (H2 i c).
    + destruct (decide (c = j)) as [->|]; [unfold kid in *; lia|]. rewrite !En by done. by apply H1.
  - intros a c Ha Hc Hcn. assert (t a <= t i) by (apply H1; unfold kid in *; lia). rewrite (En a) by (unfold kid in *; lia).
    destruct (decide (c = j)) as [->|]; [by rewrite Ej|]. rewrite En by (unfold kid in *; lia). transitivity (t i); [done|by apply Hs].
  - intros c Hc Hcn. rewrite Ei. destruct (decide (c = j)) as [->|]; [rewrite Ej; lia|]. rewrite En by (unfold kid in *; lia). pose proof (Hs c Hc Hcn ltac:(done)). lia.
Qed.

(** The swap of [down]: the hole moves to the smaller child. *)
Lemma hole_down (i j n : nat) (t t' : nat -> Z) : kid i j -> (j < n)%nat -> hole i n t -> (forall c, kid i c -> (c < n)%nat -> t j <= t c) -> t j < t i ->
  (forall k, t' k = t (swp i j k)) -> hole j n t' /\ parent_below j t'.
Proof.
  intros Hk Hj [H1 H2] Hmin Hlt Ht. assert (t' i = t j) as Ei by (by rewrite Ht, swp_l). assert (t' j = t i) as Ej by (by rewrite Ht, swp_r).
  assert (forall k, k <> i -> k <> j -> t' k = t k) as En by (intros k A B; by rewrite Ht, swp_ne).
  split; [split|].
  - intros a c Hac Hc ? ?. destruct (decide (a = i)) as [->|].
    + rewrite Ei, En by (unfold kid in *; lia). by apply Hmin.
    + destruct (decide (c = i)) as [->|].
      * rewrite Ei, En by (unfold kid in *; lia). by apply (H2 a j).
      * rewrite !En by done. by apply H1.
  - intros a c Ha Hc Hcn. assert (a = i) as -> by (unfold kid in *; lia). rewrite Ei, En by (unfold kid in *; lia). apply H1; unfold kid in *; try lia; done.
  - intros a Ha. assert (a = i) as -> by (unfold kid in *; lia). rewrite Ei, Ej. lia.
Qed.

Lemma up_spec (fuel : nat) : forall (s : scheduler) (j : nat), placed s -> (j < length (s_heap s))%nat -> (j < fuel)%nat ->
  hole j (length (s_heap s)) (tm s) -> kids_above j (length (s_heap s)) (tm s) ->
  exists s', up fuel s j = Some s' /\ placed s' /\ frame s s' /\ ordered (length (s_heap s')) (tm s').
Proof.
  induction fuel as [|fuel IH]; intros s j Hs Hj Hf Hh Hk; [lia|]. cbn [up].
  pose proof (Nat.div_mod_eq (j - 1) 2) as Hdiv. pose proof (Nat.mod_upper_bound (j - 1) 2 ltac:(done)) as Hmod. set (i := ((j - 1) / 2)%nat) in *.
  destruct (Nat.eqb_spec i j) as [E|E].
  - exists s. split_and!; [done..|]. apply (hole_closed j); [done..|]. intros a Ha. unfold kid in *. lia.
  - assert (kid i j) as Hij by (unfold kid; lia). rewrite Less_spec by (done || lia). cbn [mbind option_bind]. destruct (tm s j <? tm s i) eqn:El; cbn [negb]; bool_cases.
    + destruct (Swap_spec s i j Hs ltac:(lia) Hj) as (s' & -> & Hp' & Hf' & _ & Ht). cbn [mbind option_bind]. pose proof (fr_length _ _ Hf') as Hlen.
      destruct (hole_up i j _ _ _ Hij Hj Hh Hk El Ht) as [H1 H2].
      destruct (IH s' i Hp') as (s2 & E2 & A & B & C); [lia|lia|by rewrite Hlen..|]. exists s2. split_and!; [done..|by etransitivity|done].
    + exists s. split_and!; [done..|]. apply (hole_closed j); [done..|]. intros a Ha. assert (a = i) as -> by (unfold kid in *; lia). lia.
Qed.

Lemma smaller_child_spec (s : scheduler) (i n : nat) : placed s -> (n <= length (s_heap s))%nat -> (2 * i + 1 < n)%nat ->
  exists j, smaller_child s (2 * i + 1) n = Some j /\ kid i j /\ (j < n)%nat /\ forall c, kid i c -> (c < n)%nat -> tm s j <= tm s c.
Proof.
  intros Hs Hn Hi. unfold smaller_child. destruct (Nat.ltb_spec (2 * i + 1 + 1) n) as [Hl|Hl].
  - rewrite Less_spec by (done || lia). cbn [mbind option_bind]. destruct (_ <? _) eqn:E; bool_cases; eexists; (split_and!; [done|unfold kid; lia|lia|]);
      intros c [->| ->] Hc; replace (2 * i + 2)%nat with (2 * i + 1 + 1)%nat in * by lia; lia.
  - eexists. split_and!; [done|unfold kid; lia|lia|]. intros c [->| ->] Hc; lia.
Qed.

Lemma down_spec (fuel : nat) : forall (s : scheduler) (i n : nat), placed s -> (n <= length (s_heap s))%nat -> (i < length (s_heap s))%nat -> (i < n + fuel)%nat -> (n - i <= fuel)%nat -> (0 < fuel)%nat ->
  hole i n (tm s) ->
  exists s' i', down fuel s i n = Some (s', i') /\ placed s' /\ frame s s' /\ (forall k, (n <= k)%nat -> s_heap s' !! k = s_heap s !! k \/ i = k) /\
    ((i' = i /\ s' = s /\ kids_above i n (tm s)) \/ ((i < i')%nat /\ ordered n (tm s'))).
Proof.
  induction fuel as [|fuel IH]; intros s i n Hs Hn Hi Hf1 Hf2 Hf3 Hh; [lia|]. cbn [down].
  destruct (Nat.leb_spec n (2 * i + 1)) as [Hl|Hl].
  - exists s, i. split_and!; [done..|by left|]. left. split_and!; [done..|]. intros c Hc. unfold kid in Hc. lia.
  - destruct (smaller_child_spec s i n Hs Hn Hl) as (j & -> & Hij & Hj & Hmin). cbn [mbind option_bind]. rewrite Less_spec by (done || lia). cbn [mbind option_bind].
    destruct (tm s j <? tm s i) eqn:El; cbn [negb]; bool_cases.
    + assert (i < j)%nat by (unfold kid in *; lia).
      destruct (Swap_spec s i j Hs Hi ltac:(lia)) as (s1 & -> & Hp1 & Hf' & Hh1 & Ht). cbn [mbind option_bind]. pose proof (fr_length _ _ Hf') as Hlen.
      destruct (hole_down i j n _ _ Hij Hj Hh Hmin El Ht) as [H1 H2].
      destruct (IH s1 j n Hp1) as (s2 & i2 & E2 & A & B & C & D); [lia..|done|]. exists s2, i2. split_and!; [done..|by etransitivity| |].
      * intros k Hk. destruct (decide (i = k)); [by right|left]. destruct (C k Hk) as [->|]; [|lia]. rewrite Hh1. by rewrite swp_ne by lia.
      * right. destruct D as [(-> & -> & D)|[D1 D2]]; [|split; [lia|done]]. split; [done|]. by apply (hole_closed j).
    + exists s, i. split_and!; [done..|by left|]. left. split_and!; [done..|]. intros c Hc Hcn. pose proof (Hmin c Hc Hcn). lia.
Qed.

Lemma ordered_min (n : nat) (t : nat -> Z) : ordered n t -> forall i, (i < n)%nat -> t 0%nat <= t i.
Proof.
  intros Ho i. induction i as [i IH] using lt_wf_ind. intros Hi. destruct (decide (i = 0%nat)) as [->|]; [done|].
  pose proof (Nat.div_mod_eq (i - 1) 2) as Hdiv. pose proof (Nat.mod_upper_bound (i - 1) 2 ltac:(done)) as Hmod. set (p := ((i - 1) / 2)%nat) in *.
  transitivity (t p); [apply IH; lia|]. apply Ho; [unfold kid; lia|done].
Qed.

(** ** The scheduler *)

(** Keys and their times. *)
Definition view (s : scheduler) : gmap Key Z := omap (fun p => snd <$> data s p) (s_index s).

Record wf (s : scheduler) : Prop := MkWf {
  wf_placed : placed s;
  wf_indexed p k t : p ∈ s_heap s -> data s p = Some (k, t) -> s_index s !! k = Some p;
  wf_index k p : s_index s !! k = Some p -> p ∈ s_heap s /\ exists t, data s p = Some (k, t);
  wf_next p : is_Some (s_ents s !! p) -> (p < s_next s)%nat;
  wf_ordered : ordered (length (s_heap s)) (tm s);
}.

Lemma data_ents (s : scheduler) (p : nat) (kt : Key * Z) : data s p = Some kt -> exists e, s_ents s !! p = Some e /\ e_key e = kt.1 /\ e_refreshAt e = kt.2.
Proof. unfold data. destruct (s_ents s !! p) as [e|]; [|done]. intros [= <-]. by exists e. Qed.

Lemma data_some (s s' : scheduler) (p : nat) : data s' p = data s p -> is_Some (s_ents s' !! p) -> is_Some (s_ents s !! p).
Proof. unfold data. intros H [e He]. rewrite He in H. destruct (s_ents s !! p); [by eexists|done]. Qed.

Lemma placed_data (s : scheduler) (p : nat) : placed s -> p ∈ s_heap s -> exists kt, data s p = Some kt.
Proof. intros Hs [i Hi]%list_elem_of_lookup. destruct (Hs i p Hi) as (e & He & _). unfold data. rewrite He. by eexists. Qed.

Lemma view_lookup (s : scheduler) (k : Key) (t : Z) : wf s -> view s !! k = Some t <-> exists p, p ∈ s_heap s /\ data s p = Some (k, t).
Proof.
  intros Hs. unfold view. rewrite lookup_omap_Some. split.
  - intros (p & Hd & Hp). destruct (wf_index s Hs k p Hp) as [Hin [t' Ht]]. rewrite Ht in Hd. cbn in Hd. injection Hd as ->. eauto.
  - intros (p & Hp & Hd). exists p. rewrite Hd. split; [done|]. by eapply wf_indexed.
Qed.

(** Moving entries leaves a well-formed state well-formed up to its order. *)
Lemma frame_view (s s' : scheduler) : frame s s' -> view s' = view s.
Proof. intros [_ _ Hi _ Hd]. unfold view. rewrite Hi. apply map_eq. intros k. rewrite !lookup_omap. destruct (s_index s !! k); [|done]. cbn. by rewrite Hd. Qed.

Lemma frame_wf (s s' : scheduler) :
  (forall p k t, p ∈ s_heap s -> data s p = Some (k, t) -> s_index s !! k = Some p) ->
  (forall k p, s_index s !! k = Some p -> p ∈ s_heap s /\ exists t, data s p = Some (k, t)) ->
  (forall p, is_Some (s_ents s !! p) -> (p < s_next s)%nat) ->
  placed s' -> frame s s' -> ordered (length (s_heap s')) (tm s') -> wf s'.
Proof.
  intros H1 H2 H3 Hp [_ Hh Hi Hn Hd] Ho. split; [done|..|done].
  - intros p k t Hin Hdp. rewrite Hh in Hin. rewrite Hd in Hdp. rewrite Hi. by eapply H1.
  - intros k p Hk. rewrite Hi in Hk. rewrite Hh, Hd. by apply H2.
  - intros p Hsm. rewrite Hn. apply H3. by apply (data_some s s' p (Hd p)).
Qed.

Lemma tm_ext (s s' : scheduler) (i : nat) : s_heap s' !! i = s_heap s !! i -> (forall p, s_heap s !! i = Some p -> data s' p = data s p) -> tm s' i = tm s i.
Proof.
  intros Hi Hd. destruct (s_heap s !! i) as [p|] eqn:E.
  - rewrite (tm_data s' i p), (tm_data s i p) by congruence. by rewrite Hd.
  - unfold tm, entry_at. by rewrite Hi, E.
Qed.

Lemma heap_Fix_spec (s : scheduler) (i : nat) : placed s -> (i < length (s_heap s))%nat -> hole i (length (s_heap s)) (tm s) ->
  exists s', heap_Fix s i = Some s' /\ placed s' /\ frame s s' /\ ordered (length (s_heap s')) (tm s').
Proof.
  intros Hs Hi Hh. unfold heap_Fix. destruct (down_spec (length (s_heap s)) s i (length (s_heap s)) Hs) as (s1 & i1 & E & A & B & _ & D); [lia..|done|].
  rewrite E. cbn [mbind option_bind]. destruct D as [(-> & -> & D)|[D1 D2]].
  - rewrite Nat.ltb_irrefl. by apply up_spec.
  - rewrite (proj2 (Nat.ltb_lt i i1) D1). exists s1. split_and!; [done..|]. by rewrite (fr_length _ _ B).
Qed.

(** [heap.Push] of an entry outside the heap, and its registration. *)
Lemma push_spec (s : scheduler) (p : nat) (k : Key) (t : Z) : wf s -> p ∉ s_heap s -> data s p = Some (k, t) -> s_index s !! k = None ->
  exists s1, heap_Push s p = Some s1 /\ let s' := {| s1 with s_index := <[k := p]> (s_index s1) |} in
    wf s' /\ view s' = <[k := t]> (view s) /\ (forall x, data s' x = data s x) /\ (forall x, x ∈ s_heap s' <-> x ∈ s_heap s \/ x = p).
Proof.
  intros Hs Hp Hd Hk. destruct (data_ents s p _ Hd) as (e & He & Ek & Et). cbn in Ek, Et.
  set (s0 := {| s with s_ents := <[p := {| e with e_index := length (s_heap s) |}]> (s_ents s) |}). set (s2 := {| s0 with s_heap := s_heap s ++ [p] |}).
  assert (heap_Push s p = up (length (s_heap s2)) s2 (length (s_heap s2) - 1)) as -> by (unfold heap_Push, Push, set_index; by rewrite He).
  assert (forall x, data s2 x = data s x) as Hd2.
  { intros x. unfold data. cbn. destruct (decide (p = x)) as [<-|]; [by rewrite lookup_insert_eq, He|by rewrite lookup_insert_ne]. }
  assert (forall i, (i < length (s_heap s))%nat -> tm s2 i = tm s i) as Ht2 by (intros i Hi; apply tm_ext; [cbn; by rewrite lookup_app_l|done]).
  assert (length (s_heap s2) = S (length (s_heap s))) as Hl2 by (cbn; rewrite length_app; cbn; lia).
  assert (placed s2) as Hp2.
  { intros i x. cbn. rewrite lookup_app_Some. intros [Hx|[Hl Hx]].
    - destruct (wf_placed s Hs i x Hx) as (ex & Hex & Hix). exists ex. rewrite lookup_insert_ne; [done|]. intros <-. apply Hp. by eapply list_elem_of_lookup_2.
    - assert (i = length (s_heap s)) as -> by (apply lookup_lt_Some in Hx; cbn in Hx; lia). rewrite Nat.sub_diag in Hx. injection Hx as <-. rewrite lookup_insert_eq. by eexists. }
  rewrite Hl2. destruct (up_spec (S (length (s_heap s))) s2 (length (s_heap s)) Hp2) as (s1 & E & A & B & C).
  - lia.
  - lia.
  - split; [|intros a c _ Hc; rewrite Hl2; unfold kid in Hc; lia]. intros a c Hac Hc Hx ?. rewrite Hl2 in Hc. rewrite !Ht2 by (unfold kid in *; lia). apply (wf_ordered s Hs); [done|lia].
  - intros c Hc. rewrite Hl2. unfold kid in Hc. lia.
  - replace (S (length (s_heap s)) - 1)%nat with (length (s_heap s)) by lia. rewrite E. exists s1. split; [done|]. cbn zeta. destruct B as [B1 B2 B3 B4 B5].
    assert (forall x, x ∈ s_heap s1 <-> x ∈ s_heap s \/ x = p) as Hin by (intros x; rewrite B2; cbn; rewrite elem_of_app, list_elem_of_singleton; done).
    assert (forall x, data s1 x = data s x) as Hd1 by (intros x; by rewrite B5, Hd2). cbn in B3.
    split_and!; [split|..].
    + exact A.
    + intros x k' t' Hx Hdx. cbn in Hx |- *. change (data s1 x = Some (k', t')) in Hdx. rewrite Hd1 in Hdx. rewrite B3. apply Hin in Hx as [Hx| ->].
      * pose proof (wf_indexed s Hs x k' t' Hx Hdx) as Hi. rewrite lookup_insert_ne by congruence. done.
      * rewrite Hd in Hdx. injection Hdx as <- <-. by rewrite lookup_insert_eq.
    + intros k' x. cbn. rewrite B3. intros Hx. change (x ∈ s_heap s1 /\ exists t0, data s1 x = Some (k', t0)). rewrite Hin, Hd1.
      apply lookup_insert_Some in Hx as [[<- <-]|[Hne Hx]]; [eauto|]. destruct (wf_index s Hs k' x Hx) as [Hx1 Hx2]. auto.
    + intros x. cbn. intros Hx. rewrite B4. cbn. apply (wf_next s Hs). by apply (data_some s s1 x (Hd1 x)).
    + exact C.
    + apply map_eq. intros k'. unfold view. rewrite lookup_omap. cbn [s_index]. rewrite B3. destruct (decide (k = k')) as [<-|].
      * rewrite !lookup_insert_eq. cbn [mbind option_bind]. change ((snd <$> data s1 p) = Some t). by rewrite Hd1, Hd.
      * rewrite !lookup_insert_ne, lookup_omap by done. destruct (s_index s !! k') as [x|]; [|done]. cbn [mbind option_bind].
        change ((snd <$> data s1 x) = (snd <$> data s x)). by rewrite Hd1.
    + exact Hd1.
    + exact Hin.
Qed.

Lemma placed_inj (s : scheduler) (i j p : nat) : placed s -> s_heap s !! i = Some p -> s_heap s !! j = Some p -> i = j.
Proof. intros Hs Hi Hj. destruct (Hs i p Hi) as (e & He & <-). destruct (Hs j p Hj) as (e' & He' & <-). congruence. Qed.

Lemma heap_Pop_spec (s : scheduler) (top : nat) (rest : list nat) : placed s -> s_heap s = top :: rest -> ordered (length (s_heap s)) (tm s) ->
  exists s', heap_Pop s = Some (s', top) /\ placed s' /\ ordered (length (s_heap s')) (tm s') /\
    s_index s' = s_index s /\ s_next s' = s_next s /\ (forall x, data s' x = data s x) /\ forall x, x ∈ s_heap s' <-> x ∈ s_heap s /\ x <> top.
Proof.
  intros Hs Eh Ho. unfold heap_Pop. set (n := (length (s_heap s) - 1)%nat). assert (length (s_heap s) = S n) as Hlen by (subst n; rewrite Eh; cbn; lia).
  destruct (Swap_spec s 0 n Hs ltac:(lia) ltac:(lia)) as (s1 & -> & P1 & F1 & H1 & T1). cbn [mbind option_bind]. pose proof (fr_length _ _ F1) as L1.
  assert (hole 0 n (tm s1)) as Hh by (split; [|intros a c Ha; unfold kid in Ha; lia]; intros a c Hac Hc ? ?; rewrite !T1, !swp_ne by (unfold kid in *; lia); apply Ho; [done|lia]).
  assert (exists s2 i2, down (length (s_heap s1)) s1 0 n = Some (s2, i2) /\ placed s2 /\ frame s1 s2 /\ s_heap s2 !! n = Some top /\ ordered n (tm s2)) as (s2 & i2 & -> & P2 & F2 & Hn2 & O2).
  { assert (s_heap s1 !! n = Some top) as Hn1 by (rewrite H1, swp_r; by rewrite Eh).
    destruct (down_spec (length (s_heap s1)) s1 0 n P1) as (s2 & i2 & E & A & B & C & D); [lia..|done|]. exists s2, i2. split_and!; [done..| |].
    - destruct (C n ltac:(lia)) as [->| <-]; [done|]. rewrite L1, Hlen in E. cbn in E. by injection E as <- _.
    - destruct D as [(_ & -> & D)|[_ D]]; [|done]. apply (hole_closed 0); [done..|]. intros a Ha. unfold kid in Ha. lia. }
  cbn [mbind option_bind]. pose proof (fr_length _ _ F2) as L2. assert (length (s_heap s2) = S n) as Hl2 by lia. unfold Pop. rewrite last_lookup, Hl2. cbn [pred].
  rewrite Hn2. cbn [mbind option_bind]. replace (S n - 1)%nat with n by lia. eexists. split; [reflexivity|]. cbn [s_heap s_index s_next].
  assert (forall i x, take n (s_heap s2) !! i = Some x -> s_heap s2 !! i = Some x /\ (i < n)%nat) as Htake by (intros i x Hx; by apply lookup_take_Some in Hx as [? ?]).
  split_and!.
  - intros i x Hx. cbn in Hx. apply Htake in Hx as [Hx _]. by apply P2.
  - rewrite length_take, Hl2. replace (n `min` S n)%nat with n by lia. intros a c Hac Hc.
    rewrite (tm_ext s2 _ a), (tm_ext s2 _ c); [by apply O2|cbn; by rewrite lookup_take_lt by (unfold kid in *; lia)|done|cbn; by rewrite lookup_take_lt by (unfold kid in *; lia)|done].
  - by rewrite (fr_index _ _ F2), (fr_index _ _ F1).
  - by rewrite (fr_next _ _ F2), (fr_next _ _ F1).
  - intros x. change (data s2 x = data s x). by rewrite (fr_data _ _ F2), (fr_data _ _ F1).
  - intros x. rewrite <- (fr_heap _ _ F1), <- (fr_heap _ _ F2). split.
    + intros [i Hi]%list_elem_of_lookup. apply Htake in Hi as [Hi Hlt]. split; [by eapply list_elem_of_lookup_2|]. intros ->. pose proof (placed_inj s2 i n top P2 Hi Hn2). lia.
    + intros [[i Hi]%list_elem_of_lookup Hne]. apply list_elem_of_lookup. exists i. rewrite lookup_take_lt; [done|]. pose proof (lookup_lt_Some _ _ _ Hi).
      assert (i <> n) by congruence. lia.
Qed.

(** Popping removes a key of smallest time. *)
Lemma pop_spec (s : scheduler) (top : nat) (rest : list nat) : wf s -> s_heap s = top :: rest ->
  exists s' k t, pop_locked s = Some (s', top) /\ wf s' /\ data s top = Some (k, t) /\ view s !! k = Some t /\ view s' = delete k (view s) /\
    (forall k' t', view s !! k' = Some t' -> t <= t') /\ (forall x, data s' x = data s x) /\ s_next s' = s_next s /\
    (forall x, x ∈ s_heap s' <-> x ∈ s_heap s /\ x <> top).
Proof.
  intros Hs Eh. destruct (heap_Pop_spec s top rest (wf_placed s Hs) Eh (wf_ordered s Hs)) as (s1 & E & P1 & O1 & I1 & N1 & D1 & H1).
  assert (top ∈ s_heap s) as Hin by (rewrite Eh; by left). destruct (placed_data s top (wf_placed s Hs) Hin) as [[k t] Hd].
  unfold pop_locked. rewrite E. cbn [mbind option_bind]. pose proof Hd as Hd'. rewrite <- D1 in Hd'. destruct (data_ents s1 top _ Hd') as (e & He & Ek & _). cbn in Ek.
  rewrite He. cbn [mbind option_bind]. rewrite Ek. exists {| s1 with s_index := delete k (s_index s1) |}, k, t. split; [done|]. cbn [s_heap s_next s_index].
  assert (view s !! k = Some t) as Hv by (apply view_lookup; [done|by exists top]).
  split_and!; [split|done|done|..].
  - exact P1.
  - intros x k' t' Hx Hdx. change (x ∈ s_heap s1) in Hx. change (data s1 x = Some (k', t')) in Hdx. rewrite D1 in Hdx. apply H1 in Hx as [Hx Hne].
    cbn [s_index]. rewrite I1. pose proof (wf_indexed s Hs x k' t' Hx Hdx) as Hi. rewrite lookup_delete_ne; [done|]. intros <-. pose proof (wf_indexed s Hs top k t Hin Hd). congruence.
  - intros k' x. cbn [s_index]. rewrite I1. intros [Hne Hx]%lookup_delete_Some. change (x ∈ s_heap s1 /\ exists t0, data s1 x = Some (k', t0)). rewrite H1, D1.
    destruct (wf_index s Hs k' x Hx) as [Hx1 [t0 Hx2]]. split_and!; [done| |by exists t0]. intros ->. congruence.
  - intros x Hx. cbn. rewrite N1. apply (wf_next s Hs). by apply (data_some s s1 x (D1 x)).
  - exact O1.
  - apply map_eq. intros k'. unfold view. rewrite lookup_omap. cbn [s_index]. rewrite I1. destruct (decide (k = k')) as [<-|]; [by rewrite !lookup_delete_eq|].
    rewrite !lookup_delete_ne, lookup_omap by done. destruct (s_index s !! k') as [x|]; [|done]. cbn [mbind option_bind]. change ((snd <$> data s1 x) = (snd <$> data s x)). by rewrite D1.
  - intros k' t' Hv'. apply (view_lookup s k' t' Hs) in Hv' as (x & Hx & Hdx). apply list_elem_of_lookup in Hx as [i Hi].
    assert (t = tm s 0) as -> by (rewrite (tm_data s 0 top), Hd; [done|by rewrite Eh]). assert (t' = tm s i) as -> by (by rewrite (tm_data s i x), Hdx).
    apply (ordered_min _ _ (wf_ordered s Hs)). by eapply lookup_lt_Some.
  - exact D1.
  - exact N1.
  - exact H1.
Qed.

(** A key that is scheduled already moves to its new time. *)
Lemma reschedule_spec (s : scheduler) (key : Key) (at_ : Time) (p : nat) : wf s -> s_index s !! key = Some p ->
  exists s', schedule_locked s key at_ = Some s' /\ wf s' /\ view s' = <[key := unix_nano at_]> (view s) /\
    (forall x, x ∉ s_heap s -> is_Some (s_ents s !! x) -> data s' x = data s x /\ x ∉ s_heap s').
Proof.
  intros Hs Ei. unfold schedule_locked. rewrite Ei. destruct (wf_index s Hs key p Ei) as [Hin [t Hd]]. destruct (data_ents s p _ Hd) as (e & He & Ek & Et). cbn in Ek, Et. rewrite He. cbn [mbind option_bind].
  apply list_elem_of_lookup in Hin as [i Hi]. destruct (wf_placed s Hs i p Hi) as (e' & He' & Hix). rewrite He in He'. injection He' as <-. rewrite Hix.
  set (s0 := {| s with s_ents := _ |}).
  assert (forall x, data s0 x = if decide (p = x) then Some (key, unix_nano at_) else data s x) as Hd0.
  { intros x. unfold data. cbn. destruct (decide (p = x)) as [<-|]; [rewrite lookup_insert_eq; cbn; by rewrite Ek|by rewrite lookup_insert_ne]. }
  assert (placed s0) as P0.
  { intros j x Hj. cbn in Hj |- *. destruct (decide (p = x)) as [<-|]; [|rewrite lookup_insert_ne by done; by apply (wf_placed s Hs)].
    rewrite lookup_insert_eq. eexists. split; [done|]. cbn. by apply (placed_inj s i j p (wf_placed s Hs)). }
  assert (forall k, k <> i -> tm s0 k = tm s k) as T0.
  { intros k Hk. apply tm_ext; [done|]. intros x Hx. rewrite Hd0. destruct (decide (p = x)) as [<-|]; [|done]. by pose proof (placed_inj s k i p (wf_placed s Hs) Hx Hi). }
  destruct (heap_Fix_spec s0 i P0) as (s1 & -> & P1 & F1 & O1); [by apply lookup_lt_Some in Hi|apply (ordered_hole i _ (tm s)); [apply Hs|done|by apply lookup_lt_Some in Hi]|].
  exists s1. split; [done|]. split_and!.
  - apply (frame_wf s0); [..|done|done|done].
    + intros x k t' Hx. rewrite Hd0. destruct (decide (p = x)) as [<-|]; [by intros [= <- <-]|]. by apply (wf_indexed s Hs).
    + intros k x Hx. destruct (wf_index s Hs k x Hx) as [A [t' B]]. split; [done|]. rewrite Hd0. destruct (decide (p = x)) as [<-|]; [|by exists t'].
      exists (unix_nano at_). rewrite Hd in B. congruence.
    + intros x Hx. apply (wf_next s Hs). cbn in Hx. destruct (decide (p = x)) as [<-|]; [by rewrite He|by rewrite lookup_insert_ne in Hx].
  - rewrite (frame_view _ _ F1). apply map_eq. intros k. unfold view. rewrite lookup_omap. change (s_index s0) with (s_index s). destruct (decide (key = k)) as [<-|].
    + rewrite Ei, lookup_insert_eq. cbn [mbind option_bind]. rewrite Hd0. by destruct (decide (p = p)).
    + rewrite lookup_insert_ne, lookup_omap by done. destruct (s_index s !! k) as [x|] eqn:Ex; [|done]. cbn [mbind option_bind]. rewrite Hd0.
      destruct (decide (p = x)) as [<-|]; [|done]. destruct (wf_index s Hs k p Ex) as [_ [t' B]]. congruence.
  - intros x Hx _. rewrite (fr_data _ _ F1), Hd0, (fr_heap _ _ F1). destruct (decide (p = x)) as [<-|]; [|done]. exfalso. apply Hx. by eapply list_elem_of_lookup_2.
Qed.

Lemma new_key_spec (s : scheduler) (key : Key) (at_ : Time) : wf s -> s_index s !! key = None ->
  exists s', schedule_locked s key at_ = Some s' /\ wf s' /\ view s' = <[key := unix_nano at_]> (view s) /\
    (forall x, x ∉ s_heap s -> is_Some (s_ents s !! x) -> data s' x = data s x /\ x ∉ s_heap s').
Proof.
  intros Hs Ei. unfold schedule_locked. rewrite Ei. set (p := s_next s). set (s0 := {| s with s_ents := _; s_next := _ |}). assert (s_ents s !! p = None) as Hfree.
  { destruct (s_ents s !! p) eqn:E; [|done]. assert (p < s_next s)%nat by (apply (wf_next s Hs); by rewrite E). lia. }
  assert (forall x, x <> p -> data s0 x = data s x) as Hd0 by (intros x Hx; unfold data; cbn; by rewrite lookup_insert_ne).
  assert (data s0 p = Some (key, unix_nano at_)) as Hdp by (unfold data; cbn; by rewrite lookup_insert_eq).
  assert (p ∉ s_heap s) as Hnp by (intros Hin; destruct (placed_data s p (wf_placed s Hs) Hin) as [kt Hkt]; unfold data in Hkt; by rewrite Hfree in Hkt).
  assert (wf s0) as W0.
  { destruct Hs as [A1 A2 A3 A4 A5]. split.
    - intros i x Hx. destruct (A1 i x Hx) as (e & He & Hix). exists e. cbn. rewrite lookup_insert_ne; [done|]. intros <-. congruence.
    - intros x k t Hx. rewrite Hd0; [by apply A2|]. intros ->. by apply Hnp.
    - intros k x Hx. destruct (A3 k x Hx) as [B1 B2]. split; [done|]. rewrite Hd0; [done|]. intros ->. by apply Hnp.
    - intros x Hx. cbn in *. destruct (decide (p = x)) as [<-|]; [lia|]. rewrite lookup_insert_ne in Hx by done. specialize (A4 x Hx). lia.
    - intros i c Hk Hc. cbn in Hc. rewrite !(tm_ext s s0); [by apply A5|done| |done|]; intros x Hx; apply Hd0; intros ->; apply Hnp; by eapply list_elem_of_lookup_2. }
  destruct (push_spec s0 p key (unix_nano at_) W0 Hnp Hdp Ei) as (s1 & E & H). cbn zeta in H. destruct H as (W1 & V1 & D1 & H1). rewrite E. cbn [mbind option_bind].
  eexists. split; [reflexivity|]. split_and!; [exact W1| |].
  - rewrite V1. f_equal. apply map_eq. intros k. unfold view. rewrite !lookup_omap. change (s_index s0) with (s_index s). destruct (s_index s !! k) as [x|] eqn:Ex; [|done].
    cbn [mbind option_bind]. rewrite Hd0; [done|]. intros ->. destruct (wf_index s Hs k p Ex) as [B _]. by apply Hnp.
  - intros x Hx Hsx. assert (x <> p) as Hxp by (intros ->; destruct Hsx; congruence). rewrite D1, Hd0, H1 by done. split; [done|]. by intros [?|?].
Qed.

(** [Schedule] inserts the key, or moves it to the new time. *)
Lemma schedule_spec (s : scheduler) (key : Key) (at_ : Time) : wf s ->
  exists s', schedule_locked s key at_ = Some s' /\ wf s' /\ view s' = <[key := unix_nano at_]> (view s) /\
    (forall x, x ∉ s_heap s -> is_Some (s_ents s !! x) -> data s' x = data s x /\ x ∉ s_heap s').
Proof. intros Hs. destruct (s_index s !! key) as [p|] eqn:Ei; [by apply (reschedule_spec s key at_ p)|by apply new_key_spec]. Qed.

(** ** The drainer *)

(** Where [run] is: at the head of its loop; in the select on an empty heap;
    in the select with a timer for [deadline]; about to lock again after it saw
    [deadline] on top; after a callback; about to compact; in phase 2 of
    [compact]; about to insert the live entries; returned. *)
Inductive pc : Type :=
| Head
| WaitEmpty
| Wait (deadline : Z)
| Locking (deadline : Z)
| AfterPop
| Compact
| Checking (todo live : list nat)
| Reinsert (live : list nat)
| Exited.

(** [sy_wakers] counts [Schedule] and [Stop] calls between their unlock and the
    send of [wake]; [sy_ready] is the buffered channel, [sy_tick] a pending tick. *)
Record system : Type := MkSys {
  sy_s : scheduler; sy_now : Time; sy_ready : bool; sy_wakers : nat;
  sy_done : bool; sy_stopped : bool; sy_tick : bool; sy_pc : pc;
}.

Inductive sched_event : Type :=
| Quiet
| Scheduled (key : Key) (at_ : Time)
| Fired (key : Key)
| Dead (key : Key).

Definition Start (now : Time) : system := MkSys NewRefreshScheduler now false 0 false false false Head.

(** [Schedule]; [stopped] is what its two checks read, which may be older than
    the insertion. *)
Definition Schedule (stopped : bool) (key : Key) (at_ : Time) (y : system) : option system :=
  if stopped then Some y
  else s ← schedule_locked (sy_s y) key at_; Some {| y with sy_s := s; sy_wakers := S (sy_wakers y) |}.

Definition Stop (y : system) : system := {| y with sy_stopped := true; sy_done := true; sy_wakers := S (sy_wakers y) |}.
Definition wake (y : system) : system := {| y with sy_ready := true; sy_wakers := pred (sy_wakers y) |}.

(** One step of [run] and [compact]. *)
Inductive drain : system -> sched_event -> system -> Prop :=
| D_empty y : sy_pc y = Head -> s_heap (sy_s y) = [] -> drain y Quiet {| y with sy_pc := WaitEmpty |}
| D_look y p ps e : sy_pc y = Head -> s_heap (sy_s y) = p :: ps -> s_ents (sy_s y) !! p = Some e ->
    drain y Quiet {| y with sy_pc := if 0 <? t_sub (e_refreshAt e) (sy_now y) then Wait (e_refreshAt e) else Locking (e_refreshAt e) |}
| D_ready y : sy_pc y = WaitEmpty \/ (exists d, sy_pc y = Wait d) -> sy_ready y = true -> drain y Quiet {| y with sy_pc := Head; sy_ready := false |}
| D_done y : sy_pc y = WaitEmpty \/ (exists d, sy_pc y = Wait d) -> sy_done y = true -> drain y Quiet {| y with sy_pc := Exited |}
| D_timer y d : sy_pc y = Wait d -> d <= sy_now y -> drain y Quiet {| y with sy_pc := Locking d |}
| D_gone y d : sy_pc y = Locking d -> s_heap (sy_s y) = [] -> drain y Quiet {| y with sy_pc := Head |}
| D_pop y d s p e : sy_pc y = Locking d -> s_heap (sy_s y) <> [] -> pop_locked (sy_s y) = Some (s, p) -> s_ents s !! p = Some e ->
    drain y (Fired (e_key e)) {| y with sy_s := s; sy_pc := AfterPop |}
| D_tick y : sy_pc y = AfterPop -> sy_tick y = true -> drain y Quiet {| y with sy_tick := false; sy_pc := Compact |}
| D_loop y : sy_pc y = AfterPop -> sy_tick y = false -> drain y Quiet {| y with sy_pc := Head |}
| D_collect y s ps : sy_pc y = Compact ->
    collect_locked (length (s_heap (sy_s y))) (sy_s y) (i64 (unix_nano (sy_now y) + compactionWindow)) = Some (s, ps) ->
    drain y Quiet {| y with sy_s := s; sy_pc := Checking ps [] |}
| D_alive y p ps live : sy_pc y = Checking (p :: ps) live -> drain y Quiet {| y with sy_pc := Checking ps (live ++ [p]) |}
| D_dead y p ps live e : sy_pc y = Checking (p :: ps) live -> s_ents (sy_s y) !! p = Some e ->
    drain y (Dead (e_key e)) {| y with sy_pc := Checking ps live |}
| D_checked y live : sy_pc y = Checking [] live -> drain y Quiet {| y with sy_pc := Reinsert live |}
| D_reinsert y live s : sy_pc y = Reinsert live -> reinsert_locked (sy_s y) live = Some s ->
    drain y Quiet {| y with sy_s := s; sy_pc := Head |}.

Inductive move : system -> sched_event -> system -> Prop :=
| M_drain y ev y' : drain y ev y' -> move y ev y'
| M_wake y : (0 < sy_wakers y)%nat -> move y Quiet (wake y).

Inductive sys_step : system -> sched_event -> system -> Prop :=
| Y_move y ev y' : move y ev y' -> sys_step y ev y'
| Y_schedule y stopped key at_ y' : (stopped = true -> sy_stopped y = true) -> Schedule stopped key at_ y = Some y' ->
    sys_step y (if stopped then Quiet else Scheduled key at_) y'
| Y_stop y : sys_step y Quiet (Stop y)
| Y_clock y now : sy_now y <= now -> sys_step y Quiet {| y with sy_now := now |}
| Y_ticker y : sys_step y Quiet {| y with sy_tick := true |}.

Inductive sched_reachable (now : Time) : system -> Prop :=
| R_start : sched_reachable now (Start now)
| R_step y ev y' : sched_reachable now y -> sys_step y ev y' -> sched_reachable now y'.

(** ** The specification *)

(** A map from keys to the time of their refresh. Firing takes a key whose time
    is smallest; a key may be dropped only after it was found dead. *)
Inductive spec_step (m : gmap Key Z) : sched_event -> gmap Key Z -> Prop :=
| Sp_quiet : spec_step m Quiet m
| Sp_schedule key at_ : spec_step m (Scheduled key at_) (<[key := unix_nano at_]> m)
| Sp_fire key t : m !! key = Some t -> (forall k' t', m !! k' = Some t' -> t <= t') -> spec_step m (Fired key) (delete key m)
| Sp_dead key : spec_step m (Dead key) (delete key m)
| Sp_dead_again key : spec_step m (Dead key) m.

(** The entries the compaction holds. *)
Definition hand (y : system) : list nat :=
  match sy_pc y with Checking todo live => todo ++ live | Reinsert live => live | _ => [] end.

Definition held (s : scheduler) (ps : list nat) : gmap Key Z := list_to_map (omap (data s) ps).

Definition pending (y : system) : gmap Key Z := view (sy_s y) ∪ held (sy_s y) (hand y).

(** *** Entries in the hand of the compaction *)

(** They have distinct keys and are outside the heap. *)
Record hand_ok (s : scheduler) (ps : list nat) : Prop := MkHand {
  hand_keys : NoDup (omap (data s) ps).*1;
  hand_out p : p ∈ ps -> p ∉ s_heap s /\ is_Some (s_ents s !! p);
}.

Lemma held_cons (s : scheduler) (p : nat) (ps : list nat) (k : Key) (t : Z) : data s p = Some (k, t) -> held s (p :: ps) = <[k := t]> (held s ps).
Proof. intros Hd. unfold held. cbn. by rewrite Hd. Qed.

Lemma held_None (s : scheduler) (ps : list nat) (k : Key) : k ∉ (omap (data s) ps).*1 -> held s ps !! k = None.
Proof. apply not_elem_of_list_to_map_1. Qed.

Lemma hand_cons (s : scheduler) (p : nat) (ps : list nat) : hand_ok s (p :: ps) ->
  exists k t, data s p = Some (k, t) /\ held s ps !! k = None /\ k ∉ (omap (data s) ps).*1 /\ hand_ok s ps.
Proof.
  intros [H1 H2]. destruct (H2 p ltac:(by left)) as [_ [e He]]. exists (e_key e), (e_refreshAt e).
  assert (data s p = Some (e_key e, e_refreshAt e)) as Hd by (unfold data; by rewrite He). cbn in H1. rewrite Hd in H1. cbn in H1. apply NoDup_cons in H1 as [H1 H3].
  split_and!; [done|by apply held_None|done|split; [done|]]. intros x Hx. apply H2. by right.
Qed.

Lemma data_eq_omap (s s' : scheduler) (ps : list nat) : (forall p, p ∈ ps -> data s' p = data s p) -> omap (data s') ps = omap (data s) ps.
Proof.
  induction ps as [|p ps IH]; intros H; [done|]. cbn. rewrite (H p) by (by left). rewrite IH; [done|]. intros x Hx. apply H. by right.
Qed.

Lemma hand_perm (s : scheduler) (ps qs : list nat) : ps ≡ₚ qs -> hand_ok s ps -> hand_ok s qs /\ held s qs = held s ps.
Proof.
  intros Hp [H1 H2]. assert ((omap (data s) ps) ≡ₚ (omap (data s) qs)) as Ho by (by rewrite Hp). split; [split|].
  - by rewrite <- Ho.
  - intros p Hq. apply H2. by rewrite Hp.
  - unfold held. symmetry. by apply list_to_map_proper.
Qed.

Lemma hand_frame (s s' : scheduler) (ps : list nat) : hand_ok s ps ->
  (forall x, x ∉ s_heap s -> is_Some (s_ents s !! x) -> data s' x = data s x /\ x ∉ s_heap s') -> hand_ok s' ps /\ held s' ps = held s ps.
Proof.
  intros [H1 H2] Hf. assert (omap (data s') ps = omap (data s) ps) as Ho by (apply data_eq_omap; intros p Hp; destruct (H2 p Hp); by apply Hf).
  split; [split|].
  - by rewrite Ho.
  - intros p Hp. destruct (H2 p Hp) as [A B]. destruct (Hf p A B) as [C D]. split; [done|]. by apply (data_some s' s p (eq_sym C)).
  - unfold held. by rewrite Ho.
Qed.

(** What phase 1 leaves of [s]: the entries up to the cutoff are in the hand. *)
Record collected (s : scheduler) (cutoff : Z) (s' : scheduler) (ps : list nat) : Prop := MkCollected {
  col_wf : wf s';
  col_hand : hand_ok s' ps;
  col_view : view s = view s' ∪ held s' ps;
  col_disjoint : view s' ##ₘ held s' ps;
  col_data x : data s' x = data s x;
  col_heap x : x ∈ s_heap s' -> x ∈ s_heap s;
  col_length : (length ps <= length (s_heap s))%nat;
  col_after k t : view s' !! k = Some t -> cutoff < t;
}.

Lemma collect_stop (s : scheduler) (cutoff : Z) : wf s -> (forall k t, view s !! k = Some t -> cutoff < t) -> collected s cutoff s [].
Proof.
  intros Hs Hc. split; try done; [split; [constructor|intros ? H; by apply not_elem_of_nil in H]|..|cbn; lia]; unfold held; cbn.
  - by rewrite map_union_empty.
  - apply map_disjoint_empty_r.
Qed.

Lemma view_empty (s : scheduler) (k : Key) (t : Z) : wf s -> s_heap s = [] -> view s !! k <> Some t.
Proof. intros Hs Eh Hv. apply (view_lookup s k t Hs) in Hv as (p & Hp & _). rewrite Eh in Hp. by apply not_elem_of_nil in Hp. Qed.

Lemma collect_spec (fuel : nat) : forall (s : scheduler) (cutoff : Z), wf s -> (length (s_heap s) <= fuel)%nat ->
  exists s' ps, collect_locked fuel s cutoff = Some (s', ps) /\ collected s cutoff s' ps.
Proof.
  induction fuel as [|fuel IH]; intros s cutoff Hs Hf; cbn [collect_locked].
  { exists s, []. split; [done|]. apply collect_stop; [done|]. intros k t Hv. exfalso. eapply view_empty; [done| |done]. destruct (s_heap s); [done|cbn in Hf; lia]. }
  destruct (s_heap s) as [|top rest] eqn:Eh.
  { exists s, []. split; [done|]. apply collect_stop; [done|]. intros k t Hv. exfalso. by eapply view_empty. }
  destruct (pop_spec s top rest Hs Eh) as (s1 & k & t & E & W1 & Hd & Hv & V1 & Hmin & D1 & N1 & H1). destruct (data_ents s top _ Hd) as (e & -> & _ & Et). cbn in Et. cbn [mbind option_bind].
  rewrite Et. destruct (cutoff <? t) eqn:Ec; bool_cases.
  { exists s, []. split; [done|]. apply collect_stop; [done|]. intros k' t' Hk'. specialize (Hmin k' t' Hk'). lia. }
  rewrite E. cbn [mbind option_bind].
  assert (length (s_heap s1) <= length rest)%nat as Hlen.
  { apply (submseteq_length (s_heap s1) rest), NoDup_submseteq; [apply NoDup_alt; intros i j x Hi Hj; by apply (placed_inj s1 i j x (wf_placed s1 W1))|].
    intros x Hx. apply H1 in Hx as [Hx Hne]. rewrite Eh in Hx. apply elem_of_cons in Hx as [->|]; done. }
  destruct (IH s1 cutoff W1 ltac:(cbn in Hf; lia)) as (s2 & ps & -> & [W2 K2 V2 J2 D2 H2 L2 C2]). cbn [mbind option_bind].
  assert (data s2 top = Some (k, t)) as Hd2 by (by rewrite D2, D1).
  assert (view s1 !! k = None) as Hk1 by (by rewrite V1, lookup_delete_eq). rewrite V2 in Hk1. apply lookup_union_None in Hk1 as [Hk1 Hk2].
  exists s2, (top :: ps). split; [done|]. split; rewrite ?(held_cons s2 top ps k t Hd2); try done.
  - split.
    + cbn. rewrite Hd2. cbn. apply NoDup_cons. split; [|apply K2]. by apply not_elem_of_list_to_map.
    + intros x [->|Hx]%elem_of_cons; [|by apply (hand_out s2 ps K2)]. split; [intros Hx; apply H2, H1 in Hx as [_ Hx]; done|]. destruct (data_ents s2 top _ Hd2) as (e' & -> & _). by eexists.
  - rewrite <- insert_union_r by done. rewrite <- V2, V1. by rewrite insert_delete_id.
  - by apply map_disjoint_insert_r_2.
  - intros x. by rewrite D2, D1.
  - intros x Hx. by apply H2, H1 in Hx as [Hx _].
  - rewrite Eh. cbn. lia.
Qed.

(** Phase 3 puts the live entries back, unless they were scheduled again. *)
Lemma reinsert_spec (live : list nat) : forall (s : scheduler), wf s -> hand_ok s live ->
  exists s', reinsert_locked s live = Some s' /\ wf s' /\ view s' = view s ∪ held s live.
Proof.
  induction live as [|p live IH]; intros s Hs Hh; cbn [reinsert_locked]; [exists s; split_and!; [done..|]; unfold held; cbn; by rewrite map_union_empty|].
  destruct (hand_out s _ Hh p ltac:(by left)) as [Hp _]. destruct (hand_cons s p live Hh) as (k & t & Hd & Hk & Hkn & Hh'). destruct (data_ents s p _ Hd) as (e & -> & Ek & _). cbn in Ek.
  cbn [mbind option_bind]. rewrite Ek. rewrite (held_cons s p live k t Hd). destruct (s_index s !! k) as [x|] eqn:Ei.
  - destruct (IH s Hs Hh') as (s' & E & W & V). exists s'. split_and!; [done..|]. rewrite V. destruct (wf_index s Hs k x Ei) as [Hx [t' Ht']].
    assert (view s !! k = Some t') as Hv by (apply view_lookup; [done|by exists x]). apply map_eq. intros k'. rewrite !lookup_union. destruct (decide (k = k')) as [<-|]; [by rewrite Hv, lookup_insert_eq, Hk|by rewrite lookup_insert_ne].
  - destruct (push_spec s p k t Hs Hp Hd Ei) as (s1 & -> & W1). cbn zeta in W1. destruct W1 as (W1 & V1 & D1 & H1). cbn [mbind option_bind]. set (s2 := {| s1 with s_index := _ |}) in *.
    destruct (IH s2 W1) as (s' & E & W & V).
    { split; [rewrite (data_eq_omap s); [apply Hh'|done]|]. intros x Hx. destruct (hand_out s live Hh' x Hx) as [A B]. split; [|by apply (data_some s2 s x (eq_sym (D1 x)))].
      rewrite H1. intros [?| ->]; [done|]. apply Hkn. apply list_elem_of_fmap. exists (k, t). split; [done|]. apply list_elem_of_omap. by exists p. }
    exists s'. split_and!; [done..|]. rewrite V, V1. unfold held. rewrite (data_eq_omap s s2) by done. fold (held s live).
    apply map_eq. intros k'. rewrite !lookup_union. destruct (decide (k = k')) as [<-|]; [|by rewrite !lookup_insert_ne].
    rewrite !lookup_insert_eq, Hk. unfold view. rewrite lookup_omap, Ei. done.
Qed.

(** ** The invariant *)

(** No signal is on its way to the drainer. *)
Definition unsignalled (y : system) : Prop := sy_ready y = false /\ sy_wakers y = 0%nat.

(** [d] is the smallest time of the heap. *)
Definition top_is (s : scheduler) (d : Z) : Prop := (exists k, view s !! k = Some d) /\ forall k t, view s !! k = Some t -> d <= t.

(** What the drainer knows where it waits; it returns only after [Stop]. *)
Definition aware (y : system) : Prop :=
  match sy_pc y with
  | WaitEmpty => unsignalled y -> s_heap (sy_s y) = []
  | Wait d => unsignalled y -> top_is (sy_s y) d
  | Locking d => d <= sy_now y /\ (unsignalled y -> top_is (sy_s y) d)
  | Exited => sy_done y = true
  | _ => True
  end.

Record sys_inv (y : system) : Prop := MkInv {
  inv_wf : wf (sy_s y);
  inv_hand : hand_ok (sy_s y) (hand y);
  inv_aware : aware y;
}.

Lemma top_spec (s : scheduler) (p : nat) (ps : list nat) (e : heapEntry) : wf s -> s_heap s = p :: ps -> s_ents s !! p = Some e -> top_is s (e_refreshAt e).
Proof.
  intros Hs Eh He. destruct (pop_spec s p ps Hs Eh) as (_ & k & t & _ & _ & Hd & Hv & _ & Hmin & _). unfold data in Hd. rewrite He in Hd. injection Hd as _ <-. split; [by exists k|done].
Qed.

Lemma hand_nil (s : scheduler) : hand_ok s [].
Proof. split; [constructor|]. intros p H. by apply not_elem_of_nil in H. Qed.

Lemma due_now (at_ now : Time) : 0 <? t_sub at_ now = (now <? at_).
Proof. unfold t_sub, max_i64, min_i64. destruct (now <? at_) eqn:E; bool_cases; [apply Z.ltb_lt|apply Z.ltb_ge]; lia. Qed.

Lemma pending_plain (y : system) : hand y = [] -> pending y = view (sy_s y).
Proof. intros E. unfold pending. rewrite E. unfold held. cbn. apply map_union_empty. Qed.

Lemma hand_of (y : system) (p : pc) : sy_pc y = p -> hand y = match p with Checking todo live => todo ++ live | Reinsert live => live | _ => [] end.
Proof. unfold hand. by intros ->. Qed.

(** A step of the drainer keeps the invariant and is a step of the
    specification. *)
Lemma drain_sound (y y' : system) (ev : sched_event) : sys_inv y -> drain y ev y' -> sys_inv y' /\ spec_step (pending y) ev (pending y').
Proof.
  intros [Hw Hh Ha] Hd. destruct Hd as [y Hp Eh|y p ps e Hp Eh He|y Hp Hr|y Hp Hr|y d Hp Hn|y d Hp Eh|y d s p e Hp Eh E He|y Hp Ht|y Hp Ht|y s ps Hp E|y p ps live Hp|y p ps live e Hp He|y live Hp|y live s Hp E].
  - split; [split; [done|apply hand_nil|exact (fun _ => Eh)]|]. rewrite !pending_plain; [constructor|done|by rewrite (hand_of y _ Hp)].
  - pose proof (top_spec _ p ps e Hw Eh He) as Ht. rewrite (pending_plain y) by (by rewrite (hand_of y _ Hp)). destruct (0 <? _) eqn:Ed; rewrite due_now in Ed; bool_cases.
    + split; [split; [done|apply hand_nil|exact (fun _ => Ht)]|]. rewrite pending_plain by done. constructor.
    + split; [split; [done|apply hand_nil|exact (conj Ed (fun _ => Ht))]|]. rewrite pending_plain by done. constructor.
  - rewrite (pending_plain y) by (destruct Hp as [Hp|[d Hp]]; by rewrite (hand_of y _ Hp)). split; [split; [done|apply hand_nil|exact I]|]. rewrite pending_plain by done. constructor.
  - rewrite (pending_plain y) by (destruct Hp as [Hp|[d Hp]]; by rewrite (hand_of y _ Hp)). split; [split; [done|apply hand_nil|exact Hr]|]. rewrite pending_plain by done. constructor.
  - unfold aware in Ha. rewrite Hp in Ha. rewrite (pending_plain y) by (by rewrite (hand_of y _ Hp)). split; [split; [done|apply hand_nil|exact (conj Hn Ha)]|]. rewrite pending_plain by done. constructor.
  - rewrite (pending_plain y) by (by rewrite (hand_of y _ Hp)). split; [split; [done|apply hand_nil|exact I]|]. rewrite pending_plain by done. constructor.
  - destruct (s_heap (sy_s y)) as [|top rest] eqn:Eh'; [done|]. destruct (pop_spec _ top rest Hw Eh') as (s' & k & t & E' & W & Hdt & Hv & V & Hmin & D & _).
    rewrite E in E'. injection E' as <- <-. rewrite <- D in Hdt. destruct (data_ents s p _ Hdt) as (e' & He' & Ek & _). rewrite He in He'. injection He' as <-. cbn in Ek. rewrite Ek.
    rewrite (pending_plain y) by (by rewrite (hand_of y _ Hp)). split; [split; [done|apply hand_nil|exact I]|]. rewrite pending_plain by done. cbn [sy_s]. rewrite V. by econstructor.
  - rewrite (pending_plain y) by (by rewrite (hand_of y _ Hp)). split; [split; [done|apply hand_nil|exact I]|]. rewrite pending_plain by done. constructor.
  - rewrite (pending_plain y) by (by rewrite (hand_of y _ Hp)). split; [split; [done|apply hand_nil|exact I]|]. rewrite pending_plain by done. constructor.
  - destruct (collect_spec _ (sy_s y) (i64 (unix_nano (sy_now y) + compactionWindow)) Hw (Nat.le_refl _)) as (s' & ps' & E' & [W K V J D H L C]). rewrite E in E'. injection E' as <- <-.
    rewrite (pending_plain y) by (by rewrite (hand_of y _ Hp)). unfold pending. cbn [sy_s hand sy_pc]. rewrite app_nil_r. split; [split; [done|cbn; by rewrite app_nil_r|exact I]|]. rewrite <- V. constructor.
  - rewrite (hand_of y _ Hp) in Hh. destruct (hand_perm _ _ (ps ++ live ++ [p]) ltac:(rewrite app_assoc; apply Permutation_cons_append) Hh) as [K E]. split; [split; [done|done|exact I]|]. unfold pending. rewrite (hand_of y _ Hp). cbn [sy_s hand sy_pc]. rewrite E. constructor.
  - rewrite (hand_of y _ Hp) in Hh. cbn in Hh. destruct (hand_cons _ p (ps ++ live) Hh) as (k & t & Hd & Hk & _ & Hh'). assert (e_key e = k) as -> by (unfold data in Hd; rewrite He in Hd; by injection Hd).
    split; [split; [done|done|exact I]|]. unfold pending. rewrite (hand_of y _ Hp). cbn [sy_s hand sy_pc app]. rewrite (held_cons _ p _ k t Hd). destruct (view (sy_s y) !! k) as [t'|] eqn:Ev.
    + assert (view (sy_s y) ∪ <[k := t]> (held (sy_s y) (ps ++ live)) = view (sy_s y) ∪ held (sy_s y) (ps ++ live)) as ->; [|constructor].
      apply map_eq. intros k'. rewrite !lookup_union. destruct (decide (k = k')) as [<-|]; [by rewrite Ev, lookup_insert_eq, Hk|by rewrite lookup_insert_ne].
    + rewrite <- insert_union_r by done. rewrite <- (delete_insert_id (view (sy_s y) ∪ held (sy_s y) (ps ++ live)) k t) at 2; [constructor|]. by apply lookup_union_None.
  - rewrite (hand_of y _ Hp) in Hh. split; [split; [done|done|exact I]|]. unfold pending. rewrite (hand_of y _ Hp). cbn. constructor.
  - rewrite (hand_of y _ Hp) in Hh. destruct (reinsert_spec live (sy_s y) Hw Hh) as (s' & E' & W & V). rewrite E in E'. injection E' as <-. split; [split; [done|apply hand_nil|exact I]|].
    rewrite (pending_plain {| y with sy_s := s; sy_pc := Head |}) by done. unfold pending. rewrite (hand_of y _ Hp). cbn [sy_s]. rewrite V. constructor.
Qed.

Lemma step_sound (y y' : system) (ev : sched_event) : sys_inv y -> sys_step y ev y' -> sys_inv y' /\ spec_step (pending y) ev (pending y').
Proof.
  intros Hi Hst. destruct Hst as [y ev y' [y0 ev0 y0' Hm|y0 Hk]|y stopped key at_ y' Hst E|y|y now Hn|y].
  - by apply drain_sound.
  - destruct Hi as [Hw Hh Ha]. split; [split; [done..|]|constructor]. unfold aware, wake, unsignalled in *. cbn. by destruct (sy_pc y0); intuition.
  - unfold Schedule in E. destruct stopped; [injection E as <-; split; [done|constructor]|]. destruct Hi as [Hw Hh Ha].
    destruct (schedule_spec (sy_s y) key at_ Hw) as (s & E' & W & V & D). rewrite E' in E. cbn in E. injection E as <-. destruct (hand_frame _ s (hand y) Hh D) as [Hh' Eh].
    split; [split; [done|done|]|].
    + unfold aware, unsignalled in *. cbn. destruct (sy_pc y); intuition; lia.
    + unfold pending. change (hand {| y with sy_s := s; sy_wakers := S (sy_wakers y) |}) with (hand y). cbn [sy_s]. rewrite V, Eh, <- insert_union_l. constructor.
  - destruct Hi as [Hw Hh Ha]. split; [split; [done..|]|constructor]. unfold aware, Stop, unsignalled in *. cbn. destruct (sy_pc y); intuition; lia.
  - destruct Hi as [Hw Hh Ha]. split; [split; [done..|]|constructor]. unfold aware, unsignalled in *. cbn. destruct (sy_pc y); intuition; lia.
  - destruct Hi as [Hw Hh Ha]. split; [split; [done..|]|constructor]. done.
Qed.

Lemma wf_empty : wf NewRefreshScheduler.
Proof.
  split.
  - by intros i p.
  - intros p k t H. by apply not_elem_of_nil in H.
  - by intros k p.
  - intros p [e He]. done.
  - intros i c Hk Hc. cbn in Hc. lia.
Qed.

Lemma scheduler_reachable_inv (now : Time) (y : system) : sched_reachable now y -> sys_inv y.
Proof.
  induction 1 as [|y ev y' _ IH Hst]; [|by eapply step_sound]. split; [apply wf_empty|apply hand_nil|exact I].
Qed.

(** ** Theorems *)

(** C13. The scheduler is a map from keys to refresh times: whatever interleaving of
    [Schedule] calls, clock ticks, wake-ups, firings and compactions runs, no
    operation on the heap indexes out of range, scheduling a key sets its time,
    an entry that fires has the smallest time of all, and a key leaves the map
    only by firing or after the compaction found it dead. An entry fires before
    its time only while a wake-up for a later [Schedule] is on its way. *)
Theorem scheduler_refines_map (now : Time) (y y' : system) (ev : sched_event) (Hr : sched_reachable now y) (Hst : sys_step y ev y') :
  spec_step (pending y) ev (pending y') /\
  (forall key at_, is_Some (Schedule false key at_ y)) /\
  (s_heap (sy_s y) <> [] -> is_Some (pop_locked (sy_s y))) /\
  (forall cutoff, is_Some (collect_locked (length (s_heap (sy_s y))) (sy_s y) cutoff)) /\
  is_Some (reinsert_locked (sy_s y) (hand y)) /\
  (forall key, ev = Fired key -> unsignalled y -> exists t, pending y !! key = Some t /\ t <= sy_now y).
Proof.
  pose proof (scheduler_reachable_inv now y Hr) as Hi. destruct (step_sound y y' ev Hi Hst) as [_ Hs]. destruct Hi as [Hw Hh Ha]. split_and!; [done|..].
  - intros key at_. unfold Schedule. destruct (schedule_spec (sy_s y) key at_ Hw) as (s & -> & _). by eexists.
  - intros Hne. destruct (s_heap (sy_s y)) as [|p ps] eqn:Eh; [done|]. destruct (pop_spec _ p ps Hw Eh) as (s & k & t & -> & _). by eexists.
  - intros cutoff. destruct (collect_spec _ (sy_s y) cutoff Hw (Nat.le_refl _)) as (s & ps & -> & _). by eexists.
  - destruct (reinsert_spec (hand y) (sy_s y) Hw Hh) as (s & -> & _). by eexists.
  - intros key -> Hq. inversion Hs as [| |? t Hk Hmin| |]; subst. exists t. split; [done|]. inversion Hst as [? ? ? Hm Hy He| ? [] | | |]; subst; try done. inversion Hm as [? ? ? Hd|]; subst.
    inversion Hd as [ | | | | | |? d s p e Hp Eh E He| | | | | | |]; subst. unfold aware in Ha. rewrite Hp in Ha. destruct Ha as [Hd1 Hd2]. destruct (Hd2 Hq) as [[k Hv] _].
    rewrite (pending_plain y) in * by (by rewrite (hand_of y _ Hp)). specialize (Hmin k d Hv). lia.
Qed.

(** A key whose time has come. *)
Definition due (y : system) : Prop := exists k t, pending y !! k = Some t /\ t <= sy_now y.

(** Steps the drainer is away from firing, and signals on their way. *)
Definition budget (y : system) : nat :=
  sy_wakers y +
  match sy_pc y with
  | Exited => 0
  | Locking _ => 1
  | Head => 2
  | WaitEmpty | Wait _ => 3
  | Reinsert _ => 4
  | Checking todo _ => 5 + length todo
  | Compact => 6 + length (s_heap (sy_s y))
  | AfterPop => 7 + length (s_heap (sy_s y))
  end.

Lemma due_view (y : system) : sys_inv y -> hand y = [] -> due y ->
  exists p ps e, s_heap (sy_s y) = p :: ps /\ s_ents (sy_s y) !! p = Some e /\ e_refreshAt e <= sy_now y.
Proof.
  intros [Hw _ _] Hh (k & t & Hk & Ht). rewrite (pending_plain y Hh) in Hk. destruct (s_heap (sy_s y)) as [|p ps] eqn:Eh; [by apply view_empty in Hk|].
  destruct (placed_entry (sy_s y) 0 (wf_placed _ Hw) ltac:(rewrite Eh; cbn; lia)) as (p' & e & Hp & He & _). rewrite Eh in Hp. injection Hp as <-.
  exists p, ps, e. split_and!; [done..|]. destruct (top_spec _ p ps e Hw Eh He) as [_ Hmin]. specialize (Hmin k t Hk). lia.
Qed.

Lemma due_enabled (y : system) : sys_inv y -> sy_done y = false -> due y -> exists ev y', move y ev y'.
Proof.
  intros Hi Hd Hdue. pose proof (due_view y Hi) as Hv. destruct Hi as [Hw Hh Ha]. unfold aware in Ha. destruct (sy_pc y) as [| |d|d| | |todo live|live|] eqn:Hp.
  - destruct (Hv (hand_of y _ Hp) Hdue) as (p & ps & e & Eh & He & _). do 2 eexists. by eapply M_drain, D_look.
  - destruct (Hv (hand_of y _ Hp) Hdue) as (p & ps & e & Eh & He & _). destruct (sy_ready y) eqn:Er; [do 2 eexists; apply M_drain, D_ready; auto|].
    destruct (sy_wakers y) eqn:Ew; [|do 2 eexists; apply M_wake; lia]. rewrite Ha in Eh by done. done.
  - destruct (Hv (hand_of y _ Hp) Hdue) as (p & ps & e & Eh & He & Hle). destruct (sy_ready y) eqn:Er; [do 2 eexists; apply M_drain, D_ready; eauto|].
    destruct (sy_wakers y) eqn:Ew; [|do 2 eexists; apply M_wake; lia]. destruct (Ha ltac:(done)) as [_ Hmin]. destruct (top_spec _ p ps e Hw Eh He) as [[k Hk] _].
    specialize (Hmin k _ Hk). do 2 eexists. apply M_drain, (D_timer y d); [done|lia].
  - destruct (Hv (hand_of y _ Hp) Hdue) as (p & ps & e & Eh & He & _). destruct (pop_spec _ p ps Hw Eh) as (s & k & t & E & _ & Hdt & _ & _ & _ & D & _).
    rewrite <- D in Hdt. destruct (data_ents s p _ Hdt) as (e' & He' & _). do 2 eexists. eapply M_drain, D_pop; [done|by rewrite Eh|done|done].
  - destruct (sy_tick y) eqn:Et; do 2 eexists; [by apply M_drain, D_tick|by apply M_drain, D_loop].
  - destruct (collect_spec _ (sy_s y) (i64 (unix_nano (sy_now y) + compactionWindow)) Hw (Nat.le_refl _)) as (s & ps & E & _). do 2 eexists. by apply M_drain, (D_collect y s ps).
  - destruct todo as [|p todo]; do 2 eexists; [by eapply M_drain, D_checked|by eapply M_drain, D_alive].
  - rewrite (hand_of y _ Hp) in Hh. destruct (reinsert_spec live (sy_s y) Hw Hh) as (s & E & _). do 2 eexists. by eapply M_drain, D_reinsert.
  - by rewrite Ha in Hd.
Qed.

Lemma due_step (y y' : system) (ev : sched_event) : sys_inv y -> sy_done y = false -> due y -> move y ev y' ->
  (exists k, ev = Fired k \/ ev = Dead k) \/ (sy_done y' = false /\ due y' /\ (budget y' < budget y)%nat).
Proof.
  intros Hi Hd Hdue Hm. destruct (step_sound y y' ev Hi (Y_move _ _ _ Hm)) as [_ Hs]. assert (ev = Quiet \/ exists k, ev = Fired k \/ ev = Dead k) as [-> |]; [|right|by left].
  { inversion Hm as [? ? ? Hdr|]; subst; [|by left]. inversion Hdr; subst; eauto. }
  assert (pending y' = pending y) as Hpe by (by inversion Hs). assert (sy_now y' = sy_now y /\ sy_done y' = sy_done y) as [Hn Hdn] by (inversion Hm as [? ? ? Hdr|]; subst; [inversion Hdr|]; done).
  split_and!; [congruence|unfold due; by rewrite Hpe, Hn|]. pose proof (due_view y Hi) as Hv. unfold budget.
  inversion Hm as [? ? ? Hdr|? Hw]; subst; [|cbn; lia].
  inversion Hdr as [? Hp Eh|? p ps e Hp Eh He|? Hp Hr|? Hp Hr|? d Hp Hle|? d Hp Eh| |? Hp Ht|? Hp Ht|? s ps Hp E|? p ps live Hp| |? live Hp|? live s Hp E]; subst; cbn; rewrite ?Hp; try lia.
  - destruct (Hv (hand_of y _ Hp) Hdue) as (p' & ps' & e' & Eh' & _). by rewrite Eh in Eh'.
  - destruct (Hv (hand_of y _ Hp) Hdue) as (p' & ps' & e' & Eh' & He' & Hle). rewrite Eh in Eh'. injection Eh' as <- <-. rewrite He in He'. injection He' as <-.
    rewrite due_now. rewrite (proj2 (Z.ltb_ge _ _) Hle). lia.
  - destruct Hp as [Hp|[d Hp]]; rewrite Hp; lia.
  - destruct Hp as [Hp|[d Hp]]; rewrite Hp; lia.
  - destruct (Hv (hand_of y _ Hp) Hdue) as (p' & ps' & e' & Eh' & _). by rewrite Eh in Eh'.
  - destruct (collect_spec _ (sy_s y) (i64 (unix_nano (sy_now y) + compactionWindow)) (inv_wf _ Hi) (Nat.le_refl _)) as (s' & ps' & E' & [_ _ _ _ _ _ L _]). rewrite E in E'. injection E' as <- <-. lia.
  - cbn. lia.
Qed.

Inductive moves : system -> list sched_event -> system -> Prop :=
| Mv_nil y : moves y [] y
| Mv_cons y ev y1 evs y2 : move y ev y1 -> moves y1 evs y2 -> moves y (ev :: evs) y2.

(** C14. A refresh whose time has come is not slept through: as long as the
    scheduler is not stopped and a pending key is due, the drainer (or a pending
    wake-up) can move, and after [budget] moves, in whatever order the selects
    choose, an entry has fired or a key was found dead. *)
Theorem due_refresh_fires (now : Time) (y : system) (Hr : sched_reachable now y) (Hd : sy_done y = false) (Hdue : due y) :
  (exists ev y', move y ev y') /\
  forall evs y', moves y evs y' -> (budget y < length evs)%nat -> exists k, Fired k ∈ evs \/ Dead k ∈ evs.
Proof.
  pose proof (scheduler_reachable_inv now y Hr) as Hi. split; [by apply due_enabled|]. clear Hr. intros evs. revert y Hi Hd Hdue.
  induction evs as [|ev evs IH]; intros y Hi Hd Hdue y' Hm Hb; [cbn in Hb; lia|]. inversion Hm as [|? ? y1 ? ? Hm1 Hm2]; subst.
  destruct (due_step y y1 ev Hi Hd Hdue Hm1) as [[k [->| ->]]|(Hd1 & Hdue1 & Hb1)]; [exists k; left; by left|exists k; right; by left|].
  destruct (step_sound y y1 ev Hi (Y_move _ _ _ Hm1)) as [Hi1 _]. cbn in Hb. destruct (IH y1 Hi1 Hd1 Hdue1 y' Hm2 ltac:(lia)) as [k [Hk|Hk]]; exists k; [left|right]; by right.
Qed.

(** *** Witnesses *)

Definition key_a : Key := bs "a".
Definition key_b : Key := bs "b".

Definition scheduled_at (key : Key) (at_ : Time) (y : system) : system := default y (Schedule false key at_ y).

Lemma scheduled_reachable (now : Time) (key : Key) (at_ : Time) (y : system) : sched_reachable now y -> sched_reachable now (scheduled_at key at_ y).
Proof.
  intros Hr. unfold scheduled_at. destruct (Schedule false key at_ y) as [y'|] eqn:E; [|done]. eapply R_step; [done|]. by apply (Y_schedule y false key at_ y').
Qed.

(** Two keys scheduled at time 0, and the clock at 20. *)
Definition two_due : system := {| (scheduled_at key_b 5 (scheduled_at key_a 10 (Start 0))) with sy_now := 20 |}.

Lemma two_due_reachable : sched_reachable 0 two_due.
Proof.
  eapply R_step; [|by apply (Y_clock (scheduled_at key_b 5 (scheduled_at key_a 10 (Start 0))) 20)].
  apply scheduled_reachable, scheduled_reachable, R_start.
Qed.

Lemma scheduler_refines_map_witness :
  exists y', sys_step two_due Quiet y' /\ spec_step (pending two_due) Quiet (pending y') /\ pending two_due !! key_b = Some 5.
Proof.
  assert (sys_step two_due Quiet {| two_due with sy_pc := Locking 5 |}) as Hst.
  { apply Y_move, M_drain. apply (D_look two_due 1 [0%nat] (MkEntry key_b 5 0)); vm_compute; reflexivity. }
  exists {| two_due with sy_pc := Locking 5 |}. split; [exact Hst|]. split; [exact (proj1 (scheduler_refines_map 0 _ _ _ two_due_reachable Hst))|vm_compute; reflexivity].
Defined.

Lemma due_refresh_fires_witness : budget two_due = 4%nat /\ exists ev y', move two_due ev y'.
Proof.
  split; [reflexivity|]. apply (due_refresh_fires 0 two_due two_due_reachable); [reflexivity|]. exists key_a, 10. split; [vm_compute; reflexivity|vm_compute; discriminate].
Defined.

(** ** What the code does on edge inputs *)

(** Between its two locks the drainer decides on a key that a concurrent
    [Schedule] moves: the key fires at 20 although it was moved to 100. *)
Lemma moved_key_fires_early :
  exists y y', sched_reachable 0 y /\ sys_step y (Fired key_a) y' /\ pending y !! key_a = Some 100 /\ sy_now y = 20.
Proof.
  set (y0 := {| (scheduled_at key_a 10 (Start 0)) with sy_now := 20 |}).
  assert (sched_reachable 0 y0) as R0.
  { eapply R_step; [|by apply (Y_clock (scheduled_at key_a 10 (Start 0)) 20)]. apply scheduled_reachable, R_start. }
  set (y1 := {| y0 with sy_pc := Locking 10 |}).
  assert (sched_reachable 0 y1) as R1.
  { eapply R_step; [exact R0|]. apply Y_move, M_drain. apply (D_look y0 0 [] (MkEntry key_a 10 0)); vm_compute; reflexivity. }
  exists (scheduled_at key_a 100 y1). eexists. split; [|split].
  - by apply scheduled_reachable.
  - apply Y_move, M_drain. eapply (D_pop _ 10 _ 0 (MkEntry key_a 100 0)); vm_compute; try reflexivity; discriminate.
  - vm_compute. auto.
Qed.
