(* ===== verification/Flights.v ===== *)
(** Shared origin fetches (src/internal/cache inflight.go, collapse.go, the
    flight half of handler.go and stream.go): the key a miss parks under, the
    sharded table of fetches in progress, what a leader publishes to its
    followers and when, and the followers of both kinds (those that are handed
    the leader's response and those that wait for the store and come back). The
    requests interleave as a step relation; what a leader publishes is computed
    from the same answers of the origin as its own reply in [Serve]. *)

From S2P Require Import Prelude GoStd Tiered TieredRefine H1Parser UABypass DateFormat FastPath GoStrings CacheControl HeaderMap RawReq Api HttpDate Engine Cacheable Conditional Cookies Keys Negotiate Vary KeyConfig StoreSpec Fill Handler Serve ServeSpec.

(** ** Flight keys (collapse.go) *)

Definition fillFlightSuffix : Z := 0x66696c6c.
Definition headRevalKeySuffix : Z := 0x68656164.

(** The first eight bytes XOR a suffix. *)
Definition xor_high (k : Key) (suffix : Z) : Key := put_be 8 (Z.lxor (key_hi k) suffix) ++ drop 8 k.
Definition fillFlightKey (primaryKey : Key) : Key := xor_high primaryKey fillFlightSuffix.
Definition headFlightKey (flightKey : Key) : Key := xor_high flightKey headRevalKeySuffix.

Definition isHeadFlight (ri : RequestInfo) : bool :=
  if negb (beq (Method ri) []) then beq (Method ri) (bs "HEAD") else (0 <? len (methodBytes ri)) && beq (methodBytes ri) (bs "HEAD").

(** A request that misses: [rq_warm] is whether a stored object was found under
    the lookup key. *)
Record miss : Type := MkMiss { rq_ctx : RequestCtx; rq_primary : Key; rq_lookup : Key; rq_warm : bool }.
Definition rq_ri (r : miss) : RequestInfo := requestInfoFromCtx (rq_ctx r).

Section Flight.
Context {S : Type} {OS : ObjectStore S}.
Context (to_lower : bytes -> bytes) (sum64 : bytes -> Z) (sum128 : bytes -> Key) (local : bytes -> Z -> option Z).
Context (h : Handler) (gt : gates) (ownerFn : option (Key -> bool)).

(** The key and whether the flight is a fill flight; the zero key means that the
    request fetches alone. *)
Definition fetchFlightKey (r : miss) : Key * bool :=
  if collapseDenied (rq_ri r) then (zero_key, false)
  else
    let sfKey := collapseFlightKey to_lower sum64 (h_policy h) (rq_primary r) (rq_lookup r) (rq_warm r) (ReqHeader (rq_ri r)) in
    if negb (beq sfKey zero_key) then (if isHeadFlight (rq_ri r) then headFlightKey sfKey else sfKey, false)
    else (fillFlightKey (rq_primary r), true).

(** Where [fetchAndStore] sends a miss; [memo] is what the unstorable memo says
    of its primary key, [reentry] whether the request comes back from a fill. *)
Inductive route : Type := Alone | Park (key : Key) (fill : bool).

Definition fetchAndStore_route (memo reentry : bool) (r : miss) : route :=
  if reentry then Alone
  else let '(sfKey, fill) := fetchFlightKey r in
       if beq sfKey zero_key then Alone
       else if fill && memo then Alone
       else Park sfKey fill.

(** ** What a leader publishes (stream.go) *)

Inductive publication : Type :=
| PubErr (e : fetch_error)
| PubUnshareable
| PubResult (res : fetchResult).

Definition carriesClientState (hdr : Map) : bool := Has hdr Hdr.SetCookie || Has hdr Hdr.SetLogin.

(** What a leader does to its flight, in order: it publishes its verdict and
    closes [done], it stores the response, it closes [stored]. *)
Inductive act : Type := DoPublish (p : publication) | DoStore | DoSettle.

Definition publishFillVerdict (res : fetchResult) : list act :=
  [DoPublish (if carriesClientState (res_Header res) then PubUnshareable else PubResult res)].
Definition publishInflightErr (e : fetch_error) : list act := [DoPublish (PubErr e); DoSettle].
Definition publishStreamUnshareable : list act := [DoPublish PubUnshareable; DoSettle].

(** [v_streamed]: the acts come from the goroutine that writes the body, which runs
    on after the handler has returned. [v_cut]: the copy of the body was cut at a
    cap. *)
Record verdict : Type := MkVerdict { v_acts : list act; v_streamed : bool; v_cut : bool }.

(** [streamMissBuffered]: [room] is whether there is a slot for the variant;
    [stored] is closed when the function returns. *)
Definition buffered_verdict (sf : streamFetchResult) (body : bytes) (cacheable head room : bool) : verdict :=
  if too_large (h_maxResponseBytes h) (len body) && match sf_resp sf with Some _ => true | None => false end
  then MkVerdict (publishInflightErr ErrOther) false false
  else MkVerdict (publishFillVerdict (MkFetch (sf_StatusCode sf) (sf_toMap sf) body (sf_Delay sf))
                  ++ (if cacheable && negb head && negb (too_large (h_maxObjectSize h) (len body)) && room then [DoStore] else []) ++ [DoSettle]) false false.

(** [settleTeeFill] *)
Definition tee_verdict (sf : streamFetchResult) (t : tee) : verdict :=
  if negb (t_complete t) then MkVerdict publishStreamUnshareable true (t_exceeded t)
  else MkVerdict (publishFillVerdict (MkFetch (sf_StatusCode sf) (sf_toMap sf) (t_buf t) (sf_Delay sf))
                  ++ (if t_exceeded t || too_large (h_maxObjectSize h) (t_total t) then [] else [DoStore]) ++ [DoSettle]) true (t_exceeded t).

(** The verdict of [streamMiss], branch by branch; [None] is its panic. *)
Definition streamMiss_verdict (a : answers) (r : miss) (n : Node S) : option verdict :=
  match an_stream a with
  | Err e => Some (MkVerdict (publishInflightErr e) false false)
  | Ok sf =>
      let head := isHead (ctx_Method (rq_ctx r)) in
      let storeKey := storeKey_of to_lower sum64 h (rq_primary r) (ReqHeader (rq_ri r)) (sf_toMap sf) in
      let room := (reserve_for h ownerFn storeKey (rq_primary r) n).2 in
      if negb (sf_buffered sf) && negb head && is_event_stream sf then Some (MkVerdict publishStreamUnshareable false false)
      else
        match stream_cacheable local h sf (rq_ri r) with
        | None => None
        | Some cacheable =>
            if sf_buffered sf || head || negb cacheable
               || (0 <? h_maxStreamingBufferBytes h) && (h_maxStreamingBufferBytes h <=? an_load a)
            then Some (buffered_verdict sf (an_body a) cacheable head room)
            else if negb room then Some (MkVerdict publishStreamUnshareable false false)
            else Some (tee_verdict sf (teeStreamToClient h (an_reads a)))
        end
  end.

(** [writeBufferedResult]: what a follower makes of the leader's response. *)
Definition writeBufferedResult (ctx : RequestCtx) (res : fetchResult) : reply :=
  ServeOrigin (res_StatusCode res) (res_Header res) (if isHead (ctx_Method ctx) then None else Some (res_Body res)).

(** A fetch of the request: what it does to its flight and what its own client is
    sent, for the same answers of the origin on the same node. *)
Definition fetches (r : miss) (v : verdict) (own : reply) : Prop :=
  exists q a n, streamMiss_verdict a r n = Some v /\ own = (streamMiss to_lower sum64 local h gt ownerFn q a (rq_ctx r) (rq_primary r) (rq_ri r) n).2.
End Flight.

(** ** The table (inflight.go) *)

(** The smallest power of two not below the number of processors. *)
Fixpoint round_up (fuel : nat) (p n : Z) : Z :=
  match fuel with
  | O => p
  | Datatypes.S fuel => if p <? n then round_up fuel (2 * p) n else p
  end.
Definition inflightShardCount (gomaxprocs : Z) : Z :=
  let n := if 64 <? gomaxprocs then 64 else gomaxprocs in
  let n := if n <? 1 then 1 else n in
  round_up 7 1 n.

(** The shards, and the mask. *)
Record inflightTable : Type := MkTable { tb_shards : list (gmap Key nat); tb_mask : Z }.
Definition newInflightTable (gomaxprocs : Z) : inflightTable :=
  MkTable (replicate (Z.to_nat (inflightShardCount gomaxprocs)) ∅) (inflightShardCount gomaxprocs - 1).

Definition inflight_shard (t : inflightTable) (key : Key) : nat := Z.to_nat (Z.land (Hash64 key) (tb_mask t)).

(** [None] is an index out of range. *)
Definition loadOrStore (t : inflightTable) (key : Key) (v : nat) : option (inflightTable * nat * bool) :=
  m ← tb_shards t !! inflight_shard t key;
  match m !! key with
  | None => Some ({| t with tb_shards := <[inflight_shard t key := <[key := v]> m]> (tb_shards t) |}, v, false)
  | Some existing => Some (t, existing, true)
  end.

Definition table_delete (t : inflightTable) (key : Key) : option inflightTable :=
  m ← tb_shards t !! inflight_shard t key; Some {| t with tb_shards := <[inflight_shard t key := delete key m]> (tb_shards t) |}.

(** ** Requests in flight *)

(** [inflightStream]: [fl_res] is set when [done] is closed. The other fields
    record whose stream it is, where it was parked, and the leader's fetch. *)
Record flight : Type := MkFlight {
  fl_res : option publication; fl_stored : bool; fl_followers : Z; fl_rq : miss; fl_key : option (Key * bool); fl_verdict : verdict; fl_own : reply;
}.

(** How a request ends: as the leader of a flight with its own reply, with the
    result of another flight, its error or its shed, or served from the store
    after a fill. *)
Inductive flight_end : Type :=
| Led (f : nat) (own : reply)
| Handed (f : nat) (res : fetchResult)
| Failed (e : fetch_error)
| Shed
| Stored.

(** [Leads f key todo streamed]: [key] is the table entry still to be removed.
    [Reenters]: a fill follower goes through the pipeline again, with the size of
    the wave it was released in. *)
Inductive at_pc : Type :=
| Missed (reentry : bool)
| Loaded (f : nat) (fill : bool)
| WaitDone (f : nat)
| WaitStored (f : nat)
| Reenters (wave : Z)
| Leads (f : nat) (key : option Key) (todo : list act) (streamed : bool)
| Finished (o : flight_end).

Record fleet : Type := MkFleet { g_table : inflightTable; g_flights : list flight; g_threads : list (miss * at_pc) }.

Section Steps.
Context (to_lower : bytes -> bytes) (sum64 : bytes -> Z) (h : Handler).
(** What a leader may fetch: [fetches] of the handler. *)
Context (may_fetch : miss -> verdict -> reply -> Prop).

Definition with_thread (i : nat) (r : miss) (p : at_pc) (g : fleet) : fleet := {| g with g_threads := <[i := (r, p)]> (g_threads g) |}.
Definition with_flight (f : nat) (x : flight) (g : fleet) : fleet := {| g with g_flights := <[f := x]> (g_flights g) |}.
Definition add_flight (x : flight) (g : fleet) : fleet := {| g with g_flights := g_flights g ++ [x] |}.
Definition newInflightStream (r : miss) (key : option (Key * bool)) (v : verdict) (own : reply) : flight := MkFlight None false 0 r key v own.
Definition next_flight (g : fleet) : nat := length (g_flights g).

(** [streamMiss] on a stream of its own. *)
Definition leads_alone (i : nat) (r : miss) (v : verdict) (own : reply) (g : fleet) : fleet :=
  with_thread i r (Leads (next_flight g) None (v_acts v) (v_streamed v)) (add_flight (newInflightStream r None v own) g).

(** The follower that is handed the result. *)
Definition follow (r : miss) (f : nat) (p : publication) : option flight_end :=
  match p with
  | PubUnshareable => None
  | PubErr ErrFetchShed => Some Shed
  | PubErr e => Some (Failed e)
  | PubResult res => Some (Handed f res)
  end.

(** [serveFillFollower] after [stored]: a shed is passed on; any other verdict
    sends the request through the pipeline again. *)
Definition fill_follow (p : publication) (wave : Z) : at_pc :=
  match p with PubErr ErrFetchShed => Finished Shed | _ => Reenters wave end.

(** On its second way through the pipeline a request is served from the store, or
    misses again ([F_again]; the keys of the new lookup play no part in it, because
    it fetches alone). *)
Inductive fleet_step (i : nat) : fleet -> fleet -> Prop :=
| F_alone g r memo re v own : g_threads g !! i = Some (r, Missed re) -> fetchAndStore_route to_lower sum64 h memo re r = Alone -> may_fetch r v own ->
    fleet_step i g (leads_alone i r v own g)
| F_lead g r memo re key fill v own t f : g_threads g !! i = Some (r, Missed re) -> fetchAndStore_route to_lower sum64 h memo re r = Park key fill ->
    loadOrStore (g_table g) key (next_flight g) = Some (t, f, false) -> may_fetch r v own ->
    fleet_step i g (with_thread i r (Leads (next_flight g) (Some key) (v_acts v) (v_streamed v))
                      (add_flight (newInflightStream r (Some (key, fill)) v own) {| g with g_table := t |}))
| F_load g r memo re key fill t f : g_threads g !! i = Some (r, Missed re) -> fetchAndStore_route to_lower sum64 h memo re r = Park key fill ->
    loadOrStore (g_table g) key (next_flight g) = Some (t, f, true) ->
    fleet_step i g (with_thread i r (Loaded f fill) {| g with g_table := t |})
| F_count g r f fill x : g_threads g !! i = Some (r, Loaded f fill) -> g_flights g !! f = Some x ->
    fleet_step i g (with_thread i r (if fill then WaitStored f else WaitDone f) (with_flight f {| x with fl_followers := fl_followers x + 1 |} g))
| F_publish g r f key p todo st x : g_threads g !! i = Some (r, Leads f key (DoPublish p :: todo) st) -> g_flights g !! f = Some x -> fl_res x = None ->
    fleet_step i g (with_thread i r (Leads f key todo st) (with_flight f {| x with fl_res := Some p |} g))
| F_store g r f key todo st : g_threads g !! i = Some (r, Leads f key (DoStore :: todo) st) ->
    fleet_step i g (with_thread i r (Leads f key todo st) g)
| F_settle g r f key todo st x : g_threads g !! i = Some (r, Leads f key (DoSettle :: todo) st) -> g_flights g !! f = Some x -> fl_stored x = false ->
    fleet_step i g (with_thread i r (Leads f key todo st) (with_flight f {| x with fl_stored := true |} g))
| F_remove g r f key todo st t : g_threads g !! i = Some (r, Leads f (Some key) todo st) -> st = true \/ todo = [] -> table_delete (g_table g) key = Some t ->
    fleet_step i g (with_thread i r (Leads f None todo st) {| g with g_table := t |})
| F_finish g r f st x : g_threads g !! i = Some (r, Leads f None [] st) -> g_flights g !! f = Some x ->
    fleet_step i g (with_thread i r (Finished (Led f (fl_own x))) g)
| F_handed g r f x p o : g_threads g !! i = Some (r, WaitDone f) -> g_flights g !! f = Some x -> fl_res x = Some p -> follow r f p = Some o ->
    fleet_step i g (with_thread i r (Finished o) g)
| F_own g r f x p v own : g_threads g !! i = Some (r, WaitDone f) -> g_flights g !! f = Some x -> fl_res x = Some p -> follow r f p = None -> may_fetch r v own ->
    fleet_step i g (leads_alone i r v own g)
| F_settled g r f x p : g_threads g !! i = Some (r, WaitStored f) -> g_flights g !! f = Some x -> fl_stored x = true -> fl_res x = Some p ->
    fleet_step i g (with_thread i r (fill_follow p (fl_followers x)) g)
| F_served g r wave : g_threads g !! i = Some (r, Reenters wave) -> fleet_step i g (with_thread i r (Finished Stored) g)
| F_again g r wave : g_threads g !! i = Some (r, Reenters wave) -> fleet_step i g (with_thread i r (Missed true) g).

(** A request that misses arrives. *)
Inductive arrival : fleet -> fleet -> Prop :=
| A_miss g r : arrival g {| g with g_threads := g_threads g ++ [(r, Missed false)] |}.

Inductive fleet_reachable (procs : Z) : fleet -> Prop :=
| FR_start : fleet_reachable procs (MkFleet (newInflightTable procs) [] [])
| FR_step g i g' : fleet_reachable procs g -> fleet_step i g g' -> fleet_reachable procs g'
| FR_arrival g g' : fleet_reachable procs g -> arrival g g' -> fleet_reachable procs g'.
End Steps.

(** ** The table is a map *)

Definition table_get (t : inflightTable) (key : Key) : option nat := m ← tb_shards t !! inflight_shard t key; m !! key.
Definition table_wf (t : inflightTable) : Prop := forall key, (inflight_shard t key < length (tb_shards t))%nat.

Lemma round_up_pow (fuel : nat) : forall p n, exists j, 0 <= j /\ round_up fuel p n = p * 2 ^ j.
Proof.
  induction fuel as [|fuel IH]; intros p n; cbn [round_up]; [exists 0; lia|]. destruct (p <? n); [|exists 0; lia].
  destruct (IH (2 * p) n) as (j & Hj & ->). exists (j + 1). split; [lia|]. rewrite Z.pow_add_r, Z.pow_1_r by lia. ring.
Qed.

Lemma shards_wf (procs : Z) : table_wf (newInflightTable procs).
Proof.
  intros key. unfold inflight_shard, newInflightTable. cbn [tb_shards tb_mask]. rewrite length_replicate. unfold inflightShardCount.
  destruct (round_up_pow 7 1 (if (if 64 <? procs then 64 else procs) <? 1 then 1 else if 64 <? procs then 64 else procs)) as (j & Hj & ->).
  rewrite Z.mul_1_l. replace (2 ^ j - 1) with (Z.ones j) by (rewrite Z.ones_equiv; lia). rewrite Z.land_ones by done.
  assert (0 < 2 ^ j) as Hp by (by apply Z.pow_pos_nonneg). pose proof (Z.mod_pos_bound (Hash64 key) (2 ^ j) Hp). lia.
Qed.

(** The rounding ends at a count that covers the processors, up to 64. *)
Lemma shard_count_covers (procs : Z) : Z.min 64 (Z.max 1 procs) <= inflightShardCount procs.
Proof.
  assert (forall n, 1 <= n <= 64 -> n <= round_up 7 1 n) as H by (intros n Hn; cbn [round_up]; case_tests; bool_cases; lia).
  unfold inflightShardCount. destruct (64 <? procs) eqn:E1; bool_cases; [change (Z.min 64 (Z.max 1 procs) <= 64); lia|].
  destruct (procs <? 1) eqn:E2; bool_cases; [change (Z.min 64 (Z.max 1 procs) <= 1); lia|]. specialize (H procs ltac:(lia)). lia.
Qed.

Lemma loadOrStore_spec (t : inflightTable) (key : Key) (v : nat) : table_wf t ->
  match table_get t key with
  | Some f => loadOrStore t key v = Some (t, f, true)
  | None => exists t', loadOrStore t key v = Some (t', v, false) /\ table_wf t' /\ forall k, table_get t' k = if decide (key = k) then Some v else table_get t k
  end.
Proof.
  intros Hw. destruct (lookup_lt_is_Some_2 _ _ (Hw key)) as [m Hm]. unfold table_get, loadOrStore. rewrite Hm. cbn [mbind option_bind]. destruct (m !! key) as [f|] eqn:E; [done|].
  eexists. split; [reflexivity|]. cbn [tb_shards tb_mask]. split; [intros k; unfold inflight_shard; cbn; rewrite length_insert; apply Hw|].
  intros k. change (inflight_shard {| t with tb_shards := _ |} k) with (inflight_shard t k). destruct (decide (inflight_shard t key = inflight_shard t k)) as [Es|Es].
  - rewrite <- Es, list_lookup_insert_eq by apply Hw. cbn [mbind option_bind]. destruct (decide (key = k)) as [<-|]; [by rewrite lookup_insert_eq|]. rewrite lookup_insert_ne by done. by rewrite Hm.
  - rewrite list_lookup_insert_ne by done. destruct (decide (key = k)) as [<-|]; done.
Qed.

Lemma table_delete_spec (t : inflightTable) (key : Key) : table_wf t ->
  exists t', table_delete t key = Some t' /\ table_wf t' /\ forall k, table_get t' k = if decide (key = k) then None else table_get t k.
Proof.
  intros Hw. destruct (lookup_lt_is_Some_2 _ _ (Hw key)) as [m Hm]. unfold table_get, table_delete. rewrite Hm. cbn [mbind option_bind].
  eexists. split; [reflexivity|]. cbn [tb_shards tb_mask]. split; [intros k; unfold inflight_shard; cbn; rewrite length_insert; apply Hw|].
  intros k. change (inflight_shard {| t with tb_shards := _ |} k) with (inflight_shard t k). destruct (decide (inflight_shard t key = inflight_shard t k)) as [Es|Es].
  - rewrite <- Es, list_lookup_insert_eq by apply Hw. cbn [mbind option_bind]. destruct (decide (key = k)) as [<-|]; [by rewrite lookup_delete_eq|]. rewrite lookup_delete_ne by done. by rewrite Hm.
  - rewrite list_lookup_insert_ne by done. destruct (decide (key = k)) as [<-|]; done.
Qed.

Lemma table_new_get (procs : Z) (key : Key) : table_get (newInflightTable procs) key = None.
Proof.
  unfold table_get, newInflightTable. cbn [tb_shards]. destruct (replicate _ _ !! _) as [m|] eqn:E; [|done]. apply lookup_replicate in E as [-> _]. apply lookup_empty.
Qed.

(** ** The invariant *)

Section Invariant.
Context (to_lower : bytes -> bytes) (sum64 : bytes -> Z) (h : Handler) (may_fetch : miss -> verdict -> reply -> Prop).

(** A verdict publishes once, may store, and settles once, in this order. *)
Inductive acts_wf : list act -> Prop :=
| AW_settle p : acts_wf [DoPublish p; DoSettle]
| AW_store p : acts_wf [DoPublish p; DoStore; DoSettle].
Context (Hacts : forall r v own, may_fetch r v own -> acts_wf (v_acts v)).

Definition published_by (v : verdict) (p : publication) : Prop := exists todo, v_acts v = DoPublish p :: todo.

Definition parked (r : miss) (key : Key) (fill : bool) : Prop := exists memo re, fetchAndStore_route to_lower sum64 h memo re r = Park key fill.

(** How far a leader is with its flight. *)
Inductive stage (x : flight) : list act -> Prop :=
| St_open : acts_wf (v_acts (fl_verdict x)) -> fl_res x = None -> fl_stored x = false -> stage x (v_acts (fl_verdict x))
| St_published todo : is_Some (fl_res x) -> fl_stored x = false -> todo = [DoStore; DoSettle] \/ todo = [DoSettle] -> stage x todo
| St_settled : is_Some (fl_res x) -> fl_stored x = true -> stage x [].

Definition leading (g : fleet) (i f : nat) (key : option Key) (todo : list act) : Prop := exists r st, g_threads g !! i = Some (r, Leads f key todo st).

Record flight_ok (g : fleet) (f : nat) (x : flight) : Prop := MkFlightOk {
  fo_leader : (exists i key todo, leading g i f key todo) \/ (is_Some (fl_res x) /\ fl_stored x = true);
  fo_may : may_fetch (fl_rq x) (fl_verdict x) (fl_own x);
  fo_res p : fl_res x = Some p -> published_by (fl_verdict x) p;
  fo_key key fill : fl_key x = Some (key, fill) -> parked (fl_rq x) key fill;
  fo_rq : exists j p, g_threads g !! j = Some (fl_rq x, p);
}.

(** What a thread knows of the flight it is on. *)
Definition thread_ok (g : fleet) (r : miss) (p : at_pc) : Prop :=
  match p with
  | Leads f key todo st => exists x, g_flights g !! f = Some x /\ fl_rq x = r /\ stage x todo /\
      forall k, key = Some k -> table_get (g_table g) k = Some f
  | Loaded f fill => exists x key fill', g_flights g !! f = Some x /\ fl_key x = Some (key, fill') /\ parked r key fill
  | WaitDone f => exists x key fill', g_flights g !! f = Some x /\ fl_key x = Some (key, fill') /\ parked r key false
  | WaitStored f => exists x key fill', g_flights g !! f = Some x /\ fl_key x = Some (key, fill') /\ parked r key true
  | Finished (Led f own) => exists x, g_flights g !! f = Some x /\ fl_rq x = r /\ fl_own x = own
  | Finished (Handed f res) => exists x key fill', g_flights g !! f = Some x /\ fl_key x = Some (key, fill') /\ parked r key false /\ fl_res x = Some (PubResult res)
  | _ => True
  end.

Record fleet_inv (g : fleet) : Prop := MkFleetInv {
  gi_table : table_wf (g_table g);
  gi_entry key f : table_get (g_table g) key = Some f -> exists i todo x fill, leading g i f (Some key) todo /\ g_flights g !! f = Some x /\ fl_key x = Some (key, fill);
  gi_unique i j f k1 k2 t1 t2 : leading g i f k1 t1 -> leading g j f k2 t2 -> i = j;
  gi_flight f x : g_flights g !! f = Some x -> flight_ok g f x;
  gi_thread i r p : g_threads g !! i = Some (r, p) -> thread_ok g r p;
}.

Definition led (p : at_pc) : option nat := match p with Leads f _ _ _ => Some f | _ => None end.
Definition lead_key (p : at_pc) : option (nat * Key) := match p with Leads f (Some k) _ _ => Some (f, k) | _ => None end.

(** How a flight may change under a step of a thread at [p]: only its leader
    publishes or settles, and only what it may. *)
Record grown (p : at_pc) (f : nat) (x x' : flight) : Prop := MkGrown {
  gr_rq : fl_rq x' = fl_rq x;
  gr_key : fl_key x' = fl_key x;
  gr_res : is_Some (fl_res x) -> fl_res x' = fl_res x;
  gr_stored : fl_stored x = true -> fl_stored x' = true;
  gr_led : fl_verdict x' = fl_verdict x /\ fl_own x' = fl_own x;
  gr_from q : fl_res x' = Some q -> fl_res x = Some q \/ published_by (fl_verdict x) q;
  gr_other : led p <> Some f -> fl_res x' = fl_res x /\ fl_stored x' = fl_stored x;
}.

Lemma grown_refl (p : at_pc) (f : nat) (x : flight) : grown p f x x.
Proof. by split; auto. Qed.

(** What a step of thread [i] may change: its own flight, new flights, the table
    entry of its flight. *)
Record local_step (g g' : fleet) (i : nat) (r : miss) (p p' : at_pc) : Prop := MkLocal {
  ls_threads : g_threads g !! i = Some (r, p) /\ g_threads g' = <[i := (r, p')]> (g_threads g);
  ls_flights f x : g_flights g !! f = Some x -> exists x', g_flights g' !! f = Some x' /\ grown p f x x';
  ls_new f x' : g_flights g' !! f = Some x' -> is_Some (g_flights g !! f) \/
    (led p' = Some f /\ fl_res x' = None /\ fl_rq x' = r /\ may_fetch r (fl_verdict x') (fl_own x') /\ forall k b, fl_key x' = Some (k, b) -> parked r k b);
  ls_table : table_wf (g_table g');
  ls_entries k f : table_get (g_table g') k = Some f ->
    (table_get (g_table g) k = Some f /\ lead_key p <> Some (f, k)) \/
    (lead_key p' = Some (f, k) /\ exists x' b, g_flights g' !! f = Some x' /\ fl_key x' = Some (k, b));
  ls_keep j f k todo : j <> i -> leading g j f (Some k) todo -> table_get (g_table g') k = Some f;
  ls_ok : thread_ok g' r p';
  ls_fresh f : led p' = Some f -> led p = Some f \/ g_flights g !! f = None;
  ls_done f : led p = Some f -> led p' = Some f \/ exists x', g_flights g' !! f = Some x' /\ is_Some (fl_res x') /\ fl_stored x' = true;
}.

Lemma local_step_inv (g g' : fleet) (i : nat) (r : miss) (p p' : at_pc) : fleet_inv g -> local_step g g' i r p p' -> fleet_inv g'.
Proof.
  intros [Gt Ge Gu Gf Gh] [[Hi Hth] Hfl Hnew Htab Hent Hkeep Hok Hfr Hdn]. assert (i < length (g_threads g))%nat as Hlen by (by eapply lookup_lt_Some).
  assert (forall j r0 p0, g_threads g' !! j = Some (r0, p0) -> (j = i /\ r0 = r /\ p0 = p') \/ (j <> i /\ g_threads g !! j = Some (r0, p0))) as Hcase.
  { intros j r0 p0. rewrite Hth. destruct (decide (j = i)) as [->|Hne]; [rewrite list_lookup_insert_eq by done; intros [= <- <-]; auto|rewrite list_lookup_insert_ne by done; auto]. }
  assert (forall j r0 p0, j <> i -> g_threads g !! j = Some (r0, p0) -> g_threads g' !! j = Some (r0, p0)) as Hsame by (intros j r0 p0 Hne Hj; rewrite Hth; by rewrite list_lookup_insert_ne).
  assert (g_threads g' !! i = Some (r, p')) as Hi' by (rewrite Hth; by rewrite list_lookup_insert_eq).
  assert (forall j r0 p0, g_threads g !! j = Some (r0, p0) -> exists p1, g_threads g' !! j = Some (r0, p1)) as Hstay.
  { intros j r0 p0 Hj. destruct (decide (j = i)) as [->|]; [rewrite Hi in Hj; injection Hj as <- <-; eauto|eauto]. }
  split; [done|..].
  - intros key f Hk. destruct (Hent key f Hk) as [[Hk' Hne]|[Hk' (x' & b & Hx & Hb)]].
    + destruct (Ge key f Hk') as (j & todo & x & fill & (r0 & st & Hj) & Hx & Hxk). destruct (Hfl f x Hx) as (x' & Hx' & [_ Hxk' _ _ _ _ _]).
      exists j, todo, x', fill. split_and!; [|done|congruence]. exists r0, st. apply Hsame; [|done]. intros ->. rewrite Hi in Hj. injection Hj as _ ->. by apply Hne.
    + destruct p' as [| | | | |f' [k'|] todo st|]; try done. injection Hk' as -> ->. exists i, todo, x', b. split_and!; [by exists r, st|done..].
  - intros j1 j2 f k1 k2 t1 t2 (r1 & s1 & H1) (r2 & s2 & H2).
    apply Hcase in H1 as [(-> & _ & E1)|[N1 H1]], H2 as [(-> & _ & E2)|[N2 H2]]; [done|..].
    + subst p'. destruct (Hfr f eq_refl) as [Hl|Hn]; [destruct p; try done; injection Hl as ->; exfalso; apply N2; symmetry; eapply Gu; do 2 eexists; eauto|].
      destruct (Gh _ _ _ H2) as (x & Hx & _). congruence.
    + subst p'. destruct (Hfr f eq_refl) as [Hl|Hn]; [destruct p; try done; injection Hl as ->; exfalso; apply N1; eapply Gu; do 2 eexists; eauto|].
      destruct (Gh _ _ _ H1) as (x & Hx & _). congruence.
    + eapply Gu; do 2 eexists; eauto.
  - intros f x' Hx'. destruct (Hnew f x' Hx') as [[x Hx]|(Hl & Hr & Hrq & Hmf & Hpk)].
    + destruct (Hfl f x Hx) as (x2 & E & [H1 H2 H3 H4 [H7 H8] H5 H6]). rewrite Hx' in E. injection E as <-. destruct (Gf f x Hx) as [F1 F5 F2 F3 (j & pj & F4)]. split.
      * destruct F1 as [(j1 & key & todo & r1 & st & Hj)|[A B]]; [|right; rewrite H3 by done; auto]. destruct (decide (j1 = i)) as [->|Hne].
        -- rewrite Hi in Hj. injection Hj as -> ->. destruct (Hdn f eq_refl) as [Hl|(x3 & E & ? & ?)]; [|right; rewrite Hx' in E; by injection E as <-].
           left. destruct p' as [| | | | |f' key' todo' st'|]; try done. injection Hl as ->. exists i, key', todo', r1, st'. done.
        -- left. exists j1, key, todo, r1, st. by apply Hsame.
      * by rewrite H1, H7, H8.
      * intros q Hq. rewrite H7. destruct (H5 q Hq) as [Hq'|]; [by apply F2|done].
      * intros key fill. rewrite H1, H2. apply F3.
      * rewrite H1. destruct (Hstay j _ _ F4) as [p1 Hp1]. eauto.
    + split; [|by rewrite Hrq|congruence|by rewrite Hrq|rewrite Hrq; eauto]. left. destruct p' as [| | | | |f' key todo st|]; try done. injection Hl as ->. exists i, key, todo, r, st. done.
  - intros j r0 p0 Hj. apply Hcase in Hj as [(-> & -> & ->)|[Hne Hj]]; [done|]. pose proof (Gh j r0 p0 Hj) as Hold.
    destruct p0 as [re|f b|f|f|w|f key todo st|[f own|f res|e| |]]; cbn in Hold |- *; try done.
    + destruct Hold as (x & k & b' & Hx & Hk & Hp). destruct (Hfl f x Hx) as (x' & Hx' & [_ Hk' _ _ _ _ _]). exists x', k, b'. split_and!; [done|congruence|done].
    + destruct Hold as (x & k & b' & Hx & Hk & Hp). destruct (Hfl f x Hx) as (x' & Hx' & [_ Hk' _ _ _ _ _]). exists x', k, b'. split_and!; [done|congruence|done].
    + destruct Hold as (x & k & b' & Hx & Hk & Hp). destruct (Hfl f x Hx) as (x' & Hx' & [_ Hk' _ _ _ _ _]). exists x', k, b'. split_and!; [done|congruence|done].
    + destruct Hold as (x & Hx & Hrq & Hst & Hkey). destruct (Hfl f x Hx) as (x' & Hx' & [H1 H2 H3 H4 [H7 H8] _ H6]). exists x'. split_and!; [done|congruence| |].
      * assert (led p <> Some f) as Hnl by (intros Hl; destruct p; try done; injection Hl as ->; apply Hne; eapply Gu; do 2 eexists; eauto).
        destruct (H6 Hnl) as [E1 E2]. destruct Hst; [rewrite <- H7; apply (St_open x')|eapply St_published|apply St_settled]; rewrite ?H7, ?E1, ?E2; done.
      * intros k ->. eapply (Hkeep j); [done|]. by exists r0, st.
    + destruct Hold as (x & Hx & Hrq & Hown). destruct (Hfl f x Hx) as (x' & Hx' & [H1 _ _ _ [_ H8] _ _]). exists x'. split_and!; [done|congruence..].
    + destruct Hold as (x & k & b' & Hx & Hk & Hp & Hres). destruct (Hfl f x Hx) as (x' & Hx' & [_ Hk' H3 _ _ _ _]). exists x', k, b'. split_and!; [done|congruence|done|]. rewrite H3; [done|by rewrite Hres].
Qed.

(** *** Each step is local *)

Lemma flights_app (g : fleet) (y : flight) (p : at_pc) (f : nat) (x : flight) : g_flights g !! f = Some x -> exists x', (g_flights g ++ [y]) !! f = Some x' /\ grown p f x x'.
Proof. intros Hx. exists x. split; [by apply lookup_app_l_Some|apply grown_refl]. Qed.

Lemma flights_set (g : fleet) (f0 : nat) (y y' : flight) (p : at_pc) : g_flights g !! f0 = Some y -> grown p f0 y y' ->
  forall f x, g_flights g !! f = Some x -> exists x', <[f0 := y']> (g_flights g) !! f = Some x' /\ grown p f x x'.
Proof.
  intros Hy Hg f x Hx. destruct (decide (f0 = f)) as [<-|Hne].
  - exists y'. rewrite list_lookup_insert_eq by (by eapply lookup_lt_Some). rewrite Hx in Hy. by injection Hy as ->.
  - exists x. rewrite list_lookup_insert_ne by done. split; [done|apply grown_refl].
Qed.

Lemma flights_set_new (g : fleet) (f0 f : nat) (y' x' : flight) : <[f0 := y']> (g_flights g) !! f = Some x' -> is_Some (g_flights g !! f).
Proof. intros Hx. apply lookup_lt_is_Some. apply lookup_lt_Some in Hx. by rewrite length_insert in Hx. Qed.

Lemma entry_led (g : fleet) (i : nat) (r : miss) (p : at_pc) (k : Key) (f : nat) : fleet_inv g -> g_threads g !! i = Some (r, p) ->
  lead_key p = Some (f, k) -> table_get (g_table g) k = Some f.
Proof. intros Hg Hi Hl. pose proof (gi_thread g Hg i r p Hi) as Ht. destruct p as [| | | | |f' [k'|] todo st|]; try done. injection Hl as -> ->. destruct Ht as (x & _ & _ & _ & Ht). by apply Ht. Qed.

Lemma entry_other (g : fleet) (j f : nat) (k : Key) (todo : list act) : fleet_inv g -> leading g j f (Some k) todo -> table_get (g_table g) k = Some f.
Proof. intros Hg (r & st & Hj). by apply (entry_led g j r _ k f Hg Hj). Qed.

(** A thread that follows: neither leads before nor after. *)
Lemma follower_local (g g' : fleet) (i : nat) (r : miss) (p p' : at_pc) : fleet_inv g -> g_threads g !! i = Some (r, p) -> g_threads g' = <[i := (r, p')]> (g_threads g) ->
  g_table g' = g_table g -> g_flights g' = g_flights g -> led p = None -> led p' = None -> thread_ok g' r p' -> local_step g g' i r p p'.
Proof.
  intros Hg Hi Hth Ht Hf Hp Hp' Hok. split; rewrite ?Ht, ?Hf, ?Hp, ?Hp'; try done.
  - intros f x Hx. exists x. split; [done|apply grown_refl].
  - intros f x' Hx. left. by eexists.
  - apply Hg.
  - intros k f Hk. left. split; [done|]. destruct p; done.
  - intros j f k todo _ Hj. by eapply entry_other.
Qed.

(** A thread that starts to fetch on a flight of its own. *)
Lemma alone_local (g : fleet) (i : nat) (r : miss) (p : at_pc) (v : verdict) (own : reply) : fleet_inv g -> g_threads g !! i = Some (r, p) -> led p = None -> may_fetch r v own ->
  local_step g (leads_alone i r v own g) i r p (Leads (next_flight g) None (v_acts v) (v_streamed v)).
Proof.
  intros Hg Hi Hp Hv. split; cbn; try done.
  - intros f x. apply (flights_app g _ p).
  - intros f x' Hx. apply lookup_app_Some in Hx as [Hx|[Hl Hx]]; [left; by eexists|]. right. apply list_lookup_singleton_Some in Hx as [E <-]. unfold next_flight. split_and!; [f_equal; lia|done..].
  - apply Hg.
  - intros k f Hk. left. split; [done|]. destruct p; done.
  - intros j f k todo _ Hj. by eapply entry_other.
  - exists (newInflightStream r None v own). split_and!; [|done|by apply (St_open (newInflightStream r None v own)); [by eapply Hacts|..]|done]. unfold next_flight. by rewrite lookup_app_r, Nat.sub_diag by done.
  - intros f [= <-]. right. apply lookup_ge_None. unfold next_flight. lia.
  - intros f Hf. congruence.
Qed.

Lemma lead_local (g : fleet) (i : nat) (r : miss) (key : Key) (fill : bool) (v : verdict) (own : reply) (t : inflightTable) (re : bool) : fleet_inv g -> g_threads g !! i = Some (r, Missed re) ->
  parked r key fill -> table_get (g_table g) key = None -> table_wf t -> (forall k, table_get t k = if decide (key = k) then Some (next_flight g) else table_get (g_table g) k) -> may_fetch r v own ->
  local_step g (with_thread i r (Leads (next_flight g) (Some key) (v_acts v) (v_streamed v)) (add_flight (newInflightStream r (Some (key, fill)) v own) {| g with g_table := t |}))
    i r (Missed re) (Leads (next_flight g) (Some key) (v_acts v) (v_streamed v)).
Proof.
  intros Hg Hi Hp Hnone Hw Ht Hv. assert (forall y, (g_flights g ++ [y]) !! next_flight g = Some y) as Hlast by (intros y; unfold next_flight; by rewrite lookup_app_r, Nat.sub_diag by done).
  split; cbn; try done.
  - intros f x. apply (flights_app g _ (Missed re)).
  - intros f x' Hx. apply lookup_app_Some in Hx as [Hx|[Hl Hx]]; [left; by eexists|]. right. apply list_lookup_singleton_Some in Hx as [E <-]. unfold next_flight. split_and!; [f_equal; lia|done|done|done|].
    cbn. by intros k b [= <- <-].
  - intros k f. rewrite Ht. destruct (decide (key = k)) as [<-|]; [|by left]. intros [= <-]. right. split; [done|]. eauto.
  - intros j f k todo _ Hj. rewrite Ht. pose proof (entry_other g j f k todo Hg Hj). destruct (decide (key = k)) as [<-|]; congruence.
  - eexists. split_and!; [apply Hlast|done|by apply (St_open (newInflightStream r (Some (key, fill)) v own)); [by eapply Hacts|..]|]. intros k [= <-]. rewrite Ht. by destruct (decide (key = key)).
  - intros f [= <-]. right. apply lookup_ge_None. unfold next_flight. lia.
Qed.

(** A leader that changes its own flight. *)
Lemma leader_local (g : fleet) (i : nat) (r : miss) (f : nat) (key : option Key) (todo todo' : list act) (st : bool) (x x' : flight) : fleet_inv g ->
  g_threads g !! i = Some (r, Leads f key todo st) -> g_flights g !! f = Some x -> grown (Leads f key todo st) f x x' -> stage x' todo' ->
  local_step g (with_thread i r (Leads f key todo' st) (with_flight f x' g)) i r (Leads f key todo st) (Leads f key todo' st).
Proof.
  intros Hg Hi Hx Hgr Hs. pose proof (gr_rq _ _ _ _ Hgr) as H1. pose proof (gr_key _ _ _ _ Hgr) as H2. assert (<[f := x']> (g_flights g) !! f = Some x') as Hl by (rewrite list_lookup_insert_eq; [done|by eapply lookup_lt_Some]).
  destruct (gi_thread g Hg i r _ Hi) as (x0 & Hx0 & Hrq & _ & Hk). rewrite Hx in Hx0. injection Hx0 as <-.
  split; cbn; try done.
  - by apply (flights_set g f x x').
  - intros f0 y Hy. left. by eapply flights_set_new.
  - apply Hg.
  - intros k f0 Hk0. destruct (gi_entry g Hg k f0 Hk0) as (j & todo0 & y & b & Hj & Hy & Hb). destruct key as [k1|]; [|left; split; [done|discriminate]].
    destruct (decide ((f, k1) = (f0, k))) as [[= -> ->]|Hne]; [|left; split; [done|congruence]]. right. split; [done|]. rewrite Hx in Hy. injection Hy as ->. exists x', b. split; [done|congruence].
  - intros j f0 k todo0 _ Hj. by eapply entry_other.
  - exists x'. split_and!; [done|congruence|done|]. intros k ->. by apply Hk.
  - intros f0 [= <-]. by left.
  - intros f0 [= <-]. by left.
Qed.

Lemma count_local (g : fleet) (i : nat) (r : miss) (f : nat) (fill : bool) (x : flight) : fleet_inv g -> g_threads g !! i = Some (r, Loaded f fill) -> g_flights g !! f = Some x ->
  local_step g (with_thread i r (if fill then WaitStored f else WaitDone f) (with_flight f {| x with fl_followers := fl_followers x + 1 |} g))
    i r (Loaded f fill) (if fill then WaitStored f else WaitDone f).
Proof.
  intros Hg Hi Hx. set (x' := {| x with fl_followers := _ |}). destruct (gi_thread g Hg i r _ Hi) as (x0 & key & fill' & Hx0 & Hk & Hp). rewrite Hx in Hx0. injection Hx0 as <-.
  assert (led (if fill then WaitStored f else WaitDone f) = None) as Hled by (by destruct fill).
  split; cbn; rewrite ?Hled; try done.
  - apply (flights_set g f x x'); [done|]. by split; auto.
  - intros f0 y Hy. left. by eapply flights_set_new.
  - apply Hg.
  - intros k f0 Hk0. left. by split.
  - intros j f0 k todo _ Hj. by eapply entry_other.
  - assert (<[f := x']> (g_flights g) !! f = Some x') as Hl by (rewrite list_lookup_insert_eq; [done|by eapply lookup_lt_Some]). destruct fill; exists x', key, fill'; done.
Qed.

Lemma remove_local (g : fleet) (i : nat) (r : miss) (f : nat) (key : Key) (todo : list act) (st : bool) (t : inflightTable) : fleet_inv g ->
  g_threads g !! i = Some (r, Leads f (Some key) todo st) -> table_wf t -> (forall k, table_get t k = if decide (key = k) then None else table_get (g_table g) k) ->
  local_step g (with_thread i r (Leads f None todo st) {| g with g_table := t |}) i r (Leads f (Some key) todo st) (Leads f None todo st).
Proof.
  intros Hg Hi Hw Ht. destruct (gi_thread g Hg i r _ Hi) as (x & Hx & Hrq & Hs & Hk). split; cbn; try done.
  - intros f0 y Hy. exists y. split; [done|apply grown_refl].
  - intros f0 y Hy. left. by eexists.
  - intros k f0. rewrite Ht. destruct (decide (key = k)) as [|Hne]; [done|]. intros Hk0. left. split; [done|congruence].
  - intros j f0 k todo0 Hj Hl. rewrite Ht. pose proof (entry_other g j f0 k todo0 Hg Hl) as Hk0. destruct (decide (key = k)) as [<-|]; [|done]. exfalso. apply Hj.
    rewrite (Hk key eq_refl) in Hk0. injection Hk0 as ->. eapply (gi_unique g Hg); [done|]. by exists r, st.
  - exists x. by split_and!.
  - intros f0 [= <-]. by left.
  - intros f0 [= <-]. by left.
Qed.

Lemma finish_local (g : fleet) (i : nat) (r : miss) (f : nat) (st : bool) (x : flight) : fleet_inv g -> g_threads g !! i = Some (r, Leads f None [] st) -> g_flights g !! f = Some x ->
  local_step g (with_thread i r (Finished (Led f (fl_own x))) g) i r (Leads f None [] st) (Finished (Led f (fl_own x))).
Proof.
  intros Hg Hi Hx'. destruct (gi_thread g Hg i r _ Hi) as (x0 & Hx & Hrq & Hs & _). rewrite Hx' in Hx. injection Hx as <-. split; cbn; try done.
  - intros f0 y Hy. exists y. split; [done|apply grown_refl].
  - intros f0 y Hy. left. by eexists.
  - apply Hg.
  - intros k f0 Hk0. by left.
  - intros j f0 k todo _ Hj. by eapply entry_other.
  - by exists x.
  - intros f0 [= <-]. right. exists x. split; [done|]. inversion Hs as [Hw _ _ E|todo _ _ [E|E] E'|? ?]; subst; try done. rewrite E in Hw; inversion Hw.
Qed.

Lemma stage_publish (x : flight) (p : publication) (todo : list act) : stage x (DoPublish p :: todo) ->
  fl_res x = None /\ fl_stored x = false /\ published_by (fl_verdict x) p /\ (todo = [DoStore; DoSettle] \/ todo = [DoSettle]).
Proof.
  inversion 1 as [Hw H1 H2 E|todo' H1 H2 [E|E]|]; subst; try done. split_and!; [done..|by exists todo|]. rewrite E in Hw; inversion Hw; auto.
Qed.

Lemma stage_settle (x : flight) (todo : list act) : stage x (DoSettle :: todo) -> todo = [] /\ is_Some (fl_res x) /\ fl_stored x = false.
Proof. inversion 1 as [Hw H1 H2 E|todo' H1 H2 [E|E]|]; subst; try done; [rewrite E in Hw; inversion Hw|]. by injection E as ->. Qed.

Lemma stage_store (x : flight) (todo : list act) : stage x (DoStore :: todo) -> todo = [DoSettle] /\ is_Some (fl_res x) /\ fl_stored x = false.
Proof. inversion 1 as [Hw H1 H2 E|todo' H1 H2 [E|E]|]; subst; try done; [rewrite E in Hw; inversion Hw|]. by injection E as ->. Qed.

Lemma step_inv (i : nat) (g g' : fleet) : fleet_inv g -> fleet_step to_lower sum64 h may_fetch i g g' -> fleet_inv g'.
Proof using Hacts.
  intros Hg Hst. destruct Hst as [g r memo re v own Hi Hr Hv|g r memo re key fill v own t f Hi Hr Ht Hv|g r memo re key fill t f Hi Hr Ht|g r f fill x Hi Hx|g r f key p todo st x Hi Hx Hres|g r f key todo st Hi
    |g r f key todo st x Hi Hx Hsd|g r f key todo st t Hi Hst Ht|g r f st x Hi Hx|g r f x p o Hi Hx Hp Ho|g r f x p v own Hi Hx Hp Ho Hv|g r f x p Hi Hx Hsd Hp|g r wave Hi|g r wave Hi]; eapply local_step_inv; try done.
  - by apply (alone_local g i r (Missed re) v own).
  - pose proof (loadOrStore_spec (g_table g) key (next_flight g) (gi_table g Hg)) as Hl. destruct (table_get (g_table g) key) eqn:E; [congruence|]. destruct Hl as (t' & E' & Hw & Hget).
    rewrite Ht in E'. injection E' as <- _. apply (lead_local g i r key fill v own t re); try done. by exists memo, re.
  - pose proof (loadOrStore_spec (g_table g) key (next_flight g) (gi_table g Hg)) as Hl. destruct (table_get (g_table g) key) as [f0|] eqn:E.
    2: { destruct Hl as (t' & E' & _). congruence. }
    rewrite Ht in Hl. injection Hl as -> ->. apply (follower_local g _ i r (Missed re) (Loaded f0 fill)); try done.
    destruct (gi_entry g Hg key f0 E) as (j & todo & x & b & _ & Hx & Hb). exists x, key, b. split_and!; [done..|by exists memo, re].
  - by apply count_local.
  - destruct (gi_thread g Hg i r _ Hi) as (x0 & Hx0 & Hrq & Hs & _). rewrite Hx in Hx0. injection Hx0 as <-. destruct (stage_publish x p todo Hs) as (_ & H2 & H3 & H4).
    apply (leader_local g i r f key (DoPublish p :: todo) todo st x); try done.
    + split; cbn; try done; [intros Hs'; rewrite Hres in Hs'; by destruct Hs'|]. intros q [= <-]. by right.
    + apply St_published; [by eexists|done..].
  - destruct (gi_thread g Hg i r _ Hi) as (x & Hx & Hrq & Hs & _). pose proof (leader_local g i r f key (DoStore :: todo) todo st x x Hg Hi Hx (grown_refl _ _ _)) as Hl.
    assert (with_flight f x g = g) as E by (unfold with_flight; rewrite list_insert_id by done; by destruct g). rewrite E in Hl. apply Hl.
    destruct (stage_store x todo Hs) as (-> & ? & ?). by apply St_published; auto.
  - destruct (gi_thread g Hg i r _ Hi) as (x0 & Hx0 & Hrq & Hs & _). rewrite Hx in Hx0. injection Hx0 as <-. apply (leader_local g i r f key (DoSettle :: todo) todo st x); try done; [by split; auto|].
    destruct (stage_settle x todo Hs) as (-> & ? & ?). by apply St_settled.
  - destruct (table_delete_spec (g_table g) key (gi_table g Hg)) as (t' & E & Hw & Hget). rewrite Ht in E. injection E as <-. by apply remove_local.
  - by apply finish_local.
  - apply (follower_local g _ i r (WaitDone f) (Finished o)); try done. destruct (gi_thread g Hg i r _ Hi) as (x0 & key & fill' & Hx0 & Hk & Hpk). rewrite Hx in Hx0. injection Hx0 as <-.
    destruct p as [[]| |res]; cbn in Ho; try discriminate; injection Ho as <-; try done. by exists x, key, fill'.
  - by apply (alone_local g i r (WaitDone f) v own).
  - apply (follower_local g _ i r (WaitStored f) _); try done; by destruct p as [[]| |res].
  - by apply (follower_local g _ i r (Reenters wave) _).
  - by apply (follower_local g _ i r (Reenters wave) _).
Qed.

Lemma more_threads (g : fleet) (r : miss) : fleet_inv g -> fleet_inv {| g with g_threads := g_threads g ++ [(r, Missed false)] |}.
Proof.
  intros [Gt Ge Gu Gf Gh]. assert (forall i x, g_threads g !! i = Some x -> (g_threads g ++ [(r, Missed false)]) !! i = Some x) as Hl by (intros i x; apply lookup_app_l_Some).
  assert (forall i r0 p0, (g_threads g ++ [(r, Missed false)]) !! i = Some (r0, p0) -> p0 = Missed false \/ g_threads g !! i = Some (r0, p0)) as Hc.
  { intros i r0 p0 [H|[_ H]]%lookup_app_Some; [auto|]. apply list_lookup_singleton_Some in H as [_ H]. injection H as _ <-. auto. }
  split; cbn; [done|..].
  - intros key f Hk. destruct (Ge key f Hk) as (i & todo & x & b & (r0 & st & Hi) & Hx & Hb). exists i, todo, x, b. split_and!; [exists r0, st; by apply Hl|done..].
  - intros i j f k1 k2 t1 t2 (r1 & s1 & H1) (r2 & s2 & H2). apply Hc in H1 as [|H1], H2 as [|H2]; try done. eapply Gu; do 2 eexists; eauto.
  - intros f x Hx. destruct (Gf f x Hx) as [F1 F5 F2 F3 (j & pj & F4)]. split; [|done|done|done|exists j, pj; by apply Hl].
    destruct F1 as [(j1 & key & todo & r1 & st & Hj)|]; [|by right]. left. exists j1, key, todo, r1, st. by apply Hl.
  - intros i r0 p0 Hi. apply Hc in Hi as [->|Hi]; [done|]. exact (Gh i r0 p0 Hi).
Qed.

Lemma fleet_reachable_inv (procs : Z) (g : fleet) : fleet_reachable to_lower sum64 h may_fetch procs g -> fleet_inv g.
Proof.
  induction 1 as [|g i g' _ IH Hst|g g' _ IH Ha].
  - split; cbn; [apply shards_wf|..]; try (by intros).
    + intros key f. by rewrite table_new_get.
    + intros i j f k1 k2 t1 t2 (r & st & H). done.
  - by eapply step_inv.
  - destruct Ha; by apply more_threads.
Qed.
End Invariant.

(** ** What followers are handed *)

Section Handoff.
Context {S : Type} {OS : ObjectStore S}.
Context (to_lower : bytes -> bytes) (sum64 : bytes -> Z) (sum128 : bytes -> Key) (local : bytes -> Z -> option Z).
Context (h : Handler) (gt : gates) (ownerFn : option (Key -> bool)).

Lemma publish_result (x res : fetchResult) (todo rest : list act) : publishFillVerdict x ++ todo = DoPublish (PubResult res) :: rest ->
  x = res /\ carriesClientState (res_Header res) = false.
Proof. unfold publishFillVerdict. destruct (carriesClientState (res_Header x)) eqn:E; [done|]. intros [= <- _]. done. Qed.

Lemma verdict_wf (a : answers) (r : miss) (n : Node S) (v : verdict) : streamMiss_verdict to_lower sum64 local h ownerFn a r n = Some v -> acts_wf (v_acts v).
Proof.
  unfold streamMiss_verdict. destruct (an_stream a) as [sf|e]; [|intros [= <-]; constructor]. destruct (_ && is_event_stream sf); [intros [= <-]; constructor|].
  destruct (stream_cacheable local h sf (rq_ri r)) as [c|]; [|done]. destruct (sf_buffered sf || _ || _ || _).
  - intros [= <-]. unfold buffered_verdict. destruct (_ && match sf_resp sf with Some _ => true | None => false end); [constructor|]. cbn. destruct (c && _ && _ && _); constructor.
  - destruct (negb _); [intros [= <-]; constructor|]. intros [= <-]. unfold tee_verdict. destruct (negb _); [constructor|]. cbn. destruct (_ || _); constructor.
Qed.

(** The result a leader publishes is its own reply; when the copy of the body was
    cut at a cap, it is the reply with a prefix of the body. *)
Lemma verdict_is_reply (q : req_env) (a : answers) (r : miss) (n : Node S) (v : verdict) (res : fetchResult) :
  streamMiss_verdict to_lower sum64 local h ownerFn a r n = Some v -> published_by v (PubResult res) ->
  let own := (streamMiss to_lower sum64 local h gt ownerFn q a (rq_ctx r) (rq_primary r) (rq_ri r) n).2 in
  carriesClientState (res_Header res) = false /\
  (v_cut v = false -> own = writeBufferedResult (rq_ctx r) res) /\
  (v_cut v = true -> exists body, own = ServeOrigin (res_StatusCode res) (res_Header res) (Some body) /\ res_Body res `prefix_of` body).
Proof.
  unfold streamMiss_verdict, streamMiss, writeBufferedResult. cbn zeta. intros Hv [rest Hp]. destruct (an_stream a) as [sf|e]; [|by injection Hv as <-].
  destruct (negb (sf_buffered sf) && _ && _); [by injection Hv as <-|].
  destruct (stream_cacheable local h sf (rq_ri r)) as [c|]; [|done]. destruct (sf_buffered sf || _ || _ || _) eqn:Eb.
  - injection Hv as <-. unfold buffered_verdict, streamMissBuffered in *. destruct (too_large (h_maxResponseBytes h) (len (an_body a)) && _); [done|].
    cbn [v_acts v_cut] in *. apply publish_result in Hp as [<- H]. split; [done|]. split; [intros _|done]. cbn [res_StatusCode res_Header res_Body].
    destruct (c && negb _); [|done]. destruct (too_large _ _); [done|]. destruct (reserve_for _ _ _ _ _) as [n1 []]; done.
  - unfold streamMissTee. destruct (reserve_for h ownerFn _ _ n) as [n1 room]. destruct room; cbn [negb snd] in *; [|by injection Hv as <-]. injection Hv as <-. unfold tee_verdict in *.
    destruct (tee_exact h (an_reads a)) as (_ & _ & Hpre & Ht). destruct (t_complete _) eqn:Ec; cbn [negb] in *; [|done]. cbn [v_acts v_cut] in *. apply publish_result in Hp as [<- H]. split; [done|].
    cbn [res_StatusCode res_Header res_Body]. apply orb_false_elim in Eb as [Eb _]. apply orb_false_elim in Eb as [Eb _]. apply orb_false_elim in Eb as [_ Eb]. rewrite Eb. split.
    + intros He. destruct (Ht eq_refl He) as (_ & Hb & _). rewrite He. cbn [orb]. rewrite Hb. destruct (too_large _ _); done.
    + intros ->. cbn. eauto.
Qed.

Lemma isHeadFlight_ctx (r : miss) : isHeadFlight (rq_ri r) = isHead (ctx_Method (rq_ctx r)).
Proof. unfold isHeadFlight, rq_ri, requestInfoFromCtx, isHead. cbn. destruct (ctx_Method (rq_ctx r)); done. Qed.

Definition flight_base (r : miss) : Key := collapseFlightKey to_lower sum64 (h_policy h) (rq_primary r) (rq_lookup r) (rq_warm r) (ReqHeader (rq_ri r)).

(** The key spaces of the requests in play are apart: no lookup key is another's
    key moved into the space of HEAD or of fill flights. *)
Record spaces_apart (rs : list miss) : Prop := MkApart {
  ap_wf r : r ∈ rs -> wf_key (flight_base r);
  ap_head r r' : r ∈ rs -> r' ∈ rs -> flight_base r <> headFlightKey (flight_base r');
  ap_fill r r' : r ∈ rs -> r' ∈ rs -> flight_base r <> fillFlightKey (rq_primary r') /\ headFlightKey (flight_base r) <> fillFlightKey (rq_primary r');
}.

Lemma parked_handoff (r : miss) (key : Key) : parked to_lower sum64 h r key false ->
  collapseDenied (rq_ri r) = false /\ key = (if isHeadFlight (rq_ri r) then headFlightKey (flight_base r) else flight_base r).
Proof.
  intros (memo & re & Hr). unfold fetchAndStore_route in Hr. destruct re; [done|]. unfold fetchFlightKey in Hr. destruct (collapseDenied (rq_ri r)); [by rewrite beq_refl in Hr|].
  fold (flight_base r) in Hr. destruct (negb (beq (flight_base r) zero_key)); case_tests_in Hr; try done; by injection Hr as <-.
Qed.

Lemma parked_fill (r : miss) (key : Key) : parked to_lower sum64 h r key true -> collapseDenied (rq_ri r) = false /\ key = fillFlightKey (rq_primary r).
Proof.
  intros (memo & re & Hr). unfold fetchAndStore_route in Hr. destruct re; [done|]. unfold fetchFlightKey in Hr. destruct (collapseDenied (rq_ri r)); [by rewrite beq_refl in Hr|].
  fold (flight_base r) in Hr. destruct (negb (beq (flight_base r) zero_key)); case_tests_in Hr; try done; by injection Hr as <-.
Qed.

Lemma xor_high_inj (k k' : Key) (s : Z) : wf_key k -> wf_key k' -> 0 <= s -> xor_high k s = xor_high k' s -> k = k'.
Proof.
  intros Hk Hk' Hs. unfold xor_high. intros E. apply app_inj_1 in E as [E1 E2]; [|by rewrite !length_put_be].
  apply (f_equal get_be) in E1. rewrite !get_put_be in E1. pose proof (get_be_range (take 8 k)) as R1. pose proof (get_be_range (take 8 k')) as R2.
  unfold wf_key in *. rewrite length_take in R1, R2. replace (8 `min` length k)%nat with 8%nat in R1 by lia. replace (8 `min` length k')%nat with 8%nat in R2 by lia.
  assert (key_hi k = key_hi k') as Eh.
  { unfold key_hi in *. change (256 ^ Z.of_nat 8) with (2 ^ 64) in *. apply Z.bits_inj'. intros b Hb. destruct (decide (b < 64)) as [Hlt|Hge].
    - apply (f_equal (fun z => Z.testbit z b)) in E1. rewrite !Z.mod_pow2_bits_low in E1 by lia. rewrite !Z.lxor_spec in E1. destruct (Z.testbit s b), (Z.testbit (get_be (take 8 k)) b), (Z.testbit (get_be (take 8 k')) b); done.
    - rewrite <- (Z.mod_small (get_be (take 8 k)) (2 ^ 64)), <- (Z.mod_small (get_be (take 8 k')) (2 ^ 64)) by lia. by rewrite !Z.mod_pow2_bits_high by lia. }
  unfold key_hi in Eh. rewrite <- (take_drop 8 k), <- (take_drop 8 k'). rewrite E2. f_equal.
  rewrite <- (put_get_be (take 8 k)), <- (put_get_be (take 8 k')), Eh. f_equal. rewrite !length_take. lia.
Qed.
End Handoff.

(** *** Progress *)

Section Progress.
Context (to_lower : bytes -> bytes) (sum64 : bytes -> Z) (h : Handler) (may_fetch : miss -> verdict -> reply -> Prop).
Context (Hacts : forall r v own, may_fetch r v own -> acts_wf (v_acts v)).

(** Steps a thread still has to take, at most. A request parks only the first time
    it misses. *)
Definition pc_weight (p : at_pc) : nat :=
  match p with
  | Missed re => if re then 5 else 9
  | Loaded _ _ => 8
  | WaitDone _ => 5
  | WaitStored _ => 7
  | Reenters _ => 6
  | Leads _ key todo _ => 1 + length todo + match key with Some _ => 1 | None => 0 end
  | Finished _ => 0
  end.
Definition weight (g : fleet) : nat := sum_list_with (fun t => pc_weight t.2) (g_threads g).

Lemma sum_insert (l : list (miss * at_pc)) : forall i x y, l !! i = Some x ->
  (sum_list_with (fun t => pc_weight t.2) (<[i := y]> l) + pc_weight x.2 = sum_list_with (fun t => pc_weight t.2) l + pc_weight y.2)%nat.
Proof.
  induction l as [|z l IH]; intros i x y Hi; [done|]. destruct i as [|i]; [injection Hi as ->; cbn [insert list_insert sum_list_with]; lia|].
  specialize (IH i x y Hi). change (<[Datatypes.S i := y]> (z :: l)) with (z :: <[i := y]> l). cbn [sum_list_with]. lia.
Qed.

Lemma acts_length (r : miss) (v : verdict) (own : reply) : may_fetch r v own -> (length (v_acts v) <= 3)%nat.
Proof using Hacts. intros Hv. destruct (Hacts r v own Hv); cbn; lia. Qed.

Lemma reentry_alone (memo : bool) (r : miss) (key : Key) (fill : bool) : fetchAndStore_route to_lower sum64 h memo true r <> Park key fill.
Proof. done. Qed.

Lemma step_weight (i : nat) (g g' : fleet) : fleet_step to_lower sum64 h may_fetch i g g' -> (weight g' < weight g)%nat.
Proof using Hacts.
  intros Hst. assert (exists r p p', g_threads g !! i = Some (r, p) /\ g_threads g' = <[i := (r, p')]> (g_threads g) /\ (pc_weight p' < pc_weight p)%nat) as (r & p & p' & Hi & Ht & Hw).
  { destruct Hst as [g r memo re v own Hi Hr Hv|g r memo re key fill v own t f Hi Hr Ht Hv|g r memo re key fill t f Hi Hr Ht|g r f fill x Hi Hx|g r f key p todo st x Hi Hx Hres|g r f key todo st Hi
    |g r f key todo st x Hi Hx Hsd|g r f key todo st t Hi Hst Ht|g r f st x Hi Hx|g r f x p o Hi Hx Hp Ho|g r f x p v own Hi Hx Hp Ho Hv|g r f x p Hi Hx Hsd Hp|g r wave Hi|g r wave Hi];
      do 3 eexists; (split_and!; [exact Hi|reflexivity|]); cbn [pc_weight length]; try pose proof (acts_length r v own Hv); try (destruct re; [by destruct (reentry_alone memo r key fill)|]); try (destruct re); try lia.
    - by destruct fill; cbn; lia.
    - destruct p as [[]| |]; cbn; lia. }
  unfold weight. rewrite Ht. pose proof (sum_insert (g_threads g) i (r, p) (r, p') Hi) as Hs. cbn in Hs. lia.
Qed.

(** Some thread can move as long as one has not finished. *)
Lemma step_enabled (g : fleet) (i : nat) (r : miss) (p : at_pc) : (forall r, exists v own, may_fetch r v own) -> fleet_inv to_lower sum64 h may_fetch g ->
  g_threads g !! i = Some (r, p) -> (forall o, p <> Finished o) -> exists j g', fleet_step to_lower sum64 h may_fetch j g g'.
Proof.
  intros Hpub Hg. assert (forall j r0 f key todo st, g_threads g !! j = Some (r0, Leads f key todo st) -> exists j g', fleet_step to_lower sum64 h may_fetch j g g') as Hlead.
  { intros j r0 f key todo st Hj. destruct (gi_thread _ _ _ _ g Hg j r0 _ Hj) as (x & Hx & _ & Hs & _). destruct todo as [|[q| |] todo].
    - destruct key as [k|]; [|exists j; eexists; by eapply F_finish]. destruct (table_delete_spec (g_table g) k (gi_table _ _ _ _ g Hg)) as (t & E & _). exists j. eexists. eapply F_remove; [done|by right|done].
    - exists j. eexists. eapply F_publish; [done..|]. by destruct (stage_publish x q todo Hs).
    - exists j. eexists. by eapply F_store.
    - exists j. eexists. eapply F_settle; [done..|]. by destruct (stage_settle x todo Hs) as (_ & _ & ?). }
  assert (forall f x, g_flights g !! f = Some x -> (exists j g', fleet_step to_lower sum64 h may_fetch j g g') \/ (is_Some (fl_res x) /\ fl_stored x = true)) as Hfl.
  { intros f x Hx. destruct (fo_leader _ _ _ _ g f x (gi_flight _ _ _ _ g Hg f x Hx)) as [(j & key & todo & r0 & st & Hj)|]; [|by right]. left. by eapply Hlead. }
  intros Hi Hp. destruct (Hpub r) as (v & own & Hv). pose proof (gi_thread _ _ _ _ g Hg i r p Hi) as Ht. destruct p as [re|f b|f|f|w|f key todo st|o]; [| | | | |by eapply Hlead|by destruct (Hp o)].
  - destruct (fetchAndStore_route to_lower sum64 h false re r) as [|key fill] eqn:Er; [exists i; eexists; by eapply F_alone|].
    pose proof (loadOrStore_spec (g_table g) key (next_flight g) (gi_table _ _ _ _ g Hg)) as Hl. destruct (table_get (g_table g) key) as [f|]; [exists i; eexists; by eapply F_load|].
    destruct Hl as (t & E & _). exists i. eexists. by eapply F_lead.
  - destruct Ht as (x & _ & _ & Hx & _). exists i. eexists. by eapply F_count.
  - destruct Ht as (x & _ & _ & Hx & _). destruct (Hfl f x Hx) as [|[[q Hq] _]]; [done|]. destruct (follow r f q) as [o|] eqn:Ef; exists i; eexists; [by eapply F_handed|by eapply F_own].
  - destruct Ht as (x & _ & _ & Hx & _). destruct (Hfl f x Hx) as [|[[q Hq] Hs]]; [done|]. exists i. eexists. by eapply F_settled.
  - exists i. eexists. by eapply F_served.
Qed.
End Progress.

Inductive fleet_steps to_lower sum64 h may_fetch : fleet -> nat -> fleet -> Prop :=
| FS_nil g : fleet_steps to_lower sum64 h may_fetch g 0 g
| FS_cons i g g1 k g2 : fleet_step to_lower sum64 h may_fetch i g g1 -> fleet_steps to_lower sum64 h may_fetch g1 k g2 ->
    fleet_steps to_lower sum64 h may_fetch g (Datatypes.S k) g2.

Lemma fetches_wf {S : Type} {OS : ObjectStore S} to_lower sum64 local h gt ownerFn (r : miss) (v : verdict) (own : reply) :
  fetches (S := S) to_lower sum64 local h gt ownerFn r v own -> acts_wf (v_acts v).
Proof. intros (q & a & n & Hv & _). by eapply verdict_wf. Qed.

(** ** Theorems *)


(** C12. No request waits for ever on a shared fetch: as long as some request has not
    finished, some step is possible; when no more requests arrive, every run has
    at most [weight] steps, nine for each request, whatever the origin answers,
    because a request that was sent back by a fill never parks again; and no
    channel is closed twice. *)
Theorem flights_terminate {S : Type} {OS : ObjectStore S} (to_lower : bytes -> bytes) (sum64 : bytes -> Z) (local : bytes -> Z -> option Z)
    (h : Handler) (gt : gates) (ownerFn : option (Key -> bool)) (procs : Z) (g : fleet) (n0 : Node S) :
  let may := fetches to_lower sum64 local h gt ownerFn in
  fleet_reachable to_lower sum64 h may procs g ->
  ((exists i r p, g_threads g !! i = Some (r, p) /\ forall o, p <> Finished o) -> exists j g', fleet_step to_lower sum64 h may j g g') /\
  (forall k g', fleet_steps to_lower sum64 h may g k g' -> (k <= weight g)%nat) /\ (weight g <= 9 * length (g_threads g))%nat /\
  (forall i r f key todo st p, g_threads g !! i = Some (r, Leads f key (DoPublish p :: todo) st) -> exists x, g_flights g !! f = Some x /\ fl_res x = None) /\
  (forall i r f key todo st, g_threads g !! i = Some (r, Leads f key (DoSettle :: todo) st) -> exists x, g_flights g !! f = Some x /\ is_Some (fl_res x) /\ fl_stored x = false).
Proof.
  cbn zeta. intros Hr. pose proof (fleet_reachable_inv _ _ _ _ (fetches_wf _ _ _ _ _ _) _ _ Hr) as Hg. split_and!.
  - intros (i & r & p & Hi & Hp). eapply step_enabled; [|done..]. intros r0. eexists _, _, (at_time 0), (MkAnswers (Err ErrOther) [] [] 0 (Err ErrOther) (fun _ _ => Err ErrOther) None (Err ErrOther)), n0. split; reflexivity.
  - clear Hr Hg. intros k. revert g. induction k as [|k IH]; intros g g' Hs; [lia|]. inversion Hs as [|i ? g1 ? ? H1 H2]; subst. specialize (IH g1 g' H2). apply step_weight in H1; [lia|apply fetches_wf].
  - assert (forall i r p, g_threads g !! i = Some (r, p) -> (pc_weight p <= 9)%nat) as Hp.
    { intros i r p Hi. destruct p as [[]|f b|f|f|w|f key todo st|o]; cbn; try lia. destruct (gi_thread _ _ _ _ g Hg i r _ Hi) as (x & _ & _ & Hs & _).
      assert (length todo <= 3)%nat by (destruct Hs as [Hw|todo _ _ [-> | ->]|]; [by inversion Hw; cbn; lia|cbn; lia..]). destruct key; lia. }
    unfold weight. revert Hp. generalize (g_threads g). induction l as [|[r p] l IH]; intros Hp; [cbn; lia|]. cbn [sum_list_with length snd]. specialize (Hp 0%nat r p eq_refl) as H0.
    specialize (IH (fun i r p => Hp (Datatypes.S i) r p)). lia.
  - intros i r f key todo st p Hi. destruct (gi_thread _ _ _ _ g Hg i r _ Hi) as (x & Hx & _ & Hs & _). exists x. split; [done|]. by destruct (stage_publish x p todo Hs).
  - intros i r f key todo st Hi. destruct (gi_thread _ _ _ _ g Hg i r _ Hi) as (x & Hx & _ & Hs & _). exists x. split; [done|]. by destruct (stage_settle x todo Hs).
Qed.

(** *** Witnesses *)

(** Two requests for a page whose variant key is [warm_key], both missing while
    an object is stored. *)
Definition warm_key : Key := put_be 8 7 ++ put_be 8 9.
Definition warm_miss : miss := MkMiss (a_request "GET" []) warm_key warm_key true.
Definition shared_verdict : verdict := buffered_verdict plain_route page_reply (bs "salut") true false true.
Definition page_own : reply := ServeOrigin 200 (sf_toMap page_reply) (Some (bs "salut")).
Definition page_pub : publication := PubResult (MkFetch 200 (sf_toMap page_reply) (bs "salut") 0).

Abbreviation page_fetches := (fetches (S := gmap Key Object.t) (map lower_byte) len no_local_zone plain_route open_gates None).
Abbreviation page_step := (fleet_step (map lower_byte) len plain_route page_fetches).
Abbreviation page_reachable := (fleet_reachable (map lower_byte) len plain_route page_fetches 1).

Definition table_after (g : fleet) (key : Key) : inflightTable :=
  match loadOrStore (g_table g) key (next_flight g) with Some (t, _, _) => t | None => g_table g end.
Definition two_missed : fleet := MkFleet (newInflightTable 1) [] [(warm_miss, Missed false); (warm_miss, Missed false)].
Definition one_leads : fleet :=
  with_thread 0 warm_miss (Leads 0 (Some warm_key) (v_acts shared_verdict) false)
    (add_flight (newInflightStream warm_miss (Some (warm_key, false)) shared_verdict page_own) {| two_missed with g_table := table_after two_missed warm_key |}).
Definition one_loaded : fleet := with_thread 1 warm_miss (Loaded 0 false) {| one_leads with g_table := table_after one_leads warm_key |}.
Definition one_waits : fleet := with_thread 1 warm_miss (WaitDone 0) (with_flight 0 (MkFlight None false 1 warm_miss (Some (warm_key, false)) shared_verdict page_own) one_loaded).
Definition published : fleet :=
  with_thread 0 warm_miss (Leads 0 (Some warm_key) [DoStore; DoSettle] false) (with_flight 0 (MkFlight (Some page_pub) false 1 warm_miss (Some (warm_key, false)) shared_verdict page_own) one_waits).
Definition handed : fleet :=
  with_thread 1 warm_miss (Finished (Handed 0 (MkFetch 200 (sf_toMap page_reply) (bs "salut") 0))) published.

Lemma may_share : page_fetches warm_miss shared_verdict page_own.
Proof. exists (at_time 0), page_answers, empty_node. split; vm_compute; reflexivity. Qed.

Lemma two_missed_reachable : page_reachable two_missed.
Proof.
  eapply FR_arrival; [|apply (A_miss (MkFleet (newInflightTable 1) [] [(warm_miss, Missed false)]) warm_miss)].
  eapply FR_arrival; [|apply (A_miss (MkFleet (newInflightTable 1) [] []) warm_miss)]. apply FR_start.
Qed.

Lemma one_leads_reachable : page_reachable one_leads.
Proof.
  eapply FR_step; [apply two_missed_reachable|]. apply (F_lead _ _ _ _ 0 two_missed warm_miss false false warm_key false shared_verdict page_own _ 0); [reflexivity|vm_compute; reflexivity..|apply may_share].
Qed.

Lemma handed_reachable : page_reachable handed.
Proof.
  eapply FR_step; [eapply FR_step; [eapply FR_step; [eapply FR_step; [apply one_leads_reachable|]|]|]|].
  - apply (F_load _ _ _ _ 1 one_leads warm_miss false false warm_key false (table_after one_leads warm_key) 0); [reflexivity|vm_compute; reflexivity..].
  - apply (F_count _ _ _ _ 1 one_loaded warm_miss 0 false (newInflightStream warm_miss (Some (warm_key, false)) shared_verdict page_own)); reflexivity.
  - apply (F_publish _ _ _ _ 0 one_waits warm_miss 0 (Some warm_key) page_pub [DoStore; DoSettle] false (MkFlight None false 1 warm_miss (Some (warm_key, false)) shared_verdict page_own)); reflexivity.
  - apply (F_handed _ _ _ _ 1 published warm_miss 0 (MkFlight (Some page_pub) false 1 warm_miss (Some (warm_key, false)) shared_verdict page_own) page_pub); vm_compute; reflexivity.
Qed.


Lemma flights_terminate_witness : weight two_missed = 18%nat /\ exists j g', page_step j two_missed g'.
Proof.
  split; [reflexivity|]. apply (flights_terminate (map lower_byte) len no_local_zone plain_route open_gates None 1 two_missed empty_node two_missed_reachable).
  exists 0%nat, warm_miss, (Missed false). split; [reflexivity|discriminate].
Defined.

(** ** What the code does on edge inputs *)

(** A page whose body is streamed. *)
Definition streamed_page : streamFetchResult := MkStream (Some (raw_reply [("Cache-Control", "max-age=60")]%string, -1)) NewMap 200 0 false.
Definition streamed_answers : answers :=
  MkAnswers (Ok streamed_page) [] [(bs "sal", More, false, 0); (bs "ut", ReadEOF, false, 0)] 0 (Err ErrOther) (fun _ _ => Err ErrOther) None (Err ErrOther).

(** A body past the buffer cap reaches the leader's client whole, but the copy
    that was cut at the cap is published: followers get the first bytes as a
    complete response. *)
Lemma truncated_handoff :
  let h := {| plain_route with h_maxResponseBytes := 4 |} in
  option_map v_acts (streamMiss_verdict (map lower_byte) len no_local_zone h None streamed_answers warm_miss empty_node)
    = Some [DoPublish (PubResult (MkFetch 200 (sf_toMap streamed_page) (bs "sal") 0)); DoSettle] /\
  (streamMiss (map lower_byte) len no_local_zone h open_gates None (at_time 100) streamed_answers (rq_ctx warm_miss) warm_key (rq_ri warm_miss) empty_node).2
    = ServeOrigin 200 (sf_toMap streamed_page) (Some (bs "salut")).
Proof. vm_compute. split; reflexivity. Qed.

(** The entry of a streamed fetch leaves the table when the handler returns,
    before the body is through: the next request for the key leads a second
    fetch while the first is still streaming. *)
Lemma second_leader_while_streaming :
  exists g f f' todo todo', page_reachable g /\ g_threads g = [(warm_miss, Leads f None todo true); (warm_miss, Leads f' (Some warm_key) todo' true)] /\
    f <> f' /\ (exists p rest, todo = DoPublish p :: rest).
Proof.
  set (v := tee_verdict plain_route streamed_page (teeStreamToClient plain_route (an_reads streamed_answers))).
  set (own := ServeOrigin 200 (sf_toMap streamed_page) (Some (bs "salut"))).
  assert (page_fetches warm_miss v own) as Hv by (exists (at_time 0), streamed_answers, empty_node; split; vm_compute; reflexivity).
  set (g1 := with_thread 0 warm_miss (Leads 0 (Some warm_key) (v_acts v) true)
    (add_flight (newInflightStream warm_miss (Some (warm_key, false)) v own) {| two_missed with g_table := table_after two_missed warm_key |})).
  set (g2 := with_thread 0 warm_miss (Leads 0 None (v_acts v) true) {| g1 with g_table := default (g_table g1) (table_delete (g_table g1) warm_key) |}).
  set (g3 := with_thread 1 warm_miss (Leads 1 (Some warm_key) (v_acts v) true)
    (add_flight (newInflightStream warm_miss (Some (warm_key, false)) v own) {| g2 with g_table := table_after g2 warm_key |})).
  exists g3, 0%nat, 1%nat, (v_acts v), (v_acts v). split_and!; [|reflexivity|done|eexists _, _; reflexivity].
  apply (FR_step _ _ _ _ 1 g2 1 g3); [apply (FR_step _ _ _ _ 1 g1 0 g2); [apply (FR_step _ _ _ _ 1 two_missed 0 g1); [apply two_missed_reachable|]|]|].
  - apply (F_lead _ _ _ _ 0 two_missed warm_miss false false warm_key false v own (table_after two_missed warm_key) 0); [reflexivity|vm_compute; reflexivity..|done].
  - apply (F_remove _ _ _ _ 0 g1 warm_miss 0 warm_key (v_acts v) true); [reflexivity|by left|vm_compute; reflexivity].
  - apply (F_lead _ _ _ _ 1 g2 warm_miss false false warm_key false v own (table_after g2 warm_key) 1); [reflexivity|vm_compute; reflexivity..|done].
Qed.
