(* ===== verification/Batcher.v ===== *)
(** The invalidation batcher of the cluster (src/internal/cluster/batcher.go) and
    its callers in broadcast.go: purge and refresh events are delivered at once
    by an idle caller, or queued and delivered in batches by the flush loop.
    Callers, the ticker and the loop interleave as a step relation. *)

From S2P Require Import Prelude GoStd CacheControl HeaderMap Api ClusterCodec.

Definition broadcastBatchSize : Z := 256.
Definition broadcastQueueCap : Z := 4096.

(** ** One queue *)

Section Queue.
Context {E : Type}.

(** [purgeQueue] with [purgeFlushing], and the same for refreshes. *)
Record queue : Type := MkQueue { q_events : list E; q_flushing : bool }.

(** What [enqueuePurge] tells its caller: deliver this batch now (on the idle or
    the overflow path), or nothing. *)
Inductive enqueued : Type := DeliverIdle (batch : list E) | DeliverOverflow (batch : list E) | Kept.

Definition enqueuePurge (q : queue) (evt : E) : queue * enqueued :=
  if broadcastQueueCap <=? len (q_events q) then (q, DeliverOverflow [evt])
  else if (0 <? len (q_events q)) || q_flushing q then ({| q with q_events := q_events q ++ [evt] |}, Kept)
  else ({| q with q_flushing := true |}, DeliverIdle [evt]).

Definition enqueuePurgeAsync (q : queue) (evt : E) : queue * enqueued :=
  if broadcastQueueCap <=? len (q_events q) then (q, DeliverOverflow [evt])
  else ({| q with q_events := q_events q ++ [evt] |}, Kept).

Definition enqueueRefresh (q : queue) (evt : E) : queue * enqueued :=
  if broadcastQueueCap <=? len (q_events q) then (q, DeliverOverflow [evt])
  else if (0 <? len (q_events q)) || q_flushing q then ({| q with q_events := q_events q ++ [evt] |}, Kept)
  else ({| q with q_flushing := true |}, DeliverIdle [evt]).

(** [doneRefreshFlush] and [takeRefreshBatch] are the same on the other queue. *)
Definition donePurgeFlush (q : queue) : queue := {| q with q_flushing := false |}.
Definition takePurgeBatch (q : queue) : queue * list E := ({| q with q_events := [] |}, q_events q).
Definition requeue (q : queue) (batch : list E) : queue := {| q with q_events := batch ++ q_events q |}.
End Queue.
Arguments queue : clear implicits.
Arguments enqueued : clear implicits.

(** ** The batcher *)

(** The two queues of a batcher are two copies of the same code. *)
Inductive side : Type := Purges | Refreshes.
#[export] Instance side_eq_dec : EqDecision side.
Proof. solve_decision. Defined.

(** Why the loop looks at the queues: a wake-up flushes full batches only; a tick
    and the end flush everything. *)
Inductive flush_pass : Type := Due | Drain | Final.

Section Batcher.
Context {E : Type}.

(** Where the loop is: in its select; about to take a queue; with a batch in its
    hand; about to put a small batch back; returned. *)
Inductive loop_pc : Type :=
| Selecting
| Taking (s : side) (p : flush_pass)
| Holding (s : side) (p : flush_pass) (batch : list E)
| Requeueing (s : side) (p : flush_pass) (batch : list E)
| LoopExited.

(** A caller with a batch to deliver; [true] once it has and is about to call
    [donePurgeFlush]. The ghost fields: every event submitted, the events that
    were queued in order, what callers and what the loop delivered. *)
Record batcher : Type := MkBatcher {
  b_queue : side -> queue E;
  b_wakeup : bool;
  b_done : bool;
  b_loop : loop_pc;
  b_callers : list (side * list E * bool);
  b_submitted : side -> list E;
  b_kept : side -> list E;
  b_direct : side -> list E;
  b_flushed : side -> list E;
}.

Definition upd {A} (f : side -> A) (s : side) (x : A) : side -> A := fun s' => if decide (s' = s) then x else f s'.

Definition newInvalidationBatcher : batcher :=
  MkBatcher (fun _ => MkQueue [] false) false false Selecting [] (fun _ => []) (fun _ => []) (fun _ => []) (fun _ => []).

(** After an [enqueue]: the batch goes to the caller, a kept event signals the
    loop (appending and signalling are one step: a wake-up is only a hint). *)
Definition submit (s : side) (evt : E) (r : queue E * enqueued E) (b : batcher) : batcher :=
  let b := {| b with b_queue := upd (b_queue b) s r.1; b_submitted := upd (b_submitted b) s (b_submitted b s ++ [evt]) |} in
  match r.2 with
  | Kept => {| b with b_wakeup := true; b_kept := upd (b_kept b) s (b_kept b s ++ [evt]) |}
  | DeliverIdle batch | DeliverOverflow batch => {| b with b_callers := b_callers b ++ [(s, batch, false)] |}
  end.

(** [BroadcastPurge] and [BroadcastRefresh] enqueue with the same contract. *)
Definition enqueue_sync (s : side) : queue E -> E -> queue E * enqueued E :=
  match s with Purges => enqueuePurge | Refreshes => enqueueRefresh end.

Definition close_batcher (b : batcher) : batcher := {| b with b_done := true |}.

(** What follows the refreshes of a pass. *)
Definition pass_end (p : flush_pass) : loop_pc := match p with Final => LoopExited | _ => Selecting end.
Definition next_pc (s : side) (p : flush_pass) : loop_pc := match s with Purges => Taking Refreshes p | Refreshes => pass_end p end.

Inductive loop_step : batcher -> batcher -> Prop :=
| L_take b s p : b_loop b = Taking s p ->
    loop_step b {| b with b_queue := upd (b_queue b) s (takePurgeBatch (b_queue b s)).1; b_loop := Holding s p (takePurgeBatch (b_queue b s)).2 |}
| L_flush b s p batch : b_loop b = Holding s p batch -> (match p with Due => broadcastBatchSize <=? len batch | _ => 0 <? len batch end) = true ->
    loop_step b {| b with b_flushed := upd (b_flushed b) s (b_flushed b s ++ batch); b_loop := next_pc s p |}
| L_small b s batch : b_loop b = Holding s Due batch -> (broadcastBatchSize <=? len batch) = false -> (0 <? len batch) = true ->
    loop_step b {| b with b_loop := Requeueing s Due batch |}
| L_requeue b s p batch : b_loop b = Requeueing s p batch ->
    loop_step b {| b with b_queue := upd (b_queue b) s (requeue (b_queue b s) batch); b_loop := next_pc s p |}
| L_empty b s p batch : b_loop b = Holding s p batch -> (0 <? len batch) = false ->
    loop_step b {| b with b_loop := next_pc s p |}.

(** The events the loop selects on. *)
Inductive select_step : batcher -> batcher -> Prop :=
| W_wakeup b : b_loop b = Selecting -> b_wakeup b = true -> select_step b {| b with b_wakeup := false; b_loop := Taking Purges Due |}
| W_tick b : b_loop b = Selecting -> select_step b {| b with b_loop := Taking Purges Drain |}
| W_done b : b_loop b = Selecting -> b_done b = true -> select_step b {| b with b_loop := Taking Purges Final |}.

(** [BroadcastPurge], [BroadcastPurgeAsync], [BroadcastRefresh] and [close]. *)
Inductive caller_step : batcher -> batcher -> Prop :=
| C_sync b s evt : caller_step b (submit s evt (enqueue_sync s (b_queue b s) evt) b)
| C_async b evt : caller_step b (submit Purges evt (enqueuePurgeAsync (b_queue b Purges) evt) b)
| C_deliver b i s batch : b_callers b !! i = Some (s, batch, false) ->
    caller_step b {| b with b_direct := upd (b_direct b) s (b_direct b s ++ batch); b_callers := <[i := (s, batch, true)]> (b_callers b) |}
| C_done b i s batch : b_callers b !! i = Some (s, batch, true) ->
    caller_step b {| b with b_queue := upd (b_queue b) s (donePurgeFlush (b_queue b s)); b_callers := delete i (b_callers b) |}
| C_close b : caller_step b (close_batcher b).

Inductive batcher_step : batcher -> batcher -> Prop :=
| B_loop b b' : loop_step b b' -> batcher_step b b'
| B_select b b' : select_step b b' -> batcher_step b b'
| B_caller b b' : caller_step b b' -> batcher_step b b'.

Inductive batcher_reachable : batcher -> Prop :=
| BR_start : batcher_reachable newInvalidationBatcher
| BR_step b b' : batcher_reachable b -> batcher_step b b' -> batcher_reachable b'.

(** ** The invariant *)

(** The batch in the hand of the loop. *)
Definition in_hand (b : batcher) (s : side) : list E :=
  match b_loop b with Holding s' _ batch | Requeueing s' _ batch => if decide (s' = s) then batch else [] | _ => [] end.

Definition loop_has (b : batcher) (s : side) : bool :=
  match b_loop b with Holding s' _ _ | Requeueing s' _ _ => bool_decide (s' = s) | _ => false end.

(** The batches callers have not delivered yet. *)
Definition undelivered (s : side) (c : side * list E * bool) : list E := if decide (c.1.1 = s) then (if c.2 then [] else c.1.2) else [].
Definition with_callers (b : batcher) (s : side) : list E := concat (map (undelivered s) (b_callers b)).

Record batcher_inv (b : batcher) : Prop := MkBatcherInv {
  bi_fifo s : b_kept b s = b_flushed b s ++ in_hand b s ++ q_events (b_queue b s);
  bi_all s : b_submitted b s ≡ₚ b_kept b s ++ b_direct b s ++ with_callers b s;
  bi_requeue s p batch : b_loop b = Requeueing s p batch -> len batch < broadcastBatchSize;
  bi_cap s : len (q_events (b_queue b s)) <= broadcastQueueCap + (if loop_has b s then 0 else broadcastBatchSize - 1);
}.

Lemma upd_eq {A} (f : side -> A) (s : side) (x : A) : upd f s x s = x.
Proof. unfold upd. by destruct (decide (s = s)). Qed.
Lemma upd_ne {A} (f : side -> A) (s s' : side) (x : A) : s' <> s -> upd f s x s' = f s'.
Proof. unfold upd. intros H. by destruct (decide (s' = s)). Qed.

Lemma callers_app (s : side) (cs : list (side * list E * bool)) (c : side * list E * bool) :
  concat (map (undelivered s) (cs ++ [c])) = concat (map (undelivered s) cs) ++ undelivered s c.
Proof. rewrite map_app, concat_app. cbn. by rewrite app_nil_r. Qed.

Lemma callers_take (s : side) (cs : list (side * list E * bool)) (i : nat) (c c' : side * list E * bool) : cs !! i = Some c ->
  undelivered s c' = [] -> concat (map (undelivered s) cs) ≡ₚ undelivered s c ++ concat (map (undelivered s) (<[i := c']> cs)).
Proof.
  intros Hi Hc. rewrite <- (take_drop_middle cs i c Hi) at 1. assert (i < length cs)%nat as Hl by (by eapply lookup_lt_Some).
  rewrite insert_take_drop by done. rewrite !map_app, !concat_app. cbn. rewrite Hc. cbn. rewrite !app_assoc. apply Permutation_app_tail, Permutation_app_comm.
Qed.

Lemma callers_same (s : side) (cs : list (side * list E * bool)) (i : nat) (c c' : side * list E * bool) : cs !! i = Some c ->
  undelivered s c' = undelivered s c -> concat (map (undelivered s) (<[i := c']> cs)) = concat (map (undelivered s) cs).
Proof.
  intros Hi Hc. rewrite <- (take_drop_middle cs i c Hi) at 2. assert (i < length cs)%nat as Hl by (by eapply lookup_lt_Some).
  rewrite insert_take_drop by done. rewrite !map_app, !concat_app. cbn. by rewrite Hc.
Qed.

Lemma callers_delete (s : side) (cs : list (side * list E * bool)) (i : nat) (c : side * list E * bool) : cs !! i = Some c ->
  undelivered s c = [] -> concat (map (undelivered s) (delete i cs)) = concat (map (undelivered s) cs).
Proof.
  intros Hi Hc. rewrite <- (take_drop_middle cs i c Hi) at 2. rewrite delete_take_drop, !map_app, !concat_app. cbn. by rewrite Hc.
Qed.

(** *** Submitting *)

Lemma submit_inv (b : batcher) (s : side) (evt : E) (r : queue E * enqueued E) : batcher_inv b ->
  (r.2 = Kept /\ q_events r.1 = q_events (b_queue b s) ++ [evt] /\ len (q_events (b_queue b s)) < broadcastQueueCap) \/
  ((r.2 = DeliverIdle [evt] \/ r.2 = DeliverOverflow [evt]) /\ q_events r.1 = q_events (b_queue b s)) ->
  batcher_inv (submit s evt r b).
Proof.
  intros [F A R C] [(Hr & Hq & Hlt)|[Hr Hq]]; unfold submit.
  - rewrite Hr. split; cbn [b_queue b_submitted b_kept b_direct b_flushed b_loop b_callers in_hand with_callers loop_has]; [|..|done|]; intros s'; destruct (decide (s' = s)) as [->|Hne]; rewrite ?upd_eq, ?upd_ne by done.
    + rewrite Hq, F, !app_assoc. done.
    + apply F.
    + change (with_callers _ s) with (with_callers b s). rewrite A. rewrite <- !app_assoc. apply Permutation_app_head. rewrite (app_assoc (b_direct b s)). apply Permutation_app_comm.
    + change (with_callers _ s') with (with_callers b s'). apply A.
    + rewrite Hq, len_app. change (len [evt]) with 1. destruct (loop_has _ s); unfold broadcastBatchSize; lia.
    + apply C.
  - destruct Hr as [-> | ->]; (split; cbn [b_queue b_submitted b_kept b_direct b_flushed b_loop b_callers in_hand loop_has]; [|..|done|]; intros s'; [destruct (decide (s' = s)) as [->|Hne]; rewrite ?upd_eq, ?upd_ne by done; rewrite ?Hq; apply F| |
      destruct (decide (s' = s)) as [->|Hne]; rewrite ?upd_eq, ?upd_ne by done; rewrite ?Hq; apply C]);
      unfold with_callers; cbn [b_callers]; rewrite callers_app; unfold undelivered at 2; cbn [fst snd]; (destruct (decide (s' = s)) as [->|Hne];
        [rewrite upd_eq, (decide_True _ _ eq_refl), A; unfold with_callers; by rewrite !app_assoc|rewrite upd_ne, decide_False, app_nil_r by congruence; apply A]).
Qed.

Lemma enqueue_cases (q : queue E) (evt : E) (r : queue E * enqueued E) : r = enqueuePurge q evt \/ r = enqueuePurgeAsync q evt ->
  (r.2 = Kept /\ q_events r.1 = q_events q ++ [evt] /\ len (q_events q) < broadcastQueueCap) \/
  ((r.2 = DeliverIdle [evt] \/ r.2 = DeliverOverflow [evt]) /\ q_events r.1 = q_events q).
Proof. unfold enqueuePurge, enqueuePurgeAsync. intros [-> | ->]; destruct (broadcastQueueCap <=? len (q_events q)) eqn:E1; bool_cases; case_tests; cbn; auto. Qed.

(** A step of the loop between two places of the same side keeps what is in the
    queue and the hand. *)
Lemma loop_inv (b b' : batcher) : batcher_inv b -> loop_step b b' -> batcher_inv b'.
Proof.
  intros [F A R C] Hst. assert (forall s p, in_hand {| b with b_loop := next_pc s p |} = fun _ => []) as Hn by (intros [] []; done).
  assert (forall s p s', loop_has {| b with b_loop := next_pc s p |} s' = false) as Hl by (by intros [] []).
  destruct Hst as [b s p Hp|b s p batch Hp Hb|b s batch Hp H1 H2|b s p batch Hp|b s p batch Hp Hb].
  - split; cbn [b_queue b_submitted b_kept b_direct b_flushed b_loop b_callers]; [|done|done|]; intros s'.
    + unfold in_hand. cbn [b_loop]. specialize (F s'). unfold in_hand in F. rewrite Hp in F. destruct (decide (s' = s)) as [->|Hne].
      * rewrite upd_eq, decide_True by done. cbn. by rewrite app_nil_r, F.
      * rewrite upd_ne, decide_False by congruence. done.
    + unfold loop_has. cbn [b_loop]. specialize (C s'). unfold loop_has in C. rewrite Hp in C. destruct (decide (s' = s)) as [->|Hne].
      * rewrite upd_eq. cbn [takePurgeBatch fst q_events]. rewrite bool_decide_true by done. change (len []) with 0. unfold broadcastQueueCap. lia.
      * rewrite upd_ne, bool_decide_false by congruence. done.
  - split; cbn [b_queue b_submitted b_kept b_direct b_flushed b_loop b_callers]; [|done|by destruct s, p|]; intros s'.
    + change (in_hand _ s') with (in_hand {| b with b_loop := next_pc s p |} s'). rewrite Hn, F. unfold in_hand. rewrite Hp. destruct (decide (s' = s)) as [->|Hne].
      * rewrite upd_eq, decide_True by done. by rewrite !app_assoc, app_nil_r.
      * rewrite upd_ne, decide_False by congruence. done.
    + change (loop_has _ s') with (loop_has {| b with b_loop := next_pc s p |} s'). rewrite Hl. specialize (C s'). unfold broadcastBatchSize in *. destruct (loop_has b s'); lia.
  - bool_cases. split; cbn [b_queue b_submitted b_kept b_direct b_flushed b_loop b_callers]; [|done| |].
    + intros s'. specialize (F s'). unfold in_hand in *. cbn [b_loop]. by rewrite Hp in F.
    + by intros s' p' batch' [= <- <- <-].
    + intros s'. specialize (C s'). unfold loop_has in *. cbn [b_loop]. by rewrite Hp in C.
  - specialize (R s p batch Hp). split; cbn [b_queue b_submitted b_kept b_direct b_flushed b_loop b_callers]; [|done|by destruct s, p|]; intros s'.
    + change (in_hand _ s') with (in_hand {| b with b_loop := next_pc s p |} s'). rewrite Hn, F. unfold in_hand. rewrite Hp. destruct (decide (s' = s)) as [->|Hne].
      * rewrite upd_eq, decide_True by done. done.
      * rewrite upd_ne, decide_False by congruence. done.
    + change (loop_has _ s') with (loop_has {| b with b_loop := next_pc s p |} s'). rewrite Hl. specialize (C s'). unfold loop_has in C. rewrite Hp in C. unfold broadcastBatchSize in *.
      destruct (decide (s' = s)) as [->|Hne]; [rewrite upd_eq; cbn; rewrite len_app; rewrite bool_decide_true in C by done; lia|rewrite upd_ne by done; rewrite bool_decide_false in C by congruence; lia].
  - split; cbn [b_queue b_submitted b_kept b_direct b_flushed b_loop b_callers]; [|done|by destruct s, p|]; intros s'.
    + rewrite Hn, F. unfold in_hand. rewrite Hp. assert (batch = []) as -> by (destruct batch; [done|rewrite len_cons in Hb; pose proof (len_nonneg batch); bool_cases; lia]). by destruct (decide (s = s')).
    + rewrite Hl. specialize (C s'). unfold broadcastBatchSize in *. destruct (loop_has b s'); lia.
Qed.

Lemma caller_inv (b b' : batcher) : batcher_inv b -> caller_step b b' -> batcher_inv b'.
Proof.
  intros Hb Hst. destruct Hst as [b s evt|b evt|b i s batch Hi|b i s batch Hi|b].
  - apply submit_inv; [done|]. eapply enqueue_cases. left. by destruct s.
  - apply submit_inv; [done|]. eapply enqueue_cases. by right.
  - destruct Hb as [F A R C]. split; [done| |done|done]. intros s'. unfold with_callers. cbn [b_submitted b_kept b_direct b_callers]. rewrite (A s'). apply Permutation_app_head. unfold with_callers. destruct (decide (s' = s)) as [->|Hne].
    + rewrite upd_eq, (callers_take s (b_callers b) i (s, batch, false) (s, batch, true) Hi) by (unfold undelivered; cbn; by destruct (decide (s = s))).
      unfold undelivered at 1. cbn. rewrite decide_True by done. by rewrite <- app_assoc.
    + rewrite upd_ne by done. by rewrite (callers_same s' (b_callers b) i (s, batch, false)) by (done || (unfold undelivered; cbn; by rewrite !decide_False by congruence)).
  - destruct Hb as [F A R C]. split; [| |done|].
    + intros s'. cbn [b_kept b_flushed b_queue]. change (in_hand _ s') with (in_hand b s'). rewrite F. by destruct (decide (s' = s)) as [->|Hne]; rewrite ?upd_eq, ?upd_ne by done.
    + intros s'. unfold with_callers. cbn [b_submitted b_kept b_direct b_callers]. rewrite (callers_delete s' (b_callers b) i (s, batch, true)); [apply A|done|]. unfold undelivered. cbn. by destruct (decide (s = s')).
    + intros s'. cbn [b_queue]. change (loop_has _ s') with (loop_has b s'). specialize (C s'). by destruct (decide (s' = s)) as [->|Hne]; rewrite ?upd_eq, ?upd_ne by done.
  - by destruct Hb.
Qed.

Lemma batcher_step_inv (b b' : batcher) : batcher_inv b -> batcher_step b b' -> batcher_inv b'.
Proof.
  intros Hb Hst. destruct Hst as [b0 b0' Hl|b0 b0' Hs|b0 b0' Hc]; [exact (loop_inv b0 b0' Hb Hl)| |exact (caller_inv b0 b0' Hb Hc)]. destruct Hb as [F A R C].
  assert (forall s, in_hand b0 s = [] /\ loop_has b0 s = false) as Hn by (intros s; unfold in_hand, loop_has; by destruct Hs as [? -> _|? -> |? -> _]).
  destruct Hs as [b0 Hp Hw|b0 Hp|b0 Hp Hw]; (split; [intros s; destruct (Hn s) as [H1 _]; specialize (F s); rewrite H1 in F; exact F|exact A|done|
    intros s; destruct (Hn s) as [_ H2]; specialize (C s); rewrite H2 in C; exact C]).
Qed.

Lemma batcher_reachable_inv (b : batcher) : batcher_reachable b -> batcher_inv b.
Proof. induction 1 as [|b b' _ IH Hst]; [split; done|by eapply batcher_step_inv]. Qed.

(** ** A draining pass *)

(** A pass of the loop with the callers interleaved, counting the steps of the
    loop. *)
Inductive pass_run : nat -> batcher -> batcher -> Prop :=
| PR_refl b : pass_run 0 b b
| PR_loop n b b' b'' : pass_run n b b' -> loop_step b' b'' -> pass_run (S n) b b''
| PR_caller n b b' b'' : pass_run n b b' -> caller_step b' b'' -> pass_run n b b''.

(** The steps a draining pass [p] still has to take, and the sides it has
    already taken. *)
Definition steps_left (p : flush_pass) (pc : loop_pc) : option nat :=
  match pc, p with
  | Taking Purges Drain, Drain | Taking Purges Final, Final => Some 4
  | Holding Purges Drain _, Drain | Holding Purges Final _, Final => Some 3
  | Taking Refreshes Drain, Drain | Taking Refreshes Final, Final => Some 2
  | Holding Refreshes Drain _, Drain | Holding Refreshes Final _, Final => Some 1
  | Selecting, Drain | LoopExited, Final => Some 0
  | _, _ => None
  end%nat.

Definition taken (n : nat) (s : side) : bool := (n <? match s with Purges => 4 | Refreshes => 2 end)%nat.

(** The progress of a pass that started when [kept0] had been queued. *)
Definition pass_inv (p : flush_pass) (kept0 : side -> list E) (n : nat) (b : batcher) : Prop :=
  exists k, steps_left p (b_loop b) = Some k /\ (n + k = 4)%nat /\ (forall s, kept0 s `prefix_of` b_kept b s) /\
            (forall s, taken k s = true -> kept0 s `prefix_of` b_flushed b s ++ in_hand b s).

Lemma caller_keeps_loop (b b' : batcher) : caller_step b b' ->
  b_loop b' = b_loop b /\ b_flushed b' = b_flushed b /\ forall s, b_kept b s `prefix_of` b_kept b' s.
Proof.
  intros Hst. assert (forall s evt r, b_loop (submit s evt r b) = b_loop b /\ b_flushed (submit s evt r b) = b_flushed b /\ forall s', b_kept b s' `prefix_of` b_kept (submit s evt r b) s') as Hs.
  { intros s evt [q []]; (split; [done|split; [done|]]); intros s'; cbn; [done..|]. destruct (decide (s' = s)) as [->|Hne]; rewrite ?upd_eq, ?upd_ne by done; [by eexists|done]. }
  destruct Hst; try apply Hs; done.
Qed.

(** The hand of the loop after a step of a draining pass. *)
Lemma loop_pass_step (p : flush_pass) (kept0 : side -> list E) (n : nat) (b b' : batcher) : batcher_inv b ->
  pass_inv p kept0 n b -> loop_step b b' -> pass_inv p kept0 (S n) b'.
Proof.
  intros [F _ _ _] (k & Hk & Hn & Hpre & Hcov) Hst.
  destruct Hst as [b s q Hp|b s q batch Hp Hb|b s batch Hp H1 H2|b s q batch Hp|b s q batch Hp Hb]; rewrite Hp in Hk; try (by destruct s, p); try (by destruct s, q, p).
  - assert (q = p /\ k = (match s with Purges => 4 | Refreshes => 2 end)%nat) as [-> ->] by (by destruct s, q, p; simplify_eq Hk; intros <-).
    exists (match s with Purges => 3 | Refreshes => 1 end)%nat. split; [by destruct s, p|]. split; [destruct s; lia|]. split; [done|].
    intros s' Ht. cbn [b_flushed b_loop]. unfold in_hand. cbn [b_loop takePurgeBatch snd]. specialize (F s'). unfold in_hand in F. rewrite Hp in F. cbn in F. destruct (decide (s = s')) as [<-|Hne].
    + specialize (Hpre s). by rewrite F in Hpre.
    + destruct s, s'; try done. specialize (Hcov Purges eq_refl). unfold in_hand in Hcov. by rewrite Hp in Hcov.
  - assert (q = p /\ k = (match s with Purges => 3 | Refreshes => 1 end)%nat) as [-> ->] by (by destruct s, q, p; simplify_eq Hk; intros <-).
    exists (match s with Purges => 2 | Refreshes => 0 end)%nat. split; [by destruct s, p|]. split; [destruct s; lia|]. split; [done|].
    intros s' Ht. cbn [b_flushed]. assert (in_hand {| b with b_flushed := upd (b_flushed b) s (b_flushed b s ++ batch); b_loop := next_pc s p |} s' = []) as -> by (by destruct s, p).
    rewrite app_nil_r. specialize (Hcov s'). unfold in_hand in Hcov. rewrite Hp in Hcov. destruct (decide (s = s')) as [<-|Hne]; [rewrite upd_eq; apply Hcov; by destruct s|].
    rewrite upd_ne by done. rewrite app_nil_r in Hcov. apply Hcov. by destruct s, s'.
  - assert (q = p /\ k = (match s with Purges => 3 | Refreshes => 1 end)%nat) as [-> ->] by (by destruct s, q, p; simplify_eq Hk; intros <-).
    assert (batch = []) as -> by (destruct batch; [done|rewrite len_cons in Hb; pose proof (len_nonneg batch); bool_cases; lia]).
    exists (match s with Purges => 2 | Refreshes => 0 end)%nat. split; [by destruct s, p|]. split; [destruct s; lia|]. split; [done|].
    intros s' Ht. cbn [b_flushed]. assert (in_hand {| b with b_loop := next_pc s p |} s' = []) as -> by (by destruct s, p).
    specialize (Hcov s'). unfold in_hand in Hcov. rewrite Hp in Hcov. destruct (decide (s = s')) as [<-|Hne]; apply Hcov; [by destruct s|by destruct s, s'].
Qed.

Lemma pass_run_inv (p : flush_pass) (kept0 : side -> list E) (n : nat) (b b' : batcher) : batcher_inv b -> pass_inv p kept0 0 b -> pass_run n b b' ->
  batcher_inv b' /\ pass_inv p kept0 n b'.
Proof.
  intros Hb Hp. induction 1 as [b|n b b' b'' _ IH Hst|n b b' b'' _ IH Hst]; [done|..]; destruct (IH Hb Hp) as [Hb' Hp'].
  - split; [exact (loop_inv b' b'' Hb' Hst)|by eapply loop_pass_step].
  - split; [exact (caller_inv b' b'' Hb' Hst)|]. destruct (caller_keeps_loop b' b'' Hst) as (Hl & Hf & Hk). destruct Hp' as (k & H1 & H2 & H3 & H4).
    exists k. rewrite Hl, Hf. split; [done|]. split; [done|]. split; [intros s; etransitivity; [apply H3|apply Hk]|]. intros s Ht. unfold in_hand. rewrite Hl. by apply H4.
Qed.

(** A draining pass that is not over can go on. *)
Lemma pass_progress (p : flush_pass) (k : nat) (b : batcher) : steps_left p (b_loop b) = Some (S k) -> exists b', loop_step b b'.
Proof.
  intros Hk. destruct (b_loop b) as [|s q|s q batch|s q batch|] eqn:Hp; [by destruct p| | |by destruct p, s|by destruct p].
  - eexists. by eapply L_take.
  - destruct (0 <? len batch) eqn:Hb; [|eexists; by eapply L_empty]. eexists. eapply L_flush; [done|]. by destruct q, p, s.
Qed.
End Batcher.
Arguments batcher : clear implicits.
Arguments loop_pc : clear implicits.

(** ** The theorems *)

(** C15. The events of a batcher are never lost, duplicated or reordered on the way
    through the queue: at every reachable state, whatever the interleaving of
    callers, wake-ups, ticks and the loop, the events kept by a queue are in order
    those the loop flushed, those in its hand and those still queued; every
    submitted event was kept, delivered by its caller or is still with its caller,
    once; and a queue never holds more than its capacity plus one batch that was
    put back. *)
Theorem batcher_conserves (E : Type) (b : batcher E) (s : side) : batcher_reachable b ->
  b_kept b s = b_flushed b s ++ in_hand b s ++ q_events (b_queue b s) /\
  b_submitted b s ≡ₚ b_kept b s ++ b_direct b s ++ with_callers b s /\
  len (q_events (b_queue b s)) <= broadcastQueueCap + broadcastBatchSize - 1.
Proof.
  intros [F A R C]%batcher_reachable_inv. split; [apply F|]. split; [apply A|]. specialize (C s). unfold broadcastBatchSize in *. destruct (loop_has b s); lia.
Qed.

(** C16. Every queued event is delivered by the next draining pass: when the ticker (or
    [close]) starts a pass, then, however the callers interleave with it, the
    loop can always take its next step, the pass is over after four of them, and
    by then everything that was queued when it started has been flushed, in
    order. *)
Theorem batcher_drains (E : Type) (b b1 b2 : batcher E) (p : flush_pass) (n : nat) :
  batcher_reachable b -> select_step b b1 -> b_loop b1 = Taking Purges p -> p <> Due -> pass_run n b1 b2 ->
  (n <= 4)%nat /\
  ((n < 4)%nat -> exists b3, loop_step b2 b3) /\
  (n = 4%nat -> b_loop b2 = pass_end p /\ forall s, b_kept b s `prefix_of` b_flushed b2 s).
Proof.
  intros Hb%batcher_reachable_inv Hsel Hp Hdue Hrun.
  assert (batcher_inv b1) as Hb1 by (eapply batcher_step_inv; [exact Hb|by apply B_select]).
  assert (pass_inv p (b_kept b) 0 b1) as Hp1.
  { exists 4%nat. rewrite Hp. split; [by destruct p|]. split; [done|]. split; [by destruct Hsel|by intros []]. }
  destruct (pass_run_inv p (b_kept b) n b1 b2 Hb1 Hp1 Hrun) as [_ (k & Hk & Hn & _ & Hcov)]. split; [lia|]. split.
  - intros Hlt. destruct k as [|k]; [lia|]. by eapply pass_progress.
  - intros ->. assert (k = 0%nat) as -> by lia. assert (b_loop b2 = pass_end p) as Hl by (by destruct (b_loop b2) as [|[] []|[] []|[] []|], p).
    split; [done|]. intros s. specialize (Hcov s). unfold in_hand in Hcov. rewrite Hl in Hcov. rewrite <- (app_nil_r (b_flushed b2 s)). by destruct p; apply Hcov; destruct s.
Qed.

(** An idle purge with its caller, then one queued behind it. *)
Definition two_purges : batcher nat :=
  let b := submit Purges 1%nat (enqueuePurge (MkQueue [] false) 1%nat) newInvalidationBatcher in
  submit Purges 2%nat (enqueuePurge (b_queue b Purges) 2%nat) b.

Lemma two_purges_reachable : batcher_reachable two_purges.
Proof. eapply BR_step; [eapply BR_step; [apply BR_start|]|]; apply B_caller; [exact (C_sync newInvalidationBatcher Purges 1%nat)|apply (C_sync _ Purges 2%nat)]. Qed.

Lemma batcher_conserves_witness : batcher_reachable two_purges /\ b_kept two_purges Purges = [2%nat] /\
  b_submitted two_purges Purges ≡ₚ b_kept two_purges Purges ++ b_direct two_purges Purges ++ with_callers two_purges Purges.
Proof. split; [exact two_purges_reachable|]. split; [done|]. apply (batcher_conserves nat two_purges Purges), two_purges_reachable. Defined.

Lemma batcher_drains_witness : exists b1 b2, select_step two_purges b1 /\ pass_run 4 b1 b2 /\ [2%nat] `prefix_of` b_flushed b2 Purges.
Proof.
  assert (exists b1 b2, select_step two_purges b1 /\ b_loop b1 = Taking Purges Drain /\ pass_run 4 b1 b2) as (b1 & b2 & H1 & H2 & H3).
  { eexists _, _. split; [by apply W_tick|]. split; [done|].
    eapply PR_loop; [eapply PR_loop; [eapply PR_loop; [eapply PR_loop; [apply PR_refl|]|]|]|]; [eapply L_take|eapply L_flush|eapply L_take|eapply L_empty]; reflexivity. }
  exists b1, b2. split; [done|]. split; [done|].
  exact (proj2 (proj2 (proj2 (batcher_drains nat two_purges b1 b2 Drain 4 two_purges_reachable H1 H2 ltac:(done) H3)) eq_refl) Purges).
Defined.

(** ** What the batcher does not promise *)

(** A purge that queues behind another caller's delivery returns before it is
    delivered: no caller is left, and the event is still in the queue. *)
Lemma queued_purge_returns_undelivered : exists b : batcher nat, batcher_reachable b /\
  b_submitted b Purges = [1; 2]%nat /\ b_callers b = [] /\ b_direct b Purges = [1]%nat /\ b_flushed b Purges = [] /\ q_events (b_queue b Purges) = [2]%nat.
Proof.
  eexists. split; [eapply BR_step; [eapply BR_step; [exact two_purges_reachable|]|]; apply B_caller; [eapply (C_deliver _ 0)|eapply (C_done _ 0)]; reflexivity|]. done.
Qed.

(** One half of a pass on an empty queue. *)
Lemma empty_half (b : batcher nat) (s : side) (p : flush_pass) : batcher_reachable b -> b_loop b = Taking s p -> q_events (b_queue b s) = [] ->
  exists b', batcher_reachable b' /\ b_loop b' = next_pc s p /\ b_callers b' = b_callers b /\ forall s', q_events (b_queue b' s') = q_events (b_queue b s').
Proof.
  intros Hb Hl Hq. eexists. split; [eapply BR_step; [eapply BR_step; [exact Hb|apply B_loop; by eapply L_take]|apply B_loop; eapply L_empty; [reflexivity|cbn; by rewrite Hq]]|].
  split; [done|]. split; [done|]. intros s'. cbn. destruct (decide (s' = s)) as [->|Hne]; rewrite ?upd_eq, ?upd_ne by done; [by rewrite Hq|done].
Qed.

Lemma exited_stuck (b : batcher nat) : b_loop b = LoopExited -> (forall b', ~ loop_step b b') /\ (forall b', ~ select_step b b').
Proof. intros Hl. split; intros b' Hst; destruct Hst; congruence. Qed.

(** An event queued after [close] stays in the queue: the loop has returned. *)
Lemma purge_after_close_is_lost : exists b : batcher nat, batcher_reachable b /\
  q_events (b_queue b Purges) = [1]%nat /\ b_callers b = [] /\
  (forall b', ~ loop_step b b') /\ (forall b', ~ select_step b b').
Proof.
  assert (exists b : batcher nat, batcher_reachable b /\ b_loop b = LoopExited /\ b_callers b = [] /\ q_events (b_queue b Purges) = []) as (b & Hb & Hl & Hc & Hq).
  { set (b0 := {| (newInvalidationBatcher : batcher nat) with b_done := true; b_loop := Taking Purges Final |}).
    assert (batcher_reachable b0) as R0 by (eapply BR_step; [eapply BR_step; [apply BR_start|apply B_caller, C_close]|exact (B_select _ _ (W_done {| (newInvalidationBatcher : batcher nat) with b_done := true |} eq_refl eq_refl))]).
    destruct (empty_half b0 Purges Final R0) as (b1 & R1 & L1 & C1 & Q1); [done..|].
    destruct (empty_half b1 Refreshes Final R1) as (b2 & R2 & L2 & C2 & Q2); [done|by rewrite Q1|].
    exists b2. by rewrite C2, C1, Q2, Q1. }
  exists (submit Purges 1%nat (enqueuePurgeAsync (b_queue b Purges) 1%nat) b). split; [eapply BR_step; [exact Hb|apply B_caller, C_async]|].
  unfold enqueuePurgeAsync. rewrite Hq.
  split; [done|]. split; [done|]. by apply exited_stuck.
Qed.

(** *** Filling a queue *)

Lemma async_fill (b : batcher nat) (n : nat) : batcher_reachable b -> len (q_events (b_queue b Purges)) + Z.of_nat n <= broadcastQueueCap ->
  exists b', batcher_reachable b' /\ b_loop b' = b_loop b /\ b_callers b' = b_callers b /\ (n <> 0%nat -> b_wakeup b' = true) /\
    q_flushing (b_queue b' Purges) = q_flushing (b_queue b Purges) /\ len (q_events (b_queue b' Purges)) = len (q_events (b_queue b Purges)) + Z.of_nat n.
Proof.
  intros Hb. induction n as [|n IH]; intros Hn; [exists b; repeat split; try done; lia|].
  destruct IH as (b' & Hr & Hl & Hc & Hw & Hf & Hq); [lia|]. exists (submit Purges 1%nat (enqueuePurgeAsync (b_queue b' Purges) 1%nat) b').
  split; [eapply BR_step; [exact Hr|apply B_caller, C_async]|]. unfold enqueuePurgeAsync. replace (broadcastQueueCap <=? _) with false by lia.
  unfold submit. cbn. rewrite upd_eq. cbn. rewrite len_app. change (len [1%nat]) with 1. repeat split; try done. lia.
Qed.

(** The second half of [flushDue] returns to the select and leaves the purges
    alone. *)
Lemma refresh_due (b : batcher nat) : batcher_reachable b -> b_loop b = Taking Refreshes Due ->
  exists b', batcher_reachable b' /\ b_loop b' = Selecting /\ q_events (b_queue b' Purges) = q_events (b_queue b Purges).
Proof.
  intros Hb Hl. set (batch := q_events (b_queue b Refreshes)).
  set (b1 := {| b with b_queue := upd (b_queue b) Refreshes (takePurgeBatch (b_queue b Refreshes)).1; b_loop := Holding Refreshes Due batch |}).
  assert (batcher_reachable b1) as R1 by (eapply BR_step; [exact Hb|by apply B_loop, L_take]).
  destruct (broadcastBatchSize <=? len batch) eqn:E1.
  { eexists. split; [eapply BR_step; [exact R1|apply B_loop; by eapply L_flush]|done]. }
  destruct (0 <? len batch) eqn:E2.
  - eexists. split; [eapply BR_step; [eapply BR_step; [exact R1|apply B_loop; by eapply L_small]|apply B_loop; by eapply L_requeue]|done].
  - eexists. split; [eapply BR_step; [exact R1|apply B_loop; by eapply L_empty]|done].
Qed.

(** [flushDue] puts a small batch back in front of what was queued meanwhile, past
    the capacity: the next pass flushes one batch of more events than a peer
    accepts in one frame. *)
Lemma requeue_exceeds_frame_cap : exists (b : batcher nat) (batch : list nat), batcher_reachable b /\
  b_loop b = Holding Purges Drain batch /\ len batch = broadcastQueueCap + broadcastBatchSize - 1 /\ batchMaxEvents < len batch.
Proof.
  destruct (async_fill newInvalidationBatcher 255) as (b1 & R1 & L1 & C1 & W1 & _ & Q1); [apply BR_start|done|]. specialize (W1 ltac:(done)).
  set (b2 := {| b1 with b_wakeup := false; b_loop := Taking Purges Due |}). assert (batcher_reachable b2) as R2 by (eapply BR_step; [exact R1|by apply B_select, W_wakeup]).
  set (b3 := {| b2 with b_queue := upd (b_queue b2) Purges (takePurgeBatch (b_queue b2 Purges)).1; b_loop := Holding Purges Due (takePurgeBatch (b_queue b2 Purges)).2 |}).
  assert (batcher_reachable b3) as R3 by (eapply BR_step; [exact R2|by apply B_loop, L_take]).
  destruct (async_fill b3 4096) as (b4 & R4 & L4 & _ & _ & _ & Q4); [exact R3|done|]. set (small := q_events (b_queue b1 Purges)) in *.
  assert (len small = 255) as Hs by (rewrite Q1; done). assert (b_loop b4 = Holding Purges Due small) as L4' by (rewrite L4; done).
  set (b5 := {| b4 with b_loop := Requeueing Purges Due small |}).
  assert (batcher_reachable b5) as R5 by (eapply BR_step; [exact R4|apply B_loop, L_small; [done|rewrite Hs; done..]]).
  set (b6 := {| b5 with b_queue := upd (b_queue b5) Purges (requeue (b_queue b5 Purges) small); b_loop := next_pc Purges Due |}).
  assert (batcher_reachable b6) as R6 by (eapply BR_step; [exact R5|by apply B_loop, L_requeue]).
  set (rq := q_events (b_queue b6 Purges)). assert (len rq = 4351) as Hrq by (change rq with (small ++ q_events (b_queue b4 Purges)); rewrite len_app, Hs, Q4; done).
  assert (exists b7, batcher_reachable b7 /\ b_loop b7 = Selecting /\ q_events (b_queue b7 Purges) = rq) as (b7 & R7 & L7 & Q7).
  { destruct (refresh_due b6) as (b7 & H); [exact R6|done|]. by exists b7. }
  eexists _, rq. split.
  - eapply BR_step; [eapply BR_step; [exact R7|by apply B_select, W_tick]|]. apply B_loop. by eapply L_take.
  - cbn. rewrite Q7, Hrq. done.
Qed.
